(* ===== verification/_CoqProject ===== *)
-Q . S2P
Prelude.v
Object.v
Capability.v
CapabilityProps.v
Job.v
JobProps.v
Containment.v
ContainmentProps.v
WaitSet.v
EventPort.v
EventPortProps.v
ProcessModel.v
ProcessModelProps.v
Scheduling.v
SchedulingProps.v
Slots.v
SmpExecution.v
SmpExecutionProps.v
ExecutionRuntime.v
NullfsBytes.v
NullfsPhase3.v
NullfsSuperblock.v
NullfsRecord.v
NullfsInode.v
NullfsDirectory.v
NullfsAllocation.v
NullfsProps.v
BlockDevice.v
CrashDevice.v
Journal.v
JournalDisk.v
JournalSteps.v
JournalRecovery.v
JournalProps.v
Volume.v
Mutation.v
Mount.v
Extents.v
VolumeReads.v
Session.v
MutationSteps.v
Atomicity.v
Layout.v
Ownership.v
Mounted.v
FileWrite.v
Truncate.v
Namespace.v
DirectoryViews.v
NamespaceSteps.v
Create.v
Remove.v
Rename.v
Orphans.v
Reclaim.v
Validate.v
Lifecycle.v
Remount.v
ImageBuilder.v
ImagePlan.v
ImageVolume.v
ImageWrites.v
ImageContents.v
ImageNodes.v
ImageTree.v
ImageBitmaps.v
ImageMetadata.v
Format.v
Lifetime.v
Durability.v
DemoVolume.v
FilesystemProps.v
