(* ===== verification/Prelude.v ===== *)
(** * NullStar OS: a verification library

    The repository is a capability-based operating system in Rust.  This library
    models its policy core and its filesystem as executable Rocq functions and
    proves the theorems that make them correct.

    ** The program and its model

    A Rust method on [&mut self] that returns [Result<A, E>] is a function
    [M S E A] of this prelude: it maps the state to an [outcome] ([Ok], [Err], or
    [Abort] for a panic) and the state left behind, so that the mutations made
    before an error are kept, as in Rust.  Integers are [Z] with the source's
    checked, saturating or wrapping operations; [Vec] and arrays are lists; every
    loop that is not structural carries fuel, and exhausted fuel is [Abort].
    [wp m Q R s] says that [m] ends from [s] with [Ok] and [Q] or with [Err] and
    [R], in particular not with [Abort]: the specifications of the operations are
    [wp] triples, and every theorem about runs of operations includes totality.

    Kernel policy (src/kernel/src):
    - [Object]: object.rs, identities, rights and signals;
    - [Capability], [CapabilityProps]: capability.rs, the handle tables of all
      processes;
    - [Job], [JobProps]: job.rs, membership and exit records of a job;
    - [Containment], [ContainmentProps]: containment.rs, the tree of jobs with
      resource limits; the loops up the parent chain and down the subtree carry
      fuel, the number of jobs, which the tree invariant makes enough;
    - [WaitSet], [EventPort], [EventPortProps]: wait_set.rs and event_port.rs;
    - [ProcessModel], [ProcessModelProps]: process_model.rs, processes and
      threads; the search for a free thread identity has one unit of fuel per
      thread and one more;
    - [Scheduling], [SchedulingProps]: scheduling.rs, the per-CPU round-robin
      queues, migration and rebalancing;
    - [Slots], [SmpExecution], [SmpExecutionProps]: smp_execution.rs, which keeps
      the process table and the scheduler in step; [Slots] holds the laws of the
      table of current threads;
    - [ExecutionRuntime]: execution_runtime.rs, the owner of the coordinator, which
      registers the contexts of CPUs and userspace tasks and rolls back half-finished
      registrations; its histories mix its own calls with those of the coordinator.

    The filesystem (src/crates):
    - [NullfsBytes]: nullfs-format/src/checksum.rs and the byte fields; block
      layouts as lists of updates, with the tactic that reads a field back;
    - [NullfsPhase3], [NullfsSuperblock], [NullfsRecord], [NullfsInode],
      [NullfsDirectory], [NullfsAllocation], [NullfsProps]: phase3.rs,
      superblock.rs, features.rs, inode.rs, directory.rs and allocation_group.rs of
      nullfs-format; the class [BlockCodec] states what a record codec promises, its
      instances are the journal records, directory blocks and descriptor tables;
    - [BlockDevice], [CrashDevice]: nullfs-blockdev/src/lib.rs and the
      fault-injecting device of nullfs-testkit/src/lib.rs; the class [BlockDevice]
      is the trait, the class [CrashSafe] is what the journal relies on (reads see
      the last writes, a power failure leaves every block with the contents of the
      last flush, of a later write, or torn), and both devices implement it;
    - [Journal]: nullfs-core/src/journal.rs and the block layer of lib.rs;
      [JournalDisk] (what a disk stands for), [JournalSteps] (commit) and
      [JournalRecovery] (recovery, overlay, staged reads) hold its lemmas,
      [JournalProps] its theorems;
    - [Volume], [Mutation], [Mount]: the rest of nullfs-core, that is reads and path
      resolution (lib.rs), every operation that changes files and directories
      (mutation.rs), and discovery, the consistency check, mount and unmount
      (lib.rs);
    - [Extents], [VolumeReads]: block maps of inodes, and what reads return for the
      blocks that a filesystem sees;
    - [Session], [MutationSteps], [Atomicity]: an open transaction as a view of the
      blocks; each step of mutation.rs as a change of the view; all or nothing for
      an operation that ends with a commit, and [ready], a filesystem between two
      operations;
    - [Layout], [Ownership], [Mounted]: where the groups are, and [consistent]: the
      table of inodes, the bitmaps and the free counts agree and no block is owned
      twice;
    - [FileWrite], [Truncate], [Namespace], [DirectoryViews], [NamespaceSteps],
      [Create], [Remove], [Rename], [Orphans], [Reclaim]: the tree of directories
      and its entries, the orphan list, and the specification of each operation;
      [filesystem_ok] is the invariant of the volume and its tree, [contents_ok] adds
      that the bytes after the end of a file are zero, [sound] adds the open handles;
    - [Validate]: the consistency check accepts every consistent volume;
    - [Lifecycle], [Remount], [Lifetime], [Durability]: histories of operations, what
      a mount finds ([contains] ties the nodes, entries, state block and orphans to the
      blocks of the device), unmounting, and lives of a volume across power failures;
    - [ImageBuilder]: the image builder of nullfs-testkit/src/lib.rs, which
      mkfs-nullfs uses; [ImagePlan], [ImageVolume], [ImageWrites], [ImageContents],
      [ImageNodes], [ImageTree], [ImageBitmaps], [ImageMetadata] follow its steps and
      [Format] shows what it leaves on the device;
    - [DemoVolume]: a small formatted volume, the witness for the theorems of
      [FilesystemProps].

    The loops of the filesystem have fuel that their specifications show to be
    enough: the number of bytes left for reads and writes, one more than the number of
    inodes for the orphan list and for the walk to the root.  On a list that is a
    cycle the search for the predecessor of an orphan does not end in the source; it
    is an abort here, and the invariant excludes it.

    ** What the theorems show

    - The runtime and its coordinator keep scheduler and process table in step
      through any sequence of calls, registrations that are rolled back included, and
      the rollback inside a failed registration never fails; a failed call of the
      coordinator changes nothing.  The method that rolls a process back is for
      processes that have not been published: of a process with children, an exit
      record or an exited thread it can fail half way, and the theorems exclude or
      name this case.
    - Rights never grow, closed handles never come back (every call that takes a
      handle refuses them), revocation is permanent, transfers are atomic.
    - The usage of a job is the total over its subtree and stays within the limits
      of all its ancestors; admission and release are inverse; limits only
      tighten.
    - The run queues hold every runnable thread once; every runnable thread runs
      within a bounded number of ticks; rebalancing terminates and takes the best
      move.
    - Threads and processes follow the lifecycle, exits are reported once and are
      final; job exits are delivered first in first out and none is lost; the events
      that an event port delivers are those that a contract over the log of observed
      signals, stated without the queue, prescribes.
    - The journal implements a block store with atomic commits under any sequence
      of power failures and interrupted recoveries, on any crash-safe device and
      on the fault-injecting device with whole-block persistence; a read-only mount sees the same
      blocks as a writable one; a transaction that fills the journal is refused.
    - The decoders of the superblock and of the journal records accept exactly
      the encodings; formatted volumes mount; bitmap updates and tail checks are
      exact.
    - A formatted volume can always be mounted again, whatever operations, power
      failures, failed mounts and unmounts it went through; files that the builder
      was given are read back.  A mount finds what completed operations left: the
      same entries, the inodes with links, the same bytes.
    - Creation, removal, renaming and truncation are all or nothing across a power
      failure, with their exact effect on the tree; a write stores a prefix of its
      input; a file that is resized reads as zeros from its smaller size on.  No
      sequence of operations panics.  Unmounting writes the clean mark to both
      superblocks and changes nothing else.

    ** Not modelled

    System-call entry, page tables, context switches, drivers and architecture
    support are raw memory, inline assembly and device registers.  User-space
    programs and services are event loops over IPC.  The torn-write modes of the
    fault-injecting device are modelled but its [CrashSafe] instance is for
    whole-block persistence; [CrashSafe] itself admits torn blocks.  CRC-32C is
    computed but never assumed to be collision free: the theorems that need a torn
    block to be rejected say so as a hypothesis.  The theorems about mounts assume
    that a power failure leaves no block torn ([torn] is empty): both superblocks are
    rewritten at every mount, and a torn block in each of two of them is not
    recoverable.  A mount of a volume with orphans or without stored counts may fail
    for other reasons than the device, because reclaiming needs a transaction; the
    volume is then as mountable as before.  Unmounting a filesystem that has stopped
    at a lost commit recovers it in place; that path is modelled but the theorems
    about lives of a volume leave it to the next mount.  The manifest lists every
    part of the repository with its status. *)

From stdpp Require Import base list numbers option sorting sets gmap relations.
From Stdlib Require Import ZArith Lia.

Open Scope Z_scope.

(** ** Machine integers

    Fixed-width unsigned integers are [Z]; every operation of the source that
    can leave the range is written with the operation the source names. *)

Definition u16_max : Z := 65535.
Definition u32_max : Z := 4294967295.
Definition u64_max : Z := 18446744073709551615.

(** [is_u64 z]: [z] is a value of the Rust type [u64]. *)
Definition is_u64 (z : Z) : Prop := 0 <= z <= u64_max.
Definition is_u32 (z : Z) : Prop := 0 <= z <= u32_max.

Definition wrap (width z : Z) : Z := z mod 2 ^ width.

Definition checked_add (max a b : Z) : option Z :=
  if a + b <=? max then Some (a + b) else None.

Definition checked_sub (a b : Z) : option Z :=
  if b <=? a then Some (a - b) else None.

Definition checked_mul (max a b : Z) : option Z :=
  if a * b <=? max then Some (a * b) else None.
Definition saturating_add (max a b : Z) : Z := Z.min max (a + b).
Definition saturating_sub (a b : Z) : Z := Z.max 0 (a - b).

(** Bitwise complement at 64 bits, Rust's [!x] on [u64]. *)
Definition not64 (x : Z) : Z := Z.lxor x u64_max.

(** ** Outcomes and the state-and-error monad

    A Rust method [fn op(&mut self, ..) -> Result<A, E>] becomes
    [op .. : M S E A], a function from the receiver's state to an outcome and
    the state it leaves behind; an error returned by [?] keeps the mutations
    already made, as in Rust.  [Abort] is the third way a call can end: a
    panic ([expect], an index out of bounds, a failed [assert!], an overflow of
    unchecked arithmetic) or, for a loop translated with fuel, exhausted fuel.
    The theorems show that reachable states never produce it. *)

Inductive outcome (E A : Type) : Type :=
| Ok (a : A)
| Err (e : E)
| Abort.
Arguments Ok {_ _} _.
Arguments Err {_ _} _.
Arguments Abort {_ _}.

Definition M (S E A : Type) : Type := S → outcome E A * S.

#[global] Instance outcome_ret E : MRet (outcome E) := λ A a, Ok a.
#[global] Instance outcome_bind E : MBind (outcome E) := λ A B k o,
  match o with Ok a => k a | Err e => Err e | Abort => Abort end.

#[global] Instance M_ret S E : MRet (M S E) := λ A a s, (Ok a, s).
#[global] Instance M_bind S E : MBind (M S E) := λ A B k m s,
  match m s with
  | (Ok a, s') => k a s'
  | (Err e, s') => (Err e, s')
  | (Abort, s') => (Abort, s')
  end.

(** [option::ok_or] *)
Definition ok_or {E A} (o : option A) (e : E) : outcome E A :=
  match o with Some a => Ok a | None => Err e end.

(** [Option::expect] and slice indexing *)
Definition expect {E A} (o : option A) : outcome E A :=
  match o with Some a => Ok a | None => Abort end.

(** [Result::map_err] *)
Definition map_err {E F A} (f : E → F) (o : outcome E A) : outcome F A :=
  match o with Ok a => Ok a | Err e => Err (f e) | Abort => Abort end.

(** [if b { return Err(e) }] *)
Definition err_if {E} (b : bool) (e : E) : outcome E unit :=
  if b then Err e else Ok ().

Section monad.
Context {S E : Type}.

Definition get : M S E S := λ s, (Ok s, s).
Definition put (s : S) : M S E unit := λ _, (Ok (), s).
Definition modify (f : S → S) : M S E unit := λ s, (Ok (), f s).
(** A call that only reads the receiver. *)
Definition reads {A} (f : S → outcome E A) : M S E A := λ s, (f s, s).
Definition lift {A} (o : outcome E A) : M S E A := λ s, (o, s).
End monad.

(** Run a method of a field of the receiver: [self.field.op(..)], with the
    field's error type converted by [f]. *)
Definition zoom {S T E F A} (proj : S → T) (set : T → S → S) (f : E → F)
    (m : M T E A) : M S F A := λ s,
  let '(o, t) := m (proj s) in (map_err f o, set t s).

(** [match op() { Ok(a) => .., Err(e) => .. }] *)
Definition try_catch {S E F A B} (m : M S E A) (ok : A → M S F B) (err : E → M S F B)
    : M S F B := λ s,
  match m s with
  | (Ok a, s') => ok a s'
  | (Err e, s') => err e s'
  | (Abort, s') => (Abort, s')
  end.

(** [op().expect(..)] *)
Definition must {S E F A} (m : M S E A) : M S F A := λ s,
  match m s with (Ok a, s') => (Ok a, s') | (_, s') => (Abort, s') end.

(** A call whose result and error value are not looked at. *)
Definition discard {S E A} (m : M S E A) : M S unit unit := λ s,
  match m s with (Ok _, s') => (Ok (), s') | (Err _, s') => (Err (), s') | (Abort, s') => (Abort, s') end.

(** [for x in l { f(x)?; }] *)
Fixpoint for_each {S E A} (l : list A) (f : A → M S E unit) : M S E unit :=
  match l with
  | [] => mret ()
  | x :: l => _ ← f x; for_each l f
  end.

(** [for x in l { acc = f(acc, x)?; }] *)
Fixpoint for_fold {S E A B} (l : list A) (acc : B) (f : B → A → M S E B) : M S E B :=
  match l with
  | [] => mret acc
  | x :: l => acc ← f acc x; for_fold l acc f
  end.

(** [for x in l { if let Some(b) = f(x)? { return Ok(Some(b)); } }] and [None] after it. *)
Fixpoint for_find {S E A B} (l : list A) (f : A → M S E (option B)) : M S E (option B) :=
  match l with
  | [] => mret None
  | x :: l =>
      found ← f x;
      match found with Some b => mret (Some b) | None => for_find l f end
  end.

(** The range [lo..hi] of integers. *)
Definition range (lo hi : Z) : list Z := seqZ lo (hi - lo).

(** ** Weakest preconditions

    [wp m Q R s]: run from [s], [m] does not abort; it returns a value in [Q]
    or an error in [R]. *)

Definition wp {S E A} (m : M S E A) (Q : A → S → Prop) (R : E → S → Prop) (s : S) : Prop :=
  match m s with
  | (Ok a, s') => Q a s'
  | (Err e, s') => R e s'
  | (Abort, _) => False
  end.

Definition wpo {E A} (o : outcome E A) (Q : A → Prop) (R : E → Prop) : Prop :=
  match o with Ok a => Q a | Err e => R e | Abort => False end.

Section wp_rules.
Context {S E : Type}.
Implicit Types s : S.

Lemma wp_mono {A} (m : M S E A) (Q Q' : A → S → Prop) (R R' : E → S → Prop) s :
  wp m Q R s →
  (∀ a s', Q a s' → Q' a s') → (∀ e s', R e s' → R' e s') →
  wp m Q' R' s.
Proof. unfold wp. destruct (m s) as [[]]; naive_solver. Qed.

Lemma wp_ret {A} (a : A) (Q : A → S → Prop) (R : E → S → Prop) s :
  Q a s → wp (mret a) Q R s.
Proof. done. Qed.

Lemma wp_bind {A B} (m : M S E A) (k : A → M S E B) Q R s :
  wp m (λ a s', wp (k a) Q R s') R s → wp (m ≫= k) Q R s.
Proof. unfold wp, mbind, M_bind. by destruct (m s) as [[]]. Qed.

Lemma wp_get (Q : S → S → Prop) (R : E → S → Prop) s : Q s s → wp get Q R s.
Proof. done. Qed.

Lemma wp_modify f (Q : unit → S → Prop) (R : E → S → Prop) s :
  Q () (f s) → wp (modify f) Q R s.
Proof. done. Qed.

Lemma wp_put t (Q : unit → S → Prop) (R : E → S → Prop) s : Q () t → wp (put t) Q R s.
Proof. done. Qed.

Lemma wp_reads {A} (f : S → outcome E A) (Q : A → S → Prop) (R : E → S → Prop) s :
  wpo (f s) (λ a, Q a s) (λ e, R e s) → wp (reads f) Q R s.
Proof. unfold wp, reads, wpo. by destruct (f s). Qed.

Lemma wp_lift {A} (o : outcome E A) (Q : A → S → Prop) (R : E → S → Prop) s :
  wpo o (λ a, Q a s) (λ e, R e s) → wp (lift o) Q R s.
Proof. unfold wp, lift, wpo. by destruct o. Qed.

Lemma wp_elim {A} (m : M S E A) Q R s o s' :
  wp m Q R s → m s = (o, s') →
  (∃ a, o = Ok a ∧ Q a s') ∨ (∃ e, o = Err e ∧ R e s').
Proof. unfold wp. intros H Hm. rewrite Hm in H. destruct o; naive_solver. Qed.

Lemma wp_ok {A} (m : M S E A) Q R s a s' :
  wp m Q R s → m s = (Ok a, s') → Q a s'.
Proof. unfold wp. intros H Hm. by rewrite Hm in H. Qed.

Lemma wp_err {A} (m : M S E A) Q R s e s' :
  wp m Q R s → m s = (Err e, s') → R e s'.
Proof. unfold wp. intros H Hm. by rewrite Hm in H. Qed.

Lemma wp_no_abort {A} (m : M S E A) Q R s : wp m Q R s → (m s).1 ≠ Abort.
Proof. unfold wp. by destruct (m s) as [[]]. Qed.

Lemma wp_intro {A} (m : M S E A) (Q : A → S → Prop) (R : E → S → Prop) s :
  (m s).1 ≠ Abort →
  (∀ a s', m s = (Ok a, s') → Q a s') → (∀ e s', m s = (Err e, s') → R e s') →
  wp m Q R s.
Proof. unfold wp. destruct (m s) as [[]]; naive_solver. Qed.

Lemma wp_and {A} (m : M S E A) Q R Q' R' s :
  wp m Q R s → wp m Q' R' s →
  wp m (λ a s', Q a s' ∧ Q' a s') (λ e s', R e s' ∧ R' e s') s.
Proof. unfold wp. destruct (m s) as [[]]; naive_solver. Qed.
End wp_rules.

Lemma wp_try_catch {S E F A B} (m : M S E A) (ok : A → M S F B) (err : E → M S F B) Q R s :
  wp m (λ a s', wp (ok a) Q R s') (λ e s', wp (err e) Q R s') s →
  wp (try_catch m ok err) Q R s.
Proof. unfold wp, try_catch. by destruct (m s) as [[]]. Qed.

Lemma wp_must {S E F A} (m : M S E A) Q (R : F → S → Prop) s :
  wp m Q (λ _ _, False) s → wp (must m) Q R s.
Proof. unfold wp, must. by destruct (m s) as [[]]. Qed.

Lemma wp_discard {S E A} (m : M S E A) (Q R : unit → S → Prop) s :
  wp m (λ _ s', Q () s') (λ _ s', R () s') s → wp (discard m) Q R s.
Proof. unfold wp, discard. by destruct (m s) as [[]]. Qed.

Lemma wp_zoom {S T E F A} (proj : S → T) (set : T → S → S) (f : E → F) (m : M T E A) Q R s :
  wp m (λ a t, Q a (set t s)) (λ e t, R (f e) (set t s)) (proj s) →
  wp (zoom proj set f m) Q R s.
Proof. unfold wp, zoom. by destruct (m (proj s)) as [[]]. Qed.

Lemma wpo_bind {E A B} (o : outcome E A) (k : A → outcome E B) Q R :
  wpo o (λ a, wpo (k a) Q R) R → wpo (o ≫= k) Q R.
Proof. by destruct o. Qed.

Lemma wpo_ret {E A} (a : A) (Q : A → Prop) (R : E → Prop) : Q a → wpo (mret a) Q R.
Proof. done. Qed.

Lemma wpo_mono {E A} (o : outcome E A) (Q Q' : A → Prop) (R R' : E → Prop) :
  wpo o Q R → (∀ a, Q a → Q' a) → (∀ e, R e → R' e) → wpo o Q' R'.
Proof. destruct o; naive_solver. Qed.

Lemma wpo_ok_or {E A} (o : option A) (e : E) (Q : A → Prop) (R : E → Prop) :
  (∀ a, o = Some a → Q a) → (o = None → R e) → wpo (ok_or o e) Q R.
Proof. destruct o; naive_solver. Qed.

Lemma wpo_expect {E A} (o : option A) (Q : A → Prop) (R : E → Prop) a :
  o = Some a → Q a → wpo (expect o) Q R.
Proof. by intros ->. Qed.

Lemma wpo_err_if {E} (b : bool) (e : E) (Q : unit → Prop) (R : E → Prop) :
  (b = true → R e) → (b = false → Q ()) → wpo (err_if b e) Q R.
Proof. destruct b; naive_solver. Qed.

Lemma wpo_map_err {E F A} (f : E → F) (o : outcome E A) (Q : A → Prop) (R : F → Prop) :
  wpo o Q (λ e, R (f e)) → wpo (map_err f o) Q R.
Proof. by destruct o. Qed.

(** Loops: an invariant over the elements already done. *)
Lemma wp_for_fold {S E A B} (l : list A) (f : B → A → M S E B) (I : list A → B → S → Prop)
    (Q : B → S → Prop) (R : E → S → Prop) acc s :
  I [] acc s →
  (∀ done x acc s, done ++ [x] `prefix_of` l → I done acc s →
     wp (f acc x) (λ acc s, I (done ++ [x]) acc s) R s) →
  (∀ acc s, I l acc s → Q acc s) → wp (for_fold l acc f) Q R s.
Proof.
  intros Hi Hf HQ.
  assert (∀ rest done acc s, l = done ++ rest → I done acc s → wp (for_fold rest acc f) Q R s) as Hloop.
  { clear Hi acc s. induction rest as [|x rest IH]; intros done acc s Hl Hi; cbn [for_fold].
    - rewrite app_nil_r in Hl. subst. apply wp_ret. by apply HQ.
    - apply wp_bind. eapply wp_mono; [apply Hf; [|exact Hi]| |done].
      + exists rest. by rewrite <- app_assoc.
      + intros acc' s' Hi'. apply (IH (done ++ [x])); [by rewrite <- app_assoc|done]. }
  by apply (Hloop l []).
Qed.

Lemma wp_for_find {S E A B} (l : list A) (f : A → M S E (option B)) (I : list A → S → Prop)
    (Q : option B → S → Prop) (R : E → S → Prop) s :
  I [] s →
  (∀ done x s, done ++ [x] `prefix_of` l → I done s →
     wp (f x) (λ r s, match r with Some b => Q (Some b) s | None => I (done ++ [x]) s end) R s) →
  (∀ s, I l s → Q None s) → wp (for_find l f) Q R s.
Proof.
  intros Hi Hf HQ.
  assert (∀ rest done s, l = done ++ rest → I done s → wp (for_find rest f) Q R s) as Hloop.
  { clear Hi s. induction rest as [|x rest IH]; intros done s Hl Hi; cbn [for_find].
    - rewrite app_nil_r in Hl. subst. apply wp_ret. by apply HQ.
    - apply wp_bind. eapply wp_mono; [apply Hf; [|exact Hi]| |done].
      + exists rest. by rewrite <- app_assoc.
      + intros [b|] s' Hi'; [by apply wp_ret|]. apply (IH (done ++ [x])); [by rewrite <- app_assoc|done]. }
  by apply (Hloop l []).
Qed.

(** [wp_step] takes one syntactic step of symbolic execution; [wp_steps]
    iterates it, introducing the case hypotheses of the guards. *)
Ltac wp_step :=
  lazymatch goal with
  | |- wp (mret _) _ _ _ => apply wp_ret
  | |- wp (mbind _ _) _ _ _ => apply wp_bind
  | |- wp get _ _ _ => apply wp_get
  | |- wp (put _) _ _ _ => apply wp_put
  | |- wp (modify _) _ _ _ => apply wp_modify
  | |- wp (reads _) _ _ _ => apply wp_reads
  | |- wp (lift _) _ _ _ => apply wp_lift
  | |- wp (try_catch _ _ _) _ _ _ => apply wp_try_catch
  | |- wp (zoom _ _ _ _) _ _ _ => apply wp_zoom
  | |- wpo (mret _) _ _ => apply wpo_ret
  | |- wpo (Ok _) _ _ => cbn [wpo]
  | |- wpo (Err _) _ _ => cbn [wpo]
  | |- wpo (mbind _ _) _ _ => apply wpo_bind
  | |- wpo (ok_or _ _) _ _ => apply wpo_ok_or; [intros ? ? | intros ?]
  | |- wpo (err_if _ _) _ _ => apply wpo_err_if; [intros ? | intros ?]
  | |- wpo (map_err _ _) _ _ => apply wpo_map_err
  end.
Ltac wp_steps := repeat (wp_step; cbv beta).

(** Boolean tests of the code to propositions. *)
Ltac bool_simpl :=
  repeat match goal with
  | H : bool_decide _ = true |- _ => apply bool_decide_eq_true_1 in H
  | H : bool_decide _ = false |- _ => apply bool_decide_eq_false_1 in H
  | H : negb _ = true |- _ => apply negb_true_iff in H
  | H : negb _ = false |- _ => apply negb_false_iff in H
  | H : _ || _ = false |- _ => apply orb_false_iff in H as [? ?]
  | H : _ && _ = true |- _ => apply andb_true_iff in H as [? ?]
  | H : (_ =? _) = true |- _ => apply Z.eqb_eq in H
  | H : (_ =? _) = false |- _ => apply Z.eqb_neq in H
  | H : (_ <=? _) = true |- _ => apply Z.leb_le in H
  | H : (_ <=? _) = false |- _ => apply Z.leb_gt in H
  | H : (_ <? _) = true |- _ => apply Z.ltb_lt in H
  | H : (_ <? _) = false |- _ => apply Z.ltb_ge in H
  end.

#[global] Instance Ok_inj E A : Inj eq eq (@Ok E A).
Proof. by intros ?? [=]. Qed.
Lemma err_if_Ok {E} b (e : E) u : err_if b e = Ok u → b = false.
Proof. by destruct b. Qed.
Lemma ok_or_Ok {E A} (o : option A) (e : E) a : ok_or o e = Ok a → o = Some a.
Proof. by destruct o; intros [= ->]. Qed.

(** [oks]: a pure computation that ended in [Ok] passed all its guards. *)
Ltac oks :=
  repeat match goal with
  | H : mbind _ _ = Ok _ |- _ => unfold mbind, outcome_bind in H
  | H : match ?o with Ok _ => _ | Err _ => _ | Abort => _ end = Ok _ |- _ =>
      let E := fresh "E" in destruct o eqn:E; [|discriminate H..]
  | H : mret _ = Ok _ |- _ => apply (inj Ok) in H
  | H : Ok _ = Ok _ |- _ => apply (inj Ok) in H
  | H : err_if _ _ = Ok _ |- _ => apply err_if_Ok in H
  | H : ok_or _ _ = Ok _ |- _ => apply ok_or_Ok in H
  end; subst.

(** ** Pure computations *)

Lemma bind_Ok {E A B} (a : A) (k : A → outcome E B) : (Ok a ≫= k) = k a.
Proof. done. Qed.
Lemma bind_mret {E A B} (a : A) (k : A → outcome E B) : (mret a ≫= k) = k a.
Proof. done. Qed.
Lemma err_if_Ok_iff {E} b (e : E) : err_if b e = Ok () ↔ b = false.
Proof. by destruct b. Qed.
Lemma bind_Ok_iff {E A B} (o : outcome E A) (k : A → outcome E B) b :
  (o ≫= k) = Ok b ↔ ∃ a, o = Ok a ∧ k a = Ok b.
Proof. destruct o; cbn; naive_solver. Qed.
Lemma bind_unit_Ok {E B} (o : outcome E unit) (k : unit → outcome E B) b :
  (o ≫= k) = Ok b ↔ o = Ok () ∧ k () = Ok b.
Proof. rewrite bind_Ok_iff. split; [intros ([] & ? & ?); auto|naive_solver]. Qed.
Lemma err_if_false {E} b (e : E) : b = false → err_if b e = Ok ().
Proof. by intros ->. Qed.
Lemma bind_no_abort {E A B} (o : outcome E A) (k : A → outcome E B) :
  o ≠ Abort → (∀ a, k a ≠ Abort) → (o ≫= k) ≠ Abort.
Proof. destruct o; cbn; auto. Qed.
Lemma err_if_no_abort {E} b (e : E) : err_if b e ≠ Abort.
Proof. by destruct b. Qed.
Lemma ok_or_no_abort {E A} (o : option A) (e : E) : ok_or o e ≠ Abort.
Proof. by destruct o. Qed.

(** [no_abort]: a computation without slicing or unwrapping does not abort. *)
Create HintDb no_abort.
#[export] Hint Resolve err_if_no_abort ok_or_no_abort : no_abort.
Ltac no_abort :=
  repeat first
    [ discriminate | solve [eauto with no_abort]
    | apply bind_no_abort; [|intros ?]
    | match goal with |- (if ?b then _ else _) ≠ _ => destruct b end
    | match goal with |- (match ?x with _ => _ end) ≠ _ => destruct x end ].

(** ** Vec operations *)

Section vec.
Context {A : Type}.
Implicit Types (l : list A) (p : A → bool) (i : nat).

(** [iter().position(p)] *)
Fixpoint position p l : option nat :=
  match l with
  | [] => None
  | x :: l => if p x then Some 0%nat else S <$> position p l
  end.

(** [iter().any(p)] and [iter().all(p)] *)
Fixpoint any p l : bool :=
  match l with [] => false | x :: l => p x || any p l end.

(** [Vec::swap_remove]: the last element takes the place of the removed one. *)
Definition swap_remove i l : list A :=
  match last l with
  | Some x => take (length l - 1) (<[i := x]> l)
  | None => l
  end.

(** [Vec::push] *)
Definition push l (x : A) : list A := l ++ [x].

Lemma position_Some p l i :
  position p l = Some i →
  ∃ x, l !! i = Some x ∧ p x = true ∧ ∀ j y, (j < i)%nat → l !! j = Some y → p y = false.
Proof.
  revert i. induction l as [|x l IH]; intros i; [done|]. cbn.
  destruct (p x) eqn:Hp; [intros [= <-]; exists x; split_and!; auto; lia|].
  destruct (position p l) as [k|]; [|done]. intros [= <-].
  destruct (IH k eq_refl) as (y & Hy & Hpy & Hmin).
  exists y. split_and!; [done..|]. intros [|j] z Hj; cbn; [by intros [= <-]|].
  apply Hmin. lia.
Qed.

Lemma position_None p l : position p l = None → ∀ x, x ∈ l → p x = false.
Proof.
  induction l as [|x l IH]; cbn; [set_solver|].
  destruct (p x) eqn:Hp; [done|]. destruct (position p l); [done|].
  intros _ y [->|Hy]%elem_of_cons; [done|]. by apply IH.
Qed.

Lemma position_is_Some p l x : x ∈ l → p x = true → is_Some (position p l).
Proof.
  intros Hx Hp. destruct (position p l) eqn:E; [eauto|].
  pose proof (position_None _ _ E x Hx). congruence.
Qed.

Lemma any_true p l : any p l = true ↔ ∃ x, x ∈ l ∧ p x = true.
Proof.
  induction l as [|x l IH]; cbn; [set_solver|].
  rewrite orb_true_iff, IH. setoid_rewrite elem_of_cons. naive_solver.
Qed.

Lemma any_false p l : any p l = false ↔ ∀ x, x ∈ l → p x = false.
Proof.
  induction l as [|x l IH]; cbn; [set_solver|].
  rewrite orb_false_iff, IH. setoid_rewrite elem_of_cons. naive_solver.
Qed.

Lemma length_swap_remove i l :
  length (swap_remove i l) = (length l - 1)%nat.
Proof.
  unfold swap_remove. destruct (last l) eqn:E; [|apply last_None in E; by subst].
  rewrite length_take, length_insert. lia.
Qed.

Lemma swap_remove_Permutation i l x :
  l !! i = Some x → l ≡ₚ x :: swap_remove i l.
Proof.
  intros Hi. unfold swap_remove.
  destruct (last l) as [z|] eqn:E; [|apply last_None in E; by subst].
  apply last_Some in E as [l' ->]. rewrite length_app. cbn.
  replace (length l' + 1 - 1)%nat with (length l') by lia.
  destruct (decide (i < length l')%nat) as [Hl|Hl].
  - rewrite lookup_app_l in Hi by done. rewrite insert_app_l, take_app_length' by
      (rewrite ?length_insert; lia).
    apply list_elem_of_split_length in Hi as (l1 & l2 & -> & ->).
    rewrite insert_app_r_alt, Nat.sub_diag by lia. cbn. solve_Permutation.
  - pose proof (lookup_lt_Some _ _ _ Hi). rewrite length_app in *. cbn in *.
    assert (i = length l') as -> by lia. rewrite lookup_app_r, Nat.sub_diag in Hi by lia.
    cbn in Hi. injection Hi as ->. rewrite insert_app_r_alt, Nat.sub_diag by lia. cbn.
    rewrite take_app_length. by rewrite Permutation_app_comm.
Qed.
End vec.

(** ** Sums *)

Definition zsum {A} (f : A → Z) (l : list A) : Z := foldr (λ x acc, f x + acc) 0 l.

Arguments zsum : simpl never.

Section zsum.
Context {A : Type}.
Implicit Types (f g : A → Z) (l : list A).

Lemma zsum_nil f : zsum f [] = 0.
Proof. done. Qed.
Lemma zsum_cons f x l : zsum f (x :: l) = f x + zsum f l.
Proof. done. Qed.
Lemma zsum_app f l1 l2 : zsum f (l1 ++ l2) = zsum f l1 + zsum f l2.
Proof. induction l1 as [|x l1 IH]; [done|]. cbn [app]. rewrite !zsum_cons. lia. Qed.
Lemma zsum_push f l x : zsum f (push l x) = zsum f l + f x.
Proof. unfold push. rewrite zsum_app, zsum_cons, zsum_nil. lia. Qed.
#[global] Instance zsum_Permutation f : Proper (Permutation ==> eq) (zsum f).
Proof. induction 1; rewrite ?zsum_cons in *; lia. Qed.
Lemma zsum_ext f g l : (∀ x, x ∈ l → f x = g x) → zsum f l = zsum g l.
Proof.
  induction l as [|x l IH]; intros H; [done|]. rewrite !zsum_cons, H by set_solver.
  rewrite IH; [done|]. intros; apply H; set_solver.
Qed.
Lemma zsum_nonneg f l : (∀ x, x ∈ l → 0 ≤ f x) → 0 ≤ zsum f l.
Proof.
  induction l as [|x l IH]; intros H; [done|]. rewrite zsum_cons.
  assert (0 ≤ f x) by (apply H; set_solver).
  assert (0 ≤ zsum f l) by (apply IH; intros; apply H; set_solver). lia.
Qed.
Lemma zsum_0 f l : (∀ x, x ∈ l → f x = 0) → zsum f l = 0.
Proof. intros H. rewrite (zsum_ext f (λ _, 0)) by done. clear H. by induction l. Qed.
Lemma zsum_ge f l x : (∀ y, y ∈ l → 0 ≤ f y) → x ∈ l → f x ≤ zsum f l.
Proof.
  intros Hn Hx. apply list_elem_of_split in Hx as (l1 & l2 & ->).
  rewrite zsum_app, zsum_cons. assert (0 ≤ zsum f l1 ∧ 0 ≤ zsum f l2) as []; [|lia].
  split; apply zsum_nonneg; intros; apply Hn; set_solver.
Qed.
Lemma zsum_fmap {B} (g : B → A) f (l : list B) : zsum f (g <$> l) = zsum (λ x, f (g x)) l.
Proof. induction l as [|x l IH]; [done|]. rewrite fmap_cons, !zsum_cons, IH. done. Qed.
Lemma zsum_insert f l i x y : l !! i = Some x →
  zsum f (<[i := y]> l) = zsum f l - f x + f y.
Proof.
  intros H. apply list_elem_of_split_length in H as (l1 & l2 & -> & ->).
  rewrite insert_app_r_alt, Nat.sub_diag by lia. cbn [insert list_insert].
  rewrite !zsum_app, !zsum_cons. lia.
Qed.
Lemma zsum_alter f (h : A → A) l i x : l !! i = Some x →
  zsum f (alter h i l) = zsum f l - f x + f (h x).
Proof.
  intros H. apply list_elem_of_split_length in H as (l1 & l2 & -> & ->).
  rewrite alter_app_r_alt, Nat.sub_diag by lia. cbn [alter list_alter].
  rewrite !zsum_app, !zsum_cons. lia.
Qed.
Lemma zsum_plus f g l : zsum (λ x, f x + g x) l = zsum f l + zsum g l.
Proof. induction l as [|x l IH]; [done|]. rewrite !zsum_cons, IH. lia. Qed.
Lemma zsum_scale f c l : zsum (λ x, f x * c) l = zsum f l * c.
Proof. induction l as [|x l IH]; [done|]. rewrite !zsum_cons, IH. lia. Qed.
(** A sum with one nonzero term. *)
Lemma zsum_pick f l i x : l !! i = Some x →
  (∀ j y, l !! j = Some y → j ≠ i → f y = 0) → zsum f l = f x.
Proof.
  intros Hi Hz. apply list_elem_of_split_length in Hi as (l1 & l2 & -> & ->).
  rewrite zsum_app, zsum_cons, !zsum_0; [lia|..].
  - intros y [j Hj]%list_elem_of_lookup. apply (Hz (S (length l1) + j)%nat); [|lia].
    rewrite lookup_app_r by lia. by replace (S (length l1) + j - length l1)%nat with (S j) by lia.
  - intros y [j Hj]%list_elem_of_lookup. pose proof (lookup_lt_Some _ _ _ Hj).
    apply (Hz j); [by rewrite lookup_app_l|lia].
Qed.
End zsum.

Lemma zsum_swap {A B} (h : A → B → Z) (l : list A) (k : list B) :
  zsum (λ x, zsum (h x) k) l = zsum (λ y, zsum (λ x, h x y) l) k.
Proof.
  induction l as [|x l IH].
  - rewrite zsum_nil. symmetry. by apply zsum_0.
  - rewrite zsum_cons, IH, <- zsum_plus. by apply zsum_ext.
Qed.

Lemma filter_all {A} (P : A → Prop) `{!∀ x, Decision (P x)} (l : list A) :
  (∀ x, x ∈ l → P x) → filter P l = l.
Proof.
  induction l as [|x l IH]; intros Hl; [done|].
  rewrite filter_cons_True by (apply Hl; by left). f_equal. apply IH. intros y Hy. apply Hl. by right.
Qed.

(** Distinct keys identify the elements of a table. *)
Lemma NoDup_key_inj {A B} (f : A → B) (l : list A) x y :
  NoDup (f <$> l) → x ∈ l → y ∈ l → f x = f y → x = y.
Proof.
  intros Hnd [i Hi]%list_elem_of_lookup [j Hj]%list_elem_of_lookup Heq.
  assert (i = j) as ->; [|congruence].
  eapply NoDup_lookup; [exact Hnd|..]; rewrite list_lookup_fmap; [by rewrite Hi|by rewrite Hj, Heq].
Qed.

Lemma checked_add_Some max a b c : checked_add max a b = Some c ↔ c = a + b ∧ a + b ≤ max.
Proof. unfold checked_add. destruct (_ <=? _) eqn:E; bool_simpl; naive_solver lia. Qed.

Lemma checked_add_fits max a b : a + b ≤ max → checked_add max a b = Some (a + b).
Proof. intros. by apply checked_add_Some. Qed.

Lemma checked_mul_Some max a b c : checked_mul max a b = Some c ↔ c = a * b ∧ a * b ≤ max.
Proof. unfold checked_mul. destruct (_ <=? _) eqn:E; bool_simpl; naive_solver lia. Qed.

Lemma checked_sub_Some a b c : checked_sub a b = Some c ↔ c = a - b ∧ b ≤ a.
Proof. unfold checked_sub. destruct (_ <=? _) eqn:E; bool_simpl; naive_solver lia. Qed.

(** ** Bits of 64-bit words *)

Lemma u64_max_ones : u64_max = Z.ones 64.
Proof. reflexivity. Qed.

Lemma is_u64_bits z : is_u64 z ↔ 0 ≤ z ∧ ∀ i, 64 ≤ i → Z.testbit z i = false.
Proof.
  unfold is_u64. split.
  - intros [H0 Hm]. split; [done|]. intros i Hi.
    destruct (decide (z = 0)) as [->|]; [apply Z.bits_0|].
    apply Z.bits_above_log2; [done|].
    eapply Z.lt_le_trans; [|exact Hi]. apply Z.log2_lt_pow2; unfold u64_max in *; lia.
  - intros [H0 Hb]. split; [done|].
    assert (z mod 2 ^ 64 = z) as Hz.
    { rewrite <- Z.land_ones by lia. apply Z.bits_inj'. intros i Hi.
      rewrite Z.land_spec. destruct (decide (i < 64)).
      - by rewrite Z.ones_spec_low, andb_true_r by lia.
      - by rewrite Hb by lia. }
    pose proof (Z.mod_pos_bound z (2 ^ 64)). unfold u64_max. lia.
Qed.

Lemma testbit_not64 x i : Z.testbit (not64 x) i =
  if decide (0 ≤ i < 64) then negb (Z.testbit x i) else Z.testbit x i.
Proof.
  unfold not64. rewrite u64_max_ones, Z.lxor_spec.
  destruct (decide (0 ≤ i)).
  - destruct (decide (i < 64)).
    + rewrite Z.ones_spec_low by lia. rewrite decide_True by lia.
      by destruct (Z.testbit x i).
    + rewrite Z.ones_spec_high by lia. rewrite decide_False by lia.
      by destruct (Z.testbit x i).
  - rewrite !Z.testbit_neg_r by lia. by rewrite decide_False by lia.
Qed.

Lemma testbit_andnot a b i : is_u64 a →
  Z.testbit (Z.land a (not64 b)) i = Z.testbit a i && negb (Z.testbit b i).
Proof.
  intros [Ha Hi]%is_u64_bits. rewrite Z.land_spec, testbit_not64.
  case_decide as Hd; [done|].
  destruct (decide (0 ≤ i)); [by rewrite Hi by lia|].
  by rewrite !Z.testbit_neg_r by lia.
Qed.

(** ** Components as machines

    The interface a component offers to reasoning about whole histories: calls,
    which of them have arguments of the right machine type, and a well-formedness
    invariant that no call breaks, whether it succeeds or fails.  The invariant
    is indexed by a number of calls still to come, since some components draw on
    a finite supply of identifiers. *)

Class Machine (S E O : Type) := {
  m_exec : O → M S E unit;
  m_typed : O → Prop;
  m_wf : nat → S → Prop;
  m_exec_wf : ∀ n o s, m_wf (1 + n) s → m_typed o →
    wp (m_exec o) (λ _ s', m_wf n s') (λ _ s', m_wf n s') s;
}.

Section machine.
Context {S E O : Type} {HM : Machine S E O}.

Fixpoint history (os : list O) (s : S) : S :=
  match os with [] => s | o :: os => history os (m_exec o s).2 end.

Lemma m_step_wf n o s : m_wf (1 + n) s → m_typed o → m_wf n (m_exec o s).2.
Proof.
  intros Hs Ho. pose proof (m_exec_wf n o s Hs Ho) as Hwp. unfold wp in Hwp.
  by destruct (m_exec o s) as [[]].
Qed.

Lemma history_wf n os s : Forall m_typed os → m_wf (length os + n) s → m_wf n (history os s).
Proof.
  intros Hos. revert s. induction Hos as [|o os Ho Hos IH]; intros s Hs; cbn; [done|].
  apply IH. by apply m_step_wf.
Qed.
End machine.
