(* ===== verification/Object.v ===== *)
(** * Object: kernel-object identity, rights and signals

    Models [kernel/src/object.rs]: object types, the rights and signal
    bit sets, the monotonic identity allocator, the object header with its
    atomic signal word, and handle metadata.  Rights and signals are [u64]
    bit sets, kept as [Z] and manipulated with the bit operations of the code.
    The two atomics ([fetch_update] on a single word) are modelled as one
    indivisible state transition each. *)

From stdpp Require Import base list numbers option.
From Stdlib Require Import ZArith Lia.
From S2P Require Import Prelude.

(** Identities: [NonZeroU64] newtypes. *)
Abbreviation ObjectId := Z (only parsing).

Inductive ObjectType :=
| Process | Thread | AddressSpace | Job | Channel | Notification
| SharedMemory | Timer | EventPort | Device | Event.

#[global] Instance ObjectType_eq_dec : EqDecision ObjectType.
Proof. solve_decision. Defined.

(** The [repr(u16)] discriminants. *)
Definition object_type_code (t : ObjectType) : Z :=
  match t with
  | Process => 1 | Thread => 2 | AddressSpace => 3 | Job => 4 | Channel => 5
  | Notification => 6 | SharedMemory => 7 | Timer => 8 | EventPort => 9
  | Device => 10 | Event => 11
  end.

(** ** Rights *)

Module Rights.
Definition t : Type := Z.
Definition NONE : t := 0.
Definition INSPECT : t := Z.shiftl 1 0.
Definition DUPLICATE : t := Z.shiftl 1 1.
Definition TRANSFER : t := Z.shiftl 1 2.
Definition WAIT : t := Z.shiftl 1 3.
Definition SIGNAL : t := Z.shiftl 1 4.
Definition READ : t := Z.shiftl 1 5.
Definition WRITE : t := Z.shiftl 1 6.
Definition MAP : t := Z.shiftl 1 7.
Definition GET_PROPERTY : t := Z.shiftl 1 8.
Definition SET_PROPERTY : t := Z.shiftl 1 9.
Definition MANAGE : t := Z.shiftl 1 10.

Definition BASIC : t := Z.lor (Z.lor (Z.lor INSPECT DUPLICATE) TRANSFER) WAIT.

Definition contains (self required : t) : bool := Z.land self required =? required.
Definition intersects (self other : t) : bool := negb (Z.land self other =? 0).
Definition union (self other : t) : t := Z.lor self other.
Definition intersection (self other : t) : t := Z.land self other.

Inductive RightsEscalation_t := RightsEscalation.

(** A requested reduction is granted exactly when it asks for nothing new. *)
Definition reduce_to (self requested : t) : outcome RightsEscalation_t t :=
  if contains self requested then Ok requested else Err RightsEscalation.
End Rights.

(** ** Signals *)

Module Signals.
Definition t : Type := Z.
Definition NONE : t := 0.
Definition READABLE : t := Z.shiftl 1 0.
Definition WRITABLE : t := Z.shiftl 1 1.
Definition PEER_CLOSED : t := Z.shiftl 1 2.
Definition SIGNALED : t := Z.shiftl 1 3.
Definition TERMINATED : t := Z.shiftl 1 4.
Definition TIMER_FIRED : t := Z.shiftl 1 5.

Definition contains (self required : t) : bool := Z.land self required =? required.
Definition intersects (self other : t) : bool := negb (Z.land self other =? 0).
Definition union (self other : t) : t := Z.lor self other.
End Signals.

(** ** Identity allocation *)

Inductive ObjectIdExhausted_t := ObjectIdExhausted.

Record ObjectIdAllocator := { next : Z }.

Definition ObjectIdAllocator_new (first : Z) : ObjectIdAllocator := {| next := first |}.

(** [fetch_update] with [checked_add(1)]: the old value is returned, and the
    word is left alone when the successor does not fit. *)
Definition allocate : M ObjectIdAllocator ObjectIdExhausted_t ObjectId := λ s,
  match checked_add u64_max s.(next) 1 with
  | Some next' =>
      let value := s.(next) in
      (if value =? 0 then Err ObjectIdExhausted else Ok value, {| next := next' |})
  | None => (Err ObjectIdExhausted, s)
  end.

(** ** Object headers *)

Record ObjectHeader := {
  hdr_id : ObjectId;
  hdr_object_type : ObjectType;
  hdr_signals : Z;
}.

Definition ObjectHeader_new (id : ObjectId) (ty : ObjectType) : ObjectHeader :=
  {| hdr_id := id; hdr_object_type := ty; hdr_signals := 0 |}.

Record SignalChange := { old : Signals.t; new : Signals.t }.

Definition update_signals (clear set : Signals.t) (h : ObjectHeader)
    : SignalChange * ObjectHeader :=
  let old := h.(hdr_signals) in
  let new := Z.lor (Z.land old (not64 clear)) set in
  ({| old := old; new := new |},
   {| hdr_id := h.(hdr_id); hdr_object_type := h.(hdr_object_type); hdr_signals := new |}).

Definition newly_asserted (c : SignalChange) : Signals.t := Z.land c.(new) (not64 c.(old)).
Definition newly_cleared (c : SignalChange) : Signals.t := Z.land c.(old) (not64 c.(new)).

(** ** Handle metadata *)

Record HandleMetadata := {
  hm_object_id : ObjectId;
  hm_object_type : ObjectType;
  hm_rights : Rights.t;
}.

Definition reduced (m : HandleMetadata) (requested : Rights.t)
    : outcome Rights.RightsEscalation_t HandleMetadata :=
  match Rights.reduce_to m.(hm_rights) requested with
  | Ok rights => Ok {| hm_object_id := m.(hm_object_id);
                       hm_object_type := m.(hm_object_type); hm_rights := rights |}
  | Err e => Err e
  | Abort => Abort
  end.

(** ** Bit-set order *)

(** [a ⊑ b]: every bit of [a] is a bit of [b]. *)
Definition bits_subset (a b : Z) : Prop := ∀ i, Z.testbit a i = true → Z.testbit b i = true.

#[global] Instance bits_subset_preorder : PreOrder bits_subset.
Proof. split; [by intros a i|]. intros a b c Hab Hbc i Hi. auto. Qed.

Lemma contains_bits_subset a b : Rights.contains a b = true ↔ bits_subset b a.
Proof.
  unfold Rights.contains, bits_subset. rewrite Z.eqb_eq. split.
  - intros H i Hi. rewrite <- H, Z.land_spec in Hi. by apply andb_true_iff in Hi as [].
  - intros H. apply Z.bits_inj. intros i. rewrite Z.land_spec.
    destruct (Z.testbit b i) eqn:E; [by rewrite H|by rewrite andb_false_r].
Qed.

Lemma signals_contains_bits_subset a b : Signals.contains a b = true ↔ bits_subset b a.
Proof. apply contains_bits_subset. Qed.

Lemma bits_subset_land_l a b : bits_subset (Z.land a b) a.
Proof. intros i. rewrite Z.land_spec, andb_true_iff. tauto. Qed.
Lemma bits_subset_land_r a b : bits_subset (Z.land a b) b.
Proof. intros i. rewrite Z.land_spec, andb_true_iff. tauto. Qed.
Lemma bits_subset_lor a b c : bits_subset a c → bits_subset b c → bits_subset (Z.lor a b) c.
Proof. intros Ha Hb i. rewrite Z.lor_spec, orb_true_iff. intros []; auto. Qed.
Lemma bits_subset_lor_l a b : bits_subset a (Z.lor a b).
Proof. intros i Hi. by rewrite Z.lor_spec, Hi. Qed.
Lemma bits_subset_lor_r a b : bits_subset b (Z.lor a b).
Proof. intros i Hi. by rewrite Z.lor_spec, Hi, orb_true_r. Qed.
Lemma bits_subset_0 a : bits_subset 0 a.
Proof. intros i. by rewrite Z.bits_0. Qed.
Lemma bits_subset_antisymm a b : bits_subset a b → bits_subset b a → a = b.
Proof.
  intros Hab Hba. apply Z.bits_inj. intros i. apply eq_true_iff_eq. naive_solver.
Qed.

Create HintDb bits.
#[export] Hint Resolve bits_subset_land_l bits_subset_land_r bits_subset_lor
  bits_subset_lor_l bits_subset_lor_r bits_subset_0 : bits.

Lemma is_u64_lor a b : is_u64 a → is_u64 b → is_u64 (Z.lor a b).
Proof.
  rewrite !is_u64_bits. intros [? Ha] [? Hb]. split; [by apply Z.lor_nonneg|].
  intros i Hi. by rewrite Z.lor_spec, Ha, Hb.
Qed.

Lemma is_u64_land a b : is_u64 a → 0 ≤ b → is_u64 (Z.land a b).
Proof.
  rewrite !is_u64_bits. intros [? Ha] ?. split; [apply Z.land_nonneg; auto|].
  intros i Hi. by rewrite Z.land_spec, Ha.
Qed.

(** ** Properties *)

Lemma reduce_to_Ok a req r :
  Rights.reduce_to a req = Ok r ↔ r = req ∧ bits_subset req a.
Proof.
  unfold Rights.reduce_to. rewrite <- contains_bits_subset.
  destruct (Rights.contains a req); naive_solver.
Qed.

Lemma reduce_to_Err a req e :
  Rights.reduce_to a req = Err e ↔ ¬ bits_subset req a.
Proof.
  unfold Rights.reduce_to. rewrite <- contains_bits_subset. destruct e.
  destruct (Rights.contains a req); naive_solver.
Qed.

(** Handle-metadata reduction is exactly rights attenuation: it succeeds if
    and only if every requested right is already held, and then object identity
    and type are kept and the rights become the requested ones; in every other
    case it reports an escalation, and it never panics. *)
Theorem reduced_attenuates (m : HandleMetadata) (req : Rights.t) :
  (∀ m', reduced m req = Ok m' ↔
     m' = {| hm_object_id := hm_object_id m; hm_object_type := hm_object_type m;
             hm_rights := req |} ∧ bits_subset req (hm_rights m)) ∧
  (∀ e, reduced m req = Err e ↔ ¬ bits_subset req (hm_rights m)) ∧
  reduced m req ≠ Abort.
Proof.
  unfold reduced. destruct (Rights.reduce_to (hm_rights m) req) as [r|e|] eqn:E.
  - apply reduce_to_Ok in E as [-> Hsub]. naive_solver.
  - apply reduce_to_Err in E. destruct e. split_and!; [naive_solver| |done].
    intros []. naive_solver.
  - unfold Rights.reduce_to in E. by destruct (Rights.contains _ _).
Qed.

(** [n] consecutive allocations. *)
Fixpoint allocations (n : nat) : M ObjectIdAllocator ObjectIdExhausted_t (list ObjectId) :=
  match n with
  | O => mret []
  | S n => id ← allocate; ids ← allocations n; mret (id :: ids)
  end.

Lemma allocate_ok a : 1 ≤ a.(next) < u64_max →
  allocate a = (Ok a.(next), {| next := next a + 1 |}).
Proof.
  intros H. unfold allocate, checked_add.
  rewrite (proj2 (Z.leb_le _ _)) by lia. by rewrite (proj2 (Z.eqb_neq _ _)) by lia.
Qed.

Lemma allocate_exhausted a : a.(next) = u64_max → allocate a = (Err ObjectIdExhausted, a).
Proof. intros H. unfold allocate, checked_add. by rewrite H. Qed.

(** C40. Object identities are never reused.  From a nonzero first identity, [n]
    allocations return exactly the [n] consecutive identities from it (hence
    strictly increasing and nonzero) while they fit below [u64::MAX]; past that
    point allocation reports exhaustion and the counter stays at [u64::MAX]
    instead of wrapping around. *)
Theorem object_ids_never_reused (first : Z) (n : nat) (Hfirst : 1 ≤ first ≤ u64_max) :
  allocations n (ObjectIdAllocator_new first) =
    if first + Z.of_nat n <=? u64_max
    then (Ok (seqZ first (Z.of_nat n)), {| next := first + Z.of_nat n |})
    else (Err ObjectIdExhausted, {| next := u64_max |}).
Proof.
  unfold ObjectIdAllocator_new. revert first Hfirst. induction n as [|n IH]; intros first Hf.
  { rewrite Z.add_0_r, (proj2 (Z.leb_le _ _)) by lia. done. }
  cbn [allocations]. unfold mbind, M_bind, mret, M_ret.
  destruct (decide (first = u64_max)) as [->|Hne].
  { rewrite allocate_exhausted by done. by rewrite (proj2 (Z.leb_gt _ _)) by lia. }
  rewrite allocate_ok by (cbn; lia). cbn [next]. rewrite IH by lia.
  replace (first + 1 + Z.of_nat n) with (first + Z.of_nat (S n)) by lia.
  destruct (first + Z.of_nat (S n) <=? u64_max); [|done]. do 2 f_equal.
  rewrite (seqZ_cons first (Z.of_nat (S n))) by lia. do 3 f_equal; lia.
Qed.

Lemma object_ids_never_reused_witness :
  1 ≤ 18446744073709551613 ≤ u64_max ∧
  allocations 2 (ObjectIdAllocator_new 18446744073709551613) =
    (Ok [18446744073709551613; 18446744073709551614], {| next := u64_max |}) ∧
  allocations 3 (ObjectIdAllocator_new 18446744073709551613) =
    (Err ObjectIdExhausted, {| next := u64_max |}).
Proof.
  split_and!; [unfold u64_max; lia..| |];
    (etransitivity; [apply object_ids_never_reused; unfold u64_max; lia|reflexivity]).
Defined.

(** A signal update is level-exact and its reported edges are exact: a bit is
    set afterwards iff it was requested, or was set before and not cleared; the
    reported [old]/[new] pair is the state before and after; [newly_asserted] and
    [newly_cleared] are precisely the rising and falling bits, so the new state
    can be rebuilt from the old one and the two edge sets. *)
Theorem update_signals_edges (h : ObjectHeader) (clear set : Signals.t)
    (Hh : is_u64 (hdr_signals h)) (Hs : is_u64 set) :
  let '(c, h') := update_signals clear set h in
  is_u64 (hdr_signals h') ∧ hdr_id h' = hdr_id h ∧
  hdr_object_type h' = hdr_object_type h ∧
  c.(old) = hdr_signals h ∧ c.(new) = hdr_signals h' ∧
  (∀ i, Z.testbit (hdr_signals h') i =
     Z.testbit set i || (Z.testbit (hdr_signals h) i && negb (Z.testbit clear i))) ∧
  (∀ i, Z.testbit (newly_asserted c) i =
     negb (Z.testbit (hdr_signals h) i) && Z.testbit (hdr_signals h') i) ∧
  (∀ i, Z.testbit (newly_cleared c) i =
     Z.testbit (hdr_signals h) i && negb (Z.testbit (hdr_signals h') i)) ∧
  hdr_signals h' =
    Z.lor (Z.land (hdr_signals h) (not64 (newly_cleared c))) (newly_asserted c).
Proof.
  unfold update_signals. cbn.
  set (o := hdr_signals h) in *. set (n := Z.lor (Z.land o (not64 clear)) set).
  assert (is_u64 (Z.land o (not64 clear))) as Hland.
  { apply is_u64_bits in Hh as [Ho Hb]. apply is_u64_bits. split; [apply Z.land_nonneg; auto|].
    intros i Hi. by rewrite Z.land_spec, Hb. }
  assert (is_u64 n) as Hn by by apply is_u64_lor.
  unfold newly_asserted, newly_cleared. cbn. split_and!; try done.
  - intros i. unfold n. rewrite Z.lor_spec, testbit_andnot by done. apply orb_comm.
  - intros i. rewrite testbit_andnot by done. apply andb_comm.
  - intros i. by rewrite testbit_andnot by done.
  - apply Z.bits_inj. intros i. rewrite Z.lor_spec, !testbit_andnot by done.
    destruct (Z.testbit o i) eqn:E1, (Z.testbit n i) eqn:E2; done.
Qed.

Lemma update_signals_edges_witness :
  let h := {| hdr_id := 1; hdr_object_type := Notification; hdr_signals := Signals.SIGNALED |} in
  is_u64 (hdr_signals h) ∧ is_u64 Signals.TERMINATED ∧
  newly_cleared (update_signals Signals.SIGNALED Signals.TERMINATED h).1 = Signals.SIGNALED ∧
  newly_asserted (update_signals Signals.SIGNALED Signals.TERMINATED h).1 = Signals.TERMINATED ∧
  ∀ i, Z.testbit (newly_asserted (update_signals Signals.SIGNALED Signals.TERMINATED h).1) i =
     negb (Z.testbit Signals.SIGNALED i) && Z.testbit Signals.TERMINATED i.
Proof.
  cbv zeta. assert (is_u64 Signals.SIGNALED) as H1 by (vm_compute; split; discriminate).
  assert (is_u64 Signals.TERMINATED) as H2 by (vm_compute; split; discriminate).
  split_and!; [exact H1|exact H2|reflexivity|reflexivity|].
  exact (proj1 (proj2 (proj2 (proj2 (proj2 (proj2 (proj2 (update_signals_edges
    {| hdr_id := 1; hdr_object_type := Notification; hdr_signals := Signals.SIGNALED |}
    Signals.SIGNALED Signals.TERMINATED H1 H2)))))))).
Defined.
