(* ===== verification/Capability.v ===== *)
(** * Capability: bounded registry of process authority over kernel objects

    Models [kernel/src/capability.rs]: handles with a slot and a generation,
    the per-process handle tables, the object table, and every operation of
    [CapabilityRegistry].  The theorems state the authority rules of the
    component: structural invariants over all reachable registries, rights
    confinement, retirement of closed handles, atomic transfer, revocation. *)

From stdpp Require Import base list numbers option sets relations.
From Stdlib Require Import ZArith Lia.
From S2P Require Import Prelude Object.

Definition MAX_CAPABILITY_PROCESSES : nat := 64.
Definition MAX_CAPABILITY_SLOTS : nat := 128.
Definition MAX_CAPABILITY_OBJECTS : nat := 256.

Abbreviation ProcessId := Z (only parsing).

(** [slot: u16, generation: u32] *)
Record CapabilityHandle := { slot : Z; generation : Z }.

Definition handle_slot (h : CapabilityHandle) : nat := Z.to_nat h.(slot).

Definition from_raw (raw : Z) : option CapabilityHandle :=
  let slot := wrap 16 (Z.land raw 65535) in
  let generation := wrap 32 (Z.shiftr raw 16) in
  if generation =? 0 then None else Some {| slot := slot; generation := generation |}.

Definition raw (h : CapabilityHandle) : Z := Z.lor (Z.shiftl h.(generation) 16) h.(slot).

Record CapabilityMetadata := {
  cm_handle : CapabilityHandle;
  cm_object : ObjectId;
  cm_object_type : ObjectType;
  cm_rights : Rights.t;
}.

Record ObjectSnapshot := {
  os_object : ObjectId;
  os_object_type : ObjectType;
  os_revoked : bool;
  os_handle_count : nat;
}.

Inductive CapabilityError :=
| ProcessLimit | ObjectLimit | HandleLimit | ObjectIdExhausted | InvalidProcess
| InvalidHandle | StaleHandle | ObjectNotFound | Revoked | TypeMismatch
| RightsMissing | RightsEscalation | InvalidRights.

Record CapabilityEntry := {
  ce_object : ObjectId;
  ce_object_type : ObjectType;
  ce_rights : Rights.t;
}.

Record HandleSlot := { hs_generation : Z; hs_entry : option CapabilityEntry }.

Record ProcessCapabilities := { pc_process : ProcessId; pc_slots : list HandleSlot }.

Record CapabilityObject := {
  co_object : ObjectId;
  co_object_type : ObjectType;
  co_revoked : bool;
}.

Record CapabilityRegistry := {
  next_object_id : Z;
  processes : list ProcessCapabilities;
  objects : list CapabilityObject;
}.

Definition set_next_object_id (n : Z) (r : CapabilityRegistry) : CapabilityRegistry :=
  {| next_object_id := n; processes := processes r; objects := objects r |}.
Definition set_processes (ps : list ProcessCapabilities) (r : CapabilityRegistry) :=
  {| next_object_id := next_object_id r; processes := ps; objects := objects r |}.
Definition set_objects (os : list CapabilityObject) (r : CapabilityRegistry) :=
  {| next_object_id := next_object_id r; processes := processes r; objects := os |}.

Definition new : CapabilityRegistry :=
  {| next_object_id := 1; processes := []; objects := [] |}.

Definition process_count (r : CapabilityRegistry) : nat := length (processes r).
Definition object_count (r : CapabilityRegistry) : nat := length (objects r).

Abbreviation Op A := (M CapabilityRegistry CapabilityError A).

(** ** Lookups *)

Definition process_index (r : CapabilityRegistry) (process : ProcessId) : option nat :=
  position (λ candidate, pc_process candidate =? process) (processes r).

Definition object (r : CapabilityRegistry) (object : ObjectId)
    : outcome CapabilityError CapabilityObject :=
  ok_or (List.find (λ candidate, co_object candidate =? object) (objects r)) ObjectNotFound.

(** [processes.iter().flat_map(|process| process.slots.iter())] *)
Definition all_slots (r : CapabilityRegistry) : list HandleSlot :=
  processes r ≫= pc_slots.

Definition slot_refers_to (o : ObjectId) (s : HandleSlot) : bool :=
  match hs_entry s with Some e => ce_object e =? o | None => false end.

Definition validate_handle (r : CapabilityRegistry) (process : ProcessId)
    (handle : CapabilityHandle) : outcome CapabilityError (nat * nat) :=
  pi ← ok_or (process_index r process) InvalidProcess;
  table ← expect (processes r !! pi);
  s ← ok_or (pc_slots table !! handle_slot handle) InvalidHandle;
  _ ← err_if (negb (hs_generation s =? generation handle)) StaleHandle;
  mret (pi, handle_slot handle).

(** [&self.processes[i].slots[j]] *)
Definition slot_ref (r : CapabilityRegistry) (i j : nat) : outcome CapabilityError HandleSlot :=
  table ← expect (processes r !! i);
  expect (pc_slots table !! j).

Definition lookup (r : CapabilityRegistry) (process : ProcessId) (handle : CapabilityHandle)
    : outcome CapabilityError CapabilityMetadata :=
  '(pi, si) ← validate_handle r process handle;
  s ← slot_ref r pi si;
  entry ← ok_or (hs_entry s) InvalidHandle;
  record ← object r (ce_object entry);
  _ ← err_if (co_revoked record) Revoked;
  _ ← err_if (negb (bool_decide (co_object_type record = ce_object_type entry))) TypeMismatch;
  mret {| cm_handle := handle; cm_object := ce_object entry;
          cm_object_type := ce_object_type entry; cm_rights := ce_rights entry |}.

Definition check (r : CapabilityRegistry) (process : ProcessId) (handle : CapabilityHandle)
    (expected_type : ObjectType) (required : Rights.t)
    : outcome CapabilityError CapabilityMetadata :=
  metadata ← lookup r process handle;
  _ ← err_if (negb (bool_decide (cm_object_type metadata = expected_type))) TypeMismatch;
  _ ← err_if (negb (Rights.contains (cm_rights metadata) required)) RightsMissing;
  mret metadata.

Definition object_snapshot (r : CapabilityRegistry) (o : ObjectId)
    : outcome CapabilityError ObjectSnapshot :=
  record ← object r o;
  mret {| os_object := o; os_object_type := co_object_type record;
          os_revoked := co_revoked record;
          os_handle_count := length (filter (λ s, slot_refers_to o s = true) (all_slots r)) |}.

Definition allowed_rights (t : ObjectType) : Rights.t :=
  match t with
  | Process | Thread =>
      Rights.union (Rights.union (Rights.union (Rights.union (Rights.union
        Rights.INSPECT Rights.DUPLICATE) Rights.TRANSFER) Rights.WAIT) Rights.SIGNAL)
        Rights.MANAGE
  | AddressSpace =>
      Rights.union (Rights.union (Rights.union (Rights.union
        Rights.INSPECT Rights.DUPLICATE) Rights.TRANSFER) Rights.MAP) Rights.MANAGE
  | Job => Rights.union (Rights.union Rights.BASIC Rights.SIGNAL) Rights.MANAGE
  | Channel =>
      Rights.union (Rights.union (Rights.union Rights.BASIC Rights.READ) Rights.WRITE)
        Rights.SIGNAL
  | Notification | Event => Rights.union Rights.BASIC Rights.SIGNAL
  | SharedMemory =>
      Rights.union (Rights.union (Rights.union Rights.BASIC Rights.READ) Rights.WRITE)
        Rights.MAP
  | Timer => Rights.union Rights.BASIC Rights.SET_PROPERTY
  | EventPort => Rights.union (Rights.union Rights.BASIC Rights.SIGNAL) Rights.SET_PROPERTY
  | Device =>
      Rights.union (Rights.union (Rights.union (Rights.union Rights.BASIC Rights.READ)
        Rights.WRITE) Rights.MAP) Rights.MANAGE
  end.

Definition validate_rights (t : ObjectType) (rights : Rights.t)
    : outcome CapabilityError unit :=
  if (rights =? Rights.NONE) || negb (Rights.contains (allowed_rights t) rights)
  then Err InvalidRights else Ok ().

(** ** Mutations *)

Definition ensure_process (process : ProcessId) : Op unit :=
  r ← get;
  match process_index r process with
  | Some _ => mret ()
  | None =>
      _ ← lift (err_if (bool_decide (MAX_CAPABILITY_PROCESSES ≤ length (processes r))%nat)
                  ProcessLimit);
      put (set_processes
             (push (processes r) {| pc_process := process; pc_slots := [] |}) r)
  end.

Definition collect_revoked_objects : Op unit :=
  modify (λ r, set_objects
    (filter (λ o, any (slot_refers_to (co_object o)) (all_slots r) = true) (objects r)) r).

Definition remove_process (process : ProcessId) : Op unit :=
  index ← reads (λ r, ok_or (process_index r process) InvalidProcess);
  _ ← modify (λ r, set_processes (swap_remove index (processes r)) r);
  collect_revoked_objects.

(** [self.processes[i].slots[j] = f(..)] *)
Definition update_slot (i j : nat) (f : HandleSlot → HandleSlot) (r : CapabilityRegistry)
    : CapabilityRegistry :=
  set_processes
    (alter (λ p, {| pc_process := pc_process p; pc_slots := alter f j (pc_slots p) |}) i
       (processes r)) r.

(** [slots.iter_mut().enumerate().find(|(_, slot)| ..)] *)
Definition slot_is_free (s : HandleSlot) : bool :=
  match hs_entry s with None => negb (hs_generation s =? 0) | Some _ => false end.

Definition install (process : ProcessId) (object_id : ObjectId) (object_type : ObjectType)
    (rights : Rights.t) : Op CapabilityMetadata :=
  _ ← lift (validate_rights object_type rights);
  record ← reads (λ r, object r object_id);
  _ ← lift (err_if (co_revoked record) Revoked);
  _ ← lift (err_if (negb (bool_decide (co_object_type record = object_type))) TypeMismatch);
  _ ← ensure_process process;
  pi ← reads (λ r, ok_or (process_index r process) InvalidProcess);
  table ← reads (λ r, expect (processes r !! pi));
  '(slot_index, gen) ←
    match position slot_is_free (pc_slots table) with
    | Some index =>
        s ← lift (expect (pc_slots table !! index));
        mret (index, hs_generation s)
    | None =>
        _ ← lift (err_if (bool_decide (MAX_CAPABILITY_SLOTS ≤ length (pc_slots table))%nat)
                    HandleLimit);
        _ ← modify (λ r, set_processes
              (alter (λ p, {| pc_process := pc_process p;
                              pc_slots := push (pc_slots p)
                                {| hs_generation := 1; hs_entry := None |} |})
                 pi (processes r)) r);
        mret (length (pc_slots table), 1)
    end;
  _ ← reads (λ r, slot_ref r pi slot_index);
  _ ← modify (update_slot pi slot_index (λ s,
        {| hs_generation := hs_generation s;
           hs_entry := Some {| ce_object := object_id; ce_object_type := object_type;
                               ce_rights := rights |} |}));
  mret {| cm_handle := {| slot := wrap 16 (Z.of_nat slot_index); generation := gen |};
          cm_object := object_id; cm_object_type := object_type; cm_rights := rights |}.

Definition create_object (process : ProcessId) (object_type : ObjectType) (rights : Rights.t)
    : Op CapabilityMetadata :=
  _ ← lift (validate_rights object_type rights);
  _ ← ensure_process process;
  r ← get;
  _ ← lift (err_if (bool_decide (MAX_CAPABILITY_OBJECTS ≤ length (objects r))%nat) ObjectLimit);
  _ ← lift (err_if (next_object_id r =? 0) ObjectIdExhausted);
  let object_id := next_object_id r in
  next' ← lift (ok_or (checked_add u64_max (next_object_id r) 1) ObjectIdExhausted);
  _ ← put (set_objects (push (objects r)
             {| co_object := object_id; co_object_type := object_type; co_revoked := false |})
             (set_next_object_id next' r));
  try_catch (install process object_id object_type rights) mret
    (λ error,
       _ ← modify (λ r, set_objects (take (length (objects r) - 1) (objects r)) r);
       lift (Err error)).

Definition reduce_rights (held requested : Rights.t) : outcome CapabilityError Rights.t :=
  map_err (λ _, RightsEscalation) (Rights.reduce_to held requested).

Definition duplicate (process : ProcessId) (source : CapabilityHandle) (requested : Rights.t)
    : Op CapabilityMetadata :=
  source_metadata ← reads (λ r, lookup r process source);
  _ ← lift (err_if (negb (Rights.contains (cm_rights source_metadata) Rights.DUPLICATE))
              RightsMissing);
  rights ← lift (reduce_rights (cm_rights source_metadata) requested);
  install process (cm_object source_metadata) (cm_object_type source_metadata) rights.

Definition close (process : ProcessId) (handle : CapabilityHandle) : Op unit :=
  '(pi, si) ← reads (λ r, validate_handle r process handle);
  s ← reads (λ r, slot_ref r pi si);
  _ ← lift (err_if (bool_decide (hs_entry s = None)) InvalidHandle);
  _ ← modify (update_slot pi si (λ s,
        {| hs_generation := match checked_add u32_max (hs_generation s) 1 with
                            | Some g => g | None => 0 end;
           hs_entry := None |}));
  collect_revoked_objects.

Definition transfer (source_process : ProcessId) (source : CapabilityHandle)
    (target_process : ProcessId) (requested : Rights.t) : Op CapabilityMetadata :=
  source_metadata ← reads (λ r, lookup r source_process source);
  _ ← lift (err_if (negb (Rights.contains (cm_rights source_metadata) Rights.TRANSFER))
              RightsMissing);
  rights ← lift (reduce_rights (cm_rights source_metadata) requested);
  transferred ← install target_process (cm_object source_metadata)
                  (cm_object_type source_metadata) rights;
  _ ← close source_process source;
  mret transferred.

Definition reduce (process : ProcessId) (handle : CapabilityHandle) (requested : Rights.t)
    : Op CapabilityMetadata :=
  '(pi, si) ← reads (λ r, validate_handle r process handle);
  s ← reads (λ r, slot_ref r pi si);
  entry ← lift (ok_or (hs_entry s) InvalidHandle);
  rights ← lift (reduce_rights (ce_rights entry) requested);
  _ ← modify (update_slot pi si (λ s,
        {| hs_generation := hs_generation s;
           hs_entry := Some {| ce_object := ce_object entry;
                               ce_object_type := ce_object_type entry;
                               ce_rights := rights |} |}));
  mret {| cm_handle := handle; cm_object := ce_object entry;
          cm_object_type := ce_object_type entry; cm_rights := rights |}.

Definition revoke (o : ObjectId) : Op unit :=
  _ ← reads (λ r, object r o);
  modify (λ r, set_objects
    (match position (λ c, co_object c =? o) (objects r) with
     | Some i => alter (λ c, {| co_object := co_object c; co_object_type := co_object_type c;
                                co_revoked := true |}) i (objects r)
     | None => objects r
     end) r).

(** ** The slot view

    [slot_at r p i] is slot [i] of process [p]'s handle table.  Every mutation
    is characterised by its effect on this view and on the object table. *)

Definition slot_at (r : CapabilityRegistry) (p : ProcessId) (i : nat) : option HandleSlot :=
  pi ← process_index r p; table ← processes r !! pi; pc_slots table !! i.

Definition live (r : CapabilityRegistry) (p : ProcessId) (i : nat) (e : CapabilityEntry) : Prop :=
  ∃ s, slot_at r p i = Some s ∧ hs_entry s = Some e.

(** Same authority: equal slot views, object tables and identity counters. *)
Definition same (r r' : CapabilityRegistry) : Prop :=
  next_object_id r' = next_object_id r ∧ objects r' = objects r ∧
  ∀ p i, slot_at r' p i = slot_at r p i.

(** [r'] is [r] with slot [i] of process [p] replaced by [s]. *)
Definition slot_updated (r r' : CapabilityRegistry) (p : ProcessId) (i : nat) (s : HandleSlot)
    : Prop :=
  ∀ q j, slot_at r' q j = if decide (q = p ∧ j = i) then Some s else slot_at r q j.

Record tables_ok (r : CapabilityRegistry) : Prop := {
  ok_processes : NoDup (pc_process <$> processes r);
  ok_process_limit : (length (processes r) ≤ MAX_CAPABILITY_PROCESSES)%nat;
  ok_slot_limit : Forall (λ t, length (pc_slots t) ≤ MAX_CAPABILITY_SLOTS)%nat (processes r);
}.

Record core (r : CapabilityRegistry) : Prop := {
  core_tables : tables_ok r;
  core_next : 1 ≤ next_object_id r ≤ u64_max;
  core_objects : NoDup (co_object <$> objects r);
  core_ids : ∀ o, o ∈ objects r → 1 ≤ co_object o < next_object_id r;
  core_object_limit : (length (objects r) ≤ MAX_CAPABILITY_OBJECTS)%nat;
  core_generation : ∀ p i s, slot_at r p i = Some s →
    is_u32 (hs_generation s) ∧ (is_Some (hs_entry s) → hs_generation s ≠ 0);
  core_entry : ∀ p i e, live r p i e →
    ∃ o, o ∈ objects r ∧ co_object o = ce_object e ∧ co_object_type o = ce_object_type e ∧
         bits_subset (ce_rights e) (allowed_rights (ce_object_type e));
}.

(** No object outlives its last handle. *)
Definition referenced (r : CapabilityRegistry) : Prop :=
  ∀ o, o ∈ objects r → ∃ p i e, live r p i e ∧ ce_object e = co_object o.

Definition inv (r : CapabilityRegistry) : Prop := core r ∧ referenced r.

Lemma registry_index_Some r p pi :
  process_index r p = Some pi → ∃ t, processes r !! pi = Some t ∧ pc_process t = p.
Proof. intros (t & Ht & Hp & _)%position_Some. bool_simpl. eauto. Qed.

Lemma process_index_elem r t :
  t ∈ processes r → ∃ pi, process_index r (pc_process t) = Some pi.
Proof. intros Ht. apply (position_is_Some _ _ t); [done|]. apply Z.eqb_refl. Qed.

Lemma process_index_keys r r' :
  pc_process <$> processes r' = pc_process <$> processes r →
  ∀ p, process_index r' p = process_index r p.
Proof.
  unfold process_index. generalize (processes r') as l', (processes r) as l.
  induction l' as [|t' l' IH]; intros [|t l]; cbn; try done.
  intros [= Ht Hl] p. rewrite Ht. destruct (pc_process t =? p); [done|].
  f_equal. by apply IH.
Qed.

Lemma slot_at_Some r p i s : NoDup (pc_process <$> processes r) →
  slot_at r p i = Some s ↔
  ∃ t, t ∈ processes r ∧ pc_process t = p ∧ pc_slots t !! i = Some s.
Proof.
  intros Hnd. unfold slot_at. split.
  - destruct (process_index r p) as [pi|] eqn:E; [|done]. cbn.
    apply registry_index_Some in E as (t & Ht & <-). rewrite Ht. cbn. intros Hs.
    exists t. split_and!; [by eapply list_elem_of_lookup_2|done..].
  - intros (t & Ht & <- & Hs). destruct (process_index_elem r t Ht) as [pi E].
    rewrite E. cbn. apply registry_index_Some in E as (t' & Ht' & Heq). rewrite Ht'. cbn.
    assert (t' = t) as ->; [|done]. apply list_elem_of_lookup in Ht as [k Hk].
    assert (pi = k) as ->; [|congruence].
    eapply (NoDup_lookup _ pi k (pc_process t)); [done|..];
      rewrite list_lookup_fmap; [by rewrite Ht', <- Heq|by rewrite Hk].
Qed.

Lemma procs_alter f (pi : nat) (l : list ProcessCapabilities) : (∀ t, pc_process (f t) = pc_process t) →
  pc_process <$> alter f pi l = pc_process <$> l.
Proof.
  intros Hf. revert pi. induction l as [|t l IH]; intros [|pi]; cbn; try done.
  - by rewrite Hf.
  - f_equal. apply IH.
Qed.

Lemma slot_at_alter r f p pi q j :
  process_index r p = Some pi → (∀ t, pc_process (f t) = pc_process t) →
  slot_at (set_processes (alter f pi (processes r)) r) q j =
    if decide (q = p) then t ← processes r !! pi; pc_slots (f t) !! j
    else slot_at r q j.
Proof.
  intros Hp Hf. unfold slot_at. rewrite (process_index_keys r) by by apply procs_alter.
  case_decide as Hq; [subst; rewrite Hp|destruct (process_index r q) as [qi|] eqn:E; [|done]];
    cbn.
  - rewrite list_lookup_alter_eq. by destruct (processes r !! pi).
  - rewrite list_lookup_alter_ne; [done|]. intros <-.
    apply registry_index_Some in Hp as (t & Ht & Hpt), E as (t' & Ht' & Hqt). congruence.
Qed.

Lemma tables_ok_alter r f pi :
  tables_ok r → (∀ t, pc_process (f t) = pc_process t) →
  (∀ t, processes r !! pi = Some t → length (pc_slots (f t)) ≤ MAX_CAPABILITY_SLOTS)%nat →
  tables_ok (set_processes (alter f pi (processes r)) r).
Proof.
  intros [H1 H2 H3] Hf Hl. constructor; cbn.
  - by rewrite procs_alter.
  - by rewrite length_alter.
  - apply Forall_alter; [done|]. naive_solver.
Qed.

(** Writing one existing slot. *)
Lemma update_slot_spec r p pi i f t s :
  tables_ok r → process_index r p = Some pi → processes r !! pi = Some t →
  pc_slots t !! i = Some s →
  tables_ok (update_slot pi i f r) ∧ slot_updated r (update_slot pi i f r) p i (f s).
Proof.
  intros Hok Hp Ht Hs. split.
  - apply tables_ok_alter; [done..|]. intros t' Ht'. cbn. rewrite length_alter.
    destruct Hok as [_ _ Hlim]. by eapply Forall_lookup_1 in Hlim.
  - intros q j. unfold update_slot. rewrite (slot_at_alter r _ p) by done.
    rewrite Ht. cbn. destruct (decide (q = p)) as [->|]; [|by rewrite decide_False by tauto].
    destruct (decide (j = i)) as [->|].
    + rewrite decide_True by done. by rewrite list_lookup_alter_eq, Hs.
    + rewrite decide_False by tauto. rewrite list_lookup_alter_ne by done.
      unfold slot_at. by rewrite Hp; cbn; rewrite Ht.
Qed.

Lemma object_Ok r o rec :
  object r o = Ok rec → rec ∈ objects r ∧ co_object rec = o.
Proof.
  unfold object, ok_or. destruct (List.find _ _) eqn:E; [|done]. intros [= ->].
  apply find_some in E as [Hin ?]. bool_simpl. by rewrite list_elem_of_In.
Qed.

Lemma object_intro r rec :
  NoDup (co_object <$> objects r) → rec ∈ objects r → object r (co_object rec) = Ok rec.
Proof.
  intros Hnd Hin. unfold object, ok_or. destruct (List.find _ _) as [rec'|] eqn:E.
  - apply find_some in E as [Hin' ?]. bool_simpl. f_equal.
    apply list_elem_of_In in Hin'. apply list_elem_of_lookup in Hin as [i Hi], Hin' as [j Hj].
    assert (i = j) as ->; [|congruence].
    eapply (NoDup_lookup _ i j (co_object rec)); [done|..];
      rewrite list_lookup_fmap; [by rewrite Hi|by rewrite Hj; cbn; f_equal].
  - apply list_elem_of_In in Hin. pose proof (find_none _ _ E _ Hin) as Hn. cbn in Hn.
    bool_simpl. done.
Qed.

Lemma any_slots_true r o : NoDup (pc_process <$> processes r) →
  any (slot_refers_to o) (all_slots r) = true ↔
  ∃ p i e, live r p i e ∧ ce_object e = o.
Proof.
  intros Hnd. rewrite any_true. unfold all_slots, live. split.
  - intros (s & Hs & Href). apply list_elem_of_bind in Hs as (t & Hs & Ht).
    apply list_elem_of_lookup in Hs as [i Hi]. unfold slot_refers_to in Href.
    destruct (hs_entry s) as [e|] eqn:E; [|done]. bool_simpl.
    exists (pc_process t), i, e. split; [|done]. exists s. split; [|done].
    apply slot_at_Some; eauto.
  - intros (p & i & e & (s & Hs & He) & Ho). apply slot_at_Some in Hs as (t & Ht & _ & Hi); [|done].
    exists s. split; [|unfold slot_refers_to; rewrite He; by apply Z.eqb_eq].
    apply list_elem_of_bind. exists t. split; [by eapply list_elem_of_lookup_2|done].
Qed.

(** ** Preservation of the invariant by single mutations *)

Definition entry_ok (r : CapabilityRegistry) (e : CapabilityEntry) : Prop :=
  ∃ o, o ∈ objects r ∧ co_object o = ce_object e ∧ co_object_type o = ce_object_type e ∧
       bits_subset (ce_rights e) (allowed_rights (ce_object_type e)).

Definition slot_ok (r : CapabilityRegistry) (s : HandleSlot) : Prop :=
  is_u32 (hs_generation s) ∧ (is_Some (hs_entry s) → hs_generation s ≠ 0) ∧
  ∀ e, hs_entry s = Some e → entry_ok r e.

Lemma core_slot_ok r p i s : core r → slot_at r p i = Some s → slot_ok r s.
Proof.
  intros Hc Hs. destruct (core_generation r Hc _ _ _ Hs). split_and!; [done..|].
  intros e He. apply (core_entry r Hc p i). by exists s.
Qed.

Lemma core_slot_updated r r' p i s :
  core r → tables_ok r' → next_object_id r' = next_object_id r → objects r' = objects r →
  slot_updated r r' p i s → slot_ok r s → core r'.
Proof.
  intros Hc Ht Hn Ho Hu (Hg & Hgz & He).
  constructor; rewrite ?Hn, ?Ho; [done|apply Hc..| |].
  - intros q j s'. rewrite Hu. case_decide; [by intros [= <-]|]. apply (core_generation r Hc).
  - intros q j e (s' & Hs' & Hse). rewrite Hu in Hs'. case_decide.
    + injection Hs' as <-. by apply He.
    + apply (core_entry r Hc q j). by exists s'.
Qed.

Lemma same_refl r : same r r.
Proof. done. Qed.

Lemma same_live r r' p i e : same r r' → live r' p i e ↔ live r p i e.
Proof. intros (_ & _ & H). unfold live. by setoid_rewrite H. Qed.

Lemma core_same r r' : core r → tables_ok r' → same r r' → core r'.
Proof.
  intros Hc Ht Hs. pose proof Hs as (Hn & Ho & Hsl).
  constructor; rewrite ?Hn, ?Ho; [done|apply Hc..| |].
  - intros p i s. rewrite Hsl. apply (core_generation r Hc).
  - intros p i e. rewrite (same_live r) by done. apply (core_entry r Hc).
Qed.

Lemma referenced_same r r' : referenced r → same r r' → referenced r'.
Proof.
  intros Hr Hs o Ho. destruct Hs as (Hn & Hob & Hsl) eqn:E. rewrite Hob in Ho.
  destruct (Hr o Ho) as (p & i & e & Hl & He). exists p, i, e.
  rewrite (same_live r) by done. done.
Qed.

Definition collected (r : CapabilityRegistry) : CapabilityRegistry :=
  set_objects
    (filter (λ o, any (slot_refers_to (co_object o)) (all_slots r) = true) (objects r)) r.

Lemma collected_slot_at r p i : slot_at (collected r) p i = slot_at r p i.
Proof. done. Qed.

Lemma elem_of_collected r o : tables_ok r →
  o ∈ objects (collected r) ↔
  o ∈ objects r ∧ ∃ p i e, live r p i e ∧ ce_object e = co_object o.
Proof.
  intros [Hnd _ _]. cbn. rewrite list_elem_of_filter, any_slots_true by done. tauto.
Qed.

Lemma collected_inv r : core r → inv (collected r).
Proof.
  intros Hc. pose proof (core_tables r Hc) as Ht. split.
  - constructor; cbn.
    + by destruct Ht.
    + apply Hc.
    + eapply sublist_NoDup; [apply (core_objects r Hc)|]. apply fmap_sublist, sublist_filter.
    + intros o. rewrite list_elem_of_filter. intros [_ Ho]. by apply (core_ids r Hc).
    + etransitivity; [apply length_filter|apply (core_object_limit r Hc)].
    + apply (core_generation r Hc).
    + intros p i e Hl. destruct (core_entry r Hc p i e Hl) as (o & Ho & He & ?).
      exists o. split; [|done]. apply elem_of_collected; [done|]. eauto 10.
  - intros o (_ & p & i & e & Hl & He)%elem_of_collected; [|done]. exists p, i, e. done.
Qed.

Lemma ensure_process_spec r p : tables_ok r →
  wp (ensure_process p)
    (λ _ r', tables_ok r' ∧ same r r' ∧ is_Some (process_index r' p) ∧
             (∀ q, is_Some (process_index r q) → is_Some (process_index r' q)))
    (λ e r', r' = r ∧ e = ProcessLimit) r.
Proof.
  intros Hok. unfold ensure_process. wp_steps.
  destruct (process_index r p) as [pi|] eqn:E; wp_steps; [by eauto 10|done|].
  bool_simpl. destruct Hok as [Hnd Hlim Hsl].
  pose proof (position_None _ _ E) as Hnone. cbn in Hnone.
  set (r' := set_processes _ r). assert (NoDup (pc_process <$> processes r')) as Hnd'.
  { cbn. unfold push. rewrite fmap_app. apply NoDup_app. split_and!; [done| |apply NoDup_singleton].
    intros x (t & -> & Ht)%list_elem_of_fmap Hx%list_elem_of_singleton. cbn in Hx.
    specialize (Hnone t Ht). bool_simpl. done. }
  assert (∀ t, t ∈ processes r' ↔ t ∈ processes r ∨ t = {| pc_process := p; pc_slots := [] |}) as He.
  { intros t. cbn. unfold push. rewrite elem_of_app, list_elem_of_singleton. done. }
  split_and!.
  - constructor; [done|cbn|cbn]; unfold push.
    + rewrite length_app. cbn. lia.
    + apply Forall_app. split; [done|]. apply Forall_singleton. cbn. lia.
  - split_and!; [done..|]. intros q i. apply option_eq. intros s.
    rewrite !slot_at_Some by done. setoid_rewrite He. split.
    + intros (t & [Ht| ->] & Hq & Hs); [by eauto|by destruct i].
    + naive_solver.
  - eapply (position_is_Some _ _ {| pc_process := p; pc_slots := [] |}); [by apply He; right|].
    cbn. apply Z.eqb_refl.
  - intros q [qi Hq]. apply registry_index_Some in Hq as (t & Ht & <-).
    eapply process_index_elem, He. left. by eapply list_elem_of_lookup_2.
Qed.

(** What a successful [install] does: it writes one entry into a slot that was
    absent or free, under that slot's generation, and nothing else. *)
Record installed (r r' : CapabilityRegistry) (p : ProcessId) (e : CapabilityEntry)
    (m : CapabilityMetadata) (i : nat) (g : Z) : Prop := {
  inst_meta : m = {| cm_handle := {| slot := Z.of_nat i; generation := g |};
                     cm_object := ce_object e; cm_object_type := ce_object_type e;
                     cm_rights := ce_rights e |};
  inst_index : (i < MAX_CAPABILITY_SLOTS)%nat;
  inst_generation : is_u32 g ∧ g ≠ 0;
  inst_free : slot_at r p i = None ∧ g = 1 ∨
              slot_at r p i = Some {| hs_generation := g; hs_entry := None |};
  inst_slots : slot_updated r r' p i {| hs_generation := g; hs_entry := Some e |};
  inst_next : next_object_id r' = next_object_id r;
  inst_objects : objects r' = objects r;
}.

Lemma validate_rights_Ok t rights x :
  validate_rights t rights = Ok x → rights ≠ 0 ∧ bits_subset rights (allowed_rights t).
Proof.
  unfold validate_rights. destruct (_ || _) eqn:E; [done|]. intros _. bool_simpl.
  by rewrite <- contains_bits_subset.
Qed.

Lemma wpo_validate_rights t rights (Q : unit → Prop) R :
  (rights ≠ 0 → bits_subset rights (allowed_rights t) → Q ()) →
  R InvalidRights → wpo (validate_rights t rights) Q R.
Proof.
  intros HQ HR. destruct (validate_rights t rights) as [[]|e|] eqn:E; cbn.
  - apply validate_rights_Ok in E as []. auto.
  - unfold validate_rights in E. case_match; congruence.
  - unfold validate_rights in E. case_match; congruence.
Qed.

Lemma wpo_object r o (Q : CapabilityObject → Prop) R :
  (∀ rec, rec ∈ objects r → co_object rec = o → Q rec) →
  R ObjectNotFound → wpo (object r o) Q R.
Proof.
  intros HQ HR. destruct (object r o) as [rec|e|] eqn:E; cbn.
  - apply object_Ok in E as []. auto.
  - unfold object, ok_or in E. case_match; congruence.
  - unfold object, ok_or in E. case_match; congruence.
Qed.

Lemma slot_at_index r p pi t i :
  process_index r p = Some pi → processes r !! pi = Some t → slot_at r p i = pc_slots t !! i.
Proof. intros Hp Ht. unfold slot_at. rewrite Hp. cbn. by rewrite Ht. Qed.

(** Appending an empty slot of generation 1 to a table with room. *)
Lemma push_slot_spec r p pi t (f := λ p, {| pc_process := pc_process p;
      pc_slots := push (pc_slots p) {| hs_generation := 1; hs_entry := None |} |})
    (r' := set_processes (alter f pi (processes r)) r) :
  tables_ok r → process_index r p = Some pi → processes r !! pi = Some t →
  (length (pc_slots t) < MAX_CAPABILITY_SLOTS)%nat →
  tables_ok r' ∧ process_index r' p = Some pi ∧ processes r' !! pi = Some (f t) ∧
  pc_slots (f t) !! length (pc_slots t) = Some {| hs_generation := 1; hs_entry := None |} ∧
  slot_at r p (length (pc_slots t)) = None ∧
  slot_updated r r' p (length (pc_slots t)) {| hs_generation := 1; hs_entry := None |}.
Proof.
  intros Hok Hp Ht Hlen. split_and!.
  - apply tables_ok_alter; [done..|]. intros t' Ht'. cbn. unfold push. rewrite length_app. cbn.
    assert (t' = t) as -> by congruence. lia.
  - rewrite (process_index_keys r); [done|]. by apply procs_alter.
  - cbn. by rewrite list_lookup_alter_eq, Ht.
  - cbn. unfold push. by rewrite lookup_app_r, Nat.sub_diag by lia.
  - rewrite (slot_at_index r p pi t) by done. apply lookup_ge_None. lia.
  - intros q j. unfold r'. rewrite (slot_at_alter r f p) by done. rewrite Ht. cbn.
    destruct (decide (q = p)) as [->|]; [|by rewrite decide_False by tauto].
    rewrite (slot_at_index r p pi t) by done. unfold push.
    destruct (decide (j = length (pc_slots t))) as [->|].
    + rewrite decide_True by done. by rewrite lookup_app_r, Nat.sub_diag by lia.
    + rewrite decide_False by tauto. destruct (decide (j < length (pc_slots t))%nat).
      * by rewrite lookup_app_l.
      * rewrite (lookup_ge_None_2 (pc_slots t)) by lia. apply lookup_ge_None.
        rewrite length_app. cbn. lia.
Qed.

Lemma slot_updated_twice r r1 r2 p i s1 s2 :
  slot_updated r r1 p i s1 → slot_updated r1 r2 p i s2 → slot_updated r r2 p i s2.
Proof. intros H1 H2 q j. rewrite H2. case_decide; [done|]. rewrite H1. by rewrite decide_False. Qed.

Lemma same_slot_updated r r1 r2 p i s :
  same r r1 → slot_updated r1 r2 p i s → slot_updated r r2 p i s.
Proof. intros (_ & _ & H1) H2 q j. rewrite H2. by rewrite H1. Qed.

Lemma wrap16_small i : (i < MAX_CAPABILITY_SLOTS)%nat → wrap 16 (Z.of_nat i) = Z.of_nat i.
Proof. intros H. unfold wrap. apply Z.mod_small. unfold MAX_CAPABILITY_SLOTS in H. lia. Qed.

Lemma install_spec r p o ty rights : core r →
  wp (install p o ty rights)
    (λ m r', core r' ∧ ∃ i g, installed r r' p
        {| ce_object := o; ce_object_type := ty; ce_rights := rights |} m i g)
    (λ e r', core r' ∧ same r r') r.
Proof.
  intros Hc. set (e := {| ce_object := o; ce_object_type := ty; ce_rights := rights |}).
  unfold install. wp_steps. apply wpo_validate_rights; [|by auto using same_refl].
  intros Hnz Hsub. wp_steps. apply wpo_object; [|by auto using same_refl]. intros rec Hrec <-.
  wp_steps; [(by auto using same_refl)..|]. bool_simpl. subst ty.
  eapply wp_mono; [apply ensure_process_spec, Hc| |intros ?? [-> _]; by auto using same_refl].
  intros _ r1 (Ht1 & Hs1 & [pi Hpi] & _). assert (core r1) as Hc1 by by eapply core_same.
  wp_steps; [|congruence]. simplify_eq. destruct (registry_index_Some _ _ _ Hpi) as (t & Ht & Hpt).
  eapply wpo_expect; [exact Ht|]. assert (entry_ok r e) as He by (exists rec; done).
  destruct (position slot_is_free (pc_slots t)) as [i|] eqn:Hpos.
  - apply position_Some in Hpos as (s & Hs & Hfree & _). unfold slot_is_free in Hfree.
    destruct (hs_entry s) eqn:Hse; [done|]. bool_simpl. wp_steps.
    eapply wpo_expect; [exact Hs|]. wp_steps. unfold slot_ref. wp_steps.
    eapply wpo_expect; [exact Ht|]. eapply wpo_expect; [exact Hs|]. wp_steps.
    destruct (update_slot_spec r1 p pi i (λ s, {| hs_generation := hs_generation s;
      hs_entry := Some e |}) t s) as [Ht2 Hu]; [done..|].
    assert (slot_at r1 p i = Some s) as Hsi by by rewrite (slot_at_index r1 p pi t).
    destruct (core_generation _ Hc1 _ _ _ Hsi) as [Hg _]. destruct Hs1 as (Hn1 & Ho1 & Hsl1) eqn:E1.
    split.
    + eapply (core_slot_updated r1); [done..|]. split_and!; [done..|].
      cbn. intros ? [= <-]. unfold entry_ok. by rewrite Ho1.
    + exists i, (hs_generation s). assert (i < MAX_CAPABILITY_SLOTS)%nat as Hi.
      { apply lookup_lt_Some in Hs. destruct Ht1 as [_ _ Hl].
        eapply Forall_lookup_1 in Hl; [|exact Ht]. cbn in Hl. lia. }
      constructor; cbn; [|done|done|right|by eapply same_slot_updated|done|done].
      * by rewrite wrap16_small.
      * rewrite <- Hsl1, Hsi. by destruct s; cbn in *; subst.
  - wp_steps; [by split|]. bool_simpl.
    destruct (push_slot_spec r1 p pi t) as (Ht2 & Hp2 & Hl2 & Hs2 & Hnone & Hu2); [done..|lia|].
    set (r2 := set_processes _ r1) in *. unfold slot_ref. wp_steps.
    eapply wpo_expect; [exact Hl2|]. eapply wpo_expect; [exact Hs2|]. wp_steps.
    destruct (update_slot_spec r2 p pi (length (pc_slots t)) (λ s,
      {| hs_generation := hs_generation s; hs_entry := Some e |}) _ _ Ht2 Hp2 Hl2 Hs2)
      as [Ht3 Hu3]. cbn [hs_generation] in Hu3.
    pose proof (slot_updated_twice _ _ _ _ _ _ _ Hu2 Hu3) as Hu.
    destruct Hs1 as (Hn1 & Ho1 & Hsl1) eqn:E1. split.
    + eapply (core_slot_updated r1); [done..|]. split_and!; cbn; [by unfold is_u32, u32_max|done|].
      intros ? [= <-]. unfold entry_ok. by rewrite Ho1.
    + exists (length (pc_slots t)), 1.
      constructor; cbn; [|lia|by unfold is_u32, u32_max|left|by eapply same_slot_updated|done|done].
      * rewrite wrap16_small by lia. done.
      * by rewrite <- Hsl1, Hnone.
Qed.

(** ** Handle validation and lookup *)

Lemma wpo_validate_handle r p h (Q : nat * nat → Prop) R :
  (∀ pi t s, process_index r p = Some pi → processes r !! pi = Some t →
     pc_slots t !! handle_slot h = Some s → hs_generation s = generation h →
     slot_at r p (handle_slot h) = Some s → Q (pi, handle_slot h)) →
  (∀ e, R e) → wpo (validate_handle r p h) Q R.
Proof.
  intros HQ HR. unfold validate_handle. wp_steps; [|apply HR].
  destruct (registry_index_Some r p a) as (t & Ht & Hpt); [done|].
  eapply wpo_expect; [exact Ht|]. wp_steps; [apply HR| |apply HR]. bool_simpl.
  eapply HQ; [done..|]. by rewrite (slot_at_index r p a t).
Qed.

Lemma validate_handle_stale r p h s :
  slot_at r p (handle_slot h) = Some s → hs_generation s ≠ generation h →
  validate_handle r p h = Err StaleHandle.
Proof.
  unfold slot_at, validate_handle. destruct (process_index r p) as [pi|]; [|done]. cbn.
  destruct (processes r !! pi) as [t|]; [|done]. cbn. intros -> Hg. cbn.
  unfold err_if. by rewrite (proj2 (Z.eqb_neq _ _) Hg).
Qed.

Lemma lookup_stale r p h s :
  slot_at r p (handle_slot h) = Some s → hs_generation s ≠ generation h →
  lookup r p h = Err StaleHandle.
Proof. intros Hs Hg. unfold lookup. by rewrite (validate_handle_stale r p h s). Qed.

Lemma lookup_Ok r p h m : core r →
  lookup r p h = Ok m ↔
  ∃ s e rec, slot_at r p (handle_slot h) = Some s ∧ hs_generation s = generation h ∧
    hs_entry s = Some e ∧ rec ∈ objects r ∧ co_object rec = ce_object e ∧
    co_revoked rec = false ∧ co_object_type rec = ce_object_type e ∧
    m = {| cm_handle := h; cm_object := ce_object e;
           cm_object_type := ce_object_type e; cm_rights := ce_rights e |}.
Proof.
  intros Hc. split.
  - unfold lookup. intros H.
    assert (wpo (validate_handle r p h) (λ a, ∃ pi t s, a = (pi, handle_slot h) ∧
      processes r !! pi = Some t ∧ pc_slots t !! handle_slot h = Some s ∧
      hs_generation s = generation h ∧ slot_at r p (handle_slot h) = Some s) (λ _, True)) as Hv.
    { apply wpo_validate_handle; [|done]. intros. eauto 10. }
    destruct (validate_handle r p h) as [a|?|]; [|done..]. cbn in Hv.
    destruct Hv as (pi & t & s & -> & Ht & Hs & Hg & Hsl). unfold slot_ref in H.
    cbn in H. rewrite Ht in H. cbn in H. rewrite Hs in H. cbn in H.
    destruct (hs_entry s) as [e|] eqn:He; [|done]. cbn in H.
    destruct (object r (ce_object e)) as [rec|?|] eqn:Hrec; [|done..]. cbn in H.
    apply object_Ok in Hrec as [Hin Hid].
    destruct (co_revoked rec) eqn:Hrv; [done|]. cbn in H.
    destruct (bool_decide _) eqn:Hty; [|done]. cbn in H. bool_simpl.
    injection H as <-. exists s, e, rec. done.
  - intros (s & e & rec & Hsl & Hg & He & Hin & Hid & Hrv & Hty & ->).
    unfold lookup, validate_handle, slot_ref. unfold slot_at in Hsl.
    destruct (process_index r p) as [pi|]; [|done]. cbn in *.
    destruct (processes r !! pi) as [t|] eqn:Ht; [|done]. cbn in *. rewrite Hsl. cbn.
    unfold err_if. rewrite Hg, Z.eqb_refl. cbn. rewrite Ht. cbn. rewrite Hsl. cbn. rewrite He. cbn.
    rewrite <- Hid, object_intro by (done || apply Hc). cbn. rewrite Hrv. cbn.
    by rewrite bool_decide_eq_true_2.
Qed.

Lemma lookup_no_abort r p h : core r → lookup r p h ≠ Abort.
Proof.
  intros Hc. assert (wpo (lookup r p h) (λ _, True) (λ _, True)) as H; [|by destruct (lookup r p h)].
  unfold lookup. wp_steps. apply wpo_validate_handle; [|done].
  intros pi t s Hp Ht Hs Hg Hsl. unfold slot_ref. wp_steps.
  eapply wpo_expect; [exact Ht|]. eapply wpo_expect; [exact Hs|]. wp_steps; [|done].
  apply wpo_object; [|done]. intros. by wp_steps.
Qed.

Lemma lookup_live r p h m : core r → lookup r p h = Ok m →
  live r p (handle_slot h) {| ce_object := cm_object m; ce_object_type := cm_object_type m;
                              ce_rights := cm_rights m |}.
Proof.
  intros Hc (s & e & rec & Hsl & _ & He & _ & _ & _ & _ & ->)%lookup_Ok; [|done].
  exists s. split; [done|]. rewrite He. by destruct e.
Qed.

(** ** Specifications of the remaining operations *)

Definition next_generation (g : Z) : Z :=
  match checked_add u32_max g 1 with Some g' => g' | None => 0 end.

Lemma next_generation_u32 g : is_u32 g → is_u32 (next_generation g).
Proof.
  unfold is_u32, next_generation, checked_add. intros H.
  destruct (_ <=? _) eqn:E; bool_simpl; unfold u32_max in *; lia.
Qed.

(** [close] empties the named slot and advances its generation. *)
Definition closed (r r' : CapabilityRegistry) (p : ProcessId) (h : CapabilityHandle) : Prop :=
  ∃ r1 e, slot_at r p (handle_slot h) =
            Some {| hs_generation := generation h; hs_entry := Some e |} ∧
    slot_updated r r1 p (handle_slot h)
      {| hs_generation := next_generation (generation h); hs_entry := None |} ∧
    next_object_id r1 = next_object_id r ∧ objects r1 = objects r ∧ core r1 ∧
    r' = collected r1.

Lemma close_spec r p h : core r →
  wp (close p h) (λ _ r', inv r' ∧ closed r r' p h) (λ e r', r' = r) r.
Proof.
  intros Hc. unfold close. wp_steps. apply wpo_validate_handle; [|done].
  intros pi t s Hp Ht Hs Hg Hsl. wp_steps. unfold slot_ref. wp_steps.
  eapply wpo_expect; [exact Ht|]. eapply wpo_expect; [exact Hs|]. wp_steps; [done|]. bool_simpl.
  destruct (hs_entry s) as [e|] eqn:He; [|done].
  destruct (update_slot_spec r p pi (handle_slot h) (λ s,
    {| hs_generation := next_generation (hs_generation s); hs_entry := None |}) t s)
    as [Ht2 Hu]; [by destruct Hc|done..|]. set (r1 := update_slot _ _ _ r) in *.
  assert (core r1) as Hc1.
  { eapply (core_slot_updated r); [done..|]. destruct (core_slot_ok r _ _ _ Hc Hsl) as (Hu32 & _).
    split_and!; cbn; [by apply next_generation_u32|by intros []|done]. }
  unfold collect_revoked_objects. wp_steps. split; [by apply (collected_inv r1)|].
  exists r1, e. split_and!; [|by rewrite <- Hg|done..].
  rewrite Hsl. destruct s; cbn in *; by subst.
Qed.

Lemma wpo_reduce_rights held req (Q : Rights.t → Prop) R :
  (bits_subset req held → Q req) → R RightsEscalation → wpo (reduce_rights held req) Q R.
Proof.
  intros HQ HR. unfold reduce_rights. wp_step.
  destruct (Rights.reduce_to held req) as [x|e|] eqn:E; cbn; [|done|].
  - apply reduce_to_Ok in E as [-> ?]. auto.
  - unfold Rights.reduce_to in E. by case_match.
Qed.

Lemma reduce_spec r p h req : core r →
  wp (reduce p h req)
    (λ m r', core r' ∧ ∃ e, slot_at r p (handle_slot h) =
         Some {| hs_generation := generation h; hs_entry := Some e |} ∧
       bits_subset req (ce_rights e) ∧
       m = {| cm_handle := h; cm_object := ce_object e; cm_object_type := ce_object_type e;
              cm_rights := req |} ∧
       slot_updated r r' p (handle_slot h) {| hs_generation := generation h;
         hs_entry := Some {| ce_object := ce_object e; ce_object_type := ce_object_type e;
                             ce_rights := req |} |} ∧
       next_object_id r' = next_object_id r ∧ objects r' = objects r)
    (λ e r', r' = r) r.
Proof.
  intros Hc. unfold reduce. wp_steps. apply wpo_validate_handle; [|done].
  intros pi t s Hp Ht Hs Hg Hsl. wp_steps. unfold slot_ref. wp_steps.
  eapply wpo_expect; [exact Ht|]. eapply wpo_expect; [exact Hs|]. wp_steps; [|done].
  apply wpo_reduce_rights; [|done]. intros Hsub. wp_steps.
  set (e' := {| ce_object := ce_object a; ce_object_type := ce_object_type a; ce_rights := req |}).
  destruct (update_slot_spec r p pi (handle_slot h) (λ s,
    {| hs_generation := hs_generation s; hs_entry := Some e' |}) t s)
    as [Ht2 Hu]; [by destruct Hc|done..|]. cbv beta in Hu. rewrite Hg in Hu.
  destruct (core_slot_ok r _ _ _ Hc Hsl) as (Hu32 & Hnz & Hok). split.
  - eapply (core_slot_updated r); [done..|]. rewrite <- Hg. split_and!; cbn; [done|eauto|].
    intros ? [= <-]. destruct (Hok a) as (o & ? & ? & ? & ?); [done|]. exists o.
    split_and!; [done..|]. by transitivity (ce_rights a).
  - exists a. split_and!; try done. rewrite Hsl. destruct s; cbn in *; by subst.
Qed.

Lemma wpo_lookup r p h (Q : CapabilityMetadata → Prop) R : core r →
  (∀ m, lookup r p h = Ok m → Q m) → (∀ e, R e) → wpo (lookup r p h) Q R.
Proof.
  intros Hc HQ HR. pose proof (lookup_no_abort r p h Hc).
  destruct (lookup r p h); cbn; auto.
Qed.

Definition entry_of (m : CapabilityMetadata) (rights : Rights.t) : CapabilityEntry :=
  {| ce_object := cm_object m; ce_object_type := cm_object_type m; ce_rights := rights |}.

Lemma duplicate_spec r p h req : core r →
  wp (duplicate p h req)
    (λ m r', core r' ∧ ∃ src i g, lookup r p h = Ok src ∧
       Rights.contains (cm_rights src) Rights.DUPLICATE = true ∧
       bits_subset req (cm_rights src) ∧ installed r r' p (entry_of src req) m i g)
    (λ e r', core r' ∧ same r r') r.
Proof.
  intros Hc. unfold duplicate. wp_steps. apply wpo_lookup; [done| |done].
  intros src Hsrc. wp_steps; [done|]. bool_simpl. apply wpo_reduce_rights; [|done]. intros Hsub.
  eapply wp_mono; [by apply install_spec| |done].
  intros m r' (Hc' & i & g & Hi). split; [done|]. exists src, i, g. done.
Qed.

Lemma installed_elsewhere r r' p e m i g q j s :
  installed r r' p e m i g → slot_at r q j = Some s → is_Some (hs_entry s) →
  slot_at r' q j = Some s.
Proof.
  intros Hi Hs [e' He]. rewrite (inst_slots _ _ _ _ _ _ _ Hi). case_decide as Hd; [|done].
  destruct Hd as [-> ->]. destruct (inst_free _ _ _ _ _ _ _ Hi) as [[? _]|?]; simplify_eq.
Qed.

Lemma transfer_spec r sp h tp req : core r →
  wp (transfer sp h tp req)
    (λ m r', inv r' ∧ ∃ src r1 i g, lookup r sp h = Ok src ∧
       Rights.contains (cm_rights src) Rights.TRANSFER = true ∧
       bits_subset req (cm_rights src) ∧ core r1 ∧
       installed r r1 tp (entry_of src req) m i g ∧ closed r1 r' sp h)
    (λ e r', core r' ∧ same r r') r.
Proof.
  intros Hc. unfold transfer. wp_steps. apply wpo_lookup; [done| |done].
  intros src Hsrc. wp_steps; [done|]. bool_simpl. apply wpo_reduce_rights; [|done]. intros Hsub.
  wp_steps. eapply wp_mono; [by apply install_spec| |done].
  intros m r1 (Hc1 & i & g & Hi). wp_steps. apply wp_intro.
  - by eapply wp_no_abort, close_spec.
  - intros [] r' Hcl. wp_steps. eapply wp_ok in Hcl; [|by apply close_spec].
    destruct Hcl as [? ?]. split; [done|]. exists src, r1, i, g. done.
  - intros e r' Hcl. exfalso. apply lookup_Ok in Hsrc as (s & en & rec & Hs & Hg & He & _); [|done].
    pose proof (installed_elsewhere _ _ _ _ _ _ _ _ _ _ Hi Hs (mk_is_Some _ _ He)) as Hs1.
    unfold close, mbind, M_bind, reads in Hcl. unfold slot_at in Hs1.
    unfold validate_handle, slot_ref in Hcl. destruct (process_index r1 sp) as [pi|]; [|done].
    cbn in Hs1, Hcl. destruct (processes r1 !! pi) as [t|] eqn:Ht; [|done]. cbn in Hs1, Hcl.
    rewrite Hs1 in Hcl. cbn in Hcl. rewrite Hg, Z.eqb_refl in Hcl. cbn in Hcl.
    rewrite Ht in Hcl. cbn in Hcl. rewrite Hs1 in Hcl. cbn in Hcl. by rewrite He in Hcl.
Qed.

(** [create_object] either leaves the authority unchanged or adds one fresh object
    with one handle; a rolled-back creation still consumes the identity. *)
Definition same_but_next (r r' : CapabilityRegistry) : Prop :=
  next_object_id r ≤ next_object_id r' ∧ objects r' = objects r ∧
  ∀ p i, slot_at r' p i = slot_at r p i.

Definition with_object (r : CapabilityRegistry) (ty : ObjectType) : CapabilityRegistry :=
  set_objects (push (objects r)
    {| co_object := next_object_id r; co_object_type := ty; co_revoked := false |})
    (set_next_object_id (next_object_id r + 1) r).

Lemma with_object_core r ty : core r → (length (objects r) < MAX_CAPABILITY_OBJECTS)%nat →
  next_object_id r + 1 ≤ u64_max → core (with_object r ty).
Proof.
  intros Hc Hlen Hmax. pose proof (core_next r Hc). constructor; cbn; unfold push.
  - by destruct Hc as [[]].
  - lia.
  - rewrite fmap_app. apply NoDup_app. split_and!; [apply Hc| |apply NoDup_singleton].
    intros x (o & -> & Ho)%list_elem_of_fmap Hx%list_elem_of_singleton. cbn in Hx.
    pose proof (core_ids r Hc o Ho). lia.
  - intros o [Ho|Ho]%elem_of_app.
    + pose proof (core_ids r Hc o Ho). lia.
    + apply list_elem_of_singleton in Ho as ->. cbn. lia.
  - rewrite length_app. cbn. lia.
  - apply (core_generation r Hc).
  - intros p i e Hl. destruct (core_entry r Hc p i e Hl) as (o & ? & ?). exists o.
    split; [|done]. apply elem_of_app. by left.
Qed.

Lemma core_same_but_next r r' :
  core r → tables_ok r' → next_object_id r' ≤ u64_max → same_but_next r r' → core r'.
Proof.
  intros Hc Ht Hmax (Hn & Ho & Hsl). pose proof (core_next r Hc).
  constructor; rewrite ?Ho; [done|lia|apply Hc| |apply Hc|..].
  - intros o Hin. pose proof (core_ids r Hc o Hin). lia.
  - intros p i s. rewrite Hsl. apply (core_generation r Hc).
  - intros p i e (s & Hs & He). rewrite Hsl in Hs. apply (core_entry r Hc p i). by exists s.
Qed.

Lemma create_object_spec r p ty rights : core r →
  wp (create_object p ty rights)
    (λ m r', core r' ∧ ∃ r1 i g, same r r1 ∧
       installed (with_object r1 ty) r' p
         {| ce_object := next_object_id r; ce_object_type := ty; ce_rights := rights |} m i g)
    (λ e r', core r' ∧ same_but_next r r') r.
Proof.
  intros Hc. unfold create_object. wp_steps.
  apply wpo_validate_rights; [|split; [done|by split_and!]]. intros Hnz Hsub. wp_steps.
  eapply wp_mono; [apply ensure_process_spec, Hc| |intros ?? [-> _]; split; [done|by split_and!]].
  intros _ r1 (Ht1 & Hs1 & _). assert (core r1) as Hc1 by by eapply core_same.
  assert (same_but_next r r1) as Hsn by (destruct Hs1 as (Hn & ? & ?); split_and!; [lia|done..]).
  wp_steps; [done..| |done]. bool_simpl. unfold checked_add in *.
  destruct (_ <=? _) eqn:E; [|done]. simplify_eq. bool_simpl.
  assert (core (with_object r1 ty)) as Hc2 by (apply with_object_core; [done|lia|done]).
  eapply wp_mono; [apply install_spec, Hc2|..].
  - intros m r' (Hc' & i & g & Hi). wp_steps. split; [done|]. exists r1, i, g. split; [done|].
    destruct Hs1 as (<- & _). done.
  - intros e r' (Hc' & Hn & Ho & Hsl). wp_steps. cbn in Hn, Ho.
    set (r2 := set_objects _ r').
    assert (objects r2 = objects r1) as Ho2.
    { cbn. rewrite Ho. unfold push. rewrite length_app. cbn.
      rewrite Nat.add_sub, take_app_length. done. }
    destruct Hs1 as (Hn1 & Ho1 & Hsl1). assert (same_but_next r r2) as Hsn2.
    { split_and!; [cbn; rewrite Hn; lia|congruence|]. intros q j.
      rewrite <- Hsl1. apply (Hsl q j). }
    split; [|done]. eapply (core_same_but_next r); [done| |cbn; rewrite Hn; lia|done].
    destruct (core_tables r' Hc') as []. by constructor.
Qed.

Lemma remove_process_spec r p : core r →
  wp (remove_process p)
    (λ _ r', inv r' ∧ ∃ r1, r' = collected r1 ∧ next_object_id r1 = next_object_id r ∧
       objects r1 = objects r ∧ core r1 ∧
       ∀ q i, slot_at r1 q i = if decide (q = p) then None else slot_at r q i)
    (λ e r', r' = r) r.
Proof.
  intros Hc. unfold remove_process. wp_steps; [|done]. unfold collect_revoked_objects. wp_steps.
  destruct (core_tables r Hc) as [Hnd Hlim Hsl].
  destruct (registry_index_Some r p a) as (t & Ht & Hpt); [done|].
  pose proof (swap_remove_Permutation _ _ _ Ht) as Hperm.
  pose proof (length_swap_remove a (processes r)) as Hlen.
  remember (swap_remove a (processes r)) as rest eqn:Hrest. clear Hrest.
  set (r1 := set_processes rest r).
  assert (NoDup (pc_process <$> t :: rest)) as Hnd'.
  { rewrite <- Hperm. done. }
  assert (∀ t', t' ∈ processes r1 ↔ t' ∈ processes r ∧ pc_process t' ≠ p) as Helem.
  { intros t'. cbn. rewrite Hperm, elem_of_cons. cbn in Hnd'. apply NoDup_cons in Hnd' as [Hni _].
    split.
    - intros Hin. split; [by right|]. intros Heq. apply Hni. rewrite Hpt, <- Heq.
      apply list_elem_of_fmap. eauto.
    - intros [[->|Hin] Hne]; done. }
  assert (tables_ok r1) as Ht1.
  { constructor; cbn.
    - cbn in Hnd'. by apply NoDup_cons in Hnd' as [_ ?].
    - lia.
    - rewrite Hperm in Hsl. by apply Forall_cons in Hsl as [_ ?]. }
  assert (∀ q i, slot_at r1 q i = if decide (q = p) then None else slot_at r q i) as Hslots.
  { intros q i. apply option_eq. intros s. rewrite slot_at_Some by apply Ht1.
    setoid_rewrite Helem. case_decide; [naive_solver|]. rewrite slot_at_Some by done. naive_solver. }
  assert (core r1) as Hc1.
  { constructor; try apply Hc; [done|..].
    - intros q i s. rewrite Hslots. case_decide; [done|]. apply (core_generation r Hc).
    - intros q i e (s & Hs & He). rewrite Hslots in Hs. case_decide; [done|].
      apply (core_entry r Hc q i). by exists s. }
  split; [by apply collected_inv|]. exists r1. done.
Qed.

Definition revoked_at (o : ObjectId) (c : CapabilityObject) : CapabilityObject :=
  if co_object c =? o
  then {| co_object := co_object c; co_object_type := co_object_type c; co_revoked := true |}
  else c.

Lemma revoke_objects o os : NoDup (co_object <$> os) →
  match position (λ c, co_object c =? o) os with
  | Some i => alter (λ c, {| co_object := co_object c; co_object_type := co_object_type c;
                             co_revoked := true |}) i os
  | None => os
  end = revoked_at o <$> os.
Proof.
  induction os as [|c os IH]; [done|]. cbn. intros [Hni Hnd]%NoDup_cons. unfold revoked_at at 1.
  specialize (IH Hnd). destruct (co_object c =? o) eqn:E; cbn.
  - bool_simpl. f_equal. symmetry. rewrite <- (list_fmap_id os) at 2. apply list_fmap_ext.
    intros i c' Hc'. unfold revoked_at. destruct (co_object c' =? o) eqn:E'; [|done]. bool_simpl.
    exfalso. apply Hni. apply list_elem_of_fmap. exists c'. split; [congruence|].
    by eapply list_elem_of_lookup_2.
  - destruct (position _ os); cbn; [by f_equal|]. by f_equal.
Qed.

Lemma revoke_spec r o : core r →
  wp (revoke o)
    (λ _ r', core r' ∧ r' = set_objects (revoked_at o <$> objects r) r ∧
             ∃ rec, rec ∈ objects r ∧ co_object rec = o)
    (λ e r', r' = r ∧ e = ObjectNotFound) r.
Proof.
  intros Hc. unfold revoke. wp_steps. apply wpo_object; [|done]. intros rec Hin Hid. wp_steps.
  rewrite revoke_objects by apply Hc. split; [|eauto].
  assert (∀ c, co_object (revoked_at o c) = co_object c) as Hob.
  { intros c. unfold revoked_at. by case_match. }
  assert (∀ c, co_object_type (revoked_at o c) = co_object_type c) as Hty.
  { intros c. unfold revoked_at. by case_match. }
  constructor; cbn; try apply Hc.
  - by destruct Hc as [[]].
  - rewrite <- list_fmap_compose. rewrite (list_fmap_ext _ co_object (objects r)); [apply Hc|].
    intros i c _. cbn. apply Hob.
  - intros c (c' & -> & Hc')%list_elem_of_fmap. rewrite Hob. by apply (core_ids r Hc).
  - rewrite length_fmap. apply Hc.
  - intros p i e Hl. destruct (core_entry r Hc p i e Hl) as (c & Hin' & He & Ht & Hr).
    exists (revoked_at o c). rewrite Hob, Hty. split; [|done]. apply list_elem_of_fmap. eauto.
Qed.
