(* ===== verification/CapabilityProps.v ===== *)
(** * CapabilityProps: authority rules of the capability registry

    Every public operation of [CapabilityRegistry] is a [call]; [run] executes a
    sequence of calls, failed ones included.  The theorems of this file hold of
    every registry a sequence of calls produces. *)

From stdpp Require Import base list numbers option sets relations.
From Stdlib Require Import ZArith Lia.
From S2P Require Import Prelude Object Capability.

Inductive call :=
| CEnsureProcess (p : Z)
| CRemoveProcess (p : Z)
| CCreateObject (p : Z) (t : ObjectType) (rights : Rights.t)
| CDuplicate (p : Z) (h : CapabilityHandle) (requested : Rights.t)
| CTransfer (p : Z) (h : CapabilityHandle) (target : Z) (requested : Rights.t)
| CReduce (p : Z) (h : CapabilityHandle) (requested : Rights.t)
| CClose (p : Z) (h : CapabilityHandle)
| CRevoke (o : Z).

Definition exec (c : call) : M CapabilityRegistry CapabilityError unit :=
  match c with
  | CEnsureProcess p => ensure_process p
  | CRemoveProcess p => remove_process p
  | CCreateObject p t rights => _ ← create_object p t rights; mret ()
  | CDuplicate p h req => _ ← duplicate p h req; mret ()
  | CTransfer p h q req => _ ← transfer p h q req; mret ()
  | CReduce p h req => _ ← reduce p h req; mret ()
  | CClose p h => close p h
  | CRevoke o => revoke o
  end.

Definition run (cs : list call) (r : CapabilityRegistry) : CapabilityRegistry :=
  foldl (λ r c, (exec c r).2) r cs.

(** ** Evolution of authority along calls *)

(** Every live entry of [r'] is attenuated from a live entry of [r] for the same
    object, or names an object created since; object records keep their type and
    their revocation. *)
Record evolves (r r' : CapabilityRegistry) : Prop := {
  ev_next : next_object_id r ≤ next_object_id r';
  ev_live : ∀ p i e, live r' p i e →
    (∃ p' i' e', live r p' i' e' ∧ ce_object e' = ce_object e ∧
                 bits_subset (ce_rights e) (ce_rights e')) ∨
    next_object_id r ≤ ce_object e;
  ev_objects : ∀ o', o' ∈ objects r' →
    (∃ o, o ∈ objects r ∧ co_object o = co_object o' ∧ co_object_type o = co_object_type o' ∧
          (co_revoked o = true → co_revoked o' = true)) ∨
    next_object_id r ≤ co_object o';
}.

(** Age of a generation: a retired slot (generation 0) is the oldest. *)
Definition age (g : Z) : Z := if g =? 0 then u32_max + 1 else g.

(** Process [q]'s slots persist and never get younger. *)
Definition slots_age (q : Z) (r r' : CapabilityRegistry) : Prop :=
  ∀ i s, slot_at r q i = Some s →
    ∃ s', slot_at r' q i = Some s' ∧ age (hs_generation s) ≤ age (hs_generation s').

Lemma evolves_refl r : evolves r r.
Proof.
  constructor; [done|..].
  - intros p i e Hl. left. exists p, i, e. split_and!; [done..|reflexivity].
  - intros o Ho. left. by exists o.
Qed.

Lemma evolves_trans r1 r2 r3 : evolves r1 r2 → evolves r2 r3 → evolves r1 r3.
Proof.
  intros [N1 L1 O1] [N2 L2 O2]. constructor; [lia|..].
  - intros p i e [(p' & i' & e' & Hl & Ho & Hs)|Hn]%L2; [|right; lia].
    apply L1 in Hl as [(p'' & i'' & e'' & Hl & Ho' & Hs')|Hn]; [left|right; lia].
    exists p'', i'', e''. split_and!; [done|congruence|by transitivity (ce_rights e')].
  - intros o [(o' & Ho' & Hi & Ht & Hr)|Hn]%O2; [|right; lia].
    apply O1 in Ho' as [(o'' & Ho'' & Hi' & Ht' & Hr')|Hn]; [left|right; lia].
    exists o''. split_and!; [done|congruence|congruence|auto].
Qed.

Lemma evolves_intro r r' :
  next_object_id r ≤ next_object_id r' → objects r' = objects r →
  (∀ p i e, live r' p i e →
    (∃ p' i' e', live r p' i' e' ∧ ce_object e' = ce_object e ∧
                 bits_subset (ce_rights e) (ce_rights e')) ∨
    next_object_id r ≤ ce_object e) → evolves r r'.
Proof. intros Hn Ho Hl. constructor; [done..|]. rewrite Ho. intros o Hin. left. by exists o. Qed.

Lemma evolves_slots r r' :
  next_object_id r ≤ next_object_id r' → objects r' = objects r →
  (∀ p i, slot_at r' p i = slot_at r p i) → evolves r r'.
Proof.
  intros Hn Ho Hs. apply evolves_intro; [done..|]. intros p i e (s & Hsl & He). left.
  exists p, i, e. split_and!; [|done|reflexivity]. exists s. by rewrite <- Hs.
Qed.

(** Overwriting one slot with an attenuated, fresh or absent entry. *)
Lemma evolves_slot_updated r r' p i s :
  next_object_id r' = next_object_id r → objects r' = objects r →
  slot_updated r r' p i s →
  (∀ e, hs_entry s = Some e →
    (∃ p' i' e', live r p' i' e' ∧ ce_object e' = ce_object e ∧
                 bits_subset (ce_rights e) (ce_rights e')) ∨
    next_object_id r ≤ ce_object e) →
  evolves r r'.
Proof.
  intros Hn Ho Hu He. apply evolves_intro; [lia|done|].
  intros q j e (s' & Hs' & Hse). rewrite Hu in Hs'. case_decide.
  - injection Hs' as <-. by apply He.
  - left. exists q, j, e. split_and!; [by exists s'|done|reflexivity].
Qed.

Lemma evolves_collected r : evolves r (collected r).
Proof.
  constructor; [done|..].
  - intros p i e Hl. left. exists p, i, e. split_and!; [done..|reflexivity].
  - cbn. intros o [_ Ho]%list_elem_of_filter. left. by exists o.
Qed.

Lemma slots_age_updated r r' p i s q :
  slot_updated r r' p i s →
  (∀ s0, slot_at r p i = Some s0 → age (hs_generation s0) ≤ age (hs_generation s)) →
  slots_age q r r'.
Proof.
  intros Hu Hs j s0 Hj. rewrite Hu. case_decide as Hd; [|by exists s0; split; [|lia]].
  destruct Hd as [-> ->]. eauto.
Qed.

Lemma slots_age_same q r r' : (∀ p i, slot_at r' p i = slot_at r p i) → slots_age q r r'.
Proof. intros H i s Hs. exists s. by rewrite H. Qed.

Lemma slots_age_trans q r1 r2 r3 : slots_age q r1 r2 → slots_age q r2 r3 → slots_age q r1 r3.
Proof.
  intros H1 H2 i s Hs. apply H1 in Hs as (s' & Hs' & ?). apply H2 in Hs' as (s'' & ? & ?).
  exists s''. split; [done|lia].
Qed.

Lemma age_next g : is_u32 g → g ≠ 0 → age g < age (next_generation g).
Proof.
  unfold age, next_generation, checked_add, is_u32. intros H Hnz.
  rewrite (proj2 (Z.eqb_neq g 0)) by done.
  destruct (_ <=? _) eqn:E; bool_simpl; cbn; [|unfold u32_max in *; lia].
  rewrite (proj2 (Z.eqb_neq _ 0)) by lia. lia.
Qed.

Lemma installed_age r r' p e m i g q : installed r r' p e m i g → slots_age q r r'.
Proof.
  intros []. eapply slots_age_updated; [done|]. intros s0 Hs0.
  destruct inst_free as [[? _]|?]; simplify_eq. done.
Qed.

Lemma installed_evolves r r' p e m i g p' i' e' : installed r r' p e m i g →
  live r p' i' e' → ce_object e' = ce_object e → bits_subset (ce_rights e) (ce_rights e') →
  evolves r r'.
Proof.
  intros [] Hl Ho Hs. eapply evolves_slot_updated; [done..|]. intros ? [= <-]. left. eauto 10.
Qed.

Lemma installed_referenced r r' p e m i g :
  referenced r → installed r r' p e m i g → referenced r'.
Proof.
  intros Hr Hi o Ho. rewrite (inst_objects _ _ _ _ _ _ _ Hi) in Ho.
  destruct (Hr o Ho) as (q & j & e' & (s & Hs & He) & Hid). exists q, j, e'. split; [|done].
  exists s. split; [|done]. eapply installed_elsewhere; [done..|]. by rewrite He.
Qed.

Lemma closed_evolves r r' p h : core r → closed r r' p h →
  evolves r r' ∧ ∀ q, slots_age q r r'.
Proof.
  intros Hc (r1 & e & Hsl & Hu & Hn & Ho & _ & ->).
  destruct (core_slot_ok r _ _ _ Hc Hsl) as (Hu32 & Hnz & _). cbn in Hu32, Hnz. split.
  - eapply evolves_trans; [|apply evolves_collected]. by eapply evolves_slot_updated.
  - intros q. eapply (slots_age_trans q r r1); [|by apply slots_age_same].
    eapply slots_age_updated; [done|]. intros s0 Hs0. rewrite Hsl in Hs0. injection Hs0 as <-. cbn.
    pose proof (age_next (generation h) Hu32 (Hnz (mk_is_Some _ _ eq_refl))). lia.
Qed.

Definition removes (c : call) (q : Z) : Prop := c = CRemoveProcess q.

Definition progress (c : call) (r r' : CapabilityRegistry) : Prop :=
  inv r' ∧ evolves r r' ∧ ∀ q, ¬ removes c q → slots_age q r r'.

Lemma progress_same c r r' : inv r → core r' → same r r' → progress c r r'.
Proof.
  intros [Hc Hr] Hc' Hs. pose proof Hs as (Hn & Ho & Hsl). split_and!.
  - split; [done|by eapply referenced_same].
  - apply evolves_slots; [lia|done..].
  - intros q _. by apply slots_age_same.
Qed.

Lemma wp_void {S E A} (m : M S E A) (P : S → Prop) s :
  wp m (λ _, P) (λ _, P) s → wp (_ ← m; mret ()) (λ _, P) (λ _, P) s.
Proof. intros H. wp_steps. done. Qed.

Lemma create_progress r p t rights : inv r →
  wp (create_object p t rights) (λ _, progress (CCreateObject p t rights) r)
    (λ _, progress (CCreateObject p t rights) r) r.
Proof.
  intros [Hc Hr]. eapply wp_mono; [by apply create_object_spec|..].
  - intros m r' (Hc' & r1 & i & g & Hs & Hi). pose proof Hs as (Hn & Ho & Hsl).
    assert (referenced r1) as Hr1 by by eapply referenced_same.
    split_and!.
    + split; [done|]. intros o Hin. rewrite (inst_objects _ _ _ _ _ _ _ Hi) in Hin. cbn in Hin.
      apply elem_of_app in Hin as [Hin| ->%list_elem_of_singleton].
      * destruct (Hr1 o Hin) as (q & j & e' & (s & Hs' & He) & Hid). exists q, j, e'. split; [|done].
        exists s. split; [|done]. eapply installed_elsewhere; [done|exact Hs'|by rewrite He].
      * eexists p, i, _. split.
        { eexists. split; [rewrite (inst_slots _ _ _ _ _ _ _ Hi), decide_True by done; done|done]. }
        cbn. congruence.
    + constructor.
      * rewrite (inst_next _ _ _ _ _ _ _ Hi). cbn. lia.
      * intros q j e (s & Hs' & He). rewrite (inst_slots _ _ _ _ _ _ _ Hi) in Hs'. case_decide.
        { right. injection Hs' as <-. cbn in He. injection He as <-. done. }
        left. exists q, j, e. split_and!; [|done|reflexivity]. exists s. by rewrite <- Hsl.
      * rewrite (inst_objects _ _ _ _ _ _ _ Hi). cbn.
        intros o [Hin| ->%list_elem_of_singleton]%elem_of_app; [left|right; cbn; lia].
        exists o. rewrite <- Ho. done.
    + intros q _. eapply (slots_age_trans q r (with_object r1 t)); [by apply slots_age_same|].
      by eapply installed_age.
  - intros e r' (Hc' & Hn & Ho & Hsl). split_and!.
    + split; [done|]. intros o Hin. rewrite Ho in Hin.
      destruct (Hr o Hin) as (q & j & e' & (s & Hs' & He) & Hid). exists q, j, e'.
      split; [|done]. exists s. by rewrite Hsl.
    + by apply evolves_slots.
    + intros q _. by apply slots_age_same.
Qed.

Lemma revoke_progress r o : inv r →
  wp (revoke o) (λ _, progress (CRevoke o) r) (λ _, progress (CRevoke o) r) r.
Proof.
  intros [Hc Hr]. eapply wp_mono; [by apply revoke_spec| |intros e ? [-> _]; by apply progress_same].
  intros _ r' (Hc' & -> & _). split_and!.
  - split; [done|]. cbn. intros c (c' & -> & Hin)%list_elem_of_fmap.
    destruct (Hr c' Hin) as (q & j & e' & Hl & Hid). exists q, j, e'. split; [done|].
    unfold revoked_at. by case_match.
  - constructor; cbn; [done|..].
    + intros p i e Hl. left. exists p, i, e. split_and!; [done..|reflexivity].
    + intros c (c' & -> & Hin)%list_elem_of_fmap. left. exists c'. split; [done|].
      unfold revoked_at. by case_match.
  - intros q _. by apply slots_age_same.
Qed.

Lemma exec_progress c r : inv r →
  wp (exec c) (λ _, progress c r) (λ _, progress c r) r.
Proof.
  intros Hinv. pose proof Hinv as [Hc Hr]. destruct c; cbn [exec].
  - eapply wp_mono; [apply ensure_process_spec, Hc|..].
    + intros _ r' (Ht & Hs & _). by apply progress_same; [|eapply core_same|].
    + intros e r' [-> _]. by apply progress_same.
  - eapply wp_mono; [by apply remove_process_spec| |intros e r' ->; by apply progress_same].
    intros _ r' (Hi & r1 & -> & Hn & Ho & Hc1 & Hsl). split_and!; [done|..].
    + eapply evolves_trans; [|apply evolves_collected]. apply evolves_intro; [lia|done|].
      intros q i e (s & Hs & He). rewrite Hsl in Hs. case_decide; [done|]. left.
      exists q, i, e. split_and!; [by exists s|done|reflexivity].
    + intros q Hq i s Hs. exists s. change (slot_at (collected r1) q i) with (slot_at r1 q i).
      rewrite Hsl, decide_False; [done|]. by intros ->.
  - by apply wp_void, create_progress.
  - apply wp_void. eapply wp_mono; [by apply duplicate_spec|..].
    + intros m r' (Hc' & src & i & g & Hlk & _ & Hsub & Hi). split_and!.
      * split; [done|by eapply installed_referenced].
      * by eapply installed_evolves; [|eapply lookup_live|..].
      * intros q _. by eapply installed_age.
    + intros e r' [? ?]. by apply progress_same.
  - apply wp_void. eapply wp_mono; [by apply transfer_spec|..].
    + intros m r' (Hi' & src & r1 & i & g & Hlk & _ & Hsub & Hc1 & Hi & Hcl).
      destruct (closed_evolves _ _ _ _ Hc1 Hcl) as [Hev Hage]. split_and!; [done|..].
      * eapply evolves_trans; [|exact Hev]. by eapply installed_evolves; [|eapply lookup_live|..].
      * intros q _. eapply slots_age_trans; [by eapply installed_age|apply Hage].
    + intros e r' [? ?]. by apply progress_same.
  - apply wp_void. eapply wp_mono; [by apply reduce_spec| |intros e r' ->; by apply progress_same].
    intros m r' (Hc' & e & Hs & Hsub & _ & Hu & Hn & Ho).
    assert (live r p (handle_slot h) e) as Hl by (eexists; split; [exact Hs|done]). split_and!.
    + split; [done|]. intros o Hin. rewrite Ho in Hin.
      destruct (Hr o Hin) as (q & j & e' & (s & Hs' & He) & Hid).
      destruct (decide (q = p ∧ j = handle_slot h)) as [[-> ->]|Hne].
      * eexists p, _, _. split; [eexists; split; [rewrite Hu, decide_True by done|]; done|].
        rewrite Hs in Hs'. injection Hs' as <-. cbn in *. congruence.
      * exists q, j, e'. split; [|done]. exists s. by rewrite Hu, decide_False.
    + eapply evolves_slot_updated; [done..|]. cbn. intros ? [= <-]. left. cbn. eauto 10.
    + intros q _. eapply slots_age_updated; [done|]. intros s0 Hs0.
      rewrite Hs in Hs0. by injection Hs0 as <-.
  - eapply wp_mono; [by apply close_spec| |intros e r' ->; by apply progress_same].
    intros _ r' [Hi Hcl]. destruct (closed_evolves _ _ _ _ Hc Hcl). split_and!; [done..|].
    auto.
  - by apply revoke_progress.
Qed.

Lemma exec_progress_run c r : inv r → progress c r (exec c r).2.
Proof.
  intros Hi. pose proof (exec_progress c r Hi) as H. unfold wp in H.
  by destruct (exec c r) as [[]].
Qed.

Lemma run_progress cs r : inv r →
  inv (run cs r) ∧ evolves r (run cs r) ∧
  ∀ q, Forall (λ c, ¬ removes c q) cs → slots_age q r (run cs r).
Proof.
  revert r. induction cs as [|c cs IH]; intros r Hi; cbn.
  - split_and!; [done|apply evolves_refl|]. intros q _. by apply slots_age_same.
  - destruct (exec_progress_run c r Hi) as (Hi' & Hev & Hage).
    destruct (IH _ Hi') as (Hi'' & Hev' & Hage'). split_and!.
    + done.
    + by eapply evolves_trans.
    + intros q [Hq Hcs]%Forall_cons. eapply slots_age_trans; [by apply Hage|by apply Hage'].
Qed.

Lemma registry_new_inv : inv new.
Proof.
  split; [constructor|intros o Ho; set_solver]; cbn; try (by intros ? ? ? (? & ? & ?)); try done.
  - constructor; cbn; [apply NoDup_nil_2|unfold MAX_CAPABILITY_PROCESSES; lia|done].
  - apply NoDup_nil_2.
  - set_solver.
  - unfold MAX_CAPABILITY_OBJECTS. lia.
Qed.

(** ** Properties *)

(** C15. Structural safety of the registry.  After any sequence of calls from the
    empty registry: process tables are keyed uniquely and bounded, object
    identities are unique, nonzero and below the next identity, every live entry
    has a nonzero generation and names an existing object of the recorded type
    with rights allowed for that type, every object is named by some live handle,
    and no further call of any kind panics. *)
Theorem registry_invariant (cs : list call) :
  inv (run cs new) ∧ ∀ c, (exec c (run cs new)).1 ≠ Abort.
Proof.
  destruct (run_progress cs new registry_new_inv) as (Hi & _). split; [done|].
  intros c. by eapply wp_no_abort, exec_progress.
Qed.

(** C16. Rights confinement.  If in some well-formed registry every live entry for
    an existing object [o] is within the bound [R], then after any further calls
    by any processes (duplications, transfers, reductions, new objects, removals)
    every live entry for [o] is still within [R]: authority over an existing
    object only ever shrinks. *)
Theorem rights_confined (r : CapabilityRegistry) (cs : list call) (o : ObjectId) (R : Rights.t)
    (Hinv : inv r) (Hold : o < next_object_id r)
    (Hbound : ∀ p i e, live r p i e → ce_object e = o → bits_subset (ce_rights e) R) :
  ∀ p i e, live (run cs r) p i e → ce_object e = o → bits_subset (ce_rights e) R.
Proof.
  intros p i e Hl Ho. destruct (run_progress cs r Hinv) as (_ & Hev & _).
  destruct (ev_live _ _ Hev _ _ _ Hl) as [(p' & i' & e' & Hl' & Ho' & Hs)|]; [|lia].
  transitivity (ce_rights e'); [done|]. apply (Hbound p' i'); [done|congruence].
Qed.

(** Nobody can use the handle: every operation that takes it reports it as stale
    and leaves the registry as it is. *)
Record rejected (r : CapabilityRegistry) (p : Z) (h : CapabilityHandle) : Prop := {
  rj_lookup : lookup r p h = Err StaleHandle;
  rj_check : ∀ t required, check r p h t required = Err StaleHandle;
  rj_duplicate : ∀ req, duplicate p h req r = (Err StaleHandle, r);
  rj_transfer : ∀ target req, transfer p h target req r = (Err StaleHandle, r);
  rj_reduce : ∀ req, reduce p h req r = (Err StaleHandle, r);
  rj_close : close p h r = (Err StaleHandle, r);
}.

Lemma stale_rejected r p h s :
  slot_at r p (handle_slot h) = Some s → hs_generation s ≠ generation h → rejected r p h.
Proof.
  intros Hs Hg. pose proof (validate_handle_stale r p h s Hs Hg) as Hv.
  pose proof (lookup_stale r p h s Hs Hg) as Hl. split; intros.
  - done.
  - unfold check. by rewrite Hl.
  - unfold duplicate, mbind, M_bind, reads. by rewrite Hl.
  - unfold transfer, mbind, M_bind, reads. by rewrite Hl.
  - unfold reduce, mbind, M_bind, reads. by rewrite Hv.
  - unfold close, mbind, M_bind, reads. by rewrite Hv.
Qed.

(** C29. A closed handle never revives.  Once a handle has been closed, then as long
    as its process is not removed, every later use of it (lookup, check, duplication,
    transfer, reduction, closing again) is rejected as stale and changes nothing, no
    matter how often the slot is reused or retired in between. *)
Theorem closed_handle_never_revives (r r1 : CapabilityRegistry) (p : Z) (h : CapabilityHandle)
    (cs : list call)
    (Hinv : inv r) (Hclose : close p h r = (Ok (), r1))
    (Hkeep : Forall (λ c, c ≠ CRemoveProcess p) cs) :
  rejected (run cs r1) p h.
Proof.
  destruct (wp_ok _ _ _ _ _ _ (close_spec r p h (proj1 Hinv)) Hclose)
    as (Hi1 & r2 & e & Hsl & Hu & _ & _ & _ & ->).
  destruct (core_slot_ok r _ _ _ (proj1 Hinv) Hsl) as (Hu32 & Hnz & _). cbn in Hu32, Hnz.
  destruct (run_progress cs _ Hi1) as (_ & _ & Hage).
  destruct (Hage p Hkeep (handle_slot h)
    {| hs_generation := next_generation (generation h); hs_entry := None |}) as (s & Hs & Hle).
  { change (slot_at r2 p (handle_slot h) =
      Some {| hs_generation := next_generation (generation h); hs_entry := None |}).
    by rewrite Hu, decide_True. }
  eapply stale_rejected; [exact Hs|]. intros Heq. rewrite Heq in Hle. cbn in Hle.
  pose proof (age_next (generation h) Hu32 (Hnz (mk_is_Some _ _ eq_refl))). lia.
Qed.

(** C30. Transfer is an atomic move with attenuation.  When it succeeds, the source
    handle is stale, the returned handle names the same object for the target with
    exactly the requested rights, which the source held, and no other slot of any
    process changed.  When it fails, no capability of any process changed, so the
    source is intact. *)
Theorem transfer_atomic (r : CapabilityRegistry) (sp : Z) (h : CapabilityHandle) (tp : Z)
    (req : Rights.t) (Hinv : inv r) :
  match transfer sp h tp req r with
  | (Ok m, r') =>
      ∃ src, lookup r sp h = Ok src ∧ bits_subset req (cm_rights src) ∧
        Rights.contains (cm_rights src) Rights.TRANSFER = true ∧
        lookup r' sp h = Err StaleHandle ∧ lookup r' tp (cm_handle m) = Ok m ∧
        cm_object m = cm_object src ∧ cm_object_type m = cm_object_type src ∧
        cm_rights m = req ∧
        ∀ q i, (q, i) ≠ (sp, handle_slot h) → (q, i) ≠ (tp, handle_slot (cm_handle m)) →
               slot_at r' q i = slot_at r q i
  | (Err _, r') => ∀ q h' m, lookup r' q h' = Ok m ↔ lookup r q h' = Ok m
  | (Abort, _) => False
  end.
Proof.
  destruct Hinv as [Hc Hr]. pose proof (transfer_spec r sp h tp req Hc) as Hspec. unfold wp in Hspec.
  destruct (transfer sp h tp req r) as [[m|e|] r']; [| |done].
  - destruct Hspec as ([Hc' Hr'] & src & r1 & i & g & Hlk & Hct & Hsub & Hc1 & Hi & Hcl).
    destruct Hcl as (r2 & e & Hsl & Hu & Hn & Ho & Hc2 & ->).
    pose proof (inst_meta _ _ _ _ _ _ _ Hi) as ->. exists src.
    assert (∀ q j, slot_at (collected r2) q j = slot_at r2 q j) as Hcol by done.
    pose proof Hlk as Hlk'.
    apply lookup_Ok in Hlk as (s & en & rec & Hs & Hg & He & Hrec & Hid & Hrv & Hty & ->); [|done].
    assert (handle_slot {| slot := Z.of_nat i; generation := g |} = i) as Hsi.
    { unfold handle_slot. cbn. lia. }
    assert ((tp, i) ≠ (sp, handle_slot h)) as Hne.
    { intros [= -> ->]. destruct (inst_free _ _ _ _ _ _ _ Hi) as [[? _]|?]; simplify_eq. }
    destruct (core_slot_ok r1 _ _ _ Hc1 Hsl) as (Hu32 & Hnz & _). cbn in Hu32, Hnz.
    assert (slot_at r2 tp i = Some {| hs_generation := g; hs_entry := Some (entry_of
       {| cm_handle := h; cm_object := ce_object en; cm_object_type := ce_object_type en;
          cm_rights := ce_rights en |} req) |}) as Hnew.
    { rewrite Hu, decide_False by naive_solver.
      by rewrite (inst_slots _ _ _ _ _ _ _ Hi), decide_True. }
    assert (objects r2 = objects r) as Hobj.
    { rewrite Ho. apply (inst_objects _ _ _ _ _ _ _ Hi). }
    split_and!; try done.
    + eapply lookup_stale; [rewrite Hcol, Hu, decide_True by done; done|]. cbn. intros Heq.
      pose proof (age_next (generation h) Hu32 (Hnz (mk_is_Some _ _ eq_refl))) as Ha.
      rewrite Heq in Ha. lia.
    + apply lookup_Ok; [done|]. cbn [cm_handle]. rewrite Hsi. eexists _, _, rec.
      split_and!; [rewrite Hcol; exact Hnew|done|done| |done..].
      apply elem_of_collected; [by apply core_tables|]. rewrite Hobj. split; [done|].
      eexists tp, i, _. split; [by eexists|done].
    + cbn [cm_handle]. rewrite Hsi. intros q j Hq1 Hq2.
      rewrite Hcol, Hu, decide_False by naive_solver.
      by rewrite (inst_slots _ _ _ _ _ _ _ Hi), decide_False by naive_solver.
  - destruct Hspec as (Hc' & _ & Ho & Hsl). intros q h' m.
    rewrite !lookup_Ok by done. setoid_rewrite Hsl. by rewrite Ho.
Qed.

(** C31. Revocation is immediate, global and permanent.  After [revoke] succeeds, no
    handle of any process grants access to the object, in that registry or after
    any further calls; the identity is never reissued for another object. *)
Theorem revocation_permanent (r r1 : CapabilityRegistry) (o : ObjectId) (cs : list call)
    (Hinv : inv r) (Hrevoke : revoke o r = (Ok (), r1)) :
  ∀ p h m, lookup (run cs r1) p h = Ok m → cm_object m ≠ o.
Proof.
  pose proof (revoke_progress r o Hinv) as Hp. unfold wp in Hp. rewrite Hrevoke in Hp.
  destruct Hp as (Hi1 & _).
  destruct (wp_ok _ _ _ _ _ _ (revoke_spec r o (proj1 Hinv)) Hrevoke) as (_ & -> & rec & Hrec & Hid).
  destruct (run_progress cs _ Hi1) as ([Hc' _] & Hev & _). intros p h m Hlk Heq.
  apply lookup_Ok in Hlk as (s & e & rec' & _ & _ & _ & Hrec' & Hid' & Hrv & _ & ->); [|done].
  cbn in Heq. pose proof (core_ids r (proj1 Hinv) rec Hrec) as Hlt.
  destruct (ev_objects _ _ Hev rec' Hrec') as [(c & Hin & Hcid & _ & Hkeep)|]; [|cbn in *; lia].
  cbn in Hin. apply list_elem_of_fmap in Hin as (c' & -> & Hin). unfold revoked_at in Hcid, Hkeep.
  destruct (co_object c' =? o) eqn:E; bool_simpl; cbn in *; [|congruence].
  by rewrite Hkeep in Hrv.
Qed.

(** Duplication attenuates.  A successful duplicate leaves every existing handle
    of every process as it was, requires the source to hold [DUPLICATE], and
    returns a handle in the same process that looks up to the same object with
    exactly the requested rights, all held by the source; a failed duplicate
    changes no capability. *)
Theorem duplicate_attenuates (r : CapabilityRegistry) (p : Z) (h : CapabilityHandle)
    (req : Rights.t) (Hinv : inv r) :
  match duplicate p h req r with
  | (Ok m, r') =>
      ∃ src, lookup r p h = Ok src ∧
        Rights.contains (cm_rights src) Rights.DUPLICATE = true ∧
        bits_subset req (cm_rights src) ∧ lookup r' p (cm_handle m) = Ok m ∧
        cm_object m = cm_object src ∧ cm_rights m = req ∧
        ∀ q h' m', lookup r q h' = Ok m' → lookup r' q h' = Ok m'
  | (Err _, r') => ∀ q h' m, lookup r' q h' = Ok m ↔ lookup r q h' = Ok m
  | (Abort, _) => False
  end.
Proof.
  destruct Hinv as [Hc Hr]. pose proof (duplicate_spec r p h req Hc) as Hspec. unfold wp in Hspec.
  destruct (duplicate p h req r) as [[m|e|] r']; [| |done].
  - destruct Hspec as (Hc' & src & i & g & Hlk & Hct & Hsub & Hi).
    pose proof (inst_meta _ _ _ _ _ _ _ Hi) as ->. exists src. split_and!; try done.
    + apply lookup_Ok in Hlk as (s & e & rec & Hs & Hg & He & Hrec & Hid & Hrv & Hty & ->); [|done].
      apply lookup_Ok; [done|]. cbn. replace (handle_slot _) with i by (unfold handle_slot; cbn; lia).
      rewrite (inst_slots _ _ _ _ _ _ _ Hi), decide_True by done. eexists _, _, rec.
      rewrite (inst_objects _ _ _ _ _ _ _ Hi). split_and!; done.
    + intros q h' m'. rewrite !lookup_Ok by done. rewrite (inst_objects _ _ _ _ _ _ _ Hi).
      intros (s & e & rec & Hs & Hg & He & ?). exists s, e, rec. split; [|done].
      eapply installed_elsewhere; [done..|]. by rewrite He.
  - destruct Hspec as (Hc' & _ & Ho & Hsl). intros q h' m.
    rewrite !lookup_Ok by done. setoid_rewrite Hsl. by rewrite Ho.
Qed.

Lemma land_65535 x : 0 ≤ x → Z.land x 65535 = x mod 2 ^ 16.
Proof. intros. change 65535 with (Z.ones 16). by rewrite Z.land_ones by lia. Qed.

Lemma lor_shiftl g s : 0 ≤ s < 2 ^ 16 → Z.lor (Z.shiftl g 16) s = g * 2 ^ 16 + s.
Proof.
  intros Hs. rewrite <- Z.shiftl_mul_pow2 by lia. symmetry. rewrite Z.add_nocarry_lxor, Z.lxor_lor; [done|..].
  all: apply Z.bits_inj'; intros i Hi; rewrite Z.land_spec, Z.bits_0, Z.shiftl_spec by lia.
  all: destruct (decide (i < 16)); [by rewrite Z.testbit_neg_r by lia|].
  all: rewrite <- (Z.mod_small s (2 ^ 16)), Z.mod_pow2_bits_high by lia; apply andb_false_r.
Qed.

(** A handle as the code can hold one: [slot: u16], [generation: u32] nonzero. *)
Definition handle_wf (h : CapabilityHandle) : Prop :=
  0 ≤ slot h ≤ u16_max ∧ is_u32 (generation h) ∧ generation h ≠ 0.

(** The raw encoding of a handle round-trips: decoding the encoding of any handle
    gives it back, and decoding any 64-bit word gives a well-formed handle whose
    encoding is that word without its top 16 bits, so distinct words below 2^48
    never decode to the same handle; words of generation zero are rejected. *)
Theorem handle_raw_roundtrip :
  (∀ h, handle_wf h → from_raw (raw h) = Some h) ∧
  (∀ w, is_u64 w → match from_raw w with
        | Some h => handle_wf h ∧ raw h = w mod 2 ^ 48
        | None => (w mod 2 ^ 48) / 2 ^ 16 = 0
        end).
Proof.
  split.
  - intros [s g] ([Hs1 Hs2] & [Hg1 Hg2] & Hg). cbn in *. unfold from_raw, raw, wrap. cbn [slot generation].
    unfold u16_max, u32_max in *.
    rewrite lor_shiftl, land_65535 by lia. rewrite Z.shiftr_div_pow2 by lia.
    replace ((g * 2 ^ 16 + s) mod 2 ^ 16) with s
      by (rewrite Z.add_comm, Z_mod_plus_full, Z.mod_small; lia).
    replace ((g * 2 ^ 16 + s) / 2 ^ 16) with g
      by (rewrite Z.div_add_l, (Z.div_small s) by lia; lia).
    rewrite !Z.mod_small by lia. by rewrite (proj2 (Z.eqb_neq _ _)).
  - intros w [Hw1 Hw2]. unfold from_raw, raw, wrap, handle_wf, is_u32, u16_max, u32_max, u64_max in *.
    rewrite land_65535, Zmod_mod, Z.shiftr_div_pow2 by lia.
    assert (w mod 2 ^ 48 = (w / 2 ^ 16) mod 2 ^ 32 * 2 ^ 16 + w mod 2 ^ 16) as Hsplit.
    { change (2 ^ 48) with (2 ^ 16 * 2 ^ 32). rewrite Z.rem_mul_r by lia. lia. }
    pose proof (Z.mod_pos_bound w (2 ^ 16)). pose proof (Z.mod_pos_bound (w / 2 ^ 16) (2 ^ 32)).
    destruct (_ =? 0) eqn:E; bool_simpl; cbn [slot generation].
    + rewrite Hsplit, E. rewrite Z.div_small; lia.
    + split_and!; try lia. rewrite lor_shiftl by lia. lia.
Qed.

(** C39. In-place reduction accepts the empty mask: for any handle that looks up,
    [reduce] to no rights at all succeeds, whatever rights it holds, and leaves a
    live handle that still looks up with empty rights.  Creation, duplication and
    transfer all reject an empty mask. *)
Theorem reduce_accepts_empty_rights (r : CapabilityRegistry) (p : Z) (h : CapabilityHandle)
    (src : CapabilityMetadata) (Hinv : inv r) (Hlookup : lookup r p h = Ok src) :
  (∃ m r', reduce p h Rights.NONE r = (Ok m, r') ∧ cm_rights m = Rights.NONE ∧
           lookup r' p h = Ok m) ∧
  (∀ t, (create_object p t Rights.NONE r).1 = Err InvalidRights) ∧
  (∀ m r', duplicate p h Rights.NONE r ≠ (Ok m, r')) ∧
  (∀ q m r', transfer p h q Rights.NONE r ≠ (Ok m, r')).
Proof.
  destruct Hinv as [Hc Hr].
  assert (∀ q o t m r0 r', install q o t Rights.NONE r0 ≠ (Ok m, r')) as Hinst by done.
  split_and!; [|done|..].
  - pose proof (reduce_spec r p h Rights.NONE Hc) as Hs. unfold wp in Hs.
    destruct (reduce p h Rights.NONE r) as [[m|e|] r'] eqn:E; [| |done].
    + destruct Hs as (Hc' & e & Hsl & _ & -> & Hu & Hn & Ho). eexists _, r'. split_and!; [done..|].
      apply lookup_Ok in Hlookup as (s & e' & rec & Hs & Hg & He & Hrec & Hid & Hrv & Hty & _); [|done].
      simplify_eq. cbn in He. injection He as ->.
      apply lookup_Ok; [done|]. eexists _, _, rec. rewrite Hu, decide_True, Ho by done.
      split_and!; done.
    + exfalso. apply lookup_Ok in Hlookup as (s & e' & rec & Hsl & Hg & He & _); [|done].
      unfold reduce, mbind, M_bind, reads, validate_handle, slot_ref in E. unfold slot_at in Hsl.
      destruct (process_index r p) as [pi|]; [|done]. cbn in Hsl, E.
      destruct (processes r !! pi) as [t|] eqn:Ht; [|done]. cbn in Hsl, E.
      rewrite Hsl in E. cbn in E. rewrite Hg, Z.eqb_refl in E. cbn in E.
      rewrite Ht in E. cbn in E. rewrite Hsl in E. cbn in E. rewrite He in E. cbn in E.
      unfold reduce_rights, Rights.reduce_to, Rights.contains in E. by rewrite Z.land_0_r in E.
  - intros m r' Hd. unfold duplicate, mbind, M_bind, reads, lift in Hd. rewrite Hlookup in Hd.
    cbn in Hd. destruct (negb _); [done|]. cbn in Hd.
    unfold reduce_rights, Rights.reduce_to, Rights.contains in Hd. rewrite Z.land_0_r in Hd.
    cbn in Hd. by apply Hinst in Hd.
  - intros q m r' Hd. unfold transfer, mbind, M_bind, reads, lift in Hd. rewrite Hlookup in Hd.
    cbn in Hd. destruct (negb _); [done|]. cbn in Hd.
    unfold reduce_rights, Rights.reduce_to, Rights.contains in Hd. by rewrite Z.land_0_r in Hd.
Qed.

(** Object records live exactly as long as their handles: in every reachable
    registry an object can be inspected if and only if some live handle names it,
    and then the reported handle count is positive. *)
Theorem object_lifetime (cs : list call) (o : ObjectId) :
  match object_snapshot (run cs new) o with
  | Ok snap => os_object snap = o ∧ (0 < os_handle_count snap)%nat ∧
               ∃ p i e, live (run cs new) p i e ∧ ce_object e = o
  | Err e => e = ObjectNotFound ∧ ¬ ∃ p i e, live (run cs new) p i e ∧ ce_object e = o
  | Abort => False
  end.
Proof.
  destruct (run_progress cs new registry_new_inv) as ([Hc Hr] & _). set (r := run cs new) in *.
  unfold object_snapshot. destruct (object r o) as [rec|e|] eqn:E; cbn.
  - apply object_Ok in E as [Hin <-]. destruct (Hr rec Hin) as (p & i & e & Hl & Hid).
    split_and!; [done| |by eauto].
    assert (any (slot_refers_to (co_object rec)) (all_slots r) = true) as Ha.
    { apply any_slots_true; [apply Hc|]. eauto. }
    apply any_true in Ha as (s & Hs & Href).
    destruct (filter _ _) eqn:F; cbn; [|lia].
    assert (s ∈ filter (λ s, slot_refers_to (co_object rec) s = true) (all_slots r)) as Hf
      by by apply list_elem_of_filter.
    rewrite F in Hf. set_solver.
  - unfold object, ok_or in E. destruct (List.find _ _) eqn:F; [done|]. injection E as <-.
    split; [done|]. intros (p & i & e & Hl & Hid).
    destruct (core_entry r Hc p i e Hl) as (rec & Hin & Hro & _).
    apply list_elem_of_In in Hin. pose proof (find_none _ _ F _ Hin) as Hn. cbn in Hn.
    bool_simpl. congruence.
  - unfold object, ok_or in E. by case_match.
Qed.

(** ** Concrete scenarios *)

Definition channel_rights : Rights.t :=
  Rights.union (Rights.union Rights.BASIC Rights.READ) Rights.WRITE.

(** Process 1 owns one channel. *)
Definition one_channel : CapabilityRegistry := run [CCreateObject 1 Channel channel_rights] new.
Definition first_handle : CapabilityHandle := {| slot := 0; generation := 1 |}.

Lemma one_channel_inv : inv one_channel.
Proof. apply run_progress, registry_new_inv. Qed.

Lemma rights_confined_witness :
  let r := one_channel in
  inv r ∧ 1 < next_object_id r ∧
  (∀ p i e, live r p i e → ce_object e = 1 → bits_subset (ce_rights e) channel_rights) ∧
  ∀ p i e, live (run [CTransfer 1 first_handle 2 Rights.BASIC] r) p i e →
    ce_object e = 1 → bits_subset (ce_rights e) channel_rights.
Proof.
  cbv zeta. assert (∀ p i e, live one_channel p i e → ce_object e = 1 →
    bits_subset (ce_rights e) channel_rights) as Hb.
  { intros p i e (s & Hs & He) _. apply slot_at_Some in Hs as (t & Ht & _ & Hi);
      [|apply one_channel_inv].
    assert (processes one_channel = [{| pc_process := 1; pc_slots := [{| hs_generation := 1;
      hs_entry := Some {| ce_object := 1; ce_object_type := Channel;
                          ce_rights := channel_rights |} |}] |}]) as Hp by reflexivity.
    rewrite Hp in Ht. apply list_elem_of_singleton in Ht as ->. cbn in Hi.
    destruct i as [|i]; [|by destruct i]. injection Hi as <-. cbn in He. by injection He as <-. }
  split_and!; [apply one_channel_inv|reflexivity|exact Hb|].
  exact (rights_confined one_channel [CTransfer 1 first_handle 2 Rights.BASIC] 1 channel_rights
    one_channel_inv eq_refl Hb).
Defined.

Lemma closed_handle_never_revives_witness :
  inv one_channel ∧ close 1 first_handle one_channel = (Ok (), run [CClose 1 first_handle] one_channel) ∧
  rejected (run [CCreateObject 1 Event Rights.BASIC] (run [CClose 1 first_handle] one_channel)) 1 first_handle.
Proof.
  split_and!; [apply one_channel_inv|vm_compute; reflexivity|].
  apply (closed_handle_never_revives one_channel).
  - apply one_channel_inv.
  - vm_compute; reflexivity.
  - by repeat constructor.
Defined.

Lemma transfer_atomic_witness :
  inv one_channel ∧
  ∃ m r', transfer 1 first_handle 2 Rights.BASIC one_channel = (Ok m, r') ∧
    lookup r' 1 first_handle = Err StaleHandle ∧ lookup r' 2 (cm_handle m) = Ok m.
Proof.
  split; [apply one_channel_inv|].
  pose proof (transfer_atomic one_channel 1 first_handle 2 Rights.BASIC one_channel_inv) as H.
  destruct (transfer 1 first_handle 2 Rights.BASIC one_channel) as [[m|e|] r'] eqn:E.
  - destruct H as (src & _ & _ & _ & H1 & H2 & _). exists m, r'. auto.
  - exfalso. vm_compute in E. congruence.
  - destruct H.
Defined.

Lemma revocation_permanent_witness :
  inv one_channel ∧ revoke 1 one_channel = (Ok (), run [CRevoke 1] one_channel) ∧
  ∀ p h m, lookup (run [CEnsureProcess 2] (run [CRevoke 1] one_channel)) p h = Ok m →
           cm_object m ≠ 1.
Proof.
  split_and!; [apply one_channel_inv|vm_compute; reflexivity|].
  apply (revocation_permanent one_channel); [apply one_channel_inv|vm_compute; reflexivity].
Defined.

Lemma duplicate_attenuates_witness :
  inv one_channel ∧
  ∃ m r', duplicate 1 first_handle Rights.READ one_channel = (Ok m, r') ∧
    lookup r' 1 (cm_handle m) = Ok m ∧ cm_rights m = Rights.READ.
Proof.
  split; [apply one_channel_inv|].
  pose proof (duplicate_attenuates one_channel 1 first_handle Rights.READ one_channel_inv) as H.
  destruct (duplicate 1 first_handle Rights.READ one_channel) as [[m|e|] r'] eqn:E.
  - destruct H as (src & _ & _ & _ & H1 & _ & H2 & _). exists m, r'. auto.
  - exfalso. vm_compute in E. congruence.
  - destruct H.
Defined.

Lemma reduce_accepts_empty_rights_witness :
  inv one_channel ∧ is_Some (match lookup one_channel 1 first_handle with
                             | Ok m => Some m | _ => None end) ∧
  ∃ m r', reduce 1 first_handle Rights.NONE one_channel = (Ok m, r') ∧
          cm_rights m = Rights.NONE ∧ lookup r' 1 first_handle = Ok m.
Proof.
  split_and!; [apply one_channel_inv|vm_compute; eauto|].
  eapply (reduce_accepts_empty_rights one_channel); [apply one_channel_inv|vm_compute; reflexivity].
Defined.

(** The generation history is kept per process table: removing a process and
    registering the same identifier again restarts it; staleness of closed handles
    is a guarantee for the lifetime of the table. *)
Example removed_process_restarts_generations :
  let r := run [CClose 1 first_handle; CRemoveProcess 1; CCreateObject 1 Event Rights.BASIC]
             one_channel in
  ∃ m, lookup r 1 first_handle = Ok m ∧ cm_object_type m = Event.
Proof. vm_compute. eauto. Qed.
