(* ===== verification/Job.v ===== *)
(** * Job: bounded membership, child hierarchy and exit observation of one job

    Models [kernel/src/job.rs]: [State] with every mutating operation.  Live
    members and unconsumed exit records share one capacity, so accepting a member
    reserves room for its exit record; the theorems of [JobProps] show that this
    makes exit observation lossless and first-in first-out. *)

From stdpp Require Import base list numbers option sets.
From Stdlib Require Import ZArith Lia.
From S2P Require Import Prelude.

Record ExitRecord := { process_id : Z; status : Z }.

Inductive AssignError := InvalidProcess | AlreadyMember | AssignFull | AssignRetired.
Inductive ChildError := InvalidJob | AlreadyChild | ChildFull | ChildRetired.
Inductive LimitError := OutOfRange | Relaxation | LimitRetired.
Inductive RetireError := Root | NotEmpty | RetireRetired.
Inductive UnknownMember_t := UnknownMember.

Record State := {
  member_capacity : nat;
  process_limit : nat;
  child_capacity : nat;
  parent : option Z;
  retired : bool;
  members : list Z;
  completions : list ExitRecord;
  children : list Z;
}.

Definition set_members (l : list Z) (s : State) : State :=
  {| member_capacity := member_capacity s; process_limit := process_limit s;
     child_capacity := child_capacity s; parent := parent s; retired := retired s;
     members := l; completions := completions s; children := children s |}.
Definition set_completions (l : list ExitRecord) (s : State) : State :=
  {| member_capacity := member_capacity s; process_limit := process_limit s;
     child_capacity := child_capacity s; parent := parent s; retired := retired s;
     members := members s; completions := l; children := children s |}.
Definition set_children (l : list Z) (s : State) : State :=
  {| member_capacity := member_capacity s; process_limit := process_limit s;
     child_capacity := child_capacity s; parent := parent s; retired := retired s;
     members := members s; completions := completions s; children := l |}.
Definition set_parent_retired (p : option Z) (r : bool) (s : State) : State :=
  {| member_capacity := member_capacity s; process_limit := process_limit s;
     child_capacity := child_capacity s; parent := p; retired := r;
     members := members s; completions := completions s; children := children s |}.
Definition set_limit (n : nat) (s : State) : State :=
  {| member_capacity := member_capacity s; process_limit := n;
     child_capacity := child_capacity s; parent := parent s; retired := retired s;
     members := members s; completions := completions s; children := children s |}.

Definition new (member_capacity child_capacity : nat) : State :=
  {| member_capacity := member_capacity; process_limit := member_capacity;
     child_capacity := child_capacity; parent := None; retired := false;
     members := []; completions := []; children := [] |}.

Definition set_parent (job_id : Z) : M State ChildError unit :=
  s ← get;
  _ ← lift (err_if (job_id =? 0) InvalidJob);
  _ ← lift (err_if (bool_decide (is_Some (parent s))) AlreadyChild);
  put (set_parent_retired (Some job_id) (retired s) s).

Definition retirement_parent (s : State) : outcome RetireError Z :=
  _ ← err_if (retired s) RetireRetired;
  p ← ok_or (parent s) Root;
  _ ← err_if (negb (bool_decide (members s = [])) || negb (bool_decide (length (completions s) = 0%nat))
              || negb (bool_decide (children s = []))) NotEmpty;
  mret p.

Definition retire : M State RetireError Z :=
  p ← reads retirement_parent;
  _ ← modify (set_parent_retired None true);
  mret p.

Definition set_process_limit (limit : nat) : M State LimitError unit :=
  s ← get;
  _ ← lift (err_if (retired s) LimitRetired);
  _ ← lift (err_if (bool_decide (member_capacity s < limit)%nat) OutOfRange);
  _ ← lift (err_if (bool_decide (process_limit s < limit)%nat) Relaxation);
  put (set_limit limit s).

Definition attach_child (job_id : Z) : M State ChildError unit :=
  s ← get;
  _ ← lift (err_if (retired s) ChildRetired);
  _ ← lift (err_if (job_id =? 0) InvalidJob);
  _ ← lift (err_if (bool_decide (job_id ∈ children s)) AlreadyChild);
  _ ← lift (err_if (bool_decide (child_capacity s ≤ length (children s))%nat) ChildFull);
  put (set_children (push (children s) job_id) s).

Definition remove_child (job_id : Z) : M State UnknownMember_t unit :=
  index ← reads (λ s, ok_or (position (λ c, c =? job_id) (children s)) UnknownMember);
  modify (λ s, set_children (delete index (children s)) s).

Definition assign (pid : Z) : M State AssignError unit :=
  s ← get;
  _ ← lift (err_if (retired s) AssignRetired);
  _ ← lift (err_if (pid =? 0) InvalidProcess);
  _ ← lift (err_if (bool_decide (pid ∈ members s)) AlreadyMember);
  _ ← lift (err_if (bool_decide (member_capacity s ≤
                       length (members s) + length (completions s))%nat) AssignFull);
  put (set_members (push (members s) pid) s).

Definition remove_unstarted (pid : Z) : M State UnknownMember_t unit :=
  index ← reads (λ s, ok_or (position (λ m, m =? pid) (members s)) UnknownMember);
  modify (λ s, set_members (delete index (members s)) s).

(** The [debug_assert!] of the source is an [Abort] when it does not hold. *)
Definition complete (record : ExitRecord) : M State UnknownMember_t unit :=
  index ← reads (λ s, ok_or (position (λ m, m =? process_id record) (members s)) UnknownMember);
  _ ← modify (λ s, set_members (delete index (members s)) s);
  s ← get;
  _ ← lift (if bool_decide (length (members s) + length (completions s) < member_capacity s)%nat
            then Ok () else Abort);
  put (set_completions (push (completions s) record) s).

(** [VecDeque::pop_front] *)
Definition take_completion (s : State) : option ExitRecord * State :=
  match completions s with
  | [] => (None, s)
  | r :: rest => (Some r, set_completions rest s)
  end.

Definition active_members (s : State) : nat := length (members s).
Definition pending_completions (s : State) : nat := length (completions s).

(** ** Invariant *)

Record inv (s : State) : Prop := {
  inv_room : (length (members s) + length (completions s) ≤ member_capacity s)%nat;
  inv_members : NoDup (members s);
  inv_nonzero : 0 ∉ members s;
  inv_limit : (process_limit s ≤ member_capacity s)%nat;
  inv_children : NoDup (children s);
  inv_child_room : (length (children s) ≤ child_capacity s)%nat;
  inv_retired : retired s = true → members s = [] ∧ completions s = [] ∧ children s = [];
}.

Lemma job_new_inv m c : inv (new m c).
Proof. constructor; cbn; try apply NoDup_nil_2; try lia; try done. set_solver. Qed.

(** Removing the first occurrence of an element of a duplicate-free list. *)
Lemma delete_position (x : Z) (l : list Z) i : NoDup l →
  position (λ y, y =? x) l = Some i →
  l ≡ₚ x :: delete i l ∧ x ∉ delete i l ∧ NoDup (delete i l) ∧
  S (length (delete i l)) = length l.
Proof.
  intros Hnd (y & Hy & Hx & _)%position_Some. bool_simpl. subst y.
  pose proof (delete_Permutation l i x Hy) as Hp. rewrite Hp in Hnd.
  apply NoDup_cons in Hnd as [Hni Hnd]. split_and!; [done..|]. by rewrite Hp at 2.
Qed.

Lemma elem_of_position (x : Z) (l : list Z) : x ∈ l → is_Some (position (λ y, y =? x) l).
Proof. intros H. apply (position_is_Some _ _ x); [done|apply Z.eqb_refl]. Qed.

Section specs.
Implicit Types s : State.

Lemma set_parent_spec s job : inv s →
  wp (set_parent job)
    (λ _ s', inv s' ∧ parent s = None ∧ s' = set_parent_retired (Some job) (retired s) s)
    (λ _ s', s' = s) s.
Proof.
  intros []. unfold set_parent. wp_steps; [done..|]. bool_simpl.
  split_and!; [by constructor| |done]. destruct (parent s); [|done]. by destruct H0.
Qed.

Lemma retire_spec s : inv s →
  wp retire
    (λ p s', inv s' ∧ retired s = false ∧ parent s = Some p ∧ members s = [] ∧
             completions s = [] ∧ children s = [] ∧ s' = set_parent_retired None true s)
    (λ _ s', s' = s) s.
Proof.
  intros []. unfold retire, retirement_parent. wp_steps; [done..| |done]. bool_simpl.
  assert (completions s = []) by by apply nil_length_inv. split_and!; try done.
Qed.

Lemma set_process_limit_spec s n : inv s →
  wp (set_process_limit n)
    (λ _ s', inv s' ∧ retired s = false ∧ (n ≤ process_limit s)%nat ∧ s' = set_limit n s)
    (λ _ s', s' = s) s.
Proof.
  intros []. unfold set_process_limit. wp_steps; [done..|]. bool_simpl.
  split_and!; [|done|lia|done]. constructor; cbn; try done; lia.
Qed.

Lemma attach_child_spec s j : inv s →
  wp (attach_child j)
    (λ _ s', inv s' ∧ retired s = false ∧ s' = set_children (push (children s) j) s)
    (λ _ s', s' = s) s.
Proof.
  intros []. unfold attach_child. wp_steps; [done..|]. bool_simpl.
  split_and!; [|done..]. constructor; cbn; try done; unfold push.
  - apply NoDup_app. split_and!; [done| |apply NoDup_singleton].
    intros x Hx ->%list_elem_of_singleton. done.
  - rewrite length_app. cbn. lia.
  - congruence.
Qed.

Lemma remove_child_spec s j : inv s →
  wp (remove_child j)
    (λ _ s', inv s' ∧ ∃ l, children s ≡ₚ j :: l ∧ s' = set_children l s)
    (λ _ s', s' = s ∧ j ∉ children s) s.
Proof.
  intros []. unfold remove_child. wp_steps.
  - destruct (delete_position j (children s) a) as (Hp & _ & Hnd & Hlen); [done..|].
    split; [|by eauto]. constructor; cbn; try done; [lia|]. intros Hr.
    destruct (inv_retired0 Hr) as (? & ? & Hch). rewrite Hch in Hp.
    by apply Permutation_nil_cons in Hp.
  - split; [done|]. intros [? ?]%elem_of_position. congruence.
Qed.

Lemma assign_spec s pid : inv s →
  wp (assign pid)
    (λ _ s', inv s' ∧ retired s = false ∧ pid ≠ 0 ∧ pid ∉ members s ∧
             s' = set_members (push (members s) pid) s)
    (λ _ s', s' = s) s.
Proof.
  intros []. unfold assign. wp_steps; [done..|]. bool_simpl.
  split_and!; try done. constructor; cbn; try done; unfold push.
  - rewrite length_app. cbn. lia.
  - apply NoDup_app. split_and!; [done| |apply NoDup_singleton].
    intros x Hx ->%list_elem_of_singleton. done.
  - rewrite elem_of_app, list_elem_of_singleton. intros [?|?]; congruence.
  - congruence.
Qed.

Lemma member_gone_inv s pid l : inv s → members s ≡ₚ pid :: l → inv (set_members l s).
Proof.
  intros [] Hp. pose proof (Permutation_length Hp) as Hlen. cbn in Hlen.
  constructor; cbn; try done.
  - lia.
  - rewrite Hp in inv_members0. by apply NoDup_cons in inv_members0 as [_ ?].
  - intros H0. apply inv_nonzero0. rewrite Hp. by right.
  - intros Hr. destruct (inv_retired0 Hr) as (Hm & ? & ?). rewrite Hm in Hp.
    by apply Permutation_nil_cons in Hp.
Qed.

Lemma remove_unstarted_spec s pid : inv s →
  wp (remove_unstarted pid)
    (λ _ s', inv s' ∧ ∃ l, members s ≡ₚ pid :: l ∧ s' = set_members l s)
    (λ _ s', s' = s ∧ pid ∉ members s) s.
Proof.
  intros Hi. unfold remove_unstarted. wp_steps.
  - destruct (delete_position pid (members s) a) as (Hp & _); [by destruct Hi|done|].
    split; [by eapply member_gone_inv|]. eauto.
  - split; [done|]. intros [? ?]%elem_of_position. congruence.
Qed.

Lemma complete_spec s r : inv s →
  wp (complete r)
    (λ _ s', inv s' ∧ ∃ l, members s ≡ₚ process_id r :: l ∧
             s' = set_completions (push (completions s) r) (set_members l s))
    (λ _ s', s' = s ∧ process_id r ∉ members s) s.
Proof.
  intros Hi. unfold complete. wp_steps.
  - destruct (delete_position (process_id r) (members s) a) as (Hp & _ & _ & Hlen);
      [by destruct Hi|done|].
    pose proof (member_gone_inv _ _ _ Hi Hp) as Hi'. pose proof (inv_room s Hi).
    rewrite bool_decide_eq_true_2 by (cbn; lia). wp_steps. split; [|by eauto].
    destruct Hi'. constructor; cbn in *; try done; unfold push.
    + rewrite length_app. cbn. lia.
    + intros Hr. destruct (inv_retired s Hi Hr) as (Hm & _). rewrite Hm in Hp.
      by apply Permutation_nil_cons in Hp.
  - split; [done|]. intros [? ?]%elem_of_position. congruence.
Qed.

Lemma take_completion_spec s : inv s →
  let '(r, s') := take_completion s in
  inv s' ∧ match r with
           | Some rec => completions s = rec :: completions s' ∧
                         s' = set_completions (completions s') s
           | None => completions s = [] ∧ s' = s
           end.
Proof.
  intros Hi. unfold take_completion. destruct (completions s) as [|r rest] eqn:E; [done|].
  split; [|done]. destruct Hi. rewrite E in *. constructor; cbn in *; try done; [lia|].
  intros Hr. by destruct (inv_retired0 Hr) as (_ & ? & _).
Qed.
End specs.
