(* ===== verification/JobProps.v ===== *)
(** * JobProps: lossless exit observation and one-way job policy

    Sequences of job operations with the observable events they produce. *)

From stdpp Require Import base list numbers option sets.
From Stdlib Require Import ZArith Lia.
From S2P Require Import Prelude Job.

Inductive op :=
| OSetParent (job : Z) | ORetire | OSetProcessLimit (n : nat)
| OAttachChild (job : Z) | ORemoveChild (job : Z)
| OAssign (pid : Z) | ORemoveUnstarted (pid : Z) | OComplete (r : ExitRecord) | OTake.

(** What a successful operation makes observable. *)
Inductive event :=
| Accepted (pid : Z) | RolledBack (pid : Z) | Exited (r : ExitRecord) | Drained (r : ExitRecord).

(** One operation; its error is forgotten, its event kept. *)
Definition quiet {E A} (ev : A → list event) (m : M State E A) : M State unit (list event) :=
  λ s, let '(o, s') := m s in (map_err (λ _, ()) (a ← o; Ok (ev a)), s').

Definition exec (o : op) : M State unit (list event) :=
  match o with
  | OSetParent j => quiet (λ _, []) (set_parent j)
  | ORetire => quiet (λ _, []) retire
  | OSetProcessLimit n => quiet (λ _, []) (set_process_limit n)
  | OAttachChild j => quiet (λ _, []) (attach_child j)
  | ORemoveChild j => quiet (λ _, []) (remove_child j)
  | OAssign pid => quiet (λ _, [Accepted pid]) (assign pid)
  | ORemoveUnstarted pid => quiet (λ _, [RolledBack pid]) (remove_unstarted pid)
  | OComplete r => quiet (λ _, [Exited r]) (complete r)
  | OTake => λ s, let '(r, s') := take_completion s in
                  (Ok (match r with Some r => [Drained r] | None => [] end), s')
  end.

Definition events (o : outcome unit (list event)) : list event :=
  match o with Ok evs => evs | _ => [] end.

Fixpoint run (os : list op) (s : State) : list event * State :=
  match os with
  | [] => ([], s)
  | o :: os =>
      let '(r, s1) := exec o s in
      let '(evs, s2) := run os s1 in (events r ++ evs, s2)
  end.

Definition accepted (evs : list event) : list Z :=
  omap (λ e, match e with Accepted p => Some p | _ => None end) evs.
Definition rolled_back (evs : list event) : list Z :=
  omap (λ e, match e with RolledBack p => Some p | _ => None end) evs.
Definition exited (evs : list event) : list ExitRecord :=
  omap (λ e, match e with Exited r => Some r | _ => None end) evs.
Definition drained (evs : list event) : list ExitRecord :=
  omap (λ e, match e with Drained r => Some r | _ => None end) evs.

(** The balance of one stretch of history between two states. *)
Record balanced (s : State) (evs : list event) (s' : State) : Prop := {
  bal_inv : inv s';
  bal_fifo : completions s ++ exited evs = drained evs ++ completions s';
  bal_members : members s ++ accepted evs ≡ₚ
    rolled_back evs ++ (process_id <$> exited evs) ++ members s';
  bal_limit : (process_limit s' ≤ process_limit s)%nat;
  bal_capacity : member_capacity s' = member_capacity s;
  bal_retired : retired s = true → retired s' = true ∧ accepted evs = [] ∧ exited evs = [];
}.

Lemma balanced_refl s : inv s → balanced s [] s.
Proof. intros. constructor; cbn; rewrite ?app_nil_r; done. Qed.

Lemma balanced_trans s1 e1 s2 e2 s3 :
  balanced s1 e1 s2 → balanced s2 e2 s3 → balanced s1 (e1 ++ e2) s3.
Proof.
  intros [I1 F1 M1 L1 C1 R1] [I2 F2 M2 L2 C2 R2].
  constructor; unfold accepted, rolled_back, exited, drained in *; rewrite ?omap_app; [done|..].
  - rewrite app_assoc, F1, <- app_assoc, F2. by rewrite app_assoc.
  - rewrite fmap_app, app_assoc, M1, <- !app_assoc, M2. solve_Permutation.
  - lia.
  - congruence.
  - intros Hr. destruct (R1 Hr) as (Hr2 & -> & ->), (R2 Hr2) as (? & -> & ->). done.
Qed.

Lemma wp_quiet {E A} (ev : A → list event) (m : M State E A) Q R s :
  wp m (λ a s', Q (ev a) s') (λ _ s', R s') s → wp (quiet ev m) Q (λ _, R) s.
Proof. unfold wp, quiet. by destruct (m s) as [[]]. Qed.

(** Every operation is balanced, and none panics. *)
Lemma exec_balanced o s : inv s →
  wp (exec o) (λ evs s', balanced s evs s') (λ _ s', balanced s [] s') s.
Proof.
  intros Hi. destruct o; cbn [exec]; try apply wp_quiet.
  - eapply wp_mono; [by apply set_parent_spec|..].
    + intros _ s' (Hi' & _ & ->). constructor; cbn; rewrite ?app_nil_r; done.
    + intros _ s' ->. by apply balanced_refl.
  - eapply wp_mono; [by apply retire_spec|..].
    + intros p s' (Hi' & _ & _ & _ & _ & _ & ->). constructor; cbn; rewrite ?app_nil_r; done.
    + intros _ s' ->. by apply balanced_refl.
  - eapply wp_mono; [by apply set_process_limit_spec|..].
    + intros _ s' (Hi' & _ & Hle & ->). constructor; cbn; rewrite ?app_nil_r; done.
    + intros _ s' ->. by apply balanced_refl.
  - eapply wp_mono; [by apply attach_child_spec|..].
    + intros _ s' (Hi' & _ & ->). constructor; cbn; rewrite ?app_nil_r; done.
    + intros _ s' ->. by apply balanced_refl.
  - eapply wp_mono; [by apply remove_child_spec|..].
    + intros _ s' (Hi' & l & _ & ->). constructor; cbn; rewrite ?app_nil_r; done.
    + intros _ s' [-> _]. by apply balanced_refl.
  - eapply wp_mono; [by apply assign_spec|..].
    + intros _ s' (Hi' & Hr & _ & _ & ->). constructor; cbn; rewrite ?app_nil_r; try done.
      congruence.
    + intros _ s' ->. by apply balanced_refl.
  - eapply wp_mono; [by apply remove_unstarted_spec|..].
    + intros _ s' (Hi' & l & Hp & ->). constructor; cbn; rewrite ?app_nil_r; done.
    + intros _ s' [-> _]. by apply balanced_refl.
  - eapply wp_mono; [by apply complete_spec|..].
    + intros _ s' (Hi' & l & Hp & ->). constructor; cbn; rewrite ?app_nil_r; try done.
      intros Hr. destruct (inv_retired s Hi Hr) as (Hm & _). rewrite Hm in Hp.
      by apply Permutation_nil_cons in Hp.
    + intros _ s' [-> _]. by apply balanced_refl.
  - pose proof (take_completion_spec s Hi) as Ht. unfold wp.
    destruct (take_completion s) as [[rec|] s']; cbn.
    + destruct Ht as (Hi' & Hc & Heq). constructor; cbn; rewrite ?app_nil_r; try done.
      all: rewrite Heq; done.
    + destruct Ht as (_ & _ & ->). by apply balanced_refl.
Qed.

Lemma run_balanced os s : inv s → let '(evs, s') := run os s in balanced s evs s'.
Proof.
  revert s. induction os as [|o os IH]; intros s Hi; cbn; [by apply balanced_refl|].
  pose proof (exec_balanced o s Hi) as Ho. unfold wp in Ho.
  destruct (exec o s) as [r s1]. assert (balanced s (events r) s1) as Hb by by destruct r.
  specialize (IH s1 (bal_inv _ _ _ Hb)). destruct (run os s1) as [evs s2].
  by eapply balanced_trans.
Qed.

(** C38. Exit observation is lossless and first-in first-out.  For any sequence of
    operations on a fresh job: the exit records delivered to waiters followed by
    those still queued are exactly the accepted exits, in order; every process
    ever accepted is accounted for exactly once, as rolled back, exited or still a
    member; members and undelivered records together never exceed the capacity;
    and no operation can panic (in particular the capacity assertion in
    [complete] always holds). *)
Theorem exits_lossless_fifo (os : list op) (member_cap child_cap : nat) :
  let '(evs, s) := run os (new member_cap child_cap) in
  exited evs = drained evs ++ completions s ∧
  accepted evs ≡ₚ rolled_back evs ++ (process_id <$> exited evs) ++ members s ∧
  (active_members s + pending_completions s ≤ member_cap)%nat ∧
  ∀ o, (exec o s).1 ≠ Abort.
Proof.
  pose proof (run_balanced os _ (job_new_inv member_cap child_cap)) as Hb.
  destruct (run os (new member_cap child_cap)) as [evs s]. destruct Hb as [Hi Hf Hm Hl Hc Hr].
  cbn in *. split_and!; [done..| |].
  - pose proof (inv_room s Hi). unfold active_members, pending_completions. lia.
  - intros o. by eapply wp_no_abort, exec_balanced.
Qed.

(** Job policy is one-way.  Along any sequence of operations the process limit
    never grows, and once a job is retired it stays retired and inert: it has no
    members, no pending exit records and no children, and no process is ever
    accepted or exits through it again. *)
Theorem retirement_and_limits_one_way (os : list op) (s : State) (Hinv : inv s) :
  let '(evs, s') := run os s in
  (process_limit s' ≤ process_limit s)%nat ∧
  (retired s = true → retired s' = true ∧ members s' = [] ∧ completions s' = [] ∧
                      children s' = [] ∧ accepted evs = [] ∧ exited evs = []).
Proof.
  pose proof (run_balanced os s Hinv) as Hb. destruct (run os s) as [evs s'].
  destruct Hb as [Hi Hf Hm Hl Hc Hr]. split; [done|]. intros Hret.
  destruct (Hr Hret) as (Hr' & Ha & He). destruct (inv_retired s' Hi Hr') as (? & ? & ?). done.
Qed.

Lemma retirement_and_limits_one_way_witness :
  let s := (run [OSetParent 7; OSetProcessLimit 2; ORetire] (new 4 2)).2 in
  inv s ∧ retired s = true ∧
  (let '(evs, s') := run [OAssign 5; OComplete {| process_id := 5; status := 0 |}] s in
   accepted evs = [] ∧ retired s' = true).
Proof.
  set (s := (run [OSetParent 7; OSetProcessLimit 2; ORetire] (new 4 2)).2).
  assert (inv s) as Hi.
  { pose proof (run_balanced [OSetParent 7; OSetProcessLimit 2; ORetire] _ (job_new_inv 4 2)) as Hb.
    unfold s. destruct (run _ (new 4 2)) as [evs s0]. apply Hb. }
  assert (retired s = true) as Hr by (vm_compute; reflexivity). split_and!; [exact Hi|exact Hr|].
  pose proof (retirement_and_limits_one_way
    [OAssign 5; OComplete {| process_id := 5; status := 0 |}] s Hi) as H.
  destruct (run _ s) as [evs s']. destruct H as [_ H]. destruct (H Hr) as (? & _ & _ & _ & ? & _).
  auto.
Defined.

(** Retirement is granted exactly to empty, non-root, unretired jobs: [retire]
    returns [p] if and only if the job is not retired, its parent is [p], and it
    has no member, no pending exit record and no child; the job is then detached
    and retired, and any refusal leaves the job unchanged. *)
Theorem retire_exact (s : State) :
  (∀ p s', retire s = (Ok p, s') ↔
     retired s = false ∧ parent s = Some p ∧ members s = [] ∧ completions s = [] ∧
     children s = [] ∧ s' = set_parent_retired None true s) ∧
  (∀ e s', retire s = (Err e, s') → s' = s) ∧
  (retire s).1 ≠ Abort.
Proof.
  assert (wpo (retirement_parent s) (λ _, True) (λ _, True)) as Hrp.
  { unfold retirement_parent. by wp_steps. }
  unfold retire, mbind, M_bind, reads, modify. split_and!.
  - unfold retirement_parent. intros p s'. split.
    + destruct (retired s); [done|]. cbn. destruct (parent s) as [q|]; [|done]. cbn.
      destruct (members s); [|done]. cbn. destruct (completions s); [|done]. cbn.
      destruct (children s); [|done]. cbn. intros [= -> <-]. done.
    + intros (-> & -> & -> & -> & -> & ->). done.
  - intros e s'. destruct (retirement_parent s); naive_solver.
  - by destruct (retirement_parent s).
Qed.
