(* ===== verification/Containment.v ===== *)
(** * Containment: job hierarchy with ancestor-inclusive resource accounting

    Models [kernel/src/containment.rs]: resource vectors and limits, the job tree,
    and every operation of [ContainmentTree].  The two [while] loops that follow
    parent links and the worklist loop of [collect_subtree] run with fuel
    [S (length jobs)]; parents have smaller identifiers than their children and
    every job is visited at most once, so the fuel is never exhausted in a
    reachable tree (proved with the operations' specifications). *)

From stdpp Require Import base list numbers option sets.
From Stdlib Require Import ZArith Lia.
From S2P Require Import Prelude.

Definition MAX_CONTAINMENT_JOBS : nat := 64.
Definition MAX_CHILDREN_PER_JOB : nat := 16.
Definition MAX_PROCESSES_PER_JOB : nat := 128.

Abbreviation JobId := Z (only parsing).
Abbreviation ProcessId := Z (only parsing).

Definition job_id_from_raw (raw : Z) : option JobId := if raw =? 0 then None else Some raw.

(** ** Resource vectors *)

Record ResourceUsage := {
  u_processes : Z; u_threads : Z; u_memory_bytes : Z; u_cpu_ticks : Z; u_handles : Z;
}.

Definition ZERO : ResourceUsage :=
  {| u_processes := 0; u_threads := 0; u_memory_bytes := 0; u_cpu_ticks := 0; u_handles := 0 |}.

Definition usage_process (threads memory_bytes handles : Z) : ResourceUsage :=
  {| u_processes := 1; u_threads := threads; u_memory_bytes := memory_bytes;
     u_cpu_ticks := 0; u_handles := handles |}.

Definition usage_checked_add (a b : ResourceUsage) : option ResourceUsage :=
  p ← checked_add u64_max (u_processes a) (u_processes b);
  t ← checked_add u64_max (u_threads a) (u_threads b);
  m ← checked_add u64_max (u_memory_bytes a) (u_memory_bytes b);
  c ← checked_add u64_max (u_cpu_ticks a) (u_cpu_ticks b);
  h ← checked_add u64_max (u_handles a) (u_handles b);
  Some {| u_processes := p; u_threads := t; u_memory_bytes := m; u_cpu_ticks := c;
          u_handles := h |}.

Definition usage_checked_sub (a b : ResourceUsage) : option ResourceUsage :=
  p ← checked_sub (u_processes a) (u_processes b);
  t ← checked_sub (u_threads a) (u_threads b);
  m ← checked_sub (u_memory_bytes a) (u_memory_bytes b);
  c ← checked_sub (u_cpu_ticks a) (u_cpu_ticks b);
  h ← checked_sub (u_handles a) (u_handles b);
  Some {| u_processes := p; u_threads := t; u_memory_bytes := m; u_cpu_ticks := c;
          u_handles := h |}.

Record ResourceLimits := {
  l_processes : Z; l_threads : Z; l_memory_bytes : Z; l_cpu_ticks : Z; l_handles : Z;
}.

Definition UNLIMITED : ResourceLimits :=
  {| l_processes := u64_max; l_threads := u64_max; l_memory_bytes := u64_max;
     l_cpu_ticks := u64_max; l_handles := u64_max |}.

Definition allows (l : ResourceLimits) (u : ResourceUsage) : bool :=
  (u_processes u <=? l_processes l) && (u_threads u <=? l_threads l) &&
  (u_memory_bytes u <=? l_memory_bytes l) && (u_cpu_ticks u <=? l_cpu_ticks l) &&
  (u_handles u <=? l_handles l).

Definition no_relaxation (l replacement : ResourceLimits) : bool :=
  (l_processes replacement <=? l_processes l) && (l_threads replacement <=? l_threads l) &&
  (l_memory_bytes replacement <=? l_memory_bytes l) &&
  (l_cpu_ticks replacement <=? l_cpu_ticks l) && (l_handles replacement <=? l_handles l).

(** ** The tree *)

Inductive ContainmentError :=
| JobLimit | ChildLimit | ProcessLimit | InvalidJob | InvalidProcess | DuplicateProcess
| Retired | Root | LimitExceeded | LimitRelaxation | UsageOverflow | UsageUnderflow
| ProcessNotFound | SubtreeNotEmpty.

Record ProcessReservation := { rv_process : ProcessId; rv_usage : ResourceUsage }.

Record JobNode := {
  jn_id : JobId;
  jn_parent : option JobId;
  jn_limits : ResourceLimits;
  jn_usage : ResourceUsage;
  jn_children : list JobId;
  jn_processes : list ProcessReservation;
  jn_retired : bool;
}.

Record ContainmentTree := { next_job_id : Z; jobs : list JobNode }.

Definition set_jn_limits (l : ResourceLimits) (n : JobNode) : JobNode :=
  {| jn_id := jn_id n; jn_parent := jn_parent n; jn_limits := l; jn_usage := jn_usage n;
     jn_children := jn_children n; jn_processes := jn_processes n; jn_retired := jn_retired n |}.
Definition set_jn_usage (u : ResourceUsage) (n : JobNode) : JobNode :=
  {| jn_id := jn_id n; jn_parent := jn_parent n; jn_limits := jn_limits n; jn_usage := u;
     jn_children := jn_children n; jn_processes := jn_processes n; jn_retired := jn_retired n |}.
Definition set_jn_children (l : list JobId) (n : JobNode) : JobNode :=
  {| jn_id := jn_id n; jn_parent := jn_parent n; jn_limits := jn_limits n;
     jn_usage := jn_usage n; jn_children := l; jn_processes := jn_processes n;
     jn_retired := jn_retired n |}.
Definition set_jn_processes (l : list ProcessReservation) (n : JobNode) : JobNode :=
  {| jn_id := jn_id n; jn_parent := jn_parent n; jn_limits := jn_limits n;
     jn_usage := jn_usage n; jn_children := jn_children n; jn_processes := l;
     jn_retired := jn_retired n |}.
(** [children.clear(); parent = None; retired = true] *)
Definition retire_node (n : JobNode) : JobNode :=
  {| jn_id := jn_id n; jn_parent := None; jn_limits := jn_limits n; jn_usage := jn_usage n;
     jn_children := []; jn_processes := jn_processes n; jn_retired := true |}.

Definition set_jobs (l : list JobNode) (t : ContainmentTree) : ContainmentTree :=
  {| next_job_id := next_job_id t; jobs := l |}.

(** [self.jobs[i] = f(self.jobs[i])] *)
Definition update_job (i : nat) (f : JobNode → JobNode) (t : ContainmentTree) : ContainmentTree :=
  set_jobs (alter f i (jobs t)) t.

Definition new : ContainmentTree := {| next_job_id := 1; jobs := [] |}.

Abbreviation Op A := (M ContainmentTree ContainmentError A).

Definition job_count (t : ContainmentTree) : nat := length (jobs t).

Definition job_index (t : ContainmentTree) (job : JobId) : outcome ContainmentError nat :=
  ok_or (position (λ n, jn_id n =? job) (jobs t)) InvalidJob.

(** [&self.jobs[self.job_index(job)?]] *)
Definition job_ref (t : ContainmentTree) (job : JobId) : outcome ContainmentError JobNode :=
  index ← job_index t job; expect (jobs t !! index).

Definition process_index (n : JobNode) (process : ProcessId) : outcome ContainmentError nat :=
  ok_or (position (λ e, rv_process e =? process) (jn_processes n)) ProcessNotFound.

(** ** Chain operations *)

Definition chain_fuel (t : ContainmentTree) : nat := S (length (jobs t)).

Fixpoint check_chain_loop (fuel : nat) (t : ContainmentTree) (delta : ResourceUsage)
    (current : option JobId) : outcome ContainmentError unit :=
  match current with
  | None => mret ()
  | Some id =>
      match fuel with
      | O => Abort
      | S fuel =>
          node ← job_ref t id;
          _ ← err_if (jn_retired node) Retired;
          projected ← ok_or (usage_checked_add (jn_usage node) delta) UsageOverflow;
          _ ← err_if (negb (allows (jn_limits node) projected)) LimitExceeded;
          check_chain_loop fuel t delta (jn_parent node)
      end
  end.

Definition check_chain_capacity (t : ContainmentTree) (job : JobId) (delta : ResourceUsage)
    : outcome ContainmentError unit :=
  check_chain_loop (chain_fuel t) t delta (Some job).

(** The first loop of [apply_chain_delta]: the ancestors, innermost first. *)
Fixpoint collect_chain (fuel : nat) (t : ContainmentTree) (current : option JobId)
    : outcome ContainmentError (list JobId) :=
  match current with
  | None => mret []
  | Some id =>
      match fuel with
      | O => Abort
      | S fuel =>
          node ← job_ref t id;
          rest ← collect_chain fuel t (jn_parent node);
          mret (id :: rest)
      end
  end.

Definition apply_delta (delta : ResourceUsage) (add : bool) (id : JobId) : Op unit :=
  index ← reads (λ t, job_index t id);
  node ← reads (λ t, expect (jobs t !! index));
  usage ← lift (if add then ok_or (usage_checked_add (jn_usage node) delta) UsageOverflow
                else ok_or (usage_checked_sub (jn_usage node) delta) UsageUnderflow);
  modify (update_job index (set_jn_usage usage)).

Definition apply_chain_delta (job : JobId) (delta : ResourceUsage) (add : bool) : Op unit :=
  chain ← reads (λ t, collect_chain (chain_fuel t) t (Some job));
  for_each chain (apply_delta delta add).

(** [pending.pop()] takes the last element; [pending.extend(..)] appends. *)
Fixpoint collect_subtree_loop (fuel : nat) (t : ContainmentTree) (result pending : list JobId)
    : outcome ContainmentError (list JobId) :=
  match last pending with
  | None => mret result
  | Some job =>
      match fuel with
      | O => Abort
      | S fuel =>
          node ← job_ref t job;
          collect_subtree_loop fuel t (push result job)
            (take (length pending - 1) pending ++ jn_children node)
      end
  end.

Definition collect_subtree (t : ContainmentTree) (root : JobId)
    : outcome ContainmentError (list JobId) :=
  collect_subtree_loop (chain_fuel t) t [] [root].

(** ** Operations *)

Definition create_node (parent : option JobId) (limits : ResourceLimits) : Op JobId :=
  t ← get;
  _ ← lift (err_if (bool_decide (MAX_CONTAINMENT_JOBS ≤ length (jobs t))%nat) JobLimit);
  id ← lift (ok_or (job_id_from_raw (next_job_id t)) JobLimit);
  next' ← lift (ok_or (checked_add u64_max (next_job_id t) 1) JobLimit);
  _ ← put {| next_job_id := next';
             jobs := push (jobs t)
               {| jn_id := id; jn_parent := parent; jn_limits := limits; jn_usage := ZERO;
                  jn_children := []; jn_processes := []; jn_retired := false |} |};
  mret id.

Definition create_root (limits : ResourceLimits) : Op JobId :=
  t ← get;
  _ ← lift (err_if (negb (bool_decide (length (jobs t) = 0%nat))) JobLimit);
  create_node None limits.

Definition create_child (parent : JobId) (limits : ResourceLimits) : Op JobId :=
  parent_index ← reads (λ t, job_index t parent);
  node ← reads (λ t, expect (jobs t !! parent_index));
  _ ← lift (err_if (jn_retired node) Retired);
  _ ← lift (err_if (bool_decide (MAX_CHILDREN_PER_JOB ≤ length (jn_children node))%nat) ChildLimit);
  child ← create_node (Some parent) limits;
  _ ← modify (update_job parent_index (λ n, set_jn_children (push (jn_children n) child) n));
  mret child.

Definition set_limits (job : JobId) (limits : ResourceLimits) : Op unit :=
  index ← reads (λ t, job_index t job);
  node ← reads (λ t, expect (jobs t !! index));
  _ ← lift (err_if (jn_retired node) Retired);
  _ ← lift (err_if (negb (no_relaxation (jn_limits node) limits)) LimitRelaxation);
  _ ← lift (err_if (negb (allows limits (jn_usage node))) LimitExceeded);
  modify (update_job index (set_jn_limits limits)).

Definition admit_process (job : JobId) (process : ProcessId) (usage : ResourceUsage) : Op unit :=
  _ ← lift (err_if ((process =? 0) || negb (u_processes usage =? 1)) InvalidProcess);
  index ← reads (λ t, job_index t job);
  node ← reads (λ t, expect (jobs t !! index));
  _ ← lift (err_if (jn_retired node) Retired);
  t ← get;
  _ ← lift (err_if (any (λ n, any (λ e, rv_process e =? process) (jn_processes n)) (jobs t))
              DuplicateProcess);
  _ ← lift (err_if (bool_decide (MAX_PROCESSES_PER_JOB ≤ length (jn_processes node))%nat)
              ProcessLimit);
  _ ← reads (λ t, check_chain_capacity t job usage);
  _ ← apply_chain_delta job usage true;
  modify (update_job index (λ n, set_jn_processes
    (push (jn_processes n) {| rv_process := process; rv_usage := usage |}) n)).

Definition usage_saturating_sub (a b : ResourceUsage) : ResourceUsage :=
  {| u_processes := saturating_sub (u_processes a) (u_processes b);
     u_threads := saturating_sub (u_threads a) (u_threads b);
     u_memory_bytes := saturating_sub (u_memory_bytes a) (u_memory_bytes b);
     u_cpu_ticks := saturating_sub (u_cpu_ticks a) (u_cpu_ticks b);
     u_handles := saturating_sub (u_handles a) (u_handles b) |}.

Definition set_process_usage (job : JobId) (process : ProcessId) (replacement : ResourceUsage)
    : Op unit :=
  index ← reads (λ t, job_index t job);
  node ← reads (λ t, expect (jobs t !! index));
  reservation_index ← lift (process_index node process);
  reservation ← lift (expect (jn_processes node !! reservation_index));
  let current := rv_usage reservation in
  _ ← lift (err_if (u_processes replacement =? 0) InvalidProcess);
  _ ← lift (err_if (negb (u_processes replacement =? u_processes current)) InvalidProcess);
  _ ← (if (u_memory_bytes current <=? u_memory_bytes replacement) ||
          (u_threads current <=? u_threads replacement) ||
          (u_cpu_ticks current <=? u_cpu_ticks replacement) ||
          (u_handles current <=? u_handles replacement)
       then
         let delta := usage_saturating_sub replacement current in
         _ ← reads (λ t, check_chain_capacity t job delta);
         apply_chain_delta job delta true
       else mret ());
  let decrease := usage_saturating_sub current replacement in
  _ ← apply_chain_delta job decrease false;
  modify (update_job index (λ n, set_jn_processes
    (alter (λ e, {| rv_process := rv_process e; rv_usage := replacement |}) reservation_index
       (jn_processes n)) n)).

Definition release_process (job : JobId) (process : ProcessId) : Op ResourceUsage :=
  index ← reads (λ t, job_index t job);
  node ← reads (λ t, expect (jobs t !! index));
  reservation_index ← lift (process_index node process);
  reservation ← lift (expect (jn_processes node !! reservation_index));
  _ ← modify (update_job index (λ n, set_jn_processes
        (swap_remove reservation_index (jn_processes n)) n));
  _ ← apply_chain_delta job (rv_usage reservation) false;
  mret (rv_usage reservation).

(** The first loop of [terminate_subtree]: empty every job, uncharging its
    reservations, and count them. *)
Fixpoint release_all (descendants : list JobId) (released : nat) : Op nat :=
  match descendants with
  | [] => mret released
  | job :: rest =>
      index ← reads (λ t, job_index t job);
      node ← reads (λ t, expect (jobs t !! index));
      let reservations := jn_processes node in
      _ ← modify (update_job index (set_jn_processes []));
      _ ← for_each reservations (λ r, apply_chain_delta job (rv_usage r) false);
      release_all rest (released + length reservations)
  end.

Definition retire_job (job : JobId) : Op unit :=
  index ← reads (λ t, job_index t job);
  modify (update_job index retire_node).

Definition terminate_subtree (root : JobId) : Op nat :=
  root_index ← reads (λ t, job_index t root);
  node ← reads (λ t, expect (jobs t !! root_index));
  _ ← lift (err_if (bool_decide (jn_parent node = None)) Root);
  _ ← lift (err_if (jn_retired node) Retired);
  descendants ← reads (λ t, collect_subtree t root);
  released ← release_all (rev descendants) 0;
  node' ← reads (λ t, expect (jobs t !! root_index));
  parent ← lift (ok_or (jn_parent node') Root);
  parent_index ← reads (λ t, job_index t parent);
  _ ← modify (update_job parent_index (λ n,
        set_jn_children (filter (λ c, c ≠ root) (jn_children n)) n));
  _ ← for_each descendants retire_job;
  mret released.

Record JobSnapshot := {
  js_id : JobId; js_parent : option JobId; js_limits : ResourceLimits; js_usage : ResourceUsage;
  js_child_count : nat; js_process_count : nat; js_retired : bool;
}.

Definition snapshot (t : ContainmentTree) (job : JobId) : outcome ContainmentError JobSnapshot :=
  node ← job_ref t job;
  mret {| js_id := jn_id node; js_parent := jn_parent node; js_limits := jn_limits node;
          js_usage := jn_usage node; js_child_count := length (jn_children node);
          js_process_count := length (jn_processes node); js_retired := jn_retired node |}.

(** ** Resource arithmetic, one component at a time *)

Inductive resource := Processes | Threads | MemoryBytes | CpuTicks | Handles.

Definition amount (r : resource) (u : ResourceUsage) : Z :=
  match r with
  | Processes => u_processes u | Threads => u_threads u | MemoryBytes => u_memory_bytes u
  | CpuTicks => u_cpu_ticks u | Handles => u_handles u
  end.

Definition limit (r : resource) (l : ResourceLimits) : Z :=
  match r with
  | Processes => l_processes l | Threads => l_threads l | MemoryBytes => l_memory_bytes l
  | CpuTicks => l_cpu_ticks l | Handles => l_handles l
  end.

Definition usage_map2 (f : Z → Z → Z) (a b : ResourceUsage) : ResourceUsage :=
  {| u_processes := f (u_processes a) (u_processes b);
     u_threads := f (u_threads a) (u_threads b);
     u_memory_bytes := f (u_memory_bytes a) (u_memory_bytes b);
     u_cpu_ticks := f (u_cpu_ticks a) (u_cpu_ticks b);
     u_handles := f (u_handles a) (u_handles b) |}.
Abbreviation usage_add := (usage_map2 Z.add).
Abbreviation usage_sub := (usage_map2 Z.sub).

Lemma amount_map2 f r a b : amount r (usage_map2 f a b) = f (amount r a) (amount r b).
Proof. by destruct r. Qed.

Lemma amount_ZERO r : amount r ZERO = 0.
Proof. by destruct r. Qed.

Lemma usage_ext a b : (∀ r, amount r a = amount r b) → a = b.
Proof.
  intros H. destruct a, b.
  pose proof (H Processes). pose proof (H Threads). pose proof (H MemoryBytes).
  pose proof (H CpuTicks). pose proof (H Handles). cbn in *. congruence.
Qed.

Lemma amount_saturating_sub r a b :
  amount r (usage_saturating_sub a b) = Z.max 0 (amount r a - amount r b).
Proof. by destruct r. Qed.

Ltac all_resources H :=
  pose proof (H Processes); pose proof (H Threads); pose proof (H MemoryBytes);
  pose proof (H CpuTicks); pose proof (H Handles); cbn [amount limit] in *.

Lemma usage_checked_add_Some a b c :
  usage_checked_add a b = Some c ↔
  c = usage_add a b ∧ ∀ r, amount r a + amount r b ≤ u64_max.
Proof.
  unfold usage_checked_add. split.
  - intros Hk. repeat (apply bind_Some in Hk as (? & [-> ?]%checked_add_Some & Hk); cbv beta in Hk).
    injection Hk as <-. split; [done|]. by intros [].
  - intros [-> H]. all_resources H.
    repeat (apply bind_Some; eexists; split; [by apply checked_add_Some|]; cbv beta). done.
Qed.

Lemma usage_checked_sub_Some a b c :
  usage_checked_sub a b = Some c ↔
  c = usage_sub a b ∧ ∀ r, amount r b ≤ amount r a.
Proof.
  unfold usage_checked_sub. split.
  - intros Hk. repeat (apply bind_Some in Hk as (? & [-> ?]%checked_sub_Some & Hk); cbv beta in Hk).
    injection Hk as <-. split; [done|]. by intros [].
  - intros [-> H]. all_resources H.
    repeat (apply bind_Some; eexists; split; [by apply checked_sub_Some|]; cbv beta). done.
Qed.

Lemma allows_true l u : allows l u = true ↔ ∀ r, amount r u ≤ limit r l.
Proof.
  unfold allows. rewrite !andb_true_iff, !Z.leb_le. split.
  - intros ((((? & ?) & ?) & ?) & ?) []; done.
  - intros H. all_resources H. done.
Qed.

Lemma no_relaxation_true l l' : no_relaxation l l' = true ↔ ∀ r, limit r l' ≤ limit r l.
Proof.
  unfold no_relaxation. rewrite !andb_true_iff, !Z.leb_le. split.
  - intros ((((? & ?) & ?) & ?) & ?) []; done.
  - intros H. all_resources H. done.
Qed.

(** ** Node lookup by identifier

    Jobs are never removed from the vector, so job [id] sits at index [id - 1]. *)

Definition node (t : ContainmentTree) (id : JobId) : option JobNode :=
  if decide (1 ≤ id) then jobs t !! Z.to_nat (id - 1) else None.

Definition ids_ok (t : ContainmentTree) : Prop :=
  ∀ i n, jobs t !! i = Some n → jn_id n = Z.of_nat i + 1.

Lemma node_lookup t id n :
  node t id = Some n ↔ 1 ≤ id ∧ jobs t !! Z.to_nat (id - 1) = Some n.
Proof. unfold node. case_decide; naive_solver. Qed.

Lemma node_elem t id n : node t id = Some n → n ∈ jobs t.
Proof. intros [_ H]%node_lookup. by eapply list_elem_of_lookup_2. Qed.

Lemma elem_node t n : ids_ok t → n ∈ jobs t → node t (jn_id n) = Some n.
Proof.
  intros Hok [i Hi]%list_elem_of_lookup. apply node_lookup. rewrite (Hok i n Hi).
  split; [lia|]. by replace (Z.to_nat (Z.of_nat i + 1 - 1)) with i by lia.
Qed.

Lemma node_id t id n : ids_ok t → node t id = Some n → jn_id n = id.
Proof. intros Hok [H1 H2]%node_lookup. rewrite (Hok _ _ H2). lia. Qed.

Lemma node_bound t id n : node t id = Some n → 1 ≤ id ≤ Z.of_nat (length (jobs t)).
Proof. intros [H1 H2%lookup_lt_Some]%node_lookup. lia. Qed.

Lemma node_index t id : ids_ok t →
  job_index t id = match node t id with Some _ => Ok (Z.to_nat (id - 1)) | None => Err InvalidJob end.
Proof.
  intros Hok. unfold job_index, ok_or. destruct (position _ _) as [i|] eqn:E.
  - apply position_Some in E as (n & Hn & Hid & _). bool_simpl. pose proof (Hok _ _ Hn) as Hi.
    assert (node t id = Some n) as Hnode.
    { apply node_lookup. split; [lia|]. by replace (Z.to_nat (id - 1)) with i by lia. }
    rewrite Hnode. f_equal. lia.
  - destruct (node t id) as [n|] eqn:Hn; [|done].
    pose proof (position_None _ _ E n (node_elem _ _ _ Hn)) as Hne. cbn in Hne. bool_simpl.
    by apply node_id in Hn.
Qed.

Lemma job_ref_eq t id : ids_ok t →
  job_ref t id = match node t id with Some n => Ok n | None => Err InvalidJob end.
Proof.
  intros Hok. unfold job_ref. rewrite node_index by done.
  destruct (node t id) as [n|] eqn:E; [|done]. apply node_lookup in E as [_ E]. cbn. by rewrite E.
Qed.

Lemma node_update t f i id :
  node (update_job i f t) id =
    if decide (id = Z.of_nat i + 1) then f <$> node t id else node t id.
Proof.
  unfold node, update_job. cbn. case_decide as H1.
  - case_decide as H2.
    + subst. replace (Z.to_nat (Z.of_nat i + 1 - 1)) with i by lia. apply list_lookup_alter_eq.
    + rewrite list_lookup_alter_ne by lia. done.
  - by case_decide.
Qed.

Lemma ids_ok_update t f i : (∀ n, jn_id (f n) = jn_id n) → ids_ok t → ids_ok (update_job i f t).
Proof.
  intros Hf Hok j n. cbn. destruct (decide (j = i)) as [->|].
  - rewrite list_lookup_alter_eq. destruct (jobs t !! i) as [m|] eqn:E; cbn; [|done].
    intros [= <-]. rewrite Hf. by apply Hok.
  - rewrite list_lookup_alter_ne by done. apply Hok.
Qed.

(** ** Ancestor paths *)

Inductive path (t : ContainmentTree) : option JobId → list JobId → Prop :=
| path_root : path t None []
| path_node id n l : node t id = Some n → path t (jn_parent n) l → path t (Some id) (id :: l).

(** Parents exist and are older than their children. *)
Definition parents_ok (t : ContainmentTree) : Prop :=
  ∀ n p, n ∈ jobs t → jn_parent n = Some p → p < jn_id n ∧ is_Some (node t p).

Lemma path_lt t id l k : ids_ok t → parents_ok t → path t (Some id) l → k ∈ l → k ≤ id.
Proof.
  intros Hids Hpar Hp. remember (Some id) as cur eqn:E. revert id E.
  induction Hp as [|id' n l Hn Hp IH]; intros id E; [done|]. injection E as <-.
  intros [->|Hk]%elem_of_cons; [lia|].
  destruct (jn_parent n) as [p|] eqn:Hpn; [|inversion Hp; subst; set_solver].
  destruct (Hpar n p) as [Hlt _]; [by eapply node_elem|done|].
  rewrite (node_id t id' n) in Hlt by done. specialize (IH p eq_refl Hk). lia.
Qed.

Lemma path_head_notin t id n l :
  ids_ok t → parents_ok t → node t id = Some n → path t (jn_parent n) l → id ∉ l.
Proof.
  intros Hids Hpar Hn Hp Hin. destruct (jn_parent n) as [p|] eqn:Hpn.
  - pose proof (path_lt t p l id Hids Hpar Hp Hin).
    destruct (Hpar n p) as [Hlt _]; [by eapply node_elem|done|].
    rewrite (node_id t id n) in Hlt by done. lia.
  - inversion Hp; subst; set_solver.
Qed.

Lemma collect_chain_path t fuel cur : ids_ok t → parents_ok t →
  match cur with
  | Some id => is_Some (node t id) ∧ id ≤ Z.of_nat fuel
  | None => True
  end →
  ∃ l, collect_chain fuel t cur = Ok l ∧ path t cur l.
Proof.
  intros Hids Hpar. revert cur. induction fuel as [|fuel IH]; intros [id|] Hc; cbn.
  - destruct Hc as [[n Hn] Hle]. apply node_bound in Hn. lia.
  - eexists. split; [done|constructor].
  - destruct Hc as [[n Hn] Hle]. rewrite job_ref_eq, Hn by done. cbn.
    destruct (IH (jn_parent n)) as (l & Hl & Hp).
    { destruct (jn_parent n) as [p|] eqn:Hpn; [|done].
      destruct (Hpar n p) as [Hlt Hsome]; [by eapply node_elem|done|].
      rewrite (node_id t id n) in Hlt by done. split; [done|lia]. }
    rewrite Hl. cbn. exists (id :: l). split; [done|]. by econstructor.
  - eexists. split; [done|constructor].
Qed.

Lemma path_ext t t' cur l :
  (∀ id, jn_parent <$> node t' id = jn_parent <$> node t id) → path t cur l → path t' cur l.
Proof.
  intros Hext. induction 1 as [|id n l Hn Hp IH]; [constructor|].
  specialize (Hext id). rewrite Hn in Hext. destruct (node t' id) as [n'|] eqn:E; [|done].
  injection Hext as Hext. econstructor; [done|]. by rewrite Hext.
Qed.

Lemma parents_ok_ext t t' : ids_ok t → ids_ok t' →
  (∀ id, jn_parent <$> node t' id = jn_parent <$> node t id) → parents_ok t → parents_ok t'.
Proof.
  intros Hi Hi' Hext Hpar m p Hm Hmp. apply (elem_node t') in Hm; [|done].
  pose proof (Hext (jn_id m)) as Hx. rewrite Hm in Hx. cbn in Hx.
  destruct (node t (jn_id m)) as [n|] eqn:Hn; [|done]. injection Hx as Hx.
  destruct (Hpar n p) as [Hlt Hs]; [by eapply node_elem|congruence|].
  rewrite (node_id t _ n Hi Hn) in Hlt. split; [done|].
  apply (fmap_is_Some jn_parent). rewrite Hext. by apply fmap_is_Some.
Qed.

Lemma path_NoDup t cur l : ids_ok t → parents_ok t → path t cur l → NoDup l.
Proof.
  intros Hids Hpar. induction 1 as [|id n l Hn Hp IH]; constructor; [|done].
  by eapply path_head_notin.
Qed.

Lemma path_nodes t cur l k : path t cur l → k ∈ l → is_Some (node t k).
Proof. induction 1; [set_solver|]. intros [->|?]%elem_of_cons; eauto. Qed.

(** ** Charging a chain *)

(** The tree with the usage of every job in [l] mapped through [g]. *)
Definition charge_node (g : ResourceUsage → ResourceUsage) (l : list JobId) (n : JobNode) : JobNode :=
  if decide (jn_id n ∈ l) then set_jn_usage (g (jn_usage n)) n else n.
Definition charge (g : ResourceUsage → ResourceUsage) (l : list JobId) (t : ContainmentTree)
    : ContainmentTree :=
  set_jobs (charge_node g l <$> jobs t) t.

Lemma charge_nil g t : charge g [] t = t.
Proof.
  destruct t as [nx js]. unfold charge, set_jobs. cbn. f_equal.
  rewrite <- (list_fmap_id js) at 2. apply list_fmap_ext. intros i n _. unfold charge_node.
  rewrite decide_False; [done|set_solver].
Qed.

Lemma charge_cons g id l t n : ids_ok t → id ∉ l → node t id = Some n →
  charge g (id :: l) t =
  charge g l (update_job (Z.to_nat (id - 1)) (set_jn_usage (g (jn_usage n))) t).
Proof.
  intros Hids Hni Hn. pose proof (node_bound _ _ _ Hn).
  unfold charge, update_job, set_jobs. cbn. f_equal.
  apply list_eq. intros i. rewrite !list_lookup_fmap.
  destruct (decide (i = Z.to_nat (id - 1))) as [->|Hne].
  - rewrite list_lookup_alter_eq. apply node_lookup in Hn as [? Hn']. rewrite Hn'. cbn. f_equal.
    assert (jn_id n = id) as Hid by (rewrite (Hids _ _ Hn'); lia).
    unfold charge_node. cbn. rewrite Hid. rewrite decide_True by set_solver.
    by rewrite decide_False by done.
  - rewrite list_lookup_alter_ne by done. destruct (jobs t !! i) as [m|] eqn:E; cbn; [|done].
    f_equal. unfold charge_node. assert (jn_id m ≠ id) by (rewrite (Hids _ _ E); lia).
    destruct (decide (jn_id m ∈ l)); [rewrite decide_True by set_solver|rewrite decide_False by set_solver];
      done.
Qed.

Definition delta_op (add : bool) (a b : ResourceUsage) : option ResourceUsage :=
  if add then usage_checked_add a b else usage_checked_sub a b.
Definition delta_fn (add : bool) (d u : ResourceUsage) : ResourceUsage :=
  if add then usage_add u d else usage_sub u d.

Lemma apply_delta_ok t id n d add : ids_ok t → node t id = Some n →
  delta_op add (jn_usage n) d = Some (delta_fn add d (jn_usage n)) →
  apply_delta d add id t =
    (Ok (), update_job (Z.to_nat (id - 1)) (set_jn_usage (delta_fn add d (jn_usage n))) t).
Proof.
  intros Hids Hn Hop. unfold apply_delta, mbind, M_bind, reads. rewrite node_index, Hn by done.
  apply node_lookup in Hn as [_ Hn]. rewrite Hn. cbn. destruct add; cbn in Hop; by rewrite Hop.
Qed.

Lemma for_each_charge l d add t : ids_ok t → NoDup l →
  (∀ k, k ∈ l → ∃ n, node t k = Some n ∧
     delta_op add (jn_usage n) d = Some (delta_fn add d (jn_usage n))) →
  for_each l (apply_delta d add) t = (Ok (), charge (delta_fn add d) l t).
Proof.
  revert t. induction l as [|id l IH]; intros t Hids Hnd Hk; cbn [for_each].
  - by rewrite charge_nil.
  - apply NoDup_cons in Hnd as [Hni Hnd]. destruct (Hk id) as (n & Hn & Hop); [set_solver|].
    unfold mbind, M_bind. rewrite (apply_delta_ok t id n) by done.
    rewrite (charge_cons _ id l t n) by done. apply IH; [by apply ids_ok_update|done|].
    intros k Hkl. destruct (Hk k) as (m & Hm & Hopm); [set_solver|]. exists m.
    rewrite node_update, decide_False; [done|]. pose proof (node_bound _ _ _ Hn).
    intros ->. apply Hni. by replace id with (Z.of_nat (Z.to_nat (id - 1)) + 1) by lia.
Qed.

(** ** The accounting equation

    Every job's usage is its own reservations plus its children's usage, up to a
    correction [E] that the operations create and clear in passing. *)

Definition own (r : resource) (n : JobNode) : Z :=
  zsum (λ e, amount r (rv_usage e)) (jn_processes n).
Definition child_usage (id : JobId) (r : resource) (m : JobNode) : Z :=
  if decide (jn_parent m = Some id) then amount r (jn_usage m) else 0.
Definition child_sum (t : ContainmentTree) (id : JobId) (r : resource) : Z :=
  zsum (child_usage id r) (jobs t).

Definition accounts (t : ContainmentTree) (E : JobId → resource → Z) : Prop :=
  ∀ id n, node t id = Some n →
  ∀ r, amount r (jn_usage n) = own r n + child_sum t id r + E id r.

Definition bump (id : option JobId) (d : resource → Z) (E : JobId → resource → Z)
    : JobId → resource → Z :=
  λ k r, E k r + (if decide (id = Some k) then d r else 0).

Lemma accounts_ext t E E' : (∀ k r, E k r = E' k r) → accounts t E → accounts t E'.
Proof. intros H Ha id n Hn r. rewrite <- H. by apply Ha. Qed.

Lemma child_sum_update t k n0 f id r : node t k = Some n0 →
  child_sum (update_job (Z.to_nat (k - 1)) f t) id r =
  child_sum t id r - child_usage id r n0 + child_usage id r (f n0).
Proof. intros [_ Hn]%node_lookup. unfold child_sum, update_job. cbn. by apply zsum_alter. Qed.

Lemma node_update_id t k n0 f id : node t k = Some n0 →
  node (update_job (Z.to_nat (k - 1)) f t) id =
    if decide (id = k) then Some (f n0) else node t id.
Proof.
  intros Hn. pose proof (node_bound _ _ _ Hn). rewrite node_update.
  destruct (decide (id = k)) as [->|].
  - rewrite decide_True by lia. by rewrite Hn.
  - by rewrite decide_False by lia.
Qed.

Lemma accounts_set_usage t E k n0 u (d : resource → Z) :
  node t k = Some n0 →
  (∀ r, amount r u = amount r (jn_usage n0) + d r) →
  accounts t (bump (jn_parent n0) d E) →
  accounts (update_job (Z.to_nat (k - 1)) (set_jn_usage u) t) (bump (Some k) d E).
Proof.
  intros Hn Hu Ha id n Hid r. rewrite (child_sum_update t k n0) by done.
  rewrite (node_update_id t k n0) in Hid by done.
  assert (child_usage id r (set_jn_usage u n0) =
    child_usage id r n0 + if decide (jn_parent n0 = Some id) then d r else 0) as Hc.
  { unfold child_usage. cbn. destruct (decide (jn_parent n0 = Some id)); [apply Hu|lia]. }
  rewrite Hc. unfold bump in *. destruct (decide (id = k)) as [->|Hne].
  - injection Hid as <-. cbn [jn_usage set_jn_usage]. rewrite Hu, (Ha k n0 Hn r). rewrite (decide_True (P := Some k = Some k)) by done.
    change (own r (set_jn_usage u n0)) with (own r n0). lia.
  - rewrite (Ha id n Hid r). rewrite (decide_False (P := Some k = Some id)) by congruence. lia.
Qed.

Lemma accounts_charge t cur l E add d :
  ids_ok t → parents_ok t → path t cur l → accounts t E →
  accounts (charge (delta_fn add d) l t)
    (bump cur (λ r, if add : bool then amount r d else - amount r d) E).
Proof.
  set (x := λ r, if add then amount r d else - amount r d).
  intros Hids Hpar Hp. revert t E Hids Hpar Hp.
  assert (∀ l t cur E, ids_ok t → parents_ok t → path t cur l → accounts t E →
    accounts (charge (delta_fn add d) l t) (bump cur x E)) as Hgen; [|intros; by apply Hgen].
  clear l cur. induction l as [|id l IH]; intros t cur E Hids Hpar Hp Ha.
  - inversion Hp; subst. rewrite charge_nil. eapply accounts_ext; [|done].
    intros k r. unfold bump. rewrite decide_False by done. lia.
  - inversion Hp as [|id' n l' Hn Hp' Hc Hl]; subst.
    rewrite (charge_cons _ id l t n); [|done|by eapply path_head_notin|done].
    set (t1 := update_job _ _ t).
    assert (∀ k, jn_parent <$> node t1 k = jn_parent <$> node t k) as Hpk.
    { intros k. unfold t1. rewrite (node_update_id t id n) by done. case_decide; [|done].
      subst. by rewrite Hn. }
    eapply (accounts_ext _ (bump (jn_parent n) x (bump (Some id) x (bump (jn_parent n) (λ r, - x r) E)))).
    { intros k r. unfold bump. repeat case_decide; lia. }
    apply IH.
    + by apply ids_ok_update.
    + eapply parents_ok_ext; [| |exact Hpk|]; [done|by apply ids_ok_update|done].
    + by eapply path_ext.
    + apply (accounts_set_usage t _ id n); [done|..].
      * intros r. unfold x. destruct add; cbn [delta_fn]; rewrite amount_map2; lia.
      * eapply accounts_ext; [|exact Ha]. intros k r. unfold bump. case_decide; lia.
Qed.

(** ** The tree invariant *)

Definition skeleton (n : JobNode) : JobId * option JobId * list JobId * bool :=
  (jn_id n, jn_parent n, jn_children n, jn_retired n).

(** Structure: who is whose parent, and what retirement leaves behind. *)
Record shape (t : ContainmentTree) : Prop := {
  sh_ids : ids_ok t;
  sh_next : next_job_id t = Z.of_nat (length (jobs t)) + 1;
  sh_limit : (length (jobs t) ≤ MAX_CONTAINMENT_JOBS)%nat;
  sh_parents : parents_ok t;
  sh_parent : ∀ id n p, node t id = Some n → jn_parent n = Some p →
    jn_retired n = false ∧
    ∃ pn, node t p = Some pn ∧ jn_retired pn = false ∧ id ∈ jn_children pn;
  sh_children : ∀ id n c, node t id = Some n → c ∈ jn_children n →
    ∃ m, node t c = Some m ∧ jn_parent m = Some id;
  sh_child_limit : ∀ id n, node t id = Some n →
    NoDup (jn_children n) ∧ (length (jn_children n) ≤ MAX_CHILDREN_PER_JOB)%nat;
  sh_root : ∀ id n, node t id = Some n → jn_parent n = None → jn_retired n = false → id = 1;
  sh_first : ∀ n, node t 1 = Some n → jn_parent n = None ∧ jn_retired n = false;
}.

Definition pids (t : ContainmentTree) : list ProcessId :=
  jobs t ≫= λ n, rv_process <$> jn_processes n.

Definition map_jobs (f : JobNode → JobNode) (t : ContainmentTree) : ContainmentTree :=
  set_jobs (f <$> jobs t) t.

Lemma pids_map f t : (∀ n, jn_processes (f n) = jn_processes n) → pids (map_jobs f t) = pids t.
Proof.
  intros Hf. unfold pids, map_jobs. cbn. induction (jobs t) as [|n js IH]; [done|]. cbn.
  by rewrite Hf, IH.
Qed.

Record procs_ok (t : ContainmentTree) : Prop := {
  pr_unique : NoDup (pids t);
  pr_limit : ∀ id n, node t id = Some n →
    (length (jn_processes n) ≤ MAX_PROCESSES_PER_JOB)%nat;
  pr_usage : ∀ id n e r, node t id = Some n → e ∈ jn_processes n → 0 ≤ amount r (rv_usage e);
  pr_retired : ∀ id n, node t id = Some n → jn_retired n = true → jn_processes n = [];
}.

Definition bounded (t : ContainmentTree) : Prop :=
  ∀ id n r, node t id = Some n →
    0 ≤ amount r (jn_usage n) ≤ limit r (jn_limits n) ∧ limit r (jn_limits n) ≤ u64_max.

Definition no_extra : JobId → resource → Z := λ _ _, 0.

(** [inv_upto E]: each job [id] is charged [E id] on top of its own
    reservations and its children's usage. Between operations [E] is zero. *)
Record inv_upto (E : JobId → resource → Z) (t : ContainmentTree) : Prop := {
  inv_shape : shape t;
  inv_procs : procs_ok t;
  inv_bounded : bounded t;
  inv_accounts : accounts t E;
}.
Arguments inv_shape {E t}.
Abbreviation inv := (inv_upto no_extra).

Lemma shape_ext t t' :
  next_job_id t' = next_job_id t → length (jobs t') = length (jobs t) →
  (∀ id, skeleton <$> node t' id = skeleton <$> node t id) → shape t → shape t'.
Proof.
  intros Hn Hl Hx Hs.
  assert (∀ id n', node t' id = Some n' → ∃ n, node t id = Some n ∧ skeleton n = skeleton n') as H1.
  { intros id n' H. specialize (Hx id). rewrite H in Hx.
    destruct (node t id) as [n|]; [|done]. apply (inj Some) in Hx. by exists n. }
  assert (∀ id n, node t id = Some n → ∃ n', node t' id = Some n' ∧ skeleton n = skeleton n') as H2.
  { intros id n H. specialize (Hx id). rewrite H in Hx.
    destruct (node t' id) as [n'|]; [|done]. apply (inj Some) in Hx. by exists n'. }
  assert (ids_ok t') as Hids.
  { intros i n' Hi. destruct (H1 (Z.of_nat i + 1) n') as (n & Hn' & [= Hid _ _ _]).
    { apply node_lookup. split; [lia|]. by replace (Z.to_nat _) with i by lia. }
    rewrite <- Hid. by eapply node_id; [apply Hs|]. }
  constructor; [done|rewrite Hn, Hl; apply Hs|rewrite Hl; apply Hs|..].
  - eapply (parents_ok_ext t); [apply Hs|done| |apply Hs]. intros id. specialize (Hx id).
    destruct (node t id), (node t' id); cbn in *; unfold skeleton in *; congruence.
  - intros id n' p (n & Hn' & [= Hid Hp Hc Hr])%H1 Hpar.
    destruct (sh_parent t Hs id n p) as (? & pn & Hpn & ? & ?); [done|congruence|].
    split; [congruence|]. apply H2 in Hpn as (pn' & ? & [= ? ? ? ?]). exists pn'.
    split_and!; [done|congruence|congruence].
  - intros id n' c (n & Hn' & [= Hid Hp Hc Hr])%H1 Hin.
    destruct (sh_children t Hs id n c) as (m & (m' & ? & [= ? ? ? ?])%H2 & ?); [done|congruence|].
    exists m'. split; [done|congruence].
  - intros id n' (n & Hn' & [= Hid Hp Hc Hr])%H1. rewrite <- Hc. by eapply sh_child_limit.
  - intros id n' (n & Hn' & [= Hid Hp Hc Hr])%H1 ? ?. eapply (sh_root t Hs id n); congruence.
  - intros n' (n & Hn' & [= Hid Hp Hc Hr])%H1. rewrite <- Hp, <- Hr. by apply (sh_first t Hs).
Qed.

Lemma shape_update t k n0 f : shape t → node t k = Some n0 → skeleton (f n0) = skeleton n0 →
  shape (update_job (Z.to_nat (k - 1)) f t).
Proof.
  intros Hs Hn Hf. eapply (shape_ext t); [done|cbn; apply length_alter| |done].
  intros id. rewrite (node_update_id t k n0) by done. case_decide; [|done].
  subst. rewrite Hn. cbn. by rewrite Hf.
Qed.

Lemma node_charge g l t id : node (charge g l t) id = charge_node g l <$> node t id.
Proof.
  unfold node, charge. cbn. case_decide; [|done]. apply list_lookup_fmap.
Qed.

Lemma skeleton_charge g l n : skeleton (charge_node g l n) = skeleton n.
Proof. unfold charge_node. by case_decide. Qed.

Lemma charge_processes g l n : jn_processes (charge_node g l n) = jn_processes n.
Proof. unfold charge_node. by case_decide. Qed.

Lemma shape_charge g l t : shape t → shape (charge g l t).
Proof.
  intros Hs. eapply (shape_ext t); [done|cbn; apply length_fmap| |done].
  intros id. rewrite node_charge. destruct (node t id); [|done]. cbn. by rewrite skeleton_charge.
Qed.

Lemma procs_charge g l t : procs_ok t → procs_ok (charge g l t).
Proof.
  intros [Hu Hl Hus Hr].
  assert (∀ n, jn_processes (charge_node g l n) = jn_processes n ∧
    jn_retired (charge_node g l n) = jn_retired n) as Hc.
  { intros n. unfold charge_node. by case_decide. }
  constructor.
  - change (charge g l t) with (map_jobs (charge_node g l) t). rewrite pids_map; [done|apply Hc].
  - intros id n. rewrite node_charge. intros (m & Hm & ->)%fmap_Some. rewrite (proj1 (Hc m)). eauto.
  - intros id n e r. rewrite node_charge. intros (m & Hm & ->)%fmap_Some. rewrite (proj1 (Hc m)). eauto.
  - intros id n. rewrite node_charge. intros (m & Hm & ->)%fmap_Some.
    rewrite (proj1 (Hc m)), (proj2 (Hc m)). eauto.
Qed.

Lemma path_charge g l t cur l' : path t cur l' → path (charge g l t) cur l'.
Proof.
  apply path_ext. intros id. rewrite node_charge. destruct (node t id) as [n|]; [|done]. cbn.
  unfold charge_node. by case_decide.
Qed.

Lemma path_exists t id : shape t → is_Some (node t id) →
  ∃ l, collect_chain (chain_fuel t) t (Some id) = Ok l ∧ path t (Some id) l.
Proof.
  intros Hs Hn. apply collect_chain_path; [apply Hs..|]. split; [done|].
  destruct Hn as [n Hn]. apply node_bound in Hn. unfold chain_fuel. lia.
Qed.

Lemma path_unique t cur l l' : path t cur l → path t cur l' → l = l'.
Proof.
  intros H. revert l'. induction H as [|id n l Hn Hp IH]; intros l' H'; inversion H'; subst; [done|].
  f_equal. apply IH. congruence.
Qed.

(** ** What the chain operations do to a well-formed tree *)

Definition room (t : ContainmentTree) (d : ResourceUsage) (k : JobId) : Prop :=
  ∃ n, node t k = Some n ∧ jn_retired n = false ∧
    ∀ r, amount r (jn_usage n) + amount r d ≤ limit r (jn_limits n) ∧
         amount r (jn_usage n) + amount r d ≤ u64_max.

Lemma check_chain_spec t d cur l fuel : ids_ok t → path t cur l → (length l ≤ fuel)%nat →
  wpo (check_chain_loop fuel t d cur) (λ _, ∀ k, k ∈ l → room t d k) (λ _, True).
Proof.
  intros Hids Hp. revert fuel. induction Hp as [|id n l Hn Hp IH]; intros fuel Hf;
    destruct fuel as [|fuel]; cbn in Hf |- *; try lia; try set_solver.
  rewrite job_ref_eq, Hn by done. cbn.
  destruct (jn_retired n) eqn:Hr; cbn; [done|].
  destruct (usage_checked_add _ _) as [c|] eqn:Hc; cbn; [|done].
  apply usage_checked_add_Some in Hc as [-> Hc].
  destruct (allows _ _) eqn:Ha; cbn; [|done]. rewrite allows_true in Ha.
  eapply wpo_mono; [apply IH; lia| |done]. cbn. intros _ Hall k [->|?]%elem_of_cons; [|auto].
  exists n. split_and!; [done..|]. intros r. specialize (Ha r). rewrite amount_map2 in Ha. auto.
Qed.

Lemma nodes_length t (l : list JobId) :
  NoDup l → (∀ k, k ∈ l → is_Some (node t k)) → (length l ≤ length (jobs t))%nat.
Proof.
  intros Hnd Hl.
  assert (l ⊆ Z.of_nat <$> seq 1 (length (jobs t))) as Hsub.
  { intros k Hk. destruct (Hl k Hk) as [m Hm]. apply node_bound in Hm.
    apply list_elem_of_fmap. exists (Z.to_nat k). rewrite elem_of_seq. lia. }
  pose proof (NoDup_incl_length (l := l) (l' := Z.of_nat <$> seq 1 (length (jobs t)))) as Hlen.
  rewrite length_fmap, length_seq in Hlen. apply Hlen; [by apply NoDup_ListNoDup|].
  intros k. rewrite <- !list_elem_of_In. apply Hsub.
Qed.

Lemma path_length t cur l : shape t → path t cur l → (length l ≤ chain_fuel t)%nat.
Proof.
  intros Hs Hp. unfold chain_fuel. apply Nat.le_le_succ_r, nodes_length.
  - eapply path_NoDup; [apply Hs..|done].
  - intros k Hk. by eapply path_nodes.
Qed.

Lemma check_capacity_spec t job d l : shape t → path t (Some job) l →
  wpo (check_chain_capacity t job d) (λ _, ∀ k, k ∈ l → room t d k) (λ _, True).
Proof. intros Hs Hp. apply check_chain_spec; [apply Hs|done|by eapply path_length]. Qed.

Definition covers (t : ContainmentTree) (d : ResourceUsage) (k : JobId) : Prop :=
  ∃ n, node t k = Some n ∧ ∀ r, amount r d ≤ amount r (jn_usage n).

Lemma apply_chain_eq t job d add l : shape t → path t (Some job) l →
  (∀ k, k ∈ l → if add : bool then room t d k else covers t d k) →
  apply_chain_delta job d add t = (Ok (), charge (delta_fn add d) l t).
Proof.
  intros Hs Hp Hk. unfold apply_chain_delta, mbind, M_bind.
  destruct (path_exists t job Hs) as (l' & Hc & Hp'); [by inversion Hp; eauto|].
  rewrite (path_unique _ _ _ _ Hp' Hp) in Hc. unfold reads. rewrite Hc.
  apply for_each_charge; [apply Hs|eapply path_NoDup; [apply Hs..|done]|].
  intros k Hin. specialize (Hk k Hin). destruct add.
  - destruct Hk as (n & Hn & _ & Hr). exists n. split; [done|].
    apply usage_checked_add_Some. split; [done|]. intros r. apply Hr.
  - destruct Hk as (n & Hn & Hr). exists n. split; [done|].
    by apply usage_checked_sub_Some.
Qed.

Definition nonneg_usage (t : ContainmentTree) : Prop :=
  ∀ id n r, node t id = Some n → 0 ≤ amount r (jn_usage n) ∧ 0 ≤ own r n.

Lemma child_sum_ge t id m r : ids_ok t → nonneg_usage t → node t (jn_id m) = Some m →
  jn_parent m = Some id → amount r (jn_usage m) ≤ child_sum t id r.
Proof.
  intros Hids Hnn Hm Hp. unfold child_sum.
  etransitivity; [|apply (zsum_ge (child_usage id r) (jobs t) m)].
  - unfold child_usage. by rewrite decide_True.
  - intros n Hn. apply (elem_node t) in Hn; [|done]. unfold child_usage.
    case_decide; [|lia]. by eapply Hnn.
  - by eapply node_elem.
Qed.

Lemma child_sum_nonneg t id r : ids_ok t → nonneg_usage t → 0 ≤ child_sum t id r.
Proof.
  intros Hids Hnn. apply zsum_nonneg. intros n Hn. apply (elem_node t) in Hn; [|done].
  unfold child_usage. case_decide; [|lia]. by eapply Hnn.
Qed.

(** A charge that the job itself can give back, its ancestors can too: their
    usage is at least their child's. *)
Lemma chain_covers t job n d l (E : JobId → resource → Z) :
  shape t → nonneg_usage t → accounts t E → (∀ k r, 0 ≤ E k r) →
  path t (Some job) l → node t job = Some n →
  (∀ r, amount r d ≤ amount r (jn_usage n)) →
  ∀ k, k ∈ l → covers t d k.
Proof.
  intros Hs Hnn Ha HE Hp. remember (Some job) as cur eqn:Hcur. revert job n Hcur.
  induction Hp as [|id m l Hm Hp IH]; intros job n [=<-] Hn Hd k Hk.
  assert (n = m) as -> by congruence.
  apply elem_of_cons in Hk as [->|Hk]; [by exists m|].
  destruct (jn_parent m) as [p|] eqn:Hpar; [|by inversion Hp; subst; set_solver].
  destruct (sh_parent t Hs id m p) as (_ & pn & Hpn & _); [done..|].
  eapply (IH p pn); [done..| |done]. intros r. specialize (Hd r).
  pose proof (node_id t id m (sh_ids t Hs) Hm) as Hid.
  pose proof (child_sum_ge t p m r (sh_ids t Hs) Hnn). rewrite Hid in H. specialize (H Hm Hpar).
  rewrite (Ha p pn Hpn). pose proof (HE p r). pose proof (proj2 (Hnn p pn r Hpn)). lia.
Qed.

(** ** Changing one job's reservations *)

Lemma path_update t k n0 f cur l : node t k = Some n0 → jn_parent (f n0) = jn_parent n0 →
  path t cur l → path (update_job (Z.to_nat (k - 1)) f t) cur l.
Proof.
  intros Hn Hf. apply path_ext. intros id. rewrite (node_update_id t k n0) by done.
  case_decide; [|done]. subst. rewrite Hn. cbn. by rewrite Hf.
Qed.

Lemma accounts_set_processes t E k n0 f :
  node t k = Some n0 → jn_parent (f n0) = jn_parent n0 → jn_usage (f n0) = jn_usage n0 →
  accounts t E →
  accounts (update_job (Z.to_nat (k - 1)) f t) (bump (Some k) (λ r, own r n0 - own r (f n0)) E).
Proof.
  intros Hn Hp Hu Ha id n Hid r. rewrite (child_sum_update t k n0) by done.
  rewrite (node_update_id t k n0) in Hid by done.
  assert (child_usage id r (f n0) = child_usage id r n0) as ->.
  { unfold child_usage. by rewrite Hp, Hu. }
  unfold bump. destruct (decide (id = k)) as [->|Hne].
  - injection Hid as <-. rewrite decide_True by done. rewrite Hu, (Ha k n0 Hn). lia.
  - rewrite (decide_False (P := Some k = Some id)) by congruence. rewrite (Ha id n Hid). lia.
Qed.

Lemma bounded_update t k n0 f : bounded t → node t k = Some n0 →
  jn_usage (f n0) = jn_usage n0 → jn_limits (f n0) = jn_limits n0 →
  bounded (update_job (Z.to_nat (k - 1)) f t).
Proof.
  intros Hb Hn Hu Hl id n r. rewrite (node_update_id t k n0) by done.
  case_decide; [intros [= <-]; rewrite Hu, Hl|]; eauto.
Qed.

Lemma pids_update t k n0 f : node t k = Some n0 →
  ∃ rest, pids t ≡ₚ (rv_process <$> jn_processes n0) ++ rest ∧
    pids (update_job (Z.to_nat (k - 1)) f t) ≡ₚ (rv_process <$> jn_processes (f n0)) ++ rest.
Proof.
  intros [_ Hn]%node_lookup. unfold pids, update_job. cbn.
  generalize (Z.to_nat (k - 1)) Hn. generalize (jobs t). clear t k Hn.
  induction l as [|m l IH]; intros i Hi; [done|]. destruct i as [|i]; cbn in Hi |- *.
  - injection Hi as ->. by eexists.
  - destruct (IH i Hi) as (rest & H1 & H2).
    exists ((rv_process <$> jn_processes m) ++ rest).
    split; [rewrite H1|rewrite H2]; solve_Permutation.
Qed.

Lemma procs_update t k n0 f : procs_ok t → node t k = Some n0 →
  jn_retired (f n0) = jn_retired n0 → (jn_retired n0 = true → jn_processes (f n0) = []) →
  (length (jn_processes (f n0)) ≤ MAX_PROCESSES_PER_JOB)%nat →
  (∀ e r, e ∈ jn_processes (f n0) → 0 ≤ amount r (rv_usage e)) →
  NoDup (pids (update_job (Z.to_nat (k - 1)) f t)) →
  procs_ok (update_job (Z.to_nat (k - 1)) f t).
Proof.
  intros [Hu Hl Hus Hret] Hn Hr Hrp Hlen Hnn Hnd. constructor; [done|intros id n|intros id n e r|intros id n];
    rewrite (node_update_id t k n0) by done;
    (destruct (decide (id = k)) as [->|]; [intros [= <-]|]); eauto.
Qed.

Lemma inv_nonneg t : procs_ok t → bounded t → nonneg_usage t.
Proof.
  intros Hp Hb id n r Hn. split; [by apply (Hb id n r)|].
  apply zsum_nonneg. intros e He. by eapply pr_usage.
Qed.

Lemma bounded_charge t add d l : ids_ok t → bounded t → (∀ r, 0 ≤ amount r d) →
  (∀ k, k ∈ l → if add : bool then room t d k else covers t d k) →
  bounded (charge (delta_fn add d) l t).
Proof.
  intros Hids Hb Hd Hl id n' r. rewrite node_charge. intros (n & Hn & ->)%fmap_Some.
  destruct (Hb id n r Hn) as [[H1 H2] H3]. unfold charge_node. case_decide as Hin; [|done]. cbn.
  rewrite (node_id t id n) in Hin by done. specialize (Hl id Hin). specialize (Hd r).
  destruct add; cbn [delta_fn]; rewrite amount_map2.
  - destruct Hl as (m & Hm & _ & Hr). assert (m = n) as -> by congruence. specialize (Hr r). lia.
  - destruct Hl as (m & Hm & Hr). assert (m = n) as -> by congruence. specialize (Hr r). lia.
Qed.

Lemma wpo_job_index t job (Q : nat → Prop) (R : ContainmentError → Prop) : ids_ok t →
  (node t job = None → R InvalidJob) →
  (∀ n, node t job = Some n → jobs t !! Z.to_nat (job - 1) = Some n → Q (Z.to_nat (job - 1))) →
  wpo (job_index t job) Q R.
Proof.
  intros Hids HN HS. rewrite node_index by done.
  destruct (node t job) as [n|] eqn:Hn; cbn; [|by apply HN].
  apply (HS n); [done|]. by apply node_lookup in Hn as [_ ?].
Qed.

(** Open [job_index(job)?] followed by the access to [self.jobs[index]]. *)
Ltac open_job n Hn :=
  let Hl := fresh in
  apply wpo_job_index; [solve [eauto using sh_ids, inv_shape]|try done|
    intros n Hn Hl; wp_steps; eapply wpo_expect; [exact Hl|]; cbv beta; clear Hl; wp_steps].

(** ** Operations on reservations *)

Definition usage_ok (u : ResourceUsage) : Prop := ∀ r, 0 ≤ amount r u ≤ u64_max.

(** The tree after [admit_process]: the ancestors [l] charged, the
    reservation recorded. *)
Definition admitted (job : JobId) (process : ProcessId) (u : ResourceUsage) (l : list JobId)
    (t : ContainmentTree) : ContainmentTree :=
  update_job (Z.to_nat (job - 1)) (λ n, set_jn_processes
    (push (jn_processes n) {| rv_process := process; rv_usage := u |}) n)
    (charge (delta_fn true u) l t).

Definition released (job : JobId) (i : nat) (u : ResourceUsage) (l : list JobId)
    (t : ContainmentTree) : ContainmentTree :=
  charge (delta_fn false u) l
    (update_job (Z.to_nat (job - 1))
       (λ n, set_jn_processes (swap_remove i (jn_processes n)) n) t).

Lemma any_pid t pid :
  any (λ n, any (λ e, rv_process e =? pid) (jn_processes n)) (jobs t) = false → pid ∉ pids t.
Proof.
  intros H Hin. apply list_elem_of_bind in Hin as (n & Hp & Hn).
  apply list_elem_of_fmap in Hp as (e & -> & He).
  pose proof (proj1 (any_false _ _) H n Hn) as Hany. cbn in Hany.
  pose proof (proj1 (any_false _ _) Hany e He) as Hne. cbn in Hne. bool_simpl. done.
Qed.

Lemma own_set_processes r l n :
  own r (set_jn_processes l n) = zsum (λ e, amount r (rv_usage e)) l.
Proof. done. Qed.

Lemma pids_charge g l t : pids (charge g l t) = pids t.
Proof. apply (pids_map (charge_node g l)), charge_processes. Qed.

Lemma inv_admitted t job n pid u l : inv t → usage_ok u →
  node t job = Some n → jn_retired n = false → path t (Some job) l → pid ∉ pids t →
  (length (jn_processes n) < MAX_PROCESSES_PER_JOB)%nat → (∀ k, k ∈ l → room t u k) →
  inv (admitted job pid u l t).
Proof.
  intros [Hs Hp Hb Ha] Hu Hn Hr Hpath Hpid Hlen Hroom.
  set (t1 := charge (delta_fn true u) l t).
  assert (node t1 job = Some (charge_node (delta_fn true u) l n)) as Hn1.
  { unfold t1. by rewrite node_charge, Hn. }
  set (n1 := charge_node (delta_fn true u) l n) in *.
  assert (jn_processes n1 = jn_processes n) as Hpr by apply charge_processes.
  constructor; unfold admitted; fold t1.
  - eapply shape_update; [by apply shape_charge|done|done].
  - apply (procs_update t1 job n1); [by apply procs_charge|done..| | | |].
    + intros Hx. revert Hx. unfold n1, charge_node. by case_decide; cbn; rewrite Hr.
    + cbn. unfold push. rewrite Hpr, length_app. cbn. lia.
    + intros e r. cbn. unfold push. rewrite Hpr, elem_of_app, list_elem_of_singleton.
      intros [He| ->]; [by eapply (pr_usage t Hp)|apply Hu].
    + match goal with |- NoDup (pids (update_job _ ?f _)) =>
        destruct (pids_update t1 job n1 f Hn1) as (rest & H1 & H2) end. rewrite H2.
      cbn. unfold push. rewrite fmap_app. cbn.
      assert ((rv_process <$> jn_processes n1) ++ [pid] ++ rest ≡ₚ pid :: pids t) as Hperm.
      { rewrite <- (pids_charge (delta_fn true u) l t). fold t1. rewrite H1. solve_Permutation. }
      rewrite <- app_assoc, Hperm. apply NoDup_cons. split; [done|apply Hp].
  - eapply bounded_update; [|done..]. apply bounded_charge; [apply Hs|done| |done]. apply Hu.
  - eapply accounts_ext; [|eapply (accounts_set_processes t1 _ job n1);
      [done|done|done|eapply accounts_charge; [apply Hs..|done|exact Ha]]].
    intros k r. unfold bump, no_extra. rewrite own_set_processes, zsum_push. unfold own.
    cbn [rv_usage]. case_decide; lia.
Qed.

Lemma admit_process_spec t job pid u : inv t → usage_ok u →
  wp (admit_process job pid u)
    (λ _ t', inv t' ∧ ∃ n l, node t job = Some n ∧ jn_retired n = false ∧ pid ≠ 0 ∧
       path t (Some job) l ∧ pid ∉ pids t ∧ (∀ k, k ∈ l → room t u k) ∧
       t' = admitted job pid u l t)
    (λ _ t', t' = t) t.
Proof.
  intros Hi Hu. pose proof (inv_shape Hi) as Hs. unfold admit_process. wp_steps; [done|].
  apply orb_false_iff in H as [H0 _]. bool_simpl. open_job n Hn; [done..|]. bool_simpl.
  destruct (path_exists t job Hs) as (l & _ & Hpath); [by eauto|].
  eapply wpo_mono; [by eapply check_capacity_spec|cbn|done]. intros _ Hroom.
  apply wp_bind. unfold wp at 1. rewrite (apply_chain_eq t job u true l) by done. wp_steps.
  split; [|exists n, l; split_and!; try done; by apply any_pid].
  eapply inv_admitted; try done; [by apply any_pid|lia].
Qed.

Lemma uncharge t job n l u E :
  inv_upto E t → (∀ k r, 0 ≤ E k r) → (∀ r, 0 ≤ amount r u) →
  node t job = Some n → (∀ r, amount r u ≤ amount r (jn_usage n)) → path t (Some job) l →
  apply_chain_delta job u false t = (Ok (), charge (delta_fn false u) l t) ∧
  inv_upto (bump (Some job) (λ r, - amount r u) E) (charge (delta_fn false u) l t).
Proof.
  intros [Hs Hp Hb Ha] HE Hu Hn Hle Hpath. pose proof (inv_nonneg t Hp Hb) as Hnn.
  assert (∀ k, k ∈ l → covers t u k) as Hc by by eapply chain_covers.
  split; [by apply apply_chain_eq|]. constructor.
  - by apply shape_charge.
  - by apply procs_charge.
  - apply bounded_charge; [apply Hs|done..].
  - apply accounts_charge; [apply Hs..|done|done].
Qed.

(** The same where the amount to give back is part of the extra charge. *)
Lemma uncharge_extra t job n l u (y : resource → Z) :
  inv_upto (bump (Some job) (λ r, amount r u + y r) no_extra) t →
  (∀ r, 0 ≤ amount r u) → (∀ r, 0 ≤ y r) → node t job = Some n → path t (Some job) l →
  apply_chain_delta job u false t = (Ok (), charge (delta_fn false u) l t) ∧
  inv_upto (bump (Some job) y no_extra) (charge (delta_fn false u) l t).
Proof.
  intros Hi Hu Hy Hn Hpath. destruct (uncharge t job n l u _ Hi) as [Hrun [Hs Hp Hb Ha]];
    [|done|done| |done|].
  - intros k r. unfold bump, no_extra. specialize (Hu r). specialize (Hy r). case_decide; lia.
  - destruct Hi as [Hs Hp Hb Ha]. pose proof (inv_nonneg t Hp Hb) as Hnn.
    intros r. rewrite (Ha job n Hn). unfold bump, no_extra. rewrite decide_True by done.
    pose proof (child_sum_nonneg t job r (sh_ids t Hs) Hnn). specialize (Hy r).
    pose proof (proj2 (Hnn job n r Hn)). lia.
  - split; [done|]. split; [done..|]. eapply accounts_ext; [|exact Ha].
    intros k r. unfold bump, no_extra. case_decide; lia.
Qed.

(** Dropping reservations leaves their amount charged to the job. *)
Lemma inv_drop t job n f kept (gone : list ProcessReservation) :
  inv t → node t job = Some n → f n = set_jn_processes kept n → jn_processes n ≡ₚ gone ++ kept →
  inv_upto (bump (Some job) (λ r, zsum (λ e, amount r (rv_usage e)) gone) no_extra)
    (update_job (Z.to_nat (job - 1)) f t).
Proof.
  intros [Hs Hp Hb Ha] Hn Hf Hperm. constructor.
  - eapply shape_update; [done..|]. by rewrite Hf.
  - apply (procs_update t job n); [done..| | | | |]; rewrite ?Hf; try done;
      cbn [set_jn_processes jn_processes].
    + intros Hr. rewrite (pr_retired t Hp job n) in Hperm by done.
      by apply Permutation_nil_l, symmetry, app_nil in Hperm as [_ ->].
    + pose proof (pr_limit t Hp job n Hn). rewrite Hperm, length_app in H. lia.
    + intros e r He. eapply (pr_usage t Hp job n); [done|]. rewrite Hperm. set_solver.
    + destruct (pids_update t job n f Hn) as (rest & H1 & H2).
      rewrite H2, Hf. cbn. pose proof (pr_unique t Hp) as Hu. rewrite H1, Hperm in Hu.
      rewrite fmap_app, <- app_assoc in Hu. by apply NoDup_app in Hu as (_ & _ & ?).
  - eapply bounded_update; [done..| |]; by rewrite Hf.
  - eapply accounts_ext; [|eapply (accounts_set_processes t _ job n f); [done| | |done]; by rewrite Hf].
    intros k r. unfold bump, no_extra. cbv beta. rewrite Hf, own_set_processes. unfold own.
    case_decide; [|lia]. rewrite Hperm, zsum_app. lia.
Qed.

Lemma inv_settled t job (y : resource → Z) :
  (∀ r, y r = 0) → inv_upto (bump (Some job) y no_extra) t → inv t.
Proof.
  intros Hy [Hs Hp Hb Ha]. split; [done..|]. eapply accounts_ext; [|done].
  intros k r. unfold bump, no_extra. rewrite Hy. case_decide; lia.
Qed.

Lemma release_process_spec t job pid : inv t →
  wp (release_process job pid)
    (λ u t', inv t' ∧ ∃ n i l, node t job = Some n ∧
       jn_processes n !! i = Some {| rv_process := pid; rv_usage := u |} ∧
       path t (Some job) l ∧ t' = released job i u l t)
    (λ _ t', t' = t ∧ ∀ n, node t job = Some n → pid ∉ rv_process <$> jn_processes n) t.
Proof.
  intros Hi. pose proof (inv_shape Hi) as Hs. unfold release_process, process_index. wp_steps.
  open_job n Hn; [by split; [|congruence]| |].
  2: { split; [done|]. intros n' Hn'. assert (n' = n) as -> by congruence.
    intros (e & -> & He)%list_elem_of_fmap. pose proof (position_None _ _ H e He) as Hx. cbn in Hx.
    by bool_simpl. }
  apply position_Some in H as ([p u] & He & Hid & _).
  cbn in Hid. bool_simpl. subst p. eapply wpo_expect; [exact He|]. wp_steps. cbn [rv_usage].
  destruct (path_exists t job Hs) as (l & _ & Hpath); [by eauto|].
  pose proof (swap_remove_Permutation _ _ _ He) as Hperm.
  set (f := λ m, set_jn_processes (swap_remove a (jn_processes m)) m).
  destruct (uncharge_extra (update_job (Z.to_nat (job - 1)) f t) job (f n) l u (λ _, 0)) as [Hrun Hinv].
  - destruct (inv_drop t job n f (swap_remove a (jn_processes n)) [{| rv_process := pid; rv_usage := u |}])
      as [? ? ? Hacc]; [done..|]. split; [done..|]. eapply accounts_ext; [|exact Hacc].
    intros k r. unfold bump. rewrite zsum_cons, zsum_nil. cbn [rv_usage]. case_decide; lia.
  - intros r. change u with (rv_usage {| rv_process := pid; rv_usage := u |}).
    eapply (pr_usage t (inv_procs _ _ Hi)); [done|]. by eapply list_elem_of_lookup_2.
  - done.
  - rewrite (node_update_id t job n) by done. by rewrite decide_True.
  - by eapply path_update.
  - unfold wp at 1. rewrite Hrun. wp_steps. split; [by eapply inv_settled|].
    by exists n, a, l.
Qed.

Lemma charge_charge g h l t : charge g l (charge h l t) = charge (λ u, g (h u)) l t.
Proof.
  unfold charge, set_jobs. cbn. f_equal. rewrite <- list_fmap_compose. apply list_fmap_ext.
  intros i n _. cbn. unfold charge_node. destruct (decide (jn_id n ∈ l)); cbn.
  - by rewrite decide_True.
  - by rewrite decide_False.
Qed.

Lemma charge_ext g h l t : (∀ u, g u = h u) → charge g l t = charge h l t.
Proof.
  intros H. unfold charge, set_jobs. f_equal. apply list_fmap_ext. intros i n _.
  unfold charge_node. by rewrite H.
Qed.

Definition recharge (current replacement u : ResourceUsage) : ResourceUsage :=
  usage_add u (usage_sub replacement current).

(** The tree after [set_process_usage]. *)
Definition reserved (job : JobId) (i : nat) (current replacement : ResourceUsage)
    (l : list JobId) (t : ContainmentTree) : ContainmentTree :=
  update_job (Z.to_nat (job - 1)) (λ n, set_jn_processes
    (alter (λ e, {| rv_process := rv_process e; rv_usage := replacement |}) i (jn_processes n)) n)
    (charge (recharge current replacement) l t).

Lemma own_ge r n i e : (∀ e, e ∈ jn_processes n → 0 ≤ amount r (rv_usage e)) →
  jn_processes n !! i = Some e → amount r (rv_usage e) ≤ own r n.
Proof.
  intros Hnn He. apply (zsum_ge (λ e, amount r (rv_usage e))); [done|].
  by eapply list_elem_of_lookup_2.
Qed.

Lemma usage_ge_own t job n r : inv t → node t job = Some n → own r n ≤ amount r (jn_usage n).
Proof.
  intros [Hs Hp Hb Ha] Hn. rewrite (Ha job n Hn). unfold no_extra.
  pose proof (child_sum_nonneg t job r (sh_ids t Hs) (inv_nonneg t Hp Hb)). lia.
Qed.

(** The increase of [set_process_usage], taken or skipped. *)
Lemma increase_spec t job l (c : bool) u : inv t → is_Some (node t job) → path t (Some job) l →
  (∀ r, 0 ≤ amount r u) → (c = false → ∀ r, amount r u = 0) →
  wp (if c then (_ ← reads (λ t, check_chain_capacity t job u); apply_chain_delta job u true)
      else mret ())
    (λ _ t', t' = charge (delta_fn true u) l t ∧
             inv_upto (bump (Some job) (λ r, amount r u) no_extra) t' ∧
             (∀ k, k ∈ l → ∃ n, node t k = Some n ∧
                ∀ r, amount r (jn_usage n) + amount r u ≤ limit r (jn_limits n)))
    (λ _ t', t' = t) t.
Proof.
  intros Hi Hn Hpath Hu Hc. destruct Hi as [Hs Hp Hb Ha]. destruct c; wp_steps.
  - eapply wpo_mono; [by eapply check_capacity_spec|cbn|done]. intros _ Hroom.
    unfold wp. rewrite (apply_chain_eq t job u true l) by done. split_and!; [done| |].
    + split; [by apply shape_charge|by apply procs_charge| |].
      * apply bounded_charge; [apply Hs|done..].
      * eapply (accounts_charge t (Some job) l no_extra true); [apply Hs..|done|done].
    + intros k Hk. destruct (Hroom k Hk) as (n & ? & _ & Hr). exists n. split; [done|]. apply Hr.
  - specialize (Hc eq_refl). split_and!.
    + rewrite (charge_ext _ (λ v, v)).
      * unfold charge, set_jobs. destruct t as [nx js]. cbn. f_equal. symmetry.
        rewrite <- (list_fmap_id js) at 2. apply list_fmap_ext. intros i n _.
        unfold charge_node. case_decide; [|done]. by destruct n.
      * intros v. apply usage_ext. intros r. cbn [delta_fn]. rewrite amount_map2, Hc. lia.
    + split; [done..|]. eapply accounts_ext; [|exact Ha]. intros k r. unfold bump. cbv beta.
      rewrite Hc. case_decide; lia.
    + intros k Hk. destruct (path_nodes _ _ _ _ Hpath Hk) as [n Hk']. exists n. split; [done|].
      intros r. rewrite Hc. pose proof (Hb k n r Hk'). lia.
Qed.

(** Replacing a reservation in place settles the difference. *)
Lemma inv_replace t job n i e u :
  node t job = Some n → jn_processes n !! i = Some e → (∀ r, 0 ≤ amount r u) →
  inv_upto (bump (Some job) (λ r, amount r u - amount r (rv_usage e)) no_extra) t →
  inv (update_job (Z.to_nat (job - 1)) (λ n, set_jn_processes
    (alter (λ e, {| rv_process := rv_process e; rv_usage := u |}) i (jn_processes n)) n) t).
Proof.
  set (h := λ e, {| rv_process := rv_process e; rv_usage := u |}).
  set (f := λ n, set_jn_processes (alter h i (jn_processes n)) n).
  intros Hn He Hu [Hs Hp Hb Ha].
  assert (rv_process <$> alter h i (jn_processes n) = rv_process <$> jn_processes n) as Hids.
  { apply list_eq. intros j. rewrite !list_lookup_fmap. destruct (decide (j = i)) as [->|].
    - rewrite list_lookup_alter_eq. by destruct (_ !! i).
    - by rewrite list_lookup_alter_ne. }
  constructor.
  - by eapply shape_update.
  - apply (procs_update t job n); [done..| | | |].
    + cbn. intros Hr. by rewrite (pr_retired t Hp job n).
    + cbn. rewrite length_alter. by apply (pr_limit t Hp job).
    + cbn. intros e' r [j Hj]%list_elem_of_lookup.
      destruct (decide (j = i)) as [->|]; [|rewrite list_lookup_alter_ne in Hj by done].
      * rewrite list_lookup_alter_eq, He in Hj. injection Hj as <-. apply Hu.
      * eapply (pr_usage t Hp); [done|]. by eapply list_elem_of_lookup_2.
    + fold h. fold f. destruct (pids_update t job n f Hn) as (rest & H1 & H2).
      rewrite H2. cbn. rewrite Hids, <- H1. apply Hp.
  - by eapply bounded_update.
  - eapply accounts_ext; [|eapply (accounts_set_processes t _ job n f); [done..|exact Ha]].
    intros k r. unfold bump, no_extra. cbv beta. unfold f at 1. rewrite own_set_processes.
    unfold own. rewrite (zsum_alter _ h _ _ e) by done. cbn [rv_usage h]. case_decide; lia.
Qed.

(** The decrease: the increase already charged, giving back what the
    replacement no longer needs leaves the difference to settle. *)
Lemma decrease_spec t job n i pid c u l : inv t → usage_ok u → node t job = Some n →
  jn_processes n !! i = Some {| rv_process := pid; rv_usage := c |} → path t (Some job) l →
  let t1 := charge (delta_fn true (usage_saturating_sub u c)) l t in
  inv_upto (bump (Some job) (λ r, amount r (usage_saturating_sub u c)) no_extra) t1 →
  wp (apply_chain_delta job (usage_saturating_sub c u) false)
    (λ _ t', inv (reserved job i c u l t) ∧ t' = charge (recharge c u) l t) (λ _ _, False) t1.
Proof.
  intros Hi Hu Hn He Hpath t1 Hi1.
  assert (∀ r, amount r c ≤ amount r (jn_usage n)) as Hcn.
  { intros r. etransitivity; [|by eapply usage_ge_own].
    apply (own_ge r n i {| rv_process := pid; rv_usage := c |}); [|done].
    intros e Hin. by eapply (pr_usage t (inv_procs _ _ Hi)). }
  edestruct (uncharge t1 job) as [Hrun Hi2]; [exact Hi1|..|].
  - intros k r. unfold bump, no_extra. rewrite amount_saturating_sub. case_decide; lia.
  - intros r. rewrite (amount_saturating_sub r c u). lia.
  - unfold t1. by rewrite node_charge, Hn.
  - intros r. specialize (Hcn r). specialize (Hu r). rewrite amount_saturating_sub.
    unfold charge_node. pose proof (inv_bounded _ _ Hi job n r Hn).
    case_decide; cbn [jn_usage set_jn_usage delta_fn];
      rewrite ?amount_map2, ?amount_saturating_sub; lia.
  - by apply path_charge.
  - assert (charge (delta_fn false (usage_saturating_sub c u)) l t1 = charge (recharge c u) l t) as Heq.
    { unfold t1. rewrite charge_charge. apply charge_ext. intros v. apply usage_ext. intros r.
      unfold recharge. cbn [delta_fn]. rewrite !amount_map2, !amount_saturating_sub. lia. }
    unfold wp. rewrite Hrun. split; [|done]. rewrite Heq in Hi2.
    eapply (inv_replace _ job (charge_node (recharge c u) l n) i {| rv_process := pid; rv_usage := c |}).
    + by rewrite node_charge, Hn.
    + unfold charge_node. by case_decide.
    + apply Hu.
    + destruct Hi2 as [? ? ? Ha2]. split; [done..|]. eapply accounts_ext; [|exact Ha2].
      intros k r. unfold bump, no_extra. cbn [rv_usage]. rewrite !amount_saturating_sub.
      case_decide; lia.
Qed.

Lemma set_process_usage_spec t job pid u : inv t → usage_ok u →
  wp (set_process_usage job pid u)
    (λ _ t', inv t' ∧ ∃ n i c l, node t job = Some n ∧
       jn_processes n !! i = Some {| rv_process := pid; rv_usage := c |} ∧
       u_processes u = u_processes c ∧ path t (Some job) l ∧ t' = reserved job i c u l t)
    (λ _ t', t' = t) t.
Proof.
  intros Hi Hu. pose proof (inv_shape Hi) as Hs. unfold set_process_usage, process_index. wp_steps.
  open_job n Hn; [|done]. apply position_Some in H as ([p c] & He & Hid & _).
  cbn in Hid. bool_simpl. subst p. eapply wpo_expect; [exact He|]. wp_steps; [done..|].
  cbn [rv_usage] in *. bool_simpl.
  destruct (path_exists t job Hs) as (l & _ & Hpath); [by eauto|].
  eapply wp_mono; [apply (increase_spec t job l); [done|by eauto|done|..]|cbv beta|done].
  - intros r. rewrite amount_saturating_sub. lia.
  - intros Hc r. rewrite amount_saturating_sub.
    apply orb_false_iff in Hc as [Hc H4%Z.leb_gt]. apply orb_false_iff in Hc as [Hc H3%Z.leb_gt].
    apply orb_false_iff in Hc as [H1%Z.leb_gt H2%Z.leb_gt]. destruct r; cbn; lia.
  - intros _ t1 (-> & Hi1 & _). wp_steps. eapply wp_mono; [by eapply decrease_spec|cbv beta|done].
    intros _ t2 [Hrep ->]. wp_steps. split; [done|]. by exists n, a, c, l.
Qed.

(** ** Creating jobs *)

Definition limits_ok (l : ResourceLimits) : Prop := ∀ r, 0 ≤ limit r l ≤ u64_max.

Definition fresh_node (id : JobId) (parent : option JobId) (limits : ResourceLimits) : JobNode :=
  {| jn_id := id; jn_parent := parent; jn_limits := limits; jn_usage := ZERO;
     jn_children := []; jn_processes := []; jn_retired := false |}.

Definition grown (parent : option JobId) (limits : ResourceLimits) (t : ContainmentTree)
    : ContainmentTree :=
  {| next_job_id := next_job_id t + 1;
     jobs := push (jobs t) (fresh_node (next_job_id t) parent limits) |}.

Definition add_child (c : JobId) (n : JobNode) : JobNode :=
  set_jn_children (push (jn_children n) c) n.

(** The tree after [create_child]. *)
Definition grown_child (parent : JobId) (limits : ResourceLimits) (t : ContainmentTree)
    : ContainmentTree :=
  update_job (Z.to_nat (parent - 1)) (add_child (next_job_id t)) (grown (Some parent) limits t).

Lemma node_grown t p lim id : shape t →
  node (grown p lim t) id =
    if decide (id = next_job_id t) then Some (fresh_node id p lim) else node t id.
Proof.
  intros Hs. pose proof (sh_next t Hs) as Hnext. unfold node, grown, push. cbn.
  destruct (decide (id = next_job_id t)) as [->|Hne].
  - rewrite decide_True by lia. rewrite lookup_app_r by lia.
    by replace (_ - _)%nat with 0%nat by lia.
  - case_decide; [|done]. destruct (decide (Z.to_nat (id - 1) < length (jobs t))%nat).
    + by apply lookup_app_l.
    + rewrite lookup_app_r by lia. rewrite lookup_ge_None_2 by (cbn; lia).
      symmetry. apply lookup_ge_None_2. lia.
Qed.

Lemma fresh_not_node t : shape t → node t (next_job_id t) = None.
Proof.
  intros Hs. destruct (node t (next_job_id t)) as [n|] eqn:E; [|done].
  apply node_bound in E. rewrite (sh_next t Hs) in E. lia.
Qed.

Lemma child_sum_grown t p lim id r : child_sum (grown p lim t) id r = child_sum t id r.
Proof.
  unfold child_sum, grown. cbn. rewrite zsum_push. unfold child_usage at 2. cbn [fresh_node jn_usage].
  rewrite amount_ZERO. case_decide; lia.
Qed.

Lemma procs_grown t p lim : shape t → procs_ok t → procs_ok (grown p lim t).
Proof.
  intros Hs [Hu Hl Hus Hr]. constructor.
  - unfold pids, grown, push. cbn. rewrite bind_app. cbn. by rewrite app_nil_r.
  - intros id n. rewrite node_grown by done. case_decide; [|eauto]. intros [= <-]. cbn. lia.
  - intros id n e r. rewrite node_grown by done. case_decide; [|eauto]. intros [= <-]. cbn. set_solver.
  - intros id n. rewrite node_grown by done. case_decide; [|eauto]. by intros [= <-].
Qed.

Lemma bounded_grown t p lim : shape t → limits_ok lim → bounded t → bounded (grown p lim t).
Proof.
  intros Hs Hlim Hb id n r. rewrite node_grown by done. case_decide; [|eauto].
  intros [= <-]. cbn [fresh_node jn_usage jn_limits]. rewrite amount_ZERO. specialize (Hlim r). lia.
Qed.

Lemma accounts_grown t p lim : shape t → accounts t no_extra → accounts (grown p lim t) no_extra.
Proof.
  intros Hs Ha id n Hn r. rewrite child_sum_grown. rewrite node_grown in Hn by done.
  case_decide as Hid; [|by apply Ha]. injection Hn as <-. unfold own. cbn [fresh_node jn_usage jn_processes].
  rewrite amount_ZERO, zsum_nil. unfold no_extra. unfold child_sum. rewrite zsum_0; [lia|].
  intros m Hm. unfold child_usage. case_decide as Hp; [|done].
  destruct (sh_parents t Hs m id Hm Hp) as [_ [x Hx]]. subst id.
  by rewrite fresh_not_node in Hx.
Qed.

Lemma ids_grown t p lim : shape t → ids_ok (grown p lim t).
Proof.
  intros Hs i n. cbn. unfold push. intros [Hi|[Hlen Hi]]%lookup_app_Some; [by apply Hs|].
  apply list_lookup_singleton_Some in Hi as [Hi <-]. cbn. rewrite (sh_next t Hs). lia.
Qed.

Lemma inv_grown_root t lim : inv t → jobs t = [] → limits_ok lim → inv (grown None lim t).
Proof.
  intros [Hs Hp Hb Ha] Hempty Hlim. split; [|by apply procs_grown|by apply bounded_grown|by apply accounts_grown].
  pose proof (sh_next t Hs) as Hnext. rewrite Hempty in Hnext. cbn in Hnext.
  assert (∀ id n, node (grown None lim t) id = Some n → id = 1 ∧ n = fresh_node 1 None lim) as Hn.
  { intros id n. rewrite node_grown by done. case_decide as H; [intros [= <-]; subst id; by rewrite Hnext|].
    intros Hx%node_bound. rewrite Hempty in Hx. cbn in Hx. lia. }
  constructor.
  - by apply ids_grown.
  - cbn. rewrite Hempty, Hnext. done.
  - cbn. rewrite Hempty. cbn. unfold MAX_CONTAINMENT_JOBS. lia.
  - intros m p Hm Hmp. apply elem_node in Hm; [|by apply ids_grown]. by apply Hn in Hm as [_ ->].
  - intros id n p [_ ->]%Hn. done.
  - intros id n c [_ ->]%Hn. cbn. set_solver.
  - intros id n [_ ->]%Hn. cbn. split; [constructor|lia].
  - by intros id n [-> _]%Hn.
  - by intros n [_ ->]%Hn.
Qed.

Lemma node_grown_child t p lim id pn : shape t → node t p = Some pn →
  node (grown_child p lim t) id =
    if decide (id = next_job_id t) then Some (fresh_node id (Some p) lim)
    else if decide (id = p) then Some (add_child (next_job_id t) pn) else node t id.
Proof.
  intros Hs Hp. assert (p ≠ next_job_id t) as Hne.
  { intros ->. by rewrite fresh_not_node in Hp. }
  unfold grown_child. rewrite (node_update_id _ p pn) by (rewrite node_grown by done; by rewrite decide_False).
  destruct (decide (id = p)) as [->|]; [by rewrite decide_False|]. by apply node_grown.
Qed.

(** Old jobs keep their skeleton, except that [p] gets one more child. *)
Definition extends (t : ContainmentTree) (p id : JobId) (n n' : JobNode) : Prop :=
  jn_parent n' = jn_parent n ∧ jn_retired n' = jn_retired n ∧
  jn_children n' = jn_children n ++ (if decide (id = p) then [next_job_id t] else []).

Lemma grown_child_cases t p lim pn id n' : shape t → node t p = Some pn →
  node (grown_child p lim t) id = Some n' →
  (id = next_job_id t ∧ n' = fresh_node id (Some p) lim) ∨
  (id ≠ next_job_id t ∧ ∃ n, node t id = Some n ∧ extends t p id n n').
Proof.
  intros Hs Hp. rewrite (node_grown_child t p lim id pn) by done. unfold extends.
  destruct (decide (id = next_job_id t)) as [->|]; [intros [= <-]; by left|].
  destruct (decide (id = p)) as [->|]; intros H; right; split; try done.
  - injection H as <-. by exists pn.
  - exists n'. by rewrite app_nil_r.
Qed.

Lemma grown_child_old t p lim pn id n : shape t → node t p = Some pn →
  node t id = Some n → ∃ n', node (grown_child p lim t) id = Some n' ∧ extends t p id n n'.
Proof.
  intros Hs Hp Hn. rewrite (node_grown_child t p lim id pn) by done.
  rewrite decide_False by (intros ->; by rewrite fresh_not_node in Hn). unfold extends.
  destruct (decide (id = p)) as [->|]; eexists; (split; [done|]).
  - by assert (n = pn) as -> by congruence.
  - by rewrite app_nil_r.
Qed.

Lemma parents_grown_child t p lim pn : shape t → node t p = Some pn →
  parents_ok (grown_child p lim t).
Proof.
  intros Hs Hp m q Hm Hq.
  assert (ids_ok (grown_child p lim t)) as Hids by (apply ids_ok_update; [done|by apply ids_grown]).
  apply elem_node in Hm; [|done].
  apply (grown_child_cases t p lim pn) in Hm as [[Hid Hm]|(Hid & n & Hn & Hpar & _)]; [..|done|done].
  - rewrite Hm in Hq. injection Hq as <-. pose proof (node_bound _ _ _ Hp).
    destruct (grown_child_old t p lim pn p pn) as (? & ? & _); [done..|].
    split; [|by eauto]. rewrite Hid, (sh_next t Hs). lia.
  - destruct (sh_parents t Hs n q) as [Hlt [x Hx]]; [by eapply node_elem|congruence|].
    destruct (grown_child_old t p lim pn q x) as (? & ? & _); [done..|].
    rewrite (node_id t _ _ (sh_ids t Hs) Hn) in Hlt. eauto.
Qed.

Lemma shape_grown_child t p lim pn : shape t → node t p = Some pn → jn_retired pn = false →
  (length (jobs t) < MAX_CONTAINMENT_JOBS)%nat →
  (length (jn_children pn) < MAX_CHILDREN_PER_JOB)%nat →
  shape (grown_child p lim t).
Proof.
  intros Hs Hp Hlive Hlen Hroom. pose proof (fresh_not_node t Hs) as Hfresh.
  assert (∀ id n, node t id = Some n → next_job_id t ∉ jn_children n) as Hnew.
  { intros id n Hn Hin. destruct (sh_children t Hs id n _ Hn Hin) as (? & ? & _). congruence. }
  constructor.
  - apply ids_ok_update; [done|by apply ids_grown].
  - cbn. rewrite length_alter. unfold push. rewrite length_app. cbn. rewrite (sh_next t Hs). lia.
  - cbn. rewrite length_alter. unfold push. rewrite length_app. cbn. lia.
  - by eapply parents_grown_child.
  - intros id n' q [[-> ->]|(Hid & n & Hn & Hpar & Hr & _)]%(grown_child_cases t p lim pn) Hq; [..|done|done].
    + injection Hq as <-. destruct (grown_child_old t p lim pn p pn) as (x & ? & ? & ? & Hc); [done..|].
      split; [done|]. exists x. split_and!; [done|congruence|]. rewrite Hc, decide_True by done. set_solver.
    + destruct (sh_parent t Hs id n q) as (? & y & Hy & ? & ?); [done|congruence|].
      destruct (grown_child_old t p lim pn q y) as (x & ? & ? & ? & Hc); [done..|].
      split; [congruence|]. exists x. split_and!; [done|congruence|]. rewrite Hc. set_solver.
  - intros id n' c [[-> ->]|(Hid & n & Hn & Hpar & Hr & Hc)]%(grown_child_cases t p lim pn) Hin; [..|done|done].
    { cbn in Hin. set_solver. }
    rewrite Hc in Hin. apply elem_of_app in Hin as [Hin|Hin].
    + destruct (sh_children t Hs id n c) as (m & Hm & Hmp); [done..|].
      destruct (grown_child_old t p lim pn c m) as (x & ? & ? & _); [done..|]. exists x. split; [done|congruence].
    + destruct (decide (id = p)) as [->|]; [|set_solver].
      apply list_elem_of_singleton in Hin as ->. rewrite (node_grown_child t p lim _ pn) by done.
      rewrite decide_True by done. by eexists.
  - intros id n' [[-> ->]|(Hid & n & Hn & Hpar & Hr & Hc)]%(grown_child_cases t p lim pn); [..|done|done].
    { cbn. split; [constructor|lia]. }
    destruct (sh_child_limit t Hs id n Hn) as [Hnd Hl]. rewrite Hc.
    destruct (decide (id = p)) as [->|]; [|by rewrite app_nil_r].
    assert (n = pn) as -> by congruence. rewrite length_app. split; [|cbn; lia].
    apply NoDup_app. split_and!; [done| |apply NoDup_singleton].
    intros x Hx ->%list_elem_of_singleton. by eapply Hnew.
  - intros id n' [[-> ->]|(Hid & n & Hn & Hpar & Hr & Hc)]%(grown_child_cases t p lim pn); [..|done|done]; [done|].
    intros ? ?. eapply (sh_root t Hs id n); congruence.
  - intros n' [[Hk _]|(Hid & n & Hn & Hpar & Hr & Hc)]%(grown_child_cases t p lim pn); [..|done|done].
    { pose proof (node_bound _ _ _ Hp). rewrite (sh_next t Hs) in Hk. lia. }
    rewrite Hpar, Hr. by apply (sh_first t Hs).
Qed.

Lemma inv_grown_child t p lim pn : inv t → limits_ok lim → node t p = Some pn →
  jn_retired pn = false → (length (jobs t) < MAX_CONTAINMENT_JOBS)%nat →
  (length (jn_children pn) < MAX_CHILDREN_PER_JOB)%nat → inv (grown_child p lim t).
Proof.
  intros [Hs Hp Hb Ha] Hlim Hn Hr Hlen Hroom.
  assert (node (grown (Some p) lim t) p = Some pn) as Hn'.
  { rewrite node_grown by done. rewrite decide_False; [done|]. intros ->.
    by rewrite fresh_not_node in Hn. }
  pose proof (procs_grown t (Some p) lim Hs Hp) as Hp'. split.
  - by eapply shape_grown_child.
  - apply (procs_update _ p pn); [done..| | | |].
    + intros ?. congruence.
    + by apply (pr_limit _ Hp' p pn).
    + intros e r. by apply (pr_usage _ Hp' p pn).
    + destruct (pids_update _ p pn (add_child (next_job_id t)) Hn') as (rest & H1 & H2).
      rewrite H2. cbn. rewrite <- H1. apply Hp'.
  - by eapply bounded_update; [apply bounded_grown|..].
  - eapply accounts_ext; [|eapply (accounts_set_processes _ _ p pn); [done..|by apply accounts_grown]].
    intros k r. unfold bump, no_extra, own. cbn [add_child set_jn_children jn_processes]. case_decide; lia.
Qed.

Lemma create_node_eq t p lim : shape t →
  create_node p lim t =
    (if bool_decide (MAX_CONTAINMENT_JOBS ≤ length (jobs t))%nat then (Err JobLimit, t)
     else (Ok (next_job_id t), grown p lim t)).
Proof.
  intros Hs. pose proof (sh_next t Hs) as Hnext. pose proof (sh_limit t Hs) as Hlim.
  unfold MAX_CONTAINMENT_JOBS in Hlim.
  unfold create_node, mbind, M_bind, get, lift, err_if, job_id_from_raw, checked_add, u64_max.
  destruct (bool_decide _); [done|]. cbn.
  destruct (Z.eqb_spec (next_job_id t) 0); [lia|]. cbn.
  rewrite (proj2 (Z.leb_le _ _)) by lia. done.
Qed.

Lemma create_root_spec t lim : inv t → limits_ok lim →
  wp (create_root lim)
    (λ id t', inv t' ∧ jobs t = [] ∧ id = next_job_id t ∧ t' = grown None lim t)
    (λ _ t', t' = t) t.
Proof.
  intros Hi Hlim. unfold create_root. wp_steps; [done|]. bool_simpl.
  assert (jobs t = []) as He by by apply nil_length_inv.
  unfold wp. rewrite create_node_eq by apply (inv_shape Hi). case_bool_decide; [done|].
  split_and!; try done. by apply inv_grown_root.
Qed.

Lemma create_child_spec t p lim : inv t → limits_ok lim →
  wp (create_child p lim)
    (λ id t', inv t' ∧ id = next_job_id t ∧ t' = grown_child p lim t ∧
       ∃ pn, node t p = Some pn ∧ jn_retired pn = false)
    (λ _ t', t' = t) t.
Proof.
  intros Hi Hlim. unfold create_child. wp_steps. open_job n Hn; [done..|]. bool_simpl.
  unfold wp at 1. rewrite create_node_eq by apply (inv_shape Hi). case_bool_decide; [done|].
  wp_steps. split_and!; [|done..|by eauto]. eapply inv_grown_child; [done..|lia|lia].
Qed.

Lemma set_limits_spec t job lim : inv t → limits_ok lim →
  wp (set_limits job lim)
    (λ _ t', inv t' ∧ (∃ n, node t job = Some n ∧ jn_retired n = false ∧
         ∀ r, limit r lim ≤ limit r (jn_limits n)) ∧
       t' = update_job (Z.to_nat (job - 1)) (set_jn_limits lim) t)
    (λ _ t', t' = t) t.
Proof.
  intros Hi Hlim. unfold set_limits. wp_steps. open_job n Hn; [done..|]. bool_simpl.
  rewrite no_relaxation_true in H0. rewrite allows_true in H1.
  destruct Hi as [Hs Hp Hb Ha]. split_and!; [|by eauto|done]. split.
  - by eapply shape_update.
  - apply (procs_update t job n); [done..| | | |].
    + intros ?. congruence.
    + by apply (pr_limit t Hp job n).
    + intros e r. by apply (pr_usage t Hp job n).
    + destruct (pids_update t job n (set_jn_limits lim) Hn) as (rest & H2 & H3).
      rewrite H3. cbn. rewrite <- H2. apply Hp.
  - intros id m r. rewrite (node_update_id t job n) by done. case_decide; [|apply Hb].
    intros [= <-]. cbn. specialize (H1 r). specialize (Hlim r). pose proof (Hb job n r Hn). lia.
  - eapply accounts_ext; [|eapply (accounts_set_processes _ _ job n); [done..|exact Ha]].
    intros k r. unfold bump, no_extra, own. cbn [set_jn_limits jn_processes]. case_decide; lia.
Qed.

(** ** Terminating a subtree *)

(** [D] is the set of jobs at or below [root]. *)
Record subtree (t : ContainmentTree) (root : JobId) (D : list JobId) : Prop := {
  st_unique : NoDup D;
  st_nodes : ∀ k, k ∈ D → is_Some (node t k);
  st_root : root ∈ D;
  st_above : ∀ k, k ∈ D → root ≤ k;
  st_parent : ∀ k n, k ∈ D → node t k = Some n → k = root ∨ ∃ p, jn_parent n = Some p ∧ p ∈ D;
  st_closed : ∀ k n c, k ∈ D → node t k = Some n → c ∈ jn_children n → c ∈ D;
}.

Lemma child_lt t id n c : shape t → node t id = Some n → c ∈ jn_children n →
  id < c ∧ ∃ m, node t c = Some m ∧ jn_parent m = Some id.
Proof.
  intros Hs Hn Hc. destruct (sh_children t Hs id n c Hn Hc) as (m & Hm & Hp).
  destruct (sh_parents t Hs m id) as [Hlt _]; [by eapply node_elem|done|].
  rewrite (node_id t c m (sh_ids t Hs) Hm) in Hlt. eauto.
Qed.

Lemma last_split {A} (l : list A) (x : A) : last l = Some x →
  l = take (length l - 1) l ++ [x].
Proof.
  intros [l' ->]%last_Some. rewrite length_app. cbn.
  replace (length l' + 1 - 1)%nat with (length l') by lia. by rewrite take_app_length.
Qed.

Record subtree_loop_inv (t : ContainmentTree) (root : JobId) (result pending : list JobId)
    : Prop := {
  sl_unique : NoDup (result ++ pending);
  sl_nodes : ∀ k, k ∈ result ++ pending → is_Some (node t k);
  sl_root : root ∈ result ++ pending;
  sl_above : ∀ k, k ∈ result ++ pending → root ≤ k;
  sl_parent : ∀ k n, k ∈ result ++ pending → node t k = Some n →
    k = root ∨ ∃ p, jn_parent n = Some p ∧ p ∈ result;
  sl_closed : ∀ k n c, k ∈ result → node t k = Some n → c ∈ jn_children n →
    c ∈ result ++ pending;
}.

Lemma subtree_loop_step t root result rest job n :
  shape t → node t job = Some n → subtree_loop_inv t root result (rest ++ [job]) →
  subtree_loop_inv t root (push result job) (rest ++ jn_children n).
Proof.
  intros Hs Hn [Hu Hns Hr Hab Hpar Hcl]. unfold push.
  assert ((result ++ [job]) ++ rest ++ jn_children n ≡ₚ (result ++ rest ++ [job]) ++ jn_children n)
    as Hperm by solve_Permutation.
  assert (∀ c, c ∈ jn_children n → c ∉ result ++ rest ++ [job]) as Hnew.
  { intros c Hc Hin. destruct (child_lt t job n c Hs Hn Hc) as (Hlt & m & Hm & Hmp).
    destruct (Hpar c m Hin Hm) as [->|(p & Hp & Hpr)].
    - specialize (Hab job). rewrite !elem_of_app, list_elem_of_singleton in Hab.
      specialize (Hab (or_intror (or_intror eq_refl))). lia.
    - assert (p = job) as -> by congruence. apply NoDup_app in Hu as (_ & Hdis & _).
      apply (Hdis job Hpr). set_solver. }
  constructor.
  - rewrite Hperm. apply NoDup_app. split_and!; [done| |by eapply sh_child_limit].
    intros x Hx Hx'. by apply (Hnew x).
  - intros k. rewrite Hperm, elem_of_app. intros [?|Hc]; [auto|].
    destruct (child_lt t job n k Hs Hn Hc) as (_ & m & ? & _). eauto.
  - rewrite Hperm. set_solver.
  - intros k. rewrite Hperm, elem_of_app. intros [?|Hc]; [auto|].
    destruct (child_lt t job n k Hs Hn Hc) as (? & _). specialize (Hab job).
    rewrite !elem_of_app, list_elem_of_singleton in Hab. specialize (Hab (or_intror (or_intror eq_refl))). lia.
  - intros k m. rewrite Hperm, elem_of_app. intros [Hk|Hc] Hm.
    + destruct (Hpar k m Hk Hm) as [?|(p & ? & ?)]; [by left|right]. exists p. set_solver.
    + right. exists job. destruct (child_lt t job n k Hs Hn Hc) as (_ & m' & ? & ?).
      split; [congruence|set_solver].
  - intros k m c. rewrite Hperm, elem_of_app, list_elem_of_singleton.
    intros [Hk| ->] Hm Hc; rewrite elem_of_app.
    + left. by eapply Hcl.
    + right. by assert (m = n) as -> by congruence.
Qed.

Lemma collect_subtree_loop_spec t root fuel result pending :
  shape t → subtree_loop_inv t root result pending →
  (length (jobs t) < fuel + length result)%nat →
  ∃ D, collect_subtree_loop fuel t result pending = Ok D ∧ subtree t root D.
Proof.
  intros Hs. revert result pending.
  assert (∀ result pending, last pending = None → subtree_loop_inv t root result pending →
    subtree t root result) as Hdone.
  { intros result pending ->%last_None [Hu Hns Hr Hab Hpar Hcl]. rewrite app_nil_r in *. by split. }
  induction fuel as [|fuel IH]; intros result pending Hi Hlen; cbn [collect_subtree_loop];
    (destruct (last pending) as [job|] eqn:Hlast; [|by exists result; eauto]).
  - pose proof (nodes_length t _ (sl_unique _ _ _ _ Hi) (sl_nodes _ _ _ _ Hi)) as H.
    rewrite length_app in H. lia.
  - apply last_split in Hlast. rewrite Hlast in Hi at 1.
    destruct (sl_nodes _ _ _ _ Hi job) as [n Hn]; [set_solver|].
    rewrite job_ref_eq, Hn by apply Hs. cbn. apply IH.
    + by apply subtree_loop_step.
    + unfold push. rewrite length_app. cbn. lia.
Qed.

Lemma collect_subtree_spec t root : shape t → is_Some (node t root) →
  ∃ D, collect_subtree t root = Ok D ∧ subtree t root D.
Proof.
  intros Hs Hn. apply collect_subtree_loop_spec; [done| |unfold chain_fuel; cbn; lia].
  constructor; cbn; try setoid_rewrite list_elem_of_singleton.
  - apply NoDup_singleton.
  - by intros k ->.
  - done.
  - lia.
  - intros k n -> _. by left.
  - set_solver.
Qed.

(** Everything about a job but its usage counter. *)
Definition frame (n : JobNode) : JobNode := set_jn_usage ZERO n.

Definition emptied (J : list JobId) (n : JobNode) : JobNode :=
  if decide (jn_id n ∈ J) then set_jn_processes [] n else n.

Lemma emptied_nil n : emptied [] n = n.
Proof. unfold emptied. by rewrite decide_False by set_solver. Qed.

(** [t'] is [t] with the jobs [J] emptied, usage counters aside. *)
Definition emptied_tree (J : list JobId) (t t' : ContainmentTree) : Prop :=
  ∀ id, frame <$> node t' id = (λ n, frame (emptied J n)) <$> node t id.

Lemma uncharge_all t job l res : is_Some (node t job) → path t (Some job) l →
  (∀ e r, e ∈ res → 0 ≤ amount r (rv_usage e)) →
  inv_upto (bump (Some job) (λ r, zsum (λ e, amount r (rv_usage e)) res) no_extra) t →
  wp (for_each res (λ e, apply_chain_delta job (rv_usage e) false))
    (λ _ t', inv t' ∧ emptied_tree [] t t' ∧ pids t' = pids t) (λ _ _, False) t.
Proof.
  revert t. induction res as [|e res IH]; intros t [n Hn] Hp Hnn Hi; cbn [for_each]; wp_steps.
  - split_and!; [by eapply inv_settled| |done]. intros id. by destruct (node t id).
  - destruct (uncharge_extra t job n l (rv_usage e)
      (λ r, zsum (λ e, amount r (rv_usage e)) res)) as [Hrun Hi']; [|set_solver|..|done|done|].
    { destruct Hi as [? ? ? Ha]. split; [done..|]. eapply accounts_ext; [|exact Ha]. intros k r.
      unfold bump. cbv beta. rewrite zsum_cons. case_decide; lia. }
    { intros r. apply zsum_nonneg. set_solver. }
    unfold wp at 1. rewrite Hrun.
    eapply wp_mono; [apply IH|cbv beta|done].
    + rewrite node_charge, Hn. by eexists.
    + by apply path_charge.
    + set_solver.
    + done.
    + intros _ t' (Hinv & Hem & Hpid). rewrite pids_charge in Hpid. split_and!; [done| |done].
      intros id. rewrite (Hem id), node_charge. destruct (node t id) as [m|]; [|done]. cbn. f_equal.
      unfold emptied, charge_node. rewrite !decide_False by (case_decide; cbn; set_solver).
      by case_decide.
Qed.

Lemma emptied_tree_node J t t' id : emptied_tree J t t' → is_Some (node t id) → is_Some (node t' id).
Proof. intros H [n Hn]. specialize (H id). rewrite Hn in H. by destruct (node t' id). Qed.

Lemma emptied_tree_cons job J t t1 t' n : ids_ok t → node t job = Some n →
  emptied_tree [] (update_job (Z.to_nat (job - 1)) (set_jn_processes []) t) t1 →
  emptied_tree J t1 t' → emptied_tree (job :: J) t t'.
Proof.
  intros Hids Hn H1 H2 id. rewrite (H2 id). specialize (H1 id).
  rewrite (node_update_id t job n) in H1 by done.
  assert (∀ m m1, jn_id m = id → frame m1 = frame (if decide (id = job) then set_jn_processes [] m else m) →
    frame (emptied J m1) = frame (emptied (job :: J) m)) as Hm.
  { intros m m1 Hid Hfr. assert (jn_id m1 = id) as Hid1.
    { change (jn_id m1) with (jn_id (frame m1)). rewrite Hfr. by case_decide. }
    unfold emptied. rewrite Hid, Hid1. destruct (decide (id ∈ job :: J)) as [Hin|Hni].
    - destruct (decide (id ∈ J)).
      + change (frame (set_jn_processes [] m1)) with (set_jn_processes [] (frame m1)). rewrite Hfr.
        by case_decide.
      + rewrite decide_True in Hfr by set_solver. done.
    - rewrite (decide_False (P := id ∈ J)) by set_solver.
      rewrite decide_False in Hfr by set_solver. done. }
  destruct (decide (id = job)) as [->|Hne].
  - rewrite Hn. destruct (node t1 job) as [m1|]; [|done]. cbn [fmap option_fmap option_map] in *. f_equal.
    apply Hm; [by eapply node_id|]. apply (inj Some) in H1.
    by rewrite H1, emptied_nil.
  - destruct (node t id) as [m|] eqn:Hid, (node t1 id) as [m1|]; try done. cbn [fmap option_fmap option_map] in *. f_equal.
    apply Hm; [by eapply node_id|]. apply (inj Some) in H1.
    by rewrite H1, emptied_nil.
Qed.

Lemma release_all_spec J t acc : inv t → (∀ k, k ∈ J → is_Some (node t k)) →
  wp (release_all J acc)
    (λ k t', inv t' ∧ emptied_tree J t t' ∧
             (k + length (pids t') = acc + length (pids t))%nat)
    (λ _ _, False) t.
Proof.
  revert t acc. induction J as [|job J IH]; intros t acc Hi HJ; cbn [release_all]; wp_steps.
  - split_and!; [done| |done]. intros id. by destruct (node t id).
  - pose proof (inv_shape Hi) as Hs. destruct (HJ job) as [n Hn]; [set_solver|].
    open_job n' Hn'; [congruence|]. assert (n' = n) as -> by congruence.
    destruct (path_exists t job Hs) as (l & _ & Hp); [by eauto|].
    set (t1 := update_job (Z.to_nat (job - 1)) (set_jn_processes []) t).
    assert (node t1 job = Some (set_jn_processes [] n)) as Hn1.
    { unfold t1. rewrite (node_update_id t job n) by done. by rewrite decide_True. }
    eapply wp_mono; [apply (uncharge_all t1 job l)|cbv beta|done].
    + by eauto.
    + by eapply path_update.
    + intros e r. by apply (pr_usage t (inv_procs _ _ Hi) job n).
    + eapply inv_drop; [done..|]. by rewrite app_nil_r.
    + intros _ t2 (Hi2 & Hem2 & Hpid2).
      eapply wp_mono; [apply IH; [done|]|cbv beta|done].
      * intros k Hk. eapply emptied_tree_node; [exact Hem2|]. unfold t1.
        rewrite (node_update_id t job n) by done. case_decide; [done|]. apply HJ. set_solver.
      * intros k t' (Hi' & Hem' & Hcount). split_and!; [done|by eapply emptied_tree_cons; [apply Hs|..]|].
        destruct (pids_update t job n (set_jn_processes []) Hn) as (rest & Hb & Ha).
        apply Permutation_length in Ha, Hb. fold t1 in Ha. rewrite <- Hpid2 in Ha.
        rewrite length_app, length_fmap in Ha, Hb. cbn in Ha. lia.
Qed.

(** After the release the jobs of the subtree hold nothing. *)
Lemma subtree_drained t root D : inv t → subtree t root D →
  (∀ k n, k ∈ D → node t k = Some n → jn_processes n = []) →
  ∀ k n r, k ∈ D → node t k = Some n → amount r (jn_usage n) = 0.
Proof.
  intros Hi Hst Hem k.
  induction (Z.gt_wf (Z.of_nat (length (jobs t))) k) as [k _ IH]. intros n r Hk Hn.
  rewrite (inv_accounts _ _ Hi k n Hn). unfold own. rewrite (Hem k n Hk Hn), zsum_nil.
  unfold child_sum, no_extra. rewrite zsum_0; [lia|]. intros m Hm. unfold child_usage.
  case_decide as Hp; [|done]. pose proof (inv_shape Hi) as Hs.
  apply (elem_node t) in Hm; [|apply Hs].
  destruct (sh_parent t Hs _ m k Hm Hp) as (_ & pn & Hpn & _ & Hin).
  assert (pn = n) as -> by congruence. pose proof (node_bound _ _ _ Hm).
  destruct (child_lt t k n (jn_id m) Hs Hn Hin) as [Hlt _].
  apply (IH (jn_id m)); [lia| |done]. by eapply st_closed.
Qed.

Lemma node_map f t id : node (map_jobs f t) id = f <$> node t id.
Proof. unfold node, map_jobs. cbn. case_decide; [|done]. apply list_lookup_fmap. Qed.

Lemma map_map g f t : map_jobs g (map_jobs f t) = map_jobs (λ n, g (f n)) t.
Proof. unfold map_jobs, set_jobs. cbn. f_equal. by rewrite <- list_fmap_compose. Qed.

Lemma map_ext g f t : (∀ n, n ∈ jobs t → g n = f n) → map_jobs g t = map_jobs f t.
Proof.
  intros H. unfold map_jobs. f_equal. apply list_fmap_ext. intros i n Hi.
  apply H. by eapply list_elem_of_lookup_2.
Qed.

Lemma ids_map f t : (∀ n, jn_id (f n) = jn_id n) → ids_ok t → ids_ok (map_jobs f t).
Proof.
  intros Hf Hids i n. cbn. rewrite list_lookup_fmap. intros (m & Hm & ->)%fmap_Some.
  rewrite Hf. by apply Hids.
Qed.

Lemma update_is_map t k f : ids_ok t → 1 ≤ k →
  update_job (Z.to_nat (k - 1)) f t = map_jobs (λ n, if decide (jn_id n = k) then f n else n) t.
Proof.
  intros Hids Hk. unfold update_job, map_jobs. f_equal. apply list_eq. intros i.
  rewrite list_lookup_fmap. destruct (decide (i = Z.to_nat (k - 1))) as [->|Hne].
  - rewrite list_lookup_alter_eq. destruct (jobs t !! _) as [n|] eqn:E; [|done]. cbn.
    rewrite decide_True; [done|]. rewrite (Hids _ _ E). lia.
  - rewrite list_lookup_alter_ne by done. destruct (jobs t !! i) as [n|] eqn:E; [|done]. cbn.
    rewrite decide_False; [done|]. rewrite (Hids _ _ E). lia.
Qed.

Definition retire_in (D : list JobId) (n : JobNode) : JobNode :=
  if decide (jn_id n ∈ D) then retire_node n else n.

Lemma retire_jobs_eq D t : ids_ok t → (∀ k, k ∈ D → is_Some (node t k)) →
  for_each D retire_job t = (Ok (), map_jobs (retire_in D) t).
Proof.
  revert t. induction D as [|k D IH]; intros t Hids HD; cbn [for_each].
  - unfold mret, M_ret. f_equal. destruct t as [nx js]. unfold map_jobs, set_jobs. cbn. f_equal.
    rewrite <- (list_fmap_id js) at 1. apply list_fmap_ext. intros i n _.
    unfold retire_in. by rewrite decide_False by set_solver.
  - destruct (HD k) as [n Hn]; [set_solver|]. unfold mbind, M_bind at 1. unfold retire_job.
    unfold mbind, M_bind, reads. rewrite node_index, Hn by done. unfold modify.
    assert (1 ≤ k) by (apply node_bound in Hn; lia). rewrite update_is_map by done. rewrite IH.
    + f_equal. rewrite map_map. apply map_ext. intros m _. unfold retire_in.
      destruct (decide (jn_id m = k)) as [Hmk|].
      * rewrite (decide_True (P := jn_id m ∈ k :: D)) by set_solver. by case_decide.
      * destruct (decide (jn_id m ∈ D)); [rewrite decide_True by set_solver|rewrite decide_False by set_solver]; done.
    + apply ids_map; [|done]. intros m. by case_decide.
    + intros j Hj. rewrite node_map. destruct (HD j) as [m Hm]; [set_solver|]. rewrite Hm. by eexists.
Qed.

(** What the second loop does to each job: the subtree is retired, its parent
    forgets the root. *)
Definition detach (D : list JobId) (root p : JobId) (n : JobNode) : JobNode :=
  retire_in D (if decide (jn_id n = p)
               then set_jn_children (filter (λ c, c ≠ root) (jn_children n)) n else n).

Section detach.
Context (t : ContainmentTree) (root p : JobId) (D : list JobId) (rn : JobNode).
Hypothesis Hi : inv t.
Hypothesis Hst : subtree t root D.
Hypothesis Hroot : node t root = Some rn.
Hypothesis Hparent : jn_parent rn = Some p.

Lemma detach_parent_lt : p < root.
Proof using Hi Hroot Hparent.
  pose proof (inv_shape Hi) as Hs. destruct (sh_parents t Hs rn p) as [Hlt _]; [by eapply node_elem|done|].
  by rewrite (node_id t root rn (sh_ids t Hs) Hroot) in Hlt.
Qed.

Lemma detach_cases id n' : node (map_jobs (detach D root p) t) id = Some n' →
  ∃ n, node t id = Some n ∧ jn_usage n' = jn_usage n ∧ jn_limits n' = jn_limits n ∧
    jn_processes n' = jn_processes n ∧
    ((id ∈ D ∧ n' = retire_node n) ∨
     (id ∉ D ∧ jn_parent n' = jn_parent n ∧ jn_retired n' = jn_retired n ∧
      jn_children n' = filter (λ c, id = p → c ≠ root) (jn_children n))).
Proof using Hi Hst Hroot Hparent.
  pose proof (inv_shape Hi) as Hs. pose proof detach_parent_lt as Hlt.
  rewrite node_map. intros (n & Hn & ->)%fmap_Some. exists n. split; [done|].
  unfold detach, retire_in. rewrite (node_id t id n (sh_ids t Hs) Hn).
  destruct (decide (id = p)) as [->|Hne]; cbn [set_jn_children jn_id];
    rewrite (node_id t _ n (sh_ids t Hs) Hn); case_decide as HD; split_and!; try done.
  - pose proof (st_above _ _ _ Hst p HD). lia.
  - right. split_and!; try done. cbn. apply list_filter_iff. naive_solver.
  - by left.
  - right. split_and!; try done. symmetry. apply filter_all. by intros c _ ?.
Qed.

Lemma detach_old id n : node t id = Some n → ∃ n', node (map_jobs (detach D root p) t) id = Some n'.
Proof using. intros Hn. rewrite node_map, Hn. by eexists. Qed.

Lemma detach_ids : ids_ok (map_jobs (detach D root p) t).
Proof using Hi.
  apply ids_map; [|apply Hi]. intros n. unfold detach, retire_in. by repeat case_decide.
Qed.

Lemma detach_kept id n : node t id = Some n → id ∉ D →
  ∃ n', node (map_jobs (detach D root p) t) id = Some n' ∧ jn_parent n' = jn_parent n ∧
    jn_retired n' = jn_retired n ∧ jn_children n' = filter (λ c, id = p → c ≠ root) (jn_children n).
Proof using Hi Hst Hroot Hparent.
  intros Hn HD. destruct (detach_old id n Hn) as [n' Hn'].
  destruct (detach_cases id n' Hn') as (m & Hm & _ & _ & _ & [[? _]|(_ & ? & ? & ?)]); [done|].
  assert (m = n) as -> by congruence. eauto.
Qed.

Lemma shape_detach : shape (map_jobs (detach D root p) t).
Proof using Hi Hst Hroot Hparent.
  pose proof (inv_shape Hi) as Hs. pose proof detach_parent_lt as Hlt. constructor.
  - apply detach_ids.
  - cbn. rewrite length_fmap. apply Hs.
  - cbn. rewrite length_fmap. apply Hs.
  - intros m q Hm Hq. apply elem_node in Hm; [|apply detach_ids].
    apply detach_cases in Hm as (n & Hn & _ & _ & _ & [[_ ->]|(_ & Hp & _)]); [done|].
    destruct (sh_parents t Hs n q) as [Hlt' [x Hx]]; [by eapply node_elem|congruence|].
    rewrite (node_id t _ n (sh_ids t Hs) Hn) in Hlt'. split; [done|].
    destruct (detach_old q x Hx); eauto.
  - intros id n' q (n & Hn & _ & _ & _ & [[_ ->]|(HD & Hp & Hr & Hc)])%detach_cases Hq; [done|].
    destruct (sh_parent t Hs id n q) as (Hret & pn & Hpn & Hpr & Hin); [done|congruence|].
    assert (q ∉ D) as Hq'. { intros Hq'. apply HD. by eapply (st_closed _ _ _ Hst q). }
    destruct (detach_kept q pn Hpn Hq') as (x & Hx & _ & Hxr & Hxc).
    split; [congruence|]. exists x. split_and!; [done|congruence|]. rewrite Hxc, list_elem_of_filter.
    split; [|done]. intros _ ->. apply HD, (st_root _ _ _ Hst).
  - intros id n' c (n & Hn & _ & _ & _ & [[_ ->]|(HD & Hp & Hr & Hc)])%detach_cases Hin; [by apply elem_of_nil in Hin|].
    rewrite Hc, list_elem_of_filter in Hin. destruct Hin as [Hne Hin].
    destruct (sh_children t Hs id n c Hn Hin) as (m & Hm & Hmp).
    destruct (detach_kept c m Hm) as (x & Hx & Hxp & _).
    { intros HcD. destruct (st_parent _ _ _ Hst c m HcD Hm) as [->|(q & Hq & HqD)].
      - apply Hne; congruence.
      - apply HD. congruence. }
    exists x. split; [done|congruence].
  - intros id n' (n & Hn & _ & _ & _ & [[_ ->]|(HD & Hp & Hr & Hc)])%detach_cases.
    { cbn. split; [constructor|lia]. }
    destruct (sh_child_limit t Hs id n Hn). rewrite Hc. split; [by apply NoDup_filter|].
    etransitivity; [apply length_filter|done].
  - intros id n' (n & Hn & _ & _ & _ & [[_ ->]|(HD & Hp & Hr & Hc)])%detach_cases ??; [done|].
    eapply (sh_root t Hs id n); congruence.
  - intros n' (n & Hn & _ & _ & _ & [[HD ->]|(HD & Hp & Hr & Hc)])%detach_cases.
    + pose proof (st_above _ _ _ Hst _ HD). apply (sh_parents t Hs) in Hparent as [_ [x Hx%node_bound]];
        [lia|by eapply node_elem].
    + rewrite Hp, Hr. by apply (sh_first t Hs).
Qed.

Hypothesis Hdrained : ∀ k n, k ∈ D → node t k = Some n → jn_processes n = [].

Lemma inv_detach : inv (map_jobs (detach D root p) t).
Proof using Hi Hst Hroot Hparent Hdrained.
  pose proof (subtree_drained t root D Hi Hst Hdrained) as Hzero.
  destruct Hi as [Hs [Hu Hl Hus Hr] Hb Ha]. split; [apply shape_detach|split|..].
  - rewrite pids_map; [done|]. intros n. unfold detach, retire_in. by repeat case_decide.
  - intros id n' (n & Hn & _ & _ & -> & _)%detach_cases. eauto.
  - intros id n' e r (n & Hn & _ & _ & -> & _)%detach_cases. eauto.
  - intros id n' (n & Hn & _ & _ & -> & [[HD _]|(_ & _ & -> & _)])%detach_cases; eauto.
  - intros id n' r (n & Hn & -> & -> & _)%detach_cases. by apply (Hb id n r).
  - intros id n' (n & Hn & Hus' & _ & Hpr & _)%detach_cases r. rewrite Hus', (Ha id n Hn).
    unfold own. rewrite Hpr. do 2 f_equal. unfold child_sum, map_jobs. cbn. rewrite zsum_fmap.
    apply zsum_ext. intros m Hm. apply (elem_node t) in Hm; [|apply Hs]. unfold child_usage, detach, retire_in.
    assert (jn_id (if decide (jn_id m = p) then set_jn_children (filter (λ c, c ≠ root) (jn_children m)) m
      else m) = jn_id m) as -> by by case_decide.
    destruct (decide (jn_id m ∈ D)) as [HD|]; [|by repeat case_decide].
    rewrite (Hzero (jn_id m) m r HD Hm). by case_decide.
Qed.
End detach.

Lemma elem_of_rev {A} (x : A) (l : list A) : x ∈ rev l ↔ x ∈ l.
Proof. by rewrite !list_elem_of_In, <- in_rev. Qed.

Lemma emptied_tree_cases J t t' id n' : ids_ok t → emptied_tree J t t' → node t' id = Some n' →
  ∃ n, node t id = Some n ∧ skeleton n' = skeleton n ∧ jn_limits n' = jn_limits n ∧
    jn_processes n' = if decide (id ∈ J) then [] else jn_processes n.
Proof.
  intros Hids He Hn'. specialize (He id). rewrite Hn' in He.
  destruct (node t id) as [n|] eqn:Hn; [|done]. apply (inj Some) in He. exists n. split; [done|].
  unfold emptied in He. rewrite (node_id t id n Hids Hn) in He.
  assert (∀ A (g : JobNode → A), g (frame n') = g (frame (if decide (id ∈ J) then set_jn_processes [] n else n)))
    as Hg by (intros; congruence).
  pose proof (Hg _ skeleton) as H1. pose proof (Hg _ jn_limits) as H2. pose proof (Hg _ jn_processes) as H3.
  change (skeleton (frame n')) with (skeleton n') in H1. cbn in H2, H3.
  destruct (decide (id ∈ J)); done.
Qed.

Lemma subtree_ext t t' root D :
  (∀ id, skeleton <$> node t' id = skeleton <$> node t id) → subtree t root D → subtree t' root D.
Proof.
  intros Hx [Hu Hn Hr Hab Hp Hc].
  assert (∀ id n', node t' id = Some n' → ∃ n, node t id = Some n ∧ skeleton n' = skeleton n) as H1.
  { intros id n' H. specialize (Hx id). rewrite H in Hx. destruct (node t id) as [n|]; [|done].
    apply (inj Some) in Hx. by exists n. }
  split; try done.
  - intros k Hk. destruct (Hn k Hk) as [n Hkn]. specialize (Hx k). rewrite Hkn in Hx.
    by destruct (node t' k).
  - intros k n' Hk (n & Hkn & [= _ Hpar _ _])%H1. rewrite Hpar. eauto.
  - intros k n' c Hk (n & Hkn & [= _ _ Hch _])%H1. rewrite Hch. eauto.
Qed.

Lemma emptied_tree_skeleton J t t' : emptied_tree J t t' →
  ∀ id, skeleton <$> node t' id = skeleton <$> node t id.
Proof.
  intros He id. specialize (He id).
  destruct (node t id) as [n|], (node t' id) as [n'|]; try done. cbn. f_equal.
  apply (inj Some) in He. change (skeleton n') with (skeleton (frame n')). rewrite He.
  unfold emptied. by case_decide.
Qed.

(** What [terminate_subtree] does to job [id]. *)
Definition terminated (D : list JobId) (id : JobId) (n n' : JobNode) : Prop :=
  jn_limits n' = jn_limits n ∧
  if decide (id ∈ D)
  then jn_retired n' = true ∧ jn_processes n' = [] ∧ jn_parent n' = None ∧
       jn_children n' = [] ∧ jn_usage n' = ZERO
  else jn_retired n' = jn_retired n ∧ jn_processes n' = jn_processes n ∧ jn_parent n' = jn_parent n.

Lemma detach_terminated t t2 root p D rn : inv t → inv t2 → emptied_tree (rev D) t t2 →
  subtree t2 root D → node t2 root = Some rn → jn_parent rn = Some p →
  inv (map_jobs (detach D root p) t2) ∧
  ∀ id n, node t id = Some n →
    ∃ n', node (map_jobs (detach D root p) t2) id = Some n' ∧ terminated D id n n'.
Proof.
  intros Hi Hi2 He Hst Hrn Hp. pose proof (sh_ids t (inv_shape Hi)) as Hids.
  assert (∀ k n, k ∈ D → node t2 k = Some n → jn_processes n = []) as Hdr.
  { intros k n Hk Hn. destruct (emptied_tree_cases _ _ _ _ _ Hids He Hn) as (? & ? & _ & _ & Hpr).
    by rewrite decide_True in Hpr by by apply elem_of_rev. }
  split; [by eapply inv_detach|]. intros id n Hn.
  destruct (emptied_tree_node _ _ _ id He) as [m Hm]; [by eauto|].
  destruct (detach_old t2 root p D id m Hm) as [n' Hn']. exists n'. split; [done|].
  destruct (detach_cases t2 root p D rn Hi2 Hst Hrn Hp id n' Hn') as (n2 & Hn2 & Hus & Hlim & Hpr & Hc).
  destruct (emptied_tree_cases _ _ _ _ _ Hids He Hn2) as (x & Hx & [= _ Hpar _ Hret] & Hlim2 & Hpr2).
  assert (x = n) as -> by congruence. split; [congruence|]. destruct (decide (id ∈ D)) as [HD|HD].
  - destruct Hc as [[_ ->]|[? _]]; [|done]. cbn. split_and!; [done|by eapply Hdr|done..|].
    apply usage_ext. intros r. rewrite amount_ZERO. by eapply subtree_drained.
  - destruct Hc as [[? _]|(_ & ? & ? & _)]; [done|].
    rewrite decide_False in Hpr2 by by rewrite elem_of_rev. split_and!; congruence.
Qed.

Lemma terminate_subtree_spec t root : inv t →
  wp (terminate_subtree root)
    (λ k t', inv t' ∧ ∃ D, subtree t root D ∧ (k + length (pids t') = length (pids t))%nat ∧
       ∀ id n, node t id = Some n → ∃ n', node t' id = Some n' ∧ terminated D id n n')
    (λ _ t', t' = t) t.
Proof.
  intros Hi. pose proof (inv_shape Hi) as Hs. unfold terminate_subtree. wp_steps.
  open_job rn Hrn; [done..|]. bool_simpl.
  destruct (jn_parent rn) as [p|] eqn:Hp; [clear H|done].
  destruct (collect_subtree_spec t root Hs) as (D & HD & Hst); [by eauto|]. rewrite HD. wp_steps.
  eapply wp_mono; [apply release_all_spec; [done|]|cbv beta|done].
  { intros k. rewrite elem_of_rev. apply (st_nodes _ _ _ Hst). }
  intros k t2 (Hi2 & He2 & Hcount). wp_steps. pose proof (inv_shape Hi2) as Hs2.
  destruct (emptied_tree_node _ _ _ root He2) as [rn2 Hrn2]; [by eauto|].
  destruct (emptied_tree_cases _ _ _ _ _ (sh_ids t Hs) He2 Hrn2) as (x & Hx & [= _ Hp2 _ _] & _).
  assert (x = rn) as -> by congruence. rewrite Hp in Hp2.
  eapply wpo_expect; [by apply node_lookup in Hrn2 as [_ ?]|]. wp_steps; [|congruence].
  assert (a = p) as -> by congruence.
  destruct (sh_parent t2 Hs2 root rn2 p) as (_ & pn & Hpn & _); [done..|].
  rewrite node_index, Hpn by apply Hs2. wp_steps.
  rewrite update_is_map by (apply Hs2 || (apply node_bound in Hpn; lia)).
  pose proof (subtree_ext t t2 root D (emptied_tree_skeleton _ _ _ He2) Hst) as Hst2.
  unfold wp at 1. rewrite retire_jobs_eq.
  - rewrite map_map. wp_steps.
    destruct (detach_terminated t t2 root p D rn2) as [Hinv Hterm]; [done..|].
    split; [exact Hinv|]. exists D. split_and!; [done| |exact Hterm].
    cbn in Hcount. rewrite <- Hcount, pids_map; [done|]. intros n. unfold retire_in. by repeat case_decide.
  - apply ids_map; [|apply Hs2]. intros n. by case_decide.
  - intros j Hj. rewrite node_map. destruct (st_nodes _ _ _ Hst2 j Hj) as [m ->]. by eexists.
Qed.
