(* ===== verification/ContainmentProps.v ===== *)
(** * ContainmentProps: the resource containment tree over whole histories

    Sequences of tree operations; the closed form of a job's usage; what
    admission and termination do to every job of the tree. *)

From stdpp Require Import base list numbers option sets.
From Stdlib Require Import ZArith Lia.
From S2P Require Import Prelude Containment.

Inductive op :=
| OCreateRoot (limits : ResourceLimits)
| OCreateChild (parent : JobId) (limits : ResourceLimits)
| OSetLimits (job : JobId) (limits : ResourceLimits)
| OAdmit (job : JobId) (process : ProcessId) (usage : ResourceUsage)
| OSetUsage (job : JobId) (process : ProcessId) (usage : ResourceUsage)
| ORelease (job : JobId) (process : ProcessId)
| OTerminate (root : JobId).

(** The arguments are values of their machine types. *)
Definition op_ok (o : op) : Prop :=
  match o with
  | OCreateRoot l | OCreateChild _ l | OSetLimits _ l => limits_ok l
  | OAdmit _ _ u | OSetUsage _ _ u => usage_ok u
  | _ => True
  end.

Definition exec (o : op) : M ContainmentTree ContainmentError unit :=
  match o with
  | OCreateRoot l => _ ← create_root l; mret ()
  | OCreateChild p l => _ ← create_child p l; mret ()
  | OSetLimits j l => set_limits j l
  | OAdmit j p u => admit_process j p u
  | OSetUsage j p u => set_process_usage j p u
  | ORelease j p => _ ← release_process j p; mret ()
  | OTerminate r => _ ← terminate_subtree r; mret ()
  end.

Fixpoint run (os : list op) (t : ContainmentTree) : ContainmentTree :=
  match os with [] => t | o :: os => run os (exec o t).2 end.

(** Along any operation jobs persist, limits tighten and retirement stays. *)
Definition tightens (t t' : ContainmentTree) : Prop :=
  ∀ id n, node t id = Some n → ∃ n', node t' id = Some n' ∧
    (∀ r, limit r (jn_limits n') ≤ limit r (jn_limits n)) ∧
    (jn_retired n = true → jn_retired n' = true).

Lemma tightens_refl t : tightens t t.
Proof. intros id n Hn. exists n. split_and!; [done|lia|done]. Qed.

Lemma tightens_trans t1 t2 t3 : tightens t1 t2 → tightens t2 t3 → tightens t1 t3.
Proof.
  intros H1 H2 id n Hn. destruct (H1 id n Hn) as (n2 & Hn2 & Hl2 & Hr2).
  destruct (H2 id n2 Hn2) as (n3 & Hn3 & Hl3 & Hr3). exists n3. split_and!; [done| |auto].
  intros r. specialize (Hl2 r). specialize (Hl3 r). lia.
Qed.

Lemma tightens_update t k n0 f : node t k = Some n0 →
  (∀ r, limit r (jn_limits (f n0)) ≤ limit r (jn_limits n0)) →
  jn_retired (f n0) = jn_retired n0 → tightens t (update_job (Z.to_nat (k - 1)) f t).
Proof.
  intros Hk Hl Hr id n Hn. rewrite (node_update_id t k n0) by done. case_decide; subst.
  - assert (n = n0) as -> by congruence. eexists. split_and!; [done..|congruence].
  - exists n. split_and!; [done|lia|done].
Qed.

Lemma tightens_charge g l t : tightens t (charge g l t).
Proof.
  intros id n Hn. rewrite node_charge, Hn. eexists. split; [done|].
  unfold charge_node. case_decide; cbn; split; [lia|done|lia|done].
Qed.

Lemma tightens_grown t p lim : shape t → tightens t (grown p lim t).
Proof.
  intros Hs id n Hn. exists n. split_and!; [|lia|done]. rewrite node_grown by done.
  rewrite decide_False; [done|]. intros ->. by rewrite fresh_not_node in Hn.
Qed.

Lemma tightens_terminated t t' D :
  (∀ id n, node t id = Some n → ∃ n', node t' id = Some n' ∧ terminated D id n n') →
  tightens t t'.
Proof.
  intros H id n Hn. destruct (H id n Hn) as (n' & Hn' & Hl & Hc).
  exists n'. split_and!; [done|rewrite Hl; lia|]. case_decide; destruct Hc as [-> _]; auto.
Qed.

Lemma exec_inv o t : inv t → op_ok o →
  wp (exec o) (λ _ t', inv t' ∧ tightens t t') (λ _ t', t' = t) t.
Proof.
  intros Hi Ho. pose proof (inv_shape Hi) as Hs. destruct o; cbn in Ho |- *; wp_steps.
  - eapply wp_mono; [by apply create_root_spec|cbv beta|done].
    intros _ t' (Hi' & _ & _ & ->). split; [done|by apply tightens_grown].
  - eapply wp_mono; [by apply create_child_spec|cbv beta|done].
    intros _ t' (Hi' & _ & -> & pn & Hpn & _). split; [done|]. eapply tightens_trans.
    + by apply (tightens_grown t (Some parent) limits).
    + apply (tightens_update _ parent pn); [|cbn; lia|done]. rewrite node_grown by done.
      rewrite decide_False; [done|]. intros ->. by rewrite fresh_not_node in Hpn.
  - eapply wp_mono; [by apply set_limits_spec|cbv beta|done].
    intros _ t' (Hi' & (n & Hn & _ & Hle) & ->). split; [done|]. by eapply tightens_update.
  - eapply wp_mono; [by apply admit_process_spec|cbv beta|done].
    intros _ t' (Hi' & n & l & Hn & _ & _ & _ & _ & _ & ->). split; [done|].
    eapply tightens_trans; [apply (tightens_charge (delta_fn true usage) l)|].
    eapply tightens_update; [by rewrite node_charge, Hn|cbn; lia|done].
  - eapply wp_mono; [by apply set_process_usage_spec|cbv beta|done].
    intros _ t' (Hi' & n & i & c & l & Hn & _ & _ & _ & ->). split; [done|].
    eapply tightens_trans; [apply (tightens_charge (recharge c usage) l)|].
    eapply tightens_update; [by rewrite node_charge, Hn|cbn; lia|done].
  - eapply wp_mono; [by apply release_process_spec|cbv beta|by intros ?? [-> _]].
    intros u t' (Hi' & n & i & l & Hn & _ & _ & ->). split; [done|].
    eapply tightens_trans; [|apply tightens_charge].
    eapply tightens_update; [done|cbn; lia|done].
  - eapply wp_mono; [by apply terminate_subtree_spec|cbv beta|done].
    intros k t' (Hi' & D & _ & _ & H). split; [done|]. by eapply tightens_terminated.
Qed.

Lemma run_inv os t : Forall op_ok os → inv t → inv (run os t) ∧ tightens t (run os t).
Proof.
  intros Hos. revert t. induction Hos as [|o os Ho Hos IH]; intros t Hi; cbn.
  - split; [done|apply tightens_refl].
  - pose proof (exec_inv o t Hi Ho) as H. unfold wp in H.
    assert (inv (exec o t).2 ∧ tightens t (exec o t).2) as [Hi' Ht'].
    { destruct (exec o t) as [[]]; [done|subst; by split; [|apply tightens_refl]|done]. }
    destruct (IH _ Hi') as [? ?]. split; [done|]. by eapply tightens_trans.
Qed.

Lemma tree_new_inv : inv new.
Proof.
  assert (∀ id, node new id = None) as Hn.
  { intros id. unfold node. case_decide; [|done]. apply lookup_nil. }
  assert (∀ id n, ¬ node new id = Some n) as Hn' by (intros id n; by rewrite Hn).
  split; [split|split|..]; try (intros id n ?; by destruct (Hn' id n));
    try (intros id n ? ?; by destruct (Hn' id n)); try (intros id n ? ? ?; by destruct (Hn' id n)).
  - intros i n. by cbn; rewrite lookup_nil.
  - done.
  - cbn. lia.
  - intros n p Hin. by apply elem_of_nil in Hin.
  - intros n H. by destruct (Hn' 1 n).
  - constructor.
Qed.

(** ** The closed form of usage *)

Definition chain (t : ContainmentTree) (id : JobId) : list JobId :=
  match collect_chain (chain_fuel t) t (Some id) with Ok l => l | _ => [] end.

(** The reservations of all jobs at or below [id]. *)
Definition subtree_total (t : ContainmentTree) (id : JobId) (r : resource) : Z :=
  zsum (λ m, if bool_decide (id ∈ chain t (jn_id m)) then own r m else 0) (jobs t).

Definition count (x : JobId) (l : list JobId) : Z := if decide (x ∈ l) then 1 else 0.

Lemma chain_path t id : shape t → is_Some (node t id) → path t (Some id) (chain t id).
Proof.
  intros Hs Hn. destruct (path_exists t id Hs Hn) as (l & Hc & Hp). unfold chain. by rewrite Hc.
Qed.

(** On a path below [id] there is exactly one child of [id]. *)
Lemma path_child_count t id cur l : shape t → path t cur l →
  zsum (λ c, if decide (jn_parent c = Some id) then count (jn_id c) l else 0) (jobs t) =
  count id l - (if decide (cur = Some id) then 1 else 0).
Proof.
  intros Hs. induction 1 as [|k n l Hn Hp IH].
  - rewrite zsum_0; [unfold count; rewrite !decide_False; [lia|done|set_solver]|].
    intros c _. unfold count. rewrite (decide_False (P := jn_id c ∈ [])) by set_solver. by case_decide.
  - pose proof (path_head_notin t k n l (sh_ids t Hs) (sh_parents t Hs) Hn Hp) as Hni.
    assert (∀ x, count x (k :: l) = (if decide (x = k) then 1 else 0) + count x l) as Hcons.
    { intros x. unfold count. destruct (decide (x = k)) as [->|].
      - rewrite decide_True, decide_False by set_solver. lia.
      - destruct (decide (x ∈ l)); [rewrite decide_True by set_solver|rewrite decide_False by set_solver]; lia. }
    rewrite (zsum_ext _ (λ c, (if decide (jn_parent c = Some id) then (if decide (jn_id c = k) then 1 else 0) else 0)
      + (if decide (jn_parent c = Some id) then count (jn_id c) l else 0))).
    2: { intros c _. rewrite Hcons. destruct (decide (jn_parent c = Some id)); lia. }
    rewrite zsum_plus, IH, Hcons. apply node_lookup in Hn as [H1 Hn].
    rewrite (zsum_pick _ (jobs t) _ n Hn).
    + rewrite (sh_ids t Hs _ _ Hn). replace (Z.of_nat (Z.to_nat (k - 1)) + 1) with k by lia.
      rewrite (decide_True (P := k = k)) by done.
      destruct (decide (jn_parent n = Some id)), (decide (id = k)), (decide (Some k = Some id)); naive_solver lia.
    + intros j c Hj Hne. rewrite (sh_ids t Hs _ _ Hj).
      rewrite (decide_False (P := Z.of_nat j + 1 = k)) by lia. by destruct (decide (jn_parent c = Some id)).
Qed.

Lemma subtree_total_children t id n r : shape t → node t id = Some n →
  subtree_total t id r = own r n +
    zsum (λ c, if decide (jn_parent c = Some id) then subtree_total t (jn_id c) r else 0) (jobs t).
Proof.
  intros Hs Hn. assert (∀ k, subtree_total t k r = zsum (λ m, count k (chain t (jn_id m)) * own r m) (jobs t)) as Hst.
  { intros k. apply zsum_ext. intros m _. unfold count. case_bool_decide; case_decide; done || lia. }
  rewrite Hst. rewrite (zsum_ext (λ c, if decide (jn_parent c = Some id) then _ else 0) (λ c, zsum (λ m, (if decide (jn_parent c = Some id)
    then count (jn_id c) (chain t (jn_id m)) else 0) * own r m) (jobs t)) (jobs t)).
  2: { intros c _. destruct (decide (jn_parent c = Some id)); [apply Hst|]. symmetry. by apply zsum_0. }
  rewrite (zsum_swap _ (jobs t) (jobs t)).
  rewrite (zsum_ext (λ m, zsum _ (jobs t)) (λ m, count id (chain t (jn_id m)) * own r m +
    (if decide (jn_id m = id) then - own r m else 0))).
  2: { intros m Hm. apply (elem_node t) in Hm; [|apply Hs].
       rewrite zsum_scale, (path_child_count t id (Some (jn_id m))); [|done|apply chain_path; eauto].
       destruct (decide (jn_id m = id)), (decide (Some (jn_id m) = Some id)); naive_solver lia. }
  rewrite zsum_plus. apply node_lookup in Hn as [H1 Hn].
  rewrite (zsum_pick (λ m, if decide (jn_id m = id) then _ else _) (jobs t) _ n Hn).
  - rewrite (sh_ids t Hs _ _ Hn). rewrite decide_True by lia. lia.
  - intros j c Hj Hne. rewrite (sh_ids t Hs _ _ Hj). rewrite decide_False by lia. done.
Qed.

Lemma usage_subtree_total t id n r : inv t → node t id = Some n →
  amount r (jn_usage n) = subtree_total t id r.
Proof.
  intros Hi. pose proof (inv_shape Hi) as Hs. revert n.
  induction (Z.gt_wf (Z.of_nat (length (jobs t))) id) as [id _ IH]. intros n Hn.
  rewrite (subtree_total_children t id n r Hs Hn), (inv_accounts _ _ Hi id n Hn). unfold no_extra.
  enough (child_sum t id r = zsum (λ c, if decide (jn_parent c = Some id)
    then subtree_total t (jn_id c) r else 0) (jobs t)) as -> by lia.
  apply zsum_ext. intros c Hc. unfold child_usage. case_decide as Hp; [|done].
  destruct (sh_parents t Hs c id Hc Hp) as [Hlt _].
  apply (elem_node t) in Hc; [|apply Hs]. pose proof (node_bound _ _ _ Hc).
  apply IH; [lia|done].
Qed.

Lemma subtree_chain t root D k : shape t → subtree t root D → is_Some (node t k) →
  k ∈ D ↔ root ∈ chain t k.
Proof.
  intros Hs Hst Hk. pose proof (chain_path t k Hs Hk) as Hp. revert Hp.
  generalize (chain t k). intros l Hp. remember (Some k) as cur eqn:Hcur. revert k Hk Hcur.
  induction Hp as [|id n l Hn Hp IH]; intros k Hk Hcur; [done|]. injection Hcur as <-.
  rewrite elem_of_cons. split.
  - intros HD. destruct (st_parent _ _ _ Hst id n HD Hn) as [->|(p & Hpar & HpD)]; [by left|right].
    apply (IH p); [|done|done]. by apply (st_nodes _ _ _ Hst).
  - intros [<-|Hin]; [apply (st_root _ _ _ Hst)|].
    destruct (jn_parent n) as [p|] eqn:Hpar; [|inversion Hp; subst; set_solver].
    destruct (sh_parent t Hs id n p Hn Hpar) as (_ & pn & Hpn & _ & Hch).
    eapply (st_closed _ _ _ Hst p pn); [|done|done]. apply (IH p); eauto.
Qed.

(** ** Properties *)

(** C17. The containment tree keeps its invariant and never panics.  After any
    sequence of operations with machine-typed arguments from an empty tree: the
    parent links form a tree with ids increasing downwards, retired jobs are
    inert, every process is reserved in at most one job, every job's usage is its
    own reservations plus its children's usage and fits its limits; and no further
    operation can hit an [expect], an out-of-range index or a cycle. *)
Theorem containment_invariant (os : list op) (Hos : Forall op_ok os) :
  inv (run os new) ∧ ∀ o, op_ok o → (exec o (run os new)).1 ≠ Abort.
Proof.
  destruct (run_inv os new Hos tree_new_inv) as [Hi _]. split; [done|].
  intros o Ho. by eapply wp_no_abort, exec_inv.
Qed.

Definition demo_limits : ResourceLimits :=
  {| l_processes := 8; l_threads := 8; l_memory_bytes := 4096; l_cpu_ticks := 100; l_handles := 16 |}.
Definition demo_usage : ResourceUsage :=
  {| u_processes := 1; u_threads := 2; u_memory_bytes := 1024; u_cpu_ticks := 0; u_handles := 3 |}.
Definition demo_ops : list op :=
  [OCreateRoot demo_limits; OCreateChild 1 demo_limits; OCreateChild 2 demo_limits;
   OAdmit 3 10 demo_usage; OAdmit 2 11 demo_usage].

Lemma demo_ops_ok : Forall op_ok demo_ops.
Proof.
  unfold demo_ops. rewrite !Forall_cons, Forall_nil. cbn [op_ok].
  split_and!; try done; intros []; cbn; unfold u64_max; lia.
Qed.

Lemma demo_inv : inv (run demo_ops new).
Proof. apply run_inv; [apply demo_ops_ok|apply tree_new_inv]. Qed.

Lemma containment_invariant_witness :
  inv (run demo_ops new) ∧ (exec (OTerminate 2) (run demo_ops new)).1 ≠ Abort.
Proof.
  destruct (containment_invariant demo_ops demo_ops_ok) as [H1 H2]. split; [exact H1|].
  by apply H2.
Defined.

(** C18. Usage is exact and limits bind.  In every reachable tree, the usage counter
    of each job equals, resource by resource, the sum of the reservations of all
    processes admitted to the job or to any of its descendants, and does not
    exceed the job's limit; incremental charging and uncharging along the ancestor
    chain never drifts from this sum. *)
Theorem usage_is_subtree_total (os : list op) (Hos : Forall op_ok os) id n r :
  node (run os new) id = Some n →
  amount r (jn_usage n) = subtree_total (run os new) id r ∧
  amount r (jn_usage n) ≤ limit r (jn_limits n).
Proof.
  intros Hn. destruct (run_inv os new Hos tree_new_inv) as [Hi _].
  split; [by apply usage_subtree_total|]. by apply (inv_bounded _ _ Hi id n r).
Qed.

Lemma usage_is_subtree_total_witness :
  subtree_total (run demo_ops new) 1 MemoryBytes = 2048 ∧
  subtree_total (run demo_ops new) 3 MemoryBytes = 1024.
Proof.
  split.
  - destruct (node (run demo_ops new) 1) as [n|] eqn:Hn; [|by vm_compute in Hn].
    destruct (usage_is_subtree_total demo_ops demo_ops_ok 1 n MemoryBytes Hn) as [H _].
    rewrite <- H. vm_compute in Hn. by injection Hn as <-.
  - destruct (node (run demo_ops new) 3) as [n|] eqn:Hn; [|by vm_compute in Hn].
    destruct (usage_is_subtree_total demo_ops demo_ops_ok 3 n MemoryBytes Hn) as [H _].
    rewrite <- H. vm_compute in Hn. by injection Hn as <-.
Defined.

(** Admission is atomic and charges exactly the ancestors.  [admit_process]
    either fails and leaves the tree unchanged, or adds a process that was in no
    job, having checked that the new usage fits the limits of the job and of all
    its ancestors; then precisely the jobs on the path to the root are charged the
    reservation, and all other jobs keep their usage. *)
Theorem admit_process_effect t job pid u (Hi : inv t) (Hu : usage_ok u) :
  match admit_process job pid u t with
  | (Ok _, t') =>
      pid ∉ pids t ∧
      ∀ id n, node t id = Some n → ∃ n', node t' id = Some n' ∧
        jn_usage n' = (if bool_decide (id ∈ chain t job) then usage_add (jn_usage n) u
                       else jn_usage n) ∧
        jn_processes n' = (if bool_decide (id = job)
          then jn_processes n ++ [{| rv_process := pid; rv_usage := u |}] else jn_processes n) ∧
        (id ∈ chain t job → jn_retired n = false ∧
           ∀ r, amount r (jn_usage n) + amount r u ≤ limit r (jn_limits n))
  | (Err _, t') => t' = t
  | (Abort, _) => False
  end.
Proof.
  pose proof (admit_process_spec t job pid u Hi Hu) as H. unfold wp in H.
  destruct (admit_process job pid u t) as [[| |] t']; [|done..].
  destruct H as (_ & n0 & l & Hn0 & _ & _ & Hp & Hpid & Hroom & ->). split; [done|].
  pose proof (inv_shape Hi) as Hs. assert (l = chain t job) as Hl.
  { eapply path_unique; [done|]. apply chain_path; [done|by eauto]. } subst l.
  intros id n Hn.
  set (n1 := charge_node (delta_fn true u) (chain t job) n).
  assert (jn_usage n1 = if bool_decide (id ∈ chain t job) then usage_add (jn_usage n) u else jn_usage n) as Hus.
  { unfold n1, charge_node. rewrite (node_id t id n (sh_ids t Hs) Hn).
    by destruct (decide (id ∈ chain t job)); [rewrite bool_decide_eq_true_2|rewrite bool_decide_eq_false_2]. }
  assert (jn_processes n1 = jn_processes n) as Hpr by apply charge_processes.
  assert (id ∈ chain t job → jn_retired n = false ∧
    ∀ r, amount r (jn_usage n) + amount r u ≤ limit r (jn_limits n)) as Hfit.
  { intros (m & Hm & Hr & Hle)%Hroom. assert (m = n) as -> by congruence. split; [done|apply Hle]. }
  exists (if decide (id = job) then set_jn_processes
    (push (jn_processes n1) {| rv_process := pid; rv_usage := u |}) n1 else n1).
  split_and!; [| |..|done].
  - unfold admitted. rewrite (node_update_id _ job (charge_node (delta_fn true u) (chain t job) n0))
      by (by rewrite node_charge, Hn0). rewrite node_charge, Hn.
    destruct (decide (id = job)) as [->|]; [|done]. by assert (n0 = n) as -> by congruence.
  - rewrite <- Hus. by destruct (decide (id = job)).
  - rewrite <- Hpr. destruct (decide (id = job)); [by rewrite bool_decide_eq_true_2|by rewrite bool_decide_eq_false_2].
Qed.

Lemma admit_process_effect_witness :
  (admit_process 3 12 demo_usage (run demo_ops new)).1 = Ok () ∧
  ∃ n', node (admit_process 3 12 demo_usage (run demo_ops new)).2 1 = Some n' ∧
    amount MemoryBytes (jn_usage n') = 3072.
Proof.
  assert (usage_ok demo_usage) as Hu by (intros []; cbn; unfold u64_max; lia).
  pose proof (admit_process_effect (run demo_ops new) 3 12 demo_usage demo_inv Hu) as H.
  destruct (admit_process 3 12 demo_usage (run demo_ops new)) as [o t'] eqn:E.
  assert (o = Ok ()) as -> by (vm_compute in E; congruence).
  split; [done|]. destruct H as [_ H].
  destruct (node (run demo_ops new) 1) as [n|] eqn:Hn; [|by vm_compute in Hn].
  destruct (H 1 n Hn) as (n' & Hn' & Hus & _). exists n'. split; [exact Hn'|].
  rewrite Hus. vm_compute in Hn. by injection Hn as <-.
Defined.

Lemma tree_ext t t' : next_job_id t = next_job_id t' → (∀ id, node t id = node t' id) → t = t'.
Proof.
  destruct t as [nx js], t' as [nx' js']. cbn. intros -> H. f_equal. apply list_eq. intros i.
  specialize (H (Z.of_nat i + 1)). unfold node in H. rewrite !decide_True in H by lia.
  by replace (Z.to_nat (Z.of_nat i + 1 - 1)) with i in H by lia.
Qed.

Lemma swap_remove_last {A} (l : list A) (x : A) : swap_remove (length l) (push l x) = l.
Proof.
  unfold swap_remove, push. rewrite last_snoc, insert_app_r_alt, Nat.sub_diag by lia. cbn.
  rewrite length_app. cbn. rewrite take_app_length'; [done|]. lia.
Qed.

Lemma released_admitted t job n pid u l : ids_ok t → node t job = Some n →
  released job (length (jn_processes n)) u l (admitted job pid u l t) = t.
Proof.
  intros Hids Hn. apply tree_ext; [done|]. intros id. unfold released, admitted.
  set (c := charge_node (delta_fn true u) l n).
  set (f1 := λ n, set_jn_processes (push (jn_processes n) {| rv_process := pid; rv_usage := u |}) n).
  assert (node (charge (delta_fn true u) l t) job = Some c) as H1 by by rewrite node_charge, Hn.
  assert (node (update_job (Z.to_nat (job - 1)) f1 (charge (delta_fn true u) l t)) job = Some (f1 c)) as H2.
  { rewrite (node_update_id _ job c) by done. by rewrite decide_True. }
  rewrite node_charge, (node_update_id _ job (f1 c)), (node_update_id _ job c), node_charge by done.
  assert (∀ m, charge_node (delta_fn false u) l (charge_node (delta_fn true u) l m) = m) as Hc.
  { intros m. unfold charge_node. destruct (decide (jn_id m ∈ l)) as [Hin|Hin]; cbn;
      [rewrite decide_True by done|by rewrite decide_False].
    destruct m. unfold set_jn_usage. cbn. f_equal. apply usage_ext. intros r.
    rewrite !amount_map2. lia. }
  destruct (decide (id = job)) as [->|]; [|by destruct (node t id) as [m|]; cbn; rewrite ?Hc].
  rewrite Hn. cbn [fmap option_fmap option_map]. f_equal.
  assert (set_jn_processes (swap_remove (length (jn_processes n)) (jn_processes (f1 c))) (f1 c) = c) as ->.
  { unfold f1. cbn [jn_processes set_jn_processes]. unfold c at 1. rewrite charge_processes.
    rewrite swap_remove_last. unfold c, charge_node. by destruct (decide _), n. }
  apply Hc.
Qed.

(** Release undoes admission.  If admitting a process succeeds, releasing it
    succeeds, returns exactly the reserved amounts, and restores the tree that was
    there before, in every field. *)
Theorem admit_release_roundtrip t job pid u t1 (Hi : inv t) (Hu : usage_ok u) :
  admit_process job pid u t = (Ok (), t1) → release_process job pid t1 = (Ok u, t).
Proof.
  intros Hadm. pose proof (admit_process_spec t job pid u Hi Hu) as H. unfold wp in H. rewrite Hadm in H.
  destruct H as (Hi1 & n & l & Hn & _ & _ & Hp & Hpid & _ & ->).
  pose proof (inv_shape Hi) as Hs. pose proof (inv_shape Hi1) as Hs1.
  set (e := {| rv_process := pid; rv_usage := u |}).
  assert (∃ n1, node (admitted job pid u l t) job = Some n1 ∧ jn_processes n1 = jn_processes n ++ [e])
    as (n1 & Hn1 & Hpr).
  { unfold admitted. rewrite (node_update_id _ job (charge_node (delta_fn true u) l n))
      by (by rewrite node_charge, Hn). rewrite decide_True by done. eexists. split; [done|].
    cbn. by rewrite charge_processes. }
  pose proof (release_process_spec _ job pid Hi1) as H. unfold wp in H.
  destruct (release_process job pid (admitted job pid u l t)) as [[u'|err|] t'].
  - destruct H as (_ & n1' & i & l' & Hn1' & He & Hp' & ->).
    assert (n1' = n1) as -> by congruence. rewrite Hpr in He.
    apply lookup_app_Some in He as [He|[Hlen He]].
    + exfalso. apply Hpid. apply list_elem_of_bind. exists n. split; [|by eapply node_elem].
      apply list_elem_of_fmap. eexists. split; [|by eapply list_elem_of_lookup_2]. done.
    + apply list_lookup_singleton_Some in He as [Hi0 [= <-]].
      assert (i = length (jn_processes n)) as -> by lia.
      assert (l' = l) as ->.
      { eapply path_unique; [exact Hp'|]. eapply path_update; [by rewrite node_charge, Hn|done|].
        by apply path_charge. }
      by rewrite released_admitted by (apply Hs || done).
  - destruct H as [_ H]. destruct (H n1 Hn1). rewrite Hpr, fmap_app. set_solver.
  - done.
Qed.

Lemma admit_release_roundtrip_witness :
  release_process 3 12 (admit_process 3 12 demo_usage (run demo_ops new)).2 =
  (Ok demo_usage, run demo_ops new).
Proof.
  apply (admit_release_roundtrip _ 3 12 demo_usage _ demo_inv); [|by vm_compute].
  intros []; cbn; unfold u64_max; lia.
Defined.

(** C33. Terminating a subtree is complete and contained.  On success exactly the
    jobs at or below [root] are retired and emptied (no processes, children,
    parent or usage left), the returned count is the number of processes released,
    every other job keeps its limits, parent, retirement state and processes, and
    the accounting invariant holds again; on failure nothing changes. *)
Theorem terminate_subtree_effect t root (Hi : inv t) :
  match terminate_subtree root t with
  | (Ok k, t') =>
      inv t' ∧ (k + length (pids t') = length (pids t))%nat ∧
      ∀ id n, node t id = Some n → ∃ n', node t' id = Some n' ∧ jn_limits n' = jn_limits n ∧
        if bool_decide (root ∈ chain t id)
        then jn_retired n' = true ∧ jn_processes n' = [] ∧ jn_parent n' = None ∧
             jn_children n' = [] ∧ jn_usage n' = ZERO
        else jn_retired n' = jn_retired n ∧ jn_processes n' = jn_processes n ∧
             jn_parent n' = jn_parent n
  | (Err _, t') => t' = t
  | (Abort, _) => False
  end.
Proof.
  pose proof (terminate_subtree_spec t root Hi) as H. unfold wp in H.
  destruct (terminate_subtree root t) as [[k| |] t']; [|done..].
  destruct H as (Hi' & D & Hst & Hk & H). split_and!; [done..|]. intros id n Hn.
  destruct (H id n Hn) as (n' & Hn' & Hl & Hc). exists n'. split_and!; [done..|].
  pose proof (subtree_chain t root D id (inv_shape Hi) Hst ltac:(eauto)) as Hiff.
  destruct (decide (id ∈ D)); [rewrite bool_decide_eq_true_2|rewrite bool_decide_eq_false_2];
    by try rewrite <- Hiff.
Qed.

Lemma terminate_subtree_effect_witness :
  (terminate_subtree 2 (run demo_ops new)).1 = Ok 2%nat ∧
  ∃ n', node (terminate_subtree 2 (run demo_ops new)).2 3 = Some n' ∧ jn_retired n' = true.
Proof.
  pose proof (terminate_subtree_effect (run demo_ops new) 2 demo_inv) as H.
  destruct (terminate_subtree 2 (run demo_ops new)) as [o t'] eqn:E.
  assert (o = Ok 2%nat) as -> by (vm_compute in E; congruence).
  split; [done|]. destruct H as (_ & _ & H).
  destruct (node (run demo_ops new) 3) as [n|] eqn:Hn; [|by vm_compute in Hn].
  destruct (H 3 n Hn) as (n' & Hn' & _ & Hc). exists n'. split; [exact Hn'|].
  assert (bool_decide (2 ∈ chain (run demo_ops new) 3) = true) as Hb by by vm_compute.
  rewrite Hb in Hc. apply Hc.
Defined.

(** C34. Containment policy only tightens.  Along any sequence of operations a job
    never disappears, none of its limits is ever raised, and a retired job stays
    retired. *)
Theorem limits_only_tighten (os : list op) t (Hi : inv t) (Hos : Forall op_ok os) id n :
  node t id = Some n → ∃ n', node (run os t) id = Some n' ∧
    (∀ r, limit r (jn_limits n') ≤ limit r (jn_limits n)) ∧
    (jn_retired n = true → jn_retired n' = true).
Proof. intros Hn. destruct (run_inv os t Hos Hi) as [_ Ht]. by apply Ht. Qed.

Lemma limits_only_tighten_witness :
  ∃ n n', node (run demo_ops new) 2 = Some n ∧ node (run [OTerminate 2] (run demo_ops new)) 2 = Some n' ∧
    limit Threads (jn_limits n') ≤ limit Threads (jn_limits n).
Proof.
  destruct (node (run demo_ops new) 2) as [n|] eqn:Hn; [|by vm_compute in Hn].
  destruct (limits_only_tighten [OTerminate 2] (run demo_ops new) demo_inv) with (id := 2) (n := n)
    as (n' & Hn' & Hl & _); [by repeat constructor|exact Hn|].
  exists n, n'. split_and!; [done|exact Hn'|apply Hl].
Defined.
