(* ===== verification/WaitSet.v ===== *)
(** * WaitSet: bounded persistent registrations (kernel/src/wait_set.rs)

    The registrations of one wait-set object: insertion-ordered, keyed,
    level-triggered. *)

From stdpp Require Import base list numbers option sets.
From Stdlib Require Import ZArith Lia.
From S2P Require Import Prelude Object.

Record Target := { object_id : Z; object_kind : Z }.

#[export] Instance Target_eq_dec : EqDecision Target.
Proof. solve_decision. Defined.

Record Registration := { target : Target; requested : Signals.t; key : Z }.

Inductive AddError := InvalidTarget | InvalidSignals | InvalidKey | DuplicateKey | Full.
Inductive UnknownKey_t := UnknownKey.

Record State := { capacity : nat; maximum_key : Z; registrations : list Registration }.

Definition set_registrations (l : list Registration) (s : State) : State :=
  {| capacity := capacity s; maximum_key := maximum_key s; registrations := l |}.

Definition new (capacity : nat) (maximum_key : Z) : State :=
  {| capacity := capacity; maximum_key := maximum_key; registrations := [] |}.

Definition add (registration : Registration) : M State AddError unit :=
  s ← get;
  _ ← lift (err_if ((object_id (target registration) =? 0) ||
                    (object_kind (target registration) =? 0)) InvalidTarget);
  _ ← lift (err_if (requested registration =? 0) InvalidSignals);
  _ ← lift (err_if (maximum_key s <? key registration) InvalidKey);
  _ ← lift (err_if (any (λ existing, key existing =? key registration) (registrations s))
              DuplicateKey);
  _ ← lift (err_if (bool_decide (capacity s ≤ length (registrations s))%nat) Full);
  modify (set_registrations (push (registrations s) registration)).

(** [Vec::remove(index)] keeps the order of the rest. *)
Definition remove (k : Z) : M State UnknownKey_t Registration :=
  s ← get;
  index ← lift (ok_or (position (λ r, key r =? k) (registrations s)) UnknownKey);
  r ← lift (expect (registrations s !! index));
  _ ← modify (set_registrations (delete index (registrations s)));
  mret r.

Definition len (s : State) : nat := length (registrations s).
Definition is_empty (s : State) : bool := bool_decide (registrations s = []).

(** ** Invariant *)

Definition registration_ok (maximum_key : Z) (r : Registration) : Prop :=
  object_id (target r) ≠ 0 ∧ object_kind (target r) ≠ 0 ∧ requested r ≠ 0 ∧ key r ≤ maximum_key.

Record inv (s : State) : Prop := {
  inv_bound : (length (registrations s) ≤ capacity s)%nat;
  inv_keys : NoDup (key <$> registrations s);
  inv_valid : Forall (registration_ok (maximum_key s)) (registrations s);
}.

Lemma wait_set_new_inv cap maximum : inv (new cap maximum).
Proof. split; cbn; [lia|constructor|constructor]. Qed.

Lemma fresh_key (k : Z) (l : list Registration) :
  any (λ r, key r =? k) l = false → k ∉ key <$> l.
Proof.
  intros H (r & -> & Hr)%list_elem_of_fmap. apply (proj1 (any_false _ _) H) in Hr.
  by rewrite Z.eqb_refl in Hr.
Qed.

Lemma wait_add_spec s r : inv s →
  wp (add r)
    (λ _ s', inv s' ∧ key r ∉ key <$> registrations s ∧
             s' = set_registrations (push (registrations s) r) s)
    (λ _ s', s' = s) s.
Proof.
  intros [Hb Hk Hv]. unfold add. wp_steps; try done. bool_simpl. apply fresh_key in H2.
  split_and!; [|done..]. split; cbn; unfold push.
  - rewrite length_app. cbn. lia.
  - rewrite fmap_app. apply NoDup_app. split_and!; [done| |apply NoDup_singleton].
    intros x Hx ->%list_elem_of_singleton. done.
  - apply Forall_app. split; [done|]. rewrite Forall_singleton. by split_and!.
Qed.

Lemma wait_remove_spec s k : inv s →
  wp (remove k)
    (λ r s', inv s' ∧ key r = k ∧ ∃ i, registrations s !! i = Some r ∧
             s' = set_registrations (delete i (registrations s)) s)
    (λ _ s', s' = s ∧ k ∉ key <$> registrations s) s.
Proof.
  intros [Hb Hk Hv]. unfold remove. wp_steps.
  - apply position_Some in H as (r & Hr & Hid & _). bool_simpl.
    eapply wpo_expect; [exact Hr|]. wp_steps. split_and!; [|done|by eauto].
    pose proof (delete_Permutation _ _ _ Hr) as Hp. split; cbn.
    + apply Permutation_length in Hp. cbn in Hp. lia.
    + rewrite Hp in Hk. by apply NoDup_cons in Hk as [_ ?].
    + rewrite Hp in Hv. by apply Forall_cons in Hv as [_ ?].
  - split; [done|]. intros (r & -> & Hr)%list_elem_of_fmap.
    pose proof (position_None _ _ H r Hr) as Hne. cbn in Hne. by rewrite Z.eqb_refl in Hne.
Qed.

(** ** Histories *)

Inductive op := OAdd (r : Registration) | ORemove (k : Z).

Definition exec (o : op) (s : State) : State :=
  match o with OAdd r => (add r s).2 | ORemove k => (remove k s).2 end.
Fixpoint run (os : list op) (s : State) : State :=
  match os with [] => s | o :: os => run os (exec o s) end.

Lemma exec_inv_wait_set o s : inv s → inv (exec o s).
Proof.
  intros Hi. destruct o; cbn.
  - pose proof (wait_add_spec s r Hi) as H. unfold wp in H. destruct (add r s) as [[] s']; naive_solver.
  - pose proof (wait_remove_spec s k Hi) as H. unfold wp in H.
    destruct (remove k s) as [[] s']; naive_solver.
Qed.

Lemma run_inv_wait_set os s : inv s → inv (run os s).
Proof. revert s. induction os; cbn; eauto using exec_inv_wait_set. Qed.

(** A wait set holds valid, uniquely keyed registrations within its capacity
    after any sequence of operations; a registration accepted by [add] is returned
    by [remove] of its key, which leaves the remaining registrations exactly as
    they were, in insertion order; and neither operation can panic. *)
Theorem wait_set_add_remove (os : list op) (cap : nat) (maximum : Z) (r : Registration) :
  let s := run os (new cap maximum) in
  inv s ∧ (∀ k, (remove k s).1 ≠ Abort) ∧ (add r s).1 ≠ Abort ∧
  ∀ s', add r s = (Ok (), s') → remove (key r) s' = (Ok r, s).
Proof.
  intros s. assert (inv s) as Hi by apply run_inv_wait_set, wait_set_new_inv. clearbody s.
  pose proof (wait_add_spec s r Hi) as Ha. split_and!; [done|..].
  - intros k. by eapply wp_no_abort, wait_remove_spec.
  - by eapply wp_no_abort.
  - intros s' Hs'. unfold wp in Ha. rewrite Hs' in Ha. destruct Ha as (Hi' & Hfresh & ->).
    pose proof (wait_remove_spec _ (key r) Hi') as Hr. unfold wp in Hr.
    destruct (remove (key r) _) as [[r'| |] s2]; [|destruct Hr as [_ Hr]; cbn in Hr|done].
    + destruct Hr as (_ & Hk & i & Hlk & ->). cbn in Hlk. unfold push in Hlk.
      apply lookup_app_Some in Hlk as [Hlk|[Hlen Hlk]].
      * destruct Hfresh. rewrite <- Hk. apply list_elem_of_fmap. exists r'. split; [done|].
        by eapply list_elem_of_lookup_2.
      * apply list_lookup_singleton_Some in Hlk as [Hi0 ->]. f_equal.
        assert (i = length (registrations s)) as -> by lia. destruct s as [c m l].
        unfold set_registrations. cbn. f_equal. unfold push.
        rewrite delete_middle. apply app_nil_r.
    + destruct Hr. unfold push. rewrite fmap_app. set_solver.
Qed.
