(* ===== verification/EventPort.v ===== *)
(** * EventPort: queued edge delivery (kernel/src/event_port.rs)

    Persistent registrations plus a first-in first-out queue of coalesced
    rising-edge events, at most one per registration key. *)

From stdpp Require Import base list numbers option sets.
From Stdlib Require Import ZArith Lia.
From S2P Require Import Prelude Object.

Record Target := { object_id : Z; object_kind : Z }.

#[export] Instance Target_eq_dec : EqDecision Target.
Proof. solve_decision. Defined.

Record Registration := {
  target : Target; requested : Signals.t; key : Z; observed : Signals.t;
}.
Record Event := { ev_key : Z; ev_signals : Signals.t }.

Inductive AddError :=
  InvalidTarget | InvalidSignals | InvalidKey | DuplicateKey | Full | AddEventQueueFull.
Inductive UnknownKey_t := UnknownKey.
Inductive EventQueueFull_t := EventQueueFull.

Record State := {
  registration_capacity : nat; event_capacity : nat; maximum_key : Z;
  registrations : list Registration; events : list Event;
}.

Definition set_registrations (l : list Registration) (s : State) : State :=
  {| registration_capacity := registration_capacity s; event_capacity := event_capacity s;
     maximum_key := maximum_key s; registrations := l; events := events s |}.
Definition set_events (l : list Event) (s : State) : State :=
  {| registration_capacity := registration_capacity s; event_capacity := event_capacity s;
     maximum_key := maximum_key s; registrations := registrations s; events := l |}.

Definition set_observed (w : Signals.t) (r : Registration) : Registration :=
  {| target := target r; requested := requested r; key := key r; observed := w |}.

Definition new (registration_capacity event_capacity : nat) (maximum_key : Z) : State :=
  {| registration_capacity := registration_capacity; event_capacity := event_capacity;
     maximum_key := maximum_key; registrations := []; events := [] |}.

(** [iter_mut().find(..)] updates the first event with the key. *)
Definition queue_event (k : Z) (signals : Signals.t) : M State EventQueueFull_t unit :=
  s ← get;
  match position (λ e, ev_key e =? k) (events s) with
  | Some i =>
      modify (set_events (alter (λ e, {| ev_key := ev_key e;
                                        ev_signals := Signals.union (ev_signals e) signals |})
                            i (events s)))
  | None =>
      _ ← lift (err_if (bool_decide (event_capacity s ≤ length (events s))%nat) EventQueueFull);
      modify (set_events (push (events s) {| ev_key := k; ev_signals := signals |}))
  end.

Definition add (t : Target) (req : Signals.t) (k : Z) (current : Signals.t)
    : M State AddError unit :=
  s ← get;
  _ ← lift (err_if ((object_id t =? 0) || (object_kind t =? 0)) InvalidTarget);
  _ ← lift (err_if (req =? 0) InvalidSignals);
  _ ← lift (err_if (maximum_key s <? k) InvalidKey);
  _ ← lift (err_if (any (λ r, key r =? k) (registrations s)) DuplicateKey);
  _ ← lift (err_if (bool_decide (registration_capacity s ≤ length (registrations s))%nat) Full);
  let obs := Z.land current req in
  _ ← (if negb (obs =? 0)
       then try_catch (queue_event k obs) mret (λ _, lift (Err AddEventQueueFull))
       else mret ());
  modify (λ s, set_registrations
    (push (registrations s) {| target := t; requested := req; key := k; observed := obs |}) s).

Definition remove (k : Z) : M State UnknownKey_t Registration :=
  s ← get;
  index ← lift (ok_or (position (λ r, key r =? k) (registrations s)) UnknownKey);
  r ← lift (expect (registrations s !! index));
  _ ← modify (set_registrations (delete index (registrations s)));
  _ ← modify (λ s, set_events (filter (λ e, ev_key e ≠ k) (events s)) s);
  mret r.

(** The newly asserted bits of [current] for one registration. *)
Definition rising (current : Signals.t) (r : Registration) : Signals.t :=
  Z.land (Z.land current (requested r)) (not64 (observed r)).

Definition observe_one (t : Target) (current : Signals.t) (index : nat)
    : M State EventQueueFull_t unit :=
  r ← reads (λ s, expect (registrations s !! index));
  if negb (bool_decide (target r = t)) then mret ()
  else
    _ ← (if negb (rising current r =? 0) then queue_event (key r) (rising current r) else mret ());
    modify (λ s, set_registrations
      (alter (set_observed (Z.land current (requested r))) index (registrations s)) s).

Definition observe (t : Target) (current : Signals.t) : M State EventQueueFull_t unit :=
  s ← get;
  for_each (seq 0 (length (registrations s))) (observe_one t current).

Definition pop_event (s : State) : option Event * State :=
  match events s with
  | [] => (None, s)
  | e :: rest => (Some e, set_events rest s)
  end.

Definition registration_len (s : State) : nat := length (registrations s).
Definition queued_len (s : State) : nat := length (events s).
Definition is_readable (s : State) : bool := negb (bool_decide (events s = [])).

(** ** Pending bits *)

(** The bits queued for key [k]. *)
Fixpoint pending_in (k : Z) (l : list Event) : Z :=
  match l with
  | [] => 0
  | e :: l => if ev_key e =? k then ev_signals e else pending_in k l
  end.
Definition pending (s : State) (k : Z) : Z := pending_in k (events s).

Lemma pending_in_app k l l' :
  pending_in k (l ++ l') = if decide (k ∈ ev_key <$> l) then pending_in k l else pending_in k l'.
Proof.
  induction l as [|e l IH]; cbn [app pending_in]; [by rewrite decide_False by set_solver|].
  destruct (Z.eqb_spec (ev_key e) k) as [Heq|Hne]; [by rewrite decide_True by set_solver|].
  rewrite IH. rewrite fmap_cons. destruct (decide (k ∈ ev_key <$> l)).
  - by rewrite decide_True by set_solver.
  - by rewrite decide_False by set_solver.
Qed.

Lemma pending_in_notin k l : k ∉ ev_key <$> l → pending_in k l = 0.
Proof.
  induction l as [|e l IH]; cbn; [done|]. intros Hk. rewrite (proj2 (Z.eqb_neq _ _)) by set_solver.
  apply IH. set_solver.
Qed.

Lemma pending_in_elem l e : NoDup (ev_key <$> l) → e ∈ l → pending_in (ev_key e) l = ev_signals e.
Proof.
  induction l as [|x l IH]; [set_solver|]. rewrite fmap_cons, NoDup_cons. intros [Hni Hnd].
  intros [->|He]%elem_of_cons; cbn; [by rewrite Z.eqb_refl|].
  rewrite (proj2 (Z.eqb_neq _ _)); [by apply IH|]. intros Heq. apply Hni. rewrite Heq.
  by apply list_elem_of_fmap_2.
Qed.

Lemma pending_in_alter k l i e w : l !! i = Some e → NoDup (ev_key <$> l) →
  pending_in k (alter (λ e, {| ev_key := ev_key e; ev_signals := Z.lor (ev_signals e) w |}) i l) =
  if ev_key e =? k then Z.lor (pending_in k l) w else pending_in k l.
Proof.
  revert i. induction l as [|x l IH]; intros i Hi; [done|]. rewrite fmap_cons, NoDup_cons.
  intros [Hni Hnd]. destruct i as [|i]; cbn in Hi |- *.
  - injection Hi as ->. by destruct (ev_key e =? k).
  - destruct (Z.eqb_spec (ev_key x) k) as [Hx|Hx].
    + rewrite (proj2 (Z.eqb_neq _ _)); [done|]. intros He. apply Hni. rewrite Hx, <- He.
      apply list_elem_of_fmap_2. by eapply list_elem_of_lookup_2.
    + by apply IH.
Qed.

Lemma event_keys_alter (l : list Event) i w :
  ev_key <$> alter (λ e, {| ev_key := ev_key e; ev_signals := Z.lor (ev_signals e) w |}) i l =
  ev_key <$> l.
Proof.
  apply list_eq. intros j. rewrite !list_lookup_fmap. destruct (decide (j = i)) as [->|].
  - rewrite list_lookup_alter_eq. by destruct (l !! i).
  - by rewrite list_lookup_alter_ne.
Qed.

(** ** Invariant *)

Definition registration_ok (maximum_key : Z) (r : Registration) : Prop :=
  object_id (target r) ≠ 0 ∧ object_kind (target r) ≠ 0 ∧ requested r ≠ 0 ∧
  key r ≤ maximum_key ∧ bits_subset (observed r) (requested r).

Record inv (s : State) : Prop := {
  inv_bound : (length (registrations s) ≤ registration_capacity s)%nat;
  inv_keys : NoDup (key <$> registrations s);
  inv_valid : Forall (registration_ok (maximum_key s)) (registrations s);
  inv_event_bound : (length (events s) ≤ event_capacity s)%nat;
  inv_event_keys : NoDup (ev_key <$> events s);
  inv_event_reg : ∀ e, e ∈ events s → ev_signals e ≠ 0 ∧
    ∃ r, r ∈ registrations s ∧ key r = ev_key e ∧ bits_subset (ev_signals e) (requested r);
}.

Lemma event_port_new_inv rc ec maximum : inv (new rc ec maximum).
Proof. split; cbn; [lia|constructor|constructor|lia|constructor|set_solver]. Qed.

(** What [queue_event] promises about the queue. *)
Record queued (k w : Z) (s s' : State) : Prop := {
  qd_rest : s' = set_events (events s') s;
  qd_keys : ev_key <$> events s' =
    if decide (k ∈ ev_key <$> events s) then ev_key <$> events s
    else (ev_key <$> events s) ++ [k];
  qd_pending : ∀ j, pending s' j = if decide (j = k) then Z.lor (pending s j) w else pending s j;
  qd_bound : (length (events s') ≤ event_capacity s)%nat;
}.

Lemma queue_event_spec s k w : NoDup (ev_key <$> events s) →
  (length (events s) ≤ event_capacity s)%nat →
  wp (queue_event k w) (λ _ s', queued k w s s')
    (λ _ s', s' = s ∧ k ∉ ev_key <$> events s ∧ (event_capacity s ≤ length (events s))%nat) s.
Proof.
  intros Hnd Hlen. unfold queue_event. wp_steps.
  destruct (position _ (events s)) as [i|] eqn:Hpos; wp_steps.
  - apply position_Some in Hpos as (e & He & Hk & _). bool_simpl.
    split; cbn [set_events events].
    + done.
    + rewrite event_keys_alter, decide_True; [done|]. rewrite <- Hk.
      apply list_elem_of_fmap_2. by eapply list_elem_of_lookup_2.
    + intros j. unfold pending. cbn [set_events events].
      unfold Signals.union. rewrite (pending_in_alter j _ i e) by done. rewrite Hk.
      destruct (Z.eqb_spec k j), (decide (j = k)); congruence.
    + by rewrite length_alter.
  - split_and!; [done| |by bool_simpl]. intros (e & -> & He)%list_elem_of_fmap.
    pose proof (position_None _ _ Hpos e He) as Hne. cbn in Hne. by rewrite Z.eqb_refl in Hne.
  - assert (k ∉ ev_key <$> events s) as Hni.
    { intros (e & -> & He)%list_elem_of_fmap.
      pose proof (position_None _ _ Hpos e He) as Hne. cbn in Hne. by rewrite Z.eqb_refl in Hne. }
    bool_simpl. split; cbn [set_events events]; unfold push.
    + done.
    + by rewrite decide_False, fmap_app.
    + intros j. unfold pending. cbn [set_events events]. rewrite pending_in_app. cbn.
      destruct (decide (j = k)) as [->|Hne].
      * rewrite decide_False, Z.eqb_refl, (pending_in_notin k) by done. done.
      * rewrite (proj2 (Z.eqb_neq k j)) by done. destruct (decide (j ∈ _)); [done|].
        by rewrite pending_in_notin.
    + rewrite length_app. cbn. lia.
Qed.

(** Queueing bits of a registered key keeps the invariant; with room for one event
    per registration it cannot fail. *)
Lemma queued_inv s s' r w : inv s → r ∈ registrations s → bits_subset w (requested r) → w ≠ 0 →
  queued (key r) w s s' → inv s'.
Proof.
  intros [Hb Hk Hv Heb Hek Her] Hr Hw Hw0 [Hrest Hkeys Hpend Hbound]. rewrite Hrest.
  assert (NoDup (ev_key <$> events s')) as Hnd.
  { rewrite Hkeys. case_decide; [done|]. apply NoDup_app. split_and!; [done| |apply NoDup_singleton].
    intros x Hx ->%list_elem_of_singleton. done. }
  split; cbn; try done. intros e He.
  pose proof (pending_in_elem _ _ Hnd He) as Hp. pose proof (Hpend (ev_key e)) as Hpe.
  unfold pending in Hpe. rewrite Hp in Hpe.
  assert (ev_key e = key r ∨ ev_key e ∈ ev_key <$> events s) as Hcase.
  { assert (ev_key e ∈ ev_key <$> events s') as Hin by by apply list_elem_of_fmap_2.
    rewrite Hkeys in Hin. case_decide; set_solver. }
  assert (ev_key e ∈ ev_key <$> events s → ∃ e0, e0 ∈ events s ∧ ev_key e0 = ev_key e ∧
    pending_in (ev_key e) (events s) = ev_signals e0) as Hold.
  { intros (e0 & Heq & He0)%list_elem_of_fmap. exists e0. split_and!; [done..|].
    rewrite Heq. by apply pending_in_elem. }
  destruct (decide (ev_key e = key r)) as [Heq|Hne].
  - rewrite Hpe. split; [intros [_ ?]%Z.lor_eq_0_iff; done|]. exists r. split_and!; [done..|].
    apply bits_subset_lor; [|done].
    destruct (decide (ev_key e ∈ ev_key <$> events s)) as [Hin|Hni];
      [|rewrite pending_in_notin by done; apply bits_subset_0].
    destruct (Hold Hin) as (e0 & He0 & Hk0 & ->).
    destruct (Her e0 He0) as (_ & r0 & Hr0 & Hkr & Hsub).
    assert (r0 = r) as ->; [|done]. eapply (NoDup_key_inj key (registrations s)); eauto; congruence.
  - destruct Hcase as [?|Hin]; [done|]. destruct (Hold Hin) as (e0 & He0 & Hk0 & Hs0).
    rewrite Hpe, Hs0. rewrite <- Hk0. auto.
Qed.

Lemma port_room s r : inv s → (registration_capacity s ≤ event_capacity s)%nat →
  r ∈ registrations s → key r ∉ ev_key <$> events s → (length (events s) < event_capacity s)%nat.
Proof.
  intros [Hb Hk Hv Heb Hek Her] Hcap Hr Hni.
  assert (key r :: (ev_key <$> events s) ⊆ key <$> registrations s) as Hsub.
  { intros k [->|(e & -> & He)%list_elem_of_fmap]%elem_of_cons; [by apply list_elem_of_fmap_2|].
    destruct (Her e He) as (_ & r' & Hr' & <- & _). by apply list_elem_of_fmap_2. }
  assert (NoDup (key r :: (ev_key <$> events s))) as Hnd by by apply NoDup_cons.
  pose proof (NoDup_incl_length (l := key r :: (ev_key <$> events s)) (l' := key <$> registrations s)) as Hlen.
  cbn in Hlen. rewrite !length_fmap in Hlen. apply Nat.lt_le_trans with (length (registrations s)); [|lia].
  apply Hlen; [by apply NoDup_ListNoDup|]. intros k. rewrite <- !list_elem_of_In. apply Hsub.
Qed.

(** ** Observing *)

Definition saw (t : Target) (current : Signals.t) (r : Registration) : Registration :=
  if decide (target r = t) then set_observed (Z.land current (requested r)) r else r.

Lemma saw_key t current r : key (saw t current r) = key r.
Proof. unfold saw. by case_decide. Qed.

Lemma saw_keys t current i (l : list Registration) :
  key <$> alter (saw t current) i l = key <$> l.
Proof.
  apply list_eq. intros j. rewrite !list_lookup_fmap. destruct (decide (j = i)) as [->|].
  - rewrite list_lookup_alter_eq. destruct (l !! i); [|done]. cbn. by rewrite saw_key.
  - by rewrite list_lookup_alter_ne.
Qed.

Definition same_bounds (s s' : State) : Prop :=
  registration_capacity s' = registration_capacity s ∧ event_capacity s' = event_capacity s ∧
  maximum_key s' = maximum_key s.

Lemma inv_saw s i t current : inv s →
  inv (set_registrations (alter (saw t current) i (registrations s)) s).
Proof.
  intros [Hb Hk Hv Heb Hek Her]. split; cbn; try done.
  - by rewrite length_alter.
  - by rewrite saw_keys.
  - apply Forall_alter; [done|]. intros r _ (? & ? & ? & ? & Hsub). unfold saw. case_decide; [|done].
    split_and!; try done. apply bits_subset_land_r.
  - intros e He. destruct (Her e He) as (? & r & [j Hj]%list_elem_of_lookup & Hkr & Hsub).
    split; [done|]. exists (if decide (j = i) then saw t current r else r). split_and!.
    + apply list_elem_of_lookup. exists j. destruct (decide (j = i)) as [->|];
        [by rewrite list_lookup_alter_eq, Hj|by rewrite list_lookup_alter_ne].
    + case_decide; [by rewrite saw_key|done].
    + case_decide; [|done]. unfold saw. by case_decide.
Qed.

(** One iteration of the loop of [observe]. *)
Record observed_one (t : Target) (current : Signals.t) (i : nat) (r : Registration)
    (s s' : State) : Prop := {
  ob_inv : inv s';
  ob_bounds : same_bounds s s';
  ob_regs : registrations s' = alter (saw t current) i (registrations s);
  ob_pending : ∀ j, pending s' j = if decide (target r = t ∧ j = key r)
    then Z.lor (pending s j) (rising current r) else pending s j;
  ob_fifo : ∃ l, ev_key <$> events s' = (ev_key <$> events s) ++ l;
}.

Lemma alter_saw_id t current i (l : list Registration) r :
  l !! i = Some r → target r ≠ t → alter (saw t current) i l = l.
Proof.
  intros Hi Hne. apply list_eq. intros j. destruct (decide (j = i)) as [->|].
  - rewrite list_lookup_alter_eq, Hi. cbn. unfold saw. by rewrite decide_False.
  - by rewrite list_lookup_alter_ne.
Qed.

Lemma rising_subset current r : bits_subset (rising current r) (requested r).
Proof.
  intros i. unfold rising. rewrite !Z.land_spec, !andb_true_iff. naive_solver.
Qed.

Lemma observe_one_spec s t current i r : inv s → registrations s !! i = Some r →
  wp (observe_one t current i) (λ _ s', observed_one t current i r s s')
    (λ _ s', s' = s ∧ ¬ (registration_capacity s ≤ event_capacity s)%nat) s.
Proof.
  intros Hi Hr. assert (r ∈ registrations s) as Hin by by eapply list_elem_of_lookup_2.
  unfold observe_one. wp_steps. eapply wpo_expect; [exact Hr|]. case_bool_decide as Ht; cbn [negb].
  - assert (∀ s1, inv s1 → same_bounds s s1 → registrations s1 = registrations s →
      (∀ j, pending s1 j = if decide (target r = t ∧ j = key r)
        then Z.lor (pending s j) (rising current r) else pending s j) →
      (∃ l, ev_key <$> events s1 = (ev_key <$> events s) ++ l) →
      observed_one t current i r s (set_registrations
        (alter (set_observed (Z.land current (requested r))) i (registrations s1)) s1)) as Hfin.
    { intros s1 Hi1 Hb1 Hr1 Hp1 Hf1.
      assert (alter (set_observed (Z.land current (requested r))) i (registrations s1) =
        alter (saw t current) i (registrations s1)) as ->.
      { apply list_eq. intros j. destruct (decide (j = i)) as [->|];
          [|by rewrite !list_lookup_alter_ne].
        rewrite !list_lookup_alter_eq, Hr1, Hr. cbn. unfold saw. by rewrite decide_True. }
      split; cbn; [by apply inv_saw|done|by rewrite Hr1|exact Hp1|done]. }
    wp_steps. destruct (Z.eqb_spec (rising current r) 0) as [Hz|Hz]; cbn [negb]; wp_steps.
    + apply Hfin; try done; [|exists []; by rewrite app_nil_r].
      intros j. rewrite Hz, Z.lor_0_r. by destruct (decide _).
    + eapply wp_mono; [apply queue_event_spec; apply Hi|cbv beta|cbv beta].
      * intros _ s1 Hq. wp_steps. pose proof Hq as [Hrest Hkeys Hpend Hbound]. apply Hfin.
        -- eapply queued_inv; [done..|apply rising_subset|done|exact Hq].
        -- by rewrite Hrest.
        -- by rewrite Hrest.
        -- intros j. rewrite Hpend. destruct (decide (j = key r)), (decide (target r = t ∧ j = key r)); naive_solver.
        -- rewrite Hkeys. case_decide; [exists []; by rewrite app_nil_r|by eexists].
      * intros _ s1 (-> & Hni & Hfull). split; [done|]. intros Hcap.
        pose proof (port_room s r Hi Hcap Hin Hni). lia.
  - wp_steps. split; [done|done|by erewrite alter_saw_id|..|exists []; by rewrite app_nil_r].
    intros j. by rewrite decide_False by naive_solver.
Qed.

(** The first [n] registrations have been processed. *)
Record observed_upto (t : Target) (current : Signals.t) (n : nat) (s s' : State) : Prop := {
  ou_inv : inv s';
  ou_bounds : same_bounds s s';
  ou_regs : ∀ m, registrations s' !! m =
    (if decide (m < n)%nat then saw t current else id) <$> registrations s !! m;
  ou_pending : ∀ m r, registrations s !! m = Some r → pending s' (key r) =
    if decide ((m < n)%nat ∧ target r = t) then Z.lor (pending s (key r)) (rising current r)
    else pending s (key r);
  ou_fifo : ∃ l, ev_key <$> events s' = (ev_key <$> events s) ++ l;
}.

Lemma observed_upto_step t current n r s s1 s2 : inv s → registrations s !! n = Some r →
  observed_upto t current n s s1 → observed_one t current n r s1 s2 →
  observed_upto t current (S n) s s2.
Proof.
  intros Hi Hr [Hi1 Hb1 Hr1 Hp1 [l1 Hf1]] [Hi2 Hb2 Hr2 Hp2 [l2 Hf2]]. split.
  - done.
  - unfold same_bounds in *. intuition congruence.
  - intros m. rewrite Hr2. destruct (decide (m = n)) as [->|Hne].
    + rewrite list_lookup_alter_eq, Hr1, Hr. rewrite decide_False, decide_True by lia. done.
    + rewrite list_lookup_alter_ne, Hr1 by done.
      destruct (decide (m < n)%nat), (decide (m < S n)%nat); (done || lia).
  - intros m r' Hm. rewrite Hp2, (Hp1 m r' Hm). destruct (decide (m = n)) as [->|Hne].
    + assert (r' = r) as -> by congruence.
      destruct (decide (target r = t ∧ key r = key r)), (decide (n < n ∧ target r = t)%nat),
        (decide (n < S n ∧ target r = t)%nat); naive_solver lia.
    + rewrite decide_False.
      * destruct (decide (m < n ∧ target r' = t)%nat), (decide (m < S n ∧ target r' = t)%nat);
          (done || naive_solver lia).
      * intros [_ Hk]. apply Hne. eapply NoDup_lookup; [apply Hi|..];
          rewrite list_lookup_fmap; [by rewrite Hm|by rewrite Hr, Hk].
  - exists (l1 ++ l2). by rewrite Hf2, Hf1, app_assoc.
Qed.

Lemma observe_loop_spec t current s k n s1 : inv s →
  (n + k = length (registrations s))%nat → observed_upto t current n s s1 →
  wp (for_each (seq n k) (observe_one t current))
    (λ _ s', observed_upto t current (length (registrations s)) s s')
    (λ _ s', ¬ (registration_capacity s ≤ event_capacity s)%nat ∧
             ∃ m, (m < length (registrations s))%nat ∧ observed_upto t current m s s') s1.
Proof.
  intros Hi. revert n s1. induction k as [|k IH]; intros n s1 Hk Hu; cbn [seq for_each]; wp_steps.
  - by replace (length (registrations s)) with n by lia.
  - destruct (lookup_lt_is_Some_2 (registrations s) n) as [r Hr]; [lia|].
    assert (registrations s1 !! n = Some r) as Hr1.
    { rewrite (ou_regs _ _ _ _ _ Hu), Hr. by rewrite decide_False by lia. }
    eapply wp_mono; [apply observe_one_spec; [apply Hu|exact Hr1]|cbv beta|cbv beta].
    + intros _ s2 Hone. apply IH; [lia|]. by eapply observed_upto_step.
    + intros _ s2 [-> Hcap]. destruct (ou_bounds _ _ _ _ _ Hu) as (Hb1 & Hb2 & _). rewrite Hb1, Hb2 in Hcap.
      split; [done|]. exists n. split; [lia|done].
Qed.

Lemma observe_spec s t current : inv s →
  wp (observe t current)
    (λ _ s', observed_upto t current (length (registrations s)) s s')
    (λ _ s', ¬ (registration_capacity s ≤ event_capacity s)%nat ∧
             ∃ m, (m < length (registrations s))%nat ∧ observed_upto t current m s s') s.
Proof.
  intros Hi. unfold observe. wp_steps. apply observe_loop_spec; [done|lia|].
  split; [done|done|..].
  - intros m. rewrite decide_False by lia. by rewrite option_fmap_id.
  - intros m r Hm. by rewrite decide_False by lia.
  - exists []. by rewrite app_nil_r.
Qed.

(** ** Registering, removing and popping *)

Lemma key_notin_events s k : inv s → k ∉ key <$> registrations s → k ∉ ev_key <$> events s.
Proof.
  intros Hi Hk (e & -> & He)%list_elem_of_fmap. apply Hk.
  destruct (inv_event_reg s Hi e He) as (_ & r & Hr & <- & _). by apply list_elem_of_fmap_2.
Qed.

Lemma inv_registered s r : inv s → registration_ok (maximum_key s) r →
  key r ∉ key <$> registrations s → (length (registrations s) < registration_capacity s)%nat →
  inv (set_registrations (push (registrations s) r) s).
Proof.
  intros [Hb Hk Hv Heb Hek Her] Hok Hni Hlen. split; cbn; unfold push; try done.
  - rewrite length_app. cbn. lia.
  - rewrite fmap_app. apply NoDup_app. split_and!; [done| |apply NoDup_singleton].
    intros x Hx ->%list_elem_of_singleton. done.
  - apply Forall_app. split; [done|]. by rewrite Forall_singleton.
  - intros e He. destruct (Her e He) as (? & r' & ? & ?). split; [done|]. exists r'. set_solver.
Qed.

Lemma set_registrations_queued s s' k w l : queued k w s s' → registrations s' = registrations s →
  queued k w (set_registrations l s) (set_registrations l s').
Proof. intros [H1 H2 H3 H4] Hr. split; [|done..]. by rewrite H1. Qed.

Lemma port_add_spec s t req k current : inv s →
  wp (add t req k current)
    (λ _ s', inv s' ∧ same_bounds s s' ∧ k ∉ key <$> registrations s ∧
       registrations s' = registrations s ++
         [{| target := t; requested := req; key := k; observed := Z.land current req |}] ∧
       ∀ j, pending s' j = if decide (j = k) then Z.land current req else pending s j)
    (λ e s', s' = s ∧ (e = AddEventQueueFull → ¬ (registration_capacity s ≤ event_capacity s)%nat)) s.
Proof.
  intros Hi. unfold add. wp_steps; try done. bool_simpl.
  assert (k ∉ key <$> registrations s) as Hni.
  { intros (r & -> & Hr)%list_elem_of_fmap. apply (proj1 (any_false _ _) H2) in Hr.
    by rewrite Z.eqb_refl in Hr. }
  pose proof (key_notin_events s k Hi Hni) as Hne.
  set (r := {| target := t; requested := req; key := k; observed := Z.land current req |}).
  assert (inv (set_registrations (push (registrations s) r) s)) as Hir.
  { apply inv_registered; [done| |done|lia]. split_and!; try done. apply bits_subset_land_r. }
  destruct (Z.eqb_spec (Z.land current req) 0) as [Hz|Hz]; cbn [negb]; wp_steps.
  - split_and!; [done..|]. intros j. rewrite Hz. case_decide; [|done]. subst j.
    by apply pending_in_notin.
  - eapply wp_mono; [apply queue_event_spec; apply Hi|cbv beta|cbv beta].
    + intros [] s' Hq. wp_steps. pose proof Hq as [Hrest Hkeys Hpend Hbound].
      assert (registrations s' = registrations s) as Hregs by by rewrite Hrest.
      rewrite Hregs. split_and!; [|by rewrite Hrest|done|done|].
      * eapply (queued_inv _ _ r); [exact Hir| | |exact Hz|by apply set_registrations_queued].
        -- cbn. unfold push. set_solver.
        -- apply bits_subset_land_r.
      * intros j. change (pending (set_registrations _ s') j) with (pending s' j). rewrite Hpend.
        destruct (decide (j = k)); [subst j|done]. unfold pending. by rewrite pending_in_notin by done.
    + intros _ s' (-> & _ & Hfull). wp_steps. split; [done|]. intros _ Hcap.
      enough (length (events s) ≤ length (registrations s))%nat by lia.
      pose proof (NoDup_incl_length (l := ev_key <$> events s) (l' := key <$> registrations s)) as Hlen.
      rewrite !length_fmap in Hlen. apply Hlen; [apply NoDup_ListNoDup, Hi|].
      intros x. rewrite <- !list_elem_of_In. intros (e & -> & He)%list_elem_of_fmap.
      destruct (inv_event_reg s Hi e He) as (_ & r' & Hr & <- & _). by apply list_elem_of_fmap_2.
Qed.

Lemma pending_in_filter k j (l : list Event) :
  pending_in j (filter (λ e, ev_key e ≠ k) l) = if decide (j = k) then 0 else pending_in j l.
Proof.
  induction l as [|e l IH]; [by case_decide|]. rewrite filter_cons. destruct (decide (ev_key e ≠ k)) as [Hk|Hk]; cbn [pending_in]; rewrite IH.
  - destruct (Z.eqb_spec (ev_key e) j), (decide (j = k)); congruence.
  - destruct (decide (j = k)) as [->|Hne]; [done|]. by rewrite (proj2 (Z.eqb_neq _ _)) by naive_solver.
Qed.

Lemma port_remove_spec s k : inv s →
  wp (remove k)
    (λ r s', inv s' ∧ same_bounds s s' ∧ key r = k ∧
       (∃ i, registrations s !! i = Some r ∧ registrations s' = delete i (registrations s)) ∧
       ∀ j, pending s' j = if decide (j = k) then 0 else pending s j)
    (λ _ s', s' = s) s.
Proof.
  intros Hi. unfold remove. wp_steps; [|done].
  apply position_Some in H as (r & Hr & Hid & _). bool_simpl.
  eapply wpo_expect; [exact Hr|]. wp_steps.
  pose proof (delete_Permutation _ _ _ Hr) as Hp. destruct Hi as [Hb Hk Hv Heb Hek Her].
  split_and!; [|done|done|by eauto|intros j; apply pending_in_filter]. split; cbn.
  - apply Permutation_length in Hp. cbn in Hp. lia.
  - rewrite Hp in Hk. by apply NoDup_cons in Hk as [_ ?].
  - rewrite Hp in Hv. by apply Forall_cons in Hv as [_ ?].
  - etransitivity; [apply length_filter|done].
  - eapply sublist_NoDup; [done|]. apply fmap_sublist, sublist_filter.
  - intros e [Hne He]%list_elem_of_filter. destruct (Her e He) as (? & r' & Hr' & ? & ?).
    split; [done|]. exists r'. split_and!; [|done..]. rewrite Hp in Hr'.
    apply elem_of_cons in Hr' as [->|?]; [congruence|done].
Qed.

Lemma pop_event_spec s : inv s →
  match pop_event s with
  | (None, s') => s' = s ∧ events s = []
  | (Some e, s') => inv s' ∧ same_bounds s s' ∧ registrations s' = registrations s ∧
      events s = e :: events s' ∧ ev_signals e = pending s (ev_key e) ∧ ev_signals e ≠ 0 ∧
      ∀ j, pending s' j = if decide (j = ev_key e) then 0 else pending s j
  end.
Proof.
  intros Hi. unfold pop_event. destruct (events s) as [|e l] eqn:He; [done|].
  destruct Hi as [Hb Hk Hv Heb Hek Her]. unfold pending. cbn. rewrite He in *.
  rewrite fmap_cons, NoDup_cons in Hek. destruct Hek as [Hni Hnd]. split_and!; try done.
  - split; cbn in *; try done; [lia|]. intros x Hx. apply Her. by right.
  - cbn. by rewrite Z.eqb_refl.
  - apply Her. by left.
  - intros j. cbn. destruct (Z.eqb_spec (ev_key e) j), (decide (j = ev_key e)); try congruence.
    subst j. by apply pending_in_notin.
Qed.
