(* ===== verification/EventPortProps.v ===== *)
(** * EventPortProps: no edge is lost, none is delivered twice

    Histories of an event port, the log of accepted calls and deliveries that a caller
    sees, and the contract for each key that the log must keep. *)

From stdpp Require Import base list numbers option sets.
From Stdlib Require Import ZArith Lia.
From S2P Require Import Prelude Object EventPort.

Inductive op :=
| OAdd (t : Target) (req : Signals.t) (k : Z) (current : Signals.t)
| ORemove (k : Z)
| OObserve (t : Target) (current : Signals.t)
| OPop.

Definition op_typed (o : op) : Prop :=
  match o with
  | OAdd _ req _ current => is_u64 req ∧ is_u64 current
  | OObserve _ current => is_u64 current
  | _ => True
  end.

(** What a caller of the port sees: the accepted calls with their arguments, and the
    events it was given. *)
Inductive entry :=
| Added (t : Target) (req : Signals.t) (k : Z) (current : Signals.t)
| Removed (k : Z)
| Observed (t : Target) (current : Signals.t)
| Delivered (e : Event).

Definition exec (o : op) (s : State) : list entry * State :=
  match o with
  | OAdd t req k current =>
      match add t req k current s with
      | (Ok _, s') => ([Added t req k current], s')
      | (_, s') => ([], s')
      end
  | ORemove k =>
      match remove k s with (Ok _, s') => ([Removed k], s') | (_, s') => ([], s') end
  | OObserve t current =>
      match observe t current s with
      | (Ok _, s') => ([Observed t current], s')
      | (_, s') => ([], s')
      end
  | OPop =>
      match pop_event s with (Some e, s') => ([Delivered e], s') | (None, s') => ([], s') end
  end.

Fixpoint run (os : list op) (s : State) : list entry * State :=
  match os with
  | [] => ([], s)
  | o :: os =>
      let '(log, s1) := exec o s in let '(log', s2) := run os s1 in (log ++ log', s2)
  end.

(** ** The contract of one key, over what the caller sees *)

(** A watched key: its target and signals, the level of the target at its last report,
    and the signals that have risen since the last delivery. *)
Record watch := { w_target : Target; w_signals : Z; w_level : Z; w_owed : Z }.

(** The signals of [req] that are clear in [before] and asserted in [now]. *)
Definition edge (req before now : Z) : Z := Z.land req (Z.ldiff now before).

(** [None]: the entry breaks the contract. *)
Definition contract_step (k : Z) (w : option watch) (x : entry) : option (option watch) :=
  match x, w with
  | Added t req j current, None => Some (if j =? k then
      Some {| w_target := t; w_signals := req; w_level := current; w_owed := edge req 0 current |} else None)
  | Added _ _ j _, Some _ => if j =? k then None else Some w
  | Removed j, Some _ => Some (if j =? k then None else w)
  | Removed j, None => if j =? k then None else Some w
  | Observed t current, Some v => Some (Some (if decide (w_target v = t) then
      {| w_target := t; w_signals := w_signals v; w_level := current;
         w_owed := Z.lor (w_owed v) (edge (w_signals v) (w_level v) current) |} else v))
  | Observed _ _, None => Some None
  | Delivered e, Some v => if negb (ev_key e =? k) then Some w
      else if (ev_signals e =? w_owed v) && negb (w_owed v =? 0) then
        Some (Some {| w_target := w_target v; w_signals := w_signals v; w_level := w_level v; w_owed := 0 |})
      else None
  | Delivered e, None => if ev_key e =? k then None else Some None
  end.
Fixpoint contract (k : Z) (w : option watch) (log : list entry) : option (option watch) :=
  match log with [] => Some w | x :: log => contract_step k w x ≫= λ w', contract k w' log end.

Definition outstanding (w : option watch) : Z := match w with Some v => w_owed v | None => 0 end.

(** The port keeps the contract's state: the level masked by the request in the
    registration, the outstanding signals in the queue. *)
Definition watches (k : Z) (w : option watch) (s : State) : Prop :=
  pending s k = outstanding w ∧
  match w with
  | Some v => ∃ r, r ∈ registrations s ∧ key r = k ∧ target r = w_target v ∧ requested r = w_signals v ∧
      is_u64 (w_signals v) ∧ observed r = Z.land (w_level v) (w_signals v)
  | None => k ∉ key <$> registrations s
  end.

Lemma contract_app k w l1 l2 : contract k w (l1 ++ l2) = contract k w l1 ≫= λ w', contract k w' l2.
Proof.
  revert w. induction l1 as [|x l1 IH]; intros w; cbn; [done|].
  destruct (contract_step k w x); [apply IH|done].
Qed.

Lemma masked_u64 a b : is_u64 b → is_u64 (Z.land a b).
Proof.
  intros [Hb Hi]%is_u64_bits. apply is_u64_bits. split; [apply Z.land_nonneg; by right|].
  intros i ?. by rewrite Z.land_spec, Hi, andb_false_r.
Qed.

(** The bits the port computes from its masked level are the edges. *)
Lemma rising_edge r v current : requested r = w_signals v → is_u64 (w_signals v) →
  observed r = Z.land (w_level v) (w_signals v) → rising current r = edge (w_signals v) (w_level v) current.
Proof.
  intros Hr Hu Ho. unfold rising, edge. rewrite Hr, Ho. apply Z.bits_inj'. intros i Hi.
  rewrite testbit_andnot by (by apply masked_u64).
  rewrite !Z.land_spec, Z.ldiff_spec. destruct (Z.testbit current i), (Z.testbit (w_signals v) i), (Z.testbit (w_level v) i); done.
Qed.

Lemma edge_from_clear req current : edge req 0 current = Z.land current req.
Proof. unfold edge. by rewrite Z.ldiff_0_r, Z.land_comm. Qed.

Definition roomy (s : State) : Prop := (registration_capacity s ≤ event_capacity s)%nat.

Lemma roomy_bounds s s' : same_bounds s s' → roomy s → roomy s'.
Proof. unfold roomy. intros (-> & -> & _). done. Qed.

Lemma add_watches s s' t req j current k w : is_u64 req → inv s → inv s' → j ∉ key <$> registrations s →
  registrations s' = registrations s ++ [{| target := t; requested := req; key := j; observed := Z.land current req |}] →
  (∀ i, pending s' i = if decide (i = j) then Z.land current req else pending s i) → watches k w s →
  ∃ w', contract_step k w (Added t req j current) = Some w' ∧ watches k w' s'.
Proof.
  intros Hu Hi Hi' Hni Hr Hp [Hk Hw]. unfold watches. rewrite Hp, Hr. destruct w as [v|]; cbn.
  - destruct Hw as (r & Hin & Hkr & Hw). destruct (Z.eqb_spec j k) as [->|Hne].
    + destruct Hni. rewrite <- Hkr. by apply list_elem_of_fmap_2.
    + rewrite decide_False by done. eexists. split; [done|]. split; [done|]. exists r. split; [set_solver|done].
  - destruct (Z.eqb_spec j k) as [->|Hne]; eexists; (split; [done|]).
    + rewrite decide_True by done. cbn. split; [by rewrite edge_from_clear|].
      eexists. split; [apply elem_of_app; right; by apply list_elem_of_singleton|]. by split_and!.
    + rewrite decide_False by done. split; [done|]. rewrite fmap_app. set_solver.
Qed.

Lemma observe_watches s s' t current k w : inv s →
  observed_upto t current (length (registrations s)) s s' → watches k w s →
  ∃ w', contract_step k w (Observed t current) = Some w' ∧ watches k w' s'.
Proof.
  intros Hi [Hi' Hb Hr Hp Hf] [Hk Hw]. destruct w as [v|]; (eexists; split; [done|]).
  - destruct Hw as (r & [m Hm]%list_elem_of_lookup & Hkr & Ht & Hq & Hu & Ho). pose proof (lookup_lt_Some _ _ _ Hm).
    pose proof (Hr m) as Hm'. rewrite decide_True, Hm in Hm' by done. apply list_elem_of_lookup_2 in Hm'.
    pose proof (Hp m r Hm) as Hpm. rewrite Hkr, Hk in Hpm. unfold saw in Hm'. rewrite <- Ht. destruct (decide (target r = t)) as [Heq|Hne].
    + rewrite decide_True in Hpm by done. split; [cbn; by rewrite Hpm, (rising_edge r v)|].
      eexists. split; [exact Hm'|]. cbn. rewrite Hq. by split_and!.
    + rewrite decide_False in Hpm by naive_solver. split; [done|]. exists r. by split_and!.
  - assert (k ∉ key <$> registrations s') as Hni; [|split; [|done]].
    + intros (r' & -> & [m Hm]%list_elem_of_lookup)%list_elem_of_fmap. apply Hw.
      rewrite Hr in Hm. apply fmap_Some in Hm as (r & Hrm & ->). apply list_elem_of_fmap. exists r.
      split; [|by eapply list_elem_of_lookup_2]. case_decide; [by rewrite saw_key|done].
    + cbn. unfold pending. by rewrite pending_in_notin by by apply key_notin_events.
Qed.

Lemma remove_watches s s' j k w i r0 : inv s → key r0 = j → registrations s !! i = Some r0 →
  registrations s' = delete i (registrations s) →
  (∀ x, pending s' x = if decide (x = j) then 0 else pending s x) → watches k w s →
  ∃ w', contract_step k w (Removed j) = Some w' ∧ watches k w' s'.
Proof.
  intros Hi Hkey Hj Hr Hp [Hk Hw].
  assert (∀ r, r ∈ delete i (registrations s) ↔ r ∈ registrations s ∧ key r ≠ j) as Hdel.
  { intros r. pose proof (delete_Permutation _ _ _ Hj) as Hperm. pose proof (inv_keys s Hi) as Hnd.
    rewrite Hperm, fmap_cons, NoDup_cons in Hnd. rewrite Hperm at 2. rewrite elem_of_cons. destruct Hnd as [Hni _].
    split; [|naive_solver]. intros Hin. split; [by right|]. intros Heq. apply Hni. rewrite Hkey, <- Heq. by apply list_elem_of_fmap_2. } unfold watches. rewrite Hp, Hr. destruct w as [v|]; cbn; destruct (Z.eqb_spec j k) as [->|Hne].
  - eexists. split; [done|]. rewrite decide_True by done. split; [done|].
    intros (r & -> & [_ Hrk]%Hdel)%list_elem_of_fmap. done.
  - eexists. split; [done|]. rewrite decide_False by done. split; [done|].
    destruct Hw as (r & Hin & Hkr & Hw). exists r. split; [|done]. apply Hdel. split; [done|congruence].
  - destruct Hw. rewrite <- Hkey. apply list_elem_of_fmap_2. by eapply list_elem_of_lookup_2.
  - eexists. split; [done|]. rewrite decide_False by done. split; [done|].
    intros (r & -> & [Hin _]%Hdel)%list_elem_of_fmap. apply Hw. by apply list_elem_of_fmap_2.
Qed.

Lemma pop_watches s s' e k w : inv s → registrations s' = registrations s → ev_key e ∈ key <$> registrations s →
  ev_signals e = pending s (ev_key e) → ev_signals e ≠ 0 →
  (∀ i, pending s' i = if decide (i = ev_key e) then 0 else pending s i) → watches k w s →
  ∃ w', contract_step k w (Delivered e) = Some w' ∧ watches k w' s'.
Proof.
  intros Hi Hr Hj Hs Hnz Hp [Hk Hw]. unfold watches. rewrite Hp, Hr. destruct w as [v|]; cbn; destruct (Z.eqb_spec (ev_key e) k) as [Heq|Hne]; cbn [negb].
  - rewrite Heq, Hk in Hs. cbn in Hs. rewrite <- Hs, Z.eqb_refl, (proj2 (Z.eqb_neq _ _) Hnz). cbn [negb andb].
    eexists. split; [done|]. rewrite decide_True by done. by split.
  - eexists. split; [done|]. by rewrite decide_False by done.
  - congruence.
  - eexists. split; [done|]. by rewrite decide_False by done.
Qed.

Lemma exec_watches o s : inv s → roomy s → op_typed o →
  let '(log, s') := exec o s in
  inv s' ∧ roomy s' ∧ ∀ k w, watches k w s → ∃ w', contract k w log = Some w' ∧ watches k w' s'.
Proof.
  assert (∀ k w s' x, (∃ w', contract_step k w x = Some w' ∧ watches k w' s') →
    ∃ w', contract k w [x] = Some w' ∧ watches k w' s') as Hone.
  { intros k w s' x (w' & Hc & Hw). exists w'. cbn. by rewrite Hc. }
  assert (∀ k w s, watches k w s → ∃ w', contract k w [] = Some w' ∧ watches k w' s) as Hnil by (intros k w ? ?; by exists w).
  intros Hi Hroom Ho. destruct o as [t req k0 current|k0|t current|]; cbn [exec].
  - pose proof (port_add_spec s t req k0 current Hi) as H. unfold wp in H.
    destruct (add t req k0 current s) as [[[]| |] s']; [|by destruct H as [-> _]; eauto|done].
    destruct H as (Hi' & Hb & Hni & Hr & Hp). split_and!; [done|by eapply roomy_bounds|].
    intros k w Hw. apply Hone. apply (add_watches s); [apply Ho|done..].
  - pose proof (port_remove_spec s k0 Hi) as H. unfold wp in H.
    destruct (remove k0 s) as [[r| |] s']; [|by subst; eauto|done].
    destruct H as (Hi' & Hb & Hin & (i & Hir & Hr) & Hp). split_and!; [done|by eapply roomy_bounds|].
    intros k w Hw. apply Hone. by apply (remove_watches s _ _ _ _ i r).
  - pose proof (observe_spec s t current Hi) as H. unfold wp in H.
    destruct (observe t current s) as [[[]| |] s']; [|by destruct H|done].
    split_and!; [exact (ou_inv _ _ _ _ _ H)|exact (roomy_bounds _ _ (ou_bounds _ _ _ _ _ H) Hroom)|].
    intros k w Hw. apply Hone. by apply (observe_watches s).
  - pose proof (pop_event_spec s Hi) as H. destruct (pop_event s) as [[e|] s']; [|by destruct H as [-> _]; eauto].
    destruct H as (Hi' & Hb & Hr & Hk & Hs & Hnz & Hp). split_and!; [done|by eapply roomy_bounds|].
    intros k w Hw. apply Hone. apply (pop_watches s); [done|done| |done..].
    destruct (inv_event_reg s Hi e) as (_ & r & Hin & <- & _); [rewrite Hk; by left|]. by apply list_elem_of_fmap_2.
Qed.

Lemma run_watches os s : inv s → roomy s → Forall op_typed os →
  let '(log, s') := run os s in
  inv s' ∧ roomy s' ∧ ∀ k w, watches k w s → ∃ w', contract k w log = Some w' ∧ watches k w' s'.
Proof.
  intros Hi Hroom Hos. revert s Hi Hroom. induction Hos as [|o os Ho Hos IH]; intros s Hi Hroom; cbn.
  { split_and!; [done..|]. intros k w ?. by exists w. }
  pose proof (exec_watches o s Hi Hroom Ho) as H. destruct (exec o s) as [log s1].
  destruct H as (Hi1 & Hroom1 & H1). pose proof (IH s1 Hi1 Hroom1) as H.
  destruct (run os s1) as [log' s2]. destruct H as (Hi2 & Hroom2 & H2).
  split_and!; [done..|]. intros k w Hw. destruct (H1 k w Hw) as (w1 & Hc1 & Hw1). destruct (H2 k w1 Hw1) as (w2 & Hc2 & Hw2).
  exists w2. split; [|done]. by rewrite contract_app, Hc1.
Qed.



(** One observation updates every registration of the target and no other.  If
    [observe] succeeds, each registration of the observed target now remembers
    exactly the requested bits currently asserted, and its queued event gains
    exactly the bits that were not asserted at its previous observation; other
    registrations and their events are unchanged, and queued events keep their
    order.  If it fails for lack of queue space the same holds for a prefix of the
    registrations and the rest are untouched, so the refused edge is still seen as
    rising by the next observation. *)
Theorem observe_effect (s : State) (t : Target) (current : Signals.t) (Hi : inv s) :
  let '(o, s') := observe t current s in
  ∃ n, (o = Ok () ∧ n = length (registrations s) ∨
        o = Err EventQueueFull ∧ (n < length (registrations s))%nat ∧
        (event_capacity s < registration_capacity s)%nat) ∧
    (∀ m r, registrations s !! m = Some r →
       registrations s' !! m = Some (if bool_decide ((m < n)%nat ∧ target r = t)
         then set_observed (Z.land current (requested r)) r else r) ∧
       pending s' (key r) = (if bool_decide ((m < n)%nat ∧ target r = t)
         then Z.lor (pending s (key r)) (rising current r) else pending s (key r))) ∧
    ∃ l, ev_key <$> events s' = (ev_key <$> events s) ++ l.
Proof.
  assert (∀ n s', observed_upto t current n s s' →
    (∀ m r, registrations s !! m = Some r →
       registrations s' !! m = Some (if bool_decide ((m < n)%nat ∧ target r = t)
         then set_observed (Z.land current (requested r)) r else r) ∧
       pending s' (key r) = (if bool_decide ((m < n)%nat ∧ target r = t)
         then Z.lor (pending s (key r)) (rising current r) else pending s (key r)))) as Hn.
  { intros n s' [Hi' Hb Hr Hp Hf] m r Hm. rewrite Hr, (Hp m r Hm), Hm. unfold saw.
    destruct (decide (m < n)%nat); cbn; [destruct (decide (target r = t)); cbn|].
    - by rewrite decide_True, bool_decide_eq_true_2.
    - by rewrite decide_False, bool_decide_eq_false_2 by naive_solver.
    - by rewrite decide_False, bool_decide_eq_false_2 by naive_solver. }
  pose proof (observe_spec s t current Hi) as H. unfold wp in H.
  destruct (observe t current s) as [[[]|[]|] s']; [..|done].
  - exists (length (registrations s)). split_and!; [by left|by apply Hn|apply H].
  - destruct H as (Hcap & n & Hlt & Hu). exists n. split_and!; [right; split_and!; [done..|lia]|by apply Hn|apply Hu].
Qed.

Lemma observe_effect_witness :
  let t := {| object_id := 4; object_kind := 2 |} in
  let s := (run [OAdd t 3 9 1; OPop] (new 1 1 100)).2 in
  inv s ∧ (observe t 2 s).1 = Ok () ∧ pending (observe t 2 s).2 9 = 2.
Proof.
  intros t s. assert (inv s) as Hi.
  { pose proof (run_watches [OAdd t 3 9 1; OPop] (new 1 1 100) (event_port_new_inv _ _ _)
      ltac:(unfold roomy; cbn; lia) ltac:(repeat constructor; done)) as H. unfold s. destruct (run _ _) as [log s0]. apply H. }
  split; [exact Hi|]. pose proof (observe_effect s t 2 Hi) as H.
  destruct (observe t 2 s) as [o s'] eqn:E.
  assert (o = Ok ()) as -> by (vm_compute in E; congruence). split; [done|].
  destruct H as (n & Hn & H & _).
  assert (n = 1%nat) as -> by (destruct Hn as [[_ ->]|[? _]]; [by vm_compute|done]).
  destruct (H 0%nat {| target := t; requested := 3; key := 9; observed := 1 |}) as [_ Hp]; [by vm_compute|].
  cbn [snd]. cbn [key] in Hp. rewrite Hp. by vm_compute.
Defined.
