(* ===== verification/ProcessModel.v ===== *)
(** * ProcessModel: process and thread lifecycle (kernel/src/process_model.rs)

    The bounded table of processes, their threads and the parent tree, with every
    lifecycle transition. *)

From stdpp Require Import base list numbers option sets strings.
From Stdlib Require Import ZArith Lia.
From S2P Require Import Prelude.

Definition MAX_PROCESSES : nat := 128.
Definition MAX_THREADS : nat := 256.
Definition MAX_THREADS_PER_PROCESS : nat := 16.
Definition MAX_CHILDREN_PER_PROCESS : nat := 16.

Abbreviation ProcessId := Z.
Abbreviation ThreadId := Z.

Definition id_from_raw (raw : Z) : option Z := if raw =? 0 then None else Some raw.

Inductive ProcessState := PCreated | PRunning | PExited.
Inductive ThreadState := Runnable | Running | Blocked | Sleeping | Stopped | Exited.

#[export] Instance ProcessState_eq_dec : EqDecision ProcessState.
Proof. solve_decision. Defined.
#[export] Instance ThreadState_eq_dec : EqDecision ThreadState.
Proof. solve_decision. Defined.

Record ThreadExit := { te_thread : ThreadId; te_process : ProcessId; te_status : Z }.
Record ProcessExit := { pe_process : ProcessId; pe_status : Z }.

Inductive CreateError :=
  ProcessLimitReached | ThreadLimitReached | DuplicateThread | CreateInvalidProcess
  | ProcessExited | ThreadLimitPerProcessReached | ChildLimitReached.
Inductive LookupError := LookupInvalidProcess | LookupInvalidThread.
Inductive StateError := InvalidThread | InvalidTransition.
Inductive JoinError := JoinInvalidThread | JoinNotExited | JoinDetached.
Inductive ReapError := ReapInvalidProcess | ReapNotExited | HasThreads | HasChildren.

Record Thread := {
  t_id : ThreadId; t_process : ProcessId; t_name : string; t_state : ThreadState;
  t_resume : option ThreadState; t_detached : bool; t_exit : option ThreadExit;
}.

Record Process := {
  p_id : ProcessId; p_parent : option ProcessId; p_state : ProcessState;
  p_threads : list Thread; p_children : list ProcessId; p_exit : option ProcessExit;
}.

Record ProcessTable := {
  next_process_id : Z; next_thread_id : Z; processes : list Process; thread_count : nat;
}.

Definition set_t_state (x : ThreadState) (t : Thread) : Thread :=
  {| t_id := t_id t; t_process := t_process t; t_name := t_name t; t_state := x;
     t_resume := t_resume t; t_detached := t_detached t; t_exit := t_exit t |}.
Definition set_t_resume (x : option ThreadState) (t : Thread) : Thread :=
  {| t_id := t_id t; t_process := t_process t; t_name := t_name t; t_state := t_state t;
     t_resume := x; t_detached := t_detached t; t_exit := t_exit t |}.
Definition set_t_detached (t : Thread) : Thread :=
  {| t_id := t_id t; t_process := t_process t; t_name := t_name t; t_state := t_state t;
     t_resume := t_resume t; t_detached := true; t_exit := t_exit t |}.
Definition set_t_exit (x : ThreadExit) (t : Thread) : Thread :=
  {| t_id := t_id t; t_process := t_process t; t_name := t_name t; t_state := t_state t;
     t_resume := t_resume t; t_detached := t_detached t; t_exit := Some x |}.

Definition set_p_state (x : ProcessState) (p : Process) : Process :=
  {| p_id := p_id p; p_parent := p_parent p; p_state := x; p_threads := p_threads p;
     p_children := p_children p; p_exit := p_exit p |}.
Definition set_p_threads (l : list Thread) (p : Process) : Process :=
  {| p_id := p_id p; p_parent := p_parent p; p_state := p_state p; p_threads := l;
     p_children := p_children p; p_exit := p_exit p |}.
Definition set_p_children (l : list ProcessId) (p : Process) : Process :=
  {| p_id := p_id p; p_parent := p_parent p; p_state := p_state p; p_threads := p_threads p;
     p_children := l; p_exit := p_exit p |}.
Definition set_p_parent (x : option ProcessId) (p : Process) : Process :=
  {| p_id := p_id p; p_parent := x; p_state := p_state p; p_threads := p_threads p;
     p_children := p_children p; p_exit := p_exit p |}.
Definition set_p_exit (x : ProcessExit) (p : Process) : Process :=
  {| p_id := p_id p; p_parent := p_parent p; p_state := PExited; p_threads := p_threads p;
     p_children := p_children p; p_exit := Some x |}.

Definition set_processes (l : list Process) (t : ProcessTable) : ProcessTable :=
  {| next_process_id := next_process_id t; next_thread_id := next_thread_id t;
     processes := l; thread_count := thread_count t |}.
Definition set_thread_count (n : nat) (t : ProcessTable) : ProcessTable :=
  {| next_process_id := next_process_id t; next_thread_id := next_thread_id t;
     processes := processes t; thread_count := n |}.
Definition set_next_thread_id (n : Z) (t : ProcessTable) : ProcessTable :=
  {| next_process_id := next_process_id t; next_thread_id := n;
     processes := processes t; thread_count := thread_count t |}.

Definition new : ProcessTable :=
  {| next_process_id := 1; next_thread_id := 1; processes := []; thread_count := 0 |}.

Definition process_count (t : ProcessTable) : nat := length (processes t).

Abbreviation Op E A := (M ProcessTable E A).

(** ** Lookup *)

Definition process_index (t : ProcessTable) (id : ProcessId) : option nat :=
  position (λ p, p_id p =? id) (processes t).

(** [process(id)]: the first process with the identity. *)
Definition process (t : ProcessTable) (id : ProcessId) : option Process :=
  i ← process_index t id; processes t !! i.

(** Where [thread(id)] finds a thread: the first process, in table order, that has
    one with the identity, and its first such thread. *)
Fixpoint thread_index_in (l : list Process) (id : ThreadId) : option (nat * nat) :=
  match l with
  | [] => None
  | p :: l =>
      match position (λ th, t_id th =? id) (p_threads p) with
      | Some j => Some (0, j)%nat
      | None => prod_map S (λ j, j) <$> thread_index_in l id
      end
  end.
Definition thread_index (t : ProcessTable) (id : ThreadId) : option (nat * nat) :=
  thread_index_in (processes t) id.

Definition thread_at (t : ProcessTable) (ij : nat * nat) : option Thread :=
  p ← processes t !! ij.1; p_threads p !! ij.2.

Definition thread (t : ProcessTable) (id : ThreadId) : option Thread :=
  ij ← thread_index t id; thread_at t ij.

(** [*process_mut(..) = f(..)] at a found index *)
Definition update_process (i : nat) (f : Process → Process) (t : ProcessTable) : ProcessTable :=
  set_processes (alter f i (processes t)) t.
Definition update_thread (ij : nat * nat) (f : Thread → Thread) (t : ProcessTable)
    : ProcessTable :=
  update_process ij.1 (λ p, set_p_threads (alter f ij.2 (p_threads p)) p) t.

(** [let thread = self.thread_mut(id).ok_or(e)?; ..]: [k] computes the new thread
    and the result from the old thread, or an error. *)
Definition with_thread {E A} (e : E) (id : ThreadId) (k : Thread → outcome E (Thread * A))
    : Op E A :=
  ij ← reads (λ t, ok_or (thread_index t id) e);
  th ← reads (λ t, expect (thread_at t ij));
  r ← lift (k th);
  _ ← modify (update_thread ij (λ _, r.1));
  mret r.2.

(** ** Creation *)

Definition create_process (parent : option ProcessId) : Op CreateError ProcessId :=
  t ← get;
  _ ← lift (err_if (bool_decide (MAX_PROCESSES ≤ length (processes t))%nat) ProcessLimitReached);
  _ ← lift (match parent with
            | None => mret ()
            | Some parent_id =>
                parent_process ← ok_or (process t parent_id) CreateInvalidProcess;
                _ ← err_if (bool_decide (p_state parent_process = PExited)) ProcessExited;
                err_if (bool_decide
                  (MAX_CHILDREN_PER_PROCESS ≤ length (p_children parent_process))%nat)
                  ChildLimitReached
            end);
  let id := next_process_id t in
  _ ← put {| next_process_id := saturating_add u64_max id 1; next_thread_id := next_thread_id t;
             processes := push (processes t)
               {| p_id := id; p_parent := parent; p_state := PCreated; p_threads := [];
                  p_children := []; p_exit := None |};
             thread_count := thread_count t |};
  _ ← (match parent with
       | None => mret ()
       | Some parent_id =>
           i ← reads (λ t, expect (process_index t parent_id));
           modify (update_process i (λ p, set_p_children (push (p_children p) id) p))
       end);
  mret id.

Definition validate_thread_creation (t : ProcessTable) (process_id : ProcessId)
    : outcome CreateError unit :=
  _ ← err_if (bool_decide (MAX_THREADS ≤ thread_count t)%nat) ThreadLimitReached;
  p ← ok_or (process t process_id) CreateInvalidProcess;
  _ ← err_if (bool_decide (p_state p = PExited)) ProcessExited;
  err_if (bool_decide (MAX_THREADS_PER_PROCESS ≤ length (p_threads p))%nat)
    ThreadLimitPerProcessReached.

(** The search of [allocate_thread_id]; [fuel] bounds the number of identities
    tried (at most one more than there are threads). *)
Fixpoint free_thread_id (fuel : nat) (t : ProcessTable) (raw : Z) : outcome CreateError Z :=
  match fuel with
  | O => Abort
  | S fuel =>
      match thread t raw with
      | None => mret raw
      | Some _ =>
          raw' ← ok_or (checked_add u64_max raw 1) ThreadLimitReached;
          free_thread_id fuel t raw'
      end
  end.

Definition allocate_thread_id : Op CreateError ThreadId :=
  t ← get;
  id ← lift (free_thread_id (S (thread_count t)) t (next_thread_id t));
  next ← lift (ok_or (checked_add u64_max id 1) ThreadLimitReached);
  _ ← modify (set_next_thread_id next);
  mret id.

Definition fresh_thread (process_id : ProcessId) (id : ThreadId) (name : string) : Thread :=
  {| t_id := id; t_process := process_id; t_name := name; t_state := Runnable;
     t_resume := None; t_detached := false; t_exit := None |}.

Definition insert_thread (process_id : ProcessId) (id : ThreadId) (name : string)
    : Op CreateError unit :=
  i ← reads (λ t, expect (process_index t process_id));
  _ ← modify (update_process i (λ p,
        set_p_state PRunning
          (set_p_threads (push (p_threads p) (fresh_thread process_id id name)) p)));
  modify (λ t, set_thread_count (thread_count t + 1) t).

Definition create_thread (process_id : ProcessId) (name : string) : Op CreateError ThreadId :=
  _ ← reads (λ t, validate_thread_creation t process_id);
  id ← allocate_thread_id;
  _ ← insert_thread process_id id name;
  mret id.

Definition create_thread_with_id (process_id : ProcessId) (id : ThreadId) (name : string)
    : Op CreateError ThreadId :=
  _ ← reads (λ t, validate_thread_creation t process_id);
  _ ← reads (λ t, err_if (bool_decide (is_Some (thread t id))) DuplicateThread);
  _ ← insert_thread process_id id name;
  mret id.

(** ** Rollback *)

Definition rollback_thread_creation (id : ThreadId) : Op StateError unit :=
  th ← reads (λ t, ok_or (thread t id) InvalidThread);
  _ ← lift (err_if (negb (bool_decide (t_state th = Runnable)) || t_detached th ||
                    bool_decide (is_Some (t_exit th))) InvalidTransition);
  i ← reads (λ t, ok_or (process_index t (t_process th)) InvalidThread);
  p ← reads (λ t, expect (processes t !! i));
  j ← lift (ok_or (position (λ th, t_id th =? id) (p_threads p)) InvalidThread);
  let rest := delete j (p_threads p) in
  _ ← modify (update_process i (λ p,
        set_p_state (if bool_decide (rest = []) then PCreated else p_state p)
          (set_p_threads rest p)));
  modify (λ t, set_thread_count (thread_count t - 1) t).

(** [if let Some(parent) = self.process_mut(parent_id) { parent.children.retain(..) }] *)
Definition forget_child (parent : option ProcessId) (child : ProcessId) (t : ProcessTable)
    : ProcessTable :=
  match parent ≫= process_index t with
  | Some i => update_process i (λ p, set_p_children (filter (λ c, c ≠ child) (p_children p)) p) t
  | None => t
  end.

Definition rollback_process_creation (process_id : ProcessId) : Op StateError unit :=
  p ← reads (λ t, ok_or (process t process_id) InvalidThread);
  _ ← lift (err_if (bool_decide (is_Some (p_exit p)) || negb (bool_decide (p_children p = [])))
              InvalidTransition);
  i ← reads (λ t, expect (process_index t process_id));
  _ ← modify (λ t, set_processes (delete i (processes t)) t);
  _ ← modify (forget_child (p_parent p) process_id);
  modify (λ t, set_thread_count (thread_count t - length (p_threads p)) t).

(** ** Thread transitions *)

(** A transition that only depends on the thread's state. *)
Definition set_state_when (ok : ThreadState → bool) (next : ThreadState) (th : Thread)
    : outcome StateError (Thread * unit) :=
  _ ← err_if (negb (ok (t_state th))) InvalidTransition;
  mret (set_t_state next th, ()).

Definition run_thread (id : ThreadId) : Op StateError unit :=
  with_thread InvalidThread id
    (set_state_when (λ x, bool_decide (x = Runnable)) Running).
Definition yield_thread (id : ThreadId) : Op StateError unit :=
  with_thread InvalidThread id
    (set_state_when (λ x, bool_decide (x = Running)) Runnable).
Definition block_thread (id : ThreadId) : Op StateError unit :=
  with_thread InvalidThread id
    (set_state_when (λ x, bool_decide (x = Runnable) || bool_decide (x = Running)) Blocked).
Definition sleep_thread (id : ThreadId) : Op StateError unit :=
  with_thread InvalidThread id
    (set_state_when (λ x, bool_decide (x = Runnable) || bool_decide (x = Running)) Sleeping).

Definition wake_thread (id : ThreadId) : Op StateError unit :=
  with_thread InvalidThread id (λ th,
    match t_state th, t_resume th with
    | Blocked, _ | Sleeping, _ => mret (set_t_state Runnable th, ())
    | Stopped, Some Blocked | Stopped, Some Sleeping =>
        mret (set_t_resume (Some Runnable) th, ())
    | _, _ => Err InvalidTransition
    end).

Definition stop_thread (id : ThreadId) : Op StateError unit :=
  with_thread InvalidThread id (λ th,
    resume_state ← match t_state th with
      | Runnable | Running => mret Runnable
      | Blocked => mret Blocked
      | Sleeping => mret Sleeping
      | Stopped | Exited => Err InvalidTransition
      end;
    _ ← err_if (bool_decide (is_Some (t_resume th))) InvalidTransition;
    mret (set_t_state Stopped (set_t_resume (Some resume_state) th), ())).

Definition continue_thread (id : ThreadId) : Op StateError ThreadState :=
  with_thread InvalidThread id (λ th,
    _ ← err_if (negb (bool_decide (t_state th = Stopped))) InvalidTransition;
    resume_state ← ok_or (t_resume th) InvalidTransition;
    mret (set_t_state resume_state (set_t_resume None th), resume_state)).

(** ** Exit, join, detach, reap *)

Definition reclaim_exited_thread {E} (process_id : ProcessId) (id : ThreadId) : Op E unit :=
  i ← reads (λ t, expect (process_index t process_id));
  p ← reads (λ t, expect (processes t !! i));
  j ← lift (expect (position (λ th, (t_id th =? id) && bool_decide (t_state th = Exited))
                      (p_threads p)));
  _ ← modify (update_process i (λ p, set_p_threads (delete j (p_threads p)) p));
  modify (λ t, set_thread_count (thread_count t - 1) t).

Definition all_exited (p : Process) : bool :=
  negb (any (λ th, negb (bool_decide (t_state th = Exited))) (p_threads p)).

Definition exit_thread (id : ThreadId) (status : Z) : Op StateError (option ProcessExit) :=
  pd ← with_thread InvalidThread id (λ th,
    _ ← err_if (bool_decide (t_state th = Exited)) InvalidTransition;
    mret (set_t_exit {| te_thread := id; te_process := t_process th; te_status := status |}
            (set_t_resume None (set_t_state Exited th)), (t_process th, t_detached th)));
  i ← reads (λ t, ok_or (process_index t pd.1) InvalidThread);
  p ← reads (λ t, expect (processes t !! i));
  process_exit ←
    (if all_exited p then
       let e := {| pe_process := pd.1; pe_status := status |} in
       _ ← modify (update_process i (set_p_exit e)); mret (Some e)
     else mret None);
  _ ← (if pd.2 : bool then reclaim_exited_thread pd.1 id else mret ());
  mret process_exit.

Definition detach_thread (id : ThreadId) : Op StateError unit :=
  pe ← with_thread InvalidThread id (λ th,
    _ ← err_if (t_detached th) InvalidTransition;
    mret (set_t_detached th, (t_process th, bool_decide (t_state th = Exited))));
  if pe.2 : bool then reclaim_exited_thread pe.1 id else mret ().

Definition join_thread (id : ThreadId) : Op JoinError ThreadExit :=
  th ← reads (λ t, ok_or (thread t id) JoinInvalidThread);
  _ ← lift (err_if (t_detached th) JoinDetached);
  exit ← lift (ok_or (t_exit th) JoinNotExited);
  _ ← reclaim_exited_thread (t_process th) id;
  mret exit.

(** [if let Some(child) = self.process_mut(child_id) { child.parent = None }] *)
Definition orphan_one (t : ProcessTable) (child : ProcessId) : ProcessTable :=
  match process_index t child with
  | Some i => update_process i (set_p_parent None) t
  | None => t
  end.

Definition orphan_children (process_id : ProcessId) : Op LookupError nat :=
  i ← reads (λ t, ok_or (process_index t process_id) LookupInvalidProcess);
  p ← reads (λ t, expect (processes t !! i));
  _ ← modify (update_process i (set_p_children []));
  _ ← modify (λ t, foldl orphan_one t (p_children p));
  mret (length (p_children p)).

Definition reap_process (process_id : ProcessId) : Op ReapError ProcessExit :=
  p ← reads (λ t, ok_or (process t process_id) ReapInvalidProcess);
  _ ← lift (err_if (negb (bool_decide (p_state p = PExited))) ReapNotExited);
  _ ← lift (err_if (negb (bool_decide (p_threads p = []))) HasThreads);
  _ ← lift (err_if (negb (bool_decide (p_children p = []))) HasChildren);
  exit ← lift (expect (p_exit p));
  i ← reads (λ t, expect (process_index t process_id));
  _ ← modify (λ t, set_processes (delete i (processes t)) t);
  _ ← modify (forget_child (p_parent p) process_id);
  mret exit.

(** ** Snapshots *)

Definition threads (t : ProcessTable) (process_id : ProcessId)
    : outcome LookupError (list Thread) :=
  p ← ok_or (process t process_id) LookupInvalidProcess; mret (p_threads p).

Definition thread_state_count (t : ProcessTable) (process_id : ProcessId) (x : ThreadState)
    : outcome LookupError nat :=
  p ← ok_or (process t process_id) LookupInvalidProcess;
  mret (length (filter (λ th, t_state th = x) (p_threads p))).

Record ProcessSnapshot := {
  ps_id : ProcessId; ps_parent : option ProcessId; ps_state : ProcessState;
  ps_thread_count : nat; ps_live_thread_count : nat; ps_child_count : nat;
  ps_exit : option ProcessExit;
}.

Definition process_snapshot (t : ProcessTable) (process_id : ProcessId)
    : outcome LookupError ProcessSnapshot :=
  p ← ok_or (process t process_id) LookupInvalidProcess;
  mret {| ps_id := p_id p; ps_parent := p_parent p; ps_state := p_state p;
          ps_thread_count := length (p_threads p);
          ps_live_thread_count := length (filter (λ th, t_state th ≠ Exited) (p_threads p));
          ps_child_count := length (p_children p); ps_exit := p_exit p |}.

(** A thread snapshot carries every field of the thread. *)
Definition thread_snapshot (t : ProcessTable) (id : ThreadId) : outcome LookupError Thread :=
  ok_or (thread t id) LookupInvalidThread.

(** ** The table as a set of threads *)

Definition all_in (l : list Process) : list Thread := l ≫= p_threads.
Definition all_threads (t : ProcessTable) : list Thread := all_in (processes t).

Lemma thread_index_in_Some l id i j : thread_index_in l id = Some (i, j) →
  ∃ p th, l !! i = Some p ∧ p_threads p !! j = Some th ∧ t_id th = id.
Proof.
  revert i. induction l as [|p l IH]; intros i; cbn; [done|].
  destruct (position _ _) as [k|] eqn:Hk.
  - intros [= <- <-]. apply position_Some in Hk as (th & ? & ? & _). bool_simpl. by exists p, th.
  - intros ([i' j'] & H & [= -> ->])%fmap_Some. apply IH in H as (q & th & ? & ? & ?). by exists q, th.
Qed.

Lemma thread_index_in_None l id : thread_index_in l id = None → id ∉ t_id <$> all_in l.
Proof.
  induction l as [|p l IH]; cbn; [set_solver|]. destruct (position _ _) as [k|] eqn:Hk; [done|].
  intros H%fmap_None. rewrite fmap_app. apply not_elem_of_app. split; [|by apply IH].
  intros (th & -> & Hth)%list_elem_of_fmap. pose proof (position_None _ _ Hk th Hth) as Hne.
  cbn in Hne. by rewrite Z.eqb_refl in Hne.
Qed.

Lemma all_in_elem l th : th ∈ all_in l ↔ ∃ i j p, l !! i = Some p ∧ p_threads p !! j = Some th.
Proof.
  unfold all_in. rewrite list_elem_of_bind. split.
  - intros (p & [j Hj]%list_elem_of_lookup & [i Hi]%list_elem_of_lookup). by exists i, j, p.
  - intros (i & j & p & Hi & Hj). exists p. split; by eapply list_elem_of_lookup_2.
Qed.

Lemma all_in_insert (l : list Process) i p : l !! i = Some p →
  ∃ rest, all_in l ≡ₚ p_threads p ++ rest ∧ all_in (delete i l) ≡ₚ rest ∧
    ∀ p', all_in (<[i := p']> l) ≡ₚ p_threads p' ++ rest.
Proof.
  intros Hi. apply list_elem_of_split_length in Hi as (l1 & l2 & -> & ->).
  exists (all_in l1 ++ all_in l2). unfold all_in. split_and!; [..|intros p'].
  - rewrite bind_app. cbn. solve_Permutation.
  - by rewrite delete_middle, bind_app.
  - rewrite insert_app_r_alt, Nat.sub_diag, bind_app by lia. cbn. solve_Permutation.
Qed.

(** ** Invariant *)

Definition thread_ok (th : Thread) : Prop :=
  (match t_state th with
   | Stopped => t_resume th = Some Runnable ∨ t_resume th = Some Blocked ∨ t_resume th = Some Sleeping
   | _ => t_resume th = None
   end) ∧
  (t_state th = Exited → ∃ status, t_exit th =
     Some {| te_thread := t_id th; te_process := t_process th; te_status := status |}) ∧
  (t_state th ≠ Exited → t_exit th = None).

Record process_ok (p : Process) : Prop := {
  ok_owner : ∀ th, th ∈ p_threads p → t_process th = p_id p;
  ok_threads : ∀ th, th ∈ p_threads p → thread_ok th;
  ok_thread_limit : (length (p_threads p) ≤ MAX_THREADS_PER_PROCESS)%nat;
  ok_created : p_state p = PCreated → p_threads p = [];
  ok_exited : p_state p = PExited → ∀ th, th ∈ p_threads p → t_state th = Exited;
  ok_exit : match p_exit p with
            | Some e => p_state p = PExited ∧ pe_process e = p_id p
            | None => p_state p ≠ PExited
            end;
}.

(** Parent and child links agree; parents are older. *)
Record tree_ok (l : list Process) : Prop := {
  tr_ids : NoDup (p_id <$> l);
  tr_parent : ∀ p q, p ∈ l → p_parent p = Some q →
    q < p_id p ∧ ∃ pq, pq ∈ l ∧ p_id pq = q ∧ p_id p ∈ p_children pq;
  tr_children : ∀ p c, p ∈ l → c ∈ p_children p →
    ∃ pc, pc ∈ l ∧ p_id pc = c ∧ p_parent pc = Some (p_id p);
  tr_child_limit : ∀ p, p ∈ l →
    NoDup (p_children p) ∧ (length (p_children p) ≤ MAX_CHILDREN_PER_PROCESS)%nat;
}.

Record inv (t : ProcessTable) : Prop := {
  inv_tree : tree_ok (processes t);
  inv_limit : (length (processes t) ≤ MAX_PROCESSES)%nat;
  inv_next : 1 ≤ next_process_id t ∧ ∀ p, p ∈ processes t → 1 ≤ p_id p < next_process_id t;
  inv_thread_ids : NoDup (t_id <$> all_threads t);
  inv_count : thread_count t = length (all_threads t);
  inv_count_limit : (thread_count t ≤ MAX_THREADS)%nat;
  inv_processes : ∀ p, p ∈ processes t → process_ok p;
}.

Lemma table_new_inv : inv new.
Proof.
  split; cbn; [split; cbn; [apply NoDup_nil_2|set_solver..]|lia|split; [lia|set_solver]
    |apply NoDup_nil_2|done|unfold MAX_THREADS; lia|set_solver].
Qed.

(** ** Lookups under the invariant *)

Lemma process_Some t id p : process t id = Some p →
  ∃ i, process_index t id = Some i ∧ processes t !! i = Some p ∧ p_id p = id.
Proof.
  unfold process. intros (i & Hi & Hp)%bind_Some. exists i. split_and!; [done..|].
  apply position_Some in Hi as (p' & Hp' & Hid & _). bool_simpl. congruence.
Qed.

Lemma process_index_Some t id i : process_index t id = Some i →
  ∃ p, processes t !! i = Some p ∧ p_id p = id.
Proof. intros (p & Hp & Hid & _)%position_Some. bool_simpl. eauto. Qed.

Lemma process_index_lookup t i p : NoDup (p_id <$> processes t) → processes t !! i = Some p →
  process_index t (p_id p) = Some i.
Proof.
  intros Hnd Hi. destruct (position_is_Some (λ q, p_id q =? p_id p) (processes t) p) as [k Hk].
  - by eapply list_elem_of_lookup_2.
  - apply Z.eqb_refl.
  - unfold process_index. rewrite Hk. f_equal. apply position_Some in Hk as (q & Hq & Hid & _).
    bool_simpl. eapply NoDup_lookup; [exact Hnd|..]; rewrite list_lookup_fmap;
      [by rewrite Hq|rewrite Hi; cbn; by rewrite Hid].
Qed.

Lemma thread_at_elem t ij th : thread_at t ij = Some th → th ∈ all_threads t.
Proof.
  unfold thread_at. intros (p & Hp & Hth)%bind_Some. apply all_in_elem. eauto.
Qed.

Lemma thread_Some t id th : NoDup (t_id <$> all_threads t) →
  thread t id = Some th ↔ th ∈ all_threads t ∧ t_id th = id.
Proof.
  intros Hnd. unfold thread, thread_index. split.
  - intros ([i j] & Hij & Hth)%bind_Some. split; [by eapply thread_at_elem|].
    apply thread_index_in_Some in Hij as (p & th' & Hp & Hth' & Hid).
    unfold thread_at in Hth. cbn in Hth. rewrite Hp in Hth. cbn in Hth. congruence.
  - intros [Hin Hid]. destruct (thread_index_in (processes t) id) as [[i j]|] eqn:Hij.
    + apply thread_index_in_Some in Hij as (p & th' & Hp & Hth' & Hid'). cbn.
      assert (thread_at t (i, j) = Some th') as Hat.
      { unfold thread_at. cbn. rewrite Hp. done. }
      rewrite Hat. f_equal. eapply (NoDup_key_inj t_id (all_threads t)); [done| |done|congruence].
      by eapply thread_at_elem.
    + apply thread_index_in_None in Hij. destruct Hij. rewrite <- Hid.
      by apply list_elem_of_fmap_2.
Qed.

Lemma thread_None t id : thread t id = None ↔ id ∉ t_id <$> all_threads t.
Proof.
  unfold thread, thread_index. destruct (thread_index_in (processes t) id) as [[i j]|] eqn:Hij.
  - apply thread_index_in_Some in Hij as (p & th & Hp & Hth & Hid). cbn. unfold thread_at. cbn.
    rewrite Hp. cbn. rewrite Hth. split; [done|]. intros []. rewrite <- Hid.
    apply list_elem_of_fmap_2, all_in_elem. eauto.
  - split; [|done]. intros _. by apply thread_index_in_None.
Qed.

(** The thread's state, as other components see it. *)
Definition thread_state (t : ProcessTable) (id : ThreadId) : option ThreadState :=
  t_state <$> thread t id.

(** ** Changing one process in place *)

Definition links (p : Process) : ProcessId * option ProcessId * list ProcessId :=
  (p_id p, p_parent p, p_children p).

Lemma tree_ok_links l l' : links <$> l' = links <$> l → tree_ok l → tree_ok l'.
Proof.
  intros Hl [Hids Hpar Hch Hlim].
  assert (∀ l1 l2 : list Process, links <$> l1 = links <$> l2 →
    ∀ x, x ∈ l1 → ∃ y, y ∈ l2 ∧ links y = links x) as Hcor.
  { intros l1 l2 Heq x Hx. assert (links x ∈ links <$> l2) as (y & Hxy & Hy)%list_elem_of_fmap.
    { rewrite <- Heq. by apply list_elem_of_fmap_2. } by exists y. }
  assert (p_id <$> l' = p_id <$> l) as Hid.
  { change p_id with (λ p, (links p).1.1). rewrite !(list_fmap_compose links (λ x, x.1.1)).
    by rewrite Hl. }
  split.
  - by rewrite Hid.
  - intros p' q Hp' Hq. destruct (Hcor _ _ Hl p' Hp') as (p & Hp & [= Hi Hpp Hc]).
    destruct (Hpar p q Hp) as (? & pq & Hpq & ? & ?); [congruence|].
    destruct (Hcor _ _ (eq_sym Hl) pq Hpq) as (pq' & ? & [= ? ? ?]).
    split; [congruence|]. exists pq'. split_and!; congruence.
  - intros p' c Hp' Hc'. destruct (Hcor _ _ Hl p' Hp') as (p & Hp & [= Hi Hpp Hc]).
    destruct (Hch p c Hp) as (pc & Hpc & ? & ?); [congruence|].
    destruct (Hcor _ _ (eq_sym Hl) pc Hpc) as (pc' & ? & [= ? ? ?]).
    exists pc'. split_and!; congruence.
  - intros p' Hp'. destruct (Hcor _ _ Hl p' Hp') as (p & Hp & [= Hi Hpp Hc]).
    rewrite <- Hc. by apply Hlim.
Qed.

Lemma links_insert (l : list Process) i p p' : l !! i = Some p → links p' = links p →
  links <$> <[i := p']> l = links <$> l.
Proof.
  intros Hi Hp. rewrite list_fmap_insert, Hp. apply list_insert_id. by rewrite list_lookup_fmap, Hi.
Qed.

(** The table with process [i] replaced, the thread counter adjusted. *)
Definition replace_process (i : nat) (p' : Process) (n : nat) (t : ProcessTable) : ProcessTable :=
  set_thread_count n (set_processes (<[i := p']> (processes t)) t).

Lemma inv_replace_process t i p p' n : inv t → processes t !! i = Some p → links p' = links p →
  process_ok p' →
  (∀ rest, NoDup (t_id <$> p_threads p ++ rest) → all_in (delete i (processes t)) ≡ₚ rest →
     NoDup (t_id <$> p_threads p' ++ rest)) →
  (n + length (p_threads p) = thread_count t + length (p_threads p'))%nat → (n ≤ MAX_THREADS)%nat →
  inv (replace_process i p' n t).
Proof.
  intros [Htree Hlim [Hn1 Hn2] Hids Hcount Hcl Hps] Hi Hlinks Hok Hnd Hn HnM.
  destruct (all_in_insert _ _ _ Hi) as (rest & Hall & Hdel & Hall').
  assert (p_id p' = p_id p) as Hid by (injection Hlinks; done).
  assert (p ∈ processes t) as Hpin by by eapply list_elem_of_lookup_2.
  split; cbn.
  - eapply tree_ok_links; [|exact Htree]. by eapply links_insert.
  - by rewrite length_insert.
  - split; [done|]. intros q Hq. apply list_elem_of_lookup in Hq as [j Hj].
    apply list_lookup_insert_Some in Hj as [(-> & -> & _)|[_ Hj]].
    + rewrite Hid. by apply Hn2.
    + apply Hn2. by eapply list_elem_of_lookup_2.
  - unfold all_threads. cbn. rewrite Hall'. apply Hnd; [|done]. by rewrite <- Hall.
  - unfold all_threads in *. cbn. rewrite Hall', length_app. rewrite Hall, length_app in Hcount. lia.
  - done.
  - intros q Hq. apply list_elem_of_lookup in Hq as [j Hj].
    apply list_lookup_insert_Some in Hj as [(-> & -> & _)|[_ Hj]]; [done|].
    apply Hps. by eapply list_elem_of_lookup_2.
Qed.

(** Which threads the replacement leaves behind. *)
Lemma replace_process_threads t i p p' n : processes t !! i = Some p →
  ∃ rest, all_threads t ≡ₚ p_threads p ++ rest ∧
    all_threads (replace_process i p' n t) ≡ₚ p_threads p' ++ rest.
Proof.
  intros Hi. destruct (all_in_insert _ _ _ Hi) as (rest & Hall & _ & Hall'). exists rest. split; [done|apply Hall'].
Qed.

Lemma update_process_replace t i p f : processes t !! i = Some p →
  update_process i f t = replace_process i (f p) (thread_count t) t.
Proof.
  intros Hi. unfold update_process, replace_process, set_processes, set_thread_count. cbn. f_equal.
  apply list_eq. intros j. destruct (decide (j = i)) as [->|].
  - rewrite list_lookup_alter_eq, Hi, list_lookup_insert_eq; [done|]. by eapply lookup_lt_Some.
  - by rewrite list_lookup_alter_ne, list_lookup_insert_ne.
Qed.

(** ** Changing one thread in place *)

Definition replace_thread (i j : nat) (p : Process) (th' : Thread) (t : ProcessTable) : ProcessTable :=
  replace_process i (set_p_threads (<[j := th']> (p_threads p)) p) (thread_count t) t.

Lemma find_thread t id : inv t → thread_index t id = None ∧ thread t id = None ∨
  ∃ i j p th, thread_index t id = Some (i, j) ∧ processes t !! i = Some p ∧
    p_threads p !! j = Some th ∧ t_id th = id ∧ thread t id = Some th ∧
    t_process th = p_id p ∧ process_ok p ∧ thread_ok th.
Proof.
  intros Hi. unfold thread, thread_index. destruct (thread_index_in _ id) as [[i j]|] eqn:Hij; [right|by left].
  apply thread_index_in_Some in Hij as (p & th & Hp & Hth & Hid). exists i, j, p, th.
  assert (process_ok p) as Hok by (eapply inv_processes; [done|by eapply list_elem_of_lookup_2]).
  assert (th ∈ p_threads p) as Hin by by eapply list_elem_of_lookup_2.
  split_and!; try done.
  - cbn. unfold thread_at. cbn. by rewrite Hp.
  - by apply ok_owner.
  - by eapply ok_threads.
Qed.

Lemma update_thread_replace t i j p th f : processes t !! i = Some p → p_threads p !! j = Some th →
  update_thread (i, j) f t = replace_thread i j p (f th) t.
Proof.
  intros Hi Hj. unfold update_thread. rewrite (update_process_replace t i p) by done.
  unfold replace_thread. cbn. do 2 f_equal. apply list_eq. intros k. destruct (decide (k = j)) as [->|].
  - rewrite list_lookup_alter_eq, Hj, list_lookup_insert_eq; [done|]. by eapply lookup_lt_Some.
  - by rewrite list_lookup_alter_ne, list_lookup_insert_ne.
Qed.

Lemma elem_of_insert_cases {A} (l : list A) j x y : y ∈ <[j := x]> l → y = x ∨ y ∈ l.
Proof.
  intros [k Hk]%list_elem_of_lookup.
  apply list_lookup_insert_Some in Hk as [(-> & -> & _)|[_ Hk]]; [by left|right].
  by eapply list_elem_of_lookup_2.
Qed.

Lemma insert_Permutation {A} (l : list A) j x y : l !! j = Some x →
  ∃ rest, l ≡ₚ x :: rest ∧ <[j := y]> l ≡ₚ y :: rest ∧ delete j l ≡ₚ rest.
Proof.
  intros Hj. apply list_elem_of_split_length in Hj as (l1 & l2 & -> & ->). exists (l1 ++ l2).
  rewrite insert_app_r_alt, Nat.sub_diag, delete_middle by lia. cbn. split_and!; [solve_Permutation..|done].
Qed.

(** A live thread stays live, or the process changes with it. *)
Lemma process_ok_replace p j th th' : process_ok p → p_threads p !! j = Some th →
  t_id th' = t_id th → t_process th' = t_process th → thread_ok th' →
  (t_state th = Exited → t_state th' = Exited) →
  process_ok (set_p_threads (<[j := th']> (p_threads p)) p).
Proof.
  intros [Ho Ht Hl Hc He Hx] Hj Hid Hpr Hok Hex. assert (th ∈ p_threads p) as Hin by by eapply list_elem_of_lookup_2.
  split; cbn; try done.
  - intros x [->|?]%elem_of_insert_cases; [rewrite Hpr|]; by apply Ho.
  - intros x [->|?]%elem_of_insert_cases; [done|by apply Ht].
  - by rewrite length_insert.
  - intros Hcr. by rewrite (Hc Hcr) in Hj.
  - intros Hs x [->|?]%elem_of_insert_cases; [|by apply He]. apply Hex. by apply He.
Qed.

Lemma inv_replace_thread t i j p th th' : inv t → processes t !! i = Some p →
  p_threads p !! j = Some th → t_id th' = t_id th → t_process th' = t_process th → thread_ok th' →
  (t_state th = Exited → t_state th' = Exited) → inv (replace_thread i j p th' t).
Proof.
  intros Hi Hp Hj Hid Hpr Hok Hex.
  assert (process_ok p) by (eapply inv_processes; [done|by eapply list_elem_of_lookup_2]).
  eapply inv_replace_process; [done..|by eapply process_ok_replace| |cbn; rewrite length_insert; lia|apply Hi].
  intros rest Hnd _. cbn. destruct (insert_Permutation _ _ _ th' Hj) as (r & H1 & H2 & _).
  rewrite H2. rewrite H1 in Hnd. cbn in *. by rewrite Hid.
Qed.

(** ** One thread changes, everything else stays *)

Definition shell (p : Process) : Process := set_p_threads [] p.

Record thread_changed (id : ThreadId) (th th' : Thread) (t t' : ProcessTable) : Prop := {
  tc_inv : inv t';
  tc_old : thread t id = Some th;
  tc_thread : ∀ k, thread t' k = if decide (k = id) then Some th' else thread t k;
  tc_shells : shell <$> processes t' = shell <$> processes t;
  tc_next : next_process_id t' = next_process_id t ∧ next_thread_id t' = next_thread_id t ∧
            thread_count t' = thread_count t;
}.

(** Two tables whose thread sets differ in one place. *)
Lemma thread_view t t' th th' rest : NoDup (t_id <$> all_threads t) →
  NoDup (t_id <$> all_threads t') → all_threads t ≡ₚ th :: rest → all_threads t' ≡ₚ th' :: rest →
  t_id th' = t_id th →
  ∀ k, thread t' k = if decide (k = t_id th) then Some th' else thread t k.
Proof.
  intros Hnd Hnd' Ha Ha' Hid k. apply option_eq. intros x. rewrite thread_Some by done. rewrite Ha'.
  rewrite Ha in Hnd. cbn in Hnd. apply NoDup_cons in Hnd as [Hni Hnd].
  assert (∀ y, y ∈ rest → t_id y ≠ t_id th) as Hrest.
  { intros y Hy Heq. apply Hni. rewrite <- Heq. by apply list_elem_of_fmap_2. }
  destruct (decide (k = t_id th)) as [->|Hne].
  - split; [|intros [= <-]; split; [by left|done]].
    intros [[->|Hx]%elem_of_cons Hxid]; [done|]. by destruct (Hrest x Hx).
  - rewrite thread_Some by (rewrite Ha; cbn; by apply NoDup_cons). rewrite Ha.
    rewrite !elem_of_cons. split; intros [[->|Hx] Hxid]; try congruence; eauto.
Qed.

Lemma shells_insert (l : list Process) i p p' : l !! i = Some p → shell p' = shell p →
  shell <$> <[i := p']> l = shell <$> l.
Proof.
  intros Hi Hp. rewrite list_fmap_insert, Hp. apply list_insert_id. by rewrite list_lookup_fmap, Hi.
Qed.

Lemma replace_thread_changed t i j p th th' : inv t → processes t !! i = Some p →
  p_threads p !! j = Some th → t_id th' = t_id th → t_process th' = t_process th → thread_ok th' →
  (t_state th = Exited → t_state th' = Exited) →
  thread_changed (t_id th) th th' t (replace_thread i j p th' t).
Proof.
  intros Hi Hp Hj Hid Hpr Hok Hex.
  assert (inv (replace_thread i j p th' t)) as Hi' by by eapply inv_replace_thread.
  destruct (replace_process_threads t i p (set_p_threads (<[j := th']> (p_threads p)) p) (thread_count t) Hp)
    as (rest & Ha & Ha'). destruct (insert_Permutation _ _ _ th' Hj) as (r & H1 & H2 & _).
  rewrite H1 in Ha. cbn in Ha.
  assert (all_threads (replace_thread i j p th' t) ≡ₚ th' :: r ++ rest) as Ha2.
  { etransitivity; [exact Ha'|]. cbn [set_p_threads p_threads]. by rewrite H2. }
  split; [done|..|done].
  - apply thread_Some; [apply Hi|]. rewrite Ha. split; [by left|done].
  - eapply thread_view; [apply Hi|apply Hi'|exact Ha|exact Ha2|done].
  - by eapply shells_insert.
Qed.

Lemma with_thread_spec {E A} (e : E) id (k : Thread → outcome E (Thread * A)) Q R t : inv t →
  (thread t id = None → R e t) →
  (∀ i j p th, processes t !! i = Some p → p_threads p !! j = Some th → t_id th = id →
     thread t id = Some th → t_process th = p_id p → process_ok p → thread_ok th →
     wpo (k th) (λ r, Q r.2 (replace_thread i j p r.1 t)) (λ err, R err t)) →
  wp (with_thread e id k) Q R t.
Proof.
  intros Hi HN HS. unfold with_thread. wp_steps.
  - destruct (find_thread t id Hi) as [[? _]|(i & j & p & th & Hij & Hp & Hj & Hid & Hth & Hpr & Hpok & Hok)];
      [congruence|]. assert (a = (i, j)) as -> by congruence.
    apply (wpo_expect _ _ _ th); [unfold thread_at; cbn; by rewrite Hp|]. wp_steps.
    eapply wpo_mono; [by apply HS|cbv beta|done]. intros r Hr. wp_steps.
    by rewrite (update_thread_replace t i j p th).
  - apply HN. destruct (find_thread t id Hi) as [[_ ?]|(i & j & p & th & Hij & _)]; [done|congruence].
Qed.

(** A single-thread transition: [k] keeps the identity and the thread well formed,
    and does not revive an exited thread. *)
Lemma transition_spec {E A} (e : E) id (k : Thread → outcome E (Thread * A)) t : inv t →
  (∀ th, thread_ok th → wpo (k th) (λ r, t_id r.1 = t_id th ∧ t_process r.1 = t_process th ∧
     thread_ok r.1 ∧ (t_state th = Exited → t_state r.1 = Exited)) (λ _, True)) →
  wp (with_thread e id k)
    (λ a t', ∃ th th', k th = Ok (th', a) ∧ thread_changed id th th' t t')
    (λ err t', t' = t ∧ (thread t id = None ∧ err = e ∨ ∃ th, thread t id = Some th ∧ k th = Err err)) t.
Proof.
  intros Hi Hk. apply with_thread_spec; [done|by eauto|].
  intros i j p th Hp Hj <- Hth Hpr Hpok Hok. specialize (Hk th Hok). unfold wpo in *.
  destruct (k th) as [[th' a]|err|] eqn:Hkth; cbn in *; [|by eauto|done].
  destruct Hk as (? & ? & ? & ?). exists th, th'. split; [done|]. by apply replace_thread_changed.
Qed.

(** Exited threads that nobody will join are gone. *)
Definition tidy (t : ProcessTable) : Prop :=
  ∀ id th, thread t id = Some th → t_state th = Exited → t_detached th = false.

Definition process_shell (t : ProcessTable) (id : ProcessId) : option Process :=
  shell <$> process t id.

Lemma process_shell_lookup t id : NoDup (p_id <$> processes t) →
  ∀ x, process_shell t id = Some x ↔ x ∈ shell <$> processes t ∧ p_id x = id.
Proof.
  intros Hnd x. unfold process_shell. rewrite fmap_Some. split.
  - intros (p & (i & _ & Hp & Hid)%process_Some & ->). split; [|done].
    apply list_elem_of_fmap_2. by eapply list_elem_of_lookup_2.
  - intros [(p & -> & [i Hi]%list_elem_of_lookup)%list_elem_of_fmap Hid]. exists p. split; [|done].
    unfold process. rewrite <- Hid. cbn. by rewrite (process_index_lookup t i p).
Qed.

Lemma process_shell_ext t t' : NoDup (p_id <$> processes t) →
  shell <$> processes t' = shell <$> processes t → ∀ id, process_shell t' id = process_shell t id.
Proof.
  intros Hnd Heq id. apply option_eq. intros x.
  assert (NoDup (p_id <$> processes t')) as Hnd'.
  { change p_id with (λ p, p_id (shell p)) in Hnd |- *. rewrite (list_fmap_compose shell p_id) in Hnd |- *.
    by rewrite Heq. }
  by rewrite !process_shell_lookup, Heq.
Qed.

(** ** Removing an exited thread *)

Record thread_removed (id : ThreadId) (th : Thread) (t t' : ProcessTable) : Prop := {
  tr_inv : inv t';
  tr_old : thread t id = Some th;
  tr_thread : ∀ k, thread t' k = if decide (k = id) then None else thread t k;
  tr_shells : shell <$> processes t' = shell <$> processes t;
  tr_next : next_process_id t' = next_process_id t ∧ next_thread_id t' = next_thread_id t;
}.

Lemma thread_gone_view t t' th rest : NoDup (t_id <$> all_threads t) →
  all_threads t ≡ₚ th :: rest → all_threads t' ≡ₚ rest →
  ∀ k, thread t' k = if decide (k = t_id th) then None else thread t k.
Proof.
  intros Hnd Ha Ha' k. pose proof Hnd as Hnd0. rewrite Ha in Hnd. cbn in Hnd.
  apply NoDup_cons in Hnd as [Hni Hnd]. destruct (decide (k = t_id th)) as [->|Hne].
  - apply thread_None. by rewrite Ha'.
  - apply option_eq. intros x. rewrite !thread_Some by (done || by rewrite Ha').
    rewrite Ha, Ha', elem_of_cons. split; intros [Hx Hid]; [by eauto|].
    destruct Hx as [->|]; [congruence|done].
Qed.

Lemma process_ok_delete p j : process_ok p → process_ok (set_p_threads (delete j (p_threads p)) p).
Proof.
  intros [Ho Ht Hl Hc He Hx].
  assert (∀ x, x ∈ delete j (p_threads p) → x ∈ p_threads p) as Hsub.
  { intros x Hin. eapply elem_of_submseteq; [exact Hin|]. apply sublist_submseteq, sublist_delete. }
  split; cbn; eauto.
  - etransitivity; [apply sublist_length, sublist_delete|done].
  - intros Hcr. by rewrite (Hc Hcr).
Qed.

Lemma locate t id th : inv t → thread t id = Some th →
  t_id th = id ∧ ∃ i p j, process_index t (t_process th) = Some i ∧ processes t !! i = Some p ∧
    p_threads p !! j = Some th ∧ process_ok p ∧ thread_ok th ∧ p_id p = t_process th.
Proof.
  intros Hi Hth. destruct (find_thread t id Hi) as [[_ ?]|(i & j & p & th' & _ & Hp & Hj & Hid & Hth' & Hpr & Hpok & Hok)];
    [congruence|]. assert (th' = th) as -> by congruence. split; [done|]. exists i, p, j.
  split_and!; try done. rewrite Hpr. apply process_index_lookup; [apply Hi|done].
Qed.

Lemma reclaim_spec {E} t pid id th : inv t → thread t id = Some th → t_state th = Exited →
  t_process th = pid →
  wp (@reclaim_exited_thread E pid id) (λ _ t', thread_removed id th t t') (λ _ _, False) t.
Proof.
  intros Hi Hth Hex <-. destruct (locate t id th Hi Hth) as (Hid & i & p & j & Hpi & Hp & Hj & Hpok & Hok & _).
  unfold reclaim_exited_thread. wp_steps. eapply wpo_expect; [exact Hpi|]. wp_steps.
  eapply wpo_expect; [exact Hp|]. wp_steps.
  destruct (position_is_Some (λ th, (t_id th =? id) && bool_decide (t_state th = Exited)) (p_threads p) th)
    as [j' Hj']; [by eapply list_elem_of_lookup_2|by rewrite Hid, Z.eqb_refl, bool_decide_eq_true_2|].
  eapply wpo_expect; [exact Hj'|]. wp_steps.
  apply position_Some in Hj' as (x & Hx & [Hxid _]%andb_true_iff & _). bool_simpl.
  assert (x = th) as ->.
  { eapply (NoDup_key_inj t_id (all_threads t)); [apply Hi|..|congruence]; apply all_in_elem; eauto. }
  rewrite (update_process_replace t i p) by done.
  set (p' := set_p_threads (delete j' (p_threads p)) p).
  change (set_thread_count _ (replace_process i p' (thread_count t) t))
    with (replace_process i p' (thread_count t - 1) t).
  pose proof (delete_Permutation _ _ _ Hx) as Hperm. pose proof (Permutation_length Hperm) as Hlen. cbn in Hlen.
  destruct (replace_process_threads t i p p' (thread_count t - 1) Hp) as (rest & Ha & Ha').
  assert (all_threads t ≡ₚ th :: delete j' (p_threads p) ++ rest) as Ha0.
  { rewrite Ha, Hperm at 1. done. }
  assert (1 ≤ thread_count t)%nat as Hpos.
  { rewrite (inv_count t Hi), Ha0. cbn. lia. }
  split; [|done| | |done].
  - eapply inv_replace_process; [done..|by apply process_ok_delete| | |].
    + intros r Hnd _. rewrite Hperm in Hnd. cbn in Hnd. by apply NoDup_cons in Hnd as [_ ?].
    + cbn. lia.
    + pose proof (inv_count_limit t Hi). lia.
  - rewrite <- Hid. eapply thread_gone_view; [apply Hi|exact Ha0|exact Ha'].
  - by eapply shells_insert.
Qed.

(** ** Exiting a thread *)

Definition exited (status : Z) (th : Thread) : Thread :=
  set_t_exit {| te_thread := t_id th; te_process := t_process th; te_status := status |}
    (set_t_resume None (set_t_state Exited th)).

Record thread_exited (id : ThreadId) (th : Thread) (status : Z) (r : option ProcessExit)
    (t t' : ProcessTable) : Prop := {
  tx_inv : inv t';
  tx_old : thread t id = Some th;
  tx_live : t_state th ≠ Exited;
  tx_thread : ∀ k, thread t' k =
    if decide (k = id) then (if t_detached th then None else Some (exited status th))
    else thread t k;
  tx_result : match r with
    | Some e => e = {| pe_process := t_process th; pe_status := status |} ∧
        ∀ k x, thread t k = Some x → t_process x = t_process th → k ≠ id → t_state x = Exited
    | None => ∃ k x, thread t k = Some x ∧ t_process x = t_process th ∧ k ≠ id ∧ t_state x ≠ Exited
    end;
  tx_shell : ∀ q, process_shell t' q =
    match r with
    | Some e => if decide (q = t_process th) then set_p_exit e <$> process_shell t q
                else process_shell t q
    | None => process_shell t q
    end;
  tx_next : next_process_id t' = next_process_id t;
}.

Lemma exited_ok status th : thread_ok th → thread_ok (exited status th).
Proof. intros _. split_and!; [done| |done]. intros _. by exists status. Qed.

Lemma all_exited_true p : all_exited p = true ↔ ∀ th, th ∈ p_threads p → t_state th = Exited.
Proof.
  unfold all_exited. rewrite negb_true_iff, any_false. split; intros H th Hth; specialize (H th Hth).
  - by bool_simpl.
  - by rewrite bool_decide_eq_true_2.
Qed.

(** Threads of a process, seen through the table. *)
Lemma process_threads_view t p i th : inv t → processes t !! i = Some p →
  th ∈ p_threads p ↔ thread t (t_id th) = Some th ∧ t_process th = p_id p.
Proof.
  intros Hi Hp. assert (process_ok p) as Hok by (eapply inv_processes; [done|by eapply list_elem_of_lookup_2]).
  split.
  - intros Hin. split; [|by eapply ok_owner]. apply thread_Some; [apply Hi|]. split; [|done].
    apply list_elem_of_lookup in Hin as [j Hj]. apply all_in_elem. eauto.
  - intros [Hth Hpr]. destruct (locate t _ _ Hi Hth) as (_ & i' & p' & j & Hpi & Hp' & Hj & _).
    rewrite Hpr, (process_index_lookup t i p) in Hpi by (apply Hi || done). injection Hpi as <-.
    assert (p' = p) as -> by congruence. by eapply list_elem_of_lookup_2.
Qed.

Lemma process_view t i p : inv t → processes t !! i = Some p → process t (p_id p) = Some p.
Proof.
  intros Hi Hp. unfold process. rewrite (process_index_lookup t i p) by (apply Hi || done). done.
Qed.

(** The process-exit step: process [i] has only exited threads left. *)
Lemma process_exit_spec t i p e : inv t → processes t !! i = Some p → all_exited p = true →
  pe_process e = p_id p →
  let t' := update_process i (set_p_exit e) t in
  inv t' ∧ (∀ k, thread t' k = thread t k) ∧
  ∀ q, process_shell t' q = if decide (q = p_id p) then set_p_exit e <$> process_shell t q
                            else process_shell t q.
Proof.
  intros Hi Hp Hall He t'. assert (process_ok p) as Hok.
  { eapply inv_processes; [done|by eapply list_elem_of_lookup_2]. }
  assert (t' = replace_process i (set_p_exit e p) (thread_count t) t) as Ht' by by apply update_process_replace.
  assert (inv t') as Hi'.
  { rewrite Ht'. eapply inv_replace_process; [done..| |by intros rest ? _|done|apply Hi].
    destruct Hok as [Ho Ht Hl Hc Hx Hex]. split; cbn; try done. intros _. by apply all_exited_true. }
  split_and!; [done|..].
  - intros k. apply option_eq. intros x. rewrite !thread_Some by (apply Hi || apply Hi').
    destruct (replace_process_threads t i p (set_p_exit e p) (thread_count t) Hp) as (rest & Ha & Ha').
    rewrite Ha, Ht', Ha'. done.
  - intros q. destruct (decide (q = p_id p)) as [->|Hne].
    + unfold process_shell. rewrite (process_view t i p) by done.
      assert (processes t' !! i = Some (set_p_exit e p)) as Hlk.
      { rewrite Ht'. cbn. rewrite list_lookup_insert_eq; [done|]. by eapply lookup_lt_Some. }
      pose proof (process_view t' i (set_p_exit e p) Hi' Hlk) as Hv.
      change (p_id (set_p_exit e p)) with (p_id p) in Hv. by rewrite Hv.
    + apply option_eq. intros x. rewrite !process_shell_lookup by (apply Hi || apply Hi'). rewrite Ht'. cbn.
      rewrite list_fmap_insert. split; intros [[k Hk]%list_elem_of_lookup Hid]; (split; [|done]);
        apply list_elem_of_lookup; exists k.
      * apply list_lookup_insert_Some in Hk as [(-> & <- & _)|[_ ?]]; [done|done].
      * rewrite list_lookup_insert_ne; [done|]. intros ->. rewrite list_lookup_fmap, Hp in Hk.
        injection Hk as <-. done.
Qed.

(** [exit_thread] after the thread itself has been marked: [p] is its process. *)
Lemma exit_tail_spec t i p id th status : inv t → thread t id = Some th → t_state th = Exited →
  processes t !! i = Some p → p_id p = t_process th →
  wp (i ← reads (λ t, ok_or (process_index t (t_process th)) InvalidThread);
      p ← reads (λ t, expect (processes t !! i));
      process_exit ←
        (if all_exited p then
           let e := {| pe_process := t_process th; pe_status := status |} in
           _ ← modify (update_process i (set_p_exit e)); mret (Some e)
         else mret None);
      _ ← (if t_detached th then reclaim_exited_thread (t_process th) id else mret ());
      mret process_exit)
    (λ r t', inv t' ∧
       (∀ k, thread t' k = if decide (k = id) then (if t_detached th then None else Some th)
                           else thread t k) ∧
       r = (if all_exited p then Some {| pe_process := t_process th; pe_status := status |} else None) ∧
       (∀ q, process_shell t' q = match r with
         | Some e => if decide (q = t_process th) then set_p_exit e <$> process_shell t q
                     else process_shell t q
         | None => process_shell t q end) ∧ next_process_id t' = next_process_id t)
    (λ _ _, False) t.
Proof.
  intros Hi Hth Hex Hp Hpid. assert (process_index t (t_process th) = Some i) as Hpi.
  { rewrite <- Hpid. apply process_index_lookup; [apply Hi|done]. }
  wp_steps; [|congruence]. assert (a = i) as -> by congruence. eapply wpo_expect; [exact Hp|]. cbv beta.
  set (e := {| pe_process := t_process th; pe_status := status |}).
  set (r := if all_exited p then Some e else None).
  assert (∀ t2, inv t2 → (∀ k, thread t2 k = thread t k) →
    (∀ q, process_shell t2 q = match r with
       | Some e => if decide (q = t_process th) then set_p_exit e <$> process_shell t q else process_shell t q
       | None => process_shell t q end) → next_process_id t2 = next_process_id t →
    wp (_ ← (if t_detached th then reclaim_exited_thread (t_process th) id else mret ()); mret r)
      (λ r' t', inv t' ∧ (∀ k, thread t' k = if decide (k = id) then (if t_detached th then None else Some th)
           else thread t k) ∧ r' = r ∧
         (∀ q, process_shell t' q = match r' with
         | Some e => if decide (q = t_process th) then set_p_exit e <$> process_shell t q
                     else process_shell t q
         | None => process_shell t q end) ∧ next_process_id t' = next_process_id t) (λ (_ : StateError) (_ : ProcessTable), False) t2) as Hcont.
  { intros t2 Hi2 Hv2 Hs2 Hn2. wp_steps. destruct (t_detached th) eqn:Hdet.
    - eapply wp_mono; [apply (reclaim_spec t2 (t_process th) id th); [done| |done|done]|cbv beta|done].
      { by rewrite Hv2. }
      intros _ t' [Hi' _ Hv' Hs' [Hn' _]]. wp_steps. split_and!; [done| |done| |congruence].
      + intros k. rewrite Hv'. by destruct (decide (k = id)).
      + intros q. rewrite (process_shell_ext t2 t'); [apply Hs2|apply Hi2|done].
    - wp_steps. split_and!; [done| |done|done|done]. intros k. rewrite Hv2.
      destruct (decide (k = id)) as [->|]; [done|done]. }
  destruct (all_exited p) eqn:Hall; apply wp_bind; [apply wp_bind, wp_modify, wp_ret|apply wp_ret].
  - destruct (process_exit_spec t i p e Hi Hp Hall) as (Hi2 & Hv2 & Hs2); [done|].
    rewrite Hpid in Hs2. by apply Hcont.
  - by apply Hcont.
Qed.

Lemma exit_thread_spec t id status : inv t →
  wp (exit_thread id status)
    (λ r t', ∃ th, thread_exited id th status r t t')
    (λ e t', t' = t ∧ (thread t id = None ∨ thread_state t id = Some Exited)) t.
Proof.
  intros Hi. unfold exit_thread. apply wp_bind. apply with_thread_spec; [done|by eauto|].
  intros i j p th Hp Hj Hid Hth Hpr Hpok Hok. apply wpo_bind, wpo_err_if; intros Hs; bool_simpl.
  { split; [done|right]. unfold thread_state. by rewrite Hth, <- Hs. }
  cbn [wpo mret outcome_ret fst snd]. rewrite <- Hid. fold (exited status th).
  set (th' := exited status th). set (p1 := set_p_threads (<[j := th']> (p_threads p)) p).
  set (t1 := replace_thread i j p th' t).
  assert (thread_changed (t_id th) th th' t t1) as Hch.
  { apply replace_thread_changed; try done. by apply exited_ok. }
  assert (processes t1 !! i = Some p1) as Hp1.
  { cbn. rewrite list_lookup_insert_eq; [done|]. by eapply lookup_lt_Some. }
  eapply wp_mono; [apply (exit_tail_spec t1 i p1 (t_id th) th'); try done|cbv beta|done].
  { apply Hch. }
  { rewrite (tc_thread _ _ _ _ _ Hch). by rewrite decide_True. }
  intros r t' (Hi' & Hv & Hr & Hsh & Hn). exists th. split; [done|by rewrite Hid|done|..|done].
  - intros k. rewrite Hv, (tc_thread _ _ _ _ _ Hch). by destruct (decide (k = t_id th)).
  - subst r. pose proof (tc_thread _ _ _ _ _ Hch) as Hch1.
    pose proof (λ x, process_threads_view t1 p1 i x (tc_inv _ _ _ _ _ Hch) Hp1) as Hview.
    change (p_id p1) with (p_id p) in Hview. rewrite <- Hpr in Hview.
    destruct (all_exited p1) eqn:Hall.
    + split; [done|]. intros k x Hx Hxp Hk. rewrite all_exited_true in Hall. apply Hall, Hview.
      split; [|done]. rewrite Hch1. assert (t_id x = k) as Hxk by by apply thread_Some in Hx as [_ ?]; [|apply Hi].
      rewrite decide_False by congruence. by rewrite Hxk.
    + apply negb_false_iff, any_true in Hall as (x & Hx & Hxs). bool_simpl.
      apply Hview in Hx as [Hx Hxp]. rewrite Hch1 in Hx.
      destruct (decide (t_id x = t_id th)) as [Heq|Hne]; [injection Hx as <-; done|].
      exists (t_id x), x. split_and!; congruence.
  - intros q. rewrite Hsh. rewrite (process_shell_ext t t1); [done|apply Hi|apply Hch].
Qed.

(** ** Detaching and joining *)

Lemma thread_ok_exit th : thread_ok th → is_Some (t_exit th) → t_state th = Exited.
Proof.
  intros (_ & _ & H) [e He]. destruct (decide (t_state th = Exited)) as [|Hne]; [done|].
  by rewrite (H Hne) in He.
Qed.

Lemma detach_thread_spec t id : inv t →
  wp (detach_thread id)
    (λ _ t', inv t' ∧ ∃ th, thread t id = Some th ∧ t_detached th = false ∧
       (∀ k, thread t' k = if decide (k = id)
          then (if bool_decide (t_state th = Exited) then None else Some (set_t_detached th))
          else thread t k) ∧
       shell <$> processes t' = shell <$> processes t ∧ next_process_id t' = next_process_id t)
    (λ _ t', t' = t) t.
Proof.
  intros Hi. unfold detach_thread. apply wp_bind. apply with_thread_spec; [done|done|].
  intros i j p th Hp Hj Hid Hth Hpr Hpok Hok. apply wpo_bind, wpo_err_if; intros Hd; [done|].
  cbn [wpo mret outcome_ret fst snd].
  assert (thread_changed id th (set_t_detached th) t (replace_thread i j p (set_t_detached th) t)) as Hch.
  { rewrite <- Hid. by apply replace_thread_changed. }
  set (t1 := replace_thread i j p (set_t_detached th) t) in *.
  destruct Hch as [Hi1 _ Hv1 Hs1 _]. case_bool_decide as Hex; wp_steps.
  - eapply wp_mono; [apply (reclaim_spec t1 (t_process th) id (set_t_detached th)); try done|cbv beta|done].
    { rewrite Hv1. by rewrite decide_True. }
    intros _ t' [Hi' _ Hv' Hs' [Hn' _]]. split; [done|]. exists th. split_and!; [done..| |congruence|by rewrite Hn'].
    intros k. rewrite Hv', Hv1, bool_decide_eq_true_2 by done. by destruct (decide (k = id)).
  - split; [done|]. exists th. split_and!; try done. by rewrite bool_decide_eq_false_2.
Qed.

Lemma join_thread_spec t id : inv t →
  wp (join_thread id)
    (λ e t', ∃ th, thread_removed id th t t' ∧ t_state th = Exited ∧ t_detached th = false ∧
       te_thread e = id ∧ te_process e = t_process th ∧ t_exit th = Some e)
    (λ _ t', t' = t) t.
Proof.
  intros Hi. unfold join_thread. wp_steps; try done.
  destruct (locate t id a Hi H) as (Hid & i & p & j & _ & _ & _ & _ & Hok & _).
  assert (t_state a = Exited) as Hex by (apply thread_ok_exit; eauto).
  eapply wp_mono; [by apply (reclaim_spec t (t_process a) id a)|cbv beta|done].
  intros _ t' Hr. wp_steps. exists a. destruct Hok as (_ & (status & Hx) & _); [done|].
  rewrite Hx in H1. injection H1 as <-. by split_and!.
Qed.

(** ** Relinking processes *)

Lemma alter_is_map (l : list Process) i p f : NoDup (p_id <$> l) → l !! i = Some p →
  alter f i l = (λ q, if decide (p_id q = p_id p) then f q else q) <$> l.
Proof.
  intros Hnd Hi. apply list_eq. intros j. rewrite list_lookup_fmap.
  destruct (decide (j = i)) as [->|Hne].
  - rewrite list_lookup_alter_eq, Hi. cbn. by rewrite decide_True.
  - rewrite list_lookup_alter_ne by done. destruct (l !! j) as [q|] eqn:Hj; [|done]. cbn.
    rewrite decide_False; [done|]. intros Heq. apply Hne.
    eapply NoDup_lookup; [exact Hnd|..]; rewrite list_lookup_fmap; [by rewrite Hj|by rewrite Hi, Heq].
Qed.

Definition relink (g : Process → Process) : Prop := ∀ p,
  p_id (g p) = p_id p ∧ p_threads (g p) = p_threads p ∧ p_state (g p) = p_state p ∧
  p_exit (g p) = p_exit p.

Lemma relink_all_in g (l : list Process) : relink g → all_in (g <$> l) = all_in l.
Proof.
  intros Hg. unfold all_in. induction l as [|p l IH]; [done|]. cbn. rewrite IH. f_equal. apply Hg.
Qed.

Lemma relink_ids g (l : list Process) : relink g → p_id <$> (g <$> l) = p_id <$> l.
Proof. intros Hg. rewrite <- list_fmap_compose. apply list_fmap_ext. intros i p _. apply Hg. Qed.

Lemma relink_ok g p : relink g → process_ok p → process_ok (g p).
Proof.
  intros Hg [Ho Ht Hl Hc Hx He]. destruct (Hg p) as (Hid & Hth & Hst & Hex).
  split; rewrite ?Hid, ?Hth, ?Hst, ?Hex; done.
Qed.

(** The table with a different process list whose members are relinked old ones. *)
Lemma inv_relink t g (l : list Process) : inv t → relink g →
  (∀ p, p ∈ l → p ∈ processes t) → (length l ≤ length (processes t))%nat →
  sublist (t_id <$> all_in l) (t_id <$> all_threads t) → tree_ok (g <$> l) →
  inv (set_thread_count (length (all_in l)) (set_processes (g <$> l) t)).
Proof.
  intros [Htree Hlim [Hn1 Hn2] Hids Hcount Hcl Hps] Hg Hsub Hlen Hth Htree'.
  assert (∀ p', p' ∈ g <$> l → ∃ p, p' = g p ∧ p ∈ processes t) as Hin.
  { intros p' (p & -> & Hp)%list_elem_of_fmap. eauto. }
  split; cbn; try done.
  - rewrite length_fmap. lia.
  - split; [done|]. intros p' (p & -> & Hp)%Hin. destruct (Hg p) as (-> & _). auto.
  - unfold all_threads. cbn. rewrite relink_all_in by done. by eapply sublist_NoDup.
  - unfold all_threads. cbn. by rewrite relink_all_in.
  - apply sublist_length in Hth. rewrite !length_fmap in Hth. lia.
  - intros p' (p & -> & Hp)%Hin. apply relink_ok; auto.
Qed.

Lemma relink_thread t g : relink g → ∀ k, thread (set_processes (g <$> processes t) t) k = thread t k.
Proof.
  intros Hg k. unfold thread, thread_index. cbn.
  assert (∀ l, thread_index_in (g <$> l) k = thread_index_in l k) as Hix.
  { induction l as [|p l IH]; [done|]. cbn. destruct (Hg p) as (_ & -> & _). by rewrite IH. }
  rewrite Hix. destruct (thread_index_in (processes t) k) as [[i j]|]; [|done]. cbn.
  unfold thread_at. cbn. rewrite list_lookup_fmap. destruct (processes t !! i) as [p|]; [|done]. cbn.
  by destruct (Hg p) as (_ & -> & _).
Qed.

(** ** Removing a childless process *)

Definition forget (parent : option ProcessId) (child : ProcessId) (q : Process) : Process :=
  if decide (parent = Some (p_id q))
  then set_p_children (filter (λ c, c ≠ child) (p_children q)) q else q.

Lemma forget_relink parent child : relink (forget parent child).
Proof. intros p. unfold forget. by case_decide. Qed.

Lemma forget_links parent child q :
  p_id (forget parent child q) = p_id q ∧ p_parent (forget parent child q) = p_parent q ∧
  p_children (forget parent child q) =
    filter (λ c, parent = Some (p_id q) → c ≠ child) (p_children q).
Proof.
  unfold forget. case_decide; split_and!; try done; cbn.
  - apply list_filter_iff. naive_solver.
  - symmetry. apply filter_all. by intros c _ ?.
Qed.

Lemma forget_child_eq t parent child : NoDup (p_id <$> processes t) →
  forget_child parent child t = set_processes (forget parent child <$> processes t) t.
Proof.
  intros Hnd. unfold forget_child. destruct (parent ≫= process_index t) as [i|] eqn:Hi.
  - apply bind_Some in Hi as (q & -> & Hi). destruct (process_index_Some t q i Hi) as (p & Hp & Hid).
    unfold update_process. rewrite (alter_is_map _ i p) by done. unfold set_processes. f_equal.
    apply list_fmap_ext. intros j x _. unfold forget. rewrite Hid.
    destruct (decide (p_id x = q)); [by rewrite decide_True by congruence|by rewrite decide_False by congruence].
  - destruct t as [a b l c]. unfold set_processes. cbn in *. f_equal. symmetry.
    transitivity (id <$> l); [|apply list_fmap_id]. apply list_fmap_ext. intros j x Hx. unfold forget.
    rewrite decide_False; [done|]. intros ->. cbn in Hi.
    assert (is_Some (position (λ p, p_id p =? p_id x) l)) as [k Hk].
    { apply (position_is_Some _ _ x); [by eapply list_elem_of_lookup_2|apply Z.eqb_refl]. }
    unfold process_index in Hi. cbn in Hi. congruence.
Qed.

Lemma elem_of_delete_key (l : list Process) i p q : NoDup (p_id <$> l) → l !! i = Some p →
  q ∈ delete i l ↔ q ∈ l ∧ p_id q ≠ p_id p.
Proof.
  intros Hnd Hi. pose proof (delete_Permutation _ _ _ Hi) as Hp. rewrite Hp in Hnd. cbn in Hnd.
  apply NoDup_cons in Hnd as [Hni Hnd].
  assert (q ∈ l ↔ q ∈ p :: delete i l) as -> by by rewrite <- Hp. rewrite elem_of_cons. split.
  - intros Hq. split; [by right|]. intros Heq. apply Hni. rewrite <- Heq. by apply list_elem_of_fmap_2.
  - intros [[->|Hq] Hne]; done.
Qed.

Lemma tree_ok_remove (l : list Process) i p : tree_ok l → l !! i = Some p → p_children p = [] →
  tree_ok (forget (p_parent p) (p_id p) <$> delete i l).
Proof.
  intros [Hids Hpar Hch Hlim] Hi Hnc. set (g := forget (p_parent p) (p_id p)).
  assert (p ∈ l) as Hpin by by eapply list_elem_of_lookup_2.
  assert (∀ q, q ∈ delete i l ↔ q ∈ l ∧ p_id q ≠ p_id p) as Hdel by (intros; by apply elem_of_delete_key).
  assert (∀ q, q ∈ l → p_id q ≠ p_id p → g q ∈ g <$> delete i l) as Hkeep.
  { intros q Hq Hne. apply list_elem_of_fmap_2, Hdel. done. }
  split.
  - rewrite relink_ids by apply forget_relink. eapply sublist_NoDup; [exact Hids|].
    apply fmap_sublist, sublist_delete.
  - intros x r (q & -> & [Hq Hne]%Hdel)%list_elem_of_fmap Hr.
    destruct (forget_links (p_parent p) (p_id p) q) as (Hqid & Hqp & _). unfold g in Hr |- *.
    rewrite Hqp in Hr. rewrite Hqid. destruct (Hpar q r Hq Hr) as (Hlt & pq & Hpq & Hpqid & Hin). split; [done|].
    assert (p_id pq ≠ p_id p) as Hnp.
    { intros Heq. assert (pq = p) as -> by by eapply (NoDup_key_inj p_id l). rewrite Hnc in Hin. set_solver. }
    exists (g pq). destruct (forget_links (p_parent p) (p_id p) pq) as (Hid' & _ & Hc'). unfold g.
    rewrite Hid', Hc', list_elem_of_filter. split_and!; [by apply Hkeep|done|by intros _|done].
  - intros x c (q & -> & [Hq Hne]%Hdel)%list_elem_of_fmap Hc. unfold g in Hc |- *.
    destruct (forget_links (p_parent p) (p_id p) q) as (Hqid & _ & Hqc).
    rewrite Hqc, list_elem_of_filter in Hc. destruct Hc as [Hc1 Hc2]. rewrite Hqid.
    destruct (Hch q c Hq Hc2) as (pc & Hpc & Hpcid & Hpcp).
    exists (g pc). destruct (forget_links (p_parent p) (p_id p) pc) as (Hid' & Hp' & _). unfold g.
    rewrite Hid', Hp'. split_and!; [|done|done]. apply Hkeep; [done|]. intros Heq.
    assert (pc = p) as -> by by eapply (NoDup_key_inj p_id l). apply Hc1; congruence.
  - intros x (q & -> & [Hq _]%Hdel)%list_elem_of_fmap. unfold g.
    destruct (forget_links (p_parent p) (p_id p) q) as (_ & _ & ->). destruct (Hlim q Hq).
    split; [by apply NoDup_filter|]. etransitivity; [apply length_filter|done].
Qed.

(** The table without process [i]. *)
Definition removed_process (i : nat) (p : Process) (t : ProcessTable) : ProcessTable :=
  set_thread_count (length (all_in (delete i (processes t))))
    (set_processes (forget (p_parent p) (p_id p) <$> delete i (processes t)) t).

Lemma sublist_all_in_delete (l : list Process) i : sublist (all_in (delete i l)) (all_in l).
Proof.
  revert i. induction l as [|p l IH]; intros i; [done|]. unfold all_in in *. destruct i as [|i]; cbn.
  - by apply sublist_inserts_l.
  - apply sublist_app; [done|apply IH].
Qed.

Lemma inv_removed_process t i p : inv t → processes t !! i = Some p → p_children p = [] →
  inv (removed_process i p t) ∧
  (∀ k, thread (removed_process i p t) k =
     match thread t k with
     | Some th => if decide (t_process th = p_id p) then None else Some th
     | None => None
     end).
Proof.
  intros Hi Hp Hnc. assert (inv (removed_process i p t)) as Hi'.
  { apply inv_relink; [done|apply forget_relink|..].
    - intros q. rewrite (elem_of_delete_key _ i p q); [naive_solver|apply Hi|done].
    - apply sublist_length, sublist_delete.
    - apply fmap_sublist, sublist_all_in_delete.
    - apply tree_ok_remove; [apply Hi|done..]. }
  split; [done|]. intros k. apply option_eq. intros x. rewrite thread_Some by apply Hi'.
  unfold all_threads at 1. cbn. rewrite relink_all_in by apply forget_relink.
  destruct (all_in_insert _ _ _ Hp) as (rest & Ha & Hdel & _). rewrite Hdel.
  assert (∀ y, y ∈ all_threads t → t_process y = p_id p ↔ y ∈ p_threads p) as Hown.
  { intros y Hy. rewrite (process_threads_view t p i y Hi Hp). rewrite thread_Some by apply Hi. naive_solver. }
  pose proof (inv_thread_ids t Hi) as Hnd. unfold all_threads in Hnd. rewrite Ha in Hnd.
  rewrite fmap_app in Hnd. apply NoDup_app in Hnd as (_ & Hdis & _).
  assert (x ∈ rest ↔ x ∈ all_threads t ∧ t_process x ≠ p_id p) as ->.
  { unfold all_threads in *. rewrite Ha, elem_of_app. split.
    - intros Hx. split; [by right|]. rewrite Hown by (rewrite Ha; set_solver). intros Hx'.
      apply (Hdis (t_id x)); by apply list_elem_of_fmap_2.
    - intros [[Hx|Hx] Hne]; [|done]. destruct Hne. apply Hown; [rewrite Ha; set_solver|done]. }
  destruct (thread t k) as [th|] eqn:Hth.
  - apply thread_Some in Hth as [Hin Hid]; [|apply Hi]. destruct (decide (t_process th = p_id p)) as [Heq|Hne].
    + split; [|done]. intros [[Hx Hne] Hxid].
      assert (x = th) as -> by (eapply (NoDup_key_inj t_id (all_threads t)); [apply Hi|..]; congruence). done.
    + split; [|intros [= <-]; done]. intros [[Hx _] Hxid]. f_equal.
      eapply (NoDup_key_inj t_id (all_threads t)); [apply Hi|..]; congruence.
  - split; [|done]. intros [[Hx _] Hxid]. rewrite thread_None in Hth. destruct Hth. rewrite <- Hxid.
    by apply list_elem_of_fmap_2.
Qed.

Lemma removal_eq t i p : inv t → processes t !! i = Some p →
  set_thread_count (thread_count t - length (p_threads p))
    (forget_child (p_parent p) (p_id p) (set_processes (delete i (processes t)) t)) =
  removed_process i p t.
Proof.
  intros Hi Hp. rewrite forget_child_eq.
  - unfold removed_process, set_thread_count, set_processes. cbn. f_equal.
    destruct (all_in_insert _ _ _ Hp) as (rest & Ha & Hdel & _).
    rewrite (inv_count t Hi). unfold all_threads. rewrite Ha, Hdel, length_app. lia.
  - cbn. eapply sublist_NoDup; [apply Hi|]. apply fmap_sublist, sublist_delete.
Qed.

Definition process_gone (p : Process) (t t' : ProcessTable) : Prop :=
  inv t' ∧ (∀ k, thread t' k = match thread t k with
     | Some th => if decide (t_process th = p_id p) then None else Some th
     | None => None end) ∧
  (∃ i, processes t !! i = Some p ∧
     processes t' = forget (p_parent p) (p_id p) <$> delete i (processes t)) ∧
  next_process_id t' = next_process_id t ∧ next_thread_id t' = next_thread_id t.

Lemma rollback_process_spec t id : inv t →
  wp (rollback_process_creation id)
    (λ _ t', ∃ p, process t id = Some p ∧ p_children p = [] ∧ process_gone p t t')
    (λ _ t', t' = t ∧ ∀ p, process t id = Some p → is_Some (p_exit p) ∨ p_children p ≠ []) t.
Proof.
  intros Hi. unfold rollback_process_creation. wp_steps.
  1: { split; [done|]. intros p Hp. assert (p = a) as -> by congruence.
       apply orb_true_iff in H0 as [?|?]; bool_simpl; auto. }
  2: { split; [done|]. congruence. }
  bool_simpl.
  destruct (process_Some t id a H) as (i & Hix & Hp & <-).
  eapply wpo_expect; [exact Hix|]. wp_steps. rewrite forget_child_eq.
  2: { cbn. eapply sublist_NoDup; [apply Hi|]. apply fmap_sublist, sublist_delete. }
  cbn [thread_count set_processes].
  pose proof (removal_eq t i a Hi Hp) as Heq. rewrite forget_child_eq in Heq.
  2: { cbn. eapply sublist_NoDup; [apply Hi|]. apply fmap_sublist, sublist_delete. }
  cbn in Heq |- *. rewrite Heq. exists a. split_and!; [done|done|].
  destruct (inv_removed_process t i a Hi Hp H1) as [? ?]. split_and!; [done|done|by eauto|done|done].
Qed.

Lemma reap_process_spec t id : inv t →
  wp (reap_process id)
    (λ e t', ∃ p, process t id = Some p ∧ p_state p = PExited ∧ p_exit p = Some e ∧
       p_threads p = [] ∧ p_children p = [] ∧ process_gone p t t' ∧ ∀ k, thread t' k = thread t k)
    (λ _ t', t' = t) t.
Proof.
  intros Hi. unfold reap_process. wp_steps; try done. bool_simpl.
  destruct (process_Some t id a H) as (i & Hix & Hp & <-).
  assert (process_ok a) as Hok by (eapply inv_processes; [done|by eapply list_elem_of_lookup_2]).
  destruct (p_exit a) as [e|] eqn:He; [|by pose proof (ok_exit a Hok) as Hx; rewrite He in Hx].
  apply (wpo_expect _ _ _ e); [done|]. wp_steps. eapply wpo_expect; [exact Hix|]. wp_steps.
  pose proof (removal_eq t i a Hi Hp) as Heq. rewrite H1 in Heq. cbn in Heq.
  rewrite Nat.sub_0_r in Heq.
  destruct (inv_removed_process t i a Hi Hp H2) as [Hi' Hv].
  assert (forget_child (p_parent a) (p_id a) (set_processes (delete i (processes t)) t) = removed_process i a t) as ->.
  { rewrite <- Heq. rewrite forget_child_eq; [done|]. cbn. eapply sublist_NoDup; [apply Hi|].
    apply fmap_sublist, sublist_delete. }
  exists a. split_and!; [done..|by split_and!; eauto|].
  intros k. rewrite Hv. destruct (thread t k) as [th|] eqn:Hth; [|done].
  rewrite decide_False; [done|]. intros Hpr.
  assert (th ∈ p_threads a) as Hin; [|rewrite H1 in Hin; set_solver].
  apply (process_threads_view t a i); [done..|]. destruct (locate t k th Hi Hth) as [Hk _]. by rewrite Hk.
Qed.

(** ** Orphaning *)

Definition orphan (cs : list ProcessId) (q : Process) : Process :=
  if decide (p_id q ∈ cs) then set_p_parent None q else q.

Lemma orphan_relink cs : relink (orphan cs).
Proof. intros p. unfold orphan. by case_decide. Qed.

Lemma orphan_fold cs t : NoDup (p_id <$> processes t) →
  foldl orphan_one t cs = set_processes (orphan cs <$> processes t) t.
Proof.
  revert t. induction cs as [|c cs IH]; intros t Hnd; cbn.
  - destruct t as [a b l n]. unfold set_processes. cbn. f_equal. symmetry.
    transitivity (id <$> l); [|apply list_fmap_id]. apply list_fmap_ext. intros i q _.
    unfold orphan. by rewrite decide_False by set_solver.
  - assert (orphan_one t c = set_processes (orphan [c] <$> processes t) t) as ->.
    { unfold orphan_one. destruct (process_index t c) as [i|] eqn:Hi.
      - destruct (process_index_Some t c i Hi) as (p & Hp & Hid). unfold update_process.
        rewrite (alter_is_map _ i p) by done. f_equal. apply list_fmap_ext. intros j q _. unfold orphan.
        destruct (decide (p_id q = p_id p)); [rewrite decide_True by set_solver|rewrite decide_False by set_solver]; done.
      - destruct t as [a b l n]. unfold set_processes. cbn in *. f_equal.
        transitivity (id <$> l); [symmetry; apply list_fmap_id|]. apply list_fmap_ext. intros j q Hq. unfold orphan.
        rewrite decide_False; [done|]. intros Hc%list_elem_of_singleton. unfold process_index in Hi. cbn in Hi.
        pose proof (position_None _ _ Hi q (list_elem_of_lookup_2 _ _ _ Hq)) as Hne. cbn in Hne.
        by rewrite Hc, Z.eqb_refl in Hne. }
    rewrite IH by (cbn; by rewrite relink_ids by apply orphan_relink).
    unfold set_processes. cbn. f_equal. rewrite <- list_fmap_compose. apply list_fmap_ext.
    intros j q _. cbn. unfold orphan. destruct (decide (p_id q ∈ [c])) as [Hc|Hc]; cbn.
    + rewrite (decide_True (P := p_id q ∈ c :: cs)) by set_solver. by case_decide.
    + destruct (decide (p_id q ∈ cs)); [rewrite decide_True by set_solver|rewrite decide_False by set_solver]; done.
Qed.

(** [orphan_children] as one relinking. *)
Definition disown (p : Process) (q : Process) : Process :=
  orphan (p_children p) (if decide (p_id q = p_id p) then set_p_children [] q else q).

Lemma disown_relink p : relink (disown p).
Proof. intros q. unfold disown, orphan. by repeat case_decide. Qed.

Lemma disown_links p q : p_id (disown p q) = p_id q ∧
  p_parent (disown p q) = (if decide (p_id q ∈ p_children p) then None else p_parent q) ∧
  p_children (disown p q) = (if decide (p_id q = p_id p) then [] else p_children q).
Proof.
  unfold disown, orphan. destruct (decide (p_id q = p_id p)); cbn; by destruct (decide (p_id q ∈ p_children p)).
Qed.

Lemma tree_ok_disown (l : list Process) p : tree_ok l → p ∈ l → tree_ok (disown p <$> l).
Proof.
  intros [Hids Hpar Hch Hlim] Hp. split.
  - by rewrite relink_ids by apply disown_relink.
  - intros x r (q & -> & Hq)%list_elem_of_fmap Hr. destruct (disown_links p q) as (Hid & Hpa & _).
    rewrite Hpa in Hr. case_decide as Hc; [done|]. rewrite Hid.
    destruct (Hpar q r Hq Hr) as (Hlt & pq & Hpq & Hpqid & Hin). split; [done|].
    exists (disown p pq). destruct (disown_links p pq) as (Hid' & _ & Hc'). rewrite Hid', Hc'.
    split_and!; [by apply list_elem_of_fmap_2|done|]. rewrite decide_False; [done|]. intros Heq.
    assert (pq = p) as -> by by eapply (NoDup_key_inj p_id l). done.
  - intros x c (q & -> & Hq)%list_elem_of_fmap Hc. destruct (disown_links p q) as (Hid & _ & Hcq).
    rewrite Hcq in Hc. case_decide as Hqp; [set_solver|]. rewrite Hid.
    destruct (Hch q c Hq Hc) as (pc & Hpc & Hpcid & Hpcp). exists (disown p pc).
    destruct (disown_links p pc) as (Hid' & Hpa' & _). rewrite Hid', Hpa'.
    split_and!; [by apply list_elem_of_fmap_2|done|]. rewrite decide_False; [done|]. intros Hin.
    destruct (Hch p (p_id pc) Hp Hin) as (pc' & Hpc' & Hid2 & Hp2).
    assert (pc' = pc) as -> by by eapply (NoDup_key_inj p_id l). congruence.
  - intros x (q & -> & Hq)%list_elem_of_fmap. destruct (disown_links p q) as (_ & _ & ->).
    case_decide; [|by apply Hlim]. split; [apply NoDup_nil_2|cbn; lia].
Qed.

Lemma inv_relink_all t g : inv t → relink g → tree_ok (g <$> processes t) →
  inv (set_processes (g <$> processes t) t).
Proof.
  intros Hi Hg Htree. pose proof (inv_relink t g (processes t) Hi Hg) as H.
  assert (set_thread_count (length (all_in (processes t))) (set_processes (g <$> processes t) t) =
    set_processes (g <$> processes t) t) as Heq.
  { unfold set_thread_count, set_processes. cbn. f_equal. symmetry. apply (inv_count t Hi). }
  rewrite Heq in H. by apply H.
Qed.

Lemma orphan_children_spec t id : inv t →
  wp (orphan_children id)
    (λ n t', inv t' ∧ (∀ k, thread t' k = thread t k) ∧ ∃ p, process t id = Some p ∧
       n = length (p_children p) ∧ t' = set_processes (disown p <$> processes t) t)
    (λ _ t', t' = t) t.
Proof.
  intros Hi. unfold orphan_children. wp_steps; [|done].
  destruct (process_index_Some t id a H) as (p & Hp & Hid). eapply wpo_expect; [exact Hp|]. wp_steps.
  assert (foldl orphan_one (update_process a (set_p_children []) t) (p_children p) =
    set_processes (disown p <$> processes t) t) as ->.
  { unfold update_process. rewrite (alter_is_map _ a p) by (apply Hi || done).
    rewrite orphan_fold.
    - unfold set_processes. cbn. f_equal. by rewrite <- list_fmap_compose.
    - cbn. rewrite relink_ids; [apply Hi|]. intros q. by case_decide. }
  split_and!.
  - apply inv_relink_all; [done|apply disown_relink|]. apply tree_ok_disown; [apply Hi|].
    by eapply list_elem_of_lookup_2.
  - apply relink_thread, disown_relink.
  - exists p. split_and!; try done. unfold process. rewrite H. done.
Qed.

(** ** Creating a process *)

Definition adopt (parent : option ProcessId) (c : ProcessId) (q : Process) : Process :=
  if decide (parent = Some (p_id q)) then set_p_children (push (p_children q) c) q else q.

Lemma adopt_relink parent c : relink (adopt parent c).
Proof. intros p. unfold adopt. by case_decide. Qed.

Definition fresh_process (id : ProcessId) (parent : option ProcessId) : Process :=
  {| p_id := id; p_parent := parent; p_state := PCreated; p_threads := [];
     p_children := []; p_exit := None |}.

Lemma adopt_links parent c q : p_id (adopt parent c q) = p_id q ∧
  p_parent (adopt parent c q) = p_parent q ∧
  p_children (adopt parent c q) = p_children q ++ (if decide (parent = Some (p_id q)) then [c] else []).
Proof. unfold adopt. case_decide; cbn; by rewrite ?app_nil_r. Qed.

Lemma tree_ok_create (l : list Process) parent id : tree_ok l → (∀ p, p ∈ l → p_id p < id) →
  (match parent with
   | Some q => ∃ p, p ∈ l ∧ p_id p = q ∧ (length (p_children p) < MAX_CHILDREN_PER_PROCESS)%nat
   | None => True
   end) →
  tree_ok ((adopt parent id <$> l) ++ [fresh_process id parent]).
Proof.
  intros [Hids Hpar Hch Hlim] Hlt Hp. set (g := adopt parent id).
  assert (∀ x, x ∈ (g <$> l) ++ [fresh_process id parent] ↔
    (∃ q, q ∈ l ∧ x = g q) ∨ x = fresh_process id parent) as Hin.
  { intros x. rewrite elem_of_app, list_elem_of_singleton, list_elem_of_fmap. naive_solver. }
  assert (∀ q c, q ∈ l → c ∈ p_children q → c ≠ id) as Hnew.
  { intros q c Hq Hc ->. destruct (Hch q id Hq Hc) as (pc & Hpc & Hid & _). specialize (Hlt pc Hpc). lia. }
  split.
  - rewrite fmap_app, relink_ids by apply adopt_relink. apply NoDup_app. split_and!; [done| |apply NoDup_singleton].
    intros x (q & -> & Hq)%list_elem_of_fmap Hx%list_elem_of_singleton. cbn in Hx. specialize (Hlt q Hq). lia.
  - intros x r [(q & Hq & ->)| ->]%Hin Hr.
    + destruct (adopt_links parent id q) as (Hid & Hpa & _). fold g in Hid, Hpa. rewrite Hpa in Hr. rewrite Hid.
      destruct (Hpar q r Hq Hr) as (? & pq & Hpq & ? & ?). split; [done|]. exists (g pq).
      destruct (adopt_links parent id pq) as (Hid' & _ & Hc'). fold g in Hid', Hc'. rewrite Hid', Hc'.
      split_and!; [apply Hin; left; eauto|done|set_solver].
    + cbn in Hr. subst parent. destruct Hp as (pq & Hpq & Hpqid & _). cbn. split; [rewrite <- Hpqid; by apply Hlt|].
      exists (g pq). destruct (adopt_links (Some r) id pq) as (Hid' & _ & Hc'). fold g in Hid', Hc'.
      rewrite Hid', Hc', decide_True by congruence. split_and!; [apply Hin; left; eauto|done|set_solver].
  - intros x c [(q & Hq & ->)| ->]%Hin Hc; [|cbn in Hc; set_solver].
    destruct (adopt_links parent id q) as (Hid & _ & Hcq). fold g in Hid, Hcq. rewrite Hcq in Hc. rewrite Hid.
    apply elem_of_app in Hc as [Hc|Hc].
    + destruct (Hch q c Hq Hc) as (pc & Hpc & Hpcid & Hpcp). exists (g pc).
      destruct (adopt_links parent id pc) as (Hid' & Hpa' & _). fold g in Hid', Hpa'. rewrite Hid', Hpa'.
      split_and!; [apply Hin; left; eauto|done|done].
    + case_decide as Hpq; [|set_solver]. apply list_elem_of_singleton in Hc as ->.
      exists (fresh_process id parent). split_and!; [apply Hin; by right|done|done].
  - intros x [(q & Hq & ->)| ->]%Hin; [|cbn; split; [apply NoDup_nil_2|lia]].
    destruct (adopt_links parent id q) as (_ & _ & Hcq). fold g in Hcq. rewrite Hcq. destruct (Hlim q Hq).
    case_decide as Hpq; [|by rewrite app_nil_r]. subst parent. destruct Hp as (p & Hpl & Hpid & Hlen).
    assert (p = q) as -> by by eapply (NoDup_key_inj p_id l). rewrite length_app. cbn. split; [|lia].
    apply NoDup_app. split_and!; [done| |apply NoDup_singleton].
    intros y Hy ->%list_elem_of_singleton. by eapply Hnew.
Qed.

(** The table after [create_process]. *)
Definition grown (parent : option ProcessId) (t : ProcessTable) : ProcessTable :=
  {| next_process_id := next_process_id t + 1; next_thread_id := next_thread_id t;
     processes := (adopt parent (next_process_id t) <$> processes t) ++
                  [fresh_process (next_process_id t) parent];
     thread_count := thread_count t |}.

Lemma all_in_grown parent t : all_threads (grown parent t) = all_threads t.
Proof.
  unfold all_threads. cbn. unfold all_in. rewrite bind_app. cbn. rewrite app_nil_r.
  apply (relink_all_in _ (processes t)), adopt_relink.
Qed.

Lemma inv_grown t parent : inv t → (length (processes t) < MAX_PROCESSES)%nat →
  (match parent with
   | Some q => ∃ p, p ∈ processes t ∧ p_id p = q ∧ (length (p_children p) < MAX_CHILDREN_PER_PROCESS)%nat
   | None => True
   end) →
  inv (grown parent t) ∧ ∀ k, thread (grown parent t) k = thread t k.
Proof.
  intros Hi Hlen Hp. assert (inv (grown parent t)) as Hi'.
  { destruct Hi as [Htree Hlim [Hn1 Hn2] Hids Hcount Hcl Hps].
    split; rewrite ?all_in_grown; cbn; try done.
    - apply tree_ok_create; [done| |done]. intros p Hpin. by apply Hn2.
    - rewrite length_app, length_fmap. cbn. lia.
    - split; [lia|]. intros p. rewrite elem_of_app, list_elem_of_singleton.
      intros [(q & -> & Hq)%list_elem_of_fmap| ->]; [|cbn; lia].
      destruct (adopt_relink parent (next_process_id t) q) as (-> & _). specialize (Hn2 q Hq). lia.
    - intros p. rewrite elem_of_app, list_elem_of_singleton.
      intros [(q & -> & Hq)%list_elem_of_fmap| ->]; [apply relink_ok; [apply adopt_relink|by apply Hps]|].
      split; cbn; try done; [set_solver|set_solver|unfold MAX_THREADS_PER_PROCESS; lia]. }
  split; [done|]. intros k. apply option_eq. intros x. rewrite !thread_Some by (apply Hi || apply Hi').
  by rewrite all_in_grown.
Qed.

Lemma create_process_spec t parent : inv t → next_process_id t < u64_max →
  wp (create_process parent)
    (λ id t', inv t' ∧ id = next_process_id t ∧ (∀ k, thread t' k = thread t k) ∧ t' = grown parent t)
    (λ _ t', t' = t) t.
Proof.
  intros Hi Hnext. unfold create_process. apply wp_bind, wp_get, wp_bind, wp_lift, wpo_err_if; intros Hlen; [done|].
  bool_simpl. apply wp_bind, wp_lift.
  apply (wpo_mono _ (λ _, match parent with
    | Some q => ∃ i p, process_index t q = Some i ∧ processes t !! i = Some p ∧ p_id p = q ∧
        (length (p_children p) < MAX_CHILDREN_PER_PROCESS)%nat
    | None => True end) _ (λ _, True)).
  { destruct parent as [q|]; [|done]. wp_steps; try done. bool_simpl.
    destruct (process_Some t q a H) as (i & ? & ? & ?). exists i, a. split_and!; try done. lia. }
  2: done.
  intros _ Hpar. apply wp_bind, wp_put, wp_bind.
  destruct (inv_grown t parent) as [Hi' Hv]; [done|lia| |].
  { destruct parent as [q|]; [|done]. destruct Hpar as (i & p & _ & Hp & Hid & Hc). exists p.
    split_and!; [by eapply list_elem_of_lookup_2|done|done]. }
  assert (saturating_add u64_max (next_process_id t) 1 = next_process_id t + 1) as Hsat.
  { unfold saturating_add. lia. }
  destruct parent as [q|].
  - destruct Hpar as (i & p & Hix & Hp & Hid & _). apply wp_bind, wp_reads.
    match goal with |- wpo (expect (process_index ?t1 _)) _ _ => set (t1' := t1) end.
    assert (processes t1' !! i = Some p) as Hp1.
    { cbn. unfold push. apply lookup_app_l_Some, Hp. }
    assert (NoDup (p_id <$> processes t1')) as Hnd1.
    { cbn. unfold push. rewrite fmap_app. apply NoDup_app. split_and!; [apply Hi| |apply NoDup_singleton].
      intros x (r & -> & Hr)%list_elem_of_fmap Hx%list_elem_of_singleton. cbn in Hx.
      destruct (inv_next t Hi) as [_ Hn]. specialize (Hn r Hr). lia. }
    apply (wpo_expect _ _ _ i); [rewrite <- Hid; by apply process_index_lookup|]. wp_steps.
    assert (update_process i (λ p, set_p_children (push (p_children p) (next_process_id t)) p) t1' =
      grown (Some q) t) as Heq; [|by rewrite Heq].
    unfold update_process. rewrite (alter_is_map _ i p) by done. unfold grown, set_processes, t1'. cbn.
    rewrite Hsat. f_equal. unfold push. rewrite fmap_app. f_equal; cbn.
    + apply list_fmap_ext. intros j x _. unfold adopt, push. rewrite Hid.
      destruct (decide (p_id x = q)); [by rewrite decide_True by congruence|by rewrite decide_False by congruence].
    + rewrite decide_False; [done|]. destruct (inv_next t Hi) as [_ Hn].
      specialize (Hn p (list_elem_of_lookup_2 _ _ _ Hp)). lia.
  - wp_steps. rewrite Hsat.
    assert ({| next_process_id := next_process_id t + 1; next_thread_id := next_thread_id t;
      processes := push (processes t) (fresh_process (next_process_id t) None);
      thread_count := thread_count t |} = grown None t) as Heq.
    { unfold grown, push. f_equal. f_equal. symmetry. transitivity (id <$> processes t); [|apply list_fmap_id].
      apply list_fmap_ext. intros j x _. done. }
    unfold fresh_process in Heq at 1. rewrite Heq. done.
Qed.

(** ** Creating a thread *)

Lemma wpo_validate t pid (Q : unit → Prop) (R : CreateError → Prop) : (∀ e, R e) →
  (∀ i p, process_index t pid = Some i → processes t !! i = Some p → p_id p = pid →
     p_state p ≠ PExited → (length (p_threads p) < MAX_THREADS_PER_PROCESS)%nat →
     (thread_count t < MAX_THREADS)%nat → Q ()) →
  wpo (validate_thread_creation t pid) Q R.
Proof.
  intros HR HQ. unfold validate_thread_creation. wp_steps; try done. bool_simpl.
  destruct (process_Some t pid a H0) as (i & ? & ? & ?). eapply HQ; eauto; lia.
Qed.

(** Consecutive identities in use are at most as many as there are threads. *)
Lemma consecutive_used t raw n : inv t →
  (∀ x, raw ≤ x < raw + Z.of_nat n → is_Some (thread t x)) → (n ≤ thread_count t)%nat.
Proof.
  intros Hi Hused. set (l := (λ i, raw + Z.of_nat i) <$> seq 0 n).
  assert (NoDup l) as Hnd. { apply NoDup_fmap_2_strong; [|apply NoDup_seq]. intros; lia. }
  assert (∀ x, x ∈ l → x ∈ t_id <$> all_threads t) as Hsub.
  { intros x (i & -> & [_ Hn]%elem_of_seq)%list_elem_of_fmap.
    destruct (Hused (raw + Z.of_nat i)) as [th Hth]; [lia|].
    apply thread_Some in Hth as [Hin <-]; [|apply Hi]. by apply list_elem_of_fmap_2. }
  pose proof (NoDup_incl_length (l := l) (l' := t_id <$> all_threads t)) as Hlen.
  unfold l in Hlen. rewrite !length_fmap, length_seq in Hlen. rewrite (inv_count t Hi). apply Hlen.
  - by apply NoDup_ListNoDup.
  - intros x. rewrite <- !list_elem_of_In. apply Hsub.
Qed.

Lemma free_thread_id_spec t fuel raw0 n : inv t → (fuel + n = S (thread_count t))%nat →
  (∀ x, raw0 ≤ x < raw0 + Z.of_nat n → is_Some (thread t x)) →
  wpo (free_thread_id fuel t (raw0 + Z.of_nat n)) (λ id, raw0 ≤ id ∧ thread t id = None) (λ _, True).
Proof.
  intros Hi. revert n. induction fuel as [|fuel IH]; intros n Hn Hused; cbn [free_thread_id].
  - pose proof (consecutive_used t raw0 n Hi Hused). lia.
  - destruct (thread t (raw0 + Z.of_nat n)) as [th|] eqn:Hth; wp_steps; [|done|split; [lia|done]].
    apply checked_add_Some in H as [-> _].
    replace (raw0 + Z.of_nat n + 1) with (raw0 + Z.of_nat (S n)) by lia. apply IH; [lia|].
    intros x Hx. destruct (decide (x = raw0 + Z.of_nat n)) as [->|]; [by eauto|]. apply Hused. lia.
Qed.

(** What inserting a thread does. *)
Record thread_inserted (pid : ProcessId) (id : ThreadId) (name : string) (t t' : ProcessTable) : Prop := {
  ti_inv : inv t';
  ti_fresh : thread t id = None;
  ti_thread : ∀ k, thread t' k = if decide (k = id) then Some (fresh_thread pid id name) else thread t k;
  ti_shell : ∃ i p, processes t !! i = Some p ∧ p_id p = pid ∧ p_state p ≠ PExited ∧
    processes t' = <[i := set_p_state PRunning
      (set_p_threads (push (p_threads p) (fresh_thread pid id name)) p)]> (processes t);
  ti_next : next_process_id t' = next_process_id t ∧ next_thread_id t' = next_thread_id t ∧
    thread_count t' = S (thread_count t);
}.

Lemma thread_new_view t t' th : NoDup (t_id <$> all_threads t) → NoDup (t_id <$> all_threads t') →
  thread t (t_id th) = None → all_threads t' ≡ₚ th :: all_threads t →
  ∀ k, thread t' k = if decide (k = t_id th) then Some th else thread t k.
Proof.
  intros Hnd Hnd' Hf Ha k. apply option_eq. intros x. rewrite thread_Some, Ha, elem_of_cons by done.
  rewrite thread_None in Hf. destruct (decide (k = t_id th)) as [->|Hne].
  - split; [|intros [= <-]; by split; [left|]]. intros [[->|Hx] Hid]; [done|]. destruct Hf.
    rewrite <- Hid. by apply list_elem_of_fmap_2.
  - rewrite thread_Some by done. naive_solver.
Qed.

Lemma insert_thread_spec t pid id name i p : inv t → process_index t pid = Some i →
  processes t !! i = Some p → p_id p = pid → p_state p ≠ PExited →
  (length (p_threads p) < MAX_THREADS_PER_PROCESS)%nat → (thread_count t < MAX_THREADS)%nat →
  thread t id = None →
  wp (insert_thread pid id name) (λ _ t', thread_inserted pid id name t t') (λ _ _, False) t.
Proof.
  intros Hi Hix Hp Hpid Hst Hlen Hcnt Hf. unfold insert_thread. wp_steps.
  eapply wpo_expect; [exact Hix|]. wp_steps. rewrite (update_process_replace t i p) by done.
  set (th := fresh_thread pid id name).
  set (p' := set_p_state PRunning (set_p_threads (push (p_threads p) th) p)).
  change (set_thread_count _ (replace_process i p' (thread_count t) t))
    with (replace_process i p' (thread_count t + 1) t).
  destruct (replace_process_threads t i p p' (thread_count t + 1) Hp) as (rest & Ha & Ha').
  assert (all_threads (replace_process i p' (thread_count t + 1) t) ≡ₚ th :: all_threads t) as Ha2.
  { rewrite Ha', Ha. cbn. unfold push. solve_Permutation. }
  assert (process_ok p) as Hok by (eapply inv_processes; [done|by eapply list_elem_of_lookup_2]).
  assert (inv (replace_process i p' (thread_count t + 1) t)) as Hi'.
  { eapply inv_replace_process; [done..| | |cbn; unfold push; rewrite length_app; cbn; lia|lia].
    - destruct Hok as [Ho Ht Hl Hc Hx Hex]. split; cbn; try done; unfold push.
      + intros x. rewrite elem_of_app, list_elem_of_singleton. intros [?| ->]; [auto|by cbn].
      + intros x. rewrite elem_of_app, list_elem_of_singleton. intros [?| ->]; [auto|]. by split_and!.
      + rewrite length_app. cbn. lia.
      + destruct (p_exit p) as [e|]; [naive_solver|done].
    - intros r Hnd Hr. cbn. unfold push.
      assert ((p_threads p ++ [th]) ++ r ≡ₚ th :: p_threads p ++ r) as -> by solve_Permutation.
      cbn. apply NoDup_cons. split; [|done]. rewrite thread_None in Hf. unfold all_threads in *.
      destruct (all_in_insert _ _ _ Hp) as (r' & Hall & Hdel & _).
      by rewrite Hall, <- Hdel, Hr in Hf. }
  split; [done|done| |by eauto 6|cbn; lia].
  apply (thread_new_view t _ th); [apply Hi|apply Hi'|done|done].
Qed.

Lemma create_thread_with_id_spec t pid id name : inv t →
  wp (create_thread_with_id pid id name)
    (λ r t', r = id ∧ thread_inserted pid id name t t') (λ _ t', t' = t) t.
Proof.
  intros Hi. unfold create_thread_with_id. wp_steps. apply wpo_validate; [done|].
  intros i p Hix Hp Hpid Hst Hlen Hcnt. wp_steps; [done|]. bool_simpl.
  assert (thread t id = None) as Hf by by apply eq_None_not_Some.
  eapply wp_mono; [by eapply (insert_thread_spec t pid id name i p)|cbv beta|done].
  intros _ t' Ht'. by wp_steps.
Qed.

(** [create_thread] also advances the identity counter. *)
Lemma create_thread_spec t pid name : inv t →
  wp (create_thread pid name)
    (λ id t', ∃ next, thread_inserted pid id name (set_next_thread_id next t) t' ∧ thread t id = None ∧
       next_thread_id t ≤ id < next)
    (λ _ t', t' = t) t.
Proof.
  intros Hi. unfold create_thread, allocate_thread_id. wp_steps. apply wpo_validate; [done|].
  intros i p Hix Hp Hpid Hst Hlen Hcnt. wp_steps.
  pose proof (free_thread_id_spec t (S (thread_count t)) (next_thread_id t) 0 Hi) as Hfree.
  rewrite Z.add_0_r in Hfree. eapply wpo_mono; [apply Hfree; [lia|intros; lia]|cbv beta|done].
  intros id [Hle Hf]. wp_steps; [|done]. apply checked_add_Some in H as [-> _].
  assert (inv (set_next_thread_id (id + 1) t)) as Hi1 by (destruct Hi; split; done).
  eapply wp_mono; [by eapply (insert_thread_spec _ pid id name i p)|cbv beta|done].
  intros _ t' Ht'. wp_steps. exists (id + 1). split_and!; [done|done|lia|lia].
Qed.

(** ** Rolling a thread back *)

Lemma process_ok_rollback p j : process_ok p → p_state p ≠ PExited →
  process_ok (set_p_state (if bool_decide (delete j (p_threads p) = []) then PCreated else p_state p)
    (set_p_threads (delete j (p_threads p)) p)).
Proof.
  intros Hok Hne. destruct (process_ok_delete p j Hok) as [Ho Ht Hl Hc Hx Hex].
  split; cbn in *; try done.
  - case_bool_decide; [done|]. by intros ?%Hc.
  - by case_bool_decide.
  - destruct (p_exit p) as [e|]; [naive_solver|]. by case_bool_decide.
Qed.

Lemma rollback_thread_spec t id : inv t →
  wp (rollback_thread_creation id)
    (λ _ t', inv t' ∧ ∃ th i p j, thread t id = Some th ∧ t_state th = Runnable ∧
       processes t !! i = Some p ∧ p_threads p !! j = Some th ∧ p_id p = t_process th ∧
       (∀ k, thread t' k = if decide (k = id) then None else thread t k) ∧
       t' = replace_process i (set_p_state (if bool_decide (delete j (p_threads p) = []) then PCreated else p_state p)
              (set_p_threads (delete j (p_threads p)) p)) (thread_count t - 1) t)
    (λ _ t', t' = t ∧ ∀ th, thread t id = Some th → t_state th = Runnable → t_detached th = false →
       t_exit th = None → False) t.
Proof.
  intros Hi. unfold rollback_thread_creation. wp_steps.
  { split; [done|]. intros th Hth Hs Hd He. assert (th = a) as -> by congruence.
    by rewrite Hs, Hd, He in H0. }
  3: { split; [done|]. intros th Hth. congruence. }
  2: { destruct (locate t id a Hi H) as (_ & i & p & j & Hpi & _). congruence. }
  apply orb_false_iff in H0 as [H0 _]. apply orb_false_iff in H0 as [H0 _]. bool_simpl.
  destruct (locate t id a Hi H) as (Hid & i & p & j & Hpi & Hp & Hj & Hpok & Hok & Hpid).
  assert (a0 = i) as -> by congruence. eapply wpo_expect; [exact Hp|]. wp_steps.
  2: { pose proof (position_None _ _ H2 a (list_elem_of_lookup_2 _ _ _ Hj)) as Hne. cbn in Hne.
    by rewrite Hid, Z.eqb_refl in Hne. }
 
  apply position_Some in H2 as (x & Hx & Hxid & _). bool_simpl.
  assert (x = a) as ->.
  { eapply (NoDup_key_inj t_id (all_threads t)); [apply Hi|..|congruence]; apply all_in_elem; eauto. }
  rewrite (update_process_replace t i p) by done.
  set (p' := set_p_state _ (set_p_threads _ p)).
  change (set_thread_count _ (replace_process i p' (thread_count t) t))
    with (replace_process i p' (thread_count t - 1) t).
  pose proof (delete_Permutation _ _ _ Hx) as Hperm. pose proof (Permutation_length Hperm) as Hlen. cbn in Hlen.
  destruct (replace_process_threads t i p p' (thread_count t - 1) Hp) as (rest & Ha & Ha').
  assert (all_threads t ≡ₚ a :: delete a0 (p_threads p) ++ rest) as Ha0 by (rewrite Ha, Hperm at 1; done).
  assert (1 ≤ thread_count t)%nat as Hpos by (rewrite (inv_count t Hi), Ha0; cbn; lia).
  assert (p_state p ≠ PExited) as Hns.
  { intros Hs. pose proof (ok_exited p Hpok Hs a (list_elem_of_lookup_2 _ _ _ Hx)). congruence. }
  split.
  - eapply inv_replace_process; [done..|by apply process_ok_rollback| |cbn; lia|pose proof (inv_count_limit t Hi); lia].
    intros r Hnd _. rewrite Hperm in Hnd. cbn in Hnd. by apply NoDup_cons in Hnd as [_ ?].
  - exists a, i, p, a0. split_and!; try done. rewrite <- Hid.
    eapply thread_gone_view; [apply Hi|exact Ha0|exact Ha'].
Qed.
