(* ===== verification/ProcessModelProps.v ===== *)
(** * ProcessModelProps: the lifecycle over whole histories *)

From stdpp Require Import base list numbers option sets strings.
From Stdlib Require Import ZArith Lia.
From S2P Require Import Prelude ProcessModel.

Inductive op :=
| OCreateProcess (parent : option ProcessId)
| OCreateThread (pid : ProcessId) (name : string)
| OCreateThreadWithId (pid : ProcessId) (id : ThreadId) (name : string)
| ORollbackThread (id : ThreadId)
| ORollbackProcess (pid : ProcessId)
| ORun (id : ThreadId) | OYield (id : ThreadId) | OBlock (id : ThreadId) | OSleep (id : ThreadId)
| OWake (id : ThreadId) | OStop (id : ThreadId) | OContinue (id : ThreadId)
| OExit (id : ThreadId) (status : Z)
| ODetach (id : ThreadId) | OJoin (id : ThreadId)
| OOrphan (pid : ProcessId) | OReap (pid : ProcessId).

(** An operation with its result forgotten. *)
Definition erase {E A} (m : M ProcessTable E A) : M ProcessTable unit unit :=
  λ t, match m t with
       | (Ok _, t') => (Ok (), t') | (Err _, t') => (Err (), t') | (Abort, t') => (Abort, t')
       end.

Definition exec (o : op) : M ProcessTable unit unit :=
  match o with
  | OCreateProcess parent => erase (create_process parent)
  | OCreateThread pid name => erase (create_thread pid name)
  | OCreateThreadWithId pid id name => erase (create_thread_with_id pid id name)
  | ORollbackThread id => erase (rollback_thread_creation id)
  | ORollbackProcess pid => erase (rollback_process_creation pid)
  | ORun id => erase (run_thread id)
  | OYield id => erase (yield_thread id)
  | OBlock id => erase (block_thread id)
  | OSleep id => erase (sleep_thread id)
  | OWake id => erase (wake_thread id)
  | OStop id => erase (stop_thread id)
  | OContinue id => erase (continue_thread id)
  | OExit id status => erase (exit_thread id status)
  | ODetach id => erase (detach_thread id)
  | OJoin id => erase (join_thread id)
  | OOrphan pid => erase (orphan_children pid)
  | OReap pid => erase (reap_process pid)
  end.

Fixpoint run (os : list op) (t : ProcessTable) : ProcessTable :=
  match os with [] => t | o :: os => run os (exec o t).2 end.

Lemma wp_erase {E A} (m : M ProcessTable E A) (Q : A → ProcessTable → Prop)
    (R : E → ProcessTable → Prop) (P : ProcessTable → Prop) t :
  wp m Q R t → (∀ a t', Q a t' → P t') → (∀ e t', R e t' → P t') →
  wp (erase m) (λ _ t', P t') (λ _ t', P t') t.
Proof. unfold wp, erase. destruct (m t) as [[a|e|] t']; eauto. Qed.

(** ** Thread transitions against a transition diagram *)

Inductive lifecycle := LRun | LYield | LBlock | LSleep | LWake | LStop | LContinue.

Definition lifecycle_op (o : lifecycle) (id : ThreadId) : M ProcessTable StateError unit :=
  match o with
  | LRun => run_thread id | LYield => yield_thread id | LBlock => block_thread id
  | LSleep => sleep_thread id | LWake => wake_thread id | LStop => stop_thread id
  | LContinue => _ ← continue_thread id; mret ()
  end.

(** State and, for a stopped thread, the state it will resume in. *)
Definition diagram (o : lifecycle) (x : ThreadState * option ThreadState)
    : option (ThreadState * option ThreadState) :=
  match o, x with
  | LRun, (Runnable, r) => Some (Running, r)
  | LYield, (Running, r) => Some (Runnable, r)
  | LBlock, ((Runnable | Running), r) => Some (Blocked, r)
  | LSleep, ((Runnable | Running), r) => Some (Sleeping, r)
  | LWake, ((Blocked | Sleeping), r) => Some (Runnable, r)
  | LWake, (Stopped, Some (Blocked | Sleeping)) => Some (Stopped, Some Runnable)
  | LStop, ((Runnable | Running), None) => Some (Stopped, Some Runnable)
  | LStop, (Blocked, None) => Some (Stopped, Some Blocked)
  | LStop, (Sleeping, None) => Some (Stopped, Some Sleeping)
  | LContinue, (Stopped, Some r) => Some (r, None)
  | _, _ => None
  end.

Definition with_state (x : ThreadState * option ThreadState) (th : Thread) : Thread :=
  set_t_state x.1 (set_t_resume x.2 th).

Lemma with_state_ok o th x : thread_ok th → diagram o (t_state th, t_resume th) = Some x →
  thread_ok (with_state x th) ∧ t_state th ≠ Exited.
Proof.
  intros (Hr & He & Hne) Hd.
  assert (t_state th ≠ Exited ∧ x.1 ≠ Exited ∧
    match x.1 with
    | Stopped => x.2 = Some Runnable ∨ x.2 = Some Blocked ∨ x.2 = Some Sleeping
    | _ => x.2 = None end) as (Hl & Hx & Hres).
  { destruct o, (t_state th), (t_resume th) as [[]|]; cbn in Hd; try done; injection Hd as <-;
      cbn in *; naive_solver. }
  split; [|done]. split_and!; cbn; [done|done|]. intros _. by apply Hne.
Qed.

Lemma lifecycle_spec o id t : inv t →
  wp (lifecycle_op o id)
    (λ _ t', ∃ th x, diagram o (t_state th, t_resume th) = Some x ∧
       thread_changed id th (with_state x th) t t')
    (λ e t', t' = t ∧
       (e = InvalidThread ∧ thread t id = None ∨
        e = InvalidTransition ∧ ∃ th, thread t id = Some th ∧
          diagram o (t_state th, t_resume th) = None)) t.
Proof.
  intros Hi.
  assert (∀ {A} (k : Thread → outcome StateError (Thread * A)),
    (∀ th, thread_ok th → match diagram o (t_state th, t_resume th), k th with
       | Some x, Ok (th', _) => th' = with_state x th | None, Err InvalidTransition => True
       | _, _ => False end) →
    wp (with_thread InvalidThread id k)
      (λ _ t', ∃ th x, diagram o (t_state th, t_resume th) = Some x ∧
         thread_changed id th (with_state x th) t t')
      (λ e t', t' = t ∧
         (e = InvalidThread ∧ thread t id = None ∨
          e = InvalidTransition ∧ ∃ th, thread t id = Some th ∧
            diagram o (t_state th, t_resume th) = None)) t) as Hgen.
  { intros A k Hk. apply with_thread_spec; [done|naive_solver|].
    intros i j p th Hp Hj Hid Hth Hpr Hpok Hok. specialize (Hk th Hok).
    destruct (diagram o (t_state th, t_resume th)) as [x|] eqn:Hd, (k th) as [[th' a]|[]|]; try done; cbn.
    - subst th'. destruct (with_state_ok o th x Hok Hd). exists th, x. split; [done|].
      rewrite <- Hid. by apply replace_thread_changed.
    - naive_solver. }
  destruct o; cbn [lifecycle_op]; try (apply Hgen; intros [? ? ? s r ? ?] (Hr & _ & _); cbn in *;
    destruct s, r as [[]|]; cbn in *; done || naive_solver).
  apply wp_bind. eapply wp_mono; [apply Hgen|intros; by apply wp_ret|done].
  intros [? ? ? s r ? ?] (Hr & _ & _); cbn in *; destruct s, r as [[]|]; cbn in *; done || naive_solver.
Qed.

(** ** Histories *)

Definition exit_in (l : list Process) (pid : ProcessId) (e : ProcessExit) : Prop :=
  ∃ p, p ∈ l ∧ p_id p = pid ∧ p_exit p = Some e.

(** What any operation does to a table. *)
Record advances (t t' : ProcessTable) : Prop := {
  av_inv : inv t';
  av_tidy : tidy t → tidy t';
  av_next : next_process_id t ≤ next_process_id t' ≤ next_process_id t + 1;
  av_exit : ∀ pid e, exit_in (processes t) pid e →
    exit_in (processes t') pid e ∨ pid ∉ p_id <$> processes t';
  av_absent : ∀ pid, pid < next_process_id t → pid ∉ p_id <$> processes t →
    pid ∉ p_id <$> processes t';
}.

Lemma advances_refl t : inv t → advances t t.
Proof. intros. split; auto. lia. Qed.

Definition exits (l : list Process) : list (ProcessId * option ProcessExit) :=
  (λ p, (p_id p, p_exit p)) <$> l.

Lemma exits_ids l : p_id <$> l = fst <$> exits l.
Proof. unfold exits. rewrite <- list_fmap_compose. by apply list_fmap_ext. Qed.

(** The same processes up to threads, links and states. *)
Lemma advances_keys t t' : inv t' → (tidy t → tidy t') → next_process_id t' = next_process_id t →
  exits (processes t') = exits (processes t) →
  advances t t'.
Proof.
  intros Hi Ht Hn Heq. assert (p_id <$> processes t' = p_id <$> processes t) as Hids.
  { by rewrite !exits_ids, Heq. }
  split; [done|done|lia| |by rewrite Hids].
  intros pid e (p & Hp & Hid & He). left.
  assert ((pid, Some e) ∈ exits (processes t')) as (q & [= Hq1 Hq2] & Hq)%list_elem_of_fmap.
  { rewrite Heq. apply list_elem_of_fmap. exists p. split; [congruence|done]. }
  by exists q.
Qed.

Lemma shells_keys t t' : shell <$> processes t' = shell <$> processes t →
  exits (processes t') = exits (processes t).
Proof.
  intros H. assert (∀ l, exits l = exits (shell <$> l)) as Hs; [|by rewrite Hs, H, <- Hs].
  intros l. unfold exits. rewrite <- list_fmap_compose. by apply list_fmap_ext.
Qed.

Lemma relink_keys g (l : list Process) : relink g →
  exits (g <$> l) = exits l.
Proof.
  intros Hg. unfold exits. rewrite <- list_fmap_compose. apply list_fmap_ext. intros i p _. cbn.
  by destruct (Hg p) as (-> & _ & _ & ->).
Qed.

Lemma insert_keys (l : list Process) i p p' : l !! i = Some p → p_id p' = p_id p → p_exit p' = p_exit p →
  exits (<[i := p']> l) = exits l.
Proof.
  intros Hi H1 H2. unfold exits. rewrite list_fmap_insert, H1, H2. apply list_insert_id. by rewrite list_lookup_fmap, Hi.
Qed.

Lemma advances_shells t t' : inv t' → (tidy t → tidy t') → next_process_id t' = next_process_id t →
  shell <$> processes t' = shell <$> processes t → advances t t'.
Proof. intros. apply advances_keys; [done..|by apply shells_keys]. Qed.

Lemma advances_changed id th th' t t' :
  (t_state th' = Exited → t_state th = Exited) → t_detached th' = t_detached th →
  thread_changed id th th' t t' → advances t t'.
Proof.
  intros Hs Hd [Hi Hold Hv Hsh [Hn _]]. apply advances_shells; [done| |done|done].
  intros Ht k x Hx Hex. rewrite Hv in Hx. destruct (decide (k = id)) as [->|]; [|by eapply Ht].
  injection Hx as <-. rewrite Hd. eapply Ht; [exact Hold|auto].
Qed.

Lemma advances_gone p t t' : inv t → process_gone p t t' → advances t t'.
Proof.
  intros Hi (Hi' & Hv & (i & Hp & Hl) & Hn & _).
  assert (∀ q, q ∈ delete i (processes t) ↔ q ∈ processes t ∧ p_id q ≠ p_id p) as Hdel.
  { intros q. apply elem_of_delete_key; [apply Hi|done]. }
  assert (p_id <$> processes t' = p_id <$> delete i (processes t)) as Hids.
  { rewrite Hl. apply relink_ids, forget_relink. }
  split; [done| |lia|..].
  - intros Ht k x Hx. rewrite Hv in Hx. destruct (thread t k) as [th|] eqn:Hth; [|done].
    case_decide; [done|]. injection Hx as <-. by eapply Ht.
  - intros pid e (q & Hq & <- & He). destruct (decide (p_id q = p_id p)) as [Heq|Hne].
    + right. rewrite Hids. intros (x & Hx & [_ Hnx]%Hdel)%list_elem_of_fmap. congruence.
    + left. exists (forget (p_parent p) (p_id p) q).
      destruct (forget_relink (p_parent p) (p_id p) q) as (-> & _ & _ & ->). split_and!; [|done|done].
      rewrite Hl. by apply list_elem_of_fmap_2, Hdel.
  - intros pid _ Hni. rewrite Hids. intros (x & -> & [Hx _]%Hdel)%list_elem_of_fmap. apply Hni.
    by apply list_elem_of_fmap_2.
Qed.

Lemma exit_in_shell t pid e : inv t →
  exit_in (processes t) pid e ↔ ∃ sh, process_shell t pid = Some sh ∧ p_exit sh = Some e.
Proof.
  intros Hi. split.
  - intros (p & Hp & Hid & He). exists (shell p). split; [|done].
    apply process_shell_lookup; [apply Hi|]. split; [by apply list_elem_of_fmap_2|done].
  - intros (sh & [(p & -> & Hp)%list_elem_of_fmap Hid]%process_shell_lookup & He); [|apply Hi]. by exists p.
Qed.

Lemma present_shell t pid : inv t → pid ∈ p_id <$> processes t ↔ is_Some (process_shell t pid).
Proof.
  intros Hi. split.
  - intros (p & -> & Hp)%list_elem_of_fmap. exists (shell p).
    apply process_shell_lookup; [apply Hi|]. split; [by apply list_elem_of_fmap_2|done].
  - intros [sh [(p & -> & Hp)%list_elem_of_fmap <-]%process_shell_lookup]; [|apply Hi].
    change (p_id (shell p)) with (p_id p). by apply list_elem_of_fmap_2.
Qed.

Lemma advances_exited id th status r t t' : inv t → thread_exited id th status r t t' → advances t t'.
Proof.
  intros Hi [Hi' Hold Hlive Hv Hr Hsh Hn]. split; [done| |lia|..].
  - intros Ht k x Hx Hex. rewrite Hv in Hx. destruct (decide (k = id)); [|by eapply Ht].
    destruct (t_detached th) eqn:Hd; [done|]. by injection Hx as <-.
  - intros pid e He. left. apply exit_in_shell; [done|]. rewrite Hsh. pose proof He as (p & Hp & Hid & Hpe).
    apply exit_in_shell in He; [|done]. destruct r as [e'|]; [|done].
    rewrite decide_False; [done|]. intros Heq. apply Hlive.
    apply list_elem_of_lookup in Hp as [i Hp].
    assert (process_ok p) as Hok by (apply (inv_processes t Hi); by eapply list_elem_of_lookup_2).
    pose proof (ok_exit p Hok) as Hx. rewrite Hpe in Hx. apply (ok_exited p Hok); [apply Hx|].
    apply (process_threads_view t p i th Hi Hp). destruct (locate t id th Hi Hold) as [Htid _].
    rewrite Htid. split; [done|congruence].
  - intros pid _. rewrite !present_shell by done. rewrite Hsh. destruct r; [|done].
    case_decide; [|done]. by rewrite fmap_is_Some.
Qed.

Lemma advances_grown parent t : inv t → inv (grown parent t) → (∀ k, thread (grown parent t) k = thread t k) →
  advances t (grown parent t).
Proof.
  intros Hi Hi' Hv. split; [done| |cbn; lia|..].
  - intros Ht k x Hx. rewrite Hv in Hx. by eapply Ht.
  - intros pid e (p & Hp & Hid & He). left. exists (adopt parent (next_process_id t) p).
    destruct (adopt_relink parent (next_process_id t) p) as (-> & _ & _ & ->). split_and!; [|done|done].
    cbn. apply elem_of_app. left. by apply list_elem_of_fmap_2.
  - intros pid Hlt Hni. cbn. rewrite fmap_app, relink_ids by apply adopt_relink. cbn.
    rewrite not_elem_of_app, not_elem_of_cons. split_and!; [done|lia|apply not_elem_of_nil].
Qed.

Lemma advances_inserted pid id name t0 t t' : inv t → processes t0 = processes t →
  next_process_id t0 = next_process_id t → thread_inserted pid id name t0 t' → advances t t'.
Proof.
  intros Hi Hp Hn0 [Hi' Hf Hv (i & p & Hpi & Hpid & Hst & Hl) (Hn & _)].
  assert (∀ k, thread t0 k = thread t k) as Hth.
  { intros k. unfold thread, thread_index, thread_at. by rewrite Hp. }
  apply advances_keys; [done| |congruence|].
  - intros Ht k x Hx Hex. rewrite Hv in Hx. case_decide; [by injection Hx as <-|]. rewrite Hth in Hx. by eapply Ht.
  - rewrite Hl, <- Hp. by eapply insert_keys.
Qed.

Lemma advances_removed id th t t' : thread_removed id th t t' → advances t t'.
Proof.
  intros [Hi Hold Hv Hs [Hn _]]. apply advances_shells; [done| |done|done].
  intros Ht k x Hx. rewrite Hv in Hx. case_decide; [done|]. by eapply Ht.
Qed.

Lemma lifecycle_advances o id t : inv t →
  wp (erase (lifecycle_op o id)) (λ _ t', advances t t') (λ _ t', advances t t') t.
Proof.
  intros Hi. eapply wp_erase; [by apply lifecycle_spec|cbv beta..].
  - intros _ t' (th & x & Hd & Hch). eapply advances_changed; [| |exact Hch]; [|done].
    intros Hx. destruct (locate t id th Hi (tc_old _ _ _ _ _ Hch)) as (_ & _ & _ & _ & _ & _ & _ & _ & Hok & _).
    exfalso. destruct Hok as (Hr & _ & _). destruct o, (t_state th), (t_resume th) as [[]|];
      cbn in Hd, Hr; try done; injection Hd as <-; cbn in Hx; naive_solver.
  - intros e t' [-> _]. by apply advances_refl.
Qed.

Lemma exec_advances o t : inv t → next_process_id t < u64_max →
  wp (exec o) (λ _ t', advances t t') (λ _ t', advances t t') t.
Proof.
  intros Hi Hn. assert (∀ t', t' = t → advances t t') as Hsame by (intros t' ->; by apply advances_refl).
  destruct o; cbn [exec].
  - eapply wp_erase; [by apply create_process_spec|cbv beta|by eauto].
    intros _ t' (Hi' & _ & Hv & ->). by apply advances_grown.
  - eapply wp_erase; [by apply create_thread_spec|cbv beta|by eauto].
    intros id t' (next & Ht & _). by eapply (advances_inserted _ _ _ (set_next_thread_id next t)).
  - eapply wp_erase; [by apply create_thread_with_id_spec|cbv beta|by eauto].
    intros _ t' [_ Ht]. by eapply advances_inserted.
  - eapply wp_erase; [by apply rollback_thread_spec|cbv beta|naive_solver].
    intros _ t' (Hi' & th & i & p & j & Hth & _ & Hp & Hj & _ & Hv & Heq).
    apply advances_keys; [done| |by rewrite Heq|].
    + intros Ht k x Hx. rewrite Hv in Hx. case_decide; [done|]. by eapply Ht.
    + rewrite Heq. cbn. by eapply insert_keys.
  - eapply wp_erase; [by apply rollback_process_spec|cbv beta|naive_solver].
    intros _ t' (p & _ & _ & Hg). by eapply advances_gone.
  - by apply (lifecycle_advances LRun).
  - by apply (lifecycle_advances LYield).
  - by apply (lifecycle_advances LBlock).
  - by apply (lifecycle_advances LSleep).
  - by apply (lifecycle_advances LWake).
  - by apply (lifecycle_advances LStop).
  - pose proof (lifecycle_advances LContinue id t Hi) as H. unfold wp, erase in *. cbn in H.
    unfold mbind, M_bind in H. by destruct (continue_thread id t) as [[| |] ?].
  - eapply wp_erase; [by apply exit_thread_spec|cbv beta|naive_solver].
    intros r t' (th & Hx). by eapply advances_exited.
  - eapply wp_erase; [by apply detach_thread_spec|cbv beta|by eauto].
    intros _ t' (Hi' & th & Hth & Hd & Hv & Hs & Hn'). apply advances_shells; [done| |done|done].
    intros Ht k x Hx Hex. rewrite Hv in Hx. case_decide; [|by eapply Ht].
    case_bool_decide; [done|]. injection Hx as <-. done.
  - eapply wp_erase; [by apply join_thread_spec|cbv beta|by eauto].
    intros e t' (th & Hr & _). by eapply advances_removed.
  - eapply wp_erase; [by apply orphan_children_spec|cbv beta|by eauto].
    intros n t' (Hi' & Hv & p & _ & _ & ->). apply advances_keys; [done| |done|].
    + intros Ht k x Hx. rewrite Hv in Hx. by eapply Ht.
    + cbn. apply relink_keys, disown_relink.
  - eapply wp_erase; [by apply reap_process_spec|cbv beta|by eauto].
    intros e t' (p & _ & _ & _ & _ & _ & Hg & _). by eapply advances_gone.
Qed.

(** Identities last for 2^64 - 2 creations. *)
Lemma run_advances os t : inv t → next_process_id t + Z.of_nat (length os) < u64_max →
  let t' := run os t in
  inv t' ∧ (tidy t → tidy t') ∧ next_process_id t' ≤ next_process_id t + Z.of_nat (length os) ∧
  next_process_id t ≤ next_process_id t' ∧
  (∀ pid e, exit_in (processes t) pid e → pid < next_process_id t →
     exit_in (processes t') pid e ∨ pid ∉ p_id <$> processes t') ∧
  (∀ pid, pid < next_process_id t → pid ∉ p_id <$> processes t → pid ∉ p_id <$> processes t').
Proof.
  revert t. induction os as [|o os IH]; intros t Hi Hn; cbn [run length] in *.
  - split_and!; auto; lia.
  - pose proof (exec_advances o t Hi ltac:(lia)) as Ho. unfold wp in Ho.
    assert (advances t (exec o t).2) as [Hi1 Ht1 Hn1 He1 Ha1] by by destruct (exec o t) as [[]].
    destruct (IH _ Hi1) as (Hi2 & Ht2 & Hn2 & Hn2' & He2 & Ha2); [lia|].
    split_and!; [done|by auto|lia|lia|..].
    + intros pid e He Hlt. destruct (He1 pid e He) as [?|Hni]; [apply He2; [done|lia]|].
      right. apply Ha2; [lia|done].
    + intros pid Hlt Hni. apply Ha2; [lia|]. by apply Ha1.
Qed.

Lemma lifecycle_run o id t th x : inv t → thread t id = Some th →
  diagram o (t_state th, t_resume th) = Some x →
  ∃ t', lifecycle_op o id t = (Ok (), t') ∧ thread_changed id th (with_state x th) t t'.
Proof.
  intros Hi Hth Hd. pose proof (lifecycle_spec o id t Hi) as H. unfold wp in H.
  destruct (lifecycle_op o id t) as [[[]|e|] t']; [|naive_solver|done].
  destruct H as (th' & x' & Hd' & Hch). pose proof (tc_old _ _ _ _ _ Hch) as Hold.
  assert (th' = th) as -> by congruence. assert (x' = x) as -> by congruence. eauto.
Qed.

Lemma thread_unstopped t id th : inv t → thread t id = Some th →
  t_state th ≠ Stopped → t_resume th = None.
Proof.
  intros Hi Hth Hne. destruct (locate t id th Hi Hth) as (_ & _ & _ & _ & _ & _ & _ & _ & (Hr & _) & _).
  by destruct (t_state th).
Qed.

(** ** Properties *)

(** C23. The process table keeps its invariant and never panics.  After any history
    (shorter than 2^64 - 3 operations, so that process identities do not run out):
    process and thread identities are unique and the thread counter exact, every
    bound holds, parent and child links agree and form a forest, every thread
    record is consistent (exit record present exactly when exited, resume state
    present exactly when stopped), exited processes have only exited threads and
    exactly they carry an exit record, no exited thread is left that nobody can
    join; and no further operation can hit an [expect]. *)
Theorem process_table_invariant (os : list op) (Hos : Z.of_nat (length os) < u64_max - 2) :
  let t := run os new in
  inv t ∧ tidy t ∧ ∀ o, (exec o t).1 ≠ Abort.
Proof.
  intros t. destruct (run_advances os new table_new_inv) as (Hi & Ht & Hn & _); [cbn; lia|].
  split_and!; [done| |].
  - by apply Ht.
  - intros o. eapply wp_no_abort, exec_advances; [done|]. unfold t.
    change (next_process_id new) with 1 in Hn. lia.
Qed.

Definition demo : list op :=
  [OCreateProcess None; OCreateProcess (Some 1); OCreateThread 2 "main"; OCreateThread 2 "io"; ORun 1; OBlock 2].

Lemma table_demo_inv : inv (run demo new).
Proof. apply (run_advances demo new table_new_inv). by vm_compute. Qed.

Lemma process_table_invariant_witness :
  inv (run demo new) ∧ (exec (OExit 1 7) (run demo new)).1 ≠ Abort.
Proof.
  assert (Z.of_nat (length demo) < u64_max - 2) as Hlen by by vm_compute.
  destruct (process_table_invariant demo Hlen) as (H1 & _ & H2). split; [exact H1|apply H2].
Defined.

(** C28. Thread transitions follow the lifecycle diagram.  Each of run, yield, block,
    sleep, wake, stop and continue succeeds exactly on the states the diagram
    allows; it then changes the state (and resume state) of that thread as the
    diagram says and nothing else in the table, and otherwise reports the right
    error and changes nothing. *)
Theorem lifecycle_transitions (o : lifecycle) (id : ThreadId) (t : ProcessTable) (Hi : inv t) :
  match lifecycle_op o id t with
  | (Ok _, t') => ∃ th x, thread t id = Some th ∧
      diagram o (t_state th, t_resume th) = Some x ∧
      (∀ k, thread t' k = if decide (k = id) then Some (with_state x th) else thread t k) ∧
      shell <$> processes t' = shell <$> processes t ∧ thread_count t' = thread_count t
  | (Err InvalidThread, t') => t' = t ∧ thread t id = None
  | (Err InvalidTransition, t') => t' = t ∧ ∃ th, thread t id = Some th ∧
      diagram o (t_state th, t_resume th) = None
  | (Abort, _) => False
  end.
Proof.
  pose proof (lifecycle_spec o id t Hi) as H. unfold wp in H.
  destruct (lifecycle_op o id t) as [[[]|[]|] t']; [|naive_solver..].
  destruct H as (th & x & Hd & [_ Hold Hv Hs (_ & _ & Hc)]). by exists th, x.
Qed.

Lemma lifecycle_transitions_witness :
  thread_state (lifecycle_op LWake 2 (run demo new)).2 2 = Some Runnable ∧
  (lifecycle_op LWake 1 (run demo new)).2 = run demo new.
Proof.
  split.
  - pose proof (lifecycle_transitions LWake 2 (run demo new) table_demo_inv) as H.
    destruct (lifecycle_op LWake 2 (run demo new)) as [o t'] eqn:E.
    assert (o = Ok ()) as -> by (vm_compute in E; congruence).
    destruct H as (th & x & Hth & Hd & Hv & _). unfold thread_state. cbn [snd]. rewrite Hv.
    rewrite decide_True by done. vm_compute in Hth. injection Hth as <-. by injection Hd as <-.
  - pose proof (lifecycle_transitions LWake 1 (run demo new) table_demo_inv) as H.
    destruct (lifecycle_op LWake 1 (run demo new)) as [o t'] eqn:E.
    assert (o = Err InvalidTransition) as -> by (vm_compute in E; congruence). apply H.
Defined.

(** C35. Process exit is reported exactly by the last thread.  If [exit_thread]
    succeeds, the thread was live and now holds its exit record (or is gone if it
    was detached), every other thread is unchanged, and a process exit is returned
    exactly when no other live thread of the process remains; in that case, and
    only then, the process becomes exited with that record. *)
Theorem exit_reported_by_last_thread (id : ThreadId) (status : Z) (t : ProcessTable) (Hi : inv t) :
  match exit_thread id status t with
  | (Ok r, t') => ∃ th, thread t id = Some th ∧ t_state th ≠ Exited ∧
      (∀ k, thread t' k = if decide (k = id)
         then (if t_detached th then None else Some (exited status th)) else thread t k) ∧
      (r = Some {| pe_process := t_process th; pe_status := status |} ∧
       (∀ k x, thread t k = Some x → t_process x = t_process th → k ≠ id → t_state x = Exited) ∧
       (∃ p, process_shell t' (t_process th) = Some p ∧ p_state p = PExited ∧ p_exit p = r) ∨
       r = None ∧
       (∃ k x, thread t k = Some x ∧ t_process x = t_process th ∧ k ≠ id ∧ t_state x ≠ Exited) ∧
       ∀ q, process_shell t' q = process_shell t q)
  | (Err _, t') => t' = t ∧ (thread t id = None ∨ thread_state t id = Some Exited)
  | (Abort, _) => False
  end.
Proof.
  pose proof (exit_thread_spec t id status Hi) as H. unfold wp in H.
  destruct (exit_thread id status t) as [[r|e|] t']; [|done..].
  destruct H as (th & [Hi' Hold Hlive Hv Hr Hsh Hn]). exists th. split_and!; [done..|].
  destruct r as [e|]; [left|by right]. destruct Hr as [-> Hr]. split_and!; [done|done|].
  destruct (locate t id th Hi Hold) as (_ & i & p & j & _ & Hp & _ & _ & _ & Hpid).
  exists (set_p_exit {| pe_process := t_process th; pe_status := status |} (shell p)).
  split_and!; [|done|done]. rewrite Hsh, decide_True by done. rewrite <- Hpid. unfold process_shell.
  by rewrite (process_view t i p).
Qed.

Lemma exit_reported_by_last_thread_witness :
  (exit_thread 1 7 (run demo new)).1 = Ok None ∧
  ∃ k x, thread (run demo new) k = Some x ∧ k ≠ 1 ∧ t_state x ≠ Exited.
Proof.
  pose proof (exit_reported_by_last_thread 1 7 (run demo new) table_demo_inv) as H.
  destruct (exit_thread 1 7 (run demo new)) as [o t'] eqn:E.
  assert (o = Ok None) as -> by (vm_compute in E; congruence). split; [done|].
  destruct H as (th & _ & _ & _ & [(? & _)|(_ & (k & x & Hx & _ & Hk & Hl) & _)]); [done|].
  by exists k, x.
Defined.

(** Stopping is transparent.  Stopping a live thread and continuing it brings
    back the state it had (a running thread becomes runnable) and changes nothing
    else; a wake-up that arrives while it is stopped is not lost: after continue
    the thread is runnable. *)
Theorem stop_continue_transparent (id : ThreadId) (t : ProcessTable) (th : Thread) (Hi : inv t)
    (Hth : thread t id = Some th) (Hs : t_state th ≠ Stopped) (He : t_state th ≠ Exited) :
  let back := match t_state th with Running => Runnable | s => s end in
  (∃ t1 t2, stop_thread id t = (Ok (), t1) ∧ lifecycle_op LContinue id t1 = (Ok (), t2) ∧
     (∀ k, thread t2 k = if decide (k = id) then Some (set_t_state back th) else thread t k) ∧
     shell <$> processes t2 = shell <$> processes t) ∧
  (back ≠ Runnable → ∃ t1 t2 t3, stop_thread id t = (Ok (), t1) ∧ wake_thread id t1 = (Ok (), t2) ∧
     lifecycle_op LContinue id t2 = (Ok (), t3) ∧
     ∀ k, thread t3 k = if decide (k = id) then Some (set_t_state Runnable th) else thread t k).
Proof.
  intros back. pose proof (thread_unstopped t id th Hi Hth Hs) as Hr.
  assert (set_t_resume None th = th) as Hres by (destruct th; cbn in *; by rewrite Hr).
  destruct (lifecycle_run LStop id t th (Stopped, Some back)) as (t1 & Hstop & [Hi1 _ Hv1 Hs1 _]); [done..| |].
  { rewrite Hr. by destruct (t_state th). }
  assert (thread t1 id = Some (with_state (Stopped, Some back) th)) as Hth1 by by rewrite Hv1, decide_True.
  split.
  - destruct (lifecycle_run LContinue id t1 _ (back, None) Hi1 Hth1) as (t2 & Hc & [_ _ Hv2 Hs2 _]); [done|].
    exists t1, t2. split_and!; [exact Hstop|exact Hc| |congruence]. intros k. rewrite Hv2, Hv1.
    destruct (decide (k = id)); [|done]. f_equal. by rewrite <- Hres at 2.
  - intros Hb. destruct (lifecycle_run LWake id t1 _ (Stopped, Some Runnable) Hi1 Hth1) as (t2 & Hw & [Hi2 _ Hv2 _ _]).
    { cbn. unfold back in *. by destruct (t_state th). }
    assert (thread t2 id = Some (with_state (Stopped, Some Runnable) (with_state (Stopped, Some back) th))) as Hth2
      by by rewrite Hv2, decide_True.
    destruct (lifecycle_run LContinue id t2 _ (Runnable, None) Hi2 Hth2) as (t3 & Hc & [_ _ Hv3 _ _]); [done|].
    exists t1, t2, t3. split_and!; [exact Hstop|exact Hw|exact Hc|]. intros k. rewrite Hv3, Hv2, Hv1.
    destruct (decide (k = id)); [|done]. f_equal. by rewrite <- Hres at 2.
Qed.

Lemma stop_continue_transparent_witness :
  ∃ t1 t2 t3, stop_thread 2 (run demo new) = (Ok (), t1) ∧ wake_thread 2 t1 = (Ok (), t2) ∧
    lifecycle_op LContinue 2 t2 = (Ok (), t3) ∧ thread_state t3 2 = Some Runnable.
Proof.
  destruct (thread (run demo new) 2) as [th|] eqn:Hth; [|by vm_compute in Hth].
  assert (t_state th = Blocked) as Hst by (vm_compute in Hth; by injection Hth as <-).
  destruct (stop_continue_transparent 2 (run demo new) th table_demo_inv Hth) as [_ H]; [by rewrite Hst..|].
  rewrite Hst in H. destruct H as (t1 & t2 & t3 & H1 & H2 & H3 & H4); [done|].
  exists t1, t2, t3. split_and!; [exact H1|exact H2|exact H3|].
  unfold thread_state. rewrite H4. by rewrite decide_True.
Defined.

(** C36. An exit record is final.  Once a process has exited with a record, no
    history (within the identity bound) changes that record: the process either
    still carries it or has been removed, never comes back, and [reap_process] can
    only return exactly that record. *)
Theorem exit_record_final (os : list op) (t : ProcessTable) (pid : ProcessId) (p : Process)
    (e : ProcessExit) (Hi : inv t) (Hp : process t pid = Some p) (He : p_exit p = Some e)
    (Hos : next_process_id t + Z.of_nat (length os) < u64_max) :
  match process (run os t) pid with
  | Some p' => p_state p' = PExited ∧ p_exit p' = Some e ∧
      ∀ e' t', reap_process pid (run os t) = (Ok e', t') → e' = e ∧ process t' pid = None
  | None => ∀ os', next_process_id t + Z.of_nat (length os) + Z.of_nat (length os') < u64_max →
      process (run os' (run os t)) pid = None
  end.
Proof.
  destruct (run_advances os t Hi Hos) as (Hi' & _ & Hn & Hn' & Hex & _).
  destruct (process_Some t pid p Hp) as (i & _ & Hpi & Hpid).
  assert (p ∈ processes t) as Hpin by by eapply list_elem_of_lookup_2.
  assert (pid < next_process_id t) as Hlt by (destruct (inv_next t Hi) as [_ H]; specialize (H p Hpin); lia).
  assert (∀ t', inv t' → process t' pid = None ↔ pid ∉ p_id <$> processes t') as Hnone.
  { intros t' Ht'. rewrite present_shell by done. unfold process_shell. rewrite fmap_is_Some.
    by rewrite <- eq_None_not_Some. }
  destruct (process (run os t) pid) as [p'|] eqn:Hp'.
  - destruct (process_Some _ _ _ Hp') as (i' & _ & Hpi' & Hpid').
    assert (p' ∈ processes (run os t)) as Hin' by by eapply list_elem_of_lookup_2.
    assert (p_exit p' = Some e) as Hpe.
    { destruct (Hex pid e) as [(q & Hq & Hqid & Hqe)|Hni]; [by exists p|done|..].
      - assert (q = p') as <-; [|done]. eapply (NoDup_key_inj p_id (processes (run os t))); [apply Hi'|done|done|congruence].
      - destruct Hni. rewrite <- Hpid'. by apply list_elem_of_fmap_2. }
    pose proof (ok_exit p' (inv_processes _ Hi' p' Hin')) as Hok. rewrite Hpe in Hok.
    split_and!; [apply Hok|done|]. intros e' t' Hreap.
    pose proof (reap_process_spec _ pid Hi') as Hr. unfold wp in Hr. rewrite Hreap in Hr.
    destruct Hr as (q & Hq & _ & Hqe & _ & _ & (Hit & _ & (j & Hj & Hl) & _) & _).
    assert (q = p') as -> by congruence. split; [congruence|]. apply Hnone; [done|].
    rewrite Hl, relink_ids by apply forget_relink.
    intros (x & Hx & [_ Hne]%(elem_of_delete_key _ j p'))%list_elem_of_fmap; [congruence|apply Hi'|done].
  - intros os' Hlen. apply Hnone in Hp'; [|done].
    destruct (run_advances os' (run os t) Hi') as (Hi2 & _ & _ & _ & _ & Ha); [lia|].
    apply Hnone; [done|]. apply Ha; [lia|done].
Qed.

Lemma exit_record_final_witness :
  let t := run [OCreateProcess None; OCreateThread 1 "main"; OExit 1 7] new in
  match process (run [OJoin 1; OReap 1] t) 1 with
  | Some _ => False
  | None => process (run [OCreateProcess None] (run [OJoin 1; OReap 1] t)) 1 = None
  end.
Proof.
  intros t. assert (inv t) as Hi by (apply (run_advances _ new table_new_inv); by vm_compute).
  destruct (process t 1) as [p|] eqn:Hp; [|by vm_compute in Hp].
  assert (p_exit p = Some {| pe_process := 1; pe_status := 7 |}) as He
    by (vm_compute in Hp; by injection Hp as <-).
  pose proof (exit_record_final [OJoin 1; OReap 1] t 1 p _ Hi Hp He ltac:(by vm_compute)) as H.
  destruct (process (run [OJoin 1; OReap 1] t) 1) as [p'|] eqn:Hp'; [by vm_compute in Hp'|].
  apply H. by vm_compute.
Defined.

(** Creating a thread and rolling it back restores the table.  For a process
    that is new or has threads, [create_thread_with_id] followed by
    [rollback_thread_creation] succeeds and gives back the very same table. *)
Theorem create_rollback_roundtrip (t t1 : ProcessTable) (pid : ProcessId) (id : ThreadId)
    (name : string) (r : ThreadId) (Hi : inv t)
    (Hp : ∀ p, process t pid = Some p → p_state p = PCreated ∨ p_threads p ≠ [])
    (Hc : create_thread_with_id pid id name t = (Ok r, t1)) :
  rollback_thread_creation id t1 = (Ok (), t).
Proof.
  pose proof (create_thread_with_id_spec t pid id name Hi) as H. unfold wp in H. rewrite Hc in H.
  destruct H as [_ [Hi1 Hf Hv (i & p & Hpi & Hpid & Hst & Hl) (Hn1 & Hn2 & Hn3)]].
  pose proof (rollback_thread_spec t1 id Hi1) as H. unfold wp in H.
  set (th := fresh_thread pid id name) in *.
  assert (thread t1 id = Some th) as Hth by by rewrite Hv, decide_True.
  assert (process t pid = Some p) as Hproc by (rewrite <- Hpid; by eapply process_view).
  set (p' := set_p_state PRunning (set_p_threads (push (p_threads p) th) p)) in *.
  assert (processes t1 !! i = Some p') as Hp1.
  { rewrite Hl. apply list_lookup_insert_eq. by eapply lookup_lt_Some. }
  destruct (rollback_thread_creation id t1) as [[[]|e|] t2]; [|by destruct H as [_ H]; destruct (H th Hth)|done].
  destruct H as (_ & th' & i' & q & j & Hth' & _ & Hqi & Hqj & Hqid & _ & ->).
  assert (th' = th) as -> by congruence.
  assert (i' = i) as ->.
  { eapply (NoDup_lookup (p_id <$> processes t1)); [apply Hi1|..]; rewrite list_lookup_fmap;
      [by rewrite Hqi|rewrite Hp1; cbn; rewrite Hqid; by f_equal]. }
  assert (q = p') as -> by congruence. change (p_threads p') with (p_threads p ++ [th]) in Hqj |- *.
  assert (j = length (p_threads p)) as ->.
  { apply lookup_app_Some in Hqj as [Hj|[Hle Hj%lookup_lt_Some]]; [|cbn in Hj; lia].
    rewrite thread_None in Hf. destruct Hf. change id with (t_id th). apply list_elem_of_fmap_2, all_in_elem. eauto. }
  rewrite delete_middle, app_nil_r. f_equal. destruct t as [a b l n], t1 as [a1 b1 l1 n1]. cbn in *.
  unfold replace_process, set_thread_count, set_processes. cbn. subst. f_equal; [|lia].
  rewrite list_insert_insert_eq. apply list_insert_id. rewrite Hpi. f_equal.
  specialize (Hp p Hproc). destruct p as [pi pp ps pt pc pe]. unfold set_p_state, set_p_threads. cbn in *. f_equal.
  pose proof (inv_processes _ Hi _ (list_elem_of_lookup_2 _ _ _ Hpi)) as Hok.
  case_bool_decide as Hnil.
  - destruct Hp as [?|?]; done.
  - destruct ps; [by destruct Hnil; apply (ok_created _ Hok)|done|done].
Qed.

Lemma create_rollback_roundtrip_witness :
  rollback_thread_creation 50 (create_thread_with_id 2 50 "tmp" (run demo new)).2 = (Ok (), run demo new).
Proof.
  apply (create_rollback_roundtrip (run demo new) _ 2 50 "tmp" 50 table_demo_inv); [|by vm_compute].
  intros p Hp. right. vm_compute in Hp. by injection Hp as <-.
Defined.

(** Rolling back a thread next to an exited one strands the process: it stays
    running with no live thread, and once the exited thread is joined it can never
    be reaped. *)
Example rollback_strands_process :
  let t := run [OCreateProcess None; OCreateThread 1 "a"; OCreateThread 1 "b"; OExit 1 0;
                ORollbackThread 2; OJoin 1] new in
  (p_state <$> process t 1, p_threads <$> process t 1, (reap_process 1 t).1) =
  (Some PRunning, Some [], Err ReapNotExited).
Proof. by vm_compute. Qed.

(** The identity counter saturates: the process created at the top of the range
    does not advance it, and the next one gets the same identity. *)
Example saturated_process_ids_repeat :
  let t := {| next_process_id := u64_max; next_thread_id := 1; processes := []; thread_count := 0 |} in
  ((create_process None t).1, (create_process None (create_process None t).2).1) =
  (Ok u64_max, Ok u64_max).
Proof. by vm_compute. Qed.
