(* ===== verification/Scheduling.v ===== *)
(** * Scheduling: round-robin queues and SMP placement (kernel/src/scheduling.rs)

    One [RoundRobin] policy per CPU and the affinity-aware [SmpRoundRobin] that
    places, migrates and rebalances threads over them. *)

From stdpp Require Import functions base list numbers option sets.
From Stdlib Require Import ZArith Lia.
From S2P Require Import Prelude.

Definition DEFAULT_QUANTUM_TICKS : Z := 5.
Definition MAX_RUNNABLE_THREADS : nat := 256.
Definition MAX_CPUS : nat := 64.

Abbreviation ThreadId := Z.
Abbreviation CpuId := nat.

Record Switch := { sw_from : option ThreadId; sw_to : ThreadId }.

Inductive Error := QCapacity | QAlreadyRunnable | QUnknownThread | QInvalidQuantum.

(** ** One CPU *)

Record RoundRobin := {
  quantum_ticks : Z; ticks_in_quantum : Z; current : option ThreadId;
  runnable : list ThreadId; context_switches : Z; preemptions : Z; voluntary_switches : Z;
}.

Definition set_queue (c : option ThreadId) (l : list ThreadId) (q : RoundRobin) : RoundRobin :=
  {| quantum_ticks := quantum_ticks q; ticks_in_quantum := ticks_in_quantum q; current := c;
     runnable := l; context_switches := context_switches q; preemptions := preemptions q;
     voluntary_switches := voluntary_switches q |}.
Definition set_ticks (n : Z) (q : RoundRobin) : RoundRobin :=
  {| quantum_ticks := quantum_ticks q; ticks_in_quantum := n; current := current q;
     runnable := runnable q; context_switches := context_switches q;
     preemptions := preemptions q; voluntary_switches := voluntary_switches q |}.
Definition count_switch (q : RoundRobin) : RoundRobin :=
  {| quantum_ticks := quantum_ticks q; ticks_in_quantum := ticks_in_quantum q;
     current := current q; runnable := runnable q;
     context_switches := saturating_add u64_max (context_switches q) 1;
     preemptions := preemptions q; voluntary_switches := voluntary_switches q |}.
Definition count_preemption (q : RoundRobin) : RoundRobin :=
  {| quantum_ticks := quantum_ticks q; ticks_in_quantum := ticks_in_quantum q;
     current := current q; runnable := runnable q; context_switches := context_switches q;
     preemptions := saturating_add u64_max (preemptions q) 1;
     voluntary_switches := voluntary_switches q |}.
Definition count_voluntary (q : RoundRobin) : RoundRobin :=
  {| quantum_ticks := quantum_ticks q; ticks_in_quantum := ticks_in_quantum q;
     current := current q; runnable := runnable q; context_switches := context_switches q;
     preemptions := preemptions q;
     voluntary_switches := saturating_add u64_max (voluntary_switches q) 1 |}.

Definition queue_new (quantum : Z) : outcome Error RoundRobin :=
  _ ← err_if (quantum =? 0) QInvalidQuantum;
  mret {| quantum_ticks := quantum; ticks_in_quantum := 0; current := None; runnable := [];
          context_switches := 0; preemptions := 0; voluntary_switches := 0 |}.

Definition with_default_quantum : RoundRobin :=
  {| quantum_ticks := DEFAULT_QUANTUM_TICKS; ticks_in_quantum := 0; current := None;
     runnable := []; context_switches := 0; preemptions := 0; voluntary_switches := 0 |}.

Definition queue_contains (q : RoundRobin) (thread : ThreadId) : bool :=
  bool_decide (current q = Some thread) || any (λ candidate, candidate =? thread) (runnable q).

Definition dispatch_next (q : RoundRobin) : option Switch * RoundRobin :=
  match runnable q with
  | [] => (None, q)
  | next :: rest =>
      (Some {| sw_from := current q; sw_to := next |}, count_switch (set_queue (Some next) rest q))
  end.

Definition rotate_current (q : RoundRobin) : option Switch * RoundRobin :=
  match current q, runnable q with
  | Some c, next :: rest =>
      (Some {| sw_from := Some c; sw_to := next |},
       count_switch (set_queue (Some next) (push rest c) q))
  | _, _ => (None, q)
  end.

Definition queue_admit (thread : ThreadId) : M RoundRobin Error (option Switch) :=
  q ← get;
  _ ← lift (err_if (queue_contains q thread) QAlreadyRunnable);
  _ ← lift (err_if (bool_decide (MAX_RUNNABLE_THREADS ≤ length (runnable q))%nat) QCapacity);
  match current q with
  | None =>
      _ ← modify (λ q, count_switch (set_queue (Some thread) (runnable q) q));
      mret (Some {| sw_from := None; sw_to := thread |})
  | Some c =>
      _ ← modify (λ q, set_queue (current q) (push (runnable q) thread) q);
      mret None
  end.

(** [wake] has the body of [admit]. *)
Definition queue_wake (thread : ThreadId) : M RoundRobin Error (option Switch) :=
  q ← get;
  _ ← lift (err_if (queue_contains q thread) QAlreadyRunnable);
  _ ← lift (err_if (bool_decide (MAX_RUNNABLE_THREADS ≤ length (runnable q))%nat) QCapacity);
  match current q with
  | None =>
      _ ← modify (λ q, count_switch (set_queue (Some thread) (runnable q) q));
      mret (Some {| sw_from := None; sw_to := thread |})
  | Some c =>
      _ ← modify (λ q, set_queue (current q) (push (runnable q) thread) q);
      mret None
  end.

Definition queue_tick (q : RoundRobin) : option Switch * RoundRobin :=
  match current q with
  | None => dispatch_next q
  | Some _ =>
      let q1 := set_ticks (saturating_add u64_max (ticks_in_quantum q) 1) q in
      if ticks_in_quantum q1 <? quantum_ticks q1 then (None, q1)
      else
        match rotate_current (set_ticks 0 q1) with
        | (None, q2) => (None, q2)
        | (Some next, q2) => (Some next, count_preemption q2)
        end
  end.

Definition queue_yield (q : RoundRobin) : option Switch * RoundRobin :=
  match rotate_current (set_ticks 0 q) with
  | (None, q1) => (None, q1)
  | (Some next, q1) => (Some next, count_voluntary q1)
  end.

Definition block_current (q : RoundRobin) : option Switch * RoundRobin :=
  let q1 := set_ticks 0 q in
  match current q1 with
  | None => (None, q1)
  | Some from =>
      match dispatch_next (set_queue None (runnable q1) q1) with
      | (None, q2) => (None, q2)
      | (Some next, q2) => (Some {| sw_from := Some from; sw_to := sw_to next |}, q2)
      end
  end.

Definition queue_remove (thread : ThreadId) : M RoundRobin Error (option Switch) := λ q,
  if bool_decide (current q = Some thread) then
    let '(s, q') := dispatch_next (set_ticks 0 (set_queue None (runnable q) q)) in (Ok s, q')
  else
    match position (λ candidate, candidate =? thread) (runnable q) with
    | None => (Err QUnknownThread, q)
    | Some index => (Ok None, set_queue (current q) (delete index (runnable q)) q)
    end.

(** ** CPU sets *)

Abbreviation CpuMask := Z.

Definition cpu_from_raw (raw : nat) : option CpuId :=
  if bool_decide (raw < MAX_CPUS)%nat then Some raw else None.
Definition mask_single (cpu : CpuId) : CpuMask := Z.shiftl 1 (Z.of_nat cpu).
Definition mask_first (count : nat) : option CpuMask :=
  if bool_decide (count = 0%nat) || bool_decide (MAX_CPUS < count)%nat then None
  else Some (if bool_decide (count = MAX_CPUS) then u64_max
             else Z.shiftl 1 (Z.of_nat count) - 1).
Definition mask_union (a b : CpuMask) : CpuMask := Z.lor a b.
Definition mask_contains (m : CpuMask) (cpu : CpuId) : bool :=
  negb (Z.land m (Z.shiftl 1 (Z.of_nat cpu)) =? 0).
Definition mask_is_empty (m : CpuMask) : bool := m =? 0.

Definition periodic_rebalance_due (cpu coordinator : CpuId) (timer_ticks interval_ticks : Z) : bool :=
  bool_decide (cpu = coordinator) && negb (timer_ticks =? 0) && negb (interval_ticks =? 0) &&
  (timer_ticks mod interval_ticks =? 0).

(** ** All CPUs *)

Inductive SmpError :=
  InvalidCpuCount | InvalidQuantum | InvalidCpu | EmptyAffinity | AffinityOutsideTopology
  | DuplicateThread | Capacity | UnknownThread | AffinityViolation | AlreadyRunnable
  | NotRunnable | QueueStateMismatch.

Inductive AssignmentState := ARunnable | ABlocked.
#[export] Instance AssignmentState_eq_dec : EqDecision AssignmentState.
Proof. solve_decision. Defined.

Record Assignment := {
  a_thread : ThreadId; a_affinity : CpuMask; a_cpu : CpuId; a_state : AssignmentState;
}.
Record SmpRoundRobin := {
  queues : list RoundRobin; assignments : list Assignment; online_mask : CpuMask;
}.

Record Placement := { pl_thread : ThreadId; pl_cpu : CpuId; pl_migrated : bool }.
Record AdmissionResult := { ad_placement : Placement; ad_switch : option Switch }.
Record MigrationResult := {
  mg_placement : Placement; mg_source_was_current : bool;
  mg_source_switch : option Switch; mg_destination_switch : option Switch;
}.
Record QueueTransition := { qt_thread : ThreadId; qt_cpu : CpuId; qt_switch : option Switch }.
Record WakeResult := { wk_placement : Placement; wk_switch : option Switch }.
Record RebalancePlan := {
  rp_thread : ThreadId; rp_from : CpuId; rp_to : CpuId; rp_source_load : nat;
  rp_destination_load : nat;
}.

Definition set_queues (l : list RoundRobin) (s : SmpRoundRobin) : SmpRoundRobin :=
  {| queues := l; assignments := assignments s; online_mask := online_mask s |}.
Definition set_assignments (l : list Assignment) (s : SmpRoundRobin) : SmpRoundRobin :=
  {| queues := queues s; assignments := l; online_mask := online_mask s |}.
Definition set_online (m : CpuMask) (s : SmpRoundRobin) : SmpRoundRobin :=
  {| queues := queues s; assignments := assignments s; online_mask := m |}.

Definition set_a_affinity (m : CpuMask) (a : Assignment) : Assignment :=
  {| a_thread := a_thread a; a_affinity := m; a_cpu := a_cpu a; a_state := a_state a |}.
Definition set_a_cpu (c : CpuId) (a : Assignment) : Assignment :=
  {| a_thread := a_thread a; a_affinity := a_affinity a; a_cpu := c; a_state := a_state a |}.
Definition set_a_state (x : AssignmentState) (a : Assignment) : Assignment :=
  {| a_thread := a_thread a; a_affinity := a_affinity a; a_cpu := a_cpu a; a_state := x |}.

Abbreviation Op A := (M SmpRoundRobin SmpError A).

Definition with_online_mask (cpu_capacity : nat) (quantum : Z) (online : CpuMask)
    : outcome SmpError SmpRoundRobin :=
  _ ← err_if (bool_decide (cpu_capacity = 0%nat) || bool_decide (MAX_CPUS < cpu_capacity)%nat)
        InvalidCpuCount;
  capacity_mask ← ok_or (mask_first cpu_capacity) InvalidCpuCount;
  _ ← err_if (mask_is_empty online || negb (Z.land online (not64 capacity_mask) =? 0)) InvalidCpu;
  q ← map_err (λ _, InvalidQuantum) (queue_new quantum);
  mret {| queues := replicate cpu_capacity q; assignments := []; online_mask := online |}.

Definition new (cpu_count : nat) (quantum : Z) : outcome SmpError SmpRoundRobin :=
  _ ← err_if (bool_decide (cpu_count = 0%nat) || bool_decide (MAX_CPUS < cpu_count)%nat)
        InvalidCpuCount;
  online ← ok_or (mask_first cpu_count) InvalidCpuCount;
  with_online_mask cpu_count quantum online.

Definition online_cpu (cpu : CpuId) : Op bool :=
  s ← get;
  _ ← lift (err_if (bool_decide (length (queues s) ≤ cpu)%nat) InvalidCpu);
  if mask_contains (online_mask s) cpu then mret false
  else _ ← modify (set_online (mask_union (online_mask s) (mask_single cpu))); mret true.

(** [queue(cpu)?] *)
Definition queue (s : SmpRoundRobin) (cpu : CpuId) : outcome SmpError RoundRobin :=
  _ ← err_if (negb (mask_contains (online_mask s) cpu)) InvalidCpu;
  ok_or (queues s !! cpu) InvalidCpu.

(** [self.queues[cpu.raw()].op(..).map_err(f)?] *)
Definition at_queue {A} (cpu : CpuId) (f : Error → SmpError) (m : M RoundRobin Error A) : Op A :=
  λ s, match queues s !! cpu with
       | None => (Abort, s)
       | Some q => let '(o, q') := m q in (map_err f o, set_queues (<[cpu := q']> (queues s)) s)
       end.

Definition assignment_index (s : SmpRoundRobin) (thread : ThreadId) : option nat :=
  position (λ a, a_thread a =? thread) (assignments s).

Definition update_assignment (i : nat) (f : Assignment → Assignment) (s : SmpRoundRobin)
    : SmpRoundRobin := set_assignments (alter f i (assignments s)) s.

Definition queue_load (q : RoundRobin) : nat :=
  length (runnable q) + (if bool_decide (is_Some (current q)) then 1 else 0).

Definition cpu_load (s : SmpRoundRobin) (cpu : CpuId) : outcome SmpError nat :=
  q ← queue s cpu; mret (queue_load q).

Definition queue_can_accept (s : SmpRoundRobin) (cpu : CpuId) : outcome SmpError bool :=
  q ← queue s cpu;
  mret (bool_decide (current q = None) || bool_decide (length (runnable q) < MAX_RUNNABLE_THREADS)%nat).

Definition validate_affinity (s : SmpRoundRobin) (affinity : CpuMask) : outcome SmpError unit :=
  _ ← err_if (mask_is_empty affinity) EmptyAffinity;
  err_if (negb (Z.land affinity (not64 (online_mask s)) =? 0)) AffinityOutsideTopology.

Definition validate_admission (s : SmpRoundRobin) (affinity : CpuMask) : outcome SmpError unit :=
  _ ← validate_affinity s affinity;
  err_if (bool_decide (MAX_RUNNABLE_THREADS ≤ length (assignments s))%nat) Capacity.

(** The loop of [least_loaded_cpu]; [selected_load] starts at [usize::MAX], above
    any load, which [None] stands for. *)
Fixpoint least_loaded_loop (s : SmpRoundRobin) (affinity : CpuMask) (cpus : list nat)
    (selected : option (CpuId * nat)) : outcome SmpError (option (CpuId * nat)) :=
  match cpus with
  | [] => mret selected
  | raw :: cpus =>
      cpu ← expect (cpu_from_raw raw);
      if negb (mask_contains affinity cpu) then least_loaded_loop s affinity cpus selected
      else
        load ← cpu_load s cpu;
        least_loaded_loop s affinity cpus
          (if match selected with None => true | Some (_, l) => bool_decide (load < l)%nat end
           then Some (cpu, load) else selected)
  end.

Definition least_loaded_cpu (s : SmpRoundRobin) (affinity : CpuMask) : outcome SmpError CpuId :=
  selected ← least_loaded_loop s affinity (seq 0 (length (queues s))) None;
  ok_or (fst <$> selected) EmptyAffinity.

Definition admit_with_transition (thread : ThreadId) (affinity : CpuMask) : Op AdmissionResult :=
  _ ← reads (λ s, validate_affinity s affinity);
  s ← get;
  _ ← lift (err_if (bool_decide (is_Some (assignment_index s thread))) DuplicateThread);
  _ ← lift (err_if (bool_decide (MAX_RUNNABLE_THREADS ≤ length (assignments s))%nat) Capacity);
  cpu ← lift (least_loaded_cpu s affinity);
  switch ← at_queue cpu (λ _, Capacity) (queue_admit thread);
  _ ← modify (λ s, set_assignments (push (assignments s)
        {| a_thread := thread; a_affinity := affinity; a_cpu := cpu; a_state := ARunnable |}) s);
  mret {| ad_placement := {| pl_thread := thread; pl_cpu := cpu; pl_migrated := false |};
          ad_switch := switch |}.

Definition move_runnable_assignment (thread : ThreadId) (source destination : CpuId)
    : Op (bool * option Switch * option Switch) :=
  accept ← reads (λ s, queue_can_accept s destination);
  _ ← lift (err_if (negb accept) Capacity);
  q ← reads (λ s, expect (queues s !! source));
  let source_was_current := bool_decide (current q = Some thread) in
  source_switch ← at_queue source (λ _, QueueStateMismatch) (queue_remove thread);
  destination_switch ← at_queue destination (λ _, QueueStateMismatch) (queue_wake thread);
  mret (source_was_current, source_switch, destination_switch).

Definition no_move (thread : ThreadId) (cpu : CpuId) : MigrationResult :=
  {| mg_placement := {| pl_thread := thread; pl_cpu := cpu; pl_migrated := false |};
     mg_source_was_current := false; mg_source_switch := None; mg_destination_switch := None |}.
Definition moved (thread : ThreadId) (cpu : CpuId) (r : bool * option Switch * option Switch)
    : MigrationResult :=
  {| mg_placement := {| pl_thread := thread; pl_cpu := cpu; pl_migrated := true |};
     mg_source_was_current := r.1.1; mg_source_switch := r.1.2; mg_destination_switch := r.2 |}.

Definition set_affinity_with_transition (thread : ThreadId) (affinity : CpuMask)
    : Op MigrationResult :=
  _ ← reads (λ s, validate_affinity s affinity);
  index ← reads (λ s, ok_or (assignment_index s thread) UnknownThread);
  a ← reads (λ s, expect (assignments s !! index));
  if mask_contains affinity (a_cpu a) then
    _ ← modify (update_assignment index (set_a_affinity affinity));
    mret (no_move thread (a_cpu a))
  else
    destination ← reads (λ s, least_loaded_cpu s affinity);
    r ← (if bool_decide (a_state a = ARunnable)
         then move_runnable_assignment thread (a_cpu a) destination
         else mret (false, None, None));
    _ ← modify (update_assignment index (λ a, set_a_cpu destination (set_a_affinity affinity a)));
    mret (moved thread destination r).

Definition migrate_with_transition (thread : ThreadId) (destination : CpuId)
    : Op MigrationResult :=
  _ ← reads (λ s, err_if (negb (mask_contains (online_mask s) destination)) InvalidCpu);
  index ← reads (λ s, ok_or (assignment_index s thread) UnknownThread);
  a ← reads (λ s, expect (assignments s !! index));
  _ ← lift (err_if (negb (mask_contains (a_affinity a) destination)) AffinityViolation);
  if bool_decide (a_cpu a = destination) then mret (no_move thread destination)
  else
    r ← (if bool_decide (a_state a = ARunnable)
         then move_runnable_assignment thread (a_cpu a) destination
         else mret (false, None, None));
    _ ← modify (update_assignment index (set_a_cpu destination));
    mret (moved thread destination r).

Definition tick (cpu : CpuId) : Op (option Switch) :=
  _ ← reads (λ s, queue s cpu);
  at_queue cpu (λ _, InvalidCpu) (λ q, let '(sw, q') := queue_tick q in (Ok sw, q')).

Definition yield_current (cpu : CpuId) : Op (option Switch) :=
  _ ← reads (λ s, queue s cpu);
  at_queue cpu (λ _, InvalidCpu) (λ q, let '(sw, q') := queue_yield q in (Ok sw, q')).

Definition block (thread : ThreadId) : Op QueueTransition :=
  index ← reads (λ s, ok_or (assignment_index s thread) UnknownThread);
  a ← reads (λ s, expect (assignments s !! index));
  _ ← lift (err_if (negb (bool_decide (a_state a = ARunnable))) NotRunnable);
  switch ← at_queue (a_cpu a) (λ _, QueueStateMismatch) (queue_remove thread);
  _ ← modify (update_assignment index (set_a_state ABlocked));
  mret {| qt_thread := thread; qt_cpu := a_cpu a; qt_switch := switch |}.

Definition wake (thread : ThreadId) : Op WakeResult :=
  index ← reads (λ s, ok_or (assignment_index s thread) UnknownThread);
  a ← reads (λ s, expect (assignments s !! index));
  _ ← lift (err_if (bool_decide (a_state a = ARunnable)) AlreadyRunnable);
  let previous_cpu := a_cpu a in
  let affinity := a_affinity a in
  least_loaded ← reads (λ s, least_loaded_cpu s affinity);
  previous_load ← reads (λ s, cpu_load s previous_cpu);
  least_load ← reads (λ s, cpu_load s least_loaded);
  let destination := if mask_contains affinity previous_cpu &&
                        bool_decide (previous_load ≤ least_load + 1)%nat
                     then previous_cpu else least_loaded in
  accept ← reads (λ s, queue_can_accept s destination);
  _ ← lift (err_if (negb accept) Capacity);
  switch ← at_queue destination
    (λ e, match e with QCapacity => Capacity | _ => QueueStateMismatch end) (queue_wake thread);
  _ ← modify (update_assignment index (λ a, set_a_state ARunnable (set_a_cpu destination a)));
  mret {| wk_placement := {| pl_thread := thread; pl_cpu := destination;
                             pl_migrated := negb (bool_decide (destination = previous_cpu)) |};
          wk_switch := switch |}.

Definition remove (thread : ThreadId) : Op QueueTransition :=
  index ← reads (λ s, ok_or (assignment_index s thread) UnknownThread);
  a ← reads (λ s, expect (assignments s !! index));
  switch ← (if bool_decide (a_state a = ARunnable)
            then at_queue (a_cpu a) (λ _, QueueStateMismatch) (queue_remove thread)
            else mret None);
  _ ← modify (λ s, set_assignments (delete index (assignments s)) s);
  mret {| qt_thread := thread; qt_cpu := a_cpu a; qt_switch := switch |}.

(** [admit], [set_affinity] and [migrate] keep the placement of the transition. *)
Definition admit_ (thread : ThreadId) (affinity : CpuMask) : Op Placement :=
  r ← admit_with_transition thread affinity; mret (ad_placement r).
Definition set_affinity (thread : ThreadId) (affinity : CpuMask) : Op Placement :=
  r ← set_affinity_with_transition thread affinity; mret (mg_placement r).
Definition migrate (thread : ThreadId) (destination : CpuId) : Op Placement :=
  r ← migrate_with_transition thread destination; mret (mg_placement r).

(** *** Rebalancing *)

Definition movable (source destination : CpuId) (a : Assignment) : bool :=
  bool_decide (a_state a = ARunnable) && bool_decide (a_cpu a = source) &&
  mask_contains (a_affinity a) destination.

Definition rebalance_candidate (s : SmpRoundRobin) (source destination : CpuId)
    (source_current : option ThreadId) : option Assignment :=
  match List.find (λ a, negb (bool_decide (Some (a_thread a) = source_current)))
          (List.filter (movable source destination) (assignments s)) with
  | Some a => Some a
  | None => List.find (movable source destination) (assignments s)
  end.

Definition plan_imbalance (p : RebalancePlan) : nat := rp_source_load p - rp_destination_load p.

(** The lexicographic comparison of [(from, to, thread)]. *)
Definition plan_before (p q : RebalancePlan) : bool :=
  bool_decide (rp_from p < rp_from q)%nat ||
  (bool_decide (rp_from p = rp_from q) &&
   (bool_decide (rp_to p < rp_to q)%nat ||
    (bool_decide (rp_to p = rp_to q) && (rp_thread p <? rp_thread q)))).

Definition plan_replaces (best : option RebalancePlan) (p : RebalancePlan) : bool :=
  match best with
  | None => true
  | Some b =>
      bool_decide (plan_imbalance b < plan_imbalance p)%nat ||
      (bool_decide (plan_imbalance p = plan_imbalance b) && plan_before p b)
  end.

Fixpoint rebalance_inner (s : SmpRoundRobin) (eligible : CpuMask) (source : CpuId)
    (source_load : nat) (source_current : option ThreadId) (destinations : list nat)
    (best : option RebalancePlan) : outcome SmpError (option RebalancePlan) :=
  match destinations with
  | [] => mret best
  | raw :: rest =>
      destination ← expect (cpu_from_raw raw);
      if bool_decide (destination = source) || negb (mask_contains eligible destination)
      then rebalance_inner s eligible source source_load source_current rest best
      else
        destination_load ← cpu_load s destination;
        if bool_decide (source_load ≤ destination_load + 1)%nat
        then rebalance_inner s eligible source source_load source_current rest best
        else
          match rebalance_candidate s source destination source_current with
          | None => rebalance_inner s eligible source source_load source_current rest best
          | Some candidate =>
              let plan := {| rp_thread := a_thread candidate; rp_from := source;
                             rp_to := destination; rp_source_load := source_load;
                             rp_destination_load := destination_load |} in
              rebalance_inner s eligible source source_load source_current rest
                (if plan_replaces best plan then Some plan else best)
          end
  end.

Fixpoint rebalance_outer (s : SmpRoundRobin) (eligible : CpuMask) (sources : list nat)
    (best : option RebalancePlan) : outcome SmpError (option RebalancePlan) :=
  match sources with
  | [] => mret best
  | raw :: rest =>
      source ← expect (cpu_from_raw raw);
      if negb (mask_contains eligible source) then rebalance_outer s eligible rest best
      else
        source_load ← cpu_load s source;
        if bool_decide (source_load < 2)%nat then rebalance_outer s eligible rest best
        else
          q ← expect (queues s !! source);
          best ← rebalance_inner s eligible source source_load (current q)
                   (seq 0 (length (queues s))) best;
          rebalance_outer s eligible rest best
  end.

Definition rebalance_plan (s : SmpRoundRobin) (eligible : CpuMask)
    : outcome SmpError (option RebalancePlan) :=
  _ ← validate_affinity s eligible;
  rebalance_outer s eligible (seq 0 (length (queues s))) None.

(** *** Queries *)

Record CpuSnapshot := { cs_cpu : CpuId; cs_current : option ThreadId; cs_runnable_count : nat }.
Record SmpSnapshot := {
  ss_cpu_capacity : nat; ss_cpu_count : nat; ss_assigned_thread_count : nat;
  ss_runnable_thread_count : nat; ss_blocked_thread_count : nat; ss_online_mask : CpuMask;
}.

Definition cpu_snapshot (s : SmpRoundRobin) (cpu : CpuId) : outcome SmpError CpuSnapshot :=
  q ← queue s cpu;
  mret {| cs_cpu := cpu; cs_current := current q; cs_runnable_count := length (runnable q) |}.

(** [u64::count_ones] *)
Definition count_ones (m : Z) : nat :=
  length (filter (λ i, Z.testbit m (Z.of_nat i) = true) (seq 0 64)).

Definition snapshot (s : SmpRoundRobin) : SmpSnapshot :=
  let runnable_count :=
    length (filter (λ a, a_state a = ARunnable) (assignments s)) in
  {| ss_cpu_capacity := length (queues s); ss_cpu_count := count_ones (online_mask s);
     ss_assigned_thread_count := length (assignments s);
     ss_runnable_thread_count := runnable_count;
     ss_blocked_thread_count := length (assignments s) - runnable_count;
     ss_online_mask := online_mask s |}.

Definition assignment_snapshot (s : SmpRoundRobin) (thread : ThreadId)
    : outcome SmpError Assignment :=
  i ← ok_or (assignment_index s thread) UnknownThread; expect (assignments s !! i).

Definition placement (s : SmpRoundRobin) (thread : ThreadId) : outcome SmpError Placement :=
  i ← ok_or (assignment_index s thread) UnknownThread;
  a ← expect (assignments s !! i);
  mret {| pl_thread := thread; pl_cpu := a_cpu a; pl_migrated := false |}.

(** ** One CPU: invariant and effects *)

(** The threads a queue holds, the running one first. *)
Definition members (q : RoundRobin) : list ThreadId := option_list (current q) ++ runnable q.

(** No thread is held twice, the CPU never idles with work queued, and the
    quantum counter stays below the quantum. *)
Record queue_ok (q : RoundRobin) : Prop := {
  qok_nodup : NoDup (members q);
  qok_busy : current q = None → runnable q = [];
  qok_quantum : 1 ≤ quantum_ticks q ≤ u64_max;
  qok_ticks : 0 ≤ ticks_in_quantum q < quantum_ticks q;
}.

Lemma elem_of_members th q : th ∈ members q ↔ current q = Some th ∨ th ∈ runnable q.
Proof. unfold members. rewrite elem_of_app. destruct (current q); cbn; set_solver. Qed.

Lemma queue_contains_spec q th : queue_contains q th = bool_decide (th ∈ members q).
Proof.
  unfold queue_contains. destruct (any _ _) eqn:E.
  - rewrite orb_true_r. symmetry. apply bool_decide_eq_true_2, elem_of_members.
    apply any_true in E as (x & Hx & ?). bool_simpl. subst. by right.
  - rewrite orb_false_r. apply bool_decide_ext. rewrite elem_of_members.
    rewrite any_false in E. split; [by left|]. intros [?|Hr]; [done|].
    specialize (E _ Hr). bool_simpl. done.
Qed.

Lemma length_members q : length (members q) = queue_load q.
Proof. unfold members, queue_load. rewrite length_app. destruct (current q); cbn; lia. Qed.

(** A thread added to a queue runs at once on an idle CPU and waits last otherwise. *)
Definition enqueues (th : ThreadId) (q : RoundRobin) (sw : option Switch) (q' : RoundRobin) :=
  members q' ≡ₚ th :: members q ∧
  match current q with
  | None => current q' = Some th ∧ sw = Some {| sw_from := None; sw_to := th |}
  | Some c => current q' = Some c ∧ runnable q' = runnable q ++ [th] ∧ sw = None
  end.

(** A thread removed while running hands the CPU to the head of the queue. *)
Definition dequeues (th : ThreadId) (q : RoundRobin) (sw : option Switch) (q' : RoundRobin) :=
  members q ≡ₚ th :: members q' ∧
  if decide (current q = Some th) then
    current q' = head (runnable q) ∧ runnable q' = tail (runnable q) ∧
    sw = (λ t, {| sw_from := None; sw_to := t |}) <$> head (runnable q)
  else current q' = current q ∧ sw = None.

(** A rotation sends the running thread to the back and runs the head. *)
Definition rotates (q : RoundRobin) (sw : option Switch) (q' : RoundRobin) :=
  match sw with
  | None => current q' = current q ∧ runnable q' = runnable q
  | Some w => ∃ c next rest, current q = Some c ∧ runnable q = next :: rest ∧
      current q' = Some next ∧ runnable q' = rest ++ [c] ∧
      w = {| sw_from := Some c; sw_to := next |}
  end.

Lemma queue_admit_spec th q :
  queue_ok q → th ∉ members q → (length (runnable q) < MAX_RUNNABLE_THREADS)%nat →
  wp (queue_admit th)
     (λ sw q', queue_ok q' ∧ enqueues th q sw q')
     (λ _ _, False) q.
Proof.
  intros [Hnd Hb Hq Ht] Hth Hlen. unfold queue_admit, enqueues. wp_steps;
    [rewrite queue_contains_spec in *; by bool_simpl | bool_simpl; lia|].
  unfold members in *. destruct (current q) as [c|] eqn:Hc; wp_steps.
  - cbn in *. rewrite Hc. split_and!; [| |done..].
    + constructor; cbn; unfold members; cbn; rewrite ?Hc; [|done..].
      change (NoDup ((c :: runnable q) ++ [th])). rewrite Permutation_app_comm. cbn.
      constructor; set_solver.
    + cbn. unfold push. solve_Permutation.
  - specialize (Hb eq_refl). cbn in *. split_and!; [|by rewrite Hb|done..].
    constructor; cbn; unfold members; cbn; rewrite ?Hb in *; try done. apply NoDup_singleton.
Qed.

Lemma queue_wake_spec th q :
  queue_ok q → th ∉ members q → (length (runnable q) < MAX_RUNNABLE_THREADS)%nat →
  wp (queue_wake th)
     (λ sw q', queue_ok q' ∧ enqueues th q sw q')
     (λ _ _, False) q.
Proof. exact (queue_admit_spec th q). Qed.

Lemma position_delete th (l : list ThreadId) i :
  position (λ c, c =? th) l = Some i → l ≡ₚ th :: delete i l.
Proof.
  intros (x & Hx & Heq & _)%position_Some. bool_simpl. subst.
  by apply delete_Permutation.
Qed.

Lemma queue_remove_spec th q :
  queue_ok q → th ∈ members q →
  wp (queue_remove th)
     (λ sw q', queue_ok q' ∧ dequeues th q sw q')
     (λ _ _, False) q.
Proof.
  intros [Hnd Hb Hq Ht] Hth. unfold wp, queue_remove, dequeues.
  destruct (decide (current q = Some th)) as [Hc|Hc].
  - rewrite bool_decide_eq_true_2 by done. unfold dispatch_next, members in *. cbn.
    rewrite Hc in *. cbn in *. apply NoDup_cons in Hnd as [Hni Hnd].
    destruct (runnable q) as [|n rest] eqn:Hr; cbn; split_and!; try done;
      constructor; cbn; unfold members; cbn; rewrite ?Hr; try done; try lia; by apply NoDup_nil_2.
  - rewrite bool_decide_eq_false_2 by done.
    destruct (position _ _) as [i|] eqn:Hp.
    + pose proof (position_delete _ _ _ Hp) as Hperm. cbn.
      assert (members q ≡ₚ th :: members (set_queue (current q) (delete i (runnable q)) q)) as Hm.
      { unfold members. cbn. rewrite Hperm at 1. solve_Permutation. }
      split_and!; [|done..]. constructor; cbn; try done.
      * rewrite Hm in Hnd. by apply NoDup_cons in Hnd as [_ ?].
      * intros Hn. rewrite (Hb Hn). by destruct i.
    + exfalso. apply elem_of_members in Hth as [Hth|Hth]; [done|].
      pose proof (position_None _ _ Hp _ Hth) as Hx. cbn in Hx. by bool_simpl.
Qed.

Lemma rotate_current_spec q :
  queue_ok q →
  let '(sw, q') := rotate_current q in
  queue_ok q' ∧ rotates q sw q' ∧ members q' ≡ₚ members q ∧
  quantum_ticks q' = quantum_ticks q ∧ ticks_in_quantum q' = ticks_in_quantum q.
Proof.
  intros Hok. pose proof Hok as [Hnd Hb Hq Ht]. unfold rotate_current, rotates.
  destruct (current q) as [c|] eqn:Hc; [|done]. destruct (runnable q) as [|n rest] eqn:Hr; [done|].
  assert (members q = c :: n :: rest) as Hm by (unfold members; by rewrite Hc, Hr).
  cbn. split_and!; [|naive_solver| |done..].
  - constructor; cbn; try done. unfold members, push; cbn. rewrite Hm in Hnd.
    change (NoDup ((n :: rest) ++ [c])). by rewrite Permutation_app_comm.
  - rewrite Hm. unfold members, push; cbn. change ((n :: rest) ++ [c] ≡ₚ c :: n :: rest).
    by rewrite Permutation_app_comm.
Qed.

Lemma set_ticks_ok n q : queue_ok q → 0 ≤ n < quantum_ticks q → queue_ok (set_ticks n q).
Proof. intros [Hnd Hb Hq Ht] Hn. by constructor. Qed.

Lemma queue_tick_spec q :
  queue_ok q →
  let '(sw, q') := queue_tick q in
  queue_ok q' ∧ rotates q sw q' ∧ members q' ≡ₚ members q.
Proof.
  intros Hok. pose proof Hok as [Hnd Hb Hq Ht]. unfold queue_tick.
  destruct (current q) as [c|] eqn:Hc.
  2:{ unfold dispatch_next. by rewrite (Hb eq_refl). }
  unfold saturating_add. rewrite Z.min_r by lia. cbn [ticks_in_quantum quantum_ticks set_ticks].
  destruct (_ <? _) eqn:Hlt; bool_simpl.
  - split_and!; [apply set_ticks_ok; [done|lia]|done..].
  - change (set_ticks 0 (set_ticks (ticks_in_quantum q + 1) q)) with (set_ticks 0 q).
    pose proof (rotate_current_spec (set_ticks 0 q)) as Hrot.
    destruct (rotate_current (set_ticks 0 q)) as [[w|] q'];
      (destruct Hrot as ([? ? ? ?] & ? & ? & ? & ?); [apply set_ticks_ok; [done|lia]|]);
      (split_and!; [by constructor|done..]).
Qed.

Lemma queue_yield_spec q :
  queue_ok q →
  let '(sw, q') := queue_yield q in
  queue_ok q' ∧ rotates q sw q' ∧ members q' ≡ₚ members q.
Proof.
  intros Hok. pose proof Hok as [Hnd Hb Hq Ht]. unfold queue_yield.
  pose proof (rotate_current_spec (set_ticks 0 q)) as Hrot.
  destruct (rotate_current (set_ticks 0 q)) as [[w|] q'];
    (destruct Hrot as ([? ? ? ?] & ? & ? & ? & ?); [apply set_ticks_ok; [done|lia]|]);
    (split_and!; [by constructor|done..]).
Qed.

(** ** CPU sets *)

Definition mask_sub (a b : CpuMask) : Prop := ∀ c, mask_contains a c = true → mask_contains b c = true.

Lemma mask_contains_testbit m c : mask_contains m c = Z.testbit m (Z.of_nat c).
Proof.
  unfold mask_contains. rewrite Z.shiftl_1_l. destruct (Z.testbit m (Z.of_nat c)) eqn:E.
  - apply negb_true_iff, Z.eqb_neq. intros H0. apply (f_equal (λ z, Z.testbit z (Z.of_nat c))) in H0.
    rewrite Z.land_spec, E, Z.pow2_bits_true, Z.bits_0 in H0 by lia. done.
  - apply negb_false_iff, Z.eqb_eq. apply Z.bits_inj_0. intros n. rewrite Z.land_spec.
    destruct (decide (n = Z.of_nat c)) as [->|Hn]; [by rewrite E|].
    rewrite Z.pow2_bits_false by lia. apply andb_false_r.
Qed.

Lemma land_not64_sub a b : is_u64 a → Z.land a (not64 b) = 0 → mask_sub a b.
Proof.
  intros Ha H0 c. rewrite !mask_contains_testbit. intros Hc.
  pose proof (testbit_andnot a b (Z.of_nat c) Ha) as Hb. rewrite H0, Z.bits_0, Hc in Hb.
  by destruct (Z.testbit b _).
Qed.

Lemma mask_nonempty m : is_u64 m → m ≠ 0 → ∃ c, mask_contains m c = true.
Proof.
  intros [H0 _] Hm. exists (Z.to_nat (Z.log2 m)). rewrite mask_contains_testbit.
  rewrite Z2Nat.id by apply Z.log2_nonneg. apply Z.bit_log2. lia.
Qed.

Lemma mask_union_single m cpu c :
  mask_contains (mask_union m (mask_single cpu)) c = mask_contains m c || bool_decide (c = cpu).
Proof.
  rewrite !mask_contains_testbit. unfold mask_union, mask_single.
  rewrite Z.lor_spec, Z.shiftl_1_l. f_equal. destruct (decide (c = cpu)) as [->|Hne].
  - by rewrite Z.pow2_bits_true, bool_decide_eq_true_2 by lia.
  - by rewrite Z.pow2_bits_false, bool_decide_eq_false_2 by lia.
Qed.

Lemma mask_union_u64 m cpu : is_u64 m → (cpu < MAX_CPUS)%nat → is_u64 (mask_union m (mask_single cpu)).
Proof.
  unfold MAX_CPUS. intros [Hm Hhi]%is_u64_bits Hcpu. unfold mask_union, mask_single.
  apply is_u64_bits. split.
  - apply Z.lor_nonneg. split; [done|]. apply Z.shiftl_nonneg. lia.
  - intros i Hi. rewrite Z.lor_spec, Z.shiftl_1_l, Hhi, Z.pow2_bits_false by lia. done.
Qed.

Lemma mask_first_contains_iff n m c :
  mask_first n = Some m → mask_contains m c = bool_decide (c < n)%nat.
Proof.
  unfold mask_first, MAX_CPUS. destruct (_ || _) eqn:E; [done|]. bool_simpl. intros [= <-].
  assert ((if bool_decide (n = 64%nat) then u64_max else Z.shiftl 1 (Z.of_nat n) - 1)
          = Z.ones (Z.of_nat n)) as ->.
  { case_bool_decide; [by subst|]. rewrite Z.ones_equiv, Z.shiftl_1_l. lia. }
  rewrite mask_contains_testbit. case_bool_decide.
  - apply Z.ones_spec_low. lia.
  - apply Z.ones_spec_high. lia.
Qed.

(** ** All CPUs: views and invariant *)

Definition assignment (s : SmpRoundRobin) (th : ThreadId) : option Assignment :=
  List.find (λ a, a_thread a =? th) (assignments s).

(** The CPU whose queue holds a runnable thread. *)
Definition a_place (a : Assignment) : option CpuId :=
  if decide (a_state a = ARunnable) then Some (a_cpu a) else None.
Definition placed (s : SmpRoundRobin) (th : ThreadId) : option CpuId :=
  assignment s th ≫= a_place.

Definition running (s : SmpRoundRobin) (c : CpuId) : option ThreadId := queues s !! c ≫= current.

Definition load (s : SmpRoundRobin) (c : CpuId) : nat :=
  default 0%nat (queue_load <$> queues s !! c).

(** The queues hold exactly the threads [place] puts on their CPU. *)
Definition agrees (qs : list RoundRobin) (place : ThreadId → option CpuId) : Prop :=
  ∀ c q, qs !! c = Some q → queue_ok q ∧ ∀ th, th ∈ members q ↔ place th = Some c.

Record inv (s : SmpRoundRobin) : Prop := {
  inv_cpus : (1 ≤ length (queues s) ≤ MAX_CPUS)%nat;
  inv_mask : is_u64 (online_mask s);
  inv_online : ∀ c, mask_contains (online_mask s) c = true → (c < length (queues s))%nat;
  inv_threads : NoDup (a_thread <$> assignments s);
  inv_bound : (length (assignments s) ≤ MAX_RUNNABLE_THREADS)%nat;
  inv_affinity : ∀ th a, assignment s th = Some a →
    mask_sub (a_affinity a) (online_mask s) ∧ mask_contains (a_affinity a) (a_cpu a) = true;
  inv_agrees : agrees (queues s) (placed s);
}.

Lemma agrees_ext qs p p' : (∀ th, p th = p' th) → agrees qs p → agrees qs p'.
Proof. intros Hp Ha c q Hq. destruct (Ha c q Hq) as [? Hm]. split; [done|]. intros th. by rewrite Hm, Hp. Qed.

(** *** Assignments by thread *)

Lemma find_assignment l th a :
  NoDup (a_thread <$> l) →
  List.find (λ a, a_thread a =? th) l = Some a ↔ a ∈ l ∧ a_thread a = th.
Proof.
  intros Hnd. split.
  - intros [Hin Heq]%List.find_some. bool_simpl. split; [|done]. by apply list_elem_of_In.
  - intros [Hin <-]. destruct (List.find _ l) as [b|] eqn:E.
    + apply List.find_some in E as [Hb Heq]. bool_simpl. f_equal.
      eapply (NoDup_key_inj a_thread l); [done|by apply list_elem_of_In|done|done].
    + pose proof (List.find_none _ _ E a) as Hn. rewrite <- list_elem_of_In in Hn.
      specialize (Hn Hin). cbn in Hn. by bool_simpl.
Qed.

Lemma find_option_ext (o o' : option Assignment) : (∀ a, o = Some a ↔ o' = Some a) → o = o'.
Proof. destruct o, o'; naive_solver. Qed.

Lemma find_assignment_perm l l' th :
  NoDup (a_thread <$> l) → l ≡ₚ l' →
  List.find (λ a, a_thread a =? th) l = List.find (λ a, a_thread a =? th) l'.
Proof.
  intros Hnd Hp. apply find_option_ext. intros a.
  rewrite !find_assignment, Hp by (rewrite <- ?Hp; done). done.
Qed.

Lemma assignment_index_Some s th i :
  assignment_index s th = Some i → ∃ a, assignments s !! i = Some a ∧ a_thread a = th.
Proof. intros (a & Ha & Heq & _)%position_Some. bool_simpl. eauto. Qed.

Lemma assignment_index_None s th : assignment_index s th = None ↔ assignment s th = None.
Proof.
  unfold assignment_index, assignment. split.
  - intros Hp. destruct (List.find _ _) as [a|] eqn:E; [|done].
    apply List.find_some in E as [Hin Heq]. rewrite <- list_elem_of_In in Hin.
    pose proof (position_None _ _ Hp a Hin). cbn in *. congruence.
  - intros Hn. destruct (position _ _) as [i|] eqn:E; [|done].
    apply position_Some in E as (a & Ha & Heq & _). apply list_elem_of_lookup_2 in Ha.
    apply list_elem_of_In in Ha. pose proof (List.find_none _ _ Hn a Ha). cbn in *. congruence.
Qed.

Lemma assignment_at s i a :
  NoDup (a_thread <$> assignments s) → assignments s !! i = Some a → assignment s (a_thread a) = Some a.
Proof.
  intros Hnd Ha. apply find_assignment; [done|].
  split; [by eapply list_elem_of_lookup_2|done].
Qed.

Lemma threads_alter f (i : nat) (l : list Assignment) :
  (∀ a, a_thread (f a) = a_thread a) → a_thread <$> alter f i l = a_thread <$> l.
Proof. intros Hf. revert i. induction l as [|b l IH]; intros [|i]; cbn; f_equal; eauto. Qed.

(** The three edits of the table, seen through [assignment]. *)
Lemma assignment_alter s i a f th :
  NoDup (a_thread <$> assignments s) → assignments s !! i = Some a → (∀ a, a_thread (f a) = a_thread a) →
  assignment (update_assignment i f s) th = <[a_thread a := Some (f a)]> (assignment s) th.
Proof.
  intros Hnd Ha Hf. unfold assignment. cbn.
  pose proof (threads_alter f i (assignments s) Hf) as Hth.
  apply list_elem_of_split_length in Ha as (l1 & l2 & Hl & ->). rewrite Hl in *.
  rewrite alter_app_r_alt, Nat.sub_diag in * by lia. cbn [alter list_alter] in *.
  rewrite (find_assignment_perm _ (f a :: l1 ++ l2)); [|by rewrite Hth|solve_Permutation].
  cbn. rewrite Hf. destruct (_ =? _) eqn:E; bool_simpl.
  - subst. by rewrite fn_lookup_insert.
  - rewrite fn_lookup_insert_ne by done.
    rewrite (find_assignment_perm (l1 ++ a :: l2) (a :: l1 ++ l2)); [|done|solve_Permutation].
    cbn. by rewrite (proj2 (Z.eqb_neq _ _) E).
Qed.

Lemma assignment_push s a th :
  NoDup (a_thread <$> assignments s) → assignment s (a_thread a) = None →
  assignment (set_assignments (push (assignments s) a) s) th
  = <[a_thread a := Some a]> (assignment s) th.
Proof.
  intros Hnd Hn. unfold assignment. cbn. unfold push.
  rewrite (find_assignment_perm _ (a :: assignments s)).
  - cbn. destruct (_ =? _) eqn:E; bool_simpl; [subst; by rewrite fn_lookup_insert|].
    by rewrite fn_lookup_insert_ne by done.
  - rewrite (Permutation_app_comm (assignments s)). cbn. constructor; [|done].
    intros (b & Heq & Hb)%list_elem_of_fmap.
    pose proof (List.find_none _ _ Hn b) as Hne. rewrite <- list_elem_of_In in Hne.
    specialize (Hne Hb). cbn in Hne. bool_simpl. done.
  - by rewrite Permutation_app_comm.
Qed.

Lemma assignment_delete s i a th :
  NoDup (a_thread <$> assignments s) → assignments s !! i = Some a →
  assignment (set_assignments (delete i (assignments s)) s) th
  = <[a_thread a := None]> (assignment s) th.
Proof.
  intros Hnd Ha. unfold assignment. cbn.
  pose proof (delete_Permutation _ _ _ Ha) as Hp.
  pose proof (find_assignment_perm _ _ th Hnd Hp) as Heqf. rewrite Hp in Hnd.
  rewrite fmap_cons in Hnd. cbn [List.find] in Heqf.
  apply NoDup_cons in Hnd as [Hni Hnd]. destruct (_ =? _) eqn:E; bool_simpl.
  - clear Heqf. subst. rewrite fn_lookup_insert. destruct (List.find _ _) as [b|] eqn:Eb; [|done].
    apply find_assignment in Eb as [Hb Heq]; [|done]. destruct Hni. rewrite <- Heq.
    by apply list_elem_of_fmap_2.
  - rewrite fn_lookup_insert_ne by done. symmetry. exact Heqf.
Qed.

(** *** Queue steps *)

Lemma wp_at_queue {A} c f (m : M RoundRobin Error A) q Q R s :
  queues s !! c = Some q →
  wp m (λ a q', Q a (set_queues (<[c := q']> (queues s)) s))
       (λ e q', R (f e) (set_queues (<[c := q']> (queues s)) s)) q →
  wp (at_queue c f m) Q R s.
Proof. intros Hq. unfold wp, at_queue. rewrite Hq. by destruct (m q) as [[]]. Qed.

(** The queue of one CPU goes through [P]; the others are untouched. *)
Definition queue_step (c : CpuId) (P : RoundRobin → RoundRobin → Prop)
    (qs qs' : list RoundRobin) : Prop :=
  ∃ q q', qs !! c = Some q ∧ P q q' ∧ qs' = <[c := q']> qs.

Lemma queue_step_length c P qs qs' : queue_step c P qs qs' → length qs' = length qs.
Proof. intros (? & ? & _ & _ & ->). apply length_insert. Qed.

Lemma queue_step_lookup_ne c P qs qs' d : queue_step c P qs qs' → d ≠ c → qs' !! d = qs !! d.
Proof. intros (? & ? & _ & _ & ->) Hd. by apply list_lookup_insert_ne. Qed.

Lemma queue_step_lookup c P qs qs' :
  queue_step c P qs qs' → ∃ q q', qs !! c = Some q ∧ qs' !! c = Some q' ∧ P q q'.
Proof.
  intros (q & q' & Hq & HP & ->). exists q, q'. split_and!; [done| |done].
  apply list_lookup_insert_eq. by eapply lookup_lt_Some.
Qed.

Lemma agrees_insert qs place place' c q' :
  agrees qs place → queue_ok q' → (c < length qs)%nat →
  (∀ th, th ∈ members q' ↔ place' th = Some c) →
  (∀ th d, d ≠ c → place' th = Some d ↔ place th = Some d) →
  agrees (<[c := q']> qs) place'.
Proof.
  intros Ha Hok Hc Hm Ho d q. destruct (decide (d = c)) as [->|Hd].
  - rewrite list_lookup_insert_eq by done. intros [= <-]. done.
  - rewrite list_lookup_insert_ne by done. intros Hq. destruct (Ha d q Hq) as [? Hmq].
    split; [done|]. intros th. by rewrite Hmq, Ho.
Qed.

Lemma agrees_enqueue qs place c q q' th :
  agrees qs place → qs !! c = Some q → queue_ok q' → members q' ≡ₚ th :: members q →
  place th = None → agrees (<[c := q']> qs) (<[th := Some c]> place).
Proof.
  intros Ha Hq Hok Hm Hp. pose proof (lookup_lt_Some _ _ _ Hq). destruct (Ha c q Hq) as [_ Hmq].
  eapply agrees_insert; [done..| |].
  - intros t. rewrite Hm, elem_of_cons, Hmq. destruct (decide (t = th)) as [->|Ht].
    + rewrite fn_lookup_insert. naive_solver.
    + rewrite fn_lookup_insert_ne by done. naive_solver.
  - intros t d Hd. destruct (decide (t = th)) as [->|Ht].
    + rewrite fn_lookup_insert. naive_solver.
    + by rewrite fn_lookup_insert_ne by done.
Qed.

Lemma agrees_dequeue qs place c q q' th :
  agrees qs place → qs !! c = Some q → queue_ok q' → members q ≡ₚ th :: members q' →
  agrees (<[c := q']> qs) (<[th := None]> place).
Proof.
  intros Ha Hq Hok Hm. pose proof (lookup_lt_Some _ _ _ Hq). destruct (Ha c q Hq) as [Hokq Hmq].
  pose proof (qok_nodup q Hokq) as Hnd. rewrite Hm in Hnd. apply NoDup_cons in Hnd as [Hni _].
  assert (place th = Some c) as Hpl by (apply Hmq; rewrite Hm; by left).
  eapply agrees_insert; [done..| |].
  - intros t. destruct (decide (t = th)) as [->|Ht].
    + rewrite fn_lookup_insert. naive_solver.
    + rewrite fn_lookup_insert_ne, <- Hmq, Hm, elem_of_cons by done. naive_solver.
  - intros t d Hd. destruct (decide (t = th)) as [->|Ht].
    + rewrite fn_lookup_insert. naive_solver.
    + by rewrite fn_lookup_insert_ne by done.
Qed.

(** [queues[c].remove(th)] for a thread placed on [c]. *)
Lemma at_queue_remove f c th place s :
  agrees (queues s) place → place th = Some c → (c < length (queues s))%nat →
  wp (at_queue c f (queue_remove th))
     (λ sw s', s' = set_queues (queues s') s ∧
        queue_step c (λ q q', dequeues th q sw q') (queues s) (queues s') ∧
        agrees (queues s') (<[th := None]> place))
     (λ _ _, False) s.
Proof.
  intros Ha Hp [q Hq]%lookup_lt_is_Some. eapply wp_at_queue; [done|].
  destruct (Ha c q Hq) as [Hok Hm]. eapply wp_mono; [apply queue_remove_spec; [done|by apply Hm]|..].
  - intros sw q' (Hok' & Hd). cbn. split_and!; [done|by exists q, q'|].
    eapply agrees_dequeue; [done..|apply Hd].
  - done.
Qed.

(** [queues[c].admit(th)] and [wake(th)] for a thread placed nowhere. *)
Lemma at_queue_enqueue f c th place q s m :
  (m = queue_admit ∨ m = queue_wake) →
  agrees (queues s) place → place th = None → queues s !! c = Some q →
  (length (runnable q) < MAX_RUNNABLE_THREADS)%nat →
  wp (at_queue c f (m th))
     (λ sw s', s' = set_queues (queues s') s ∧
        queue_step c (λ q q', enqueues th q sw q') (queues s) (queues s') ∧
        agrees (queues s') (<[th := Some c]> place))
     (λ _ _, False) s.
Proof.
  intros Hmm Ha Hp Hq Hr. eapply wp_at_queue; [done|]. destruct (Ha c q Hq) as [Hok Hm].
  assert (th ∉ members q) as Hni by (rewrite Hm; naive_solver).
  eapply wp_mono; [destruct Hmm as [-> | ->]; [by apply queue_admit_spec|by apply queue_wake_spec]|..].
  - intros sw q' (Hok' & Hd). cbn. split_and!; [done|by exists q, q'|].
    eapply agrees_enqueue; [done..|apply Hd|done].
  - done.
Qed.

(** *** Loads and placement *)

Lemma online_queue s c :
  inv s → mask_contains (online_mask s) c = true → is_Some (queues s !! c).
Proof. intros Hi Hc. apply lookup_lt_is_Some. by apply (inv_online s Hi). Qed.

Lemma queue_spec s c :
  inv s → mask_contains (online_mask s) c = true →
  ∃ q, queues s !! c = Some q ∧ queue s c = Ok q.
Proof.
  intros Hi Hc. destruct (online_queue s c Hi Hc) as [q Hq]. exists q. split; [done|].
  unfold queue. by rewrite Hc, Hq.
Qed.

Lemma cpu_load_spec s c :
  inv s → mask_contains (online_mask s) c = true → cpu_load s c = Ok (load s c).
Proof.
  intros Hi Hc. destruct (queue_spec s c Hi Hc) as (q & Hq & Heq).
  unfold cpu_load, load. by rewrite Heq, Hq.
Qed.

Lemma cpu_from_raw_queue s c : inv s → (c < length (queues s))%nat → cpu_from_raw c = Some c.
Proof.
  intros Hi Hc. unfold cpu_from_raw. rewrite bool_decide_eq_true_2; [done|].
  pose proof (inv_cpus s Hi). lia.
Qed.

(** The queue of a CPU has room for a thread that is not in it. *)
Lemma queue_room s c q th :
  inv s → queues s !! c = Some q → placed s th ≠ Some c →
  is_Some (assignment s th) ∨ (length (assignments s) < MAX_RUNNABLE_THREADS)%nat →
  (length (members q) < MAX_RUNNABLE_THREADS)%nat.
Proof.
  intros Hi Hq Hp Hr. destruct (inv_agrees s Hi c q Hq) as [Hok Hm].
  pose proof (qok_nodup q Hok) as Hnd. pose proof (inv_bound s Hi) as Hb.
  pose proof (inv_threads s Hi) as Hth.
  assert (∀ t a, assignment s t = Some a → t ∈ a_thread <$> assignments s) as Hin.
  { intros t a [Ha <-]%find_assignment; [|done]. by apply list_elem_of_fmap_2. }
  assert (members q ⊆ a_thread <$> assignments s) as Hsub.
  { intros t Ht%Hm. unfold placed in Ht. destruct (assignment s t) as [a|] eqn:E; [|done].
    by eapply Hin. }
  rewrite <- (length_fmap a_thread) in Hb. destruct Hr as [[a Ha]|Hlt].
  - assert (NoDup (th :: members q)) as Hnd' by (constructor; [by rewrite Hm|done]).
    eapply (NoDup_submseteq _ (a_thread <$> assignments s)) in Hnd'.
    + apply submseteq_length in Hnd'. cbn in Hnd'. lia.
    + intros t [->|Ht]%elem_of_cons; [by eapply Hin|by apply Hsub].
  - eapply (NoDup_submseteq _ (a_thread <$> assignments s)) in Hnd; [|done].
    apply submseteq_length in Hnd. rewrite length_fmap in Hnd. lia.
Qed.

Lemma length_runnable q : (length (runnable q) ≤ length (members q))%nat.
Proof. unfold members. rewrite length_app. lia. Qed.

Lemma queue_can_accept_spec s c q :
  inv s → mask_contains (online_mask s) c = true → queues s !! c = Some q →
  (length (members q) < MAX_RUNNABLE_THREADS)%nat → queue_can_accept s c = Ok true.
Proof.
  intros Hi Hc Hq Hl. pose proof (length_runnable q). unfold queue_can_accept, queue.
  rewrite Hc, Hq. cbn. rewrite (bool_decide_eq_true_2 (_ < _)%nat) by lia. by rewrite orb_true_r.
Qed.

(** [least_loaded_cpu] picks the first CPU of least load in the affinity set. *)
Definition least_loaded (s : SmpRoundRobin) (m : CpuMask) (bound : nat) (c : CpuId) : Prop :=
  (c < bound)%nat ∧ mask_contains m c = true ∧
  ∀ d, (d < bound)%nat → mask_contains m d = true →
    (load s c ≤ load s d)%nat ∧ (d < c → load s c < load s d)%nat.

Lemma least_loaded_loop_spec s m n k selected :
  inv s → mask_sub m (online_mask s) → (n + k ≤ length (queues s))%nat →
  (match selected with
   | None => ∀ d, (d < n)%nat → mask_contains m d = false
   | Some (c, l) => l = load s c ∧ least_loaded s m n c
   end) →
  ∃ r, least_loaded_loop s m (seq n k) selected = Ok r ∧
    match r with
    | None => ∀ d, (d < n + k)%nat → mask_contains m d = false
    | Some (c, l) => l = load s c ∧ least_loaded s m (n + k) c
    end.
Proof.
  intros Hi Hm. revert n selected. induction k as [|k IH]; intros n selected Hn Hsel; cbn.
  { exists selected. by rewrite Nat.add_0_r. }
  rewrite (cpu_from_raw_queue s) by (done || lia). cbn. rewrite Nat.add_succ_r, <- Nat.add_succ_l.
  destruct (mask_contains m n) eqn:Hc; cbn.
  - rewrite (cpu_load_spec s) by auto. cbn. apply IH; [lia|].
    destruct selected as [[c l]|].
    + destruct Hsel as (-> & Hlt & Hcm & Hmin). case_bool_decide as Hl; (split; [done|]).
      * split_and!; [lia|done|]. intros d Hd Hdm. destruct (decide (d = n)) as [->|]; [lia|].
        destruct (Hmin d) as [? ?]; [lia|done|]. lia.
      * split_and!; [lia|done|]. intros d Hd Hdm. destruct (decide (d = n)) as [->|]; [lia|].
        apply Hmin; [lia|done].
    + split; [done|]. split_and!; [lia|done|]. intros d Hd Hdm.
      destruct (decide (d = n)) as [->|]; [lia|]. rewrite Hsel in Hdm by lia. done.
  - apply IH; [lia|]. destruct selected as [[c l]|].
    + destruct Hsel as (-> & Hlt & Hcm & Hmin). split; [done|]. split_and!; [lia|done|].
      intros d Hd Hdm. apply Hmin; [|done]. destruct (decide (d = n)) as [->|]; [congruence|lia].
    + intros d Hd. destruct (decide (d = n)) as [->|]; [done|]. apply Hsel. lia.
Qed.

Lemma least_loaded_cpu_spec s m c0 :
  inv s → mask_sub m (online_mask s) → mask_contains m c0 = true →
  ∃ c, least_loaded_cpu s m = Ok c ∧ least_loaded s m (length (queues s)) c.
Proof.
  intros Hi Hm Hc0. unfold least_loaded_cpu.
  destruct (least_loaded_loop_spec s m 0 (length (queues s)) None) as (r & Hr & Hspec);
    [done|done|lia|intros; lia|]. rewrite Hr. destruct r as [[c l]|]; cbn.
  - exists c. split; [done|]. apply Hspec.
  - rewrite Hspec in Hc0; [done|]. apply (inv_online s Hi). auto.
Qed.

Lemma validate_affinity_spec s m :
  inv s → is_u64 m →
  wpo (validate_affinity s m) (λ _, mask_sub m (online_mask s) ∧ ∃ c, mask_contains m c = true)
    (λ e, e = EmptyAffinity ∧ m = 0 ∨
          e = AffinityOutsideTopology ∧ ¬ mask_sub m (online_mask s)).
Proof.
  intros Hi Hm. unfold validate_affinity, mask_is_empty. wp_steps; bool_simpl.
  - by left.
  - right. split; [done|]. intros Hsub. destruct H0. apply Z.bits_inj_0. intros i.
    rewrite testbit_andnot by done. destruct (Z.testbit m i) eqn:E; [|done].
    apply is_u64_bits in Hm as [Hm0 _].
    destruct (decide (0 ≤ i)); [|by rewrite Z.testbit_neg_r in E by lia].
    specialize (Hsub (Z.to_nat i)). rewrite !mask_contains_testbit, Z2Nat.id in Hsub by lia.
    by rewrite Hsub.
  - split; [by apply land_not64_sub|]. by apply mask_nonempty.
Qed.

(** *** Operations *)

Lemma placed_Some s th a : assignment s th = Some a → placed s th = a_place a.
Proof. unfold placed. by intros ->. Qed.

Lemma place_runnable a : a_state a = ARunnable → a_place a = Some (a_cpu a).
Proof. intros H. unfold a_place. by rewrite decide_True. Qed.
Lemma place_blocked a : a_state a ≠ ARunnable → a_place a = None.
Proof. intros H. unfold a_place. by rewrite decide_False. Qed.

Lemma wp_assignment {A} th (k : nat → Assignment → Op A) Q R s :
  inv s →
  (∀ i a, assignments s !! i = Some a → a_thread a = th → assignment s th = Some a →
     wp (k i a) Q R s) →
  (assignment s th = None → R UnknownThread s) →
  wp (index ← reads (λ s, ok_or (assignment_index s th) UnknownThread);
      a ← reads (λ s, expect (assignments s !! index)); k index a) Q R s.
Proof.
  intros Hi Hk Hn. wp_steps.
  - destruct (assignment_index_Some s th _ H) as (a' & Ha & Heq). eapply wpo_expect; [exact Ha|].
    apply Hk; [done..|]. rewrite <- Heq. eapply assignment_at; [apply (inv_threads s Hi)|done].
  - apply Hn. by apply assignment_index_None.
Qed.

(** The invariant after an edit of one assignment. *)
Lemma inv_alter s s1 i a f :
  inv s → assignments s1 = assignments s → online_mask s1 = online_mask s →
  length (queues s1) = length (queues s) →
  assignments s !! i = Some a → (∀ a, a_thread (f a) = a_thread a) →
  mask_sub (a_affinity (f a)) (online_mask s) →
  mask_contains (a_affinity (f a)) (a_cpu (f a)) = true →
  agrees (queues s1) (<[a_thread a := a_place (f a)]> (placed s)) →
  inv (update_assignment i f s1) ∧
  ∀ t, assignment (update_assignment i f s1) t = <[a_thread a := Some (f a)]> (assignment s) t.
Proof.
  intros Hi Ha1 Ho Hl Ha Hf Hsub Hcpu Hag.
  assert (∀ t, assignment (update_assignment i f s1) t
               = <[a_thread a := Some (f a)]> (assignment s) t) as Hall.
  { intros t. rewrite (assignment_alter s1 i a f t); [|rewrite Ha1; by apply inv_threads|by rewrite Ha1|done].
    destruct (decide (a_thread a = t)) as [->|Ht]; [by rewrite !fn_lookup_insert|].
    rewrite !fn_lookup_insert_ne by done. unfold assignment. by rewrite Ha1. }
  split; [|done]. constructor; cbn [queues online_mask update_assignment set_assignments].
  - rewrite Hl. apply (inv_cpus s Hi).
  - rewrite Ho. apply (inv_mask s Hi).
  - rewrite Ho, Hl. apply (inv_online s Hi).
  - cbn. rewrite threads_alter, Ha1 by done. apply (inv_threads s Hi).
  - cbn. rewrite length_alter, Ha1. apply (inv_bound s Hi).
  - rewrite Ho. intros t b. rewrite Hall. destruct (decide (a_thread a = t)) as [->|Ht].
    + rewrite fn_lookup_insert. by intros [= <-].
    + rewrite fn_lookup_insert_ne by done. apply (inv_affinity s Hi).
  - eapply agrees_ext; [|exact Hag]. intros t. unfold placed at 2. rewrite Hall.
    destruct (decide (a_thread a = t)) as [->|Ht]; [by rewrite !fn_lookup_insert|].
    by rewrite !fn_lookup_insert_ne by done.
Qed.

Lemma placed_online s th c : inv s → placed s th = Some c → (c < length (queues s))%nat.
Proof.
  intros Hi Hp. unfold placed in Hp. destruct (assignment s th) as [a|] eqn:Ha; [|done].
  destruct (inv_affinity s Hi th a Ha) as [Hsub Hc]. cbn in Hp. unfold a_place in Hp.
  case_decide; [|done]. injection Hp as <-. apply (inv_online s Hi). auto.
Qed.

Lemma block_spec th s :
  inv s →
  wp (block th)
    (λ r s', inv s' ∧ ∃ a, assignment s th = Some a ∧ a_state a = ARunnable ∧
       qt_thread r = th ∧ qt_cpu r = a_cpu a ∧
       (∀ t, assignment s' t = <[th := Some (set_a_state ABlocked a)]> (assignment s) t) ∧
       queue_step (a_cpu a) (λ q q', dequeues th q (qt_switch r) q') (queues s) (queues s') ∧
       online_mask s' = online_mask s)
    (λ e s', s' = s ∧ (e = UnknownThread ∧ assignment s th = None ∨
       e = NotRunnable ∧ ∃ a, assignment s th = Some a ∧ a_state a = ABlocked)) s.
Proof.
  intros Hi. unfold block. apply wp_assignment; [done| |naive_solver].
  intros i a Ha Heq Hth. wp_steps; bool_simpl.
  { split; [done|]. right. split; [done|]. exists a. by destruct (a_state a). }
  pose proof (placed_Some s th a Hth) as Hp. rewrite place_runnable in Hp by done.
  pose proof (placed_online s th _ Hi Hp) as Hlt.
  eapply wp_mono; [by apply (at_queue_remove _ _ _ (placed s)); [apply inv_agrees|..]| |done].
  intros sw s1 (Hs1 & Hst & Hag). cbv beta. wp_steps.
  destruct (inv_affinity s Hi th a Hth) as [Hsub Hcpu].
  assert (assignments s1 = assignments s ∧ online_mask s1 = online_mask s) as [Hs1a Hs1o]
    by (rewrite Hs1; done).
  destruct (inv_alter s s1 i a (set_a_state ABlocked)) as [Hinv Hall]; try done.
  { by apply queue_step_length in Hst. }
  { by rewrite Heq. }
  split; [done|]. exists a. subst th. by rewrite <- Hs1o.
Qed.

Lemma frame_of_set_queues s s1 :
  s1 = set_queues (queues s1) s → assignments s1 = assignments s ∧ online_mask s1 = online_mask s.
Proof. intros ->. done. Qed.

(** The invariant after a thread leaves the table. *)
Lemma inv_delete s s1 i a :
  inv s → assignments s1 = assignments s → online_mask s1 = online_mask s →
  length (queues s1) = length (queues s) → assignments s !! i = Some a →
  agrees (queues s1) (<[a_thread a := None]> (placed s)) →
  let s' := set_assignments (delete i (assignments s1)) s1 in
  inv s' ∧ ∀ t, assignment s' t = <[a_thread a := None]> (assignment s) t.
Proof.
  intros Hi Ha1 Ho Hl Ha Hag s'.
  assert (∀ t, assignment s' t = <[a_thread a := None]> (assignment s) t) as Hall.
  { intros t. unfold s'. rewrite (assignment_delete s1 i a t);
      [|rewrite Ha1; by apply inv_threads|by rewrite Ha1].
    destruct (decide (a_thread a = t)) as [->|Ht]; [by rewrite !fn_lookup_insert|].
    rewrite !fn_lookup_insert_ne by done. unfold assignment. by rewrite Ha1. }
  assert (assignments s ≡ₚ a :: delete i (assignments s)) as Hperm by by apply delete_Permutation.
  split; [|done]. constructor; cbn [queues online_mask s' set_assignments].
  - rewrite Hl. apply (inv_cpus s Hi).
  - rewrite Ho. apply (inv_mask s Hi).
  - rewrite Ho, Hl. apply (inv_online s Hi).
  - cbn. rewrite Ha1. pose proof (inv_threads s Hi) as Hnd. rewrite Hperm in Hnd.
    by apply NoDup_cons in Hnd as [_ ?].
  - cbn. rewrite Ha1. pose proof (inv_bound s Hi) as Hb. rewrite Hperm in Hb. cbn in Hb. lia.
  - rewrite Ho. intros t b. rewrite Hall. destruct (decide (a_thread a = t)) as [->|Ht].
    + by rewrite fn_lookup_insert.
    + rewrite fn_lookup_insert_ne by done. apply (inv_affinity s Hi).
  - eapply agrees_ext; [|exact Hag]. intros t. unfold placed at 2. rewrite Hall.
    destruct (decide (a_thread a = t)) as [->|Ht]; [by rewrite !fn_lookup_insert|].
    by rewrite !fn_lookup_insert_ne by done.
Qed.

Lemma agrees_none s th : agrees (queues s) (placed s) → placed s th = None →
  agrees (queues s) (<[th := None]> (placed s)).
Proof.
  intros Hag Hp. eapply agrees_ext; [|exact Hag]. intros t.
  destruct (decide (th = t)) as [->|Ht]; [by rewrite fn_lookup_insert|].
  by rewrite fn_lookup_insert_ne by done.
Qed.

Lemma remove_spec th s :
  inv s →
  wp (remove th)
    (λ r s', inv s' ∧ ∃ a, assignment s th = Some a ∧ qt_thread r = th ∧ qt_cpu r = a_cpu a ∧
       (∀ t, assignment s' t = <[th := None]> (assignment s) t) ∧
       (if decide (a_state a = ARunnable)
        then queue_step (a_cpu a) (λ q q', dequeues th q (qt_switch r) q') (queues s) (queues s')
        else queues s' = queues s ∧ qt_switch r = None) ∧
       online_mask s' = online_mask s)
    (λ e s', s' = s ∧ e = UnknownThread ∧ assignment s th = None) s.
Proof.
  intros Hi. unfold remove. apply wp_assignment; [done| |naive_solver].
  intros i a Ha Heq Hth. pose proof (placed_Some s th a Hth) as Hp.
  destruct (decide (a_state a = ARunnable)) as [Hr|Hr].
  - rewrite bool_decide_eq_true_2 by done. rewrite place_runnable in Hp by done.
    pose proof (placed_online s th _ Hi Hp) as Hlt. apply wp_bind.
    eapply wp_mono; [by apply (at_queue_remove _ _ _ (placed s)); [apply inv_agrees|..]| |done].
    intros sw s1 ([Hs1a Hs1o]%frame_of_set_queues & Hst & Hag). cbv beta. wp_steps.
    destruct (inv_delete s s1 i a) as [Hinv Hall]; try done.
    { by apply queue_step_length in Hst. }
    { by rewrite Heq. }
    split; [done|]. exists a. subst th. rewrite decide_True by done. by rewrite <- Hs1o.
  - rewrite bool_decide_eq_false_2 by done. rewrite place_blocked in Hp by done. wp_steps.
    destruct (inv_delete s s i a) as [Hinv Hall]; try done.
    { rewrite Heq. apply agrees_none; [apply (inv_agrees s Hi)|done]. }
    split; [done|]. exists a. subst th. by rewrite decide_False by done.
Qed.

(** The invariant after a thread enters the table. *)
Lemma inv_push s s1 a :
  inv s → assignments s1 = assignments s → online_mask s1 = online_mask s →
  length (queues s1) = length (queues s) → assignment s (a_thread a) = None →
  (length (assignments s) < MAX_RUNNABLE_THREADS)%nat →
  mask_sub (a_affinity a) (online_mask s) → mask_contains (a_affinity a) (a_cpu a) = true →
  agrees (queues s1) (<[a_thread a := a_place a]> (placed s)) →
  let s' := set_assignments (push (assignments s1) a) s1 in
  inv s' ∧ ∀ t, assignment s' t = <[a_thread a := Some a]> (assignment s) t.
Proof.
  intros Hi Hs1a Hs1o Hlen Hn Hb Hsub Hcpu Hag s'.
  assert (∀ t, assignment s' t = <[a_thread a := Some a]> (assignment s) t) as Hall.
  { intros t. unfold s'. rewrite assignment_push; [|rewrite Hs1a; by apply inv_threads|
      unfold assignment; by rewrite Hs1a].
    destruct (decide (a_thread a = t)) as [->|Ht]; [by rewrite !fn_lookup_insert|].
    rewrite !fn_lookup_insert_ne by done. unfold assignment. by rewrite Hs1a. }
  split; [|done].
  constructor; cbn [queues online_mask set_assignments s']; rewrite ?Hlen, ?Hs1o;
    [apply (inv_cpus s Hi)|apply (inv_mask s Hi)|apply (inv_online s Hi)|..].
  - cbn. unfold push. rewrite Hs1a, fmap_app, Permutation_app_comm. cbn.
    constructor; [|apply (inv_threads s Hi)]. intros (b & Hbt & Hbin)%list_elem_of_fmap.
    assert (assignment s (a_thread a) = Some b) as Hsome; [|congruence].
    apply find_assignment; [apply (inv_threads s Hi)|done].
  - cbn. unfold push. rewrite length_app, Hs1a. cbn. lia.
  - intros t b. rewrite Hall. destruct (decide (a_thread a = t)) as [->|Ht].
    + rewrite fn_lookup_insert. by intros [= <-].
    + rewrite fn_lookup_insert_ne by done. apply (inv_affinity s Hi).
  - eapply agrees_ext; [|exact Hag]. intros t. unfold placed at 2. rewrite Hall.
    destruct (decide (a_thread a = t)) as [->|Ht]; [by rewrite !fn_lookup_insert|].
    by rewrite !fn_lookup_insert_ne by done.
Qed.

Lemma admit_with_transition_spec th m s :
  inv s → is_u64 m →
  wp (admit_with_transition th m)
    (λ r s', inv s' ∧ let c := pl_cpu (ad_placement r) in
       assignment s th = None ∧ pl_thread (ad_placement r) = th ∧
       pl_migrated (ad_placement r) = false ∧
       least_loaded s m (length (queues s)) c ∧
       (∀ t, assignment s' t = <[th := Some {| a_thread := th; a_affinity := m; a_cpu := c;
                                              a_state := ARunnable |}]> (assignment s) t) ∧
       queue_step c (λ q q', enqueues th q (ad_switch r) q') (queues s) (queues s') ∧
       online_mask s' = online_mask s ∧
       length (assignments s') = S (length (assignments s)))
    (λ e s', s' = s ∧
       (e = EmptyAffinity ∧ m = 0 ∨
        e = AffinityOutsideTopology ∧ ¬ mask_sub m (online_mask s) ∨
        e = DuplicateThread ∧ is_Some (assignment s th) ∨
        e = Capacity ∧ length (assignments s) = MAX_RUNNABLE_THREADS)) s.
Proof.
  intros Hi Hm. unfold admit_with_transition. apply wp_bind, wp_reads.
  eapply wpo_mono; [by apply validate_affinity_spec| |naive_solver].
  intros _ [Hsub [c0 Hc0]]. cbv beta. wp_steps; bool_simpl.
  { split; [done|]. right; right; left. split; [done|].
    destruct (assignment s th) eqn:E; [done|]. apply assignment_index_None in E. by rewrite E in H. }
  { split; [done|]. right; right; right. pose proof (inv_bound s Hi). split; [done|lia]. }
  assert (assignment s th = None) as Hn.
  { apply assignment_index_None. by destruct (assignment_index s th); [destruct H|]. }
  destruct (least_loaded_cpu_spec s m c0 Hi Hsub Hc0) as (c & Hcpu & Hll). rewrite Hcpu. cbn [wpo].
  assert (placed s th = None) as Hp by (unfold placed; by rewrite Hn).
  destruct (lookup_lt_is_Some_2 (queues s) c) as [q Hq]; [apply Hll|].
  pose proof (queue_room s c q th Hi Hq ltac:(by rewrite Hp) ltac:(right; lia)) as Hroom.
  pose proof (length_runnable q).
  apply wp_bind.
  eapply wp_mono; [eapply (at_queue_enqueue _ _ _ (placed s) q _ queue_admit); [by left|by apply inv_agrees|done..|lia]| |done].
  intros sw s1 ([Hs1a Hs1o]%frame_of_set_queues & Hst & Hag). cbv beta. wp_steps.
  pose proof (queue_step_length _ _ _ _ Hst) as Hlen.
  destruct (inv_push s s1 {| a_thread := th; a_affinity := m; a_cpu := c; a_state := ARunnable |})
    as [Hinv Hall]; try done; [lia|apply Hll|].
  split; [done|]. split_and!; try done. cbn. unfold push. rewrite length_app, Hs1a. cbn. lia.
Qed.

(** A woken thread stays on its CPU unless some CPU of its affinity set is
    lighter by two threads or more, and then goes to the lightest. *)
Definition wake_choice (s : SmpRoundRobin) (a : Assignment) (c : CpuId) : Prop :=
  (c = a_cpu a ∧
   ∀ d, mask_contains (a_affinity a) d = true → (load s c ≤ load s d + 1)%nat) ∨
  (least_loaded s (a_affinity a) (length (queues s)) c ∧ (load s c + 1 < load s (a_cpu a))%nat).

Lemma wake_choice_affine s a c th :
  inv s → assignment s th = Some a → wake_choice s a c → mask_contains (a_affinity a) c = true.
Proof.
  intros Hi Ha [[-> _]|[(_ & ? & _) _]]; [|done]. by apply (inv_affinity s Hi th a Ha).
Qed.

Lemma wake_choice_spec s th a least :
  inv s → assignment s th = Some a → least_loaded s (a_affinity a) (length (queues s)) least →
  wake_choice s a
    (if mask_contains (a_affinity a) (a_cpu a) && bool_decide (load s (a_cpu a) ≤ load s least + 1)%nat
     then a_cpu a else least).
Proof.
  intros Hi Ha Hll. destruct (inv_affinity s Hi th a Ha) as [Hsub Hc]. rewrite Hc. cbn.
  case_bool_decide as Hle; [left|right; split; [done|lia]]. split; [done|]. intros d Hd.
  destruct Hll as (_ & _ & Hmin). destruct (Hmin d) as [? _]; [apply (inv_online s Hi); auto|done|lia].
Qed.

Lemma wake_spec th s :
  inv s →
  wp (wake th)
    (λ r s', inv s' ∧ ∃ a, let c := pl_cpu (wk_placement r) in
       assignment s th = Some a ∧ a_state a = ABlocked ∧ pl_thread (wk_placement r) = th ∧
       pl_migrated (wk_placement r) = negb (bool_decide (c = a_cpu a)) ∧
       wake_choice s a c ∧
       (∀ t, assignment s' t = <[th := Some (set_a_state ARunnable (set_a_cpu c a))]> (assignment s) t) ∧
       queue_step c (λ q q', enqueues th q (wk_switch r) q') (queues s) (queues s') ∧
       online_mask s' = online_mask s)
    (λ e s', s' = s ∧ (e = UnknownThread ∧ assignment s th = None ∨
       e = AlreadyRunnable ∧ ∃ a, assignment s th = Some a ∧ a_state a = ARunnable)) s.
Proof.
  intros Hi. unfold wake. apply wp_assignment; [done| |naive_solver].
  intros i a Ha Heq Hth. apply wp_bind. wp_steps; bool_simpl; [naive_solver|].
  destruct (inv_affinity s Hi th a Hth) as [Hsub Hcpu].
  destruct (least_loaded_cpu_spec s _ _ Hi Hsub Hcpu) as (least & Hleast & Hll).
  rewrite Hleast. cbn [wpo]. wp_steps. rewrite cpu_load_spec by auto. cbn [wpo]. wp_steps.
  rewrite cpu_load_spec by (done || apply Hsub, Hll). cbn [wpo].
  pose proof (wake_choice_spec s th a least Hi Hth Hll) as Hch.
  set (c := if mask_contains _ _ && _ then _ else _) in *. clearbody c.
  pose proof (wake_choice_affine s a c th Hi Hth Hch) as Haff.
  destruct (online_queue s c Hi (Hsub c Haff)) as [q Hq].
  assert (placed s th = None) as Hp by (rewrite (placed_Some s th a Hth); by apply place_blocked).
  pose proof (queue_room s c q th Hi Hq ltac:(by rewrite Hp) ltac:(left; eauto)) as Hroom.
  apply wp_bind, wp_reads. rewrite (queue_can_accept_spec s c q) by auto. cbn [wpo negb err_if].
  apply wp_bind, wp_lift. cbn [wpo negb err_if]. pose proof (length_runnable q). apply wp_bind.
  eapply wp_mono; [eapply (at_queue_enqueue _ _ _ (placed s) q _ queue_wake);
    [by right|by apply inv_agrees|done..|lia]| |done].
  intros sw s1 ([Hs1a Hs1o]%frame_of_set_queues & Hst & Hag). cbv beta. wp_steps.
  destruct (inv_alter s s1 i a (λ a, set_a_state ARunnable (set_a_cpu c a))) as [Hinv Hall]; try done.
  { by apply queue_step_length in Hst. }
  { by rewrite Heq. }
  split; [done|]. exists a. subst th. rewrite <- Hs1o. cbn [wk_placement pl_cpu]. split_and!; try done.
  by destruct (a_state a).
Qed.

(** A runnable thread leaves one queue and joins another. *)
Definition relocates (th : ThreadId) (source destination : CpuId) (sw1 sw2 : option Switch)
    (qs qs' : list RoundRobin) : Prop :=
  ∃ qs1, queue_step source (λ q q', dequeues th q sw1 q') qs qs1 ∧
         queue_step destination (λ q q', enqueues th q sw2 q') qs1 qs'.

Lemma move_runnable_assignment_spec th a destination s :
  inv s → assignment s th = Some a → a_state a = ARunnable → destination ≠ a_cpu a →
  mask_contains (online_mask s) destination = true →
  wp (move_runnable_assignment th (a_cpu a) destination)
    (λ r s', s' = set_queues (queues s') s ∧ length (queues s') = length (queues s) ∧
       agrees (queues s') (<[th := Some destination]> (placed s)) ∧
       r.1.1 = bool_decide (running s (a_cpu a) = Some th) ∧
       relocates th (a_cpu a) destination r.1.2 r.2 (queues s) (queues s'))
    (λ _ _, False) s.
Proof.
  intros Hi Hth Hr Hne Hd. unfold move_runnable_assignment.
  pose proof (placed_Some s th a Hth) as Hp. rewrite place_runnable in Hp by done.
  destruct (online_queue s destination Hi Hd) as [q Hq].
  pose proof (placed_online s th _ Hi Hp) as Hlt.
  destruct (lookup_lt_is_Some_2 _ _ Hlt) as [qs Hqs].
  pose proof (queue_room s destination q th Hi Hq ltac:(rewrite Hp; congruence) ltac:(left; eauto)).
  pose proof (length_runnable q).
  apply wp_bind, wp_reads. rewrite (queue_can_accept_spec s _ q) by auto. cbn [wpo].
  apply wp_bind, wp_lift. cbn [wpo negb err_if]. apply wp_bind, wp_reads.
  rewrite Hqs. cbn [expect wpo]. apply wp_bind.
  eapply wp_mono; [by apply (at_queue_remove _ _ _ (placed s)); [apply inv_agrees|..]| |done].
  intros sw1 s1 (Hs1 & Hst1 & Hag1). cbv beta. apply wp_bind.
  eapply wp_mono; [eapply (at_queue_enqueue _ _ _ _ q _ queue_wake); [by right|exact Hag1|..]| |done].
  - by rewrite fn_lookup_insert.
  - by rewrite (queue_step_lookup_ne _ _ _ _ _ Hst1).
  - lia.
  - intros sw2 s2 (Hs2 & Hst2 & Hag2). cbv beta. wp_steps. split_and!.
    + rewrite Hs2. cbn. by rewrite Hs1.
    + apply queue_step_length in Hst1, Hst2. lia.
    + eapply agrees_ext; [|exact Hag2]. intros t.
      destruct (decide (th = t)) as [->|]; [by rewrite !fn_lookup_insert|].
      by rewrite !fn_lookup_insert_ne by done.
    + cbn. unfold running. by rewrite Hqs.
    + by exists (queues s1).
Qed.

(** The outcome of a migration from assignment [a] to [a']. *)
Definition relocated (th : ThreadId) (a a' : Assignment) (r : MigrationResult)
    (s s' : SmpRoundRobin) : Prop :=
  (∀ t, assignment s' t = <[th := Some a']> (assignment s) t) ∧
  mg_placement r = {| pl_thread := th; pl_cpu := a_cpu a'; pl_migrated := true |} ∧
  online_mask s' = online_mask s ∧
  if decide (a_state a = ARunnable)
  then mg_source_was_current r = bool_decide (running s (a_cpu a) = Some th) ∧
       relocates th (a_cpu a) (a_cpu a') (mg_source_switch r) (mg_destination_switch r)
         (queues s) (queues s')
  else queues s' = queues s ∧ mg_source_was_current r = false ∧
       mg_source_switch r = None ∧ mg_destination_switch r = None.

Lemma relocate_spec i th a f destination s :
  inv s → assignments s !! i = Some a → a_thread a = th → assignment s th = Some a →
  destination ≠ a_cpu a → mask_contains (online_mask s) destination = true →
  (∀ a, a_thread (f a) = a_thread a) → (∀ a, a_state (f a) = a_state a) → a_cpu (f a) = destination →
  mask_sub (a_affinity (f a)) (online_mask s) → mask_contains (a_affinity (f a)) destination = true →
  wp (r ← (if bool_decide (a_state a = ARunnable)
           then move_runnable_assignment th (a_cpu a) destination
           else mret (false, None, None));
      _ ← modify (update_assignment i f);
      mret (moved th destination r))
    (λ r s', inv s' ∧ relocated th a (f a) r s s') (λ _ _, False) s.
Proof.
  intros Hi Ha Heq Hth Hne Hon Hf Hfs Hfc Hsub Haff. unfold relocated.
  destruct (decide (a_state a = ARunnable)) as [Hr|Hr].
  - rewrite bool_decide_eq_true_2 by done. apply wp_bind.
    eapply wp_mono; [by apply (move_runnable_assignment_spec th a)| |done].
    intros r s1 ([Hs1a Hs1o]%frame_of_set_queues & Hlen & Hag & Hcur & Hrel). cbv beta. wp_steps.
    destruct (inv_alter s s1 i a f) as [Hinv Hall]; try done.
    { by rewrite Hfc. }
    { rewrite Heq, place_runnable, Hfc by (by rewrite Hfs). done. }
    split; [done|]. rewrite <- Heq, Hfc. split_and!; try done; subst th; done.
  - rewrite bool_decide_eq_false_2 by done. wp_steps.
    destruct (inv_alter s s i a f) as [Hinv Hall]; try done.
    { by rewrite Hfc. }
    { rewrite place_blocked, Heq by (by rewrite Hfs).
      apply agrees_none; [apply (inv_agrees s Hi)|]. rewrite (placed_Some s th a Hth).
      by apply place_blocked. }
    split; [done|]. rewrite Hfc. by subst th.
Qed.

Lemma set_affinity_with_transition_spec th m s :
  inv s → is_u64 m →
  wp (set_affinity_with_transition th m)
    (λ r s', inv s' ∧ ∃ a, assignment s th = Some a ∧
       if mask_contains m (a_cpu a) then
         r = no_move th (a_cpu a) ∧ queues s' = queues s ∧ online_mask s' = online_mask s ∧
         ∀ t, assignment s' t = <[th := Some (set_a_affinity m a)]> (assignment s) t
       else ∃ c, least_loaded s m (length (queues s)) c ∧
         relocated th a (set_a_cpu c (set_a_affinity m a)) r s s')
    (λ e s', s' = s ∧
       (e = EmptyAffinity ∧ m = 0 ∨
        e = AffinityOutsideTopology ∧ ¬ mask_sub m (online_mask s) ∨
        e = UnknownThread ∧ assignment s th = None)) s.
Proof.
  intros Hi Hm. unfold set_affinity_with_transition. apply wp_bind, wp_reads.
  eapply wpo_mono; [by apply validate_affinity_spec| |naive_solver].
  intros _ [Hsub [c0 Hc0]]. cbv beta. apply wp_assignment; [done| |naive_solver].
  intros i a Ha Heq Hth. destruct (mask_contains m (a_cpu a)) eqn:Hmc.
  - wp_steps. destruct (inv_alter s s i a (set_a_affinity m)) as [Hinv Hall]; try done.
    { eapply agrees_ext; [|apply (inv_agrees s Hi)]. intros t. rewrite Heq.
      destruct (decide (th = t)) as [<-|]; [|by rewrite fn_lookup_insert_ne].
      by rewrite fn_lookup_insert, (placed_Some s th a Hth). }
    split; [done|]. exists a. rewrite Hmc. by subst th.
  - destruct (least_loaded_cpu_spec s m c0 Hi Hsub Hc0) as (c & Hcpu & Hll).
    apply wp_bind, wp_reads. rewrite Hcpu. cbn [wpo].
    assert (mask_contains m c = true) by apply Hll.
    eapply wp_mono; [apply (relocate_spec i th a (λ a, set_a_cpu c (set_a_affinity m a)) c); try done| |done].
    + congruence.
    + auto.
    + intros r s' [Hinv Hrel]. split; [done|]. exists a. rewrite Hmc. eauto.
Qed.

Lemma migrate_with_transition_spec th c s :
  inv s →
  wp (migrate_with_transition th c)
    (λ r s', inv s' ∧ ∃ a, assignment s th = Some a ∧ mask_contains (a_affinity a) c = true ∧
       if decide (a_cpu a = c) then r = no_move th c ∧ s' = s
       else relocated th a (set_a_cpu c a) r s s')
    (λ e s', s' = s ∧
       (e = InvalidCpu ∧ mask_contains (online_mask s) c = false ∨
        e = UnknownThread ∧ assignment s th = None ∨
        e = AffinityViolation ∧
          ∃ a, assignment s th = Some a ∧ mask_contains (a_affinity a) c = false)) s.
Proof.
  intros Hi. unfold migrate_with_transition.
  apply wp_bind, wp_reads, wpo_err_if; intros ?; bool_simpl; [naive_solver|].
  apply wp_assignment; [done| |naive_solver]. intros i a Ha Heq Hth.
  apply wp_bind, wp_lift, wpo_err_if; intros ?; bool_simpl; [naive_solver|].
  destruct (decide (a_cpu a = c)) as [Hc|Hc].
  - rewrite bool_decide_eq_true_2 by done. wp_steps. split; [done|]. exists a.
    by rewrite decide_True.
  - rewrite bool_decide_eq_false_2 by done.
    destruct (inv_affinity s Hi th a Hth) as [Hsub _].
    eapply wp_mono; [apply (relocate_spec i th a (set_a_cpu c) c); try done| |done].
    intros r s' [Hinv Hrel]. split; [done|]. exists a. by rewrite decide_False.
Qed.

Lemma agrees_rotate qs place c q q' :
  agrees qs place → qs !! c = Some q → queue_ok q' → members q' ≡ₚ members q →
  agrees (<[c := q']> qs) place.
Proof.
  intros Ha Hq Hok Hm. pose proof (lookup_lt_Some _ _ _ Hq). destruct (Ha c q Hq) as [_ Hmq].
  eapply agrees_insert; [done..| |done]. intros t. by rewrite Hm.
Qed.

Lemma inv_set_queues s qs :
  inv s → length qs = length (queues s) → agrees qs (placed s) → inv (set_queues qs s).
Proof.
  intros [Hc Hm Ho Ht Hb Ha _] Hl Hag. constructor; cbn [queues online_mask assignments set_queues];
    rewrite ?Hl; try done.
Qed.

Lemma rotation_spec c (f : RoundRobin → option Switch * RoundRobin) s :
  (∀ q, queue_ok q → let '(sw, q') := f q in
     queue_ok q' ∧ rotates q sw q' ∧ members q' ≡ₚ members q) →
  inv s →
  wp (_ ← reads (λ s, queue s c);
      at_queue c (λ _, InvalidCpu) (λ q, let '(sw, q') := f q in (Ok sw, q')))
    (λ sw s', inv s' ∧ s' = set_queues (queues s') s ∧
       queue_step c (λ q q', rotates q sw q') (queues s) (queues s'))
    (λ e s', s' = s ∧ e = InvalidCpu ∧ mask_contains (online_mask s) c = false) s.
Proof.
  intros Hf Hi. apply wp_bind, wp_reads. destruct (mask_contains (online_mask s) c) eqn:Hc.
  - destruct (queue_spec s c Hi Hc) as (q & Hq & Heq). rewrite Heq. cbn [wpo].
    eapply wp_at_queue; [done|]. destruct (inv_agrees s Hi c q Hq) as [Hok _]. specialize (Hf q Hok).
    unfold wp. destruct (f q) as [sw q']. destruct Hf as (Hok' & Hrot & Hm).
    split_and!; [|done|by exists q, q']. apply inv_set_queues; [done|apply length_insert|].
    eapply agrees_rotate; [by apply inv_agrees|done..].
  - unfold queue. rewrite Hc. done.
Qed.

Lemma tick_spec c s :
  inv s →
  wp (tick c)
    (λ sw s', inv s' ∧ s' = set_queues (queues s') s ∧
       queue_step c (λ q q', rotates q sw q') (queues s) (queues s'))
    (λ e s', s' = s ∧ e = InvalidCpu ∧ mask_contains (online_mask s) c = false) s.
Proof. apply rotation_spec, queue_tick_spec. Qed.

Lemma yield_current_spec c s :
  inv s →
  wp (yield_current c)
    (λ sw s', inv s' ∧ s' = set_queues (queues s') s ∧
       queue_step c (λ q q', rotates q sw q') (queues s) (queues s'))
    (λ e s', s' = s ∧ e = InvalidCpu ∧ mask_contains (online_mask s) c = false) s.
Proof. apply rotation_spec, queue_yield_spec. Qed.

Lemma online_cpu_spec c s :
  inv s →
  wp (online_cpu c)
    (λ fresh s', inv s' ∧ (c < length (queues s))%nat ∧
       fresh = negb (mask_contains (online_mask s) c) ∧
       queues s' = queues s ∧ assignments s' = assignments s ∧
       ∀ d, mask_contains (online_mask s') d = mask_contains (online_mask s) d || bool_decide (d = c))
    (λ e s', s' = s ∧ e = InvalidCpu ∧ (length (queues s) ≤ c)%nat) s.
Proof.
  intros Hi. unfold online_cpu. wp_steps; bool_simpl; [done|].
  destruct (mask_contains (online_mask s) c) eqn:Hc; wp_steps.
  - split_and!; try done; [lia|]. intros d. case_bool_decide; subst; [by rewrite Hc|].
    by rewrite orb_false_r.
  - assert (∀ d, mask_contains (mask_union (online_mask s) (mask_single c)) d =
      mask_contains (online_mask s) d || bool_decide (d = c)) as Hu by (intros; apply mask_union_single).
    pose proof (inv_cpus s Hi). split_and!; try done; [|lia].
    destruct Hi as [Hcp Hm Ho Ht Hb Ha Hag]. constructor; cbn; try done.
    + apply mask_union_u64; [done|lia].
    + intros d. rewrite Hu, orb_true_iff, bool_decide_eq_true. intros [?| ->]; [auto|lia].
    + intros th a Ha'. destruct (Ha th a Ha') as [Hs ?]. split; [|done]. intros d Hd.
      by rewrite Hu, (Hs d Hd).
Qed.

Lemma with_online_mask_spec n quantum m :
  is_u64 quantum → is_u64 m →
  wpo (with_online_mask n quantum m)
    (λ s, inv s ∧ (∀ t, assignment s t = None) ∧ online_mask s = m ∧ length (queues s) = n)
    (λ _, n = 0%nat ∨ (MAX_CPUS < n)%nat ∨ quantum = 0 ∨ m = 0 ∨
       ∃ c, mask_contains m c = true ∧ (n ≤ c)%nat).
Proof.
  intros Hqt Hm. unfold with_online_mask, queue_new, mask_is_empty. wp_steps; bool_simpl.
  - apply orb_true_iff in H. rewrite !bool_decide_eq_true in H. tauto.
  - destruct (decide (m = 0)) as [->|Hm0]; [tauto|]. do 4 right.
    rewrite (proj2 (Z.eqb_neq _ _)) in H1 by done. cbn in H1. bool_simpl.
    destruct (mask_nonempty (Z.land m (not64 a))) as [c Hc].
    { apply is_u64_bits. pose proof Hm as [Hm1 Hm2]%is_u64_bits. split; [apply Z.land_nonneg; by left|].
      intros i Hi. by rewrite Z.land_spec, Hm2 by lia. }
    { done. }
    rewrite mask_contains_testbit, testbit_andnot, <- !mask_contains_testbit in Hc by done.
    apply andb_true_iff in Hc as [Hmc Hac]. exists c. split; [done|]. bool_simpl.
    destruct (decide (c < n)%nat) as [Hlt|]; [|lia].
    by rewrite (mask_first_contains_iff n a c), bool_decide_eq_true_2 in Hac.
  - tauto.
  - split_and!; [|done|done|apply length_replicate].
    constructor; cbn; rewrite ?length_replicate; try done; [lia| |by apply NoDup_nil_2|unfold MAX_RUNNABLE_THREADS; lia|].
    + intros c Hc. apply (land_not64_sub m a) in Hc; [|done..].
      rewrite (mask_first_contains_iff n a c) in Hc by done. by bool_simpl.
    + intros c q [-> _]%lookup_replicate. split; [|set_solver].
      destruct Hqt. by constructor; cbn; try lia; try done; apply NoDup_nil_2.
  - unfold mask_first in H0. rewrite (bool_decide_eq_false_2 (n = 0%nat)), bool_decide_eq_false_2 in H0 by lia.
    done.
Qed.

(** *** Rebalancing *)

(** [p] moves a runnable thread of an eligible CPU to an eligible CPU of its
    affinity set that carries at least two threads less. *)
Definition proposal (s : SmpRoundRobin) (m : CpuMask) (p : RebalancePlan) : Prop :=
  mask_contains m (rp_from p) = true ∧ mask_contains m (rp_to p) = true ∧
  rp_from p ≠ rp_to p ∧
  rp_source_load p = load s (rp_from p) ∧ rp_destination_load p = load s (rp_to p) ∧
  (load s (rp_to p) + 1 < load s (rp_from p))%nat ∧
  ∃ a, a ∈ assignments s ∧ a_thread a = rp_thread p ∧ movable (rp_from p) (rp_to p) a = true.

(** The running thread is moved only when no waiting thread can be. *)
Definition spares_current (s : SmpRoundRobin) (p : RebalancePlan) : Prop :=
  running s (rp_from p) = Some (rp_thread p) →
  ∀ a, a ∈ assignments s → movable (rp_from p) (rp_to p) a = true → a_thread a = rp_thread p.

Definition lex_lt (f t f' t' : nat) : Prop := (f < f' ∨ f = f' ∧ t < t')%nat.

(** [best] is the first of the largest imbalances among the pairs before [(f, t)]. *)
Definition best_before (s : SmpRoundRobin) (m : CpuMask) (f t : nat)
    (best : option RebalancePlan) : Prop :=
  match best with
  | None => ∀ p, proposal s m p → ¬ lex_lt (rp_from p) (rp_to p) f t
  | Some b => proposal s m b ∧ spares_current s b ∧ lex_lt (rp_from b) (rp_to b) f t ∧
      ∀ p, proposal s m p → lex_lt (rp_from p) (rp_to p) f t →
        (plan_imbalance p ≤ plan_imbalance b)%nat ∧
        (lex_lt (rp_from p) (rp_to p) (rp_from b) (rp_to b) →
         (plan_imbalance p < plan_imbalance b)%nat)
  end.

Lemma plan_imbalance_load s m p :
  proposal s m p → plan_imbalance p = (load s (rp_from p) - load s (rp_to p))%nat.
Proof. intros (_ & _ & _ & Hs & Hd & _). unfold plan_imbalance. by rewrite Hs, Hd. Qed.

Lemma lex_lt_succ f t f' t' : lex_lt f t f' (S t') ↔ lex_lt f t f' t' ∨ f = f' ∧ t = t'.
Proof. unfold lex_lt. lia. Qed.

Lemma best_before_skip s m f t best :
  (∀ p, proposal s m p → ¬ (rp_from p = f ∧ rp_to p = t)) →
  best_before s m f t best → best_before s m f (S t) best.
Proof.
  intros Hno. destruct best as [b|]; cbn.
  - intros (Hb & Hsp & Hlt & Hmax). split_and!; [done|done|rewrite lex_lt_succ; by left|].
    intros p Hp [?|?]%lex_lt_succ; [by apply Hmax|by destruct (Hno p Hp)].
  - intros Hn p Hp [?|?]%lex_lt_succ; [by apply (Hn p)|by destruct (Hno p Hp)].
Qed.

Lemma plan_replaces_later s m f t b p :
  proposal s m b → lex_lt (rp_from b) (rp_to b) f t → rp_from p = f → rp_to p = t →
  plan_replaces (Some b) p = bool_decide (plan_imbalance b < plan_imbalance p)%nat.
Proof.
  intros Hb Hlt Hf Ht. unfold plan_replaces, plan_before, lex_lt in *.
  rewrite (bool_decide_eq_false_2 (rp_from p < rp_from b)%nat) by lia. cbn.
  destruct (decide (rp_from p = rp_from b)) as [He|He].
  - rewrite (bool_decide_eq_false_2 (rp_to p < rp_to b)%nat), (bool_decide_eq_false_2 (rp_to p = rp_to b))
      by lia. cbn. by rewrite !andb_false_r, orb_false_r.
  - rewrite (bool_decide_eq_false_2 (rp_from p = rp_from b)) by done. cbn.
    by rewrite !andb_false_r, orb_false_r.
Qed.

Lemma best_before_step s m f t best p :
  best_before s m f t best → proposal s m p → spares_current s p → rp_from p = f → rp_to p = t →
  best_before s m f (S t) (if plan_replaces best p then Some p else best).
Proof.
  intros Hbest Hp Hsp Hf Ht.
  assert (∀ q, proposal s m q → rp_from q = f ∧ rp_to q = t → plan_imbalance q = plan_imbalance p)
    as Hsame.
  { intros q Hq [Hqf Hqt]. by rewrite (plan_imbalance_load s m q Hq), (plan_imbalance_load s m p Hp),
      Hqf, Hqt, Hf, Ht. }
  assert (∀ q, rp_from q = f ∧ rp_to q = t → ¬ lex_lt (rp_from q) (rp_to q) (rp_from p) (rp_to p)) as Hirr
    by (intros q; unfold lex_lt; lia).
  destruct best as [b|]; cbn in Hbest.
  - destruct Hbest as (Hb & Hsb & Hlt & Hmax). rewrite (plan_replaces_later s m f t) by done.
    case_bool_decide as Hcmp; cbn; (split_and!; [done|done|unfold lex_lt in *; lia|]).
    + intros q Hq [Hql|Hqe]%lex_lt_succ.
      * destruct (Hmax q Hq Hql) as [? _]. lia.
      * rewrite (Hsame q Hq Hqe). split; [done|]. by intros ?%Hirr.
    + intros q Hq [Hql|Hqe]%lex_lt_succ; [by apply Hmax|].
      rewrite (Hsame q Hq Hqe). split; [lia|]. unfold lex_lt in *. lia.
  - cbn. split_and!; [done|done|unfold lex_lt; lia|]. intros q Hq [Hql|Hqe]%lex_lt_succ.
    + by destruct (Hbest q Hq).
    + rewrite (Hsame q Hq Hqe). split; [done|]. by intros ?%Hirr.
Qed.

Lemma rebalance_candidate_spec s source destination cur :
  match rebalance_candidate s source destination cur with
  | Some a => a ∈ assignments s ∧ movable source destination a = true ∧
      (cur = Some (a_thread a) →
       ∀ b, b ∈ assignments s → movable source destination b = true → a_thread b = a_thread a)
  | None => ∀ b, b ∈ assignments s → movable source destination b = false
  end.
Proof.
  unfold rebalance_candidate. destruct (List.find _ _) as [a|] eqn:E.
  - apply List.find_some in E as [[Hin Hm]%List.filter_In Hne]. bool_simpl.
    rewrite <- list_elem_of_In in Hin. split_and!; [done|done|congruence].
  - pose proof (List.find_none _ _ E) as Hall. destruct (List.find (movable _ _) _) as [a|] eqn:E2.
    + apply List.find_some in E2 as [Hin Hm]. rewrite <- list_elem_of_In in Hin.
      split_and!; [done|done|]. intros -> b Hb Hmb. apply list_elem_of_In in Hb.
      specialize (Hall b). rewrite List.filter_In in Hall. specialize (Hall (conj Hb Hmb)).
      bool_simpl. congruence.
    + intros b Hb. apply list_elem_of_In in Hb. by apply (List.find_none _ _ E2).
Qed.

Lemma rebalance_inner_spec s m source n k best :
  inv s → mask_sub m (online_mask s) → mask_contains m source = true →
  (n + k = length (queues s))%nat → best_before s m source n best →
  ∃ r, rebalance_inner s m source (load s source) (running s source) (seq n k) best = Ok r ∧
       best_before s m source (length (queues s)) r.
Proof.
  intros Hi Hm Hsrc. revert n best. induction k as [|k IH]; intros n best Hn Hb.
  { exists best. split; [done|]. by replace (length (queues s)) with n by lia. }
  cbn [seq rebalance_inner]. rewrite (cpu_from_raw_queue s) by (done || lia). cbn [expect mbind outcome_bind].
  destruct (bool_decide (n = source)) eqn:Hns; bool_simpl; cbn [orb].
  { apply IH; [lia|]. apply best_before_skip; [|done]. intros p (_ & _ & Hne & _) [? ?]. congruence. }
  destruct (mask_contains m n) eqn:Hmn; cbn [negb].
  2:{ apply IH; [lia|]. apply best_before_skip; [|done]. intros p (_ & Ht & _) [_ ?]. congruence. }
  rewrite (cpu_load_spec s n Hi) by auto. cbn [mbind outcome_bind].
  destruct (bool_decide (load s source ≤ _)%nat) eqn:Hle; bool_simpl.
  { apply IH; [lia|]. apply best_before_skip; [|done].
    intros p (_ & _ & _ & _ & _ & Hlt & _) [Hpf Hpt]. rewrite Hpf, Hpt in Hlt. lia. }
  pose proof (rebalance_candidate_spec s source n (running s source)) as Hc.
  destruct (rebalance_candidate s source n (running s source)) as [a|].
  - destruct Hc as (Hin & Hmov & Hsp). apply IH; [lia|]. apply best_before_step; try done.
    split_and!; try done; cbn; [lia|eauto].
  - apply IH; [lia|]. apply best_before_skip; [|done].
    intros p (_ & _ & _ & _ & _ & _ & a & Ha & _ & Hmov) [Hpf Hpt].
    rewrite Hpf, Hpt, (Hc a Ha) in Hmov. done.
Qed.

Lemma best_before_row s m f best :
  inv s → mask_sub m (online_mask s) →
  best_before s m f (length (queues s)) best → best_before s m (S f) 0 best.
Proof.
  intros Hi Hm.
  assert (∀ p, proposal s m p → lex_lt (rp_from p) (rp_to p) (S f) 0 →
               lex_lt (rp_from p) (rp_to p) f (length (queues s))) as Hrow.
  { intros p (_ & Ht & _) Hl. pose proof (inv_online s Hi _ (Hm _ Ht)). unfold lex_lt in *. lia. }
  destruct best as [b|]; cbn.
  - intros (Hb & Hs & Hlt & Hmax). split_and!; [done|done|unfold lex_lt in *; lia|]. auto.
  - intros Hn p Hp Hl. by apply (Hn p Hp), Hrow.
Qed.

Lemma rebalance_outer_spec s m n k best :
  inv s → mask_sub m (online_mask s) → (n + k = length (queues s))%nat →
  best_before s m n 0 best →
  ∃ r, rebalance_outer s m (seq n k) best = Ok r ∧ best_before s m (length (queues s)) 0 r.
Proof.
  intros Hi Hm. revert n best. induction k as [|k IH]; intros n best Hn Hb.
  { exists best. split; [done|]. by replace (length (queues s)) with n by lia. }
  assert ((∀ p, proposal s m p → rp_from p ≠ n) → best_before s m (S n) 0 best) as Hskip.
  { intros Hno. destruct best as [b|]; cbn in *.
    - destruct Hb as (Hb & Hs & Hlt & Hmax). split_and!; [done|done|unfold lex_lt in *; lia|].
      intros p Hp Hl. apply Hmax; [done|]. specialize (Hno p Hp). unfold lex_lt in *. lia.
    - intros p Hp Hl. apply (Hb p Hp). specialize (Hno p Hp). unfold lex_lt in *. lia. }
  cbn [seq rebalance_outer]. rewrite (cpu_from_raw_queue s) by (done || lia). cbn [expect mbind outcome_bind].
  destruct (mask_contains m n) eqn:Hmn; cbn [negb].
  2:{ apply IH; [lia|]. apply Hskip. intros p (Hf & _) ?. congruence. }
  rewrite (cpu_load_spec s n Hi) by auto. cbn [mbind outcome_bind].
  destruct (bool_decide (load s n < 2)%nat) eqn:Hle; bool_simpl.
  { apply IH; [lia|]. apply Hskip. intros p (_ & _ & _ & _ & _ & Hlt & _) Hf. rewrite Hf in Hlt. lia. }
  destruct (online_queue s n Hi (Hm n Hmn)) as [q Hq]. rewrite Hq. cbn [expect mbind outcome_bind].
  destruct (rebalance_inner_spec s m n 0 (length (queues s)) best) as (r & Hr & Hbr); try done.
  unfold running in Hr. rewrite Hq in Hr. cbn [mbind option_bind] in Hr. rewrite Hr.
  apply IH; [lia|]. by apply best_before_row.
Qed.

Lemma rebalance_plan_spec s m :
  inv s → is_u64 m →
  wpo (rebalance_plan s m) (λ r, best_before s m (length (queues s)) 0 r)
    (λ e, e = EmptyAffinity ∧ m = 0 ∨
          e = AffinityOutsideTopology ∧ ¬ mask_sub m (online_mask s)).
Proof.
  intros Hi Hm. unfold rebalance_plan. apply wpo_bind.
  eapply wpo_mono; [by apply validate_affinity_spec| |done]. intros _ [Hsub _]. cbv beta.
  destruct (rebalance_outer_spec s m 0 (length (queues s)) None) as (r & Hr & Hb); try done.
  { intros p _. unfold lex_lt. lia. }
  by rewrite Hr.
Qed.
