(* ===== verification/SchedulingProps.v ===== *)
(** * SchedulingProps: the scheduler over whole histories

    Every sequence of scheduler calls; round-robin fairness of the timer tick;
    what a rebalance plan promises and what applying it does. *)

From stdpp Require Import functions base list numbers option sets.
From Stdlib Require Import ZArith Lia.
From S2P Require Import Prelude Scheduling.

Inductive op :=
| OOnline (cpu : CpuId)
| OAdmit (thread : ThreadId) (affinity : CpuMask)
| OSetAffinity (thread : ThreadId) (affinity : CpuMask)
| OMigrate (thread : ThreadId) (destination : CpuId)
| OTick (cpu : CpuId)
| OYield (cpu : CpuId)
| OBlock (thread : ThreadId)
| OWake (thread : ThreadId)
| ORemove (thread : ThreadId).

Definition op_typed (o : op) : Prop :=
  match o with OAdmit _ m | OSetAffinity _ m => is_u64 m | _ => True end.

Definition exec (o : op) : Op unit :=
  match o with
  | OOnline c => _ ← online_cpu c; mret ()
  | OAdmit t m => _ ← admit_with_transition t m; mret ()
  | OSetAffinity t m => _ ← set_affinity_with_transition t m; mret ()
  | OMigrate t c => _ ← migrate_with_transition t c; mret ()
  | OTick c => _ ← tick c; mret ()
  | OYield c => _ ← yield_current c; mret ()
  | OBlock t => _ ← block t; mret ()
  | OWake t => _ ← wake t; mret ()
  | ORemove t => _ ← remove t; mret ()
  end.

(** The errors a call can return: never [QueueStateMismatch], and [Capacity]
    only when admitting to a full table. *)
Definition error_ok (o : op) (s : SmpRoundRobin) (e : SmpError) : Prop :=
  e ≠ QueueStateMismatch ∧
  (e = Capacity → (∃ t m, o = OAdmit t m) ∧ length (assignments s) = MAX_RUNNABLE_THREADS).

Lemma scheduler_exec_inv o s :
  inv s → op_typed o → wp (exec o) (λ _ s', inv s') (λ e s', s' = s ∧ error_ok o s e) s.
Proof.
  intros Hi Ho. unfold error_ok. destruct o; cbn in Ho |- *; wp_steps.
  - eapply wp_mono; [by apply online_cpu_spec|..]; naive_solver.
  - eapply wp_mono; [by apply admit_with_transition_spec|..]; naive_solver.
  - eapply wp_mono; [by apply set_affinity_with_transition_spec|..]; naive_solver.
  - eapply wp_mono; [by apply migrate_with_transition_spec|..]; naive_solver.
  - eapply wp_mono; [by apply tick_spec|..]; naive_solver.
  - eapply wp_mono; [by apply yield_current_spec|..]; naive_solver.
  - eapply wp_mono; [by apply block_spec|..]; naive_solver.
  - eapply wp_mono; [by apply wake_spec|..]; naive_solver.
  - eapply wp_mono; [by apply remove_spec|..]; naive_solver.
Qed.

#[export, program] Instance scheduler_machine : Machine SmpRoundRobin SmpError op :=
  {| m_exec := exec; m_typed := op_typed; m_wf := λ _, inv |}.
Next Obligation.
  intros n o s Hs Ho. eapply wp_mono; [by apply scheduler_exec_inv|done|by intros ?? [-> _]].
Qed.

(** C19. From any accepted topology and after any sequence of scheduler calls,
    successful or not: every runnable thread is in the queue of exactly one
    CPU, an online one of its affinity set, and blocked threads in none; no CPU
    idles while its queue holds a thread; and the next call cannot panic,
    cannot report a queue mismatch, and reports a capacity error only when
    admitting to a table of 256 threads. *)
Theorem scheduler_invariant n quantum m s0 os :
  is_u64 quantum → is_u64 m → with_online_mask n quantum m = Ok s0 → Forall op_typed os →
  let s := history os s0 in
  inv s ∧
  (∀ th c q, queues s !! c = Some q →
     th ∈ members q ↔ ∃ a, assignment s th = Some a ∧ a_state a = ARunnable ∧ a_cpu a = c) ∧
  (∀ c q, queues s !! c = Some q → current q = None → runnable q = []) ∧
  (∀ th a, assignment s th = Some a →
     mask_contains (a_affinity a) (a_cpu a) = true ∧
     mask_contains (online_mask s) (a_cpu a) = true) ∧
  ∀ o, op_typed o → wp (exec o) (λ _ s', inv s') (λ e s', s' = s ∧ error_ok o s e) s.
Proof.
  intros Hq Hm H0 Hos s. pose proof (with_online_mask_spec n quantum m Hq Hm) as Hw.
  rewrite H0 in Hw. destruct Hw as [Hi0 _].
  assert (inv s) as Hi by exact (history_wf (HM := scheduler_machine) 0 os s0 Hos Hi0).
  split_and!; [done|..].
  - intros th c q Hc. destruct (inv_agrees s Hi c q Hc) as [_ ->]. unfold placed, a_place.
    destruct (assignment s th); cbn; [|naive_solver]. case_decide; naive_solver.
  - intros c q Hc. apply (inv_agrees s Hi c q Hc).
  - intros th a Ha. destruct (inv_affinity s Hi th a Ha). auto.
  - intros o Ho. by apply scheduler_exec_inv.
Qed.

(** ** Fairness of the timer tick *)

Definition tick_state (q : RoundRobin) : RoundRobin := (queue_tick q).2.

Lemma tick_within_quantum q c :
  queue_ok q → current q = Some c → ticks_in_quantum q + 1 < quantum_ticks q →
  tick_state q = set_ticks (ticks_in_quantum q + 1) q.
Proof.
  intros [_ _ Hq Ht] Hc Hlt. unfold tick_state, queue_tick, saturating_add.
  rewrite Hc, Z.min_r by lia. cbn. by rewrite (proj2 (Z.ltb_lt _ _)).
Qed.

Lemma tick_at_quantum q c next rest :
  queue_ok q → current q = Some c → runnable q = next :: rest →
  ticks_in_quantum q + 1 = quantum_ticks q →
  let q' := tick_state q in
  queue_ok q' ∧ current q' = Some next ∧ runnable q' = rest ++ [c] ∧ ticks_in_quantum q' = 0 ∧
  quantum_ticks q' = quantum_ticks q.
Proof.
  intros Hok Hc Hr Heq q'. pose proof (queue_tick_spec q Hok) as Hspec. unfold q', tick_state.
  pose proof Hok as [_ _ Hq Ht]. revert Hspec. unfold queue_tick, saturating_add.
  rewrite Hc, Z.min_r by lia. cbn [ticks_in_quantum quantum_ticks set_ticks].
  rewrite (proj2 (Z.ltb_ge _ _)) by lia. unfold rotate_current. cbn. rewrite Hc, Hr. cbn.
  intros [? _]. done.
Qed.

Lemma ticks_within_quantum k q c :
  queue_ok q → current q = Some c → ticks_in_quantum q + Z.of_nat k < quantum_ticks q →
  Nat.iter k tick_state q = set_ticks (ticks_in_quantum q + Z.of_nat k) q.
Proof.
  intros Hok Hc. induction k as [|k IH]; intros Hk.
  - cbn. rewrite Z.add_0_r. by destruct q.
  - rewrite Nat.iter_succ, IH by lia. pose proof (qok_ticks q Hok).
    rewrite (tick_within_quantum _ c); [|apply set_ticks_ok; [done|lia]|done|cbn; lia].
    unfold set_ticks. cbn. f_equal. lia.
Qed.

Lemma fair_ticks i q c th n :
  queue_ok q → current q = Some c → runnable q !! i = Some th →
  Z.of_nat n = quantum_ticks q * (Z.of_nat i + 1) - ticks_in_quantum q →
  current (Nat.iter n tick_state q) = Some th.
Proof.
  revert q c n. induction i as [|i IH]; intros q c n Hok Hc Hi Hn;
    pose proof (qok_ticks q Hok) as Ht; destruct (runnable q) as [|next rest] eqn:Hr; try done.
  - destruct n as [|n]; [nia|]. rewrite Nat.iter_succ, (ticks_within_quantum n q c) by (done || lia).
    destruct (tick_at_quantum (set_ticks (ticks_in_quantum q + Z.of_nat n) q) c next rest)
      as (_ & -> & _); [apply set_ticks_ok; [done|lia]|done|done|cbn; lia|]. done.
  - set (k := Z.to_nat (quantum_ticks q - ticks_in_quantum q - 1)).
    assert (∃ j, n = (j + S k)%nat ∧ Z.of_nat j = quantum_ticks q * (Z.of_nat i + 1)) as (j & -> & Hj).
    { exists (Z.to_nat (quantum_ticks q * (Z.of_nat i + 1))). nia. }
    rewrite Nat.iter_add, Nat.iter_succ, (ticks_within_quantum k q c) by (done || lia).
    destruct (tick_at_quantum (set_ticks (ticks_in_quantum q + Z.of_nat k) q) c next rest)
      as (Hok' & Hc' & Hr' & Ht' & Hq'); [apply set_ticks_ok; [done|lia]|done|done|cbn; lia|].
    apply (IH _ next); [done|done| |].
    + rewrite Hr'. cbn in Hi. apply lookup_app_l_Some. exact Hi.
    + rewrite Hq', Ht'. cbn. lia.
Qed.

(** [tick(cpu)] called [n] times, keeping the state. *)
Definition ticks (cpu : CpuId) (n : nat) (s : SmpRoundRobin) : SmpRoundRobin :=
  Nat.iter n (λ s, (tick cpu s).2) s.

Lemma ticks_queue c n s q :
  inv s → mask_contains (online_mask s) c = true → queues s !! c = Some q →
  queues (ticks c n s) !! c = Some (Nat.iter n tick_state q) ∧
  inv (ticks c n s) ∧ online_mask (ticks c n s) = online_mask s.
Proof.
  intros Hi Hc Hq. unfold ticks. induction n as [|n (IHq & IHi & IHo)]; [done|].
  rewrite !Nat.iter_succ. set (s1 := Nat.iter n _ s) in *. set (q1 := Nat.iter n _ q) in *.
  pose proof (tick_spec c s1 IHi) as Hspec. unfold wp in Hspec.
  assert (tick c s1 = (Ok (queue_tick q1).1, set_queues (<[c := tick_state q1]> (queues s1)) s1)) as Ht.
  { unfold tick, mbind, M_bind, reads, queue, at_queue. rewrite IHo, Hc, IHq. cbn.
    unfold tick_state. by destruct (queue_tick q1). }
  rewrite Ht in Hspec |- *. cbn. destruct Hspec as (? & _). split_and!; [|done|done].
  apply list_lookup_insert_eq. by eapply lookup_lt_Some.
Qed.

(** C20. Round-robin fairness: on an online CPU whose queue holds a thread at
    position [i], that thread is running after exactly the timer ticks that
    complete the current quantum and [i] further ones, [quantum * (i + 1)] less
    those already spent.  No thread waits longer than its turn. *)
Theorem tick_fairness s c q cur i th n :
  inv s → mask_contains (online_mask s) c = true → queues s !! c = Some q →
  current q = Some cur → runnable q !! i = Some th →
  Z.of_nat n = quantum_ticks q * (Z.of_nat i + 1) - ticks_in_quantum q →
  running (ticks c n s) c = Some th.
Proof.
  intros Hi Hc Hq Hcur Hth Hn. destruct (inv_agrees s Hi c q Hq) as [Hok _].
  destruct (ticks_queue c n s q Hi Hc Hq) as [Hq' _]. unfold running. rewrite Hq'.
  cbn. by eapply fair_ticks.
Qed.

(** ** Rebalancing *)

(** C22. A rebalance plan is sound and optimal: it moves a runnable thread from
    one eligible CPU to an eligible CPU of its affinity set with at least two
    threads less, no admissible move bridges a larger imbalance, among equal
    ones it is the first in CPU order, and the running thread is picked only if
    no waiting thread may move.  No plan means no admissible move; the call
    fails only for an empty or partly offline CPU set. *)
Theorem rebalance_plan_optimal s m :
  inv s → is_u64 m →
  match rebalance_plan s m with
  | Ok (Some p) => proposal s m p ∧ spares_current s p ∧
      ∀ p', proposal s m p' →
        (plan_imbalance p' ≤ plan_imbalance p)%nat ∧
        (plan_imbalance p' = plan_imbalance p →
         ¬ lex_lt (rp_from p') (rp_to p') (rp_from p) (rp_to p))
  | Ok None => ∀ p', ¬ proposal s m p'
  | Err e => e = EmptyAffinity ∧ m = 0 ∨ e = AffinityOutsideTopology ∧ ¬ mask_sub m (online_mask s)
  | Abort => False
  end.
Proof.
  intros Hi Hm. pose proof (rebalance_plan_spec s m Hi Hm) as Hspec. unfold rebalance_plan in *.
  pose proof (validate_affinity_spec s m Hi Hm) as Hv.
  destruct (validate_affinity s m) as [[]|e|]; [|done..]. destruct Hv as [Hsub _].
  assert (∀ p, proposal s m p → lex_lt (rp_from p) (rp_to p) (length (queues s)) 0) as Hall.
  { intros p (Hf & _). left. by apply (inv_online s Hi), Hsub. }
  cbn in *. destruct (rebalance_outer _ _ _ _) as [[p|]|e|]; cbn in Hspec; [|naive_solver|done|done].
  destruct Hspec as (Hp & Hsp & _ & Hmax). split_and!; [done..|]. intros p' Hp'.
  destruct (Hmax p' Hp' (Hall p' Hp')) as [Hle Hlex]. split; [done|]. intros Heq Hl%Hlex. lia.
Qed.

(** The sum of squared loads, which every applied plan lowers. *)
Definition energy (s : SmpRoundRobin) : Z :=
  zsum (λ q, Z.of_nat (queue_load q) * Z.of_nat (queue_load q)) (queues s).

Lemma energy_nonneg s : 0 ≤ energy s.
Proof. apply zsum_nonneg. intros q _. nia. Qed.

Lemma relocates_loads th c d sw1 sw2 qs qs' qc qd :
  relocates th c d sw1 sw2 qs qs' → c ≠ d → qs !! c = Some qc → qs !! d = Some qd →
  ∃ qc' qd', qs' = <[d := qd']> (<[c := qc']> qs) ∧
    queue_load qc = S (queue_load qc') ∧ queue_load qd' = S (queue_load qd).
Proof.
  intros (qs1 & (q1 & q1' & Hq1 & [Hm1 _] & ->) & (q2 & q2' & Hq2 & [Hm2 _] & ->)) Hne Hc Hd.
  rewrite list_lookup_insert_ne in Hq2 by done. simplify_eq. exists q1', q2'.
  rewrite <- !length_members, Hm1, Hm2. done.
Qed.

(** Applying a plan succeeds, evens the two loads without inverting them and
    lowers the energy. *)
Lemma apply_plan s m p :
  inv s → mask_sub m (online_mask s) → proposal s m p →
  ∃ r s', migrate_with_transition (rp_thread p) (rp_to p) s = (Ok r, s') ∧ inv s' ∧
    online_mask s' = online_mask s ∧ pl_migrated (mg_placement r) = true ∧
    load s (rp_from p) = S (load s' (rp_from p)) ∧ load s' (rp_to p) = S (load s (rp_to p)) ∧
    (load s' (rp_to p) ≤ load s' (rp_from p))%nat ∧ energy s' + 2 ≤ energy s.
Proof.
  intros Hi Hm (Hf & Ht & Hne & _ & _ & Hlt & a & Ha & Hath & Hmov).
  unfold movable in Hmov. apply andb_true_iff in Hmov as [[Hst Hcpu]%andb_true_iff Haff]. bool_simpl.
  assert (assignment s (rp_thread p) = Some a) as Hass
    by (apply find_assignment; [apply (inv_threads s Hi)|done]).
  pose proof (migrate_with_transition_spec (rp_thread p) (rp_to p) s Hi) as Hspec. unfold wp in Hspec.
  destruct (migrate_with_transition _ _ s) as [[r|e|] s']; [| |done].
  2:{ destruct Hspec as [_ [[_ Hx]|[[_ Hx]|(_ & b & Hx & Hy)]]]; [|congruence..].
      by rewrite (Hm _ Ht) in Hx. }
  destruct Hspec as (Hi' & a' & Ha' & _ & Hrel). simplify_eq.
  rewrite decide_False in Hrel by congruence. destruct Hrel as (_ & Hpl & Hon & Hrel).
  rewrite decide_True in Hrel by done. destruct Hrel as [_ Hrel]. rewrite Hcpu in Hrel. cbn in Hrel.
  destruct (online_queue s _ Hi (Hm _ Hf)) as [qc Hqc].
  destruct (online_queue s _ Hi (Hm _ Ht)) as [qd Hqd].
  destruct (relocates_loads _ _ _ _ _ _ _ qc qd Hrel Hne Hqc Hqd) as (qc' & qd' & Hqs & Hl1 & Hl2).
  assert (load s' (rp_from p) = queue_load qc' ∧ load s' (rp_to p) = queue_load qd') as [Hlc Hld].
  { pose proof (lookup_lt_Some _ _ _ Hqc). pose proof (lookup_lt_Some _ _ _ Hqd).
    unfold load. rewrite Hqs. split.
    - by rewrite list_lookup_insert_ne, list_lookup_insert_eq.
    - by rewrite list_lookup_insert_eq by (by rewrite length_insert). }
  assert (load s (rp_from p) = queue_load qc ∧ load s (rp_to p) = queue_load qd) as [Hc Hd]
    by (unfold load; by rewrite Hqc, Hqd).
  exists r, s'. rewrite Hlc, Hld, Hc, Hd in *. split_and!; try done; [by rewrite Hpl|lia|].
  unfold energy. rewrite Hqs, (zsum_insert _ _ _ qd), (zsum_insert _ _ _ qc);
    [nia|done|by rewrite list_lookup_insert_ne].
Qed.

(** Apply plans until none is left, as repeated rebalance passes do. *)
Fixpoint settle (fuel : nat) (m : CpuMask) (s : SmpRoundRobin) : SmpRoundRobin :=
  match fuel with
  | O => s
  | S fuel =>
      match rebalance_plan s m with
      | Ok (Some p) => settle fuel m (migrate_with_transition (rp_thread p) (rp_to p) s).2
      | _ => s
      end
  end.

Lemma rebalance_plan_cases s m :
  inv s → is_u64 m → m ≠ 0 → mask_sub m (online_mask s) →
  (∃ p, rebalance_plan s m = Ok (Some p) ∧ proposal s m p) ∨
  (rebalance_plan s m = Ok None ∧ ∀ p, ¬ proposal s m p).
Proof.
  intros Hi Hm Hm0 Hsub. pose proof (rebalance_plan_spec s m Hi Hm) as Hspec.
  destruct (rebalance_plan s m) as [[p|]|e|]; cbn in Hspec; [| |naive_solver|done].
  - left. exists p. split; [done|]. apply Hspec.
  - right. split; [done|]. intros p Hp. apply (Hspec p Hp). left. apply (inv_online s Hi), Hsub, Hp.
Qed.

Lemma no_proposal_balanced s m :
  inv s → (∀ p, ¬ proposal s m p) →
  ∀ th a c d, assignment s th = Some a → a_state a = ARunnable → a_cpu a = c →
    mask_contains m c = true → mask_contains m d = true → mask_contains (a_affinity a) d = true →
    (load s c ≤ load s d + 1)%nat.
Proof.
  intros Hi Hno th a c d [Ha Hth]%find_assignment Hst Hc Hmc Hmd Hd; [|apply (inv_threads s Hi)].
  destruct (decide (load s c ≤ load s d + 1)%nat) as [|Hgt]; [done|]. exfalso.
  apply (Hno {| rp_thread := th; rp_from := c; rp_to := d; rp_source_load := load s c;
                rp_destination_load := load s d |}).
  split_and!; cbn; try done; [intros ->; lia|lia|]. exists a. split_and!; [done..|].
  unfold movable. by rewrite !bool_decide_eq_true_2, Hd.
Qed.

(** C21. Rebalancing cannot ping-pong: repeated passes over an online CPU set
    stop within half the sum of the squared loads, and then no eligible CPU
    carries two threads more than another that one of its threads may run on. *)
Theorem rebalance_settles s m fuel :
  inv s → is_u64 m → m ≠ 0 → mask_sub m (online_mask s) → energy s ≤ 2 * Z.of_nat fuel →
  let s' := settle fuel m s in
  inv s' ∧ rebalance_plan s' m = Ok None ∧
  ∀ th a c d, assignment s' th = Some a → a_state a = ARunnable → a_cpu a = c →
    mask_contains m c = true → mask_contains m d = true → mask_contains (a_affinity a) d = true →
    (load s' c ≤ load s' d + 1)%nat.
Proof.
  intros Hi Hm Hm0. revert s Hi. induction fuel as [|fuel IH]; intros s Hi Hsub He; cbn.
  all: destruct (rebalance_plan_cases s m Hi Hm Hm0 Hsub) as [(p & Hp & Hprop)|[Hnone Hno]].
  - destruct (apply_plan s m p Hi Hsub Hprop) as (r & s1 & _ & _ & _ & _ & _ & _ & _ & Hen).
    pose proof (energy_nonneg s1). lia.
  - split_and!; [done..|]. by apply no_proposal_balanced.
  - destruct (apply_plan s m p Hi Hsub Hprop) as (r & s1 & Hmig & Hi1 & Hon & _ & _ & _ & _ & Hen).
    rewrite Hp, Hmig. cbn [snd]. apply IH; [done|by rewrite Hon|lia].
  - rewrite Hnone. split_and!; [done..|]. by apply no_proposal_balanced.
Qed.

(** ** Witnesses *)

(** Four CPUs, all but the last online; six threads, five of them bound to CPU 0
    at first, two of which may spread. *)
Definition demo_ops : list op :=
  [OAdmit 1 1; OAdmit 2 1; OAdmit 3 1; OAdmit 4 1; OAdmit 5 7; OBlock 2; OWake 2; OTick 0;
   OSetAffinity 1 7; OSetAffinity 3 7; OOnline 3; OYield 0; OMigrate 4 2; ORemove 9].

Definition demo_start : SmpRoundRobin :=
  match with_online_mask 4 2 7 with Ok s => s | _ => set_queues [] {| queues := []; assignments := []; online_mask := 0 |} end.

Definition demo : SmpRoundRobin := history demo_ops demo_start.

Lemma demo_ops_typed : Forall op_typed demo_ops.
Proof. repeat constructor; by vm_compute. Qed.

Lemma demo_start_ok : with_online_mask 4 2 7 = Ok demo_start.
Proof. by vm_compute. Qed.

Lemma scheduler_invariant_witness :
  runnable <$> queues demo = [[4; 2; 1]; []; []; []] ∧
  current <$> queues demo = [Some 3; Some 5; None; None] ∧
  wp (exec (OMigrate 1 2)) (λ _ s', inv s')
    (λ e s', s' = demo ∧ error_ok (OMigrate 1 2) demo e) demo.
Proof.
  split_and!; [by vm_compute|by vm_compute|].
  pose proof (scheduler_invariant 4 2 7 demo_start demo_ops ltac:(by vm_compute)
    ltac:(by vm_compute) demo_start_ok demo_ops_typed) as (_ & _ & _ & _ & H).
  exact (H (OMigrate 1 2) I).
Defined.

Lemma sched_demo_inv : inv demo.
Proof.
  apply (history_wf (HM := scheduler_machine) 0 demo_ops demo_start demo_ops_typed).
  pose proof (with_online_mask_spec 4 2 7 ltac:(by vm_compute) ltac:(by vm_compute)) as H.
  rewrite demo_start_ok in H. by destruct H as [? _].
Qed.

Lemma tick_fairness_witness : running (ticks 0 6 demo) 0 = Some 1.
Proof.
  eapply (tick_fairness demo 0 _ 3 2 1 6 sched_demo_inv); by vm_compute.
Defined.

Lemma rebalance_plan_optimal_witness :
  ∃ p, rebalance_plan demo 7 = Ok (Some p) ∧ rp_thread p = 1 ∧ rp_from p = 0%nat ∧ rp_to p = 2%nat ∧
    proposal demo 7 p.
Proof.
  pose proof (rebalance_plan_optimal demo 7 sched_demo_inv ltac:(by vm_compute)) as H.
  destruct (rebalance_plan demo 7) as [[p|]|e|] eqn:E; try (by vm_compute in E).
  exists p. split; [done|]. destruct H as [Hp _].
  assert (Some (rp_thread p, rp_from p, rp_to p) = Some (1, 0%nat, 2%nat)) as Heq.
  { vm_compute in E. by injection E as <-. }
  injection Heq as Ht Hf Hd. exact (conj Ht (conj Hf (conj Hd Hp))).
Defined.

Lemma rebalance_settles_witness :
  rebalance_plan (settle 9 7 demo) 7 = Ok None ∧ load (settle 9 7 demo) 0 = 2%nat.
Proof.
  split; [|by vm_compute].
  apply (rebalance_settles demo 7 9 sched_demo_inv); [by vm_compute|done| |by vm_compute].
  intros c. assert (online_mask demo = 15) as -> by by vm_compute.
  rewrite !mask_contains_testbit. change 7 with (Z.ones 3). change 15 with (Z.ones 4).
  rewrite !Z.testbit_ones_nonneg, !Z.ltb_lt by lia. lia.
Defined.
