(* ===== verification/Slots.v ===== *)
(** * Slots: what the scheduler promises to its coordinator

    The abstract scheduler of smp_execution.rs: a thread is queued, on a CPU or
    parked, and a call reports the switches that put threads on CPUs.  The
    lemmas show that the calls of [Scheduling] implement this contract, which is
    all the coordinator relies on. *)

From stdpp Require Import functions base list numbers option sets.
From Stdlib Require Import ZArith Lia.
From S2P Require Import Prelude Scheduling.

Inductive Slot := Queued | OnCpu | Parked.
#[export] Instance Slot_eq_dec : EqDecision Slot.
Proof. solve_decision. Defined.

Abbreviation slots := (ThreadId → option Slot).

(** The slots of queues [qs] under assignments [asg]. *)
Definition slot_in (asg : ThreadId → option Assignment) (qs : list RoundRobin) : slots := λ th,
  a ← asg th;
  Some (if decide (a_state a = ARunnable)
        then if decide (qs !! a_cpu a ≫= current = Some th) then OnCpu else Queued
        else Parked).

Definition slot (s : SmpRoundRobin) : slots := slot_in (assignment s) (queues s).

Definition place_in (asg : ThreadId → option Assignment) (th : ThreadId) : option CpuId :=
  asg th ≫= a_place.

(** A reported switch moves a queued thread onto a CPU. *)
Definition fires (sw : option Switch) (f f' : slots) : Prop :=
  match sw with
  | None => ∀ t, f' t = f t
  | Some w => f (sw_to w) = Some Queued ∧ ∀ t, f' t = <[sw_to w := Some OnCpu]> f t
  end.

(** A rotation also sends the running thread back to its queue. *)
Definition turns (sw : option Switch) (f f' : slots) : Prop :=
  match sw with
  | None => ∀ t, f' t = f t
  | Some w => ∃ c, sw_from w = Some c ∧ f c = Some OnCpu ∧ fires sw (<[c := Some Queued]> f) f'
  end.

(** A migration off the CPU a thread runs on queues it before the switches. *)
Definition migrates (th : ThreadId) (r : MigrationResult) (f f' : slots) : Prop :=
  ∃ g, (if mg_source_was_current r
        then f th = Some OnCpu ∧ fires (mg_source_switch r) (<[th := Some Queued]> f) g
        else ∀ t, g t = f t) ∧
       fires (mg_destination_switch r) g f'.

Lemma fires_ext sw f g f' g' :
  (∀ t, f t = g t) → (∀ t, f' t = g' t) → fires sw f f' → fires sw g g'.
Proof.
  intros Hf Hf'. unfold fires. destruct sw as [w|].
  - intros [Hq Hall]. split; [by rewrite <- Hf|]. intros t. rewrite <- Hf', Hall.
    destruct (decide (sw_to w = t)) as [->|]; [by rewrite !fn_lookup_insert|].
    by rewrite !fn_lookup_insert_ne by done.
  - intros Hall t. by rewrite <- Hf', Hall, Hf.
Qed.

(** *** Threads of a queue *)

Lemma member_slot asg qs c q th :
  agrees qs (place_in asg) → qs !! c = Some q → th ∈ members q →
  ∃ a, asg th = Some a ∧ a_state a = ARunnable ∧ a_cpu a = c.
Proof.
  intros Ha Hq Hm. destruct (Ha c q Hq) as [_ Hmem]. apply Hmem in Hm.
  unfold place_in in Hm. destruct (asg th) as [a|]; [|done]. cbn in Hm. unfold a_place in Hm.
  case_decide; [|done]. injection Hm as <-. eauto.
Qed.

Lemma slot_in_running asg qs th a :
  asg th = Some a → a_state a = ARunnable →
  slot_in asg qs th = Some (if decide (qs !! a_cpu a ≫= current = Some th) then OnCpu else Queued).
Proof. intros Ha Hr. unfold slot_in. rewrite Ha. cbn. by rewrite decide_True. Qed.

Lemma slot_in_parked asg qs th a :
  asg th = Some a → a_state a ≠ ARunnable → slot_in asg qs th = Some Parked.
Proof. intros Ha Hr. unfold slot_in. rewrite Ha. cbn. by rewrite decide_False. Qed.

(** A thread keeps its slot when its assignment does and its CPU keeps running
    or not running it. *)
Lemma slot_in_ext asg asg' qs qs' th :
  asg' th = asg th →
  (∀ a, asg th = Some a → a_state a = ARunnable →
     qs' !! a_cpu a ≫= current = Some th ↔ qs !! a_cpu a ≫= current = Some th) →
  slot_in asg' qs' th = slot_in asg qs th.
Proof.
  intros Heq Hrun. unfold slot_in. rewrite Heq. destruct (asg th) as [a|] eqn:Ha; [|done].
  cbn. destruct (decide (a_state a = ARunnable)) as [Hr|]; [|done].
  by rewrite (decide_ext _ _ _ _ (Hrun a eq_refl Hr)).
Qed.

(** *** Steps of one queue *)

Lemma dequeue_fires asg asg' qs qs' c th a sw :
  agrees qs (place_in asg) → asg th = Some a → a_place a = Some c →
  (∀ t, t ≠ th → asg' t = asg t) →
  queue_step c (λ q q', dequeues th q sw q') qs qs' →
  fires sw (<[th := slot_in asg' qs' th]> (slot_in asg qs)) (slot_in asg' qs').
Proof.
  intros Hag Ha Hpl Hoth Hst.
  pose proof (λ d, queue_step_lookup_ne c _ qs qs' d Hst) as Hne.
  destruct (queue_step_lookup _ _ _ _ Hst) as (q & q' & Hq & Hq' & _ & Hd).
  destruct (decide (current q = Some th)) as [Hcur|Hcur]; destruct Hd as (Hc' & Hrest).
  - destruct Hrest as [_ ->].
    assert (∀ t, t ≠ th → current q' ≠ Some t → slot_in asg' qs' t = slot_in asg qs t) as Hsame.
    { intros t Ht Hto. apply slot_in_ext; [by apply Hoth|]. intros b _ _.
      destruct (decide (a_cpu b = c)) as [->|Hc]; [|by rewrite Hne].
      rewrite Hq, Hq'. cbn. rewrite Hcur. naive_solver. }
    destruct (head (runnable q)) as [to|] eqn:Hh; cbn.
    + assert (to ∈ runnable q) as Hin by (destruct (runnable q); [done|]; injection Hh as ->; by left).
      destruct (member_slot asg qs c q to) as (b & Hb0 & Hbr & Hbc); [done..| |].
      { apply elem_of_members. by right. }
      assert (to ≠ th) as Hto.
      { intros ->. destruct (Hag c q Hq) as [[Hnd _ _ _] _]. unfold members in Hnd.
        rewrite Hcur in Hnd. by apply NoDup_cons in Hnd as [? _]. }
      assert (asg' to = Some b) as Hb by (by rewrite Hoth). split.
      * rewrite fn_lookup_insert_ne, (slot_in_running _ _ _ b), Hbc, Hq by done. cbn.
        rewrite decide_False; [done|congruence].
      * intros t. destruct (decide (to = t)) as [<-|Htt].
        { rewrite fn_lookup_insert, (slot_in_running _ _ _ b), Hbc, Hq' by done. cbn.
          by rewrite decide_True. }
        rewrite fn_lookup_insert_ne by done.
        destruct (decide (th = t)) as [<-|Ht]; [by rewrite fn_lookup_insert|].
        rewrite fn_lookup_insert_ne by done. apply Hsame; congruence.
    + intros t. destruct (decide (th = t)) as [<-|Ht]; [by rewrite fn_lookup_insert|].
      rewrite fn_lookup_insert_ne by done. apply Hsame; congruence.
  - subst sw. intros t. destruct (decide (th = t)) as [<-|Ht]; [by rewrite fn_lookup_insert|].
    rewrite fn_lookup_insert_ne by done. apply slot_in_ext; [by apply Hoth|]. intros b _ _.
    destruct (decide (a_cpu b = c)) as [->|Hc]; [|by rewrite Hne].
    rewrite Hq, Hq'. cbn. by rewrite Hc'.
Qed.

Lemma enqueue_fires asg asg' qs qs' c th a sw :
  agrees qs' (place_in asg') → asg' th = Some a → a_place a = Some c →
  (∀ t, t ≠ th → asg' t = asg t) →
  queue_step c (λ q q', enqueues th q sw q') qs qs' →
  fires sw (<[th := Some Queued]> (slot_in asg qs)) (slot_in asg' qs').
Proof.
  intros Hag' Ha Hpl Hoth Hst.
  assert (a_state a = ARunnable ∧ a_cpu a = c) as [Har Hac].
  { unfold a_place in Hpl. case_decide; naive_solver. }
  pose proof (λ d, queue_step_lookup_ne c _ qs qs' d Hst) as Hne.
  destruct (queue_step_lookup _ _ _ _ Hst) as (q & q' & Hq & Hq' & Hm & Hd).
  assert (∀ t, t ≠ th → (∀ x, current q = Some x → current q' = Some x) →
    (current q = None → current q' = Some th) → slot_in asg' qs' t = slot_in asg qs t) as Hsame.
  { intros t Ht H1 H2. apply slot_in_ext; [by apply Hoth|]. intros b _ _.
    destruct (decide (a_cpu b = c)) as [->|Hc]; [|by rewrite Hne]. rewrite Hq, Hq'. cbn.
    destruct (current q) as [x|]; [by rewrite (H1 x)|]. rewrite H2 by done. naive_solver. }
  destruct (current q) as [x|] eqn:Hcur.
  - destruct Hd as (Hc' & _ & ->). intros t. destruct (decide (th = t)) as [<-|Ht].
    + rewrite fn_lookup_insert, (slot_in_running _ _ _ a), Hac, Hq' by done. cbn.
      rewrite decide_False; [done|]. rewrite Hc'. intros [= ->].
      destruct (Hag' c q' Hq') as [[Hnd _ _ _] _]. rewrite Hm in Hnd.
      apply NoDup_cons in Hnd as [Hni _]. apply Hni, elem_of_members. by left.
    + rewrite fn_lookup_insert_ne by done. apply Hsame; [done|naive_solver|done].
  - destruct Hd as (Hc' & ->). split; [by rewrite fn_lookup_insert|]. cbn. intros t.
    destruct (decide (th = t)) as [<-|Ht].
    + rewrite fn_lookup_insert, (slot_in_running _ _ _ a), Hac, Hq' by done. cbn.
      by rewrite decide_True.
    + rewrite !fn_lookup_insert_ne by done. apply Hsame; [done..|naive_solver].
Qed.

Lemma rotate_turns asg qs qs' c sw :
  agrees qs (place_in asg) → queue_step c (λ q q', rotates q sw q') qs qs' →
  turns sw (slot_in asg qs) (slot_in asg qs').
Proof.
  intros Hag Hst. pose proof (λ d, queue_step_lookup_ne c _ qs qs' d Hst) as Hne.
  destruct (queue_step_lookup _ _ _ _ Hst) as (q & q' & Hq & Hq' & Hd).
  destruct sw as [w|]; cbn in Hd.
  - destruct Hd as (x & next & rest & Hcur & Hr & Hc' & _ & ->).
    destruct (member_slot asg qs c q x) as (a & Ha & Har & Hac); [done..|apply elem_of_members; by left|].
    destruct (member_slot asg qs c q next) as (b & Hb & Hbr & Hbc);
      [done..|apply elem_of_members; right; rewrite Hr; by left|].
    destruct (Hag c q Hq) as [[Hnd _ _ _] _]. unfold members in Hnd. rewrite Hcur, Hr in Hnd.
    cbn in Hnd. apply NoDup_cons in Hnd as [Hni _].
    assert (x ≠ next) as Hxn by set_solver.
    exists x. split_and!; [done| |].
    + rewrite (slot_in_running _ _ _ a), Hac, Hq by done. cbn. by rewrite decide_True.
    + split.
      * cbn. rewrite fn_lookup_insert_ne, (slot_in_running _ _ _ b), Hbc, Hq by done. cbn.
        rewrite decide_False; [done|congruence].
      * cbn. intros t. destruct (decide (next = t)) as [<-|Ht].
        { rewrite fn_lookup_insert, (slot_in_running _ _ _ b), Hbc, Hq' by done. cbn.
          by rewrite decide_True. }
        rewrite fn_lookup_insert_ne by done. destruct (decide (x = t)) as [<-|Htx].
        { rewrite fn_lookup_insert, (slot_in_running _ _ _ a), Hac, Hq' by done. cbn.
          rewrite decide_False; [done|congruence]. }
        rewrite fn_lookup_insert_ne by done. apply slot_in_ext; [done|]. intros d _ _.
        destruct (decide (a_cpu d = c)) as [->|Hc]; [|by rewrite Hne]. rewrite Hq, Hq'. cbn.
        rewrite Hcur, Hc'. naive_solver.
  - destruct Hd as [Hc' _]. intros t. apply slot_in_ext; [done|]. intros d _ _.
    destruct (decide (a_cpu d = c)) as [->|Hc]; [|by rewrite Hne]. rewrite Hq, Hq'. cbn.
    by rewrite Hc'.
Qed.

(** ** The calls as slot steps *)

Lemma slot_None s th : slot s th = None ↔ assignment s th = None.
Proof. unfold slot, slot_in. by destruct (assignment s th). Qed.

Lemma slot_runnable s th a :
  assignment s th = Some a → a_state a = ARunnable → slot s th = Some Queued ∨ slot s th = Some OnCpu.
Proof.
  intros Ha Hr. unfold slot. rewrite (slot_in_running _ _ _ a) by done. case_decide; auto.
Qed.

Lemma slot_blocked s th a : assignment s th = Some a → a_state a ≠ ARunnable → slot s th = Some Parked.
Proof. apply slot_in_parked. Qed.

Lemma assignment_others s s' th x t :
  (∀ t, assignment s' t = <[th := x]> (assignment s) t) → t ≠ th → assignment s' t = assignment s t.
Proof. intros Hall Ht. by rewrite Hall, fn_lookup_insert_ne. Qed.

Lemma block_slots th s :
  inv s →
  wp (block th)
    (λ r s', inv s' ∧ (slot s th = Some Queued ∨ slot s th = Some OnCpu) ∧
       fires (qt_switch r) (<[th := Some Parked]> (slot s)) (slot s'))
    (λ e s', s' = s ∧ (slot s th = None ∨ slot s th = Some Parked)) s.
Proof.
  intros Hi. eapply wp_mono; [by apply block_spec|..]; cbv beta.
  - intros r s' (Hi' & a & Ha & Hr & _ & _ & Hall & Hst & _).
    split_and!; [done|by eapply slot_runnable|].
    assert (assignment s' th = Some (set_a_state ABlocked a)) as Ha' by by rewrite Hall, fn_lookup_insert.
    assert (slot s' th = Some Parked) as <- by by eapply slot_blocked.
    eapply (dequeue_fires _ _ _ _ (a_cpu a) th a);
      [by apply inv_agrees|done|by apply place_runnable| |exact Hst].
    intros t. by apply (assignment_others s s' th _ t Hall).
  - intros e s' (-> & [[_ Hn]|(_ & a & Ha & Hb)]); (split; [done|]).
    + left. by apply slot_None.
    + right. apply (slot_blocked s th a Ha). by rewrite Hb.
Qed.

Lemma remove_slots th s :
  inv s →
  wp (remove th)
    (λ r s', inv s' ∧ is_Some (slot s th) ∧
       fires (qt_switch r) (<[th := None]> (slot s)) (slot s'))
    (λ e s', s' = s ∧ slot s th = None) s.
Proof.
  intros Hi. eapply wp_mono; [by apply remove_spec|..]; cbv beta.
  - intros r s' (Hi' & a & Ha & _ & _ & Hall & Hq & _).
    assert (is_Some (slot s th)) as Hsome by (unfold slot, slot_in; rewrite Ha; eauto).
    split_and!; [done..|]. assert (assignment s' th = None) as Ha' by by rewrite Hall, fn_lookup_insert.
    assert (slot s' th = None) as <- by by apply slot_None.
    pose proof (λ t, assignment_others s s' th _ t Hall) as Hoth.
    destruct (decide (a_state a = ARunnable)) as [Hr|Hr].
    + eapply (dequeue_fires _ _ _ _ (a_cpu a) th a);
        [by apply inv_agrees|done|by apply place_runnable|exact Hoth|exact Hq].
    + destruct Hq as [Hqs ->]. intros t. destruct (decide (th = t)) as [<-|Ht];
        [by rewrite fn_lookup_insert|]. rewrite fn_lookup_insert_ne by done.
      apply slot_in_ext; [by apply Hoth|]. by rewrite Hqs.
  - intros e s' (-> & _ & Hn). split; [done|]. by apply slot_None.
Qed.

Lemma wake_slots th s :
  inv s →
  wp (wake th)
    (λ r s', inv s' ∧ slot s th = Some Parked ∧
       fires (wk_switch r) (<[th := Some Queued]> (slot s)) (slot s'))
    (λ e s', s' = s ∧ slot s th ≠ Some Parked) s.
Proof.
  intros Hi. eapply wp_mono; [by apply wake_spec|..]; cbv beta.
  - intros r s' (Hi' & a & Ha & Hb & _ & _ & _ & Hall & Hst & _).
    split_and!; [done|apply (slot_blocked s th a Ha); by rewrite Hb|].
    eapply enqueue_fires; [by apply inv_agrees| | | |exact Hst].
    + by rewrite Hall, fn_lookup_insert.
    + by apply place_runnable.
    + intros t. by apply (assignment_others s s' th _ t Hall).
  - intros e s' (-> & [[_ Hn]|(_ & a & Ha & Hr)]); (split; [done|]).
    + apply slot_None in Hn. by rewrite Hn.
    + destruct (slot_runnable s th a Ha Hr) as [-> | ->]; done.
Qed.

Lemma admit_slots th m s :
  inv s → is_u64 m →
  wp (admit_with_transition th m)
    (λ r s', inv s' ∧ slot s th = None ∧ pl_thread (ad_placement r) = th ∧
       fires (ad_switch r) (<[th := Some Queued]> (slot s)) (slot s'))
    (λ e s', s' = s) s.
Proof.
  intros Hi Hm. eapply wp_mono; [by apply admit_with_transition_spec|..]; cbv beta; [|by intros ?? [-> _]].
  intros r s' (Hi' & Hn & Hth & _ & _ & Hall & Hst & _ & _).
  split_and!; [done|by apply slot_None|done|].
  eapply enqueue_fires; [by apply inv_agrees| | | |exact Hst].
  - by rewrite Hall, fn_lookup_insert.
  - by apply place_runnable.
  - intros t. by apply (assignment_others s s' th _ t Hall).
Qed.

Lemma rotation_slots (f : CpuId → M SmpRoundRobin SmpError (option Switch)) c s :
  (f = tick ∨ f = yield_current) → inv s →
  wp (f c) (λ sw s', inv s' ∧ turns sw (slot s) (slot s')) (λ e s', s' = s) s.
Proof.
  intros Hf Hi.
  eapply wp_mono; [destruct Hf as [-> | ->]; [by apply tick_spec|by apply yield_current_spec]|..];
    cbv beta; [|by intros ?? [-> _]].
  intros sw s' (Hi' & Hs' & Hst). split; [done|]. unfold slot.
  assert (assignment s' = assignment s) as Hassn by (by rewrite Hs').
  rewrite Hassn. eapply rotate_turns; [by apply inv_agrees|done].
Qed.

Lemma online_slots c s :
  inv s →
  wp (online_cpu c) (λ _ s', inv s' ∧ ∀ t, slot s' t = slot s t) (λ e s', s' = s) s.
Proof.
  intros Hi. eapply wp_mono; [by apply online_cpu_spec|..]; cbv beta; [|by intros ?? [-> _]].
  intros _ s' (Hi' & _ & _ & Hq & Ha & _). split; [done|]. intros t. unfold slot, assignment.
  by rewrite Hq, Ha.
Qed.

(** *** Migration *)

Lemma fires_requeue sw th f f' :
  fires sw (<[th := Some Parked]> f) f' →
  fires sw (<[th := Some Queued]> f) (<[th := Some Queued]> f').
Proof.
  unfold fires. destruct sw as [w|].
  - intros [Hq Hall]. destruct (decide (th = sw_to w)) as [Heq|Hne].
    { rewrite Heq, fn_lookup_insert in Hq. done. }
    rewrite fn_lookup_insert_ne in Hq by done. split; [by rewrite fn_lookup_insert_ne|].
    intros t. destruct (decide (th = t)) as [<-|Ht].
    + by rewrite fn_lookup_insert, fn_lookup_insert_ne, fn_lookup_insert by done.
    + rewrite fn_lookup_insert_ne, Hall by done. destruct (decide (sw_to w = t)) as [->|].
      * by rewrite !fn_lookup_insert.
      * by rewrite !fn_lookup_insert_ne by done.
  - intros Hall t. destruct (decide (th = t)) as [<-|Ht]; [by rewrite !fn_lookup_insert|].
    by rewrite !fn_lookup_insert_ne, Hall, fn_lookup_insert_ne by done.
Qed.

Lemma relocates_migrates th a a' r s s' :
  inv s → inv s' → assignment s th = Some a → a_state a' = a_state a →
  relocated th a a' r s s' → migrates th r (slot s) (slot s').
Proof.
  intros Hi Hi' Ha Hst (Hall & _ & _ & Hrel).
  pose proof (λ t, assignment_others s s' th _ t Hall) as Hoth.
  destruct (decide (a_state a = ARunnable)) as [Hr|Hr].
  2:{ destruct Hrel as (Hq & Hw & Hs1 & Hs2). exists (slot s). rewrite Hw, Hs2. split; [done|].
      intros t. destruct (decide (t = th)) as [->|Ht].
      - rewrite (slot_blocked s th a) by done. eapply slot_blocked; [|by rewrite Hst].
        by rewrite Hall, fn_lookup_insert.
      - apply slot_in_ext; [by apply Hoth|]. by rewrite Hq. }
  destruct Hrel as [Hw (qs1 & Hst1 & Hst2)].
  set (asg1 := <[th := Some (set_a_state ABlocked a)]> (assignment s)).
  assert (fires (mg_source_switch r) (<[th := Some Parked]> (slot s)) (slot_in asg1 qs1)) as Hf1.
  { assert (slot_in asg1 qs1 th = Some Parked) as <-
      by (eapply slot_in_parked; [by apply fn_lookup_insert|done]).
    eapply (dequeue_fires _ _ _ _ (a_cpu a) th a);
      [by apply inv_agrees|done|by apply place_runnable| |exact Hst1].
    intros t Ht. by apply fn_lookup_insert_ne. }
  assert (fires (mg_destination_switch r) (<[th := Some Queued]> (slot_in asg1 qs1)) (slot s')) as Hf2.
  { eapply (enqueue_fires _ _ _ _ _ th a'); [by apply inv_agrees| | | |exact Hst2].
    - by rewrite Hall, fn_lookup_insert.
    - apply place_runnable. by rewrite Hst.
    - intros t Ht. unfold asg1. by rewrite Hoth, fn_lookup_insert_ne. }
  exists (<[th := Some Queued]> (slot_in asg1 qs1)). split; [|done].
  destruct (queue_step_lookup _ _ _ _ Hst1) as (q & q1 & Hq & _ & _ & Hd).
  unfold running in Hw. rewrite Hq in Hw. cbn in Hw. rewrite Hw.
  assert (slot s th = Some (if decide (current q = Some th) then OnCpu else Queued)) as Hslot.
  { unfold slot. rewrite (slot_in_running _ _ _ a), Hq by done. done. }
  destruct (decide (current q = Some th)) as [Hc|Hc].
  - rewrite bool_decide_eq_true_2 by done. split; [done|]. by apply fires_requeue.
  - rewrite bool_decide_eq_false_2 by done. destruct Hd as [_ Hsw]. rewrite Hsw in Hf1. cbn in Hf1.
    intros t. destruct (decide (th = t)) as [<-|Ht]; [by rewrite fn_lookup_insert|].
    by rewrite fn_lookup_insert_ne, Hf1, fn_lookup_insert_ne by done.
Qed.

Lemma no_move_migrates th c f f' : (∀ t, f' t = f t) → migrates th (no_move th c) f f'.
Proof. intros Hf. by exists f. Qed.

Lemma set_affinity_slots th m s :
  inv s → is_u64 m →
  wp (set_affinity_with_transition th m)
    (λ r s', inv s' ∧ migrates th r (slot s) (slot s')) (λ e s', s' = s) s.
Proof.
  intros Hi Hm. eapply wp_mono; [by apply set_affinity_with_transition_spec|..]; cbv beta;
    [|by intros ?? [-> _]].
  intros r s' (Hi' & a & Ha & Hc). split; [done|]. destruct (mask_contains m (a_cpu a)).
  - destruct Hc as (-> & Hq & _ & Hall). apply no_move_migrates. intros t.
    unfold slot, slot_in. rewrite Hq, Hall. destruct (decide (th = t)) as [<-|Ht].
    + by rewrite fn_lookup_insert, Ha.
    + by rewrite fn_lookup_insert_ne.
  - destruct Hc as (c & _ & Hrel). eapply relocates_migrates; [done|done|exact Ha| |exact Hrel]. done.
Qed.

Lemma migrate_slots th c s :
  inv s →
  wp (migrate_with_transition th c)
    (λ r s', inv s' ∧ migrates th r (slot s) (slot s')) (λ e s', s' = s) s.
Proof.
  intros Hi. eapply wp_mono; [by apply migrate_with_transition_spec|..]; cbv beta;
    [|by intros ?? [-> _]].
  intros r s' (Hi' & a & Ha & _ & Hc). split; [done|]. case_decide.
  - destruct Hc as [-> ->]. by apply no_move_migrates.
  - eapply relocates_migrates; [done|done|exact Ha| |exact Hc]. done.
Qed.
