(* ===== verification/SmpExecution.v ===== *)
(** * SmpExecution: lifecycle and scheduling kept in step (kernel/src/smp_execution.rs)

    The coordinator that owns the process table and the scheduler and applies
    every transition to both. *)

From stdpp Require Import functions base list numbers option sets strings.
From Stdlib Require Import ZArith Lia.
From S2P Require Import Prelude.
From S2P Require Import Scheduling.
From S2P Require Import Slots.
From S2P Require Import ProcessModel.

Inductive ExecutionError :=
| ECreate (e : CreateError) | EState (e : StateError) | EScheduling (e : SmpError).

Record ExitResult := { er_queue : QueueTransition; er_process_exit : option ProcessExit }.
Record RebalanceResult := { rr_plan : RebalancePlan; rr_migration : MigrationResult }.

Record SmpExecution := { ex_processes : ProcessTable; ex_scheduler : SmpRoundRobin }.

Definition set_ex_processes (t : ProcessTable) (e : SmpExecution) : SmpExecution :=
  {| ex_processes := t; ex_scheduler := ex_scheduler e |}.
Definition set_ex_scheduler (s : SmpRoundRobin) (e : SmpExecution) : SmpExecution :=
  {| ex_processes := ex_processes e; ex_scheduler := s |}.

(** [self.processes.op(..)] and [self.scheduler.op(..)], with the error injected by [f]. *)
Definition procs {E F A} (f : E → F) : M ProcessTable E A → M SmpExecution F A :=
  zoom ex_processes set_ex_processes f.
Definition sched {E F A} (f : E → F) : M SmpRoundRobin E A → M SmpExecution F A :=
  zoom ex_scheduler set_ex_scheduler f.
(** [self.processes.op(..).expect(..)] *)
Definition procs_must {E F A} (m : M ProcessTable E A) : M SmpExecution F A :=
  must (procs (λ e, e) m).

Abbreviation Exec A := (M SmpExecution ExecutionError A).

Definition new (cpu_count : nat) (quantum : Z) : outcome SmpError SmpExecution :=
  s ← Scheduling.new cpu_count quantum;
  mret {| ex_processes := ProcessModel.new; ex_scheduler := s |}.

Definition with_online_mask (cpu_capacity : nat) (quantum : Z) (online : CpuMask)
    : outcome SmpError SmpExecution :=
  s ← Scheduling.with_online_mask cpu_capacity quantum online;
  mret {| ex_processes := ProcessModel.new; ex_scheduler := s |}.

(** ** Private helpers *)

Definition thread_state (e : SmpExecution) (thread : ThreadId) : outcome ExecutionError ThreadState :=
  th ← map_err (λ _, EState InvalidThread) (thread_snapshot (ex_processes e) thread);
  mret (t_state th).

Definition require_state (e : SmpExecution) (thread : ThreadId) (allowed : list ThreadState)
    : outcome ExecutionError unit :=
  state ← thread_state e thread;
  if bool_decide (state ∈ allowed) then mret () else Err (EState InvalidTransition).

Definition require_active (e : SmpExecution) (thread : ThreadId) : outcome ExecutionError unit :=
  state ← thread_state e thread;
  if bool_decide (state = Exited) then Err (EState InvalidTransition) else mret ().

Definition activate {F} (switch : option Switch) : M SmpExecution F unit :=
  match switch with
  | None => mret ()
  | Some w => procs_must (run_thread (sw_to w))
  end.

Definition rotate {F} (switch : option Switch) : M SmpExecution F unit :=
  match switch with
  | None => mret ()
  | Some w =>
      from ← lift (expect (sw_from w));
      _ ← procs_must (yield_thread from);
      procs_must (run_thread (sw_to w))
  end.

Definition apply_migration {F} (thread : ThreadId) (migration : MigrationResult)
    : M SmpExecution F unit :=
  _ ← (if mg_source_was_current migration
       then _ ← procs_must (yield_thread thread); activate (mg_source_switch migration)
       else mret ());
  activate (mg_destination_switch migration).

(** ** Creation *)

Definition online_cpu (cpu : CpuId) : M SmpExecution SmpError bool :=
  sched (λ e, e) (Scheduling.online_cpu cpu).

Definition create_process (parent : option ProcessId) : M SmpExecution CreateError ProcessId :=
  procs (λ e, e) (ProcessModel.create_process parent).

(** [match self.scheduler.admit_with_transition(..) { Ok(a) => a, Err(e) => roll back }] *)
Definition admit_or_rollback (thread : ThreadId) (affinity : CpuMask) : Exec AdmissionResult :=
  try_catch (sched (λ e, e) (admit_with_transition thread affinity))
    mret
    (λ error : SmpError,
       _ ← procs_must (rollback_thread_creation thread); lift (Err (EScheduling error))).

Definition create_thread (process : ProcessId) (name : string) (affinity : CpuMask)
    : Exec AdmissionResult :=
  _ ← reads (λ e, map_err ECreate (validate_thread_creation (ex_processes e) process));
  _ ← reads (λ e, map_err EScheduling (validate_admission (ex_scheduler e) affinity));
  thread ← procs ECreate (ProcessModel.create_thread process name);
  admission ← admit_or_rollback thread affinity;
  _ ← activate (ad_switch admission);
  mret admission.

Definition create_thread_with_id (process : ProcessId) (thread : ThreadId) (name : string)
    (affinity : CpuMask) : Exec AdmissionResult :=
  _ ← reads (λ e, map_err ECreate (validate_thread_creation (ex_processes e) process));
  _ ← reads (λ e, map_err EScheduling (validate_admission (ex_scheduler e) affinity));
  _ ← procs ECreate (ProcessModel.create_thread_with_id process thread name);
  admission ← admit_or_rollback thread affinity;
  _ ← activate (ad_switch admission);
  mret admission.

(** ** Scheduling *)

Definition tick (cpu : CpuId) : Exec (option Switch) :=
  switch ← sched EScheduling (Scheduling.tick cpu);
  _ ← rotate switch;
  mret switch.

Definition yield_current (cpu : CpuId) : Exec (option Switch) :=
  switch ← sched EScheduling (Scheduling.yield_current cpu);
  _ ← rotate switch;
  mret switch.

Definition block_thread (thread : ThreadId) : Exec QueueTransition :=
  _ ← reads (λ e, require_state e thread [Runnable; Running]);
  transition ← sched EScheduling (block thread);
  _ ← procs_must (ProcessModel.block_thread thread);
  _ ← activate (qt_switch transition);
  mret transition.

Definition sleep_thread (thread : ThreadId) : Exec QueueTransition :=
  _ ← reads (λ e, require_state e thread [Runnable; Running]);
  transition ← sched EScheduling (block thread);
  _ ← procs_must (ProcessModel.sleep_thread thread);
  _ ← activate (qt_switch transition);
  mret transition.

Definition wake_thread (thread : ThreadId) : Exec (option WakeResult) :=
  state ← reads (λ e, thread_state e thread);
  match state with
  | Blocked | Sleeping =>
      w ← sched EScheduling (wake thread);
      _ ← procs_must (ProcessModel.wake_thread thread);
      _ ← activate (wk_switch w);
      mret (Some w)
  | Stopped => _ ← procs EState (ProcessModel.wake_thread thread); mret None
  | Runnable | Running | Exited => lift (Err (EState InvalidTransition))
  end.

Definition stop_thread (thread : ThreadId) : Exec (option QueueTransition) :=
  state ← reads (λ e, thread_state e thread);
  transition ← match state with
    | Runnable | Running => r ← sched EScheduling (block thread); mret (Some r)
    | Blocked | Sleeping => mret None
    | Stopped | Exited => lift (Err (EState InvalidTransition))
    end;
  _ ← procs_must (ProcessModel.stop_thread thread);
  _ ← match transition with Some r => activate (qt_switch r) | None => mret () end;
  mret transition.

Definition continue_thread (thread : ThreadId) : Exec (option WakeResult) :=
  _ ← reads (λ e, require_state e thread [Stopped]);
  resume_state ← reads (λ e, expect
    match thread_snapshot (ex_processes e) thread with Ok th => t_resume th | _ => None end);
  w ← (if bool_decide (resume_state = Runnable)
       then r ← sched EScheduling (wake thread); mret (Some r) else mret None);
  continued_state ← procs_must (ProcessModel.continue_thread thread);
  _ ← lift (if bool_decide (continued_state = resume_state) then mret () else Abort);
  _ ← match w with Some r => activate (wk_switch r) | None => mret () end;
  mret w.

Definition set_affinity (thread : ThreadId) (affinity : CpuMask) : Exec MigrationResult :=
  _ ← reads (λ e, require_active e thread);
  migration ← sched EScheduling (set_affinity_with_transition thread affinity);
  _ ← apply_migration thread migration;
  mret migration.

Definition migrate (thread : ThreadId) (destination : CpuId) : Exec MigrationResult :=
  _ ← reads (λ e, require_active e thread);
  migration ← sched EScheduling (migrate_with_transition thread destination);
  _ ← apply_migration thread migration;
  mret migration.

Definition rebalance_once (eligible : CpuMask) : Exec (option RebalanceResult) :=
  plan ← reads (λ e, map_err EScheduling (rebalance_plan (ex_scheduler e) eligible));
  match plan with
  | None => mret None
  | Some plan =>
      migration ← migrate (rp_thread plan) (rp_to plan);
      mret (Some {| rr_plan := plan; rr_migration := migration |})
  end.

(** ** Exit *)

Definition exit_thread (thread : ThreadId) (status : Z) : Exec ExitResult :=
  state ← reads (λ e, thread_state e thread);
  _ ← lift (err_if (bool_decide (state = Exited)) (EState InvalidTransition));
  queue ← sched EScheduling (remove thread);
  process_exit ← procs_must (ProcessModel.exit_thread thread status);
  _ ← activate (qt_switch queue);
  mret {| er_queue := queue; er_process_exit := process_exit |}.

Definition detach_thread (thread : ThreadId) : M SmpExecution StateError unit :=
  procs (λ e, e) (ProcessModel.detach_thread thread).
Definition join_thread (thread : ThreadId) : M SmpExecution JoinError ThreadExit :=
  procs (λ e, e) (ProcessModel.join_thread thread).
Definition reap_process (process : ProcessId) : M SmpExecution ReapError ProcessExit :=
  procs (λ e, e) (ProcessModel.reap_process process).
Definition orphan_process_children (process : ProcessId) : M SmpExecution LookupError nat :=
  procs (λ e, e) (orphan_children process).

Definition rollback_process_creation (process : ProcessId) : Exec unit :=
  threads ← reads (λ e, map_err (λ _, EState InvalidThread) (threads (ex_processes e) process));
  _ ← for_each threads (λ th,
        transition ← sched EScheduling (remove (t_id th));
        activate (qt_switch transition));
  procs EState (ProcessModel.rollback_process_creation process).

(** ** Invariant: the two models in step *)

(** The slot each lifecycle state stands for. *)
Definition status (x : ThreadState) : option Slot :=
  match x with
  | Runnable => Some Queued
  | Running => Some OnCpu
  | Blocked | Sleeping | Stopped => Some Parked
  | Exited => None
  end.

(** The slots [f] are those of the threads of [t]. *)
Definition tracks (f : slots) (t : ProcessTable) : Prop :=
  ∀ id, f id = thread t id ≫= λ th, status (t_state th).

Record inv (e : SmpExecution) : Prop := {
  inv_processes : ProcessModel.inv (ex_processes e);
  inv_scheduler : Scheduling.inv (ex_scheduler e);
  inv_tracks : tracks (slot (ex_scheduler e)) (ex_processes e);
}.

Abbreviation next_id e := (next_process_id (ex_processes e)).

Lemma tracks_ext f g t : (∀ id, f id = g id) → tracks f t → tracks g t.
Proof. intros Hfg Ht id. by rewrite <- Hfg. Qed.

Lemma tracks_threads f t t' : (∀ id, thread t' id = thread t id) → tracks f t → tracks f t'.
Proof. intros Ht Hf id. by rewrite Ht. Qed.

Lemma tracks_insert f t t' id o :
  (∀ k, thread t' k = if decide (k = id) then o else thread t k) → tracks f t →
  tracks (<[id := o ≫= λ th, status (t_state th)]> f) t'.
Proof.
  intros Ht Hf k. rewrite Ht. case_decide as Hk.
  - subst. by rewrite fn_lookup_insert.
  - by rewrite fn_lookup_insert_ne.
Qed.

Lemma wp_procs {E F A} (f : E → F) (m : M ProcessTable E A) Q R e :
  wp m (λ a t, Q a (set_ex_processes t e)) (λ x t, R (f x) (set_ex_processes t e)) (ex_processes e) →
  wp (procs f m) Q R e.
Proof. apply wp_zoom. Qed.

Lemma wp_sched {E F A} (f : E → F) (m : M SmpRoundRobin E A) Q R e :
  wp m (λ a s, Q a (set_ex_scheduler s e)) (λ x s, R (f x) (set_ex_scheduler s e)) (ex_scheduler e) →
  wp (sched f m) Q R e.
Proof. apply wp_zoom. Qed.

Lemma wp_procs_must {E F A} (m : M ProcessTable E A) Q (R : F → SmpExecution → Prop) e :
  wp m (λ a t, Q a (set_ex_processes t e)) (λ _ _, False) (ex_processes e) →
  wp (procs_must m) Q R e.
Proof. intros H. apply wp_must, wp_procs. exact H. Qed.

(** A transition of a thread whose record is known. *)
Lemma transition_ok {A} id (k : Thread → outcome StateError (Thread * A)) t th th' a :
  ProcessModel.inv t → thread t id = Some th → k th = Ok (th', a) →
  t_id th' = t_id th → t_process th' = t_process th → (thread_ok th → thread_ok th') →
  (t_state th = Exited → t_state th' = Exited) →
  wp (with_thread InvalidThread id k) (λ r t', r = a ∧ thread_changed id th th' t t')
    (λ _ _, False) t.
Proof.
  intros Hi Hth Hk Hid Hpr Hok Hex. apply with_thread_spec; [done|congruence|].
  intros i j p x Hp Hj <- Hx Hxp Hpok Hxok. assert (x = th) as -> by congruence.
  rewrite Hk. split; [done|]. apply replace_thread_changed; auto.
Qed.

(** The coordinator between its two updates: the table is well formed and follows
    the slots [f], the scheduler is untouched. *)
Record between (f : slots) (e e' : SmpExecution) : Prop := {
  bt_inv : ProcessModel.inv (ex_processes e');
  bt_tracks : tracks f (ex_processes e');
  bt_scheduler : ex_scheduler e' = ex_scheduler e;
  bt_next : next_id e' = next_id e;
  bt_shells : shell <$> processes (ex_processes e') = shell <$> processes (ex_processes e);
  bt_owner : ∀ k, t_process <$> thread (ex_processes e') k = t_process <$> thread (ex_processes e) k;
}.

Lemma tracks_state f t id x :
  tracks f t → f id = Some x → ∃ th, thread t id = Some th ∧ status (t_state th) = Some x.
Proof. intros Ht Hf. rewrite Ht in Hf. destruct (thread t id) as [th|]; [eauto|done]. Qed.

Lemma status_queued x : status x = Some Queued → x = Runnable.
Proof. by destruct x. Qed.
Lemma status_on_cpu x : status x = Some OnCpu → x = Running.
Proof. by destruct x. Qed.

(** A thread record that only changes state within the unstopped live ones. *)
Lemma set_t_state_ok x th :
  t_state th ≠ Stopped → t_state th ≠ Exited → x ≠ Stopped → x ≠ Exited →
  thread_ok th → thread_ok (set_t_state x th).
Proof.
  unfold thread_ok. cbn. destruct (t_state th), x; try done; naive_solver.
Qed.

Lemma changed_between f e id th th' t' :
  ProcessModel.inv (ex_processes e) → tracks f (ex_processes e) →
  t_process th' = t_process th → thread_changed id th th' (ex_processes e) t' →
  between (<[id := status (t_state th')]> f) e (set_ex_processes t' e).
Proof.
  intros Hi Ht Hpr [Hi' Hold Hv Hsh (Hn & _)]. split; [done| |done..|].
  - by apply (tracks_insert f (ex_processes e) t' id (Some th')).
  - intros k. cbn. rewrite Hv. case_decide as Hk; [|done]. subst. rewrite Hold. cbn. by rewrite Hpr.
Qed.

(** [run_thread] on a queued thread, [yield_thread] on a running one. *)
Lemma run_between {F} f e id (R : F → SmpExecution → Prop) :
  ProcessModel.inv (ex_processes e) → tracks f (ex_processes e) → f id = Some Queued →
  wp (procs_must (run_thread id)) (λ _ e', between (<[id := Some OnCpu]> f) e e') R e.
Proof.
  intros Hi Ht Hf. destruct (tracks_state _ _ _ _ Ht Hf) as (th & Hth & Hst%status_queued).
  apply wp_procs_must. eapply wp_mono; [eapply (transition_ok id _ _ th (set_t_state Running th) ())|..];
    try done.
  - unfold set_state_when. by rewrite Hst.
  - apply set_t_state_ok; by rewrite ?Hst.
  - cbn. by rewrite Hst.
  - intros _ t' [_ Hc]. by apply (changed_between f e id th _ t' Hi Ht) in Hc.
Qed.

Lemma yield_between {F} f e id (R : F → SmpExecution → Prop) :
  ProcessModel.inv (ex_processes e) → tracks f (ex_processes e) → f id = Some OnCpu →
  wp (procs_must (yield_thread id)) (λ _ e', between (<[id := Some Queued]> f) e e') R e.
Proof.
  intros Hi Ht Hf. destruct (tracks_state _ _ _ _ Ht Hf) as (th & Hth & Hst%status_on_cpu).
  apply wp_procs_must. eapply wp_mono; [eapply (transition_ok id _ _ th (set_t_state Runnable th) ())|..];
    try done.
  - unfold set_state_when. by rewrite Hst.
  - apply set_t_state_ok; by rewrite ?Hst.
  - cbn. by rewrite Hst.
  - intros _ t' [_ Hc]. by apply (changed_between f e id th _ t' Hi Ht) in Hc.
Qed.

Lemma between_refl f e : ProcessModel.inv (ex_processes e) → tracks f (ex_processes e) → between f e e.
Proof. by split. Qed.

Lemma between_ext f g e e' : (∀ t, g t = f t) → between f e e' → between g e e'.
Proof. intros Hfg [Hi Ht Hs Hn Hsh Ho]. split; try done. intros id. by rewrite Hfg, Ht. Qed.

Lemma between_trans f g e e1 e' : between f e e1 → between g e1 e' → between g e e'.
Proof.
  intros [_ _ Hs1 Hn1 Hsh1 Ho1] [Hi Ht Hs Hn Hsh Ho]. split; try done; congruence.
Qed.

Lemma activate_spec {F} sw f f' e (R : F → SmpExecution → Prop) :
  ProcessModel.inv (ex_processes e) → tracks f (ex_processes e) → fires sw f f' →
  wp (activate sw) (λ _ e', between f' e e') R e.
Proof.
  intros Hi Ht Hf. destruct sw as [w|]; cbn in Hf |- *.
  - destruct Hf as [Hq Hall]. eapply wp_mono; [by eapply run_between| |done].
    intros [] e' Hb. by eapply between_ext.
  - wp_steps. eapply between_ext; [done|]. by apply between_refl.
Qed.

Lemma rotate_spec {F} sw f f' e (R : F → SmpExecution → Prop) :
  ProcessModel.inv (ex_processes e) → tracks f (ex_processes e) → turns sw f f' →
  wp (rotate sw) (λ _ e', between f' e e') R e.
Proof.
  intros Hi Ht Hf. destruct sw as [w|]; cbn in Hf |- *.
  - destruct Hf as (c & Hfrom & Hc & Hq & Hall). apply wp_bind, wp_lift. rewrite Hfrom. cbn.
    apply wp_bind. eapply wp_mono; [by eapply yield_between| |done]. intros [] e1 Hb1. cbv beta.
    eapply wp_mono; [eapply run_between; [apply Hb1|apply Hb1|done]| |done]. intros [] e' Hb.
    eapply between_trans; [done|]. by eapply between_ext.
  - wp_steps. eapply between_ext; [done|]. by apply between_refl.
Qed.

Lemma apply_migration_spec {F} th r f f' e (R : F → SmpExecution → Prop) :
  ProcessModel.inv (ex_processes e) → tracks f (ex_processes e) → migrates th r f f' →
  wp (apply_migration th r) (λ _ e', between f' e e') R e.
Proof.
  intros Hi Ht (g & Hg & Hf). unfold apply_migration. apply wp_bind.
  apply (wp_mono _ (λ _ e1, between g e e1) _ R); [| |done].
  - destruct (mg_source_was_current r).
    + destruct Hg as [Hc Hg]. apply wp_bind. eapply wp_mono; [by eapply yield_between| |done].
      intros [] e1 Hb1. cbv beta. eapply wp_mono; [eapply activate_spec; [apply Hb1|apply Hb1|done]| |done].
      intros [] e' Hb. by eapply between_trans.
    + wp_steps. eapply between_ext; [done|]. by apply between_refl.
  - intros [] e1 Hb1. cbv beta. eapply wp_mono; [eapply activate_spec; [apply Hb1|apply Hb1|done]| |done].
    intros [] e' Hb. by eapply between_trans.
Qed.

(** ** Operations

    Every operation keeps the two models in step, and one that fails changes
    nothing. *)

Definition kept (e e' : SmpExecution) : Prop := inv e' ∧ next_id e' = next_id e.

Lemma set_ex_scheduler_id e : set_ex_scheduler (ex_scheduler e) e = e.
Proof. by destruct e. Qed.
Lemma set_ex_processes_id e : set_ex_processes (ex_processes e) e = e.
Proof. by destruct e. Qed.

Lemma between_kept s' e e' :
  Scheduling.inv s' → between (slot s') (set_ex_scheduler s' e) e' → kept e e'.
Proof. intros Hs [Hi Ht He Hn _ _]. cbn in *. split; [split|]; rewrite ?He; try done. Qed.

Lemma thread_state_spec e id (Q : ThreadState → Prop) (R : ExecutionError → Prop) :
  (∀ th, thread (ex_processes e) id = Some th → Q (t_state th)) →
  (thread (ex_processes e) id = None → R (EState InvalidThread)) →
  wpo (thread_state e id) Q R.
Proof.
  intros HQ HR. unfold thread_state, thread_snapshot. destruct (thread _ _); cbn; auto.
Qed.

Lemma require_state_spec e id l (Q : unit → Prop) (R : ExecutionError → Prop) :
  (∀ th, thread (ex_processes e) id = Some th → t_state th ∈ l → Q ()) →
  (∀ x, R (EState x)) → wpo (require_state e id l) Q R.
Proof.
  intros HQ HR. unfold require_state. apply wpo_bind, thread_state_spec; [|done].
  intros th Hth. case_bool_decide; [by eapply HQ|by apply HR].
Qed.

Lemma require_active_spec e id (Q : unit → Prop) (R : ExecutionError → Prop) :
  (∀ th, thread (ex_processes e) id = Some th → t_state th ≠ Exited → Q ()) →
  (∀ x, R (EState x)) → wpo (require_active e id) Q R.
Proof.
  intros HQ HR. unfold require_active. apply wpo_bind, thread_state_spec; [|done].
  intros th Hth. case_bool_decide; [by apply HR|by eapply HQ].
Qed.

Lemma slot_of_thread e id th :
  inv e → thread (ex_processes e) id = Some th → slot (ex_scheduler e) id = status (t_state th).
Proof. intros Hi Hth. by rewrite (inv_tracks e Hi), Hth. Qed.

(** The lifecycle half of an operation, with the table following the slots. *)
Definition follows (e : SmpExecution) (id : ThreadId) (x : option Slot) (t' : ProcessTable) : Prop :=
  ProcessModel.inv t' ∧ tracks (<[id := x]> (slot (ex_scheduler e))) t' ∧
  next_process_id t' = next_id e.

Lemma become_spec {A} id (k : Thread → outcome StateError (Thread * A)) th th' a e :
  inv e → thread (ex_processes e) id = Some th → k th = Ok (th', a) →
  t_id th' = t_id th → t_process th' = t_process th → (thread_ok th → thread_ok th') →
  (t_state th = Exited → t_state th' = Exited) →
  wp (with_thread InvalidThread id k)
    (λ r t', r = a ∧ follows e id (status (t_state th')) t') (λ _ _, False) (ex_processes e).
Proof.
  intros Hi Hth Hk Hid Hpr Hok Hex.
  eapply wp_mono; [by eapply (transition_ok id k _ th th' a); [apply inv_processes|..]| |done].
  intros r t' [-> Hc]. split; [done|].
  destruct (changed_between _ e id th th' t' (inv_processes e Hi) (inv_tracks e Hi) Hpr Hc). done.
Qed.

(** Threads may have changed their states; processes and owners are the same. *)
Definition same_frame (t t' : ProcessTable) : Prop :=
  shell <$> processes t' = shell <$> processes t ∧ ∀ k, t_process <$> thread t' k = t_process <$> thread t k.

(** The switch a scheduler call reported, applied last, puts the models in step. *)
Lemma finish_frame {F} sw id x e s' t' :
  Scheduling.inv s' → follows e id x t' → fires sw (<[id := x]> (slot (ex_scheduler e))) (slot s') →
  wp (activate sw) (λ _ e', kept e e' ∧ ex_scheduler e' = s' ∧ same_frame t' (ex_processes e'))
    (λ (_ : F) _, False) (set_ex_processes t' (set_ex_scheduler s' e)).
Proof.
  intros Hs' (Hit & Htr & Hn) Hf.
  eapply wp_mono; [eapply (activate_spec _ _ _ _ (λ _ _, False)); [exact Hit|exact Htr|exact Hf]| |done].
  intros [] e' Hb. pose proof (bt_scheduler _ _ _ Hb) as Hs. cbn in Hs.
  split; [|split; [done|split; apply Hb]].
  split; [split|]; try apply Hb; rewrite ?Hs; [done|apply Hb|].
  by rewrite (bt_next _ _ _ Hb).
Qed.

Lemma finish_spec {F} sw id x e s' t' :
  Scheduling.inv s' → follows e id x t' → fires sw (<[id := x]> (slot (ex_scheduler e))) (slot s') →
  wp (activate sw) (λ _ e', kept e e') (λ (_ : F) _, False) (set_ex_processes t' (set_ex_scheduler s' e)).
Proof. intros Hs' Ht Hf. eapply wp_mono; [by eapply finish_frame| |done]. by intros [] e' [? _]. Qed.

Lemma unstopped_ok x th :
  (t_state th = Runnable ∨ t_state th = Running ∨ t_state th = Blocked ∨ t_state th = Sleeping) →
  x ≠ Stopped → x ≠ Exited → thread_ok th → thread_ok (set_t_state x th).
Proof. intros H Hx Hx'. apply set_t_state_ok; [..|done|done]; by destruct H as [-> |[-> |[-> | ->]]]. Qed.

Lemma runnable_slot e id th :
  inv e → thread (ex_processes e) id = Some th → t_state th ∈ [Runnable; Running] →
  (t_state th = Runnable ∨ t_state th = Running) ∧
  ¬ (slot (ex_scheduler e) id = None ∨ slot (ex_scheduler e) id = Some Parked).
Proof.
  intros Hi Hth Hin. rewrite (slot_of_thread e id th Hi Hth).
  rewrite !elem_of_cons, elem_of_nil in Hin. destruct Hin as [-> |[-> |[]]]; cbn; naive_solver.
Qed.

Lemma block_thread_spec id e :
  inv e → wp (block_thread id) (λ _ e', kept e e') (λ _ e', e' = e) e.
Proof.
  intros Hi. unfold block_thread. apply wp_bind, wp_reads, require_state_spec; [|done].
  intros th Hth Hin. destruct (runnable_slot e id th Hi Hth Hin) as [Hst Hns].
  apply wp_bind, wp_sched. eapply wp_mono; [apply block_slots, Hi| |by intros ?? [_ ?%Hns]].
  intros r s' (Hs' & _ & Hf). cbv beta. apply wp_bind, wp_procs_must.
  eapply wp_mono; [eapply (become_spec id _ th (set_t_state Blocked th) () e); try done| |done].
  - unfold set_state_when. by destruct Hst as [-> | ->].
  - apply unstopped_ok; tauto || done.
  - cbn. by destruct Hst as [-> | ->].
  - intros a t' [_ Ht']. cbv beta. apply wp_bind.
    eapply wp_mono; [eapply finish_spec; [exact Hs'|exact Ht'|exact Hf]| |done]. intros [] e' Hk. by wp_steps.
Qed.

Lemma sleep_thread_spec id e :
  inv e → wp (sleep_thread id) (λ _ e', kept e e') (λ _ e', e' = e) e.
Proof.
  intros Hi. unfold sleep_thread. apply wp_bind, wp_reads, require_state_spec; [|done].
  intros th Hth Hin. destruct (runnable_slot e id th Hi Hth Hin) as [Hst Hns].
  apply wp_bind, wp_sched. eapply wp_mono; [apply block_slots, Hi| |by intros ?? [_ ?%Hns]].
  intros r s' (Hs' & _ & Hf). cbv beta. apply wp_bind, wp_procs_must.
  eapply wp_mono; [eapply (become_spec id _ th (set_t_state Sleeping th) () e); try done| |done].
  - unfold set_state_when. by destruct Hst as [-> | ->].
  - apply unstopped_ok; tauto || done.
  - cbn. by destruct Hst as [-> | ->].
  - intros a t' [_ Ht']. cbv beta. apply wp_bind.
    eapply wp_mono; [eapply finish_spec; [exact Hs'|exact Ht'|exact Hf]| |done]. intros [] e' Hk. by wp_steps.
Qed.

(** A table change that leaves every slot where it is. *)
Lemma unmoved_kept e id t' :
  inv e → follows e id (slot (ex_scheduler e) id) t' → kept e (set_ex_processes t' e).
Proof.
  intros Hi (Hit & Htr & Hn). split; [split|]; cbn; try done; [apply (inv_scheduler e Hi)|].
  eapply tracks_ext; [|exact Htr]. intros k.
  destruct (decide (id = k)) as [->|]; [by rewrite fn_lookup_insert|by rewrite fn_lookup_insert_ne].
Qed.

(** Waking a stopped thread only records that it will resume. *)
Lemma wake_stopped_spec id th e :
  inv e → thread (ex_processes e) id = Some th → t_state th = Stopped →
  wp (procs EState (ProcessModel.wake_thread id)) (λ _ e', kept e e') (λ _ e', e' = e) e.
Proof.
  intros Hi Hth Hst. apply wp_procs.
  destruct (decide (t_resume th = Some Blocked ∨ t_resume th = Some Sleeping)) as [Hr|Hr].
  - eapply wp_mono; [eapply (become_spec id _ th (set_t_resume (Some Runnable) th) () e); try done| |done].
    + rewrite Hst. by destruct Hr as [-> | ->].
    + unfold thread_ok. cbn. rewrite Hst. naive_solver.
    + cbn. rewrite Hst. intros _ t' [_ Ht']. apply (unmoved_kept e id); [done|].
      by rewrite (slot_of_thread e id th Hi Hth), Hst.
  - apply with_thread_spec; [apply (inv_processes e Hi)|by rewrite Hth|].
    intros i j p x _ _ _ Hx _ _ _. assert (x = th) as -> by congruence. rewrite Hst.
    destruct (t_resume th) as [[]|]; try apply set_ex_processes_id; naive_solver.
Qed.

Lemma wake_thread_spec id e :
  inv e → wp (wake_thread id) (λ _ e', kept e e') (λ _ e', e' = e) e.
Proof.
  intros Hi. unfold wake_thread. apply wp_bind, wp_reads, thread_state_spec; [|done].
  intros th Hth. pose proof (slot_of_thread e id th Hi Hth) as Hslot.
  assert (t_state th = Blocked ∨ t_state th = Sleeping →
    wp (w ← sched EScheduling (wake id); _ ← procs_must (ProcessModel.wake_thread id);
        _ ← activate (wk_switch w); mret (Some w)) (λ _ e', kept e e') (λ _ e', e' = e) e) as Hwake.
  { intros Hst. apply wp_bind, wp_sched. eapply wp_mono; [apply wake_slots, Hi| |].
    2:{ intros x s' [_ Hn]. destruct Hn. rewrite Hslot. by destruct Hst as [-> | ->]. }
    intros r s' (Hs' & _ & Hf). cbv beta. apply wp_bind, wp_procs_must.
    eapply wp_mono; [eapply (become_spec id _ th (set_t_state Runnable th) () e); try done| |done].
    - by destruct Hst as [-> | ->].
    - apply unstopped_ok; tauto || done.
    - by destruct Hst as [-> | ->].
    - intros a t' [_ Ht']. cbv beta. apply wp_bind.
      eapply wp_mono; [eapply finish_spec; [exact Hs'|exact Ht'|exact Hf]| |done]. intros [] e' Hk. by wp_steps. }
  destruct (t_state th) eqn:Hst; try (by wp_steps); [by auto..|].
  clear Hwake. apply wp_bind. eapply wp_mono; [by eapply wake_stopped_spec| |done].
  intros [] e' Hk. by wp_steps.
Qed.

Lemma stop_become id th e y :
  inv e → thread (ex_processes e) id = Some th →
  (match t_state th with Runnable | Running => Some Runnable | Blocked => Some Blocked
   | Sleeping => Some Sleeping | _ => None end) = Some y →
  wp (ProcessModel.stop_thread id) (λ _ t', follows e id (Some Parked) t') (λ _ _, False)
    (ex_processes e).
Proof.
  intros Hi Hth Hy.
  destruct (find_thread (ex_processes e) id (inv_processes e Hi)) as [[_ Hn]|
    (i & j & p & x & _ & _ & _ & _ & Hx & _ & _ & Hok)]; [congruence|].
  assert (x = th) as -> by congruence.
  assert (t_resume th = None) as Hres by (destruct Hok as [Hr _]; by destruct (t_state th)).
  eapply wp_mono; [eapply (become_spec id _ th (set_t_state Stopped (set_t_resume (Some y) th)) () e);
    try done| |done].
  - rewrite Hres. destruct (t_state th); by simplify_eq/=.
  - intros _. destruct Hok as (_ & H1 & H2). unfold thread_ok. cbn.
    destruct (t_state th); simplify_eq/=; split_and!; naive_solver.
  - by destruct (t_state th).
  - by intros _ t' [_ ?].
Qed.

Lemma stop_thread_spec id e :
  inv e → wp (stop_thread id) (λ _ e', kept e e') (λ _ e', e' = e) e.
Proof.
  intros Hi. unfold stop_thread. apply wp_bind, wp_reads, thread_state_spec; [|done].
  intros th Hth. pose proof (slot_of_thread e id th Hi Hth) as Hslot.
  assert (t_state th = Runnable ∨ t_state th = Running →
    wp (transition ← (r ← sched EScheduling (block id); mret (Some r));
        _ ← procs_must (ProcessModel.stop_thread id);
        _ ← match transition with Some r => activate (qt_switch r) | None => mret () end;
        mret transition) (λ _ e', kept e e') (λ _ e', e' = e) e) as Hrun.
  { intros Hst. apply wp_bind, wp_bind, wp_sched. eapply wp_mono; [apply block_slots, Hi| |].
    2:{ intros x s' [_ Hn]. rewrite Hslot in Hn. destruct Hst as [Hst|Hst]; rewrite Hst in Hn; by destruct Hn. }
    intros r s' (Hs' & _ & Hf). cbv beta. apply wp_ret, wp_bind, wp_procs_must.
    eapply wp_mono; [eapply (stop_become id th e Runnable Hi Hth); by destruct Hst as [-> | ->]| |done].
    intros a t' Ht'. cbv beta. apply wp_bind.
    eapply wp_mono; [eapply finish_spec; [exact Hs'|exact Ht'|exact Hf]| |done].
    intros [] e' Hk. by wp_steps. }
  assert (∀ y, t_state th = y → y = Blocked ∨ y = Sleeping →
    wp (transition ← (mret None : Exec (option QueueTransition));
        _ ← procs_must (ProcessModel.stop_thread id);
        _ ← match transition with Some r => activate (qt_switch r) | None => mret () end;
        mret transition) (λ _ e', kept e e') (λ _ e', e' = e) e) as Hpark.
  { intros y Hst Hy. apply wp_bind, wp_ret, wp_bind, wp_procs_must.
    eapply wp_mono; [eapply (stop_become id th e y Hi Hth); rewrite Hst; by destruct Hy as [-> | ->]| |done].
    intros a t' Ht'. wp_steps. apply (unmoved_kept e id); [done|]. rewrite Hslot, Hst.
    by destruct Hy as [-> | ->]. }
  destruct (t_state th) eqn:Hst; [by auto..| | |by wp_steps|by wp_steps]; eapply Hpark; eauto.
Qed.

Lemma continue_thread_spec id e :
  inv e → wp (continue_thread id) (λ _ e', kept e e') (λ _ e', e' = e) e.
Proof.
  intros Hi. unfold continue_thread. apply wp_bind, wp_reads, require_state_spec; [|done].
  intros th Hth Hst%list_elem_of_singleton.
  pose proof (slot_of_thread e id th Hi Hth) as Hslot. rewrite Hst in Hslot. cbn in Hslot.
  destruct (find_thread (ex_processes e) id (inv_processes e Hi)) as [[_ Hn]|
    (i & j & p & x & _ & _ & _ & _ & Hx & _ & _ & Hok)]; [congruence|].
  assert (x = th) as -> by congruence. pose proof Hok as (Hr & _). rewrite Hst in Hr.
  assert (∃ y, t_resume th = Some y ∧ (y = Runnable ∨ y = Blocked ∨ y = Sleeping)) as (y & Hy & Hycase)
    by naive_solver.
  apply wp_bind, wp_reads. unfold thread_snapshot. rewrite Hth. cbn [ok_or]. rewrite Hy. cbn [expect wpo].
  assert (wp (ProcessModel.continue_thread id)
    (λ r t', r = y ∧ follows e id (status y) t') (λ _ _, False) (ex_processes e)) as Hcont.
  { eapply (become_spec id _ th (set_t_state y (set_t_resume None th)) y e); try done.
    - rewrite Hst, Hy. done.
    - intros _. destruct Hok as (_ & H1 & H2). unfold thread_ok. cbn. rewrite Hst in H2.
      destruct Hycase as [-> |[-> | ->]]; split_and!; naive_solver.
    - by rewrite Hst. }
  destruct (decide (y = Runnable)) as [->|Hne].
  - rewrite bool_decide_eq_true_2 by done. apply wp_bind, wp_bind, wp_sched.
    eapply wp_mono; [apply wake_slots, Hi| |by intros ?? [_ ?]].
    intros r s' (Hs' & _ & Hf). cbv beta. apply wp_ret, wp_bind, wp_procs_must.
    eapply wp_mono; [exact Hcont| |done]. intros a t' [-> Ht']. cbv beta. apply wp_bind, wp_lift.
    rewrite bool_decide_eq_true_2 by done. cbn [wpo mret outcome_ret]. apply wp_bind.
    eapply wp_mono; [eapply finish_spec; [exact Hs'|exact Ht'|exact Hf]| |done].
    intros [] e' Hk. by wp_steps.
  - rewrite bool_decide_eq_false_2 by done. apply wp_bind, wp_ret, wp_bind, wp_procs_must.
    eapply wp_mono; [exact Hcont| |done]. intros a t' [-> Ht']. cbv beta. apply wp_bind, wp_lift.
    rewrite bool_decide_eq_true_2 by done. cbn [wpo mret outcome_ret]. wp_steps.
    apply (unmoved_kept e id); [done|]. rewrite Hslot. by destruct Hycase as [-> |[-> | ->]].
Qed.

(** *** Migration and rotation *)

(** A scheduler call reporting a migration, then its lifecycle side. *)
Lemma migration_spec id (call : M SmpRoundRobin SmpError MigrationResult) e :
  inv e →
  wp call (λ r s', Scheduling.inv s' ∧ migrates id r (slot (ex_scheduler e)) (slot s'))
    (λ _ s', s' = ex_scheduler e) (ex_scheduler e) →
  wp (migration ← sched EScheduling call; _ ← apply_migration id migration; mret migration)
    (λ _ e', kept e e') (λ _ e', e' = e) e.
Proof.
  intros Hi Hcall. apply wp_bind, wp_sched.
  eapply wp_mono; [exact Hcall| |intros ? s' ->; apply set_ex_scheduler_id].
  intros r s' [Hs' Hm]. cbv beta. apply wp_bind.
  eapply wp_mono; [eapply (apply_migration_spec _ _ _ _ _ (λ _ _, False));
    [apply (inv_processes e Hi)|apply (inv_tracks e Hi)|exact Hm]| |done].
  intros [] e' Hb. wp_steps. by eapply between_kept.
Qed.

Lemma set_affinity_spec id m e :
  inv e → is_u64 m → wp (set_affinity id m) (λ _ e', kept e e') (λ _ e', e' = e) e.
Proof.
  intros Hi Hm. unfold set_affinity. apply wp_bind, wp_reads, require_active_spec; [|done].
  intros th Hth Hst. apply migration_spec; [done|]. apply set_affinity_slots; [apply (inv_scheduler e Hi)|done].
Qed.

Lemma migrate_spec id c e :
  inv e → wp (migrate id c) (λ _ e', kept e e') (λ _ e', e' = e) e.
Proof.
  intros Hi. unfold migrate. apply wp_bind, wp_reads, require_active_spec; [|done].
  intros th Hth Hst. apply migration_spec; [done|]. apply migrate_slots, (inv_scheduler e Hi).
Qed.

Lemma rebalance_once_spec m e :
  inv e → is_u64 m → wp (rebalance_once m) (λ _ e', kept e e') (λ _ e', e' = e) e.
Proof.
  intros Hi Hm. unfold rebalance_once. apply wp_bind, wp_reads, wpo_map_err.
  eapply wpo_mono; [apply rebalance_plan_spec; [apply (inv_scheduler e Hi)|done]| |done].
  intros [plan|] _; [|by wp_steps]. apply wp_bind. eapply wp_mono; [by apply migrate_spec| |done].
  intros r e' Hk. by wp_steps.
Qed.

Lemma rotation_kept (call : M SmpRoundRobin SmpError (option Switch)) e :
  inv e →
  wp call (λ sw s', Scheduling.inv s' ∧ turns sw (slot (ex_scheduler e)) (slot s'))
    (λ _ s', s' = ex_scheduler e) (ex_scheduler e) →
  wp (switch ← sched EScheduling call; _ ← rotate switch; mret switch)
    (λ _ e', kept e e') (λ _ e', e' = e) e.
Proof.
  intros Hi Hcall. apply wp_bind, wp_sched.
  eapply wp_mono; [exact Hcall| |intros ? s' ->; apply set_ex_scheduler_id].
  intros sw s' [Hs' Hm]. cbv beta. apply wp_bind.
  eapply wp_mono; [eapply (rotate_spec _ _ _ _ (λ _ _, False));
    [apply (inv_processes e Hi)|apply (inv_tracks e Hi)|exact Hm]| |done].
  intros [] e' Hb. wp_steps. by eapply between_kept.
Qed.

Lemma exec_tick_spec c e : inv e → wp (tick c) (λ _ e', kept e e') (λ _ e', e' = e) e.
Proof. intros Hi. apply rotation_kept; [done|]. apply rotation_slots; [by left|apply (inv_scheduler e Hi)]. Qed.

Lemma exec_yield_spec c e : inv e → wp (yield_current c) (λ _ e', kept e e') (λ _ e', e' = e) e.
Proof. intros Hi. apply rotation_kept; [done|]. apply rotation_slots; [by right|apply (inv_scheduler e Hi)]. Qed.

Lemma exec_online_spec c e : inv e → wp (online_cpu c) (λ _ e', kept e e') (λ _ e', e' = e) e.
Proof.
  intros Hi. unfold online_cpu. apply wp_sched.
  eapply wp_mono; [apply online_slots, (inv_scheduler e Hi)| |intros ? s' ->; apply set_ex_scheduler_id].
  intros _ s' [Hs' Hsl]. split; [split|]; cbn; [apply (inv_processes e Hi)|done| |done].
  eapply tracks_ext; [|apply (inv_tracks e Hi)]. done.
Qed.

(** *** Exit and reclamation *)

Lemma exit_become id th status_code e :
  inv e → thread (ex_processes e) id = Some th → t_state th ≠ Exited →
  wp (ProcessModel.exit_thread id status_code) (λ _ t', follows e id None t') (λ _ _, False)
    (ex_processes e).
Proof.
  intros Hi Hth Hst. eapply wp_mono; [apply exit_thread_spec, (inv_processes e Hi)|..]; cbv beta.
  - intros r t' (x & [Hit Hx _ Hv _ _ Hn]). assert (x = th) as -> by congruence. split_and!; [done| |done].
    pose proof (tracks_insert _ _ _ _ _ Hv (inv_tracks e Hi)) as Htr. by destruct (t_detached th).
  - intros x t' [_ [Hn|Hx]]; [congruence|]. unfold ProcessModel.thread_state in Hx.
    rewrite Hth in Hx. cbn in Hx. congruence.
Qed.

Lemma live_slot e id th :
  inv e → thread (ex_processes e) id = Some th → t_state th ≠ Exited → slot (ex_scheduler e) id ≠ None.
Proof. intros Hi Hth Hst. rewrite (slot_of_thread e id th Hi Hth). by destruct (t_state th). Qed.

Lemma exec_exit_spec id status_code e :
  inv e → wp (exit_thread id status_code) (λ _ e', kept e e') (λ _ e', e' = e) e.
Proof.
  intros Hi. unfold exit_thread. apply wp_bind, wp_reads, thread_state_spec; [|done].
  intros th Hth. apply wp_bind, wp_lift, wpo_err_if; [done|]. intros Hst. bool_simpl.
  apply wp_bind, wp_sched. eapply wp_mono; [apply remove_slots, (inv_scheduler e Hi)| |].
  2:{ intros x s' [_ Hn]. by destruct (live_slot e id th Hi Hth Hst). }
  intros r s' (Hs' & _ & Hf). cbv beta. apply wp_bind, wp_procs_must.
  eapply wp_mono; [exact (exit_become id th _ e Hi Hth Hst)| |done]. intros a t' Ht'. cbv beta. apply wp_bind.
  eapply wp_mono; [eapply finish_spec; [exact Hs'|exact Ht'|exact Hf]| |done].
  intros [] e' Hk. by wp_steps.
Qed.

(** A change of the table alone that moves no slot. *)
Lemma procs_kept {E A} (m : M ProcessTable E A) e :
  inv e →
  wp m (λ _ t', ProcessModel.inv t' ∧ tracks (slot (ex_scheduler e)) t' ∧ next_process_id t' = next_id e)
    (λ _ t', t' = ex_processes e) (ex_processes e) →
  wp (procs (λ e, e) m) (λ _ e', kept e e') (λ _ e', e' = e) e.
Proof.
  intros Hi Hm. apply wp_procs. eapply wp_mono; [exact Hm| |intros ? s' ->; apply set_ex_processes_id].
  intros a t' (Hit & Htr & Hn). split; [split|]; try done. apply (inv_scheduler e Hi).
Qed.

(** Removing an exited thread moves no slot. *)
Lemma tracks_forget f t t' id th o :
  tracks f t → thread t id = Some th → (o ≫= λ x, status (t_state x)) = status (t_state th) →
  (∀ k, thread t' k = if decide (k = id) then o else thread t k) → tracks f t'.
Proof.
  intros Ht Hth Ho Hv. eapply tracks_ext; [|exact (tracks_insert f t t' id o Hv Ht)]. intros k.
  destruct (decide (id = k)) as [<-|]; [|by rewrite fn_lookup_insert_ne].
  by rewrite fn_lookup_insert, Ho, Ht, Hth.
Qed.

Lemma exec_detach_spec id e : inv e → wp (detach_thread id) (λ _ e', kept e e') (λ _ e', e' = e) e.
Proof.
  intros Hi. apply procs_kept; [done|].
  eapply wp_mono; [apply detach_thread_spec, (inv_processes e Hi)| |done]. cbv beta.
  intros _ t' (Hit & th & Hth & _ & Hv & _ & Hn). split_and!; [done| |done].
  eapply (tracks_forget _ _ _ id th); [apply (inv_tracks e Hi)|done| |exact Hv].
  case_bool_decide as Hst; cbn; [by rewrite Hst|done].
Qed.

Lemma exec_join_spec id e : inv e → wp (join_thread id) (λ _ e', kept e e') (λ _ e', e' = e) e.
Proof.
  intros Hi. apply procs_kept; [done|].
  eapply wp_mono; [apply join_thread_spec, (inv_processes e Hi)| |done]. cbv beta.
  intros r t' (th & Hrem & Hst & _). destruct Hrem as [? ? ? _ Hn]. split_and!; [done| |apply Hn].
  eapply (tracks_forget _ _ _ id th None); [apply (inv_tracks e Hi)|done|by rewrite Hst|done].
Qed.

Lemma exec_reap_spec id e : inv e → wp (reap_process id) (λ _ e', kept e e') (λ _ e', e' = e) e.
Proof.
  intros Hi. apply procs_kept; [done|].
  eapply wp_mono; [apply reap_process_spec, (inv_processes e Hi)| |done]. cbv beta.
  intros r t' (p & _ & _ & _ & _ & _ & (Hit & _ & _ & Hn & _) & Hv). split_and!; [done| |done].
  by eapply tracks_threads, (inv_tracks e Hi).
Qed.

Lemma exec_orphan_spec id e :
  inv e → wp (orphan_process_children id) (λ _ e', kept e e') (λ _ e', e' = e) e.
Proof.
  intros Hi. apply procs_kept; [done|].
  eapply wp_mono; [apply orphan_children_spec, (inv_processes e Hi)| |done]. cbv beta.
  intros r t' (Hit & Hv & p & _ & _ & ->). split_and!; [done| |done].
  by eapply tracks_threads, (inv_tracks e Hi).
Qed.

Lemma exec_create_process_spec parent e :
  inv e → next_id e < u64_max →
  wp (create_process parent)
    (λ id e', inv e' ∧ id = next_id e ∧ next_id e' = next_id e + 1 ∧ e' = set_ex_processes (grown parent (ex_processes e)) e)
    (λ _ e', e' = e) e.
Proof.
  intros Hi Hn. unfold create_process. apply wp_procs.
  eapply wp_mono; [apply create_process_spec; [apply (inv_processes e Hi)|done]| |
    intros ? s' ->; apply set_ex_processes_id]. cbv beta.
  intros id t' (Hit & -> & Hv & Heq). split_and!; [|done|cbn; by rewrite Heq|by rewrite Heq].
  split; cbn; [done|apply (inv_scheduler e Hi)|]. by eapply tracks_threads, (inv_tracks e Hi).
Qed.

(** *** Thread creation *)

Lemma validate_admission_ok s m (R : SmpError → Prop) (Q : unit → Prop) :
  Scheduling.inv s → is_u64 m →
  (m ≠ 0 → mask_sub m (online_mask s) → (length (assignments s) < MAX_RUNNABLE_THREADS)%nat → Q ()) →
  (∀ e, R e) → wpo (validate_admission s m) Q R.
Proof.
  intros Hi Hm HQ HR. unfold validate_admission. apply wpo_bind.
  eapply wpo_mono; [by apply validate_affinity_spec| |auto]. intros _ [Hsub [c Hc]].
  apply wpo_err_if; intros H; bool_simpl; [auto|]. apply HQ; [|done|lia].
  intros ->. rewrite mask_contains_testbit, Z.bits_0 in Hc. done.
Qed.

(** Live threads that the scheduler still has. *)
Definition live_in (e : SmpExecution) (id : ThreadId) : Prop := slot (ex_scheduler e) id ≠ None.

(** A switch takes no thread from the scheduler. *)
Lemma fires_live sw f f' k : fires sw f f' → f k ≠ None → f' k ≠ None.
Proof.
  destruct sw as [w|]; cbn; [intros [_ Hf]|intros Hf]; rewrite Hf; [|done].
  destruct (decide (sw_to w = k)) as [<-|]; [by rewrite fn_lookup_insert|by rewrite fn_lookup_insert_ne].
Qed.

(** What a creation leaves: the table [t'] up to the switch, and the thread queued. *)
Definition admitted (id : ThreadId) (t' : ProcessTable) (e e' : SmpExecution) : Prop :=
  same_frame t' (ex_processes e') ∧ ∀ k, k = id ∨ live_in e k → live_in e' k.

(** A validated admission of an unknown thread succeeds, so creation never has to
    roll back. *)
Lemma admit_validated id m e (R : ExecutionError → SmpExecution → Prop) t' :
  inv e → is_u64 m → m ≠ 0 → mask_sub m (online_mask (ex_scheduler e)) →
  (length (assignments (ex_scheduler e)) < MAX_RUNNABLE_THREADS)%nat →
  slot (ex_scheduler e) id = None → follows e id (Some Queued) t' →
  wp (admission ← admit_or_rollback id m; _ ← activate (ad_switch admission); mret admission)
    (λ r e', kept e e' ∧ pl_thread (ad_placement r) = id ∧ admitted id t' e e') R (set_ex_processes t' e).
Proof.
  intros Hi Hm Hm0 Hsub Hlen Hslot Hfol. apply wp_bind. unfold admit_or_rollback.
  apply wp_try_catch, wp_sched. cbn [ex_scheduler set_ex_processes].
  eapply wp_mono; [eapply wp_and; [apply admit_slots; [apply (inv_scheduler e Hi)|done]|
    apply admit_with_transition_spec; [apply (inv_scheduler e Hi)|done]]|..]; cbv beta.
  - intros r s' [(Hs' & _ & Hpl & Hf) _]. apply wp_ret, wp_bind.
    eapply wp_mono; [eapply (finish_frame _ id (Some Queued) e); [exact Hs'|exact Hfol|exact Hf]| |done].
    intros [] e' (Hk & Hsc & Hfr). wp_steps. split_and!; [done..|]. split; [done|]. intros k Hk'. unfold live_in. rewrite Hsc.
    eapply fires_live; [exact Hf|]. destruct (decide (id = k)) as [<-|Hne]; [by rewrite fn_lookup_insert|].
    rewrite fn_lookup_insert_ne by done. by destruct Hk' as [->|].
  - intros x s' [_ [_ [[_ ?]|[[_ ?]|[[_ Hsome]|[_ Hcap]]]]]]; [done|done| |lia].
    apply slot_None in Hslot. rewrite Hslot in Hsome. by destruct Hsome.
Qed.

Lemma absent_slot e id : inv e → thread (ex_processes e) id = None → slot (ex_scheduler e) id = None.
Proof. intros Hi Hn. by rewrite (inv_tracks e Hi), Hn. Qed.

Lemma inserted_follows pid id name e t t' :
  inv e → (∀ k, thread t k = thread (ex_processes e) k) → next_process_id t = next_id e →
  thread_inserted pid id name t t' → follows e id (Some Queued) t'.
Proof.
  intros Hi Ht Hnx [Hit _ Hv _ (Hn & _)]. split_and!; [done| |congruence].
  apply (tracks_insert _ t t' id (Some (fresh_thread pid id name))); [done|].
  eapply tracks_threads; [done|apply (inv_tracks e Hi)].
Qed.

Lemma exec_create_thread_spec pid name m e :
  inv e → is_u64 m →
  wp (create_thread pid name m)
    (λ r e', kept e e' ∧ thread (ex_processes e) (pl_thread (ad_placement r)) = None)
    (λ _ e', e' = e) e.
Proof.
  intros Hi Hm. unfold create_thread. apply wp_bind, wp_reads, wpo_map_err, wpo_validate; [done|].
  intros i p _ _ _ _ _ _. apply wp_bind, wp_reads, wpo_map_err, validate_admission_ok;
    [apply (inv_scheduler e Hi)|done| |done].
  intros Hm0 Hsub Hlen. apply wp_bind, wp_procs.
  eapply wp_mono; [apply create_thread_spec, (inv_processes e Hi)| |
    intros ? s' ->; apply set_ex_processes_id]. cbv beta.
  intros id t' (next & Hins & Hnone & _).
  eapply wp_mono; [eapply (admit_validated id m e (λ _ _, False)); try done| |done].
  - by apply absent_slot.
  - by eapply (inserted_follows pid id name e (set_next_thread_id next (ex_processes e))).
  - intros r e' (Hk & Hpl & _). by rewrite Hpl.
Qed.

Lemma exec_create_thread_with_id_spec pid id name m e :
  inv e → is_u64 m →
  wp (create_thread_with_id pid id name m)
    (λ r e', kept e e' ∧ pl_thread (ad_placement r) = id ∧
       ∃ t', thread_inserted pid id name (ex_processes e) t' ∧ admitted id t' e e') (λ _ e', e' = e) e.
Proof.
  intros Hi Hm. unfold create_thread_with_id. apply wp_bind, wp_reads, wpo_map_err, wpo_validate; [done|].
  intros i p _ _ _ _ _ _. apply wp_bind, wp_reads, wpo_map_err, validate_admission_ok;
    [apply (inv_scheduler e Hi)|done| |done].
  intros Hm0 Hsub Hlen. apply wp_bind, wp_procs.
  eapply wp_mono; [apply create_thread_with_id_spec, (inv_processes e Hi)| |
    intros ? s' ->; apply set_ex_processes_id]. cbv beta. intros id' t' [-> Hins].
  eapply wp_mono; [eapply (admit_validated id m e (λ _ _, False)); try done| |done].
  - apply absent_slot; [done|]. apply Hins.
  - by eapply (inserted_follows pid id name e (ex_processes e)).
  - intros r e' (Hk & Hpl & Had). split_and!; [done..|]. by exists t'.
Qed.

(** *** Rolling back a process *)

(** The scheduler has dropped the threads [D]; the rest is in step. *)
Record dropped (D : list ThreadId) (e e' : SmpExecution) : Prop := {
  dr_table : ProcessModel.inv (ex_processes e');
  dr_sched : Scheduling.inv (ex_scheduler e');
  dr_slots : ∀ k, slot (ex_scheduler e') k =
    if decide (k ∈ D) then None else thread (ex_processes e') k ≫= λ th, status (t_state th);
  dr_next : next_id e' = next_id e;
  dr_shells : shell <$> processes (ex_processes e') = shell <$> processes (ex_processes e);
  dr_owner : ∀ k, t_process <$> thread (ex_processes e') k = t_process <$> thread (ex_processes e) k;
}.

Lemma drop_one D id e e1 :
  dropped D e e1 → live_in e1 id →
  wp (transition ← sched EScheduling (remove id); activate (qt_switch transition))
    (λ _ e', dropped (id :: D) e e' ∧ ∀ k, k ≠ id → live_in e1 k → live_in e' k)
    (λ _ _, False) e1.
Proof.
  intros [Ht Hs Hsl Hn Hsh Ho] Hlive. apply wp_bind, wp_sched.
  eapply wp_mono; [by apply remove_slots| |by intros ?? [_ ?]]. intros r s' (Hs' & _ & Hf). cbv beta.
  set (f := λ k, thread (ex_processes e1) k ≫= λ th, status (t_state th)).
  set (f' := match qt_switch r with Some w => <[sw_to w := Some OnCpu]> f | None => f end).
  assert (fires (qt_switch r) f f') as Hff.
  { unfold f'. destruct (qt_switch r) as [w|]; [|done]. destruct Hf as [Hq _]. split; [|done].
    destruct (decide (id = sw_to w)) as [Heq|Hne]; [by rewrite Heq, fn_lookup_insert in Hq|].
    rewrite fn_lookup_insert_ne, Hsl in Hq by done. by case_decide. }
  eapply wp_mono; [eapply (activate_spec _ f f' (set_ex_scheduler s' e1) (λ _ _, False)); [exact Ht|done|done]| |done].
  intros [] e' [Hit Htr Hsc Hnx Hshx Hox]. cbn in *.
  assert (∀ k, slot s' k = if decide (k ∈ id :: D) then None else f' k) as Hslots.
  { intros k. assert (slot s' k = match qt_switch r with
      | Some w => <[sw_to w := Some OnCpu]> (<[id := None]> (slot (ex_scheduler e1))) k
      | None => <[id := None]> (slot (ex_scheduler e1)) k end) as ->
      by (destruct (qt_switch r); [apply (proj2 Hf)|apply Hf]).
    assert (<[id := None]> (slot (ex_scheduler e1)) k = if decide (k ∈ id :: D) then None else f k) as Hb.
    { destruct (decide (id = k)) as [<-|Hne].
      - rewrite fn_lookup_insert, decide_True by (by left). done.
      - rewrite fn_lookup_insert_ne, Hsl by done.
        destruct (decide (k ∈ D)), (decide (k ∈ id :: D)); set_solver. }
    unfold f'. destruct (qt_switch r) as [w|]; [|done].
    destruct (decide (sw_to w = k)) as [<-|Hne]; [|by rewrite !(fn_lookup_insert_ne _ (sw_to w)) by done].
    rewrite !fn_lookup_insert. destruct Hf as [Hq _]. rewrite Hb in Hq. by case_decide. }
  split; [split|]; rewrite ?Hsc; try done; try congruence.
  - intros k. rewrite Hslots. case_decide; [done|]. apply Htr.
  - intros k Hk Hlk. unfold live_in. rewrite Hsc, Hslots.
    unfold live_in in Hlk. rewrite Hsl in Hlk. case_decide as HkD; [done|].
    rewrite decide_False by (rewrite elem_of_cons; naive_solver).
    unfold f'. destruct (qt_switch r) as [w|]; [|done].
    destruct (decide (sw_to w = k)) as [<-|]; [by rewrite fn_lookup_insert|by rewrite fn_lookup_insert_ne].
Qed.

Lemma drop_all l D e e1 :
  dropped D e e1 → NoDup (t_id <$> l) → (∀ th, th ∈ l → live_in e1 (t_id th)) →
  wp (for_each l (λ th, transition ← sched EScheduling (remove (t_id th));
                        activate (qt_switch transition)))
    (λ _ e', ∃ D', dropped D' e e' ∧ ∀ k, k ∈ D' ↔ k ∈ D ∨ k ∈ t_id <$> l)
    (λ _ _, False) e1.
Proof.
  revert D e1. induction l as [|th l IH]; intros D e1 Hd Hnd Hlive; cbn [for_each].
  - wp_steps. exists D. split; [done|]. set_solver.
  - rewrite fmap_cons in Hnd. apply NoDup_cons in Hnd as [Hni Hnd]. apply wp_bind.
    eapply wp_mono; [apply (drop_one D _ e); [done|apply Hlive; by left]| |done].
    intros [] e2 [Hd2 Hl2]. cbv beta. eapply wp_mono; [apply (IH (t_id th :: D)); [done..|]| |done].
    + intros x Hx. apply Hl2; [|apply Hlive; by right]. intros Heq. apply Hni. rewrite <- Heq.
      by apply list_elem_of_fmap_2.
    + intros [] e' (D' & Hd' & HD'). exists D'. split; [done|]. intros k. rewrite HD', fmap_cons. set_solver.
Qed.

(** After the process goes too, the models are in step again. *)
Lemma dropped_gone D e e1 p p1 t' i :
  inv e → processes (ex_processes e) !! i = Some p →
  dropped D e e1 → (∀ k, k ∈ D ↔ k ∈ t_id <$> p_threads p) →
  p_id p1 = p_id p → process_gone p1 (ex_processes e1) t' → kept e (set_ex_processes t' e1).
Proof.
  intros Hi Hp [Ht Hs Hsl Hn Hsh Ho] HD Hid (Hit & Hv & _ & Hn' & _).
  split; [split|]; cbn; [done|done| |congruence]. intros k. rewrite Hsl, Hv.
  assert (k ∈ D ↔ t_process <$> thread (ex_processes e1) k = Some (p_id p)) as Hk.
  { rewrite HD, Ho. split.
    - intros (th & -> & Hth)%list_elem_of_fmap.
      apply (process_threads_view _ p i th (inv_processes e Hi) Hp) in Hth as [Hth Hpr].
      rewrite Hth. cbn. by rewrite Hpr.
    - intros (th & Hth & Hpr)%fmap_Some.
      destruct (locate (ex_processes e) k th (inv_processes e Hi) Hth) as (Hkid & _).
      subst k. apply list_elem_of_fmap_2, (process_threads_view _ p i th (inv_processes e Hi) Hp).
      done. }
  destruct (thread (ex_processes e1) k) as [th|]; cbn in Hk |- *.
  - rewrite Hid. destruct Hk as [Hk1 Hk2].
    destruct (decide (k ∈ D)) as [Hin|Hin], (decide (t_process th = p_id p)) as [Hpr|Hpr]; try done.
    + apply Hk1 in Hin. congruence.
    + destruct Hin. apply Hk2. congruence.
  - by case_decide.
Qed.

Lemma process_gone_None p t t' pid :
  ProcessModel.inv t → p_id p = pid → process_gone p t t' → process t' pid = None.
Proof.
  intros Hi <- (_ & _ & (i & Hp & Hrest) & _). destruct (process t' (p_id p)) as [q|] eqn:Hq; [|done].
  apply process_Some in Hq as (k & _ & Hk & Hid). rewrite Hrest in Hk.
  apply list_elem_of_lookup_2, list_elem_of_fmap in Hk as (x & -> & Hx).
  apply (elem_of_delete_key _ i p) in Hx as [_ Hne]; [|apply Hi|done].
  destruct (forget_relink (p_parent p) (p_id p) x) as [Hx _]. congruence.
Qed.

(** A process that has run no further than its creation. *)
Definition unstarted (p : Process) : Prop :=
  p_exit p = None ∧ p_children p = [] ∧ ∀ th, th ∈ p_threads p → t_state th ≠ Exited.

(** Rolling it back succeeds. *)
Lemma exec_rollback_process_spec pid p e :
  inv e → process (ex_processes e) pid = Some p → unstarted p →
  wp (rollback_process_creation pid)
    (λ _ e', kept e e' ∧ process (ex_processes e') pid = None) (λ _ _, False) e.
Proof.
  intros Hi Hp (Hex & Hch & Hlive). destruct (process_Some _ _ _ Hp) as (i & _ & Hpi & Hid).
  pose proof (inv_processes e Hi) as Hpi'.
  assert (∀ th, th ∈ p_threads p → thread (ex_processes e) (t_id th) = Some th) as Hth
    by (intros th Hin; by apply (process_threads_view _ p i th Hpi' Hpi)).
  unfold rollback_process_creation. apply wp_bind, wp_reads. unfold threads. rewrite Hp. cbn [wpo].
  apply wp_bind. eapply wp_mono; [apply (drop_all _ [] e)| |done].
  - split; try done; [apply (inv_scheduler e Hi)|]. intros k. rewrite decide_False by set_solver.
    apply (inv_tracks e Hi).
  - pose proof (inv_thread_ids _ Hpi') as Hnd. destruct (all_in_insert _ i p Hpi) as (rest & Ha & _).
    unfold all_threads in Hnd. rewrite Ha, fmap_app in Hnd. by apply NoDup_app in Hnd as [? _].
  - intros th Hin. eapply (live_slot e _ th Hi); auto.
  - intros [] e1 (D & Hd & HD). cbv beta. apply wp_procs.
    assert (process_shell (ex_processes e1) pid = Some (shell p)) as Hshell.
    { rewrite (process_shell_ext (ex_processes e)); [|apply Hpi'|apply Hd].
      unfold process_shell. by rewrite Hp. }
    unfold process_shell in Hshell. apply fmap_Some in Hshell as (p1 & Hp1 & Hsh).
    eapply wp_mono; [apply rollback_process_spec, Hd| |].
    + intros [] t' (p2 & Hp2 & _ & Hgone). assert (p2 = p1) as -> by congruence. split.
      * eapply (dropped_gone D e e1 p p1); [done..| | |exact Hgone].
        { intros k. rewrite HD. set_solver. }
        { by apply (f_equal p_id) in Hsh. }
      * cbn. apply (process_gone_None p1 (ex_processes e1) t'); [apply Hd| |done].
        apply (f_equal p_id) in Hsh. cbn in Hsh. congruence.
    + intros x t' [_ Hno]. destruct (Hno p1 Hp1) as [Hx|Hx].
      * apply (f_equal p_exit) in Hsh. cbn in Hsh. rewrite <- Hsh, Hex in Hx. by destruct Hx.
      * apply (f_equal p_children) in Hsh. cbn in Hsh. congruence.
Qed.

(** *** Processes under construction *)

(** Seen through the threads and the slots. *)
Definition embryo (pid : ProcessId) (e : SmpExecution) : Prop :=
  (∃ sh, process_shell (ex_processes e) pid = Some sh ∧ p_exit sh = None ∧ p_children sh = []) ∧
  ∀ k, t_process <$> thread (ex_processes e) k = Some pid → live_in e k.

Lemma embryo_unstarted pid e : inv e → embryo pid e →
  ∃ p, process (ex_processes e) pid = Some p ∧ unstarted p.
Proof.
  intros Hi [(sh & Hsh & Hex & Hch) Hl]. unfold process_shell in Hsh. apply fmap_Some in Hsh as (p & Hp & ->).
  exists p. split; [done|]. destruct (process_Some _ _ _ Hp) as (i & _ & Hpi & <-). split_and!; [done..|].
  intros th Hth Hst. apply (process_threads_view _ p i th (inv_processes e Hi) Hpi) in Hth as [Hth Hpr].
  apply (Hl (t_id th)); [by rewrite Hth; cbn; rewrite Hpr|]. by rewrite (slot_of_thread e _ th Hi Hth), Hst.
Qed.

Lemma created_embryo parent e : inv e → inv (set_ex_processes (grown parent (ex_processes e)) e) →
  embryo (next_id e) (set_ex_processes (grown parent (ex_processes e)) e).
Proof.
  intros Hi Hi'. set (e' := set_ex_processes _ e) in *. pose proof (inv_processes e' Hi') as Ht. split.
  - exists (shell (fresh_process (next_id e) parent)). split_and!; [|done..].
    apply process_shell_lookup; [apply Ht|]. split; [|done]. apply list_elem_of_fmap_2. cbn. set_solver.
  - intros k (th & Hth & Hpr)%fmap_Some. destruct (locate _ k th Ht Hth) as (_ & i & p & j & _ & Hpi & Hj & _ & _ & Hpid).
    exfalso. cbn in Hpi. apply lookup_app_Some in Hpi as [Hpi|[_ Hpi]].
    + rewrite list_lookup_fmap in Hpi. apply fmap_Some in Hpi as (q & Hq%list_elem_of_lookup_2 & ->).
      destruct (adopt_relink parent (next_id e) q) as [Hqid _].
      pose proof (proj2 (inv_next _ (inv_processes e Hi)) q Hq). lia.
    + apply list_lookup_singleton_Some in Hpi as [_ <-]. done.
Qed.

Lemma admitted_embryo pid id name e e' t' : inv e → inv e' → embryo pid e →
  thread_inserted pid id name (ex_processes e) t' → admitted id t' e e' → embryo pid e'.
Proof.
  intros Hi Hi' [(sh & Hsh & Hex & Hch) Hl] [Hit Hfresh Hv (i & p & Hp & Hpid & _ & Hps) _] [[Hshells Hown] Hlive]. split.
  - unfold process_shell in Hsh. apply fmap_Some in Hsh as (p' & Hp' & ->).
    assert (p' = p) as ->.
    { destruct (process_Some _ _ _ Hp') as (j & _ & Hj & Hid).
      eapply (NoDup_key_inj p_id (processes (ex_processes e))); [apply (inv_processes e Hi)|..];
        [by eapply list_elem_of_lookup_2..|congruence]. }
    rewrite (process_shell_ext t') by (apply Hit || done).
    set (p1 := set_p_state PRunning _) in Hps. exists (shell p1). split_and!; [|done..].
    apply process_shell_lookup; [apply Hit|]. split; [|done]. apply list_elem_of_fmap_2. rewrite Hps.
    apply list_elem_of_insert. by eapply lookup_lt_Some.
  - intros k Hk. apply Hlive. rewrite Hown, Hv in Hk. destruct (decide (k = id)); [by left|right; by apply Hl].
Qed.
