(* ===== verification/SmpExecutionProps.v ===== *)
(** * SmpExecutionProps: the calls of the coordinator

    Every coordinator call keeps lifecycle and scheduling in step and hits no
    [expect]; failed calls change nothing; what blocking a thread and rolling back a
    process do.  Histories of calls are in ExecutionRuntime.v. *)

From stdpp Require Import functions base list numbers option sets strings.
From Stdlib Require Import ZArith Lia.
From S2P Require Import Prelude.
From S2P Require Import Scheduling.
From S2P Require Import Slots.
From S2P Require Import ProcessModel.
From S2P Require Import SmpExecution.

Inductive op :=
| OOnline (cpu : CpuId)
| OCreateProcess (parent : option ProcessId)
| OCreateThread (process : ProcessId) (name : string) (affinity : CpuMask)
| OCreateThreadWithId (process : ProcessId) (thread : ThreadId) (name : string) (affinity : CpuMask)
| OTick (cpu : CpuId)
| OYield (cpu : CpuId)
| OBlock (thread : ThreadId)
| OSleep (thread : ThreadId)
| OWake (thread : ThreadId)
| OStop (thread : ThreadId)
| OContinue (thread : ThreadId)
| OSetAffinity (thread : ThreadId) (affinity : CpuMask)
| OMigrate (thread : ThreadId) (destination : CpuId)
| ORebalance (eligible : CpuMask)
| OExit (thread : ThreadId) (status : Z)
| ODetach (thread : ThreadId)
| OJoin (thread : ThreadId)
| OReap (process : ProcessId)
| OOrphan (process : ProcessId)
| ORollback (process : ProcessId).

Definition op_typed (o : op) : Prop :=
  match o with
  | OCreateThread _ _ m | OCreateThreadWithId _ _ _ m | OSetAffinity _ m | ORebalance m => is_u64 m
  | _ => True
  end.

(** The rollback of a process is for processes that have not been published: they
    have run no further than their creation. *)
Definition op_allowed (o : op) (e : SmpExecution) : Prop :=
  match o with
  | ORollback pid => ∀ p, process (ex_processes e) pid = Some p → unstarted p
  | _ => True
  end.

Definition exec (o : op) : M SmpExecution unit unit :=
  match o with
  | OOnline c => discard (online_cpu c)
  | OCreateProcess p => discard (create_process p)
  | OCreateThread p n m => discard (create_thread p n m)
  | OCreateThreadWithId p t n m => discard (create_thread_with_id p t n m)
  | OTick c => discard (tick c)
  | OYield c => discard (yield_current c)
  | OBlock t => discard (block_thread t)
  | OSleep t => discard (sleep_thread t)
  | OWake t => discard (wake_thread t)
  | OStop t => discard (stop_thread t)
  | OContinue t => discard (continue_thread t)
  | OSetAffinity t m => discard (set_affinity t m)
  | OMigrate t c => discard (migrate t c)
  | ORebalance m => discard (rebalance_once m)
  | OExit t x => discard (exit_thread t x)
  | ODetach t => discard (detach_thread t)
  | OJoin t => discard (join_thread t)
  | OReap p => discard (reap_process p)
  | OOrphan p => discard (orphan_process_children p)
  | ORollback p => discard (rollback_process_creation p)
  end.

Lemma kept_next e e' : kept e e' → inv e' ∧ next_id e' ≤ next_id e + 1.
Proof. intros [? ->]. split; [done|lia]. Qed.

Lemma rollback_or_allowed o : (∃ pid, o = ORollback pid) ∨ ∀ e, op_allowed o e.
Proof. destruct o; eauto; by right. Qed.

(** Rolling back an unknown process fails and changes nothing. *)
Lemma rollback_allowed_spec pid e : inv e → op_allowed (ORollback pid) e →
  wp (rollback_process_creation pid) (λ _ e', kept e e') (λ _ e', e' = e) e.
Proof.
  intros Hi Hal. cbn in Hal. destruct (process (ex_processes e) pid) as [p|] eqn:Hp.
  - eapply wp_mono; [by apply (exec_rollback_process_spec pid p); auto|by intros ?? [? _]|done].
  - unfold rollback_process_creation. apply wp_bind, wp_reads. unfold threads. by rewrite Hp.
Qed.

Lemma exec_kept o e :
  inv e → op_typed o → op_allowed o e → next_id e < u64_max →
  wp (exec o) (λ _ e', inv e' ∧ next_id e' ≤ next_id e + 1) (λ _ e', e' = e) e.
Proof.
  intros Hi Ho Hal Hn. destruct o; cbn in Ho |- *; apply wp_discard.
  - eapply wp_mono; [by apply exec_online_spec|intros ??; apply kept_next|done].
  - eapply wp_mono; [by apply exec_create_process_spec| |done].
    intros id e' (? & _ & -> & _). split; [done|lia].
  - eapply wp_mono; [by apply exec_create_thread_spec|intros ?? [? _]; by apply kept_next|done].
  - eapply wp_mono; [by apply exec_create_thread_with_id_spec|intros ?? [? _]; by apply kept_next|done].
  - eapply wp_mono; [by apply exec_tick_spec|intros ??; apply kept_next|done].
  - eapply wp_mono; [by apply exec_yield_spec|intros ??; apply kept_next|done].
  - eapply wp_mono; [by apply block_thread_spec|intros ??; apply kept_next|done].
  - eapply wp_mono; [by apply sleep_thread_spec|intros ??; apply kept_next|done].
  - eapply wp_mono; [by apply wake_thread_spec|intros ??; apply kept_next|done].
  - eapply wp_mono; [by apply stop_thread_spec|intros ??; apply kept_next|done].
  - eapply wp_mono; [by apply continue_thread_spec|intros ??; apply kept_next|done].
  - eapply wp_mono; [by apply set_affinity_spec|intros ??; apply kept_next|done].
  - eapply wp_mono; [by apply migrate_spec|intros ??; apply kept_next|done].
  - eapply wp_mono; [by apply rebalance_once_spec|intros ??; apply kept_next|done].
  - eapply wp_mono; [by apply exec_exit_spec|intros ??; apply kept_next|done].
  - eapply wp_mono; [by apply exec_detach_spec|intros ??; apply kept_next|done].
  - eapply wp_mono; [by apply exec_join_spec|intros ??; apply kept_next|done].
  - eapply wp_mono; [by apply exec_reap_spec|intros ??; apply kept_next|done].
  - eapply wp_mono; [by apply exec_orphan_spec|intros ??; apply kept_next|done].
  - eapply wp_mono; [by apply rollback_allowed_spec|intros ??; apply kept_next|done].
Qed.

Lemma start_wf n quantum m e0 k :
  is_u64 quantum → is_u64 m → with_online_mask n quantum m = Ok e0 → Z.of_nat k ≤ u64_max - 1 →
  inv e0 ∧ next_id e0 + Z.of_nat k ≤ u64_max.
Proof.
  intros Hq Hm H0 Hk. pose proof (with_online_mask_spec n quantum m Hq Hm) as Hw.
  unfold with_online_mask in H0. destruct (Scheduling.with_online_mask n quantum m) as [s| |]; try done.
  injection H0 as <-. destruct Hw as (Hs & Hnone & _). split; [|cbn; lia].
  split; cbn; [apply table_new_inv|done|]. intros id. rewrite (proj2 (slot_None s id)); done.
Qed.

(** A CPU runs a thread exactly when its lifecycle state says so. *)
Lemma running_iff e id :
  inv e →
  (∃ c, running (ex_scheduler e) c = Some id) ↔
  ∃ th, thread (ex_processes e) id = Some th ∧ t_state th = Running.
Proof.
  intros Hi. pose proof (inv_tracks e Hi id) as Ht. split.
  - intros [c Hc]. unfold running in Hc. destruct (queues _ !! c) as [q|] eqn:Hq; [|done]. cbn in Hc.
    destruct (member_slot (assignment (ex_scheduler e)) (queues (ex_scheduler e)) c q id)
      as (a & Ha & Hr & Hac); [apply (inv_agrees _ (inv_scheduler e Hi))|done|
        apply elem_of_members; by left|].
    unfold slot in Ht. rewrite (slot_in_running _ _ _ a), Hac, Hq in Ht by done. cbn in Ht.
    rewrite decide_True in Ht by done. destruct (thread _ id) as [th|]; [|done].
    exists th. split; [done|]. by apply status_on_cpu.
  - intros (th & Hth & Hst). rewrite Hth in Ht. cbn in Ht. rewrite Hst in Ht. cbn in Ht.
    unfold slot, slot_in in Ht. destruct (assignment _ id) as [a|]; [|done]. cbn in Ht.
    case_decide; [|done]. case_decide as Hrun; [|done]. by exists (a_cpu a).
Qed.


(** ** Blocking *)

Abbreviation state_of e id := (ProcessModel.thread_state (ex_processes e) id).

Lemma changed_state id th th' t t' k :
  thread_changed id th th' t t' →
  ProcessModel.thread_state t' k =
  if decide (k = id) then Some (t_state th') else ProcessModel.thread_state t k.
Proof. intros [_ _ Hv _ _]. unfold ProcessModel.thread_state. rewrite Hv. by case_decide. Qed.

Lemma activate_states {F} sw e :
  ProcessModel.inv (ex_processes e) →
  (∀ w, sw = Some w → state_of e (sw_to w) = Some Runnable) →
  wp (activate sw)
    (λ _ e', ∀ k, state_of e' k =
       match sw with
       | Some w => if decide (k = sw_to w) then Some Running else state_of e k
       | None => state_of e k
       end) (λ (_ : F) _, False) e.
Proof.
  intros Hi Hsw. destruct sw as [w|]; cbn; [|by wp_steps]. specialize (Hsw w eq_refl).
  unfold ProcessModel.thread_state in Hsw. apply fmap_Some in Hsw as (th & Hth & Hst).
  apply wp_procs_must.
  eapply wp_mono; [eapply (transition_ok _ _ _ th (set_t_state Running th) ()); try done| |done].
  - unfold set_state_when. by rewrite <- Hst.
  - apply set_t_state_ok; by rewrite <- ?Hst.
  - by rewrite <- Hst.
  - intros _ t' [_ Hc] k. cbn. by rewrite (changed_state _ _ _ _ _ _ Hc).
Qed.

Lemma fires_state e id x s' sw t' th' w :
  inv e → fires sw (<[id := x]> (slot (ex_scheduler e))) (slot s') → x ≠ Some Queued →
  (∀ k, ProcessModel.thread_state t' k = if decide (k = id) then th' else state_of e k) →
  sw = Some w →
  sw_to w ≠ id ∧ ProcessModel.thread_state t' (sw_to w) = Some Runnable.
Proof.
  intros Hi Hf Hx Hv ->. destruct Hf as [Hq _].
  destruct (decide (id = sw_to w)) as [Heq|Hne]; [by rewrite Heq, fn_lookup_insert in Hq|].
  split; [done|]. rewrite fn_lookup_insert_ne, (inv_tracks e Hi) in Hq by done. rewrite Hv, decide_False by done.
  unfold ProcessModel.thread_state. destruct (thread _ _) as [th|]; [|done]. cbn in *.
  by rewrite (status_queued _ Hq).
Qed.

(** Blocking a thread: it succeeds exactly for a Runnable or Running thread;
    that thread becomes Blocked; if it ran, the queue's next thread, Runnable
    before, runs in its place and is the reported switch; every other thread
    keeps its state. *)
Theorem block_thread_effect id e :
  inv e →
  match block_thread id e with
  | (Ok r, e') =>
      (state_of e id = Some Runnable ∨ state_of e id = Some Running) ∧ qt_thread r = id ∧
      (∀ w, qt_switch r = Some w → sw_to w ≠ id ∧ state_of e (sw_to w) = Some Runnable) ∧
      ∀ k, state_of e' k =
        if decide (k = id) then Some Blocked
        else match qt_switch r with
             | Some w => if decide (k = sw_to w) then Some Running else state_of e k
             | None => state_of e k
             end
  | (Err _, e') => e' = e ∧ state_of e id ≠ Some Runnable ∧ state_of e id ≠ Some Running
  | (Abort, _) => False
  end.
Proof.
  intros Hi. change (wp (block_thread id)
    (λ r e', (state_of e id = Some Runnable ∨ state_of e id = Some Running) ∧ qt_thread r = id ∧
      (∀ w, qt_switch r = Some w → sw_to w ≠ id ∧ state_of e (sw_to w) = Some Runnable) ∧
      ∀ k, state_of e' k = if decide (k = id) then Some Blocked
        else match qt_switch r with
             | Some w => if decide (k = sw_to w) then Some Running else state_of e k
             | None => state_of e k end)
    (λ _ e', e' = e ∧ state_of e id ≠ Some Runnable ∧ state_of e id ≠ Some Running) e).
  unfold block_thread. apply wp_bind, wp_reads. unfold require_state. apply wpo_bind, thread_state_spec.
  2:{ intros Hn. unfold ProcessModel.thread_state. by rewrite Hn. }
  intros th Hth. assert (state_of e id = Some (t_state th)) as Hst
    by (unfold ProcessModel.thread_state; by rewrite Hth).
  case_bool_decide as Hin.
  2:{ split_and!; [done|..]; rewrite Hst; intros [= Heq]; apply Hin; rewrite Heq; set_solver. }
  destruct (runnable_slot e id th Hi Hth Hin) as [Hcase Hns]. cbn [wpo mret outcome_ret].
  apply wp_bind, wp_sched.
  eapply wp_mono; [eapply wp_and; [apply block_slots, Hi|apply block_spec, Hi]| |by intros ?? [[_ ?%Hns] _]].
  intros r s' [(Hs' & _ & Hf) (_ & a & _ & _ & Hrid & _)]. cbv beta. apply wp_bind, wp_procs_must.
  eapply wp_mono; [eapply (transition_ok id _ (ex_processes e) th (set_t_state Blocked th) ()); try done| |done].
  - apply (inv_processes e Hi).
  - unfold set_state_when. by destruct Hcase as [-> | ->].
  - apply unstopped_ok; tauto || done.
  - by destruct Hcase as [-> | ->].
  - intros [] t' [_ Hc]. cbv beta. pose proof (λ k, changed_state _ _ _ _ _ k Hc) as Hv.
    pose proof (λ w, fires_state e id _ s' (qt_switch r) t' _ w Hi Hf ltac:(done) Hv) as Hsw.
    apply wp_bind. eapply wp_mono; [apply activate_states; [apply Hc|by intros w Hw; apply (Hsw w Hw)]| |done].
    intros [] e' He'. wp_steps. split_and!; [rewrite Hst; destruct Hcase as [-> | ->]; auto|done|..].
    + intros w Hw. destruct (Hsw w Hw) as [Hne Hrun]. split; [done|].
      by rewrite Hv, decide_False in Hrun.
    + intros k. rewrite He'. cbn [ex_processes set_ex_processes].
      destruct (qt_switch r) as [w|]; [|by rewrite Hv]. destruct (Hsw w eq_refl) as [Hne _].
      rewrite Hv. cbn [t_state set_t_state]. repeat case_decide; congruence.
Qed.

(** ** Rolling back a process *)

(** Rolling back a process whose threads are all live and that has no child
    and no exit record succeeds: the process and its threads leave the table,
    the threads leave the scheduler, and the models are in step again. *)
Theorem rollback_process_effect pid p e :
  inv e → process (ex_processes e) pid = Some p → unstarted p →
  ∃ e', rollback_process_creation pid e = (Ok (), e') ∧ inv e' ∧
        process (ex_processes e') pid = None ∧ next_id e' = next_id e.
Proof.
  intros Hi Hp Hun. pose proof (exec_rollback_process_spec pid p e Hi Hp Hun) as H. unfold wp in H.
  destruct (rollback_process_creation pid e) as [[[]| |] e']; [|done|done].
  destruct H as [[? ?] ?]. by exists e'.
Qed.

(** ** Witnesses *)

Definition start : SmpExecution :=
  match with_online_mask 2 2 3 with
  | Ok e => e
  | _ => {| ex_processes := ProcessModel.new;
            ex_scheduler := {| queues := []; assignments := []; online_mask := 0 |} |}
  end.

Lemma start_ok : with_online_mask 2 2 3 = Ok start.
Proof. by vm_compute. Qed.

Definition coord_ops : list op :=
  [OCreateProcess None; OCreateThread 1 "main" 1; OCreateThread 1 "io" 3; OCreateThread 1 "log" 1;
   OTick 0; OTick 0; OBlock 2; OStop 2; OWake 2; OContinue 2; ORebalance 3; OCreateProcess (Some 1);
   OCreateThread 2 "child" 3].

Definition coord_run (os : list op) (e : SmpExecution) : SmpExecution := foldl (λ e o, (exec o e).2) e os.

Definition coord_demo : SmpExecution := coord_run coord_ops start.

Lemma coord_ops_typed : Forall op_typed coord_ops.
Proof. repeat constructor; by vm_compute. Qed.

Lemma run_typed_wf os e : Forall op_typed os → (∀ pid, ORollback pid ∉ os) →
  inv e → next_id e + Z.of_nat (length os) ≤ u64_max →
  inv (coord_run os e) ∧ next_id (coord_run os e) ≤ next_id e + Z.of_nat (length os).
Proof.
  intros Hos. revert e. induction Hos as [|o os Ho Hos IH]; intros e Hr Hi Hn; cbn [coord_run foldl length]; [split; [done|lia]|].
  assert (op_allowed o e) as Hal by (destruct (rollback_or_allowed o) as [[pid ->]|Hal]; [destruct (Hr pid); by left|done]).
  cbn [length] in Hn. pose proof (exec_kept o e Hi Ho Hal ltac:(lia)) as Hw. unfold wp in Hw.
  assert (inv (exec o e).2 ∧ next_id (exec o e).2 ≤ next_id e + 1) as [Hi' Hn'].
  { destruct (exec o e) as [[] e']; [done|subst; split; [done|cbn; lia]|done]. }
  destruct (IH (exec o e).2) as [? ?]; [set_solver|done|lia|]. split; [done|]. unfold coord_run in *. lia.
Qed.

Lemma coord_demo_wf : inv coord_demo ∧ next_id coord_demo < u64_max.
Proof.
  destruct (start_wf 2 2 3 start 13) as [Hi Hn]; [by vm_compute|by vm_compute|apply start_ok|by vm_compute|].
  destruct (run_typed_wf coord_ops start coord_ops_typed) as [Hi' Hn']; [set_solver|done|done|]. split; [done|].
  by vm_compute.
Qed.


Lemma block_thread_effect_witness :
  ∃ r e', block_thread 3 coord_demo = (Ok r, e') ∧ state_of e' 3 = Some Blocked ∧
    state_of e' 1 = Some Running.
Proof.
  pose proof (block_thread_effect 3 coord_demo (proj1 coord_demo_wf)) as H.
  destruct (block_thread 3 coord_demo) as [[r|x|] e'] eqn:E; [|by vm_compute in E..].
  exists r, e'. split; [done|]. destruct H as (_ & _ & _ & Hk). split; [exact (Hk 3)|].
  assert (qt_switch r = Some {| sw_from := None; sw_to := 1 |}) as Hsw
    by (vm_compute in E; by injection E as <- _).
  specialize (Hk 1). rewrite Hsw in Hk. exact Hk.
Defined.

Lemma rollback_process_effect_witness :
  ∃ e', rollback_process_creation 2 coord_demo = (Ok (), e') ∧ inv e'.
Proof.
  destruct (process (ex_processes coord_demo) 2) as [p|] eqn:Hp; [|by vm_compute in Hp].
  destruct (rollback_process_effect 2 p coord_demo (proj1 coord_demo_wf) Hp) as (e' & He & Hi & _).
  - vm_compute in Hp. injection Hp as <-. split_and!; [done..|]. intros th Hth. cbn in Hth.
    apply list_elem_of_singleton in Hth. by subst.
  - exact (ex_intro _ e' (conj He Hi)).
Defined.

(** For a process that already has an exited thread the rollback is not allowed: it drops its live
    thread from the scheduler, fails on the exited one, and leaves a lifecycle
    thread no CPU queue knows. *)
Example rollback_stops_half_way :
  let e := coord_run (coord_ops ++ [OCreateThread 2 "late" 3; OExit 5 0; OCreateThread 2 "x" 3]) start in
  let r := rollback_process_creation 2 e in
  r.1 = Err (EScheduling UnknownThread) ∧ is_Some (state_of r.2 4) ∧
  state_of r.2 4 ≠ Some Exited ∧ slot (ex_scheduler r.2) 4 = None.
Proof. vm_compute. split_and!; [done|by eexists|done|done]. Qed.
