(* ===== verification/ExecutionRuntime.v ===== *)
(** * ExecutionRuntime: registering contexts with the coordinator (kernel/src/execution_runtime.rs)

    The owner of the coordinator: it registers the contexts of a CPU and of userspace
    tasks, rolling back what it created when a step fails, and ends them.  Histories
    mix its calls with calls of the coordinator, which it hands out. *)

From stdpp Require Import functions base list numbers option sets strings.
From Stdlib Require Import ZArith Lia.
From S2P Require Import Prelude Scheduling Slots ProcessModel SmpExecution SmpExecutionProps.

Inductive RuntimeError :=
| AlreadyInitialized | Unavailable | InvalidContextSlot | InvalidContextIdentity
| CpuAlreadyRegistered | EmptyContextSet
| RScheduling (e : SmpError) | RExecution (e : ExecutionError) | RLookup (e : LookupError)
| RJoin (e : JoinError) | RReap (e : ReapError) | RRollback (e : ExecutionError).

Record KernelContextRegistration := { kr_slot : Z; kr_name : string }.
Record ExecutionContext := { ec_process : ProcessId; ec_thread : ThreadId; ec_cpu : CpuId }.
Record CpuLifecycleSnapshot := {
  cl_process_id : option ProcessId; cl_thread_count : nat; cl_running_thread_count : nat;
}.

Record ExecutionRuntime := {
  execution : SmpExecution; cpu_processes : list (option ProcessId);
}.

Definition set_execution (e : SmpExecution) (r : ExecutionRuntime) : ExecutionRuntime :=
  {| execution := e; cpu_processes := cpu_processes r |}.

Abbreviation Run A := (M ExecutionRuntime RuntimeError A).

(** [self.execution.op(..)], with the error injected by [f]. *)
Definition executes {E A} (f : E → RuntimeError) : M SmpExecution E A → Run A :=
  zoom execution set_execution f.

Definition KERNEL_THREAD_ID_BASE : Z := Z.shiftl 1 63.

(** The slot is a [u8], so that the addition at 64 bits does not overflow. *)
Definition kernel_thread_id (cpu : CpuId) (slot : Z) : option ThreadId :=
  let encoded_slot := slot + 1 in
  if 255 <? encoded_slot then None
  else
    let raw := Z.lor (Z.lor KERNEL_THREAD_ID_BASE (Z.shiftl (Z.of_nat cpu) 8)) encoded_slot in
    if raw =? 0 then None else Some raw.

Module KernelContext.
Definition new (slot : Z) (name : string) : outcome RuntimeError KernelContextRegistration :=
  _ ← ok_or (kernel_thread_id 0 slot) InvalidContextSlot;
  mret {| kr_slot := slot; kr_name := name |}.
End KernelContext.

Definition context_thread_id {E} (r : KernelContextRegistration) (cpu : CpuId) : outcome E ThreadId :=
  expect (kernel_thread_id cpu (kr_slot r)).

Module Runtime.
Definition new (cpu_capacity : nat) (initial_online_mask : CpuMask) (quantum_ticks : Z)
    : outcome RuntimeError ExecutionRuntime :=
  e ← map_err RScheduling (with_online_mask cpu_capacity quantum_ticks initial_online_mask);
  mret {| execution := e; cpu_processes := replicate MAX_CPUS None |}.
End Runtime.

(** [if let Err(rollback) = .. { return Err(Rollback(rollback)); } return Err(error.into());] *)
Definition undo_process {A} (process : ProcessId) (error : ExecutionError) : Run A :=
  _ ← executes RRollback (rollback_process_creation process);
  lift (Err (RExecution error)).

Definition register_cpu_contexts (cpu : CpuId) (contexts : list KernelContextRegistration) : Run ProcessId :=
  _ ← lift (err_if (bool_decide (contexts = [])) EmptyContextSet);
  process_slot ← reads (λ r, ok_or (cpu_processes r !! cpu) (RScheduling InvalidCpu));
  _ ← lift (err_if (bool_decide (is_Some process_slot)) CpuAlreadyRegistered);
  _ ← executes RScheduling (online_cpu cpu);
  process ← executes (λ e, RExecution (ECreate e)) (create_process None);
  _ ← for_each contexts (λ context,
        thread ← lift (context_thread_id context cpu);
        try_catch (zoom execution set_execution (λ e, e)
            (create_thread_with_id process thread (kr_name context) (mask_single cpu)))
          (λ _, mret ()) (undo_process process));
  _ ← modify (λ r, {| execution := execution r; cpu_processes := <[cpu := Some process]> (cpu_processes r) |});
  mret process.

Definition cpu_lifecycle_snapshot (r : ExecutionRuntime) (cpu : CpuId) : CpuLifecycleSnapshot :=
  match cpu_processes r !! cpu with
  | Some (Some process) =>
      {| cl_process_id := Some process;
         cl_thread_count := match process_snapshot (ex_processes (execution r)) process with
                            | Ok snapshot => ps_thread_count snapshot | _ => 0%nat end;
         cl_running_thread_count := match thread_state_count (ex_processes (execution r)) process Running with
                                    | Ok n => n | _ => 0%nat end |}
  | _ => {| cl_process_id := None; cl_thread_count := 0; cl_running_thread_count := 0 |}
  end.

Definition register_userspace_context (parent : option ProcessId) (name : string) (cpu : CpuId)
    : Run ExecutionContext :=
  process ← executes (λ e, RExecution (ECreate e)) (create_process parent);
  admission ← try_catch (zoom execution set_execution (λ e, e) (create_thread process name (mask_single cpu)))
    mret (undo_process process);
  mret {| ec_process := process; ec_thread := pl_thread (ad_placement admission);
          ec_cpu := pl_cpu (ad_placement admission) |}.

Definition validate_context_identity (r : ExecutionRuntime) (context : ExecutionContext) : outcome RuntimeError unit :=
  thread ← map_err RLookup (thread_snapshot (ex_processes (execution r)) (ec_thread context));
  err_if (negb (bool_decide (t_process thread = ec_process context))) InvalidContextIdentity.

Definition exit_userspace_context (context : ExecutionContext) (status : Z) : Run ExitResult :=
  _ ← reads (λ r, validate_context_identity r context);
  executes RExecution (exit_thread (ec_thread context) status).

Definition wake_context (context : ExecutionContext) : Run (option WakeResult) :=
  _ ← reads (λ r, validate_context_identity r context);
  executes RExecution (wake_thread (ec_thread context)).

Definition reap_userspace_context (context : ExecutionContext) : Run ProcessExit :=
  _ ← reads (λ r, validate_context_identity r context);
  thread ← reads (λ r, map_err RLookup (thread_snapshot (ex_processes (execution r)) (ec_thread context)));
  _ ← lift (err_if (t_detached thread) (RJoin JoinDetached));
  _ ← lift (err_if (negb (bool_decide (t_state thread = Exited))) (RJoin JoinNotExited));
  process ← reads (λ r, map_err RLookup (process_snapshot (ex_processes (execution r)) (ec_process context)));
  _ ← lift (err_if (negb (bool_decide (ps_state process = PExited))) (RReap ReapNotExited));
  _ ← executes RLookup (orphan_process_children (ec_process context));
  exit ← executes RJoin (join_thread (ec_thread context));
  _ ← lift (err_if (negb (bool_decide (te_process exit = ec_process context))) InvalidContextIdentity);
  executes RReap (reap_process (ec_process context)).

Record RuntimeSnapshot := {
  rs_scheduler : SmpSnapshot; rs_registered_cpu_count : nat; rs_process_count : nat; rs_thread_count : nat;
}.

Definition snapshot (r : ExecutionRuntime) : RuntimeSnapshot :=
  {| rs_scheduler := Scheduling.snapshot (ex_scheduler (execution r));
     rs_registered_cpu_count := length (filter (λ p, is_Some p) (cpu_processes r));
     rs_process_count := length (processes (ex_processes (execution r)));
     rs_thread_count := thread_count (ex_processes (execution r)) |}.

(** *** The shared runtime *)

(** [EXECUTION_RUNTIME]: the critical sections run with the lock held. *)
Definition initialize_bootstrap : M (option ExecutionRuntime) RuntimeError unit :=
  runtime ← get;
  _ ← lift (err_if (bool_decide (is_Some runtime)) AlreadyInitialized);
  cpu0 ← lift (expect (cpu_from_raw 0));
  r ← lift (Runtime.new MAX_CPUS (mask_single cpu0) DEFAULT_QUANTUM_TICKS);
  put (Some r).

Definition with_ {A} (operation : ExecutionRuntime → A) : M (option ExecutionRuntime) RuntimeError A :=
  reads (λ runtime, ok_or (operation <$> runtime) Unavailable).

Definition with_mut {E A} (operation : M ExecutionRuntime E A) : M (option ExecutionRuntime) RuntimeError (outcome E A) :=
  runtime ← get;
  r ← lift (ok_or runtime Unavailable);
  let '(o, r') := operation r in
  _ ← put (Some r');
  mret o.

(** The attempt fails while another holder has the lock, and before the runtime is
    initialized. *)
Definition try_with_mut {E A} (locked : bool) (operation : M ExecutionRuntime E A)
    : M (option ExecutionRuntime) RuntimeError (option (outcome E A)) :=
  if locked then mret None
  else
    runtime ← get;
    match runtime with
    | None => mret None
    | Some r => let '(o, r') := operation r in _ ← put (Some r'); mret (Some o)
    end.

(** ** Specifications *)

(** The models are in step, with process identities used up to [n]. *)
Definition in_step (n : Z) (r : ExecutionRuntime) : Prop :=
  inv (execution r) ∧ next_id (execution r) ≤ n.

Definition not_rollback (x : RuntimeError) : Prop := match x with RRollback _ => False | _ => True end.

Lemma in_step_le n n' r : n ≤ n' → in_step n r → in_step n' r.
Proof. intros Hn [Hi Hr]. split; [done|lia]. Qed.

Lemma mask_single_u64 cpu : (cpu < MAX_CPUS)%nat → is_u64 (mask_single cpu).
Proof.
  intros Hc. pose proof (mask_union_u64 0 cpu ltac:(done) Hc) as H. unfold mask_union in H. by rewrite Z.lor_0_l in H.
Qed.

(** A registration that [KernelContext.new] accepts names a thread on every CPU. *)
Definition context_ok (c : KernelContextRegistration) : Prop :=
  0 ≤ kr_slot c ∧ KernelContext.new (kr_slot c) (kr_name c) = Ok c.

Lemma kernel_thread_id_ok cpu c : context_ok c → ∃ id, kernel_thread_id cpu (kr_slot c) = Some id.
Proof.
  intros [H0 Hn]. unfold KernelContext.new, kernel_thread_id in *.
  destruct (255 <? kr_slot c + 1) eqn:Hlt; [done|].
  destruct (Z.eqb_spec (Z.lor (Z.lor KERNEL_THREAD_ID_BASE (Z.shiftl (Z.of_nat cpu) 8)) (kr_slot c + 1)) 0) as [Hz|]; [|by eexists].
  apply Z.lor_eq_0_iff in Hz as [_ Hz]. lia.
Qed.

(** A coordinator call that keeps the models in step. *)
Lemma executes_in_step {E A} (f : E → RuntimeError) (m : M SmpExecution E A) n r :
  in_step n r → (∀ e, not_rollback (f e)) →
  wp m (λ _ e', kept (execution r) e') (λ _ e', e' = execution r) (execution r) →
  wp (executes f m) (λ _ r', in_step n r') (λ x r', in_step n r' ∧ not_rollback x) r.
Proof.
  intros [Hi Hn] Hf Hm. apply wp_zoom. eapply wp_mono; [exact Hm|cbv beta|cbv beta].
  - intros a e' [Hi' Hn']. split; [done|cbn; lia].
  - intros e e' ->. split; [by split|done].
Qed.

(** The failure of a step undoes the process, and the undoing does not fail. *)
Lemma undo_process_spec {A} pid error n r : in_step n r → embryo pid (execution r) →
  wp (undo_process (A := A) pid error) (λ _ _, False) (λ x r', in_step n r' ∧ not_rollback x) r.
Proof.
  intros [Hi Hn] He. destruct (embryo_unstarted _ _ Hi He) as (p & Hp & Hun). apply wp_bind, wp_zoom.
  eapply wp_mono; [by apply (exec_rollback_process_spec pid p)|cbv beta|done].
  intros [] e' [[Hi' Hn'] _]. apply wp_lift. cbn. split; [|done]. split; [done|cbn; lia].
Qed.

Lemma register_contexts_spec cpu pid cs n r : (cpu < MAX_CPUS)%nat → Forall context_ok cs →
  in_step n r → embryo pid (execution r) →
  wp (for_each cs (λ context,
        thread ← lift (context_thread_id context cpu);
        try_catch (zoom execution set_execution (λ e, e)
            (create_thread_with_id pid thread (kr_name context) (mask_single cpu)))
          (λ _, mret ()) (undo_process pid)))
    (λ _ r', in_step n r') (λ x r', in_step n r' ∧ not_rollback x) r.
Proof.
  intros Hcpu Hcs. revert r. induction Hcs as [|c cs Hc Hcs IH]; intros r Hr He; cbn [for_each]; [by wp_steps|].
  apply wp_bind, wp_bind, wp_lift. destruct (kernel_thread_id_ok cpu c Hc) as [id Hid].
  unfold context_thread_id. rewrite Hid. cbn [expect wpo]. apply wp_try_catch, wp_zoom. destruct Hr as [Hi Hn].
  eapply wp_mono; [apply exec_create_thread_with_id_spec; [done|by apply mask_single_u64]|cbv beta|cbv beta].
  - intros a e' ([Hi' Hn'] & _ & t' & Hins & Had). apply wp_ret, IH; [split; [done|cbn; lia]|].
    by apply (admitted_embryo pid id (kr_name c) (execution r) e' t').
  - intros x e' ->. eapply wp_mono; [apply undo_process_spec; [by split|done]|done|done].
Qed.

Lemma create_process_in_step parent n r : in_step n r → n < u64_max →
  wp (executes (λ e, RExecution (ECreate e)) (create_process parent))
    (λ pid r', in_step (n + 1) r' ∧ embryo pid (execution r')) (λ x r', in_step (n + 1) r' ∧ not_rollback x) r.
Proof.
  intros [Hi Hn] Hlt. apply wp_zoom.
  eapply wp_mono; [apply exec_create_process_spec; [done|lia]|cbv beta|cbv beta].
  - intros pid e' (Hi' & -> & Hn' & He'). split; [split; [done|cbn; lia]|]. cbn. rewrite He' in Hi' |- *. by apply created_embryo.
  - intros x e' ->. split; [split; [done|cbn; lia]|done].
Qed.

Lemma register_cpu_spec cpu cs n r : (cpu < MAX_CPUS)%nat → Forall context_ok cs → in_step n r → n < u64_max →
  wp (register_cpu_contexts cpu cs) (λ _ r', in_step (n + 1) r') (λ x r', in_step (n + 1) r' ∧ not_rollback x) r.
Proof.
  intros Hcpu Hcs Hr Hn. assert (in_step (n + 1) r) as Hr1 by (eapply in_step_le; [|exact Hr]; lia).
  unfold register_cpu_contexts. apply wp_bind, wp_lift, wpo_err_if; [done|intros _].
  apply wp_bind, wp_reads. destruct (cpu_processes r !! cpu) as [slot|]; [|done]. cbn [ok_or wpo].
  apply wp_bind, wp_lift, wpo_err_if; [done|intros _]. apply wp_bind.
  eapply wp_mono; [apply (executes_in_step _ _ n); [done|done|apply exec_online_spec, Hr]|cbv beta|cbv beta].
  2: { intros x r' [Hr' ?]. split; [|done]. eapply in_step_le; [|exact Hr']. lia. }
  intros _ r1 Hr'. apply wp_bind. eapply wp_mono; [by apply create_process_in_step|cbv beta|done].
  intros pid r2 [Hr2 He]. apply wp_bind. eapply wp_mono; [by apply register_contexts_spec|cbv beta|done].
  intros _ r3 Hr3. by wp_steps.
Qed.

Lemma register_userspace_spec parent name cpu n r : (cpu < MAX_CPUS)%nat → in_step n r → n < u64_max →
  wp (register_userspace_context parent name cpu) (λ _ r', in_step (n + 1) r') (λ x r', in_step (n + 1) r' ∧ not_rollback x) r.
Proof.
  intros Hcpu Hr Hn. apply wp_bind. eapply wp_mono; [by apply create_process_in_step|cbv beta|done].
  intros pid r1 [[Hi1 Hn1] He]. apply wp_bind, wp_try_catch, wp_zoom.
  eapply wp_mono; [apply exec_create_thread_spec; [done|by apply mask_single_u64]|cbv beta|cbv beta].
  - intros a e' [[Hi' Hn'] _]. wp_steps. split; [done|cbn; lia].
  - intros x e' ->. eapply wp_mono; [apply undo_process_spec; [by split|done]|done|done].
Qed.

Lemma validate_identity_wp {A} context (k : Run A) Q n r : in_step n r →
  wp k Q (λ x r', in_step n r' ∧ not_rollback x) r →
  wp (_ ← reads (λ r, validate_context_identity r context); k) Q (λ x r', in_step n r' ∧ not_rollback x) r.
Proof.
  intros Hr Hk. apply wp_bind, wp_reads. unfold validate_context_identity, thread_snapshot.
  destruct (thread _ _) as [th|]; cbn; [|done]. by case_bool_decide.
Qed.

Lemma reap_userspace_spec context n r : in_step n r →
  wp (reap_userspace_context context) (λ _ r', in_step n r') (λ x r', in_step n r' ∧ not_rollback x) r.
Proof.
  intros Hr. unfold reap_userspace_context. apply validate_identity_wp; [done|].
  apply wp_bind, wp_reads. unfold thread_snapshot. destruct (thread _ _) as [th|]; [|done]. cbn [ok_or map_err wpo].
  do 2 (apply wp_bind, wp_lift, wpo_err_if; [done|intros _]).
  apply wp_bind, wp_reads. unfold process_snapshot. destruct (process _ _) as [p|]; [|done]. cbn [ok_or map_err wpo mbind outcome_bind mret outcome_ret].
  apply wp_bind, wp_lift, wpo_err_if; [done|intros _].
  apply wp_bind. eapply wp_mono; [apply (executes_in_step _ _ n); [done|done|apply exec_orphan_spec, Hr]|cbv beta|done].
  intros _ r1 Hr1. apply wp_bind. eapply wp_mono; [apply (executes_in_step _ _ n); [done|done|apply exec_join_spec, Hr1]|cbv beta|done].
  intros exit r2 Hr2. apply wp_bind, wp_lift, wpo_err_if; [done|intros _].
  apply executes_in_step; [done|done|apply exec_reap_spec, Hr2].
Qed.

(** ** Histories *)

(** The calls of the runtime, and those of the coordinator it hands out with
    [execution_mut]. *)
Inductive call :=
| Coordinator (o : op)
| RegisterCpu (cpu : CpuId) (contexts : list KernelContextRegistration)
| RegisterUserspace (parent : option ProcessId) (name : string) (cpu : CpuId)
| ExitUserspace (context : ExecutionContext) (status : Z)
| WakeContext (context : ExecutionContext)
| ReapUserspace (context : ExecutionContext).

Definition call_typed (c : call) : Prop :=
  match c with
  | Coordinator o => op_typed o
  | RegisterCpu cpu contexts => (cpu < MAX_CPUS)%nat ∧ Forall context_ok contexts
  | RegisterUserspace _ _ cpu => (cpu < MAX_CPUS)%nat
  | _ => True
  end.

(** A direct rollback is for unpublished processes; the runtime's own need no
    assumption. *)
Definition call_allowed (c : call) (r : ExecutionRuntime) : Prop :=
  match c with Coordinator o => op_allowed o (execution r) | _ => True end.

(** The error of a coordinator call is not looked at. *)
Definition runtime_call {A} (m : Run A) : M ExecutionRuntime (option RuntimeError) unit :=
  try_catch m (λ _, mret ()) (λ e, lift (Err (Some e))).

Definition exec_call (c : call) : M ExecutionRuntime (option RuntimeError) unit :=
  match c with
  | Coordinator o => zoom execution set_execution (λ _, None) (exec o)
  | RegisterCpu cpu contexts => runtime_call (register_cpu_contexts cpu contexts)
  | RegisterUserspace parent name cpu => runtime_call (register_userspace_context parent name cpu)
  | ExitUserspace context status => runtime_call (exit_userspace_context context status)
  | WakeContext context => runtime_call (wake_context context)
  | ReapUserspace context => runtime_call (reap_userspace_context context)
  end.

Fixpoint run (cs : list call) (r : ExecutionRuntime) : ExecutionRuntime :=
  match cs with [] => r | c :: cs => run cs (exec_call c r).2 end.

Fixpoint admissible (cs : list call) (r : ExecutionRuntime) : Prop :=
  match cs with
  | [] => True
  | c :: cs => call_typed c ∧ call_allowed c r ∧ admissible cs (exec_call c r).2
  end.

Lemma runtime_call_spec {A} (m : Run A) (Q : ExecutionRuntime → Prop) r :
  wp m (λ _ r', Q r') (λ x r', Q r' ∧ not_rollback x) r →
  wp (runtime_call m) (λ _ r', Q r') (λ x r', Q r' ∧ ∀ e, x ≠ Some (RRollback e)) r.
Proof.
  intros Hm. apply wp_try_catch. eapply wp_mono; [exact Hm|by intros; wp_steps|cbv beta].
  intros x r' [Hq Hx]. apply wp_lift. cbn. split; [done|]. by intros e [= ->].
Qed.

Lemma call_in_step c n r : in_step n r → n < u64_max → call_typed c → call_allowed c r →
  wp (exec_call c) (λ _ r', in_step (n + 1) r') (λ x r', in_step (n + 1) r' ∧ ∀ e, x ≠ Some (RRollback e)) r.
Proof.
  intros Hr Hn Ht Hal. assert (in_step (n + 1) r) as Hr1 by (eapply in_step_le; [|exact Hr]; lia).
  destruct c as [o|cpu contexts|parent name cpu|context status|context|context]; cbn in Ht, Hal |- *.
  - apply wp_zoom. destruct Hr as [Hi Hle]. eapply wp_mono; [apply exec_kept; [done..|lia]|cbv beta|cbv beta].
    + intros _ e' [Hi' Hn']. split; [done|cbn; lia].
    + intros _ e' ->. split; [split; [done|cbn; lia]|done].
  - destruct Ht. apply runtime_call_spec. by apply register_cpu_spec.
  - apply runtime_call_spec. by apply register_userspace_spec.
  - apply runtime_call_spec, validate_identity_wp; [done|]. apply executes_in_step; [done|done|apply exec_exit_spec, Hr].
  - apply runtime_call_spec, validate_identity_wp; [done|]. apply executes_in_step; [done|done|apply wake_thread_spec, Hr].
  - apply runtime_call_spec. by apply reap_userspace_spec.
Qed.

Lemma run_in_step cs n r : in_step n r → n + Z.of_nat (length cs) ≤ u64_max → admissible cs r →
  in_step (n + Z.of_nat (length cs)) (run cs r).
Proof.
  revert n r. induction cs as [|c cs IH]; intros n r Hr Hn; cbn [length run admissible] in *.
  - intros _. eapply in_step_le; [|exact Hr]. lia.
  - intros (Ht & Hal & Had). pose proof (call_in_step c n r Hr ltac:(lia) Ht Hal) as Hc. unfold wp in Hc.
    replace (n + Z.of_nat (S (length cs))) with (n + 1 + Z.of_nat (length cs)) by lia. apply IH; [|lia|done].
    destruct (exec_call c r) as [[] r']; [done|apply Hc|done].
Qed.

(** C1. The runtime keeps lifecycle and scheduling in step and never panics.  From any
    accepted topology, after any history of calls (shorter than the supply of process
    identities): registrations of CPUs and userspace contexts, also those that fail
    half way and are rolled back, exits, wakes and reaps of contexts, and every call of
    the coordinator, where a process is rolled back directly only before it has run
    further than its creation.  A thread is then Running exactly when some CPU runs it,
    Runnable exactly when it waits in a queue, Blocked, Sleeping or Stopped exactly
    when it is parked, and unknown to the scheduler exactly when it has exited or does
    not exist; the next such call cannot hit any of the [expect]s, and the rollback
    inside a failed registration never fails. *)
Theorem runtime_in_step capacity quantum mask r0 cs :
  is_u64 quantum → is_u64 mask → Runtime.new capacity mask quantum = Ok r0 →
  admissible cs r0 → Z.of_nat (length cs) < u64_max - 1 →
  let r := run cs r0 in let e := execution r in
  inv e ∧
  (∀ id, slot (ex_scheduler e) id = thread (ex_processes e) id ≫= λ th, status (t_state th)) ∧
  (∀ id, (∃ c, running (ex_scheduler e) c = Some id) ↔
         ∃ th, thread (ex_processes e) id = Some th ∧ t_state th = Running) ∧
  ∀ c, call_typed c → call_allowed c r →
    (exec_call c r).1 ≠ Abort ∧ ∀ x, (exec_call c r).1 ≠ Err (Some (RRollback x)).
Proof.
  intros Hq Hm H0 Had Hlen r e. unfold Runtime.new in H0.
  destruct (with_online_mask capacity quantum mask) as [e0| |] eqn:He0; [|done..]. cbn in H0. injection H0 as <-.
  destruct (start_wf capacity quantum mask e0 0 Hq Hm He0) as [Hi0 _]; [unfold u64_max; lia|].
  assert (next_id e0 = 1) as Hn0.
  { unfold with_online_mask in He0. destruct (Scheduling.with_online_mask _ _ _); [|done..]. by injection He0 as <-. }
  pose proof (run_in_step cs 1 {| execution := e0; cpu_processes := _ |} (conj Hi0 (Z.eq_le_incl _ _ Hn0)) ltac:(lia) Had) as Hr.
  fold r in Hr. destruct Hr as [Hi Hn] eqn:Heq. split_and!; [done|apply (inv_tracks e Hi)|intros id; by apply running_iff|].
  intros c Ht Hal. pose proof (call_in_step c _ r Hr ltac:(lia) Ht Hal) as Hc. unfold wp in Hc.
  destruct (exec_call c r) as [[]]; [done| |done]. split; [done|]. intros x [= ->]. by apply (proj2 Hc x).
Qed.

(** ** Witness *)

Definition boot : ExecutionRuntime :=
  match Runtime.new 2 1 2 with Ok r => r | _ => {| execution := start; cpu_processes := [] |} end.

Definition boot_calls : list call :=
  [RegisterCpu 1 [{| kr_slot := 0; kr_name := "idle" |}; {| kr_slot := 1; kr_name := "work" |}];
   RegisterUserspace None "init" 0; RegisterUserspace (Some 2) "shell" 0;
   RegisterCpu 0 [{| kr_slot := 3; kr_name := "a" |}; {| kr_slot := 3; kr_name := "b" |}];
   Coordinator (OTick 1); Coordinator (OTick 1); Coordinator (OCreateProcess None); Coordinator (ORollback 5);
   ExitUserspace {| ec_process := 3; ec_thread := 2; ec_cpu := 0 |} 7].

Lemma context_ok_intro slot name : 0 ≤ slot < 255 → context_ok {| kr_slot := slot; kr_name := name |}.
Proof.
  intros Hs. split; cbn [kr_slot kr_name]; [lia|]. unfold KernelContext.new, kernel_thread_id.
  destruct (Z.ltb_spec 255 (slot + 1)); [lia|]. cbv zeta.
  match goal with |- context [?x =? 0] => destruct (Z.eqb_spec x 0) as [Hz|] end; [|done].
  apply Z.lor_eq_0_iff in Hz. lia.
Qed.

Lemma boot_admissible : admissible boot_calls boot.
Proof.
  split; [split; [cbv; lia|repeat constructor; apply context_ok_intro; lia]|]. split; [exact I|].
  split; [cbv; lia|]. split; [exact I|]. split; [cbv; lia|]. split; [exact I|].
  split; [split; [cbv; lia|repeat constructor; apply context_ok_intro; lia]|]. split; [exact I|].
  do 3 (split; [exact I|split; [exact I|]]). split; [exact I|]. split; [|split; [exact I|split; exact I]].
  intros p Hp. vm_compute in Hp. injection Hp as <-. split_and!; [done..|]. intros th Hth. by apply elem_of_nil in Hth.
Qed.

Lemma runtime_in_step_witness :
  running (ex_scheduler (execution (run boot_calls boot))) 0 = Some 1 ∧
  (∃ th, thread (ex_processes (execution (run boot_calls boot))) 1 = Some th ∧ t_state th = Running) ∧
  (exec_call (WakeContext {| ec_process := 2; ec_thread := 1; ec_cpu := 0 |}) (run boot_calls boot)).1 ≠ Abort.
Proof.
  destruct (runtime_in_step 2 2 1 boot boot_calls ltac:(by vm_compute) ltac:(by vm_compute) ltac:(by vm_compute)
    boot_admissible ltac:(by vm_compute)) as (_ & _ & Hrun & Hnext).
  assert (running (ex_scheduler (execution (run boot_calls boot))) 0 = Some 1) as H by (vm_compute; reflexivity).
  split; [exact H|]. split; [apply Hrun; exists 0%nat; exact H|].
  apply (Hnext (WakeContext {| ec_process := 2; ec_thread := 1; ec_cpu := 0 |}) I I).
Defined.
