(* ===== verification/NullfsBytes.v ===== *)
(** * NullFS bytes: blocks, little-endian fields and CRC32C

    Models the byte level that every NullFS record shares: the block constants
    of nullfs-format/src/lib.rs, the bitwise CRC32C of checksum.rs, and the
    little-endian field accessors and checksum helpers of phase3.rs.  A byte is
    a [Z]; a buffer is a [list Z]. *)

From stdpp Require Import base list numbers option.
From Stdlib Require Import ZArith Lia.
From S2P Require Import Prelude.

Open Scope Z_scope.

(** [BLOCK_SIZE]; kept folded, so that no proof unfolds 4096 successors. *)
Definition BLOCK_SIZE : nat := Z.to_nat 4096.
Definition BLOCK_SIZE_U64 : Z := 4096.

Lemma BLOCK_SIZE_Z : Z.of_nat BLOCK_SIZE = 4096.
Proof. reflexivity. Qed.

Lemma BLOCK_SIZE_large : (256 ≤ BLOCK_SIZE)%nat.
Proof. pose proof BLOCK_SIZE_Z. lia. Qed.

#[global] Opaque BLOCK_SIZE.

Definition is_byte (b : Z) : Prop := 0 ≤ b < 256.
Definition bytes_ok (l : list Z) : Prop := Forall is_byte l.

(** A whole block of bytes, Rust's [[u8; BLOCK_SIZE]]. *)
Definition is_block (l : list Z) : Prop := length l = BLOCK_SIZE.

Definition zeros (n : nat) : list Z := replicate n 0.

(** ** CRC32C *)

Definition REVERSED_CASTAGNOLI_POLYNOMIAL : Z := 0x82f63b78.

(** One of the eight rounds of a byte: [mask = 0.wrapping_sub(crc & 1)]. *)
Definition crc_round (crc : Z) : Z :=
  let mask := wrap 32 (0 - Z.land crc 1) in
  Z.lxor (Z.shiftr crc 1) (Z.land REVERSED_CASTAGNOLI_POLYNOMIAL mask).

Definition crc_byte (crc byte : Z) : Z := Nat.iter 8 crc_round (Z.lxor crc byte).

Definition crc32c (bytes : list Z) : Z :=
  Z.lxor (fold_left crc_byte bytes u32_max) u32_max.

(** The standard check vector, "123456789". *)
Example crc32c_check_vector :
  crc32c [0x31; 0x32; 0x33; 0x34; 0x35; 0x36; 0x37; 0x38; 0x39] = 0xe3069283.
Proof. vm_compute. reflexivity. Qed.

(** ** Little-endian integers *)

Fixpoint le_bytes (n : nat) (v : Z) : list Z :=
  match n with
  | O => []
  | S n => v mod 256 :: le_bytes n (v / 256)
  end.

Fixpoint le_value (l : list Z) : Z :=
  match l with
  | [] => 0
  | b :: l => b + 256 * le_value l
  end.

(** ** Buffers

    [slice o n b] is [b[o..o + n]]; [put_bytes b o v] is
    [b[o..o + v.len()].copy_from_slice(v)]. *)

Definition slice (o n : nat) (b : list Z) : list Z := take n (drop o b).

Definition put_bytes (b : list Z) (o : nat) (v : list Z) : list Z :=
  take o b ++ v ++ drop (o + length v) b.

Definition get_u16 (b : list Z) (o : nat) : Z := le_value (slice o 2 b).
Definition get_u32 (b : list Z) (o : nat) : Z := le_value (slice o 4 b).
Definition get_u64 (b : list Z) (o : nat) : Z := le_value (slice o 8 b).
Definition put_u16 (b : list Z) (o : nat) (v : Z) : list Z := put_bytes b o (le_bytes 2 v).
Definition put_u32 (b : list Z) (o : nat) (v : Z) : list Z := put_bytes b o (le_bytes 4 v).
Definition put_u64 (b : list Z) (o : nat) (v : Z) : list Z := put_bytes b o (le_bytes 8 v).

(** [bytes.iter().any(|v| *v != 0)] *)
Definition nonzero (l : list Z) : bool := any (λ v, negb (v =? 0)) l.

(** ** The checksum word is 32 bits wide *)

Lemma lxor_u32 a b : is_u32 a → is_u32 b → is_u32 (Z.lxor a b).
Proof.
  assert (∀ z, is_u32 z ↔ 0 ≤ z < 2 ^ 32) as Hu by (intros; unfold is_u32, u32_max; lia).
  rewrite !Hu. intros [Ha Ha'] [Hb Hb']. split; [by apply Z.lxor_nonneg|].
  destruct (decide (Z.lxor a b = 0)) as [->|Hn]; [lia|].
  apply Z.log2_lt_pow2; [pose proof (proj2 (Z.lxor_nonneg a b)); lia|].
  eapply Z.le_lt_trans; [by apply Z.log2_lxor|].
  apply Z.max_lub_lt; [destruct (decide (a = 0)) as [->|]|destruct (decide (b = 0)) as [->|]];
    try done; apply Z.log2_lt_pow2; lia.
Qed.

Lemma crc_round_u32 crc : is_u32 crc → is_u32 (crc_round crc).
Proof.
  intros Hc. apply lxor_u32.
  - unfold is_u32, u32_max in *. rewrite Z.shiftr_div_pow2 by lia.
    change (2 ^ 1) with 2. pose proof (Z.div_pos crc 2). pose proof (Z.div_le_upper_bound crc 2 4294967295). lia.
  - change 1 with (Z.ones 1). rewrite Z.land_ones by lia.
    destruct (decide (crc mod 2 ^ 1 = 0)) as [->|Hn]; [by vm_compute|].
    replace (crc mod 2 ^ 1) with 1 by (pose proof (Z.mod_pos_bound crc (2 ^ 1)); lia). by vm_compute.
Qed.

Lemma crc_byte_u32 crc b : is_u32 crc → is_byte b → is_u32 (crc_byte crc b).
Proof.
  intros Hc Hb. unfold crc_byte. generalize 8%nat as n. intros n.
  assert (is_u32 (Z.lxor crc b)) as Hx.
  { apply lxor_u32; [done|]. unfold is_byte, is_u32, u32_max in *. lia. }
  induction n as [|n IH]; cbn [Nat.iter nat_rect]; [done|]. by apply crc_round_u32.
Qed.

Lemma fold_left_inv {A B} (f : A → B → A) (P : A → Prop) (Q : B → Prop) l c :
  (∀ a b, P a → Q b → P (f a b)) → Forall Q l → P c → P (fold_left f l c).
Proof. intros Hf Hl. revert c. induction Hl; cbn; auto. Qed.

Lemma crc32c_u32 l : bytes_ok l → is_u32 (crc32c l).
Proof.
  intros Hl. assert (is_u32 u32_max) as Hm by (unfold is_u32, u32_max; lia).
  exact (lxor_u32 _ _ (fold_left_inv crc_byte is_u32 is_byte l u32_max crc_byte_u32 Hl Hm) Hm).
Qed.

#[global] Opaque crc32c.

(** ** Little-endian round trips *)

Lemma length_le_bytes n v : length (le_bytes n v) = n.
Proof. revert v. induction n as [|n IH]; intros v; cbn; [done|]. by rewrite IH. Qed.

Lemma le_bytes_ok n v : bytes_ok (le_bytes n v).
Proof.
  revert v. induction n as [|n IH]; intros v; cbn; constructor; [|apply IH].
  unfold is_byte. apply Z.mod_pos_bound. lia.
Qed.

Lemma le_value_bytes n v : 0 ≤ v < 256 ^ Z.of_nat n → le_value (le_bytes n v) = v.
Proof.
  revert v. induction n as [|n IH]; intros v Hv; cbn [le_bytes le_value]; [cbn in Hv; lia|].
  replace (256 ^ Z.of_nat (S n)) with (256 * 256 ^ Z.of_nat n) in Hv
    by (rewrite Nat2Z.inj_succ, Z.pow_succ_r; lia).
  rewrite IH; [pose proof (Z.div_mod v 256); lia|].
  split; [apply Z.div_pos; lia|]. apply Z.div_lt_upper_bound; lia.
Qed.

Lemma le_value_range l : bytes_ok l → 0 ≤ le_value l < 256 ^ Z.of_nat (length l).
Proof.
  induction 1 as [|b l Hb Hl IH]; cbn [le_value length]; [done|].
  rewrite Nat2Z.inj_succ, Z.pow_succ_r by lia. unfold is_byte in *. lia.
Qed.

Lemma le_bytes_value l : bytes_ok l → le_bytes (length l) (le_value l) = l.
Proof.
  induction 1 as [|b l Hb Hl IH]; cbn [le_value length le_bytes]; [done|].
  unfold is_byte in Hb. f_equal.
  - rewrite Z.mul_comm, Z_mod_plus_full. by apply Z.mod_small.
  - rewrite Z.add_comm, Z.mul_comm, Z.div_add_l, (Z.div_small b) by lia. by rewrite Z.add_0_r.
Qed.

(** ** Buffer laws *)

Lemma length_zeros n : length (zeros n) = n.
Proof. apply length_replicate. Qed.

Lemma length_slice o n b : (o + n ≤ length b)%nat → length (slice o n b) = n.
Proof. intros H. unfold slice. rewrite length_take, length_drop. lia. Qed.

Lemma length_put_bytes b o v : (o + length v ≤ length b)%nat → length (put_bytes b o v) = length b.
Proof. intros H. unfold put_bytes. rewrite !length_app, length_take, length_drop. lia. Qed.

Lemma slice_put_same b o v n : n = length v → (o + length v ≤ length b)%nat →
  slice o n (put_bytes b o v) = v.
Proof.
  intros -> H. unfold slice, put_bytes.
  rewrite drop_app_length' by (rewrite length_take; lia). by rewrite take_app_length.
Qed.

Lemma slice_put_before b o v o' n : (o' + n ≤ o)%nat → (o + length v ≤ length b)%nat →
  slice o' n (put_bytes b o v) = slice o' n b.
Proof.
  intros Hn H. unfold slice, put_bytes.
  rewrite drop_app_le, take_app_le by (rewrite ?length_drop, ?length_take; lia).
  by rewrite !take_drop_commute, take_take, Nat.min_l by lia.
Qed.

Lemma drop_put_after b o v o' : (o + length v ≤ o')%nat → (o + length v ≤ length b)%nat →
  drop o' (put_bytes b o v) = drop o' b.
Proof.
  intros Hn H. unfold put_bytes.
  rewrite app_assoc, drop_app_ge by (rewrite length_app, length_take; lia).
  rewrite drop_drop. f_equal. rewrite length_app, length_take. lia.
Qed.

Lemma slice_put_after b o v o' n : (o + length v ≤ o')%nat → (o + length v ≤ length b)%nat →
  slice o' n (put_bytes b o v) = slice o' n b.
Proof. intros. unfold slice. by rewrite drop_put_after. Qed.

Lemma drop_zeros o k : drop o (zeros k) = zeros (k - o).
Proof. apply drop_replicate. Qed.

Lemma slice_zeros o n k : (o + n ≤ k)%nat → slice o n (zeros k) = zeros n.
Proof.
  intros H. unfold slice, zeros. rewrite drop_replicate, take_replicate. f_equal. lia.
Qed.

Lemma put_put_bytes b o v w : length v = length w → (o + length v ≤ length b)%nat →
  put_bytes (put_bytes b o v) o w = put_bytes b o w.
Proof.
  intros Hl H. unfold put_bytes. f_equal; [|f_equal].
  - by rewrite take_app_length' by (rewrite length_take; lia).
  - rewrite <- Hl, app_assoc, drop_app_length'; [done|].
    rewrite length_app, length_take. lia.
Qed.

Lemma put_slice b o n : (o + n ≤ length b)%nat → put_bytes b o (slice o n b) = b.
Proof.
  intros H. unfold put_bytes. rewrite length_slice by done. unfold slice.
  rewrite <- drop_drop, take_drop, take_drop. done.
Qed.

Lemma nonzero_zeros n : nonzero (zeros n) = false.
Proof. apply any_false. intros x [-> _]%elem_of_replicate. done. Qed.

Lemma nonzero_false l : nonzero l = false → l = zeros (length l).
Proof.
  unfold nonzero, zeros. intros H. induction l as [|x l IH]; [done|].
  cbn in *. apply orb_false_iff in H as [Hx Hl]. bool_simpl. subst. f_equal. auto.
Qed.

Lemma nonzero_app l k : nonzero (l ++ k) = nonzero l || nonzero k.
Proof. unfold nonzero. induction l as [|x l IH]; cbn; [done|]. by rewrite IH, orb_assoc. Qed.

Lemma zeros_ok n : bytes_ok (zeros n).
Proof. apply Forall_replicate. done. Qed.

Lemma put_bytes_ok b o v : bytes_ok b → bytes_ok v → bytes_ok (put_bytes b o v).
Proof.
  intros Hb Hv. unfold put_bytes, bytes_ok. rewrite !Forall_app.
  split_and!; [by apply Forall_take|done|by apply Forall_drop].
Qed.

Lemma slice_split o n m b : slice o (n + m) b = slice o n b ++ slice (o + n) m b.
Proof. unfold slice. rewrite <- drop_drop. symmetry. apply take_take_drop. Qed.

Lemma slice_ok o n b : bytes_ok b → bytes_ok (slice o n b).
Proof. intros H. by apply Forall_take, Forall_drop. Qed.

(** Two buffers are equal when they agree on consecutive chunks of the given
    widths and on what follows. *)
Fixpoint chunks (o : nat) (ws : list nat) (b : list Z) : list (list Z) :=
  match ws with
  | [] => [drop o b]
  | w :: ws => slice o w b :: chunks (o + w) ws b
  end.

Lemma chunks_inj ws b c : chunks 0 ws b = chunks 0 ws c → b = c.
Proof.
  intros H. rewrite <- (drop_0 b), <- (drop_0 c). revert H. generalize 0%nat as o.
  induction ws as [|w ws IH]; intros o; cbn [chunks]; [by intros [= ->]|].
  intros [= Hw Hr%IH]. unfold slice in Hw. rewrite <- !drop_drop in Hr.
  by rewrite <- (take_drop w (drop o b)), <- (take_drop w (drop o c)), Hw, Hr.
Qed.

Lemma zeros_add n m : zeros (n + m) = zeros n ++ zeros m.
Proof. apply replicate_add. Qed.

Lemma drop_put_tail b o p v : (o ≤ p)%nat → (p + length v = length b)%nat →
  drop o (put_bytes b p v) = slice o (p - o) b ++ v.
Proof.
  intros Ho Hp. unfold put_bytes, slice. rewrite (drop_ge b), app_nil_r by lia.
  rewrite drop_app_le by (rewrite length_take; lia). f_equal.
  rewrite take_drop_commute. do 2 f_equal. lia.
Qed.

Lemma zeros_S n : zeros (S n) = 0 :: zeros n.
Proof. done. Qed.

Lemma slice_app_l l k : slice 0 (length l) (l ++ k) = l.
Proof. unfold slice. by rewrite drop_0, take_app_length. Qed.
Lemma slice_app_r l k o n : slice (length l + o) n (l ++ k) = slice o n k.
Proof. unfold slice. by rewrite drop_app_add. Qed.

Lemma le_bytes_0 n : le_bytes n 0 = zeros n.
Proof. unfold zeros. induction n as [|n IH]; [done|]. cbn [le_bytes replicate].
  by rewrite Z.mod_0_l, Z.div_0_l, IH. Qed.

(** A field read back as an integer is the field. *)
Lemma le_bytes_slice o n b : bytes_ok b → (o + n ≤ length b)%nat →
  le_bytes n (le_value (slice o n b)) = slice o n b.
Proof.
  intros Hb Hl. rewrite <- (length_slice o n b) at 1 by done. apply le_bytes_value. by apply slice_ok.
Qed.

Lemma get_u64_range b o : bytes_ok b → (o + 8 ≤ length b)%nat → is_u64 (get_u64 b o).
Proof.
  intros Hb Hl. pose proof (le_value_range (slice o 8 b) (slice_ok _ _ _ Hb)) as H.
  rewrite length_slice in H by done. unfold is_u64, u64_max, get_u64. cbn in H. lia.
Qed.
Lemma get_u32_range b o : bytes_ok b → (o + 4 ≤ length b)%nat → is_u32 (get_u32 b o).
Proof.
  intros Hb Hl. pose proof (le_value_range (slice o 4 b) (slice_ok _ _ _ Hb)) as H.
  rewrite length_slice in H by done. unfold is_u32, u32_max, get_u32. cbn in H. lia.
Qed.

Lemma le_value_u64 v : is_u64 v → le_value (le_bytes 8 v) = v.
Proof. intros H. apply le_value_bytes. unfold is_u64, u64_max in H. cbn. lia. Qed.
Lemma le_value_u32 v : is_u32 v → le_value (le_bytes 4 v) = v.
Proof. intros H. apply le_value_bytes. unfold is_u32, u32_max in H. cbn. lia. Qed.

Lemma le_value_u16 v : 0 ≤ v ≤ u16_max → le_value (le_bytes 2 v) = v.
Proof. intros H. apply le_value_bytes. unfold u16_max in H. cbn. lia. Qed.

#[global] Arguments le_bytes : simpl never.
#[global] Arguments le_value : simpl never.
#[global] Arguments slice : simpl never.
#[global] Arguments put_bytes : simpl never.

#[global] Opaque le_bytes le_value slice put_bytes zeros.

(** The same laws over buffers of a known length [N], the form that the
    tactics use: [lens] finds the length of nested updates, [slices N] reads a
    buffer of [N] bytes field by field. *)

Section sized.
Context (N : nat) (b : list Z) (Hb : length b = N).

Lemma put_len o v : (o + length v ≤ N)%nat → length (put_bytes b o v) = N.
Proof using Hb. intros. rewrite length_put_bytes; lia. Qed.
Lemma slice_put_at o v n : n = length v → (o + length v ≤ N)%nat → slice o n (put_bytes b o v) = v.
Proof using Hb. intros. apply slice_put_same; [done|lia]. Qed.
Lemma slice_put_lo o v o' n : (o' + n ≤ o)%nat → (o + length v ≤ N)%nat →
  slice o' n (put_bytes b o v) = slice o' n b.
Proof using Hb. intros. apply slice_put_before; lia. Qed.
Lemma slice_put_hi o v o' n : (o + length v ≤ o')%nat → (o + length v ≤ N)%nat →
  slice o' n (put_bytes b o v) = slice o' n b.
Proof using Hb. intros. apply slice_put_after; lia. Qed.
Lemma drop_put_hi o v o' : (o + length v ≤ o')%nat → (o + length v ≤ N)%nat →
  drop o' (put_bytes b o v) = drop o' b.
Proof using Hb. intros. apply drop_put_after; lia. Qed.
End sized.

#[export] Hint Rewrite length_le_bytes length_zeros : bytes_len.
Ltac bound := autorewrite with bytes_len; cbn [length]; lia.

Ltac lens :=
  lazymatch goal with
  | |- length (put_bytes _ _ _) = _ => apply put_len; [lens|bound]
  | |- length (zeros _) = _ => apply length_zeros
  | |- length _ = _ => first [assumption | bound]
  | |- _ => bound
  end.

Ltac slices N :=
  unfold get_u16, get_u32, get_u64, put_u16, put_u32, put_u64;
  pose proof BLOCK_SIZE_large;
  repeat first
    [ rewrite (slice_put_at N) by lens
    | rewrite (slice_put_lo N) by lens
    | rewrite (slice_put_hi N) by lens
    | rewrite (drop_put_hi N) by lens ];
  rewrite ?drop_zeros, ?slice_zeros by lia.

(** ** Layouts

    A record is written as a sequence of updates [(offset, width, bytes)], the
    last one first.  Reads are resolved on the shape of the sequence, which is a
    closed list of numbers: [hit] finds the update that a read sees, [missed]
    says that it sees none. *)

Definition update : Type := nat * nat * list Z.

Fixpoint apply_updates (us : list update) (b : list Z) : list Z :=
  match us with
  | [] => b
  | (o, _, v) :: us => put_bytes (apply_updates us b) o v
  end.

Lemma apply_updates_cons o w v us b :
  apply_updates ((o, w, v) :: us) b = put_bytes (apply_updates us b) o v.
Proof. done. Qed.

Definition fits (N : nat) (u : update) : Prop := length u.2 = u.1.2 ∧ (u.1.1 + u.1.2 ≤ N)%nat.

Definition apart (o n : nat) (s : nat * nat) : bool :=
  ((o + n <=? s.1) || (s.1 + s.2 <=? o))%nat.

Fixpoint hit (shape : list (nat * nat)) (o n : nat) : option nat :=
  match shape with
  | [] => None
  | s :: shape =>
      if ((o =? s.1) && (n =? s.2))%nat then Some 0%nat
      else if apart o n s then S <$> hit shape o n else None
  end.

Definition missed (shape : list (nat * nat)) (o n : nat) : bool := forallb (apart o n) shape.

Section layout.
Context (N : nat) (b : list Z) (Hb : length b = N).
Implicit Types us : list update.

Lemma length_apply_updates us : Forall (fits N) us → length (apply_updates us b) = N.
Proof using Hb.
  induction 1 as [|[[o w] v] us [Hw Hf] Hus IH]; cbn [apply_updates]; [done|].
  cbn in *. apply put_len; lia.
Qed.

Lemma apply_updates_ok us : bytes_ok b → Forall (λ u, bytes_ok u.2) us →
  bytes_ok (apply_updates us b).
Proof.
  intros Hok. induction 1 as [|[[o w] v] us Hv Hus IH]; cbn [apply_updates]; [done|].
  by apply put_bytes_ok.
Qed.

Lemma slice_apart us u o n : Forall (fits N) (u :: us) → apart o n u.1 = true →
  slice o n (apply_updates (u :: us) b) = slice o n (apply_updates us b).
Proof using Hb.
  intros [[Hw Hf] Hus]%Forall_cons_1 Ha. destruct u as [[o' w] v]. cbn in *.
  pose proof (length_apply_updates us Hus). unfold apart in Ha. cbn in Ha.
  apply orb_true_iff in Ha as [Ha%Nat.leb_le|Ha%Nat.leb_le];
    [apply (slice_put_lo N)|apply (slice_put_hi N)]; lia.
Qed.

Lemma field_hit us o n i u : Forall (fits N) us → hit (fst <$> us) o n = Some i → us !! i = Some u →
  slice o n (apply_updates us b) = u.2.
Proof using Hb.
  intros Hus. revert i. induction us as [|x us IH]; intros i; cbn [fmap list_fmap hit]; [done|].
  pose proof Hus as [[Hw Hf] Hus']%Forall_cons_1.
  destruct (_ && _) eqn:E.
  - intros [= <-] [= ->]. apply andb_true_iff in E as [->%Nat.eqb_eq ->%Nat.eqb_eq].
    destruct u as [[o w] v]. cbn in *. pose proof (length_apply_updates us Hus').
    apply (slice_put_at N); lia.
  - destruct (apart o n x.1) eqn:Ha; [|done]. destruct (hit _ o n) eqn:Hh; [|done].
    intros [= <-] Hu. rewrite slice_apart by done. by eapply IH.
Qed.

Lemma field_missed us o n : Forall (fits N) us → missed (fst <$> us) o n = true →
  slice o n (apply_updates us b) = slice o n b.
Proof using Hb.
  intros Hus. induction us as [|x us IH]; cbn [fmap list_fmap missed forallb]; [done|].
  pose proof Hus as [_ Hus']%Forall_cons_1. intros [Ha Hm]%andb_true_iff.
  rewrite slice_apart by done. by apply IH.
Qed.

Lemma drop_missed us o : Forall (fits N) us →
  forallb (λ s : nat * nat, (s.1 + s.2 <=? o)%nat) (fst <$> us) = true →
  drop o (apply_updates us b) = drop o b.
Proof using Hb.
  intros Hus. induction us as [|[[o' w] v] us IH]; cbn; [done|].
  apply Forall_cons_1 in Hus as [[Hw Hf] Hus]. cbn in *. intros [Ha%Nat.leb_le Hm]%andb_true_iff.
  rewrite (drop_put_hi N) by (rewrite ?length_apply_updates by done; lia). by apply IH.
Qed.
End layout.

#[global] Arguments apply_updates : simpl never.

Ltac fits_solve :=
  pose proof BLOCK_SIZE_large;
  repeat (apply Forall_cons_2;
    [split; cbn [fst snd]; first [apply length_le_bytes | assumption | reflexivity | lia]|]);
  apply Forall_nil_2.

Ltac bytes_solve :=
  repeat (apply Forall_cons_2; [cbn [snd]; first [apply le_bytes_ok | assumption
    | repeat (apply Forall_cons_2; [split; reflexivity || discriminate|]); apply Forall_nil_2]|]);
  apply Forall_nil_2.

(** Read the fields of a layout: [layout N Hus] resolves the slices of
    [apply_updates us (zeros N)]. *)
Ltac shape_solve :=
  lazymatch goal with
  | |- hit _ _ _ = _ => lazy; reflexivity
  | |- missed _ _ _ = _ => lazy; reflexivity
  | |- forallb _ _ = _ => lazy; reflexivity
  | |- _ => reflexivity
  end.

Ltac layout N Hus :=
  repeat match goal with
  | |- context [slice ?o ?n (apply_updates ?us ?b)] => first
      [ erewrite (field_hit N b (length_zeros N) us o n _ _ Hus) by shape_solve
      | rewrite (field_missed N b (length_zeros N) us o n Hus) by shape_solve ]
  | |- context [drop ?o (apply_updates ?us ?b)] =>
      rewrite (drop_missed N b (length_zeros N) us o Hus) by shape_solve
  end.
