(* ===== verification/NullfsPhase3.v ===== *)
(** * NullFS phase 3 records: journal tags, journal controls, filesystem state

    Models nullfs-format/src/phase3.rs and the error type of
    nullfs-format/src/lib.rs: the three checksummed block records of the redo
    journal with their canonical little-endian encoding, the digest that binds a
    control to its tags, and the allocation bitmaps.  The records are instances
    of [BlockCodec]: decoding undoes encoding, and accepts nothing else. *)

From stdpp Require Import base list numbers option.
From Stdlib Require Import ZArith Lia.
From S2P Require Import Prelude NullfsBytes.

Open Scope Z_scope.

(** ** Errors of the format crate *)

Module FormatError.
Inductive t :=
| TruncatedSuperblock (actual : Z)
| InvalidMagic
| ChecksumMismatch (expected actual : Z)
| UnsupportedMajorVersion (version : Z)
| UnsupportedMinorVersion (version : Z)
| InvalidHeaderSize (size : Z)
| InvalidBlockSize (size : Z)
| InvalidState (state : Z)
| InvalidUuid
| InvalidLabel
| NonZeroReservedBytes
| UnsupportedIncompatibleFeatures (features : Z)
| ReadOnlyFeaturesRequired (features : Z)
| DirtyVolume
| InvalidCapacity
| InvalidAllocationGroupSize
| InvalidAllocationGroupCount
| InvalidDescriptorReservation
| InvalidDescriptorStart
| InvalidFirstAllocatableBlock
| DeviceTooSmall
| ArithmeticOverflow
| LabelTooLong
| LabelContainsNul
| TruncatedPhase2Record (expected actual : Z)
| Phase2ChecksumMismatch (expected actual : Z)
| NonZeroPhase2ReservedBytes
| InvalidAllocationGroupTable
| InvalidAllocationGroupDescriptor
| TooManyAllocationGroupDescriptors
| InvalidNodeKind (kind : Z)
| InvalidTimestamp
| InvalidInode
| InvalidFreeInode
| TooManyExtents
| InvalidExtent
| UnsupportedInlineSymlink
| InvalidDirectoryBlock
| InvalidDirectoryEntry
| InvalidDirectoryName
| DuplicateDirectoryName
| InvalidPhase3Geometry
| TruncatedPhase3Block (actual : Z)
| Phase3ChecksumMismatch (expected actual : Z)
| InvalidJournalState (state : Z)
| InvalidJournalControl
| InvalidJournalTag
| JournalTagsMismatch
| InvalidFilesystemState
| IdentifierExhausted
| BitmapOutOfBounds
| NonCanonicalBitmapTail.
End FormatError.

(** ** Constants *)

Definition PHASE3_MAX_UPDATES : nat := 64.
Definition JOURNAL_CONTROL_BLOCKS : Z := 2.
Definition JOURNAL_TAG_BLOCKS : Z := Z.of_nat PHASE3_MAX_UPDATES.
Definition JOURNAL_IMAGE_BLOCKS : Z := Z.of_nat PHASE3_MAX_UPDATES.
Definition PHASE3_JOURNAL_BLOCK_COUNT : Z :=
  JOURNAL_CONTROL_BLOCKS + JOURNAL_TAG_BLOCKS + JOURNAL_IMAGE_BLOCKS.
Definition PHASE3_BACKUP_SUPERBLOCK_BLOCK : Z := 18.
Definition PHASE3_FILESYSTEM_STATE_BLOCK : Z := 19.
Definition PHASE3_JOURNAL_FIRST_BLOCK : Z := 20.
Definition PHASE3_FIRST_ALLOCATABLE_BLOCK : Z :=
  PHASE3_JOURNAL_FIRST_BLOCK + PHASE3_JOURNAL_BLOCK_COUNT.

(** The eight-byte magics "NFSJCTL", "NFSJTAG" and "NFSSTAT", NUL-terminated. *)
Definition JOURNAL_CONTROL_MAGIC : list Z := [0x4e; 0x46; 0x53; 0x4a; 0x43; 0x54; 0x4c; 0].
Definition JOURNAL_TAG_MAGIC : list Z := [0x4e; 0x46; 0x53; 0x4a; 0x54; 0x41; 0x47; 0].
Definition FILESYSTEM_STATE_MAGIC : list Z := [0x4e; 0x46; 0x53; 0x53; 0x54; 0x41; 0x54; 0].
Definition JOURNAL_HEADER_BYTES : Z := 64.
Definition JOURNAL_CHECKSUM_OFFSET : nat := 60.
Definition FILESYSTEM_STATE_ORPHAN_HEAD_OFFSET : nat := 32.
Definition FILESYSTEM_STATE_FREE_BLOCK_COUNT_OFFSET : nat := 40.
Definition FILESYSTEM_STATE_FREE_INODE_COUNT_OFFSET : nat := 48.
Definition FILESYSTEM_STATE_CHECKSUM_OFFSET : nat := 60.
Definition INITIAL_GENERATION : Z := 1.
Definition INITIAL_TRANSACTION_ID : Z := 1.

Lemma length_JOURNAL_CONTROL_MAGIC : length JOURNAL_CONTROL_MAGIC = 8%nat.
Proof. done. Qed.
Lemma length_JOURNAL_TAG_MAGIC : length JOURNAL_TAG_MAGIC = 8%nat.
Proof. done. Qed.
Lemma length_FILESYSTEM_STATE_MAGIC : length FILESYSTEM_STATE_MAGIC = 8%nat.
Proof. done. Qed.
#[export] Hint Rewrite length_JOURNAL_CONTROL_MAGIC length_JOURNAL_TAG_MAGIC
  length_FILESYSTEM_STATE_MAGIC : bytes_len.

Inductive JournalState := Empty | Committed.
#[global] Instance JournalState_eq_dec : EqDecision JournalState.
Proof. solve_decision. Defined.

(** [state as u32] *)
Definition journal_state_u32 (s : JournalState) : Z :=
  match s with Empty => 0 | Committed => 1 end.

Definition journal_state_decode (value : Z) : outcome FormatError.t JournalState :=
  match value with
  | 0 => Ok Empty
  | 1 => Ok Committed
  | _ => Err (FormatError.InvalidJournalState value)
  end.

Definition next_generation (current : Z) : outcome FormatError.t Z :=
  ok_or (checked_add u64_max current 1) FormatError.IdentifierExhausted.
Definition next_transaction_id (current : Z) : outcome FormatError.t Z :=
  ok_or (checked_add u64_max current 1) FormatError.IdentifierExhausted.

(** ** Blocks and checksums *)

Definition checked_block (bytes : list Z) : outcome FormatError.t (list Z) :=
  if (length bytes <? BLOCK_SIZE)%nat
  then Err (FormatError.TruncatedPhase3Block (Z.of_nat (length bytes)))
  else Ok (take BLOCK_SIZE bytes).

Definition put_checksum (block : list Z) (offset : nat) : list Z :=
  put_u32 block offset (crc32c block).

Definition verify_checksum (block : list Z) (offset : nat) : outcome FormatError.t unit :=
  let stored := get_u32 block offset in
  let copy := put_bytes block offset (zeros 4) in
  let actual := crc32c copy in
  if stored =? actual then Ok ()
  else Err (FormatError.Phase3ChecksumMismatch stored actual).

(** ** Journal tags *)

Module JournalTag.
Record t := mk {
  transaction_id : Z;
  target_home_block : Z;
  image_checksum : Z;
  update_index : Z;
}.
#[global] Instance t_eq_dec : EqDecision t.
Proof. solve_decision. Defined.

Definition validate (self : t) : outcome FormatError.t unit :=
  err_if ((transaction_id self =? 0) || (target_home_block self =? 0)
          || (Z.of_nat PHASE3_MAX_UPDATES <=? update_index self))
    FormatError.InvalidJournalTag.

Definition new (transaction_id update_index target_home_block : Z) (image : list Z)
    : outcome FormatError.t t :=
  _ ← err_if (negb (length image =? BLOCK_SIZE)%nat) FormatError.InvalidJournalTag;
  let tag := mk transaction_id target_home_block (crc32c image) update_index in
  _ ← validate tag;
  mret tag.

Definition image_matches (self : t) (image : list Z) : bool :=
  (length image =? BLOCK_SIZE)%nat && (crc32c image =? image_checksum self).

Definition encode (self : t) : outcome FormatError.t (list Z) :=
  _ ← validate self;
  let out := zeros BLOCK_SIZE in
  let out := put_bytes out 0 JOURNAL_TAG_MAGIC in
  let out := put_u16 out 8 1 in
  let out := put_u16 out 10 JOURNAL_HEADER_BYTES in
  let out := put_u64 out 16 (transaction_id self) in
  let out := put_u64 out 24 (target_home_block self) in
  let out := put_u32 out 32 (image_checksum self) in
  let out := put_u32 out 36 (update_index self) in
  mret (put_checksum out JOURNAL_CHECKSUM_OFFSET).

Definition decode (bytes : list Z) : outcome FormatError.t t :=
  b ← checked_block bytes;
  _ ← verify_checksum b JOURNAL_CHECKSUM_OFFSET;
  _ ← err_if (negb (bool_decide (slice 0 8 b = JOURNAL_TAG_MAGIC))
              || negb (get_u16 b 8 =? 1)
              || negb (get_u16 b 10 =? JOURNAL_HEADER_BYTES)
              || nonzero (slice 12 4 b)
              || nonzero (slice 40 20 b)
              || nonzero (drop 64 b))
    FormatError.InvalidJournalTag;
  let tag := mk (get_u64 b 16) (get_u64 b 24) (get_u32 b 32) (get_u32 b 36) in
  _ ← validate tag;
  mret tag.

(** Fields within their machine types. *)
Definition typed (self : t) : Prop :=
  is_u64 (transaction_id self) ∧ is_u64 (target_home_block self) ∧
  is_u32 (image_checksum self) ∧ is_u32 (update_index self).
End JournalTag.

(** [for (index, tag) in tags.iter().enumerate()]: [prior] is [tags[..index]]. *)
Fixpoint validate_tag_loop (transaction_id : Z) (prior tags : list JournalTag.t)
    : outcome FormatError.t unit :=
  match tags with
  | [] => Ok ()
  | tag :: tags =>
      _ ← JournalTag.validate tag;
      _ ← err_if (negb (JournalTag.transaction_id tag =? transaction_id)
                  || negb (JournalTag.update_index tag =? Z.of_nat (length prior)))
            FormatError.JournalTagsMismatch;
      _ ← err_if (any (λ p, JournalTag.target_home_block p =? JournalTag.target_home_block tag) prior)
            FormatError.JournalTagsMismatch;
      validate_tag_loop transaction_id (push prior tag) tags
  end.
Definition validate_tag_sequence (transaction_id : Z) (tags : list JournalTag.t)
    : outcome FormatError.t unit := validate_tag_loop transaction_id [] tags.

(** Every tag fills its own 24-byte window of a zeroed buffer of 64 windows; the
    filled prefix is hashed.  Both callers bound the number of tags by 64. *)
Fixpoint digest_fill (index : nat) (tags : list JournalTag.t) (canonical : list Z) : list Z :=
  match tags with
  | [] => canonical
  | tag :: tags =>
      let o := (index * 24)%nat in
      let canonical := put_bytes canonical o (le_bytes 8 (JournalTag.transaction_id tag)) in
      let canonical := put_bytes canonical (o + 8) (le_bytes 8 (JournalTag.target_home_block tag)) in
      let canonical := put_bytes canonical (o + 16) (le_bytes 4 (JournalTag.image_checksum tag)) in
      let canonical := put_bytes canonical (o + 20) (le_bytes 4 (JournalTag.update_index tag)) in
      digest_fill (S index) tags canonical
  end.
Definition tags_digest (tags : list JournalTag.t) : Z :=
  crc32c (take (length tags * 24) (digest_fill 0 tags (zeros (PHASE3_MAX_UPDATES * 24)))).

(** ** Journal controls *)

Module JournalControl.
Record t := mk {
  generation : Z;
  transaction_id : Z;
  state : JournalState;
  update_count : Z;
  tags_digest : Z;
}.
#[global] Instance t_eq_dec : EqDecision t.
Proof. solve_decision. Defined.

Definition empty (generation : Z) : t := mk generation 0 Empty 0 0.

Definition committed (generation transaction_id : Z) (tags : list JournalTag.t)
    : outcome FormatError.t t :=
  _ ← err_if ((generation =? 0) || (transaction_id =? 0) || (length tags =? 0)%nat
              || (PHASE3_MAX_UPDATES <? length tags)%nat)
        FormatError.InvalidJournalControl;
  _ ← validate_tag_sequence transaction_id tags;
  mret (mk generation transaction_id Committed (Z.of_nat (length tags))
          (NullfsPhase3.tags_digest tags)).

Definition canonical (self : t) : bool :=
  negb (generation self =? 0)
  && match state self with
     | Empty => (transaction_id self =? 0) && (update_count self =? 0) && (tags_digest self =? 0)
     | Committed => negb (transaction_id self =? 0) && negb (update_count self =? 0)
                    && (update_count self <=? Z.of_nat PHASE3_MAX_UPDATES)
     end.
Definition validate (self : t) : outcome FormatError.t unit :=
  if canonical self then Ok () else Err FormatError.InvalidJournalControl.

Definition validate_tags (self : t) (tags : list JournalTag.t) : outcome FormatError.t unit :=
  _ ← validate self;
  match state self with
  | Empty => if (length tags =? 0)%nat then Ok () else Err FormatError.JournalTagsMismatch
  | Committed =>
      _ ← err_if (negb (Z.of_nat (length tags) =? update_count self)) FormatError.JournalTagsMismatch;
      _ ← validate_tag_sequence (transaction_id self) tags;
      err_if (negb (NullfsPhase3.tags_digest tags =? tags_digest self)) FormatError.JournalTagsMismatch
  end.

Definition encode (self : t) : outcome FormatError.t (list Z) :=
  _ ← validate self;
  let out := zeros BLOCK_SIZE in
  let out := put_bytes out 0 JOURNAL_CONTROL_MAGIC in
  let out := put_u16 out 8 1 in
  let out := put_u16 out 10 JOURNAL_HEADER_BYTES in
  let out := put_u64 out 16 (generation self) in
  let out := put_u64 out 24 (transaction_id self) in
  let out := put_u32 out 32 (journal_state_u32 (state self)) in
  let out := put_u32 out 36 (update_count self) in
  let out := put_u32 out 40 (tags_digest self) in
  mret (put_checksum out JOURNAL_CHECKSUM_OFFSET).

Definition decode (bytes : list Z) : outcome FormatError.t t :=
  b ← checked_block bytes;
  _ ← verify_checksum b JOURNAL_CHECKSUM_OFFSET;
  _ ← err_if (negb (bool_decide (slice 0 8 b = JOURNAL_CONTROL_MAGIC))
              || negb (get_u16 b 8 =? 1)
              || negb (get_u16 b 10 =? JOURNAL_HEADER_BYTES)
              || nonzero (slice 12 4 b)
              || nonzero (slice 44 16 b)
              || nonzero (drop 64 b))
    FormatError.InvalidJournalControl;
  state ← journal_state_decode (get_u32 b 32);
  let control := mk (get_u64 b 16) (get_u64 b 24) state (get_u32 b 36) (get_u32 b 40) in
  _ ← validate control;
  mret control.

Definition typed (self : t) : Prop :=
  is_u64 (generation self) ∧ is_u64 (transaction_id self) ∧
  is_u32 (update_count self) ∧ is_u32 (tags_digest self).
End JournalControl.

(** ** Filesystem state *)

Module FilesystemState.
Record t := mk {
  generation : Z;
  next_transaction_id : Z;
  orphan_head : Z;
  free_block_count : Z;
  free_inode_count : Z;
}.
#[global] Instance t_eq_dec : EqDecision t.
Proof. solve_decision. Defined.

Definition initial : t := mk INITIAL_GENERATION INITIAL_TRANSACTION_ID 0 0 0.

Definition validate (self : t) : outcome FormatError.t unit :=
  if (generation self =? 0) || (next_transaction_id self =? 0)
  then Err FormatError.InvalidFilesystemState else Ok ().

Definition encode (self : t) : outcome FormatError.t (list Z) :=
  _ ← validate self;
  let out := zeros BLOCK_SIZE in
  let out := put_bytes out 0 FILESYSTEM_STATE_MAGIC in
  let out := put_u16 out 8 1 in
  let out := put_u16 out 10 JOURNAL_HEADER_BYTES in
  let out := put_u64 out 16 (generation self) in
  let out := put_u64 out 24 (next_transaction_id self) in
  let out := put_u64 out FILESYSTEM_STATE_ORPHAN_HEAD_OFFSET (orphan_head self) in
  let out := put_u64 out FILESYSTEM_STATE_FREE_BLOCK_COUNT_OFFSET (free_block_count self) in
  let out := put_u64 out FILESYSTEM_STATE_FREE_INODE_COUNT_OFFSET (free_inode_count self) in
  mret (put_checksum out FILESYSTEM_STATE_CHECKSUM_OFFSET).

Definition decode (bytes : list Z) : outcome FormatError.t t :=
  b ← checked_block bytes;
  _ ← verify_checksum b FILESYSTEM_STATE_CHECKSUM_OFFSET;
  _ ← err_if (negb (bool_decide (slice 0 8 b = FILESYSTEM_STATE_MAGIC))
              || negb (get_u16 b 8 =? 1)
              || negb (get_u16 b 10 =? JOURNAL_HEADER_BYTES)
              || nonzero (slice 12 4 b ++ slice 56 4 b ++ drop 64 b))
    FormatError.InvalidFilesystemState;
  let state := mk (get_u64 b 16) (get_u64 b 24)
    (get_u64 b FILESYSTEM_STATE_ORPHAN_HEAD_OFFSET)
    (get_u64 b FILESYSTEM_STATE_FREE_BLOCK_COUNT_OFFSET)
    (get_u64 b FILESYSTEM_STATE_FREE_INODE_COUNT_OFFSET) in
  _ ← validate state;
  mret state.

Definition typed (self : t) : Prop :=
  is_u64 (generation self) ∧ is_u64 (next_transaction_id self) ∧ is_u64 (orphan_head self) ∧
  is_u64 (free_block_count self) ∧ is_u64 (free_inode_count self).
End FilesystemState.

(** ** Bitmaps *)

Definition bitmap_test (bitmap : list Z) (bit : nat) : option bool :=
  byte ← bitmap !! (bit / 8)%nat;
  Some (negb (Z.land byte (Z.shiftl 1 (Z.of_nat (bit mod 8))) =? 0)).

(** [!mask] at eight bits is [mask] xor 255. *)
Definition bitmap_set (bitmap : list Z) (bit : nat) (value : bool) : outcome FormatError.t (list Z) :=
  byte ← ok_or (bitmap !! (bit / 8)%nat) FormatError.BitmapOutOfBounds;
  let mask := Z.shiftl 1 (Z.of_nat (bit mod 8)) in
  mret (<[(bit / 8)%nat := if value then Z.lor byte mask
                           else Z.land byte (Z.lxor mask 255)]> bitmap).

(** [usize] is 64 bits wide. *)
Definition validate_bitmap_tail (bitmap : list Z) (valid_bits : nat) : outcome FormatError.t unit :=
  _ ← err_if (Z.min u64_max (Z.of_nat (length bitmap) * 8) <? Z.of_nat valid_bits)
        FormatError.BitmapOutOfBounds;
  let full := (valid_bits / 8)%nat in
  let remainder := (valid_bits mod 8)%nat in
  let tail_start := (full + if (remainder =? 0)%nat then 0 else 1)%nat in
  _ ← (if (remainder =? 0)%nat then Ok () else
         byte ← expect (bitmap !! full);
         err_if (negb (Z.land byte (Z.lxor (Z.shiftl 1 (Z.of_nat remainder) - 1) 255) =? 0))
           FormatError.NonCanonicalBitmapTail);
  _ ← (if (tail_start <=? length bitmap)%nat then Ok () else Abort);
  err_if (nonzero (drop tail_start bitmap)) FormatError.NonCanonicalBitmapTail.

(** ** Sealed blocks

    [put_checksum] seals a block whose checksum field is still zero, and
    [verify_checksum] accepts exactly the sealed blocks. *)

Lemma checked_block_eq b : is_block b → checked_block b = Ok b.
Proof.
  intros Hb. unfold checked_block. rewrite Hb, Nat.ltb_irrefl, <- Hb. by rewrite take_ge.
Qed.

Lemma verify_put_checksum b o : is_block b → bytes_ok b → (o + 4 ≤ BLOCK_SIZE)%nat →
  slice o 4 b = zeros 4 → verify_checksum (put_checksum b o) o = Ok ().
Proof.
  intros Hb Hok Ho Hz. unfold verify_checksum, put_checksum, get_u32, put_u32.
  rewrite (slice_put_at BLOCK_SIZE) by lens.
  rewrite put_put_bytes, <- Hz, put_slice by (unfold is_block in Hb; bound). rewrite le_value_u32 by (by apply crc32c_u32).
  by rewrite Z.eqb_refl.
Qed.

Lemma verify_checksum_sealed b o : is_block b → bytes_ok b → (o + 4 ≤ BLOCK_SIZE)%nat →
  verify_checksum b o = Ok () → b = put_checksum (put_bytes b o (zeros 4)) o.
Proof.
  intros Hb Hok Ho. unfold verify_checksum, put_checksum, put_u32.
  destruct (_ =? _) eqn:E; [|done]. bool_simpl. intros _. rewrite <- E. unfold get_u32.
  rewrite le_bytes_slice by (unfold is_block in *; rewrite ?Hb; done).
  unfold is_block in *. rewrite put_put_bytes by (rewrite ?length_slice by lia; bound).
  symmetry. apply put_slice. lia.
Qed.

(** ** The codec interface

    What the journal relies on: an encoded record is a block that decodes to
    that record, and a block that decodes is the encoding of what it decodes to,
    so no two blocks stand for the same record. *)

Class BlockCodec {A} (encode : A → outcome FormatError.t (list Z))
    (decode : list Z → outcome FormatError.t A) (typed : A → Prop) := {
  encode_block : ∀ a b, typed a → encode a = Ok b → is_block b;
  encode_ok : ∀ a b, typed a → encode a = Ok b → bytes_ok b;
  decode_encode : ∀ a b, typed a → encode a = Ok b → decode b = Ok a;
  decode_canonical : ∀ a b, is_block b → bytes_ok b → decode b = Ok a → encode a = Ok b ∧ typed a;
  encode_no_abort : ∀ a, encode a ≠ Abort;
  decode_no_abort : ∀ b, decode b ≠ Abort;
}.

Lemma encode_inj `{BlockCodec A encode decode typed} a1 a2 b :
  typed a1 → typed a2 → encode a1 = Ok b → encode a2 = Ok b → a1 = a2.
Proof. intros H1 H2 E1%decode_encode E2%decode_encode; [congruence|done..]. Qed.

(** ** Sealed layouts

    A record is a layout whose checksum field, at byte 60, the other updates
    leave alone; [image] is the sealed block. *)

Definition body (us : list update) : list Z := apply_updates us (zeros BLOCK_SIZE).
Definition sealed (us : list update) : list update :=
  (60%nat, 4%nat, le_bytes 4 (crc32c (body us))) :: us.
Definition image (us : list update) : list Z := apply_updates (sealed us) (zeros BLOCK_SIZE).

Record sealable (us : list update) : Prop := {
  sealable_fit : Forall (fits BLOCK_SIZE) us;
  sealable_ok : Forall (λ u : update, bytes_ok u.2) us;
  sealable_free : missed (fst <$> us) 60 4 = true;
}.

Section sealed.
Context (us : list update) (Hus : sealable us).

Lemma sealed_fit : Forall (fits BLOCK_SIZE) (sealed us).
Proof using Hus.
  apply Forall_cons_2; [|apply Hus]. pose proof BLOCK_SIZE_large.
  split; cbn [fst snd]; [apply length_le_bytes|lia].
Qed.

Lemma body_block : is_block (body us).
Proof using Hus. apply length_apply_updates; [apply length_zeros|apply Hus]. Qed.
Lemma body_ok : bytes_ok (body us).
Proof using Hus. apply apply_updates_ok; [apply zeros_ok|apply Hus]. Qed.
Lemma image_block : is_block (image us).
Proof using Hus. apply length_apply_updates; [apply length_zeros|apply sealed_fit]. Qed.
Lemma image_ok : bytes_ok (image us).
Proof using Hus. apply put_bytes_ok; [apply body_ok|apply le_bytes_ok]. Qed.

Lemma verify_image : verify_checksum (image us) 60 = Ok ().
Proof using Hus.
  apply verify_put_checksum; [apply body_block|apply body_ok|pose proof BLOCK_SIZE_large; lia|].
  unfold body. rewrite (field_missed BLOCK_SIZE) by first [apply length_zeros | apply Hus].
  pose proof BLOCK_SIZE_large. apply slice_zeros. lia.
Qed.

(** A block with a good checksum that agrees with the body everywhere else is
    the image. *)
Lemma image_unique b : is_block b → bytes_ok b → verify_checksum b 60 = Ok () →
  put_bytes b 60 (zeros 4) = body us → b = image us.
Proof using.
  intros Hb Hok Hv Heq. rewrite (verify_checksum_sealed b 60) at 1 by
    first [done | pose proof BLOCK_SIZE_large; lia]. by rewrite Heq.
Qed.
End sealed.

(** The steps that the three codecs share: the guard of [encode] decides
    between the sealed layout and an error; the reserved ranges that [decode]
    tests are zero; neither of them aborts. *)
Ltac encode_guard v :=
  unfold mbind, outcome_bind; destruct v as [[]| |]; split; try discriminate;
  [by intros <-%(inj Ok)|by intros [_ ->]| |]; by intros [? _].

Ltac reserved Hb :=
  bool_simpl;
  repeat match goal with H : nonzero _ = false |- _ => apply nonzero_false in H end;
  pose proof BLOCK_SIZE_large; unfold is_block in Hb;
  rewrite ?length_app, ?length_slice in * by lia; rewrite ?length_drop, ?Hb in *.

Ltac never_aborts :=
  unfold checked_block, verify_checksum, err_if, mbind, outcome_bind;
  repeat case_match; simplify_eq; done.

Ltac sealable_solve := split; [fits_solve|bytes_solve|reflexivity].

(** The fields of an image, and the layout of a block given by its fields. *)
Ltac image_fields Hus :=
  pose proof (sealed_fit _ Hus) as Hfit; unfold image, get_u16, get_u32, get_u64;
  layout BLOCK_SIZE Hfit; cbn [snd].

Ltac block_fields ws :=
  apply (chunks_inj ws); cbn [chunks Nat.add]; unfold body;
  repeat (first [rewrite (slice_put_at BLOCK_SIZE) by lens | rewrite (slice_put_lo BLOCK_SIZE) by lens
                |rewrite (slice_put_hi BLOCK_SIZE) by lens | rewrite (drop_put_hi BLOCK_SIZE) by lens]).

Module TagCodec.
Import JournalTag.

Definition updates (self : t) : list update :=
  [(36, 4, le_bytes 4 (update_index self));
   (32, 4, le_bytes 4 (image_checksum self));
   (24, 8, le_bytes 8 (target_home_block self));
   (16, 8, le_bytes 8 (transaction_id self));
   (10, 2, le_bytes 2 JOURNAL_HEADER_BYTES);
   (8, 2, le_bytes 2 1);
   (0, 8, JOURNAL_TAG_MAGIC)]%nat.

Lemma tag_sealable self : sealable (updates self).
Proof. unfold updates. sealable_solve. Qed.

Lemma tag_encode_eq self b :
  encode self = Ok b ↔ validate self = Ok () ∧ b = image (updates self).
Proof. unfold encode. encode_guard (validate self). Qed.

Lemma tag_fields self b : typed self → b = image (updates self) →
  slice 0 8 b = JOURNAL_TAG_MAGIC ∧ get_u16 b 8 = 1 ∧ get_u16 b 10 = JOURNAL_HEADER_BYTES ∧
  slice 12 4 b = zeros 4 ∧ slice 40 20 b = zeros 20 ∧ drop 64 b = zeros (BLOCK_SIZE - 64) ∧
  get_u64 b 16 = transaction_id self ∧ get_u64 b 24 = target_home_block self ∧
  get_u32 b 32 = image_checksum self ∧ get_u32 b 36 = update_index self.
Proof.
  intros (H1 & H2 & H3 & H4) ->. image_fields (tag_sealable self). pose proof BLOCK_SIZE_large.
  rewrite !slice_zeros, drop_zeros, !le_value_u64, !le_value_u32, !le_value_u16 by (done || lia).
  by split_and!.
Qed.

Lemma tag_decode_Ok self b : is_block b → decode b = Ok self ↔
  verify_checksum b 60 = Ok () ∧ slice 0 8 b = JOURNAL_TAG_MAGIC ∧
  get_u16 b 8 = 1 ∧ get_u16 b 10 = JOURNAL_HEADER_BYTES ∧
  slice 12 4 b = zeros 4 ∧ slice 40 20 b = zeros 20 ∧ drop 64 b = zeros (BLOCK_SIZE - 64) ∧
  self = mk (get_u64 b 16) (get_u64 b 24) (get_u32 b 32) (get_u32 b 36) ∧ validate self = Ok ().
Proof.
  intros Hb. unfold decode. rewrite (checked_block_eq b Hb). cbn [mbind outcome_bind].
  change JOURNAL_CHECKSUM_OFFSET with 60%nat. split.
  - intros H. oks. destruct a, a1. reserved Hb. by split_and!.
  - intros (-> & -> & -> & -> & -> & -> & -> & -> & Hv). rewrite !nonzero_zeros.
    cbn. by rewrite Hv.
Qed.

Lemma tag_canonical self b : is_block b → bytes_ok b → decode b = Ok self →
  encode self = Ok b ∧ typed self.
Proof.
  intros Hb Hok (Hc & Hm & Hv & Hh & H12 & H40 & H64 & -> & Hval)%tag_decode_Ok; [|done].
  pose proof BLOCK_SIZE_large. pose proof Hb as Hl. unfold is_block in Hl. split.
  - apply tag_encode_eq. split; [done|]. apply image_unique; [done..|].
    block_fields [8; 2; 2; 4; 8; 8; 4; 4; 20; 4]%nat.
    layout BLOCK_SIZE (sealable_fit _ (tag_sealable (mk (get_u64 b 16) (get_u64 b 24) (get_u32 b 32) (get_u32 b 36)))).
    cbn [snd transaction_id target_home_block image_checksum update_index].
    rewrite <- Hv, <- Hh, !slice_zeros, drop_zeros by lia. unfold get_u16, get_u32, get_u64.
    rewrite !le_bytes_slice by (done || lia). congruence.
  - split_and!; cbn; (apply get_u64_range || apply get_u32_range); (done || lia).
Qed.

Lemma tag_is_block a b : encode a = Ok b → is_block b.
Proof. intros [_ ->]%tag_encode_eq. apply image_block, tag_sealable. Qed.

#[export] Instance tag_codec : BlockCodec encode decode typed.
Proof.
  split.
  - intros a b _. apply tag_is_block.
  - intros a b _ [_ ->]%tag_encode_eq. apply image_ok, tag_sealable.
  - intros a b Ht [Hv ->]%tag_encode_eq. apply tag_decode_Ok; [apply image_block, tag_sealable|].
    destruct (tag_fields a _ Ht eq_refl) as (? & ? & ? & ? & ? & ? & -> & -> & -> & ->).
    split_and!; try assumption; [apply verify_image, tag_sealable|by destruct a].
  - apply tag_canonical.
  - intros a. unfold encode, validate. never_aborts.
  - intros b. unfold decode, validate. never_aborts.
Qed.
End TagCodec.

Module ControlCodec.
Import JournalControl.

Definition updates (self : t) : list update :=
  [(40, 4, le_bytes 4 (tags_digest self));
   (36, 4, le_bytes 4 (update_count self));
   (32, 4, le_bytes 4 (journal_state_u32 (state self)));
   (24, 8, le_bytes 8 (transaction_id self));
   (16, 8, le_bytes 8 (generation self));
   (10, 2, le_bytes 2 JOURNAL_HEADER_BYTES);
   (8, 2, le_bytes 2 1);
   (0, 8, JOURNAL_CONTROL_MAGIC)]%nat.

Lemma control_sealable self : sealable (updates self).
Proof. unfold updates. sealable_solve. Qed.

Lemma control_encode_eq self b :
  encode self = Ok b ↔ validate self = Ok () ∧ b = image (updates self).
Proof. unfold encode. encode_guard (validate self). Qed.

Lemma journal_state_u32_range s : is_u32 (journal_state_u32 s).
Proof. by destruct s. Qed.

Lemma journal_state_Ok v s : journal_state_decode v = Ok s → v = journal_state_u32 s.
Proof.
  unfold journal_state_decode.
  destruct v as [|[p|p|]|]; try done; by intros <-%(inj Ok).
Qed.

Lemma control_fields self b : typed self → b = image (updates self) →
  slice 0 8 b = JOURNAL_CONTROL_MAGIC ∧ get_u16 b 8 = 1 ∧ get_u16 b 10 = JOURNAL_HEADER_BYTES ∧
  slice 12 4 b = zeros 4 ∧ slice 44 16 b = zeros 16 ∧ drop 64 b = zeros (BLOCK_SIZE - 64) ∧
  get_u64 b 16 = generation self ∧ get_u64 b 24 = transaction_id self ∧
  get_u32 b 32 = journal_state_u32 (state self) ∧ get_u32 b 36 = update_count self ∧
  get_u32 b 40 = tags_digest self.
Proof.
  intros (H1 & H2 & H3 & H4) ->. image_fields (control_sealable self). pose proof BLOCK_SIZE_large.
  rewrite !slice_zeros, drop_zeros, !le_value_u64, !le_value_u32, !le_value_u16
    by first [done | apply journal_state_u32_range | lia]. by split_and!.
Qed.

Lemma control_decode_Ok self b : is_block b → decode b = Ok self ↔
  verify_checksum b 60 = Ok () ∧ slice 0 8 b = JOURNAL_CONTROL_MAGIC ∧
  get_u16 b 8 = 1 ∧ get_u16 b 10 = JOURNAL_HEADER_BYTES ∧
  slice 12 4 b = zeros 4 ∧ slice 44 16 b = zeros 16 ∧ drop 64 b = zeros (BLOCK_SIZE - 64) ∧
  get_u32 b 32 = journal_state_u32 (state self) ∧
  self = mk (get_u64 b 16) (get_u64 b 24) (state self) (get_u32 b 36) (get_u32 b 40) ∧
  validate self = Ok ().
Proof.
  intros Hb. unfold decode. rewrite (checked_block_eq b Hb). cbn [mbind outcome_bind].
  change JOURNAL_CHECKSUM_OFFSET with 60%nat. split.
  - intros H. oks. destruct a, a2. reserved Hb. cbn [state].
    split_and!; first [assumption | by apply journal_state_Ok | reflexivity].
  - intros (-> & -> & -> & -> & -> & -> & -> & Hs & Heq & Hv). rewrite !nonzero_zeros, Hs.
    cbn. replace (journal_state_decode _) with (@Ok FormatError.t _ (state self))
      by (by destruct (state self)). cbn. rewrite <- Heq, Hv. done.
Qed.

Lemma control_canonical self b : is_block b → bytes_ok b → decode b = Ok self →
  encode self = Ok b ∧ typed self.
Proof.
  intros Hb Hok (Hc & Hm & Hv & Hh & H12 & H44 & H64 & Hs & Heq & Hval)%control_decode_Ok; [|done].
  pose proof BLOCK_SIZE_large. pose proof Hb as Hl. unfold is_block in Hl.
  pose proof (control_sealable self) as Hus.
  destruct self as [g x s n d]. cbn [state] in *. injection Heq as -> -> -> ->. split.
  - apply control_encode_eq. split; [done|]. apply image_unique; [done..|].
    block_fields [8; 2; 2; 4; 8; 8; 4; 4; 4; 16; 4]%nat. layout BLOCK_SIZE (sealable_fit _ Hus).
    cbn [snd generation transaction_id state update_count tags_digest].
    rewrite <- Hv, <- Hh, <- Hs, !slice_zeros, drop_zeros by lia. unfold get_u16, get_u32, get_u64.
    rewrite !le_bytes_slice by (done || lia). congruence.
  - split_and!; cbn; (apply get_u64_range || apply get_u32_range); (done || lia).
Qed.

Lemma control_is_block a b : encode a = Ok b → is_block b.
Proof. intros [_ ->]%control_encode_eq. apply image_block, control_sealable. Qed.

#[export] Instance control_codec : BlockCodec encode decode typed.
Proof.
  split.
  - intros a b _. apply control_is_block.
  - intros a b _ [_ ->]%control_encode_eq. apply image_ok, control_sealable.
  - intros a b Ht [Hv ->]%control_encode_eq.
    apply control_decode_Ok; [apply image_block, control_sealable|].
    destruct (control_fields a _ Ht eq_refl) as (? & ? & ? & ? & ? & ? & -> & -> & ? & -> & ->).
    split_and!; try assumption; [apply verify_image, control_sealable|by destruct a].
  - apply control_canonical.
  - intros a. unfold encode, validate. never_aborts.
  - intros b. unfold decode, validate, journal_state_decode. never_aborts.
Qed.
End ControlCodec.

Module StateCodec.
Import FilesystemState.

Definition updates (self : t) : list update :=
  [(48, 8, le_bytes 8 (free_inode_count self));
   (40, 8, le_bytes 8 (free_block_count self));
   (32, 8, le_bytes 8 (orphan_head self));
   (24, 8, le_bytes 8 (next_transaction_id self));
   (16, 8, le_bytes 8 (generation self));
   (10, 2, le_bytes 2 JOURNAL_HEADER_BYTES);
   (8, 2, le_bytes 2 1);
   (0, 8, FILESYSTEM_STATE_MAGIC)]%nat.

Lemma state_sealable self : sealable (updates self).
Proof. unfold updates. sealable_solve. Qed.

Lemma state_encode_eq self b :
  encode self = Ok b ↔ validate self = Ok () ∧ b = image (updates self).
Proof. unfold encode. encode_guard (validate self). Qed.

Lemma state_fields self b : typed self → b = image (updates self) →
  slice 0 8 b = FILESYSTEM_STATE_MAGIC ∧ get_u16 b 8 = 1 ∧ get_u16 b 10 = JOURNAL_HEADER_BYTES ∧
  slice 12 4 b = zeros 4 ∧ slice 56 4 b = zeros 4 ∧ drop 64 b = zeros (BLOCK_SIZE - 64) ∧
  get_u64 b 16 = generation self ∧ get_u64 b 24 = next_transaction_id self ∧
  get_u64 b 32 = orphan_head self ∧ get_u64 b 40 = free_block_count self ∧
  get_u64 b 48 = free_inode_count self.
Proof.
  intros (H1 & H2 & H3 & H4 & H5) ->. image_fields (state_sealable self). pose proof BLOCK_SIZE_large.
  rewrite !slice_zeros, drop_zeros, !le_value_u64, !le_value_u16 by (done || lia). by split_and!.
Qed.

Lemma state_decode_Ok self b : is_block b → decode b = Ok self ↔
  verify_checksum b 60 = Ok () ∧ slice 0 8 b = FILESYSTEM_STATE_MAGIC ∧
  get_u16 b 8 = 1 ∧ get_u16 b 10 = JOURNAL_HEADER_BYTES ∧
  slice 12 4 b = zeros 4 ∧ slice 56 4 b = zeros 4 ∧ drop 64 b = zeros (BLOCK_SIZE - 64) ∧
  self = mk (get_u64 b 16) (get_u64 b 24) (get_u64 b 32) (get_u64 b 40) (get_u64 b 48) ∧
  validate self = Ok ().
Proof.
  intros Hb. unfold decode, FILESYSTEM_STATE_CHECKSUM_OFFSET, FILESYSTEM_STATE_ORPHAN_HEAD_OFFSET,
    FILESYSTEM_STATE_FREE_BLOCK_COUNT_OFFSET, FILESYSTEM_STATE_FREE_INODE_COUNT_OFFSET.
  rewrite (checked_block_eq b Hb). cbn [mbind outcome_bind]. rewrite !nonzero_app. split.
  - intros H. oks. destruct a, a1. reserved Hb. by split_and!.
  - intros (-> & -> & -> & -> & -> & -> & -> & -> & Hv). rewrite !nonzero_zeros.
    rewrite bool_decide_true by done. cbn -[validate]. by rewrite Hv.
Qed.

Lemma state_canonical self b : is_block b → bytes_ok b → decode b = Ok self →
  encode self = Ok b ∧ typed self.
Proof.
  intros Hb Hok (Hc & Hm & Hv & Hh & H12 & H56 & H64 & -> & Hval)%state_decode_Ok; [|done].
  pose proof BLOCK_SIZE_large. pose proof Hb as Hl. unfold is_block in Hl. split.
  - apply state_encode_eq. split; [done|]. apply image_unique; [done..|].
    block_fields [8; 2; 2; 4; 8; 8; 8; 8; 8; 4; 4]%nat.
    layout BLOCK_SIZE (sealable_fit _ (state_sealable
      (mk (get_u64 b 16) (get_u64 b 24) (get_u64 b 32) (get_u64 b 40) (get_u64 b 48)))).
    cbn [snd generation next_transaction_id orphan_head free_block_count free_inode_count].
    rewrite <- Hv, <- Hh, !slice_zeros, drop_zeros by lia. unfold get_u16, get_u64.
    rewrite !le_bytes_slice by (done || lia). congruence.
  - split_and!; cbn; apply get_u64_range; (done || lia).
Qed.

Lemma state_is_block a b : encode a = Ok b → is_block b.
Proof. intros [_ ->]%state_encode_eq. apply image_block, state_sealable. Qed.

#[export] Instance state_codec : BlockCodec encode decode typed.
Proof.
  split.
  - intros a b _. apply state_is_block.
  - intros a b _ [_ ->]%state_encode_eq. apply image_ok, state_sealable.
  - intros a b Ht [Hv ->]%state_encode_eq. apply state_decode_Ok; [apply image_block, state_sealable|].
    destruct (state_fields a _ Ht eq_refl) as (? & ? & ? & ? & ? & ? & -> & -> & -> & -> & ->).
    split_and!; try assumption; [apply verify_image, state_sealable|by destruct a].
  - apply state_canonical.
  - intros a. unfold encode, validate. never_aborts.
  - intros b. unfold decode, validate. never_aborts.
Qed.
End StateCodec.

(** ** Bitmaps bit by bit *)

Lemma land_bit a k : 0 ≤ k → Z.land a (Z.shiftl 1 k) = if Z.testbit a k then Z.shiftl 1 k else 0.
Proof.
  intros Hk. rewrite Z.shiftl_1_l. apply Z.bits_inj'. intros i Hi.
  rewrite Z.land_spec, Z.pow2_bits_eqb by done.
  destruct (Z.testbit a k) eqn:E; rewrite ?Z.pow2_bits_eqb, ?Z.bits_0 by done;
    destruct (Z.eqb_spec k i) as [->|]; rewrite ?E, ?andb_false_r; done.
Qed.

Lemma bitmap_test_eq bitmap bit byte : bitmap !! (bit / 8)%nat = Some byte →
  bitmap_test bitmap bit = Some (Z.testbit byte (Z.of_nat (bit mod 8))).
Proof.
  intros H. unfold bitmap_test. rewrite H. cbn [mbind option_bind]. f_equal.
  rewrite land_bit by lia. destruct (Z.testbit _ _); [|done].
  apply negb_true_iff, Z.eqb_neq. rewrite Z.shiftl_1_l. pose proof (Z.pow_pos_nonneg 2 (Z.of_nat (bit mod 8))). lia.
Qed.

Lemma bitmap_test_None bitmap bit : bitmap_test bitmap bit = None ↔ (length bitmap ≤ bit / 8)%nat.
Proof.
  unfold bitmap_test. destruct (bitmap !! _) eqn:E; cbn [mbind option_bind].
  - apply lookup_lt_Some in E. split; [done|lia].
  - by apply lookup_ge_None in E.
Qed.

(** Bits of a byte's complement-masked and masked forms. *)
Lemma testbit_clear byte k i : 0 ≤ k < 8 → 0 ≤ i < 8 →
  Z.testbit (Z.land byte (Z.lxor (Z.shiftl 1 k) 255)) i = Z.testbit byte i && negb (k =? i).
Proof.
  intros Hk Hi. rewrite Z.land_spec, Z.lxor_spec, Z.shiftl_1_l, Z.pow2_bits_eqb by lia.
  change 255 with (Z.ones 8). rewrite Z.ones_spec_low by lia. by rewrite xorb_true_r.
Qed.

Lemma testbit_set byte k i : 0 ≤ k → 0 ≤ i →
  Z.testbit (Z.lor byte (Z.shiftl 1 k)) i = Z.testbit byte i || (k =? i).
Proof. intros Hk Hi. by rewrite Z.lor_spec, Z.shiftl_1_l, Z.pow2_bits_eqb by lia. Qed.

Lemma bitmap_set_spec bitmap bit value bitmap' other :
  bitmap_set bitmap bit value = Ok bitmap' →
  length bitmap' = length bitmap ∧
  bitmap_test bitmap' other = if decide (other = bit) then Some value else bitmap_test bitmap other.
Proof.
  unfold bitmap_set. intros H. oks. rename a into byte. split; [apply length_insert|].
  pose proof (lookup_lt_Some _ _ _ E) as Hlt.
  pose proof (Nat.mod_upper_bound bit 8). pose proof (Nat.mod_upper_bound other 8).
  destruct (decide (other / 8 = bit / 8)%nat) as [Hb|Hb].
  - erewrite bitmap_test_eq by (rewrite Hb; by apply list_lookup_insert_eq).
    assert (other = bit ↔ other mod 8 = bit mod 8)%nat as Heq.
    { pose proof (Nat.div_mod_eq other 8). pose proof (Nat.div_mod_eq bit 8). lia. }
    rewrite <- Hb in E. destruct (decide (other = bit)) as [->|Hne].
    + f_equal. destruct value.
      * rewrite testbit_set, Z.eqb_refl by lia. apply orb_true_r.
      * rewrite testbit_clear, Z.eqb_refl by lia. apply andb_false_r.
    + rewrite (bitmap_test_eq _ _ _ E). f_equal.
      assert ((Z.of_nat (bit mod 8) =? Z.of_nat (other mod 8)) = false) as Hn by (apply Z.eqb_neq; lia).
      destruct value; [rewrite testbit_set by lia|rewrite testbit_clear by lia]; rewrite Hn;
        [apply orb_false_r|apply andb_true_r].
  - rewrite decide_False by congruence. unfold bitmap_test.
    by rewrite list_lookup_insert_ne by congruence.
Qed.

Lemma byte_bits_above byte i : is_byte byte → 8 ≤ i → Z.testbit byte i = false.
Proof.
  intros [H0 H1] Hi. destruct (decide (byte = 0)) as [->|]; [apply Z.bits_0|].
  apply Z.bits_above_log2; [done|]. eapply Z.lt_le_trans; [|exact Hi].
  apply Z.log2_lt_pow2; [lia|]. by change (2 ^ 8) with 256.
Qed.

Lemma mask_zero byte r : is_byte byte → 0 ≤ r < 8 →
  Z.land byte (Z.lxor (Z.shiftl 1 r - 1) 255) = 0 ↔ ∀ i, r ≤ i → Z.testbit byte i = false.
Proof.
  intros Hb Hr. rewrite Z.shiftl_1_l.
  replace (2 ^ r - 1) with (Z.ones r) by (rewrite Z.ones_equiv; lia).
  change 255 with (Z.ones 8). split.
  - intros Hz i Hi. destruct (decide (i < 8)); [|apply byte_bits_above; [done|lia]].
    assert (Z.testbit (Z.land byte (Z.lxor (Z.ones r) (Z.ones 8))) i = false) as Ht
      by (rewrite Hz; apply Z.bits_0).
    rewrite Z.land_spec, Z.lxor_spec, Z.ones_spec_high, Z.ones_spec_low in Ht by lia.
    by rewrite andb_true_r in Ht.
  - intros Hz. apply Z.bits_inj'. intros i Hi. rewrite Z.bits_0, Z.land_spec, Z.lxor_spec.
    destruct (decide (i < r)); [|by rewrite Hz by lia].
    by rewrite !Z.ones_spec_low, andb_false_r by lia.
Qed.

Lemma byte_zero byte : is_byte byte → byte = 0 ↔ ∀ i, 0 ≤ i → Z.testbit byte i = false.
Proof.
  intros Hb. split; [intros -> i _; apply Z.bits_0|]. intros H. apply Z.bits_inj'.
  intros i Hi. by rewrite H, Z.bits_0.
Qed.

(** The bits of [bitmap] from [n] on are clear. *)
Definition clear_from (bitmap : list Z) (n : nat) : Prop :=
  ∀ bit, (n ≤ bit)%nat → bitmap_test bitmap bit ≠ Some true.

Lemma clear_from_bytes bitmap n : bytes_ok bitmap →
  clear_from bitmap n ↔
  ∀ k byte, bitmap !! k = Some byte → ∀ i, 0 ≤ i → Z.of_nat n ≤ 8 * Z.of_nat k + i → Z.testbit byte i = false.
Proof.
  intros Hok. split.
  - intros Hc k byte Hk i Hi Hn. pose proof (Forall_lookup_1 _ _ _ _ Hok Hk) as Hb.
    destruct (decide (i < 8)); [|apply byte_bits_above; [done|lia]].
    specialize (Hc (8 * k + Z.to_nat i)%nat ltac:(lia)).
    assert ((8 * k + Z.to_nat i) / 8 = k)%nat as Hd by
      (symmetry; apply (Nat.div_unique _ _ _ (Z.to_nat i)); lia).
    assert ((8 * k + Z.to_nat i) mod 8 = Z.to_nat i)%nat as Hm by
      (symmetry; apply (Nat.mod_unique _ _ k); lia).
    erewrite bitmap_test_eq in Hc by (by rewrite Hd).
    rewrite Hm, Z2Nat.id in Hc by done. destruct (Z.testbit byte i); [done|done].
  - intros H bit Hbit Ht. destruct (bitmap !! (bit / 8)%nat) as [byte|] eqn:E.
    + rewrite (bitmap_test_eq _ _ _ E) in Ht. apply (inj Some) in Ht.
      rewrite (H _ _ E) in Ht; [done|lia|]. pose proof (Nat.div_mod_eq bit 8) as Hd.
      remember (bit / 8)%nat as q. remember (bit mod 8)%nat as r. lia.
    + apply lookup_ge_None in E. by rewrite (proj2 (bitmap_test_None _ _) E) in Ht.
Qed.

Lemma clear_from_drop bitmap s : bytes_ok bitmap →
  nonzero (drop s bitmap) = false ↔ clear_from bitmap (8 * s).
Proof.
  intros Hok. rewrite clear_from_bytes by done. unfold nonzero. rewrite any_false. split.
  - intros H k byte Hb i Hi Hle. pose proof (Forall_lookup_1 _ _ _ _ Hok Hb) as Hbyte.
    destruct (decide (i < 8)); [|apply byte_bits_above; [done|lia]].
    assert (negb (byte =? 0) = false) as Hz.
    { apply H. apply list_elem_of_lookup. exists (k - s)%nat. rewrite lookup_drop.
      by replace (s + (k - s))%nat with k by lia. }
    bool_simpl. subst. apply Z.bits_0.
  - intros H x [j Hj]%list_elem_of_lookup. rewrite lookup_drop in Hj.
    pose proof (Forall_lookup_1 _ _ _ _ Hok Hj) as Hx. apply negb_false_iff, Z.eqb_eq, byte_zero; [done|].
    intros i Hi. apply (H _ _ Hj i Hi). lia.
Qed.

Lemma clear_from_split bitmap q r last : bytes_ok bitmap → (r < 8)%nat → bitmap !! q = Some last →
  clear_from bitmap (8 * q + r) ↔
  Z.land last (Z.lxor (Z.shiftl 1 (Z.of_nat r) - 1) 255) = 0 ∧ clear_from bitmap (8 * (q + 1)).
Proof.
  intros Hok Hr Hl. pose proof (Forall_lookup_1 _ _ _ _ Hok Hl) as Hlb.
  rewrite mask_zero by (done || lia). rewrite !clear_from_bytes by done. split.
  - intros H. split; [intros i Hi; apply (H q last Hl i); lia|].
    intros k byte Hk i Hi Hle. apply (H k byte Hk i Hi). lia.
  - intros [Hm H] k byte Hk i Hi Hle. pose proof (Forall_lookup_1 _ _ _ _ Hok Hk) as Hb.
    destruct (decide (i < 8)); [|apply byte_bits_above; [done|lia]].
    destruct (decide (k = q)) as [->|].
    + replace byte with last by congruence. apply Hm. lia.
    + apply (H k byte Hk i Hi). lia.
Qed.

(** [validate_bitmap_tail] accepts exactly the bitmaps long enough for the valid
    bits whose other bits are clear, and never indexes out of bounds. *)
Lemma validate_bitmap_tail_spec bitmap n : bytes_ok bitmap →
  wpo (validate_bitmap_tail bitmap n)
    (λ _, Z.of_nat n ≤ Z.of_nat (length bitmap) * 8 ∧ clear_from bitmap n)
    (λ e, e = FormatError.BitmapOutOfBounds ∧ Z.min u64_max (Z.of_nat (length bitmap) * 8) < Z.of_nat n ∨
          e = FormatError.NonCanonicalBitmapTail ∧ ¬ clear_from bitmap n).
Proof.
  intros Hok. unfold validate_bitmap_tail. wp_step. wp_step; bool_simpl; [by left|].
  pose proof (Nat.div_mod_eq n 8) as Hn. pose proof (Nat.mod_upper_bound n 8 ltac:(lia)) as Hm.
  remember (n / 8)%nat as q. remember (n mod 8)%nat as r. apply wpo_bind.
  destruct (Nat.eqb_spec r 0) as [Hr|Hr]; [apply wpo_ret|apply wpo_bind].
  - rewrite Nat.add_0_r, (proj2 (Nat.leb_le _ _)) by lia. cbn [mbind outcome_bind].
    pose proof (clear_from_drop bitmap q Hok) as Hc. replace (8 * q)%nat with n in Hc by lia.
    apply wpo_err_if; intros E; [right; split; [done|]|split; [lia|by apply Hc]].
    intros Hf%Hc. congruence.
  - destruct (lookup_lt_is_Some_2 bitmap q ltac:(lia)) as [last Hl].
    eapply wpo_expect; [exact Hl|].
    pose proof (clear_from_split bitmap q r last Hok Hm Hl) as Hs. rewrite <- Hn in Hs.
    apply wpo_err_if; intros Hb; bool_simpl; [right; split; [done|]; by intros [? _]%Hs|].
    rewrite (proj2 (Nat.leb_le _ _)) by lia. cbn [mbind outcome_bind].
    pose proof (clear_from_drop bitmap (q + 1) Hok) as Hc.
    apply wpo_err_if; intros E; [right; split; [done|]|split; [lia|by apply Hs; split; [|apply Hc]]].
    intros [_ Hf%Hc]%Hs. congruence.
Qed.
