(* ===== verification/NullfsSuperblock.v ===== *)
(** * NullFS superblock

    Models nullfs-format/src/superblock.rs and features.rs: volume geometry,
    its validation, the three formatters and the 4096-byte encoding.  The
    theorems show that an encoded superblock decodes to itself and that nothing
    else decodes to it, that validation confines the fixed areas of a writable
    volume, and that the formatters produce valid volumes. *)

From stdpp Require Import base list numbers option.
From Stdlib Require Import ZArith Lia.
From S2P Require Import Prelude NullfsBytes NullfsPhase3.

Open Scope Z_scope.

(** ** Constants of nullfs-format/src/lib.rs *)

(** "NULLFS" and two NULs. *)
Definition MAGIC : list Z := [0x4e; 0x55; 0x4c; 0x4c; 0x46; 0x53; 0; 0].
Definition FORMAT_MAJOR : Z := 1.
Definition FORMAT_MINOR : Z := 2.
Definition PHASE1_FORMAT_MINOR : Z := 0.
Definition PHASE2_FORMAT_MINOR : Z := 1.
Definition PHASE3_FORMAT_MINOR : Z := 2.
Definition RESERVED_BOOT_BYTES : Z := 64 * 1024.
Definition SUPERBLOCK_BLOCK : Z := RESERVED_BOOT_BYTES / BLOCK_SIZE_U64.
Definition FIRST_DESCRIPTOR_BLOCK : Z := SUPERBLOCK_BLOCK + 1.
Definition SUPERBLOCK_HEADER_BYTES : Z := 256.
Definition SUPERBLOCK_CHECKSUM_OFFSET : nat := (BLOCK_SIZE - 4)%nat.
Definition LABEL_CAPACITY : nat := 64.
Definition DEFAULT_ALLOCATION_GROUP_BLOCKS : Z := 8192.
Definition DEFAULT_DESCRIPTOR_RESERVATION_BLOCKS : Z := 1.
Definition MINIMUM_VOLUME_BLOCKS : Z := FIRST_DESCRIPTOR_BLOCK + 1.
Definition PHASE3_MINIMUM_VOLUME_BLOCKS : Z := PHASE3_FIRST_ALLOCATABLE_BLOCK + 1.
Definition ALLOCATION_GROUP_DESCRIPTORS_PER_BLOCK : Z := 42.

Inductive MountMode := ReadOnly | ReadWrite.
#[global] Instance MountMode_eq_dec : EqDecision MountMode.
Proof. solve_decision. Defined.

(** ** Features *)

Definition INCOMPAT_PHASE2_CORE : Z := 1.
Definition INCOMPAT_PHASE3_WRITABLE_REDO : Z := Z.shiftl 1 1.
Definition SUPPORTED_READ_ONLY_COMPATIBLE : Z := 0.
Definition SUPPORTED_INCOMPATIBLE : Z := Z.lor INCOMPAT_PHASE2_CORE INCOMPAT_PHASE3_WRITABLE_REDO.

Module Features.
Record t := mk {
  compatible : Z;
  read_only_compatible : Z;
  incompatible : Z;
}.
#[global] Instance t_eq_dec : EqDecision t.
Proof. solve_decision. Defined.

Definition default : t := mk 0 0 0.

Definition validate (self : t) (mode : MountMode) : outcome FormatError.t unit :=
  let unknown_incompatible := Z.land (incompatible self) (not64 SUPPORTED_INCOMPATIBLE) in
  _ ← err_if (negb (unknown_incompatible =? 0))
        (FormatError.UnsupportedIncompatibleFeatures unknown_incompatible);
  let unknown_read_only :=
    Z.land (read_only_compatible self) (not64 SUPPORTED_READ_ONLY_COMPATIBLE) in
  err_if (bool_decide (mode = ReadWrite) && negb (unknown_read_only =? 0))
    (FormatError.ReadOnlyFeaturesRequired unknown_read_only).
End Features.

(** ** UTF-8

    [str::from_utf8(bytes).is_ok()]: the well-formed byte sequences of the
    Unicode standard, shortest forms only and no surrogates. *)

Definition within (lo hi b : Z) : bool := (lo <=? b) && (b <=? hi).

(** Admissible second bytes after the lead byte of a three- or four-byte form. *)
Definition second3 (b0 b1 : Z) : bool :=
  if b0 =? 0xe0 then within 0xa0 0xbf b1
  else if b0 =? 0xed then within 0x80 0x9f b1
  else within 0x80 0xbf b1.
Definition second4 (b0 b1 : Z) : bool :=
  if b0 =? 0xf0 then within 0x90 0xbf b1
  else if b0 =? 0xf4 then within 0x80 0x8f b1
  else within 0x80 0xbf b1.

Fixpoint from_utf8 (l : list Z) : bool :=
  match l with
  | [] => true
  | b0 :: l0 =>
      if within 0 0x7f b0 then from_utf8 l0
      else if within 0xc2 0xdf b0 then
        match l0 with
        | b1 :: l1 => within 0x80 0xbf b1 && from_utf8 l1
        | _ => false
        end
      else if within 0xe0 0xef b0 then
        match l0 with
        | b1 :: b2 :: l2 => second3 b0 b1 && within 0x80 0xbf b2 && from_utf8 l2
        | _ => false
        end
      else if within 0xf0 0xf4 b0 then
        match l0 with
        | b1 :: b2 :: b3 :: l3 =>
            second4 b0 b1 && within 0x80 0xbf b2 && within 0x80 0xbf b3 && from_utf8 l3
        | _ => false
        end
      else false
  end.

(** ** Volume state and format options *)

Inductive VolumeState := Clean | Dirty.
#[global] Instance VolumeState_eq_dec : EqDecision VolumeState.
Proof. solve_decision. Defined.

Definition volume_state_encode (s : VolumeState) : Z :=
  match s with Clean => 0 | Dirty => 1 end.
Definition volume_state_decode (value : Z) : outcome FormatError.t VolumeState :=
  match value with
  | 0 => Ok Clean
  | 1 => Ok Dirty
  | _ => Err (FormatError.InvalidState value)
  end.

Module FormatOptions.
Record t := mk {
  device_bytes : Z;
  uuid : list Z;
  label : list Z;
  allocation_group_blocks : Z;
  descriptor_reservation_blocks : Z;
}.
Definition new (device_bytes : Z) (uuid label : list Z) : t :=
  mk device_bytes uuid label DEFAULT_ALLOCATION_GROUP_BLOCKS DEFAULT_DESCRIPTOR_RESERVATION_BLOCKS.
End FormatOptions.

(** [u32::try_from] *)
Definition try_u32 (z : Z) : option Z := if z <=? u32_max then Some z else None.

Definition group_count (capacity_blocks group_blocks : Z) : outcome FormatError.t Z :=
  _ ← err_if (group_blocks =? 0) FormatError.InvalidAllocationGroupSize;
  rounded ← ok_or (checked_add u64_max capacity_blocks (group_blocks - 1)) FormatError.ArithmeticOverflow;
  ok_or (try_u32 (rounded / group_blocks)) FormatError.InvalidAllocationGroupCount.

Definition superblock_checksum (bytes : list Z) : Z :=
  crc32c (put_bytes (take BLOCK_SIZE bytes) SUPERBLOCK_CHECKSUM_OFFSET (zeros 4)).

Module Superblock.
Record t := mk {
  format_major : Z;
  format_minor : Z;
  state : VolumeState;
  features : Features.t;
  filesystem_uuid : list Z;
  label : list Z;
  label_length : Z;
  capacity_blocks : Z;
  allocation_group_blocks : Z;
  allocation_group_count : Z;
  descriptor_reservation_blocks : Z;
  first_descriptor_block : Z;
  first_allocatable_block : Z;
  backup_superblock_block : Z;
  filesystem_state_block : Z;
  journal_first_block : Z;
  journal_block_count : Z;
  journal_max_updates : Z;
}.
#[global] Instance t_eq_dec : EqDecision t.
Proof. solve_decision. Defined.

Definition phase2_enabled (self : t) : bool :=
  (PHASE2_FORMAT_MINOR <=? format_minor self)
  && negb (Z.land (Features.incompatible (features self)) INCOMPAT_PHASE2_CORE =? 0).

Definition phase3_enabled (self : t) : bool :=
  (format_minor self =? PHASE3_FORMAT_MINOR)
  && negb (Z.land (Features.incompatible (features self)) INCOMPAT_PHASE3_WRITABLE_REDO =? 0).

(** The geometry that a phase 3 volume must have, and what the phase 3 fields
    must be otherwise. *)
Definition phase3_geometry_wrong (self : t) (descriptor_end : Z) : bool :=
  negb (descriptor_reservation_blocks self =? DEFAULT_DESCRIPTOR_RESERVATION_BLOCKS)
  || (capacity_blocks self <? PHASE3_MINIMUM_VOLUME_BLOCKS)
  || negb (descriptor_end =? PHASE3_BACKUP_SUPERBLOCK_BLOCK)
  || negb (backup_superblock_block self =? PHASE3_BACKUP_SUPERBLOCK_BLOCK)
  || negb (filesystem_state_block self =? PHASE3_FILESYSTEM_STATE_BLOCK)
  || negb (journal_first_block self =? PHASE3_JOURNAL_FIRST_BLOCK)
  || negb (journal_block_count self =? PHASE3_JOURNAL_BLOCK_COUNT)
  || negb (journal_max_updates self =? Z.of_nat PHASE3_MAX_UPDATES).
Definition phase3_fields_set (self : t) : bool :=
  negb (backup_superblock_block self =? 0) || negb (filesystem_state_block self =? 0)
  || negb (journal_first_block self =? 0) || negb (journal_block_count self =? 0)
  || negb (journal_max_updates self =? 0).

(** [validate] up to the descriptor area; [device_bytes] is the size of the
    device when there is one. *)
Definition validate_header (self : t) (device_bytes : option Z) (mode : MountMode)
    : outcome FormatError.t unit :=
  _ ← err_if (negb (format_major self =? FORMAT_MAJOR))
        (FormatError.UnsupportedMajorVersion (format_major self));
  _ ← err_if (FORMAT_MINOR <? format_minor self)
        (FormatError.UnsupportedMinorVersion (format_minor self));
  _ ← err_if (bool_decide (filesystem_uuid self = zeros 16)) FormatError.InvalidUuid;
  _ ← err_if ((format_minor self <? PHASE2_FORMAT_MINOR)
              && negb (Z.land (Features.incompatible (features self)) INCOMPAT_PHASE2_CORE =? 0))
        (FormatError.UnsupportedIncompatibleFeatures INCOMPAT_PHASE2_CORE);
  _ ← err_if ((format_minor self <? PHASE3_FORMAT_MINOR)
              && negb (Z.land (Features.incompatible (features self)) INCOMPAT_PHASE3_WRITABLE_REDO =? 0))
        (FormatError.UnsupportedIncompatibleFeatures INCOMPAT_PHASE3_WRITABLE_REDO);
  _ ← Features.validate (features self) mode;
  _ ← err_if (bool_decide (mode = ReadWrite) && bool_decide (state self = Dirty)) FormatError.DirtyVolume;
  _ ← err_if (capacity_blocks self <? MINIMUM_VOLUME_BLOCKS) FormatError.InvalidCapacity;
  _ ← match device_bytes with
      | Some device_bytes =>
          err_if (device_bytes / BLOCK_SIZE_U64 <? capacity_blocks self) FormatError.InvalidCapacity
      | None => Ok ()
      end;
  _ ← err_if (allocation_group_blocks self =? 0) FormatError.InvalidAllocationGroupSize;
  count ← group_count (capacity_blocks self) (allocation_group_blocks self);
  _ ← err_if (negb (allocation_group_count self =? count)) FormatError.InvalidAllocationGroupCount;
  _ ← err_if (descriptor_reservation_blocks self =? 0) FormatError.InvalidDescriptorReservation;
  _ ← err_if ((PHASE2_FORMAT_MINOR <=? format_minor self) && negb (phase2_enabled self))
        FormatError.InvalidAllocationGroupTable;
  err_if ((PHASE3_FORMAT_MINOR <=? format_minor self) && negb (phase3_enabled self))
    FormatError.InvalidPhase3Geometry.

Definition validate (self : t) (device_bytes : option Z) (mode : MountMode)
    : outcome FormatError.t unit :=
  _ ← validate_header self device_bytes mode;
  _ ← (if phase2_enabled self then
         descriptor_capacity ←
           ok_or (let c := descriptor_reservation_blocks self * ALLOCATION_GROUP_DESCRIPTORS_PER_BLOCK in
                  if c <=? u64_max then Some c else None) FormatError.ArithmeticOverflow;
         err_if (descriptor_capacity <? allocation_group_count self) FormatError.InvalidDescriptorReservation
       else Ok ());
  _ ← err_if (negb (first_descriptor_block self =? FIRST_DESCRIPTOR_BLOCK)) FormatError.InvalidDescriptorStart;
  descriptor_end ← ok_or (checked_add u64_max (first_descriptor_block self) (descriptor_reservation_blocks self))
                     FormatError.ArithmeticOverflow;
  expected_first_allocatable ←
    (if phase3_enabled self then
       _ ← err_if (phase3_geometry_wrong self descriptor_end) FormatError.InvalidPhase3Geometry;
       mret PHASE3_FIRST_ALLOCATABLE_BLOCK
     else
       _ ← err_if (phase3_fields_set self) FormatError.InvalidPhase3Geometry;
       mret descriptor_end);
  err_if (negb (first_allocatable_block self =? expected_first_allocatable)
          || (capacity_blocks self <? first_allocatable_block self))
    FormatError.InvalidFirstAllocatableBlock.

(** ** Formatting a volume *)

Definition format (options : FormatOptions.t) : outcome FormatError.t t :=
  _ ← err_if (bool_decide (FormatOptions.uuid options = zeros 16)) FormatError.InvalidUuid;
  let label_bytes := FormatOptions.label options in
  _ ← err_if (LABEL_CAPACITY <? length label_bytes)%nat FormatError.LabelTooLong;
  _ ← err_if (any (λ b, b =? 0) label_bytes) FormatError.LabelContainsNul;
  let capacity_blocks := FormatOptions.device_bytes options / BLOCK_SIZE_U64 in
  _ ← err_if (capacity_blocks <? MINIMUM_VOLUME_BLOCKS) FormatError.DeviceTooSmall;
  _ ← err_if (FormatOptions.allocation_group_blocks options =? 0) FormatError.InvalidAllocationGroupSize;
  _ ← err_if (FormatOptions.descriptor_reservation_blocks options =? 0)
        FormatError.InvalidDescriptorReservation;
  first_allocatable_block ←
    ok_or (checked_add u64_max FIRST_DESCRIPTOR_BLOCK (FormatOptions.descriptor_reservation_blocks options))
      FormatError.ArithmeticOverflow;
  _ ← err_if (capacity_blocks <? first_allocatable_block) FormatError.DeviceTooSmall;
  allocation_group_count ← group_count capacity_blocks (FormatOptions.allocation_group_blocks options);
  mret {|
    format_major := FORMAT_MAJOR;
    format_minor := PHASE1_FORMAT_MINOR;
    state := Clean;
    features := Features.default;
    filesystem_uuid := FormatOptions.uuid options;
    label := put_bytes (zeros LABEL_CAPACITY) 0 label_bytes;
    label_length := wrap 8 (Z.of_nat (length label_bytes));
    capacity_blocks := capacity_blocks;
    allocation_group_blocks := FormatOptions.allocation_group_blocks options;
    allocation_group_count := allocation_group_count;
    descriptor_reservation_blocks := FormatOptions.descriptor_reservation_blocks options;
    first_descriptor_block := FIRST_DESCRIPTOR_BLOCK;
    first_allocatable_block := first_allocatable_block;
    backup_superblock_block := 0;
    filesystem_state_block := 0;
    journal_first_block := 0;
    journal_block_count := 0;
    journal_max_updates := 0;
  |}.

(** Field updates of [format_phase2] and [format_phase3]. *)
Definition with_phase2 (s : t) : t :=
  let f := features s in
  {| format_major := format_major s; format_minor := PHASE2_FORMAT_MINOR; state := state s;
     features := Features.mk (Features.compatible f) (Features.read_only_compatible f)
                   (Z.lor (Features.incompatible f) INCOMPAT_PHASE2_CORE);
     filesystem_uuid := filesystem_uuid s; label := label s; label_length := label_length s;
     capacity_blocks := capacity_blocks s; allocation_group_blocks := allocation_group_blocks s;
     allocation_group_count := allocation_group_count s;
     descriptor_reservation_blocks := descriptor_reservation_blocks s;
     first_descriptor_block := first_descriptor_block s;
     first_allocatable_block := first_allocatable_block s;
     backup_superblock_block := backup_superblock_block s;
     filesystem_state_block := filesystem_state_block s;
     journal_first_block := journal_first_block s; journal_block_count := journal_block_count s;
     journal_max_updates := journal_max_updates s |}.

Definition format_phase2 (options : FormatOptions.t) : outcome FormatError.t t :=
  superblock ← format options;
  let superblock := with_phase2 superblock in
  _ ← validate superblock None ReadOnly;
  mret superblock.

Definition with_phase3 (s : t) : t :=
  let f := features s in
  {| format_major := format_major s; format_minor := PHASE3_FORMAT_MINOR; state := state s;
     features := Features.mk (Features.compatible f) (Features.read_only_compatible f)
                   (Z.lor (Features.incompatible f) INCOMPAT_PHASE3_WRITABLE_REDO);
     filesystem_uuid := filesystem_uuid s; label := label s; label_length := label_length s;
     capacity_blocks := capacity_blocks s; allocation_group_blocks := allocation_group_blocks s;
     allocation_group_count := allocation_group_count s;
     descriptor_reservation_blocks := descriptor_reservation_blocks s;
     first_descriptor_block := first_descriptor_block s;
     first_allocatable_block := PHASE3_FIRST_ALLOCATABLE_BLOCK;
     backup_superblock_block := PHASE3_BACKUP_SUPERBLOCK_BLOCK;
     filesystem_state_block := PHASE3_FILESYSTEM_STATE_BLOCK;
     journal_first_block := PHASE3_JOURNAL_FIRST_BLOCK;
     journal_block_count := PHASE3_JOURNAL_BLOCK_COUNT;
     journal_max_updates := Z.of_nat PHASE3_MAX_UPDATES |}.

Definition format_phase3 (options : FormatOptions.t) : outcome FormatError.t t :=
  _ ← err_if (negb (FormatOptions.descriptor_reservation_blocks options
                    =? DEFAULT_DESCRIPTOR_RESERVATION_BLOCKS)) FormatError.InvalidPhase3Geometry;
  superblock ← format_phase2 options;
  _ ← err_if (capacity_blocks superblock <? PHASE3_MINIMUM_VOLUME_BLOCKS) FormatError.DeviceTooSmall;
  let superblock := with_phase3 superblock in
  _ ← validate superblock None ReadOnly;
  mret superblock.

(** ** Encoding *)

Definition encode_fields (self : t) : list Z :=
  let bytes := zeros BLOCK_SIZE in
  let bytes := put_bytes bytes 0 MAGIC in
  let bytes := put_u16 bytes 8 (format_major self) in
  let bytes := put_u16 bytes 10 (format_minor self) in
  let bytes := put_u32 bytes 12 SUPERBLOCK_HEADER_BYTES in
  let bytes := put_u32 bytes 16 BLOCK_SIZE_U64 in
  let bytes := put_u32 bytes 20 (volume_state_encode (state self)) in
  let bytes := put_u64 bytes 24 (Features.compatible (features self)) in
  let bytes := put_u64 bytes 32 (Features.read_only_compatible (features self)) in
  let bytes := put_u64 bytes 40 (Features.incompatible (features self)) in
  let bytes := put_bytes bytes 48 (filesystem_uuid self) in
  let bytes := put_bytes bytes 64 (label self) in
  let bytes := put_u64 bytes 128 (capacity_blocks self) in
  let bytes := put_u64 bytes 136 (allocation_group_blocks self) in
  let bytes := put_u32 bytes 144 (allocation_group_count self) in
  let bytes := put_u32 bytes 148 (descriptor_reservation_blocks self) in
  let bytes := put_u64 bytes 152 (first_descriptor_block self) in
  put_u64 bytes 160 (first_allocatable_block self).

Definition encode_phase3_fields (self : t) (bytes : list Z) : list Z :=
  if phase3_enabled self then
    let bytes := put_u64 bytes 168 (backup_superblock_block self) in
    let bytes := put_u64 bytes 176 (filesystem_state_block self) in
    let bytes := put_u64 bytes 184 (journal_first_block self) in
    let bytes := put_u32 bytes 192 (journal_block_count self) in
    put_u32 bytes 196 (journal_max_updates self)
  else bytes.

Definition encode (self : t) : outcome FormatError.t (list Z) :=
  _ ← validate self None ReadOnly;
  let bytes := encode_phase3_fields self (encode_fields self) in
  mret (put_u32 bytes SUPERBLOCK_CHECKSUM_OFFSET (superblock_checksum bytes)).

(** [bytes[o..e]] *)
Definition range (o e : nat) (b : list Z) : list Z := slice o (e - o) b.

Definition decode (bytes : list Z) (device_bytes : option Z) (mode : MountMode)
    : outcome FormatError.t t :=
  _ ← err_if (length bytes <? BLOCK_SIZE)%nat
        (FormatError.TruncatedSuperblock (Z.of_nat (length bytes)));
  let bytes := take BLOCK_SIZE bytes in
  _ ← err_if (negb (bool_decide (slice 0 8 bytes = MAGIC))) FormatError.InvalidMagic;
  let stored_checksum := get_u32 bytes SUPERBLOCK_CHECKSUM_OFFSET in
  let calculated_checksum := superblock_checksum bytes in
  _ ← err_if (negb (stored_checksum =? calculated_checksum))
        (FormatError.ChecksumMismatch stored_checksum calculated_checksum);
  let format_major := get_u16 bytes 8 in
  _ ← err_if (negb (format_major =? FORMAT_MAJOR)) (FormatError.UnsupportedMajorVersion format_major);
  let format_minor := get_u16 bytes 10 in
  _ ← err_if (FORMAT_MINOR <? format_minor) (FormatError.UnsupportedMinorVersion format_minor);
  let header_size := get_u32 bytes 12 in
  _ ← err_if (negb (header_size =? SUPERBLOCK_HEADER_BYTES)) (FormatError.InvalidHeaderSize header_size);
  let block_size := get_u32 bytes 16 in
  _ ← err_if (negb (block_size =? BLOCK_SIZE_U64)) (FormatError.InvalidBlockSize block_size);
  state ← volume_state_decode (get_u32 bytes 20);
  let features := Features.mk (get_u64 bytes 24) (get_u64 bytes 32) (get_u64 bytes 40) in
  let filesystem_uuid := slice 48 16 bytes in
  _ ← err_if (bool_decide (filesystem_uuid = zeros 16)) FormatError.InvalidUuid;
  let label_bytes := slice 64 LABEL_CAPACITY bytes in
  let label_length := default LABEL_CAPACITY (position (λ b, b =? 0) label_bytes) in
  _ ← err_if (nonzero (drop label_length label_bytes)
              || negb (from_utf8 (take label_length label_bytes))) FormatError.InvalidLabel;
  let phase3_feature :=
    negb (Z.land (Features.incompatible features) INCOMPAT_PHASE3_WRITABLE_REDO =? 0) in
  _ ← err_if (nonzero (range (if (format_minor =? PHASE3_FORMAT_MINOR) && phase3_feature then 200 else 168)
                         SUPERBLOCK_CHECKSUM_OFFSET bytes)) FormatError.NonZeroReservedBytes;
  let superblock := {|
    format_major := format_major;
    format_minor := format_minor;
    state := state;
    features := features;
    filesystem_uuid := filesystem_uuid;
    label := label_bytes;
    label_length := wrap 8 (Z.of_nat label_length);
    capacity_blocks := get_u64 bytes 128;
    allocation_group_blocks := get_u64 bytes 136;
    allocation_group_count := get_u32 bytes 144;
    descriptor_reservation_blocks := get_u32 bytes 148;
    first_descriptor_block := get_u64 bytes 152;
    first_allocatable_block := get_u64 bytes 160;
    backup_superblock_block := get_u64 bytes 168;
    filesystem_state_block := get_u64 bytes 176;
    journal_first_block := get_u64 bytes 184;
    journal_block_count := get_u32 bytes 192;
    journal_max_updates := get_u32 bytes 196;
  |} in
  _ ← validate superblock device_bytes mode;
  mret superblock.
End Superblock.

(** ** Well-formed superblocks

    Fields within their machine types, and a label that is NUL-padded UTF-8
    text of the recorded length: what [format] and [decode] establish. *)

Module SuperblockCodec.
Import Superblock.

Definition first_nul (label : list Z) : nat := default LABEL_CAPACITY (position (λ b, b =? 0) label).

Definition label_ok (label : list Z) (len : Z) : Prop :=
  length label = LABEL_CAPACITY ∧ bytes_ok label ∧
  len = wrap 8 (Z.of_nat (first_nul label)) ∧
  nonzero (drop (first_nul label) label) = false ∧ from_utf8 (take (first_nul label) label) = true.

Definition is_u16 (z : Z) : Prop := 0 ≤ z ≤ u16_max.

Definition typed (self : t) : Prop :=
  is_u16 (format_major self) ∧ is_u16 (format_minor self) ∧
  is_u64 (Features.compatible (features self)) ∧
  is_u64 (Features.read_only_compatible (features self)) ∧
  is_u64 (Features.incompatible (features self)) ∧
  length (filesystem_uuid self) = 16%nat ∧ bytes_ok (filesystem_uuid self) ∧
  label_ok (label self) (label_length self) ∧
  is_u64 (capacity_blocks self) ∧ is_u64 (allocation_group_blocks self) ∧
  is_u32 (allocation_group_count self) ∧ is_u32 (descriptor_reservation_blocks self) ∧
  is_u64 (first_descriptor_block self) ∧ is_u64 (first_allocatable_block self) ∧
  is_u64 (backup_superblock_block self) ∧ is_u64 (filesystem_state_block self) ∧
  is_u64 (journal_first_block self) ∧ is_u32 (journal_block_count self) ∧
  is_u32 (journal_max_updates self).

(** The updates of [encode], last first; [image] adds the checksum. *)
Definition updates (self : t) : list update :=
  [(160, 8, le_bytes 8 (first_allocatable_block self));
   (152, 8, le_bytes 8 (first_descriptor_block self));
   (148, 4, le_bytes 4 (descriptor_reservation_blocks self));
   (144, 4, le_bytes 4 (allocation_group_count self));
   (136, 8, le_bytes 8 (allocation_group_blocks self));
   (128, 8, le_bytes 8 (capacity_blocks self));
   (64, 64, label self);
   (48, 16, filesystem_uuid self);
   (40, 8, le_bytes 8 (Features.incompatible (features self)));
   (32, 8, le_bytes 8 (Features.read_only_compatible (features self)));
   (24, 8, le_bytes 8 (Features.compatible (features self)));
   (20, 4, le_bytes 4 (volume_state_encode (state self)));
   (16, 4, le_bytes 4 BLOCK_SIZE_U64);
   (12, 4, le_bytes 4 SUPERBLOCK_HEADER_BYTES);
   (10, 2, le_bytes 2 (format_minor self));
   (8, 2, le_bytes 2 (format_major self));
   (0, 8, MAGIC)]%nat.
Definition updates3 (self : t) : list update :=
  [(196, 4, le_bytes 4 (journal_max_updates self));
   (192, 4, le_bytes 4 (journal_block_count self));
   (184, 8, le_bytes 8 (journal_first_block self));
   (176, 8, le_bytes 8 (filesystem_state_block self));
   (168, 8, le_bytes 8 (backup_superblock_block self))]%nat ++ updates self.
Definition body (self : t) : list Z := apply_updates (updates3 self) (zeros BLOCK_SIZE).
Definition image (self : t) : list Z :=
  put_bytes (body self) SUPERBLOCK_CHECKSUM_OFFSET (le_bytes 4 (crc32c (body self))).

Lemma CHECKSUM_OFFSET_bounds :
  (200 ≤ SUPERBLOCK_CHECKSUM_OFFSET)%nat ∧ (SUPERBLOCK_CHECKSUM_OFFSET + 4 = BLOCK_SIZE)%nat.
Proof. unfold SUPERBLOCK_CHECKSUM_OFFSET. pose proof BLOCK_SIZE_Z. lia. Qed.

Definition sized (self : t) : Prop :=
  length (filesystem_uuid self) = 16%nat ∧ length (label self) = LABEL_CAPACITY.

Lemma updates_fit self : sized self → Forall (fits BLOCK_SIZE) (updates self).
Proof. intros [Hu Hl]. unfold updates. fits_solve. Qed.
Lemma updates3_fit self : sized self → Forall (fits BLOCK_SIZE) (updates3 self).
Proof.
  intros Hs. apply Forall_app_2; [|by apply updates_fit]. fits_solve.
Qed.
Lemma encode_fields_eq self : encode_fields self = apply_updates (updates self) (zeros BLOCK_SIZE).
Proof. reflexivity. Qed.

(** Fields that are zero leave zeroed bytes as they are. *)
Lemma put_zero N b o n : length b = N → (o + n ≤ N)%nat → slice o n b = zeros n →
  put_bytes b o (le_bytes n 0) = b.
Proof. intros Hb Ho Hz. rewrite le_bytes_0, <- Hz. apply put_slice. lia. Qed.

(** The phase 3 fields may be written in every case: they are zero when the
    feature is off. *)
Lemma encode_body self : sized self → phase3_enabled self = true ∨ phase3_fields_set self = false →
  encode_phase3_fields self (encode_fields self) = body self.
Proof.
  intros Hs Hp. unfold encode_phase3_fields. rewrite encode_fields_eq.
  destruct (phase3_enabled self) eqn:E; [reflexivity|]. destruct Hp as [?|Hz]; [done|].
  unfold phase3_fields_set in Hz. bool_simpl.
  unfold body, updates3. cbn [app]. rewrite !apply_updates_cons.
  pose proof (updates_fit self Hs) as Hfit. pose proof BLOCK_SIZE_large.
  pose proof (length_apply_updates BLOCK_SIZE _ (length_zeros _) _ Hfit) as Hl.
  repeat match goal with H : _ = 0 |- _ => rewrite H; clear H end.
  rewrite !(put_zero BLOCK_SIZE (apply_updates (updates self) (zeros BLOCK_SIZE))); try done; try lia;
    layout BLOCK_SIZE Hfit; apply slice_zeros; lia.
Qed.

(** ** Validation *)

(** What [validate] establishes about the areas of the volume. *)
Record geometry (self : t) : Prop := {
  geo_backup : backup_superblock_block self = PHASE3_BACKUP_SUPERBLOCK_BLOCK;
  geo_state : filesystem_state_block self = PHASE3_FILESYSTEM_STATE_BLOCK;
  geo_journal : journal_first_block self = PHASE3_JOURNAL_FIRST_BLOCK;
  geo_count : journal_block_count self = PHASE3_JOURNAL_BLOCK_COUNT;
  geo_updates : journal_max_updates self = Z.of_nat PHASE3_MAX_UPDATES;
  geo_first : first_allocatable_block self = PHASE3_FIRST_ALLOCATABLE_BLOCK;
  geo_capacity : PHASE3_FIRST_ALLOCATABLE_BLOCK < capacity_blocks self;
}.

Lemma validate_geometry self device_bytes mode :
  validate self device_bytes mode = Ok () → phase3_enabled self = true → geometry self.
Proof.
  unfold validate. intros H Hp. rewrite Hp in H. oks. unfold phase3_geometry_wrong in *. bool_simpl.
  split; try done. unfold PHASE3_MINIMUM_VOLUME_BLOCKS in *. lia.
Qed.

Lemma validate_phase3_fields self device_bytes mode :
  validate self device_bytes mode = Ok () → phase3_enabled self = true ∨ phase3_fields_set self = false.
Proof.
  unfold validate. intros H. destruct (phase3_enabled self); [by left|right].
  oks. done.
Qed.

(** What a mount mode and a device add to the validation of a volume. *)
Definition mode_ok (self : t) (device_bytes : option Z) (mode : MountMode) : Prop :=
  Features.validate (features self) mode = Ok () ∧
  (mode = ReadWrite → state self ≠ Dirty) ∧
  (∀ d, device_bytes = Some d → capacity_blocks self ≤ d / BLOCK_SIZE_U64).

Ltac same_guard :=
  match goal with
  | |- context [err_if ?b _] => destruct b; cbn [err_if mbind outcome_bind]; 
      [split; [discriminate|intros [? _]; discriminate]|]
  end.

Lemma validate_header_mode self device_bytes mode :
  validate_header self device_bytes mode = Ok () ↔
  validate_header self None ReadOnly = Ok () ∧ mode_ok self device_bytes mode.
Proof.
  unfold validate_header, mode_ok. do 5 same_guard.
  assert (Features.validate (features self) mode = Ok () → Features.validate (features self) ReadOnly = Ok ()) as Hro.
  { unfold Features.validate. cbv zeta. intros H. oks. cbn [mbind outcome_bind].
    by rewrite (bool_decide_false (ReadOnly = ReadWrite)). }
  destruct (Features.validate (features self) mode) as [[]| |] eqn:Em; cbn [mbind outcome_bind];
    [rewrite Hro by done|by split; [|intros (_ & ? & _)]..]. cbn [mbind outcome_bind andb].
  rewrite (bool_decide_false (ReadOnly = ReadWrite)) by done. cbn [andb err_if mbind outcome_bind].
  destruct (bool_decide (mode = ReadWrite) && bool_decide (state self = Dirty)) eqn:Ed;
    cbn [err_if mbind outcome_bind].
  { apply andb_true_iff in Ed as [H1%bool_decide_eq_true H2%bool_decide_eq_true].
    split; [done|]. intros (_ & _ & Hd & _). by destruct (Hd H1). }
  assert (mode = ReadWrite → state self ≠ Dirty) as Hd.
  { intros -> Hs. by rewrite Hs in Ed. }
  same_guard. destruct device_bytes as [d|]; cbn [mbind outcome_bind]; 
    [|split; [intros ->; split_and!; [done..|]; by intros ?|by intros [-> _]]].
  destruct (_ <? capacity_blocks self) eqn:Ec; cbn [err_if mbind outcome_bind]; bool_simpl;
    [split; [done|]; intros (_ & _ & _ & Hc); specialize (Hc d eq_refl); lia|].
  split; [intros ->; split_and!; [done..|]; by intros ? [= <-]|by intros [-> _]].
Qed.

Lemma validate_mode self device_bytes mode :
  validate self device_bytes mode = Ok () ↔
  validate self None ReadOnly = Ok () ∧ mode_ok self device_bytes mode.
Proof.
  unfold validate. pose proof (validate_header_mode self device_bytes mode) as Hh.
  destruct (validate_header self device_bytes mode) as [[]| |],
    (validate_header self None ReadOnly) as [[]| |]; cbn [mbind outcome_bind];
    first [ by split; [|intros [? _]]
          | destruct (proj1 Hh eq_refl) as [? ?]; by split; [split|intros [? _]]
          | split; [done|]; intros [_ Hm]; by specialize (proj2 Hh (conj eq_refl Hm)) ].
Qed.

(** ** Round trips *)

Definition parsed (b : list Z) (st : VolumeState) : t := {|
  format_major := get_u16 b 8;
  format_minor := get_u16 b 10;
  state := st;
  features := Features.mk (get_u64 b 24) (get_u64 b 32) (get_u64 b 40);
  filesystem_uuid := slice 48 16 b;
  label := slice 64 LABEL_CAPACITY b;
  label_length := wrap 8 (Z.of_nat (first_nul (slice 64 LABEL_CAPACITY b)));
  capacity_blocks := get_u64 b 128;
  allocation_group_blocks := get_u64 b 136;
  allocation_group_count := get_u32 b 144;
  descriptor_reservation_blocks := get_u32 b 148;
  first_descriptor_block := get_u64 b 152;
  first_allocatable_block := get_u64 b 160;
  backup_superblock_block := get_u64 b 168;
  filesystem_state_block := get_u64 b 176;
  journal_first_block := get_u64 b 184;
  journal_block_count := get_u32 b 192;
  journal_max_updates := get_u32 b 196;
|}.

(** The tests that [decode] makes on the raw bytes. *)
Record accepted (b : list Z) (st : VolumeState) : Prop := {
  acc_magic : slice 0 8 b = MAGIC;
  acc_checksum : get_u32 b SUPERBLOCK_CHECKSUM_OFFSET = superblock_checksum b;
  acc_major : get_u16 b 8 = FORMAT_MAJOR;
  acc_minor : get_u16 b 10 ≤ FORMAT_MINOR;
  acc_header : get_u32 b 12 = SUPERBLOCK_HEADER_BYTES;
  acc_block : get_u32 b 16 = BLOCK_SIZE_U64;
  acc_state : get_u32 b 20 = volume_state_encode st;
  acc_uuid : slice 48 16 b ≠ zeros 16;
  acc_label : nonzero (drop (first_nul (slice 64 LABEL_CAPACITY b)) (slice 64 LABEL_CAPACITY b)) = false;
  acc_utf8 : from_utf8 (take (first_nul (slice 64 LABEL_CAPACITY b)) (slice 64 LABEL_CAPACITY b)) = true;
  acc_reserved : nonzero (range (if phase3_enabled (parsed b st) then 200 else 168)
                            SUPERBLOCK_CHECKSUM_OFFSET b) = false;
}.

Lemma volume_state_Ok v s : volume_state_decode v = Ok s ↔ v = volume_state_encode s.
Proof.
  unfold volume_state_decode. split; [|intros ->; by destruct s].
  destruct v as [|[p|p|]|]; try done; by intros <-%(inj Ok).
Qed.

Lemma decode_accepted b st device_bytes mode : is_block b → accepted b st →
  decode b device_bytes mode =
    (_ ← validate (parsed b st) device_bytes mode; mret (parsed b st)).
Proof.
  intros Hb [Hm Hc Hj Hn Hh Hs Hst Hu Hl Ht Hr]. unfold decode.
  rewrite Hb, Nat.ltb_irrefl, take_ge by (unfold is_block in Hb; lia).
  cbn [err_if mbind outcome_bind]. cbv zeta. unfold phase3_enabled, parsed in Hr.
  cbn [format_minor features Features.incompatible] in *.
  fold (first_nul (slice 64 LABEL_CAPACITY b)).
  rewrite (bool_decide_true (_ = MAGIC)), (bool_decide_false (_ = zeros 16)) by done.
  rewrite Hc, Hh, Hs, Hl, Ht, Hr, (proj2 (Z.eqb_eq _ _) Hj).
  rewrite !Z.eqb_refl, (proj2 (Z.ltb_ge _ _)) by done.
  by rewrite (proj2 (volume_state_Ok _ st)) by done.
Qed.

Lemma superblock_decode_Ok b device_bytes mode self : is_block b →
  decode b device_bytes mode = Ok self →
  accepted b (state self) ∧ self = parsed b (state self) ∧ validate self device_bytes mode = Ok ().
Proof.
  intros Hb. unfold decode. rewrite Hb, Nat.ltb_irrefl, take_ge by (unfold is_block in Hb; lia).
  cbn [err_if mbind outcome_bind]. cbv zeta. intros H. oks. bool_simpl.
  repeat match goal with u : unit |- _ => destruct u end.
  cbn [state]. split; [|done]. split; try done. by apply volume_state_Ok.
Qed.

Lemma typed_sized self : typed self → sized self.
Proof. by intros (_ & _ & _ & _ & _ & ? & _ & (? & _) & _). Qed.

Lemma updates3_ok self : typed self → Forall (λ u : update, bytes_ok u.2) (updates3 self).
Proof.
  intros (_ & _ & _ & _ & _ & _ & ? & (_ & ? & _) & _). unfold updates3, updates. cbn [app]. bytes_solve.
Qed.

(** The checksum field is apart from the others. *)
Lemma body_checksum self : sized self →
  slice SUPERBLOCK_CHECKSUM_OFFSET 4 (body self) = zeros 4.
Proof.
  intros Hs. unfold body. pose proof (updates3_fit self Hs) as Hfit. pose proof CHECKSUM_OFFSET_bounds.
  rewrite (field_missed BLOCK_SIZE _ (length_zeros _) _ _ _ Hfit) by (vm_compute; reflexivity).
  apply slice_zeros. lia.
Qed.

Section image.
Context (self : t) (Ht : typed self).

Let Hs : sized self := typed_sized self Ht.

Lemma sb_body_block : length (body self) = BLOCK_SIZE.
Proof using Ht. apply length_apply_updates; [apply length_zeros|by apply updates3_fit]. Qed.
Lemma sb_body_ok : bytes_ok (body self).
Proof using Ht. apply apply_updates_ok; [apply zeros_ok|by apply updates3_ok]. Qed.

Lemma sb_image_block : is_block (image self).
Proof using Ht.
  pose proof CHECKSUM_OFFSET_bounds. apply put_len; [apply sb_body_block|].
  rewrite length_le_bytes. lia.
Qed.
Lemma sb_image_ok : bytes_ok (image self).
Proof using Ht. apply put_bytes_ok; [apply sb_body_ok|apply le_bytes_ok]. Qed.

Lemma sb_image_slice o n : (o + n ≤ SUPERBLOCK_CHECKSUM_OFFSET)%nat →
  slice o n (image self) = slice o n (body self).
Proof using Ht.
  intros Ho. pose proof CHECKSUM_OFFSET_bounds.
  apply (slice_put_lo BLOCK_SIZE); [apply sb_body_block|done|]. rewrite length_le_bytes. lia.
Qed.

Lemma sb_image_checksum : get_u32 (image self) SUPERBLOCK_CHECKSUM_OFFSET = superblock_checksum (image self).
Proof using Ht.
  pose proof CHECKSUM_OFFSET_bounds as [_ Hc]. unfold get_u32, superblock_checksum.
  rewrite (take_ge (image self)) by (rewrite sb_image_block; lia). unfold image.
  rewrite (slice_put_at BLOCK_SIZE), put_put_bytes by
    (rewrite ?length_le_bytes, ?sb_body_block; (done || lia)).
  rewrite <- (body_checksum self Hs), put_slice by (rewrite sb_body_block; lia).
  apply le_value_u32, crc32c_u32, sb_body_ok.
Qed.

Lemma sb_encode_eq b : encode self = Ok b ↔ validate self None ReadOnly = Ok () ∧ b = image self.
Proof using Ht.
  unfold encode, mbind, outcome_bind.
  destruct (validate self None ReadOnly) as [[]| |] eqn:Hv;
    [|by split; [|by intros [? _]]..].
  assert (∀ bytes, bytes = body self →
    put_u32 bytes SUPERBLOCK_CHECKSUM_OFFSET (superblock_checksum bytes) = image self) as Hi.
  { intros bytes ->. unfold put_u32, image, superblock_checksum.
    pose proof CHECKSUM_OFFSET_bounds. rewrite take_ge by (rewrite sb_body_block; lia).
    rewrite <- (body_checksum self Hs) at 1. by rewrite put_slice by (rewrite sb_body_block; lia). }
  cbv zeta. rewrite Hi by (apply encode_body; [done|by eapply validate_phase3_fields]).
  split; [by intros <-%(inj Ok)|by intros [_ ->]].
Qed.

Ltac image_read :=
  rewrite !sb_image_slice by lia; unfold body; layout BLOCK_SIZE (updates3_fit self Hs); cbn [snd].

Lemma sb_parsed : parsed (image self) (state self) = self.
Proof using Ht.
  pose proof CHECKSUM_OFFSET_bounds. pose proof Ht as (? & ? & ? & ? & ? & _ & _ & (_ & _ & Hl & _) & H').
  destruct H' as (? & ? & ? & ? & ? & ? & ? & ? & ? & ? & ?).
  unfold parsed, get_u16, get_u32, get_u64. change LABEL_CAPACITY with 64%nat. image_read.
  rewrite !le_value_u64, !le_value_u32, !le_value_u16, <- Hl by done.
  by destruct self as [? ? ? []].
Qed.

Lemma sb_reserved : validate self None ReadOnly = Ok () →
  nonzero (range (if phase3_enabled self then 200 else 168) SUPERBLOCK_CHECKSUM_OFFSET (image self)) = false.
Proof using Ht.
  intros Hv. pose proof CHECKSUM_OFFSET_bounds. unfold range.
  rewrite sb_image_slice by (destruct (phase3_enabled self); lia).
  destruct (phase3_enabled self) eqn:E.
  - unfold body. rewrite (field_missed BLOCK_SIZE _ (length_zeros _) _ _ _ (updates3_fit self Hs))
      by (vm_compute; reflexivity). rewrite slice_zeros by lia. apply nonzero_zeros.
  - rewrite <- encode_body by (done || by eapply validate_phase3_fields).
    unfold encode_phase3_fields. rewrite E, encode_fields_eq.
    rewrite (field_missed BLOCK_SIZE _ (length_zeros _) _ _ _ (updates_fit self Hs))
      by (vm_compute; reflexivity). rewrite slice_zeros by lia. apply nonzero_zeros.
Qed.

Lemma sb_accepted : validate self None ReadOnly = Ok () → accepted (image self) (state self).
Proof using Ht.
  intros Hv. pose proof sb_parsed as Hp. pose proof (sb_reserved Hv) as Hr.
  pose proof Ht as (_ & _ & _ & _ & _ & _ & _ & (_ & _ & _ & Hl1 & Hl2) & _).
  assert (filesystem_uuid self ≠ zeros 16 ∧ format_major self = FORMAT_MAJOR ∧
          format_minor self ≤ FORMAT_MINOR) as (Hu & Hj & Hn).
  { unfold validate, validate_header in Hv. oks. bool_simpl. done. }
  pose proof (f_equal label Hp : slice 64 LABEL_CAPACITY (image self) = _) as Hl.
  pose proof (f_equal format_minor Hp : get_u16 (image self) 10 = _) as Hm.
  pose proof (f_equal filesystem_uuid Hp : slice 48 16 (image self) = _) as Hi.
  pose proof CHECKSUM_OFFSET_bounds.
  split; [| by apply sb_image_checksum | rewrite <- Hj; exact (f_equal format_major Hp) | by rewrite Hm
    | | | | by rewrite Hi | by rewrite Hl | by rewrite Hl | by rewrite Hp];
    unfold get_u32; image_read; [done|apply le_value_u32; by compute..|].
  apply le_value_u32. by destruct (state self).
Qed.
End image.

Lemma sb_roundtrip self b device_bytes mode : typed self → encode self = Ok b →
  decode b device_bytes mode = (_ ← validate self device_bytes mode; mret self).
Proof.
  intros Ht [Hv ->]%sb_encode_eq; [|done].
  rewrite (decode_accepted _ (state self)) by (by apply sb_image_block || by apply sb_accepted).
  by rewrite sb_parsed.
Qed.

Lemma parsed_typed b st : is_block b → bytes_ok b → accepted b st → typed (parsed b st).
Proof.
  intros Hb Hok [_ _ _ _ _ _ _ _ Hl Hu _]. pose proof BLOCK_SIZE_large. unfold is_block in Hb.
  unfold typed, parsed, label_ok; cbn.
  split_and!; first [ apply get_u64_range | apply get_u32_range | apply length_slice | apply slice_ok
                    | done | idtac ]; try done; try (rewrite Hb; unfold LABEL_CAPACITY; lia).
  all: pose proof (le_value_range (slice 8 2 b) (slice_ok _ _ _ Hok)) as H1;
    pose proof (le_value_range (slice 10 2 b) (slice_ok _ _ _ Hok)) as H2;
    rewrite length_slice in H1, H2 by lia; unfold is_u16, u16_max, get_u16; cbn in *; lia.
Qed.

Lemma sb_reserved_zero b st : is_block b → accepted b st →
  slice 200 (SUPERBLOCK_CHECKSUM_OFFSET - 200) b = zeros (SUPERBLOCK_CHECKSUM_OFFSET - 200).
Proof.
  intros Hb [_ _ _ _ _ _ _ _ _ _ Hr]. pose proof CHECKSUM_OFFSET_bounds. unfold is_block, range in *.
  apply nonzero_false in Hr. rewrite length_slice in Hr by (destruct (phase3_enabled _); lia).
  destruct (phase3_enabled _); [done|].
  replace (SUPERBLOCK_CHECKSUM_OFFSET - 168)%nat
    with (32 + (SUPERBLOCK_CHECKSUM_OFFSET - 200))%nat in Hr by lia.
  rewrite slice_split in Hr. change (168 + 32)%nat with 200%nat in Hr.
  rewrite zeros_add in Hr. apply app_inj_1 in Hr as [_ Hr]; [done|]. by rewrite length_slice, length_zeros by lia.
Qed.

Lemma sb_canonical self b device_bytes mode : is_block b → bytes_ok b →
  decode b device_bytes mode = Ok self → typed self ∧ encode self = Ok b.
Proof.
  intros Hb Hok (Ha & Hp & Hv)%superblock_decode_Ok; [|done].
  assert (typed self) as Ht by (rewrite Hp; exact (parsed_typed b _ Hb Hok Ha)). split; [done|].
  apply sb_encode_eq; [done|]. split; [exact (proj1 (proj1 (validate_mode self device_bytes mode) Hv))|].
  pose proof CHECKSUM_OFFSET_bounds. pose proof (sb_reserved_zero _ _ Hb Ha) as Hr.
  destruct Ha as [Hm Hc Hj Hn Hh Hs Hst _ _ _ _]. pose proof Hb as Hl. unfold is_block in Hl.
  assert (body self = put_bytes b SUPERBLOCK_CHECKSUM_OFFSET (zeros 4)) as Hbody.
  { apply (chunks_inj [8; 2; 2; 4; 4; 4; 8; 8; 8; 16; 64; 8; 8; 4; 4; 8; 8; 8; 8; 8; 4; 4]%nat).
    cbn [chunks Nat.add]. unfold body. layout BLOCK_SIZE (updates3_fit self (typed_sized self Ht)).
    rewrite !(slice_put_lo BLOCK_SIZE b) by (done || rewrite ?length_zeros; lia).
    rewrite drop_zeros, drop_put_tail by (rewrite ?length_zeros; lia).
    rewrite Hr, <- zeros_add. replace (SUPERBLOCK_CHECKSUM_OFFSET - 200 + 4)%nat with (BLOCK_SIZE - 200)%nat by lia.
    rewrite Hp. cbn [snd parsed format_major format_minor state features filesystem_uuid label
      capacity_blocks allocation_group_blocks allocation_group_count descriptor_reservation_blocks
      first_descriptor_block first_allocatable_block backup_superblock_block filesystem_state_block
      journal_first_block journal_block_count journal_max_updates
      Features.compatible Features.read_only_compatible Features.incompatible].
    rewrite <- Hst, <- Hh, <- Hs. unfold get_u16, get_u32, get_u64.
    rewrite !le_bytes_slice by (done || lia). by rewrite Hm. }
  unfold image. rewrite Hbody.
  assert (crc32c (put_bytes b SUPERBLOCK_CHECKSUM_OFFSET (zeros 4))
          = le_value (slice SUPERBLOCK_CHECKSUM_OFFSET 4 b)) as ->.
  { unfold superblock_checksum in Hc. rewrite take_ge in Hc by lia. by rewrite <- Hc. }
  rewrite le_bytes_slice, put_put_bytes by (rewrite ?length_slice, ?length_zeros by lia; (done || lia)).
  by rewrite put_slice by lia.
Qed.
End SuperblockCodec.

(** ** Formatted volumes are valid *)

Module Formatting.
Import Superblock SuperblockCodec.

Lemma position_app_none {A} (p : A → bool) l k : any p l = false →
  position p (l ++ k) = (λ i, (length l + i)%nat) <$> position p k.
Proof.
  induction l as [|x l IH]; cbn [app position any length]; [by destruct (position p k)|].
  intros [-> Hl]%orb_false_iff. rewrite IH by done. by destruct (position p k).
Qed.

Lemma padded l : (length l ≤ LABEL_CAPACITY)%nat →
  put_bytes (zeros LABEL_CAPACITY) 0 l = l ++ zeros (LABEL_CAPACITY - length l).
Proof.
  intros Hl. apply (chunks_inj [length l]). cbn [chunks Nat.add]. f_equal; [|f_equal].
  - rewrite (slice_put_at LABEL_CAPACITY) by (apply length_zeros || done). symmetry. apply slice_app_l.
  - rewrite (drop_put_hi LABEL_CAPACITY), drop_zeros, drop_app_length by (apply length_zeros || lia). done.
Qed.

Lemma first_nul_padded l : any (λ b, b =? 0) l = false → (length l ≤ LABEL_CAPACITY)%nat →
  first_nul (l ++ zeros (LABEL_CAPACITY - length l)) = length l.
Proof.
  intros Hz Hl. unfold first_nul. rewrite position_app_none by done.
  destruct (decide (length l = LABEL_CAPACITY)) as [->|].
  - by rewrite Nat.sub_diag.
  - replace (LABEL_CAPACITY - length l)%nat with (S (LABEL_CAPACITY - length l - 1)) by lia.
    rewrite zeros_S. cbn. lia.
Qed.

(** The options that a caller can pass: machine integers, sixteen UUID bytes and
    a [&str]. *)
Definition options_typed (o : FormatOptions.t) : Prop :=
  is_u64 (FormatOptions.device_bytes o) ∧
  length (FormatOptions.uuid o) = 16%nat ∧ bytes_ok (FormatOptions.uuid o) ∧
  bytes_ok (FormatOptions.label o) ∧ from_utf8 (FormatOptions.label o) = true ∧
  is_u64 (FormatOptions.allocation_group_blocks o) ∧
  is_u32 (FormatOptions.descriptor_reservation_blocks o).

Lemma label_ok_padded l : bytes_ok l → from_utf8 l = true → any (λ b, b =? 0) l = false →
  (length l ≤ LABEL_CAPACITY)%nat →
  label_ok (put_bytes (zeros LABEL_CAPACITY) 0 l) (wrap 8 (Z.of_nat (length l))).
Proof.
  intros Hok Hu Hz Hl. rewrite padded by done. unfold label_ok. rewrite first_nul_padded by done.
  rewrite drop_app_length, take_app_length, length_app, length_zeros.
  split_and!; [lia| |done|apply nonzero_zeros|done].
  apply Forall_app_2; [done|apply zeros_ok].
Qed.

Lemma group_count_u32 c g n : 0 ≤ c → 0 ≤ g → group_count c g = Ok n → is_u32 n.
Proof.
  intros Hc Hg. unfold group_count, try_u32. intros H. oks. bool_simpl.
  apply checked_add_Some in E0 as [-> _]. destruct (_ <=? _) eqn:El; [|done]. simplify_eq. bool_simpl.
  split; [|done]. apply Z.div_pos; lia.
Qed.

Lemma format_typed o s : options_typed o → format o = Ok s → typed s.
Proof.
  intros (Hd & Hul & Hu & Hl & Hutf & Hg & Hr). unfold format. cbv zeta. intros H. oks. bool_simpl.
  assert (is_u64 (FormatOptions.device_bytes o / BLOCK_SIZE_U64)) as Hc.
  { unfold is_u64, BLOCK_SIZE_U64 in *. pose proof (Z.div_pos (FormatOptions.device_bytes o) 4096).
    pose proof (Z.div_le_upper_bound (FormatOptions.device_bytes o) 4096 u64_max). lia. }
  match goal with H : checked_add _ _ _ = Some _ |- _ => apply checked_add_Some in H as [-> ?] end.
  assert (is_u64 (FIRST_DESCRIPTOR_BLOCK + FormatOptions.descriptor_reservation_blocks o)) as Hf.
  { unfold is_u64, is_u32 in *. split; [|done]. change FIRST_DESCRIPTOR_BLOCK with 17. lia. }
  match goal with H : (LABEL_CAPACITY <? _)%nat = false |- _ => apply Nat.ltb_ge in H end.
  match goal with H : group_count _ _ = Ok ?n |- _ =>
    pose proof (group_count_u32 _ _ _ (proj1 Hc) (proj1 Hg) H) as Hn end.
  unfold typed; cbn. split_and!; try done. by apply label_ok_padded.
Qed.

Lemma format_fields o s : format o = Ok s →
  features s = Features.default ∧ state s = Clean ∧
  capacity_blocks s = FormatOptions.device_bytes o / BLOCK_SIZE_U64.
Proof. unfold format. cbv zeta. intros H. oks. done. Qed.

Lemma phase3_typed s : typed s → features s = Features.default → typed (with_phase3 (with_phase2 s)).
Proof.
  intros (? & ? & ? & ? & ? & ? & ? & ? & ? & ? & ? & ? & ? & ? & _) Hf.
  unfold typed, with_phase3, with_phase2; cbn. rewrite Hf. cbn. by split_and!.
Qed.

Lemma format_phase3_valid o s : options_typed o → format_phase3 o = Ok s →
  typed s ∧ validate s (Some (FormatOptions.device_bytes o)) ReadWrite = Ok () ∧ phase3_enabled s = true.
Proof.
  intros Ho. unfold format_phase3, format_phase2. cbv zeta. intros H. oks.
  repeat match goal with u : unit |- _ => destruct u end.
  match goal with H : format o = Ok ?x |- _ => rename x into s0; rename H into Hf end.
  destruct (format_fields _ _ Hf) as (Hfe & Hst & Hcap).
  split; [apply phase3_typed; [by eapply format_typed|done]|]. split.
  - apply validate_mode. split; [done|]. unfold mode_ok, with_phase3, with_phase2; cbn. rewrite Hfe, Hst.
    split_and!; [by vm_compute|done|]. intros d [= <-]. by rewrite Hcap.
  - unfold phase3_enabled, with_phase3, with_phase2; cbn. by rewrite Hfe.
Qed.
End Formatting.
