(* ===== verification/NullfsRecord.v ===== *)
(** * NullFS Phase 2 records: checksums at any offset, and tables

    The Phase 2 records (inodes, directory blocks, allocation-group tables) share
    two shapes.  A checksum word at a fixed offset covers the record with that
    word zeroed: [inode_checksum], [directory_checksum] and [table_checksum] of
    nullfs-format are [record_checksum] at their size and offset.  A block holds
    a table of equal-sized records, read and written slot by slot: a table is one
    field, the concatenation of its slots. *)

From stdpp Require Import base list numbers option.
From Stdlib Require Import ZArith Lia.
From S2P Require Import Prelude NullfsBytes NullfsPhase3.

Open Scope Z_scope.

Lemma get_u16_range b o : bytes_ok b → (o + 2 ≤ length b)%nat → 0 ≤ get_u16 b o ≤ u16_max.
Proof.
  intros Hb Hl. pose proof (le_value_range (slice o 2 b) (slice_ok _ _ _ Hb)) as H.
  rewrite length_slice in H by done. unfold u16_max, get_u16. cbn in H. lia.
Qed.

(** One byte of a buffer, [b[o]]. *)
Definition get_u8 (b : list Z) (o : nat) : Z := le_value (slice o 1 b).

Lemma le_bytes_1 v : is_byte v → le_bytes 1 v = [v].
Proof. intros H. change (le_bytes 1 v) with [v mod 256]. by rewrite Z.mod_small. Qed.
Lemma le_value_u8 v : is_byte v → le_value (le_bytes 1 v) = v.
Proof. intros H. by apply le_value_bytes. Qed.
Lemma get_u8_range b o : bytes_ok b → (o + 1 ≤ length b)%nat → is_byte (get_u8 b o).
Proof.
  intros Hb Hl. pose proof (le_value_range (slice o 1 b) (slice_ok _ _ _ Hb)) as H.
  by rewrite length_slice in H by done.
Qed.

(** ** Checksums *)

Definition record_checksum (N off : nat) (bytes : list Z) : Z :=
  crc32c (put_bytes (take N bytes) off (zeros 4)).

Section record.
Context (N off : nat) (Hoff : (off + 4 ≤ N)%nat).
Implicit Types b X : list Z.

Lemma record_checksum_eq b : length b = N →
  record_checksum N off b = crc32c (put_bytes b off (zeros 4)).
Proof using. clear Hoff. intros Hb. unfold record_checksum. by rewrite take_ge by lia. Qed.

Lemma record_checksum_u32 b : bytes_ok b → is_u32 (record_checksum N off b).
Proof using. intros Hb. apply crc32c_u32, put_bytes_ok; [by apply Forall_take|apply zeros_ok]. Qed.

(** The word itself does not count. *)
Lemma record_checksum_put b v : length b = N → length v = 4%nat →
  record_checksum N off (put_bytes b off v) = record_checksum N off b.
Proof using Hoff.
  intros Hb Hv. rewrite !record_checksum_eq by (rewrite ?length_put_bytes; lia).
  rewrite put_put_bytes; [done|by rewrite length_zeros|lia].
Qed.

(** A sealed record carries its checksum. *)
Lemma record_sealed X : length X = N → bytes_ok X →
  get_u32 (put_u32 X off (record_checksum N off X)) off
  = record_checksum N off (put_u32 X off (record_checksum N off X)).
Proof using Hoff.
  intros HX Hok. unfold put_u32 at 2. rewrite record_checksum_put by (rewrite ?length_le_bytes; done).
  unfold get_u32, put_u32. rewrite (slice_put_at N) by lens.
  apply le_value_u32. by apply record_checksum_u32.
Qed.

(** A record with a good checksum is the sealing of what it holds elsewhere. *)
Lemma record_unseal b X : length b = N → bytes_ok b →
  get_u32 b off = record_checksum N off b → X = put_bytes b off (zeros 4) →
  put_u32 X off (record_checksum N off X) = b.
Proof using Hoff.
  intros Hb Hok Hc ->. rewrite record_checksum_put, <- Hc by (rewrite ?length_zeros; done).
  unfold put_u32, get_u32. rewrite le_bytes_slice by (done || lia).
  rewrite put_put_bytes by (rewrite ?length_slice, ?length_zeros by lia; lia). by apply put_slice; lia.
Qed.
End record.

(** ** Tables *)

(** The slots of a table of [n] records of [w] bytes from offset [o]. *)
Definition read_table (o w n : nat) (b : list Z) : list (list Z) :=
  (λ i, slice (o + i * w) w b) <$> seq 0 n.

(** Write records into consecutive slots. *)
Fixpoint put_table (b : list Z) (o w : nat) (recs : list (list Z)) : list Z :=
  match recs with
  | [] => b
  | r :: recs => put_table (put_bytes b o r) (o + w) w recs
  end.

Section table.
Context (w : nat).
Implicit Types (b : list Z) (recs : list (list Z)) (o n : nat).
Notation slots recs := (Forall (λ r, length r = w) recs).

Lemma length_slots recs : slots recs → length (concat recs) = (length recs * w)%nat.
Proof. induction 1 as [|r recs Hr _ IH]; cbn; [done|]. rewrite length_app. lia. Qed.

Lemma put_adjacent b o u v : (o + length u + length v ≤ length b)%nat →
  put_bytes (put_bytes b o u) (o + length u) v = put_bytes b o (u ++ v).
Proof.
  Transparent put_bytes. intros Hl. unfold put_bytes.
  rewrite take_app_ge by (rewrite length_take; lia).
  rewrite length_take, Nat.min_l by lia. replace (o + length u - o)%nat with (length u) by lia.
  rewrite take_app_length, <- !app_assoc. do 3 f_equal.
  rewrite app_assoc, drop_app_ge by (rewrite length_app, length_take; lia).
  rewrite drop_drop, length_app, length_take, length_app. f_equal. lia.
  Opaque put_bytes.
Qed.

Lemma put_adj N b o u v : length b = N → (o + length u + length v ≤ N)%nat →
  put_bytes (put_bytes b o u) (o + length u) v = put_bytes b o (u ++ v).
Proof. intros <-. apply put_adjacent. Qed.

Lemma put_table_eq recs b o : slots recs → (o + length recs * w ≤ length b)%nat →
  put_table b o w recs = put_bytes b o (concat recs).
Proof.
  intros Hs. revert b o. induction Hs as [|r recs Hr Hs IH]; intros b o Hl; cbn [put_table concat].
  - Transparent put_bytes. unfold put_bytes. cbn. by rewrite Nat.add_0_r, take_drop. Opaque put_bytes.
  - cbn in Hl. rewrite IH by (rewrite length_put_bytes; lia).
    rewrite <- Hr, put_adjacent; [done|]. rewrite length_slots by done. lia.
Qed.

Lemma read_table_S b o n : read_table o w (S n) b = slice o w b :: read_table (o + w) w n b.
Proof.
  unfold read_table. cbn [seq fmap list_fmap]. rewrite <- seq_shift, <- list_fmap_compose, Nat.add_0_r. f_equal.
  apply list_fmap_ext. intros i x _. unfold compose. f_equal. lia.
Qed.

Lemma concat_read_table b o n : concat (read_table o w n b) = slice o (n * w) b.
Proof.
  revert o. induction n as [|n IH]; intros o; [done|].
  by rewrite read_table_S, (slice_split o w (n * w)), <- IH.
Qed.

Lemma read_table_slots b o n : (o + n * w ≤ length b)%nat → slots (read_table o w n b).
Proof.
  intros Hl. apply Forall_fmap, Forall_forall. intros i Hi%in_seq. unfold compose. apply length_slice. nia.
Qed.

Lemma length_read_table b o n : length (read_table o w n b) = n.
Proof. unfold read_table. by rewrite length_fmap, length_seq. Qed.

Lemma read_table_elem b o n r : (o + n * w ≤ length b)%nat → bytes_ok b →
  r ∈ read_table o w n b → length r = w ∧ bytes_ok r.
Proof.
  intros Hl Hok Hr. apply list_elem_of_fmap in Hr as (i & -> & Hi%elem_of_seq).
  split; [apply length_slice; nia|by apply slice_ok].
Qed.

Lemma slots_inj recs recs' : slots recs → slots recs' → length recs = length recs' →
  concat recs = concat recs' → recs = recs'.
Proof.
  intros Hs. revert recs'. induction Hs as [|r recs Hr Hs IH]; intros [|r' recs'] Hs' Hl; try done.
  apply Forall_cons_1 in Hs' as [Hr' Hs']. cbn. intros [-> Hc]%app_inj_1; [|congruence].
  f_equal. apply IH; [done| |done]. by injection Hl.
Qed.

(** A table reads back as the records it was written from. *)
Lemma read_table_concat b o n recs : slots recs → length recs = n → (o + n * w ≤ length b)%nat →
  slice o (n * w) b = concat recs → read_table o w n b = recs.
Proof.
  intros Hs Hn Hl Hc. apply slots_inj; [by apply read_table_slots|done|by rewrite length_read_table|].
  by rewrite concat_read_table.
Qed.
End table.

Lemma concat_bytes_ok recs : Forall bytes_ok recs → bytes_ok (concat recs).
Proof. induction 1; cbn; [constructor|]. by apply Forall_app_2. Qed.

(** ** Concatenated fields *)

Lemma lookup_slice o n b (i : nat) : (i < n)%nat → slice o n b !! i = b !! (o + i)%nat.
Proof. Transparent slice. intros H. unfold slice. by rewrite lookup_take_lt, lookup_drop by done. Opaque slice. Qed.

Lemma lookup_zeros n (i : nat) : (i < n)%nat → zeros n !! i = Some 0.
Proof. Transparent zeros. intros H. by apply lookup_replicate. Opaque zeros. Qed.

Lemma lookup_put_bytes b o v (i : nat) : (o + length v ≤ length b)%nat →
  put_bytes b o v !! i = if decide (o ≤ i < o + length v)%nat then v !! (i - o)%nat else b !! i.
Proof.
  Transparent put_bytes. intros H. unfold put_bytes.
  assert (length (take o b) = o) as Ho by (apply length_take_le; lia).
  destruct (decide (i < o)%nat) as [Hi|Hi].
  { rewrite decide_False, lookup_app_l, lookup_take_lt by lia. done. }
  rewrite lookup_app_r, Ho by lia. destruct (decide _).
  - by rewrite lookup_app_l by lia.
  - rewrite lookup_app_r, lookup_drop by lia. f_equal. lia.
  Opaque put_bytes.
Qed.

Lemma slice_app_skip a r o n : (length a ≤ o)%nat → slice o n (a ++ r) = slice (o - length a) n r.
Proof.
  intros H. replace o with (length a + (o - length a))%nat at 1 by lia. apply slice_app_r.
Qed.

Lemma slice_app_head a r n : n = length a → slice 0 n (a ++ r) = a.
Proof. intros ->. apply slice_app_l. Qed.

Lemma slice_full a n : n = length a → slice 0 n a = a.
Proof. intros ->. rewrite <- (app_nil_r a) at 2. apply slice_app_l. Qed.

Lemma slice_drop o k n b : slice (o + k) n b = slice k n (drop o b).
Proof. Transparent slice. unfold slice. by rewrite drop_drop. Opaque slice. Qed.

Lemma slice_to_end o n b : (o + n = length b)%nat → slice o n b = drop o b.
Proof. Transparent slice. intros H. unfold slice. apply take_ge. rewrite length_drop. lia. Opaque slice. Qed.

Lemma slice_slice o n b k m : (k + m ≤ n)%nat → slice k m (slice o n b) = slice (o + k) m b.
Proof.
  Transparent slice. intros H. unfold slice. rewrite <- (drop_drop b k o), (take_drop_commute (drop o b) m k).
  by rewrite (take_drop_commute (take n (drop o b)) m k), take_take, Nat.min_l by lia. Opaque slice.
Qed.

(** Read the fields of [f1 ++ f2 ++ ..]. *)
Ltac app_fields :=
  unfold get_u16, get_u32, get_u64;
  repeat match goal with
  | |- context [slice (S ?o) ?n (?a ++ ?r)] =>
      rewrite (slice_app_skip a r (S o) n) by (rewrite ?length_le_bytes; lia);
      rewrite ?length_le_bytes; cbn [Nat.sub]
  | |- context [slice 0 ?n (?a ++ ?r)] => rewrite (slice_app_head a r n) by (by rewrite ?length_le_bytes)
  | |- context [slice 0 ?n (le_bytes ?n ?v)] => rewrite (slice_full (le_bytes n v) n) by (by rewrite ?length_le_bytes)
  end.
