(* ===== verification/NullfsInode.v ===== *)
(** * NullFS inodes

    Models nullfs-format/src/inode.rs: node kinds, timestamps, inline extents, the
    inode record with its two validation modes, and its 256-byte encoding.  The
    lemmas say which byte strings decode, to what, and what the extents of a
    valid inode look like. *)

From stdpp Require Import base list numbers option.
From Stdlib Require Import ZArith Lia.
From S2P Require Import Prelude NullfsBytes NullfsPhase3 NullfsRecord.

Open Scope Z_scope.

Definition INODE_BYTES : nat := 256.
Definition INODE_CHECKSUM_OFFSET : nat := 252.
Definition INLINE_EXTENT_COUNT : nat := 4.
Definition EXTENT_BYTES : nat := 24.

Inductive InodeValidationMode := Strict | Phase3Orphan.
#[global] Instance InodeValidationMode_eq_dec : EqDecision InodeValidationMode.
Proof. solve_decision. Defined.

Module NodeKind.
Inductive t := Free | Regular | Directory | Symlink.
#[global] Instance t_eq_dec : EqDecision t.
Proof. solve_decision. Defined.

(** [kind as u16] *)
Definition u16 (kind : t) : Z :=
  match kind with Free => 0 | Regular => 1 | Directory => 2 | Symlink => 3 end.

Definition decode (value : Z) : outcome FormatError.t t :=
  match value with
  | 0 => Ok Free
  | 1 => Ok Regular
  | 2 => Ok Directory
  | 3 => Ok Symlink
  | _ => Err (FormatError.InvalidNodeKind value)
  end.
End NodeKind.

Module Timestamp.
Record t := mk {
  seconds : Z;
  nanoseconds : Z;
}.
#[global] Instance t_eq_dec : EqDecision t.
Proof. solve_decision. Defined.

Definition default : t := mk 0 0.

Definition validate (self : t) : outcome FormatError.t unit :=
  err_if (1000000000 <=? nanoseconds self) FormatError.InvalidTimestamp.

Definition typed (self : t) : Prop := is_u64 (seconds self) ∧ is_u32 (nanoseconds self).
End Timestamp.

Module Extent.
Record t := mk {
  logical_first_block : Z;
  physical_first_block : Z;
  length_blocks : Z;
  flags : Z;
}.
#[global] Instance t_eq_dec : EqDecision t.
Proof. solve_decision. Defined.

Definition default : t := mk 0 0 0 0.

Definition logical_end (self : t) : outcome FormatError.t Z :=
  ok_or (checked_add u64_max (logical_first_block self) (length_blocks self))
    FormatError.ArithmeticOverflow.
Definition physical_end (self : t) : outcome FormatError.t Z :=
  ok_or (checked_add u64_max (physical_first_block self) (length_blocks self))
    FormatError.ArithmeticOverflow.

Definition typed (self : t) : Prop :=
  is_u64 (logical_first_block self) ∧ is_u64 (physical_first_block self) ∧
  is_u32 (length_blocks self) ∧ is_u32 (flags self).
End Extent.

Module Inode.
Record t := mk {
  kind : NodeKind.t;
  mode : Z;
  uid : Z;
  gid : Z;
  link_count : Z;
  flags : Z;
  generation : Z;
  size : Z;
  allocated_blocks : Z;
  parent_inode : Z;
  accessed : Timestamp.t;
  modified : Timestamp.t;
  changed : Timestamp.t;
  created : Timestamp.t;
  directory_entry_count : Z;
  extent_count : Z;
  extents : list Extent.t;
}.
#[global] Instance t_eq_dec : EqDecision t.
Proof. solve_decision. Defined.

Definition default : t :=
  mk NodeKind.Free 0 0 0 0 0 0 0 0 0 Timestamp.default Timestamp.default Timestamp.default
    Timestamp.default 0 0 (replicate INLINE_EXTENT_COUNT Extent.default).

(** The extents in use, [&self.extents[..usize::from(self.extent_count)]]. *)
Definition used_extents (self : t) : list Extent.t := take (Z.to_nat (extent_count self)) (extents self).

(** [for (index, extent) in self.extents.iter().enumerate()]: the blocks
    allocated by the extents from [index] on. *)
Fixpoint validate_extents (self : t) (index : Z) (extents : list Extent.t) (allocated previous_end : Z)
    : outcome FormatError.t Z :=
  match extents with
  | [] => mret allocated
  | extent :: extents =>
      if index <? extent_count self then
        _ ← err_if ((Extent.length_blocks extent =? 0) || negb (Extent.flags extent =? 0)
                    || (negb (index =? 0) && (Extent.logical_first_block extent <? previous_end)))
              FormatError.InvalidExtent;
        previous_end ← Extent.logical_end extent;
        _ ← Extent.physical_end extent;
        allocated ← ok_or (checked_add u64_max allocated (Extent.length_blocks extent))
                      FormatError.ArithmeticOverflow;
        limit ← ok_or (checked_add u64_max (size self) 4095) FormatError.ArithmeticOverflow;
        _ ← err_if (limit / 4096 <? previous_end) FormatError.InvalidExtent;
        validate_extents self (index + 1) extents allocated previous_end
      else
        _ ← err_if (negb (bool_decide (extent = Extent.default))) FormatError.InvalidExtent;
        validate_extents self (index + 1) extents allocated previous_end
  end.

(** The second loop, for directories: the extents leave no hole; the result is
    the first block after them. *)
Fixpoint contiguous_end (extents : list Extent.t) (next : Z) : outcome FormatError.t Z :=
  match extents with
  | [] => mret next
  | extent :: extents =>
      _ ← err_if (negb (Extent.logical_first_block extent =? next)) FormatError.InvalidExtent;
      next ← Extent.logical_end extent;
      contiguous_end extents next
  end.

Definition links_valid (self : t) (validation : InodeValidationMode) : bool :=
  match validation with
  | Strict => negb (link_count self =? 0)
  | Phase3Orphan => bool_decide (kind self = NodeKind.Regular) && (link_count self =? 0)
  end.

Definition validate_with_mode (self : t) (validation : InodeValidationMode) : outcome FormatError.t unit :=
  if bool_decide (kind self = NodeKind.Free) then
    if bool_decide (validation = Strict) && bool_decide (self = default) then Ok ()
    else Err FormatError.InvalidFreeInode
  else
  _ ← err_if (negb (Z.land (mode self) (Z.lxor 0x0fff u16_max) =? 0) || negb (links_valid self validation)
              || (generation self =? 0) || negb (flags self =? 0)) FormatError.InvalidInode;
  _ ← Timestamp.validate (accessed self);
  _ ← Timestamp.validate (modified self);
  _ ← Timestamp.validate (changed self);
  _ ← Timestamp.validate (created self);
  _ ← err_if (Z.of_nat INLINE_EXTENT_COUNT <? extent_count self) FormatError.TooManyExtents;
  _ ← err_if (negb (bool_decide (kind self = NodeKind.Directory))
              && negb (directory_entry_count self =? 0)) FormatError.InvalidInode;
  _ ← err_if (bool_decide (kind self = NodeKind.Directory)
              && (negb (size self mod 4096 =? 0) || (parent_inode self =? 0))) FormatError.InvalidInode;
  _ ← err_if (bool_decide (kind self = NodeKind.Symlink)
              && (negb (size self =? 0) || negb (extent_count self =? 0)))
        FormatError.UnsupportedInlineSymlink;
  allocated ← validate_extents self 0 (extents self) 0 0;
  _ ← err_if (negb (allocated =? allocated_blocks self)) FormatError.InvalidExtent;
  if bool_decide (kind self = NodeKind.Directory) then
    next ← contiguous_end (used_extents self) 0;
    err_if (negb (next =? size self / 4096)) FormatError.InvalidExtent
  else Ok ().

Definition validate (self : t) : outcome FormatError.t unit := validate_with_mode self Strict.

Definition orphan_next (self : t) : outcome FormatError.t Z :=
  _ ← validate_with_mode self Phase3Orphan;
  mret (parent_inode self).

Definition inode_checksum (bytes : list Z) : Z := record_checksum INODE_BYTES INODE_CHECKSUM_OFFSET bytes.

Definition put_timestamp (b : list Z) (o : nat) (t : Timestamp.t) : list Z :=
  put_u32 (put_u64 b o (Timestamp.seconds t)) (o + 8) (Timestamp.nanoseconds t).
Definition get_timestamp (b : list Z) (o : nat) : Timestamp.t :=
  Timestamp.mk (get_u64 b o) (get_u32 b (o + 8)).

(** The two extent loops of the encoder and the decoder. *)
Fixpoint put_extents (out : list Z) (index : nat) (extents : list Extent.t) : list Z :=
  match extents with
  | [] => out
  | extent :: extents =>
      let o := (128 + index * EXTENT_BYTES)%nat in
      let out := put_u64 out o (Extent.logical_first_block extent) in
      let out := put_u64 out (o + 8) (Extent.physical_first_block extent) in
      let out := put_u32 out (o + 16) (Extent.length_blocks extent) in
      let out := put_u32 out (o + 20) (Extent.flags extent) in
      put_extents out (S index) extents
  end.
Definition get_extents (b : list Z) : list Extent.t :=
  (λ index, let o := (128 + index * EXTENT_BYTES)%nat in
     Extent.mk (get_u64 b o) (get_u64 b (o + 8)) (get_u32 b (o + 16)) (get_u32 b (o + 20)))
  <$> seq 0 INLINE_EXTENT_COUNT.

#[global] Arguments get_extents : simpl never.

Definition encode_with_mode (self : t) (validation : InodeValidationMode) : outcome FormatError.t (list Z) :=
  _ ← validate_with_mode self validation;
  if bool_decide (kind self = NodeKind.Free) then mret (zeros INODE_BYTES) else
  let out := zeros INODE_BYTES in
  let out := put_u16 out 0 1 in
  let out := put_u16 out 2 (Z.of_nat INODE_BYTES) in
  let out := put_u16 out 4 (NodeKind.u16 (kind self)) in
  let out := put_u16 out 6 (mode self) in
  let out := put_u32 out 8 (uid self) in
  let out := put_u32 out 12 (gid self) in
  let out := put_u32 out 16 (link_count self) in
  let out := put_u32 out 20 (flags self) in
  let out := put_u64 out 24 (generation self) in
  let out := put_u64 out 32 (size self) in
  let out := put_u64 out 40 (allocated_blocks self) in
  let out := put_u64 out 48 (parent_inode self) in
  let out := put_timestamp out 56 (accessed self) in
  let out := put_timestamp out 72 (modified self) in
  let out := put_timestamp out 88 (changed self) in
  let out := put_timestamp out 104 (created self) in
  let out := put_u16 out 116 (extent_count self) in
  let out := put_u64 out 120 (directory_entry_count self) in
  let out := put_extents out 0 (extents self) in
  let checksum := inode_checksum out in
  mret (put_u32 out INODE_CHECKSUM_OFFSET checksum).

Definition encode (self : t) : outcome FormatError.t (list Z) := encode_with_mode self Strict.

Definition decode_with_mode (bytes : list Z) (validation : InodeValidationMode) : outcome FormatError.t t :=
  _ ← err_if (length bytes <? INODE_BYTES)%nat
        (FormatError.TruncatedPhase2Record (Z.of_nat INODE_BYTES) (Z.of_nat (length bytes)));
  let b := take INODE_BYTES bytes in
  if negb (nonzero b) then
    _ ← validate_with_mode default validation;
    mret default
  else
  let stored := get_u32 b INODE_CHECKSUM_OFFSET in
  let actual := inode_checksum b in
  _ ← err_if (negb (stored =? actual)) (FormatError.Phase2ChecksumMismatch stored actual);
  _ ← err_if (negb (get_u16 b 0 =? 1) || negb (get_u16 b 2 =? Z.of_nat INODE_BYTES)
              || nonzero (slice 68 4 b ++ slice 84 4 b ++ slice 100 4 b ++ slice 118 2 b ++ slice 224 28 b))
        FormatError.NonZeroPhase2ReservedBytes;
  kind ← NodeKind.decode (get_u16 b 4);
  let inode := mk kind (get_u16 b 6) (get_u32 b 8) (get_u32 b 12) (get_u32 b 16) (get_u32 b 20)
    (get_u64 b 24) (get_u64 b 32) (get_u64 b 40) (get_u64 b 48)
    (get_timestamp b 56) (get_timestamp b 72) (get_timestamp b 88) (get_timestamp b 104)
    (get_u64 b 120) (get_u16 b 116) (get_extents b) in
  _ ← validate_with_mode inode validation;
  mret inode.

Definition decode (bytes : list Z) : outcome FormatError.t t := decode_with_mode bytes Strict.

(** Fields within their machine types. *)
Record typed (self : t) : Prop := {
  typed_mode : 0 ≤ mode self ≤ u16_max;
  typed_uid : is_u32 (uid self);
  typed_gid : is_u32 (gid self);
  typed_link_count : is_u32 (link_count self);
  typed_flags : is_u32 (flags self);
  typed_generation : is_u64 (generation self);
  typed_size : is_u64 (size self);
  typed_allocated : is_u64 (allocated_blocks self);
  typed_parent : is_u64 (parent_inode self);
  typed_accessed : Timestamp.typed (accessed self);
  typed_modified : Timestamp.typed (modified self);
  typed_changed : Timestamp.typed (changed self);
  typed_created : Timestamp.typed (created self);
  typed_entries : is_u64 (directory_entry_count self);
  typed_extent_count : 0 ≤ extent_count self ≤ u16_max;
  typed_extents_length : length (extents self) = INLINE_EXTENT_COUNT;
  typed_extents : Forall Extent.typed (extents self);
}.
End Inode.

(** ** The inode codec *)

Module InodeCodec.
Import Inode.

Definition extent_bytes (e : Extent.t) : list Z :=
  le_bytes 8 (Extent.logical_first_block e) ++ le_bytes 8 (Extent.physical_first_block e) ++
  le_bytes 4 (Extent.length_blocks e) ++ le_bytes 4 (Extent.flags e).
Definition extent_of (b : list Z) : Extent.t :=
  Extent.mk (get_u64 b 0) (get_u64 b 8) (get_u32 b 16) (get_u32 b 20).

Lemma length_extent_bytes e : length (extent_bytes e) = EXTENT_BYTES.
Proof. unfold extent_bytes. rewrite !length_app, !length_le_bytes. done. Qed.

Lemma extent_bytes_slots es : Forall (λ r, length r = EXTENT_BYTES) (extent_bytes <$> es).
Proof. apply Forall_fmap, Forall_true. apply length_extent_bytes. Qed.

Lemma extent_bytes_ok e : bytes_ok (extent_bytes e).
Proof. repeat apply Forall_app_2; apply le_bytes_ok. Qed.

(** An extent reads back from its bytes, and its bytes from the extent. *)
Lemma extent_of_bytes e : Extent.typed e → extent_of (extent_bytes e) = e.
Proof.
  intros (H1 & H2 & H3 & H4). unfold extent_of, extent_bytes. app_fields.
  rewrite !le_value_u64, !le_value_u32 by done. by destruct e.
Qed.

Lemma extent_bytes_of b : length b = EXTENT_BYTES → bytes_ok b → extent_bytes (extent_of b) = b.
Proof.
  unfold EXTENT_BYTES. intros Hl Hok. unfold extent_bytes, extent_of, get_u64, get_u32. cbn.
  rewrite !le_bytes_slice by (exact Hok || lia).
  rewrite <- (slice_split 16 4 4), <- (slice_split 8 8 8), <- (slice_split 0 8 16).
  by apply slice_full.
Qed.

Lemma extent_of_typed b : length b = EXTENT_BYTES → bytes_ok b → Extent.typed (extent_of b).
Proof.
  unfold EXTENT_BYTES. intros Hl Hok.
  split_and!; cbn; (apply get_u64_range || apply get_u32_range); (done || lia).
Qed.

Lemma put_extents_eq es out i : (128 + (i + length es) * EXTENT_BYTES ≤ length out)%nat →
  put_extents out i es = put_table out (128 + i * EXTENT_BYTES) EXTENT_BYTES (extent_bytes <$> es).
Proof.
  revert out i. induction es as [|e es IH]; intros out i Hl; [done|]. cbn [length] in Hl.
  cbn [put_extents fmap list_fmap put_table]. cbv zeta.
  assert (put_u32 (put_u32 (put_u64 (put_u64 out (128 + i * EXTENT_BYTES) (Extent.logical_first_block e))
      (128 + i * EXTENT_BYTES + 8) (Extent.physical_first_block e))
      (128 + i * EXTENT_BYTES + 16) (Extent.length_blocks e))
      (128 + i * EXTENT_BYTES + 20) (Extent.flags e)
    = put_bytes out (128 + i * EXTENT_BYTES) (extent_bytes e)) as ->.
  { unfold EXTENT_BYTES in *. unfold put_u64, put_u32, extent_bytes.
    rewrite <- !(put_adj (length out)) by (rewrite ?length_app; lens).
    rewrite !length_le_bytes, <- !Nat.add_assoc. done. }
  rewrite IH by (rewrite length_put_bytes; rewrite ?length_extent_bytes; unfold EXTENT_BYTES in *; lia).
  f_equal. unfold EXTENT_BYTES. lia.
Qed.

Lemma get_extents_eq b : get_extents b = extent_of <$> read_table 128 EXTENT_BYTES INLINE_EXTENT_COUNT b.
Proof.
  unfold get_extents, read_table. rewrite <- list_fmap_compose. apply list_fmap_ext. intros i x _.
  unfold compose, extent_of, get_u64, get_u32, EXTENT_BYTES. by rewrite !slice_slice, Nat.add_0_r by lia.
Qed.

(** The layout of an inode, last field first. *)
Definition updates (self : t) : list update :=
  [(128, 96, concat (extent_bytes <$> extents self));
   (120, 8, le_bytes 8 (directory_entry_count self));
   (116, 2, le_bytes 2 (extent_count self));
   (112, 4, le_bytes 4 (Timestamp.nanoseconds (created self)));
   (104, 8, le_bytes 8 (Timestamp.seconds (created self)));
   (96, 4, le_bytes 4 (Timestamp.nanoseconds (changed self)));
   (88, 8, le_bytes 8 (Timestamp.seconds (changed self)));
   (80, 4, le_bytes 4 (Timestamp.nanoseconds (modified self)));
   (72, 8, le_bytes 8 (Timestamp.seconds (modified self)));
   (64, 4, le_bytes 4 (Timestamp.nanoseconds (accessed self)));
   (56, 8, le_bytes 8 (Timestamp.seconds (accessed self)));
   (48, 8, le_bytes 8 (parent_inode self));
   (40, 8, le_bytes 8 (allocated_blocks self));
   (32, 8, le_bytes 8 (size self));
   (24, 8, le_bytes 8 (generation self));
   (20, 4, le_bytes 4 (flags self));
   (16, 4, le_bytes 4 (link_count self));
   (12, 4, le_bytes 4 (gid self));
   (8, 4, le_bytes 4 (uid self));
   (6, 2, le_bytes 2 (mode self));
   (4, 2, le_bytes 2 (NodeKind.u16 (kind self)));
   (2, 2, le_bytes 2 (Z.of_nat INODE_BYTES));
   (0, 2, le_bytes 2 1)]%nat.

Definition inode_body (self : t) : list Z := apply_updates (updates self) (zeros INODE_BYTES).
Definition inode_image (self : t) : list Z :=
  put_u32 (inode_body self) INODE_CHECKSUM_OFFSET (inode_checksum (inode_body self)).

Section image.
Context (self : t) (Hl : length (extents self) = INLINE_EXTENT_COUNT).

Lemma inode_fit : Forall (fits INODE_BYTES) (updates self).
Proof using Hl.
  assert (length (concat (extent_bytes <$> extents self)) = 96%nat).
  { rewrite (length_slots EXTENT_BYTES), length_fmap, Hl by apply extent_bytes_slots. done. }
  unfold updates, INODE_BYTES. fits_solve.
Qed.

Lemma inode_body_length : length (inode_body self) = INODE_BYTES.
Proof using Hl. apply length_apply_updates; [apply length_zeros|apply inode_fit]. Qed.

Lemma inode_body_ok : bytes_ok (inode_body self).
Proof using.
  assert (bytes_ok (concat (extent_bytes <$> extents self))).
  { apply concat_bytes_ok, Forall_fmap, Forall_true. intros e. apply extent_bytes_ok. }
  apply apply_updates_ok; [apply zeros_ok|]. unfold updates. bytes_solve.
Qed.

Lemma inode_image_length : length (inode_image self) = INODE_BYTES.
Proof using Hl.
  unfold inode_image, put_u32. rewrite length_put_bytes, inode_body_length; [done|].
  rewrite length_le_bytes, inode_body_length. unfold INODE_BYTES, INODE_CHECKSUM_OFFSET. lia.
Qed.

Lemma inode_image_ok : bytes_ok (inode_image self).
Proof using. apply put_bytes_ok; [apply inode_body_ok|apply le_bytes_ok]. Qed.

Lemma inode_image_sealed : get_u32 (inode_image self) INODE_CHECKSUM_OFFSET = inode_checksum (inode_image self).
Proof using Hl.
  apply record_sealed; [unfold INODE_BYTES, INODE_CHECKSUM_OFFSET; lia|apply inode_body_length|apply inode_body_ok].
Qed.

Lemma inode_encode_eq v b : kind self ≠ NodeKind.Free →
  encode_with_mode self v = Ok b ↔ validate_with_mode self v = Ok () ∧ b = inode_image self.
Proof using Hl.
  intros Hk. unfold encode_with_mode. rewrite bool_decide_false by done. cbv zeta.
  assert (∀ out, length out = INODE_BYTES → put_extents out 0 (extents self)
    = put_bytes out 128 (concat (extent_bytes <$> extents self))) as Hx.
  { intros out Ho. rewrite put_extents_eq by (rewrite Hl, Ho; unfold INODE_BYTES, INLINE_EXTENT_COUNT, EXTENT_BYTES; lia).
    rewrite put_table_eq; [done|apply extent_bytes_slots|].
    rewrite length_fmap, Hl, Ho. unfold INODE_BYTES, INLINE_EXTENT_COUNT, EXTENT_BYTES. lia. }
  rewrite Hx by (unfold put_timestamp, put_u64, put_u32, put_u16, INODE_BYTES; lens).
  encode_guard (validate_with_mode self v).
Qed.
End image.

(** The record that [decode] builds from the fields. *)
Definition inode_of (kind : NodeKind.t) (b : list Z) : t :=
  mk kind (get_u16 b 6) (get_u32 b 8) (get_u32 b 12) (get_u32 b 16) (get_u32 b 20)
    (get_u64 b 24) (get_u64 b 32) (get_u64 b 40) (get_u64 b 48)
    (get_timestamp b 56) (get_timestamp b 72) (get_timestamp b 88) (get_timestamp b 104)
    (get_u64 b 120) (get_u16 b 116) (get_extents b).

(** The header and the reserved ranges of a written inode. *)
Definition framed (b : list Z) : Prop :=
  get_u32 b INODE_CHECKSUM_OFFSET = inode_checksum b ∧
  get_u16 b 0 = 1 ∧ get_u16 b 2 = Z.of_nat INODE_BYTES ∧
  slice 68 4 b = zeros 4 ∧ slice 84 4 b = zeros 4 ∧ slice 100 4 b = zeros 4 ∧
  slice 118 2 b = zeros 2 ∧ slice 224 28 b = zeros 28.

Lemma kind_decode_Ok v k : NodeKind.decode v = Ok k ↔ v = NodeKind.u16 k.
Proof.
  unfold NodeKind.decode. split.
  - destruct v as [|[[|[]|]|[|[]|]|]|]; try done; by intros <-%(inj Ok).
  - intros ->. by destruct k.
Qed.

Lemma inode_decode_Ok self v b : length b = INODE_BYTES →
  decode_with_mode b v = Ok self ↔
  (nonzero b = false ∧ validate_with_mode default v = Ok () ∧ self = default) ∨
  (nonzero b = true ∧ framed b ∧ get_u16 b 4 = NodeKind.u16 (kind self) ∧
   self = inode_of (kind self) b ∧ validate_with_mode self v = Ok ()).
Proof.
  intros Hb. unfold decode_with_mode, framed. rewrite take_ge, Hb by lia.
  rewrite Nat.ltb_irrefl. cbn [err_if]. change (mbind ?k (Ok ())) with (k ()). cbv beta.
  destruct (nonzero b); cbn [negb].
  2: { split; [|intros [(_ & -> & ->)|[? _]]; done]. intros H. left. oks. by destruct a. }
  rewrite !nonzero_app. split.
  - intros H. right. oks. destruct a2. bool_simpl.
    repeat match goal with H : nonzero _ = false |- _ => apply nonzero_false in H end.
    unfold INODE_BYTES in *. rewrite !length_slice in * by lia.
    split_and!; try done. by apply kind_decode_Ok.
  - intros [(? & _)|(_ & (Hc & -> & -> & -> & -> & -> & -> & ->) & Hk & Hs & Hv)]; [done|].
    rewrite <- Hc, !Z.eqb_refl, !nonzero_zeros. cbn [negb orb err_if]. rewrite !bind_Ok.
    rewrite (proj2 (kind_decode_Ok _ _) Hk), !bind_Ok. cbv zeta. fold (inode_of (kind self) b).
    rewrite <- Hs, Hv. done.
Qed.

(** The layout with its checksum. *)
Definition sealed_updates (self : t) : list update :=
  (252, 4, le_bytes 4 (inode_checksum (inode_body self)))%nat :: updates self.

Lemma inode_image_layout self : inode_image self = apply_updates (sealed_updates self) (zeros INODE_BYTES).
Proof. done. Qed.

Lemma inode_sealed_updates_fit self : length (extents self) = INLINE_EXTENT_COUNT →
  Forall (fits INODE_BYTES) (sealed_updates self).
Proof.
  intros Hl. apply Forall_cons_2; [|by apply inode_fit].
  split; cbn; [apply length_le_bytes|unfold INODE_BYTES; lia].
Qed.

Lemma inode_image_extents self : length (extents self) = INLINE_EXTENT_COUNT →
  Forall Extent.typed (extents self) → get_extents (inode_image self) = extents self.
Proof.
  intros Hl Ht. pose proof (inode_sealed_updates_fit self Hl) as Hfit.
  rewrite get_extents_eq, (read_table_concat _ _ _ _ (extent_bytes <$> extents self)).
  - rewrite <- list_fmap_compose. rewrite <- (list_fmap_id (extents self)) at 2.
    apply Forall_fmap_ext_1. eapply Forall_impl; [|exact Ht]. apply extent_of_bytes.
  - apply extent_bytes_slots.
  - by rewrite length_fmap.
  - rewrite inode_image_length by done. unfold INODE_BYTES, INLINE_EXTENT_COUNT, EXTENT_BYTES. lia.
  - rewrite inode_image_layout.
    unfold INLINE_EXTENT_COUNT, EXTENT_BYTES. cbn [Nat.mul Nat.add]. by layout INODE_BYTES Hfit.
Qed.

Lemma inode_image_framed self : length (extents self) = INLINE_EXTENT_COUNT → framed (inode_image self).
Proof.
  intros Hl. pose proof (inode_sealed_updates_fit self Hl) as Hfit.
  split; [by apply inode_image_sealed|]. rewrite inode_image_layout.
  unfold get_u16. layout INODE_BYTES Hfit. cbn [snd]. unfold INODE_BYTES.
  rewrite !slice_zeros, !le_value_u16 by (done || lia). done.
Qed.

Lemma inode_image_fields self : typed self →
  get_u16 (inode_image self) 4 = NodeKind.u16 (kind self) ∧
  inode_of (kind self) (inode_image self) = self.
Proof.
  intros []. pose proof (inode_sealed_updates_fit self typed_extents_length0) as Hfit.
  unfold inode_of. rewrite inode_image_extents by done. rewrite inode_image_layout.
  unfold get_timestamp, get_u16, get_u32, get_u64. cbn [Nat.add]. layout INODE_BYTES Hfit. cbn [snd].
  unfold Timestamp.typed in *. destruct_and!.
  rewrite !le_value_u16, !le_value_u32, !le_value_u64 by (done || by destruct (kind self)).
  split; [done|]. destruct self as [?????????? [] [] [] []]. done.
Qed.

Lemma inode_of_typed k b : length b = INODE_BYTES → bytes_ok b → typed (inode_of k b).
Proof.
  unfold INODE_BYTES. intros Hl Hok.
  assert (∀ o, (o + 12 ≤ 256)%nat → Timestamp.typed (get_timestamp b o)) as Hts.
  { intros o Ho. split; cbn; [apply get_u64_range|apply get_u32_range]; done || lia. }
  split; cbn; try (first [apply get_u64_range | apply get_u32_range | apply get_u16_range | apply Hts]; done || lia).
  - done.
  - rewrite get_extents_eq. apply Forall_fmap, list.Forall_forall. intros r Hr.
    apply read_table_elem in Hr as [? ?]; [by apply extent_of_typed| |done].
    rewrite Hl. unfold EXTENT_BYTES, INLINE_EXTENT_COUNT. lia.
Qed.

Lemma inode_canonical k b : length b = INODE_BYTES → bytes_ok b → framed b →
  get_u16 b 4 = NodeKind.u16 k → inode_image (inode_of k b) = b.
Proof.
  intros Hb Hok (Hc & H0 & H2 & H68 & H84 & H100 & H118 & H224) Hk.
  apply (record_unseal INODE_BYTES); [unfold INODE_BYTES, INODE_CHECKSUM_OFFSET; lia|done..|].
  pose proof (inode_fit (inode_of k b) (typed_extents_length _ (inode_of_typed k b Hb Hok))) as Hfit.
  assert (concat (extent_bytes <$> get_extents b) = slice 128 96 b) as Hx.
  { rewrite get_extents_eq, <- list_fmap_compose.
    assert (Forall (λ r, (extent_bytes ∘ extent_of) r = id r) (read_table 128 EXTENT_BYTES INLINE_EXTENT_COUNT b))
      as ->%Forall_fmap_ext_1; [|by rewrite list_fmap_id, concat_read_table].
    apply list.Forall_forall. intros r Hr.
    apply read_table_elem in Hr as [? ?]; [by apply extent_bytes_of| |done].
    rewrite Hb. unfold INODE_BYTES, EXTENT_BYTES, INLINE_EXTENT_COUNT. lia. }
  unfold INODE_BYTES, INODE_CHECKSUM_OFFSET in *.
  apply (chunks_inj [2;2;2;2;4;4;4;4;8;8;8;8;8;4;4;8;4;4;8;4;4;8;4;2;2;8;96;28;4]%nat).
  cbn [chunks Nat.add]. unfold inode_body, INODE_BYTES. layout 256%nat Hfit. cbn [snd inode_of kind mode uid gid
    link_count flags generation size allocated_blocks parent_inode accessed modified changed created
    directory_entry_count extent_count extents get_timestamp Timestamp.seconds Timestamp.nanoseconds Nat.add].
  rewrite Hx, <- Hk, <- H0. unfold INODE_BYTES. rewrite <- H2. unfold get_u16, get_u32, get_u64.
  rewrite !le_bytes_slice, !slice_zeros by (done || lia).
  repeat (first [rewrite (slice_put_lo 256%nat) by lens | rewrite (slice_put_at 256%nat) by lens
    | rewrite (drop_put_hi 256%nat) by lens]).
  rewrite H68, H84, H100, H118, H224, drop_zeros, (drop_ge b) by lia. done.
Qed.

Lemma inode_decode_exact self v b : length b = INODE_BYTES → bytes_ok b →
  decode_with_mode b v = Ok self ↔
  typed self ∧ validate_with_mode self v = Ok () ∧
  (b = inode_image self ∨ (kind self = NodeKind.Free ∧ b = zeros INODE_BYTES)).
Proof.
  intros Hb Hok. rewrite inode_decode_Ok by done. split.
  - intros [(Hz & Hv & ->)|(_ & Hf & Hk & Hs & Hv)].
    + split_and!; [|done|right; split; [done|]].
      * repeat constructor; done.
      * rewrite <- Hb. by apply nonzero_false.
    + rewrite Hs. split_and!; [by apply inode_of_typed|by rewrite <- Hs|left]. symmetry. by apply inode_canonical.
  - intros (Ht & Hv & [->|[Hk ->]]).
    + right. pose proof (typed_extents_length _ Ht) as Hl.
      destruct (inode_image_fields self Ht) as [Hk Hs]. pose proof (inode_image_framed self Hl) as Hf.
      split_and!; try done.
    + left. unfold validate_with_mode in Hv. rewrite Hk, bool_decide_true in Hv by done.
      destruct (bool_decide (v = Strict)) eqn:Ev, (bool_decide (self = default)) eqn:Es; try done. bool_simpl. subst.
      by rewrite nonzero_zeros.
Qed.

(** What [encode] writes is [inode_image], except for a free inode. *)
Lemma inode_encode_image self v b : length (extents self) = INLINE_EXTENT_COUNT →
  encode_with_mode self v = Ok b ↔
  validate_with_mode self v = Ok () ∧
  b = (if bool_decide (kind self = NodeKind.Free) then zeros INODE_BYTES else inode_image self).
Proof.
  intros Hl. destruct (decide (kind self = NodeKind.Free)) as [Hk|Hk].
  - unfold encode_with_mode. rewrite bool_decide_true by done. encode_guard (validate_with_mode self v).
  - rewrite inode_encode_eq, bool_decide_false by done. done.
Qed.

Lemma inode_encode_bytes self v b : length (extents self) = INLINE_EXTENT_COUNT →
  encode_with_mode self v = Ok b → length b = INODE_BYTES ∧ bytes_ok b.
Proof.
  intros Hl [_ ->]%inode_encode_image; [|done]. case_bool_decide.
  - split; [apply length_zeros|apply zeros_ok].
  - split; [by apply inode_image_length|apply inode_image_ok].
Qed.

Lemma inode_decode_encode self v b : typed self → encode_with_mode self v = Ok b →
  decode_with_mode b v = Ok self.
Proof.
  intros Ht He. pose proof (typed_extents_length _ Ht) as Hl.
  pose proof (inode_encode_bytes self v b Hl He) as [Hb Hok].
  apply inode_encode_image in He as [Hv Himg]; [|done]. apply inode_decode_exact; [done..|].
  split_and!; [done..|]. revert Himg. case_bool_decide; auto.
Qed.

Lemma inode_validate_no_abort self v : validate_with_mode self v ≠ Abort.
Proof.
  assert (∀ es i a p, validate_extents self i es a p ≠ Abort) as Hx.
  { induction es as [|e es IH]; intros i a p; cbn [validate_extents]; [done|].
    unfold Extent.logical_end, Extent.physical_end. no_abort. }
  assert (∀ es p, contiguous_end es p ≠ Abort) as Hc.
  { induction es as [|e es IH]; intros p; cbn [contiguous_end]; [done|]. unfold Extent.logical_end. no_abort. }
  unfold validate_with_mode, Timestamp.validate. no_abort.
Qed.
#[export] Hint Resolve inode_validate_no_abort : no_abort.

Lemma inode_decode_no_abort b v : decode_with_mode b v ≠ Abort.
Proof. unfold decode_with_mode, NodeKind.decode. no_abort. Qed.
Lemma inode_encode_no_abort self v : encode_with_mode self v ≠ Abort.
Proof. unfold encode_with_mode. no_abort. Qed.
End InodeCodec.

(** ** What a valid inode looks like *)

Module Valid.
Import Inode.

Definition total (es : list Extent.t) : Z := foldr (λ e n, Extent.length_blocks e + n) 0 es.

(** [chain limit prev es]: non-empty extents, in ascending logical order from
    [prev] on, disjoint, ending by [limit], with physical ends that fit. *)
Fixpoint chain (limit prev : Z) (es : list Extent.t) : Prop :=
  match es with
  | [] => True
  | e :: es =>
      0 < Extent.length_blocks e ∧ Extent.flags e = 0 ∧
      prev ≤ Extent.logical_first_block e ∧
      Extent.logical_first_block e + Extent.length_blocks e ≤ limit ∧
      Extent.physical_first_block e + Extent.length_blocks e ≤ u64_max ∧
      chain limit (Extent.logical_first_block e + Extent.length_blocks e) es
  end.

Definition size_blocks (size : Z) : Z := (size + 4095) / 4096.

Record extents_valid (self : t) : Prop := {
  ev_count : extent_count self ≤ Z.of_nat INLINE_EXTENT_COUNT;
  ev_chain : chain (size_blocks (size self)) 0 (used_extents self);
  ev_size : used_extents self ≠ [] → size self + 4095 ≤ u64_max;
  ev_total : total (used_extents self) = allocated_blocks self;
  ev_rest : Forall (eq Extent.default) (drop (Z.to_nat (extent_count self)) (extents self));
}.

Lemma total_nonneg es : Forall Extent.typed es → 0 ≤ total es.
Proof.
  induction 1 as [|e es (_ & _ & H & _) _ IH]; cbn; [done|]. unfold is_u32 in H. unfold total in *. lia.
Qed.

Lemma total_u64 es : Forall Extent.typed es → (length es ≤ INLINE_EXTENT_COUNT)%nat →
  total es ≤ Z.of_nat (length es) * u32_max.
Proof.
  induction 1 as [|e es (_ & _ & H & _) _ IH]; intros Hl; cbn [total foldr length] in *; [done|].
  unfold is_u32 in H. unfold INLINE_EXTENT_COUNT in *. unfold total in *. lia.
Qed.

(** The validation loop, from any index. *)
Lemma validate_extents_Ok self es i a p r :
  is_u64 (size self) → Forall Extent.typed es → 0 ≤ i → 0 ≤ p → (i = 0 → p = 0) →
  0 ≤ a → a + Z.of_nat (length es) * u32_max ≤ u64_max →
  let used := take (Z.to_nat (extent_count self - i)) es in
  validate_extents self i es a p = Ok r ↔
  chain (size_blocks (size self)) p used ∧ (used ≠ [] → size self + 4095 ≤ u64_max) ∧
  r = a + total used ∧
  Forall (eq Extent.default) (drop (Z.to_nat (extent_count self - i)) es).
Proof.
  intros Hsz Ht. revert i a p. induction Ht as [|e es (H1 & H2 & H3 & H4) Ht IH];
    intros i a p Hi Hp Hip Ha Hmax; cbn [validate_extents].
  { cbn. rewrite take_nil, drop_nil. cbn. split; [intros <-%(inj Ok)|intros (_ & _ & -> & _)]; [|f_equal; lia].
    split_and!; [done|done|lia|constructor]. }
  cbn [length] in Hmax. unfold is_u64, is_u32, u64_max, u32_max in *.
  destruct (i <? extent_count self) eqn:Ei; bool_simpl.
  - replace (Z.to_nat (extent_count self - i)) with (S (Z.to_nat (extent_count self - (i + 1)))) by lia.
    cbn [take drop chain total foldr].
    specialize (IH (i + 1) (a + Extent.length_blocks e) (Extent.logical_first_block e + Extent.length_blocks e)).
    cbv zeta in IH. split.
    + intros H. unfold Extent.logical_end, Extent.physical_end in H. oks. bool_simpl.
      repeat match goal with H : checked_add _ _ _ = Some _ |- _ => apply checked_add_Some in H as [-> ?] end.
      apply IH in H as (? & ? & -> & ?); [|lia..]. unfold size_blocks in *. unfold total.
      assert (p ≤ Extent.logical_first_block e).
      { match goal with H : _ && _ = false |- _ => apply andb_false_iff in H as [?|?] end; bool_simpl;
          [rewrite Hip by done|]; lia. }
      split_and!; try done; lia.
    + intros ((? & ? & ? & ? & Hphys & ?) & Hs & -> & ?). specialize (Hs ltac:(done)). unfold u64_max in Hphys.
      unfold Extent.logical_end, Extent.physical_end. unfold size_blocks in *.
      assert (∀ x y, x + y ≤ u64_max → checked_add u64_max x y = Some (x + y)) as Hadd.
      { intros x y Hxy. by apply checked_add_Some. }
      pose proof (total_nonneg _ (Forall_take _ (Z.to_nat (extent_count self - (i + 1))) _ Ht)) as Htot.
      unfold total in Htot.
      assert ((size self + 4095) / 4096 ≤ 18446744073709551615) by (apply Z.div_le_upper_bound; lia).
      rewrite !Hadd by (unfold u64_max; lia). cbn [ok_or]. rewrite err_if_false, !bind_Ok, err_if_false, bind_Ok.
      * apply IH; try lia. split_and!; try done. unfold total. lia.
      * apply Z.ltb_ge. lia.
      * repeat (apply orb_false_iff; split); [apply Z.eqb_neq; lia|by apply negb_false_iff, Z.eqb_eq|].
        apply andb_false_iff. right. apply Z.ltb_ge. lia.
  - replace (Z.to_nat (extent_count self - i)) with 0%nat by lia. cbn [take drop].
    specialize (IH (i + 1) a p). cbv zeta in IH.
    replace (Z.to_nat (extent_count self - (i + 1))) with 0%nat in IH by lia. cbn [take drop] in IH.
    split.
    + intros H. oks. bool_simpl. apply IH in H as (? & ? & ? & ?); [|lia..]. split_and!; try done. by constructor.
    + intros (? & ? & ? & [<- ?]%Forall_cons_1). rewrite err_if_false, bind_Ok by (by apply negb_false_iff, bool_decide_eq_true).
      apply IH; lia || done.
Qed.

Lemma extents_valid_Ok self : typed self → extent_count self ≤ Z.of_nat INLINE_EXTENT_COUNT →
  validate_extents self 0 (extents self) 0 0 = Ok (allocated_blocks self) ↔ extents_valid self.
Proof.
  intros [] Hc. rewrite validate_extents_Ok by (try done; rewrite ?typed_extents_length0; vm_compute; congruence).
  rewrite Z.sub_0_r. fold (used_extents self). split.
  - intros (? & ? & ? & ?). split; done || lia.
  - intros []. split_and!; done || lia.
Qed.

(** A directory's extents cover its blocks without a hole. *)
Fixpoint gapless (next : Z) (es : list Extent.t) (stop : Z) : Prop :=
  match es with
  | [] => next = stop
  | e :: es => Extent.logical_first_block e = next ∧
      gapless (Extent.logical_first_block e + Extent.length_blocks e) es stop
  end.

Lemma contiguous_end_Ok limit prev es next stop : limit ≤ u64_max → chain limit prev es →
  contiguous_end es next = Ok stop ↔ gapless next es stop.
Proof.
  intros Hlim. revert prev next. induction es as [|e es IH]; intros prev next; cbn [chain contiguous_end gapless].
  { intros _. split; [by intros <-%(inj Ok)|by intros ->]. }
  intros (_ & _ & _ & He & _ & Hch). unfold Extent.logical_end.
  assert (checked_add u64_max (Extent.logical_first_block e) (Extent.length_blocks e)
    = Some (Extent.logical_first_block e + Extent.length_blocks e)) as ->.
  { apply checked_add_Some. split; [done|lia]. }
  cbn [ok_or]. destruct (negb _) eqn:E; bool_simpl; cbn [err_if]; [|rewrite !bind_Ok, (IH _ _ Hch); naive_solver].
  split; [done|]. intros [? _]. congruence.
Qed.

(** The checks of an inode in use. *)
Record valid (self : t) (v : InodeValidationMode) : Prop := {
  v_mode : Z.land (mode self) (Z.lxor 0x0fff u16_max) = 0;
  v_links : links_valid self v = true;
  v_generation : generation self ≠ 0;
  v_flags : flags self = 0;
  v_accessed : Timestamp.nanoseconds (accessed self) < 1000000000;
  v_modified : Timestamp.nanoseconds (modified self) < 1000000000;
  v_changed : Timestamp.nanoseconds (changed self) < 1000000000;
  v_created : Timestamp.nanoseconds (created self) < 1000000000;
  v_entries : kind self ≠ NodeKind.Directory → directory_entry_count self = 0;
  v_directory : kind self = NodeKind.Directory →
    size self mod 4096 = 0 ∧ parent_inode self ≠ 0 ∧ gapless 0 (used_extents self) (size self / 4096);
  v_symlink : kind self = NodeKind.Symlink → size self = 0 ∧ extent_count self = 0;
  v_extents : extents_valid self;
}.

Lemma size_blocks_le size : is_u64 size → size_blocks size ≤ u64_max.
Proof. intros [? ?]. unfold size_blocks. apply Z.div_le_upper_bound; unfold u64_max in *; lia. Qed.

Lemma validate_Ok self v : typed self → kind self ≠ NodeKind.Free →
  validate_with_mode self v = Ok () ↔ valid self v.
Proof.
  intros Ht Hk. unfold validate_with_mode, Timestamp.validate. rewrite bool_decide_false by done.
  rewrite !bind_unit_Ok, bind_Ok_iff, !err_if_Ok_iff. split.
  - intros (H1 & H2 & H3 & H4 & H5 & H6 & H7 & H8 & H9 & a & Hx & H). bool_simpl.
    apply bind_unit_Ok in H as [Ha%err_if_Ok_iff H]. bool_simpl. subst a.
    apply extents_valid_Ok in Hx; [|done..]. split; try done.
    + intros Hd. rewrite bool_decide_false in H7 by done. cbn in H7. by bool_simpl.
    + intros Hd. rewrite bool_decide_true in H8, H by done. cbn in H8. bool_simpl.
      apply bind_Ok_iff in H as (n & Hn & Hs%err_if_Ok_iff). bool_simpl. subst n.
      by eapply (contiguous_end_Ok _ _ _ _ _ (size_blocks_le _ (typed_size _ Ht)) (ev_chain _ Hx)) in Hn.
    + intros Hd. rewrite bool_decide_true in H9 by done. cbn in H9. by bool_simpl.
  - intros []. pose proof (ev_count _ v_extents0).
    split_and!; try (apply Z.leb_gt; lia); try (apply Z.ltb_ge; lia).
    + repeat (apply orb_false_iff; split); [by apply negb_false_iff, Z.eqb_eq|by apply negb_false_iff
        |by apply Z.eqb_neq|by apply negb_false_iff, Z.eqb_eq].
    + case_bool_decide; [done|]. cbn. by apply negb_false_iff, Z.eqb_eq, v_entries0.
    + case_bool_decide as Hd; [|done]. destruct (v_directory0 Hd) as (-> & ? & _). cbn. by apply Z.eqb_neq.
    + case_bool_decide as Hd; [|done]. by destruct (v_symlink0 Hd) as (-> & ->).
    + exists (allocated_blocks self). split; [by apply extents_valid_Ok|].
      apply bind_unit_Ok. rewrite Z.eqb_refl. split; [done|]. case_bool_decide as Hd; [|done].
      destruct (v_directory0 Hd) as (_ & _ & Hg).
      apply bind_Ok_iff. eexists. split; [|by rewrite Z.eqb_refl].
      by apply (contiguous_end_Ok _ _ _ _ _ (size_blocks_le _ (typed_size _ Ht)) (ev_chain _ v_extents0)).
Qed.
End Valid.
