(* ===== verification/NullfsDirectory.v ===== *)
(** * NullFS directory blocks

    Models nullfs-format/src/directory.rs: fixed-size directory entries, the
    block of 31 entries that a directory's data blocks hold, its cookies and its
    encoding. *)

From stdpp Require Import base list numbers option.
From Stdlib Require Import ZArith Lia.
From S2P Require Import Prelude NullfsBytes NullfsPhase3 NullfsSuperblock NullfsRecord NullfsInode.

Open Scope Z_scope.

(** "NFSDIR", NUL-padded. *)
Definition DIRECTORY_BLOCK_MAGIC : list Z := [0x4e; 0x46; 0x53; 0x44; 0x49; 0x52; 0; 0].
Definition DIRECTORY_HEADER_BYTES : nat := 128.
Definition DIRECTORY_ENTRY_BYTES : nat := 128.
Definition DIRECTORY_ENTRIES_PER_BLOCK : nat := 31.
Definition DIRECTORY_NAME_CAPACITY : nat := 96.
Definition DIRECTORY_CHECKSUM_OFFSET : nat := 124.

(** [bytes.contains(&b)] *)
Definition contains (b : Z) (bytes : list Z) : bool := any (λ x, x =? b) bytes.
Definition SLASH : Z := 0x2f.
Definition DOT : list Z := [0x2e].
Definition DOTDOT : list Z := [0x2e; 0x2e].

Module DirectoryEntry.
Record t := mk {
  inode : Z;
  generation : Z;
  kind : NodeKind.t;
  name : list Z;
  name_length : Z;
}.
#[global] Instance t_eq_dec : EqDecision t.
Proof. solve_decision. Defined.

Definition default : t := mk 0 0 NodeKind.Free (zeros DIRECTORY_NAME_CAPACITY) 0.

(** What [new] and [validate] refuse in a name. *)
Definition reserved_name (bytes : list Z) : bool :=
  contains 0 bytes || contains SLASH bytes || bool_decide (bytes = DOT) || bool_decide (bytes = DOTDOT).

Definition new (inode generation : Z) (kind : NodeKind.t) (name : list Z) : outcome FormatError.t t :=
  _ ← err_if ((length name =? 0) || (DIRECTORY_NAME_CAPACITY <? length name))%nat
        FormatError.InvalidDirectoryName;
  _ ← err_if (reserved_name name) FormatError.InvalidDirectoryName;
  _ ← err_if ((inode =? 0) || (generation =? 0) || bool_decide (kind = NodeKind.Free))
        FormatError.InvalidDirectoryEntry;
  let stored := put_bytes (zeros DIRECTORY_NAME_CAPACITY) 0 name in
  mret (mk inode generation kind stored (wrap 8 (Z.of_nat (length name)))).

(** [&self.name[..usize::from(self.name_length)]] *)
Definition name_bytes (self : t) : list Z := take (Z.to_nat (name_length self)) (name self).

(** [self.name()]: the slice and the conversion panic on an entry that was not validated. *)
Definition name_str (self : t) : outcome FormatError.t (list Z) :=
  if (Z.of_nat DIRECTORY_NAME_CAPACITY <? name_length self) || negb (from_utf8 (name_bytes self))
  then Abort else Ok (name_bytes self).

Definition is_unused (self : t) : bool := inode self =? 0.

Definition validate (self : t) : outcome FormatError.t unit :=
  if is_unused self then
    if bool_decide (self = default) then Ok () else Err FormatError.InvalidDirectoryEntry
  else
  _ ← err_if ((generation self =? 0) || bool_decide (kind self = NodeKind.Free))
        FormatError.InvalidDirectoryEntry;
  let length := Z.to_nat (name_length self) in
  _ ← err_if ((length =? 0)%nat || (DIRECTORY_NAME_CAPACITY <? length)%nat
              || nonzero (drop length (name self))) FormatError.InvalidDirectoryName;
  _ ← err_if (negb (from_utf8 (take length (name self)))) FormatError.InvalidDirectoryName;
  err_if (reserved_name (take length (name self))) FormatError.InvalidDirectoryName.

(** [out] is the slot, 128 bytes. *)
Definition encode_into (self : t) (out : list Z) : outcome FormatError.t (list Z) :=
  _ ← validate self;
  if is_unused self then mret out else
  let out := put_u64 out 0 (inode self) in
  let out := put_u64 out 8 (generation self) in
  let out := put_bytes out 16 [NodeKind.u16 (kind self)] in
  let out := put_bytes out 17 [name_length self] in
  mret (put_bytes out 24 (name self)).

Definition decode_kind (value : Z) : outcome FormatError.t NodeKind.t :=
  match value with
  | 1 => Ok NodeKind.Regular
  | 2 => Ok NodeKind.Directory
  | 3 => Ok NodeKind.Symlink
  | _ => Err (FormatError.InvalidNodeKind value)
  end.

Definition decode_from (b : list Z) : outcome FormatError.t t :=
  if negb (nonzero b) then mret default else
  _ ← err_if (nonzero (slice 18 6 b) || nonzero (slice 120 8 b)) FormatError.NonZeroPhase2ReservedBytes;
  kind ← decode_kind (get_u8 b 16);
  let entry := mk (get_u64 b 0) (get_u64 b 8) kind (slice 24 96 b) (get_u8 b 17) in
  _ ← validate entry;
  mret entry.

(** Fields within their machine types. *)
Record typed (self : t) : Prop := {
  typed_inode : is_u64 (inode self);
  typed_generation : is_u64 (generation self);
  typed_name : length (name self) = DIRECTORY_NAME_CAPACITY;
  typed_name_ok : bytes_ok (name self);
  typed_name_length : is_byte (name_length self);
}.
End DirectoryEntry.

Module DirectoryBlock.
Record t := mk {
  owner_inode : Z;
  logical_block_index : Z;
  entries : list DirectoryEntry.t;
}.
#[global] Instance t_eq_dec : EqDecision t.
Proof. solve_decision. Defined.

Definition new (owner_inode logical_block_index : Z) : outcome FormatError.t t :=
  _ ← err_if (owner_inode =? 0) FormatError.InvalidDirectoryBlock;
  mret (mk owner_inode logical_block_index (replicate DIRECTORY_ENTRIES_PER_BLOCK DirectoryEntry.default)).

Definition used (entry : DirectoryEntry.t) : bool := negb (DirectoryEntry.is_unused entry).

Definition occupied_count (self : t) : Z := wrap 16 (Z.of_nat (length (List.filter used (entries self)))).

Definition cookie (self : t) (slot : nat) : outcome FormatError.t Z :=
  _ ← err_if (DIRECTORY_ENTRIES_PER_BLOCK <=? slot)%nat FormatError.InvalidDirectoryEntry;
  ok_or (v ← checked_mul u64_max (logical_block_index self) (Z.of_nat DIRECTORY_ENTRIES_PER_BLOCK);
         checked_add u64_max v (Z.of_nat slot + 1)) FormatError.ArithmeticOverflow.

(** The three loops of [validate]: every entry; for every used entry, the used
    entries after it. *)
Fixpoint validate_entries (entries : list DirectoryEntry.t) : outcome FormatError.t unit :=
  match entries with
  | [] => mret ()
  | entry :: entries => _ ← DirectoryEntry.validate entry; validate_entries entries
  end.

Fixpoint distinct_from (lhs : DirectoryEntry.t) (entries : list DirectoryEntry.t) : outcome FormatError.t unit :=
  match entries with
  | [] => mret ()
  | rhs :: entries =>
      if DirectoryEntry.is_unused rhs then distinct_from lhs entries else
      l ← DirectoryEntry.name_str lhs;
      r ← DirectoryEntry.name_str rhs;
      _ ← err_if (bool_decide (l = r)) FormatError.DuplicateDirectoryName;
      distinct_from lhs entries
  end.

Fixpoint distinct_names (entries : list DirectoryEntry.t) : outcome FormatError.t unit :=
  match entries with
  | [] => mret ()
  | lhs :: entries =>
      _ ← (if DirectoryEntry.is_unused lhs then mret () else distinct_from lhs entries);
      distinct_names entries
  end.

Definition validate (self : t) : outcome FormatError.t unit :=
  _ ← err_if (owner_inode self =? 0) FormatError.InvalidDirectoryBlock;
  _ ← validate_entries (entries self);
  distinct_names (entries self).

Definition directory_checksum (bytes : list Z) : Z := record_checksum BLOCK_SIZE DIRECTORY_CHECKSUM_OFFSET bytes.

Fixpoint encode_entries (out : list Z) (index : nat) (entries : list DirectoryEntry.t)
    : outcome FormatError.t (list Z) :=
  match entries with
  | [] => mret out
  | entry :: entries =>
      let o := (DIRECTORY_HEADER_BYTES + index * DIRECTORY_ENTRY_BYTES)%nat in
      slot ← DirectoryEntry.encode_into entry (slice o DIRECTORY_ENTRY_BYTES out);
      encode_entries (put_bytes out o slot) (S index) entries
  end.

Definition encode (self : t) : outcome FormatError.t (list Z) :=
  _ ← validate self;
  let out := zeros BLOCK_SIZE in
  let out := put_bytes out 0 DIRECTORY_BLOCK_MAGIC in
  let out := put_u16 out 8 1 in
  let out := put_u16 out 10 (Z.of_nat DIRECTORY_HEADER_BYTES) in
  let out := put_u16 out 12 (Z.of_nat DIRECTORY_ENTRY_BYTES) in
  let out := put_u16 out 14 (Z.of_nat DIRECTORY_ENTRIES_PER_BLOCK) in
  let out := put_u64 out 16 (owner_inode self) in
  let out := put_u64 out 24 (logical_block_index self) in
  let out := put_u32 out 32 (occupied_count self) in
  out ← encode_entries out 0 (entries self);
  let checksum := directory_checksum out in
  mret (put_u32 out DIRECTORY_CHECKSUM_OFFSET checksum).

(** [for index in 0..DIRECTORY_ENTRIES_PER_BLOCK]: [n] slots are still to be read. *)
Fixpoint decode_entries (b : list Z) (n index : nat) : outcome FormatError.t (list DirectoryEntry.t) :=
  match n with
  | O => mret []
  | S n =>
      let o := (DIRECTORY_HEADER_BYTES + index * DIRECTORY_ENTRY_BYTES)%nat in
      entry ← DirectoryEntry.decode_from (slice o DIRECTORY_ENTRY_BYTES b);
      entries ← decode_entries b n (S index);
      mret (entry :: entries)
  end.

Definition decode (bytes : list Z) : outcome FormatError.t t :=
  _ ← err_if (length bytes <? BLOCK_SIZE)%nat
        (FormatError.TruncatedPhase2Record (Z.of_nat BLOCK_SIZE) (Z.of_nat (length bytes)));
  let b := take BLOCK_SIZE bytes in
  _ ← err_if (negb (bool_decide (slice 0 8 b = DIRECTORY_BLOCK_MAGIC))) FormatError.InvalidDirectoryBlock;
  let stored := get_u32 b DIRECTORY_CHECKSUM_OFFSET in
  let actual := directory_checksum b in
  _ ← err_if (negb (stored =? actual)) (FormatError.Phase2ChecksumMismatch stored actual);
  _ ← err_if (negb (get_u16 b 8 =? 1)
              || negb (get_u16 b 10 =? Z.of_nat DIRECTORY_HEADER_BYTES)
              || negb (get_u16 b 12 =? Z.of_nat DIRECTORY_ENTRY_BYTES)
              || negb (get_u16 b 14 =? Z.of_nat DIRECTORY_ENTRIES_PER_BLOCK)
              || negb (get_u32 b 36 =? 0)
              || nonzero (slice 40 84 b)) FormatError.InvalidDirectoryBlock;
  block ← new (get_u64 b 16) (get_u64 b 24);
  entries ← decode_entries b DIRECTORY_ENTRIES_PER_BLOCK 0;
  let block := mk (owner_inode block) (logical_block_index block) entries in
  _ ← err_if (negb (get_u32 b 32 =? occupied_count block)) FormatError.InvalidDirectoryBlock;
  _ ← validate block;
  mret block.

Record typed (self : t) : Prop := {
  typed_owner : is_u64 (owner_inode self);
  typed_index : is_u64 (logical_block_index self);
  typed_length : length (entries self) = DIRECTORY_ENTRIES_PER_BLOCK;
  typed_entries : Forall DirectoryEntry.typed (entries self);
}.
End DirectoryBlock.

(** ** The entry codec *)

Module EntryCodec.
Import DirectoryEntry.

Definition updates (self : t) : list update :=
  [(24, 96, name self);
   (17, 1, le_bytes 1 (name_length self));
   (16, 1, le_bytes 1 (NodeKind.u16 (kind self)));
   (8, 8, le_bytes 8 (generation self));
   (0, 8, le_bytes 8 (inode self))]%nat.

(** The bytes of a slot. *)
Definition entry_image (self : t) : list Z :=
  if is_unused self then zeros DIRECTORY_ENTRY_BYTES
  else apply_updates (updates self) (zeros DIRECTORY_ENTRY_BYTES).

Lemma entry_fit self : length (name self) = DIRECTORY_NAME_CAPACITY →
  Forall (fits DIRECTORY_ENTRY_BYTES) (updates self).
Proof. unfold DIRECTORY_NAME_CAPACITY, DIRECTORY_ENTRY_BYTES. intros Hn. unfold updates. fits_solve. Qed.

Lemma entry_image_length self : length (name self) = DIRECTORY_NAME_CAPACITY →
  length (entry_image self) = DIRECTORY_ENTRY_BYTES.
Proof.
  intros Hn. unfold entry_image. destruct (is_unused self); [apply length_zeros|].
  apply length_apply_updates; [apply length_zeros|by apply entry_fit].
Qed.

Lemma kind_byte k : is_byte (NodeKind.u16 k).
Proof. by destruct k. Qed.

Lemma entry_image_ok self : bytes_ok (name self) → bytes_ok (entry_image self).
Proof.
  intros Hn. unfold entry_image. destruct (is_unused self); [apply zeros_ok|].
  apply apply_updates_ok; [apply zeros_ok|]. unfold updates. bytes_solve.
Qed.

Lemma entry_encode_eq self r : is_byte (name_length self) →
  encode_into self (zeros DIRECTORY_ENTRY_BYTES) = Ok r ↔ validate self = Ok () ∧ r = entry_image self.
Proof.
  intros Hl. unfold encode_into, entry_image, updates. rewrite !le_bytes_1 by (done || apply kind_byte).
  destruct (is_unused self); encode_guard (validate self).
Qed.

Lemma decode_kind_Ok v k : decode_kind v = Ok k ↔ v = NodeKind.u16 k ∧ k ≠ NodeKind.Free.
Proof.
  unfold decode_kind. split.
  - destruct v as [|[[|[]|]|[|[]|]|]|]; try done; by intros <-%(inj Ok).
  - intros [-> H]. by destruct k.
Qed.

(** The checks of an entry in use. *)
Lemma validate_used self : is_unused self = false →
  validate self = Ok () ↔
  generation self ≠ 0 ∧ kind self ≠ NodeKind.Free ∧
  1 ≤ name_length self ≤ Z.of_nat DIRECTORY_NAME_CAPACITY ∧
  nonzero (drop (Z.to_nat (name_length self)) (name self)) = false ∧
  from_utf8 (name_bytes self) = true ∧ reserved_name (name_bytes self) = false.
Proof.
  intros Hu. unfold validate, name_bytes, DIRECTORY_NAME_CAPACITY. rewrite Hu, !bind_unit_Ok, !err_if_Ok_iff.
  rewrite !orb_false_iff, negb_false_iff, Z.eqb_neq, bool_decide_eq_false, Nat.eqb_neq, Nat.ltb_ge.
  split; intros; destruct_and!; split_and!; done || lia.
Qed.

Lemma validate_unused self : is_unused self = true → validate self = Ok () ↔ self = default.
Proof. intros Hu. unfold validate. rewrite Hu. by case_bool_decide. Qed.

Lemma entry_canonical self b : length b = DIRECTORY_ENTRY_BYTES → bytes_ok b → decode_from b = Ok self →
  typed self ∧ validate self = Ok () ∧ b = entry_image self.
Proof.
  unfold DIRECTORY_ENTRY_BYTES. intros Hb Hok. unfold decode_from.
  destruct (nonzero b) eqn:Hz; cbn [negb].
  + intros H. oks. bool_simpl. destruct a1. apply decode_kind_Ok in E0 as [Hk Hf].
    repeat match goal with H : nonzero (slice _ _ _) = false |- _ => apply nonzero_false in H end.
    rewrite !length_slice in * by lia.
    set (e := mk _ _ _ _ _) in *.
    assert (typed e) as Ht.
    { split; cbn; [apply get_u64_range; done || lia..| | |].
      - apply (length_slice 24 96). lia.
      - by apply slice_ok.
      - apply get_u8_range; done || lia. }
    split_and!; [done..|]. unfold entry_image. destruct (is_unused e) eqn:Hu.
    { apply validate_unused in E1; [|done]. injection E1. done. }
    pose proof (entry_fit e (typed_name e Ht)) as Hfit.
    apply (chunks_inj [8;8;1;1;6;96;8]%nat). cbn [chunks Nat.add]. layout DIRECTORY_ENTRY_BYTES Hfit.
    cbn [snd e inode generation kind name name_length]. unfold DIRECTORY_ENTRY_BYTES in *.
    rewrite !slice_zeros, drop_zeros, (drop_ge b) by lia.
    rewrite <- Hk. unfold get_u64, get_u8. rewrite !le_bytes_slice by (exact Hok || lia). by repeat f_equal.
  + intros <-%(inj Ok). apply nonzero_false in Hz. split_and!; [|done|by rewrite Hz, Hb].
    split; cbn; try done. apply zeros_ok.
Qed.

Lemma entry_decode_image self : typed self → validate self = Ok () → decode_from (entry_image self) = Ok self.
Proof.
  intros Ht Hv. unfold decode_from, entry_image. destruct (is_unused self) eqn:Hu.
  { apply validate_unused in Hv as ->; [|done]. by rewrite nonzero_zeros. }
  pose proof (entry_fit self (typed_name self Ht)) as Hfit.
  set (b := apply_updates _ _) in *.
  assert (get_u64 b 0 = inode self) as H0.
  { unfold get_u64, b. layout DIRECTORY_ENTRY_BYTES Hfit. apply le_value_u64, Ht. }
  destruct (nonzero b) eqn:Hz; cbn [negb].
  2: { apply nonzero_false in Hz. rewrite Hz in H0. unfold b in H0.
       rewrite (length_apply_updates _ _ (length_zeros _) _ Hfit) in H0.
       unfold get_u64, DIRECTORY_ENTRY_BYTES in H0. rewrite slice_zeros in H0 by lia. unfold is_unused in Hu. bool_simpl. by destruct Hu. }
  assert (slice 18 6 b = zeros 6 ∧ slice 120 8 b = zeros 8 ∧ get_u8 b 16 = NodeKind.u16 (kind self) ∧
    get_u8 b 17 = name_length self ∧ get_u64 b 8 = generation self ∧ slice 24 96 b = name self)
    as (-> & -> & H16 & H17 & H8 & H24).
  { unfold get_u64, get_u8, b. layout DIRECTORY_ENTRY_BYTES Hfit. cbn [snd]. destruct Ht.
    unfold DIRECTORY_ENTRY_BYTES. rewrite !slice_zeros, !le_value_u8, le_value_u64 by (done || lia || apply kind_byte).
    done. }
  rewrite !nonzero_zeros. cbn [orb err_if]. rewrite bind_Ok, H0, H16, H17, H8, H24.
  destruct (proj1 (validate_used self Hu) Hv) as (_ & Hf & _).
  rewrite (proj2 (decode_kind_Ok _ (kind self))), bind_Ok by done. cbv zeta.
  replace (mk _ _ _ _ _) with self by (by destruct self). by rewrite Hv.
Qed.

Lemma entry_decode_exact self b : length b = DIRECTORY_ENTRY_BYTES → bytes_ok b →
  decode_from b = Ok self ↔ typed self ∧ validate self = Ok () ∧ b = entry_image self.
Proof.
  intros Hb Hok. split; [by apply entry_canonical|].
  intros (Ht & Hv & ->). by apply entry_decode_image.
Qed.
End EntryCodec.

(** ** The block codec *)

Module DirectoryCodec.
Import DirectoryBlock.
Notation TABLE := (DIRECTORY_ENTRIES_PER_BLOCK * DIRECTORY_ENTRY_BYTES)%nat.

Definition header (self : t) : list update :=
  [(32, 4, le_bytes 4 (occupied_count self));
   (24, 8, le_bytes 8 (logical_block_index self));
   (16, 8, le_bytes 8 (owner_inode self));
   (14, 2, le_bytes 2 (Z.of_nat DIRECTORY_ENTRIES_PER_BLOCK));
   (12, 2, le_bytes 2 (Z.of_nat DIRECTORY_ENTRY_BYTES));
   (10, 2, le_bytes 2 (Z.of_nat DIRECTORY_HEADER_BYTES));
   (8, 2, le_bytes 2 1);
   (0, 8, DIRECTORY_BLOCK_MAGIC)]%nat.
Definition table (self : t) : list Z := concat (EntryCodec.entry_image <$> entries self).
Definition updates (self : t) : list update := (128, TABLE, table self)%nat :: header self.

Definition directory_body (self : t) : list Z := apply_updates (updates self) (zeros BLOCK_SIZE).
Definition directory_image (self : t) : list Z :=
  put_u32 (directory_body self) DIRECTORY_CHECKSUM_OFFSET (directory_checksum (directory_body self)).

(** The header and the entries fill the block. *)
Lemma directory_full : (128 + TABLE = BLOCK_SIZE)%nat.
Proof. pose proof BLOCK_SIZE_Z. unfold DIRECTORY_ENTRIES_PER_BLOCK, DIRECTORY_ENTRY_BYTES. lia. Qed.

Lemma entry_slots es : Forall DirectoryEntry.typed es →
  Forall (λ r, length r = DIRECTORY_ENTRY_BYTES) (EntryCodec.entry_image <$> es).
Proof.
  intros Ht. apply Forall_fmap. eapply Forall_impl; [|exact Ht].
  intros e He. apply EntryCodec.entry_image_length, He.
Qed.

Section image.
Context (self : t) (Ht : typed self).

Lemma header_fit : Forall (fits BLOCK_SIZE) (header self).
Proof using. clear Ht. unfold header. fits_solve. Qed.

Lemma table_length : length (table self) = TABLE.
Proof using Ht.
  unfold table. rewrite (length_slots DIRECTORY_ENTRY_BYTES) by apply entry_slots, Ht.
  rewrite length_fmap. f_equal. apply Ht.
Qed.

Lemma directory_fit : Forall (fits BLOCK_SIZE) (updates self).
Proof using Ht.
  apply Forall_cons_2; [|apply header_fit]. split; cbn [fst snd]; [apply table_length|].
  pose proof directory_full. lia.
Qed.

Lemma directory_body_length : length (directory_body self) = BLOCK_SIZE.
Proof using Ht. apply length_apply_updates; [apply length_zeros|apply directory_fit]. Qed.

Lemma table_ok : bytes_ok (table self).
Proof using Ht.
  apply concat_bytes_ok, Forall_fmap. eapply Forall_impl; [|apply Ht].
  intros e He. apply EntryCodec.entry_image_ok, He.
Qed.

Lemma directory_body_ok : bytes_ok (directory_body self).
Proof using Ht.
  apply apply_updates_ok; [apply zeros_ok|]. apply Forall_cons_2; [apply table_ok|]. unfold header. bytes_solve.
Qed.

Lemma checksum_room : (DIRECTORY_CHECKSUM_OFFSET + 4 ≤ BLOCK_SIZE)%nat.
Proof using. clear Ht. pose proof directory_full. unfold DIRECTORY_CHECKSUM_OFFSET. lia. Qed.

Lemma directory_image_block : is_block (directory_image self).
Proof using Ht.
  unfold is_block, directory_image, put_u32. pose proof checksum_room.
  rewrite length_put_bytes; rewrite ?length_le_bytes; by rewrite directory_body_length.
Qed.

Lemma directory_image_ok : bytes_ok (directory_image self).
Proof using Ht. apply put_bytes_ok; [apply directory_body_ok|apply le_bytes_ok]. Qed.

(** The loop over the entries writes the table. *)
Lemma encode_entries_Ok es out i r : Forall DirectoryEntry.typed es → length out = BLOCK_SIZE →
  (i + length es = DIRECTORY_ENTRIES_PER_BLOCK)%nat →
  (∀ j, (i ≤ j < DIRECTORY_ENTRIES_PER_BLOCK)%nat →
    slice (DIRECTORY_HEADER_BYTES + j * DIRECTORY_ENTRY_BYTES) DIRECTORY_ENTRY_BYTES out
    = zeros DIRECTORY_ENTRY_BYTES) →
  encode_entries out i es = Ok r ↔ validate_entries es = Ok () ∧
    r = put_table out (DIRECTORY_HEADER_BYTES + i * DIRECTORY_ENTRY_BYTES) DIRECTORY_ENTRY_BYTES
          (EntryCodec.entry_image <$> es).
Proof using.
  clear self Ht. intros Hes. revert out i. induction Hes as [|e es He Hes IH]; intros out i Ho Hi Hz;
    cbn [encode_entries validate_entries fmap list_fmap put_table].
  { split; [by intros <-%(inj Ok)|by intros [_ ->]]. }
  cbn [length] in Hi. rewrite Hz by lia. rewrite bind_Ok_iff, bind_unit_Ok.
  assert (length (EntryCodec.entry_image e) = DIRECTORY_ENTRY_BYTES) as Hl
    by apply EntryCodec.entry_image_length, He.
  assert (DIRECTORY_HEADER_BYTES + i * DIRECTORY_ENTRY_BYTES + DIRECTORY_ENTRY_BYTES ≤ BLOCK_SIZE)%nat as Hfit.
  { pose proof directory_full. unfold DIRECTORY_HEADER_BYTES, DIRECTORY_ENTRY_BYTES, DIRECTORY_ENTRIES_PER_BLOCK in *. lia. }
  specialize (IH (put_bytes out (DIRECTORY_HEADER_BYTES + i * DIRECTORY_ENTRY_BYTES) (EntryCodec.entry_image e)) (S i)).
  replace (DIRECTORY_HEADER_BYTES + i * DIRECTORY_ENTRY_BYTES + DIRECTORY_ENTRY_BYTES)%nat
    with (DIRECTORY_HEADER_BYTES + S i * DIRECTORY_ENTRY_BYTES)%nat by (unfold DIRECTORY_ENTRY_BYTES; lia).
  assert (length out = BLOCK_SIZE) as Ho' by done. pose proof (DirectoryEntry.typed_name_length e He) as Hn.
  ospecialize* IH; [by rewrite length_put_bytes; lia|lia| |].
  { intros j Hj. rewrite (slice_put_hi BLOCK_SIZE); [apply Hz; lia|done|rewrite Hl|rewrite Hl]; [|lia].
    unfold DIRECTORY_ENTRY_BYTES. lia. }
  split.
  - intros (slot & [Hv ->]%EntryCodec.entry_encode_eq & [? ->]%IH); auto.
  - intros ([Hv ?] & ->). eexists. split; [by apply EntryCodec.entry_encode_eq|by apply IH].
Qed.

Lemma directory_encode_eq b : encode self = Ok b ↔ validate self = Ok () ∧ b = directory_image self.
Proof using Ht.
  unfold encode. rewrite bind_unit_Ok, bind_Ok_iff.
  set (out := put_u32 _ 32 _).
  assert (out = apply_updates (header self) (zeros BLOCK_SIZE)) as Hout by done.
  assert (length out = BLOCK_SIZE) as Hlo.
  { rewrite Hout. apply length_apply_updates; [apply length_zeros|apply header_fit]. }
  pose proof directory_full as Hfull.
  assert (∀ r, encode_entries out 0 (entries self) = Ok r ↔ validate_entries (entries self) = Ok () ∧ r = directory_body self) as Hx.
  { intros r. rewrite encode_entries_Ok; [|apply Ht|done|apply Ht|].
    - rewrite put_table_eq; [done|apply entry_slots, Ht|].
      rewrite length_fmap, (typed_length self Ht), Hlo. unfold DIRECTORY_HEADER_BYTES. lia.
    - intros j Hj. rewrite Hout. unfold DIRECTORY_HEADER_BYTES. rewrite slice_drop.
      rewrite (drop_missed BLOCK_SIZE _ (length_zeros _) _ 128 header_fit) by reflexivity.
      rewrite drop_zeros. apply slice_zeros. unfold DIRECTORY_ENTRIES_PER_BLOCK, DIRECTORY_ENTRY_BYTES in *. lia. }
  split.
  - intros [Hv (r & [_ ->]%Hx & <-%(inj Ok))]. done.
  - intros [Hv ->]. split; [done|]. exists (directory_body self). split; [|done]. apply Hx. split; [|done].
    unfold validate in Hv. by apply bind_unit_Ok in Hv as [_ [? _]%bind_unit_Ok].
Qed.
End image.

Lemma validate_entries_Ok es : validate_entries es = Ok () ↔ Forall (λ e, DirectoryEntry.validate e = Ok ()) es.
Proof.
  induction es as [|e es IH]; cbn [validate_entries]; [split; [constructor|done]|].
  rewrite bind_unit_Ok, IH. split; [intros []; by constructor|by intros [? ?]%Forall_cons_1].
Qed.

(** The loop over the slots reads the table. *)
Lemma decode_entries_Ok b n i es : is_block b → bytes_ok b → (i + n = DIRECTORY_ENTRIES_PER_BLOCK)%nat →
  decode_entries b n i = Ok es ↔
  Forall DirectoryEntry.typed es ∧ validate_entries es = Ok () ∧
  read_table (DIRECTORY_HEADER_BYTES + i * DIRECTORY_ENTRY_BYTES) DIRECTORY_ENTRY_BYTES n b
  = EntryCodec.entry_image <$> es.
Proof.
  intros Hb Hok. revert i es. induction n as [|n IH]; intros i es Hi; cbn [decode_entries].
  { split; [intros <-%(inj Ok); done|]. destruct es; [done|]. by intros (_ & _ & ?). }
  rewrite read_table_S, bind_Ok_iff. setoid_rewrite bind_Ok_iff.
  set (r := slice _ _ b).
  assert (length r = DIRECTORY_ENTRY_BYTES) as Hr.
  { apply length_slice. rewrite Hb, <- directory_full.
    unfold DIRECTORY_HEADER_BYTES, DIRECTORY_ENTRY_BYTES, DIRECTORY_ENTRIES_PER_BLOCK in *. lia. }
  assert (bytes_ok r) as Hrok by by apply slice_ok.
  replace (DIRECTORY_HEADER_BYTES + i * DIRECTORY_ENTRY_BYTES + DIRECTORY_ENTRY_BYTES)%nat
    with (DIRECTORY_HEADER_BYTES + S i * DIRECTORY_ENTRY_BYTES)%nat by (unfold DIRECTORY_ENTRY_BYTES; lia).
  split.
  - intros (e & He & es' & Hes & <-%(inj Ok)).
    apply EntryCodec.entry_decode_exact in He as (? & ? & Hre); [|done..]. apply IH in Hes as (? & ? & Ht); [|lia].
    cbn [validate_entries fmap list_fmap]. rewrite bind_unit_Ok, <- Hre, Ht. split_and!; [by constructor|done..].
  - destruct es as [|e es]; [by intros (_ & _ & ?)|]. cbn [validate_entries fmap list_fmap].
    rewrite bind_unit_Ok. intros ([He Hes]%Forall_cons_1 & [Hv Hvs] & [= Hre Ht]).
    exists e. split; [by apply EntryCodec.entry_decode_exact|]. exists es. split; [|done]. apply IH; [lia|done].
Qed.

Definition directory_of (b : list Z) (es : list DirectoryEntry.t) : t := mk (get_u64 b 16) (get_u64 b 24) es.

Lemma directory_decode_Ok self b : is_block b → bytes_ok b → decode b = Ok self ↔
  slice 0 8 b = DIRECTORY_BLOCK_MAGIC ∧ get_u32 b DIRECTORY_CHECKSUM_OFFSET = directory_checksum b ∧
  get_u16 b 8 = 1 ∧ get_u16 b 10 = Z.of_nat DIRECTORY_HEADER_BYTES ∧
  get_u16 b 12 = Z.of_nat DIRECTORY_ENTRY_BYTES ∧ get_u16 b 14 = Z.of_nat DIRECTORY_ENTRIES_PER_BLOCK ∧
  get_u32 b 36 = 0 ∧ slice 40 84 b = zeros 84 ∧
  get_u32 b 32 = occupied_count self ∧ self = directory_of b (entries self) ∧ validate self = Ok () ∧
  Forall DirectoryEntry.typed (entries self) ∧
  read_table 128 DIRECTORY_ENTRY_BYTES DIRECTORY_ENTRIES_PER_BLOCK b = EntryCodec.entry_image <$> entries self.
Proof.
  intros Hb Hok. unfold decode. rewrite take_ge, Hb, Nat.ltb_irrefl by (by rewrite Hb).
  cbn [err_if]. rewrite bind_Ok. cbv zeta.
  rewrite !bind_unit_Ok, !err_if_Ok_iff, !orb_false_iff, !negb_false_iff, !Z.eqb_eq, bool_decide_eq_true.
  split.
  - intros (Hm & Hc & (((((? & ?) & ?) & ?) & ?) & H40) & Hd).
    apply bind_Ok_iff in Hd as (blk & [_ <-%(inj Ok)]%bind_unit_Ok & (es & Hes & Hd)%bind_Ok_iff).
    apply bind_unit_Ok in Hd as [Hocc%err_if_Ok_iff [Hv <-%(inj Ok)]%bind_unit_Ok].
    apply decode_entries_Ok in Hes as (? & ? & ?); [|done..].
    cbn [owner_inode logical_block_index entries] in *. bool_simpl.
    apply nonzero_false in H40. rewrite length_slice in H40 by (rewrite Hb; pose proof BLOCK_SIZE_large; lia).
    by split_and!.
  - intros (Hm & Hc & ? & ? & ? & ? & ? & -> & Hocc & Hs & Hv & Ht & Htab). rewrite nonzero_zeros.
    split_and!; try done. pose proof Hv as [Ho%err_if_Ok_iff [Hve _]%bind_unit_Ok]%bind_unit_Ok.
    unfold new. rewrite Hs in Ho. cbn in Ho. rewrite Ho. cbn [err_if]. rewrite !bind_Ok, bind_mret.
    rewrite (proj2 (decode_entries_Ok b DIRECTORY_ENTRIES_PER_BLOCK 0 (entries self) Hb Hok eq_refl)) by done. rewrite bind_Ok.
    cbn [owner_inode logical_block_index]. fold (directory_of b (entries self)). rewrite <- Hs.
    rewrite Hocc, Z.eqb_refl. cbn [negb err_if]. by rewrite bind_Ok, Hv.
Qed.

Lemma occupied_u32 self : is_u32 (occupied_count self).
Proof.
  unfold occupied_count, wrap, is_u32, u32_max. pose proof (Z.mod_pos_bound (Z.of_nat (length (List.filter used (entries self)))) (2 ^ 16)). lia.
Qed.

Definition sealed_updates (self : t) : list update :=
  (124, 4, le_bytes 4 (directory_checksum (directory_body self)))%nat :: updates self.
Lemma directory_image_layout self : directory_image self = apply_updates (sealed_updates self) (zeros BLOCK_SIZE).
Proof. done. Qed.
Lemma sealed_updates_fit self : typed self → Forall (fits BLOCK_SIZE) (sealed_updates self).
Proof.
  intros Ht. apply Forall_cons_2; [|by apply directory_fit].
  pose proof BLOCK_SIZE_large. split; cbn; [apply length_le_bytes|lia].
Qed.

Lemma directory_decode_image self : typed self → validate self = Ok () → decode (directory_image self) = Ok self.
Proof.
  intros Ht Hv. apply directory_decode_Ok; [by apply directory_image_block|by apply directory_image_ok|].
  pose proof (sealed_updates_fit self Ht) as Hfit. pose proof BLOCK_SIZE_large.
  assert (read_table 128 DIRECTORY_ENTRY_BYTES DIRECTORY_ENTRIES_PER_BLOCK (directory_image self)
    = EntryCodec.entry_image <$> entries self) as Htab.
  { apply read_table_concat; [apply entry_slots, Ht|rewrite length_fmap; apply Ht| |].
    - by rewrite directory_image_block, directory_full.
    - rewrite directory_image_layout. by layout BLOCK_SIZE Hfit. }
  assert (get_u32 (directory_image self) DIRECTORY_CHECKSUM_OFFSET = directory_checksum (directory_image self)) as Hc.
  { apply record_sealed; [apply checksum_room|by apply directory_body_length|by apply directory_body_ok]. }
  pose proof (typed_owner self Ht). pose proof (typed_index self Ht). pose proof (occupied_u32 self).
  assert (∀ k, directory_of (directory_image self) k = mk (owner_inode self) (logical_block_index self) k) as Hof.
  { intros k. unfold directory_of. rewrite directory_image_layout. unfold get_u64. layout BLOCK_SIZE Hfit.
    cbn [snd]. by rewrite !le_value_u64. }
  rewrite Hof. split_and!; try done; [..|by destruct self|apply Ht].
  all: rewrite directory_image_layout; unfold get_u16, get_u32; layout BLOCK_SIZE Hfit; cbn [snd];
    rewrite ?slice_zeros, ?le_value_u16, ?le_value_u32 by (done || lia); done.
Qed.

Lemma directory_canonical self b : is_block b → bytes_ok b → decode b = Ok self →
  typed self ∧ validate self = Ok () ∧ b = directory_image self.
Proof.
  intros Hb Hok (Hm & Hc & H8 & H10 & H12 & H14 & H36 & H40 & Hocc & Hs & Hv & Hes & Htab)%directory_decode_Ok; [|done..].
  pose proof directory_full as Hfull. pose proof BLOCK_SIZE_large. pose proof Hb as Hl. unfold is_block in Hl.
  assert (typed self) as Ht.
  { rewrite Hs. split; cbn [directory_of owner_inode logical_block_index entries];
      [apply get_u64_range; exact Hok || lia..| |done].
    apply (f_equal length) in Htab. by rewrite length_read_table, length_fmap in Htab. }
  split_and!; [done..|]. symmetry. apply (record_unseal BLOCK_SIZE); [apply checksum_room|done..|].
  pose proof (directory_fit self Ht) as Hfit.
  assert (slice 36 4 b = zeros 4) as H36'.
  { rewrite <- (le_bytes_slice 36 4 b) by (exact Hok || lia). unfold get_u32 in H36. by rewrite H36, le_bytes_0. }
  assert (table self = slice 128 TABLE b) as Htb.
  { unfold table. by rewrite <- Htab, concat_read_table. }
  apply (chunks_inj [8;2;2;2;2;8;8;4;4;84;4;TABLE]%nat). cbn [chunks Nat.add]. unfold directory_body.
  layout BLOCK_SIZE Hfit. cbn [snd]. unfold DIRECTORY_CHECKSUM_OFFSET.
  repeat first [rewrite (slice_put_lo BLOCK_SIZE) by lens | rewrite (slice_put_at BLOCK_SIZE) by lens
    | rewrite (slice_put_hi BLOCK_SIZE) by lens | rewrite (drop_put_hi BLOCK_SIZE) by lens].
  rewrite <- H8, <- H10, <- H12, <- H14, <- Hocc, Htb, Hm, H36', H40, !slice_zeros by lia.
  rewrite Hs. cbn [directory_of owner_inode logical_block_index]. unfold get_u16, get_u32, get_u64.
  rewrite !le_bytes_slice by (exact Hok || lia). rewrite drop_zeros, (drop_ge b) by (unfold TABLE in *; lia).
  by replace (BLOCK_SIZE - _)%nat with 0%nat by lia.
Qed.

(** ** Names *)

(** The names of the entries in use. *)
Definition names (es : list DirectoryEntry.t) : list (list Z) := DirectoryEntry.name_bytes <$> List.filter used es.

Lemma name_str_valid e : DirectoryEntry.is_unused e = false → DirectoryEntry.validate e = Ok () →
  DirectoryEntry.name_str e = Ok (DirectoryEntry.name_bytes e).
Proof.
  intros Hu (_ & _ & Hl & _ & Hutf & _)%EntryCodec.validate_used; [|done].
  unfold DirectoryEntry.name_str. rewrite Hutf. destruct (_ <? _) eqn:E; [|done]. bool_simpl. lia.
Qed.

Lemma distinct_from_Ok e es : DirectoryEntry.is_unused e = false → DirectoryEntry.validate e = Ok () →
  Forall (λ e, DirectoryEntry.validate e = Ok ()) es →
  distinct_from e es ≠ Abort ∧ (distinct_from e es = Ok () ↔ DirectoryEntry.name_bytes e ∉ names es).
Proof.
  intros Hu Hv Hes. unfold names.
  induction Hes as [|r es Hr Hes [IHa IH]]; cbn [distinct_from List.filter fmap list_fmap].
  { split; [done|]. split; [intros _; apply not_elem_of_nil|done]. }
  unfold used at 1. destruct (DirectoryEntry.is_unused r) eqn:Hur; cbn [negb]; [done|].
  rewrite !name_str_valid by done. rewrite !bind_Ok. cbn [fmap list_fmap]. rewrite not_elem_of_cons.
  case_bool_decide as Heq; cbn [err_if]; [by split; [|naive_solver]|].
  rewrite bind_Ok. split; [done|]. rewrite IH. naive_solver.
Qed.

Lemma distinct_names_Ok es : Forall (λ e, DirectoryEntry.validate e = Ok ()) es →
  distinct_names es ≠ Abort ∧ (distinct_names es = Ok () ↔ NoDup (names es)).
Proof.
  unfold names. induction 1 as [|e es He Hes [IHa IH]]; cbn [distinct_names List.filter fmap list_fmap].
  { split; [done|]. split; [by constructor|done]. }
  unfold used at 1 3. destruct (DirectoryEntry.is_unused e) eqn:Hu; cbn [negb]; [by rewrite bind_mret|].
  destruct (distinct_from_Ok e es Hu He Hes) as [Ha Hf]. cbn [fmap list_fmap]. split; [by apply bind_no_abort|].
  rewrite bind_unit_Ok, list.NoDup_cons, Hf, IH. done.
Qed.

Lemma directory_validate_Ok self : validate self = Ok () ↔
  owner_inode self ≠ 0 ∧ Forall (λ e, DirectoryEntry.validate e = Ok ()) (entries self) ∧ NoDup (names (entries self)).
Proof.
  unfold validate. rewrite !bind_unit_Ok, err_if_Ok_iff, validate_entries_Ok, Z.eqb_neq.
  split; intros (? & Hes & ?); split_and!; try done; by apply distinct_names_Ok.
Qed.

Lemma entry_validate_no_abort e : DirectoryEntry.validate e ≠ Abort.
Proof. unfold DirectoryEntry.validate. no_abort. Qed.
#[export] Hint Resolve entry_validate_no_abort : no_abort.

Lemma directory_validate_no_abort self : validate self ≠ Abort.
Proof.
  unfold validate. apply bind_no_abort; [no_abort|intros _].
  destruct (validate_entries (entries self)) as [[]| |] eqn:E; [|done|].
  - rewrite bind_Ok. by apply distinct_names_Ok, validate_entries_Ok.
  - exfalso. revert E. generalize (entries self) as es. induction es as [|e es IH]; cbn [validate_entries]; [done|].
    apply bind_no_abort; [no_abort|done].
Qed.
#[export] Hint Resolve directory_validate_no_abort : no_abort.

Lemma encode_entries_no_abort es out i : encode_entries out i es ≠ Abort.
Proof.
  revert out i. induction es as [|e es IH]; intros out i; cbn [encode_entries]; [done|].
  unfold DirectoryEntry.encode_into. no_abort.
Qed.
Lemma decode_entries_no_abort b n i : decode_entries b n i ≠ Abort.
Proof.
  revert i. induction n as [|n IH]; intros i; cbn [decode_entries]; [done|].
  unfold DirectoryEntry.decode_from, DirectoryEntry.decode_kind. no_abort.
Qed.
#[export] Hint Resolve encode_entries_no_abort decode_entries_no_abort : no_abort.

#[export] Instance directory_codec : BlockCodec encode decode typed.
Proof.
  split.
  - intros a b Ht [_ ->]%directory_encode_eq; [|done]. by apply directory_image_block.
  - intros a b Ht [_ ->]%directory_encode_eq; [|done]. by apply directory_image_ok.
  - intros a b Ht [Hv ->]%directory_encode_eq; [|done]. by apply directory_decode_image.
  - intros a b Hb Hok (Ht & Hv & ->)%directory_canonical; [|done..]. split; [|done]. by apply directory_encode_eq.
  - intros a. unfold encode. no_abort.
  - intros b. unfold decode, new. no_abort.
Qed.
End DirectoryCodec.
