(* ===== verification/NullfsAllocation.v ===== *)
(** * NullFS allocation groups

    Models nullfs-format/src/allocation_group.rs: the descriptor of an
    allocation group and its checks against the superblock, and the blocks of the
    descriptor table with their encoding. *)

From Stdlib Require Import ZArith Lia.
From stdpp Require Import base list numbers option.
From S2P Require Import Prelude NullfsBytes NullfsPhase3 NullfsSuperblock NullfsRecord.

Open Scope Z_scope.

(** "NFSAGDT", NUL-terminated. *)
Definition ALLOCATION_GROUP_TABLE_MAGIC : list Z := [0x4e; 0x46; 0x53; 0x41; 0x47; 0x44; 0x54; 0].
Definition ALLOCATION_GROUP_TABLE_HEADER_BYTES : nat := 64.
Definition ALLOCATION_GROUP_DESCRIPTOR_BYTES : nat := 96.
Definition ALLOCATION_GROUP_TABLE_CHECKSUM_OFFSET : nat := 60.
(** [ALLOCATION_GROUP_DESCRIPTORS_PER_BLOCK] as an index. *)
Definition DESCRIPTORS_PER_BLOCK : nat := 42.
Definition PHASE2_INODES_PER_GROUP : Z := 256.
Definition PHASE2_INODE_TABLE_BLOCKS : Z := 16.

Module AllocationGroupDescriptor.
Record t := mk {
  group_index : Z;
  flags : Z;
  group_start_block : Z;
  group_block_count : Z;
  block_bitmap_block : Z;
  inode_bitmap_block : Z;
  inode_table_first_block : Z;
  inode_table_block_count : Z;
  inodes_in_group : Z;
  first_data_block : Z;
  data_end_block : Z;
  root_inode_index : option Z;
}.
#[global] Instance t_eq_dec : EqDecision t.
Proof. solve_decision. Defined.

Definition default : t := mk 0 0 0 0 0 0 0 0 0 0 0 None.

Definition validate (self : t) (superblock : Superblock.t) : outcome FormatError.t unit :=
  _ ← err_if (negb (flags self =? 0) || (Superblock.allocation_group_count superblock <=? group_index self))
        FormatError.InvalidAllocationGroupDescriptor;
  expected_start ← ok_or (checked_mul u64_max (group_index self) (Superblock.allocation_group_blocks superblock))
                     FormatError.ArithmeticOverflow;
  remaining ← ok_or (checked_sub (Superblock.capacity_blocks superblock) expected_start)
                FormatError.InvalidAllocationGroupDescriptor;
  let expected_count := Z.min remaining (Superblock.allocation_group_blocks superblock) in
  _ ← err_if (negb (group_start_block self =? expected_start)
              || negb (group_block_count self =? expected_count)
              || negb (inode_table_block_count self =? PHASE2_INODE_TABLE_BLOCKS)
              || negb (inodes_in_group self =? PHASE2_INODES_PER_GROUP)
              || (data_end_block self <? first_data_block self)
              || negb (data_end_block self =? expected_start + expected_count))
        FormatError.InvalidAllocationGroupDescriptor;
  group_end ← ok_or (checked_add u64_max expected_start expected_count) FormatError.ArithmeticOverflow;
  inode_table_end ← ok_or (checked_add u64_max (inode_table_first_block self) (inode_table_block_count self))
                      FormatError.ArithmeticOverflow;
  let metadata_floor := Z.max expected_start (Superblock.first_allocatable_block superblock) in
  err_if ((block_bitmap_block self <? metadata_floor)
          || (group_end <=? block_bitmap_block self)
          || (inode_bitmap_block self <? metadata_floor)
          || (group_end <=? inode_bitmap_block self)
          || (inode_table_first_block self <? metadata_floor)
          || (group_end <? inode_table_end)
          || (first_data_block self <? inode_table_end)
          || (block_bitmap_block self =? inode_bitmap_block self)
          || ((inode_table_first_block self <=? block_bitmap_block self)
              && (block_bitmap_block self <? inode_table_end))
          || ((inode_table_first_block self <=? inode_bitmap_block self)
              && (inode_bitmap_block self <? inode_table_end))
          || match root_inode_index self with
             | Some index => PHASE2_INODES_PER_GROUP <=? index
             | None => false
             end) FormatError.InvalidAllocationGroupDescriptor.

(** [output] is the slot, 96 bytes. *)
Definition encode_into (self : t) (output : list Z) : list Z :=
  let output := put_u32 output 0 (group_index self) in
  let output := put_u32 output 4 (flags self) in
  let output := put_u64 output 8 (group_start_block self) in
  let output := put_u64 output 16 (group_block_count self) in
  let output := put_u64 output 24 (block_bitmap_block self) in
  let output := put_u64 output 32 (inode_bitmap_block self) in
  let output := put_u64 output 40 (inode_table_first_block self) in
  let output := put_u32 output 48 (inode_table_block_count self) in
  let output := put_u32 output 52 (inodes_in_group self) in
  let output := put_u64 output 56 (first_data_block self) in
  let output := put_u64 output 64 (data_end_block self) in
  put_u32 output 72 (match root_inode_index self with Some index => index | None => u32_max end).

Definition decode_from (input : list Z) : outcome FormatError.t t :=
  _ ← err_if (nonzero (slice 76 20 input)) FormatError.NonZeroPhase2ReservedBytes;
  let root := get_u32 input 72 in
  mret (mk (get_u32 input 0) (get_u32 input 4) (get_u64 input 8) (get_u64 input 16) (get_u64 input 24)
          (get_u64 input 32) (get_u64 input 40) (get_u32 input 48) (get_u32 input 52)
          (get_u64 input 56) (get_u64 input 64) (if root =? u32_max then None else Some root)).

(** Fields within their machine types; the all-ones root index stands for none. *)
Record typed (self : t) : Prop := {
  typed_index : is_u32 (group_index self);
  typed_flags : is_u32 (flags self);
  typed_start : is_u64 (group_start_block self);
  typed_count : is_u64 (group_block_count self);
  typed_block_bitmap : is_u64 (block_bitmap_block self);
  typed_inode_bitmap : is_u64 (inode_bitmap_block self);
  typed_table : is_u64 (inode_table_first_block self);
  typed_table_count : is_u32 (inode_table_block_count self);
  typed_inodes : is_u32 (inodes_in_group self);
  typed_data : is_u64 (first_data_block self);
  typed_end : is_u64 (data_end_block self);
  typed_root : ∀ index, root_inode_index self = Some index → 0 ≤ index < u32_max;
}.
End AllocationGroupDescriptor.

Module AllocationGroupTable.
Record t := mk {
  first_descriptor_index : Z;
  total_descriptor_count : Z;
  table_block_index : Z;
  table_block_count : Z;
  physical_block : Z;
  descriptor_count : Z;
  descriptors : list AllocationGroupDescriptor.t;
}.
#[global] Instance t_eq_dec : EqDecision t.
Proof. solve_decision. Defined.

Definition new (first_descriptor_index total_descriptor_count table_block_index table_block_count
    physical_block : Z) : t :=
  mk first_descriptor_index total_descriptor_count table_block_index table_block_count physical_block 0
    (replicate DESCRIPTORS_PER_BLOCK AllocationGroupDescriptor.default).

Definition push (self : t) (descriptor : AllocationGroupDescriptor.t) : outcome FormatError.t t :=
  let index := Z.to_nat (descriptor_count self) in
  _ ← err_if (DESCRIPTORS_PER_BLOCK <=? index)%nat
        FormatError.TooManyAllocationGroupDescriptors;
  mret (mk (first_descriptor_index self) (total_descriptor_count self) (table_block_index self)
          (table_block_count self) (physical_block self) (descriptor_count self + 1)
          (<[index := descriptor]> (descriptors self))).

(** [for (offset, descriptor) in self.descriptors[..count].iter().enumerate()] *)
Fixpoint validate_descriptors (first : Z) (superblock : Superblock.t) (offset : Z)
    (descriptors : list AllocationGroupDescriptor.t) : outcome FormatError.t unit :=
  match descriptors with
  | [] => mret ()
  | descriptor :: descriptors =>
      _ ← err_if (negb (AllocationGroupDescriptor.group_index descriptor =? first + offset))
            FormatError.InvalidAllocationGroupTable;
      _ ← AllocationGroupDescriptor.validate descriptor superblock;
      validate_descriptors first superblock (offset + 1) descriptors
  end.

Definition validate (self : t) (superblock : Superblock.t) : outcome FormatError.t unit :=
  let count := Z.to_nat (descriptor_count self) in
  _ ← err_if (negb (Superblock.phase2_enabled superblock)
              || (DESCRIPTORS_PER_BLOCK <? count)%nat
              || negb (total_descriptor_count self =? Superblock.allocation_group_count superblock)
              || negb (table_block_count self =? Superblock.descriptor_reservation_blocks superblock)
              || (table_block_count self <=? table_block_index self))
        FormatError.InvalidAllocationGroupTable;
  expected ← ok_or (checked_add u64_max (Superblock.first_descriptor_block superblock) (table_block_index self))
               FormatError.ArithmeticOverflow;
  _ ← err_if (negb (physical_block self =? expected)
              || negb (first_descriptor_index self
                       =? Z.min u32_max (table_block_index self * ALLOCATION_GROUP_DESCRIPTORS_PER_BLOCK))
              || (total_descriptor_count self <? first_descriptor_index self + Z.of_nat count))
        FormatError.InvalidAllocationGroupTable;
  let expected_count := Z.min (total_descriptor_count self - first_descriptor_index self)
                          ALLOCATION_GROUP_DESCRIPTORS_PER_BLOCK in
  _ ← err_if (negb (Z.of_nat count =? expected_count)) FormatError.InvalidAllocationGroupTable;
  _ ← validate_descriptors (first_descriptor_index self) superblock 0 (take count (descriptors self));
  err_if (any (λ d, negb (bool_decide (d = AllocationGroupDescriptor.default))) (drop count (descriptors self)))
    FormatError.InvalidAllocationGroupTable.

Definition table_checksum (bytes : list Z) : Z :=
  record_checksum BLOCK_SIZE ALLOCATION_GROUP_TABLE_CHECKSUM_OFFSET bytes.

Definition slot_start (index : nat) : nat :=
  ALLOCATION_GROUP_TABLE_HEADER_BYTES + index * ALLOCATION_GROUP_DESCRIPTOR_BYTES.

(** The loops over the descriptors in use. *)
Fixpoint encode_descriptors (output : list Z) (index : nat) (descriptors : list AllocationGroupDescriptor.t) : list Z :=
  match descriptors with
  | [] => output
  | descriptor :: descriptors =>
      let start := slot_start index in
      let slot := AllocationGroupDescriptor.encode_into descriptor
                    (slice start ALLOCATION_GROUP_DESCRIPTOR_BYTES output) in
      encode_descriptors (put_bytes output start slot) (S index) descriptors
  end.

Fixpoint decode_descriptors (input : list Z) (n index : nat) (table : t) : outcome FormatError.t t :=
  match n with
  | O => mret table
  | S n =>
      descriptor ← AllocationGroupDescriptor.decode_from
                     (slice (slot_start index) ALLOCATION_GROUP_DESCRIPTOR_BYTES input);
      table ← push table descriptor;
      decode_descriptors input n (S index) table
  end.

Definition encode (self : t) (superblock : Superblock.t) : outcome FormatError.t (list Z) :=
  _ ← validate self superblock;
  let output := zeros BLOCK_SIZE in
  let output := put_bytes output 0 ALLOCATION_GROUP_TABLE_MAGIC in
  let output := put_u16 output 8 1 in
  let output := put_u16 output 10 (Z.of_nat ALLOCATION_GROUP_TABLE_HEADER_BYTES) in
  let output := put_u16 output 12 (Z.of_nat ALLOCATION_GROUP_DESCRIPTOR_BYTES) in
  let output := put_u16 output 14 (descriptor_count self) in
  let output := put_u32 output 16 (first_descriptor_index self) in
  let output := put_u32 output 20 (total_descriptor_count self) in
  let output := put_u32 output 24 (table_block_index self) in
  let output := put_u32 output 28 (table_block_count self) in
  let output := put_u64 output 32 (physical_block self) in
  let output := encode_descriptors output 0 (take (Z.to_nat (descriptor_count self)) (descriptors self)) in
  let checksum := table_checksum output in
  mret (put_u32 output ALLOCATION_GROUP_TABLE_CHECKSUM_OFFSET checksum).

(** [input[used_end..].iter().enumerate().any(..)]: a byte after the used
    descriptors, outside the checksum, is not zero. *)
Definition tail_used (input : list Z) (used_end : nat) : bool :=
  any (λ p : nat * Z,
         let absolute := (used_end + p.1)%nat in
         negb (p.2 =? 0)
         && negb ((ALLOCATION_GROUP_TABLE_CHECKSUM_OFFSET <=? absolute)
                  && (absolute <? ALLOCATION_GROUP_TABLE_CHECKSUM_OFFSET + 4))%nat)
    (zip (seq 0 (length (drop used_end input))) (drop used_end input)).

Definition decode (bytes : list Z) (superblock : Superblock.t) : outcome FormatError.t t :=
  _ ← err_if (length bytes <? BLOCK_SIZE)%nat
        (FormatError.TruncatedPhase2Record (Z.of_nat BLOCK_SIZE) (Z.of_nat (length bytes)));
  let input := take BLOCK_SIZE bytes in
  _ ← err_if (negb (bool_decide (slice 0 8 input = ALLOCATION_GROUP_TABLE_MAGIC)))
        FormatError.InvalidAllocationGroupTable;
  let stored := get_u32 input ALLOCATION_GROUP_TABLE_CHECKSUM_OFFSET in
  let actual := table_checksum input in
  _ ← err_if (negb (stored =? actual)) (FormatError.Phase2ChecksumMismatch stored actual);
  _ ← err_if (negb (get_u16 input 8 =? 1)
              || negb (get_u16 input 10 =? Z.of_nat ALLOCATION_GROUP_TABLE_HEADER_BYTES)
              || negb (get_u16 input 12 =? Z.of_nat ALLOCATION_GROUP_DESCRIPTOR_BYTES)
              || nonzero (slice 40 20 input)) FormatError.InvalidAllocationGroupTable;
  let descriptor_count := get_u16 input 14 in
  _ ← err_if (DESCRIPTORS_PER_BLOCK <? Z.to_nat descriptor_count)%nat
        FormatError.TooManyAllocationGroupDescriptors;
  let table := new (get_u32 input 16) (get_u32 input 20) (get_u32 input 24) (get_u32 input 28)
                 (get_u64 input 32) in
  table ← decode_descriptors input (Z.to_nat descriptor_count) 0 table;
  let used_end := slot_start (Z.to_nat descriptor_count) in
  _ ← err_if (tail_used input used_end) FormatError.NonZeroPhase2ReservedBytes;
  _ ← validate table superblock;
  mret table.

Record typed (self : t) : Prop := {
  typed_first : is_u32 (first_descriptor_index self);
  typed_total : is_u32 (total_descriptor_count self);
  typed_block_index : is_u32 (table_block_index self);
  typed_block_count : is_u32 (table_block_count self);
  typed_physical : is_u64 (physical_block self);
  typed_count : 0 ≤ descriptor_count self ≤ u16_max;
  typed_length : length (descriptors self) = DESCRIPTORS_PER_BLOCK;
  typed_descriptors : Forall AllocationGroupDescriptor.typed (descriptors self);
}.
End AllocationGroupTable.

(** ** The descriptor codec *)

Module DescriptorCodec.
Import AllocationGroupDescriptor.

Definition root_word (self : t) : Z := match root_inode_index self with Some index => index | None => u32_max end.

Definition updates (self : t) : list update :=
  [(72, 4, le_bytes 4 (root_word self));
   (64, 8, le_bytes 8 (data_end_block self));
   (56, 8, le_bytes 8 (first_data_block self));
   (52, 4, le_bytes 4 (inodes_in_group self));
   (48, 4, le_bytes 4 (inode_table_block_count self));
   (40, 8, le_bytes 8 (inode_table_first_block self));
   (32, 8, le_bytes 8 (inode_bitmap_block self));
   (24, 8, le_bytes 8 (block_bitmap_block self));
   (16, 8, le_bytes 8 (group_block_count self));
   (8, 8, le_bytes 8 (group_start_block self));
   (4, 4, le_bytes 4 (flags self));
   (0, 4, le_bytes 4 (group_index self))]%nat.

(** The bytes of a slot. *)
Definition descriptor_image (self : t) : list Z :=
  apply_updates (updates self) (zeros ALLOCATION_GROUP_DESCRIPTOR_BYTES).

Lemma descriptor_fit self : Forall (fits ALLOCATION_GROUP_DESCRIPTOR_BYTES) (updates self).
Proof. unfold updates, ALLOCATION_GROUP_DESCRIPTOR_BYTES. fits_solve. Qed.

Lemma descriptor_image_length self : length (descriptor_image self) = ALLOCATION_GROUP_DESCRIPTOR_BYTES.
Proof. apply length_apply_updates; [apply length_zeros|apply descriptor_fit]. Qed.

Lemma descriptor_image_ok self : bytes_ok (descriptor_image self).
Proof. apply apply_updates_ok; [apply zeros_ok|]. unfold updates. bytes_solve. Qed.

Lemma root_word_u32 self : typed self → is_u32 (root_word self).
Proof.
  intros []. unfold root_word. destruct (root_inode_index self) as [i|]; [|done].
  specialize (typed_root0 i eq_refl). unfold is_u32. lia.
Qed.

Lemma descriptor_decode_image self : typed self → decode_from (descriptor_image self) = Ok self.
Proof.
  intros Ht. pose proof (descriptor_fit self) as Hfit. pose proof (root_word_u32 self Ht) as Hr.
  unfold decode_from, descriptor_image, get_u32, get_u64.
  layout ALLOCATION_GROUP_DESCRIPTOR_BYTES Hfit. cbn [snd]. destruct Ht.
  rewrite slice_zeros, nonzero_zeros by (unfold ALLOCATION_GROUP_DESCRIPTOR_BYTES; lia).
  rewrite !le_value_u64, !le_value_u32 by done. cbn [err_if]. rewrite bind_Ok. cbv zeta.
  assert ((if root_word self =? u32_max then None else Some (root_word self)) = root_inode_index self) as ->.
  { unfold root_word. destruct (root_inode_index self) as [i|]; [|done].
    specialize (typed_root0 i eq_refl). destruct (i =? u32_max) eqn:E; [bool_simpl; lia|done]. }
  by destruct self.
Qed.

Lemma descriptor_canonical self b : length b = ALLOCATION_GROUP_DESCRIPTOR_BYTES → bytes_ok b →
  decode_from b = Ok self → typed self ∧ b = descriptor_image self.
Proof.
  unfold ALLOCATION_GROUP_DESCRIPTOR_BYTES. intros Hb Hok [Hz%err_if_Ok_iff Hd%(inj Ok)]%bind_unit_Ok.
  apply nonzero_false in Hz. rewrite length_slice in Hz by lia.
  pose proof (get_u32_range b 72 Hok ltac:(lia)) as Hr.
  split.
  - subst self. split; cbn; try (first [apply get_u32_range | apply get_u64_range]; done || lia).
    intros index. destruct (_ =? _) eqn:E; [done|]. bool_simpl. intros [= <-]. unfold is_u32 in Hr. lia.
  - pose proof (descriptor_fit self) as Hfit.
    assert (root_word self = get_u32 b 72) as Hroot.
    { subst self. unfold root_word. cbn. by destruct (_ =? _) eqn:E; bool_simpl. }
    apply (chunks_inj [4;4;8;8;8;8;8;4;4;8;8;4;20]%nat). cbn [chunks Nat.add]. unfold descriptor_image.
    layout ALLOCATION_GROUP_DESCRIPTOR_BYTES Hfit. cbn [snd]. rewrite Hroot. subst self.
    cbn [group_index flags group_start_block group_block_count block_bitmap_block inode_bitmap_block
      inode_table_first_block inode_table_block_count inodes_in_group first_data_block data_end_block].
    unfold ALLOCATION_GROUP_DESCRIPTOR_BYTES, get_u32, get_u64 in *. rewrite !le_bytes_slice by (exact Hok || lia).
    rewrite Hz, slice_zeros, drop_zeros, (drop_ge b) by lia. done.
Qed.
End DescriptorCodec.

(** ** The table codec *)

Module TableCodec.
Import AllocationGroupTable DescriptorCodec.
Notation WIDTH := ALLOCATION_GROUP_DESCRIPTOR_BYTES.
Notation TABLE := (DESCRIPTORS_PER_BLOCK * WIDTH)%nat.

Definition count (self : t) : nat := Z.to_nat (descriptor_count self).
Definition used (self : t) : list AllocationGroupDescriptor.t := take (count self) (descriptors self).

Definition header (self : t) : list update :=
  [(32, 8, le_bytes 8 (physical_block self));
   (28, 4, le_bytes 4 (table_block_count self));
   (24, 4, le_bytes 4 (table_block_index self));
   (20, 4, le_bytes 4 (total_descriptor_count self));
   (16, 4, le_bytes 4 (first_descriptor_index self));
   (14, 2, le_bytes 2 (descriptor_count self));
   (12, 2, le_bytes 2 (Z.of_nat WIDTH));
   (10, 2, le_bytes 2 (Z.of_nat ALLOCATION_GROUP_TABLE_HEADER_BYTES));
   (8, 2, le_bytes 2 1);
   (0, 8, ALLOCATION_GROUP_TABLE_MAGIC)]%nat.

(** The slots in use, and zeroes up to the end of the block. *)
Definition table (self : t) : list Z :=
  concat (descriptor_image <$> used self) ++ zeros (TABLE - count self * WIDTH).
Definition updates (self : t) : list update := (64, TABLE, table self)%nat :: header self.

Definition table_body (self : t) : list Z := apply_updates (updates self) (zeros BLOCK_SIZE).
Definition table_image (self : t) : list Z :=
  put_u32 (table_body self) ALLOCATION_GROUP_TABLE_CHECKSUM_OFFSET (table_checksum (table_body self)).

Lemma table_full : (64 + TABLE = BLOCK_SIZE)%nat.
Proof. pose proof BLOCK_SIZE_Z. unfold DESCRIPTORS_PER_BLOCK, WIDTH. lia. Qed.

Lemma descriptor_slots ds : Forall (λ r, length r = WIDTH) (descriptor_image <$> ds).
Proof. apply Forall_fmap, Forall_true. apply descriptor_image_length. Qed.

Lemma put_bytes_pad b o u k : (o + length u + k ≤ length b)%nat → slice (o + length u) k b = zeros k →
  put_bytes b o (u ++ zeros k) = put_bytes b o u.
Proof.
  intros Hl Hz. rewrite <- put_adjacent by (rewrite length_zeros; lia).
  rewrite <- Hz, <- (slice_put_after b o u) by lia. apply put_slice. rewrite length_put_bytes; lia.
Qed.

Section image.
Context (self : t) (Hlen : length (descriptors self) = DESCRIPTORS_PER_BLOCK)
  (Hcount : (count self ≤ DESCRIPTORS_PER_BLOCK)%nat).

Lemma used_length : length (used self) = count self.
Proof using Hlen Hcount. unfold used. rewrite length_take. lia. Qed.

Lemma used_image_length : length (concat (descriptor_image <$> used self)) = (count self * WIDTH)%nat.
Proof using Hlen Hcount. by rewrite (length_slots WIDTH), length_fmap, used_length by apply descriptor_slots. Qed.

Lemma agtable_length : length (table self) = TABLE.
Proof using Hlen Hcount. unfold table. rewrite length_app, used_image_length, length_zeros. unfold WIDTH. lia. Qed.

Lemma agheader_fit : Forall (fits BLOCK_SIZE) (header self).
Proof using. clear. unfold header. fits_solve. Qed.

Lemma table_fit : Forall (fits BLOCK_SIZE) (updates self).
Proof using Hlen Hcount.
  apply Forall_cons_2; [|apply agheader_fit]. split; cbn [fst snd]; [apply agtable_length|].
  pose proof table_full. lia.
Qed.

Lemma table_body_length : length (table_body self) = BLOCK_SIZE.
Proof using Hlen Hcount. apply length_apply_updates; [apply length_zeros|apply table_fit]. Qed.

Lemma table_body_ok : bytes_ok (table_body self).
Proof using.
  apply apply_updates_ok; [apply zeros_ok|]. apply Forall_cons_2; [|unfold header; bytes_solve].
  apply Forall_app_2; [|apply zeros_ok].
  apply concat_bytes_ok, Forall_fmap, Forall_true. intros d. apply descriptor_image_ok.
Qed.

Lemma agchecksum_room : (ALLOCATION_GROUP_TABLE_CHECKSUM_OFFSET + 4 ≤ BLOCK_SIZE)%nat.
Proof using. clear. pose proof table_full. unfold ALLOCATION_GROUP_TABLE_CHECKSUM_OFFSET. lia. Qed.

Lemma table_image_block : is_block (table_image self).
Proof using Hlen Hcount.
  unfold is_block, table_image, put_u32. pose proof agchecksum_room.
  rewrite length_put_bytes; rewrite ?length_le_bytes; by rewrite table_body_length.
Qed.

Lemma table_image_ok : bytes_ok (table_image self).
Proof using. apply put_bytes_ok; [apply table_body_ok|apply le_bytes_ok]. Qed.

(** The loop over the descriptors writes the slots in use. *)
Lemma encode_descriptors_eq ds out i : length out = BLOCK_SIZE → (i + length ds ≤ DESCRIPTORS_PER_BLOCK)%nat →
  (∀ j, (i ≤ j < DESCRIPTORS_PER_BLOCK)%nat → slice (slot_start j) WIDTH out = zeros WIDTH) →
  encode_descriptors out i ds = put_table out (slot_start i) WIDTH (descriptor_image <$> ds).
Proof using.
  clear. revert out i. induction ds as [|d ds IH]; intros out i Ho Hi Hz; [done|].
  cbn [encode_descriptors fmap list_fmap put_table length] in *. rewrite Hz by lia.
  change (AllocationGroupDescriptor.encode_into d (zeros WIDTH)) with (descriptor_image d).
  pose proof (descriptor_image_length d) as Hl.
  assert (slot_start i + WIDTH ≤ BLOCK_SIZE)%nat as Hfit.
  { pose proof table_full. unfold slot_start, ALLOCATION_GROUP_TABLE_HEADER_BYTES, WIDTH, DESCRIPTORS_PER_BLOCK in *. lia. }
  replace (slot_start i + WIDTH)%nat with (slot_start (S i)) by (unfold slot_start, WIDTH; lia).
  apply IH; [rewrite length_put_bytes; lia|lia|]. intros j Hj.
  rewrite (slice_put_hi BLOCK_SIZE); [apply Hz; lia|done|rewrite Hl|rewrite Hl; done].
  unfold slot_start, WIDTH. lia.
Qed.

Lemma table_encode_eq sb b : encode self sb = Ok b ↔ validate self sb = Ok () ∧ b = table_image self.
Proof using Hlen Hcount.
  unfold encode. cbv zeta. set (out := put_u64 _ 32 _).
  assert (out = apply_updates (header self) (zeros BLOCK_SIZE)) as Hout by done.
  assert (length out = BLOCK_SIZE) as Hlo.
  { rewrite Hout. apply length_apply_updates; [apply length_zeros|apply agheader_fit]. }
  pose proof table_full as Hfull. pose proof used_length as Hused. pose proof used_image_length as Hui.
  assert (∀ o n, (64 ≤ o)%nat → (o + n ≤ BLOCK_SIZE)%nat → slice o n out = zeros n) as Hz.
  { intros o n Ho Hn. replace o with (64 + (o - 64))%nat by lia. rewrite Hout, slice_drop.
    rewrite (drop_missed BLOCK_SIZE _ (length_zeros _) _ 64 agheader_fit) by reflexivity.
    rewrite drop_zeros. apply slice_zeros. lia. }
  assert (encode_descriptors out 0 (used self) = table_body self) as Hx.
  { rewrite encode_descriptors_eq; [|done|lia|].
    - rewrite put_table_eq; [|apply descriptor_slots|].
      + unfold table_body, updates. rewrite apply_updates_cons, <- Hout. unfold table.
        rewrite put_bytes_pad; [done| |apply Hz]; rewrite Hui; unfold WIDTH, DESCRIPTORS_PER_BLOCK in *; lia.
      + rewrite length_fmap, Hused, Hlo.
        unfold slot_start, ALLOCATION_GROUP_TABLE_HEADER_BYTES, WIDTH, DESCRIPTORS_PER_BLOCK in *. lia.
    - intros j Hj. apply Hz; unfold slot_start, ALLOCATION_GROUP_TABLE_HEADER_BYTES, WIDTH,
        DESCRIPTORS_PER_BLOCK in *; lia. }
  unfold used, count in Hx. rewrite Hx, bind_unit_Ok. fold (table_image self).
  split; intros [Hv Hb]; (split; [exact Hv|]); [apply (inj Ok) in Hb; by symmetry|by rewrite Hb].
Qed.
End image.

Lemma descriptor_default_typed : AllocationGroupDescriptor.typed AllocationGroupDescriptor.default.
Proof. by split. Qed.

(** A non-zero byte in the tail: the exempted checksum lies before it. *)
Lemma tail_used_eq b e : (64 ≤ e)%nat → tail_used b e = nonzero (drop e b).
Proof.
  intros He. unfold tail_used, nonzero. generalize (drop e b) as l. intros l.
  assert (∀ (f : nat * Z → bool) (g : Z → bool) k, (∀ i x, f (i, x) = g x) →
    any f (zip (seq k (length l)) l) = any g l) as Hany.
  { intros f g. induction l as [|x l IH]; intros k Hfg; cbn; [done|]. by rewrite Hfg, IH. }
  apply Hany. intros i x. cbn [fst snd]. replace (_ <? _)%nat with false; [by rewrite andb_false_r, andb_true_r|].
  symmetry. apply Nat.ltb_ge. unfold ALLOCATION_GROUP_TABLE_CHECKSUM_OFFSET. lia.
Qed.

Definition with_descriptors (self : t) (n : Z) (ds : list AllocationGroupDescriptor.t) : t :=
  mk (first_descriptor_index self) (total_descriptor_count self) (table_block_index self)
    (table_block_count self) (physical_block self) n ds.

Lemma push_Ok self d : (count self < DESCRIPTORS_PER_BLOCK)%nat →
  push self d = Ok (with_descriptors self (descriptor_count self + 1) (<[count self := d]> (descriptors self))).
Proof.
  intros Hc. unfold push. fold (count self). by replace (_ <=? _)%nat with false by (symmetry; apply Nat.leb_gt; lia).
Qed.

Lemma take_insert_snoc {A} (l k : list A) i x : (i < length l)%nat →
  take (S i) (<[i := x]> l) ++ k = take i l ++ x :: k.
Proof.
  intros Hi. rewrite (take_S_r _ _ x) by (apply list_lookup_insert_eq; lia).
  by rewrite take_insert_ge, <- app_assoc by lia.
Qed.

(** The loop over the slots fills the table in order. *)
Lemma decode_descriptors_Ok b n self r : is_block b → bytes_ok b →
  0 ≤ descriptor_count self → length (descriptors self) = DESCRIPTORS_PER_BLOCK →
  (count self + n ≤ DESCRIPTORS_PER_BLOCK)%nat →
  decode_descriptors b n (count self) self = Ok r ↔
  ∃ ds, Forall AllocationGroupDescriptor.typed ds ∧
    read_table (slot_start (count self)) WIDTH n b = descriptor_image <$> ds ∧
    r = with_descriptors self (descriptor_count self + Z.of_nat n)
          (take (count self) (descriptors self) ++ ds ++ drop (count self + n) (descriptors self)).
Proof.
  intros Hb Hok. revert self. induction n as [|n IH]; intros self Hc Hl Hn; cbn [decode_descriptors].
  { rewrite Nat.add_0_r, Z.add_0_r. split.
    - intros <-%(inj Ok). exists []. split_and!; [done..|]. cbn. rewrite take_drop. by destruct self.
    - intros (ds & _ & Hds & ->). destruct ds; [|done]. cbn. rewrite take_drop. by destruct self. }
  rewrite read_table_S, bind_Ok_iff.
  set (raw := slice _ _ b).
  assert (length raw = WIDTH) as Hraw.
  { apply length_slice. rewrite Hb, <- table_full.
    unfold slot_start, ALLOCATION_GROUP_TABLE_HEADER_BYTES, WIDTH, DESCRIPTORS_PER_BLOCK in *. lia. }
  assert (bytes_ok raw) as Hrok by by apply slice_ok.
  assert (∀ d, let self' := with_descriptors self (descriptor_count self + 1) (<[count self := d]> (descriptors self)) in
    count self' = S (count self)) as Hcount by (intros d; unfold count; cbn; lia).
  replace (slot_start (count self) + WIDTH)%nat with (slot_start (S (count self))) by (unfold slot_start, WIDTH; lia).
  split.
  - intros (d & [Hd Himg]%descriptor_canonical & H); [|done..]. rewrite push_Ok, bind_Ok in H by lia.
    rewrite <- (Hcount d) in H. apply IH in H as (ds & Hds & Htab & ->); [|cbn; rewrite ?length_insert, ?Hcount; lia..].
    rewrite Hcount in *. exists (d :: ds). cbn [fmap list_fmap]. rewrite <- Himg, Htab.
    split_and!; [by constructor|done|]. unfold with_descriptors. cbn. rewrite take_insert_snoc, drop_insert_lt by lia.
    f_equal; [lia|]. do 2 f_equal. by replace (count self + S n)%nat with (S (count self + n)) by lia.
  - intros ([|d ds] & Hds & Htab & ->); [done|]. apply Forall_cons_1 in Hds as [Hd Hds].
    cbn [fmap list_fmap] in Htab. injection Htab as Himg Htab.
    exists d. split; [rewrite Himg; by apply descriptor_decode_image|]. rewrite push_Ok, bind_Ok by lia.
    rewrite <- (Hcount d) at 1. apply IH; [cbn; rewrite ?length_insert, ?Hcount; lia..|].
    rewrite Hcount. exists ds. split_and!; [done..|]. unfold with_descriptors. cbn. rewrite take_insert_snoc, drop_insert_lt by lia.
    f_equal; [lia|]. do 2 f_equal. by replace (count self + S n)%nat with (S (count self + n)) by lia.
Qed.

Lemma table_decode_Ok self sb b : is_block b → bytes_ok b → decode b sb = Ok self ↔
  slice 0 8 b = ALLOCATION_GROUP_TABLE_MAGIC ∧
  get_u32 b ALLOCATION_GROUP_TABLE_CHECKSUM_OFFSET = table_checksum b ∧
  get_u16 b 8 = 1 ∧ get_u16 b 10 = Z.of_nat ALLOCATION_GROUP_TABLE_HEADER_BYTES ∧
  get_u16 b 12 = Z.of_nat WIDTH ∧ slice 40 20 b = zeros 20 ∧
  get_u16 b 14 = descriptor_count self ∧ (count self ≤ DESCRIPTORS_PER_BLOCK)%nat ∧
  nonzero (drop (slot_start (count self)) b) = false ∧
  (∃ ds, Forall AllocationGroupDescriptor.typed ds ∧
     read_table 64 WIDTH (count self) b = descriptor_image <$> ds ∧
     self = mk (get_u32 b 16) (get_u32 b 20) (get_u32 b 24) (get_u32 b 28) (get_u64 b 32) (descriptor_count self)
              (ds ++ replicate (DESCRIPTORS_PER_BLOCK - count self) AllocationGroupDescriptor.default)) ∧
  validate self sb = Ok ().
Proof.
  intros Hb Hok. unfold decode. rewrite take_ge, Hb, Nat.ltb_irrefl by (by rewrite Hb).
  cbn [err_if]. rewrite bind_Ok. cbv zeta. pose proof BLOCK_SIZE_large.
  pose proof (get_u16_range b 14 Hok) as Hn. unfold is_block in Hb. rewrite Hb in Hn. specialize (Hn ltac:(lia)).
  rewrite !bind_unit_Ok, bind_Ok_iff, !err_if_Ok_iff, !orb_false_iff, !negb_false_iff, !Z.eqb_eq, bool_decide_eq_true, Nat.ltb_ge.
  assert (∀ r, (Z.to_nat (get_u16 b 14) ≤ DESCRIPTORS_PER_BLOCK)%nat →
    decode_descriptors b (Z.to_nat (get_u16 b 14)) 0 (new (get_u32 b 16) (get_u32 b 20) (get_u32 b 24) (get_u32 b 28) (get_u64 b 32)) = Ok r ↔ ∃ ds,
      Forall AllocationGroupDescriptor.typed ds ∧ read_table 64 WIDTH (Z.to_nat (get_u16 b 14)) b = descriptor_image <$> ds ∧
      r = mk (get_u32 b 16) (get_u32 b 20) (get_u32 b 24) (get_u32 b 28) (get_u64 b 32) (get_u16 b 14)
        (ds ++ replicate (DESCRIPTORS_PER_BLOCK - Z.to_nat (get_u16 b 14)) AllocationGroupDescriptor.default)) as Hloop.
  { intros r Hle. rewrite (decode_descriptors_Ok b _ (new _ _ _ _ _)); [|done..].
    change (count (new _ _ _ _ _)) with 0%nat. cbn [new descriptor_count descriptors take app Nat.add].
    rewrite drop_replicate, Z2Nat.id by lia. done. }
  split.
  - intros (? & ? & (((? & ?) & ?) & H40) & Hle & r & (ds & Hds & Htab & ->)%Hloop & [Ht%err_if_Ok_iff [Hv <-%(inj Ok)]%bind_unit_Ok]%bind_unit_Ok); [|done].
    apply nonzero_false in H40. rewrite length_slice in H40 by lia. rewrite tail_used_eq in Ht by (unfold slot_start, ALLOCATION_GROUP_TABLE_HEADER_BYTES; lia).
    split_and!; try done. by exists ds.
  - intros (? & ? & ? & ? & ? & -> & Hcnt & Hle & Ht & (ds & Hds & Htab & Hs) & Hv). unfold count in *. rewrite <- Hcnt in *.
    rewrite nonzero_zeros. split_and!; try done. exists self. split; [apply Hloop; [done|by exists ds]|].
    rewrite tail_used_eq, Ht by (unfold slot_start, ALLOCATION_GROUP_TABLE_HEADER_BYTES; lia). cbn [err_if]. by rewrite bind_Ok, Hv.
Qed.

Lemma validate_count self sb : validate self sb = Ok () → (count self ≤ DESCRIPTORS_PER_BLOCK)%nat.
Proof. intros [H%err_if_Ok_iff _]%bind_unit_Ok. bool_simpl. by apply Nat.ltb_ge. Qed.

Lemma validate_rest self sb : validate self sb = Ok () →
  Forall (eq AllocationGroupDescriptor.default) (drop (count self) (descriptors self)).
Proof.
  unfold validate. rewrite !bind_unit_Ok, bind_Ok_iff. intros (_ & expected & _ & H). rewrite !bind_unit_Ok in H.
  destruct H as (_ & _ & _ & H%err_if_Ok_iff). apply list.Forall_forall. intros d Hd.
  apply (proj1 (any_false _ _) H) in Hd. by bool_simpl.
Qed.

Lemma table_encode_Ok self sb b : typed self →
  encode self sb = Ok b ↔ validate self sb = Ok () ∧ b = table_image self.
Proof.
  intros Ht. split.
  - intros He. pose proof He as [Hv _]%bind_unit_Ok. apply table_encode_eq; [apply Ht|by eapply validate_count|done].
  - intros [Hv ->]. apply table_encode_eq; [apply Ht|by eapply validate_count|done].
Qed.

Definition sealed_updates (self : t) : list update :=
  (60, 4, le_bytes 4 (table_checksum (table_body self)))%nat :: updates self.
Lemma table_image_layout self : table_image self = apply_updates (sealed_updates self) (zeros BLOCK_SIZE).
Proof. done. Qed.

Lemma agsealed_updates_fit self : length (descriptors self) = DESCRIPTORS_PER_BLOCK →
  (count self ≤ DESCRIPTORS_PER_BLOCK)%nat → Forall (fits BLOCK_SIZE) (sealed_updates self).
Proof.
  intros Hlen Hc. apply Forall_cons_2; [|by apply table_fit]. pose proof BLOCK_SIZE_large.
  split; cbn; [apply length_le_bytes|lia].
Qed.

(** The slots in use and the tail of an image. *)
Lemma table_image_slots self : length (descriptors self) = DESCRIPTORS_PER_BLOCK →
  (count self ≤ DESCRIPTORS_PER_BLOCK)%nat →
  slice 64 (count self * WIDTH) (table_image self) = concat (descriptor_image <$> used self) ∧
  drop (slot_start (count self)) (table_image self) = zeros (TABLE - count self * WIDTH).
Proof.
  intros Hlen Hcount. pose proof (agsealed_updates_fit self Hlen Hcount) as Hfit.
  assert (slice 64 TABLE (table_image self) = table self) as Htab.
  { rewrite table_image_layout. by layout BLOCK_SIZE Hfit. }
  pose proof table_full as Hfull. pose proof (used_image_length self Hlen Hcount) as Hui.
  pose proof (table_image_block self Hlen Hcount) as Hb. unfold is_block in Hb.
  assert (count self * WIDTH ≤ TABLE)%nat as Hcw by (unfold WIDTH; lia). split.
  - rewrite <- (Nat.add_0_r 64), <- (slice_slice 64 TABLE) by lia. rewrite Htab. by apply slice_app_head.
  - unfold slot_start, ALLOCATION_GROUP_TABLE_HEADER_BYTES.
    rewrite <- (slice_to_end _ (TABLE - count self * WIDTH)) by (rewrite Hb; lia).
    rewrite <- (slice_slice 64 TABLE) by lia.
    rewrite Htab. unfold table. rewrite slice_app_skip, Hui, Nat.sub_diag by lia. apply slice_full. by rewrite length_zeros.
Qed.

Lemma table_decode_image self sb : typed self → validate self sb = Ok () → decode (table_image self) sb = Ok self.
Proof.
  intros Ht Hv. pose proof (typed_length self Ht) as Hlen. pose proof (validate_count self sb Hv) as Hcount.
  apply table_decode_Ok; [by apply table_image_block|by apply table_image_ok|].
  pose proof (agsealed_updates_fit self Hlen Hcount) as Hfit. pose proof BLOCK_SIZE_large.
  pose proof (table_image_slots self Hlen Hcount) as [Hused Hrest].
  split_and!; [..|exact Hv].
  1, 3-7: rewrite table_image_layout; unfold get_u16; layout BLOCK_SIZE Hfit; cbn [snd].
  - reflexivity.
  - by apply le_value_u16.
  - by apply le_value_u16.
  - by apply le_value_u16.
  - apply slice_zeros. lia.
  - apply le_value_u16, Ht.
  - apply record_sealed; [apply agchecksum_room|by apply table_body_length|apply table_body_ok].
  - exact Hcount.
  - rewrite Hrest. apply nonzero_zeros.
  - exists (used self). split_and!; [by apply Forall_take, Ht| |].
    + apply read_table_concat; [apply descriptor_slots|by rewrite length_fmap, used_length| |done].
      rewrite (table_image_block self Hlen Hcount). pose proof table_full. unfold WIDTH in *. lia.
    + rewrite table_image_layout. unfold get_u32, get_u64. layout BLOCK_SIZE Hfit. cbn [snd]. destruct Ht.
      rewrite !le_value_u32, !le_value_u64 by done.
      assert (descriptors self = used self ++ replicate (DESCRIPTORS_PER_BLOCK - count self) AllocationGroupDescriptor.default) as Hd.
      { unfold used. rewrite <- (take_drop (count self) (descriptors self)) at 1. f_equal.
        symmetry. apply replicate_as_Forall. split; [by rewrite length_drop, Hlen|by eapply validate_rest]. }
      rewrite <- Hd. by destruct self.
Qed.

Lemma table_canonical self sb b : is_block b → bytes_ok b → decode b sb = Ok self →
  typed self ∧ validate self sb = Ok () ∧ b = table_image self.
Proof.
  intros Hb Hok (Hm & Hc & H8 & H10 & H12 & H40 & Hcnt & Hle & Ht & (ds & Hds & Htab & Hs) & Hv)%table_decode_Ok; [|done..].
  pose proof table_full as Hfull. pose proof BLOCK_SIZE_large. pose proof Hb as Hl. unfold is_block in Hl.
  assert (length ds = count self) as Hld.
  { apply (f_equal length) in Htab. by rewrite length_read_table, length_fmap in Htab. }
  assert (typed self) as Htyped.
  { rewrite Hs. split; cbn; try (first [apply get_u32_range | apply get_u64_range]; exact Hok || lia).
    - rewrite <- Hcnt. apply get_u16_range; [done|lia].
    - rewrite length_app, length_replicate. unfold DESCRIPTORS_PER_BLOCK in *. lia.
    - apply Forall_app_2; [done|]. apply Forall_replicate, descriptor_default_typed. }
  split_and!; [done..|]. pose proof (typed_length self Htyped) as Hlen.
  symmetry. apply (record_unseal BLOCK_SIZE); [apply agchecksum_room|done..|].
  assert (count self * WIDTH ≤ TABLE)%nat as Hcw by (unfold WIDTH; lia).
  assert (table self = slice 64 TABLE b) as Htb.
  { pose proof (f_equal descriptors Hs) as Hdesc. cbn [descriptors] in Hdesc.
    unfold table, used. rewrite Hdesc, take_app_length', <- Htab, concat_read_table by done.
    replace TABLE with (count self * WIDTH + (TABLE - count self * WIDTH))%nat at 2 by lia. rewrite slice_split. f_equal.
    apply nonzero_false in Ht. rewrite length_drop, Hl in Ht.
    rewrite slice_to_end by lia. unfold slot_start, ALLOCATION_GROUP_TABLE_HEADER_BYTES in Ht. rewrite Ht.
    replace (BLOCK_SIZE - _)%nat with (TABLE - count self * WIDTH)%nat by lia. reflexivity. }
  pose proof (table_fit self Hlen Hle) as Hfit.
  apply (chunks_inj [8;2;2;2;2;4;4;4;4;8;20;4;TABLE]%nat). cbn [chunks Nat.add]. unfold table_body.
  layout BLOCK_SIZE Hfit. cbn [snd]. unfold ALLOCATION_GROUP_TABLE_CHECKSUM_OFFSET.
  repeat first [rewrite (slice_put_lo BLOCK_SIZE) by lens | rewrite (slice_put_at BLOCK_SIZE) by lens
    | rewrite (slice_put_hi BLOCK_SIZE) by lens | rewrite (drop_put_hi BLOCK_SIZE) by lens].
  rewrite <- H8, <- H10, <- H12, <- Hcnt, Htb, Hm, H40, !slice_zeros by lia. clear Htb. rewrite Hs.
  cbn [first_descriptor_index total_descriptor_count table_block_index table_block_count physical_block].
  unfold get_u16, get_u32, get_u64. rewrite !le_bytes_slice by (exact Hok || lia).
  rewrite drop_zeros, (drop_ge b) by lia. by replace (BLOCK_SIZE - _)%nat with 0%nat by lia.
Qed.

Lemma descriptor_validate_no_abort d sb : AllocationGroupDescriptor.validate d sb ≠ Abort.
Proof. unfold AllocationGroupDescriptor.validate. no_abort. Qed.
#[export] Hint Resolve descriptor_validate_no_abort : no_abort.
Lemma validate_descriptors_no_abort first sb i ds : validate_descriptors first sb i ds ≠ Abort.
Proof. revert i. induction ds as [|d ds IH]; intros i; cbn [validate_descriptors]; [done|]. no_abort. Qed.
#[export] Hint Resolve validate_descriptors_no_abort : no_abort.
Lemma table_validate_no_abort self sb : validate self sb ≠ Abort.
Proof. unfold validate. no_abort. Qed.
#[export] Hint Resolve table_validate_no_abort : no_abort.
Lemma decode_descriptors_no_abort b n i self : decode_descriptors b n i self ≠ Abort.
Proof.
  revert i self. induction n as [|n IH]; intros i self; cbn [decode_descriptors]; [done|].
  unfold AllocationGroupDescriptor.decode_from, push. no_abort.
Qed.
#[export] Hint Resolve decode_descriptors_no_abort : no_abort.

#[export] Instance table_codec sb : BlockCodec (λ a, encode a sb) (λ b, decode b sb) typed.
Proof.
  split.
  - intros a b Ht [Hv ->]%table_encode_Ok; [|done]. apply table_image_block; [apply Ht|by eapply validate_count].
  - intros a b Ht [_ ->]%table_encode_Ok; [|done]. apply table_image_ok.
  - intros a b Ht [Hv ->]%table_encode_Ok; [|done]. by apply table_decode_image.
  - intros a b Hb Hok (Ht & Hv & ->)%table_canonical; [|done..]. split; [|done]. by apply table_encode_Ok.
  - intros a. unfold encode. no_abort.
  - intros b. unfold decode. no_abort.
Qed.
End TableCodec.
