(* ===== verification/NullfsProps.v ===== *)
(** * Properties of the NullFS on-disk format

    The decoders of the superblock and of the journal records accept exactly the
    blocks that the encoders produce; a freshly formatted volume can be mounted
    for writing; bitmaps. *)

From stdpp Require Import base list numbers option.
From Stdlib Require Import ZArith Lia.
From S2P Require Import Prelude NullfsBytes NullfsPhase3 NullfsSuperblock.

Open Scope Z_scope.

(** A volume of 64 MiB. *)
Definition demo_options : FormatOptions.t := FormatOptions.new (4096 * 16384) (replicate 16 7) [110; 117; 108; 108].
Definition demo_superblock : Superblock.t := Eval vm_compute in
  match Superblock.format_phase3 demo_options with Ok s => s | _ => Superblock.mk 0 0 Clean Features.default [] [] 0 0 0 0 0 0 0 0 0 0 0 0 end.

Lemma demo_options_typed : Formatting.options_typed demo_options.
Proof.
  unfold Formatting.options_typed, is_u64, is_u32. cbn [FormatOptions.device_bytes FormatOptions.uuid
    FormatOptions.label FormatOptions.allocation_group_blocks FormatOptions.descriptor_reservation_blocks demo_options].
  split_and!; try done; repeat constructor; done.
Qed.

Lemma demo_formatted : Superblock.format_phase3 demo_options = Ok demo_superblock.
Proof. vm_compute. reflexivity. Qed.

(** A decoder that accepts exactly the encodings. *)
Lemma codec_exact `{BlockCodec A encode decode typed} a b : is_block b → bytes_ok b →
  decode b = Ok a ↔ typed a ∧ encode a = Ok b.
Proof.
  intros Hb Hok. split; [|intros [? ?]; by apply decode_encode].
  intros Hd. by destruct (decode_canonical a b Hb Hok Hd).
Qed.

(** C26. The three journal record decoders are exact: a block of bytes decodes to a
    tag, a control record or a filesystem state if and only if it is the encoding
    of that record, so any change of a byte that is accepted changes the record,
    and nothing but an encoded record is accepted. *)
Theorem journal_records_exact b : is_block b → bytes_ok b →
  (∀ tag, JournalTag.decode b = Ok tag ↔ JournalTag.typed tag ∧ JournalTag.encode tag = Ok b) ∧
  (∀ control, JournalControl.decode b = Ok control ↔
     JournalControl.typed control ∧ JournalControl.encode control = Ok b) ∧
  (∀ state, FilesystemState.decode b = Ok state ↔
     FilesystemState.typed state ∧ FilesystemState.encode state = Ok b).
Proof.
  intros Hb Hok. split_and!; intros a.
  - by apply (codec_exact (H := TagCodec.tag_codec)).
  - by apply (codec_exact (H := ControlCodec.control_codec)).
  - by apply (codec_exact (H := StateCodec.state_codec)).
Qed.

Definition demo_record : list Z := image (ControlCodec.updates (JournalControl.empty 1)).

Lemma journal_records_exact_witness :
  (∀ tag, JournalTag.decode demo_record = Ok tag ↔
     JournalTag.typed tag ∧ JournalTag.encode tag = Ok demo_record) ∧
  (∀ control, JournalControl.decode demo_record = Ok control ↔
     JournalControl.typed control ∧ JournalControl.encode control = Ok demo_record) ∧
  (∀ state, FilesystemState.decode demo_record = Ok state ↔
     FilesystemState.typed state ∧ FilesystemState.encode state = Ok demo_record).
Proof.
  apply (journal_records_exact demo_record).
  - apply image_block, ControlCodec.control_sealable.
  - apply image_ok, ControlCodec.control_sealable.
Defined.

(** C25. Decoding a superblock is exact in every mount mode: a block decodes to a
    superblock if and only if it is the encoding of that superblock, its features
    allow the mode, a writable mount finds it clean, and the device is large
    enough. *)
Theorem superblock_exact b device_bytes mode s : is_block b → bytes_ok b →
  Superblock.decode b device_bytes mode = Ok s ↔
  SuperblockCodec.typed s ∧ Superblock.encode s = Ok b ∧ SuperblockCodec.mode_ok s device_bytes mode.
Proof.
  intros Hb Hok. split.
  - intros Hd. destruct (SuperblockCodec.sb_canonical _ _ _ _ Hb Hok Hd) as [Ht He]. split_and!; [done..|].
    apply SuperblockCodec.superblock_decode_Ok in Hd as (_ & _ & Hv); [|done].
    by apply SuperblockCodec.validate_mode in Hv as [_ ?].
  - intros (Ht & He & Hm). rewrite (SuperblockCodec.sb_roundtrip _ _ _ _ Ht He).
    apply (SuperblockCodec.sb_encode_eq _ Ht) in He as [Hv _].
    by rewrite (proj2 (SuperblockCodec.validate_mode s device_bytes mode) (conj Hv Hm)).
Qed.

(** A volume that [format_phase3] lays out encodes to one block, and that
    block decodes for a writable mount of the same device to the same superblock,
    with the journal, the state block and the backup superblock at their fixed
    places below the first allocatable block. *)
Theorem formatted_volume_mounts o s :
  Formatting.options_typed o → Superblock.format_phase3 o = Ok s →
  ∃ b, Superblock.encode s = Ok b ∧ is_block b ∧
    Superblock.decode b (Some (FormatOptions.device_bytes o)) ReadWrite = Ok s ∧
    SuperblockCodec.geometry s.
Proof.
  intros Ho Hf. destruct (Formatting.format_phase3_valid o s Ho Hf) as (Ht & Hv & Hp).
  pose proof (proj1 (SuperblockCodec.validate_mode _ _ _) Hv) as [Hv0 _].
  exists (SuperblockCodec.image s).
  assert (Superblock.encode s = Ok (SuperblockCodec.image s)) as He by (by apply (SuperblockCodec.sb_encode_eq s Ht)).
  split_and!; [done|by apply SuperblockCodec.sb_image_block| |by eapply SuperblockCodec.validate_geometry].
  by rewrite (SuperblockCodec.sb_roundtrip _ _ _ _ Ht He), Hv.
Qed.

Lemma formatted_volume_mounts_witness :
  ∃ b, Superblock.encode demo_superblock = Ok b ∧ is_block b ∧
    Superblock.decode b (Some (FormatOptions.device_bytes demo_options)) ReadWrite = Ok demo_superblock ∧
    SuperblockCodec.geometry demo_superblock.
Proof. apply (formatted_volume_mounts demo_options); [apply demo_options_typed|apply demo_formatted]. Defined.

Lemma superblock_exact_witness :
  let b := SuperblockCodec.image demo_superblock in
  Superblock.decode b (Some (4096 * 16384)) ReadOnly = Ok demo_superblock ↔
  SuperblockCodec.typed demo_superblock ∧ Superblock.encode demo_superblock = Ok b ∧
  SuperblockCodec.mode_ok demo_superblock (Some (4096 * 16384)) ReadOnly.
Proof.
  pose proof (proj1 (Formatting.format_phase3_valid _ _ demo_options_typed demo_formatted)) as Ht.
  apply (superblock_exact (SuperblockCodec.image demo_superblock) (Some (4096 * 16384)) ReadOnly demo_superblock).
  - by apply SuperblockCodec.sb_image_block.
  - by apply SuperblockCodec.sb_image_ok.
Defined.

(** Setting a bit of a bitmap succeeds exactly when the bit lies in the
    bitmap, and then changes that bit and no other. *)
Theorem bitmap_set_exact bitmap bit value :
  match bitmap_set bitmap bit value with
  | Ok bitmap' => (bit / 8 < length bitmap)%nat ∧ length bitmap' = length bitmap ∧
      ∀ other, bitmap_test bitmap' other = if decide (other = bit) then Some value else bitmap_test bitmap other
  | Err e => (length bitmap ≤ bit / 8)%nat ∧ e = FormatError.BitmapOutOfBounds
  | Abort => False
  end.
Proof.
  pose proof (bitmap_set_spec bitmap bit value) as Hspec. unfold bitmap_set in *.
  destruct (bitmap !! (bit / 8)%nat) as [byte|] eqn:E; cbn [ok_or mbind outcome_bind] in *.
  - split; [by eapply lookup_lt_Some|]. split; [by eapply (Hspec _ bit)|]. intros other. by eapply Hspec.
  - split; [by apply lookup_ge_None|done].
Qed.

(** The tail check of a bitmap accepts exactly the bitmaps that have all their
    valid bits and no bit set beyond them. *)
Theorem bitmap_tail_exact bitmap valid_bits : bytes_ok bitmap → Z.of_nat valid_bits ≤ u64_max →
  validate_bitmap_tail bitmap valid_bits = Ok () ↔
  Z.of_nat valid_bits ≤ Z.of_nat (length bitmap) * 8 ∧
  ∀ bit, (valid_bits ≤ bit)%nat → bitmap_test bitmap bit ≠ Some true.
Proof.
  intros Hok Hmax. pose proof (validate_bitmap_tail_spec bitmap valid_bits Hok) as Hs.
  destruct (validate_bitmap_tail bitmap valid_bits) as [[]|e|]; cbn [wpo] in Hs; [done| |done].
  split; [done|]. intros [Hl Hc]. destruct Hs as [[_ ?]|[_ []]]; [lia|done].
Qed.

Lemma bitmap_tail_exact_witness :
  validate_bitmap_tail [255; 3; 0] 10 = Ok () ↔
  Z.of_nat 10 ≤ Z.of_nat 3 * 8 ∧ ∀ bit, (10 ≤ bit)%nat → bitmap_test [255; 3; 0] bit ≠ Some true.
Proof. apply (bitmap_tail_exact [255; 3; 0] 10); [repeat constructor; done|done]. Defined.
