(* ===== verification/BlockDevice.v ===== *)
(** * Block devices

    Models nullfs-blockdev/src/lib.rs: the [BlockDevice] trait as a type class,
    its checked address arithmetic, the memory device and the read-only adapter.
    [CrashSafe] states what the NullFS journal relies on in a device with a
    volatile write cache; [CrashDevice.v] shows that the crash-testing device of
    nullfs-testkit provides it. *)

From stdpp Require Import base list numbers option.
From Stdlib Require Import ZArith Lia.
From S2P Require Import Prelude NullfsBytes.

Open Scope Z_scope.

Module BlockDeviceError.
Inductive t :=
| InvalidBlockSize
| InvalidBufferLength
| OutOfBounds
| ReadOnly
| ArithmeticOverflow
| Io.
End BlockDeviceError.

(** [fn read_blocks(&mut self, first_block, buffer: &mut [u8])] returns the new
    contents of a buffer of the given length. *)
Class BlockDevice (D : Type) := {
  block_size : D → nat;
  block_count : D → Z;
  read_blocks : Z → nat → M D BlockDeviceError.t (list Z);
  write_blocks : Z → list Z → M D BlockDeviceError.t unit;
  flush : M D BlockDeviceError.t unit;
}.

(** [usize] is 64 bits wide, so [usize::try_from] a [u64] succeeds. *)
Definition checked_block_range (block_size : nat) (block_count first_block : Z) (buffer_length : nat)
    : outcome BlockDeviceError.t (Z * Z) :=
  _ ← err_if (block_size =? 0)%nat BlockDeviceError.InvalidBlockSize;
  _ ← err_if (negb (buffer_length mod block_size =? 0)%nat) BlockDeviceError.InvalidBufferLength;
  let transfer_blocks := Z.of_nat (buffer_length / block_size) in
  end_block ← ok_or (checked_add u64_max first_block transfer_blocks) BlockDeviceError.ArithmeticOverflow;
  _ ← err_if (block_count <? end_block) BlockDeviceError.OutOfBounds;
  start ← ok_or (checked_mul u64_max first_block (Z.of_nat block_size)) BlockDeviceError.ArithmeticOverflow;
  stop ← ok_or (checked_add u64_max start (Z.of_nat buffer_length)) BlockDeviceError.ArithmeticOverflow;
  mret (start, stop).

(** ** The memory device *)

Module MemoryBlockDevice.
Record t := mk {
  size : nat;
  count : Z;
  bytes : list Z;
}.

Definition new (block_size : nat) (block_count : Z) : outcome BlockDeviceError.t t :=
  _ ← err_if (block_size =? 0)%nat BlockDeviceError.InvalidBlockSize;
  length ← ok_or (checked_mul u64_max block_count (Z.of_nat block_size))
             BlockDeviceError.ArithmeticOverflow;
  mret (mk block_size block_count (zeros (Z.to_nat length))).

Definition read (first_block : Z) (len : nat) : M t BlockDeviceError.t (list Z) :=
  self ← get;
  range ← lift (checked_block_range (size self) (count self) first_block len);
  mret (slice (Z.to_nat range.1) len (bytes self)).

Definition write (first_block : Z) (buffer : list Z) : M t BlockDeviceError.t unit :=
  self ← get;
  range ← lift (checked_block_range (size self) (count self) first_block (length buffer));
  put (mk (size self) (count self) (put_bytes (bytes self) (Z.to_nat range.1) buffer)).

#[export] Instance memory_device : BlockDevice t := {|
  block_size := size;
  block_count := count;
  read_blocks := read;
  write_blocks := write;
  flush := mret ();
|}.
End MemoryBlockDevice.

(** ** The read-only adapter *)

Module ReadOnlyBlockDevice.
Section adapter.
Context {D : Type} {HD : BlockDevice D}.

Record t := mk { inner : D }.

Definition on_inner {A} (m : M D BlockDeviceError.t A) : M t BlockDeviceError.t A :=
  zoom inner (λ d _, mk d) id m.

#[export] Instance read_only_device : BlockDevice t := {|
  block_size := λ self, block_size (inner self);
  block_count := λ self, block_count (inner self);
  read_blocks := λ first_block len, on_inner (read_blocks first_block len);
  write_blocks := λ _ _, lift (Err BlockDeviceError.ReadOnly);
  flush := on_inner flush;
|}.
End adapter.
Arguments t : clear implicits.
End ReadOnlyBlockDevice.

(** ** Devices with a volatile cache

    [bd_now d b] is what a read of block [b] returns.  [bd_after d b x] says that
    block [b] may hold [x] when power fails in the state [d]: the contents of the
    last flush, or of any write since, in any order, or something [torn] written
    since.  A
    failed call leaves the device usable or not, but adds no other contents. *)

Class CrashSafe (D : Type) `{BlockDevice D} (torn : list Z → Prop) := {
  bd_ok : D → Prop;
  bd_now : D → Z → list Z;
  bd_after : D → Z → list Z → Prop;
  bd_read : ∀ d b, bd_ok d → 0 ≤ b →
    wp (read_blocks b BLOCK_SIZE)
      (λ x d', d' = d ∧ x = bd_now d b ∧ is_block x ∧ bytes_ok x) (λ _ d', d' = d) d;
  bd_write : ∀ d b x, bd_ok d → 0 ≤ b → is_block x → bytes_ok x →
    wp (write_blocks b x)
      (λ _ d', bd_ok d' ∧ (∀ c, bd_now d' c = if decide (c = b) then x else bd_now d c) ∧
               ∀ c y, bd_after d' c y → bd_after d c y ∨ c = b ∧ (y = x ∨ torn y))
      (λ _ d', bd_ok d' ∧ ∀ c y, bd_after d' c y → bd_after d c y ∨ c = b ∧ (y = x ∨ torn y)) d;
  bd_flush : ∀ d, bd_ok d →
    wp flush
      (λ _ d', bd_ok d' ∧ (∀ c, bd_now d' c = bd_now d c) ∧ ∀ c y, bd_after d' c y → y = bd_now d c)
      (λ _ d', bd_ok d' ∧ ∀ c y, bd_after d' c y → bd_after d c y) d;
}.

(** ** Blocks of a flat byte vector *)

Definition block_of (bytes : list Z) (c : Z) : list Z :=
  if c <? 0 then [] else slice (Z.to_nat (c * BLOCK_SIZE_U64)) BLOCK_SIZE bytes.

Lemma block_of_ok bytes c : bytes_ok bytes → bytes_ok (block_of bytes c).
Proof. intros H. unfold block_of. destruct (_ <? _); [constructor|by apply slice_ok]. Qed.

(** The range of one block lies within the device. *)
Lemma checked_block_range_one count b : 0 ≤ b →
  wpo (checked_block_range BLOCK_SIZE count b BLOCK_SIZE)
    (λ r, r.1 = b * 4096 ∧ b < count ∧ (b + 1) * 4096 ≤ u64_max) (λ _, True).
Proof.
  intros Hb. unfold checked_block_range. pose proof BLOCK_SIZE_Z as HZ. cbv zeta.
  wp_steps; try done. rewrite Nat.div_same in * by lia.
  repeat match goal with
  | H : checked_add _ _ _ = Some _ |- _ => apply checked_add_Some in H as [-> ?]
  end. unfold checked_mul in *. destruct (_ <=? _) eqn:E; [|done]. simplify_eq. bool_simpl. cbn. lia.
Qed.

Section flat.
Context (bytes : list Z) (count : Z) (Hlen : Z.of_nat (length bytes) = count * 4096).

Lemma block_of_block c : 0 ≤ c < count → is_block (block_of bytes c).
Proof using Hlen.
  intros Hc. unfold block_of, is_block, BLOCK_SIZE_U64. pose proof BLOCK_SIZE_Z.
  rewrite (proj2 (Z.ltb_ge _ _)) by lia. apply length_slice. lia.
Qed.

Lemma block_of_put b x c : 0 ≤ b < count → is_block x →
  block_of (put_bytes bytes (Z.to_nat (b * 4096)) x) c =
    if decide (c = b) then x else block_of bytes c.
Proof using Hlen.
  intros Hb Hx. unfold block_of, is_block, BLOCK_SIZE_U64 in *. pose proof BLOCK_SIZE_Z.
  destruct (decide (c = b)) as [->|Hne].
  - rewrite (proj2 (Z.ltb_ge _ _)) by lia. apply slice_put_same; lia.
  - destruct (c <? 0) eqn:E; [done|]. bool_simpl.
    destruct (decide (c < b)); [apply slice_put_before|apply slice_put_after]; lia.
Qed.

Lemma length_put_block b x : 0 ≤ b < count → is_block x →
  Z.of_nat (length (put_bytes bytes (Z.to_nat (b * 4096)) x)) = count * 4096.
Proof using Hlen.
  intros Hb Hx. unfold is_block in Hx. pose proof BLOCK_SIZE_Z. rewrite length_put_bytes; lia.
Qed.
End flat.

(** ** The memory device is crash-safe: it has no cache *)

Section memory.
Import MemoryBlockDevice.

Definition memory_ok (d : t) : Prop :=
  size d = BLOCK_SIZE ∧ Z.of_nat (length (bytes d)) = count d * 4096 ∧ bytes_ok (bytes d).

#[export] Instance memory_crash_safe torn : CrashSafe t torn.
Proof.
  refine {| bd_ok := memory_ok; bd_now := λ d c, block_of (bytes d) c;
            bd_after := λ d c y, y = block_of (bytes d) c |}.
  - intros d b (Hs & Hl & Hok) Hb. cbn [read_blocks memory_device]. unfold read. wp_steps. rewrite Hs.
    eapply wpo_mono; [by apply checked_block_range_one| |done]. intros r (Hr & Hc & _). wp_steps.
    assert (slice (Z.to_nat r.1) BLOCK_SIZE (bytes d) = block_of (bytes d) b) as Hx.
    { unfold block_of. rewrite (proj2 (Z.ltb_ge _ _)), Hr by lia. done. }
    rewrite Hx. split_and!; [done..|by eapply block_of_block|by apply block_of_ok].
  - intros d b x (Hs & Hl & Hok) Hb Hx Hbx. cbn [write_blocks memory_device]. unfold write. wp_steps.
    rewrite Hs, Hx.
    eapply wpo_mono; [by apply checked_block_range_one| |].
    + intros r (Hr & Hc & _). wp_steps. rewrite Hr.
      assert (∀ c, block_of (put_bytes (bytes d) (Z.to_nat (b * 4096)) x) c =
                     if decide (c = b) then x else block_of (bytes d) c) as Hp
        by (intros c; by apply (block_of_put _ _ Hl)).
      split_and!; [split_and!; [done|by apply length_put_block|by apply put_bytes_ok]|done|]. cbn. intros c y ->. rewrite Hp.
      destruct (decide (c = b)) as [->|]; [right; by split; [|left]|by left].
    + intros e _. split; [done|]. intros c y Hy. by left.
  - intros d Hd. cbn [flush memory_device]. wp_steps. by split_and!.
Defined.
End memory.
