(* ===== verification/CrashDevice.v ===== *)
(** * The crash-testing block device

    Models [CrashBlockDevice] of nullfs-testkit/src/lib.rs: a volatile image, a
    durable image, a configurable fault and the policies that decide which dirty
    data a failed flush makes durable.  The device wraps an arbitrary inner
    device.  [crash_device_safe] shows that, with whole-block persistence, it is
    [CrashSafe], so every theorem about the journal applies to it. *)

From stdpp Require Import base list numbers option sets.
From Stdlib Require Import ZArith Lia.
From S2P Require Import Prelude NullfsBytes BlockDevice.

Open Scope Z_scope.

Inductive PersistencePolicy :=
| Atomic
| DirtyBlockPrefix (blocks : nat) (torn_prefix_bytes : option nat)
| DirtyBlockSet (blocks : list Z) (torn_prefix_bytes : option nat)
| WritePrefix (writes : nat) (reverse : bool) (torn_prefix_bytes : option nat).

Record EpochBlockWrite := {
  ew_block : Z;
  ew_bytes : list Z;
}.

Module CrashBlockDevice.
Section device.
Context {D : Type} {HD : BlockDevice D}.

Record t := mk {
  inner : D;
  size : nat;
  count : Z;
  volatile : list Z;
  durable : list Z;
  operation_count : Z;
  fail_at : option Z;
  torn_write_prefix : option nat;
  policy : PersistencePolicy;
  dirty_blocks : list Z;
  epoch_writes : list EpochBlockWrite;
  last_persisted_blocks : list Z;
  crashed : bool;
}.

Definition Op A := M t BlockDeviceError.t A.

Definition set_inner d s := mk d (size s) (count s) (volatile s) (durable s) (operation_count s)
  (fail_at s) (torn_write_prefix s) (policy s) (dirty_blocks s) (epoch_writes s)
  (last_persisted_blocks s) (crashed s).
Definition set_volatile v s := mk (inner s) (size s) (count s) v (durable s) (operation_count s)
  (fail_at s) (torn_write_prefix s) (policy s) (dirty_blocks s) (epoch_writes s)
  (last_persisted_blocks s) (crashed s).
Definition set_durable v s := mk (inner s) (size s) (count s) (volatile s) v (operation_count s)
  (fail_at s) (torn_write_prefix s) (policy s) (dirty_blocks s) (epoch_writes s)
  (last_persisted_blocks s) (crashed s).
Definition set_operation_count n s := mk (inner s) (size s) (count s) (volatile s) (durable s) n
  (fail_at s) (torn_write_prefix s) (policy s) (dirty_blocks s) (epoch_writes s)
  (last_persisted_blocks s) (crashed s).
Definition set_dirty b w s := mk (inner s) (size s) (count s) (volatile s) (durable s)
  (operation_count s) (fail_at s) (torn_write_prefix s) (policy s) b w
  (last_persisted_blocks s) (crashed s).
Definition set_last_persisted l s := mk (inner s) (size s) (count s) (volatile s) (durable s)
  (operation_count s) (fail_at s) (torn_write_prefix s) (policy s) (dirty_blocks s) (epoch_writes s)
  l (crashed s).
Definition set_crashed c s := mk (inner s) (size s) (count s) (volatile s) (durable s)
  (operation_count s) (fail_at s) (torn_write_prefix s) (policy s) (dirty_blocks s) (epoch_writes s)
  (last_persisted_blocks s) c.

Definition on_inner {A} (m : M D BlockDeviceError.t A) : Op A := zoom inner set_inner id m.

(** [new] reads the whole inner device. *)
Definition new : M D BlockDeviceError.t t :=
  inner ← get;
  _ ← lift (err_if (block_size inner =? 0)%nat BlockDeviceError.InvalidBlockSize);
  length ← lift (ok_or (checked_mul u64_max (block_count inner) (Z.of_nat (block_size inner)))
                   BlockDeviceError.ArithmeticOverflow);
  durable ← read_blocks 0 (Z.to_nat length);
  inner' ← get;
  mret (mk inner' (block_size inner) (block_count inner) durable durable 0 None None Atomic [] [] [] false).

(** Configuration. *)
Definition fail_at_operation (operation : option Z) (s : t) : t :=
  mk (inner s) (size s) (count s) (volatile s) (durable s) (operation_count s) operation
    (torn_write_prefix s) (policy s) (dirty_blocks s) (epoch_writes s) (last_persisted_blocks s) (crashed s).
Definition set_torn_write_prefix (bytes : option nat) (s : t) : t :=
  mk (inner s) (size s) (count s) (volatile s) (durable s) (operation_count s) (fail_at s)
    bytes (policy s) (dirty_blocks s) (epoch_writes s) (last_persisted_blocks s) (crashed s).
Definition set_persistence_policy (p : PersistencePolicy) (s : t) : t :=
  mk (inner s) (size s) (count s) (volatile s) (durable s) (operation_count s) (fail_at s)
    (torn_write_prefix s) p (dirty_blocks s) (epoch_writes s) (last_persisted_blocks s) (crashed s).

Definition restart (s : t) : t := set_crashed false (set_dirty [] [] (set_volatile (durable s) s)).

Definition into_inner : Op D :=
  s ← get;
  _ ← on_inner (write_blocks 0 (durable s));
  _ ← on_inner flush;
  s' ← get;
  mret (inner s').

Definition persist_torn_prefix (start : Z) (buffer : list Z) (length : nat) : Op unit :=
  s ← get;
  let bs := Z.of_nat (size s) in
  let block_start := start / bs * bs in
  let block_number := block_start / bs in
  let block := put_bytes (slice (Z.to_nat block_start) (size s) (durable s)) 0 (take length buffer) in
  _ ← on_inner (write_blocks block_number block);
  _ ← on_inner flush;
  modify (λ s, set_last_persisted [block_number]
    (set_volatile (put_bytes (volatile s) (Z.to_nat block_start) block)
      (set_durable (put_bytes (durable s) (Z.to_nat block_start) block) s))).

Definition current_block (s : t) (block : Z) : EpochBlockWrite :=
  {| ew_block := block;
     ew_bytes := slice (Z.to_nat (block * Z.of_nat (size s))) (size s) (volatile s) |}.

Definition failed_flush_transitions (s : t) : list EpochBlockWrite * option nat :=
  match policy s with
  | Atomic => ([], None)
  | DirtyBlockPrefix blocks torn => (current_block s <$> take blocks (dirty_blocks s), torn)
  | DirtyBlockSet blocks torn =>
      (current_block s <$> filter (λ b, b ∈ dirty_blocks s) blocks, torn)
  | WritePrefix writes rev torn =>
      (take writes (if rev then reverse (epoch_writes s) else epoch_writes s), torn)
  end.

(** The loop over the transitions: returns [next_durable]. *)
Fixpoint persist_transitions (torn_prefix : option nat) (ts : list EpochBlockWrite) (next : list Z)
    : Op (list Z) :=
  match ts with
  | [] => mret next
  | tr :: ts =>
      s ← get;
      start ← lift (ok_or (checked_mul u64_max (ew_block tr) (Z.of_nat (size s)))
                      BlockDeviceError.ArithmeticOverflow);
      let length := Nat.min (default (size s) torn_prefix) (size s) in
      _ ← modify (λ s, if bool_decide (ew_block tr ∈ last_persisted_blocks s) then s
                       else set_last_persisted (push (last_persisted_blocks s) (ew_block tr)) s);
      persist_transitions torn_prefix ts
        (put_bytes next (Z.to_nat start) (take length (ew_bytes tr)))
  end.

Definition persist_failed_flush : Op unit :=
  s ← get;
  let '(transitions, torn_prefix) := failed_flush_transitions s in
  _ ← modify (set_last_persisted []);
  next ← persist_transitions torn_prefix transitions (durable s);
  s' ← get;
  _ ← (if (length (last_persisted_blocks s') =? 0)%nat then mret () else
         _ ← on_inner (write_blocks 0 next); on_inner flush);
  modify (set_durable next).

Definition operation_fails : Op bool :=
  s ← get;
  let operation := operation_count s in
  _ ← modify (set_operation_count (saturating_add u64_max operation 1));
  if bool_decide (fail_at s = Some operation) then _ ← modify (set_crashed true); mret true
  else mret false.

Definition read (first_block : Z) (len : nat) : Op (list Z) :=
  s ← get;
  _ ← lift (err_if (crashed s) BlockDeviceError.Io);
  range ← lift (checked_block_range (size s) (count s) first_block len);
  mret (slice (Z.to_nat range.1) len (volatile s)).

(** [for (offset, bytes) in buffer.chunks(block_size).enumerate()]; [fuel] bounds
    the number of chunks by the length of the buffer. *)
Fixpoint record_chunks (fuel : nat) (first_block : Z) (offset : nat) (buffer : list Z) : Op unit :=
  match fuel, buffer with
  | _, [] => mret ()
  | O, _ :: _ => lift Abort
  | S fuel, _ :: _ =>
      s ← get;
      block ← lift (ok_or (checked_add u64_max first_block (Z.of_nat offset))
                      BlockDeviceError.ArithmeticOverflow);
      _ ← modify (λ s, set_dirty
            (if bool_decide (block ∈ dirty_blocks s) then dirty_blocks s else push (dirty_blocks s) block)
            (push (epoch_writes s) {| ew_block := block; ew_bytes := take (size s) buffer |}) s);
      record_chunks fuel first_block (S offset) (drop (size s) buffer)
  end.

Definition write (first_block : Z) (buffer : list Z) : Op unit :=
  s ← get;
  range ← lift (checked_block_range (size s) (count s) first_block (length buffer));
  _ ← lift (err_if (crashed s) BlockDeviceError.Io);
  fails ← operation_fails;
  if fails : bool then
    _ ← match torn_write_prefix s with
        | Some prefix =>
            persist_torn_prefix range.1 buffer
              (Nat.min (Nat.min prefix (size s)) (length buffer))
        | None => mret ()
        end;
    lift (Err BlockDeviceError.Io)
  else
    _ ← modify (λ s, set_volatile (put_bytes (volatile s) (Z.to_nat range.1) buffer) s);
    record_chunks (length buffer) first_block 0 buffer.

Definition flush_ : Op unit :=
  s ← get;
  _ ← lift (err_if (crashed s) BlockDeviceError.Io);
  fails ← operation_fails;
  if fails : bool then
    _ ← persist_failed_flush; lift (Err BlockDeviceError.Io)
  else
    s ← get;
    _ ← on_inner (write_blocks 0 (volatile s));
    _ ← on_inner flush;
    modify (λ s, set_dirty [] [] (set_last_persisted (dirty_blocks s) (set_durable (volatile s) s))).

#[export] Instance crash_device : BlockDevice t := {|
  block_size := size;
  block_count := count;
  read_blocks := read;
  write_blocks := write;
  flush := flush_;
|}.

(** ** What the device guarantees *)

(** Whole-block persistence: nothing is torn. *)
Definition whole_blocks (s : t) : Prop :=
  torn_write_prefix s = None ∧
  match policy s with
  | Atomic => True
  | DirtyBlockPrefix _ torn | DirtyBlockSet _ torn | WritePrefix _ _ torn => torn = None
  end.

Definition pending (s : t) (c : Z) (y : list Z) : Prop :=
  ∃ w, w ∈ epoch_writes s ∧ ew_block w = c ∧ ew_bytes w = y.

Record ok (s : t) : Prop := {
  ok_size : size s = BLOCK_SIZE;
  ok_max : count s * 4096 ≤ u64_max;
  ok_volatile : Z.of_nat (length (volatile s)) = count s * 4096;
  ok_durable : Z.of_nat (length (durable s)) = count s * 4096;
  ok_writes : ∀ w, w ∈ epoch_writes s → 0 ≤ ew_block w < count s ∧ is_block (ew_bytes w) ∧ bytes_ok (ew_bytes w);
  ok_bytes : bytes_ok (volatile s) ∧ bytes_ok (durable s);
  ok_dirty : ∀ b, b ∈ dirty_blocks s → 0 ≤ b < count s;
  ok_now : ∀ c, (block_of (volatile s) c = block_of (durable s) c ∧ ∀ y, ¬ pending s c y) ∨
                pending s c (block_of (volatile s) c);
  ok_whole : whole_blocks s;
}.

Definition now (s : t) (c : Z) : list Z := block_of (volatile s) c.
Definition after (s : t) (c : Z) (y : list Z) : Prop := y = block_of (durable s) c ∨ pending s c y.

(** Two states that agree on everything the guarantees mention. *)
Record same_image (s s' : t) : Prop := {
  same_size : size s' = size s;
  same_count : count s' = count s;
  same_volatile : volatile s' = volatile s;
  same_durable : durable s' = durable s;
  same_writes : epoch_writes s' = epoch_writes s;
  same_dirty : dirty_blocks s' = dirty_blocks s;
  same_torn : torn_write_prefix s' = torn_write_prefix s;
  same_policy : policy s' = policy s;
}.

Lemma same_image_refl s : same_image s s.
Proof. by split. Qed.
Lemma same_image_trans s1 s2 s3 : same_image s1 s2 → same_image s2 s3 → same_image s1 s3.
Proof. intros [] []. split; congruence. Qed.
Lemma same_image_ok s s' : same_image s s' → ok s → ok s'.
Proof.
  intros [Hs Hc Hv Hd Hw Hb Ht Hp] []. split; unfold pending, whole_blocks in *;
    rewrite ?Hs, ?Hc, ?Hv, ?Hd, ?Hw, ?Hb, ?Ht, ?Hp; done.
Qed.
Lemma same_image_after s s' c y : same_image s s' → after s' c y → after s c y.
Proof. intros [Hs Hc Hv Hd Hw Hb Ht Hp]. unfold after, pending. by rewrite Hd, Hw. Qed.

(** The inner device may fail but does not panic. *)
Context (inner_write : ∀ d b x, (write_blocks (D := D) b x d).1 ≠ Abort).
Context (inner_flush : ∀ d, (flush (D := D) d).1 ≠ Abort).

Lemma inner_spec {A} (m : M D BlockDeviceError.t A) s : (∀ d, (m d).1 ≠ Abort) →
  wp (on_inner m) (λ _ s', same_image s s') (λ _ s', same_image s s') s.
Proof.
  intros Hm. unfold on_inner. apply wp_zoom. apply wp_intro; [apply Hm|intros; by split..].
Qed.

Lemma operation_fails_spec s :
  wp operation_fails (λ _ s', same_image s s') (λ _ _, False) s.
Proof. unfold operation_fails. wp_steps. destruct (bool_decide _); wp_steps; by split. Qed.

Definition fitting (n : Z) (w : EpochBlockWrite) : Prop :=
  0 ≤ ew_block w < n ∧ is_block (ew_bytes w) ∧ bytes_ok (ew_bytes w).

Lemma persist_transitions_spec ts next s n :
  size s = BLOCK_SIZE → Z.of_nat (length next) = n * 4096 → n * 4096 ≤ u64_max →
  bytes_ok next → (∀ w, w ∈ ts → fitting n w) →
  wp (persist_transitions None ts next)
    (λ next' s', same_image s s' ∧ Z.of_nat (length next') = n * 4096 ∧ bytes_ok next' ∧
       ∀ c, block_of next' c = block_of next c ∨
            ∃ w, w ∈ ts ∧ ew_block w = c ∧ ew_bytes w = block_of next' c)
    (λ _ _, False) s.
Proof.
  revert next s. induction ts as [|w ts IH]; intros next s Hs Hn Hmax Hok Hts; cbn [persist_transitions].
  { wp_steps. split_and!; [apply same_image_refl|done|done|by left]. }
  destruct (Hts w ltac:(set_solver)) as (Hb & Hx & Hbx). pose proof BLOCK_SIZE_Z as HZ. wp_steps.
  - rename a into start. unfold checked_mul in *. rewrite Hs, HZ in *.
    destruct (_ <=? _) eqn:E in *; [|done]. simplify_eq.
    cbn [default]. rewrite Nat.min_id, take_ge by (rewrite Hx; done).
    set (s1 := if bool_decide _ then s else _).
    assert (same_image s s1) as H1 by (subst s1; case_match; by split).
    eapply wp_mono; [apply IH| |done].
    + by rewrite (same_size _ _ H1).
    + by apply length_put_block.
    + done.
    + by apply put_bytes_ok.
    + intros w' Hw'. apply Hts. set_solver.
    + intros next' s' (Hs' & Hl & Hok' & Hc). split_and!; [by eapply same_image_trans|done|done|].
      intros c. destruct (Hc c) as [Heq|(w' & Hw' & ? & ?)]; [|right; exists w'; set_solver].
      rewrite (block_of_put _ _ Hn) in Heq by done.
      destruct (decide (c = ew_block w)) as [->|]; [right; exists w; set_solver|by left].
  - unfold checked_mul in *. rewrite Hs, HZ in *. destruct (_ <=? _) eqn:E in *; [done|]. bool_simpl. nia.
Qed.

Lemma transitions_fit s : ok s →
  (failed_flush_transitions s).2 = None ∧
  ∀ w, w ∈ (failed_flush_transitions s).1 → fitting (count s) w ∧ after s (ew_block w) (ew_bytes w).
Proof.
  intros Hok. pose proof (ok_whole _ Hok) as [_ Hw]. unfold failed_flush_transitions.
  assert (∀ b, b ∈ dirty_blocks s → fitting (count s) (current_block s b) ∧ after s b (ew_bytes (current_block s b))) as Hcur.
  { intros b Hb. pose proof (ok_dirty _ Hok b Hb) as Hr.
    assert (ew_bytes (current_block s b) = block_of (volatile s) b) as Heq.
    { unfold current_block, block_of. cbn. by rewrite (ok_size _ Hok), BLOCK_SIZE_Z, (proj2 (Z.ltb_ge _ _)) by lia. }
    unfold fitting. rewrite Heq. split; [split; [done|split; [by apply (block_of_block _ _ (ok_volatile _ Hok))|apply block_of_ok, Hok]]|].
    destruct (ok_now _ Hok b) as [[-> _]|]; [by left|by right]. }
  destruct (policy s) as [|k torn|bs torn|k rv torn]; cbn [fst snd]; (split; [done|]).
  - set_solver.
  - intros w (b & -> & (i & Hb & _)%elem_of_take)%list_elem_of_fmap. apply Hcur.
    by eapply list_elem_of_lookup_2.
  - intros w (b & -> & [Hb _]%list_elem_of_filter)%list_elem_of_fmap. by apply Hcur.
  - intros w (i & Hi%list_elem_of_lookup_2 & _)%elem_of_take.
    assert (w ∈ epoch_writes s) as Hin by (destruct rv; [by apply elem_of_reverse|done]).
    split; [by apply Hok|]. right. by exists w.
Qed.

Lemma persist_failed_flush_spec s : ok s →
  wp persist_failed_flush
    (λ _ s', ok s' ∧ ∀ c y, after s' c y → after s c y)
    (λ _ s', ok s' ∧ ∀ c y, after s' c y → after s c y) s.
Proof.
  intros Hok. destruct (transitions_fit s Hok) as [Hnone Hfit]. unfold persist_failed_flush. wp_steps.
  destruct (failed_flush_transitions s) as [ts torn]. cbn [fst snd] in *. subst torn. wp_steps.
  eapply wp_mono; [apply (persist_transitions_spec ts (durable s) _ (count s))| |done].
  - apply Hok.
  - apply Hok.
  - apply Hok.
  - apply Hok.
  - intros w Hw. by apply Hfit.
  - intros next s1 (H1 & Hl & Hbytes & Hc). assert (same_image s s1) as Hs1.
    { eapply same_image_trans; [|exact H1]. by split. }
    assert (∀ s2, same_image s1 s2 → ok (set_durable next s2) ∧
      ∀ c y, after (set_durable next s2) c y → after s c y) as Hdone.
    { intros s2 H2. assert (same_image s s2) as Hs2 by (by eapply same_image_trans).
      pose proof (same_image_ok _ _ Hs2 Hok) as Hok2.
      assert (∀ c, after s c (block_of next c)) as Hn.
      { intros c. destruct (Hc c) as [->|(w & Hw & <- & <-)]; [by left|]. by apply Hfit. }
      split.
      - destruct Hok2 as [H3 H4 H5 H6 H7 [H8 _] H8' H9 H10]. split; try done.
        + change (count (set_durable next s2)) with (count s2). by rewrite (same_count _ _ Hs2).
        + intros c. cbn [volatile durable set_durable]. destruct (H9 c) as [[Hv Hno]|]; [left|by right].
          split; [|done]. rewrite Hv, (same_durable _ _ Hs2).
          destruct (Hn c) as [<-|Hp]; [done|]. destruct (Hno (block_of next c)).
          unfold pending. by rewrite (same_writes _ _ Hs2).
      - intros c y [->|Hy]; cbn [durable set_durable]; [done|]. right.
        unfold pending in *. cbn [epoch_writes set_durable] in Hy. by rewrite (same_writes _ _ Hs2) in Hy. }
    wp_steps. destruct (_ =? 0)%nat; wp_steps; [apply Hdone, same_image_refl|].
    eapply wp_mono; [apply (inner_spec (write_blocks 0 next)); intros; apply inner_write| |].
    + intros ? s2 H2. eapply wp_mono; [apply (inner_spec flush); intros; apply inner_flush| |].
      * intros ? s3 H3. wp_steps. apply Hdone. exact (same_image_trans _ _ _ H2 H3).
      * intros ? s3 H3. pose proof (same_image_trans _ _ _ Hs1 (same_image_trans _ _ _ H2 H3)) as Hs3.
        split; [by eapply same_image_ok|]. intros c y. by apply same_image_after.
    + intros ? s2 H2. pose proof (same_image_trans _ _ _ Hs1 H2) as Hs2.
      split; [by eapply same_image_ok|]. intros c y. by apply same_image_after.
Qed.

Lemma now_block s c : ok s → 0 ≤ c < count s → is_block (now s c).
Proof. intros Hok. apply (block_of_block _ _ (ok_volatile _ Hok)). Qed.

(** One whole block is one chunk. *)
Lemma record_one s b x n : size s = BLOCK_SIZE → is_block x → 0 ≤ b ≤ u64_max → (0 < n)%nat →
  wp (record_chunks n b 0 x)
    (λ _ s', s' = set_dirty (if bool_decide (b ∈ dirty_blocks s) then dirty_blocks s
                             else push (dirty_blocks s) b)
                   (push (epoch_writes s) {| ew_block := b; ew_bytes := x |}) s)
    (λ _ _, False) s.
Proof.
  intros Hs Hx Hb Hn. pose proof BLOCK_SIZE_Z. destruct n as [|n]; [lia|].
  destruct x as [|z x]; [unfold is_block in Hx; cbn in Hx; lia|]. cbn [record_chunks].
  unfold is_block in Hx. rewrite <- Hs in Hx. wp_steps.
  - match goal with H : checked_add _ _ _ = Some _ |- _ => apply checked_add_Some in H as [-> _] end.
    rewrite Z.add_0_r, take_ge, drop_ge by (by rewrite Hx).
    destruct n; cbn [record_chunks]; by wp_steps.
  - match goal with H : checked_add _ _ _ = None |- _ => unfold checked_add in H end.
    destruct (_ <=? _) eqn:E in *; [done|]. bool_simpl. lia.
Qed.

Lemma ok_written s b x : ok s → 0 ≤ b < count s → is_block x → bytes_ok x →
  ok (set_dirty (if bool_decide (b ∈ dirty_blocks s) then dirty_blocks s else push (dirty_blocks s) b)
       (push (epoch_writes s) {| ew_block := b; ew_bytes := x |})
       (set_volatile (put_bytes (volatile s) (Z.to_nat (b * 4096)) x) s)).
Proof.
  intros Hok Hb Hx Hbx. pose proof (ok_volatile _ Hok) as Hv. split; cbn; try apply Hok.
  - by apply length_put_block.
  - unfold push. intros w [Hw| ->%list_elem_of_singleton]%elem_of_app; [by apply Hok|done].
  - split; [by apply put_bytes_ok; [apply Hok|]|apply Hok].
  - intros c. case_bool_decide; [apply Hok|].
    unfold push. intros [Hc| ->%list_elem_of_singleton]%elem_of_app; [by apply Hok|done].
  - intros c. rewrite (block_of_put _ _ Hv) by done. unfold pending, push. cbn.
    setoid_rewrite elem_of_app. setoid_rewrite list_elem_of_singleton.
    destruct (decide (c = b)) as [->|Hne]; [right; eexists; split; [by right|done]|].
    destruct (ok_now _ Hok c) as [[-> Hno]|(w & Hw & Hc)]; [left|right; by exists w; split; [left|]].
    split; [done|]. intros y (w & [Hw| ->] & Hc & Hy); [|done].
    apply (Hno y). by exists w.
Qed.

#[export] Instance crash_device_safe : CrashSafe t (λ _, False).
Proof.
  refine {| bd_ok := ok; bd_now := now; bd_after := after |}.
  - intros s b Hok Hb. cbn [read_blocks crash_device]. unfold read. wp_steps; [done|].
    rewrite (ok_size _ Hok). eapply wpo_mono; [by apply checked_block_range_one| |done].
    intros r (Hr & Hc & _). wp_steps.
    assert (slice (Z.to_nat r.1) BLOCK_SIZE (volatile s) = now s b) as Hx.
    { unfold now, block_of. by rewrite (proj2 (Z.ltb_ge _ _)), Hr by lia. }
    rewrite Hx. split_and!; [done..|by apply now_block|apply block_of_ok, Hok].
  - intros s b x Hok Hb Hx Hbx. cbn [write_blocks crash_device]. unfold write. wp_steps.
    rewrite (ok_size _ Hok), Hx. eapply wpo_mono; [by apply checked_block_range_one| |].
    2:{ intros e _. split; [done|]. intros c y Hy. by left. }
    intros r (Hr & Hc & Hmax). wp_steps; [split; [done|]; intros c y Hy; by left|].
    eapply wp_mono; [apply operation_fails_spec| |done]. intros fails s1 H1.
    pose proof (same_image_ok _ _ H1 Hok) as Hok1. destruct fails; wp_steps.
    + destruct (ok_whole _ Hok) as [-> _]. wp_steps. split; [done|].
      intros c y Hy. left. by eapply same_image_after.
    + rewrite Hr. pose proof BLOCK_SIZE_Z.
      eapply wp_mono; [apply record_one; [apply Hok1|done|lia|unfold is_block in Hx; lia]| |done].
      intros _ s2 ->. cbn [dirty_blocks epoch_writes set_volatile].
      assert (0 ≤ b < count s1) as Hb1 by (rewrite (same_count _ _ H1); lia).
      split_and!; [by apply ok_written| |].
      * intros c. unfold now. cbn [volatile set_dirty set_volatile].
        by rewrite (block_of_put _ _ (ok_volatile _ Hok1)), (same_volatile _ _ H1).
      * intros c y [->|(w & Hw & Hc' & Hy)]; [left; left; cbn; by rewrite (same_durable _ _ H1)|].
        cbn in Hw. unfold push in Hw.
        apply elem_of_app in Hw as [Hw| ->%list_elem_of_singleton]; [|by right; split; [|left]].
        left. right. exists w. by rewrite <- (same_writes _ _ H1).
  - intros s Hok. cbn [flush crash_device]. unfold flush_. wp_steps; [by split|].
    eapply wp_mono; [apply operation_fails_spec| |done]. intros fails s1 H1.
    pose proof (same_image_ok _ _ H1 Hok) as Hok1. destruct fails; wp_steps.
    + assert (∀ s', ok s' ∧ (∀ c y, after s' c y → after s1 c y) →
        ok s' ∧ ∀ c y, after s' c y → after s c y) as Hgo.
      { intros s' [? Ha]. split; [done|]. intros c y Hy. by eapply same_image_after, Ha. }
      eapply wp_mono; [by apply persist_failed_flush_spec|intros; wp_steps|intros]; by apply Hgo.
    + eapply wp_mono; [apply (inner_spec (write_blocks 0 (volatile s1))); intros; apply inner_write| |].
      2:{ intros ? s2 H2. pose proof (same_image_trans _ _ _ H1 H2) as Hs2.
          split; [by eapply same_image_ok|]. intros c y. by apply same_image_after. }
      intros ? s2 H2. cbv beta in H2. wp_steps.
      eapply wp_mono; [apply (inner_spec flush); intros; apply inner_flush| |].
      2:{ intros ? s3 H3. pose proof (same_image_trans _ _ _ H1 (same_image_trans _ _ _ H2 H3)) as Hs3.
          split; [by eapply same_image_ok|]. intros c y. by apply same_image_after. }
      intros ? s3 H3. pose proof (same_image_trans _ _ _ H1 (same_image_trans _ _ _ H2 H3)) as Hs3.
      pose proof (same_image_ok _ _ Hs3 Hok) as Hok3. wp_steps. split_and!.
      * destruct Hok3 as [? ? ? ? ? [? ?] ? ? ?]. split; cbn; try done; [set_solver|set_solver|].
        intros c. left. split; [done|]. intros y (w & Hw & _). set_solver.
      * intros c. unfold now. cbn. by rewrite (same_volatile _ _ Hs3).
      * intros c y [->|(w & Hw & _)]; [|set_solver]. unfold now. cbn. by rewrite (same_volatile _ _ Hs3).
Defined.

(** A restarted device holds exactly what was durable. *)
Lemma restart_fresh s : ok s →
  ok (restart s) ∧ crashed (restart s) = false ∧
  ∀ c, now (restart s) c = block_of (durable s) c ∧
       ∀ y, after (restart s) c y → y = now (restart s) c.
Proof.
  intros [? ? ? ? ? [? ?] ? ? ?]. split_and!; [|done|].
  - split; cbn; try done; [set_solver|set_solver|]. intros c. left. split; [done|].
    intros y (w & Hw & _). set_solver.
  - intros c. split; [done|]. intros y [->|(w & Hw & _)]; [done|set_solver].
Qed.
End device.
Arguments t : clear implicits.
End CrashBlockDevice.
