(* ===== verification/Journal.v ===== *)
(** * The NullFS redo journal

    Models nullfs-core/src/journal.rs and the journal-facing part of
    nullfs-core/src/lib.rs (the [Filesystem] record, [read_block], [read_state],
    [sync]): staging of whole-block after-images, the four-step commit
    (entries, commit record, home blocks, empty record, with a flush after
    each), and recovery at mount.  The device is any [BlockDevice]; the lemmas
    assume [CrashSafe]. *)

From stdpp Require Import base list numbers option sets.
From Stdlib Require Import ZArith Lia.
From S2P Require Import Prelude NullfsBytes NullfsPhase3 NullfsSuperblock NullfsInode NullfsAllocation.
From S2P Require Import BlockDevice.

Open Scope Z_scope.

Module FsError.
Inductive t :=
| Device (e : BlockDeviceError.t)
| Format (e : FormatError.t)
| Phase2Required
| InvalidNode
| InvalidName
| NotFound
| NotDirectory
| IsDirectory
| UnsupportedNodeKind
| InvalidCookie
| CorruptVolume
| ArithmeticOverflow
| Phase3Required
| RedundantSuperblocksDisagree
| CorruptJournal
| ProtectedBlock
| TransactionTooLarge
| ReadOnly
| Poisoned
| AlreadyExists
| NoSpace
| ExtentLimit
| DirectoryNotEmpty
| DirectoryCycle
| TransactionInProgress
| InvalidHandle
| RecoveryRequired.
End FsError.

Inductive RuntimeMountMode := RuntimeReadOnly | RuntimeReadWrite.
#[global] Instance RuntimeMountMode_eq_dec : EqDecision RuntimeMountMode.
Proof. solve_decision. Defined.

Record StagedBlock := {
  sb_target : Z;
  sb_image : list Z;
}.

(** ** Transactions *)

Module Transaction.
Record t := mk {
  id : Z;
  state : FilesystemState.t;
  updates : list StagedBlock;
}.

Definition new (id : Z) (state : FilesystemState.t) : t := mk id state [].

Definition targets (b : Z) (u : StagedBlock) : bool := sb_target u =? b.

Definition stage (target : Z) (image : list Z) : M t FsError.t unit :=
  self ← get;
  match position (targets target) (updates self) with
  | Some i =>
      put (mk (id self) (state self)
             (<[i := {| sb_target := target; sb_image := image |}]> (updates self)))
  | None =>
      _ ← lift (err_if (PHASE3_MAX_UPDATES - 1 <=? length (updates self))%nat FsError.TransactionTooLarge);
      put (mk (id self) (state self)
             (push (updates self) {| sb_target := target; sb_image := image |}))
  end.

Definition staged (self : t) (target : Z) : option (list Z) :=
  sb_image <$> List.find (targets target) (updates self).
End Transaction.

(** ** The mounted filesystem *)

(** An open node; [NodeId] is its number. *)
Module OpenHandle.
Record t := mk {
  id : Z;
  node : Z;
  generation : Z;
  kind : NodeKind.t;
}.
#[global] Instance t_eq_dec : EqDecision t.
Proof. solve_decision. Defined.
End OpenHandle.

Record Filesystem (D : Type) := {
  device : D;
  superblock : Superblock.t;
  groups : list AllocationGroupDescriptor.t;
  mount_mode : RuntimeMountMode;
  state : option FilesystemState.t;
  journal_generation : Z;
  older_control_slot : Z;
  poisoned : bool;
  transaction : option Transaction.t;
  open_handles : list OpenHandle.t;
  next_handle_id : Z;
  recovery_overlay : list (Z * list Z);
}.
Arguments device {D} _.
Arguments superblock {D} _.
Arguments groups {D} _.
Arguments mount_mode {D} _.
Arguments state {D} _.
Arguments journal_generation {D} _.
Arguments older_control_slot {D} _.
Arguments poisoned {D} _.
Arguments transaction {D} _.
Arguments open_handles {D} _.
Arguments next_handle_id {D} _.
Arguments recovery_overlay {D} _.

(** The choice between the two decoded controls. *)
Definition choose_control (decoded0 decoded1 : option JournalControl.t)
    : outcome FsError.t (JournalControl.t * Z) :=
  match decoded0, decoded1 with
  | None, None => Err FsError.CorruptJournal
  | Some control, None => Ok (control, 0)
  | None, Some control => Ok (control, 1)
  | Some l, Some r =>
      if (JournalControl.generation l =? JournalControl.generation r)
         && negb (bool_decide (l = r)) then Err FsError.CorruptJournal
      else if JournalControl.generation r <=? JournalControl.generation l then Ok (l, 0)
      else Ok (r, 1)
  end.

(** [Result::ok] *)
Definition ok_of {E A} (o : outcome E A) : option A :=
  match o with Ok a => Some a | _ => None end.

Section filesystem.
Context {D : Type} {HD : BlockDevice D}.
Notation fs := (Filesystem D).
Notation Op := (M fs FsError.t).

Definition set_device (d : D) (s : fs) : fs :=
  Build_Filesystem D d (superblock s) (groups s) (mount_mode s) (state s)
    (journal_generation s) (older_control_slot s) (poisoned s) (transaction s)
    (open_handles s) (next_handle_id s) (recovery_overlay s).
Definition set_superblock (sb : Superblock.t) (s : fs) : fs :=
  Build_Filesystem D (device s) sb (groups s) (mount_mode s) (state s)
    (journal_generation s) (older_control_slot s) (poisoned s) (transaction s)
    (open_handles s) (next_handle_id s) (recovery_overlay s).
Definition set_state (st : option FilesystemState.t) (s : fs) : fs :=
  Build_Filesystem D (device s) (superblock s) (groups s) (mount_mode s) st
    (journal_generation s) (older_control_slot s) (poisoned s) (transaction s)
    (open_handles s) (next_handle_id s) (recovery_overlay s).
Definition set_journal (generation slot : Z) (s : fs) : fs :=
  Build_Filesystem D (device s) (superblock s) (groups s) (mount_mode s) (state s)
    generation slot (poisoned s) (transaction s)
    (open_handles s) (next_handle_id s) (recovery_overlay s).
Definition set_poisoned (p : bool) (s : fs) : fs :=
  Build_Filesystem D (device s) (superblock s) (groups s) (mount_mode s) (state s)
    (journal_generation s) (older_control_slot s) p (transaction s)
    (open_handles s) (next_handle_id s) (recovery_overlay s).
Definition set_transaction (tx : option Transaction.t) (s : fs) : fs :=
  Build_Filesystem D (device s) (superblock s) (groups s) (mount_mode s) (state s)
    (journal_generation s) (older_control_slot s) (poisoned s) tx
    (open_handles s) (next_handle_id s) (recovery_overlay s).
Definition set_handles (l : list OpenHandle.t) (next : Z) (s : fs) : fs :=
  Build_Filesystem D (device s) (superblock s) (groups s) (mount_mode s) (state s)
    (journal_generation s) (older_control_slot s) (poisoned s) (transaction s)
    l next (recovery_overlay s).
Definition set_overlay (o : list (Z * list Z)) (s : fs) : fs :=
  Build_Filesystem D (device s) (superblock s) (groups s) (mount_mode s) (state s)
    (journal_generation s) (older_control_slot s) (poisoned s) (transaction s)
    (open_handles s) (next_handle_id s) o.

(** The record that [try_mount_with_mode] builds before [finish_mount]. *)
Definition mount_start (device : D) (superblock : Superblock.t) (groups : list AllocationGroupDescriptor.t)
    (mount_mode : RuntimeMountMode) : fs :=
  Build_Filesystem D device superblock groups mount_mode None 0 0 false None [] 1 [].

(** [self.device.op(..)?] and a format operation followed by [?]. *)
Definition on_device {A} (m : M D BlockDeviceError.t A) : Op A := zoom device set_device FsError.Device m.
Definition on_format {A} (o : outcome FormatError.t A) : Op A := lift (map_err FsError.Format o).

Definition ensure_writable : Op unit :=
  reads (λ s, if poisoned s then Err FsError.Poisoned
              else if bool_decide (mount_mode s = RuntimeReadWrite) then Ok ()
              else Err FsError.ReadOnly).

Definition home_target (sb : Superblock.t) (target : Z) : outcome FsError.t unit :=
  err_if ((target <? Superblock.first_allocatable_block sb) || (Superblock.capacity_blocks sb <=? target))
    FsError.ProtectedBlock.
Definition ensure_home_target (target : Z) : Op unit := reads (λ s, home_target (superblock s) target).

Definition ensure_home_target_or_state (target : Z) : Op unit :=
  reads (λ s, if target =? Superblock.filesystem_state_block (superblock s) then Ok ()
              else home_target (superblock s) target).

Definition begin_transaction : Op unit :=
  _ ← ensure_writable;
  s ← get;
  match transaction s with
  | Some _ => mret ()
  | None =>
      state ← lift (ok_or (state s) FsError.CorruptVolume);
      modify (set_transaction
        (Some (Transaction.new (FilesystemState.next_transaction_id state) state)))
  end.

Definition stage_block (target : Z) (image : list Z) : Op unit :=
  _ ← ensure_home_target target;
  _ ← begin_transaction;
  s ← get;
  tx ← lift (ok_or (transaction s) FsError.CorruptVolume);
  zoom (λ _, tx) (λ tx, set_transaction (Some tx)) id (Transaction.stage target image).

(** The journal area: two controls, then the tags, then the images. *)
Definition control_block (sb : Superblock.t) (slot : Z) : Z := Superblock.journal_first_block sb + slot.
Definition tag_block (sb : Superblock.t) (index : nat) : Z :=
  Superblock.journal_first_block sb + 2 + Z.of_nat index.
Definition image_block (sb : Superblock.t) (index : nat) : Z :=
  Superblock.journal_first_block sb + 2 + Z.of_nat PHASE3_MAX_UPDATES + Z.of_nat index.

(** [for (index, update) in transaction.updates.iter().enumerate()] *)
Fixpoint write_entries (id : Z) (index : nat) (updates : list StagedBlock) (tags : list JournalTag.t)
    : Op (list JournalTag.t) :=
  match updates with
  | [] => mret tags
  | update :: updates =>
      _ ← ensure_home_target_or_state (sb_target update);
      tag ← on_format (JournalTag.new id (Z.of_nat index) (sb_target update) (sb_image update));
      encoded ← on_format (JournalTag.encode tag);
      s ← get;
      _ ← on_device (write_blocks (tag_block (superblock s) index) encoded);
      _ ← on_device (write_blocks (image_block (superblock s) index) (sb_image update));
      write_entries id (S index) updates (push tags tag)
  end.

(** [for .. in .. { self.device.write_blocks(target, image)?; }] *)
Definition write_home (pairs : list (Z * list Z)) : Op unit :=
  for_each pairs (λ p, on_device (write_blocks p.1 p.2)).

Definition pair_of (u : StagedBlock) : Z * list Z := (sb_target u, sb_image u).

Definition commit_updates (tx : Transaction.t) (new_state : FilesystemState.t) : Op unit :=
  tags ← write_entries (Transaction.id tx) 0 (Transaction.updates tx) [];
  _ ← on_device flush;
  s ← get;
  committed_generation ← on_format (next_generation (journal_generation s));
  committed ← on_format (JournalControl.committed committed_generation (Transaction.id tx) tags);
  let older_slot := older_control_slot s in
  encoded ← on_format (JournalControl.encode committed);
  _ ← on_device (write_blocks (control_block (superblock s) older_slot) encoded);
  _ ← on_device flush;
  _ ← write_home (pair_of <$> Transaction.updates tx);
  _ ← on_device flush;
  empty_generation ← on_format (next_generation committed_generation);
  let empty := JournalControl.empty empty_generation in
  let newer_slot := 1 - older_slot in
  encoded ← on_format (JournalControl.encode empty);
  _ ← on_device (write_blocks (control_block (superblock s) newer_slot) encoded);
  _ ← on_device flush;
  modify (λ s, set_journal empty_generation older_slot (set_state (Some new_state) s)).

Definition commit_transaction : Op unit :=
  _ ← ensure_writable;
  s ← get;
  match transaction s with
  | None => mret ()
  | Some tx =>
      _ ← modify (set_transaction None);
      old_state ← lift (ok_or (state s) FsError.CorruptVolume);
      generation ← on_format (next_generation (FilesystemState.generation old_state));
      next_id ← on_format (next_transaction_id (Transaction.id tx));
      let st := Transaction.state tx in
      let new_state := FilesystemState.mk generation next_id (FilesystemState.orphan_head st)
        (FilesystemState.free_block_count st) (FilesystemState.free_inode_count st) in
      state_image ← on_format (FilesystemState.encode new_state);
      let state_block := Superblock.filesystem_state_block (superblock s) in
      _ ← lift (err_if (bool_decide (is_Some (Transaction.staged tx state_block))) FsError.ProtectedBlock);
      tx ← (λ s, let '(o, tx') := Transaction.stage state_block state_image tx in
                 (match o with Ok _ => Ok tx' | Err e => Err e | Abort => Abort end, s));
      try_catch (commit_updates tx new_state) (λ _, mret ())
        (λ e, _ ← modify (set_poisoned true); lift (Err e))
  end.

Definition select_control : Op (JournalControl.t * Z) :=
  s ← get;
  bytes0 ← on_device (read_blocks (control_block (superblock s) 0) BLOCK_SIZE);
  bytes1 ← on_device (read_blocks (control_block (superblock s) 1) BLOCK_SIZE);
  lift (choose_control (ok_of (JournalControl.decode bytes0)) (ok_of (JournalControl.decode bytes1))).

(** [for index in 0..count]: [n] entries are still to be read. *)
Fixpoint read_entries (n index : nat) (tags : list JournalTag.t) (images : list (list Z))
    : Op (list JournalTag.t * list (list Z)) :=
  match n with
  | O => mret (tags, images)
  | S n =>
      s ← get;
      bytes ← on_device (read_blocks (tag_block (superblock s) index) BLOCK_SIZE);
      tag ← on_format (JournalTag.decode bytes);
      _ ← ensure_home_target_or_state (JournalTag.target_home_block tag);
      _ ← lift (err_if (any (λ prior, JournalTag.target_home_block prior
                                      =? JournalTag.target_home_block tag) tags) FsError.CorruptJournal);
      bytes ← on_device (read_blocks (image_block (superblock s) index) BLOCK_SIZE);
      _ ← lift (err_if (negb (JournalTag.image_matches tag bytes)) FsError.CorruptJournal);
      read_entries n (S index) (push tags tag) (push images bytes)
  end.

(** [tags.iter().zip(&images).filter(..)]: exactly one image for the state block. *)
Definition state_image (state_target : Z) (tags : list JournalTag.t) (images : list (list Z))
    : outcome FsError.t (list Z) :=
  match List.filter (λ p, JournalTag.target_home_block p.1 =? state_target) (zip tags images) with
  | [] => Err FsError.CorruptJournal
  | [(_, image)] => Ok image
  | _ :: _ :: _ => Err FsError.CorruptJournal
  end.

Definition home_pairs (tags : list JournalTag.t) (images : list (list Z)) : list (Z * list Z) :=
  (λ p, (JournalTag.target_home_block p.1, p.2)) <$> zip tags images.

Definition recover_journal : Op unit :=
  cs ← select_control;
  let '(control, slot) := cs in
  _ ← modify (set_journal (JournalControl.generation control) (1 - slot));
  if bool_decide (JournalControl.state control = Empty) then mret () else
  entries ← read_entries (Z.to_nat (JournalControl.update_count control)) 0 [] [];
  let '(tags, images) := entries in
  _ ← on_format (JournalControl.validate_tags control tags);
  s ← get;
  let state_target := Superblock.filesystem_state_block (superblock s) in
  image ← lift (state_image state_target tags images);
  recovered_state ← on_format (FilesystemState.decode image);
  old_state_image ← on_device (read_blocks state_target BLOCK_SIZE);
  old_state ← on_format (FilesystemState.decode old_state_image);
  next_id ← on_format (next_transaction_id (JournalControl.transaction_id control));
  _ ← lift (err_if (negb (FilesystemState.next_transaction_id recovered_state =? next_id)
                    || (FilesystemState.generation recovered_state <? FilesystemState.generation old_state))
              FsError.CorruptJournal);
  if bool_decide (mount_mode s = RuntimeReadOnly) then
    modify (λ s, set_state (Some recovered_state) (set_overlay (home_pairs tags images) s))
  else
  _ ← write_home (home_pairs tags images);
  _ ← on_device flush;
  empty_generation ← on_format (next_generation (JournalControl.generation control));
  let empty := JournalControl.empty empty_generation in
  let publish_slot := 1 - slot in
  encoded ← on_format (JournalControl.encode empty);
  _ ← on_device (write_blocks (control_block (superblock s) publish_slot) encoded);
  _ ← on_device flush;
  modify (set_journal empty_generation slot).

(** ** Reading through the transaction and the recovery overlay *)

Definition read_block (physical : Z) : Op (list Z) :=
  s ← get;
  match tx ← transaction s; Transaction.staged tx physical with
  | Some image => mret image
  | None =>
      match List.find (λ p, p.1 =? physical) (recovery_overlay s) with
      | Some (_, image) => mret image
      | None => on_device (read_blocks physical BLOCK_SIZE)
      end
  end.

Definition read_state : Op unit :=
  s ← get;
  block ← on_device (read_blocks (Superblock.filesystem_state_block (superblock s)) BLOCK_SIZE);
  st ← on_format (FilesystemState.decode block);
  modify (set_state (Some st)).

Definition sync : Op unit :=
  _ ← ensure_writable;
  _ ← commit_transaction;
  try_catch (on_device flush) (λ _, mret ())
    (λ e, _ ← modify (set_poisoned true); lift (Err e)).
End filesystem.
