(* ===== verification/JournalDisk.v ===== *)
(** * Disks under the NullFS journal

    What a disk stands for: the home blocks that recovery makes of it.  The
    lemmas follow the four steps of a commit and describe every disk that a
    power failure may leave in each of them. *)

From stdpp Require Import base list numbers option sets.
From Stdlib Require Import ZArith Lia.
From S2P Require Import Prelude NullfsBytes NullfsPhase3 NullfsSuperblock BlockDevice Journal.

Open Scope Z_scope.

(** A disk is the contents of every block.  [stands m h]: recovery on the disk
    [m] yields the home blocks of [h], either because the journal is empty and
    [m] holds them, or because a complete committed transaction turns the home
    blocks of [m] into them. *)

Notation disk := (Z → list Z).

Definition upd (m : disk) (b : Z) (x : list Z) : disk := λ c, if decide (c = b) then x else m c.

Definition is_home (sb : Superblock.t) (b : Z) : Prop :=
  b = Superblock.filesystem_state_block sb ∨
  Superblock.first_allocatable_block sb ≤ b < Superblock.capacity_blocks sb.

(** The blocks outside the journal: those, and the ones before it. *)
Definition kept (sb : Superblock.t) (b : Z) : Prop := is_home sb b ∨ b < Superblock.journal_first_block sb.

Definition control_at (sb : Superblock.t) (m : disk) (slot : Z) : option JournalControl.t :=
  ok_of (JournalControl.decode (m (control_block sb slot))).

Definition chosen (sb : Superblock.t) (m : disk) : outcome FsError.t (JournalControl.t * Z) :=
  choose_control (control_at sb m 0) (control_at sb m 1).

(** What a transaction makes of the block [b] that held [x]. *)
Definition after_image (ups : list StagedBlock) (b : Z) (x : list Z) : list Z :=
  match List.find (Transaction.targets b) ups with Some u => sb_image u | None => x end.

Definition tag_for (id : Z) (index : nat) (u : StagedBlock) : JournalTag.t :=
  JournalTag.mk id (sb_target u) (crc32c (sb_image u)) (Z.of_nat index).
Definition tags_of (id : Z) (ups : list StagedBlock) : list JournalTag.t := imap (tag_for id) ups.

Definition commit_record (generation id : Z) (ups : list StagedBlock) : JournalControl.t :=
  JournalControl.mk generation id Committed (Z.of_nat (length ups)) (tags_digest (tags_of id ups)).

(** Updates that one transaction may carry. *)
Record updates_ok (sb : Superblock.t) (id : Z) (ups : list StagedBlock) : Prop := {
  up_id : 1 ≤ id < u64_max;
  up_len : (0 < length ups ≤ PHASE3_MAX_UPDATES)%nat;
  up_distinct : NoDup (sb_target <$> ups);
  up_home : ∀ u, u ∈ ups → is_home sb (sb_target u);
  up_block : ∀ u, u ∈ ups → is_block (sb_image u);
  up_bytes : ∀ u, u ∈ ups → bytes_ok (sb_image u);
}.

(** The entries of a transaction are in the journal area. *)
Definition entries_on (sb : Superblock.t) (m : disk) (id : Z) (ups : list StagedBlock) : Prop :=
  ∀ i u, ups !! i = Some u →
    JournalTag.encode (tag_for id i u) = Ok (m (tag_block sb i)) ∧ m (image_block sb i) = sb_image u.

(** Its state update: the next transaction, and a generation not before the one
    on the disk, unless that block is torn. *)
Record state_update (torn : list Z → Prop) (sb : Superblock.t) (m : disk) (id : Z)
    (ups : list StagedBlock) (st : FilesystemState.t) : Prop := {
  su_typed : FilesystemState.typed st;
  su_image : ∃ image, FilesystemState.encode st = Ok image ∧
    List.find (Transaction.targets (Superblock.filesystem_state_block sb)) ups =
      Some {| sb_target := Superblock.filesystem_state_block sb; sb_image := image |};
  su_next : FilesystemState.next_transaction_id st = id + 1;
  su_old : torn (m (Superblock.filesystem_state_block sb)) ∨
    ∃ old, FilesystemState.decode (m (Superblock.filesystem_state_block sb)) = Ok old ∧
      FilesystemState.generation old ≤ FilesystemState.generation st;
}.

Inductive stands (torn : list Z → Prop) (sb : Superblock.t) (m h : disk) : Prop :=
| stands_clean control slot :
    chosen sb m = Ok (control, slot) → JournalControl.state control = Empty →
    1 ≤ JournalControl.generation control →
    (∀ b, kept sb b → m b = h b) → stands torn sb m h
| stands_committed generation slot id ups st :
    chosen sb m = Ok (commit_record generation id ups, slot) → 1 ≤ generation →
    updates_ok sb id ups → entries_on sb m id ups → state_update torn sb m id ups st →
    (∀ b, kept sb b → after_image ups b (m b) = h b) → stands torn sb m h.

(** *** Choosing a control *)

Lemma choose_slot l r c slot : choose_control l r = Ok (c, slot) →
  slot = 0 ∧ l = Some c ∨ slot = 1 ∧ r = Some c.
Proof. unfold choose_control. intros H. repeat case_match; simplify_eq; auto. Qed.

Lemma chosen_at sb m c slot : chosen sb m = Ok (c, slot) →
  (slot = 0 ∨ slot = 1) ∧ control_at sb m slot = Some c.
Proof. intros [[-> H]|[-> H]]%choose_slot; auto. Qed.

Lemma chosen_ext sb m m' : (∀ slot, slot = 0 ∨ slot = 1 → m' (control_block sb slot) = m (control_block sb slot)) →
  chosen sb m' = chosen sb m.
Proof. intros H. unfold chosen, control_at. by rewrite !H by auto. Qed.

(** Overwriting the other slot with rubbish changes nothing; overwriting it with
    a later control selects that one. *)
Lemma chosen_other sb m m' c slot : chosen sb m = Ok (c, slot) →
  m' (control_block sb slot) = m (control_block sb slot) →
  control_at sb m' (1 - slot) = None → chosen sb m' = Ok (c, slot).
Proof.
  intros [Hs Hc]%chosen_at Heq Hn. unfold chosen.
  assert (control_at sb m' slot = Some c) as Hc' by (unfold control_at in *; by rewrite Heq).
  destruct Hs as [-> | ->]; [change (1 - 0) with 1 in Hn|change (1 - 1) with 0 in Hn];
    by rewrite Hc', Hn.
Qed.

Lemma chosen_later sb m m' c slot c' : chosen sb m = Ok (c, slot) →
  m' (control_block sb slot) = m (control_block sb slot) →
  control_at sb m' (1 - slot) = Some c' →
  JournalControl.generation c < JournalControl.generation c' → chosen sb m' = Ok (c', 1 - slot).
Proof.
  intros [Hs Hc]%chosen_at Heq Hn Hlt. unfold chosen.
  assert (control_at sb m' slot = Some c) as Hc' by (unfold control_at in *; by rewrite Heq).
  destruct Hs as [-> | ->]; [change (1 - 0) with 1 in *|change (1 - 1) with 0 in *];
    rewrite Hc', Hn; unfold choose_control.
  - rewrite (proj2 (Z.eqb_neq _ _)), (proj2 (Z.leb_gt _ _)) by lia. done.
  - rewrite (proj2 (Z.eqb_neq _ _)), (proj2 (Z.leb_le _ _)) by lia. done.
Qed.

(** *** Tags and records *)

Lemma is_home_bounds sb b : SuperblockCodec.geometry sb → is_home sb b →
  b = 19 ∨ 150 ≤ b < Superblock.capacity_blocks sb.
Proof.
  intros Hg. unfold is_home. rewrite (SuperblockCodec.geo_state _ Hg), (SuperblockCodec.geo_first _ Hg).
  by change PHASE3_FIRST_ALLOCATABLE_BLOCK with 150.
Qed.

Lemma length_tags_of id ups : length (tags_of id ups) = length ups.
Proof. apply length_imap. Qed.

Lemma tags_of_snoc id ups u : tags_of id (ups ++ [u]) = push (tags_of id ups) (tag_for id (length ups) u).
Proof. unfold tags_of, push. rewrite imap_app. cbn. by rewrite Nat.add_0_r. Qed.

Section tags.
Context (sb : Superblock.t) (Hg : SuperblockCodec.geometry sb) (Hcap : Superblock.capacity_blocks sb ≤ u64_max).
Context (id : Z) (ups : list StagedBlock) (Hups : updates_ok sb id ups).

Lemma tag_valid i u : ups !! i = Some u →
  JournalTag.validate (tag_for id i u) = Ok () ∧ JournalTag.typed (tag_for id i u).
Proof using Hups Hg Hcap.
  intros Hi. pose proof (list_elem_of_lookup_2 _ _ _ Hi) as Hu. destruct Hups as [Hid Hlen _ Hh Hb Hok].
  pose proof (lookup_lt_Some _ _ _ Hi). pose proof (is_home_bounds _ _ Hg (Hh u Hu)) as Ht.
  unfold PHASE3_MAX_UPDATES in *. split.
  - unfold JournalTag.validate, PHASE3_MAX_UPDATES.
    cbn [JournalTag.transaction_id JournalTag.target_home_block JournalTag.update_index tag_for].
    rewrite (proj2 (Z.eqb_neq id 0)), (proj2 (Z.eqb_neq (sb_target u) 0)), (proj2 (Z.leb_gt _ _)) by lia.
    done.
  - unfold JournalTag.typed, is_u64, is_u32, u32_max; cbn. unfold u64_max in *.
    pose proof (crc32c_u32 (sb_image u) (Hok u Hu)) as Hc. unfold is_u32, u32_max in Hc. lia.
Qed.

Lemma tag_new i u : ups !! i = Some u →
  JournalTag.new id (Z.of_nat i) (sb_target u) (sb_image u) = Ok (tag_for id i u).
Proof using Hups Hg Hcap.
  intros Hi. destruct (tag_valid i u Hi) as [Hv _].
  pose proof (up_block _ _ _ Hups u (list_elem_of_lookup_2 _ _ _ Hi)) as Hb.
  unfold JournalTag.new. rewrite Hb, Nat.eqb_refl. cbn [negb err_if mbind outcome_bind].
  fold (tag_for id i u). by rewrite Hv.
Qed.

Lemma tag_encodes i u : ups !! i = Some u → ∃ b, JournalTag.encode (tag_for id i u) = Ok b.
Proof using Hups Hg Hcap.
  intros Hi. destruct (tag_valid i u Hi) as [Hv _]. eexists. by apply TagCodec.tag_encode_eq.
Qed.

Lemma tag_sequence : validate_tag_sequence id (tags_of id ups) = Ok ().
Proof using Hups Hg Hcap.
  assert (∀ l k, ups = k ++ l →
    validate_tag_loop id (tags_of id k) (imap (λ j, tag_for id (length k + j)) l) = Ok ()) as Hloop.
  { induction l as [|u l IH]; intros k Heq; [done|]. rewrite imap_cons, Nat.add_0_r. cbn [validate_tag_loop].
    assert (ups !! length k = Some u) as Hu by (by rewrite Heq, list_lookup_middle).
    destruct (tag_valid _ _ Hu) as [-> _]. cbn [mbind outcome_bind].
    rewrite length_tags_of, !Z.eqb_refl. cbn [negb orb err_if mbind outcome_bind].
    rewrite (proj2 (any_false _ _)).
    - cbn [err_if mbind outcome_bind]. rewrite <- tags_of_snoc.
      rewrite <- (IH (k ++ [u])) by (by rewrite <- app_assoc). f_equal.
      apply imap_ext. intros j x _. cbn [compose]. rewrite length_app. cbn [length].
      by replace (length k + S j)%nat with (length k + 1 + j)%nat by lia.
    - intros tg [j Hj]%list_elem_of_lookup. unfold tags_of in Hj. rewrite list_lookup_imap in Hj.
      destruct (k !! j) as [v|] eqn:Hv; [|done]. cbn in Hj. injection Hj as <-.
      apply Z.eqb_neq. cbn. intros Heqt. pose proof (up_distinct _ _ _ Hups) as Hnd.
      assert (j = length k); [|by apply lookup_lt_Some in Hv; lia].
      eapply NoDup_lookup; [exact Hnd|..]; rewrite list_lookup_fmap.
      + by rewrite Heq, lookup_app_l, Hv by (by eapply lookup_lt_Some).
      + by rewrite Hu, Heqt. }
  exact (Hloop ups [] eq_refl).
Qed.

Lemma digest_fill_ok tags index b : bytes_ok b → bytes_ok (digest_fill index tags b).
Proof using.
  revert index b. induction tags as [|t tags IH]; intros index b Hb; cbn [digest_fill]; [done|].
  apply IH. repeat apply put_bytes_ok; (done || apply le_bytes_ok).
Qed.

Lemma tags_digest_u32 tags : is_u32 (tags_digest tags).
Proof using. apply crc32c_u32, Forall_take, digest_fill_ok, zeros_ok. Qed.

Lemma record_committed generation : 1 ≤ generation →
  JournalControl.committed generation id (tags_of id ups) = Ok (commit_record generation id ups).
Proof using Hups Hg Hcap.
  intros Hgen. destruct Hups as [Hid Hlen _ _ _ _]. unfold JournalControl.committed.
  rewrite length_tags_of, (proj2 (Z.eqb_neq generation 0)), (proj2 (Z.eqb_neq id 0)) by lia.
  rewrite (proj2 (Nat.eqb_neq _ _)), (proj2 (Nat.ltb_ge _ _)) by lia. cbn [orb err_if mbind outcome_bind].
  by rewrite tag_sequence.
Qed.

Lemma record_encodes generation : 1 ≤ generation ≤ u64_max →
  ∃ b, JournalControl.encode (commit_record generation id ups) = Ok b ∧
       JournalControl.decode b = Ok (commit_record generation id ups) ∧ is_block b.
Proof using Hups.
  intros Hgen. destruct Hups as [Hid Hlen _ _ _ _]. unfold PHASE3_MAX_UPDATES in Hlen.
  assert (∃ b, JournalControl.encode (commit_record generation id ups) = Ok b) as [b Hb].
  { eexists. apply ControlCodec.control_encode_eq. split; [|done].
    unfold JournalControl.validate, JournalControl.canonical, PHASE3_MAX_UPDATES.
    cbn [JournalControl.generation JournalControl.state JournalControl.transaction_id
         JournalControl.update_count commit_record].
    rewrite (proj2 (Z.eqb_neq generation 0)), (proj2 (Z.eqb_neq id 0)),
      (proj2 (Z.eqb_neq (Z.of_nat _) 0)), (proj2 (Z.leb_le _ _)) by lia. done. }
  exists b. split_and!; [done| |by eapply ControlCodec.control_is_block].
  apply (decode_encode (BlockCodec := ControlCodec.control_codec)); [|done].
  unfold JournalControl.typed, is_u64, is_u32, u32_max, u64_max in *; cbn.
  pose proof (tags_digest_u32 (tags_of id ups)) as Hd. unfold is_u32, u32_max in Hd. lia.
Qed.
End tags.

Lemma empty_encodes generation : 1 ≤ generation ≤ u64_max →
  ∃ b, JournalControl.encode (JournalControl.empty generation) = Ok b ∧
       JournalControl.decode b = Ok (JournalControl.empty generation) ∧ is_block b.
Proof.
  intros Hgen.
  assert (∃ b, JournalControl.encode (JournalControl.empty generation) = Ok b) as [b Hb].
  { eexists. apply ControlCodec.control_encode_eq. split; [|done].
    unfold JournalControl.validate, JournalControl.canonical. cbn [JournalControl.generation JournalControl.empty].
    by rewrite (proj2 (Z.eqb_neq generation 0)) by lia. }
  exists b. split_and!; [done| |by eapply ControlCodec.control_is_block].
  apply (decode_encode (BlockCodec := ControlCodec.control_codec)); [|done].
  unfold JournalControl.typed, is_u64, is_u32; cbn. unfold u32_max. lia.
Qed.

Lemma tag_bytes a b : JournalTag.encode a = Ok b → bytes_ok b.
Proof. intros [_ ->]%TagCodec.tag_encode_eq. apply image_ok, TagCodec.tag_sealable. Qed.
Lemma control_bytes a b : JournalControl.encode a = Ok b → bytes_ok b.
Proof. intros [_ ->]%ControlCodec.control_encode_eq. apply image_ok, ControlCodec.control_sealable. Qed.
Lemma state_bytes a b : FilesystemState.encode a = Ok b → bytes_ok b.
Proof. intros [_ ->]%StateCodec.state_encode_eq. apply image_ok, StateCodec.state_sealable. Qed.

(** *** After-images *)

Lemma find_target ups b u : List.find (Transaction.targets b) ups = Some u → u ∈ ups ∧ sb_target u = b.
Proof.
  intros [Hin Ht]%List.find_some. unfold Transaction.targets in Ht. bool_simpl.
  split; [by apply list_elem_of_In|done].
Qed.

Lemma find_target_None ups b : List.find (Transaction.targets b) ups = None → ∀ u, u ∈ ups → sb_target u ≠ b.
Proof.
  intros Hn u Hu%list_elem_of_In Ht. pose proof (List.find_none _ _ Hn u Hu) as H.
  unfold Transaction.targets in H. bool_simpl. done.
Qed.

Lemma find_target_elem ups u : NoDup (sb_target <$> ups) → u ∈ ups →
  List.find (Transaction.targets (sb_target u)) ups = Some u.
Proof.
  intros Hnd Hu. destruct (List.find _ ups) as [v|] eqn:E.
  - apply find_target in E as [Hv Ht]. f_equal. by eapply (NoDup_key_inj sb_target).
  - by apply (find_target_None _ _ E) in Hu.
Qed.

Lemma after_image_idem ups b x : after_image ups b (after_image ups b x) = after_image ups b x.
Proof. unfold after_image. by destruct (List.find _ ups). Qed.

Lemma after_image_other ups b x y : (∃ u, u ∈ ups ∧ sb_target u = b) → NoDup (sb_target <$> ups) →
  after_image ups b x = after_image ups b y.
Proof.
  intros (u & Hu & <-) Hnd. unfold after_image. by rewrite (find_target_elem _ _ Hnd Hu).
Qed.

Lemma after_image_snoc ups u b x : NoDup (sb_target <$> (ups ++ [u])) →
  after_image (ups ++ [u]) b x = if decide (b = sb_target u) then sb_image u else after_image ups b x.
Proof.
  intros Hnd. unfold after_image. destruct (decide (b = sb_target u)) as [->|Hne].
  - rewrite find_target_elem; [done|done|]. set_solver.
  - destruct (List.find _ (ups ++ [u])) as [v|] eqn:E.
    + apply find_target in E as [[Hv| ->%list_elem_of_singleton]%elem_of_app <-]; [|done].
      rewrite fmap_app in Hnd. apply NoDup_app in Hnd as [Hnd _]. by rewrite (find_target_elem ups v Hnd Hv).
    + destruct (List.find _ ups) as [v|] eqn:E'; [|done]. apply find_target in E' as [Hv <-].
      destruct (find_target_None _ _ E v); [set_solver|done].
Qed.

(** *** The disks that a power failure may leave *)

Section phases.
Context (torn : list Z → Prop).
Context (torn_control : ∀ y c, torn y → JournalControl.decode y ≠ Ok c).
Context (sb : Superblock.t) (Hg : SuperblockCodec.geometry sb).

Lemma control_block_eq slot : control_block sb slot = 20 + slot.
Proof using Hg. unfold control_block. by rewrite (SuperblockCodec.geo_journal _ Hg). Qed.
Lemma tag_block_eq i : tag_block sb i = 22 + Z.of_nat i.
Proof using Hg.
  unfold tag_block. rewrite (SuperblockCodec.geo_journal _ Hg).
  change PHASE3_JOURNAL_FIRST_BLOCK with 20. lia.
Qed.
Lemma image_block_eq i : image_block sb i = 86 + Z.of_nat i.
Proof using Hg.
  unfold image_block. rewrite (SuperblockCodec.geo_journal _ Hg).
  change PHASE3_JOURNAL_FIRST_BLOCK with 20. change (Z.of_nat PHASE3_MAX_UPDATES) with 64. lia.
Qed.

Definition entry_area (c : Z) : Prop := 22 ≤ c < 150.

Lemma home_apart b : is_home sb b → ¬ entry_area b ∧ b ≠ control_block sb 0 ∧ b ≠ control_block sb 1.
Proof using Hg. intros Hb%is_home_bounds; [|done]. rewrite !control_block_eq. unfold entry_area. lia. Qed.

Lemma kept_apart b : kept sb b → ¬ entry_area b ∧ b ≠ control_block sb 0 ∧ b ≠ control_block sb 1.
Proof using Hg.
  intros [Hb|Hb]; [by apply home_apart|]. rewrite (SuperblockCodec.geo_journal _ Hg) in Hb. change PHASE3_JOURNAL_FIRST_BLOCK with 20 in Hb.
  rewrite !control_block_eq. unfold entry_area. lia.
Qed.

Lemma control_apart slot : slot = 0 ∨ slot = 1 → ¬ entry_area (control_block sb slot) ∧ ¬ is_home sb (control_block sb slot).
Proof using Hg.
  intros Hs. split; [rewrite control_block_eq; unfold entry_area; lia|].
  intros [_ [H0 H1]]%home_apart. by destruct Hs as [-> | ->].
Qed.

(** A torn block is no control. *)
Lemma torn_at m slot : torn (m (control_block sb slot)) → control_at sb m slot = None.
Proof using torn_control.
  intros Ht. unfold control_at, ok_of. destruct (JournalControl.decode _) eqn:E; [|done..].
  by apply (torn_control _ _ Ht) in E.
Qed.

(** Step 1: only journal entries change. *)
Lemma entries_stand m0 m h control slot :
  chosen sb m0 = Ok (control, slot) → JournalControl.state control = Empty →
  1 ≤ JournalControl.generation control → (∀ b, kept sb b → m0 b = h b) → (∀ c, m c = m0 c ∨ entry_area c) → stands torn sb m h.
Proof using Hg.
  intros Hc He Hgen Hh Hm. apply (stands_clean _ _ _ _ control slot); [|done..|].
  - rewrite <- Hc. apply chosen_ext. intros s Hs. destruct (Hm (control_block sb s)); [done|].
    by apply control_apart in Hs as [? _].
  - intros b Hb. rewrite <- Hh by done. destruct (Hm b); [done|]. by apply kept_apart in Hb as [? _].
Qed.

(** A disk on which the transaction is complete and selected. *)
Record replayable (m : disk) (generation slot id : Z) (ups : list StagedBlock)
    (st : FilesystemState.t) : Prop := {
  rp_chosen : chosen sb m = Ok (commit_record generation id ups, slot);
  rp_generation : 1 ≤ generation;
  rp_updates : updates_ok sb id ups;
  rp_entries : entries_on sb m id ups;
  rp_state : state_update torn sb m id ups st;
}.

Lemma replayable_stands m generation slot id ups st h :
  replayable m generation slot id ups st → (∀ b, kept sb b → after_image ups b (m b) = h b) →
  stands torn sb m h.
Proof using. intros []. by apply stands_committed with generation slot id st. Qed.

Lemma entries_on_ext m m' id ups : updates_ok sb id ups → (∀ c, entry_area c → m' c = m c) →
  entries_on sb m id ups → entries_on sb m' id ups.
Proof using Hg.
  intros Hu Hm He i u Hi. pose proof (lookup_lt_Some _ _ _ Hi). pose proof (up_len _ _ _ Hu).
  unfold PHASE3_MAX_UPDATES in *. rewrite !Hm; [by apply He|..];
    unfold entry_area; rewrite ?tag_block_eq, ?image_block_eq; lia.
Qed.

(** Step 2: the commit record goes to the older slot. *)
Lemma record_stand m1 m h control slot id ups st x generation :
  chosen sb m1 = Ok (control, slot) → JournalControl.state control = Empty →
  1 ≤ JournalControl.generation control < generation →
  (∀ b, kept sb b → m1 b = h b) →
  updates_ok sb id ups → entries_on sb m1 id ups → state_update torn sb m1 id ups st →
  JournalControl.decode x = Ok (commit_record generation id ups) →
  (∀ c, m c = m1 c ∨ c = control_block sb (1 - slot) ∧ (m c = x ∨ torn (m c))) →
  stands torn sb m h ∨ stands torn sb m (λ b, after_image ups b (h b)).
Proof using Hg torn_control.
  intros Hc He Hlt Hh Hu Hent Hst Hx Hm. pose proof (chosen_at _ _ _ _ Hc) as [Hs _].
  assert (∀ b, b ≠ control_block sb (1 - slot) → m b = m1 b) as Hother.
  { intros b Hb. destruct (Hm b) as [|[? _]]; done. }
  assert (m (control_block sb slot) = m1 (control_block sb slot)) as Hslot.
  { apply Hother. rewrite !control_block_eq. lia. }
  assert (∀ b, kept sb b → m b = m1 b) as Hhome.
  { intros b Hb%kept_apart. apply Hother. destruct Hs as [-> | ->]; apply Hb. }
  destruct (Hm (control_block sb (1 - slot))) as [Hold|[_ [Hnew|Htorn]]].
  - left. apply (stands_clean _ _ _ _ control slot); [|done|lia|intros; rewrite Hhome; auto].
    rewrite <- Hc. apply chosen_ext. intros s Hs'. destruct (decide (s = slot)) as [->|]; [done|].
    by replace s with (1 - slot) by lia.
  - right. apply (replayable_stands m generation (1 - slot) id ups st); [|intros; by rewrite Hhome, Hh].
    split; [|lia|done| |].
    + eapply chosen_later; [exact Hc|done| |cbn; lia]. unfold control_at. by rewrite Hnew, Hx.
    + eapply entries_on_ext; [done| |exact Hent]. intros c Hca. apply Hother.
      rewrite control_block_eq. unfold entry_area in Hca. lia.
    + destruct Hst. split; [done..|]. rewrite Hhome by (by left; left). done.
  - left. apply (stands_clean _ _ _ _ control slot); [|done|lia|intros; rewrite Hhome; auto].
    eapply chosen_other; [exact Hc|done|]. by apply torn_at.
Qed.

(** Step 3: the home blocks are rewritten. *)
Lemma replay_stand m1 m generation slot id ups st :
  replayable m1 generation slot id ups st →
  (∀ c, m c = m1 c ∨ ∃ u, u ∈ ups ∧ c = sb_target u ∧ (m c = sb_image u ∨ torn (m c))) →
  replayable m generation slot id ups st ∧
  ∀ b, kept sb b → after_image ups b (m b) = after_image ups b (m1 b).
Proof using Hg.
  intros [Hc Hgen Hu He Hst] Hm. split; [split; [|done..| |]|].
  - rewrite <- Hc. apply chosen_ext. intros s Hs.
    destruct (Hm (control_block sb s)) as [|(u & Hin & Heq & _)]; [done|].
    destruct (control_apart s Hs) as [_ []]. rewrite Heq. by apply (up_home _ _ _ Hu).
  - eapply entries_on_ext; [done| |exact He]. intros c Hca.
    destruct (Hm c) as [|(u & Hin & -> & _)]; [done|].
    destruct (home_apart _ (up_home _ _ _ Hu u Hin)) as [[] _]. done.
  - destruct Hst as [Hty Him Hn Ho]. split; [done..|].
    destruct (Hm (Superblock.filesystem_state_block sb)) as [->|(u & Hin & Heq & [Hnew|Ht])]; [done| |by left].
    right. exists st. split; [|done]. destruct Him as (image & Henc & Hf).
    rewrite Heq, (find_target_elem _ _ (up_distinct _ _ _ Hu) Hin) in Hf.
    assert (sb_image u = image) as Hi by (by injection Hf as ->).
    rewrite Hnew, Hi. by apply (decode_encode (BlockCodec := StateCodec.state_codec)).
  - intros b Hb. destruct (Hm b) as [->|(u & Hin & -> & _)]; [done|].
    apply after_image_other; [by exists u|apply Hu].
Qed.

(** Step 4: the empty record goes to the newer slot. *)
Lemma empty_stand m2 m h generation slot id ups st x c' :
  replayable m2 generation slot id ups st →
  (∀ b, kept sb b → after_image ups b (m2 b) = h b ∧ m2 b = h b) →
  JournalControl.decode x = Ok c' → JournalControl.state c' = Empty →
  generation < JournalControl.generation c' →
  (∀ c, m c = m2 c ∨ c = control_block sb (1 - slot) ∧ (m c = x ∨ torn (m c))) →
  stands torn sb m h.
Proof using Hg torn_control.
  intros Hr Hh Hx He Hlt Hm. pose proof Hr as [Hc Hgen Hu Hent Hst]. pose proof (chosen_at _ _ _ _ Hc) as [Hs _].
  assert (∀ b, b ≠ control_block sb (1 - slot) → m b = m2 b) as Hother.
  { intros b Hb. destruct (Hm b) as [|[? _]]; done. }
  assert (m (control_block sb slot) = m2 (control_block sb slot)) as Hslot.
  { apply Hother. rewrite !control_block_eq. lia. }
  assert (∀ b, kept sb b → m b = m2 b) as Hhome.
  { intros b Hb%kept_apart. apply Hother. destruct Hs as [-> | ->]; apply Hb. }
  assert (chosen sb m = Ok (commit_record generation id ups, slot) → stands torn sb m h) as Hredo.
  { intros Hc'. apply (replayable_stands m generation slot id ups st).
    - split; [done..| |].
      + eapply entries_on_ext; [done| |exact Hent]. intros c Hca. apply Hother.
        rewrite control_block_eq. unfold entry_area in Hca. lia.
      + destruct Hst. split; [done..|]. rewrite Hhome by (by left; left). done.
    - intros b Hb. rewrite Hhome by done. by apply Hh. }
  destruct (Hm (control_block sb (1 - slot))) as [Hold|[_ [Hnew|Htorn]]].
  - apply Hredo. rewrite <- Hc. apply chosen_ext. intros s Hs'.
    destruct (decide (s = slot)) as [->|]; [done|]. by replace s with (1 - slot) by lia.
  - apply (stands_clean _ _ _ _ c' (1 - slot)); [|done|lia|].
    + eapply chosen_later; [exact Hc|done| |done]. unfold control_at. by rewrite Hnew, Hx.
    + intros b Hb. rewrite Hhome by done. by apply Hh.
  - apply Hredo. eapply chosen_other; [exact Hc|done|]. by apply torn_at.
Qed.
End phases.
