(* ===== verification/JournalSteps.v ===== *)
(** * Commit and recovery on a crash-safe device

    Specifications of the device calls, of the loops and of the two operations of
    the journal, each with the disks that may be found when power fails after
    it. *)

From stdpp Require Import base list numbers option sets.
From Stdlib Require Import ZArith Lia.
From S2P Require Import Prelude NullfsBytes NullfsPhase3 NullfsSuperblock BlockDevice Journal JournalDisk.

Open Scope Z_scope.

Section steps.
Context {D : Type} {HD : BlockDevice D} {torn : list Z → Prop} {HC : CrashSafe D torn}.
Notation fs := (Filesystem D).

(** [crash_disk d m]: [m] is a disk that a power failure in the state [d] may
    leave behind. *)
Definition crash_disk (d : D) (m : disk) : Prop := ∀ b, bd_after d b (m b).

(** [holds d m P]: reads see [m], and every block satisfies [P] after a crash. *)
Record holds (d : D) (m : disk) (P : Z → list Z → Prop) : Prop := {
  h_ok : bd_ok d;
  h_now : ∀ c, bd_now d c = m c;
  h_after : ∀ c y, bd_after d c y → P c y;
}.

Definition may_hold (d : D) (P : Z → list Z → Prop) : Prop :=
  bd_ok d ∧ ∀ c y, bd_after d c y → P c y.

(** Everything written is durable. *)
Definition settled (d : D) (m : disk) : Prop := holds d m (λ c y, y = m c).

Definition also (P : Z → list Z → Prop) (b : Z) (x : list Z) : Z → list Z → Prop :=
  λ c y, P c y ∨ c = b ∧ (y = x ∨ torn y).

Lemma holds_weaken d m m' P P' : holds d m P → (∀ c, m c = m' c) → (∀ c y, P c y → P' c y) → holds d m' P'.
Proof. intros [Hok Hn Ha] Hm HP. split; [done|intros; by rewrite Hn, Hm|eauto]. Qed.

Lemma may_hold_weaken d P P' : may_hold d P → (∀ c y, P c y → P' c y) → may_hold d P'.
Proof. intros [Hok Ha] HP. split; [done|eauto]. Qed.

Lemma may_hold_crash d P m : may_hold d P → crash_disk d m → ∀ c, P c (m c).
Proof. intros [_ Ha] Hm c. apply Ha, Hm. Qed.

Lemma settled_crash d m m' : settled d m → crash_disk d m' → ∀ c, m' c = m c.
Proof. intros [_ _ Ha] Hm c. apply Ha, Hm. Qed.

(** *** Device calls *)

Definition device_error (e : FsError.t) : Prop := ∃ er, e = FsError.Device er.

Lemma set_device_device (s : fs) : set_device (device s) s = s.
Proof. by destruct s. Qed.

Lemma dev_write (s : fs) b x m P : holds (device s) m P → 0 ≤ b → is_block x → bytes_ok x →
  wp (on_device (write_blocks b x))
    (λ _ s', ∃ d', s' = set_device d' s ∧ holds d' (upd m b x) (also P b x))
    (λ e s', device_error e ∧ ∃ d', s' = set_device d' s ∧ may_hold d' (also P b x)) s.
Proof.
  intros [Hok Hn Ha] Hb Hx Hbx. unfold on_device. apply wp_zoom.
  eapply wp_mono; [by apply bd_write| |].
  - intros _ d' (Hok' & Hn' & Ha'). exists d'. split; [done|]. split; [done| |].
    + intros c. rewrite Hn'. unfold upd. destruct (decide (c = b)); [done|apply Hn].
    + intros c y [?|?]%Ha'; [left; auto|by right].
  - intros e d' (Hok' & Ha'). split; [by eexists|]. exists d'. split; [done|]. split; [done|].
    intros c y [?|?]%Ha'; [left; auto|by right].
Qed.

Lemma dev_flush (s : fs) m P : holds (device s) m P →
  wp (on_device flush)
    (λ _ s', ∃ d', s' = set_device d' s ∧ settled d' m)
    (λ e s', device_error e ∧ ∃ d', s' = set_device d' s ∧ may_hold d' P) s.
Proof.
  intros [Hok Hn Ha]. unfold on_device. apply wp_zoom. eapply wp_mono; [by apply bd_flush| |].
  - intros _ d' (Hok' & Hn' & Ha'). exists d'. split; [done|]. split; [done| |].
    + intros c. by rewrite Hn'.
    + intros c y ->%Ha'. apply Hn.
  - intros e d' (Hok' & Ha'). split; [by eexists|]. exists d'. split; [done|]. split; [done|].
    intros c y ?%Ha'. auto.
Qed.

Lemma dev_read (s : fs) b m P : holds (device s) m P → 0 ≤ b →
  wp (on_device (read_blocks b BLOCK_SIZE))
    (λ x s', s' = s ∧ x = m b ∧ is_block x ∧ bytes_ok x) (λ e s', device_error e ∧ s' = s) s.
Proof.
  intros [Hok Hn Ha] Hb. unfold on_device. apply wp_zoom. eapply wp_mono; [by apply bd_read| |].
  - intros x d' (-> & -> & Hx). split; [apply set_device_device|]. by rewrite <- Hn.
  - intros e d' ->. split; [by eexists|apply set_device_device].
Qed.

(** A durable write: one block, then a flush. *)
Lemma write_flush (s : fs) b x m (k : M fs FsError.t unit) (Q : unit → fs → Prop) (R : FsError.t → fs → Prop) :
  settled (device s) m → 0 ≤ b → is_block x → bytes_ok x →
  (∀ d, settled d (upd m b x) → wp k Q R (set_device d s)) →
  (∀ e d, device_error e → may_hold d (also (λ c y, y = m c) b x) → R e (set_device d s)) →
  wp (_ ← on_device (write_blocks b x); _ ← on_device flush; k) Q R s.
Proof.
  intros Hset Hb Hx Hbx HQ HR. wp_step.
  eapply wp_mono; [apply (dev_write s _ _ _ _ Hset Hb Hx Hbx)| |by intros e s' [He (d & -> & HM)]; apply HR].
  intros _ s1 (d1 & -> & H1). wp_step.
  eapply wp_mono; [apply (dev_flush (set_device d1 s) _ _ H1)| |by intros e s' [He (d & -> & HM)]; apply (HR e d)].
  intros _ s2 (d2 & -> & H2). exact (HQ d2 H2).
Qed.

Lemma wp_format {A} (o : outcome FormatError.t A) (Q : A → fs → Prop) R s a :
  o = Ok a → Q a s → wp (on_format o) Q R s.
Proof. intros -> H. apply wp_lift. exact H. Qed.

(** [next_generation]: the only format error of a commit. *)
Definition exhausted (e : FsError.t) : Prop := e = FsError.Format FormatError.IdentifierExhausted.

Lemma next_generation_spec g (Q : Z → fs → Prop) R s :
  (g + 1 ≤ u64_max → Q (g + 1) s) → R (FsError.Format FormatError.IdentifierExhausted) s →
  wp (on_format (next_generation g)) Q R s.
Proof.
  intros HQ HR. apply wp_lift. unfold next_generation, checked_add.
  destruct (_ <=? _) eqn:E; bool_simpl; cbn; auto.
Qed.

(** *** Journal entries *)

Section area.
Context (sb : Superblock.t) (Hg : SuperblockCodec.geometry sb) (Hcap : Superblock.capacity_blocks sb ≤ u64_max).

Lemma ensure_home_ok (s : fs) b (Q : unit → fs → Prop) R : superblock s = sb → is_home sb b →
  Q () s → wp (ensure_home_target_or_state b) Q R s.
Proof using.
  intros Hs Hb HQ. unfold ensure_home_target_or_state. apply wp_reads. rewrite Hs.
  destruct (_ =? _) eqn:E; [done|]. bool_simpl. destruct Hb as [?|[Hl Hu]]; [done|].
  unfold home_target. by rewrite (proj2 (Z.ltb_ge _ _)), (proj2 (Z.leb_gt _ _)) by lia.
Qed.

(** The journal after some entries: [m0] outside the entry area. *)
Record entered (m0 : disk) (id : Z) (d : D) (m : disk) (ups : list StagedBlock) : Prop := {
  en_holds : holds d m (λ c y, y = m0 c ∨ entry_area c);
  en_outside : ∀ c, ¬ entry_area c → m c = m0 c;
  en_entries : entries_on sb m id ups;
}.

Lemma entered_snoc m0 id d m done u tb : (length done < PHASE3_MAX_UPDATES)%nat →
  JournalTag.encode (tag_for id (length done) u) = Ok tb →
  holds d (upd (upd m (tag_block sb (length done)) tb) (image_block sb (length done)) (sb_image u))
    (λ c y, y = m0 c ∨ entry_area c) →
  (∀ c, ¬ entry_area c → m c = m0 c) → entries_on sb m id done →
  entered m0 id d (upd (upd m (tag_block sb (length done)) tb) (image_block sb (length done)) (sb_image u)) (done ++ [u]).
Proof using Hg.
  clear Hcap. unfold PHASE3_MAX_UPDATES. intros Hlen Htb Hh Ho He.
  split; [exact Hh| |].
  - intros c Hc. unfold upd. rewrite (tag_block_eq sb Hg), (image_block_eq sb Hg).
    rewrite !decide_False; [by apply Ho|..]; intros ->; apply Hc; unfold entry_area; lia.
  - intros i v Hv. rewrite !(tag_block_eq sb Hg), !(image_block_eq sb Hg). unfold upd.
    pose proof (lookup_lt_Some _ _ _ Hv) as Hi. rewrite length_app in Hi. cbn in Hi.
    destruct (decide (i = length done)) as [->|Hne].
    + rewrite list_lookup_middle in Hv by done. injection Hv as <-.
      rewrite (decide_False (P := 22 + _ = 86 + _)), !decide_True by lia. done.
    + rewrite lookup_app_l in Hv by lia. rewrite !decide_False by lia.
      specialize (He i v Hv). by rewrite (tag_block_eq sb Hg), (image_block_eq sb Hg) in He.
Qed.

Lemma write_entries_spec m0 id ups : updates_ok sb id ups →
  ∀ l done s m, ups = done ++ l → superblock s = sb → entered m0 id (device s) m done →
  wp (write_entries id (length done) l (tags_of id done))
    (λ tags s', tags = tags_of id ups ∧ ∃ d' m', s' = set_device d' s ∧ entered m0 id d' m' ups)
    (λ e s', device_error e ∧ ∃ d', s' = set_device d' s ∧ may_hold d' (λ c y, y = m0 c ∨ entry_area c)) s.
Proof using Hg Hcap.
  intros Hups l. induction l as [|u l IH]; intros done s m Heq Hs [Hh Ho He]; cbn [write_entries].
  { rewrite app_nil_r in Heq. subst done. wp_steps. split; [reflexivity|].
    exists (device s), m. split; [by rewrite set_device_device|by split]. }
  assert (ups !! length done = Some u) as Hu by (by rewrite Heq, list_lookup_middle).
  pose proof (list_elem_of_lookup_2 _ _ _ Hu) as Hin. pose proof (lookup_lt_Some _ _ _ Hu) as Hlt.
  destruct (tag_encodes sb Hg Hcap id ups Hups _ _ Hu) as [tb Htb].
  pose proof (up_len _ _ _ Hups) as Hlen.
  wp_step. apply (ensure_home_ok s); [done|by apply Hups|].
  wp_step. eapply wp_format; [by apply (tag_new sb Hg Hcap id ups Hups)|].
  wp_step. eapply wp_format; [exact Htb|]. wp_steps. rewrite Hs.
  assert (entry_area (tag_block sb (length done)) ∧ entry_area (image_block sb (length done))) as [Ha1 Ha2].
  { rewrite (tag_block_eq sb Hg), (image_block_eq sb Hg). unfold entry_area, PHASE3_MAX_UPDATES in *. lia. }
  assert (∀ b x c y, entry_area b → also (λ c y, y = m0 c ∨ entry_area c) b x c y → y = m0 c ∨ entry_area c) as Hsub.
  { intros b x c y Hb [?|[-> _]]; [done|by right]. }
  eapply wp_mono; [apply (dev_write s _ _ _ _ Hh); [unfold entry_area in *; lia|by eapply TagCodec.tag_is_block|by eapply tag_bytes]| |].
  2:{ intros e s' [Hde (d' & -> & HM)]. split; [done|]. exists d'. split; [done|]. eapply may_hold_weaken; [exact HM|eauto]. }
  intros _ s1 (d1 & -> & H1). wp_steps.
  assert (holds d1 (upd m (tag_block sb (length done)) tb) (λ c y, y = m0 c ∨ entry_area c)) as H1'
    by (eapply holds_weaken; [exact H1|done|eauto]).
  eapply wp_mono; [apply (dev_write (set_device d1 s) _ _ _ _ H1'); [unfold entry_area in *; lia|by apply Hups..]| |].
  2:{ intros e s' [Hde (d' & -> & HM)]. split; [done|]. exists d'. split; [done|]. eapply may_hold_weaken; [exact HM|eauto]. }
  intros _ s2 (d2 & -> & H2). rewrite <- tags_of_snoc.
  replace (S (length done)) with (length (done ++ [u])) by (rewrite length_app; cbn; lia).
  eapply wp_mono; [eapply (IH (done ++ [u]) (set_device d2 (set_device d1 s)))|intros tags s'..].
  - by rewrite <- app_assoc.
  - done.
  - apply entered_snoc; [lia|done| |done|done]. eapply holds_weaken; [exact H2|done|eauto].
  - intros (-> & d' & m' & -> & Hen). split; [done|]. by exists d', m'.
  - intros [Hde (d' & -> & HM)]. split; [done|]. by exists d'.
Qed.

(** *** Home blocks *)

Definition rewritten (m1 : disk) (ups : list StagedBlock) : Z → list Z → Prop :=
  λ c y, y = m1 c ∨ ∃ u, u ∈ ups ∧ c = sb_target u ∧ (y = sb_image u ∨ torn y).

Lemma write_home_spec m1 ups id : updates_ok sb id ups →
  ∀ l done (s : fs) m, ups = done ++ l → holds (device s) m (rewritten m1 ups) →
  (∀ c, m c = after_image done c (m1 c)) →
  wp (write_home (pair_of <$> l))
    (λ _ s', ∃ d' m', s' = set_device d' s ∧ holds d' m' (rewritten m1 ups) ∧
       ∀ c, m' c = after_image ups c (m1 c))
    (λ e s', device_error e ∧ ∃ d', s' = set_device d' s ∧ may_hold d' (rewritten m1 ups)) s.
Proof using Hg Hcap.
  intros Hups l. induction l as [|u l IH]; intros done s m Heq Hh Hm; cbn [write_home fmap list_fmap for_each].
  { rewrite app_nil_r in Heq. subst done. apply wp_ret.
    exists (device s), m. by rewrite set_device_device. }
  assert (u ∈ ups) as Hin by (rewrite Heq; set_solver).
  pose proof (is_home_bounds _ _ Hg (up_home _ _ _ Hups u Hin)) as Hb.
  assert (∀ c y, also (rewritten m1 ups) (sb_target u) (sb_image u) c y → rewritten m1 ups c y) as Hsub.
  { intros c y [?|[-> Hy]]; [done|]. right. by exists u. }
  wp_step. cbn [pair_of fst snd]. eapply wp_mono; [apply (dev_write s _ _ _ _ Hh); [lia|by apply Hups..]| |].
  2:{ intros e s' [Hde (d' & -> & HM)]. split; [done|]. exists d'. split; [done|].
      by eapply may_hold_weaken. }
  intros _ s1 (d1 & -> & H1). fold (write_home (D := D) (pair_of <$> l)).
  eapply wp_mono; [apply (IH (done ++ [u]) (set_device d1 s) (upd m (sb_target u) (sb_image u)))|intros ? s'..].
  - by rewrite <- app_assoc.
  - by eapply holds_weaken.
  - pose proof (up_distinct _ _ _ Hups) as Hnd. rewrite Heq, cons_middle, (assoc_L (++) done [u] l), fmap_app in Hnd.
    intros c. unfold upd. rewrite after_image_snoc by (by apply NoDup_app in Hnd as [? _]).
    destruct (decide _); [done|apply Hm].
  - intros (d' & m' & -> & Hh' & Hm'). by exists d', m'.
  - intros [Hde (d' & -> & HM)]. split; [done|]. by exists d'.
Qed.

(** *** Publishing a committed transaction

    The tail that commit and recovery share: home blocks, flush, empty record in
    the other slot, flush. *)

Definition publish (pairs : list (Z * list Z)) (generation slot : Z) (k : Z → M fs FsError.t unit)
    : M fs FsError.t unit :=
  _ ← write_home pairs;
  _ ← on_device flush;
  empty_generation ← on_format (next_generation generation);
  encoded ← on_format (JournalControl.encode (JournalControl.empty empty_generation));
  _ ← on_device (write_blocks (control_block sb slot) encoded);
  _ ← on_device flush;
  k empty_generation.

Context (torn_control : ∀ y c, torn y → JournalControl.decode y ≠ Ok c).

(** The published disk: home blocks [h], an empty journal of generation [g]
    selected in [slot]. *)
Record published (d : D) (m h : disk) (g slot : Z) : Prop := {
  pb_settled : settled d m;
  pb_chosen : chosen sb m = Ok (JournalControl.empty g, slot);
  pb_home : ∀ b, kept sb b → m b = h b;
}.

Definition always_stands (d : D) (h : disk) : Prop :=
  bd_ok d ∧ ∀ m, crash_disk d m → stands torn sb m h.

Lemma publish_spec (s : fs) m1 h generation slot other id ups st k (Q : unit → fs → Prop) (R : FsError.t → fs → Prop) :
  settled (device s) m1 → replayable torn sb m1 generation slot id ups st →
  other = 1 - slot →
  (∀ b, kept sb b → after_image ups b (m1 b) = h b) →
  (∀ d' m', generation + 1 ≤ u64_max → published d' m' h (generation + 1) (1 - slot) →
     wp (k (generation + 1)) Q R (set_device d' s)) →
  (∀ e d', device_error e ∨ exhausted e → always_stands d' h → R e (set_device d' s)) →
  wp (publish (pair_of <$> ups) generation other k) Q R s.
Proof using Hg Hcap torn_control.
  intros Hset Hrp -> Hh HQ HR. pose proof (rp_generation _ _ _ _ _ _ _ _ Hrp) as Hgen. pose proof (rp_updates _ _ _ _ _ _ _ _ Hrp) as Hups.
  assert (∀ d', may_hold d' (rewritten m1 ups) → always_stands d' h) as Hredo.
  { intros d' HM. split; [apply HM|]. intros m Hc.
    destruct (replay_stand torn sb Hg m1 m _ _ _ _ _ Hrp (may_hold_crash _ _ _ HM Hc)) as [Hrp' Hsame].
    eapply replayable_stands; [exact Hrp'|]. intros b Hb. by rewrite Hsame, Hh. }
  unfold publish. wp_step.
  eapply wp_mono; [apply (write_home_spec m1 ups id Hups ups [] s m1)|..].
  { done. } { eapply holds_weaken; [exact Hset|done|]. intros c y ->. by left. } { done. }
  2:{ intros e s' [Hde (d' & -> & HM)]. apply HR; [by left|by apply Hredo]. }
  intros _ s1 (d1 & m2 & -> & Hh1 & Hm2). wp_step.
  eapply wp_mono; [apply (dev_flush (set_device d1 s) _ _ Hh1)|..].
  2:{ intros e s' [Hde (d' & -> & HM)]. apply HR; [by left|by apply Hredo]. }
  intros _ s2 (d2 & -> & Hset2). cbn [device set_device].
  assert (replayable torn sb m2 generation slot id ups st) as Hrp2.
  { eapply replay_stand; [done|exact Hrp|]. intros c. rewrite Hm2. unfold after_image.
    destruct (List.find _ ups) as [u|] eqn:E; [|by left]. apply find_target in E as [Hu <-].
    right. exists u. auto. }
  assert (∀ b, kept sb b → after_image ups b (m2 b) = h b ∧ m2 b = h b) as Hh2.
  { intros b Hb. rewrite !Hm2, after_image_idem. auto. }
  assert (∀ e, exhausted e → R e (set_device d2 s)) as Hex.
  { intros e He. apply HR; [by right|]. split; [apply Hset2|]. intros m Hc.
    destruct (replay_stand torn sb Hg m2 m _ _ _ _ _ Hrp2) as [Hrp' Hsame].
    { intros c. left. by apply (settled_crash _ _ _ Hset2 Hc). }
    eapply replayable_stands; [exact Hrp'|]. intros b Hb. rewrite Hsame by done. by apply Hh2. }
  wp_step. apply next_generation_spec; [intros Hmax|by apply Hex].
  destruct (empty_encodes (generation + 1) ltac:(lia)) as (x & Hx & Hdec & Hblk).
  pose proof (chosen_at _ _ _ _ (rp_chosen _ _ _ _ _ _ _ _ Hrp2)) as [Hslot _].
  assert (∀ m, (∀ c, also (λ c y, y = m2 c) (control_block sb (1 - slot)) x c (m c)) → stands torn sb m h) as Hst.
  { intros m Hm. eapply (empty_stand torn torn_control sb Hg); [exact Hrp2|exact Hh2|exact Hdec|done|cbn; lia|exact Hm]. }
  wp_step. eapply wp_format; [exact Hx|].
  apply (write_flush (set_device d2 (set_device d1 s)) _ _ m2); [exact Hset2|rewrite (control_block_eq sb Hg); lia|done|by eapply control_bytes| |].
  2:{ intros e d' Hde HM. apply (HR e d'); [by left|]. split; [apply HM|].
      intros m Hc. apply Hst. exact (may_hold_crash _ _ _ HM Hc). }
  intros d4 Hset4. apply (HQ d4 (upd m2 (control_block sb (1 - slot)) x) Hmax). split; [exact Hset4| |].
  - eapply chosen_later; [exact (rp_chosen _ _ _ _ _ _ _ _ Hrp2)| | |cbn; lia].
    + unfold upd. rewrite decide_False; [done|]. rewrite !(control_block_eq sb Hg). lia.
    + unfold control_at, upd. by rewrite decide_True, Hdec by done.
  - intros b Hb. unfold upd. destruct (kept_apart sb Hg b Hb) as (_ & H0 & H1).
    rewrite decide_False; [by apply Hh2|]. by destruct Hslot as [-> | ->].
Qed.

(** *** Commit *)

(** A mounted filesystem between commits: everything is durable, the journal is
    empty, and [state] is the state block. *)
Record idle (s : fs) (m : disk) (st : FilesystemState.t) : Prop := {
  id_superblock : superblock s = sb;
  id_settled : settled (device s) m;
  id_chosen : chosen sb m = Ok (JournalControl.empty (journal_generation s), 1 - older_control_slot s);
  id_generation : 1 ≤ journal_generation s;
  id_state : state s = Some st;
  id_typed : FilesystemState.typed st;
  id_decode : FilesystemState.decode (m (Superblock.filesystem_state_block sb)) = Ok st;
}.

(** The transaction that a commit writes: the staged blocks and the new state. *)
Record carries (m : disk) (st : FilesystemState.t) (tx : Transaction.t) (new_state : FilesystemState.t)
    : Prop := {
  ca_updates : updates_ok sb (Transaction.id tx) (Transaction.updates tx);
  ca_typed : FilesystemState.typed new_state;
  ca_image : ∃ image, FilesystemState.encode new_state = Ok image ∧
    List.find (Transaction.targets (Superblock.filesystem_state_block sb)) (Transaction.updates tx) =
      Some {| sb_target := Superblock.filesystem_state_block sb; sb_image := image |};
  ca_next : FilesystemState.next_transaction_id new_state = Transaction.id tx + 1;
  ca_generation : FilesystemState.generation st ≤ FilesystemState.generation new_state;
}.

Lemma carries_state_update m m' st tx new_state :
  FilesystemState.decode (m (Superblock.filesystem_state_block sb)) = Ok st → carries m st tx new_state →
  m' (Superblock.filesystem_state_block sb) = m (Superblock.filesystem_state_block sb) →
  state_update torn sb m' (Transaction.id tx) (Transaction.updates tx) new_state.
Proof using. intros Hd [] Hm. split; [done..|]. right. exists st. by rewrite Hm. Qed.

Lemma state_block_home : is_home sb (Superblock.filesystem_state_block sb).
Proof using. by left. Qed.
Lemma state_block_kept : kept sb (Superblock.filesystem_state_block sb).
Proof using. left. apply state_block_home. Qed.

(** Every disk found after a failed commit stands for the old or the new blocks. *)
Definition old_or_new (d : D) (m h : disk) : Prop :=
  bd_ok d ∧ ∀ mc, crash_disk d mc → stands torn sb mc m ∨ stands torn sb mc h.

(** The first flush: the entries are in the journal, nothing else has changed. *)
Lemma flush_entries (s : fs) m id ups k (Q : unit → fs → Prop) (R : FsError.t → fs → Prop) :
  updates_ok sb id ups → superblock s = sb → settled (device s) m →
  (∀ d m1, settled d m1 → (∀ c, ¬ entry_area c → m1 c = m c) → entries_on sb m1 id ups →
     wp (k (tags_of id ups)) Q R (set_device d s)) →
  (∀ e d, device_error e → may_hold d (λ c y, y = m c ∨ entry_area c) → R e (set_device d s)) →
  wp (tags ← write_entries id 0 ups []; _ ← on_device flush; k tags) Q R s.
Proof using Hg Hcap.
  intros Hups Hsb Hset HQ HR. wp_step.
  eapply wp_mono; [apply (write_entries_spec m id ups Hups ups [] s m); [done..|]|..].
  { split; [|done|by intros i u Hi]. eapply holds_weaken; [exact Hset|done|]. intros c y ->. by left. }
  2:{ intros e s' [Hde (d' & -> & HM)]. by apply HR. }
  intros tags s1 (-> & d1 & m1 & -> & [Hh1 Ho1 He1]). wp_step.
  eapply wp_mono; [apply (dev_flush (set_device d1 s) _ _ Hh1)|..].
  2:{ intros e s' [Hde (d' & -> & HM)]. by apply (HR e d'). }
  intros _ s2 (d2 & -> & Hset2). by apply (HQ d2 m1).
Qed.

(** The second flush: the commit record selects the transaction. *)
Lemma record_replayable m m1 control slot st tx new_state x generation :
  chosen sb m1 = Ok (control, slot) → JournalControl.generation control < generation → 1 ≤ generation →
  FilesystemState.decode (m (Superblock.filesystem_state_block sb)) = Ok st →
  (∀ b, kept sb b → m1 b = m b) → carries m st tx new_state →
  entries_on sb m1 (Transaction.id tx) (Transaction.updates tx) →
  JournalControl.decode x = Ok (commit_record generation (Transaction.id tx) (Transaction.updates tx)) →
  let m2 := upd m1 (control_block sb (1 - slot)) x in
  replayable torn sb m2 generation (1 - slot) (Transaction.id tx) (Transaction.updates tx) new_state ∧
  ∀ b, kept sb b → m2 b = m b.
Proof using Hg.
  clear Hcap torn_control. intros Hch Hlt Hgen Hdec Hhome Hca He Hx m2.
  pose proof (chosen_at _ _ _ _ Hch) as [Hslot _].
  assert (∀ b, b ≠ control_block sb (1 - slot) → m2 b = m1 b) as Hm2.
  { intros b Hb. subst m2. unfold upd. by rewrite decide_False. }
  assert (∀ b, kept sb b → m2 b = m b) as Hhome2.
  { intros b Hb. rewrite <- Hhome by done. apply Hm2. destruct (kept_apart sb Hg b Hb) as (_ & ? & ?).
    by destruct Hslot as [-> | ->]. }
  split; [|exact Hhome2]. split; [|done|apply Hca| |].
  - eapply chosen_later; [exact Hch| | |exact Hlt].
    + apply Hm2. rewrite !(control_block_eq sb Hg). lia.
    + unfold control_at, m2, upd. by rewrite decide_True, Hx by done.
  - eapply (entries_on_ext sb Hg); [apply Hca| |exact He]. intros c Hc. apply Hm2.
    rewrite (control_block_eq sb Hg). unfold entry_area in Hc. lia.
  - eapply carries_state_update; [exact Hdec|done|by apply Hhome2, state_block_kept].
Qed.

Lemma published_idle (s : fs) d' m' h g slot new_state image :
  superblock s = sb → published d' m' h g slot → 1 ≤ g → FilesystemState.typed new_state →
  FilesystemState.encode new_state = Ok image → h (Superblock.filesystem_state_block sb) = image →
  idle (set_journal g (1 - slot) (set_state (Some new_state) (set_device d' s))) m' new_state.
Proof using.
  clear Hcap Hg torn_control. intros Hsb [Hset Hch Hh] Hgen Hty Henc Himg. split; cbn; [done|done| |done|done|done|].
  - rewrite Hch. do 2 f_equal. lia.
  - rewrite Hh, Himg by apply state_block_kept. by apply (decode_encode (BlockCodec := StateCodec.state_codec)).
Qed.

Lemma commit_updates_spec (s : fs) m st tx new_state : idle s m st → carries m st tx new_state →
  wp (commit_updates tx new_state)
    (λ _ s', ∃ d' m', idle s' m' new_state ∧
       (∀ b, kept sb b → m' b = after_image (Transaction.updates tx) b (m b)) ∧
       s' = set_journal (journal_generation s + 2) (older_control_slot s)
              (set_state (Some new_state) (set_device d' s)))
    (λ e s', (device_error e ∨ exhausted e) ∧ ∃ d', s' = set_device d' s ∧
       old_or_new d' m (λ b, after_image (Transaction.updates tx) b (m b))) s.
Proof using Hg Hcap torn_control.
  intros [Hsb Hset Hch Hgen Hst Hty Hdec] Hca. pose proof (ca_updates _ _ _ _ Hca) as Hups.
  set (h := λ b, after_image (Transaction.updates tx) b (m b)).
  assert (∀ d', may_hold d' (λ c y, y = m c ∨ entry_area c) → old_or_new d' m h) as Hold.
  { intros d' HM. split; [apply HM|]. intros mc Hc. left.
    apply (entries_stand torn sb Hg m mc m _ _ Hch); [done..|]. exact (may_hold_crash _ _ _ HM Hc). }
  apply (flush_entries s m _ _ _ _ _ Hups Hsb Hset).
  2:{ intros e d' Hde HM. split; [by left|]. exists d'. split; [done|by apply Hold]. }
  intros d2 m1 Hset2 Ho1 He1. wp_steps.
  cbn [journal_generation superblock older_control_slot set_device]. rewrite Hsb.
  assert (chosen sb m1 = Ok (JournalControl.empty (journal_generation s), 1 - older_control_slot s)) as Hch1.
  { rewrite <- Hch. apply chosen_ext. intros slot Hs. apply Ho1. by apply (control_apart sb Hg). }
  assert (∀ b, kept sb b → m1 b = m b) as Hhome1.
  { intros b Hb. apply Ho1. by apply (kept_apart sb Hg). }
  pose proof (carries_state_update m m1 st tx new_state Hdec Hca (Hhome1 _ state_block_kept)) as Hsu.
  apply next_generation_spec.
  2:{ split; [by right|]. exists d2. split; [done|]. apply Hold. split; [apply Hset2|].
      intros c y ->%(h_after _ _ _ Hset2). destruct (decide (entry_area c)); [by right|left; by apply Ho1]. }
  intros Hmax. set (g := journal_generation s) in *. set (slot := 1 - older_control_slot s) in *.
  destruct (record_encodes sb _ _ Hups (g + 1) ltac:(lia)) as (x & Hx & Hdx & Hblk).
  pose proof (chosen_at _ _ _ _ Hch1) as [Hslot _].
  replace (older_control_slot s) with (1 - slot) by (subst slot; lia).
  wp_step. eapply wp_format; [apply (record_committed sb Hg Hcap _ _ Hups); lia|].
  wp_step. eapply wp_format; [exact Hx|].
  apply (write_flush (set_device d2 s) _ _ m1); [exact Hset2|rewrite (control_block_eq sb Hg); lia|done|by eapply control_bytes| |].
  2:{ intros e d' Hde HM. split; [by left|]. exists d'. split; [done|]. split; [apply HM|]. intros mc Hc.
      eapply (record_stand torn torn_control sb Hg); [exact Hch1|done| |exact Hhome1|exact Hups|
        exact He1|exact Hsu|exact Hdx|exact (may_hold_crash _ _ _ HM Hc)]. cbn. lia. }
  intros d4 Hset4.
  destruct (record_replayable m m1 _ _ st tx new_state x (g + 1) Hch1 ltac:(cbn; lia) ltac:(lia) Hdec Hhome1 Hca He1 Hdx)
    as [Hrp Hhome2].
  change (wp (publish (pair_of <$> Transaction.updates tx) (g + 1) slot
    (λ eg, modify (λ s, set_journal eg (1 - slot) (set_state (Some new_state) s))))
    (λ _ s', ∃ d' m', idle s' m' new_state ∧ (∀ b, kept sb b → m' b = h b) ∧
       s' = set_journal (g + 2) (1 - slot) (set_state (Some new_state) (set_device d' s)))
    (λ e s', (device_error e ∨ exhausted e) ∧ ∃ d', s' = set_device d' s ∧ old_or_new d' m h)
    (set_device d4 s)).
  eapply (publish_spec (set_device d4 s) _ h); [exact Hset4|exact Hrp|lia| | |].
  - intros b Hb. subst h. cbv beta. by rewrite Hhome2.
  - intros d' m' _ Hpub. apply wp_modify. exists d', m'. split_and!; [|apply Hpub|].
    + destruct (ca_image _ _ _ _ Hca) as (image & Henc & Hf).
      replace (1 - slot) with (1 - (1 - (1 - slot))) by lia.
      eapply (published_idle s); [done|exact Hpub|lia|apply Hca|exact Henc|].
      subst h. cbv beta. unfold after_image. by rewrite Hf.
    + cbn. by replace (g + 2) with (g + 1 + 1) by lia.
  - intros e d' He [Hok Hst']. split; [done|]. exists d'. split; [done|]. split; [done|]. auto.
Qed.

(** *** Transactions *)

(** An open transaction over the state [st]. *)
Record tx_ok (st : FilesystemState.t) (tx : Transaction.t) : Prop := {
  tx_id : Transaction.id tx = FilesystemState.next_transaction_id st;
  tx_typed : FilesystemState.typed (Transaction.state tx);
  tx_len : (length (Transaction.updates tx) ≤ PHASE3_MAX_UPDATES - 1)%nat;
  tx_distinct : NoDup (sb_target <$> Transaction.updates tx);
  tx_home : ∀ u, u ∈ Transaction.updates tx →
    Superblock.first_allocatable_block sb ≤ sb_target u < Superblock.capacity_blocks sb;
  tx_block : ∀ u, u ∈ Transaction.updates tx → is_block (sb_image u) ∧ bytes_ok (sb_image u);
}.

(** A filesystem mounted for writing. *)
Record writable (s : fs) (m : disk) (st : FilesystemState.t) : Prop := {
  wr_idle : idle s m st;
  wr_mode : mount_mode s = RuntimeReadWrite;
  wr_poisoned : poisoned s = false;
  wr_overlay : recovery_overlay s = [];
  wr_transaction : ∀ tx, transaction s = Some tx → tx_ok st tx;
}.

Lemma staged_find tx b : Transaction.staged tx b = sb_image <$> List.find (Transaction.targets b) (Transaction.updates tx).
Proof using. done. Qed.

(** Staging replaces or adds exactly one after-image. *)
Lemma stage_spec tx target image :
  wp (Transaction.stage target image)
    (λ _ tx', Transaction.id tx' = Transaction.id tx ∧ Transaction.state tx' = Transaction.state tx ∧
       (is_Some (Transaction.staged tx target) ∧
          (∃ i u, Transaction.updates tx !! i = Some u ∧ sb_target u = target ∧
             Transaction.updates tx' = <[i := {| sb_target := target; sb_image := image |}]> (Transaction.updates tx))
        ∨ Transaction.staged tx target = None ∧ (length (Transaction.updates tx) < PHASE3_MAX_UPDATES - 1)%nat ∧
          Transaction.updates tx' = Transaction.updates tx ++ [{| sb_target := target; sb_image := image |}]))
    (λ e tx', e = FsError.TransactionTooLarge ∧ tx' = tx ∧ Transaction.staged tx target = None ∧
       (PHASE3_MAX_UPDATES - 1 ≤ length (Transaction.updates tx))%nat) tx.
Proof using.
  unfold Transaction.stage. wp_steps.
  destruct (position (Transaction.targets target) (Transaction.updates tx)) as [i|] eqn:E.
  - destruct (position_Some _ _ _ E) as (u & Hu & Ht & _). unfold Transaction.targets in Ht. bool_simpl.
    wp_steps. split_and!; [done..|]. left. split; [|by exists i, u].
    unfold Transaction.staged. destruct (List.find _ _) eqn:Ef; [done|].
    by apply (find_target_None _ _ Ef u (list_elem_of_lookup_2 _ _ _ Hu)) in Ht.
  - assert (Transaction.staged tx target = None) as Hn.
    { unfold Transaction.staged. destruct (List.find _ _) as [u|] eqn:Ef; [|done].
      apply find_target in Ef as [Hu Ht]. pose proof (position_None _ _ E u Hu) as Hf.
      unfold Transaction.targets in Hf. bool_simpl. done. }
    wp_steps.
    + match goal with H : (_ <=? _)%nat = true |- _ => apply Nat.leb_le in H end. done.
    + match goal with H : (_ <=? _)%nat = false |- _ => apply Nat.leb_gt in H end.
      split_and!; [done..|]. right. done.
Qed.

(** The state that a commit of [tx] writes. *)
Definition next_state (st : FilesystemState.t) (tx : Transaction.t) : FilesystemState.t :=
  let pending := Transaction.state tx in
  FilesystemState.mk (FilesystemState.generation st + 1) (Transaction.id tx + 1)
    (FilesystemState.orphan_head pending) (FilesystemState.free_block_count pending)
    (FilesystemState.free_inode_count pending).

(** The home blocks that a commit of [tx] leaves: staged images, the new state
    block, and otherwise the old contents. *)
Definition committed_home (st : FilesystemState.t) (tx : Transaction.t) (m : disk) : disk := λ b,
  if decide (b = Superblock.filesystem_state_block sb)
  then image (StateCodec.updates (next_state st tx))
  else default (m b) (Transaction.staged tx b).

Section committing.
Context (m : disk) (st : FilesystemState.t) (tx : Transaction.t).
Context (Hst : FilesystemState.typed st) (Htx : tx_ok st tx).
Context (Hgen : FilesystemState.generation st + 1 ≤ u64_max) (Hid : Transaction.id tx + 1 ≤ u64_max).
Context (Hvalid : FilesystemState.validate st = Ok ()).

Lemma next_state_typed : FilesystemState.typed (next_state st tx).
Proof using Hst Htx Hgen Hid.
  destruct Hst as (Hg1 & Hn1 & _). destruct (tx_typed _ _ Htx) as (_ & _ & ? & ? & ?).
  rewrite (tx_id _ _ Htx) in Hid. unfold FilesystemState.typed, is_u64 in *; cbn.
  rewrite (tx_id _ _ Htx). lia.
Qed.

Lemma next_state_encodes : FilesystemState.encode (next_state st tx) = Ok (image (StateCodec.updates (next_state st tx))).
Proof using Hst Htx.
  apply StateCodec.state_encode_eq. split; [|done]. destruct Hst as ([H0 _] & [H1 _] & _).
  unfold FilesystemState.validate. cbn. rewrite (tx_id _ _ Htx).
  by rewrite !(proj2 (Z.eqb_neq _ _)) by lia.
Qed.

Lemma commit_carries tx' :
  Transaction.id tx' = Transaction.id tx →
  Transaction.updates tx' = Transaction.updates tx ++
    [{| sb_target := Superblock.filesystem_state_block sb;
        sb_image := image (StateCodec.updates (next_state st tx)) |}] →
  (length (Transaction.updates tx) < PHASE3_MAX_UPDATES - 1)%nat →
  carries m st tx' (next_state st tx).
Proof using Hg Hst Htx Hgen Hid Hvalid.
  intros Hi Hu Hlen. pose proof (next_state_encodes) as Henc.
  assert (Superblock.filesystem_state_block sb < Superblock.first_allocatable_block sb) as Hlt.
  { rewrite (SuperblockCodec.geo_state _ Hg), (SuperblockCodec.geo_first _ Hg). done. }
  assert (NoDup (sb_target <$> Transaction.updates tx')) as Hnd.
  { rewrite Hu, fmap_app. apply NoDup_app. split_and!; [apply Htx| |apply NoDup_singleton].
    intros b (u & Hb & Hin)%list_elem_of_fmap Hs%list_elem_of_singleton. cbn in *.
    pose proof (tx_home _ _ Htx u Hin). lia. }
  split.
  - split.
    + rewrite Hi. rewrite (tx_id _ _ Htx) in *. destruct Hst as (_ & [? _] & _).
      unfold FilesystemState.validate in Hvalid. destruct (_ || _) eqn:E in Hvalid; [done|]. bool_simpl. lia.
    + rewrite Hu, length_app. cbn. unfold PHASE3_MAX_UPDATES in *. lia.
    + done.
    + rewrite Hu. intros u [Hin| ->%list_elem_of_singleton]%elem_of_app; [right; by apply Htx|by left].
    + rewrite Hu. intros u [Hin| ->%list_elem_of_singleton]%elem_of_app; [by apply Htx|].
      by eapply StateCodec.state_is_block.
    + rewrite Hu. intros u [Hin| ->%list_elem_of_singleton]%elem_of_app; [by apply Htx|].
      eapply (encode_ok (BlockCodec := StateCodec.state_codec)); [apply next_state_typed|exact Henc].
  - apply next_state_typed.
  - eexists. split; [exact Henc|].
    rewrite <- (find_target_elem _ {| sb_target := Superblock.filesystem_state_block sb;
        sb_image := image (StateCodec.updates (next_state st tx)) |} Hnd); [done|].
    rewrite Hu. apply elem_of_app. right. by apply list_elem_of_singleton.
  - by rewrite Hi.
  - cbn. lia.
Qed.

Lemma commit_home tx' b :
  Transaction.updates tx' = Transaction.updates tx ++
    [{| sb_target := Superblock.filesystem_state_block sb;
        sb_image := image (StateCodec.updates (next_state st tx)) |}] →
  NoDup (sb_target <$> Transaction.updates tx') →
  after_image (Transaction.updates tx') b (m b) = committed_home st tx m b.
Proof using.
  intros Hu Hnd. rewrite Hu in *. rewrite after_image_snoc by done. unfold committed_home. cbn [sb_target sb_image].
  destruct (decide _); [done|]. unfold after_image, Transaction.staged. by destruct (List.find _ _).
Qed.
End committing.

Lemma state_decode_validate b st : FilesystemState.decode b = Ok st → FilesystemState.validate st = Ok ().
Proof using. unfold FilesystemState.decode. cbv zeta. intros H. oks. by destruct a2. Qed.

(** The counts and the orphans of the state block. *)
Definition same_counts (st pend : FilesystemState.t) : Prop :=
  FilesystemState.orphan_head st = FilesystemState.orphan_head pend ∧
  FilesystemState.free_block_count st = FilesystemState.free_block_count pend ∧
  FilesystemState.free_inode_count st = FilesystemState.free_inode_count pend.

(** How a commit may fail. *)
Definition commit_error (e : FsError.t) : Prop :=
  device_error e ∨ exhausted e ∨ e = FsError.TransactionTooLarge.

Lemma stands_ext m h h' : stands torn sb m h → (∀ b, h b = h' b) → stands torn sb m h'.
Proof using.
  intros [? ? ? ? Hh|? ? ? ? ? ? ? ? ? Hh] Heq.
  - eapply stands_clean; [done..|]. intros b Hb. rewrite <- Heq. auto.
  - eapply stands_committed; [done..|]. intros b Hb. rewrite <- Heq. auto.
Qed.

Lemma idle_frame s m st p tx : idle s m st → idle (set_poisoned p (set_transaction tx s)) m st.
Proof using. by intros []. Qed.

Lemma idle_old (s : fs) m st h : idle s m st → old_or_new (device s) m h.
Proof using.
  intros [Hsb Hset Hch Hgen _ _ _]. split; [apply Hset|]. intros mc Hc. left.
  pose proof (settled_crash _ _ _ Hset Hc) as Hm.
  apply (stands_clean _ _ _ _ _ _ (eq_trans (chosen_ext sb m mc (λ _ _, Hm _)) Hch)); [done..|].
  intros b _. apply Hm.
Qed.

(** A call on a local transaction. *)
Lemma wp_local {A} (c : M Transaction.t FsError.t A) tx (Q : Transaction.t → fs → Prop) R s :
  wp c (λ _ tx', Q tx' s) (λ e _, R e s) tx →
  wp (λ s, let '(o, tx') := c tx in
           (match o with Ok _ => Ok tx' | Err e => Err e | Abort => Abort end, s)) Q R s.
Proof using. unfold wp. by destruct (c tx) as [[] ?]. Qed.

(** After a failed commit: the transaction is gone, a device error poisons the
    filesystem, and the device holds the old blocks or the new ones; a filesystem
    that is not poisoned has only lost the transaction. *)
Record commit_failed (s : fs) (m h : disk) (tx : Transaction.t) (e : FsError.t) (s' : fs) : Prop := {
  cf_error : commit_error e;
  cf_superblock : superblock s' = sb;
  cf_transaction : transaction s' = None;
  cf_poisoned : device_error e → poisoned s' = true;
  cf_full : e = FsError.TransactionTooLarge →
    device s' = device s ∧ (PHASE3_MAX_UPDATES - 1 ≤ length (Transaction.updates tx))%nat;
  cf_disk : old_or_new (device s') m h;
  cf_rest : poisoned s' = true ∧ (∃ st', FilesystemState.decode (h (Superblock.filesystem_state_block sb)) = Ok st' ∧
      same_counts st' (Transaction.state tx)) ∨ s' = set_transaction None s;
}.

Lemma commit_transaction_spec (s : fs) m st tx : writable s m st → transaction s = Some tx →
  wp commit_transaction
    (λ _ s', (length (Transaction.updates tx) < PHASE3_MAX_UPDATES - 1)%nat ∧
       ∃ m', writable s' m' (next_state st tx) ∧ transaction s' = None ∧
         ∀ b, kept sb b → m' b = committed_home st tx m b)
    (commit_failed s m (committed_home st tx m) tx) s.
Proof using Hg Hcap torn_control.
  intros [Hidle Hmode Hpoi Hov Htxok] Htx. specialize (Htxok tx Htx). pose proof Hidle as [Hsb Hset Hch Hgen Hst Hty Hdec].
  pose proof (state_decode_validate _ _ Hdec) as Hval.
  unfold commit_transaction, ensure_writable. wp_step. apply wp_reads. rewrite Hpoi, bool_decide_true by done.
  cbn [wpo]. wp_steps. rewrite Htx. wp_steps.
  2:{ congruence. }
  assert (a = st) as -> by congruence.
  set (s1 := set_transaction None s). assert (idle s1 m st) as Hidle1 by by destruct Hidle.
  pose proof (idle_old s1 m st (committed_home st tx m) Hidle1) as Hold.
  assert (commit_failed s m (committed_home st tx m) tx (FsError.Format FormatError.IdentifierExhausted) s1) as Hexh.
  { split; [by right; left|done|done|by intros [? [=]]|done|done|by right]. }
  apply next_generation_spec; [intros Hgmax|exact Hexh]. wp_step.
  apply (next_generation_spec (Transaction.id tx)); [intros Hidmax|exact Hexh]. wp_step.
  eapply wp_format; [by apply (next_state_encodes st tx Hty Htxok)|]. wp_steps.
  { exfalso. bool_simpl. match goal with H : is_Some _ |- _ => destruct H as [image Hs] end.
    unfold Transaction.staged in Hs. destruct (List.find _ _) as [u|] eqn:E; [|done].
    apply find_target in E as [Hu Ht]. pose proof (tx_home _ _ Htxok u Hu). rewrite Hsb in Ht.
    rewrite Ht, (SuperblockCodec.geo_state _ Hg), (SuperblockCodec.geo_first _ Hg) in *. by destruct H0. }
  apply wp_local. rewrite Hsb in *.
  eapply wp_mono; [apply stage_spec| |].
  2:{ cbv beta. intros e tx' (-> & _ & _ & Hlen). split; [by right; right|done|done|by intros [? [=]]|done|done|by right]. }
  cbv beta. intros _ tx' (Hid & _ & [[Hs _]|(_ & Hlen & Hups)]).
  { bool_simpl. done. }
  pose proof (commit_carries m st tx Hty Htxok Hgmax Hidmax Hval tx' Hid Hups Hlen) as Hca.
  assert (∀ b, after_image (Transaction.updates tx') b (m b) = committed_home st tx m b) as Hhome.
  { intros b. apply commit_home; [done|]. apply Hca. }
  wp_step. eapply wp_mono; [apply (commit_updates_spec s1 m st tx' _ Hidle1 Hca)| |].
  - intros _ s' (d' & m' & Hidle' & Hm' & ->). wp_steps. split; [done|]. exists m'. split_and!; [|done|].
    + split; [exact Hidle'|exact Hmode|exact Hpoi|exact Hov|done].
    + intros b Hb. by rewrite Hm'.
  - intros e s' [He (d' & -> & [Hok Hdisk])]. wp_steps. split; [|done|done|done| | |left; split; [done|]; exists (next_state st tx)].
    + destruct He; [by left|by right; left].
    + intros ->. by destruct He as [[? [=]]|[=]].
    + split; [done|]. intros mc Hc. destruct (Hdisk mc Hc) as [?|Hn]; [by left|right].
      by apply (stands_ext _ _ _ Hn).
    + split; [|by split_and!]. unfold committed_home. rewrite decide_True by done.
      apply (decode_encode (BlockCodec := StateCodec.state_codec)); [by apply next_state_typed|].
      by apply (next_state_encodes st tx Hty Htxok).
Qed.
End area.
End steps.
