(* ===== verification/JournalRecovery.v ===== *)
(** * Recovery of the NullFS journal

    The specification of [recover_journal] on a device whose disk stands for
    the home blocks [h]: a writable recovery installs exactly [h], a read-only
    one overlays it, and a failed one leaves a disk that still stands for
    [h]. *)

From stdpp Require Import base list numbers option sets.
From Stdlib Require Import ZArith Lia.
From S2P Require Import Prelude NullfsBytes NullfsPhase3 NullfsSuperblock BlockDevice Journal JournalDisk JournalSteps.

Open Scope Z_scope.

Section recovery.
Context {D : Type} {HD : BlockDevice D} {torn : list Z → Prop} {HC : CrashSafe D torn}.
Notation fs := (Filesystem D).
Context (sb : Superblock.t) (Hg : SuperblockCodec.geometry sb) (Hcap : Superblock.capacity_blocks sb ≤ u64_max).

(** *** Reading the journal *)

Lemma select_control_spec (s : fs) m P : superblock s = sb → holds (device s) m P →
  wp select_control (λ cs s', s' = s ∧ chosen sb m = Ok cs)
    (λ e s', s' = s ∧ (device_error e ∨ chosen sb m = Err e)) s.
Proof using Hg.
  intros Hs Hh. unfold select_control. wp_steps. rewrite Hs.
  assert (∀ slot, slot = 0 ∨ slot = 1 → 0 ≤ control_block sb slot) as Hpos.
  { intros slot ?. rewrite (control_block_eq sb Hg). lia. }
  eapply wp_mono; [apply (dev_read s _ _ _ Hh); auto| |by intros e s' [? ->]; auto].
  intros x0 s0 (-> & -> & _). wp_steps.
  eapply wp_mono; [apply (dev_read s _ _ _ Hh); auto| |by intros e s' [? ->]; auto].
  intros x1 s1 (-> & -> & _). apply wp_lift. fold (control_at sb m 0) (control_at sb m 1). fold (chosen sb m).
  destruct (chosen sb m) as [cs|e|] eqn:E; [done|cbn [wpo]; auto|].
  unfold chosen, choose_control in E. by repeat case_match.
Qed.

Lemma read_entries_spec (s : fs) m P id ups : updates_ok sb id ups → superblock s = sb →
  holds (device s) m P → entries_on sb m id ups → ∀ l done, ups = done ++ l →
  wp (read_entries (length l) (length done) (tags_of id done) (sb_image <$> done))
    (λ r s', s' = s ∧ r = (tags_of id ups, sb_image <$> ups)) (λ e s', device_error e ∧ s' = s) s.
Proof using Hg Hcap.
  intros Hups Hs Hh He l. induction l as [|u l IH]; intros done Heq; cbn [length read_entries].
  { rewrite app_nil_r in Heq. subst done. by wp_steps. }
  assert (ups !! length done = Some u) as Hu by (by rewrite Heq, list_lookup_middle).
  pose proof (list_elem_of_lookup_2 _ _ _ Hu) as Hin. destruct (He _ _ Hu) as [Htag Himg].
  destruct (tag_valid sb Hg Hcap id ups Hups _ _ Hu) as [_ Hty].
  wp_steps. rewrite Hs.
  eapply wp_mono; [apply (dev_read s _ _ _ Hh); rewrite (tag_block_eq sb Hg); lia| |by intros e s' [? ->]].
  intros ? s1 (-> & -> & _). wp_steps.
  eapply wp_format; [apply (decode_encode (BlockCodec := TagCodec.tag_codec) _ _ Hty Htag)|].
  wp_step. apply (ensure_home_ok sb); [done|by apply Hups|]. wp_step. wp_step. wp_step.
  { exfalso. apply any_true in H as (tg & [j Hj]%list_elem_of_lookup & Ht). bool_simpl.
    unfold tags_of in Hj. rewrite list_lookup_imap in Hj.
    destruct (done !! j) as [v|] eqn:Hv; [|done]. cbn in Hj. injection Hj as <-. cbn in Ht.
    assert (j = length done); [|by apply lookup_lt_Some in Hv; lia].
    eapply NoDup_lookup; [exact (up_distinct _ _ _ Hups)|..]; rewrite list_lookup_fmap.
    - by rewrite Heq, lookup_app_l, Hv by (by eapply lookup_lt_Some).
    - by rewrite Hu, Ht. }
  wp_step. eapply wp_mono; [apply (dev_read s _ _ _ Hh); rewrite (image_block_eq sb Hg); lia| |by intros e s' [? ->]].
  intros ? s2 (-> & -> & Hblk & _). rewrite Himg in *. wp_step. wp_step. wp_step.
  { unfold JournalTag.image_matches in *. rewrite Hblk, Nat.eqb_refl in *. cbn [tag_for JournalTag.image_checksum] in *.
    by rewrite Z.eqb_refl in *. }
  rewrite <- tags_of_snoc. change (push (sb_image <$> done) (sb_image u)) with ((sb_image <$> done) ++ (sb_image <$> [u])).
  rewrite <- fmap_app. replace (S (length done)) with (length (done ++ [u])) by (rewrite length_app; cbn; lia).
  apply IH. by rewrite <- app_assoc.
Qed.
(** *** The committed transaction *)

Lemma zip_entries id ups : zip (tags_of id ups) (sb_image <$> ups) = imap (λ i u, (tag_for id i u, sb_image u)) ups.
Proof using.
  unfold tags_of. generalize (tag_for id). induction ups as [|u ups IH]; intros f; [done|].
  rewrite !imap_cons. cbn [fmap list_fmap zip zip_with]. f_equal. apply (IH (f ∘ S)).
Qed.

Lemma home_pairs_entries id ups : home_pairs (tags_of id ups) (sb_image <$> ups) = pair_of <$> ups.
Proof using.
  unfold home_pairs. apply list_eq. intros i. rewrite zip_entries, !list_lookup_fmap, list_lookup_imap.
  by destruct (ups !! i).
Qed.

Lemma filter_entries (f : nat → StagedBlock → JournalTag.t) b ups :
  (∀ i u, JournalTag.target_home_block (f i u) = sb_target u) → NoDup (sb_target <$> ups) →
  snd <$> List.filter (λ p, JournalTag.target_home_block p.1 =? b) (imap (λ i u, (f i u, sb_image u)) ups) =
  match List.find (Transaction.targets b) ups with Some u => [sb_image u] | None => [] end.
Proof using.
  revert f. induction ups as [|u ups IH]; intros f Hf Hnd; [done|].
  apply NoDup_cons in Hnd as [Hu Hnd]. rewrite imap_cons. cbn [List.filter List.find fst].
  specialize (IH (f ∘ S) (λ i, Hf (S i)) Hnd). unfold compose in IH |- *. rewrite Hf.
  unfold Transaction.targets at 1. destruct (sb_target u =? b) eqn:E; [|exact IH].
  cbn [fmap list_fmap snd]. f_equal. etrans; [exact IH|]. destruct (List.find _ ups) as [v|] eqn:Ef; [|done].
  apply find_target in Ef as [Hv Ht]. destruct Hu. apply list_elem_of_fmap. exists v. bool_simpl. by split; [congruence|].
Qed.

Lemma state_image_entries id ups b u : NoDup (sb_target <$> ups) →
  List.find (Transaction.targets b) ups = Some u →
  state_image b (tags_of id ups) (sb_image <$> ups) = Ok (sb_image u).
Proof using.
  intros Hnd Hu. pose proof (filter_entries (tag_for id) b ups (λ _ _, eq_refl) Hnd) as Hf.
  rewrite Hu in Hf. unfold state_image. rewrite zip_entries.
  destruct (List.filter _ _) as [|[tg im] [|]]; [done| |done]. by injection Hf as ->.
Qed.

Lemma validate_tags_entries generation id ups : 1 ≤ generation → updates_ok sb id ups →
  JournalControl.validate_tags (commit_record generation id ups) (tags_of id ups) = Ok ().
Proof using Hg Hcap.
  intros Hgen Hups. destruct (up_id _ _ _ Hups), (up_len _ _ _ Hups).
  unfold JournalControl.validate_tags, JournalControl.validate, JournalControl.canonical, PHASE3_MAX_UPDATES in *.
  cbn [JournalControl.generation JournalControl.state JournalControl.transaction_id JournalControl.tags_digest
       JournalControl.update_count commit_record].
  rewrite (proj2 (Z.eqb_neq generation 0)), (proj2 (Z.eqb_neq id 0)),
      (proj2 (Z.eqb_neq (Z.of_nat _) 0)), (proj2 (Z.leb_le _ _)) by lia.
  cbn [negb andb mbind outcome_bind]. rewrite length_tags_of, Z.eqb_refl. cbn [negb err_if mbind outcome_bind].
  rewrite (tag_sequence sb Hg Hcap id ups Hups). cbn [mbind outcome_bind]. by rewrite Z.eqb_refl.
Qed.
(** The reading half of a recovery: entries, digest, state block and the checks
    against the state on the disk. *)
Definition read_committed (control : JournalControl.t)
    (k : list (Z * list Z) → FilesystemState.t → fs → M fs FsError.t unit) : M fs FsError.t unit :=
  entries ← read_entries (Z.to_nat (JournalControl.update_count control)) 0 [] [];
  let '(tags, images) := entries in
  _ ← on_format (JournalControl.validate_tags control tags);
  s ← get;
  let state_target := Superblock.filesystem_state_block (superblock s) in
  image ← lift (state_image state_target tags images);
  recovered_state ← on_format (FilesystemState.decode image);
  old_state_image ← on_device (read_blocks state_target BLOCK_SIZE);
  old_state ← on_format (FilesystemState.decode old_state_image);
  next_id ← on_format (next_transaction_id (JournalControl.transaction_id control));
  _ ← lift (err_if (negb (FilesystemState.next_transaction_id recovered_state =? next_id)
                    || (FilesystemState.generation recovered_state <? FilesystemState.generation old_state))
              FsError.CorruptJournal);
  k (home_pairs tags images) recovered_state s.

Lemma read_committed_spec (s : fs) m P generation slot id ups st k (Q : unit → fs → Prop) (R : FsError.t → fs → Prop) :
  superblock s = sb → holds (device s) m P → replayable torn sb m generation slot id ups st →
  (∀ e, device_error e ∨ torn (m (Superblock.filesystem_state_block sb)) → R e s) →
  wp (k (pair_of <$> ups) st s) Q R s →
  wp (read_committed (commit_record generation id ups) k) Q R s.
Proof using Hg Hcap.
  intros Hs Hh [_ Hgen Hups Hent [Hty (image & Henc & Hf) Hnext Hold]] HR HQ. unfold read_committed. wp_step.
  cbn [JournalControl.update_count JournalControl.transaction_id commit_record]. rewrite Nat2Z.id.
  eapply wp_mono; [apply (read_entries_spec s m P id ups Hups Hs Hh Hent ups [] eq_refl)| |].
  2:{ intros e s' [He ->]. auto. }
  intros ? s1 [-> ->]. wp_step. eapply wp_format; [by apply validate_tags_entries|]. wp_steps. rewrite Hs.
  rewrite (state_image_entries id ups _ _ (up_distinct _ _ _ Hups) Hf). cbn [wpo sb_image]. wp_step.
  eapply wp_format; [exact (decode_encode (BlockCodec := StateCodec.state_codec) _ _ Hty Henc)|]. wp_step.
  eapply wp_mono; [apply (dev_read s _ _ _ Hh)| |by intros e s' [? ->]; auto].
  { rewrite (SuperblockCodec.geo_state _ Hg). done. }
  intros ? s2 (-> & -> & _). rewrite home_pairs_entries.
  assert (∀ old, FilesystemState.decode (m (Superblock.filesystem_state_block sb)) = Ok old →
    torn (m (Superblock.filesystem_state_block sb)) ∨ FilesystemState.generation old ≤ FilesystemState.generation st) as Hcheck.
  { intros old Ho. destruct Hold as [?|(old' & Ho' & Hle)]; [by left|right]. congruence. }
  wp_step. apply wp_lift. destruct (FilesystemState.decode (m _)) as [old|e|] eqn:Ho; cbn [map_err wpo].
  3:{ by apply (decode_no_abort (BlockCodec := StateCodec.state_codec)) in Ho. }
  2:{ apply HR. right. destruct Hold as [?|(old & [=] & _)]. done. }
  wp_step. destruct (up_id _ _ _ Hups). eapply wp_format.
  { unfold next_transaction_id, checked_add. by rewrite (proj2 (Z.leb_le (id + 1) u64_max)) by lia. }
  wp_steps; [|exact HQ]. apply HR. right. rewrite Hnext, Z.eqb_refl in *. cbn [negb orb] in *. bool_simpl.
  destruct (Hcheck old eq_refl); [done|lia].
Qed.

(** *** Recovery for writing *)

Context (torn_control : ∀ y c, torn y → JournalControl.decode y ≠ Ok c).

(** An empty control is [JournalControl::empty]. *)
Lemma chosen_empty m control slot : chosen sb m = Ok (control, slot) → JournalControl.state control = Empty →
  control = JournalControl.empty (JournalControl.generation control).
Proof using.
  intros [_ Hc]%chosen_at He. unfold control_at, ok_of in Hc.
  destruct (JournalControl.decode _) as [c|e|] eqn:E; [|done..]. injection Hc as ->.
  unfold JournalControl.decode in E. cbv zeta in E. oks. cbn [JournalControl.state] in He. subst a2.
  unfold JournalControl.validate in E4. destruct (JournalControl.canonical _) eqn:Hv in E4; [|done].
  unfold JournalControl.canonical in Hv. cbn [JournalControl.state JournalControl.generation JournalControl.update_count
    JournalControl.transaction_id JournalControl.tags_digest] in Hv |- *. bool_simpl. unfold JournalControl.empty. congruence.
Qed.

Lemma settled_stands m (d : D) h : settled d m → stands torn sb m h → always_stands sb (torn := torn) d h.
Proof using.
  intros Hset Hst. split; [apply Hset|]. intros mc Hc. pose proof (settled_crash _ _ _ Hset Hc) as Hm.
  destruct Hst as [c slot Hch He Hgen Hh|generation slot id ups st Hch Hgen Hups Hent Hsu Hh].
  - apply (stands_clean _ _ _ _ c slot); [|done..|].
    + rewrite <- Hch. by apply chosen_ext.
    + intros b Hb. rewrite Hm. auto.
  - apply (stands_committed _ _ _ _ generation slot id ups st); [|done..| | |].
    + rewrite <- Hch. by apply chosen_ext.
    + intros i u Hi. rewrite !Hm. auto.
    + destruct Hsu. split; [done..|]. by rewrite Hm.
    + intros b Hb. rewrite Hm. auto.
Qed.

Lemma recover_journal_spec (s : fs) m h :
  superblock s = sb → mount_mode s = RuntimeReadWrite → settled (device s) m → stands torn sb m h →
  wp recover_journal
    (λ _ s', ∃ d' m' g slot, s' = set_journal g (1 - slot) (set_device d' s) ∧ 1 ≤ g ∧ published sb d' m' h g slot)
    (λ e s', (device_error e ∨ exhausted e ∨ torn (m (Superblock.filesystem_state_block sb))) ∧
       superblock s' = sb ∧ always_stands sb (torn := torn) (device s') h) s.
Proof using Hg Hcap torn_control.
  intros Hs Hmode Hset Hst.
  match goal with |- wp _ ?Q' ?R' _ => set (Q := Q'); set (R := R') end.
  unfold recover_journal. wp_step.
  assert (always_stands sb (torn := torn) (device s) h) as Hstay.
  { by apply (settled_stands m). }
  eapply wp_mono; [apply (select_control_spec s m _ Hs Hset)| |].
  2:{ intros e s' [-> [He|He]]; [by split_and!; [left|..]|]. destruct Hst; congruence. }
  intros [control slot] s1 [-> Hch]. wp_steps.
  destruct Hst as [c sl Hch' He Hgen Hh|generation sl id ups st Hch' Hgen Hups Hent Hsu Hh];
    pose proof (eq_trans (eq_sym Hch) Hch') as [-> ->]%(inj Ok)%pair_eq; clear Hch'.
  - rewrite bool_decide_true by done. wp_steps. exists (device s), m, (JournalControl.generation c), sl.
    rewrite set_device_device. split_and!; [done..|]. split; [done| |done].
    by rewrite <- (chosen_empty _ _ _ Hch).
  - rewrite bool_decide_false by done. cbn [JournalControl.generation commit_record].
    rename sl into slot. set (s1 := set_journal generation (1 - slot) s).
    change (wp (read_committed (commit_record generation id ups) (λ pairs st s,
      if bool_decide (mount_mode s = RuntimeReadOnly) then
        modify (λ s, set_state (Some st) (set_overlay pairs s))
      else publish (superblock s) pairs generation (1 - slot) (λ g, modify (set_journal g slot)))) Q R s1).
    pose proof (Build_replayable torn sb m generation slot id ups st Hch Hgen Hups Hent Hsu) as Hrp.
    eapply (read_committed_spec s1); [done|exact Hset|exact Hrp| |].
    + intros e He. split_and!; [tauto|done..].
    + change (mount_mode s1) with (mount_mode s). rewrite Hmode, bool_decide_false by done.
      change (superblock s1) with (superblock s). rewrite Hs.
      apply (publish_spec sb Hg Hcap torn_control s1 m h generation slot (1 - slot) id ups st);
        [exact Hset|exact Hrp|done|exact Hh| |].
      * intros d' m' _ Hpub. apply wp_modify. exists d', m', (generation + 1), (1 - slot).
        replace (1 - (1 - slot)) with slot by lia. split_and!; [done|lia|done].
      * intros e d' He Hstands. subst R. cbv beta. split_and!; [tauto|done|done].
Qed.

(** *** Recovery for reading *)

(** What reads see through the overlay. *)
Definition overlaid (overlay : list (Z * list Z)) (b : Z) (x : list Z) : list Z :=
  match List.find (λ p, p.1 =? b) overlay with Some (_, image) => image | None => x end.

Lemma overlaid_pairs ups b x : overlaid (pair_of <$> ups) b x = after_image ups b x.
Proof using.
  unfold overlaid, after_image. induction ups as [|u ups IH]; [done|].
  cbn [fmap list_fmap List.find pair_of fst]. unfold Transaction.targets at 1.
  by destruct (sb_target u =? b).
Qed.

(** A recovery for reading: nothing is written, reads see [h]. *)
Record overlays (s s' : fs) (m h : disk) : Prop := {
  ov_device : device s' = device s;
  ov_superblock : superblock s' = sb;
  ov_transaction : transaction s' = transaction s;
  ov_home : ∀ b, kept sb b → overlaid (recovery_overlay s') b (m b) = h b;
  ov_state : state s' = state s ∧ recovery_overlay s' = [] ∨
    ∃ st, state s' = Some st ∧ FilesystemState.decode (h (Superblock.filesystem_state_block sb)) = Ok st;
}.

Lemma recover_read_only_spec (s : fs) m P h :
  superblock s = sb → mount_mode s = RuntimeReadOnly → recovery_overlay s = [] →
  holds (device s) m P → stands torn sb m h →
  wp recover_journal (λ _ s', overlays s s' m h)
    (λ e s', device s' = device s ∧
       (device_error e ∨ torn (m (Superblock.filesystem_state_block sb)))) s.
Proof using Hg Hcap.
  intros Hs Hmode Hov Hh Hst.
  match goal with |- wp _ ?Q' ?R' _ => set (Q := Q'); set (R := R') end.
  unfold recover_journal. wp_step.
  eapply wp_mono; [apply (select_control_spec s m _ Hs Hh)| |].
  2:{ intros e s' [-> [He|He]]; [by split; [|left]|]. destruct Hst; congruence. }
  intros [control slot] s1 [-> Hch]. wp_steps.
  destruct Hst as [c sl Hch' He Hgen Hhome|generation sl id ups st Hch' Hgen Hups Hent Hsu Hhome];
    pose proof (eq_trans (eq_sym Hch) Hch') as [-> ->]%(inj Ok)%pair_eq; clear Hch'.
  - rewrite bool_decide_true by done. wp_steps. split; [done..| |by left].
    intros b Hb. cbn [recovery_overlay set_journal]. rewrite Hov. exact (Hhome b Hb).
  - rewrite bool_decide_false by done. cbn [JournalControl.generation commit_record].
    set (s1 := set_journal generation (1 - sl) s).
    change (wp (read_committed (commit_record generation id ups) (λ pairs st s,
      if bool_decide (mount_mode s = RuntimeReadOnly) then
        modify (λ s, set_state (Some st) (set_overlay pairs s))
      else publish (superblock s) pairs generation (1 - sl) (λ g, modify (set_journal g sl)))) Q R s1).
    eapply (read_committed_spec s1); [done|exact Hh|by split| |].
    + intros e He. by split.
    + change (mount_mode s1) with (mount_mode s). rewrite Hmode, bool_decide_true by done.
      apply wp_modify. split; [done..| |].
      * intros b Hb. cbn [recovery_overlay set_state set_overlay]. rewrite overlaid_pairs. by apply Hhome.
      * right. exists st. split; [done|]. rewrite <- Hhome by (by left; left).
        destruct Hsu as [Hty (image & Henc & Hf) _ _]. unfold after_image. rewrite Hf.
        by apply (decode_encode (BlockCodec := StateCodec.state_codec)).
Qed.

(** *** Blocks as the operations see them *)

(** Staged images first, then the overlay, then the device. *)
Definition block_seen (s : fs) (m : disk) (b : Z) : list Z :=
  match transaction s ≫= λ tx, Transaction.staged tx b with
  | Some image => image
  | None => overlaid (recovery_overlay s) b (m b)
  end.

Lemma read_block_spec (s : fs) m P b : holds (device s) m P → 0 ≤ b →
  wp (read_block b) (λ x s', s' = s ∧ x = block_seen s m b) (λ e s', device_error e ∧ s' = s) s.
Proof using.
  intros Hh Hb. unfold read_block, block_seen, overlaid. wp_steps.
  destruct (transaction s ≫= _); [by wp_steps|]. destruct (List.find _ _) as [[? ?]|]; [by wp_steps|].
  eapply wp_mono; [by apply (dev_read s _ _ _ Hh)|by intros ? ? (-> & -> & _)|done].
Qed.

Lemma read_state_spec (s : fs) m P st : superblock s = sb → holds (device s) m P →
  FilesystemState.decode (m (Superblock.filesystem_state_block sb)) = Ok st →
  wp read_state (λ _ s', s' = set_state (Some st) s) (λ e s', device_error e ∧ s' = s) s.
Proof using Hg.
  intros Hs Hh Hd. unfold read_state. wp_steps. rewrite Hs.
  eapply wp_mono; [apply (dev_read s _ _ _ Hh)| |done].
  { by rewrite (SuperblockCodec.geo_state _ Hg). }
  intros ? s1 (-> & -> & _). wp_step. eapply wp_format; [exact Hd|]. by apply wp_modify.
Qed.

Lemma begin_transaction_spec (s : fs) m st : writable sb s m st →
  wp begin_transaction
    (λ _ s', writable sb s' m st ∧ ∃ tx, transaction s' = Some tx ∧ s' = set_transaction (Some tx) s ∧
       ∀ b, Transaction.staged tx b = transaction s ≫= λ tx, Transaction.staged tx b)
    (λ _ _, False) s.
Proof using.
  clear Hg Hcap. intros Hw. pose proof Hw as [[Hsb Hset Hch Hgen Hst Hty Hdec] Hmode Hpoi Hov Htx].
  unfold begin_transaction, ensure_writable. wp_step. apply wp_reads.
  rewrite Hpoi, bool_decide_true by done. cbn [wpo]. wp_steps. destruct (transaction s) as [tx|] eqn:E.
  { wp_steps. split; [done|]. exists tx. split_and!; [done| |done].
    unfold set_transaction. by rewrite <- E; destruct s. }
  rewrite Hst. wp_steps; [|done]. simplify_eq. split.
  - split; [by split|done..|]. intros tx [= <-]. split; [done|done|apply Nat.le_0_l|apply NoDup_nil_2|..]; by intros u ?%not_elem_of_nil.
  - eexists. done.
Qed.

Lemma staged_elem tx b x : NoDup (sb_target <$> Transaction.updates tx) →
  Transaction.staged tx b = Some x ↔ {| sb_target := b; sb_image := x |} ∈ Transaction.updates tx.
Proof using.
  intros Hnd. unfold Transaction.staged. split.
  - destruct (List.find _ _) as [[t y]|] eqn:E; [|done]. apply find_target in E as [Hin Ht].
    cbn in *. intros [= ->]. by subst t.
  - intros Hin. pose proof (find_target_elem _ _ Hnd Hin) as Hf. cbn [sb_target] in Hf. by rewrite Hf.
Qed.

(** Staging as an update of the set of after-images. *)
Lemma stage_updates tx tx' target x : NoDup (sb_target <$> Transaction.updates tx) →
  (length (Transaction.updates tx) ≤ PHASE3_MAX_UPDATES - 1)%nat → Transaction.stage target x tx = (Ok (), tx') →
  NoDup (sb_target <$> Transaction.updates tx') ∧ (length (Transaction.updates tx') ≤ PHASE3_MAX_UPDATES - 1)%nat ∧
  ∀ u, u ∈ Transaction.updates tx' ↔ u = {| sb_target := target; sb_image := x |} ∨
    u ∈ Transaction.updates tx ∧ sb_target u ≠ target.
Proof using.
  clear Hg Hcap. intros Hnd Hlen Hst. pose proof (wp_ok _ _ _ _ _ _ (stage_spec tx target x) Hst) as (_ & _ & Hups).
  set (new := {| sb_target := target; sb_image := x |}) in *.
  destruct Hups as [(_ & i & u & Hu & Ht & ->)|(Hn & Hlt & ->)].
  - pose proof (lookup_lt_Some _ _ _ Hu) as Hi. split_and!; [|by rewrite length_insert|].
    + rewrite list_fmap_insert, list_insert_id; [done|]. rewrite list_lookup_fmap, Hu. cbn. by rewrite Ht.
    + intros v. rewrite !list_elem_of_lookup. split.
      * intros [j Hj]. destruct (decide (j = i)) as [->|Hne].
        { rewrite list_lookup_insert_eq in Hj by done. left. congruence. }
        rewrite list_lookup_insert_ne in Hj by done. right. split; [by exists j|]. intros Hv. destruct Hne.
        eapply NoDup_lookup; [exact Hnd|..]; rewrite list_lookup_fmap; [by rewrite Hj|by rewrite Hu; cbn; rewrite Hv, Ht].
      * intros [->|[[j Hj] Hne]]; [exists i; by rewrite list_lookup_insert_eq|].
        exists j. rewrite list_lookup_insert_ne; [done|]. intros ->. congruence.
  - assert (∀ u, u ∈ Transaction.updates tx → sb_target u ≠ target) as Hne.
    { apply find_target_None. unfold Transaction.staged in Hn. by destruct (List.find _ _). }
    split_and!; [|rewrite length_app; cbn [length]; lia|].
    + rewrite fmap_app. apply NoDup_app. split_and!; [done| |apply NoDup_singleton].
      intros b (v & -> & Hv)%list_elem_of_fmap Hs%list_elem_of_singleton. by apply (Hne v).
    + intros v. rewrite elem_of_app, list_elem_of_singleton. split; [intros [?|?]; auto|tauto].
Qed.

Lemma stage_tx_ok st tx tx' target x :
  tx_ok sb st tx → Superblock.first_allocatable_block sb ≤ target < Superblock.capacity_blocks sb →
  is_block x → bytes_ok x → Transaction.stage target x tx = (Ok (), tx') →
  tx_ok sb st tx' ∧ ∀ b, Transaction.staged tx' b = if decide (b = target) then Some x else Transaction.staged tx b.
Proof using.
  intros [Hid Hty Hlen Hnd Hhome Hblk] Ht Hx Hbx Hst.
  destruct (stage_updates tx tx' target x Hnd Hlen Hst) as (Hnd' & Hlen' & Hel).
  pose proof (wp_ok _ _ _ _ _ _ (stage_spec tx target x) Hst) as (Hi & Hs & _). split.
  - split; [congruence|congruence|done..| |]; intros u [->|[Hu _]]%Hel; auto.
  - intros b. apply option_eq. intros y. rewrite staged_elem, Hel by done.
    destruct (decide (b = target)) as [->|Hne].
    + split; [|by intros [= ->]; left]. intros [[= ->]|[_ []]]; done.
    + rewrite staged_elem by done. split; [|by right]. intros [[= ]|[? _]]; done.
Qed.

(** Staging a block changes what is seen there, and nothing on the device. *)
Lemma stage_block_spec (s : fs) m st target x : writable sb s m st → is_block x → bytes_ok x →
  wp (stage_block target x)
    (λ _ s', writable sb s' m st ∧ device s' = device s ∧
       Superblock.first_allocatable_block sb ≤ target < Superblock.capacity_blocks sb ∧
       ∀ b, block_seen s' m b = upd (block_seen s m) target x b)
    (λ e s', writable sb s' m st ∧ device s' = device s ∧ (∀ b, block_seen s' m b = block_seen s m b) ∧
       (e = FsError.ProtectedBlock ∧ ¬ Superblock.first_allocatable_block sb ≤ target < Superblock.capacity_blocks sb ∨
        e = FsError.TransactionTooLarge)) s.
Proof using.
  clear Hg Hcap. intros Hw Hx Hbx. pose proof (id_superblock _ _ _ _ (wr_idle _ _ _ _ Hw)) as Hsb.
  unfold stage_block, ensure_home_target, home_target. wp_steps; rewrite Hsb in *.
  { split_and!; [done..|]. left. split; [done|]. apply orb_true_iff in H as [?|?]; bool_simpl; lia. }
  bool_simpl. eapply wp_mono; [apply (begin_transaction_spec s m st Hw)|cbv beta|done].
  intros _ s1 (Hw1 & tx & Htx & -> & Hsame). pose proof (wr_transaction _ _ _ _ Hw1 _ Htx) as Hok.
  wp_steps; [|done]. match goal with H : transaction _ = Some _ |- _ => cbn in H; injection H as <- end.
  apply wp_intro.
  - apply (wp_no_abort _ _ _ _ (stage_spec _ target x)).
  - intros [] tx' Hst. destruct (stage_tx_ok st _ tx' target x Hok) as [Hok' Hs']; [lia|done..|].
    split_and!; [|done|lia..|].
    + destruct Hw1 as [[] ? ? ? ?]. split; [by split|done..|]. by intros ? [= <-].
    + intros b. unfold block_seen, upd. cbn. rewrite Hs', Hsame. by destruct (decide _).
  - intros e tx' Hst. pose proof (wp_err _ _ _ _ _ _ (stage_spec _ target x) Hst) as (-> & -> & _).
    split_and!; [|done| |by right].
    + by destruct Hw1 as [[] ? ? ? ?].
    + intros b. unfold block_seen. cbn. by rewrite Hsame.
Qed.
End recovery.
