(* ===== verification/JournalProps.v ===== *)
(** * Crash atomicity of the NullFS journal

    The journal against an abstract block store with a durable and a current
    contents, for any crash-safe device, and the same on the fault-injecting
    device of the test kit; recovery, read-only mounts, and the capacity of a
    transaction. *)

From stdpp Require Import base list numbers option sets.
From Stdlib Require Import ZArith Lia.
From S2P Require Import Prelude NullfsBytes NullfsPhase3 NullfsSuperblock NullfsAllocation BlockDevice.
From S2P Require Import CrashDevice Journal JournalDisk JournalSteps JournalRecovery.

Open Scope Z_scope.

(** ** The abstract block store *)

Record Store := { durable : disk; current : disk }.

Inductive store_op :=
| StageOp (target : Z) (image : list Z)
| ReadOp (b : Z)
| CommitOp.

Definition spec_op (op : store_op) (σ : Store) : option (list Z) * Store :=
  match op with
  | StageOp target x => (None, {| durable := durable σ; current := upd (current σ) target x |})
  | ReadOp b => (Some (current σ b), σ)
  | CommitOp => (None, {| durable := current σ; current := current σ |})
  end.

Fixpoint spec_ops (ops : list store_op) (σ : Store) : list (option (list Z)) * Store :=
  match ops with
  | [] => ([], σ)
  | op :: ops => let '(out, σ) := spec_op op σ in
                 let '(outs, σ) := spec_ops ops σ in (out :: outs, σ)
  end.

Definition is_data (sb : Superblock.t) (b : Z) : Prop :=
  Superblock.first_allocatable_block sb ≤ b < Superblock.capacity_blocks sb.

(** Those blocks, and the ones before the filesystem state: boot area, superblocks
    and descriptors, which no transaction changes. *)
Definition is_content (sb : Superblock.t) (b : Z) : Prop := is_data sb b ∨ b < Superblock.filesystem_state_block sb.

Lemma content_kept sb b : SuperblockCodec.geometry sb → is_content sb b → kept sb b.
Proof.
  intros Hg [Hb|Hb]; [left; by right|right]. rewrite (SuperblockCodec.geo_state _ Hg) in Hb. rewrite (SuperblockCodec.geo_journal _ Hg).
  change PHASE3_FILESYSTEM_STATE_BLOCK with 19 in Hb. change PHASE3_JOURNAL_FIRST_BLOCK with 20. lia.
Qed.

Definition agree (sb : Superblock.t) (m m' : disk) : Prop := ∀ b, is_content sb b → m b = m' b.

Definition op_ok (sb : Superblock.t) (op : store_op) : Prop :=
  match op with
  | StageOp _ x => is_block x ∧ bytes_ok x
  | ReadOp b => is_data sb b
  | CommitOp => True
  end.

Section store.
Context {D : Type} {HD : BlockDevice D} {torn : list Z → Prop} {HC : CrashSafe D torn}.
Notation fs := (Filesystem D).
Context (sb : Superblock.t).

Definition run_op (op : store_op) : M fs FsError.t (option (list Z)) :=
  match op with
  | StageOp target x => _ ← stage_block target x; mret None
  | ReadOp b => x ← read_block b; mret (Some x)
  | CommitOp => _ ← commit_transaction; mret None
  end.

Fixpoint run_ops (ops : list store_op) : M fs FsError.t (list (option (list Z))) :=
  match ops with
  | [] => mret []
  | op :: ops => out ← run_op op; outs ← run_ops ops; mret (out :: outs)
  end.

(** A mounted filesystem and the store it implements. *)
Definition represents (s : fs) (σ : Store) : Prop := ∃ m st,
  writable sb s m st ∧ agree sb m (durable σ) ∧ agree sb (block_seen s m) (current σ).

(** ** Power failures *)

(** [d'] is a device found after a power failure in the state [d]. *)
Definition reboots (d d' : D) : Prop := ∃ m, crash_disk d m ∧ settled d' m.

(** Any number of power failures, each followed by a recovery that may itself
    fail or be cut off. *)
Inductive after_crashes (d : D) : D → Prop :=
| ac_none : after_crashes d d
| ac_recovery d1 d2 gs : after_crashes d d1 → reboots d1 d2 →
    after_crashes d (device (recover_journal (mount_start d2 sb gs RuntimeReadWrite)).2).

(** Whatever happens to the device [d], a recovery ends with one of the contents
    [hs], and fails only for the device, for an exhausted generation counter or
    because the state block is torn. *)
Definition recovers (d : D) (hs : list disk) : Prop := bd_ok d ∧ ∀ d1 d2 gs,
  after_crashes d d1 → reboots d1 d2 →
  match recover_journal (mount_start d2 sb gs RuntimeReadWrite) with
  | (Ok _, s) => ∃ h m, h ∈ hs ∧ settled (device s) m ∧ agree sb m h
  | (Err e, _) => device_error e ∨ exhausted e ∨ torn (bd_now d2 (Superblock.filesystem_state_block sb))
  | (Abort, _) => False
  end.

(** The same, with the state block. *)
Definition recovers_home (d : D) (hs : list disk) : Prop := bd_ok d ∧ ∀ d1 d2 gs,
  after_crashes d d1 → reboots d1 d2 →
  match recover_journal (mount_start d2 sb gs RuntimeReadWrite) with
  | (Ok _, s) => ∃ h m, h ∈ hs ∧ settled (device s) m ∧ ∀ b, kept sb b → m b = h b
  | (Err e, _) => device_error e ∨ exhausted e ∨ torn (bd_now d2 (Superblock.filesystem_state_block sb))
  | (Abort, _) => False
  end.

Context (Hg : SuperblockCodec.geometry sb) (Hcap : Superblock.capacity_blocks sb ≤ u64_max).
Context (torn_control : ∀ y c, torn y → JournalControl.decode y ≠ Ok c).

Lemma recovers_home_data d hs : recovers_home d hs → recovers d hs.
Proof using Hg.
  intros [Hok Hr]. split; [done|]. intros d1 d2 gs Hac Hre. specialize (Hr d1 d2 gs Hac Hre).
  destruct (recover_journal _) as [[[]|e|] s']; [|done..]. destruct Hr as (h & m & Hh & Hset & Hm).
  exists h, m. split_and!; [done..|]. intros b Hb. apply Hm. by apply content_kept.
Qed.

Definition stands_for (d : D) (hs : list disk) : Prop :=
  bd_ok d ∧ ∀ mc, crash_disk d mc → ∃ h, h ∈ hs ∧ stands torn sb mc h.

Lemma always_stands_for d h hs : h ∈ hs → always_stands sb (torn := torn) d h → stands_for d hs.
Proof using. intros Hh [Hok Hs]. split; [done|]. intros mc Hc. exists h. auto. Qed.

Lemma recovery_stands_for d d' gs hs : stands_for d hs → reboots d d' →
  stands_for (device (recover_journal (mount_start d' sb gs RuntimeReadWrite)).2) hs.
Proof using Hg Hcap torn_control.
  intros [_ Hst] (mc & Hc & Hset). destruct (Hst mc Hc) as (h & Hh & Hmc). apply (always_stands_for _ h); [done|].
  pose proof (recover_journal_spec sb Hg Hcap torn_control (mount_start d' sb gs RuntimeReadWrite) mc h
    eq_refl eq_refl Hset Hmc) as Hspec. unfold wp in Hspec.
  destruct (recover_journal _) as [[[]|e|] s']; cbn [snd wpo] in *; [|by apply Hspec|done].
  destruct Hspec as (d2 & m2 & g & slot & -> & Hgen & [Hset2 Hch2 Hh2]).
  apply (settled_stands sb m2); [done|]. by apply (stands_clean _ _ _ _ (JournalControl.empty g) slot).
Qed.

Lemma crashes_stand_for d d' hs : stands_for d hs → after_crashes d d' → stands_for d' hs.
Proof using Hg Hcap torn_control. intros Hst Hac. induction Hac; [done|]. by eapply recovery_stands_for. Qed.

Lemma stands_for_home d hs : stands_for d hs → recovers_home d hs.
Proof using Hg Hcap torn_control.
  intros Hst. split; [apply Hst|]. intros d1 d2 gs Hac (mc & Hc & Hset). destruct (crashes_stand_for _ _ _ Hst Hac) as [_ Hst1].
  destruct (Hst1 mc Hc) as (h & Hh & Hmc).
  pose proof (recover_journal_spec sb Hg Hcap torn_control (mount_start d2 sb gs RuntimeReadWrite) mc h
    eq_refl eq_refl Hset Hmc) as Hspec. unfold wp in Hspec.
  destruct (recover_journal _) as [[[]|e|] s']; cbn [wpo] in *; [| |done].
  - destruct Hspec as (d3 & m3 & g & slot & -> & Hgen & [Hset3 _ Hh3]). exists h, m3. split_and!; [done..|].
    exact Hh3.
  - destruct Hspec as [He _]. by rewrite (h_now _ _ _ Hset).
Qed.

Lemma stands_for_recovers d hs : stands_for d hs → recovers d hs.
Proof using Hg Hcap torn_control. intros Hst. by apply recovers_home_data, stands_for_home. Qed.

Lemma recovers_agree d hs hs' : (∀ h, h ∈ hs → ∃ h', h' ∈ hs' ∧ agree sb h h') → recovers d hs → recovers d hs'.
Proof using.
  intros Hhs [Hok Hr]. split; [done|]. intros d1 d2 gs Hac Hre. specialize (Hr d1 d2 gs Hac Hre).
  destruct (recover_journal _) as [[[]|e|] s']; [|done..].
  destruct Hr as (h & m & Hh & Hset & Hm). destruct (Hhs h Hh) as (h' & Hh' & Hag).
  exists h', m. split_and!; [done..|]. intros b Hb. by rewrite Hm, Hag.
Qed.

Lemma writable_recovers (s : fs) m st h : writable sb s m st → agree sb m h → recovers (device s) [h].
Proof using Hg Hcap torn_control.
  intros Hw Hag. apply (recovers_agree _ [m]).
  { intros ? ->%list_elem_of_singleton. exists h. split; [by apply list_elem_of_singleton|done]. }
  apply stands_for_recovers. split; [apply Hw|]. intros mc Hc. exists m. split; [by apply list_elem_of_singleton|].
  destruct (idle_old sb (torn := torn) _ _ _ m (wr_idle _ _ _ _ Hw)) as [_ Hold]. by destruct (Hold mc Hc).
Qed.

Lemma commit_seen st tx m (s : fs) b : is_content sb b → transaction s = Some tx → recovery_overlay s = [] →
  committed_home sb st tx m b = block_seen s m b.
Proof using Hg.
  intros Hb Htx Hov. unfold committed_home, block_seen. rewrite Htx, Hov. cbn [mbind option_bind].
  rewrite decide_False; [by destruct (Transaction.staged tx b)|]. intros ->. destruct Hb as [Hb|Hb]; [|lia]. unfold is_data in Hb.
  rewrite (SuperblockCodec.geo_state _ Hg), (SuperblockCodec.geo_first _ Hg) in Hb. by destruct Hb.
Qed.

(** ** One operation *)

Lemma commit_refines s σ : represents s σ →
  wp commit_transaction
    (λ _ s', represents s' {| durable := current σ; current := current σ |})
    (λ e s', recovers (device s') [durable σ; current σ]) s.
Proof using Hg Hcap torn_control.
  intros (m & st & Hw & Hdur & Hcur). destruct (transaction s) as [tx|] eqn:Htx.
  - assert (∀ b, is_content sb b → committed_home sb st tx m b = current σ b) as Hnew.
    { intros b Hb. rewrite (commit_seen st tx m s) by (done || apply Hw). by apply Hcur. }
    eapply wp_mono; [apply (commit_transaction_spec sb Hg Hcap torn_control s m st tx Hw Htx)| |].
    + intros _ s' (_ & m' & Hw' & Htx' & Hm'). exists m', (next_state st tx).
      assert (agree sb m' (current σ)) as Hag by (intros b Hb; rewrite Hm' by (by apply content_kept); auto).
      split_and!; [done..|]. intros b Hb. unfold block_seen. rewrite Htx', (wr_overlay _ _ _ _ Hw'). by apply Hag.
    + intros e s' [_ _ _ _ _ [Hok Hdisk]]. apply (recovers_agree _ [m; committed_home sb st tx m]).
      { intros h [-> | ->%list_elem_of_singleton]%elem_of_cons; eexists.
        - split; [by left|done].
        - split; [by right; left|exact Hnew]. }
      apply stands_for_recovers. split; [done|]. intros mc Hc.
      destruct (Hdisk mc Hc); eexists; (split; [|eassumption]); set_solver.
  - unfold commit_transaction, ensure_writable. wp_step. apply wp_reads.
    rewrite (wr_poisoned _ _ _ _ Hw), bool_decide_true by apply Hw. cbn [wpo]. wp_steps. rewrite Htx. wp_steps.
    assert (∀ b, block_seen s m b = m b) as Hsame.
    { intros b. unfold block_seen. by rewrite Htx, (wr_overlay _ _ _ _ Hw). }
    exists m, st. split_and!; [done|..|done]. intros b Hb. cbn. by rewrite <- Hsame, Hcur.
Qed.

(** An operation of the code and of the store: they agree on the result and stay
    related, or the operation fails and a recovery finds the contents before it or
    after it. *)
Lemma op_refines op s σ : represents s σ → op_ok sb op →
  wp (run_op op)
    (λ out s', out = (spec_op op σ).1 ∧ represents s' (spec_op op σ).2)
    (λ e s', recovers (device s') [durable σ; durable (spec_op op σ).2]) s.
Proof using Hg Hcap torn_control.
  intros Hrep Hop. pose proof Hrep as (m & st & Hw & Hdur & Hcur).
  assert (∀ h, recovers (device s) [durable σ; h]) as Hstay.
  { intros h. apply (recovers_agree _ [durable σ]); [|by eapply writable_recovers].
    intros ? ->%list_elem_of_singleton. exists (durable σ). split; [by left|done]. }
  destruct op as [target x|b|]; cbn [run_op spec_op fst snd durable current op_ok] in *; wp_step.
  - destruct Hop as [Hx Hbx]. eapply wp_mono; [apply (stage_block_spec sb s m st target x Hw Hx Hbx)| |].
    + intros _ s' (Hw' & Hdev & Ht & Hseen). wp_steps. split; [done|]. exists m, st. split_and!; [done..|].
      intros b Hb. rewrite Hseen. cbn. unfold upd. destruct (decide _); [done|by apply Hcur].
    + intros e s' (_ & -> & _). apply Hstay.
  - eapply wp_mono; [eapply (read_block_spec s m _ b (id_settled _ _ _ _ (wr_idle _ _ _ _ Hw)))| |].
    + unfold is_data in Hop. rewrite (SuperblockCodec.geo_first _ Hg) in Hop.
      change PHASE3_FIRST_ALLOCATABLE_BLOCK with 150 in Hop. lia.
    + intros x s' [-> ->]. wp_steps. split; [rewrite Hcur; [done|by left]|done].
    + intros e s' [_ ->]. apply Hstay.
  - eapply wp_mono; [by apply commit_refines| |done]. intros ? s' Hrep'. by wp_steps.
Qed.

(** ** The journal implements the store *)

Lemma run_refines ops s σ : represents s σ → Forall (op_ok sb) ops →
  wp (run_ops ops)
    (λ outs s', outs = (spec_ops ops σ).1 ∧ represents s' (spec_ops ops σ).2 ∧
       recovers (device s') [durable (spec_ops ops σ).2])
    (λ _ s', ∃ k, (k < length ops)%nat ∧
       recovers (device s') [durable (spec_ops (take k ops) σ).2; durable (spec_ops (take (S k) ops) σ).2]) s.
Proof using Hg Hcap torn_control.
  revert s σ. induction ops as [|op ops IH]; intros s σ Hrep Hops; cbn [run_ops spec_ops].
  { wp_steps. split_and!; [done..|]. destruct Hrep as (m & st & Hw & Hdur & _). by eapply writable_recovers. }
  apply Forall_cons_1 in Hops as [Hop Hops]. wp_step. eapply wp_mono; [by apply (op_refines op s σ)| |].
  - intros out s1 [-> Hrep1]. wp_step. eapply wp_mono; [by apply (IH s1 _ Hrep1)| |].
    + intros outs s2 (-> & Hrep2 & Hrec). wp_steps.
      destruct (spec_op op σ) as [out σ1]. cbn [fst snd] in *. by destruct (spec_ops ops σ1).
    + intros ? s2 (k & Hk & Hrec). exists (S k). split; [cbn; lia|]. cbn [take spec_ops].
      destruct (spec_op op σ) as [out σ1]. cbn [fst snd] in *.
      by destruct (spec_ops (take k ops) σ1), (spec_ops (take (S k) ops) σ1).
  - intros ? s1 Hrec. exists 0%nat. split; [cbn; lia|]. cbn [take spec_ops]. by destruct (spec_op op σ).
Qed.

(** C2. Any sequence of staged writes, reads and commits on a filesystem mounted
    for writing behaves like the abstract store: it returns the results of the
    store and ends related to it.  If an operation fails, and also at the end,
    whatever sequence of power failures and of completed, failed or interrupted
    recoveries follows, the next recovery that completes finds exactly the durable
    contents of the store before the failing operation or exactly those after it,
    never a mixture; a recovery fails only because the device does, because the
    generation counter is exhausted or because the state block itself was torn. *)
Theorem journal_refines_store ops s σ : represents s σ → Forall (op_ok sb) ops →
  match run_ops ops s with
  | (Ok outs, s') => outs = (spec_ops ops σ).1 ∧ represents s' (spec_ops ops σ).2 ∧
      recovers (device s') [durable (spec_ops ops σ).2]
  | (Err _, s') => ∃ k, (k < length ops)%nat ∧
      recovers (device s') [durable (spec_ops (take k ops) σ).2; durable (spec_ops (take (S k) ops) σ).2]
  | (Abort, _) => False
  end.
Proof using Hg Hcap torn_control.
  intros Hrep Hops. pose proof (run_refines ops s σ Hrep Hops) as H. unfold wp in H.
  by destruct (run_ops ops s) as [[outs|e|] s'].
Qed.

(** ** Mounting for reading *)

(** C24. Reading after a mount does not depend on the mode of the mount: on a disk
    that stands for the contents [h], recovering the journal and then reading a
    data block returns the block of [h], for writing because recovery has installed
    it and for reading through the recovery overlay, in which case nothing is
    written to the device.  It fails only for the device, for an exhausted
    generation counter or for a torn state block. *)
Theorem mount_modes_agree d m h b gs mode :
  settled d m → stands torn sb m h → is_data sb b →
  match (_ ← recover_journal; read_block b) (mount_start d sb gs mode) with
  | (Ok x, s) => x = h b ∧ (mode = RuntimeReadOnly → device s = d)
  | (Err e, s) => (device_error e ∨ exhausted e ∨ torn (m (Superblock.filesystem_state_block sb))) ∧
                  (mode = RuntimeReadOnly → device s = d)
  | (Abort, _) => False
  end.
Proof using Hg Hcap torn_control.
  intros Hset Hst Hb. assert (is_home sb b) as Hhome by (by right). assert (kept sb b) as Hkept by (by left).
  assert (0 ≤ b) as Hpos by (apply (is_home_bounds sb b Hg) in Hhome; lia).
  enough (wp (_ ← recover_journal; read_block b) (λ x s, x = h b ∧ (mode = RuntimeReadOnly → device s = d))
    (λ e s, (device_error e ∨ exhausted e ∨ torn (m (Superblock.filesystem_state_block sb))) ∧
       (mode = RuntimeReadOnly → device s = d)) (mount_start d sb gs mode)) as H.
  { unfold wp in H. by destruct ((_ ← recover_journal; read_block b) _) as [[] ?]. }
  wp_step. destruct mode.
  - eapply wp_mono; [by apply (recover_read_only_spec sb Hg Hcap (mount_start d sb gs RuntimeReadOnly) m _ h eq_refl eq_refl eq_refl Hset)| |].
    + intros ? s [Hdev _ Htx Hov _]. cbn [device transaction mount_start] in *. rewrite <- Hdev in Hset.
      eapply wp_mono; [by apply (read_block_spec s m _ b Hset Hpos)| |].
      * intros x s' [-> ->]. split; [|done]. unfold block_seen. rewrite Htx. by apply Hov.
      * intros e s' [He ->]. split; [by left|done].
    + intros e s [-> He]. split; [tauto|done].
  - eapply wp_mono; [by apply (recover_journal_spec sb Hg Hcap torn_control (mount_start d sb gs RuntimeReadWrite) m h)| |].
    + intros ? s (d' & m' & g & slot & -> & _ & [Hset' _ Hh]).
      eapply wp_mono; [by apply (read_block_spec (set_journal g (1 - slot)
        (set_device d' (mount_start d sb gs RuntimeReadWrite))) m' _ b Hset' Hpos)| |].
      * intros x s' [-> ->]. split; [by apply Hh|done].
      * intros e s' [He ->]. split; [by left|done].
    + intros e s [He _]. by split.
Qed.

(** ** The capacity of a transaction *)

(** C27. A transaction that [stage] filled to the last block it accepts, one less
    than PHASE3_MAX_UPDATES, cannot be committed: the state block no longer fits,
    the commit returns [TransactionTooLarge], nothing is written and every staged
    block is discarded. *)
Theorem full_transaction_never_commits (s : fs) m st tx :
  writable sb s m st → transaction s = Some tx →
  length (Transaction.updates tx) = (PHASE3_MAX_UPDATES - 1)%nat →
  FilesystemState.generation st < u64_max → FilesystemState.next_transaction_id st < u64_max →
  commit_transaction s = (Err FsError.TransactionTooLarge, set_transaction None s).
Proof using Hg.
  clear Hcap torn_control. intros [[Hsb _ _ _ Hst Hty _] Hmode Hpoi _ Htxok] Htx Hlen Hgen Hid.
  specialize (Htxok tx Htx). pose proof (tx_id _ _ _ Htxok) as Hi.
  enough (wp commit_transaction (λ _ _, False)
    (λ e s', e = FsError.TransactionTooLarge ∧ s' = set_transaction None s) s) as H.
  { unfold wp in H. destruct (commit_transaction s) as [[| |] ?]; cbn in H; [done| |done]. by destruct H as [-> ->]. }
  unfold commit_transaction, ensure_writable. wp_step. apply wp_reads. rewrite Hpoi, bool_decide_true by done.
  cbn [wpo]. wp_steps. rewrite Htx. wp_steps; [|congruence]. assert (a = st) as -> by congruence.
  assert (∀ g, g < u64_max → checked_add u64_max g 1 = Some (g + 1)) as Hadd.
  { intros g Hlt. unfold checked_add. by rewrite (proj2 (Z.leb_le _ _)) by lia. }
  eapply wp_format; [unfold next_generation; by rewrite Hadd|]. wp_step.
  eapply wp_format; [unfold next_transaction_id; by rewrite Hi, Hadd|]. wp_step.
  eapply wp_format; [rewrite <- Hi; apply (next_state_encodes sb st tx Hty Htxok)|]. wp_steps.
  { exfalso. bool_simpl. match goal with H : is_Some _ |- _ => destruct H as [image Hs] end.
    apply (staged_elem tx _ _ (tx_distinct _ _ _ Htxok)), (tx_home _ _ _ Htxok) in Hs. cbn in Hs.
    rewrite Hsb, (SuperblockCodec.geo_state _ Hg), (SuperblockCodec.geo_first _ Hg) in Hs. by destruct Hs. }
  apply wp_local. eapply wp_mono; [apply stage_spec| |].
  - intros _ tx' (_ & _ & [[Hs _]|(_ & Hlt & _)]); [by bool_simpl|lia].
  - by intros e tx' (-> & _).
Qed.
End store.

(** ** A formatted volume on the fault-injecting device *)

#[export] Existing Instances MemoryBlockDevice.memory_device CrashBlockDevice.crash_device.

Notation test_device := (CrashBlockDevice.t MemoryBlockDevice.t).

Lemma memory_write_total (d : MemoryBlockDevice.t) b x : (write_blocks b x d).1 ≠ Abort.
Proof.
  cbn [write_blocks MemoryBlockDevice.memory_device]. unfold MemoryBlockDevice.write.
  apply (wp_no_abort _ (λ _ _, True) (λ _ _, True)). wp_steps.
  unfold checked_block_range. cbv zeta. by wp_steps.
Qed.

Lemma memory_flush_total (d : MemoryBlockDevice.t) : (flush d).1 ≠ Abort.
Proof. done. Qed.

#[export] Instance test_device_safe : CrashSafe test_device (λ _, False) :=
  CrashBlockDevice.crash_device_safe memory_write_total memory_flush_total.

Lemma restart_reboots (d : test_device) : bd_ok d → reboots d (CrashBlockDevice.restart d).
Proof.
  intros Hok. destruct (CrashBlockDevice.restart_fresh memory_write_total memory_flush_total d Hok) as (Hok' & _ & Hsame).
  exists (block_of (CrashBlockDevice.durable d)). split; [by intros c; left|].
  split; [done|intros c; exact (proj1 (Hsame c))|]. intros c y Hy. destruct (Hsame c) as [Hn Ha].
  exact (eq_trans (Ha y Hy) Hn).
Qed.

Lemma no_torn (y : list Z) c : False → JournalControl.decode y ≠ Ok c.
Proof. done. Qed.

(** C3. On the test kit's device with a persistence policy of whole blocks (no torn
    prefix is configured, for failed writes or failed flushes), whatever operation the
    fault is injected at and whichever of the dirty blocks the policy keeps: after
    running a sequence of staged writes, reads and commits, restarting the device and
    recovering, the durable bytes of the data blocks are those of the store after a
    prefix of the sequence, and after the whole sequence if it ran to the end.  The
    recovery itself fails only for the device or an exhausted generation
    counter. *)
Theorem restarted_device_holds_prefix sb gs ops (s : Filesystem test_device) σ :
  SuperblockCodec.geometry sb → Superblock.capacity_blocks sb ≤ u64_max →
  CrashBlockDevice.whole_blocks (device s) → represents sb s σ → Forall (op_ok sb) ops →
  let '(r, s') := run_ops ops s in
  match recover_journal (mount_start (CrashBlockDevice.restart (device s')) sb gs RuntimeReadWrite) with
  | (Ok _, s2) => ∃ k, (k ≤ length ops)%nat ∧ (is_Some (ok_of r) → k = length ops) ∧
      ∀ b, is_data sb b →
        block_of (CrashBlockDevice.durable (device s2)) b = durable (spec_ops (take k ops) σ).2 b
  | (Err e, _) => device_error e ∨ exhausted e
  | (Abort, _) => False
  end.
Proof.
  intros Hg Hcap _ Hrep Hops. pose proof (run_refines sb Hg Hcap no_torn ops s σ Hrep Hops) as Hrun. unfold wp in Hrun.
  assert (∃ hs, recovers sb (device (run_ops ops s).2) hs ∧ ∀ h, h ∈ hs → ∃ k, (k ≤ length ops)%nat ∧
    (is_Some (ok_of (run_ops ops s).1) → k = length ops) ∧ h = durable (spec_ops (take k ops) σ).2)
    as (hs & [Hok Hrec] & Hhs).
  { destruct (run_ops ops s) as [[outs|e|] s']; cbn [wpo fst snd ok_of] in *; [| |done].
    - destruct Hrun as (_ & _ & Hrec). eexists. split; [exact Hrec|]. intros h ->%list_elem_of_singleton.
      exists (length ops). by rewrite firstn_all.
    - destruct Hrun as (k & Hk & Hrec). eexists. split; [exact Hrec|].
      intros h [-> | ->%list_elem_of_singleton]%elem_of_cons; [exists k|exists (S k)]; (split_and!; [lia|by intros []|done]). }
  destruct (run_ops ops s) as [r s']. cbn [fst snd] in *.
  specialize (Hrec _ _ gs (ac_none _ _) (restart_reboots _ Hok)).
  destruct (recover_journal _) as [[[]|e|] s2]; [| |done].
  - destruct Hrec as (h & m & (k & Hk & Hr & ->)%Hhs & Hset & Hag). exists k. split_and!; [done..|].
    intros b Hb. rewrite <- Hag by (by left). apply (h_after _ _ _ Hset). by left.
  - destruct Hrec as [?|[?|[]]]; auto.
Qed.

Module Demo.
Definition encoded (o : outcome FormatError.t (list Z)) : list Z :=
  match o with Ok b => b | _ => [] end.

Definition volume : Superblock.t :=
  Superblock.mk FORMAT_MAJOR PHASE3_FORMAT_MINOR Clean (Features.mk 0 0 3) (replicate 16 7) (zeros 64) 0 300
    DEFAULT_ALLOCATION_GROUP_BLOCKS 1 DEFAULT_DESCRIPTOR_RESERVATION_BLOCKS FIRST_DESCRIPTOR_BLOCK
    PHASE3_FIRST_ALLOCATABLE_BLOCK PHASE3_BACKUP_SUPERBLOCK_BLOCK PHASE3_FILESYSTEM_STATE_BLOCK
    PHASE3_JOURNAL_FIRST_BLOCK PHASE3_JOURNAL_BLOCK_COUNT (Z.of_nat PHASE3_MAX_UPDATES).

Definition first_state : FilesystemState.t := FilesystemState.mk 1 1 0 10 10.

Definition contents (b : Z) : list Z :=
  if b =? 19 then encoded (FilesystemState.encode first_state)
  else if b =? 20 then encoded (JournalControl.encode (JournalControl.empty 2))
  else if b =? 21 then encoded (JournalControl.encode (JournalControl.empty 1))
  else zeros BLOCK_SIZE.

Definition bytes : list Z := mjoin (contents <$> seqZ 0 (Z.of_nat 300)).

Definition crash_device : test_device :=
  CrashBlockDevice.mk (MemoryBlockDevice.mk BLOCK_SIZE 300 bytes) BLOCK_SIZE 300 bytes bytes 0 (Some 3) None
    Atomic [] [] [] false.

Definition filesystem : Filesystem test_device :=
  Build_Filesystem _ crash_device volume [] RuntimeReadWrite (Some first_state) 2 1 false None [] 1 [].

Lemma volume_valid : Superblock.validate volume (Some (300 * 4096)) ReadWrite = Ok ().
Proof. vm_compute. reflexivity. Qed.

Lemma volume_geometry : SuperblockCodec.geometry volume.
Proof. by eapply SuperblockCodec.validate_geometry; [apply volume_valid|vm_compute]. Qed.

Lemma state_encodes : ∃ b, FilesystemState.encode first_state = Ok b ∧ FilesystemState.decode b = Ok first_state ∧ is_block b.
Proof.
  assert (∃ b, FilesystemState.encode first_state = Ok b) as [b Hb].
  { eexists. by apply StateCodec.state_encode_eq. }
  exists b. split_and!; [done| |by eapply StateCodec.state_is_block].
  by apply (decode_encode (BlockCodec := StateCodec.state_codec)).
Qed.

Lemma contents_block b : is_block (contents b).
Proof.
  destruct state_encodes as (x & Hx & _ & ?), (empty_encodes 2) as (x2 & H2 & _ & ?), (empty_encodes 1) as (x1 & H1 & _ & ?);
    [done..|]. unfold contents. rewrite Hx, H2, H1. repeat case_match; try done.
Qed.

Lemma mjoin_cons {A} (x : list A) l : mjoin (x :: l) = x ++ mjoin l.
Proof. done. Qed.

Lemma block_of_join (f : Z → list Z) c : (∀ b, is_block (f b)) → ∀ n k, 0 ≤ k ≤ c → c < k + Z.of_nat n →
  slice (Z.to_nat ((c - k) * 4096)) BLOCK_SIZE (mjoin (f <$> seqZ k (Z.of_nat n))) = f c.
Proof.
  intros Hf n. pose proof BLOCK_SIZE_Z as HB. induction n as [|n IH]; intros k Hk Hc; [lia|].
  rewrite seqZ_cons by lia. rewrite fmap_cons, mjoin_cons.
  replace (Z.pred (Z.of_nat (S n))) with (Z.of_nat n) by lia. pose proof (Hf k) as Hlen. unfold is_block in Hlen.
  destruct (decide (c = k)) as [->|Hne].
  - replace (Z.to_nat _) with 0%nat by lia. rewrite <- Hlen. apply slice_app_l.
  - rewrite <- (IH (Z.succ k)) by lia.
    etrans; [|apply (slice_app_r (f k))]. f_equal. lia.
Qed.

Lemma length_join (f : Z → list Z) : (∀ b, is_block (f b)) → ∀ n k,
  Z.of_nat (length (mjoin (f <$> seqZ k (Z.of_nat n)))) = Z.of_nat n * 4096.
Proof.
  intros Hf n. pose proof BLOCK_SIZE_Z as HB. induction n as [|n IH]; intros k; [done|].
  rewrite seqZ_cons by lia. rewrite fmap_cons, mjoin_cons. rewrite length_app.
  replace (Z.pred (Z.of_nat (S n))) with (Z.of_nat n) by lia. pose proof (Hf k) as Hlen. unfold is_block in Hlen.
  specialize (IH (Z.succ k)). lia.
Qed.

Lemma block_of_bytes c : 0 ≤ c < 300 → block_of bytes c = contents c.
Proof.
  intros Hc. unfold block_of, BLOCK_SIZE_U64. rewrite (proj2 (Z.ltb_ge c 0)) by lia.
  pose proof (block_of_join contents c contents_block 300 0) as H. rewrite Z.sub_0_r in H. apply H; lia.
Qed.

Lemma length_bytes : Z.of_nat (length bytes) = 300 * 4096.
Proof. unfold bytes. by rewrite (length_join contents contents_block). Qed.

Lemma join_ok (f : Z → list Z) l : (∀ b, bytes_ok (f b)) → bytes_ok (mjoin (f <$> l)).
Proof. intros Hf. induction l as [|b l IH]; [constructor|]. rewrite fmap_cons, mjoin_cons. apply Forall_app_2; [apply Hf|exact IH]. Qed.

Lemma bytes_bytes : bytes_ok bytes.
Proof.
  apply join_ok. intros b. destruct state_encodes as (x & Hx & _), (empty_encodes 2) as (x2 & H2 & _), (empty_encodes 1) as (x1 & H1 & _);
    [done..|]. unfold contents. rewrite Hx, H2, H1. repeat case_match; cbn [encoded];
    [by eapply state_bytes|by eapply control_bytes|by eapply control_bytes|apply zeros_ok].
Qed.
#[local] Opaque bytes.

Lemma no_pending c y : ¬ CrashBlockDevice.pending crash_device c y.
Proof. intros (w & Hw & _). by apply not_elem_of_nil in Hw. Qed.

Lemma device_settled : settled crash_device (block_of bytes).
Proof.
  split; [|done|].
  - split.
    + reflexivity.
    + done.
    + exact length_bytes.
    + exact length_bytes.
    + by intros w ?%not_elem_of_nil.
    + split; exact bytes_bytes.
    + by intros b ?%not_elem_of_nil.
    + intros c. left. split; [reflexivity|apply no_pending].
    + by split.
  - intros c y [->|[]%no_pending]. reflexivity.
Qed.

Lemma mounted : writable volume filesystem (block_of bytes) first_state.
Proof.
  destruct state_encodes as (x & Hx & Hd & _), (empty_encodes 2) as (x2 & H2 & Hd2 & _), (empty_encodes 1) as (x1 & H1 & Hd1 & _);
    [done..|]. split; [|done..]. split; [done|apply device_settled| |done|done|done|].
  - unfold chosen, control_at. rewrite !(control_block_eq _ volume_geometry), !block_of_bytes by done.
    change (contents (20 + 0)) with (encoded (JournalControl.encode (JournalControl.empty 2))).
    change (contents (20 + 1)) with (encoded (JournalControl.encode (JournalControl.empty 1))).
    rewrite H2, H1. cbn [encoded]. by rewrite Hd2, Hd1.
  - change (Superblock.filesystem_state_block volume) with 19. rewrite block_of_bytes by done.
    change (contents 19) with (encoded (FilesystemState.encode first_state)). by rewrite Hx.
Qed.

Definition store : Store := {| durable := block_of bytes; current := block_of bytes |}.

Lemma mounted_store : represents volume filesystem store.
Proof. exists (block_of bytes), first_state. split_and!; [apply mounted|done..]. Qed.

(** Two blocks staged and committed, one staged and lost. *)
Definition script : list store_op :=
  [StageOp 150 (zeros BLOCK_SIZE); StageOp 151 (zeros BLOCK_SIZE); ReadOp 150; CommitOp;
   StageOp 152 (zeros BLOCK_SIZE); ReadOp 152].

Lemma script_ok : Forall (op_ok volume) script.
Proof. repeat constructor; cbn; try done; try apply length_zeros; try apply zeros_ok. Qed.

Lemma disk_stands : stands (λ _, False) volume (block_of bytes) (block_of bytes).
Proof.
  destruct mounted as [[_ _ Hch _ _ _ _] _ _ _ _]. by eapply stands_clean.
Qed.

(** The full transaction: 63 blocks from the first allocatable one on. *)
Definition full : Transaction.t :=
  Transaction.mk 1 first_state ((λ b, {| sb_target := b; sb_image := zeros BLOCK_SIZE |}) <$> seqZ 150 63).

Lemma full_ok : tx_ok volume first_state full.
Proof.
  assert (∀ u, u ∈ Transaction.updates full → 150 ≤ sb_target u < 213 ∧ sb_image u = zeros BLOCK_SIZE) as Hel.
  { intros u (b & -> & Hb)%list_elem_of_fmap. apply elem_of_seqZ in Hb. cbn. split; [lia|done]. }
  split; [done|done|done| | |].
  - unfold full. cbn [Transaction.updates]. rewrite <- list_fmap_compose.
    apply NoDup_fmap_2; [by intros ?? |apply NoDup_seqZ].
  - intros u [Hu _]%Hel. change (Superblock.first_allocatable_block volume) with 150.
    change (Superblock.capacity_blocks volume) with 300. lia.
  - intros u [_ ->]%Hel. split; [apply length_zeros|apply zeros_ok].
Qed.

Definition full_filesystem : Filesystem test_device := set_transaction (Some full) filesystem.

Lemma full_mounted : writable volume full_filesystem (block_of bytes) first_state.
Proof. destruct mounted as [[] ? ? ? ?]. split; [by split|done..|]. intros tx [= <-]. apply full_ok. Qed.
End Demo.

Lemma journal_refines_store_witness :
  match run_ops Demo.script Demo.filesystem with
  | (Ok outs, s') => outs = (spec_ops Demo.script Demo.store).1 ∧
      represents Demo.volume s' (spec_ops Demo.script Demo.store).2 ∧
      recovers Demo.volume (device s') [durable (spec_ops Demo.script Demo.store).2]
  | (Err _, s') => ∃ k, (k < length Demo.script)%nat ∧
      recovers Demo.volume (device s') [durable (spec_ops (take k Demo.script) Demo.store).2;
                            durable (spec_ops (take (S k) Demo.script) Demo.store).2]
  | (Abort, _) => False
  end.
Proof.
  apply (journal_refines_store (D := test_device) Demo.volume Demo.volume_geometry ltac:(done) no_torn
    Demo.script Demo.filesystem Demo.store Demo.mounted_store Demo.script_ok).
Defined.

Lemma mount_modes_agree_witness :
  match (_ ← recover_journal; read_block 150) (mount_start Demo.crash_device Demo.volume [] RuntimeReadOnly) with
  | (Ok x, s) => x = block_of Demo.bytes 150 ∧
                 (RuntimeReadOnly = RuntimeReadOnly → device s = Demo.crash_device)
  | (Err e, s) => (device_error e ∨ exhausted e ∨ False) ∧
                  (RuntimeReadOnly = RuntimeReadOnly → device s = Demo.crash_device)
  | (Abort, _) => False
  end.
Proof.
  apply (mount_modes_agree (D := test_device) Demo.volume Demo.volume_geometry ltac:(done) no_torn
    Demo.crash_device (block_of Demo.bytes) (block_of Demo.bytes) 150 [] RuntimeReadOnly);
    [apply Demo.device_settled|apply Demo.disk_stands|done].
Defined.

Lemma full_transaction_never_commits_witness :
  commit_transaction Demo.full_filesystem =
  (Err FsError.TransactionTooLarge, set_transaction None Demo.full_filesystem).
Proof.
  apply (full_transaction_never_commits (D := test_device) Demo.volume Demo.volume_geometry
    Demo.full_filesystem (block_of Demo.bytes) Demo.first_state Demo.full); [apply Demo.full_mounted|done..].
Defined.

Lemma restarted_device_holds_prefix_witness :
  let '(r, s') := run_ops Demo.script Demo.filesystem in
  match recover_journal (mount_start (CrashBlockDevice.restart (device s')) Demo.volume [] RuntimeReadWrite) with
  | (Ok _, s2) => ∃ k, (k ≤ length Demo.script)%nat ∧ (is_Some (ok_of r) → k = length Demo.script) ∧
      ∀ b, is_data Demo.volume b →
        block_of (CrashBlockDevice.durable (device s2)) b = durable (spec_ops (take k Demo.script) Demo.store).2 b
  | (Err e, _) => device_error e ∨ exhausted e
  | (Abort, _) => False
  end.
Proof.
  apply (restarted_device_holds_prefix Demo.volume [] Demo.script Demo.filesystem Demo.store Demo.volume_geometry
    ltac:(done) ltac:(done) Demo.mounted_store Demo.script_ok).
Defined.
