(* ===== verification/Volume.v ===== *)
(** * The NullFS volume: nodes, files and directories

    Models the read side of nullfs-core/src/lib.rs: locating and decoding
    inodes, mapping file blocks to device blocks, reading files, directories and
    paths.  Everything goes through [read_block], so it sees the blocks staged by
    the current transaction.  [NodeId] is the number of an inode. *)

From Stdlib Require Import ZArith Lia.
From stdpp Require Import base list numbers option.
From S2P Require Import Prelude NullfsBytes NullfsPhase3 NullfsSuperblock NullfsRecord NullfsInode.
From S2P Require Import NullfsDirectory NullfsAllocation BlockDevice Journal.

Open Scope Z_scope.

Definition ROOT_INODE : Z := 1.

Module NodeAttributes.
Record t := mk {
  node : Z;
  generation : Z;
  kind : NodeKind.t;
  mode : Z;
  uid : Z;
  gid : Z;
  link_count : Z;
  size : Z;
  allocated_blocks : Z;
  accessed : Timestamp.t;
  modified : Timestamp.t;
  changed : Timestamp.t;
  created : Timestamp.t;
}.
End NodeAttributes.

Module DirectoryRecord.
Record t := mk {
  node : Z;
  generation : Z;
  kind : NodeKind.t;
  name : list Z;
  next_cookie : Z;
}.
End DirectoryRecord.

Module FilesystemStatistics.
Record t := mk {
  total_data_blocks : Z;
  free_data_blocks : Z;
  total_inodes : Z;
  free_inodes : Z;
}.
End FilesystemStatistics.

(** [for extent in &inode.extents[..usize::from(inode.extent_count)]] *)
Fixpoint map_extents (extents : list Extent.t) (logical_block : Z) : outcome FsError.t (option Z) :=
  match extents with
  | [] => mret None
  | extent :: extents =>
      stop ← map_err FsError.Format (Extent.logical_end extent);
      if (Extent.logical_first_block extent <=? logical_block) && (logical_block <? stop) then
        let relative := logical_block - Extent.logical_first_block extent in
        ok_or (Some <$> checked_add u64_max (Extent.physical_first_block extent) relative)
          FsError.ArithmeticOverflow
      else map_extents extents logical_block
  end.

Definition physical_block (inode : Inode.t) (logical_block : Z) : outcome FsError.t (option Z) :=
  map_extents (Inode.used_extents inode) logical_block.

(** The first entry in use with a name, and its slot. *)
Fixpoint find_name (name : list Z) (slot : nat) (entries : list DirectoryEntry.t)
    : outcome FormatError.t (option (nat * DirectoryEntry.t)) :=
  match entries with
  | [] => mret None
  | entry :: entries =>
      if DirectoryEntry.is_unused entry then find_name name (S slot) entries else
      entry_name ← DirectoryEntry.name_str entry;
      if bool_decide (entry_name = name) then mret (Some (slot, entry))
      else find_name name (S slot) entries
  end.

(** [path.split('/')] *)
Fixpoint split_path (path : list Z) : list (list Z) :=
  match path with
  | [] => [[]]
  | c :: path =>
      if c =? SLASH then [] :: split_path path
      else match split_path path with
           | component :: rest => (c :: component) :: rest
           | [] => [[c]]
           end
  end.

Section volume.
Context {D : Type} {HD : BlockDevice D}.
Notation fs := (Filesystem D).
Notation Op := (M fs FsError.t).

Definition inode_location_in (groups : list AllocationGroupDescriptor.t) (node : Z)
    : outcome FsError.t (AllocationGroupDescriptor.t * nat) :=
  _ ← err_if (node =? 0) FsError.InvalidNode;
  let zero_based := node - 1 in
  let group_index := zero_based / PHASE2_INODES_PER_GROUP in
  let inode_index := zero_based mod PHASE2_INODES_PER_GROUP in
  descriptor ← ok_or (groups !! Z.to_nat group_index) FsError.InvalidNode;
  mret (descriptor, Z.to_nat inode_index).

Definition inode_location (node : Z) : Op (AllocationGroupDescriptor.t * nat) :=
  reads (λ s, inode_location_in (groups s) node).

(** [match Inode::decode(bytes)]: a volume with a journal may hold orphans. *)
Definition decode_inode (phase3 : bool) (bytes : list Z) : outcome FsError.t Inode.t :=
  match Inode.decode bytes with
  | Ok inode => Ok inode
  | Err strict_error =>
      if phase3 then
        map_err (λ _, FsError.Format strict_error) (Inode.decode_with_mode bytes Phase3Orphan)
      else Err (FsError.Format strict_error)
  | Abort => Abort
  end.

Definition read_inode (node : Z) : Op Inode.t :=
  location ← inode_location node;
  let '(descriptor, index) := location in
  let byte_offset := (index * INODE_BYTES)%nat in
  let block_offset := (byte_offset / BLOCK_SIZE)%nat in
  let within_block := (byte_offset mod BLOCK_SIZE)%nat in
  physical ← lift (ok_or (checked_add u64_max
                            (AllocationGroupDescriptor.inode_table_first_block descriptor)
                            (Z.of_nat block_offset)) FsError.ArithmeticOverflow);
  block ← read_block physical;
  s ← get;
  lift (decode_inode (Superblock.phase3_enabled (superblock s)) (slice within_block INODE_BYTES block)).

Definition read_allocated_inode (node : Z) : Op Inode.t :=
  inode ← read_inode node;
  _ ← lift (err_if (bool_decide (Inode.kind inode = NodeKind.Free)) FsError.InvalidNode);
  mret inode.

Definition read_directory_block (node : Z) (inode : Inode.t) (logical_block : Z) : Op DirectoryBlock.t :=
  mapped ← lift (physical_block inode logical_block);
  physical ← lift (ok_or mapped FsError.CorruptVolume);
  bytes ← read_block physical;
  block ← on_format (DirectoryBlock.decode bytes);
  _ ← lift (err_if (negb (DirectoryBlock.owner_inode block =? node)
                    || negb (DirectoryBlock.logical_block_index block =? logical_block)) FsError.CorruptVolume);
  mret block.

Definition root : Z := ROOT_INODE.

Definition attributes (node : Z) : Op NodeAttributes.t :=
  inode ← read_allocated_inode node;
  mret (NodeAttributes.mk node (Inode.generation inode) (Inode.kind inode) (Inode.mode inode)
          (Inode.uid inode) (Inode.gid inode) (Inode.link_count inode) (Inode.size inode)
          (Inode.allocated_blocks inode) (Inode.accessed inode) (Inode.modified inode)
          (Inode.changed inode) (Inode.created inode)).

(** The blocks of a directory, in order. *)
Definition directory_blocks (inode : Inode.t) : list Z := range 0 (Inode.size inode / BLOCK_SIZE_U64).

Definition lookup (directory : Z) (name : list Z) : Op Z :=
  _ ← lift (err_if (negb (from_utf8 name)) FsError.InvalidName);
  _ ← lift (err_if ((length name =? 0)%nat || contains 0 name || contains SLASH name) FsError.InvalidName);
  inode ← read_allocated_inode directory;
  _ ← lift (err_if (negb (bool_decide (Inode.kind inode = NodeKind.Directory))) FsError.NotDirectory);
  if bool_decide (name = DOT) then mret directory
  else if bool_decide (name = DOTDOT) then mret (Inode.parent_inode inode)
  else
  found ← for_find (directory_blocks inode) (λ logical_block,
    block ← read_directory_block directory inode logical_block;
    on_format (find_name name 0 (DirectoryBlock.entries block)));
  match found with
  | Some (_, entry) => mret (DirectoryEntry.inode entry)
  | None => lift (Err FsError.NotFound)
  end.

Definition lookup_path (start : Z) (path : list Z) : Op Z :=
  let node := match path with c :: _ => if c =? SLASH then root else start | [] => start end in
  for_fold (split_path path) node (λ node component,
    if (length component =? 0)%nat || bool_decide (component = DOT) then mret node
    else lookup node component).

(** [while completed < count]: every turn completes at least one byte, so [count]
    turns are enough. *)
Fixpoint read_chunks (fuel : nat) (inode : Inode.t) (offset : Z) (count completed : nat) (output : list Z)
    : Op (list Z) :=
  if (count <=? completed)%nat then mret output else
  match fuel with
  | O => lift Abort
  | S fuel =>
      file_offset ← lift (ok_or (checked_add u64_max offset (Z.of_nat completed)) FsError.ArithmeticOverflow);
      let logical_block := file_offset / BLOCK_SIZE_U64 in
      let within_block := Z.to_nat (file_offset mod BLOCK_SIZE_U64) in
      let chunk := Nat.min (BLOCK_SIZE - within_block) (count - completed) in
      mapped ← lift (physical_block inode logical_block);
      match mapped with
      | Some physical =>
          block_bytes ← read_block physical;
          read_chunks fuel inode offset count (completed + chunk)
            (put_bytes output completed (slice within_block chunk block_bytes))
      | None => read_chunks fuel inode offset count (completed + chunk) output
      end
  end.

(** [output] is the caller's buffer; the result is the count and the buffer. *)
Definition read (node offset : Z) (output : list Z) : Op (nat * list Z) :=
  inode ← read_allocated_inode node;
  _ ← lift (match Inode.kind inode with
            | NodeKind.Directory => Err FsError.IsDirectory
            | NodeKind.Regular => Ok ()
            | NodeKind.Symlink => Err FsError.UnsupportedNodeKind
            | NodeKind.Free => Err FsError.InvalidNode
            end);
  if (Inode.size inode <=? offset) || (length output =? 0)%nat then mret (0%nat, output) else
  let available := Inode.size inode - offset in
  let count := Nat.min (length output) (Z.to_nat available) in
  let output := put_bytes output 0 (zeros count) in
  output ← read_chunks count inode offset count 0 output;
  mret (count, output).

(** The inner loop of [read_directory]: it stops once [maximum] records are listed. *)
Fixpoint list_entries (block : DirectoryBlock.t) (cookie : Z) (maximum : nat) (slot : nat)
    (entries : list DirectoryEntry.t) (records : list DirectoryRecord.t)
    : outcome FsError.t (list DirectoryRecord.t) :=
  match entries with
  | [] => mret records
  | entry :: entries =>
      block_cookie ← map_err FsError.Format (DirectoryBlock.cookie block slot);
      next_cookie ← ok_or (checked_add u64_max 2 block_cookie) FsError.ArithmeticOverflow;
      if (next_cookie <=? cookie) || DirectoryEntry.is_unused entry
      then list_entries block cookie maximum (S slot) entries records
      else
      name ← map_err FsError.Format (DirectoryEntry.name_str entry);
      let records := push records
        (DirectoryRecord.mk (DirectoryEntry.inode entry) (DirectoryEntry.generation entry)
           (DirectoryEntry.kind entry) name next_cookie) in
      if (maximum <=? length records)%nat then mret records
      else list_entries block cookie maximum (S slot) entries records
  end.

Definition read_directory (node cookie : Z) (maximum : nat) : Op (list DirectoryRecord.t) :=
  inode ← read_allocated_inode node;
  _ ← lift (err_if (negb (bool_decide (Inode.kind inode = NodeKind.Directory))) FsError.NotDirectory);
  maximum_cookie ← lift (ok_or (checked_add u64_max 2
      ((Inode.size inode / BLOCK_SIZE_U64) * Z.of_nat DIRECTORY_ENTRIES_PER_BLOCK)) FsError.ArithmeticOverflow);
  _ ← lift (err_if (maximum_cookie <? cookie) FsError.InvalidCookie);
  let records :=
    if (cookie <? 1) && (0 <? maximum)%nat
    then [DirectoryRecord.mk node (Inode.generation inode) NodeKind.Directory DOT 1] else [] in
  records ←
    (if (cookie <? 2) && (length records <? maximum)%nat then
       parent ← read_allocated_inode (Inode.parent_inode inode);
       mret (push records
         (DirectoryRecord.mk (Inode.parent_inode inode) (Inode.generation parent) NodeKind.Directory DOTDOT 2))
     else mret records);
  for_fold (directory_blocks inode) records (λ records logical_block,
    if (maximum <=? length records)%nat then mret records else
    block ← read_directory_block node inode logical_block;
    lift (list_entries block cookie maximum 0 (DirectoryBlock.entries block) records)).

(** [try_fold] with [checked_add] over the sizes of the data areas. *)
Fixpoint sum_data_blocks (groups : list AllocationGroupDescriptor.t) (total : Z) : outcome FsError.t Z :=
  match groups with
  | [] => mret total
  | group :: groups =>
      total ← ok_or (checked_add u64_max total
                       (AllocationGroupDescriptor.data_end_block group
                        - AllocationGroupDescriptor.first_data_block group)) FsError.ArithmeticOverflow;
      sum_data_blocks groups total
  end.

Definition statistics : Op FilesystemStatistics.t :=
  s ← get;
  state ← lift (ok_or (state s) FsError.CorruptVolume);
  total_data_blocks ← lift (sum_data_blocks (groups s) 0);
  total_inodes ← lift (ok_or (checked_mul u64_max (Z.of_nat (length (groups s))) PHASE2_INODES_PER_GROUP)
                         FsError.ArithmeticOverflow);
  mret (FilesystemStatistics.mk total_data_blocks (FilesystemState.free_block_count state)
          total_inodes (FilesystemState.free_inode_count state)).
End volume.
