(* ===== verification/Mutation.v ===== *)
(** * Changing a NullFS volume

    Models nullfs-core/src/mutation.rs: open handles, creation, removal and
    renaming of nodes, writing and truncating files, the allocation of inodes
    and data blocks in the bitmaps, the inline extents, and the list of orphans.
    Every operation stages whole blocks in a transaction and commits it; a
    failure drops the transaction. *)

From Stdlib Require Import ZArith Lia.
From stdpp Require Import base list numbers option.
From S2P Require Import Prelude NullfsBytes NullfsPhase3 NullfsSuperblock NullfsRecord NullfsInode.
From S2P Require Import NullfsDirectory NullfsAllocation BlockDevice Journal Volume.

Open Scope Z_scope.

(** ** Extents *)

(** [sort_unstable_by_key(|extent| extent.logical_first_block)] *)
Fixpoint insert_extent (extent : Extent.t) (sorted : list Extent.t) : list Extent.t :=
  match sorted with
  | [] => [extent]
  | x :: rest =>
      if Extent.logical_first_block extent <? Extent.logical_first_block x then extent :: sorted
      else x :: insert_extent extent rest
  end.
Definition sort_extents (extents : list Extent.t) : list Extent.t :=
  fold_left (λ sorted extent, insert_extent extent sorted) extents [].

Definition with_length (length_blocks : Z) (extent : Extent.t) : Extent.t :=
  Extent.mk (Extent.logical_first_block extent) (Extent.physical_first_block extent) length_blocks
    (Extent.flags extent).

(** [for extent in pending]: [merged] is the array, [merged_count] its used part. *)
Fixpoint merge_extents (pending merged : list Extent.t) (merged_count : nat)
    : outcome FsError.t (list Extent.t * nat) :=
  match pending with
  | [] => mret (merged, merged_count)
  | extent :: pending =>
      let append :=
        _ ← err_if (merged_count =? INLINE_EXTENT_COUNT)%nat FsError.ExtentLimit;
        merge_extents pending (<[merged_count := extent]> merged) (S merged_count) in
      match (if (merged_count =? 0)%nat then None else merged !! (merged_count - 1)%nat) with
      | None => append
      | Some last =>
          logical_end ← map_err FsError.Format (Extent.logical_end last);
          if negb (logical_end =? Extent.logical_first_block extent) then append else
          physical_end ← map_err FsError.Format (Extent.physical_end last);
          if negb (physical_end =? Extent.physical_first_block extent) then append else
          length ← ok_or (checked_add u32_max (Extent.length_blocks last) (Extent.length_blocks extent))
                     FsError.ArithmeticOverflow;
          merge_extents pending (<[(merged_count - 1)%nat := with_length length last]> merged) merged_count
      end
  end.

Definition add_extent_raw (extents : list Extent.t) (count : nat) (logical physical : Z)
    : outcome FsError.t (list Extent.t * nat) :=
  let pending := push (take count extents) (Extent.mk logical physical 1 0) in
  merge_extents (sort_extents pending) (replicate INLINE_EXTENT_COUNT Extent.default) 0.

Definition set_extents (extents : list Extent.t) (extent_count allocated_blocks : Z) (inode : Inode.t) : Inode.t :=
  Inode.mk (Inode.kind inode) (Inode.mode inode) (Inode.uid inode) (Inode.gid inode) (Inode.link_count inode)
    (Inode.flags inode) (Inode.generation inode) (Inode.size inode) allocated_blocks (Inode.parent_inode inode)
    (Inode.accessed inode) (Inode.modified inode) (Inode.changed inode) (Inode.created inode)
    (Inode.directory_entry_count inode) extent_count extents.
Definition set_size (size : Z) (inode : Inode.t) : Inode.t :=
  Inode.mk (Inode.kind inode) (Inode.mode inode) (Inode.uid inode) (Inode.gid inode) (Inode.link_count inode)
    (Inode.flags inode) (Inode.generation inode) size (Inode.allocated_blocks inode) (Inode.parent_inode inode)
    (Inode.accessed inode) (Inode.modified inode) (Inode.changed inode) (Inode.created inode)
    (Inode.directory_entry_count inode) (Inode.extent_count inode) (Inode.extents inode).
Definition set_links (link_count parent_inode : Z) (inode : Inode.t) : Inode.t :=
  Inode.mk (Inode.kind inode) (Inode.mode inode) (Inode.uid inode) (Inode.gid inode) link_count
    (Inode.flags inode) (Inode.generation inode) (Inode.size inode) (Inode.allocated_blocks inode) parent_inode
    (Inode.accessed inode) (Inode.modified inode) (Inode.changed inode) (Inode.created inode)
    (Inode.directory_entry_count inode) (Inode.extent_count inode) (Inode.extents inode).
Definition set_entry_count (count : Z) (inode : Inode.t) : Inode.t :=
  Inode.mk (Inode.kind inode) (Inode.mode inode) (Inode.uid inode) (Inode.gid inode) (Inode.link_count inode)
    (Inode.flags inode) (Inode.generation inode) (Inode.size inode) (Inode.allocated_blocks inode)
    (Inode.parent_inode inode) (Inode.accessed inode) (Inode.modified inode) (Inode.changed inode)
    (Inode.created inode) count (Inode.extent_count inode) (Inode.extents inode).

Definition add_extent (inode : Inode.t) (logical physical : Z) : outcome FsError.t Inode.t :=
  r ← add_extent_raw (Inode.extents inode) (Z.to_nat (Inode.extent_count inode)) logical physical;
  let '(extents, count) := r in
  mret (set_extents extents (Z.of_nat count) (Inode.allocated_blocks inode + 1) inode).

Definition valid_name (bytes : list Z) : outcome FsError.t (list Z) :=
  _ ← err_if (negb (from_utf8 bytes)) FsError.InvalidName;
  _ ← map_err (λ _, FsError.InvalidName) (DirectoryEntry.new 1 1 NodeKind.Regular bytes);
  mret bytes.

Section mutation.
Context {D : Type} {HD : BlockDevice D}.
Notation fs := (Filesystem D).
Notation Op := (M fs FsError.t).

(** ** Transactions *)

Definition start_mutation : Op unit :=
  _ ← ensure_writable;
  s ← get;
  _ ← lift (err_if (bool_decide (is_Some (transaction s))) FsError.TransactionInProgress);
  begin_transaction.

Definition finish_mutation {A} (result : Op A) : Op A :=
  try_catch result mret (λ e, _ ← modify (set_transaction None); lift (Err e)).

(** [&mut self.transaction.as_mut().ok_or(Error::CorruptVolume)?.state] *)
Definition pending_state (f : FilesystemState.t → outcome FsError.t FilesystemState.t) : Op unit :=
  s ← get;
  tx ← lift (ok_or (transaction s) FsError.CorruptVolume);
  st ← lift (f (Transaction.state tx));
  modify (set_transaction (Some (Transaction.mk (Transaction.id tx) st (Transaction.updates tx)))).

Definition with_free_blocks (n : Z) (st : FilesystemState.t) : FilesystemState.t :=
  FilesystemState.mk (FilesystemState.generation st) (FilesystemState.next_transaction_id st)
    (FilesystemState.orphan_head st) n (FilesystemState.free_inode_count st).
Definition with_free_inodes (n : Z) (st : FilesystemState.t) : FilesystemState.t :=
  FilesystemState.mk (FilesystemState.generation st) (FilesystemState.next_transaction_id st)
    (FilesystemState.orphan_head st) (FilesystemState.free_block_count st) n.
Definition with_orphan_head (n : Z) (st : FilesystemState.t) : FilesystemState.t :=
  FilesystemState.mk (FilesystemState.generation st) (FilesystemState.next_transaction_id st)
    n (FilesystemState.free_block_count st) (FilesystemState.free_inode_count st).

Definition next_generation_value : Op Z :=
  s ← get;
  st ← lift (ok_or (state s) FsError.CorruptVolume);
  lift (ok_or (checked_add u64_max (FilesystemState.generation st) 1) FsError.ArithmeticOverflow).

(** ** Allocation *)

(** [for local in 0..group.inodes_in_group]: the first free inode of a group. *)
Definition free_inode_bit (group : AllocationGroupDescriptor.t) (bitmap : list Z) : option nat :=
  List.find (λ local, bool_decide (bitmap_test bitmap local = Some false))
    (seq 0 (Z.to_nat (AllocationGroupDescriptor.inodes_in_group group))).

Definition allocate_inode : Op Z :=
  s ← get;
  found ← for_find (zip (seq 0 (length (groups s))) (groups s)) (λ g,
    let '(group_index, group) := g in
    bitmap ← read_block (AllocationGroupDescriptor.inode_bitmap_block group);
    match free_inode_bit group bitmap with
    | None => mret None
    | Some local =>
        bitmap ← on_format (bitmap_set bitmap local true);
        _ ← stage_block (AllocationGroupDescriptor.inode_bitmap_block group) bitmap;
        _ ← pending_state (λ st,
              n ← ok_or (checked_sub (FilesystemState.free_inode_count st) 1) FsError.CorruptVolume;
              mret (with_free_inodes n st));
        mret (Some (Z.of_nat group_index * AllocationGroupDescriptor.inodes_in_group group
                    + Z.of_nat local + 1))
    end);
  lift (ok_or found FsError.NoSpace).

(** The bit of a block in its group's bitmap. *)
Definition block_bit (group : AllocationGroupDescriptor.t) (physical : Z) : nat :=
  Z.to_nat (physical - AllocationGroupDescriptor.group_start_block group).

(** [for physical in group.first_data_block..group.data_end_block]: the first free
    block of a group. *)
Definition free_data_bit (group : AllocationGroupDescriptor.t) (bitmap : list Z) : option Z :=
  List.find (λ physical, bool_decide (bitmap_test bitmap (block_bit group physical) = Some false))
    (range (AllocationGroupDescriptor.first_data_block group) (AllocationGroupDescriptor.data_end_block group)).

Definition allocate_data_block : Op Z :=
  s ← get;
  found ← for_find (groups s) (λ group,
    bitmap ← read_block (AllocationGroupDescriptor.block_bitmap_block group);
    match free_data_bit group bitmap with
    | None => mret None
    | Some physical =>
        bitmap ← on_format (bitmap_set bitmap (block_bit group physical) true);
        _ ← stage_block (AllocationGroupDescriptor.block_bitmap_block group) bitmap;
        _ ← pending_state (λ st,
              n ← ok_or (checked_sub (FilesystemState.free_block_count st) 1) FsError.CorruptVolume;
              mret (with_free_blocks n st));
        mret (Some physical)
    end);
  lift (ok_or found FsError.NoSpace).

Definition in_data_area (physical : Z) (group : AllocationGroupDescriptor.t) : bool :=
  (AllocationGroupDescriptor.first_data_block group <=? physical)
  && (physical <? AllocationGroupDescriptor.data_end_block group).

Definition free_data_block (physical : Z) : Op unit :=
  s ← get;
  group ← lift (ok_or (List.find (in_data_area physical) (groups s)) FsError.CorruptVolume);
  bitmap ← read_block (AllocationGroupDescriptor.block_bitmap_block group);
  bitmap ← on_format (bitmap_set bitmap (block_bit group physical) false);
  _ ← stage_block (AllocationGroupDescriptor.block_bitmap_block group) bitmap;
  pending_state (λ st,
    n ← ok_or (checked_add u64_max (FilesystemState.free_block_count st) 1) FsError.ArithmeticOverflow;
    mret (with_free_blocks n st)).

(** ** Inodes and directory entries *)

Definition write_inode (node : Z) (inode : Inode.t) : Op unit :=
  location ← inode_location node;
  let '(group, local) := location in
  let byte := (local * INODE_BYTES)%nat in
  let physical := AllocationGroupDescriptor.inode_table_first_block group + Z.of_nat (byte / BLOCK_SIZE) in
  let within := (byte mod BLOCK_SIZE)%nat in
  block ← read_block physical;
  encoded ← on_format
    (if (Inode.link_count inode =? 0) && negb (bool_decide (Inode.kind inode = NodeKind.Free))
     then Inode.encode_with_mode inode Phase3Orphan else Inode.encode inode);
  stage_block physical (put_bytes block within encoded).

Definition find_entry (directory : Z) (inode : Inode.t) (name : list Z)
    : Op (option (Z * nat * DirectoryEntry.t)) :=
  _ ← lift (err_if (negb (bool_decide (Inode.kind inode = NodeKind.Directory))) FsError.NotDirectory);
  for_find (directory_blocks inode) (λ logical,
    block ← read_directory_block directory inode logical;
    found ← on_format (find_name name 0 (DirectoryBlock.entries block));
    mret (match found with Some (slot, entry) => Some (logical, slot, entry) | None => None end)).

Definition set_entry (slot : nat) (entry : DirectoryEntry.t) (block : DirectoryBlock.t) : DirectoryBlock.t :=
  DirectoryBlock.mk (DirectoryBlock.owner_inode block) (DirectoryBlock.logical_block_index block)
    (<[slot := entry]> (DirectoryBlock.entries block)).

(** Stage the block of a directory at its place. *)
Definition stage_directory_block (inode : Inode.t) (logical : Z) (block : DirectoryBlock.t) : Op unit :=
  mapped ← lift (physical_block inode logical);
  physical ← lift (ok_or mapped FsError.CorruptVolume);
  encoded ← on_format (DirectoryBlock.encode block);
  stage_block physical encoded.

(** The result is the directory's inode as it has become. *)
Definition insert_entry (directory : Z) (inode : Inode.t) (name : list Z) (child : Z) (child_inode : Inode.t)
    : Op Inode.t :=
  entry ← on_format (DirectoryEntry.new child (Inode.generation child_inode) (Inode.kind child_inode) name);
  found ← for_find (directory_blocks inode) (λ logical,
    block ← read_directory_block directory inode logical;
    match position DirectoryEntry.is_unused (DirectoryBlock.entries block) with
    | None => mret None
    | Some slot =>
        _ ← stage_directory_block inode logical (set_entry slot entry block);
        mret (Some ())
    end);
  match found with
  | Some _ => mret (set_entry_count (Inode.directory_entry_count inode + 1) inode)
  | None =>
      let logical := Inode.size inode / BLOCK_SIZE_U64 in
      physical ← allocate_data_block;
      inode ← lift (add_extent inode logical physical);
      let inode := set_size (Inode.size inode + BLOCK_SIZE_U64) inode in
      block ← on_format (DirectoryBlock.new directory logical);
      encoded ← on_format (DirectoryBlock.encode (set_entry 0 entry block));
      _ ← stage_block physical encoded;
      mret (set_entry_count (Inode.directory_entry_count inode + 1) inode)
  end.

Definition clear_entry (directory : Z) (inode : Inode.t) (logical : Z) (slot : nat) : Op Inode.t :=
  block ← read_directory_block directory inode logical;
  _ ← stage_directory_block inode logical (set_entry slot DirectoryEntry.default block);
  count ← lift (ok_or (checked_sub (Inode.directory_entry_count inode) 1) FsError.CorruptVolume);
  mret (set_entry_count count inode).

Definition free_inode_and_blocks (node : Z) (inode : Inode.t) : Op unit :=
  _ ← for_each (Inode.used_extents inode) (λ extent,
        stop ← on_format (Extent.physical_end extent);
        for_each (range (Extent.physical_first_block extent) stop) free_data_block);
  _ ← write_inode node Inode.default;
  location ← inode_location node;
  let '(group, local) := location in
  bitmap ← read_block (AllocationGroupDescriptor.inode_bitmap_block group);
  bitmap ← on_format (bitmap_set bitmap local false);
  _ ← stage_block (AllocationGroupDescriptor.inode_bitmap_block group) bitmap;
  pending_state (λ st,
    n ← ok_or (checked_add u64_max (FilesystemState.free_inode_count st) 1) FsError.ArithmeticOverflow;
    mret (with_free_inodes n st)).

(** ** Orphans *)

Definition total_inodes (s : fs) : nat := (length (groups s) * Z.to_nat PHASE2_INODES_PER_GROUP)%nat.

(** [loop]: find the orphan before [node] and unlink [node] from it.  A walk that
    visits more nodes than the volume has inodes is on a cycle, where the loop of
    the source does not end. *)
Fixpoint unlink_orphan (fuel : nat) (node next cursor : Z) : Op unit :=
  match fuel with
  | O => lift Abort
  | S fuel =>
      _ ← lift (err_if (cursor =? 0) FsError.CorruptVolume);
      prior ← read_allocated_inode cursor;
      prior_next ← on_format (Inode.orphan_next prior);
      if prior_next =? node then write_inode cursor (set_links (Inode.link_count prior) next prior)
      else unlink_orphan fuel node next prior_next
  end.

Definition reclaim_one_orphan (node : Z) (inode : Inode.t) : Op unit :=
  _ ← start_mutation;
  finish_mutation (
    next ← on_format (Inode.orphan_next inode);
    s ← get;
    tx ← lift (ok_or (transaction s) FsError.CorruptVolume);
    let head := FilesystemState.orphan_head (Transaction.state tx) in
    _ ← (if head =? node then pending_state (λ st, mret (with_orphan_head next st))
         else unlink_orphan (S (total_inodes s)) node next head);
    _ ← free_inode_and_blocks node inode;
    commit_transaction).

(** [while cursor != 0]: the orphans in list order.  A cursor that was seen ends
    the walk, so it visits every inode at most once. *)
Fixpoint collect_orphans (fuel : nat) (cursor : Z) (seen : list Z) : Op (list Z) :=
  if cursor =? 0 then mret seen else
  match fuel with
  | O => lift Abort
  | S fuel =>
      _ ← lift (err_if (bool_decide (cursor ∈ seen)) FsError.CorruptVolume);
      let seen := push seen cursor in
      inode ← read_allocated_inode cursor;
      _ ← on_format (Inode.validate_with_mode inode Phase3Orphan);
      cursor ← on_format (Inode.orphan_next inode);
      collect_orphans fuel cursor seen
  end.

Definition reclaim_orphans : Op unit :=
  s ← get;
  st ← lift (ok_or (state s) FsError.CorruptVolume);
  seen ← collect_orphans (S (total_inodes s)) (FilesystemState.orphan_head st) [];
  for_each seen (λ node,
    inode ← read_allocated_inode node;
    reclaim_one_orphan node inode).

(** ** Creating and removing nodes *)

(** [Inode { kind, mode, link_count: 1, generation, parent_inode, ..Inode::default() }] *)
Definition new_inode (kind : NodeKind.t) (mode generation parent : Z) : Inode.t :=
  Inode.mk kind mode 0 0 1 0 generation 0 0 parent Timestamp.default Timestamp.default Timestamp.default
    Timestamp.default 0 0 (replicate INLINE_EXTENT_COUNT Extent.default).

Definition create_node (parent : Z) (name : list Z) (mode : Z) (kind : NodeKind.t) : Op Z :=
  _ ← start_mutation;
  finish_mutation (
    name ← lift (valid_name name);
    parent_inode ← read_allocated_inode parent;
    _ ← lift (err_if (negb (bool_decide (Inode.kind parent_inode = NodeKind.Directory))) FsError.NotDirectory);
    existing ← find_entry parent parent_inode name;
    _ ← lift (err_if (bool_decide (is_Some existing)) FsError.AlreadyExists);
    node ← allocate_inode;
    generation ← next_generation_value;
    let inode := new_inode kind mode generation parent in
    inode ←
      (if bool_decide (kind = NodeKind.Directory) then
         physical ← allocate_data_block;
         directory ← on_format (DirectoryBlock.new node 0);
         encoded ← on_format (DirectoryBlock.encode directory);
         _ ← stage_block physical encoded;
         mret (set_size BLOCK_SIZE_U64
                 (set_extents (<[0%nat := Extent.mk 0 physical 1 0]> (Inode.extents inode)) 1 1 inode))
       else mret inode);
    _ ← write_inode node inode;
    parent_inode ← insert_entry parent parent_inode name node inode;
    _ ← write_inode parent parent_inode;
    _ ← commit_transaction;
    mret node).

Definition create (parent : Z) (name : list Z) (mode : Z) : Op Z := create_node parent name mode NodeKind.Regular.
Definition create_directory (parent : Z) (name : list Z) (mode : Z) : Op Z :=
  create_node parent name mode NodeKind.Directory.
Definition mkdir (parent : Z) (name : list Z) (mode : Z) : Op Z := create_directory parent name mode.

(** A node is open at a generation. *)
Definition is_open (handles : list OpenHandle.t) (node generation : Z) : bool :=
  any (λ h, (OpenHandle.node h =? node) && (OpenHandle.generation h =? generation)) handles.

Definition remove (parent : Z) (name : list Z) (directory : bool) : Op unit :=
  _ ← start_mutation;
  finish_mutation (
    name ← lift (valid_name name);
    parent_inode ← read_allocated_inode parent;
    found ← find_entry parent parent_inode name;
    place ← lift (ok_or found FsError.NotFound);
    let '(logical, slot, entry) := place in
    let node := DirectoryEntry.inode entry in
    inode ← read_allocated_inode node;
    _ ← lift (if directory then
                _ ← err_if (negb (bool_decide (Inode.kind inode = NodeKind.Directory))) FsError.NotDirectory;
                err_if (negb (Inode.directory_entry_count inode =? 0)) FsError.DirectoryNotEmpty
              else err_if (bool_decide (Inode.kind inode = NodeKind.Directory)) FsError.IsDirectory);
    parent_inode ← clear_entry parent parent_inode logical slot;
    s ← get;
    _ ← (if is_open (open_handles s) node (Inode.generation inode)
            && bool_decide (Inode.kind inode = NodeKind.Regular) then
           tx ← lift (ok_or (transaction s) FsError.CorruptVolume);
           let head := FilesystemState.orphan_head (Transaction.state tx) in
           _ ← write_inode node (set_links 0 head inode);
           pending_state (λ st, mret (with_orphan_head node st))
         else free_inode_and_blocks node inode);
    _ ← write_inode parent parent_inode;
    commit_transaction).

Definition unlink (parent : Z) (name : list Z) : Op unit := remove parent name false.
Definition rmdir (parent : Z) (name : list Z) : Op unit := remove parent name true.

(** [for _ in 0..=total]: [n] steps are left. *)
Fixpoint prevent_cycle_from (n : nat) (source cursor : Z) : Op unit :=
  match n with
  | O => lift (Err FsError.CorruptVolume)
  | S n =>
      if cursor =? source then lift (Err FsError.DirectoryCycle)
      else if cursor =? root then mret ()
      else
      inode ← read_allocated_inode cursor;
      _ ← lift (err_if (negb (bool_decide (Inode.kind inode = NodeKind.Directory))) FsError.NotDirectory);
      prevent_cycle_from n source (Inode.parent_inode inode)
  end.
Definition prevent_cycle (source destination_parent : Z) : Op unit :=
  s ← get;
  prevent_cycle_from (S (total_inodes s)) source destination_parent.

(** What [rename] requires of an entry it replaces, before freeing its node. *)
Definition replaceable (source target : Inode.t) : outcome FsError.t unit :=
  _ ← err_if (bool_decide (Inode.kind source = NodeKind.Directory)
              && negb (bool_decide (Inode.kind target = NodeKind.Directory))) FsError.NotDirectory;
  _ ← err_if (negb (bool_decide (Inode.kind source = NodeKind.Directory))
              && bool_decide (Inode.kind target = NodeKind.Directory)) FsError.IsDirectory;
  err_if (bool_decide (Inode.kind target = NodeKind.Directory)
          && negb (Inode.directory_entry_count target =? 0)) FsError.DirectoryNotEmpty.

(** Remove the entry that the new name replaces, and its node; the result is the
    directory's inode. *)
Definition replace_destination (directory : Z) (inode : Inode.t) (name : list Z) (source_node : Z)
    (source : Inode.t) : Op Inode.t :=
  found ← find_entry directory inode name;
  match found with
  | None => mret inode
  | Some (logical, slot, destination) =>
      let node := DirectoryEntry.inode destination in
      _ ← lift (err_if (node =? source_node) FsError.AlreadyExists);
      target ← read_allocated_inode node;
      _ ← lift (replaceable source target);
      inode ← clear_entry directory inode logical slot;
      _ ← free_inode_and_blocks node target;
      mret inode
  end.

Definition rename (old_parent : Z) (old_name : list Z) (new_parent : Z) (new_name : list Z) : Op unit :=
  _ ← start_mutation;
  finish_mutation (
    old_name ← lift (valid_name old_name);
    new_name ← lift (valid_name new_name);
    old_dir ← read_allocated_inode old_parent;
    found ← find_entry old_parent old_dir old_name;
    place ← lift (ok_or found FsError.NotFound);
    let '(old_logical, old_slot, source_entry) := place in
    let source_node := DirectoryEntry.inode source_entry in
    source ← read_allocated_inode source_node;
    _ ← (if bool_decide (Inode.kind source = NodeKind.Directory) then prevent_cycle source_node new_parent
         else mret ());
    if (old_parent =? new_parent) && bool_decide (old_name = new_name) then modify (set_transaction None)
    else if old_parent =? new_parent then
      old_dir ← replace_destination old_parent old_dir new_name source_node source;
      old_dir ← clear_entry old_parent old_dir old_logical old_slot;
      old_dir ← insert_entry old_parent old_dir new_name source_node source;
      _ ← write_inode old_parent old_dir;
      commit_transaction
    else
      new_dir ← read_allocated_inode new_parent;
      _ ← lift (err_if (negb (bool_decide (Inode.kind new_dir = NodeKind.Directory))) FsError.NotDirectory);
      new_dir ← replace_destination new_parent new_dir new_name source_node source;
      old_dir ← clear_entry old_parent old_dir old_logical old_slot;
      new_dir ← insert_entry new_parent new_dir new_name source_node source;
      _ ← (if bool_decide (Inode.kind source = NodeKind.Directory) && negb (old_parent =? new_parent)
           then write_inode source_node (set_links (Inode.link_count source) new_parent source)
           else mret ());
      _ ← write_inode old_parent old_dir;
      _ ← write_inode new_parent new_dir;
      commit_transaction).

(** ** File contents *)

Definition file_kind (inode : Inode.t) : outcome FsError.t unit :=
  _ ← err_if (bool_decide (Inode.kind inode = NodeKind.Directory)) FsError.IsDirectory;
  err_if (negb (bool_decide (Inode.kind inode = NodeKind.Regular))) FsError.UnsupportedNodeKind.

(** One turn of [for logical in first..=last]: the inode and the bytes consumed. *)
Definition write_one (first offset : Z) (input : list Z) (acc : Inode.t * nat) (logical : Z) : Op (Inode.t * nat) :=
  let '(inode, consumed) := acc in
  let within := if logical =? first then Z.to_nat (offset mod BLOCK_SIZE_U64) else 0%nat in
  let count := Nat.min (BLOCK_SIZE - within) (length input - consumed) in
  mapped ← lift (physical_block inode logical);
  target ←
    (match mapped with
     | Some physical =>
         image ← read_block physical;
         mret (inode, physical, image)
     | None =>
         physical ← allocate_data_block;
         inode ← lift (add_extent inode logical physical);
         mret (inode, physical, zeros BLOCK_SIZE)
     end);
  let '(inode, physical, image) := target in
  _ ← stage_block physical (put_bytes image within (slice consumed count input));
  mret (inode, (consumed + count)%nat).

Definition write_chunk (node offset : Z) (input : list Z) : Op nat :=
  inode ← read_allocated_inode node;
  _ ← lift (file_kind inode);
  stop ← lift (ok_or (checked_add u64_max offset (Z.of_nat (length input))) FsError.ArithmeticOverflow);
  let first := offset / BLOCK_SIZE_U64 in
  let last := (stop - 1) / BLOCK_SIZE_U64 in
  r ← for_fold (range first (last + 1)) (inode, 0%nat) (write_one first offset input);
  let '(inode, consumed) := r in
  let inode := set_size (Z.max (Inode.size inode) stop) inode in
  _ ← write_inode node inode;
  _ ← commit_transaction;
  mret consumed.

(** The bytes that one transaction may take from [chunk_offset] on. *)
Definition chunk_capacity (sb : Superblock.t) (chunk_offset : Z) : outcome FsError.t nat :=
  data_budget ← ok_or (checked_sub (Superblock.journal_max_updates sb) 4) FsError.TransactionTooLarge;
  bytes ← ok_or (checked_mul u64_max data_budget BLOCK_SIZE_U64) FsError.TransactionTooLarge;
  capacity ← ok_or (checked_sub bytes (chunk_offset mod BLOCK_SIZE_U64)) FsError.TransactionTooLarge;
  mret (Z.to_nat capacity).

(** [while committed < input.len()]: every turn commits at least one byte. *)
Fixpoint write_chunks (fuel : nat) (node offset : Z) (input : list Z) (committed : nat) : Op nat :=
  if (length input <=? committed)%nat then mret committed else
  match fuel with
  | O => lift Abort
  | S fuel =>
      chunk_offset ← lift (ok_or (checked_add u64_max offset (Z.of_nat committed)) FsError.ArithmeticOverflow);
      s ← get;
      first_capacity ← lift (chunk_capacity (superblock s) chunk_offset);
      let chunk := Nat.min (length input - committed) first_capacity in
      _ ← start_mutation;
      try_catch (write_chunk node chunk_offset (slice committed chunk input))
        (λ count, write_chunks fuel node offset input (committed + count))
        (λ e, _ ← modify (set_transaction None);
              if (committed =? 0)%nat then lift (Err e) else mret committed)
  end.

Definition write (node offset : Z) (input : list Z) : Op nat :=
  _ ← ensure_writable;
  write_chunks (length input) node offset input 0.

(** The blocks of one extent in [truncate]: kept below [retained_blocks], freed above. *)
Definition truncate_extent (retained_blocks : Z) (acc : list Extent.t * nat) (extent : Extent.t)
    : Op (list Extent.t * nat) :=
  for_fold (range 0 (Extent.length_blocks extent)) acc (λ acc relative,
    let logical := Extent.logical_first_block extent + relative in
    let physical := Extent.physical_first_block extent + relative in
    if logical <? retained_blocks then lift (add_extent_raw acc.1 acc.2 logical physical)
    else _ ← free_data_block physical; mret acc).

Definition sum_lengths (extents : list Extent.t) : Z := foldr (λ e n, Extent.length_blocks e + n) 0 extents.

(** The part of [truncate] that shrinks a file: the extents that stay, and the
    bytes after the new end cleared. *)
Definition shrink (inode : Inode.t) (size : Z) : Op Inode.t :=
  let retained_blocks := (size + (BLOCK_SIZE_U64 - 1)) / BLOCK_SIZE_U64 in
  r ← for_fold (Inode.used_extents inode) (replicate INLINE_EXTENT_COUNT Extent.default, 0%nat)
        (truncate_extent retained_blocks);
  let '(retained, retained_count) := r in
  let inode := set_extents retained (Z.of_nat retained_count) (sum_lengths (take retained_count retained)) inode in
  _ ← (if size mod BLOCK_SIZE_U64 =? 0 then mret () else
       mapped ← lift (physical_block inode (size / BLOCK_SIZE_U64));
       match mapped with
       | None => mret ()
       | Some physical =>
           image ← read_block physical;
           let within := Z.to_nat (size mod BLOCK_SIZE_U64) in
           stage_block physical (put_bytes image within (zeros (BLOCK_SIZE - within)))
       end);
  mret inode.

Definition truncate (node size : Z) : Op unit :=
  _ ← start_mutation;
  finish_mutation (
    inode ← read_allocated_inode node;
    _ ← lift (file_kind inode);
    inode ← (if size <? Inode.size inode then shrink inode size else mret inode);
    _ ← write_inode node (set_size size inode);
    commit_transaction).

(** ** Handles *)

Definition open_node (node : Z) : Op OpenHandle.t :=
  inode ← read_allocated_inode node;
  _ ← lift (err_if (Inode.link_count inode =? 0) FsError.InvalidNode);
  s ← get;
  let handle := OpenHandle.mk (next_handle_id s) node (Inode.generation inode) (Inode.kind inode) in
  next ← lift (ok_or (checked_add u64_max (next_handle_id s) 1) FsError.ArithmeticOverflow);
  _ ← modify (set_handles (push (open_handles s) handle) next);
  mret handle.

Definition validate_handle (handle : OpenHandle.t) : Op Z :=
  s ← get;
  record ← lift (ok_or (List.find (λ r, OpenHandle.id r =? OpenHandle.id handle) (open_handles s))
                   FsError.InvalidHandle);
  _ ← lift (err_if (negb (bool_decide (record = handle))) FsError.InvalidHandle);
  inode ← read_allocated_inode (OpenHandle.node handle);
  _ ← lift (err_if (negb (Inode.generation inode =? OpenHandle.generation handle)
                    || negb (bool_decide (Inode.kind inode = OpenHandle.kind handle))) FsError.InvalidHandle);
  mret (OpenHandle.node handle).

Definition read_handle (handle : OpenHandle.t) (offset : Z) (output : list Z) : Op (nat * list Z) :=
  node ← validate_handle handle;
  read node offset output.

Definition write_handle (handle : OpenHandle.t) (offset : Z) (input : list Z) : Op nat :=
  node ← validate_handle handle;
  write node offset input.

Definition close_node (handle : OpenHandle.t) : Op unit :=
  s ← get;
  i ← lift (ok_or (position (λ r, OpenHandle.id r =? OpenHandle.id handle) (open_handles s))
              FsError.InvalidHandle);
  record ← lift (expect (open_handles s !! i));
  _ ← lift (err_if (negb (bool_decide (record = handle))) FsError.InvalidHandle);
  _ ← modify (λ s, set_handles (swap_remove i (open_handles s)) (next_handle_id s) s);
  s ← get;
  if is_open (open_handles s) (OpenHandle.node handle) (OpenHandle.generation handle) then mret () else
  try_catch
    (inode ← read_allocated_inode (OpenHandle.node handle);
     if (Inode.generation inode =? OpenHandle.generation handle) && (Inode.link_count inode =? 0)
     then reclaim_one_orphan (OpenHandle.node handle) inode
     else mret ())
    mret
    (λ e, _ ← modify (λ s, set_handles (push (open_handles s) record) (next_handle_id s) s);
          lift (Err e)).
End mutation.
