(* ===== verification/Mount.v ===== *)
(** * Mounting and unmounting a NullFS volume

    Models the mount side of nullfs-core/src/lib.rs: finding the superblock and
    the descriptor table, the consistency check of the whole volume, the free
    counts, the clean and dirty marks, and the mount and unmount operations built
    from them, journal recovery and the reclamation of orphans. *)

From Stdlib Require Import ZArith Lia.
From stdpp Require Import base list numbers option.
From S2P Require Import Prelude NullfsBytes NullfsPhase3 NullfsSuperblock NullfsRecord NullfsInode.
From S2P Require Import NullfsDirectory NullfsAllocation BlockDevice Journal Volume Mutation.

Open Scope Z_scope.

(** ** The superblock and the descriptor table *)

Definition with_state (st : VolumeState) (sb : Superblock.t) : Superblock.t :=
  Superblock.mk (Superblock.format_major sb) (Superblock.format_minor sb) st (Superblock.features sb)
    (Superblock.filesystem_uuid sb) (Superblock.label sb) (Superblock.label_length sb)
    (Superblock.capacity_blocks sb) (Superblock.allocation_group_blocks sb) (Superblock.allocation_group_count sb)
    (Superblock.descriptor_reservation_blocks sb) (Superblock.first_descriptor_block sb)
    (Superblock.first_allocatable_block sb) (Superblock.backup_superblock_block sb)
    (Superblock.filesystem_state_block sb) (Superblock.journal_first_block sb)
    (Superblock.journal_block_count sb) (Superblock.journal_max_updates sb).

Definition select_superblock (primary backup : option Superblock.t) : outcome FsError.t Superblock.t :=
  match primary, backup with
  | Some primary, Some backup =>
      if bool_decide (primary = backup) then Ok primary
      else if bool_decide (with_state Clean primary = with_state Clean backup) then
        Ok (if bool_decide (Superblock.state backup = Dirty) then with_state Dirty primary else primary)
      else Err FsError.RedundantSuperblocksDisagree
  | Some primary, None => if Superblock.phase3_enabled primary then Ok primary else Err FsError.CorruptVolume
  | None, Some backup => if Superblock.phase3_enabled backup then Ok backup else Err FsError.CorruptVolume
  | None, None => Err FsError.CorruptVolume
  end.

(** A volume without a journal has no backup. *)
Definition found_superblock (primary backup : option Superblock.t) : outcome FsError.t Superblock.t :=
  match primary with
  | Some p => if negb (Superblock.phase3_enabled p) then Ok p else select_superblock primary backup
  | None => select_superblock primary backup
  end.

Section mount.
Context {D : Type} {HD : BlockDevice D}.
Notation fs := (Filesystem D).
Notation Op := (M fs FsError.t).
Notation DeviceOp := (M D FsError.t).

Definition device_read (block : Z) : DeviceOp (list Z) := zoom id (λ d _, d) FsError.Device (read_blocks block BLOCK_SIZE).

Definition discover_mount_metadata (mount_mode : RuntimeMountMode)
    : DeviceOp (Superblock.t * list AllocationGroupDescriptor.t) :=
  device ← get;
  _ ← lift (err_if (negb (block_size device =? BLOCK_SIZE)%nat)
              (FsError.Device BlockDeviceError.InvalidBlockSize));
  device_bytes ← lift (ok_or (checked_mul u64_max (block_count device) BLOCK_SIZE_U64) FsError.ArithmeticOverflow);
  block ← device_read SUPERBLOCK_BLOCK;
  let primary := ok_of (Superblock.decode block (Some device_bytes) ReadOnly) in
  block ← device_read PHASE3_BACKUP_SUPERBLOCK_BLOCK;
  let backup := ok_of (Superblock.decode block (Some device_bytes) ReadOnly) in
  superblock ← lift (found_superblock primary backup);
  _ ← lift (err_if (negb (Superblock.phase2_enabled superblock)) FsError.Phase2Required);
  _ ← lift (err_if (bool_decide (mount_mode = RuntimeReadWrite) && negb (Superblock.phase3_enabled superblock))
              FsError.Phase3Required);
  groups ← for_fold (range 0 (Superblock.descriptor_reservation_blocks superblock)) [] (λ groups table_index,
    block ← device_read (Superblock.first_descriptor_block superblock + table_index);
    table ← lift (map_err FsError.Format (AllocationGroupTable.decode block superblock));
    mret (groups ++ take (Z.to_nat (AllocationGroupTable.descriptor_count table))
                      (AllocationGroupTable.descriptors table)));
  _ ← lift (err_if (negb (Z.of_nat (length groups) =? Superblock.allocation_group_count superblock))
              FsError.CorruptVolume);
  mret (superblock, groups).

(** ** The consistency check *)

Definition block_is_data (groups : list AllocationGroupDescriptor.t) (block : Z) : bool :=
  any (in_data_area block) groups.

Definition in_group (physical : Z) (group : AllocationGroupDescriptor.t) : bool :=
  (AllocationGroupDescriptor.group_start_block group <=? physical)
  && (physical <? AllocationGroupDescriptor.group_start_block group
                  + AllocationGroupDescriptor.group_block_count group).

Definition block_bitmap_value (physical : Z) : Op bool :=
  s ← get;
  group ← lift (ok_or (List.find (in_group physical) (groups s)) FsError.CorruptVolume);
  bitmap ← read_block (AllocationGroupDescriptor.block_bitmap_block group);
  lift (ok_or (bitmap_test bitmap (block_bit group physical)) FsError.CorruptVolume).

Definition phase3 : Op bool := reads (λ s, Ok (Superblock.phase3_enabled (superblock s))).
Definition corrupt_if (b : bool) : Op unit := lift (err_if b FsError.CorruptVolume).

(** The first loop: the metadata of a group is marked, and the tails of its bitmaps are clear. *)
Definition check_group_bitmaps (descriptor : AllocationGroupDescriptor.t) : Op unit :=
  bitmap ← read_block (AllocationGroupDescriptor.block_bitmap_block descriptor);
  p3 ← phase3;
  _ ← (if (p3 : bool) then
         _ ← on_format (validate_bitmap_tail bitmap (Z.to_nat (AllocationGroupDescriptor.group_block_count descriptor)));
         for_each (range (AllocationGroupDescriptor.group_start_block descriptor)
                     (AllocationGroupDescriptor.first_data_block descriptor))
           (λ physical, corrupt_if (negb (bool_decide (bitmap_test bitmap (block_bit descriptor physical) = Some true))))
       else corrupt_if (nonzero bitmap));
  bitmap ← read_block (AllocationGroupDescriptor.inode_bitmap_block descriptor);
  if (p3 : bool) then on_format (validate_bitmap_tail bitmap (Z.to_nat (AllocationGroupDescriptor.inodes_in_group descriptor)))
  else corrupt_if (nonzero bitmap).

(** The blocks of one extent: data blocks that nothing else owns, marked in the bitmap. *)
Definition own_extent (owned_blocks : list Z) (extent : Extent.t) : Op (list Z) :=
  stop ← on_format (Extent.physical_end extent);
  for_fold (range (Extent.physical_first_block extent) stop) owned_blocks (λ owned_blocks block,
    s ← get;
    _ ← corrupt_if (negb (block_is_data (groups s) block) || bool_decide (block ∈ owned_blocks));
    p3 ← phase3;
    _ ← (if (p3 : bool) then marked ← block_bitmap_value block; corrupt_if (negb marked) else mret ());
    mret (push owned_blocks block)).

(** The second loop: the inodes in use and the blocks they own. *)
Definition check_inode (acc : list bool * list Z) (inode_number : Z) : Op (list bool * list Z) :=
  let '(allocated, owned_blocks) := acc in
  inode ← read_inode inode_number;
  if bool_decide (Inode.kind inode = NodeKind.Free) then mret acc else
  let allocated := <[Z.to_nat inode_number := true]> allocated in
  p3 ← phase3;
  _ ← (if (p3 : bool) then
         location ← inode_location inode_number;
         let '(descriptor, local) := location in
         bitmap ← read_block (AllocationGroupDescriptor.inode_bitmap_block descriptor);
         corrupt_if (negb (bool_decide (bitmap_test bitmap local = Some true)))
       else mret ());
  owned_blocks ← for_fold (Inode.used_extents inode) owned_blocks own_extent;
  mret (allocated, owned_blocks).

(** The loops that compare the bitmaps with what was found. *)
Definition check_inode_bit (allocated : list bool) (inode_number : Z) : Op unit :=
  location ← inode_location inode_number;
  let '(descriptor, local) := location in
  bitmap ← read_block (AllocationGroupDescriptor.inode_bitmap_block descriptor);
  corrupt_if (negb (bool_decide (bitmap_test bitmap local = allocated !! Z.to_nat inode_number))).

Definition check_block_bits (owned_blocks : list Z) (descriptor : AllocationGroupDescriptor.t) : Op unit :=
  bitmap ← read_block (AllocationGroupDescriptor.block_bitmap_block descriptor);
  for_each (range (AllocationGroupDescriptor.first_data_block descriptor)
              (AllocationGroupDescriptor.data_end_block descriptor))
    (λ physical,
       marked ← lift (ok_or (bitmap_test bitmap (block_bit descriptor physical)) FsError.CorruptVolume);
       corrupt_if (negb (bool_decide (marked = bool_decide (physical ∈ owned_blocks))))).

Definition check_counts (allocated : list bool) (owned_blocks : list Z) : Op unit :=
  s ← get;
  st ← lift (ok_or (state s) FsError.CorruptVolume);
  let allocated_inodes := Z.of_nat (length (List.filter (λ b, b) (drop 1 allocated))) in
  total_data_blocks ← lift (sum_data_blocks (groups s) 0);
  let expected_inodes := Z.of_nat (total_inodes s) - allocated_inodes in
  let expected_blocks := total_data_blocks - Z.of_nat (length owned_blocks) in
  corrupt_if ((negb (FilesystemState.free_inode_count st =? 0) || negb (FilesystemState.free_block_count st =? 0))
              && (negb (FilesystemState.free_inode_count st =? expected_inodes)
                  || negb (FilesystemState.free_block_count st =? expected_blocks))).

(** [for _ in 0..=total_inodes]: [n] steps are left. *)
Fixpoint validate_parent_chain (n : nat) (cursor : Z) : Op unit :=
  match n with
  | O => lift (Err FsError.CorruptVolume)
  | S n =>
      inode ← read_allocated_inode cursor;
      _ ← corrupt_if (negb (bool_decide (Inode.kind inode = NodeKind.Directory)));
      if cursor =? root then corrupt_if (negb (Inode.parent_inode inode =? ROOT_INODE))
      else validate_parent_chain n (Inode.parent_inode inode)
  end.

(** One entry of a directory: the names listed so far, the references, the count. *)
Definition check_entry (total : nat) (allocated : list bool) (acc : list (list Z) * list bool * Z)
    (entry : DirectoryEntry.t) : Op (list (list Z) * list bool * Z) :=
  let '(names, referenced, entry_count) := acc in
  let target_index := Z.to_nat (DirectoryEntry.inode entry) in
  _ ← corrupt_if (total <? target_index)%nat;
  live ← lift (expect (allocated !! target_index));
  _ ← corrupt_if (negb live);
  target ← read_allocated_inode (DirectoryEntry.inode entry);
  _ ← corrupt_if (negb (Inode.generation target =? DirectoryEntry.generation entry)
                  || negb (bool_decide (Inode.kind target = DirectoryEntry.kind entry)));
  name ← on_format (DirectoryEntry.name_str entry);
  _ ← corrupt_if (bool_decide (name ∈ names));
  entry_count ← lift (ok_or (checked_add u64_max entry_count 1) FsError.ArithmeticOverflow);
  mret (push names name, <[target_index := true]> referenced, entry_count).

(** The fourth loop: a directory reaches the root, and its entries are sound. *)
Definition check_directory (total : nat) (allocated referenced : list bool) (inode_number : Z) : Op (list bool) :=
  live ← lift (expect (allocated !! Z.to_nat inode_number));
  if negb live then mret referenced else
  inode ← read_allocated_inode inode_number;
  if negb (bool_decide (Inode.kind inode = NodeKind.Directory)) then mret referenced else
  _ ← validate_parent_chain (S total) inode_number;
  r ← for_fold (directory_blocks inode) ([], referenced, 0) (λ acc logical,
    block ← read_directory_block inode_number inode logical;
    for_fold (List.filter DirectoryBlock.used (DirectoryBlock.entries block)) acc (check_entry total allocated));
  let '(_, referenced, entry_count) := r in
  _ ← corrupt_if (negb (entry_count =? Inode.directory_entry_count inode));
  mret referenced.

Definition validate_volume : Op unit :=
  s ← get;
  let total := total_inodes s in
  let inodes := range 1 (Z.of_nat total + 1) in
  _ ← for_each (groups s) check_group_bitmaps;
  r ← for_fold inodes (replicate (S total) false, []) check_inode;
  let '(allocated, owned_blocks) := r in
  p3 ← phase3;
  _ ← (if (p3 : bool) then
         _ ← for_each inodes (check_inode_bit allocated);
         _ ← for_each (groups s) (check_block_bits owned_blocks);
         check_counts allocated owned_blocks
       else mret ());
  _ ← corrupt_if (negb (default false (allocated !! Z.to_nat ROOT_INODE)));
  root_inode ← read_allocated_inode root;
  _ ← corrupt_if (negb (bool_decide (Inode.kind root_inode = NodeKind.Directory))
                  || negb (Inode.parent_inode root_inode =? ROOT_INODE));
  let referenced := <[Z.to_nat ROOT_INODE := true]> (replicate (S total) false) in
  referenced ← for_fold inodes referenced (check_directory total allocated);
  corrupt_if (any (λ p : bool * bool, p.1 && negb p.2) (drop 1 (zip allocated referenced))).

(** ** Free counts and volume marks *)

(** The free blocks and inodes of a group, by its bitmaps. *)
Definition count_free (bitmap : list Z) (bits : list nat) : Z :=
  Z.of_nat (length (List.filter (λ bit, bool_decide (bitmap_test bitmap bit = Some false)) bits)).

Definition with_free_counts (blocks inodes : Z) (st : FilesystemState.t) : FilesystemState.t :=
  FilesystemState.mk (FilesystemState.generation st) (FilesystemState.next_transaction_id st)
    (FilesystemState.orphan_head st) blocks inodes.

Definition initialize_free_counts : Op unit :=
  s ← get;
  st ← lift (ok_or (state s) FsError.CorruptVolume);
  if negb (FilesystemState.free_block_count st =? 0) || negb (FilesystemState.free_inode_count st =? 0)
  then mret () else
  counts ← for_fold (groups s) (0, 0) (λ counts group,
    bitmap ← read_block (AllocationGroupDescriptor.block_bitmap_block group);
    let blocks := counts.1 + count_free bitmap
      (block_bit group <$> range (AllocationGroupDescriptor.first_data_block group)
                                 (AllocationGroupDescriptor.data_end_block group)) in
    bitmap ← read_block (AllocationGroupDescriptor.inode_bitmap_block group);
    mret (blocks, counts.2 + count_free bitmap
                    (seq 0 (Z.to_nat (AllocationGroupDescriptor.inodes_in_group group)))));
  let '(free_blocks, free_inodes) := counts in
  if bool_decide (mount_mode s = RuntimeReadWrite) then
    _ ← begin_transaction;
    _ ← pending_state (λ st, mret (with_free_counts free_blocks free_inodes st));
    commit_transaction
  else
    s ← get;
    st ← lift (ok_or (state s) FsError.CorruptVolume);
    modify (set_state (Some (with_free_counts free_blocks free_inodes st))).

Definition write_superblocks (st : VolumeState) : Op unit :=
  _ ← modify (λ s, set_superblock (with_state st (superblock s)) s);
  s ← get;
  encoded ← on_format (Superblock.encode (superblock s));
  try_catch
    (_ ← on_device (write_blocks (Superblock.backup_superblock_block (superblock s)) encoded);
     _ ← on_device flush;
     _ ← on_device (write_blocks SUPERBLOCK_BLOCK encoded);
     on_device flush)
    mret
    (λ e, _ ← modify (set_poisoned true); lift (Err e)).

(** ** Mount and unmount *)

Definition finish_mount : Op unit :=
  s ← get;
  let p3 := Superblock.phase3_enabled (superblock s) in
  _ ← (if p3 then
         _ ← recover_journal;
         s ← get;
         _ ← (match state s with None => read_state | Some _ => mret () end);
         s ← get;
         if bool_decide (mount_mode s = RuntimeReadWrite) then reclaim_orphans
         else
           st ← lift (ok_or (state s) FsError.CorruptVolume);
           lift (err_if (negb (FilesystemState.orphan_head st =? 0)) FsError.RecoveryRequired)
       else mret ());
  _ ← validate_volume;
  _ ← (if p3 then initialize_free_counts else mret ());
  if bool_decide (mount_mode s = RuntimeReadWrite) then write_superblocks Dirty else mret ().

(** A failed mount gives the device back. *)
Definition try_mount_with_mode (device : D) (mount_mode : RuntimeMountMode) : outcome (FsError.t * D) fs :=
  match discover_mount_metadata mount_mode device with
  | (Ok (superblock, groups), device) =>
      match finish_mount (mount_start device superblock groups mount_mode) with
      | (Ok _, s) => Ok s
      | (Err e, s) => Err (e, Journal.device s)
      | (Abort, _) => Abort
      end
  | (Err e, device) => Err (e, device)
  | (Abort, _) => Abort
  end.
Definition try_mount (device : D) := try_mount_with_mode device RuntimeReadOnly.
Definition try_mount_read_write (device : D) := try_mount_with_mode device RuntimeReadWrite.

Definition try_unmount : Op unit :=
  s ← get;
  if negb (bool_decide (mount_mode s = RuntimeReadWrite)) then mret () else
  _ ← (if poisoned s then
         _ ← modify (set_poisoned false);
         try_catch
           (_ ← modify (set_transaction None);
            _ ← recover_journal;
            _ ← read_state;
            _ ← reclaim_orphans;
            validate_volume)
           mret
           (λ e, _ ← modify (set_poisoned true); lift (Err e))
       else mret ());
  _ ← sync;
  write_superblocks Clean.
End mount.
