(* ===== verification/Extents.v ===== *)
(** * Extents as a map of blocks

    The inline extents of a valid inode stand for a finite map from the blocks of
    the file to blocks of the device.  [physical_block] looks a block up, and
    [add_extent] adds one: merging neighbours changes the list and not the map. *)

From Stdlib Require Import ZArith Lia.
From stdpp Require Import base list numbers option.
From S2P Require Import Prelude NullfsBytes NullfsPhase3 NullfsRecord NullfsInode NullfsDirectory Journal Volume Mutation.
Import Valid.

Open Scope Z_scope.

(** The device block of a file block, if it has one. *)
Fixpoint mapped (es : list Extent.t) (l : Z) : option Z :=
  match es with
  | [] => None
  | e :: es =>
      if decide (Extent.logical_first_block e ≤ l < Extent.logical_first_block e + Extent.length_blocks e)
      then Some (Extent.physical_first_block e + (l - Extent.logical_first_block e))
      else mapped es l
  end.

Implicit Types (es : list Extent.t) (e : Extent.t).

Lemma chain_weaken limit limit' prev prev' es :
  limit ≤ limit' → prev' ≤ prev → chain limit prev es → chain limit' prev' es.
Proof.
  revert prev prev'. induction es as [|e es IH]; intros prev prev' Hl Hp; cbn [chain]; [done|].
  intros (? & ? & ? & ? & ? & ?). split_and!; try lia; try done. eapply IH; [done|reflexivity|done].
Qed.

(** Where the last extent of a chain ends. *)
Definition chain_end (prev : Z) (es : list Extent.t) : Z :=
  fold_left (λ _ e, Extent.logical_first_block e + Extent.length_blocks e) es prev.

Lemma chain_app limit prev es ks :
  chain limit prev (es ++ ks) ↔ chain limit prev es ∧ chain limit (chain_end prev es) ks.
Proof.
  revert prev. induction es as [|e es IH]; intros prev; cbn [app chain chain_end fold_left]; [tauto|].
  rewrite IH. unfold chain_end. tauto.
Qed.

(** The blocks mapped by a chain lie between its ends. *)
Lemma mapped_bounds limit prev es l p : chain limit prev es → mapped es l = Some p → prev ≤ l < limit.
Proof.
  revert prev. induction es as [|e es IH]; intros prev; cbn [chain mapped]; [done|].
  intros (? & ? & ? & ? & ? & Hc). destruct (decide _); [lia|]. intros Hm. pose proof (IH _ Hc Hm). lia.
Qed.

Lemma mapped_physical limit prev es l p : chain limit prev es → mapped es l = Some p → p < u64_max.
Proof.
  revert prev. induction es as [|e es IH]; intros prev; cbn [chain mapped]; [done|].
  intros (? & ? & ? & ? & ? & Hc). destruct (decide _); [intros [= <-]; lia|]. intros Hm. by apply (IH _ Hc Hm).
Qed.

(** [physical_block] on the extents of a valid inode. *)
Lemma map_extents_mapped limit prev es l : limit ≤ u64_max → chain limit prev es → Forall Extent.typed es →
  map_extents es l = Ok (mapped es l).
Proof.
  intros Hlim. revert prev. induction es as [|e es IH]; intros prev; cbn [chain mapped map_extents]; [done|].
  intros (? & ? & ? & He & Hp & Hc) [(Ht1 & Ht2 & Ht3 & _) Hts]%Forall_cons_1. unfold is_u64, is_u32 in *.
  unfold Extent.logical_end. rewrite (checked_add_fits _ _ (Extent.length_blocks e)) by lia.
  cbn [ok_or map_err]. rewrite bind_Ok. destruct (decide _) as [Hd|Hd].
  - rewrite (proj2 (Z.leb_le _ _)), (proj2 (Z.ltb_lt _ _)) by lia. cbn [andb].
    by rewrite checked_add_fits by lia.
  - replace (_ && _) with false; [by eapply IH|]. symmetry. apply andb_false_iff.
    rewrite Z.leb_gt, Z.ltb_ge. lia.
Qed.

Lemma physical_block_mapped inode l : Inode.typed inode → extents_valid inode →
  physical_block inode l = Ok (mapped (Inode.used_extents inode) l).
Proof.
  intros Ht Hv. eapply map_extents_mapped; [|apply (ev_chain _ Hv)|by apply Forall_take, Ht].
  apply size_blocks_le, Ht.
Qed.

(** ** Inserting one block *)

Definition single (l p : Z) : Extent.t := Extent.mk l p 1 0.

Lemma insert_chain limit prev es l p : chain limit prev es → mapped es l = None → prev ≤ l < limit → p < u64_max →
  chain limit prev (insert_extent (single l p) es).
Proof.
  revert prev. induction es as [|e es IH]; intros prev; cbn [chain mapped insert_extent].
  { intros _ _ ? ?. split_and!; cbn; lia || done. }
  intros (? & ? & ? & ? & ? & Hc). destruct (decide _) as [|Hd]; [done|]. intros Hm Hl Hp. cbn [single Extent.logical_first_block].
  destruct (_ <? _) eqn:E; bool_simpl; cbn [chain single Extent.logical_first_block Extent.physical_first_block
    Extent.length_blocks Extent.flags].
  - split_and!; try lia; done.
  - split_and!; try lia; try done. apply IH; [done..|lia|done].
Qed.

Lemma insert_mapped limit prev es l p k : chain limit prev es → mapped es l = None →
  mapped (insert_extent (single l p) es) k = if decide (k = l) then Some p else mapped es k.
Proof.
  revert prev. induction es as [|e es IH]; intros prev; cbn [chain mapped insert_extent].
  { intros _ _. cbn. repeat destruct (decide _); f_equal; lia. }
  intros (? & ? & ? & ? & ? & Hc). destruct (decide (_ ≤ l < _)) as [|Hd]; [done|]. intros Hm. cbn [single Extent.logical_first_block].
  destruct (_ <? _) eqn:E; bool_simpl; cbn [mapped single Extent.logical_first_block Extent.physical_first_block
    Extent.length_blocks].
  - destruct (decide (k = l)) as [->|Hk]; destruct (decide (l ≤ _ < _)); try lia; [f_equal; lia|done].
  - rewrite (IH _ Hc Hm). destruct (decide (k = l)) as [->|]; [|done]. by destruct (decide _).
Qed.

Lemma insert_total es l p : total (insert_extent (single l p) es) = total es + 1.
Proof.
  unfold total. induction es as [|e es IH]; cbn [insert_extent foldr]; [done|].
  destruct (_ <? _); cbn [foldr single Extent.length_blocks] in *; lia.
Qed.

Lemma insert_typed es l p : Forall Extent.typed es → 0 ≤ l ≤ u64_max → 0 ≤ p ≤ u64_max →
  Forall Extent.typed (insert_extent (single l p) es).
Proof.
  intros Hes Hl Hp. assert (Extent.typed (single l p)) as Hs by (split_and!; cbn; unfold u32_max; lia || done).
  induction Hes as [|e es He Hes IH]; cbn [insert_extent]; [by apply Forall_singleton|].
  destruct (_ <? _); [constructor; [done|]|]; by constructor.
Qed.

Lemma insert_length e es : length (insert_extent e es) = S (length es).
Proof. induction es as [|x es IH]; cbn [insert_extent]; [done|]. destruct (_ <? _); cbn [length]; congruence. Qed.

(** Sorting keeps a chain as it is. *)
Lemma insert_last es e : Forall (λ x, Extent.logical_first_block x ≤ Extent.logical_first_block e) es →
  insert_extent e es = es ++ [e].
Proof.
  induction 1 as [|x es Hx _ IH]; cbn [insert_extent app]; [done|].
  rewrite (proj2 (Z.ltb_ge _ _)) by lia. by rewrite IH.
Qed.

Lemma chain_before limit prev es e : chain limit prev (es ++ [e]) →
  Forall (λ x, Extent.logical_first_block x ≤ Extent.logical_first_block e) es.
Proof.
  revert prev. induction es as [|x es IH]; intros prev; cbn [app chain]; [constructor|].
  intros (? & ? & ? & ? & ? & Hc). constructor; [|by eapply IH].
  assert (∀ prev es, chain limit prev (es ++ [e]) → prev ≤ Extent.logical_first_block e) as Hle.
  { clear. intros prev es. revert prev. induction es as [|x es IH]; intros prev; cbn [app chain]; [by intros (? & ? & ? & ?)|].
    intros (? & ? & ? & ? & ? & Hc). pose proof (IH _ Hc). lia. }
  pose proof (Hle _ _ Hc). lia.
Qed.

Lemma chain_prefix limit prev es ks : chain limit prev (es ++ ks) → chain limit prev es.
Proof. rewrite chain_app. tauto. Qed.

Lemma sort_chain limit prev es : chain limit prev es → sort_extents es = es.
Proof.
  unfold sort_extents. induction es as [|e es IH] using rev_ind; [done|]. intros Hc.
  rewrite fold_left_app, (IH (chain_prefix _ _ _ _ Hc)). cbn [fold_left].
  by apply insert_last, (chain_before _ _ _ _ Hc).
Qed.

(** ** Merging neighbours *)

Lemma mapped_app es ks l :
  mapped (es ++ ks) l = match mapped es l with Some p => Some p | None => mapped ks l end.
Proof. induction es as [|e es IH]; cbn [app mapped]; [done|]. by destruct (decide _). Qed.

Lemma total_app es ks : total (es ++ ks) = total es + total ks.
Proof. unfold total. induction es as [|e es IH]; cbn [app foldr] in *; lia. Qed.

(** The array of [add_extent_raw]: [done] and then unused extents. *)
Definition array (done : list Extent.t) : list Extent.t :=
  done ++ replicate (INLINE_EXTENT_COUNT - length done) Extent.default.

Lemma array_length done : (length done ≤ INLINE_EXTENT_COUNT)%nat → length (array done) = INLINE_EXTENT_COUNT.
Proof. intros. unfold array. rewrite length_app, length_replicate. lia. Qed.

Lemma array_snoc done e : (length done < INLINE_EXTENT_COUNT)%nat →
  <[length done := e]> (array done) = array (done ++ [e]).
Proof.
  intros Hl. unfold array. rewrite insert_app_r_alt, Nat.sub_diag, <- app_assoc, length_app by lia. f_equal.
  destruct (INLINE_EXTENT_COUNT - length done)%nat as [|k] eqn:E; [lia|].
  replace (INLINE_EXTENT_COUNT - (length done + length [e]))%nat with k by (cbn [length]; lia). done.
Qed.

Lemma array_last done e e' : <[length done := e']> (array (done ++ [e])) = array (done ++ [e']).
Proof.
  unfold array. rewrite !length_app, <- !app_assoc. by rewrite insert_app_r_alt, Nat.sub_diag by lia.
Qed.

(** Two neighbours, in the file and on the device, and the extent they make. *)
Lemma join_chain limit prev a b es : chain limit prev (a :: b :: es) →
  Extent.logical_first_block a + Extent.length_blocks a = Extent.logical_first_block b →
  Extent.physical_first_block a + Extent.length_blocks a = Extent.physical_first_block b →
  let c := with_length (Extent.length_blocks a + Extent.length_blocks b) a in
  chain limit prev (c :: es) ∧ (∀ l, mapped (c :: es) l = mapped (a :: b :: es) l) ∧
  total (c :: es) = total (a :: b :: es).
Proof.
  cbn [chain]. intros (? & ? & ? & ? & ? & ? & ? & ? & ? & ? & Hc) Hl Hp. cbn [chain mapped with_length
    Extent.logical_first_block Extent.physical_first_block Extent.length_blocks Extent.flags].
  split_and!; try lia; try done.
  - replace (Extent.logical_first_block a + (Extent.length_blocks a + Extent.length_blocks b))
      with (Extent.logical_first_block b + Extent.length_blocks b) by lia. done.
  - intros l. repeat destruct (decide _); try lia; f_equal; lia.
  - unfold total. cbn [foldr with_length Extent.length_blocks]. lia.
Qed.

(** What merging keeps: the chain, the map, the number of blocks. *)
Definition same_blocks (limit : Z) (es ks : list Extent.t) : Prop :=
  chain limit 0 ks ∧ Forall Extent.typed ks ∧ (∀ l, mapped ks l = mapped es l) ∧ total ks = total es.

Lemma same_blocks_join limit done a b es : chain limit 0 (done ++ a :: b :: es) →
  Forall Extent.typed (done ++ a :: b :: es) →
  Extent.logical_first_block a + Extent.length_blocks a = Extent.logical_first_block b →
  Extent.physical_first_block a + Extent.length_blocks a = Extent.physical_first_block b →
  Extent.length_blocks a + Extent.length_blocks b ≤ u32_max →
  same_blocks limit (done ++ a :: b :: es)
    (done ++ with_length (Extent.length_blocks a + Extent.length_blocks b) a :: es).
Proof.
  intros [Hd Hc]%chain_app Ht Hl Hp Hu. destruct (join_chain _ _ _ _ _ Hc Hl Hp) as (Hc' & Hm & Hn).
  split_and!.
  - by apply chain_app.
  - apply Forall_app in Ht as [? [Ha [Hb ?]%Forall_cons_1]%Forall_cons_1]. apply Forall_app; split; [done|].
    constructor; [|done]. destruct Ha as (? & ? & ? & ?), Hb as (_ & _ & ? & _). unfold is_u32 in *.
    split_and!; cbn; unfold is_u32; done || lia.
  - intros l. rewrite !mapped_app. by rewrite Hm.
  - rewrite !total_app. by rewrite Hn.
Qed.

Lemma same_blocks_trans limit es ks ms : same_blocks limit es ks → same_blocks limit ks ms → same_blocks limit es ms.
Proof. intros (? & ? & E1 & ?) (? & ? & E2 & ?). split_and!; try done; [|congruence]. intros l. by rewrite E2, E1. Qed.

Lemma same_blocks_refl limit es : chain limit 0 es → Forall Extent.typed es → same_blocks limit es es.
Proof. done. Qed.

(** The result of merging, from the state of the loop. *)
Definition merge_result (limit : Z) (es : list Extent.t) (r : outcome FsError.t (list Extent.t * nat)) : Prop :=
  match r with
  | Ok (merged, count) =>
      ∃ ks, merged = array ks ∧ count = length ks ∧ (length ks ≤ INLINE_EXTENT_COUNT)%nat ∧ same_blocks limit es ks
  | Err e => e = FsError.ExtentLimit ∨ e = FsError.ArithmeticOverflow
  | Abort => False
  end.

Lemma merge_result_trans limit es ks r : same_blocks limit es ks → merge_result limit ks r → merge_result limit es r.
Proof.
  intros Hs. destruct r as [[m c]|e|]; cbn; [|done..]. intros (ms & ? & ? & ? & Hk). exists ms. split_and!; try done.
  by eapply same_blocks_trans.
Qed.

Lemma merge_append limit pending done e : (length done ≤ INLINE_EXTENT_COUNT)%nat →
  (∀ done', (length done' ≤ INLINE_EXTENT_COUNT)%nat → done' ++ pending = done ++ e :: pending →
     merge_result limit (done' ++ pending) (merge_extents pending (array done') (length done'))) →
  merge_result limit (done ++ e :: pending)
    (_ ← err_if (length done =? INLINE_EXTENT_COUNT)%nat FsError.ExtentLimit;
     merge_extents pending (<[length done := e]> (array done)) (S (length done))).
Proof.
  intros Hl IH. destruct (Nat.eqb_spec (length done) INLINE_EXTENT_COUNT); cbn [err_if]; [by left|]. rewrite bind_Ok.
  rewrite array_snoc by lia. replace (S (length done)) with (length (done ++ [e])) by (rewrite length_app; cbn; lia).
  rewrite cons_middle, app_assoc. apply IH; [rewrite length_app; cbn; lia|]. by rewrite <- app_assoc.
Qed.

Lemma array_lookup_last done e : array (done ++ [e]) !! length done = Some e.
Proof. unfold array. rewrite <- app_assoc, lookup_app_r, Nat.sub_diag by lia. done. Qed.

Lemma merge_spec limit pending : limit ≤ u64_max → ∀ done,
  chain limit 0 (done ++ pending) → Forall Extent.typed (done ++ pending) → (length done ≤ INLINE_EXTENT_COUNT)%nat →
  merge_result limit (done ++ pending) (merge_extents pending (array done) (length done)).
Proof.
  intros Hlim. induction pending as [|e pending IH]; intros done Hc Ht Hl; cbn [merge_extents].
  { rewrite app_nil_r in *. exists done. by split_and!. }
  assert (merge_result limit (done ++ e :: pending)
    (_ ← err_if (length done =? INLINE_EXTENT_COUNT)%nat FsError.ExtentLimit;
     merge_extents pending (<[length done := e]> (array done)) (S (length done)))) as Happ.
  { apply merge_append; [done|]. intros done' Hl' E. rewrite <- E in *. by apply IH. }
  destruct done as [|a done _] using rev_ind; [done|].
  rewrite length_app in *. cbn [length] in *. replace (length done + 1 - 1)%nat with (length done) by lia.
  rewrite (proj2 (Nat.eqb_neq (length done + 1) 0)), array_lookup_last by lia.
  rewrite <- app_assoc in Hc, Ht. cbn [app] in Hc, Ht.
  pose proof Hc as (_ & (Ha1 & Ha2 & Ha3 & Ha4 & Ha5 & _))%chain_app.
  unfold Extent.logical_end, Extent.physical_end. rewrite !(checked_add_fits u64_max) by lia. cbn [ok_or map_err]. rewrite !bind_Ok.
  destruct (_ =? _) eqn:E1; bool_simpl; cbn [negb]; [|done].
  destruct (_ =? _) eqn:E2; bool_simpl; cbn [negb]; [|done].
  destruct (checked_add u32_max _ _) as [n|] eqn:E3; cbn [ok_or]; [|by right]. rewrite bind_Ok.
  apply checked_add_Some in E3 as [-> Hu]. rewrite array_last.
  pose proof (same_blocks_join _ _ _ _ _ Hc Ht E1 E2 Hu) as Hs.
  rewrite <- app_assoc. eapply merge_result_trans; [exact Hs|]. destruct Hs as (Hc' & Ht' & _).
  rewrite cons_middle, app_assoc in *.
  replace (length done + 1)%nat with (length (done ++ [with_length (Extent.length_blocks a + Extent.length_blocks e) a]))
    by (rewrite length_app; done).
  apply IH; [done..|]. rewrite length_app. done.
Qed.

Lemma merge_room pending : ∀ merged count, (count + length pending ≤ INLINE_EXTENT_COUNT)%nat →
  merge_extents pending merged count ≠ Err FsError.ExtentLimit.
Proof.
  induction pending as [|e pending IH]; intros merged count Hn; cbn [merge_extents length] in *; [done|].
  assert ((_ ← err_if (count =? INLINE_EXTENT_COUNT)%nat FsError.ExtentLimit;
    merge_extents pending (<[count := e]> merged) (S count)) ≠ Err FsError.ExtentLimit) as Happ.
  { rewrite (proj2 (Nat.eqb_neq _ _)) by lia. cbn [err_if]. rewrite bind_Ok. apply IH. lia. }
  destruct (if (count =? 0)%nat then _ else _) as [a|]; [|done].
  destruct (Extent.logical_end a) as [x| |]; cbn [map_err]; [|done..]. rewrite bind_Ok. destruct (negb _); [done|].
  destruct (Extent.physical_end a) as [y| |]; cbn [map_err]; [|done..]. rewrite bind_Ok. destruct (negb _); [done|].
  destruct (checked_add _ _ _); cbn [ok_or]; [|done]. rewrite bind_Ok. apply IH. lia.
Qed.

(** ** The extents of an inode *)

(** As [extents_valid], for any bound on the blocks of the file. *)
Record extents_within (limit : Z) (inode : Inode.t) : Prop := {
  ew_count : Inode.extent_count inode ≤ Z.of_nat INLINE_EXTENT_COUNT;
  ew_chain : chain limit 0 (Inode.used_extents inode);
  ew_total : total (Inode.used_extents inode) = Inode.allocated_blocks inode;
  ew_rest : Forall (eq Extent.default) (drop (Z.to_nat (Inode.extent_count inode)) (Inode.extents inode));
}.

Lemma extents_valid_within inode : extents_valid inode ↔
  extents_within (size_blocks (Inode.size inode)) inode ∧
  (Inode.used_extents inode ≠ [] → Inode.size inode + 4095 ≤ u64_max).
Proof. split; [intros []; split; [by split|done]|intros [[] ?]; by split]. Qed.

Lemma extents_within_mono limit limit' inode : limit ≤ limit' → extents_within limit inode → extents_within limit' inode.
Proof. intros ? []. split; try done. by eapply chain_weaken. Qed.

Lemma used_array inode ks n b : (length ks ≤ INLINE_EXTENT_COUNT)%nat → n = length ks →
  Inode.used_extents (set_extents (array ks) (Z.of_nat n) b inode) = ks.
Proof.
  intros Hk ->. unfold Inode.used_extents. cbn [Inode.extent_count Inode.extents set_extents]. rewrite Nat2Z.id.
  unfold array. by rewrite take_app_length.
Qed.

Lemma mapped_chain limit es l p : Forall Extent.typed es → chain limit 0 es →
  mapped es l = Some p → 0 ≤ l < limit ∧ 0 ≤ p < u64_max.
Proof.
  intros Hts Hc Hm. split; [by eapply mapped_bounds|]. split; [|by eapply mapped_physical].
  clear Hc. revert Hm. induction Hts as [|e es (? & ? & _) _ IH]; cbn [mapped]; [done|].
  unfold is_u64 in *. destruct (decide _); [intros [= <-]; lia|done].
Qed.

Lemma mapped_typed limit inode l p : Inode.typed inode → extents_within limit inode →
  mapped (Inode.used_extents inode) l = Some p → 0 ≤ l < limit ∧ 0 ≤ p < u64_max.
Proof. intros Ht Hw. apply mapped_chain; [by apply Forall_take, Ht|apply Hw]. Qed.

(** Adding one block: the map gains it, and nothing else changes. *)
Definition block_added (limit : Z) (es : list Extent.t) (l p : Z) (ks : list Extent.t) : Prop :=
  (length ks ≤ INLINE_EXTENT_COUNT)%nat ∧ chain limit 0 ks ∧ Forall Extent.typed ks ∧ total ks = total es + 1 ∧
  (∀ k, mapped ks k = if decide (k = l) then Some p else mapped es k).

Lemma add_extent_raw_spec limit extents count l p : let es := take count extents in
  limit ≤ u64_max → Forall Extent.typed es → chain limit 0 es → mapped es l = None → 0 ≤ l < limit → 0 ≤ p < u64_max →
  match add_extent_raw extents count l p with
  | Ok (merged, count') => ∃ ks, merged = array ks ∧ count' = length ks ∧ block_added limit es l p ks
  | Err e => e = FsError.ExtentLimit ∧ (INLINE_EXTENT_COUNT ≤ length es)%nat ∨ e = FsError.ArithmeticOverflow
  | Abort => False
  end.
Proof.
  intros es Hlim Hts Hch Hm Hl Hp. unfold add_extent_raw, push. fold es.
  assert (sort_extents (es ++ [Extent.mk l p 1 0]) = insert_extent (single l p) es) as ->.
  { unfold sort_extents. rewrite fold_left_app. fold (sort_extents es). by rewrite (sort_chain _ _ es Hch). }
  pose proof (insert_chain _ _ _ _ _ Hch Hm Hl (proj2 Hp)) as Hc.
  assert (Forall Extent.typed (insert_extent (single l p) es)) as Hti by (apply insert_typed; lia || done).
  pose proof (merge_spec _ _ Hlim [] Hc Hti (Nat.le_0_l _)) as Hr. cbn [app length] in Hr.
  change (array []) with (replicate INLINE_EXTENT_COUNT Extent.default) in Hr.
  destruct (merge_extents _ _ 0) as [[m c]|e|] eqn:E; cbn [merge_result] in Hr; [| |done].
  - destruct Hr as (ks & -> & -> & Hk & Hck & Htk & Hmk & Hnk). exists ks. split; [done|]. split; [done|]. split_and!; try done.
    + by rewrite Hnk, insert_total.
    + intros k. rewrite Hmk. apply (insert_mapped _ _ _ _ _ _ Hch Hm).
  - destruct Hr as [->| ->]; [left; split; [done|]|by right].
    destruct (decide (S (length es) ≤ INLINE_EXTENT_COUNT)%nat) as [Hroom|Hfull]; [|lia].
    exfalso. eapply merge_room; [|exact E]. by rewrite insert_length.
Qed.

Lemma add_extent_spec limit inode l p :
  limit ≤ u64_max → Inode.typed inode → extents_within limit inode →
  mapped (Inode.used_extents inode) l = None → 0 ≤ l < limit → 0 ≤ p < u64_max →
  match add_extent inode l p with
  | Ok inode' =>
      ∃ ks, inode' = set_extents (array ks) (Z.of_nat (length ks)) (Inode.allocated_blocks inode + 1) inode ∧
        block_added limit (Inode.used_extents inode) l p ks
  | Err e => e = FsError.ExtentLimit ∧ Inode.extent_count inode = Z.of_nat INLINE_EXTENT_COUNT ∨
             e = FsError.ArithmeticOverflow
  | Abort => False
  end.
Proof.
  intros Hlim Ht Hw Hm Hl Hp. unfold add_extent.
  assert (Forall Extent.typed (Inode.used_extents inode)) as Hts by (by apply Forall_take, Ht).
  pose proof (add_extent_raw_spec limit (Inode.extents inode) (Z.to_nat (Inode.extent_count inode)) l p Hlim Hts
    (ew_chain _ _ Hw) Hm Hl Hp) as Hr.
  destruct (add_extent_raw _ _ _ _) as [[merged c]|e|]; [| |done].
  - destruct Hr as (ks & -> & -> & Hk). rewrite bind_Ok. by exists ks.
  - cbn. destruct Hr as [[-> Hf]| ->]; [left; split; [done|]|by right].
    pose proof (ew_count _ _ Hw). pose proof (Inode.typed_extents_length _ Ht). rewrite length_take in Hf.
    unfold INLINE_EXTENT_COUNT in *. lia.
Qed.

Lemma total_fits ks : Forall Extent.typed ks → (length ks ≤ INLINE_EXTENT_COUNT)%nat → is_u64 (total ks).
Proof.
  intros Ht Hl. split; [by apply total_nonneg|]. pose proof (total_u64 _ Ht Hl). unfold INLINE_EXTENT_COUNT, u32_max, u64_max in *. lia.
Qed.

Lemma array_typed ks : Forall Extent.typed ks → Forall Extent.typed (array ks).
Proof.
  intros. apply Forall_app; split; [done|]. apply Forall_replicate. by split_and!.
Qed.

Lemma set_extents_typed inode ks b : Inode.typed inode → Forall Extent.typed ks → (length ks ≤ INLINE_EXTENT_COUNT)%nat →
  is_u64 b → Inode.typed (set_extents (array ks) (Z.of_nat (length ks)) b inode).
Proof.
  intros [] Hk Hl Hb. split; cbn [set_extents Inode.mode Inode.uid Inode.gid Inode.link_count Inode.flags Inode.generation
    Inode.size Inode.allocated_blocks Inode.parent_inode Inode.accessed Inode.modified Inode.changed Inode.created
    Inode.directory_entry_count Inode.extent_count Inode.extents]; try done.
  - unfold INLINE_EXTENT_COUNT, u16_max in *. lia.
  - by apply array_length.
  - by apply array_typed.
Qed.

Lemma set_extents_within limit inode ks b : chain limit 0 ks → (length ks ≤ INLINE_EXTENT_COUNT)%nat → total ks = b →
  extents_within limit (set_extents (array ks) (Z.of_nat (length ks)) b inode).
Proof.
  intros Hc Hl Ht. split; rewrite ?used_array by done; cbn [set_extents Inode.extent_count Inode.extents Inode.allocated_blocks];
    try done; [lia|]. rewrite Nat2Z.id. unfold array. rewrite drop_app_length. by apply Forall_replicate.
Qed.

(** ** The blocks of a chain, one by one *)

Definition extent_pairs (e : Extent.t) : list (Z * Z) :=
  (λ r, (Extent.logical_first_block e + r, Extent.physical_first_block e + r)) <$> seqZ 0 (Extent.length_blocks e).
Definition pairs (es : list Extent.t) : list (Z * Z) := concat (extent_pairs <$> es).

Lemma extent_pairs_elem e l p : (l, p) ∈ extent_pairs e ↔
  Extent.logical_first_block e ≤ l < Extent.logical_first_block e + Extent.length_blocks e ∧
  p = Extent.physical_first_block e + (l - Extent.logical_first_block e).
Proof.
  unfold extent_pairs. rewrite list_elem_of_fmap. split.
  - intros (r & [= -> ->] & Hr%elem_of_seqZ). lia.
  - intros [Hl ->]. exists (l - Extent.logical_first_block e). split; [f_equal; lia|]. apply elem_of_seqZ. lia.
Qed.

Lemma pairs_elem limit prev es l p : chain limit prev es → (l, p) ∈ pairs es ↔ mapped es l = Some p.
Proof.
  revert prev. induction es as [|e es IH]; intros prev.
  { intros _. split; [by intros ?%not_elem_of_nil|done]. }
  intros Hc. pose proof Hc as (? & ? & ? & ? & ? & Hc'). unfold pairs in *. cbn [mapped fmap list_fmap concat].
  rewrite elem_of_app, (IH _ Hc'), extent_pairs_elem. destruct (decide _) as [Hd|Hd].
  - split; [|intros [= <-]; left; by split].
    intros [[_ ->]|Hm]; [done|]. pose proof (mapped_bounds _ _ _ _ _ Hc' Hm). lia.
  - split; [intros [[? _]|?]; [lia|done]|by right].
Qed.

Lemma pairs_nodup limit prev es : chain limit prev es → NoDup (pairs es).*1.
Proof.
  revert prev. induction es as [|e es IH]; intros prev; [constructor|]. intros Hc. pose proof Hc as (? & ? & ? & ? & ? & Hc').
  unfold pairs in *. cbn [fmap list_fmap concat]. rewrite fmap_app. apply list.NoDup_app. split; [|split; [|by eapply IH]].
  - unfold extent_pairs. rewrite <- list_fmap_compose. apply NoDup_fmap_2; [|apply NoDup_seqZ]. intros x y Hxy. cbn in Hxy. lia.
  - intros l [[l1 p1] [-> He1]]%list_elem_of_fmap [[l2 p2] [E He2]]%list_elem_of_fmap. cbn in E. subst l2.
    apply extent_pairs_elem in He1 as [? _]. apply (pairs_elem _ _ es _ _ Hc') in He2.
    pose proof (mapped_bounds _ _ _ _ _ Hc' He2). cbn in *. lia.
Qed.

Lemma pairs_app es ks : pairs (es ++ ks) = pairs es ++ pairs ks.
Proof. unfold pairs. by rewrite fmap_app, concat_app. Qed.
