(* ===== verification/VolumeReads.v ===== *)
(** * What the read operations return

    The operations of Volume.v against a view of the volume: the contents of its
    blocks as [read_block] sees them, through the transaction and the overlay.
    An inode is decoded from its slot of the view, a file is the bytes its extents
    map, a directory its entries; the operations change nothing and otherwise fail
    only when the device does. *)

From Stdlib Require Import ZArith Lia Sorted.
From stdpp Require Import base list numbers option.
From S2P Require Import Prelude NullfsBytes NullfsPhase3 NullfsSuperblock NullfsRecord NullfsInode.
From S2P Require Import NullfsDirectory NullfsAllocation BlockDevice Journal JournalDisk JournalSteps.
From S2P Require Import JournalRecovery Volume Mutation Extents.

Open Scope Z_scope.

(** ** Bytes of a file *)

Definition file_byte (v : disk) (inode : Inode.t) (k : Z) : Z :=
  match mapped (Inode.used_extents inode) (k / 4096) with
  | Some p => default 0 (v p !! Z.to_nat (k mod 4096))
  | None => 0
  end.

Definition file_bytes (v : disk) (inode : Inode.t) (offset : Z) (n : nat) : list Z :=
  (λ i, file_byte v inode (offset + Z.of_nat i)) <$> seq 0 n.

Lemma length_file_bytes v inode offset n : length (file_bytes v inode offset n) = n.
Proof. unfold file_bytes. by rewrite length_fmap, length_seq. Qed.

Lemma file_bytes_add v inode offset n k :
  file_bytes v inode offset (n + k) = file_bytes v inode offset n ++ file_bytes v inode (offset + Z.of_nat n) k.
Proof.
  unfold file_bytes. rewrite seq_app, fmap_app. f_equal. cbn [Nat.add].
  replace (seq n k) with (Nat.add n <$> seq 0 k) by (rewrite fmap_add_seq; f_equal; lia).
  rewrite <- list_fmap_compose. apply list_fmap_ext. intros ? i _. cbn. f_equal. lia.
Qed.

(** A piece of a file within one block. *)
Lemma file_bytes_within v inode offset n : 0 ≤ offset → offset mod 4096 + Z.of_nat n ≤ 4096 →
  (∀ p, mapped (Inode.used_extents inode) (offset / 4096) = Some p → is_block (v p)) →
  file_bytes v inode offset n =
  match mapped (Inode.used_extents inode) (offset / 4096) with
  | Some p => slice (Z.to_nat (offset mod 4096)) n (v p)
  | None => zeros n
  end.
Proof.
  intros Ho Hn Hb. pose proof (Z.mod_pos_bound offset 4096 ltac:(lia)) as Hm.
  assert (∀ i, (i < n)%nat → (offset + Z.of_nat i) / 4096 = offset / 4096 ∧
    (offset + Z.of_nat i) mod 4096 = offset mod 4096 + Z.of_nat i) as Hi.
  { intros i Hi. pose proof (Z.div_mod offset 4096 ltac:(lia)).
    assert (offset + Z.of_nat i = 4096 * (offset / 4096) + (offset mod 4096 + Z.of_nat i)) as E by lia.
    split; [symmetry; eapply Z.div_unique; [|exact E]; lia|symmetry; eapply Z.mod_unique; [|exact E]; lia]. }
  apply list_eq_same_length with n; [|apply length_file_bytes|].
  { destruct (mapped _ _) as [p|]; [|by rewrite length_zeros]. specialize (Hb p eq_refl). unfold is_block in Hb.
    apply length_slice. rewrite Hb. pose proof BLOCK_SIZE_Z. lia. }
  intros i x y Hin. unfold file_bytes. rewrite list_lookup_fmap, lookup_seq_lt by done. cbn. intros [= <-].
  unfold file_byte. destruct (Hi i Hin) as [-> ->]. destruct (mapped _ _) as [p|].
  - rewrite lookup_slice by done. intros Hy. rewrite Z2Nat.inj_add, Nat2Z.id, Hy by lia. done.
  - rewrite lookup_zeros by done. congruence.
Qed.

Lemma put_bytes_middle a b c v o : o = length a → length v = length b →
  put_bytes (a ++ b ++ c) o v = a ++ v ++ c.
Proof.
  Transparent put_bytes. intros -> Hv. unfold put_bytes. rewrite take_app_length. do 2 f_equal.
  rewrite Hv, <- length_app, app_assoc. apply drop_app_length. Opaque put_bytes.
Qed.

(** One turn of the loop of [read]. *)
Lemma read_turn v inode offset completed count tail chunk : 0 ≤ offset → (completed + chunk ≤ count)%nat →
  let at_ := offset + Z.of_nat completed in
  at_ mod 4096 + Z.of_nat chunk ≤ 4096 →
  (∀ p, mapped (Inode.used_extents inode) (at_ / 4096) = Some p → is_block (v p)) →
  let output := file_bytes v inode offset completed ++ zeros (count - completed) ++ tail in
  match mapped (Inode.used_extents inode) (at_ / 4096) with
  | Some p => put_bytes output completed (slice (Z.to_nat (at_ mod 4096)) chunk (v p))
  | None => output
  end = file_bytes v inode offset (completed + chunk) ++ zeros (count - (completed + chunk)) ++ tail.
Proof.
  cbv zeta. intros Ho Hc Hw Hb. rewrite file_bytes_add, (file_bytes_within v inode (offset + _)) by (done || lia).
  replace (count - completed)%nat with (chunk + (count - (completed + chunk)))%nat by lia.
  rewrite zeros_add, <- !app_assoc. destruct (mapped _ _) as [p|]; [|done].
  apply put_bytes_middle; [by rewrite length_file_bytes|]. rewrite length_zeros. apply length_slice.
  specialize (Hb p eq_refl). unfold is_block in Hb. rewrite Hb. pose proof BLOCK_SIZE_Z.
  pose proof (Z.mod_pos_bound (offset + Z.of_nat completed) 4096 ltac:(lia)). lia.
Qed.

Section reads.
Context {D : Type} {HD : BlockDevice D}.
Notation fs := (Filesystem D).

(** The blocks that the operations see. *)
Definition sees (s : fs) (v : disk) : Prop := ∀ b, 0 ≤ b →
  wp (read_block b) (λ x s', s' = s ∧ x = v b ∧ is_block x ∧ bytes_ok x) (λ e s', s' = s ∧ device_error e) s.

(** ** Inodes *)

Definition inode_slot (descriptor : AllocationGroupDescriptor.t) (index : nat) : Z * nat :=
  (AllocationGroupDescriptor.inode_table_first_block descriptor + Z.of_nat (index * INODE_BYTES / BLOCK_SIZE),
   (index * INODE_BYTES mod BLOCK_SIZE)%nat).

Definition inode_seen (sb : Superblock.t) (gs : list AllocationGroupDescriptor.t) (v : disk) (node : Z)
    : outcome FsError.t Inode.t :=
  location ← inode_location_in gs node;
  let '(physical, within) := inode_slot location.1 location.2 in
  _ ← err_if (u64_max <? physical) FsError.ArithmeticOverflow;
  decode_inode (Superblock.phase3_enabled sb) (slice within INODE_BYTES (v physical)).

Record good_inode (inode : Inode.t) : Prop := {
  gi_typed : Inode.typed inode;
  gi_valid : ∃ mode, Inode.validate_with_mode inode mode = Ok ();
}.

Lemma good_inode_valid inode : good_inode inode → Inode.kind inode ≠ NodeKind.Free → ∃ mode, Valid.valid inode mode.
Proof. intros [Ht [mode Hv]] Hk. exists mode. by apply Valid.validate_Ok. Qed.

Lemma good_extents inode : good_inode inode → Valid.extents_valid inode.
Proof.
  intros Hg. destruct (decide (Inode.kind inode = NodeKind.Free)) as [Hk|Hk].
  - destruct Hg as [_ [mode Hv]]. unfold Inode.validate_with_mode in Hv. rewrite bool_decide_true in Hv by done.
    destruct (_ && _) eqn:E; [|done]. apply andb_true_iff in E as [_ ->%bool_decide_eq_true].
    split; cbn; lia || done || by repeat constructor.
  - destruct (good_inode_valid inode Hg Hk) as [mode []]. done.
Qed.

Lemma good_mapped inode l p : good_inode inode → mapped (Inode.used_extents inode) l = Some p →
  0 ≤ l < Valid.size_blocks (Inode.size inode) ∧ 0 ≤ p < u64_max.
Proof.
  intros Hg. apply mapped_typed; [apply Hg|]. apply extents_valid_within, good_extents, Hg.
Qed.

Lemma decode_inode_good phase3 b : length b = INODE_BYTES → bytes_ok b →
  wpo (decode_inode phase3 b) good_inode (λ _, True).
Proof.
  intros Hl Hb. unfold decode_inode, Inode.decode.
  destruct (Inode.decode_with_mode b Strict) as [i|e|] eqn:E; [| |by apply InodeCodec.inode_decode_no_abort in E].
  - apply InodeCodec.inode_decode_exact in E as (Ht & Hv & _); [|done..]. split; [done|by exists Strict].
  - destruct phase3; [|done]. apply wpo_map_err.
    destruct (Inode.decode_with_mode b Phase3Orphan) as [i|e'|] eqn:E'; [|done|by apply InodeCodec.inode_decode_no_abort in E'].
    apply InodeCodec.inode_decode_exact in E' as (Ht & Hv & _); [|done..]. split; [done|by exists Phase3Orphan].
Qed.

Lemma inode_location_elem gs node d i : inode_location_in gs node = Ok (d, i) →
  d ∈ gs ∧ (i < Z.to_nat PHASE2_INODES_PER_GROUP)%nat.
Proof.
  unfold inode_location_in. intros H. apply bind_unit_Ok in H as [_ H].
  destruct (gs !! _) as [d'|] eqn:E; cbn [ok_or] in H; [|done]. rewrite bind_Ok in H. injection H as <- <-.
  split; [by eapply list_elem_of_lookup_2|]. apply Z2Nat.inj_lt; [by apply Z.mod_pos_bound|done|by apply Z.mod_pos_bound].
Qed.

(** The slot of an inode lies within a block. *)
Lemma slot_within i : (i * INODE_BYTES mod BLOCK_SIZE + INODE_BYTES ≤ BLOCK_SIZE)%nat.
Proof.
  unfold INODE_BYTES. apply Nat2Z.inj_le. rewrite Nat2Z.inj_add, Nat2Z.inj_mod, BLOCK_SIZE_Z.
  rewrite Nat2Z.inj_mul. change (Z.of_nat 256) with 256. change 4096 with (16 * 256) at 1.
  rewrite Zmult_mod_distr_r. pose proof (Z.mod_pos_bound (Z.of_nat i) 16 ltac:(lia)). lia.
Qed.

Definition tables_typed (gs : list AllocationGroupDescriptor.t) : Prop :=
  Forall (λ d, 0 ≤ AllocationGroupDescriptor.inode_table_first_block d) gs.

(** Reading an inode returns what its slot decodes to. *)
Lemma read_inode_spec (s : fs) v node : sees s v → tables_typed (groups s) →
  wp (read_inode node)
    (λ i s', s' = s ∧ inode_seen (superblock s) (groups s) v node = Ok i ∧ good_inode i)
    (λ e s', s' = s ∧ (device_error e ∨ inode_seen (superblock s) (groups s) v node = Err e)) s.
Proof.
  intros Hv Hg. unfold read_inode, inode_location, inode_seen. wp_steps.
  destruct (inode_location_in (groups s) node) as [[d i]|e|] eqn:E; cbn [wpo]; [|by auto|].
  2:{ exfalso. revert E. unfold inode_location_in. no_abort. }
  apply inode_location_elem in E as [Hd Hi]. rewrite bind_Ok. cbn [fst snd inode_slot].
  pose proof (proj1 (list.Forall_forall _ _) Hg d Hd) as Hpos. cbn beta in Hpos. wp_steps.
  2:{ match goal with H : checked_add _ _ _ = None |- _ => unfold checked_add in H end.
      destruct (_ <=? _) eqn:E; [done|]. bool_simpl. rewrite (proj2 (Z.ltb_lt _ _)) by done. split; [done|]. by right. }
  match goal with H : checked_add _ _ _ = Some _ |- _ => apply checked_add_Some in H as [-> ?] end.
  rewrite (proj2 (Z.ltb_ge _ _)) by done. cbn [err_if]. rewrite bind_Ok.
  eapply wp_mono; [apply Hv; lia| |by intros e s' [-> ?]; auto].
  intros x s' (-> & -> & Hx & Hbx). wp_steps. unfold is_block in Hx. pose proof (slot_within i) as Hs.
  set (x := v _) in *. assert (length (slice (i * INODE_BYTES mod BLOCK_SIZE) INODE_BYTES x) = INODE_BYTES) as Hlen
    by (apply length_slice; lia).
  pose proof (decode_inode_good (Superblock.phase3_enabled (superblock s)) _ Hlen (slice_ok _ _ _ Hbx)) as Hgood.
  destruct (decode_inode _ _) as [inode|e|]; cbn [wpo] in *; auto.
Qed.

Definition allocated_seen (sb : Superblock.t) gs v node : outcome FsError.t Inode.t :=
  inode ← inode_seen sb gs v node;
  _ ← err_if (bool_decide (Inode.kind inode = NodeKind.Free)) FsError.InvalidNode;
  mret inode.

Lemma read_allocated_spec (s : fs) v node : sees s v → tables_typed (groups s) →
  wp (read_allocated_inode node)
    (λ i s', s' = s ∧ allocated_seen (superblock s) (groups s) v node = Ok i ∧ good_inode i ∧ Inode.kind i ≠ NodeKind.Free)
    (λ e s', s' = s ∧ (device_error e ∨ allocated_seen (superblock s) (groups s) v node = Err e)) s.
Proof.
  intros Hv Hg. unfold read_allocated_inode, allocated_seen. wp_step. eapply wp_mono; [by apply read_inode_spec| |].
  - intros i s' (-> & Hi & Hgi). rewrite Hi. wp_steps; bool_simpl; rewrite bind_Ok.
    + rewrite bool_decide_true by done. auto.
    + by rewrite bool_decide_false by done.
  - intros e s' [-> [?|He]]; [by auto|]. rewrite He. auto.
Qed.

(** ** Files *)

(** The loop of [read] has copied [completed] bytes. *)
Lemma read_chunks_spec (s : fs) v inode offset count tail : sees s v → good_inode inode →
  0 ≤ offset → offset + Z.of_nat count ≤ u64_max → ∀ fuel completed,
  (completed ≤ count)%nat → (count - completed ≤ fuel)%nat →
  wp (read_chunks fuel inode offset count completed
        (file_bytes v inode offset completed ++ zeros (count - completed) ++ tail))
    (λ output s', s' = s ∧ output = file_bytes v inode offset count ++ tail)
    (λ e s', s' = s ∧ device_error e) s.
Proof.
  intros Hv Hi Ho Hmax. induction fuel as [|fuel IH]; intros completed Hc Hf; cbn [read_chunks].
  all: destruct (Nat.leb_spec count completed); [apply wp_ret; split; [done|];
    replace completed with count by lia; by rewrite Nat.sub_diag|]. { lia. }
  pose proof BLOCK_SIZE_Z as HZ.
  pose proof (Z.mod_pos_bound (offset + Z.of_nat completed) 4096 ltac:(lia)) as Hm.
  rewrite checked_add_fits by lia. cbn [ok_or]. wp_steps. unfold BLOCK_SIZE_U64.
  set (at_ := offset + Z.of_nat completed) in *.
  set (chunk := Nat.min _ _). assert (0 < chunk ≤ count - completed)%nat as Hk by lia.
  assert (at_ mod 4096 + Z.of_nat chunk ≤ 4096) as Hw by lia.
  rewrite physical_block_mapped by (apply Hi || by apply good_extents). cbn [wpo].
  pose proof (read_turn v inode offset completed count tail chunk Ho ltac:(lia) Hw) as Ht. fold at_ in Ht.
  destruct (mapped _ (at_ / 4096)) as [p|] eqn:E.
  - destruct (good_mapped inode _ p Hi E) as [_ [Hp _]]. wp_step. eapply wp_mono; [apply (Hv p Hp)| |done].
    intros x s' (-> & -> & Hx & _). rewrite Ht by (by intros ? [= <-]). apply IH; lia.
  - rewrite Ht by done. apply IH; lia.
Qed.

Lemma read_spec (s : fs) v node offset output : sees s v → tables_typed (groups s) → 0 ≤ offset →
  wp (read node offset output)
    (λ r s', s' = s ∧ ∃ inode, allocated_seen (superblock s) (groups s) v node = Ok inode ∧
       Inode.kind inode = NodeKind.Regular ∧
       let count := Nat.min (length output) (Z.to_nat (Inode.size inode - offset)) in
       r = (count, file_bytes v inode offset count ++ drop count output))
    (λ e s', s' = s ∧
       (device_error e ∨ allocated_seen (superblock s) (groups s) v node = Err e ∨
        ∃ inode, allocated_seen (superblock s) (groups s) v node = Ok inode ∧
          (Inode.kind inode = NodeKind.Directory ∧ e = FsError.IsDirectory ∨
           Inode.kind inode = NodeKind.Symlink ∧ e = FsError.UnsupportedNodeKind))) s.
Proof.
  intros Hv Hg Ho. unfold read. wp_step. eapply wp_mono; [by apply read_allocated_spec|cbv beta|].
  2:{ intros e s' [-> [?|?]]; auto. }
  intros i s' (-> & Hi & Hgi & Hk). wp_step. apply wp_lift. destruct (Inode.kind i) eqn:Ek; cbn [wpo]; [done| |by eauto 10..].
  pose proof (Inode.typed_size _ (gi_typed _ Hgi)) as [? ?].
  destruct (_ || _) eqn:E.
  { apply wp_ret. split; [done|]. exists i. split_and!; [done..|].
    replace (Nat.min _ _) with 0%nat; [done|]. apply orb_true_iff in E as [E|E]; [bool_simpl|apply Nat.eqb_eq in E]; lia. }
  apply orb_false_iff in E as [E1 E2]. bool_simpl. apply Nat.eqb_neq in E2. wp_step.
  set (count := Nat.min _ _).
  assert (put_bytes output 0 (zeros count) = file_bytes v i offset 0 ++ zeros (count - 0) ++ drop count output) as ->.
  { rewrite Nat.sub_0_r. rewrite <- (take_drop count output) at 1. apply (put_bytes_middle []); [done|].
    rewrite length_zeros, length_take. lia. }
  eapply wp_mono; [apply (read_chunks_spec s v i offset count); [done..|lia|lia|lia]|cbv beta|].
  - intros out s' [-> ->]. wp_steps. split; [done|]. exists i. by split_and!.
  - intros e s' [-> ?]. auto.
Qed.

(** ** Directories *)

Definition dir_block_seen (v : disk) (node : Z) (inode : Inode.t) (logical_block : Z)
    : outcome FsError.t DirectoryBlock.t :=
  physical ← ok_or (mapped (Inode.used_extents inode) logical_block) FsError.CorruptVolume;
  block ← map_err FsError.Format (DirectoryBlock.decode (v physical));
  _ ← err_if (negb (DirectoryBlock.owner_inode block =? node)
              || negb (DirectoryBlock.logical_block_index block =? logical_block)) FsError.CorruptVolume;
  mret block.

Record good_block (block : DirectoryBlock.t) : Prop := {
  gb_typed : DirectoryBlock.typed block;
  gb_valid : DirectoryBlock.validate block = Ok ();
}.

Lemma good_entries block : good_block block →
  Forall (λ e, DirectoryEntry.validate e = Ok ()) (DirectoryBlock.entries block).
Proof. intros [_ Hv]. by apply DirectoryCodec.directory_validate_Ok in Hv as (_ & ? & _). Qed.

Lemma read_directory_block_spec (s : fs) v node inode lb : sees s v → good_inode inode →
  wp (read_directory_block node inode lb)
    (λ block s', s' = s ∧ dir_block_seen v node inode lb = Ok block ∧ good_block block)
    (λ e s', s' = s ∧ (device_error e ∨ dir_block_seen v node inode lb = Err e)) s.
Proof.
  intros Hv Hi. unfold read_directory_block, dir_block_seen.
  rewrite physical_block_mapped by (apply Hi || by apply good_extents). wp_step. apply wp_lift. cbn [wpo].
  destruct (mapped _ lb) as [p|] eqn:E; cbn [ok_or]; [|wp_steps; by auto]. rewrite bind_Ok. wp_steps.
  destruct (good_mapped inode _ p Hi E) as [_ [Hp _]]. eapply wp_mono; [apply (Hv p Hp)|cbv beta|by intros e s' [-> ?]; auto].
  intros x s' (-> & -> & Hx & Hbx). wp_step. unfold on_format. apply wp_lift, wpo_map_err.
  destruct (DirectoryBlock.decode (v p)) as [block|e|] eqn:Ed; cbn [wpo map_err]; [|by auto|].
  2:{ by apply (decode_no_abort (BlockCodec := DirectoryCodec.directory_codec)) in Ed. }
  apply DirectoryCodec.directory_canonical in Ed as (Ht & Hval & _); [|done..]. rewrite bind_Ok.
  destruct (_ || _); cbn [err_if]; wp_steps; by auto.
Qed.

(** An entry in use with a name. *)
Definition named (name : list Z) (e : DirectoryEntry.t) : Prop :=
  DirectoryBlock.used e = true ∧ DirectoryEntry.name_bytes e = name.
#[global] Instance named_dec name e : Decision (named name e).
Proof. apply _. Defined.

Lemma find_name_eq name es : Forall (λ e, DirectoryEntry.validate e = Ok ()) es → ∀ slot,
  find_name name slot es = Ok (prod_map (Nat.add slot) id <$> list_find (named name) es).
Proof.
  induction 1 as [|e es He Hes IH]; intros slot; cbn [find_name list_find]; [done|].
  destruct (DirectoryEntry.is_unused e) eqn:Hu.
  - rewrite decide_False by (intros [H _]; unfold DirectoryBlock.used in H; by rewrite Hu in H). rewrite IH.
    destruct (list_find _ es) as [[j x]|]; [|done]. cbn. by rewrite Nat.add_succ_r.
  - rewrite (DirectoryCodec.name_str_valid e Hu He), bind_Ok. case_bool_decide as Hn.
    + rewrite decide_True by (split; [unfold DirectoryBlock.used; by rewrite Hu|done]). cbn. by rewrite Nat.add_0_r.
    + rewrite decide_False by (by intros [_ ?]). rewrite IH.
      destruct (list_find _ es) as [[j x]|]; [|done]. cbn. by rewrite Nat.add_succ_r.
Qed.

(** An entry of a directory, and where it is. *)
Definition entry_at (v : disk) (node : Z) (inode : Inode.t) (lb : Z) (slot : nat) (e : DirectoryEntry.t) : Prop :=
  0 ≤ lb < Inode.size inode / 4096 ∧
  ∃ block, dir_block_seen v node inode lb = Ok block ∧ DirectoryBlock.entries block !! slot = Some e.

(** No entry of the blocks [lo..hi] has the name, and they can all be decoded. *)
Definition unnamed (v : disk) (node : Z) (inode : Inode.t) (name : list Z) (lbs : list Z) : Prop :=
  ∀ lb, lb ∈ lbs → ∃ block, dir_block_seen v node inode lb = Ok block ∧
    ∀ e, e ∈ DirectoryBlock.entries block → ¬ named name e.

Lemma unnamed_nil v node inode name : unnamed v node inode name [].
Proof. intros lb Hlb. by apply not_elem_of_nil in Hlb. Qed.

Lemma unnamed_snoc v node inode name lbs lb block : unnamed v node inode name lbs →
  dir_block_seen v node inode lb = Ok block → (∀ e, e ∈ DirectoryBlock.entries block → ¬ named name e) →
  unnamed v node inode name (lbs ++ [lb]).
Proof.
  intros Hd Hb He lb' [?| ->%list_elem_of_singleton]%elem_of_app; [by apply Hd|]. by exists block.
Qed.

Lemma directory_blocks_elem inode lbs lb : lbs ++ [lb] `prefix_of` directory_blocks inode →
  0 ≤ lb < Inode.size inode / 4096.
Proof.
  intros [rest Hp]. assert (lb ∈ directory_blocks inode) as Hel.
  { rewrite Hp. apply elem_of_app. left. apply elem_of_app. right. by apply list_elem_of_singleton. }
  unfold directory_blocks, range in Hel. apply elem_of_seqZ in Hel. unfold BLOCK_SIZE_U64 in Hel. lia.
Qed.

(** One block of the scan of [lookup] and of [find_entry]. *)
Lemma scan_block_spec (s : fs) v node inode name lb lbs : sees s v → good_inode inode →
  lbs ++ [lb] `prefix_of` directory_blocks inode → unnamed v node inode name lbs →
  wp (block ← read_directory_block node inode lb;
      on_format (find_name name 0 (DirectoryBlock.entries block)))
    (λ r s', s' = s ∧
       match r with
       | Some (slot, e) => entry_at v node inode lb slot e ∧ named name e
       | None => unnamed v node inode name (lbs ++ [lb])
       end)
    (λ e s', s' = s ∧ (device_error e ∨ ∃ lb, dir_block_seen v node inode lb = Err e)) s.
Proof.
  intros Hv Hi Hp Hd. wp_step. eapply wp_mono; [by apply read_directory_block_spec|cbv beta|].
  2:{ intros e s' [-> [?|?]]; eauto. }
  intros block s' (-> & Hb & Hgb). unfold on_format. rewrite find_name_eq by (by apply good_entries).
  apply wp_lift. cbn [map_err wpo]. split; [done|]. destruct (list_find _ _) as [[slot e]|] eqn:E; cbn.
  - apply list_find_Some in E as (He & Hn & _). split; [|done]. split; [by eapply directory_blocks_elem|by exists block].
  - eapply unnamed_snoc; [done..|]. intros e He. eapply list_find_None in E. by eapply (proj1 (list.Forall_forall _ _) E).
Qed.

(** ** Names *)

Definition bad_name (name : list Z) : bool :=
  negb (from_utf8 name) || (length name =? 0)%nat || contains 0 name || contains SLASH name.

(** A name resolved in a directory. *)
Definition resolves (sb : Superblock.t) gs v (directory : Z) (name : list Z) (node : Z) : Prop :=
  ∃ inode, allocated_seen sb gs v directory = Ok inode ∧ Inode.kind inode = NodeKind.Directory ∧
    (name = DOT ∧ node = directory ∨ name = DOTDOT ∧ node = Inode.parent_inode inode ∨
     name ≠ DOT ∧ name ≠ DOTDOT ∧
     ∃ lb slot e, entry_at v directory inode lb slot e ∧ named name e ∧ node = DirectoryEntry.inode e).

(** Why a name is not resolved. *)
Definition unresolved (sb : Superblock.t) gs v (directory : Z) (name : list Z) (e : FsError.t) : Prop :=
  device_error e ∨
  e = FsError.InvalidName ∧ bad_name name = true ∨
  allocated_seen sb gs v directory = Err e ∨
  ∃ inode, allocated_seen sb gs v directory = Ok inode ∧
    (e = FsError.NotDirectory ∧ Inode.kind inode ≠ NodeKind.Directory ∨
     (∃ lb, dir_block_seen v directory inode lb = Err e) ∨
     e = FsError.NotFound ∧ unnamed v directory inode name (directory_blocks inode)).

Lemma lookup_spec (s : fs) v directory name : sees s v → tables_typed (groups s) →
  wp (lookup directory name)
    (λ node s', s' = s ∧ bad_name name = false ∧ resolves (superblock s) (groups s) v directory name node)
    (λ e s', s' = s ∧ unresolved (superblock s) (groups s) v directory name e) s.
Proof.
  intros Hv Hg. unfold lookup, unresolved, bad_name. destruct (from_utf8 name); cbn [negb orb err_if]; [|wp_steps; by auto].
  wp_step. apply wp_lift. cbn [wpo]. wp_steps; [by auto|]. set (bad := _ || contains SLASH name) in *.
  eapply wp_mono; [by apply read_allocated_spec|cbv beta|]. 2:{ intros e s' [-> [?|?]]; auto. }
  intros i s' (-> & Hi & Hgi & _). wp_steps; bool_simpl.
  { split; [done|]. right; right; right. exists i. by auto. }
  match goal with H : Inode.kind i = _ |- _ => rename H into Hk end.
  destruct (bool_decide (name = DOT)) eqn:E1; bool_simpl; [wp_steps; split_and!; [done..|]; exists i; by auto|].
  destruct (bool_decide (name = DOTDOT)) eqn:E2; bool_simpl; [wp_steps; split_and!; [done..|]; exists i; split_and!; [done..|]; by right; left|]. wp_step.
  apply (wp_for_find _ _ (λ lbs s', s' = s ∧ unnamed v directory i name lbs)); [by split; [|apply unnamed_nil]|..].
  - intros lbs lb s' Hp [-> Hd]. eapply wp_mono; [by apply (scan_block_spec s v directory i name lb lbs)|cbv beta|].
    + intros [[slot e]|] s' [-> Hr]; [|done]. wp_steps. split_and!; [done..|]. exists i. split_and!; [done..|].
      right; right. split_and!; [done..|]. exists lb, slot, e. tauto.
    + intros e s' [-> [?|[lb' ?]]]; (split; [done|]); [by left|]. right; right; right. exists i. split; [done|].
      right; left. by exists lb'.
  - intros s' [-> Hn]. wp_steps. split; [done|]. right; right; right. exists i. auto.
Qed.
(** ** Paths *)

(** The components of a path, from a node: empty ones and [.] stay. *)
Inductive walks (sb : Superblock.t) gs v : Z → list (list Z) → Z → Prop :=
| walks_nil node : walks sb gs v node [] node
| walks_stay node c cs node' : c = [] ∨ c = DOT → walks sb gs v node cs node' → walks sb gs v node (c :: cs) node'
| walks_step node c cs node1 node' : c ≠ [] → c ≠ DOT → resolves sb gs v node c node1 →
    walks sb gs v node1 cs node' → walks sb gs v node (c :: cs) node'.

Lemma walks_snoc sb gs v node cs node1 c node2 : walks sb gs v node cs node1 → walks sb gs v node1 [c] node2 →
  walks sb gs v node (cs ++ [c]) node2.
Proof.
  induction 1 as [|node c' cs ? Hc _ IH|node c' cs n1 ? Hc Hd Hr _ IH]; intros Hlast; cbn [app]; [done|..].
  - apply walks_stay; auto.
  - eapply walks_step; eauto.
Qed.

Definition path_start (start : Z) (path : list Z) : Z :=
  match path with c :: _ => if c =? SLASH then root else start | [] => start end.

Lemma lookup_path_spec (s : fs) v start path : sees s v → tables_typed (groups s) →
  wp (lookup_path start path)
    (λ node s', s' = s ∧ walks (superblock s) (groups s) v (path_start start path) (split_path path) node)
    (λ e s', s' = s ∧ ∃ cs c rest node, split_path path = cs ++ c :: rest ∧
       walks (superblock s) (groups s) v (path_start start path) cs node ∧
       unresolved (superblock s) (groups s) v node c e) s.
Proof.
  intros Hv Hg. unfold lookup_path. fold (path_start start path).
  apply (wp_for_fold _ _ (λ done node s', s' = s ∧
    walks (superblock s) (groups s) v (path_start start path) done node)); [by split; [|constructor]| |done].
  intros cs c node s' [rest Hp] [-> Hw]. rewrite <- app_assoc in Hp. destruct (_ || _) eqn:E.
  - wp_steps. split; [done|]. eapply walks_snoc; [done|]. apply walks_stay; [|constructor].
    apply orb_true_iff in E as [E|E]; [left; by apply Nat.eqb_eq, length_zero_iff_nil in E|right; by bool_simpl].
  - apply orb_false_iff in E as [E1 E2]. bool_simpl. apply Nat.eqb_neq in E1.
    eapply wp_mono; [by apply lookup_spec|cbv beta|].
    + intros n s' (-> & _ & Hr). split; [done|]. eapply walks_snoc; [done|].
      eapply walks_step; [by intros ->|done|done|constructor].
    + intros e s' [-> Hu]. split; [done|]. by exists cs, c, rest, node.
Qed.

(** ** Listing a directory *)

Definition entry_record (lb : Z) (slot : nat) (e : DirectoryEntry.t) : DirectoryRecord.t :=
  DirectoryRecord.mk (DirectoryEntry.inode e) (DirectoryEntry.generation e) (DirectoryEntry.kind e)
    (DirectoryEntry.name_bytes e) (2 + (lb * Z.of_nat DIRECTORY_ENTRIES_PER_BLOCK + (Z.of_nat slot + 1))).

Fixpoint entry_records (lb : Z) (slot : nat) (es : list DirectoryEntry.t) : list DirectoryRecord.t :=
  match es with
  | [] => []
  | e :: es =>
      if DirectoryEntry.is_unused e then entry_records lb (S slot) es
      else entry_record lb slot e :: entry_records lb (S slot) es
  end.

Definition after (cookie : Z) (r : DirectoryRecord.t) : Prop := cookie < DirectoryRecord.next_cookie r.

#[global] Instance after_dec cookie r : Decision (after cookie r).
Proof. unfold after. apply _. Defined.

(** The first [maximum] records after a cookie. *)
Definition page (cookie : Z) (maximum : nat) (records : list DirectoryRecord.t) : list DirectoryRecord.t :=
  take maximum (filter (after cookie) records).

Lemma list_entries_eq block lb cookie maximum : DirectoryBlock.logical_block_index block = lb → 0 ≤ lb →
  2 + (lb + 1) * Z.of_nat DIRECTORY_ENTRIES_PER_BLOCK ≤ u64_max → ∀ es slot records,
  Forall (λ e, DirectoryEntry.validate e = Ok ()) es → (slot + length es ≤ DIRECTORY_ENTRIES_PER_BLOCK)%nat →
  (length records < maximum)%nat →
  list_entries block cookie maximum slot es records =
  Ok (take maximum (records ++ filter (after cookie) (entry_records lb slot es))).
Proof.
  intros Hlb Hpos Hmax. induction es as [|e es IH]; intros slot records Hes Hslot Hlen; cbn [list_entries entry_records length] in *.
  { cbn. rewrite app_nil_r, take_ge by lia. done. }
  apply Forall_cons_1 in Hes as [He Hes]. unfold DirectoryBlock.cookie.
  rewrite (proj2 (Nat.leb_gt _ _)) by lia. cbn [err_if]. rewrite bind_Ok, Hlb.
  assert (0 ≤ lb * Z.of_nat DIRECTORY_ENTRIES_PER_BLOCK) by lia.
  rewrite (proj2 (checked_mul_Some _ _ _ (lb * Z.of_nat DIRECTORY_ENTRIES_PER_BLOCK))) by lia.
  cbn [mbind option_bind]. rewrite !checked_add_fits by lia. cbn [ok_or map_err]. rewrite bind_Ok.
  rewrite checked_add_fits by lia. cbn [ok_or]. rewrite bind_Ok.
  destruct (DirectoryEntry.is_unused e) eqn:Hu; [rewrite orb_true_r; apply IH; done || lia|]. rewrite orb_false_r.
  cbn [filter list_filter]. unfold after at 2. cbn [DirectoryRecord.next_cookie entry_record].
  destruct (Z.leb_spec (2 + (lb * Z.of_nat DIRECTORY_ENTRIES_PER_BLOCK + (Z.of_nat slot + 1))) cookie) as [Hle|Hgt].
  { rewrite decide_False by lia. apply IH; done || lia. }
  rewrite decide_True by done. rewrite (DirectoryCodec.name_str_valid e Hu He). cbn [map_err]. rewrite bind_Ok.
  fold (entry_record lb slot e). unfold push. rewrite length_app. cbn [length].
  destruct (Nat.leb_spec maximum (length records + 1)) as [Hm|Hm].
  - symmetry. f_equal. rewrite cons_middle, app_assoc, take_app_le, take_ge by (rewrite ?length_app; cbn; lia). done.
  - rewrite IH by (done || rewrite ?length_app; cbn; lia). by rewrite <- app_assoc.
Qed.
Lemma dir_block_index v node inode lb block : dir_block_seen v node inode lb = Ok block →
  DirectoryBlock.owner_inode block = node ∧ DirectoryBlock.logical_block_index block = lb.
Proof.
  unfold dir_block_seen. intros H. apply bind_Ok_iff in H as (p & _ & H). apply bind_Ok_iff in H as (b & _ & H).
  apply bind_unit_Ok in H as [He%err_if_Ok_iff H]. injection H as <-. apply orb_false_iff in He as [? ?]. by bool_simpl.
Qed.

Definition block_records (v : disk) (node : Z) (inode : Inode.t) (lb : Z) : list DirectoryRecord.t :=
  match dir_block_seen v node inode lb with
  | Ok block => entry_records lb 0 (DirectoryBlock.entries block)
  | _ => []
  end.

Definition dot_record (node : Z) (inode : Inode.t) : DirectoryRecord.t :=
  DirectoryRecord.mk node (Inode.generation inode) NodeKind.Directory DOT 1.
Definition dotdot_record (sb : Superblock.t) gs v (inode : Inode.t) : DirectoryRecord.t :=
  DirectoryRecord.mk (Inode.parent_inode inode)
    match allocated_seen sb gs v (Inode.parent_inode inode) with Ok parent => Inode.generation parent | _ => 0 end
    NodeKind.Directory DOTDOT 2.

(** All records of a directory: itself, its parent, its entries in their order. *)
Definition listing (sb : Superblock.t) gs v (node : Z) (inode : Inode.t) (lbs : list Z) : list DirectoryRecord.t :=
  dot_record node inode :: dotdot_record sb gs v inode :: concat (block_records v node inode <$> lbs).

Lemma page_snoc cookie maximum sb gs v node inode lbs lb :
  page cookie maximum (listing sb gs v node inode (lbs ++ [lb])) =
  take maximum (filter (after cookie) (listing sb gs v node inode lbs)
                ++ filter (after cookie) (block_records v node inode lb)).
Proof.
  unfold page, listing. rewrite <- list.filter_app. do 2 f_equal. cbn [app]. do 2 f_equal.
  rewrite fmap_app, concat_app. cbn. by rewrite app_nil_r.
Qed.

Lemma page_dots cookie maximum sb gs v node inode :
  let records := if (cookie <? 1) && (0 <? maximum)%nat then [dot_record node inode] else [] in
  page cookie maximum (listing sb gs v node inode []) =
  if (cookie <? 2) && (length records <? maximum)%nat then push records (dotdot_record sb gs v inode) else records.
Proof.
  cbv zeta. unfold page, listing, push. cbn [fmap list_fmap concat filter list_filter]. unfold after.
  cbn [DirectoryRecord.next_cookie dot_record dotdot_record].
  destruct (Z.ltb_spec cookie 1), (Z.ltb_spec cookie 2); try lia; repeat case_decide; try lia;
    destruct maximum as [|[|maximum]]; try reflexivity; by rewrite take_ge by (cbn; lia).
Qed.

(** One block of the loop of [read_directory]. *)
Lemma list_block_spec (s : fs) v node inode cookie maximum lbs lb : sees s v → good_inode inode →
  lbs ++ [lb] `prefix_of` directory_blocks inode →
  let records := page cookie maximum (listing (superblock s) (groups s) v node inode lbs) in
  wp (if (maximum <=? length records)%nat then mret records else
      block ← read_directory_block node inode lb;
      lift (list_entries block cookie maximum 0 (DirectoryBlock.entries block) records))
    (λ r s', s' = s ∧ r = page cookie maximum (listing (superblock s) (groups s) v node inode (lbs ++ [lb])))
    (λ e s', s' = s ∧ (device_error e ∨ ∃ lb, dir_block_seen v node inode lb = Err e)) s.
Proof.
  intros Hv Hi Hp. cbv zeta. rewrite page_snoc. unfold page.
  set (xs := filter (after cookie) (listing _ _ _ _ _ _)). destruct (Nat.leb_spec maximum (length (take maximum xs))) as [Hm|Hm].
  { apply wp_ret. split; [done|]. rewrite length_take in Hm. by rewrite take_app_le by lia. }
  rewrite length_take in Hm. rewrite (take_ge xs) by lia.
  wp_step. eapply wp_mono; [by apply read_directory_block_spec|cbv beta|by intros e s' [-> [?|?]]; eauto].
  intros block s' (-> & Hb & Hgb). destruct (dir_block_index _ _ _ _ _ Hb) as [_ Hlb].
  pose proof (directory_blocks_elem _ _ _ Hp) as Hrange. destruct (Inode.typed_size _ (gi_typed _ Hi)) as [? Hsz].
  assert (Inode.size inode / 4096 ≤ 4503599627370496) as Hdiv by (apply Z.div_le_upper_bound; unfold u64_max in *; lia).
  rewrite (list_entries_eq block lb); [| | | |by apply good_entries| |].
  - apply wp_lift. cbn [wpo]. split; [done|]. unfold block_records. by rewrite Hb.
  - done.
  - lia.
  - unfold DIRECTORY_ENTRIES_PER_BLOCK, u64_max. lia.
  - rewrite (DirectoryBlock.typed_length _ (gb_typed _ Hgb)). lia.
  - lia.
Qed.

Lemma read_directory_spec (s : fs) v node cookie maximum : sees s v → tables_typed (groups s) → 0 ≤ cookie →
  wp (read_directory node cookie maximum)
    (λ records s', s' = s ∧ ∃ inode, allocated_seen (superblock s) (groups s) v node = Ok inode ∧
       Inode.kind inode = NodeKind.Directory ∧
       records = page cookie maximum (listing (superblock s) (groups s) v node inode (directory_blocks inode)))
    (λ e s', s' = s ∧ (device_error e ∨ allocated_seen (superblock s) (groups s) v node = Err e ∨
       ∃ inode, allocated_seen (superblock s) (groups s) v node = Ok inode ∧
         (e = FsError.NotDirectory ∧ Inode.kind inode ≠ NodeKind.Directory ∨
          e = FsError.InvalidCookie ∧
            2 + Inode.size inode / 4096 * Z.of_nat DIRECTORY_ENTRIES_PER_BLOCK < cookie ∨
          allocated_seen (superblock s) (groups s) v (Inode.parent_inode inode) = Err e ∨
          ∃ lb, dir_block_seen v node inode lb = Err e))) s.
Proof.
  intros Hv Hg Hc. unfold read_directory. wp_step. eapply wp_mono; [by apply read_allocated_spec|cbv beta|].
  2:{ intros e s' [-> [?|?]]; auto. }
  intros i s' (-> & Hi & Hgi & _). wp_step. apply wp_lift.
  destruct (decide (Inode.kind i = NodeKind.Directory)) as [Hk|Hk];
    [rewrite bool_decide_true by done|rewrite bool_decide_false by done]; cbn [negb err_if wpo].
  2:{ split; [done|]. right; right. exists i. auto. }
  destruct (Inode.typed_size _ (gi_typed _ Hgi)) as [? Hsz].
  assert (0 ≤ Inode.size i / 4096 ≤ 4503599627370496) as Hdiv.
  { split; [by apply Z.div_pos|apply Z.div_le_upper_bound; unfold u64_max in *; lia]. }
  unfold BLOCK_SIZE_U64. rewrite checked_add_fits by (unfold DIRECTORY_ENTRIES_PER_BLOCK, u64_max; lia).
  cbn [ok_or]. wp_steps. { bool_simpl. split; [done|]. right; right. exists i. auto. }
  fold (dot_record node i).
  pose proof (page_dots cookie maximum (superblock s) (groups s) v node i) as Hdots. cbv zeta in Hdots.
  set (records0 := if (cookie <? 1) && _ then _ else _) in *.
  set (L := listing (superblock s) (groups s) v node i) in *.
  eapply (wp_mono _ (λ r s', s' = s ∧ r = page cookie maximum (L [])) _
    (λ e s', s' = s ∧ (device_error e ∨ allocated_seen (superblock s) (groups s) v (Inode.parent_inode i) = Err e)));
    [|cbv beta|].
  - rewrite Hdots. destruct ((cookie <? 2) && _); [|by wp_steps]. wp_step.
    eapply wp_mono; [by apply read_allocated_spec|cbv beta|done].
    intros parent s' (-> & Hpar & _). wp_steps. split; [done|]. unfold dotdot_record. by rewrite Hpar.
  - intros records s' [-> ->].
    apply (wp_for_fold _ _ (λ lbs r s', s' = s ∧ r = page cookie maximum (L lbs))); [done|..].
    + intros lbs lb r s' Hp [-> ->]. eapply wp_mono; [by apply (list_block_spec s v node i cookie maximum lbs lb)|done|].
      intros e s' [-> [?|?]]; (split; [done|]); [by left|]. right; right. exists i. auto.
    + intros r s' [-> ->]. split; [done|]. by exists i.
  - intros e s' [-> [?|?]]; (split; [done|]); [by left|]. right; right. exists i. auto.
Qed.
(** *** Cookies *)

Definition earlier (r1 r2 : DirectoryRecord.t) : Prop := DirectoryRecord.next_cookie r1 < DirectoryRecord.next_cookie r2.

(** Cookies of a block's records. *)
Lemma entry_records_cookies lb es : ∀ slot,
  StronglySorted earlier (entry_records lb slot es) ∧
  Forall (λ r, 2 + lb * Z.of_nat DIRECTORY_ENTRIES_PER_BLOCK + Z.of_nat slot < DirectoryRecord.next_cookie r
    ≤ 2 + lb * Z.of_nat DIRECTORY_ENTRIES_PER_BLOCK + Z.of_nat (slot + length es)) (entry_records lb slot es).
Proof.
  induction es as [|e es IH]; intros slot; cbn [entry_records length]; [by split; constructor|].
  destruct (IH (S slot)) as [Hs Hf]. destruct (DirectoryEntry.is_unused e).
  - split; [done|]. eapply Forall_impl; [|exact Hf]. cbv beta. lia.
  - split; constructor; [done|..].
    + eapply Forall_impl; [|exact Hf]. unfold earlier. cbn. lia.
    + cbn. lia.
    + eapply Forall_impl; [|exact Hf]. cbv beta. lia.
Qed.

Lemma sorted_app {A} (R : A → A → Prop) l k : StronglySorted R l → StronglySorted R k →
  (∀ x y, x ∈ l → y ∈ k → R x y) → StronglySorted R (l ++ k).
Proof.
  induction 1 as [|x l Hl IH Hx]; intros Hk Hlk; cbn [app]; [done|]. constructor.
  - apply IH; [done|]. intros. apply Hlk; [by right|done].
  - apply Forall_app. split; [done|]. apply list.Forall_forall. intros y Hy. apply Hlk; [by left|done].
Qed.

Lemma decode_entries_length b n i es : DirectoryBlock.decode_entries b n i = Ok es → length es = n.
Proof.
  revert i es. induction n as [|n IH]; intros i es; cbn [DirectoryBlock.decode_entries]; [by intros [= <-]|].
  intros (e & _ & H)%bind_Ok_iff. apply bind_Ok_iff in H as (es' & Hes & H). injection H as <-. cbn. f_equal. by eapply IH.
Qed.

Lemma dir_block_length v node inode lb block : dir_block_seen v node inode lb = Ok block →
  length (DirectoryBlock.entries block) = DIRECTORY_ENTRIES_PER_BLOCK.
Proof.
  unfold dir_block_seen. intros H. apply bind_Ok_iff in H as (p & _ & H). apply bind_Ok_iff in H as (b & Hb & H).
  apply bind_unit_Ok in H as [_ H]. injection H as ->.
  destruct (DirectoryBlock.decode (v p)) as [x| |] eqn:E; cbn in Hb; try done. injection Hb as ->.
  unfold DirectoryBlock.decode in E. do 4 apply bind_unit_Ok in E as [_ E].
  apply bind_Ok_iff in E as (nb & _ & E). apply bind_Ok_iff in E as (es & Hes & E).
  do 2 apply bind_unit_Ok in E as [_ E]. injection E as <-. by apply decode_entries_length in Hes.
Qed.

Lemma listing_cookies sb gs v node inode n :
  let l := listing sb gs v node inode (seqZ 0 (Z.of_nat n)) in
  StronglySorted earlier l ∧
  Forall (λ r, 1 ≤ DirectoryRecord.next_cookie r ≤ 2 + Z.of_nat n * Z.of_nat DIRECTORY_ENTRIES_PER_BLOCK) l.
Proof.
  cbv zeta. unfold listing. induction n as [|n [IHs IHf]].
  { cbn. split; repeat constructor; done. }
  rewrite seqZ_S, fmap_app, concat_app, Z.add_0_l. cbn [fmap list_fmap concat]. rewrite app_nil_r.
  unfold block_records at 2 4. destruct (dir_block_seen v node inode (Z.of_nat n)) as [block| |] eqn:E.
  2,3: rewrite app_nil_r; split; [done|]; eapply Forall_impl; [|exact IHf]; cbv beta; lia.
  destruct (entry_records_cookies (Z.of_nat n) (DirectoryBlock.entries block) 0) as [Hs Hf]. rewrite (dir_block_length _ _ _ _ _ E) in Hf.
  rewrite !app_comm_cons. split.
  - apply sorted_app; [done..|]. intros x y Hx Hy. unfold earlier.
    apply (proj1 (list.Forall_forall _ _) IHf) in Hx. apply (proj1 (list.Forall_forall _ _) Hf) in Hy. lia.
  - apply Forall_app. split; (eapply Forall_impl; [|eassumption]); cbv beta; lia.
Qed.

Lemma after_all c l : Forall (after c) l → filter (after c) l = l.
Proof. induction 1 as [|x l Hx _ IH]; cbn [filter list_filter]; [done|]. rewrite decide_True by done. f_equal. exact IH. Qed.

(** The records after the cookie of a record are those that follow it. *)
Lemma after_record l k r : StronglySorted earlier l → l !! k = Some r →
  filter (after (DirectoryRecord.next_cookie r)) l = drop (S k) l.
Proof.
  intros Hs. revert k. induction Hs as [|x l Hs IH Hx]; intros k Hk; [done|]. cbn [filter list_filter].
  destruct k as [|k]; cbn in Hk.
  - injection Hk as ->. rewrite decide_False by (unfold after; lia). cbn [drop]. by apply after_all.
  - rewrite decide_False; [by apply IH|]. unfold after.
    pose proof (proj1 (list.Forall_forall _ _) Hx r (list_elem_of_lookup_2 _ _ _ Hk)) as Hxr. unfold earlier in Hxr. lia.
Qed.
End reads.
