(* ===== verification/Session.v ===== *)
(** * A mutation in progress

    Between [start_mutation] and the commit, the operations of Mutation.v only
    change the transaction: the blocks it stages and its pending state.  A session
    is that situation, with the view of the volume through the staged blocks; each
    step is specified by what it does to the view. *)

From Stdlib Require Import ZArith Lia.
From stdpp Require Import base list numbers option.
From S2P Require Import Prelude NullfsBytes NullfsPhase3 NullfsSuperblock NullfsRecord NullfsInode.
From S2P Require Import NullfsDirectory NullfsAllocation BlockDevice Journal JournalDisk JournalSteps.
From S2P Require Import JournalRecovery Volume Mutation Extents VolumeReads.

Open Scope Z_scope.

(** ** Bitmaps stay bytes *)

Lemma byte_of_bits x : (∀ i, 8 ≤ i → Z.testbit x i = false) → is_byte x.
Proof.
  intros H. replace x with (x mod 2 ^ 8); [apply Z.mod_pos_bound; lia|].
  rewrite <- Z.land_ones by lia. apply Z.bits_inj'. intros i Hi. rewrite Z.land_spec.
  destruct (decide (i < 8)); [rewrite Z.ones_spec_low by lia; apply andb_true_r|].
  rewrite H by lia. done.
Qed.

Lemma bitmap_set_bytes bitmap bit value bitmap' : bytes_ok bitmap → bitmap_set bitmap bit value = Ok bitmap' →
  bytes_ok bitmap'.
Proof.
  intros Hok H. unfold bitmap_set in H. destruct (bitmap !! _) as [byte|] eqn:E; cbn in H; [|done]. injection H as <-.
  pose proof (Forall_lookup_1 _ _ _ _ Hok E) as Hb. pose proof (Nat.mod_upper_bound bit 8 ltac:(lia)).
  apply Forall_insert; [done|]. apply byte_of_bits. intros i Hi.
  destruct value; [rewrite testbit_set by lia|rewrite Z.land_spec]; rewrite (byte_bits_above byte i Hb Hi); [|done].
  cbn. apply Z.eqb_neq. lia.
Qed.

Lemma bitmap_set_block bitmap bit value bitmap' : is_block bitmap → bitmap_set bitmap bit value = Ok bitmap' →
  is_block bitmap'.
Proof. intros Hb H. unfold is_block. by destruct (bitmap_set_spec _ _ _ _ 0 H) as [-> _]. Qed.

Lemma bitmap_set_no_abort bitmap bit value : bitmap_set bitmap bit value ≠ Abort.
Proof. unfold bitmap_set. no_abort. Qed.

Section session.
Context {D : Type} {HD : BlockDevice D} {torn : list Z → Prop} {HC : CrashSafe D torn}.
Notation fs := (Filesystem D).
Context (sb : Superblock.t).

(** [s] is [s0] with a transaction open, seeing the blocks [v] and with the pending
    state [pend]; [m] are the blocks on the device and [st] its state. *)
Record session (s0 : fs) (m : disk) (st : FilesystemState.t) (v : disk) (pend : FilesystemState.t) (s : fs) : Prop := {
  se_tx : ∃ tx, s = set_transaction (Some tx) s0 ∧ Transaction.state tx = pend;
  se_writable : writable sb s m st;
  se_view : ∀ b, block_seen s m b = v b;
}.

Context (s0 : fs) (m : disk) (st : FilesystemState.t).
Notation S := (session s0 m st).

Lemma session_sees v pend s : S v pend s → sees s v.
Proof.
  intros [(tx & Hs & _) Hw Hv] b Hpos. specialize (Hv b). rewrite <- Hv in *. clear Hv.
  unfold read_block, block_seen, overlaid in *. wp_steps.
  rewrite (wr_overlay _ _ _ _ Hw) in *.
  destruct (transaction s ≫= _) as [x|] eqn:E; cbn [List.find] in *.
  - wp_steps. split; [done|]. split; [done|]. destruct (transaction s) as [tx'|] eqn:Htx; [|done]. cbn in E.
    pose proof (wr_transaction _ _ _ _ Hw tx' Htx) as Hok.
    apply (staged_elem tx' b x (tx_distinct _ _ _ Hok)), (tx_block _ _ _ Hok) in E. exact E.
  - eapply wp_mono; [apply (dev_read s b m _ (id_settled _ _ _ _ (wr_idle _ _ _ _ Hw)) Hpos)| |].
    + intros x s' (-> & -> & Hx). done.
    + intros e s' [He ->]. done.
Qed.

Lemma session_ext v v' pend s : S v pend s → (∀ b, v b = v' b) → S v' pend s.
Proof. intros [? ? Hs] Hv. split; try done. intros b. by rewrite <- Hv. Qed.

(** The rest of the filesystem. *)
Lemma session_frame v pend s : S v pend s → superblock s = superblock s0 ∧ groups s = groups s0 ∧
  open_handles s = open_handles s0 ∧ next_handle_id s = next_handle_id s0 ∧ state s = state s0.
Proof. by intros [(tx & -> & _) _ _]. Qed.

Lemma session_superblock v pend s : S v pend s → superblock s = sb.
Proof. intros [_ Hw _]. apply (id_superblock _ _ _ _ (wr_idle _ _ _ _ Hw)). Qed.

Lemma session_transaction v pend s : S v pend s → ∃ tx, transaction s = Some tx ∧ Transaction.state tx = pend ∧
  s = set_transaction (Some tx) s0.
Proof. intros [(tx & -> & Hp) _ _]. by exists tx. Qed.

(** A step that leaves some session behind. *)
Definition open_still (s : fs) : Prop := ∃ v pend, S v pend s.

Lemma session_still v pend s : S v pend s → open_still s.
Proof. intros. by exists v, pend. Qed.

(** ** The three ways to change a session *)

Definition tx_moved (s : fs) (tx : Transaction.t) (s' : fs) : Prop :=
  ∃ tx', s' = set_transaction (Some tx') s ∧ Transaction.state tx' = Transaction.state tx.

Lemma stage_block_state (s : fs) tx target x : transaction s = Some tx →
  wp (stage_block target x) (λ _ s', tx_moved s tx s') (λ _ s', tx_moved s tx s') s.
Proof.
  intros Htx. assert (tx_moved s tx s) as Hsame by (exists tx; split; [by destruct s; cbn in *; subst|done]).
  unfold stage_block, ensure_home_target, home_target, begin_transaction, ensure_writable. wp_steps; [done|].
  destruct (poisoned s); cbn [wpo]; [done|]. destruct (bool_decide _); cbn [wpo]; [|done]. wp_steps. rewrite Htx.
  wp_steps; [|done]. match goal with H : transaction s = Some _ |- _ => rewrite Htx in H; injection H as <- end.
  eapply wp_mono; [apply stage_spec| |].
  - intros _ tx' (_ & Hst & _). by exists tx'.
  - intros e tx' (_ & -> & _). by exists tx.
Qed.

Lemma session_stage v pend s target x : S v pend s → is_block x → bytes_ok x →
  wp (stage_block target x)
    (λ _ s', S (upd v target x) pend s' ∧
       Superblock.first_allocatable_block sb ≤ target < Superblock.capacity_blocks sb)
    (λ _ s', S v pend s') s.
Proof.
  intros [(tx & Hs & Hp) Hw Hv] Hx Hbx.
  assert (∀ s', tx_moved s tx s' → ∃ tx, s' = set_transaction (Some tx) s0 ∧ Transaction.state tx = pend) as Hshape.
  { intros s' (tx' & -> & Hp'). exists tx'. split; [by rewrite Hs|congruence]. }
  eapply wp_mono; [apply wp_and; [apply (stage_block_spec sb s m st target x Hw Hx Hbx)|
    apply (stage_block_state s tx); by rewrite Hs]|cbv beta|cbv beta].
  - intros _ s' [(Hw' & _ & Ht & Hv') Hm]. split; [|done]. split; [by apply Hshape|done|].
    intros b. rewrite Hv'. unfold upd. destruct (decide _); [done|apply Hv].
  - intros e s' [(Hw' & _ & Hv' & _) Hm]. split; [by apply Hshape|done|]. intros b. by rewrite Hv'.
Qed.

Lemma session_pending v pend s f : S v pend s → f pend ≠ Abort →
  (∀ pend', f pend = Ok pend' → FilesystemState.typed pend') →
  wp (pending_state f)
    (λ _ s', ∃ pend', f pend = Ok pend' ∧ S v pend' s')
    (λ e s', S v pend s' ∧ f pend = Err e) s.
Proof.
  intros HS Hna Hty. pose proof HS as [(tx & Hs & Hp) Hw Hv].
  assert (transaction s = Some tx) as Htx by (by rewrite Hs). unfold pending_state. wp_steps; [|congruence].
  match goal with H : transaction s = Some _ |- _ => rewrite Htx in H; injection H as <- end. rewrite Hp.
  destruct (f pend) as [pend'|e|] eqn:Ef; cbn [wpo]; [|done|done]. wp_steps. exists pend'. split; [done|].
  specialize (Hty pend' eq_refl). destruct Hw as [[] Hmode Hpoi Hov Htxok]. specialize (Htxok tx Htx).
  split; [eexists; by rewrite Hs|..].
  - split; [by split|done..|]. intros tx' [= <-]. by destruct Htxok.
  - intros b. rewrite <- Hv. unfold block_seen. rewrite Htx. done.
Qed.

Lemma session_typed v pend s : S v pend s → FilesystemState.typed pend.
Proof.
  intros [(tx & Hs & <-) Hw _]. apply (tx_typed _ _ _ (wr_transaction _ _ _ _ Hw tx ltac:(by rewrite Hs))).
Qed.

(** ** Free counts *)

Lemma session_count v pend s (proj : FilesystemState.t → Z) (set : Z → FilesystemState.t → FilesystemState.t)
    (f : Z → option Z) err : S v pend s →
  (∀ n, f (proj pend) = Some n → FilesystemState.typed (set n pend)) →
  wp (pending_state (λ st, n ← ok_or (f (proj st)) err; mret (set n st)))
    (λ _ s', ∃ n, f (proj pend) = Some n ∧ S v (set n pend) s') (λ _ s', S v pend s') s.
Proof.
  intros HS Hty. eapply wp_mono; [eapply (session_pending _ _ _ _ HS)|cbv beta|by intros e s' [? _]].
  - no_abort.
  - intros p. destruct (f _) as [n|] eqn:E; cbn; [|done]. intros [= <-]. by apply Hty.
  - intros _ s' (p & Hp & HS'). destruct (f _) as [n|] eqn:E; cbn in Hp; [|done]. injection Hp as <-. by exists n.
Qed.

Ltac count_typed HS := pose proof (session_typed _ _ _ HS) as (? & ? & ? & ? & ?);
  split_and!; cbn; unfold is_u64 in *; lia.

Lemma take_block v pend s : S v pend s →
  wp (pending_state (λ st, n ← ok_or (checked_sub (FilesystemState.free_block_count st) 1) FsError.CorruptVolume;
                           mret (with_free_blocks n st)))
    (λ _ s', 0 < FilesystemState.free_block_count pend ∧
       S v (with_free_blocks (FilesystemState.free_block_count pend - 1) pend) s')
    (λ _ s', S v pend s') s.
Proof.
  intros HS. eapply wp_mono; [apply (session_count v pend s _ with_free_blocks (λ n, checked_sub n 1)); [done|]|..|done].
  - intros n [-> ?]%checked_sub_Some. count_typed HS.
  - intros _ s' (n & [-> ?]%checked_sub_Some & ?). split; [lia|done].
Qed.

Lemma give_block v pend s : S v pend s →
  wp (pending_state (λ st, n ← ok_or (checked_add u64_max (FilesystemState.free_block_count st) 1)
                                 FsError.ArithmeticOverflow;
                           mret (with_free_blocks n st)))
    (λ _ s', S v (with_free_blocks (FilesystemState.free_block_count pend + 1) pend) s')
    (λ _ s', S v pend s') s.
Proof.
  intros HS. eapply wp_mono; [apply (session_count v pend s _ with_free_blocks (λ n, checked_add u64_max n 1)); [done|]|..|done].
  - intros n [-> ?]%checked_add_Some. count_typed HS.
  - by intros _ s' (n & [-> ?]%checked_add_Some & ?).
Qed.

Lemma take_inode v pend s : S v pend s →
  wp (pending_state (λ st, n ← ok_or (checked_sub (FilesystemState.free_inode_count st) 1) FsError.CorruptVolume;
                           mret (with_free_inodes n st)))
    (λ _ s', 0 < FilesystemState.free_inode_count pend ∧
       S v (with_free_inodes (FilesystemState.free_inode_count pend - 1) pend) s')
    (λ _ s', S v pend s') s.
Proof.
  intros HS. eapply wp_mono; [apply (session_count v pend s _ with_free_inodes (λ n, checked_sub n 1)); [done|]|..|done].
  - intros n [-> ?]%checked_sub_Some. count_typed HS.
  - intros _ s' (n & [-> ?]%checked_sub_Some & ?). split; [lia|done].
Qed.

Lemma give_inode v pend s : S v pend s →
  wp (pending_state (λ st, n ← ok_or (checked_add u64_max (FilesystemState.free_inode_count st) 1)
                                 FsError.ArithmeticOverflow;
                           mret (with_free_inodes n st)))
    (λ _ s', S v (with_free_inodes (FilesystemState.free_inode_count pend + 1) pend) s')
    (λ _ s', S v pend s') s.
Proof.
  intros HS. eapply wp_mono; [apply (session_count v pend s _ with_free_inodes (λ n, checked_add u64_max n 1)); [done|]|..|done].
  - intros n [-> ?]%checked_add_Some. count_typed HS.
  - by intros _ s' (n & [-> ?]%checked_add_Some & ?).
Qed.

Lemma set_orphan_head v pend s n : S v pend s → is_u64 n →
  wp (pending_state (λ st, mret (with_orphan_head n st)))
    (λ _ s', S v (with_orphan_head n pend) s') (λ _ _, False) s.
Proof.
  intros HS Hn. pose proof (session_typed _ _ _ HS) as (H1 & H2 & H3 & H4 & H5).
  eapply wp_mono; [eapply (session_pending _ _ _ _ HS)|cbv beta|by intros e s' [_ ?]]; [done|..].
  - intros p [= <-]. by split_and!.
  - by intros _ s' (p & [= <-] & ?).
Qed.
End session.
