(* ===== verification/MutationSteps.v ===== *)
(** * The steps of a mutation

    What the helpers of mutation.rs do to a session: allocating and freeing data
    blocks and inodes, writing an inode, and finding, inserting and clearing
    directory entries.  An error leaves the session open; nothing has reached the
    device. *)

From Stdlib Require Import ZArith Lia.
From stdpp Require Import base list numbers option.
From S2P Require Import Prelude NullfsBytes NullfsPhase3 NullfsSuperblock NullfsRecord NullfsInode.
From S2P Require Import NullfsDirectory NullfsAllocation BlockDevice Journal JournalDisk JournalSteps.
From S2P Require Import JournalRecovery Volume Mutation Extents VolumeReads Session.

Open Scope Z_scope.

(** Block numbers of a descriptor are unsigned. *)
Definition group_unsigned (g : AllocationGroupDescriptor.t) : Prop :=
  0 ≤ AllocationGroupDescriptor.block_bitmap_block g ∧ 0 ≤ AllocationGroupDescriptor.inode_bitmap_block g ∧
  0 ≤ AllocationGroupDescriptor.inode_table_first_block g ∧ 0 ≤ AllocationGroupDescriptor.first_data_block g ∧
  AllocationGroupDescriptor.data_end_block g ≤ u64_max.

Lemma wp_for_each {S E A} (l : list A) (f : A → M S E unit) (I : list A → S → Prop)
    (Q : unit → S → Prop) (R : E → S → Prop) s :
  I [] s →
  (∀ prior x s, prior ++ [x] `prefix_of` l → I prior s → wp (f x) (λ _ s, I (prior ++ [x]) s) R s) →
  (∀ s, I l s → Q () s) → wp (for_each l f) Q R s.
Proof.
  intros Hi Hf HQ.
  assert (∀ rest prior s, l = prior ++ rest → I prior s → wp (for_each rest f) Q R s) as Hloop.
  { clear Hi s. induction rest as [|x rest IH]; intros prior s Hl Hi; cbn [for_each].
    - rewrite app_nil_r in Hl. subst. apply wp_ret. by apply HQ.
    - apply wp_bind. eapply wp_mono; [apply Hf; [|exact Hi]| |done].
      + exists rest. by rewrite <- app_assoc.
      + intros ? s' Hi'. apply (IH (prior ++ [x])); [by rewrite <- app_assoc|done]. }
  by apply (Hloop l []).
Qed.

(** ** What the steps do to the view *)

(** A block that was free, of some group, is marked used. *)
Definition block_taken (gs : list AllocationGroupDescriptor.t) (v v' : disk) (physical : Z) : Prop := ∃ g bitmap,
  g ∈ gs ∧
  AllocationGroupDescriptor.first_data_block g ≤ physical < AllocationGroupDescriptor.data_end_block g ∧
  bitmap_test (v (AllocationGroupDescriptor.block_bitmap_block g)) (block_bit g physical) = Some false ∧
  bitmap_set (v (AllocationGroupDescriptor.block_bitmap_block g)) (block_bit g physical) true = Ok bitmap ∧
  v' = upd v (AllocationGroupDescriptor.block_bitmap_block g) bitmap.

Definition inode_block (d : AllocationGroupDescriptor.t) (i : nat) : Z := (inode_slot d i).1.
Definition inode_offset (d : AllocationGroupDescriptor.t) (i : nat) : nat := (inode_slot d i).2.

(** The view with an inode stored in its slot. *)
Definition inode_put (gs : list AllocationGroupDescriptor.t) (v : disk) (node : Z) (x : list Z) : disk :=
  match inode_location_in gs node with
  | Ok (d, i) => upd v (inode_block d i) (put_bytes (v (inode_block d i)) (inode_offset d i) x)
  | _ => v
  end.

(** A free inode, of some group, is marked used. *)
Definition inode_taken (gs : list AllocationGroupDescriptor.t) (v v' : disk) (node : Z) : Prop := ∃ k g local bitmap,
  gs !! k = Some g ∧ (local < Z.to_nat (AllocationGroupDescriptor.inodes_in_group g))%nat ∧
  node = Z.of_nat k * AllocationGroupDescriptor.inodes_in_group g + Z.of_nat local + 1 ∧
  bitmap_test (v (AllocationGroupDescriptor.inode_bitmap_block g)) local = Some false ∧
  bitmap_set (v (AllocationGroupDescriptor.inode_bitmap_block g)) local true = Ok bitmap ∧
  v' = upd v (AllocationGroupDescriptor.inode_bitmap_block g) bitmap.

(** A data block is marked free. *)
Definition block_freed (gs : list AllocationGroupDescriptor.t) (v v' : disk) (physical : Z) : Prop := ∃ g bitmap,
  List.find (in_data_area physical) gs = Some g ∧
  bitmap_set (v (AllocationGroupDescriptor.block_bitmap_block g)) (block_bit g physical) false = Ok bitmap ∧
  v' = upd v (AllocationGroupDescriptor.block_bitmap_block g) bitmap.

(** Blocks freed one after the other. *)
Inductive blocks_freed (gs : list AllocationGroupDescriptor.t) : disk → list Z → disk → Prop :=
| bf_nil v : blocks_freed gs v [] v
| bf_snoc v ps v1 p v2 : blocks_freed gs v ps v1 → block_freed gs v1 v2 p → blocks_freed gs v (ps ++ [p]) v2.

(** The blocks of a list of extents. *)
Definition extent_blocks (es : list Extent.t) : list Z :=
  concat ((λ e, seqZ (Extent.physical_first_block e) (Extent.length_blocks e)) <$> es).

(** An inode freed with its blocks. *)
Definition inode_freed (gs : list AllocationGroupDescriptor.t) (v v' : disk) (node : Z) (inode : Inode.t) : Prop := ∃ v1 d i bitmap,
  blocks_freed gs v (extent_blocks (Inode.used_extents inode)) v1 ∧
  inode_location_in gs node = Ok (d, i) ∧ is_block (v1 (inode_block d i)) ∧
  let v2 := inode_put gs v1 node (zeros INODE_BYTES) in
  bitmap_set (v2 (AllocationGroupDescriptor.inode_bitmap_block d)) i false = Ok bitmap ∧
  v' = upd v2 (AllocationGroupDescriptor.inode_bitmap_block d) bitmap.

(** An entry replaced in a block that the directory has. *)
Definition entry_stored (v v' : disk) (node : Z) (inode : Inode.t) (lb : Z) (slot : nat) (e : DirectoryEntry.t) : Prop :=
  ∃ block p, dir_block_seen v node inode lb = Ok block ∧ (slot < DIRECTORY_ENTRIES_PER_BLOCK)%nat ∧
    mapped (Inode.used_extents inode) lb = Some p ∧
    good_block block ∧ good_block (set_entry slot e block) ∧
    v' = upd v p (DirectoryCodec.directory_image (set_entry slot e block)).

Definition grown (inode : Inode.t) (i : Inode.t) : Inode.t :=
  set_entry_count (Inode.directory_entry_count i + 1) (set_size (Inode.size i + BLOCK_SIZE_U64) i).

(** A block with one entry. *)
Definition first_entry (node lb : Z) (e : DirectoryEntry.t) : DirectoryBlock.t :=
  set_entry 0 e (DirectoryBlock.mk node lb (replicate DIRECTORY_ENTRIES_PER_BLOCK DirectoryEntry.default)).

(** Inserting an entry: in the first unused slot, or in a new block at the end. *)
Definition entry_inserted (gs : list AllocationGroupDescriptor.t) (v v' : disk) (pend pend' : FilesystemState.t) (node : Z) (inode inode' : Inode.t)
    (e : DirectoryEntry.t) : Prop :=
  (∃ lb slot, 0 ≤ lb < Inode.size inode / 4096 ∧ entry_stored v v' node inode lb slot e ∧
     (∃ old, entry_at v node inode lb slot old ∧ DirectoryEntry.is_unused old = true) ∧ pend' = pend ∧
     inode' = set_entry_count (Inode.directory_entry_count inode + 1) inode) ∨
  (∃ p v1 i1, block_taken gs v v1 p ∧ add_extent inode (Inode.size inode / 4096) p = Ok i1 ∧
     pend' = with_free_blocks (FilesystemState.free_block_count pend - 1) pend ∧
     good_block (first_entry node (Inode.size inode / 4096) e) ∧
     v' = upd v1 p (DirectoryCodec.directory_image (first_entry node (Inode.size inode / 4096) e)) ∧
     inode' = grown inode i1).

(** The session is still open after an error. *)
Ltac left_open := cbv beta; intros; eapply session_still; eassumption.

Lemma wp_assoc {S E A B C} (c : M S E A) (k : A → M S E B) (h : B → M S E C) Q R s :
  wp (b ← (a ← c; k a); h b) Q R s → wp (a ← c; b ← k a; h b) Q R s.
Proof. unfold wp, mbind, M_bind. by destruct (c s) as [[] ?]. Qed.

Section steps.
Context {D : Type} {HD : BlockDevice D} {torn : list Z → Prop} {HC : CrashSafe D torn}.
Notation fs := (Filesystem D).
Context (sb : Superblock.t) (s0 : fs) (m : disk) (st : FilesystemState.t).
Context (Hgs : Forall group_unsigned (groups s0)).
Notation S := (session sb s0 m st).
Notation still := (open_still sb s0 m st).

Lemma group_elem g : g ∈ groups s0 → group_unsigned g.
Proof using Hgs. apply (proj1 (list.Forall_forall _ _) Hgs). Qed.

Lemma tables : tables_typed (groups s0).
Proof using Hgs. eapply Forall_impl; [|exact Hgs]. by intros g (_ & _ & ? & _). Qed.

(** Rewrite the parts of the filesystem a session does not change. *)
Lemma session_groups v pend s : S v pend s → groups s = groups s0.
Proof using. by intros (_ & ? & _)%session_frame. Qed.

Lemma session_read v pend s b : S v pend s → 0 ≤ b →
  wp (read_block b) (λ x s', s' = s ∧ x = v b ∧ is_block x ∧ bytes_ok x) (λ _ s', still s') s.
Proof using.
  intros HS Hb. eapply wp_mono; [apply (session_sees _ _ _ _ _ _ _ HS b Hb)|done|].
  intros e s' [-> _]. left_open.
Qed.

(** ** Allocation *)

Lemma find_Some {A} (f : A → bool) l x : List.find f l = Some x → f x = true ∧ x ∈ l.
Proof. intros H. apply find_some in H as [??]. split; [done|]. by apply list_elem_of_In. Qed.

Lemma allocate_data_block_spec v pend s : S v pend s →
  wp allocate_data_block
    (λ physical s', ∃ v', block_taken (groups s0) v v' physical ∧ 0 < FilesystemState.free_block_count pend ∧
       S v' (with_free_blocks (FilesystemState.free_block_count pend - 1) pend) s')
    (λ _ s', still s') s.
Proof using Hgs.
  intros HS. unfold allocate_data_block. wp_steps. rewrite (session_groups _ _ _ HS).
  apply (wp_for_find _ _ (λ _ s', s' = s)); [done|..].
  - intros prior g s' [rest Hp] ->. assert (g ∈ groups s0) as Hg.
    { rewrite Hp. apply elem_of_app. left. apply elem_of_app. right. by apply list_elem_of_singleton. }
    destruct (group_elem g Hg) as (Hbb & _). wp_step. eapply wp_mono; [exact (session_read _ _ _ _ HS Hbb)|cbv beta|done].
    intros x s' (-> & -> & Hx & Hbx). destruct (free_data_bit g _) as [p|] eqn:E; [|by wp_steps].
    apply find_Some in E as [Hbit Hrange]. bool_simpl. apply elem_of_seqZ in Hrange.
    wp_step. unfold on_format. apply wp_lift, wpo_map_err.
    destruct (bitmap_set _ _ _) as [bitmap|e|] eqn:Eset; cbn [wpo];
      [|left_open|by apply bitmap_set_no_abort in Eset].
    wp_step. eapply wp_mono; [apply (session_stage _ _ _ _ _ _ _ _ _ HS);
      [by eapply bitmap_set_block|by eapply bitmap_set_bytes]|cbv beta|left_open].
    intros _ s1 [HS1 _]. wp_step. eapply wp_mono; [by apply take_block|cbv beta|left_open].
    intros _ s2 [Hfree HS2]. wp_steps; [|done]. match goal with H : Some _ = Some _ |- _ => injection H as <- end.
    eexists. split; [|by split]. exists g, bitmap. split_and!; try done; lia.
  - intros s' ->. wp_steps; [done|]. left_open.
Qed.
(** The bytes [write_inode] stores. *)
Definition encode_inode (inode : Inode.t) : outcome FormatError.t (list Z) :=
  if (Inode.link_count inode =? 0) && negb (bool_decide (Inode.kind inode = NodeKind.Free))
  then Inode.encode_with_mode inode Phase3Orphan else Inode.encode inode.

Lemma image_inj i j : Inode.typed i → Inode.typed j → InodeCodec.inode_image i = InodeCodec.inode_image j → i = j.
Proof using.
  intros Hi Hj E. destruct (InodeCodec.inode_image_fields i Hi) as [Ki Fi], (InodeCodec.inode_image_fields j Hj) as [Kj Fj].
  rewrite E in Ki, Fi. assert (Inode.kind i = Inode.kind j) as Hk.
  { rewrite Ki in Kj. by destruct (Inode.kind i), (Inode.kind j). }
  rewrite Hk, Fj in Fi. done.
Qed.

Lemma encode_inode_mode inode x : encode_inode inode = Ok x →
  ∃ mode, Inode.encode_with_mode inode mode = Ok x ∧
    (mode = Strict ∨ mode = Phase3Orphan ∧ Inode.link_count inode = 0 ∧ Inode.kind inode ≠ NodeKind.Free).
Proof using.
  unfold encode_inode. intros He. destruct (_ && _) eqn:E; [|exists Strict; by auto].
  exists Phase3Orphan. split; [done|]. right. by bool_simpl.
Qed.

Lemma encode_inode_bytes inode x : length (Inode.extents inode) = INLINE_EXTENT_COUNT → encode_inode inode = Ok x →
  length x = INODE_BYTES ∧ bytes_ok x.
Proof using. intros Hl (mode & Hm & _)%encode_inode_mode. by eapply InodeCodec.inode_encode_bytes. Qed.

Lemma encode_inode_decodes inode x : Inode.typed inode → encode_inode inode = Ok x → decode_inode true x = Ok inode.
Proof using.
  intros Ht He. pose proof (Inode.typed_extents_length _ Ht) as Hl.
  destruct (encode_inode_bytes _ _ Hl He) as [Hx Hbx]. destruct (encode_inode_mode _ _ He) as (mode & Hm & Hmode).
  pose proof (InodeCodec.inode_decode_encode _ _ _ Ht Hm) as Hd. unfold decode_inode, Inode.decode.
  destruct Hmode as [->|(-> & Hlinks & Hk)]; [by rewrite Hd|]. rewrite Hd.
  destruct (Inode.decode_with_mode x Strict) as [j| |] eqn:E; [|done|by apply InodeCodec.inode_decode_no_abort in E].
  apply InodeCodec.inode_decode_exact in E as (Hj & Hv & Himg); [|done..]. exfalso.
  apply InodeCodec.inode_decode_exact in Hd as (_ & _ & [Hi|[? _]]); [|done..]. destruct Himg as [Himg|[Hfree ->]].
  - assert (j = inode) as -> by (apply image_inj; congruence). apply Valid.validate_Ok in Hv; [|done..].
    pose proof (Valid.v_links _ _ Hv) as Hlv. unfold Inode.links_valid in Hlv. by rewrite Hlinks in Hlv.
  - assert (nonzero (zeros INODE_BYTES) = false) as Hz by apply nonzero_zeros. rewrite Hi in Hz.
    pose proof (InodeCodec.inode_image_fields inode Ht) as [Kk _]. apply nonzero_false in Hz. 
    rewrite InodeCodec.inode_image_length in Hz by done. rewrite Hz in Kk. unfold get_u16 in Kk.
    rewrite slice_zeros in Kk by (unfold INODE_BYTES; lia). rewrite <- le_bytes_0, le_value_u16 in Kk by (unfold u16_max; lia).
    by destruct (Inode.kind inode).
Qed.

(** ** Inodes *)

Lemma write_inode_spec v pend s node inode : S v pend s → length (Inode.extents inode) = INLINE_EXTENT_COUNT →
  wp (write_inode node inode)
    (λ _ s', ∃ x d i, encode_inode inode = Ok x ∧ inode_location_in (groups s0) node = Ok (d, i) ∧
       is_block (v (inode_block d i)) ∧
       Superblock.first_allocatable_block sb ≤ inode_block d i < Superblock.capacity_blocks sb ∧
       S (inode_put (groups s0) v node x) pend s')
    (λ _ s', still s') s.
Proof using Hgs.
  intros HS Hl. unfold write_inode, inode_location, inode_put. wp_steps. rewrite (session_groups _ _ _ HS).
  destruct (inode_location_in (groups s0) node) as [[d i]|e|] eqn:El; cbn [wpo]; [|left_open|].
  2:{ exfalso. revert El. unfold inode_location_in. no_abort. }
  destruct (inode_location_elem _ _ _ _ El) as [Hd _]. destruct (group_elem d Hd) as (_ & _ & Hpos & _).
  change (AllocationGroupDescriptor.inode_table_first_block d + Z.of_nat (i * INODE_BYTES / BLOCK_SIZE)) with (inode_block d i).
  change (i * INODE_BYTES mod BLOCK_SIZE)%nat with (inode_offset d i).
  assert (0 ≤ inode_block d i) as Hb by (unfold inode_block, inode_slot; cbn [fst]; lia).
  wp_step. eapply wp_mono; [exact (session_read _ _ _ _ HS Hb)|cbv beta|done].
  intros x0 s' (-> & -> & Hx & Hbx). fold (encode_inode inode). wp_step. unfold on_format. apply wp_lift, wpo_map_err.
  destruct (encode_inode inode) as [x|e|] eqn:Ee; cbn [wpo]; [|left_open|].
  2:{ exfalso. revert Ee. unfold encode_inode, Inode.encode. destruct (_ && _); apply InodeCodec.inode_encode_no_abort. }
  destruct (encode_inode_bytes _ _ Hl Ee) as [Hlx Hokx]. pose proof (slot_within i) as Hs. unfold is_block in Hx.
  eapply wp_mono; [apply (session_stage _ _ _ _ _ _ _ _ _ HS)|cbv beta|left_open].
  - unfold is_block. rewrite length_put_bytes; [done|]. rewrite Hx, Hlx. exact Hs.
  - by apply put_bytes_ok.
  - intros _ s' [HS' Hr]. exists x, d, i. split_and!; [done|done|exact Hx|apply Hr|apply Hr|exact HS'].
Qed.

(** Reading, in a session. *)
Lemma session_allocated v pend s node : S v pend s →
  wp (read_allocated_inode node)
    (λ i s', s' = s ∧ allocated_seen sb (groups s0) v node = Ok i ∧ good_inode i ∧ Inode.kind i ≠ NodeKind.Free)
    (λ _ s', still s') s.
Proof using Hgs.
  intros HS. eapply wp_mono; [apply (read_allocated_spec s v); [by eapply session_sees|]|cbv beta|].
  - rewrite (session_groups _ _ _ HS). apply tables.
  - intros i s' (-> & Hi). by rewrite (session_groups _ _ _ HS), (session_superblock _ _ _ _ _ _ _ HS) in Hi.
  - intros e s' [-> _]. left_open.
Qed.

Lemma session_dir_block v pend s node inode lb : S v pend s → good_inode inode →
  wp (read_directory_block node inode lb)
    (λ block s', s' = s ∧ dir_block_seen v node inode lb = Ok block ∧ good_block block)
    (λ _ s', still s') s.
Proof using.
  intros HS Hi. eapply wp_mono; [by apply (read_directory_block_spec s v); [eapply session_sees|]|done|].
  intros e s' [-> _]. left_open.
Qed.

Lemma find_entry_spec v pend s node inode name : S v pend s → good_inode inode →
  wp (find_entry node inode name)
    (λ r s', s' = s ∧ Inode.kind inode = NodeKind.Directory ∧
       match r with
       | Some (lb, slot, e) => entry_at v node inode lb slot e ∧ named name e
       | None => unnamed v node inode name (directory_blocks inode)
       end)
    (λ _ s', still s') s.
Proof using.
  intros HS Hi. unfold find_entry. wp_steps; [left_open|]. bool_simpl.
  apply (wp_for_find _ _ (λ lbs s', s' = s ∧ unnamed v node inode name lbs)); [by split; [|apply unnamed_nil]|..].
  - intros lbs lb s' Hp [-> Hd]. apply wp_assoc. wp_step.
    eapply wp_mono; [apply (scan_block_spec s v node inode name lb lbs); [by eapply session_sees|done..]|cbv beta|].
    + intros [[slot e]|] s' [-> Hr]; wp_steps; [|done]. split; [done|by split].
    + intros e s' [-> _]. left_open.
  - by intros s' [-> ?].
Qed.
(** ** Directory entries *)

(** A directory block stored at its place. *)
Lemma stage_directory_spec v pend s inode lb block : S v pend s → good_inode inode → DirectoryBlock.typed block →
  wp (stage_directory_block inode lb block)
    (λ _ s', ∃ p, mapped (Inode.used_extents inode) lb = Some p ∧ DirectoryBlock.validate block = Ok () ∧
       S (upd v p (DirectoryCodec.directory_image block)) pend s')
    (λ _ s', still s') s.
Proof using.
  intros HS Hi Ht. unfold stage_directory_block.
  rewrite physical_block_mapped by (apply Hi || by apply good_extents). wp_step. apply wp_lift. cbn [wpo].
  destruct (mapped _ lb) as [p|] eqn:E; cbn [ok_or]; wp_steps; [|left_open]. unfold on_format. apply wp_lift, wpo_map_err.
  destruct (DirectoryBlock.encode block) as [x|e|] eqn:Ee; cbn [wpo]; [|left_open|].
  2:{ by apply (encode_no_abort (BlockCodec := DirectoryCodec.directory_codec)) in Ee. }
  apply DirectoryCodec.directory_encode_eq in Ee as [Hv ->]; [|done].
  eapply wp_mono; [apply (session_stage _ _ _ _ _ _ _ _ _ HS)|cbv beta|left_open].
  - by apply DirectoryCodec.directory_image_block.
  - by apply DirectoryCodec.directory_image_ok.
  - intros _ s' [HS' _]. by exists p.
Qed.

Lemma set_entry_typed slot e block : DirectoryBlock.typed block → DirectoryEntry.typed e →
  DirectoryBlock.typed (set_entry slot e block).
Proof using.
  intros [] He. split; cbn; try done; [by rewrite length_insert|]. by apply Forall_insert.
Qed.

Lemma entry_new_typed child generation kind name e : is_u64 child → is_u64 generation → bytes_ok name →
  DirectoryEntry.new child generation kind name = Ok e → DirectoryEntry.typed e ∧ DirectoryEntry.inode e = child ∧
    DirectoryEntry.generation e = generation ∧ DirectoryEntry.kind e = kind ∧ named name e.
Proof using.
  intros Hc Hg Hn. unfold DirectoryEntry.new. intros H.
  apply bind_unit_Ok in H as [Hl%err_if_Ok_iff H]. apply bind_unit_Ok in H as [_ H].
  apply bind_unit_Ok in H as [Hz%err_if_Ok_iff H]. injection H as <-.
  apply orb_false_iff in Hl as [Hl0 Hl1]. apply Nat.eqb_neq in Hl0. apply Nat.ltb_ge in Hl1.
  apply orb_false_iff in Hz as [Hz _]. apply orb_false_iff in Hz as [Hz _]. bool_simpl.
  unfold DIRECTORY_NAME_CAPACITY in *.
  assert (wrap 8 (Z.of_nat (length name)) = Z.of_nat (length name)) as Hw.
  { unfold wrap. apply Z.mod_small. change (2 ^ 8) with 256. lia. }
  split_and!; try done.
  - split; cbn; try done.
    + rewrite length_put_bytes; rewrite length_zeros; [done|lia].
    + apply put_bytes_ok; [apply zeros_ok|done].
    + rewrite Hw. split; lia.
  - split; [unfold DirectoryBlock.used, DirectoryEntry.is_unused; cbn; by apply negb_true_iff, Z.eqb_neq|].
    unfold DirectoryEntry.name_bytes. cbn [DirectoryEntry.name DirectoryEntry.name_length]. rewrite Hw, Nat2Z.id.
    pose proof (slice_put_same (zeros 96) 0 name (length name) eq_refl) as Hs. rewrite length_zeros in Hs.
    specialize (Hs Hl1). Transparent slice. unfold slice in Hs. by rewrite drop_0 in Hs. Opaque slice.
Qed.

Lemma default_entry_typed : DirectoryEntry.typed DirectoryEntry.default.
Proof using. split; cbn; try done. apply zeros_ok. Qed.

Lemma store_entry_spec v pend s node inode lb slot e block : S v pend s → good_inode inode →
  dir_block_seen v node inode lb = Ok block → good_block block → (slot < DIRECTORY_ENTRIES_PER_BLOCK)%nat →
  DirectoryEntry.typed e →
  wp (stage_directory_block inode lb (set_entry slot e block))
    (λ _ s', ∃ v', entry_stored v v' node inode lb slot e ∧ S v' pend s')
    (λ _ s', still s') s.
Proof using.
  intros HS Hi Hb Hgb Hslot He. assert (DirectoryBlock.typed (set_entry slot e block)) as Ht.
  { apply set_entry_typed; [apply Hgb|done]. }
  eapply wp_mono; [by apply (stage_directory_spec v pend)|cbv beta|done].
  intros _ s' (p & Hp & Hv & HS'). eexists. split; [|exact HS']. exists block, p. by split_and!.
Qed.

Lemma clear_entry_spec v pend s node inode lb slot : S v pend s → good_inode inode →
  (slot < DIRECTORY_ENTRIES_PER_BLOCK)%nat →
  wp (clear_entry node inode lb slot)
    (λ inode' s', ∃ v', entry_stored v v' node inode lb slot DirectoryEntry.default ∧
       1 ≤ Inode.directory_entry_count inode ∧
       inode' = set_entry_count (Inode.directory_entry_count inode - 1) inode ∧ S v' pend s')
    (λ _ s', still s') s.
Proof using.
  intros HS Hi Hslot. unfold clear_entry. wp_step.
  eapply wp_mono; [exact (session_dir_block v pend s node inode lb HS Hi)|cbv beta|done]. intros block s' (-> & Hb & Hgb). wp_step.
  eapply wp_mono; [by apply (store_entry_spec v pend s node inode lb slot DirectoryEntry.default block HS Hi Hb Hgb Hslot default_entry_typed)|cbv beta|done].
  intros _ s' (v' & Hv' & HS'). wp_steps; [|left_open].
  match goal with H : checked_sub _ _ = Some _ |- _ => apply checked_sub_Some in H as [-> ?] end. by exists v'.
Qed.
Lemma block_taken_range v v' p : block_taken (groups s0) v v' p → 0 ≤ p < u64_max.
Proof using Hgs.
  intros (g & _ & Hg & Hp & _). destruct (group_elem g Hg) as (_ & _ & _ & ? & ?). lia.
Qed.

(** A directory has no block at its end. *)
Lemma directory_end inode : good_inode inode → Inode.kind inode = NodeKind.Directory →
  Valid.size_blocks (Inode.size inode) = Inode.size inode / 4096 ∧
  mapped (Inode.used_extents inode) (Inode.size inode / 4096) = None.
Proof using.
  intros Hi Hk. destruct (good_inode_valid inode Hi ltac:(congruence)) as [mode Hv].
  destruct (Valid.v_directory _ _ Hv Hk) as (Hm & _).
  assert (Valid.size_blocks (Inode.size inode) = Inode.size inode / 4096) as Hs.
  { unfold Valid.size_blocks. pose proof (Z.div_mod (Inode.size inode) 4096 ltac:(lia)) as Hd. rewrite Hm, Z.add_0_r in Hd.
    rewrite Hd at 1. rewrite Z.mul_comm, Z.div_add_l by lia. change (4095 / 4096) with 0. lia. }
  split; [done|]. destruct (mapped _ _) as [p|] eqn:E; [|done]. apply good_mapped in E; [|done]. lia.
Qed.

Lemma directory_append inode p : good_inode inode → Inode.kind inode = NodeKind.Directory → 0 ≤ p < u64_max →
  add_extent inode (Inode.size inode / 4096) p ≠ Abort.
Proof using.
  intros Hi Hk Hp Ha. destruct (directory_end inode Hi Hk) as [Hsb Hnone].
  destruct (Inode.typed_size _ (gi_typed _ Hi)) as [? ?].
  assert (0 ≤ Inode.size inode / 4096 < u64_max) as Hl.
  { split; [by apply Z.div_pos|]. apply Z.div_lt_upper_bound; unfold u64_max in *; lia. }
  pose proof (add_extent_spec (Inode.size inode / 4096 + 1) inode (Inode.size inode / 4096) p ltac:(lia) (gi_typed _ Hi)) as Hspec.
  rewrite Ha in Hspec. apply Hspec; [|done|lia|done].
  apply (extents_within_mono (Valid.size_blocks (Inode.size inode))); [lia|]. by apply extents_valid_within, good_extents.
Qed.

Lemma new_block_good node lb : is_u64 node → is_u64 lb → node ≠ 0 →
  good_block (DirectoryBlock.mk node lb (replicate DIRECTORY_ENTRIES_PER_BLOCK DirectoryEntry.default)).
Proof using.
  intros Hn Hl H0. assert (Forall (eq DirectoryEntry.default) (replicate DIRECTORY_ENTRIES_PER_BLOCK DirectoryEntry.default)) as Hd
    by (by apply Forall_replicate). split.
  - split; cbn [DirectoryBlock.owner_inode DirectoryBlock.logical_block_index DirectoryBlock.entries]; try done.
    eapply Forall_impl; [|exact Hd]. intros e <-. apply default_entry_typed.
  - apply DirectoryCodec.directory_validate_Ok. split_and!; [done|..].
    + eapply Forall_impl; [|exact Hd]. by intros e <-.
    + cbn. constructor.
Qed.

Lemma insert_entry_spec v pend s node inode name child child_inode : S v pend s → good_inode inode →
  Inode.kind inode = NodeKind.Directory → is_u64 node → is_u64 child → is_u64 (Inode.generation child_inode) →
  bytes_ok name →
  wp (insert_entry node inode name child child_inode)
    (λ inode' s', ∃ e v' pend',
       DirectoryEntry.new child (Inode.generation child_inode) (Inode.kind child_inode) name = Ok e ∧
       entry_inserted (groups s0) v v' pend pend' node inode inode' e ∧ S v' pend' s')
    (λ _ s', still s') s.
Proof using Hgs.
  intros HS Hi Hk Hn Hc Hgen Hname. unfold insert_entry. wp_step. unfold on_format at 1. apply wp_lift, wpo_map_err.
  destruct (DirectoryEntry.new _ _ _ _) as [e|er|] eqn:Ee; cbn [wpo]; [|left_open|].
  2:{ exfalso. revert Ee. unfold DirectoryEntry.new. no_abort. }
  destruct (entry_new_typed _ _ _ _ _ Hc Hgen Hname Ee) as (Het & _). wp_step.
  apply (wp_for_find _ _ (λ _ s', s' = s)); [done|..].
  - intros lbs lb s' Hp ->. pose proof (directory_blocks_elem _ _ _ Hp) as Hlb. wp_step.
    eapply wp_mono; [exact (session_dir_block v pend s node inode lb HS Hi)|cbv beta|done].
    intros block s' (-> & Hb & Hgb). destruct (position _ _) as [slot|] eqn:Epos; [|by wp_steps].
    destruct (position_Some _ _ _ Epos) as (old & Hold & Hunused & _).
    assert (slot < DIRECTORY_ENTRIES_PER_BLOCK)%nat as Hslot.
    { apply lookup_lt_Some in Hold. by rewrite (DirectoryBlock.typed_length _ (gb_typed _ Hgb)) in Hold. }
    wp_step. eapply wp_mono; [exact (store_entry_spec v pend s node inode lb slot e block HS Hi Hb Hgb Hslot Het)|cbv beta|done].
    intros _ s' (v' & Hv' & HS'). wp_steps. exists e, v', pend. split_and!; [done| |done]. left. exists lb, slot.
    split_and!; try done; try lia. exists old. split; [|done]. split; [done|by exists block].
  - intros s' ->. destruct (directory_end inode Hi Hk) as [Hsb Hnone]. wp_step. unfold BLOCK_SIZE_U64 at 1.
    eapply wp_mono; [by apply (allocate_data_block_spec v pend)|cbv beta|done].
    intros p s1 (v1 & Htaken & Hfree & HS1). wp_step. apply wp_lift.
    pose proof (directory_append inode p Hi Hk (block_taken_range _ _ _ Htaken)) as Hadd.
    destruct (add_extent _ _ _) as [i1|er|] eqn:Eadd; cbn [wpo]; [|left_open|done].
    wp_step. unfold on_format at 1, DirectoryBlock.new. apply wp_lift, wpo_map_err. wp_steps; [left_open|]. bool_simpl.
    destruct (Inode.typed_size _ (gi_typed _ Hi)) as [? ?].
    assert (is_u64 (Inode.size inode / 4096)) as Hlog.
    { split; [by apply Z.div_pos|]. apply Z.div_le_upper_bound; lia. }
    assert (DirectoryBlock.typed (set_entry 0 e (DirectoryBlock.mk node (Inode.size inode / 4096)
      (replicate DIRECTORY_ENTRIES_PER_BLOCK DirectoryEntry.default)))) as Ht.
    { apply set_entry_typed; [|done]. by apply new_block_good. }
    unfold on_format. apply wp_lift, wpo_map_err.
    destruct (DirectoryBlock.encode _) as [x|er|] eqn:Ex; cbn [wpo]; [|left_open|].
    2:{ by apply (encode_no_abort (BlockCodec := DirectoryCodec.directory_codec)) in Ex. }
    apply DirectoryCodec.directory_encode_eq in Ex as [Hval ->]; [|done]. wp_step.
    eapply wp_mono; [apply (session_stage _ _ _ _ _ _ _ _ _ HS1);
      [by apply DirectoryCodec.directory_image_block|by apply DirectoryCodec.directory_image_ok]|cbv beta|left_open].
    intros _ s2 [HS2 _]. wp_steps. exists e. eexists _, _. split_and!; [done| |exact HS2]. right. exists p, v1, i1. by split_and!.
Qed.
(** ** Inode allocation and freeing *)

Lemma zip_seq_elem {A} (l : list A) i x : (i, x) ∈ zip (seq 0 (length l)) l → l !! i = Some x.
Proof using.
  intros [j Hj]%list_elem_of_lookup. apply lookup_zip_Some in Hj as [Hi Hx]. apply lookup_seq in Hi as [-> _]. done.
Qed.

Lemma allocate_inode_spec v pend s : S v pend s →
  wp allocate_inode
    (λ node s', ∃ v', inode_taken (groups s0) v v' node ∧
       S v' (with_free_inodes (FilesystemState.free_inode_count pend - 1) pend) s')
    (λ _ s', still s') s.
Proof using Hgs.
  intros HS. unfold allocate_inode. wp_steps. rewrite (session_groups _ _ _ HS).
  apply (wp_for_find _ _ (λ _ s', s' = s)); [done|..].
  - intros prior [k g] s' [rest Hp] ->. assert (groups s0 !! k = Some g) as Hg.
    { apply zip_seq_elem. rewrite Hp. apply elem_of_app. left. apply elem_of_app. right. by apply list_elem_of_singleton. }
    destruct (group_elem g (list_elem_of_lookup_2 _ _ _ Hg)) as (_ & Hib & _). wp_step.
    eapply wp_mono; [exact (session_read _ _ _ _ HS Hib)|cbv beta|done].
    intros x s' (-> & -> & Hx & Hbx). destruct (free_inode_bit g _) as [local|] eqn:E; [|by wp_steps].
    apply find_Some in E as [Hbit Hrange]. bool_simpl. apply elem_of_seq in Hrange.
    wp_step. unfold on_format. apply wp_lift, wpo_map_err.
    destruct (bitmap_set _ _ _) as [bitmap|e|] eqn:Eset; cbn [wpo]; [|left_open|by apply bitmap_set_no_abort in Eset].
    wp_step. eapply wp_mono; [apply (session_stage _ _ _ _ _ _ _ _ _ HS);
      [by eapply bitmap_set_block|by eapply bitmap_set_bytes]|cbv beta|left_open].
    intros _ s1 [HS1 _]. wp_step. eapply wp_mono; [by apply take_inode|cbv beta|left_open].
    intros _ s2 [_ HS2]. wp_steps; [|done]. match goal with H : Some _ = Some _ |- _ => injection H as <- end.
    eexists. split; [|exact HS2]. exists k, g, local, bitmap. split_and!; try done; lia.
  - intros s' ->. wp_steps; [done|]. left_open.
Qed.

Lemma free_data_block_spec v pend s physical : S v pend s →
  wp (free_data_block physical)
    (λ _ s', ∃ v', block_freed (groups s0) v v' physical ∧
       S v' (with_free_blocks (FilesystemState.free_block_count pend + 1) pend) s')
    (λ _ s', still s') s.
Proof using Hgs.
  intros HS. unfold free_data_block. wp_steps; [|left_open]. rewrite (session_groups _ _ _ HS) in *.
  match goal with H : List.find _ _ = Some _ |- _ => rename H into Hf end.
  destruct (group_elem a (proj2 (find_Some _ _ _ Hf))) as (Hbb & _).
  eapply wp_mono; [exact (session_read _ _ _ _ HS Hbb)|cbv beta|done]. intros x s' (-> & -> & Hx & Hbx).
  wp_step. unfold on_format. apply wp_lift, wpo_map_err.
  destruct (bitmap_set _ _ _) as [bitmap|e|] eqn:Eset; cbn [wpo]; [|left_open|by apply bitmap_set_no_abort in Eset].
  wp_step. eapply wp_mono; [apply (session_stage _ _ _ _ _ _ _ _ _ HS);
    [by eapply bitmap_set_block|by eapply bitmap_set_bytes]|cbv beta|left_open].
  intros _ s1 [HS1 _]. eapply wp_mono; [by apply give_block|cbv beta|left_open].
  intros _ s2 HS2. eexists. split; [|exact HS2]. by exists a, bitmap.
Qed.

Definition with_more_free (n : nat) (pend : FilesystemState.t) : FilesystemState.t :=
  with_free_blocks (FilesystemState.free_block_count pend + Z.of_nat n) pend.

Lemma blocks_freed_app v ps v1 qs v2 : blocks_freed (groups s0) v ps v1 → blocks_freed (groups s0) v1 qs v2 → blocks_freed (groups s0) v (ps ++ qs) v2.
Proof using.
  intros H1 H2. induction H2 as [|v1 qs v2 p v3 _ IH Hp]; [by rewrite app_nil_r|].
  rewrite app_assoc. eapply bf_snoc; [by apply IH|done].
Qed.

Lemma more_free_add n k pend : with_more_free k (with_more_free n pend) = with_more_free (n + k) pend.
Proof using. unfold with_more_free, with_free_blocks. cbn. f_equal. lia. Qed.

Lemma more_free_0 pend : with_more_free 0 pend = pend.
Proof using. unfold with_more_free, with_free_blocks. destruct pend. cbn. f_equal. lia. Qed.

Lemma free_blocks_spec ps v pend s : S v pend s →
  wp (for_each ps free_data_block)
    (λ _ s', ∃ v', blocks_freed (groups s0) v ps v' ∧ S v' (with_more_free (length ps) pend) s')
    (λ _ s', still s') s.
Proof using Hgs.
  intros HS. apply (wp_for_each _ _ (λ prior s', ∃ v', blocks_freed (groups s0) v prior v' ∧ S v' (with_more_free (length prior) pend) s')).
  - exists v. split; [constructor|]. by rewrite more_free_0.
  - intros prior p s' _ (v1 & Hf & HS1). eapply wp_mono; [by apply (free_data_block_spec v1)|cbv beta|done].
    intros _ s2 (v2 & Hp & HS2). exists v2. split; [by eapply bf_snoc|].
    rewrite length_app, <- more_free_add. exact HS2.
  - done.
Qed.

Lemma extent_blocks_snoc es e : extent_blocks (es ++ [e]) =
  extent_blocks es ++ seqZ (Extent.physical_first_block e) (Extent.length_blocks e).
Proof using. unfold extent_blocks. rewrite fmap_app, concat_app. cbn. by rewrite app_nil_r. Qed.

Lemma free_extents_spec es v pend s : S v pend s →
  wp (for_each es (λ extent,
        stop ← on_format (Extent.physical_end extent);
        for_each (range (Extent.physical_first_block extent) stop) free_data_block))
    (λ _ s', ∃ v', blocks_freed (groups s0) v (extent_blocks es) v' ∧ S v' (with_more_free (length (extent_blocks es)) pend) s')
    (λ _ s', still s') s.
Proof using Hgs.
  intros HS. apply (wp_for_each _ _ (λ prior s', ∃ v', blocks_freed (groups s0) v (extent_blocks prior) v' ∧
    S v' (with_more_free (length (extent_blocks prior)) pend) s')).
  - exists v. split; [constructor|]. by rewrite more_free_0.
  - intros prior e s' _ (v1 & Hf & HS1). unfold on_format, Extent.physical_end. wp_step. apply wp_lift, wpo_map_err.
    wp_step; [|left_open]. match goal with H : checked_add _ _ _ = Some _ |- _ => apply checked_add_Some in H as [-> _] end.
    unfold range. rewrite Z.add_simpl_l. eapply wp_mono; [by apply (free_blocks_spec _ v1)|cbv beta|done].
    intros _ s2 (v2 & Hp & HS2). exists v2. rewrite extent_blocks_snoc. split; [by eapply blocks_freed_app|].
    rewrite length_app, <- more_free_add. exact HS2.
  - done.
Qed.

Lemma free_inode_and_blocks_spec v pend s node inode : S v pend s →
  wp (free_inode_and_blocks node inode)
    (λ _ s', ∃ v', inode_freed (groups s0) v v' node inode ∧
       S v' (with_free_inodes (FilesystemState.free_inode_count pend + 1)
               (with_more_free (length (extent_blocks (Inode.used_extents inode))) pend)) s')
    (λ _ s', still s') s.
Proof using Hgs.
  intros HS. unfold free_inode_and_blocks. wp_step. eapply wp_mono; [by apply (free_extents_spec _ v pend)|cbv beta|done].
  intros _ s1 (v1 & Hf & HS1). wp_step. eapply wp_mono; [by apply (write_inode_spec v1)|cbv beta|done].
  intros _ s2 (x & d & i & Hx & Hl & Hb & _ & HS2). assert (x = zeros INODE_BYTES) as -> by (symmetry; exact (inj Ok _ _ Hx)).
  wp_step. unfold inode_location. apply wp_reads. rewrite (session_groups _ _ _ HS2), Hl. cbn [wpo]. wp_step.
  destruct (inode_location_elem _ _ _ _ Hl) as [Hd _]. destruct (group_elem d Hd) as (_ & Hib & _).
  eapply wp_mono; [exact (session_read _ _ _ _ HS2 Hib)|cbv beta|done]. intros b s' (-> & -> & Hxb & Hbx).
  wp_step. unfold on_format. apply wp_lift, wpo_map_err.
  destruct (bitmap_set _ _ _) as [bitmap|e|] eqn:Eset; cbn [wpo]; [|left_open|by apply bitmap_set_no_abort in Eset].
  wp_step. eapply wp_mono; [apply (session_stage _ _ _ _ _ _ _ _ _ HS2);
    [by eapply bitmap_set_block|by eapply bitmap_set_bytes]|cbv beta|left_open].
  intros _ s3 [HS3 _]. eapply wp_mono; [by apply give_inode|cbv beta|left_open].
  intros _ s4 HS4. eexists. split; [|exact HS4]. by exists v1, d, i, bitmap.
Qed.
End steps.
