(* ===== verification/Atomicity.v ===== *)
(** * Mutations as atomic operations

    A mutation opens a transaction, changes the view of the volume step by step,
    and commits.  If it succeeds, the device holds the new view; if it fails before
    the commit, nothing has changed; if the commit itself fails, every later
    recovery finds the old contents or the new ones. *)

From Stdlib Require Import ZArith Lia.
From stdpp Require Import base list numbers option.
From S2P Require Import Prelude NullfsBytes NullfsPhase3 NullfsSuperblock NullfsRecord NullfsInode.
From S2P Require Import NullfsDirectory NullfsAllocation BlockDevice Journal JournalDisk JournalSteps.
From S2P Require Import JournalRecovery JournalProps Volume Mutation Extents VolumeReads Session.
From S2P Require Import MutationSteps Mount.

Open Scope Z_scope.

Section static.
Context {D : Type} {HD : BlockDevice D}.
Notation fs := (Filesystem D).
Notation Op := (M fs FsError.t).

(** What a commit does not touch. *)
Definition same_volume (s s' : fs) : Prop :=
  superblock s' = superblock s ∧ groups s' = groups s ∧ mount_mode s' = mount_mode s ∧
  open_handles s' = open_handles s ∧ next_handle_id s' = next_handle_id s ∧
  recovery_overlay s' = recovery_overlay s.

#[global] Instance same_volume_preorder : PreOrder same_volume.
Proof. split; [by intros s; split_and!|]. intros s1 s2 s3 H1 H2. unfold same_volume in *. intuition congruence. Qed.

Definition keeps {A} (c : Op A) : Prop := ∀ s, same_volume s (c s).2.

Lemma keeps_ret {A} (a : A) : keeps (mret a).
Proof. by intros s. Qed.
Lemma keeps_lift {A} (o : outcome FsError.t A) : keeps (lift o).
Proof. by intros s. Qed.
Lemma keeps_get : keeps get.
Proof. by intros s. Qed.
Lemma keeps_reads {A} (f : fs → outcome FsError.t A) : keeps (reads f).
Proof. by intros s. Qed.
Lemma keeps_modify f : (∀ s, same_volume s (f s)) → keeps (modify f).
Proof. intros H s. apply H. Qed.
Lemma keeps_bind {A B} (c : Op A) (k : A → Op B) : keeps c → (∀ a, keeps (k a)) → keeps (a ← c; k a).
Proof.
  intros Hc Hk s. specialize (Hc s). unfold mbind, M_bind. destruct (c s) as [[a|e|] s']; [|done..].
  etrans; [exact Hc|apply Hk].
Qed.
Lemma keeps_device {A} (c : M D BlockDeviceError.t A) : keeps (on_device c).
Proof. intros s. unfold on_device, zoom. by destruct (c (device s)). Qed.
Lemma keeps_try {A B} (c : Op A) (ok : A → Op B) err : keeps c → (∀ a, keeps (ok a)) → (∀ e, keeps (err e)) →
  keeps (try_catch c ok err).
Proof.
  intros Hc Ho He s. specialize (Hc s). unfold try_catch. destruct (c s) as [[a|e|] s']; [..|done].
  - etrans; [exact Hc|apply Ho].
  - etrans; [exact Hc|apply He].
Qed.
End static.

Lemma wp_keeps {D A} (c : M (Filesystem D) FsError.t A) : keeps c → ∀ s, (c s).1 ≠ Abort →
  wp c (λ _ s', same_volume s s') (λ _ s', same_volume s s') s.
Proof. intros Hk s Hna. specialize (Hk s). unfold wp. by destruct (c s) as [[] ?]. Qed.

Create HintDb keeps.
#[export] Hint Resolve keeps_ret keeps_lift keeps_get keeps_reads keeps_device : keeps.

(** Walk through an operation. *)
Ltac keeps :=
  repeat match goal with
  | |- ∀ _, _ => intros ?
  | |- keeps (mbind _ _) => apply keeps_bind
  | |- keeps (try_catch _ _ _) => apply keeps_try
  | |- keeps (modify _) => apply keeps_modify; intros; split_and!; reflexivity
  | |- keeps (match ?x with _ => _ end) => destruct x
  | |- keeps _ => solve [auto with keeps]
  end.

Section commit.
Context {D : Type} {HD : BlockDevice D}.
Notation fs := (Filesystem D).

Lemma write_entries_keeps id ups : ∀ index tags, keeps (D := D) (write_entries id index ups tags).
Proof.
  induction ups as [|u ups IH]; intros index tags; cbn [write_entries]; unfold on_format, ensure_home_target_or_state;
    keeps.
Qed.
#[local] Hint Resolve write_entries_keeps : keeps.

Lemma write_home_keeps pairs : keeps (D := D) (write_home pairs).
Proof. unfold write_home. induction pairs as [|p pairs IH]; cbn [for_each]; keeps. Qed.
#[local] Hint Resolve write_home_keeps : keeps.

Lemma commit_keeps : keeps (D := D) commit_transaction.
Proof.
  unfold commit_transaction, commit_updates, ensure_writable, on_format. keeps.
  intros s. by destruct (Transaction.stage _ _ _).
Qed.
End commit.

(** ** The head of a volume *)

(** A block that holds the descriptors of the groups. *)
Definition descriptors_hold (sb : Superblock.t) (gs : list AllocationGroupDescriptor.t) (x : list Z) : Prop := ∃ table,
  AllocationGroupTable.decode x sb = Ok table ∧
  take (Z.to_nat (AllocationGroupTable.descriptor_count table)) (AllocationGroupTable.descriptors table) = gs.

(** What a superblock is read as, on a device large enough for the volume. *)
Definition reads_as (sb : Superblock.t) (x : list Z) (found : option Superblock.t) : Prop :=
  ∀ n, Superblock.capacity_blocks sb ≤ n / BLOCK_SIZE_U64 → ok_of (Superblock.decode x (Some n) ReadOnly) = found.

(** A mount finds the superblock and the groups. *)
Record head_holds (sb : Superblock.t) (gs : list AllocationGroupDescriptor.t) (h : disk) : Prop := {
  hh_typed : SuperblockCodec.typed sb;
  hh_valid : Superblock.validate sb None ReadOnly = Ok ();
  hh_superblock : ∃ primary backup, reads_as sb (h SUPERBLOCK_BLOCK) primary ∧
    reads_as sb (h PHASE3_BACKUP_SUPERBLOCK_BLOCK) backup ∧ found_superblock primary backup = Ok sb;
  hh_table : Superblock.first_descriptor_block sb = FIRST_DESCRIPTOR_BLOCK ∧ Superblock.descriptor_reservation_blocks sb = 1 ∧
    Superblock.allocation_group_count sb = Z.of_nat (length gs);
  hh_descriptors : descriptors_hold sb gs (h FIRST_DESCRIPTOR_BLOCK);
}.

Lemma head_ext sb gs h h' : SuperblockCodec.geometry sb → (∀ b, b < Superblock.filesystem_state_block sb → h' b = h b) →
  head_holds sb gs h → head_holds sb gs h'.
Proof.
  intros Hg Hh [Ht Hv Hs Hd Hgs]. rewrite (SuperblockCodec.geo_state _ Hg) in Hh. split; [done..| |done|].
  - by rewrite !Hh.
  - by rewrite Hh.
Qed.

Lemma decode_encoded sb x n : SuperblockCodec.typed sb → Superblock.encode sb = Ok x → Superblock.capacity_blocks sb ≤ n / BLOCK_SIZE_U64 →
  Superblock.decode x (Some n) ReadOnly = Ok sb.
Proof.
  intros Ht He Hn. rewrite (SuperblockCodec.sb_roundtrip sb x _ _ Ht He). apply SuperblockCodec.sb_encode_eq in He as [Hv _]; [|done].
  rewrite (proj2 (SuperblockCodec.validate_mode sb (Some n) ReadOnly)); [done|]. split; [done|].
  apply SuperblockCodec.validate_mode in Hv as (_ & Hf & _). split; [done|]. split; [done|]. by intros d [= <-].
Qed.

Lemma encoded_reads_as sb sb' x : SuperblockCodec.typed sb' → Superblock.encode sb' = Ok x →
  Superblock.capacity_blocks sb' = Superblock.capacity_blocks sb → reads_as sb x (Some sb').
Proof. intros Ht He Hc n Hn. by rewrite (decode_encoded sb' x n Ht He) by (by rewrite Hc). Qed.

Lemma found_same sb : found_superblock (Some sb) (Some sb) = Ok sb.
Proof. unfold found_superblock, select_superblock. rewrite bool_decide_true by done. by destruct (negb _). Qed.

Section atomic.
Context {D : Type} {HD : BlockDevice D} {torn : list Z → Prop} {HC : CrashSafe D torn}.
Notation fs := (Filesystem D).
Notation Op := (M fs FsError.t).
Context (sb : Superblock.t) (Hg : SuperblockCodec.geometry sb) (Hcap : Superblock.capacity_blocks sb ≤ u64_max).
Context (torn_control : ∀ y c, torn y → JournalControl.decode y ≠ Ok c).

(** A filesystem mounted for writing, between two operations. *)
Record ready (s : fs) (m : disk) (st : FilesystemState.t) : Prop := {
  rd_writable : writable sb s m st;
  rd_transaction : transaction s = None;
  rd_groups : Forall group_unsigned (groups s);
  rd_head : head_holds sb (groups s) m;
}.

(** What an operation does to the view and the pending state. *)
Definition effect (A : Type) : Type := A → disk → FilesystemState.t → Prop.

Section operation.
Context (s0 : fs) (m : disk) (st : FilesystemState.t).
Notation S := (session sb s0 m st).
Notation still := (open_still sb s0 m st).

Definition committed {A} (Q : effect A) (a : A) (s : fs) : Prop := ∃ v pend m' st',
  Q a v pend ∧ ready s m' st' ∧ same_volume s0 s ∧ agree sb m' v ∧ same_counts st' pend.

(** The commit of the view [v] with the state [pend] failed: a later recovery finds
    the old blocks [m], or blocks [h] with the view and the state. *)
Definition lost_commit (v : disk) (pend : FilesystemState.t) (s : fs) : Prop :=
  transaction s = None ∧ poisoned s = true ∧ same_volume s0 s ∧
  ∃ h st', agree sb h v ∧ FilesystemState.decode (h (Superblock.filesystem_state_block sb)) = Ok st' ∧
    same_counts st' pend ∧ (∀ b, b < Superblock.filesystem_state_block sb → h b = m b) ∧
    stands_for (torn := torn) sb (device s) [m; h].

Definition commit_lost {A} (Q : effect A) (s : fs) : Prop := ∃ a v pend, Q a v pend ∧ lost_commit v pend s.

(** Nothing has happened, or a commit was lost. *)
Definition undone {A} (Q : effect A) (s : fs) : Prop := s = s0 ∨ commit_lost Q s.

Lemma no_transaction (s : fs) : transaction s = None → set_transaction None s = s.
Proof using. intros H. destruct s. cbn in *. by subst. Qed.

Lemma same_volume_transaction tx (s : fs) : same_volume s (set_transaction tx s).
Proof using. by split_and!. Qed.

Lemma begin_session : ready s0 m st → wp begin_transaction (λ _ s, S m st s) (λ _ _, False) s0.
Proof using.
  intros [Hw Htx _]. pose proof Hw as [[_ _ _ _ Hst _ _] Hmode Hpoi Hov _].
  unfold begin_transaction, ensure_writable. wp_step. apply wp_reads. rewrite Hpoi, bool_decide_true by done. cbn [wpo].
  wp_steps. rewrite Htx, Hst. wp_steps; [|done]. match goal with H : Some st = Some _ |- _ => injection H as <- end.
  split; [by eexists|..].
  - destruct Hw as [[] ? ? ? ?]. split; [by split|done..|]. intros tx [= <-].
    split; [done|done|apply Nat.le_0_l|apply NoDup_nil_2|..]; by intros u ?%not_elem_of_nil.
  - intros b. unfold block_seen. cbn. by rewrite Hov.
Qed.

Lemma start_session : ready s0 m st → wp start_mutation (λ _ s, S m st s) (λ _ _, False) s0.
Proof using.
  intros Hr. pose proof Hr as [[_ Hmode Hpoi _ _] Htx _]. unfold start_mutation.
  unfold ensure_writable. wp_step. apply wp_reads. rewrite Hpoi, bool_decide_true by done. cbn [wpo]. wp_steps.
  { bool_simpl. rewrite Htx in *. by match goal with H : is_Some None |- _ => destruct H end. }
  by apply begin_session.
Qed.

Lemma committed_head tx m0 b : tx_ok sb st tx → b < Superblock.filesystem_state_block sb → committed_home sb st tx m0 b = m0 b.
Proof using Hg.
  intros Htx Hb. unfold committed_home. rewrite decide_False by lia. rewrite staged_find.
  destruct (List.find _ _) as [u|] eqn:E; [|done]. apply find_some in E as [Hin Ht]. exfalso.
  unfold Transaction.targets in Ht. bool_simpl. pose proof (tx_home _ _ _ Htx u (proj2 (list_elem_of_In _ _) Hin)) as [Hu _].
  rewrite (SuperblockCodec.geo_first _ Hg) in Hu. rewrite (SuperblockCodec.geo_state _ Hg) in Hb.
  change PHASE3_FIRST_ALLOCATABLE_BLOCK with 150 in Hu. change PHASE3_FILESYSTEM_STATE_BLOCK with 19 in Hb. lia.
Qed.

Lemma commit_session {A} (Q : effect A) a v pend s : ready s0 m st → S v pend s → Q a v pend →
  wp (_ ← commit_transaction; mret a) (λ a s', committed Q a s') (λ _ s', undone Q s') s.
Proof using Hg Hcap torn_control.
  intros Hr HS HQ. destruct (session_transaction _ _ _ _ _ _ _ HS) as (tx & Htx & Hp & Hs).
  pose proof HS as [_ Hw Hv]. assert (same_volume s0 s) as Hsame by (rewrite Hs; apply same_volume_transaction).
  assert (∀ b, is_content sb b → committed_home sb st tx m b = v b) as Hnew.
  { intros b Hb. rewrite (commit_seen sb Hg st tx m s) by (done || apply Hw). apply Hv. }
  assert (∀ b, b < Superblock.filesystem_state_block sb → committed_home sb st tx m b = m b) as Hhead.
  { intros b Hb. apply committed_head; [by eapply wr_transaction|done]. }
  assert (∀ s', same_volume s s' → same_volume s0 s') as Htrans by (intros s' ?; by etrans).
  wp_step. eapply wp_mono; [apply wp_and; [apply (commit_transaction_spec sb Hg Hcap torn_control s m st tx Hw Htx)|
    apply (wp_keeps commit_transaction commit_keeps)]|cbv beta|cbv beta].
  - apply (wp_no_abort _ _ _ _ (commit_transaction_spec sb Hg Hcap torn_control s m st tx Hw Htx)).
  - intros _ s' [(_ & m' & Hw' & Htx' & Hm') Hk]. wp_steps. apply Htrans in Hk. exists v, pend, m', (next_state st tx).
    split; [done|]. split; [split; [done..| |]; destruct Hk as (_ & -> & _); [apply Hr|]|].
    { eapply head_ext; [done| |apply Hr]. intros b Hb. rewrite Hm' by (apply content_kept; [done|by right]). by apply Hhead. }
    split; [done|]. split; [intros b Hb; rewrite Hm' by (by apply content_kept); by apply Hnew|]. by rewrite <- Hp.
  - intros e s' [[_ _ Htx' _ _ [Hok Hdisk] [[Hpoi (st' & Hdec & Hcnt)]| ->]] Hk].
    2:{ left. rewrite Hs. apply (no_transaction s0), Hr. }
    right. exists a, v, pend. split; [done|]. split; [done|]. split; [done|]. split; [by apply Htrans|].
    exists (committed_home sb st tx m), st'. split; [exact Hnew|]. split; [done|]. split; [by rewrite <- Hp|].
    split; [exact Hhead|]. split; [done|]. intros mc Hc.
    destruct (Hdisk mc Hc); eexists; (split; [|eassumption]); [by left|by right; left].
Qed.

Lemma commit_session_unit (Q : effect unit) v pend s : ready s0 m st → S v pend s → Q () v pend →
  wp commit_transaction (λ _ s', committed Q () s') (λ _ s', undone Q s') s.
Proof using Hg Hcap torn_control.
  intros Hr HS HQ. pose proof (commit_session Q () v pend s Hr HS HQ) as H. revert H. unfold wp, mbind, M_bind.
  by destruct (commit_transaction s) as [[]].
Qed.

(** An operation of which, whatever happens, all or nothing remains: it returns
    with its effect on the device; or it fails and the filesystem is as before; or
    its commit fails, and every later recovery finds the old contents or the new
    ones. *)
Definition atomic {A} (Q : effect A) (c : Op A) : Prop :=
  wp c (λ a s, committed Q a s) (λ _ s, undone Q s) s0.

(** A mutation, of which a result [P] is known. *)
Lemma mutation_intro {A} (Q : effect A) (P : A → fs → Prop) (c : Op A) : ready s0 m st →
  (∀ s, S m st s → wp c P (λ _ s', still s' ∨ undone Q s') s) →
  wp (_ ← start_mutation; finish_mutation c) P (λ _ s, undone Q s) s0.
Proof using.
  intros Hr Hc. unfold finish_mutation. wp_step. eapply wp_mono; [by apply start_session|cbv beta|done].
  intros _ s HS. wp_step. eapply wp_mono; [by apply Hc|done|cbv beta]. intros e s' [(v & pend & HS')|Hl]; wp_steps.
  - left. destruct (session_transaction _ _ _ _ _ _ _ HS') as (tx & _ & _ & ->).
    apply (no_transaction s0), Hr.
  - destruct Hl as [->|Hl]; [left; apply (no_transaction s0), Hr|right].
    destruct Hl as (a & v & pend & HQ & Htx & H). exists a, v, pend. by rewrite no_transaction.
Qed.

Lemma atomic_intro {A} (Q : effect A) (c : Op A) : ready s0 m st →
  (∀ s, S m st s → wp c (λ a s', committed Q a s') (λ _ s', still s' ∨ undone Q s') s) →
  atomic Q (_ ← start_mutation; finish_mutation c).
Proof using. apply mutation_intro. Qed.

Lemma atomic_mono {A} (Q Q' : effect A) (c : Op A) : (∀ a v pend, Q a v pend → Q' a v pend) → atomic Q c → atomic Q' c.
Proof using.
  intros HQ Hc. eapply wp_mono; [exact Hc|cbv beta|cbv beta].
  - intros a s (v & pend & m' & st' & Ha & H). exists v, pend, m', st'. auto.
  - intros e s [->|(a & v & pend & Ha & H)]; [by left|]. right. exists a, v, pend. auto.
Qed.
End operation.
End atomic.
