(* ===== verification/Layout.v ===== *)
(** * The layout of a volume

    Where an allocation group keeps its bitmaps, its inodes and its data, and that
    these places are apart: within a group by the checks of its descriptor, between
    groups because each has its own range of blocks. *)

From Stdlib Require Import ZArith Lia.
From stdpp Require Import base list numbers option.
From S2P Require Import Prelude NullfsBytes NullfsPhase3 NullfsSuperblock NullfsRecord NullfsInode.
From S2P Require Import NullfsDirectory NullfsAllocation BlockDevice Journal JournalDisk JournalSteps.
From S2P Require Import JournalRecovery JournalProps Volume Mutation Extents VolumeReads Session.
From S2P Require Import MutationSteps.

Open Scope Z_scope.

Notation group := AllocationGroupDescriptor.t.
Notation g_start := AllocationGroupDescriptor.group_start_block.
Notation g_blocks := AllocationGroupDescriptor.block_bitmap_block.
Notation g_inodes := AllocationGroupDescriptor.inode_bitmap_block.
Notation g_table := AllocationGroupDescriptor.inode_table_first_block.
Notation g_data := AllocationGroupDescriptor.first_data_block.
Notation g_end := AllocationGroupDescriptor.data_end_block.

(** The group with index [k]: its checked geometry, with the bitmaps before the
    data as the formatter places them. *)
Record group_layout (sb : Superblock.t) (k : Z) (g : group) : Prop := {
  gl_start : g_start g = k * Superblock.allocation_group_blocks sb;
  gl_end : g_end g ≤ (k + 1) * Superblock.allocation_group_blocks sb;
  gl_capacity : g_end g ≤ Superblock.capacity_blocks sb;
  gl_count : AllocationGroupDescriptor.group_block_count g = g_end g - g_start g;
  gl_inodes_in_group : AllocationGroupDescriptor.inodes_in_group g = PHASE2_INODES_PER_GROUP;
  gl_blocks : Z.max (g_start g) (Superblock.first_allocatable_block sb) ≤ g_blocks g < g_data g;
  gl_inodes : Z.max (g_start g) (Superblock.first_allocatable_block sb) ≤ g_inodes g < g_data g;
  gl_table : Z.max (g_start g) (Superblock.first_allocatable_block sb) ≤ g_table g;
  gl_data : g_table g + PHASE2_INODE_TABLE_BLOCKS ≤ g_data g;
  gl_data_end : g_data g ≤ g_end g;
  gl_bitmaps_apart : g_blocks g ≠ g_inodes g;
  gl_blocks_apart : ¬ g_table g ≤ g_blocks g < g_table g + PHASE2_INODE_TABLE_BLOCKS;
  gl_inodes_apart : ¬ g_table g ≤ g_inodes g < g_table g + PHASE2_INODE_TABLE_BLOCKS;
}.

Definition volume_layout (sb : Superblock.t) (gs : list group) : Prop :=
  ∀ k g, gs !! k = Some g → group_layout sb (Z.of_nat k) g.

(** A validated descriptor has this layout if its bitmaps precede its data. *)
Lemma validate_layout sb g : AllocationGroupDescriptor.typed g → 0 ≤ Superblock.allocation_group_blocks sb →
  AllocationGroupDescriptor.validate g sb = Ok () → g_blocks g < g_data g → g_inodes g < g_data g →
  group_layout sb (AllocationGroupDescriptor.group_index g) g.
Proof.
  intros Ht Hagb Hv Hb Hi. unfold AllocationGroupDescriptor.validate in Hv.
  apply bind_unit_Ok in Hv as [_ Hv].
  apply bind_Ok_iff in Hv as (start & Hstart & Hv). apply bind_Ok_iff in Hv as (remaining & Hrem & Hv).
  destruct (checked_mul _ _ _) as [x|] eqn:E1 in Hstart; cbn in Hstart; [|done]. injection Hstart as ->.
  destruct (checked_sub _ _) as [y|] eqn:E2 in Hrem; cbn in Hrem; [|done]. injection Hrem as ->.
  apply checked_mul_Some in E1 as [-> _]. apply checked_sub_Some in E2 as [-> Hle].
  apply bind_unit_Ok in Hv as [H1%err_if_Ok_iff Hv].
  apply bind_Ok_iff in Hv as (ge & Hge & Hv). apply bind_Ok_iff in Hv as (te & Hte & Hv%err_if_Ok_iff).
  destruct (checked_add _ _ _) as [x|] eqn:E1 in Hge; cbn in Hge; [|done]. injection Hge as ->.
  destruct (checked_add _ _ _) as [y|] eqn:E2 in Hte; cbn in Hte; [|done]. injection Hte as ->.
  apply checked_add_Some in E1 as [-> _]. apply checked_add_Some in E2 as [-> _].
  rewrite !orb_false_iff, !negb_false_iff in H1. rewrite !orb_false_iff, !andb_false_iff in Hv. destruct_and!. bool_simpl.
  unfold PHASE2_INODE_TABLE_BLOCKS, PHASE2_INODES_PER_GROUP in *.
  repeat match goal with H : _ ∨ _ |- _ => destruct H end; bool_simpl; split; rewrite ?Z.mul_add_distr_r;
    unfold PHASE2_INODE_TABLE_BLOCKS; done || lia.
Qed.

(** ** Regions *)

Section layout.
Context (sb : Superblock.t) (gs : list group) (HL : volume_layout sb gs).
Context (Hagb : 0 < Superblock.allocation_group_blocks sb).

(** A block of the range of a group. *)
Definition within (g : group) (b : Z) : Prop := g_start g ≤ b < g_end g.

Lemma within_index k1 k2 g1 g2 b : gs !! k1 = Some g1 → gs !! k2 = Some g2 → within g1 b → within g2 b → k1 = k2.
Proof using HL Hagb.
  intros H1%HL H2%HL [Hs1 He1] [Hs2 He2].
  rewrite (gl_start _ _ _ H1) in Hs1. rewrite (gl_start _ _ _ H2) in Hs2.
  pose proof (gl_end _ _ _ H1). pose proof (gl_end _ _ _ H2). nia.
Qed.

Lemma within_group k1 k2 g1 g2 b : gs !! k1 = Some g1 → gs !! k2 = Some g2 → within g1 b → within g2 b → g1 = g2.
Proof using HL Hagb.
  intros H1 H2 W1 W2. assert (k1 = k2) as -> by (by eapply within_index). congruence.
Qed.

(** The blocks that hold file and directory contents. *)
Definition data_block (b : Z) : Prop := ∃ k g, gs !! k = Some g ∧ g_data g ≤ b < g_end g.

Lemma data_within k g b : gs !! k = Some g → g_data g ≤ b < g_end g → within g b.
Proof using HL.
  intros Hk%HL Hb. pose proof (gl_blocks _ _ _ Hk). unfold within. lia.
Qed.

Lemma blocks_within k g : gs !! k = Some g → within g (g_blocks g).
Proof using HL. intros Hk%HL. pose proof (gl_blocks _ _ _ Hk). pose proof (gl_data_end _ _ _ Hk). unfold within. lia. Qed.

Lemma inodes_within k g : gs !! k = Some g → within g (g_inodes g).
Proof using HL. intros Hk%HL. pose proof (gl_inodes _ _ _ Hk). pose proof (gl_data_end _ _ _ Hk). unfold within. lia. Qed.

Lemma table_within k g b : gs !! k = Some g → g_table g ≤ b < g_table g + PHASE2_INODE_TABLE_BLOCKS → within g b.
Proof using HL.
  intros Hk%HL Hb. pose proof (gl_table _ _ _ Hk). pose proof (gl_data _ _ _ Hk). pose proof (gl_data_end _ _ _ Hk).
  unfold within. lia.
Qed.

(** The four kinds of blocks are apart. *)
Lemma data_not_blocks b k g : data_block b → gs !! k = Some g → b ≠ g_blocks g.
Proof using HL Hagb.
  intros (k' & g' & Hk' & Hb) Hk ->. assert (g' = g) as ->.
  { eapply (within_group k' k); [done..|by eapply data_within|by eapply blocks_within]. }
  pose proof (gl_blocks _ _ _ (HL _ _ Hk)). lia.
Qed.

Lemma data_not_inodes b k g : data_block b → gs !! k = Some g → b ≠ g_inodes g.
Proof using HL Hagb.
  intros (k' & g' & Hk' & Hb) Hk ->. assert (g' = g) as ->.
  { eapply (within_group k' k); [done..|by eapply data_within|by eapply inodes_within]. }
  pose proof (gl_inodes _ _ _ (HL _ _ Hk)). lia.
Qed.

Lemma data_not_table b k g : data_block b → gs !! k = Some g → ¬ g_table g ≤ b < g_table g + PHASE2_INODE_TABLE_BLOCKS.
Proof using HL Hagb.
  intros (k' & g' & Hk' & Hb) Hk Ht. assert (g' = g) as ->.
  { eapply (within_group k' k); [done..|by eapply data_within|by eapply table_within]. }
  pose proof (gl_data _ _ _ (HL _ _ Hk)). lia.
Qed.

Lemma blocks_not_inodes k1 g1 k2 g2 : gs !! k1 = Some g1 → gs !! k2 = Some g2 → g_blocks g1 ≠ g_inodes g2.
Proof using HL Hagb.
  intros H1 H2 E. assert (g1 = g2) as ->.
  { eapply (within_group k1 k2); [done..|by eapply blocks_within|rewrite E; by eapply inodes_within]. }
  by apply (gl_bitmaps_apart _ _ _ (HL _ _ H2)).
Qed.

Lemma blocks_not_table k1 g1 k2 g2 : gs !! k1 = Some g1 → gs !! k2 = Some g2 →
  ¬ g_table g2 ≤ g_blocks g1 < g_table g2 + PHASE2_INODE_TABLE_BLOCKS.
Proof using HL Hagb.
  intros H1 H2 Ht. assert (g1 = g2) as ->.
  { eapply (within_group k1 k2); [done..|by eapply blocks_within|by eapply table_within]. }
  by apply (gl_blocks_apart _ _ _ (HL _ _ H2)).
Qed.

Lemma inodes_not_table k1 g1 k2 g2 : gs !! k1 = Some g1 → gs !! k2 = Some g2 →
  ¬ g_table g2 ≤ g_inodes g1 < g_table g2 + PHASE2_INODE_TABLE_BLOCKS.
Proof using HL Hagb.
  intros H1 H2 Ht. assert (g1 = g2) as ->.
  { eapply (within_group k1 k2); [done..|by eapply inodes_within|by eapply table_within]. }
  by apply (gl_inodes_apart _ _ _ (HL _ _ H2)).
Qed.

Lemma blocks_inj k1 g1 k2 g2 : gs !! k1 = Some g1 → gs !! k2 = Some g2 → g_blocks g1 = g_blocks g2 → k1 = k2.
Proof using HL Hagb.
  intros H1 H2 E. eapply within_index; [done..|by eapply blocks_within|rewrite E; by eapply blocks_within].
Qed.

Lemma inodes_inj k1 g1 k2 g2 : gs !! k1 = Some g1 → gs !! k2 = Some g2 → g_inodes g1 = g_inodes g2 → k1 = k2.
Proof using HL Hagb.
  intros H1 H2 E. eapply within_index; [done..|by eapply inodes_within|rewrite E; by eapply inodes_within].
Qed.
(** ** Inode slots *)

Lemma location_inv n d i : 0 ≤ n → inode_location_in gs n = Ok (d, i) →
  1 ≤ n ∧ gs !! Z.to_nat ((n - 1) / 256) = Some d ∧ Z.of_nat i = (n - 1) mod 256.
Proof using.
  intros Hn H. unfold inode_location_in, PHASE2_INODES_PER_GROUP in H. apply bind_unit_Ok in H as [H0%err_if_Ok_iff H].
  bool_simpl. destruct (gs !! _) as [g|] eqn:E; cbn in H; [|done]. injection H as -> <-.
  split_and!; [lia|done|]. rewrite Z2Nat.id; [done|]. by apply Z.mod_pos_bound.
Qed.

Lemma location_index n d i : 0 ≤ n → inode_location_in gs n = Ok (d, i) → (i < 256)%nat.
Proof using. intros Hn (_ & _ & Hi)%location_inv; [|done]. pose proof (Z.mod_pos_bound (n - 1) 256 ltac:(lia)). lia. Qed.

Lemma inode_block_eq d i : inode_block d i = g_table d + Z.of_nat i / 16 ∧
  Z.of_nat (inode_offset d i) = (Z.of_nat i mod 16) * 256.
Proof using.
  unfold inode_block, inode_offset, inode_slot, INODE_BYTES. cbn [fst snd].
  rewrite Nat2Z.inj_mod, Nat2Z.inj_div, BLOCK_SIZE_Z, Nat2Z.inj_mul. change (Z.of_nat 256) with 256.
  change 4096 with (16 * 256). rewrite Z.div_mul_cancel_r, Zmult_mod_distr_r by lia. done.
Qed.

Lemma inode_block_table d i : (i < 256)%nat → g_table d ≤ inode_block d i < g_table d + PHASE2_INODE_TABLE_BLOCKS.
Proof using.
  intros Hi. destruct (inode_block_eq d i) as [-> _]. unfold PHASE2_INODE_TABLE_BLOCKS.
  pose proof (Z.div_pos (Z.of_nat i) 16). assert (Z.of_nat i / 16 < 16) by (apply Z.div_lt_upper_bound; lia). lia.
Qed.

(** Different inodes have different slots. *)
Lemma slots_apart n1 d1 i1 n2 d2 i2 : 0 ≤ n1 → 0 ≤ n2 → n1 ≠ n2 →
  inode_location_in gs n1 = Ok (d1, i1) → inode_location_in gs n2 = Ok (d2, i2) →
  inode_block d1 i1 = inode_block d2 i2 →
  (inode_offset d1 i1 + INODE_BYTES ≤ inode_offset d2 i2)%nat ∨
  (inode_offset d2 i2 + INODE_BYTES ≤ inode_offset d1 i1)%nat.
Proof using HL Hagb.
  intros H1 H2 Hne L1 L2 Hb.
  pose proof (inode_block_table d1 i1 (location_index _ _ _ H1 L1)) as T1.
  pose proof (inode_block_table d2 i2 (location_index _ _ _ H2 L2)) as T2.
  apply location_inv in L1 as (? & G1 & I1); [|done]. apply location_inv in L2 as (? & G2 & I2); [|done].
  assert (Z.to_nat ((n1 - 1) / 256) = Z.to_nat ((n2 - 1) / 256)) as Hk.
  { eapply within_index; [exact G1|exact G2|eapply table_within; [exact G1|exact T1]|].
    rewrite Hb. eapply table_within; [exact G2|exact T2]. }
  rewrite Hk in G1. assert (d1 = d2) as -> by congruence.
  destruct (inode_block_eq d2 i1) as [B1 O1], (inode_block_eq d2 i2) as [B2 O2]. unfold INODE_BYTES.
  assert (0 ≤ (n1 - 1) / 256 ∧ 0 ≤ (n2 - 1) / 256) as [? ?] by (split; apply Z.div_pos; lia).
  pose proof (Z.div_mod (n1 - 1) 256 ltac:(lia)). pose proof (Z.div_mod (n2 - 1) 256 ltac:(lia)).
  pose proof (Z.div_mod (Z.of_nat i1) 16 ltac:(lia)). pose proof (Z.div_mod (Z.of_nat i2) 16 ltac:(lia)). lia.
Qed.

(** The bytes of a slot. *)
Definition inode_bytes (v : disk) (n : Z) : option (list Z) :=
  match inode_location_in gs n with
  | Ok (d, i) => Some (slice (inode_offset d i) INODE_BYTES (v (inode_block d i)))
  | _ => None
  end.

Definition seen_of (phase3 : bool) (n : Z) (b : option (list Z)) : outcome FsError.t Inode.t :=
  match inode_location_in gs n, b with
  | Ok (d, i), Some b =>
      _ ← err_if (u64_max <? inode_block d i) FsError.ArithmeticOverflow;
      decode_inode phase3 b
  | Err e, _ => Err e
  | _, _ => Abort
  end.

Lemma inode_seen_bytes v n :
  inode_seen sb gs v n = seen_of (Superblock.phase3_enabled sb) n (inode_bytes v n).
Proof using.
  unfold inode_seen, seen_of, inode_bytes. destruct (inode_location_in gs n) as [[d i]|e|]; [|done..].
  rewrite bind_Ok. done.
Qed.

Lemma inode_bytes_ext v v' n : 0 ≤ n →
  (∀ b k g, gs !! k = Some g → g_table g ≤ b < g_table g + PHASE2_INODE_TABLE_BLOCKS → v' b = v b) →
  inode_bytes v' n = inode_bytes v n.
Proof using.
  intros Hn Hv. unfold inode_bytes. destruct (inode_location_in gs n) as [[d i]|e|] eqn:E; [|done..].
  pose proof (location_index _ _ _ Hn E) as Hi. apply location_inv in E as (_ & Hk & _); [|done].
  rewrite (Hv _ _ _ Hk (inode_block_table d i Hi)). done.
Qed.
Lemma inode_bytes_put v n x n' d i : 0 ≤ n → 0 ≤ n' → inode_location_in gs n = Ok (d, i) →
  is_block (v (inode_block d i)) → length x = INODE_BYTES →
  inode_bytes (inode_put gs v n x) n' = if decide (n' = n) then Some x else inode_bytes v n'.
Proof using HL Hagb.
  intros Hn Hn' Hl Hb Hx. unfold inode_bytes, inode_put. rewrite Hl.
  destruct (inode_location_in gs n') as [[d' i']|e|] eqn:Hl'; [|by rewrite decide_False by (intros ->; congruence)..].
  pose proof (slot_within i) as Hw. unfold is_block in Hb.
  assert (inode_offset d i + INODE_BYTES ≤ BLOCK_SIZE)%nat as Ho by exact Hw.
  destruct (decide (n' = n)) as [->|Hne].
  - rewrite Hl in Hl'. injection Hl' as <- <-. unfold upd. rewrite decide_True by done.
    rewrite slice_put_same by lia. done.
  - unfold upd. destruct (decide _) as [Hbb|]; [|done]. f_equal. rewrite Hbb.
    destruct (slots_apart n' d' i' n d i) as [H|H]; [done..| |].
    + apply slice_put_before; lia.
    + apply slice_put_after; lia.
Qed.

(** A block outside the tables does not matter. *)
Lemma inode_bytes_upd v b x n : 0 ≤ n →
  (∀ k g, gs !! k = Some g → ¬ g_table g ≤ b < g_table g + PHASE2_INODE_TABLE_BLOCKS) →
  inode_bytes (upd v b x) n = inode_bytes v n.
Proof using.
  intros Hn Hb. apply inode_bytes_ext; [done|]. intros c k g Hk Hc. unfold upd. rewrite decide_False; [done|].
  intros ->. by apply (Hb k g).
Qed.

(** A slot written outside does not change the other blocks. *)
Lemma inode_put_other v n x b :
  (∀ d i, inode_location_in gs n = Ok (d, i) → b ≠ inode_block d i) → inode_put gs v n x b = v b.
Proof using.
  intros Hb. unfold inode_put. destruct (inode_location_in gs n) as [[d i]|e|]; [|done..].
  unfold upd. rewrite decide_False; [done|]. by apply Hb.
Qed.

Lemma inode_put_data v n x b : 0 ≤ n → data_block b → inode_put gs v n x b = v b.
Proof using HL Hagb.
  intros Hn Hb. apply inode_put_other. intros d i Hl ->. pose proof (location_index _ _ _ Hn Hl) as Hi.
  apply location_inv in Hl as (_ & Hk & _); [|done]. eapply data_not_table; [done|exact Hk|by apply inode_block_table].
Qed.

Lemma inode_put_blocks v n x k g : 0 ≤ n → gs !! k = Some g → inode_put gs v n x (g_blocks g) = v (g_blocks g).
Proof using HL Hagb.
  intros Hn Hg. apply inode_put_other. intros d i Hl E. pose proof (location_index _ _ _ Hn Hl) as Hi.
  apply location_inv in Hl as (_ & Hk & _); [|done]. eapply blocks_not_table; [exact Hg|exact Hk|rewrite E; by apply inode_block_table].
Qed.

Lemma inode_put_inodes v n x k g : 0 ≤ n → gs !! k = Some g → inode_put gs v n x (g_inodes g) = v (g_inodes g).
Proof using HL Hagb.
  intros Hn Hg. apply inode_put_other. intros d i Hl E. pose proof (location_index _ _ _ Hn Hl) as Hi.
  apply location_inv in Hl as (_ & Hk & _); [|done]. eapply inodes_not_table; [exact Hg|exact Hk|rewrite E; by apply inode_block_table].
Qed.
End layout.
