(* ===== verification/Ownership.v ===== *)
(** * Which inode owns which block

    The consistency of a volume: the inodes that are allocated, the blocks they
    map, each mapped once, the bitmaps that mark exactly those, and the free counts.
    The steps of the mutations change these one block or one inode at a time. *)

From Stdlib Require Import ZArith Lia.
From stdpp Require Import base list numbers option.
From S2P Require Import Prelude NullfsBytes NullfsPhase3 NullfsSuperblock NullfsRecord NullfsInode.
From S2P Require Import NullfsDirectory NullfsAllocation BlockDevice Journal JournalDisk JournalSteps.
From S2P Require Import JournalRecovery JournalProps Volume Mutation Extents VolumeReads Session.
From S2P Require Import MutationSteps Layout.

Open Scope Z_scope.

(** ** Counting *)

Lemma filter_ext_in {A} (P P' : A → Prop) `{!∀ x, Decision (P x), !∀ x, Decision (P' x)} (l : list A) :
  (∀ x, x ∈ l → P x ↔ P' x) → filter P l = filter P' l.
Proof.
  induction l as [|x l IH]; intros Hl; [done|]. rewrite !filter_cons.
  pose proof (Hl x ltac:(by left)) as Hx. rewrite IH by (intros y Hy; apply Hl; by right).
  destruct (decide (P x)), (decide (P' x)); tauto || done.
Qed.

Lemma count_one `{EqDecision A} (P P' : A → Prop) `{!∀ x, Decision (P x), !∀ x, Decision (P' x)} (l : list A) p :
  NoDup l → p ∈ l → P p → ¬ P' p → (∀ x, x ∈ l → x ≠ p → (P x ↔ P' x)) →
  length (filter P l) = S (length (filter P' l)).
Proof.
  induction 1 as [|x l Hx Hnd IH]; intros Hp HP HP' Heq; [by apply not_elem_of_nil in Hp|].
  rewrite !filter_cons. destruct (decide (x = p)) as [->|Hne].
  - rewrite decide_True, decide_False by done. cbn [length]. do 2 f_equal. apply filter_ext_in.
    intros y Hy. apply Heq; [by right|]. by intros ->.
  - assert (p ∈ l) as Hpl by (apply elem_of_cons in Hp as [?|?]; congruence).
    assert (length (filter P l) = S (length (filter P' l))) as HIH.
    { apply IH; try done. intros y Hy. apply Heq. by right. }
    pose proof (Heq x ltac:(by left) Hne) as Hxx.
    destruct (decide (P x)), (decide (P' x)); cbn [length]; try tauto. by f_equal.
Qed.

Definition total_of {A} (f : A → Z) (l : list A) : Z := foldr (λ x n, f x + n) 0 l.

Lemma total_of_change {A} (f f' : A → Z) l k x δ : l !! k = Some x → f' x = f x + δ →
  (∀ k' y, l !! k' = Some y → k' ≠ k → f' y = f y) → total_of f' l = total_of f l + δ.
Proof.
  unfold total_of. revert k. induction l as [|y l IH]; intros k Hk Hx Ho; [done|]. cbn [foldr].
  destruct k as [|k]; cbn in Hk.
  - injection Hk as ->. assert (foldr (λ x n, f' x + n) 0 l = foldr (λ x n, f x + n) 0 l) as ->; [|lia].
    assert (∀ j y, l !! j = Some y → f' y = f y) as Hl by (intros j y Hj; by apply (Ho (S j))).
    clear - Hl. induction l as [|y l IH]; cbn [foldr]; [done|]. rewrite (Hl 0%nat y eq_refl), IH; [done|].
    intros j z Hj. by apply (Hl (S j)).
  - rewrite (Ho 0%nat y) by done. rewrite (IH k); [lia|done..|]. intros j z Hj Hne. apply (Ho (S j)); [done|congruence].
Qed.

Lemma length_filter_fmap {A B} (f : A → B) (P : B → Prop) `{!∀ x, Decision (P x)} (l : list A) :
  length (filter P (f <$> l)) = length (filter (λ x, P (f x)) l).
Proof.
  induction l as [|x l IH]; [done|]. rewrite fmap_cons, !filter_cons. destruct (decide (P (f x))); cbn [length]; congruence.
Qed.

Lemma total_of_snoc {A} (f : A → Z) l x : total_of f (l ++ [x]) = total_of f l + f x.
Proof. unfold total_of. induction l as [|y l IH]; cbn [app foldr] in *; lia. Qed.

Lemma total_of_ext {A} (f f' : A → Z) l : (∀ x, x ∈ l → f' x = f x) → total_of f' l = total_of f l.
Proof.
  intros Hf. unfold total_of. induction l as [|y l IH]; cbn [foldr]; [done|]. rewrite Hf by (by left). f_equal.
  apply IH. intros x Hx. apply Hf. by right.
Qed.

Section ownership.
Context (sb : Superblock.t) (gs : list group) (HL : volume_layout sb gs).
Context (Hagb : 0 < Superblock.allocation_group_blocks sb).

(** ** Block bitmaps *)

(** A data block marked used in its group's bitmap. *)
Definition marked (v : disk) (p : Z) : Prop := ∃ k g, gs !! k = Some g ∧ g_data g ≤ p < g_end g ∧
  bitmap_test (v (g_blocks g)) (block_bit g p) = Some true.

Definition free_in (g : group) (bitmap : list Z) : list Z :=
  filter (λ p, bitmap_test bitmap (block_bit g p) = Some false) (seqZ (g_data g) (g_end g - g_data g)).

Definition free_blocks (v : disk) : Z := total_of (λ g, Z.of_nat (length (free_in g (v (g_blocks g))))) gs.

Lemma marked_data v p : marked v p → data_block gs p.
Proof using. intros (k & g & Hk & Hp & _). by exists k, g. Qed.

Lemma marked_at v k g p : gs !! k = Some g → g_data g ≤ p < g_end g →
  marked v p ↔ bitmap_test (v (g_blocks g)) (block_bit g p) = Some true.
Proof using HL Hagb.
  intros Hk Hp. split; [|by exists k, g]. intros (k' & g' & Hk' & Hp' & Ht).
  assert (g' = g) as ->; [|done].
  eapply (within_group sb gs HL Hagb k' k); [done..|by eapply data_within|by eapply data_within].
Qed.

Lemma marked_ext v v' : (∀ k g, gs !! k = Some g → v' (g_blocks g) = v (g_blocks g)) →
  (∀ p, marked v' p ↔ marked v p) ∧ free_blocks v' = free_blocks v.
Proof using.
  intros Hv. split.
  - intros p. unfold marked. split; intros (k & g & Hk & Hp & Ht); exists k, g;
      (split; [done|split; [done|]]); [rewrite <- (Hv k g Hk)|rewrite (Hv k g Hk)]; done.
  - unfold free_blocks, total_of. assert (∀ g, g ∈ gs → v' (g_blocks g) = v (g_blocks g)) as Hg.
    { intros g [k Hk]%list_elem_of_lookup. by eapply Hv. }
    clear HL Hv. induction gs as [|g l IH]; cbn [foldr]; [done|]. rewrite Hg by (by left). f_equal.
    apply IH. intros g' ?. apply Hg. by right.
Qed.

(** Changing the bit of one data block. *)
(** The bits that stand for no data block: the metadata of the group is marked, and
    nothing is marked after its end. *)
Definition blocks_framed (g : group) (bitmap : list Z) : Prop :=
  (∀ p, g_start g ≤ p < g_data g → bitmap_test bitmap (block_bit g p) = Some true) ∧
  (∀ bit, (Z.to_nat (g_end g - g_start g) ≤ bit)%nat → bitmap_test bitmap bit ≠ Some true).
Definition inodes_framed (bitmap : list Z) : Prop := ∀ bit, (256 ≤ bit)%nat → bitmap_test bitmap bit ≠ Some true.
Definition framed (v : disk) : Prop := ∀ k g, gs !! k = Some g →
  blocks_framed g (v (g_blocks g)) ∧ inodes_framed (v (g_inodes g)).

Lemma framed_ext v v' : (∀ k g, gs !! k = Some g → v' (g_blocks g) = v (g_blocks g)) →
  (∀ k g, gs !! k = Some g → v' (g_inodes g) = v (g_inodes g)) → framed v → framed v'.
Proof using. intros Hb Hi Hf k g Hk. rewrite (Hb k g Hk), (Hi k g Hk). by eapply Hf. Qed.

Lemma framed_blocks v k g p value bitmap : gs !! k = Some g → g_data g ≤ p < g_end g →
  bitmap_set (v (g_blocks g)) (block_bit g p) value = Ok bitmap → framed v → framed (upd v (g_blocks g) bitmap).
Proof using HL Hagb.
  intros Hk Hp Hset Hf k' g' Hk'. destruct (Hf k' g' Hk') as [[Hlo Hhi] Hi]. pose proof (gl_blocks _ _ _ (HL k g Hk)).
  unfold upd. rewrite (decide_False (P := g_inodes g' = _)) by (intros E; by eapply (blocks_not_inodes sb gs HL Hagb k g k' g')).
  split; [|done]. destruct (decide (g_blocks g' = g_blocks g)) as [E|]; [|done].
  assert (k' = k) as -> by (by eapply (blocks_inj sb gs HL Hagb)). assert (g' = g) as -> by congruence.
  split.
  - intros q Hq. rewrite (proj2 (bitmap_set_spec _ _ _ _ (block_bit g q) Hset)), decide_False; [by apply Hlo|].
    unfold block_bit. lia.
  - intros bit Hbit. rewrite (proj2 (bitmap_set_spec _ _ _ _ bit Hset)), decide_False; [by apply Hhi|].
    unfold block_bit. lia.
Qed.

Lemma framed_inodes v k g i value bitmap : gs !! k = Some g → (i < 256)%nat →
  bitmap_set (v (g_inodes g)) i value = Ok bitmap → framed v → framed (upd v (g_inodes g) bitmap).
Proof using HL Hagb.
  intros Hk Hi Hset Hf k' g' Hk'. destruct (Hf k' g' Hk') as [Hb Hin].
  unfold upd. rewrite decide_False by (intros E; by eapply (blocks_not_inodes sb gs HL Hagb k' g' k g)).
  split; [done|]. destruct (decide (g_inodes g' = g_inodes g)) as [E|]; [|done].
  assert (k' = k) as -> by (by eapply (inodes_inj sb gs HL Hagb)). assert (g' = g) as -> by congruence.
  intros bit Hbit. rewrite (proj2 (bitmap_set_spec _ _ _ _ bit Hset)), decide_False by lia. by apply Hin.
Qed.

Lemma block_bit_inj k g p q : gs !! k = Some g → g_data g ≤ p < g_end g → g_data g ≤ q < g_end g →
  block_bit g p = block_bit g q → p = q.
Proof using HL.
  intros Hk%HL Hp Hq. pose proof (gl_blocks _ _ _ Hk). unfold block_bit. intros E%Z2Nat.inj; lia.
Qed.

Lemma bit_changed v k g p value bitmap : gs !! k = Some g → g_data g ≤ p < g_end g →
  bitmap_set (v (g_blocks g)) (block_bit g p) value = Ok bitmap →
  let v' := upd v (g_blocks g) bitmap in
  (marked v' p ↔ value = true) ∧ (∀ q, q ≠ p → marked v' q ↔ marked v q).
Proof using HL Hagb.
  intros Hk Hp Hset. cbv zeta.
  assert (∀ q, g_data g ≤ q < g_end g → bitmap_test (upd v (g_blocks g) bitmap (g_blocks g)) (block_bit g q) =
    if decide (q = p) then Some value else bitmap_test (v (g_blocks g)) (block_bit g q)) as Hbit.
  { intros q Hq. unfold upd. rewrite decide_True by done. rewrite (proj2 (bitmap_set_spec _ _ _ _ (block_bit g q) Hset)).
    destruct (decide (q = p)) as [->|Hne]; [by rewrite decide_True|].
    rewrite decide_False; [done|]. intros E. apply Hne. by eapply block_bit_inj. }
  split.
  - rewrite (marked_at _ k g p Hk Hp), Hbit, decide_True by done. split; congruence.
  - intros q Hq. assert (∀ k' g', gs !! k' = Some g' → g_data g' ≤ q < g_end g' →
      (marked (upd v (g_blocks g) bitmap) q ↔ marked v q)) as Hgo.
    { intros k' g' Hk' Hq'. rewrite !(marked_at _ k' g' q Hk' Hq'). destruct (decide (k' = k)) as [->|Hkk].
      - assert (g' = g) as -> by congruence. by rewrite Hbit, decide_False by done.
      - unfold upd. rewrite decide_False; [done|]. intros E. apply Hkk. by eapply (blocks_inj sb gs HL Hagb). }
    split; intros Hm; pose proof Hm as (k' & g' & Hk' & Hq' & _); by apply (Hgo k' g' Hk' Hq').
Qed.
Lemma free_changed v k g p bitmap old value : gs !! k = Some g → g_data g ≤ p < g_end g →
  bitmap_set (v (g_blocks g)) (block_bit g p) value = Ok bitmap →
  bitmap_test (v (g_blocks g)) (block_bit g p) = Some old → old = negb value →
  free_blocks (upd v (g_blocks g) bitmap) = free_blocks v + (if value then -1 else 1).
Proof using HL Hagb.
  intros Hk Hp Hset Hold ->. unfold free_blocks. apply (total_of_change _ _ _ k g); [done|..].
  - unfold upd. rewrite decide_True by done. unfold free_in.
    assert (∀ q, q ∈ seqZ (g_data g) (g_end g - g_data g) → q ≠ p →
      bitmap_test bitmap (block_bit g q) = bitmap_test (v (g_blocks g)) (block_bit g q)) as Hother.
    { intros q Hq%elem_of_seqZ Hne. rewrite (proj2 (bitmap_set_spec _ _ _ _ (block_bit g q) Hset)).
      rewrite decide_False; [done|]. intros E. apply Hne. eapply block_bit_inj; [done|lia|lia|done]. }
    assert (bitmap_test bitmap (block_bit g p) = Some value) as Hnew.
    { rewrite (proj2 (bitmap_set_spec _ _ _ _ (block_bit g p) Hset)). by rewrite decide_True. }
    assert (p ∈ seqZ (g_data g) (g_end g - g_data g)) as Hin by (apply elem_of_seqZ; lia).
    destruct value; cbn [negb] in Hold.
    + rewrite (count_one (λ q, bitmap_test (v (g_blocks g)) (block_bit g q) = Some false)
        (λ q, bitmap_test bitmap (block_bit g q) = Some false) _ p); [lia|apply NoDup_seqZ|done|done|by rewrite Hnew|].
      intros q Hq Hne. by rewrite Hother.
    + rewrite (count_one (λ q, bitmap_test bitmap (block_bit g q) = Some false)
        (λ q, bitmap_test (v (g_blocks g)) (block_bit g q) = Some false) _ p); [lia|apply NoDup_seqZ|done|done|by rewrite Hold|].
      intros q Hq Hne. by rewrite Hother.
  - intros k' g' Hk' Hne. unfold upd. rewrite decide_False; [done|]. intros E. apply Hne. by eapply (blocks_inj sb gs HL Hagb).
Qed.

(** Blocks that are no block bitmap. *)
Definition not_blocks (b : Z) : Prop := ∀ k g, gs !! k = Some g → b ≠ g_blocks g.

Lemma taken_spec v v' p : block_taken gs v v' p →
  data_block gs p ∧ ¬ marked v p ∧ (∀ q, marked v' q ↔ marked v q ∨ q = p) ∧
  free_blocks v' = free_blocks v - 1 ∧ (∀ b, not_blocks b → v' b = v b) ∧ (framed v → framed v').
Proof using HL Hagb.
  intros (g & bitmap & [k Hk]%list_elem_of_lookup & Hp & Hold & Hset & ->).
  destruct (bit_changed v k g p true bitmap Hk Hp Hset) as [Hnew Hother].
  assert (¬ marked v p) as Hnm by (rewrite (marked_at v k g p Hk Hp); congruence).
  split; [by exists k, g|]. split; [done|]. split; [|split].
  - intros q. destruct (decide (q = p)) as [->|Hne]; [by rewrite Hnew; tauto|]. rewrite Hother by done. tauto.
  - apply (free_changed v k g p bitmap _ true Hk Hp Hset Hold). done.
  - split; [|by eapply framed_blocks]. intros b Hb. unfold upd. rewrite decide_False; [done|]. by apply (Hb k).
Qed.

Lemma freed_spec v v' p : block_freed gs v v' p → marked v p →
  (∀ q, marked v' q ↔ marked v q ∧ q ≠ p) ∧ free_blocks v' = free_blocks v + 1 ∧ (∀ b, not_blocks b → v' b = v b) ∧
  (framed v → framed v').
Proof using HL Hagb.
  intros (g & bitmap & [Ha [k Hk]%list_elem_of_lookup]%find_Some & Hset & ->) Hm.
  unfold in_data_area in Ha. apply andb_true_iff in Ha as [? ?]. bool_simpl. assert (g_data g ≤ p < g_end g) as Hp by lia.
  destruct (bit_changed v k g p false bitmap Hk Hp Hset) as [Hnew Hother].
  split; [|split].
  - intros q. destruct (decide (q = p)) as [->|Hne]; [rewrite Hnew; split; [done|by intros [_ ?]]|].
    rewrite Hother by done. tauto.
  - apply (free_changed v k g p bitmap true false Hk Hp Hset); [|done]. by apply (marked_at v k g p Hk Hp).
  - split; [|by eapply framed_blocks]. intros b Hb. unfold upd. rewrite decide_False; [done|]. by apply (Hb k).
Qed.

Lemma all_freed_spec v ps v' : blocks_freed gs v ps v' → NoDup ps → (∀ p, p ∈ ps → marked v p) →
  (∀ q, marked v' q ↔ marked v q ∧ q ∉ ps) ∧ free_blocks v' = free_blocks v + Z.of_nat (length ps) ∧
  (∀ b, not_blocks b → v' b = v b) ∧ (framed v → framed v').
Proof using HL Hagb.
  intros Hf. induction Hf as [v|v ps v1 p v2 _ IH Hp]; intros Hnd Hm.
  { split; [|split; [cbn; lia|by split]]. intros q. split; [|by intros [? _]]. intros ?. split; [done|apply not_elem_of_nil]. }
  apply list.NoDup_app in Hnd as (Hnd & Hpn & _). destruct IH as (Hq & Hn & Hb & Hfr); [done|by intros q ?; apply Hm, elem_of_app; left|].
  assert (p ∉ ps) as Hpp by (intros ?; by apply (Hpn p); [|apply list_elem_of_singleton]).
  destruct (freed_spec v1 v2 p Hp) as (Hq2 & Hn2 & Hb2 & Hfr2).
  { apply Hq. split; [|done]. apply Hm, elem_of_app. right. by apply list_elem_of_singleton. }
  split; [|split].
  - intros q. rewrite Hq2, Hq, not_elem_of_app, not_elem_of_cons. split; [|tauto].
    intros [[? ?] ?]. split_and!; try done. apply not_elem_of_nil.
  - rewrite length_app. cbn [length]. lia.
  - split; [|auto]. intros b Hnb. by rewrite Hb2, Hb.
Qed.
(** ** Inode bitmaps *)

Definition inode_marked (v : disk) (n : Z) : option bool :=
  match inode_location_in gs n with
  | Ok (d, i) => bitmap_test (v (g_inodes d)) i
  | _ => None
  end.

Definition free_inodes (v : disk) : Z :=
  total_of (λ g, Z.of_nat (length (filter (λ i, bitmap_test (v (g_inodes g)) i = Some false) (seq 0 256)))) gs.

(** Blocks that are no inode bitmap. *)
Definition not_inodes (b : Z) : Prop := ∀ k g, gs !! k = Some g → b ≠ g_inodes g.

Lemma inode_marked_ext v v' : (∀ k g, gs !! k = Some g → v' (g_inodes g) = v (g_inodes g)) →
  (∀ n, 0 ≤ n → inode_marked v' n = inode_marked v n) ∧ free_inodes v' = free_inodes v.
Proof using.
  intros Hv. split.
  - intros n Hn. unfold inode_marked. destruct (inode_location_in gs n) as [[d i]|e|] eqn:E; [|done..].
    apply location_inv in E as (_ & Hk & _); [|done]. by rewrite (Hv _ _ Hk).
  - unfold free_inodes, total_of. assert (∀ g, g ∈ gs → v' (g_inodes g) = v (g_inodes g)) as Hg.
    { intros g [k Hk]%list_elem_of_lookup. by eapply Hv. }
    clear HL Hv. induction gs as [|g l IH]; cbn [foldr]; [done|]. rewrite Hg by (by left). f_equal.
    apply IH. intros g' ?. apply Hg. by right.
Qed.

Lemma inode_bit_changed v n d i value bitmap : 0 ≤ n → inode_location_in gs n = Ok (d, i) →
  bitmap_set (v (g_inodes d)) i value = Ok bitmap →
  let v' := upd v (g_inodes d) bitmap in
  (∀ n', 0 ≤ n' → inode_marked v' n' = if decide (n' = n) then Some value else inode_marked v n') ∧
  (inode_marked v n = Some (negb value) → free_inodes v' = free_inodes v + (if value then -1 else 1)) ∧
  (∀ b, not_inodes b → v' b = v b) ∧ (framed v → framed v').
Proof using HL Hagb.
  intros Hn Hl Hset. cbv zeta. pose proof Hl as (Hn1 & Hk & Hi)%location_inv; [|done].
  pose proof (location_index gs _ _ _ Hn Hl) as Hi256.
  assert (∀ j, bitmap_test bitmap j = if decide (j = i) then Some value else bitmap_test (v (g_inodes d)) j) as Hbit
    by (intros j; exact (proj2 (bitmap_set_spec _ _ _ _ j Hset))).
  split; [|split].
  - intros n' Hn'. unfold inode_marked. destruct (inode_location_in gs n') as [[d' i']|e|] eqn:E;
      [|by rewrite decide_False by (intros ->; congruence)..].
    pose proof E as (Hn1' & Hk' & Hi')%location_inv; [|done]. unfold upd. destruct (decide (g_inodes d' = g_inodes d)) as [Hd|Hd].
    + assert (Z.to_nat ((n' - 1) / 256) = Z.to_nat ((n - 1) / 256)) as Hkk by (by eapply (inodes_inj sb gs HL Hagb)).
      rewrite Hbit, Hd.
      assert (0 ≤ (n' - 1) / 256 ∧ 0 ≤ (n - 1) / 256) as [? ?] by (split; apply Z.div_pos; lia).
      pose proof (Z.div_mod (n' - 1) 256 ltac:(lia)). pose proof (Z.div_mod (n - 1) 256 ltac:(lia)).
      destruct (decide (i' = i)) as [->|Hne]; [rewrite decide_True by lia|rewrite decide_False by (intros ->; lia)]; done.
    + rewrite decide_False; [done|]. intros ->. congruence.
  - intros Hold. unfold inode_marked in Hold. rewrite Hl in Hold. unfold free_inodes.
    apply (total_of_change _ _ _ (Z.to_nat ((n - 1) / 256)) d); [done|..].
    + unfold upd. rewrite decide_True by done.
      assert (i ∈ seq 0 256) as Hin by (apply elem_of_seq; lia).
      destruct value; cbn [negb] in Hold.
      * rewrite (count_one (λ j, bitmap_test (v (g_inodes d)) j = Some false) (λ j, bitmap_test bitmap j = Some false) _ i);
          [lia|apply NoDup_seq|done|done|by rewrite Hbit, decide_True|].
        intros j _ Hne. by rewrite Hbit, decide_False.
      * rewrite (count_one (λ j, bitmap_test bitmap j = Some false) (λ j, bitmap_test (v (g_inodes d)) j = Some false) _ i);
          [lia|apply NoDup_seq|done|by rewrite Hbit, decide_True|by rewrite Hold|].
        intros j _ Hne. by rewrite Hbit, decide_False.
    + intros k' g' Hk' Hne. unfold upd. rewrite decide_False; [done|]. intros E. apply Hne. by eapply (inodes_inj sb gs HL Hagb).
  - split; [|by eapply framed_inodes]. intros b Hb. unfold upd. rewrite decide_False; [done|]. by eapply Hb.
Qed.

Lemma inode_taken_location v v' n : inode_taken gs v v' n → 1 ≤ n ∧ ∃ d i bitmap,
  inode_location_in gs n = Ok (d, i) ∧ inode_marked v n = Some false ∧
  bitmap_set (v (g_inodes d)) i true = Ok bitmap ∧ v' = upd v (g_inodes d) bitmap.
Proof using HL.
  intros (k & g & local & bitmap & Hk & Hloc & Hn & Hold & Hset & Hv').
  rewrite (gl_inodes_in_group _ _ _ (HL _ _ Hk)) in *. unfold PHASE2_INODES_PER_GROUP in *.
  assert ((n - 1) / 256 = Z.of_nat k) as Hd.
  { symmetry. apply (Z.div_unique _ _ _ (Z.of_nat local)); lia. }
  assert ((n - 1) mod 256 = Z.of_nat local) as Hm.
  { symmetry. apply (Z.mod_unique _ _ (Z.of_nat k)); lia. }
  assert (inode_location_in gs n = Ok (g, local)) as Hl.
  { unfold inode_location_in, PHASE2_INODES_PER_GROUP. rewrite (proj2 (Z.eqb_neq n 0)), Hd, Hm, !Nat2Z.id by lia.
    cbn [err_if]. by rewrite bind_Ok, Hk. }
  split; [lia|]. exists g, local, bitmap. split_and!; try done. unfold inode_marked. by rewrite Hl.
Qed.
(** ** Consistency *)

(** The allocated inodes. *)
Definition table : Type := Z → option Inode.t.
Definition table_of (v : disk) : table := λ n,
  match allocated_seen sb gs v n with Ok i => Some i | _ => None end.
(** The slot of the inode can be decoded. *)
Definition readable (v : disk) (n : Z) : Prop := ∃ i, inode_seen sb gs v n = Ok i.
Definition tset (T : table) (n : Z) (o : option Inode.t) : table := λ n', if decide (n' = n) then o else T n'.

Definition maps (T : table) (n l p : Z) : Prop := ∃ i, T n = Some i ∧ mapped (Inode.used_extents i) l = Some p.
Definition owned (T : table) (p : Z) : Prop := ∃ n l, maps T n l p.

(** The table [T], of which the inodes in [X] need not be stored yet, agrees with
    the view and with the counts of the pending state. *)
Record consistent (X : Z → Prop) (T : table) (v : disk) (pend : FilesystemState.t) : Prop := {
  co_stored : ∀ n, 0 ≤ n → ¬ X n → table_of v n = T n;
  co_located : ∀ n i, T n = Some i → 0 ≤ n ∧ ∃ d k, inode_location_in gs n = Ok (d, k);
  co_marked : ∀ p, marked v p ↔ owned T p;
  co_once : ∀ n1 l1 n2 l2 p, maps T n1 l1 p → maps T n2 l2 p → n1 = n2 ∧ l1 = l2;
  co_inodes : ∀ n d i, 0 ≤ n → inode_location_in gs n = Ok (d, i) →
    inode_marked v n = Some (bool_decide (is_Some (T n)));
  co_blocks_free : FilesystemState.free_block_count pend = free_blocks v;
  co_inodes_free : FilesystemState.free_inode_count pend = free_inodes v;
  co_framed : framed v;
  co_slots : ∀ n d i, 0 ≤ n → inode_location_in gs n = Ok (d, i) → readable v n;
}.

Definition volume_ok : table → disk → FilesystemState.t → Prop := consistent (λ _, False).

Lemma table_of_bytes v v' n : inode_bytes gs v' n = inode_bytes gs v n → table_of v' n = table_of v n.
Proof using. intros E. unfold table_of, allocated_seen. by rewrite !inode_seen_bytes, E. Qed.

Lemma readable_bytes v v' n : inode_bytes gs v' n = inode_bytes gs v n → readable v n → readable v' n.
Proof using. intros E. unfold readable. by rewrite !inode_seen_bytes, E. Qed.

Lemma consistent_weaken (X X' : Z → Prop) T v pend : (∀ n, X n → X' n) → consistent X T v pend → consistent X' T v pend.
Proof using. 
  intros HX [Hst Hloc Hm Ho Hi Hbf Hif Hfr Hsl]. split; [|exact Hloc|exact Hm|exact Ho|exact Hi|exact Hbf|exact Hif|exact Hfr|exact Hsl].
  intros n Hn Hx. apply Hst; [done|]. intros ?. by apply Hx, HX.
Qed.

Lemma consistent_ext X T T' v pend : (∀ n, T' n = T n) → consistent X T v pend → consistent X T' v pend.
Proof using.
  intros HT [Cst Cloc Cm Co Ci Cbf Cif Cfr Csl]. assert (∀ n l p, maps T' n l p ↔ maps T n l p) as Hm.
  { intros n l p. unfold maps. by rewrite HT. }
  split; [| | | | |exact Cbf|exact Cif|exact Cfr|exact Csl].
  - intros n. rewrite HT. apply Cst.
  - intros n i. rewrite HT. apply Cloc.
  - intros p. rewrite Cm. unfold owned. by setoid_rewrite Hm.
  - intros n1 l1 n2 l2 p. rewrite !Hm. apply Co.
  - intros n. rewrite HT. apply Ci.
Qed.

Lemma tset_same T n o : tset T n o n = o.
Proof using. unfold tset. by rewrite decide_True. Qed.

Lemma tset_other T n o n' : n' ≠ n → tset T n o n' = T n'.
Proof using. intros. unfold tset. by rewrite decide_False. Qed.

Lemma tset_tset T n o o' n' : tset (tset T n o) n o' n' = tset T n o' n'.
Proof using. unfold tset. by destruct (decide _). Qed.

Lemma maps_set T n i n' l p : maps (tset T n (Some i)) n' l p ↔
  if decide (n' = n) then mapped (Inode.used_extents i) l = Some p else maps T n' l p.
Proof using.
  unfold maps, tset. destruct (decide (n' = n)) as [->|]; [|done]. split; [by intros (j & [= <-] & ?)|by exists i].
Qed.

(** Contents of data blocks do not matter. *)
Lemma consistent_data X T v pend b x : data_block gs b → consistent X T v pend → consistent X T (upd v b x) pend.
Proof using HL Hagb.
  intros Hb Hc.
  assert (∀ k g, gs !! k = Some g → upd v b x (g_blocks g) = v (g_blocks g)) as Hblk.
  { intros k g Hk. unfold upd. rewrite decide_False; [done|]. intros E. by eapply (data_not_blocks sb gs HL Hagb b k g). }
  assert (∀ k g, gs !! k = Some g → upd v b x (g_inodes g) = v (g_inodes g)) as Hino.
  { intros k g Hk. unfold upd. rewrite decide_False; [done|]. intros E. by eapply (data_not_inodes sb gs HL Hagb b k g). }
  destruct (marked_ext v (upd v b x) Hblk) as [Hm Hf], (inode_marked_ext v (upd v b x) Hino) as [Him Hif].
  assert (∀ n, 0 ≤ n → inode_bytes gs (upd v b x) n = inode_bytes gs v n) as Hbytes.
  { intros n Hn. apply inode_bytes_upd; [done|]. intros k g Hk. by eapply (data_not_table sb gs HL Hagb). }
  destruct Hc as [Cst Cloc Cm Co Ci Cbf Cif Cfr Csl].
  split; [|exact Cloc| |exact Co| |by rewrite Hf|by rewrite Hif|by eapply framed_ext|].
  - intros n Hn Hx. rewrite <- Cst by done. apply table_of_bytes. auto.
  - intros p. by rewrite Hm.
  - intros n d i Hn Hl. rewrite Him by done. by eapply Ci.
  - intros n d i Hn Hl. eapply readable_bytes; [by apply Hbytes|by eapply Csl].
Qed.

(** An inode in memory replaced by one with the same blocks. *)
Lemma consistent_same X T v pend n i i' : X n → T n = Some i →
  (∀ l, mapped (Inode.used_extents i') l = mapped (Inode.used_extents i) l) →
  consistent X T v pend → consistent X (tset T n (Some i')) v pend.
Proof using.
  intros HX Hi Hmap [Cst Cloc Cm Co Ci Cbf Cif Cfr Csl].
  assert (∀ n' l p, maps (tset T n (Some i')) n' l p ↔ maps T n' l p) as Hmaps.
  { intros n' l p. rewrite maps_set. destruct (decide (n' = n)) as [->|]; [|done]. rewrite Hmap.
    split; [by exists i|]. intros (j & Hj & Hp). congruence. }
  split; [| | | | |exact Cbf|exact Cif|exact Cfr|exact Csl].
  - intros n' Hn' Hx. unfold tset. rewrite decide_False by (by intros ->). by apply Cst.
  - intros n' j. unfold tset. destruct (decide (n' = n)) as [->|]; [|by apply Cloc]. intros _. by eapply Cloc.
  - intros p. rewrite Cm. unfold owned. by setoid_rewrite Hmaps.
  - intros n1 l1 n2 l2 p. rewrite !Hmaps. by apply Co.
  - intros n' d k Hn' Hl. rewrite (Ci n' d k Hn' Hl). unfold tset. destruct (decide (n' = n)) as [->|]; [|done].
    by rewrite Hi.
Qed.
(** A taken block added to an inode in memory. *)
Lemma consistent_add X T v v' pend n i i' l p : X n → T n = Some i → block_taken gs v v' p →
  mapped (Inode.used_extents i) l = None →
  (∀ k, mapped (Inode.used_extents i') k = if decide (k = l) then Some p else mapped (Inode.used_extents i) k) →
  consistent X T v pend →
  consistent X (tset T n (Some i')) v' (with_free_blocks (FilesystemState.free_block_count pend - 1) pend).
Proof using HL Hagb.
  intros HX Hi Htaken Hnone Hmap Hc. destruct (taken_spec _ _ _ Htaken) as (Hp & Hnm & Hmark & Hfree & Hother & Hframe).
  destruct Hc as [Cst Cloc Cm Co Ci Cbf Cif Cfr Csl].
  assert (∀ n' k q, maps (tset T n (Some i')) n' k q ↔ maps T n' k q ∨ n' = n ∧ k = l ∧ q = p) as Hmaps.
  { intros n' k q. rewrite maps_set. destruct (decide (n' = n)) as [->|Hne]; [|naive_solver]. rewrite Hmap.
    assert (maps T n k q ↔ mapped (Inode.used_extents i) k = Some q) as -> by (unfold maps; naive_solver).
    destruct (decide (k = l)) as [->|]; naive_solver. }
  assert (∀ n' k q, maps T n' k q → q ≠ p) as Hfresh.
  { intros n' k q Hq ->. apply Hnm, Cm. by exists n', k. }
  assert (∀ n', 0 ≤ n' → inode_bytes gs v' n' = inode_bytes gs v n') as Hbytes.
  { intros n' Hn'. apply inode_bytes_ext; [done|]. intros b k g Hk Hb. apply Hother. intros k' g' Hk' ->.
    by eapply (blocks_not_table sb gs HL Hagb k' g' k g). }
  split; cbn [with_free_blocks FilesystemState.free_block_count FilesystemState.free_inode_count].
  - intros n' Hn' Hx. unfold tset. rewrite decide_False by (by intros ->). rewrite <- Cst by done. apply table_of_bytes. auto.
  - intros n' j. unfold tset. destruct (decide (n' = n)) as [->|]; [|by apply Cloc]. intros _. by eapply Cloc.
  - intros q. rewrite Hmark, Cm. unfold owned. setoid_rewrite Hmaps. naive_solver.
  - intros n1 l1 n2 l2 q [H1|(-> & -> & ->)]%Hmaps [H2|(-> & -> & Hq)]%Hmaps; subst; try done.
    + by eapply Co.
    + by apply Hfresh in H1.
    + by apply Hfresh in H2.
  - intros n' d k Hn' Hl. assert (inode_marked v' n' = inode_marked v n') as ->.
    { apply inode_marked_ext; [|done]. intros k' g' Hk'. apply Hother. intros k2 g2 Hk2 E.
      by eapply (blocks_not_inodes sb gs HL Hagb k2 g2 k' g'). }
    rewrite (Ci n' d k Hn' Hl). unfold tset. destruct (decide (n' = n)) as [->|]; [|done]. by rewrite Hi.
  - lia.
  - rewrite Cif. symmetry. apply inode_marked_ext. intros k' g' Hk'. apply Hother. intros k2 g2 Hk2 E.
    by eapply (blocks_not_inodes sb gs HL Hagb k2 g2 k' g').
  - auto.
  - intros n' d k Hn' Hl. eapply readable_bytes; [by apply Hbytes|by eapply Csl].
Qed.

(** ** Slots *)

Context (Hphase3 : Superblock.phase3_enabled sb = true).

Lemma table_of_put v n x n' d k : 0 ≤ n → 0 ≤ n' → inode_location_in gs n = Ok (d, k) →
  is_block (v (inode_block d k)) → length x = INODE_BYTES → inode_block d k ≤ u64_max →
  table_of (inode_put gs v n x) n' =
  if decide (n' = n) then match decode_inode true x with
                          | Ok i => if bool_decide (Inode.kind i = NodeKind.Free) then None else Some i
                          | _ => None
                          end
  else table_of v n'.
Proof using HL Hagb Hphase3.
  intros Hn Hn' Hl Hb Hx Hmax. pose proof (inode_bytes_put sb gs HL Hagb v n x n' d k Hn Hn' Hl Hb Hx) as Hput.
  destruct (decide (n' = n)) as [->|Hne]; [|by apply table_of_bytes].
  unfold table_of, allocated_seen. rewrite inode_seen_bytes, Hput, Hphase3. unfold seen_of. rewrite Hl.
  rewrite (proj2 (Z.ltb_ge _ _)) by done. cbn [err_if]. rewrite bind_Ok.
  destruct (decode_inode true x) as [i|e|]; [|done..]. rewrite bind_Ok. by case_bool_decide.
Qed.

Lemma readable_put v n x n' d k j : 0 ≤ n → 0 ≤ n' → inode_location_in gs n = Ok (d, k) →
  is_block (v (inode_block d k)) → length x = INODE_BYTES → inode_block d k ≤ u64_max →
  decode_inode true x = Ok j → (n' ≠ n → readable v n') → readable (inode_put gs v n x) n'.
Proof using HL Hagb Hphase3.
  intros Hn Hn' Hl Hb Hx Hmax Hj Ho. pose proof (inode_bytes_put sb gs HL Hagb v n x n' d k Hn Hn' Hl Hb Hx) as Hput.
  destruct (decide (n' = n)) as [->|Hne]; [|eapply readable_bytes; [done|by apply Ho]].
  exists j. rewrite inode_seen_bytes, Hput, Hphase3. unfold seen_of. rewrite Hl.
  rewrite (proj2 (Z.ltb_ge _ _)) by done. cbn [err_if]. by rewrite bind_Ok.
Qed.

(** A slot written: the bitmaps stay. *)
Lemma put_frame v n x : 0 ≤ n → let v' := inode_put gs v n x in
  (∀ p, marked v' p ↔ marked v p) ∧ free_blocks v' = free_blocks v ∧
  (∀ n', 0 ≤ n' → inode_marked v' n' = inode_marked v n') ∧ free_inodes v' = free_inodes v ∧ (framed v → framed v').
Proof using HL Hagb.
  intros Hn. cbv zeta. destruct (marked_ext v (inode_put gs v n x)) as [Hm Hf].
  { intros k g Hk. by eapply (inode_put_blocks sb gs HL Hagb). }
  destruct (inode_marked_ext v (inode_put gs v n x)) as [Him Hif].
  { intros k g Hk. by eapply (inode_put_inodes sb gs HL Hagb). }
  split; [exact Hm|]. split; [exact Hf|]. split; [exact Him|]. split; [exact Hif|].
  apply framed_ext; intros k g Hk; [by eapply (inode_put_blocks sb gs HL Hagb)|by eapply (inode_put_inodes sb gs HL Hagb)].
Qed.

Lemma consistent_store X T v pend n i x d k : T n = Some i → Inode.typed i → Inode.kind i ≠ NodeKind.Free →
  encode_inode i = Ok x → inode_location_in gs n = Ok (d, k) → is_block (v (inode_block d k)) →
  inode_block d k ≤ u64_max → consistent X T v pend →
  consistent (λ n', X n' ∧ n' ≠ n) T (inode_put gs v n x) pend.
Proof using HL Hagb Hphase3.
  intros Hi Ht Hk Hx Hl Hb Hmax [Cst Cloc Cm Co Ci Cbf Cif Cfr Csl]. destruct (Cloc n i Hi) as [Hn _].
  destruct (encode_inode_bytes i x (Inode.typed_extents_length _ Ht) Hx) as [Hlx _].
  destruct (put_frame v n x Hn) as (Fm & Fb & Fi & Ff & Fr).
  split; [|exact Cloc| |exact Co| |by rewrite Fb|by rewrite Ff|auto|].
  - intros n' Hn' HX. rewrite (table_of_put v n x n' d k) by done. destruct (decide (n' = n)) as [->|Hne].
    + by rewrite (encode_inode_decodes i x Ht Hx), bool_decide_false.
    + apply Cst; [done|]. intros ?. by apply HX.
  - intros p. by rewrite Fm.
  - intros n' d' k' Hn' Hl'. rewrite Fi by done. by eapply Ci.
  - intros n' d' k' Hn' Hl'. eapply readable_put; [done..|by apply encode_inode_decodes|]. intros _. by eapply Csl.
Qed.

(** A new inode without blocks. *)
Lemma consistent_create X T v v' pend n i : inode_taken gs v v' n →
  (∀ l, mapped (Inode.used_extents i) l = None) → consistent X T v pend →
  T n = None ∧ 1 ≤ n ∧ consistent (λ n', X n' ∨ n' = n) (tset T n (Some i)) v'
    (with_free_inodes (FilesystemState.free_inode_count pend - 1) pend).
Proof using HL Hagb.
  intros (Hn & d & k & bitmap & Hl & Hold & Hset & ->)%inode_taken_location Hnone [Cst Cloc Cm Co Ci Cbf Cif Cfr Csl].
  assert (0 ≤ n) as Hn0 by lia. pose proof (Ci n d k Hn0 Hl) as Hmark. rewrite Hold in Hmark.
  assert (T n = None) as HTn by (destruct (T n); [by rewrite bool_decide_true in Hmark|done]).
  destruct (inode_bit_changed v n d k true bitmap Hn0 Hl Hset) as (Bm & Bf & Bo & Br).
  pose proof (location_inv gs n d k Hn0 Hl) as (_ & Hd & _).
  assert (∀ n' l p, maps (tset T n (Some i)) n' l p ↔ maps T n' l p) as Hmaps.
  { intros n' l p. rewrite maps_set. destruct (decide (n' = n)) as [->|]; [|done]. rewrite Hnone.
    split; [done|]. intros (j & Hj & _). congruence. }
  destruct (marked_ext v (upd v (g_inodes d) bitmap)) as [Mm Mf].
  { intros k' g' Hk'. apply Bo. intros k2 g2 Hk2 E. by eapply (blocks_not_inodes sb gs HL Hagb k' g' k2 g2). }
  assert (∀ n', 0 ≤ n' → inode_bytes gs (upd v (g_inodes d) bitmap) n' = inode_bytes gs v n') as Hbytes.
  { intros n' Hn'. apply inode_bytes_ext; [done|]. intros b k' g' Hk' Hb. apply Bo. intros k2 g2 Hk2 ->.
    by eapply (inodes_not_table sb gs HL Hagb k2 g2 k' g'). }
  split; [done|]. split; [done|]. split; cbn [with_free_inodes FilesystemState.free_block_count FilesystemState.free_inode_count].
  - intros n' Hn' HX. unfold tset. rewrite decide_False by tauto. rewrite <- Cst by tauto. apply table_of_bytes. auto.
  - intros n' j. unfold tset. destruct (decide (n' = n)) as [->|]; [|by apply Cloc]. intros _. split; [done|by exists d, k].
  - intros p. rewrite Mm, Cm. unfold owned. by setoid_rewrite Hmaps.
  - intros n1 l1 n2 l2 p. rewrite !Hmaps. by apply Co.
  - intros n' d' k' Hn' Hl'. rewrite Bm by done. unfold tset. destruct (decide (n' = n)) as [->|]; [done|]. by eapply Ci.
  - by rewrite Mf.
  - rewrite (Bf Hold), Cif. lia.
  - auto.
  - intros n' d' k' Hn' Hl'. eapply readable_bytes; [by apply Hbytes|by eapply Csl].
Qed.
(** Blocks freed and taken out of an inode in memory. *)
Lemma consistent_free X T v v' pend n i i' ps : X n → T n = Some i → blocks_freed gs v ps v' → NoDup ps →
  (∀ p, p ∈ ps → ∃ l, mapped (Inode.used_extents i) l = Some p) →
  (∀ l p, mapped (Inode.used_extents i') l = Some p ↔ mapped (Inode.used_extents i) l = Some p ∧ p ∉ ps) →
  consistent X T v pend → consistent X (tset T n (Some i')) v' (with_more_free (length ps) pend).
Proof using HL Hagb.
  intros HX Hi Hf Hnd Hps Hmap [Cst Cloc Cm Co Ci Cbf Cif Cfr Csl].
  destruct (all_freed_spec v ps v' Hf Hnd) as (Fm & Fb & Fo & Fr).
  { intros p (l & Hl)%Hps. apply Cm. exists n, l, i. done. }
  assert (∀ n' k q, maps (tset T n (Some i')) n' k q ↔ maps T n' k q ∧ q ∉ ps) as Hmaps.
  { intros n' k q. rewrite maps_set. destruct (decide (n' = n)) as [->|Hne].
    - rewrite Hmap. assert (maps T n k q ↔ mapped (Inode.used_extents i) k = Some q) as -> by (unfold maps; naive_solver). done.
    - split; [|by intros [? _]]. intros Hq. split; [done|]. intros (l & Hl)%Hps.
      assert (maps T n l q) as Hq' by (by exists i). by destruct (Co _ _ _ _ _ Hq Hq') as [? _]. }
  assert (∀ n', 0 ≤ n' → inode_bytes gs v' n' = inode_bytes gs v n') as Hbytes.
  { intros n' Hn'. apply inode_bytes_ext; [done|]. intros b k g Hk Hb. apply Fo. intros k' g' Hk' ->.
    by eapply (blocks_not_table sb gs HL Hagb k' g' k g). }
  split; cbn [with_more_free with_free_blocks FilesystemState.free_block_count FilesystemState.free_inode_count].
  - intros n' Hn' Hx. unfold tset. rewrite decide_False by (by intros ->). rewrite <- Cst by done. apply table_of_bytes. auto.
  - intros n' j. unfold tset. destruct (decide (n' = n)) as [->|]; [|by apply Cloc]. intros _. by eapply Cloc.
  - intros q. rewrite Fm, Cm. unfold owned. setoid_rewrite Hmaps. naive_solver.
  - intros n1 l1 n2 l2 q [H1 _]%Hmaps [H2 _]%Hmaps. by eapply Co.
  - intros n' d k Hn' Hl. assert (inode_marked v' n' = inode_marked v n') as ->.
    { apply inode_marked_ext; [|done]. intros k' g' Hk'. apply Fo. intros k2 g2 Hk2 E.
      by eapply (blocks_not_inodes sb gs HL Hagb k2 g2 k' g'). }
    rewrite (Ci n' d k Hn' Hl). unfold tset. destruct (decide (n' = n)) as [->|]; [|done]. by rewrite Hi.
  - lia.
  - rewrite Cif. symmetry. apply inode_marked_ext. intros k' g' Hk'. apply Fo. intros k2 g2 Hk2 E.
    by eapply (blocks_not_inodes sb gs HL Hagb k2 g2 k' g').
  - auto.
  - intros n' d k Hn' Hl. eapply readable_bytes; [by apply Hbytes|by eapply Csl].
Qed.

Lemma decode_zeros : decode_inode true (zeros INODE_BYTES) = Ok Inode.default.
Proof using.
  assert (Inode.decode (zeros INODE_BYTES) = Ok Inode.default) as Hd.
  { apply InodeCodec.inode_decode_exact; [apply length_zeros|apply zeros_ok|].
    split; [|split; [done|by right]]. repeat constructor; done. }
  unfold decode_inode. by rewrite Hd.
Qed.

(** An inode without blocks freed. *)
Lemma consistent_clear X T v pend n i d k bitmap : T n = Some i → (∀ l, mapped (Inode.used_extents i) l = None) →
  inode_location_in gs n = Ok (d, k) → is_block (v (inode_block d k)) → inode_block d k ≤ u64_max →
  let v2 := inode_put gs v n (zeros INODE_BYTES) in
  bitmap_set (v2 (g_inodes d)) k false = Ok bitmap → consistent X T v pend →
  consistent (λ n', X n' ∧ n' ≠ n) (tset T n None) (upd v2 (g_inodes d) bitmap)
    (with_free_inodes (FilesystemState.free_inode_count pend + 1) pend).
Proof using HL Hagb Hphase3.
  intros Hi Hnone Hl Hb Hmax v2 Hset [Cst Cloc Cm Co Ci Cbf Cif Cfr Csl]. destruct (Cloc n i Hi) as [Hn _].
  destruct (put_frame v n (zeros INODE_BYTES) Hn) as (Fm & Fb & Fi & Ff & Fr). fold v2 in Fm, Fb, Fi, Ff, Fr.
  destruct (inode_bit_changed v2 n d k false bitmap Hn Hl Hset) as (Bm & Bf & Bo & Br).
  destruct (marked_ext v2 (upd v2 (g_inodes d) bitmap)) as [Mm Mf].
  { intros k' g' Hk'. apply Bo. intros k2 g2 Hk2 E. by eapply (blocks_not_inodes sb gs HL Hagb k' g' k2 g2). }
  assert (∀ n' l p, maps (tset T n None) n' l p ↔ maps T n' l p) as Hmaps.
  { intros n' l p. unfold maps, tset. destruct (decide (n' = n)) as [->|]; [|done].
    split; [by intros (j & ? & _)|]. intros (j & Hj & Hp). assert (j = i) as -> by congruence. by rewrite Hnone in Hp. }
  assert (∀ n', 0 ≤ n' → inode_bytes gs (upd v2 (g_inodes d) bitmap) n' = inode_bytes gs v2 n') as Hbytes.
  { intros n' Hn'. apply inode_bytes_ext; [done|]. intros b k' g' Hk' Hbb. apply Bo. intros k2 g2 Hk2 ->.
    by eapply (inodes_not_table sb gs HL Hagb k2 g2 k' g'). }
  split; cbn [with_free_inodes FilesystemState.free_block_count FilesystemState.free_inode_count].
  - intros n' Hn' HX. transitivity (table_of v2 n'); [apply table_of_bytes; auto|].
    unfold v2. rewrite (table_of_put v n _ n' d k) by (done || apply length_zeros). unfold tset.
    destruct (decide (n' = n)) as [->|Hne]; [by rewrite decode_zeros|]. apply Cst; [done|]. intros ?. by apply HX.
  - intros n' j. unfold tset. destruct (decide (n' = n)); [done|]. by apply Cloc.
  - intros p. rewrite Mm, Fm, Cm. unfold owned. by setoid_rewrite Hmaps.
  - intros n1 l1 n2 l2 p. rewrite !Hmaps. by apply Co.
  - intros n' d' k' Hn' Hl'. rewrite Bm by done. unfold tset. destruct (decide (n' = n)) as [->|]; [done|].
    rewrite Fi by done. by eapply Ci.
  - by rewrite Mf, Fb.
  - rewrite Bf, Ff, Cif; [done|]. rewrite Fi, (Ci n d k Hn Hl), Hi by done. done.
  - auto.
  - intros n' d' k' Hn' Hl'. eapply readable_bytes; [by apply Hbytes|].
    eapply readable_put; [done..|apply length_zeros|done|apply decode_zeros|]. intros _. by eapply Csl.
Qed.
End ownership.
