(* ===== verification/Mounted.v ===== *)
(** * A mounted volume

    The assumptions under which the mutations are verified: the journal's geometry
    and the layout of the groups.  Consistency carries over from the view of a
    session to the device after its commit. *)

From Stdlib Require Import ZArith Lia.
From stdpp Require Import base list numbers option.
From S2P Require Import Prelude NullfsBytes NullfsPhase3 NullfsSuperblock NullfsRecord NullfsInode.
From S2P Require Import NullfsDirectory NullfsAllocation BlockDevice Journal JournalDisk JournalSteps.
From S2P Require Import JournalRecovery JournalProps Volume Mutation Extents VolumeReads Session.
From S2P Require Import MutationSteps Atomicity Layout Ownership.

Open Scope Z_scope.

(** A mounted volume with its journal and its groups. *)
Record volume (sb : Superblock.t) (gs : list group) : Prop := {
  vg_geometry : SuperblockCodec.geometry sb;
  vg_capacity : Superblock.capacity_blocks sb ≤ u64_max;
  vg_phase3 : Superblock.phase3_enabled sb = true;
  vg_group_blocks : 0 < Superblock.allocation_group_blocks sb;
  vg_layout : volume_layout sb gs;
  vg_groups : Z.of_nat (length gs) ≤ u32_max;
}.

(** ** Blocks of a volume *)

Section volume.
Context (sb : Superblock.t) (gs : list group) (Hvol : volume sb gs).
Notation HL := (vg_layout _ _ Hvol).

Lemma owned_data X T v pend n l p : consistent sb gs X T v pend → maps T n l p → data_block gs p.
Proof using. intros Hc Hm. eapply marked_data, (co_marked _ _ _ _ _ _ Hc). by exists n, l. Qed.

Lemma data_not_bitmap b : data_block gs b → not_blocks gs b.
Proof using Hvol. intros Hb k g Hg. exact (data_not_blocks _ _ HL (vg_group_blocks _ _ Hvol) _ _ _ Hb Hg). Qed.

Lemma group_blocks_data k g b : gs !! k = Some g →
  b = g_blocks g ∨ b = g_inodes g ∨ g_table g ≤ b < g_table g + PHASE2_INODE_TABLE_BLOCKS ∨ g_data g ≤ b < g_end g →
  is_data sb b.
Proof using Hvol.
  intros Hg Hb. destruct (HL k g Hg). unfold is_data. destruct Hb as [->|[->|[|]]]; lia.
Qed.

Lemma data_is_data b : data_block gs b → is_data sb b.
Proof using Hvol. intros (k & g & Hg & Hb). eapply group_blocks_data; [exact Hg|]. auto. Qed.

(** Inode numbers fit. *)
Lemma location_u64 n d i : 0 ≤ n → inode_location_in gs n = Ok (d, i) → is_u64 n.
Proof using Hvol.
  intros Hn (_ & Hk%lookup_lt_Some & _)%location_inv; [|done]. pose proof (vg_groups _ _ Hvol).
  pose proof (Z.div_mod (n - 1) 256 ltac:(lia)). pose proof (Z.mod_pos_bound (n - 1) 256 ltac:(lia)).
  split; [done|]. unfold u64_max, u32_max in *. lia.
Qed.

Lemma node_u64 X T v pend n i : consistent sb gs X T v pend → T n = Some i → is_u64 n.
Proof using Hvol. intros Hc (Hn & d & k & Hl)%(co_located _ _ _ _ _ _ Hc). by eapply location_u64. Qed.

Lemma taken_u64 v v' n : inode_taken gs v v' n → is_u64 n.
Proof using Hvol. intros (Hn & d & i & bm & Hl & _)%(inode_taken_location _ _ HL). eapply location_u64; [lia|done]. Qed.

(** Consistency only looks at the blocks of the groups. *)
Lemma volume_ok_data T v pend m' st' : volume_ok sb gs T v pend → (∀ b, is_data sb b → m' b = v b) → same_counts st' pend →
  volume_ok sb gs T m' st'.
Proof using Hvol.
  intros [Cst Cloc Cm Co Ci Cbf Cif Cfr Csl] Ha (_ & Hb & Hi).
  assert (∀ k g, gs !! k = Some g → m' (g_blocks g) = v (g_blocks g)) as Hblocks.
  { intros k g Hg. apply Ha. eapply group_blocks_data; eauto. }
  assert (∀ k g, gs !! k = Some g → m' (g_inodes g) = v (g_inodes g)) as Hinodes.
  { intros k g Hg. apply Ha. eapply group_blocks_data; eauto. }
  destruct (marked_ext gs v m' Hblocks) as [Hm Hf]. destruct (inode_marked_ext gs v m' Hinodes) as [Him Hif].
  assert (∀ n, 0 ≤ n → inode_bytes gs m' n = inode_bytes gs v n) as Hbytes.
  { intros n Hn. apply inode_bytes_ext; [done|]. intros b k g Hg Hr. apply Ha. eapply group_blocks_data; eauto. }
  split.
  - intros n Hn Hx. rewrite <- Cst by done. apply table_of_bytes. auto.
  - exact Cloc.
  - intros p. by rewrite Hm.
  - exact Co.
  - intros n d i Hn Hl. rewrite Him by done. by eapply Ci.
  - by rewrite Hb, Hf.
  - by rewrite Hi, Hif.
  - by eapply framed_ext.
  - intros n d i Hn Hl. eapply readable_bytes; [by apply Hbytes|by eapply Csl].
Qed.

Lemma volume_ok_agree T v pend m' st' : volume_ok sb gs T v pend → agree sb m' v → same_counts st' pend →
  volume_ok sb gs T m' st'.
Proof using Hvol. intros Hc Ha. apply (volume_ok_data T v pend); [done|]. intros b Hb. apply Ha. by left. Qed.

Lemma maps_data X T v pend m' n l p : consistent sb gs X T v pend → (∀ b, is_data sb b → m' b = v b) → maps T n l p → m' p = v p.
Proof using Hvol. intros Hc Ha Hm. apply Ha, data_is_data. by eapply owned_data. Qed.

Lemma maps_agree X T v pend m' n l p : consistent sb gs X T v pend → agree sb m' v → maps T n l p → m' p = v p.
Proof using Hvol. intros Hc Ha. apply (maps_data X T v pend); [done|]. intros b Hb. apply Ha. by left. Qed.
End volume.

Section session_table.
Context {D : Type} {HD : BlockDevice D} {torn : list Z → Prop} {HC : CrashSafe D torn}.
Notation fs := (Filesystem D).
Context (sb : Superblock.t) (s0 : fs) (m : disk) (st : FilesystemState.t) (Hgs : Forall group_unsigned (groups s0)).
Notation S := (session sb s0 m st).
Notation still := (open_still sb s0 m st).
Notation gs := (groups s0).

(** Reading an inode, in terms of the table. *)
Lemma session_table T v pend s node : S v pend s → volume_ok sb gs T v pend → 0 ≤ node →
  wp (read_allocated_inode node)
    (λ i s', s' = s ∧ T node = Some i ∧ good_inode i ∧ Inode.kind i ≠ NodeKind.Free)
    (λ _ s', still s') s.
Proof using Hgs.
  intros HS Hok Hn. eapply wp_mono; [exact (session_allocated sb s0 m st Hgs v pend s node HS)|cbv beta|done].
  intros i s' (-> & Hi & Hg & Hk). split; [done|]. split; [|by split].
  rewrite <- (co_stored _ _ _ _ _ _ Hok node Hn (λ F, F)). unfold table_of. by rewrite Hi.
Qed.
End session_table.
