(* ===== verification/FileWrite.v ===== *)
(** * Writing a file

    [write_chunk] against the contents of files: the bytes written are read back,
    all other bytes of this and of every other file stay, blocks are only taken if
    they were free, and the volume stays consistent. *)

From Stdlib Require Import ZArith Lia.
From stdpp Require Import base list numbers option.
From S2P Require Import Prelude NullfsBytes NullfsPhase3 NullfsSuperblock NullfsRecord NullfsInode.
From S2P Require Import NullfsDirectory NullfsAllocation BlockDevice Journal JournalDisk JournalSteps.
From S2P Require Import JournalRecovery JournalProps Volume Mutation Extents VolumeReads Session.
From S2P Require Import MutationSteps Atomicity Layout Ownership Mounted.

Open Scope Z_scope.

(** ** One block of a file *)

Lemma file_byte_block v i l r : 0 ≤ r < 4096 →
  file_byte v i (l * 4096 + r) =
  match mapped (Inode.used_extents i) l with Some p => default 0 (v p !! Z.to_nat r) | None => 0 end.
Proof.
  intros Hr. unfold file_byte.
  assert ((l * 4096 + r) / 4096 = l) as -> by (rewrite Z.div_add_l, Z.div_small by lia; lia).
  assert ((l * 4096 + r) mod 4096 = r) as -> by (rewrite Z.add_comm, Z.mod_add, Z.mod_small by lia; done).
  done.
Qed.

Lemma file_byte_ext v i v' i' : (∀ l, mapped (Inode.used_extents i') l = mapped (Inode.used_extents i) l) →
  (∀ l p, mapped (Inode.used_extents i) l = Some p → v' p = v p) → ∀ k, file_byte v' i' k = file_byte v i k.
Proof.
  intros Hm Hv k. unfold file_byte. rewrite Hm. destruct (mapped _ _) as [p|] eqn:E; [|done]. by rewrite (Hv _ _ E).
Qed.

(** Files read as zeros after their end, also where the last block goes on. *)
Definition zero_tails (T : table) (v : disk) : Prop := ∀ n i k, T n = Some i → Inode.kind i = NodeKind.Regular →
  0 ≤ k → Inode.size i ≤ k → file_byte v i k = 0.

(** Every file of the new table is an old one, with its blocks, or reads as zeros. *)
Lemma tails_kept (T T' : table) v v' : zero_tails T v →
  (∀ n i', T' n = Some i' → Inode.kind i' = NodeKind.Regular →
     (∃ i, T n = Some i ∧ Inode.kind i = NodeKind.Regular ∧ Inode.size i' = Inode.size i ∧
        Inode.used_extents i' = Inode.used_extents i ∧ ∀ l p, mapped (Inode.used_extents i) l = Some p → v' p = v p) ∨
     ∀ k, 0 ≤ k → Inode.size i' ≤ k → file_byte v' i' k = 0) →
  zero_tails T' v'.
Proof.
  intros Hz HT n i' k Hi' Hk H0 Hle. destruct (HT n i' Hi' Hk) as [(i & Hi & Hki & Hs & He & Hv)|Hn]; [|by apply Hn].
  rewrite (file_byte_ext v i v' i'); [|by rewrite He|done]. apply (Hz n); [done..|lia].
Qed.

(** A piece of input stored in one block of a file. *)
Lemma store_piece v v' i i' l p (base piece : list Z) within : 0 ≤ l →
  mapped (Inode.used_extents i') l = Some p →
  (∀ l', l' ≠ l → mapped (Inode.used_extents i') l' = mapped (Inode.used_extents i) l') →
  base = match mapped (Inode.used_extents i) l with Some _ => v p | None => zeros BLOCK_SIZE end →
  (∀ q, mapped (Inode.used_extents i) l = Some q → q = p) →
  is_block base → (within + length piece ≤ BLOCK_SIZE)%nat → v' p = put_bytes base within piece →
  (∀ l' q, l' ≠ l → mapped (Inode.used_extents i) l' = Some q → v' q = v q) →
  ∀ k, 0 ≤ k → file_byte v' i' k =
    if decide (l * 4096 + Z.of_nat within ≤ k < l * 4096 + Z.of_nat within + Z.of_nat (length piece))
    then default 0 (piece !! Z.to_nat (k - (l * 4096 + Z.of_nat within))) else file_byte v i k.
Proof.
  intros Hl Hp Hother Hbase Hsame Hblk Hfit Hv' Hrest k Hk. pose proof BLOCK_SIZE_Z as HZ. unfold is_block in Hblk.
  assert (∃ q r, k = q * 4096 + r ∧ 0 ≤ r < 4096) as (q & r & -> & Hr).
  { exists (k / 4096), (k mod 4096). pose proof (Z.div_mod k 4096 ltac:(lia)). pose proof (Z.mod_pos_bound k 4096 ltac:(lia)). lia. }
  rewrite !file_byte_block by lia. destruct (decide (q = l)) as [->|Hne].
  - rewrite Hp, Hv', lookup_put_bytes by lia.
    assert (match mapped (Inode.used_extents i) l with Some p => default 0 (v p !! Z.to_nat r) | None => 0 end
      = default 0 (base !! Z.to_nat r)) as ->.
    { rewrite Hbase. destruct (mapped (Inode.used_extents i) l) as [p'|] eqn:E; [by rewrite (Hsame p' eq_refl)|]. by rewrite lookup_zeros by lia. }
    destruct (decide _), (decide _); first [lia|done|do 2 f_equal; lia].
  - rewrite decide_False by nia. rewrite Hother by done. destruct (mapped _ q) as [p'|] eqn:E; [|done]. by rewrite (Hrest _ _ Hne E).
Qed.

Lemma physical_block_within limit inode l : limit ≤ u64_max → Inode.typed inode → extents_within limit inode →
  physical_block inode l = Ok (mapped (Inode.used_extents inode) l).
Proof. intros Hl Ht Hw. eapply map_extents_mapped; [done|apply (ew_chain _ _ Hw)|by apply Forall_take, Ht]. Qed.

(** An inode with other extents. *)
Definition with_extents (i i' : Inode.t) : Prop := ∃ es n b, i' = set_extents es n b i.

Lemma add_extent_within limit inode l p inode' : limit ≤ u64_max → Inode.typed inode → extents_within limit inode →
  mapped (Inode.used_extents inode) l = None → 0 ≤ l < limit → 0 ≤ p < u64_max → add_extent inode l p = Ok inode' →
  Inode.typed inode' ∧ extents_within limit inode' ∧ with_extents inode inode' ∧
  (∀ k, mapped (Inode.used_extents inode') k = if decide (k = l) then Some p else mapped (Inode.used_extents inode) k).
Proof.
  intros Hlim Ht Hw Hm Hl Hp E. pose proof (add_extent_spec limit inode l p Hlim Ht Hw Hm Hl Hp) as H. rewrite E in H.
  destruct H as (ks & -> & Hk & Hc & Hkt & Htot & Hmap). rewrite (ew_total _ _ Hw) in Htot. split; [|split; [|split]].
  - apply set_extents_typed; [done..|]. rewrite <- Htot. by apply total_fits.
  - by apply set_extents_within.
  - by eexists _, _, _.
  - intros k. by rewrite used_array.
Qed.

Section write.
Context {D : Type} {HD : BlockDevice D} {torn : list Z → Prop} {HC : CrashSafe D torn}.
Notation fs := (Filesystem D).
Context (sb : Superblock.t) (s0 : fs) (m : disk) (st : FilesystemState.t).
Context (Hvol : volume sb (groups s0)) (Hgs : Forall group_unsigned (groups s0)).
Notation S := (session sb s0 m st).
Notation still := (open_still sb s0 m st).
Notation gs := (groups s0).

Notation HL := (vg_layout _ _ Hvol).
Notation Hgb := (vg_group_blocks _ _ Hvol).

(** ** The block that a turn of the loop writes *)

Section chunk.
Context (T : table) (node limit : Z) (i0 : Inode.t) (offset : Z) (input : list Z).
Context (Hlimit : limit ≤ u64_max).
Notation X := (λ n, n = node).

(** The inode in memory after some turns. *)
Record in_memory (v : disk) (pend : FilesystemState.t) (inode : Inode.t) : Prop := {
  im_typed : Inode.typed inode;
  im_within : extents_within limit inode;
  im_same : with_extents i0 inode;
  im_consistent : consistent sb gs X (tset T node (Some inode)) v pend;
  im_head : FilesystemState.orphan_head pend = FilesystemState.orphan_head st;
}.

(** The block found or allocated for [l]: its contents so far, and what is known
    of the view with it. *)
Record target (v : disk) (inode : Inode.t) (l : Z) (v' : disk) (inode' : Inode.t) (p : Z) (base : list Z) : Prop := {
  tg_mapped : mapped (Inode.used_extents inode') l = Some p;
  tg_other : ∀ l', l' ≠ l → mapped (Inode.used_extents inode') l' = mapped (Inode.used_extents inode) l';
  tg_base : base = match mapped (Inode.used_extents inode) l with Some _ => v p | None => zeros BLOCK_SIZE end;
  tg_same : ∀ q, mapped (Inode.used_extents inode) l = Some q → q = p;
  tg_block : is_block base ∧ bytes_ok base;
  tg_data : ∀ b, data_block gs b → v' b = v b;
}.

Definition find_target (inode : Inode.t) (l : Z) : M fs FsError.t (Inode.t * Z * list Z) :=
  mapped ← lift (physical_block inode l);
  match mapped with
  | Some physical => image ← read_block physical; mret (inode, physical, image)
  | None =>
      physical ← allocate_data_block;
      inode ← lift (add_extent inode l physical);
      mret (inode, physical, zeros BLOCK_SIZE)
  end.

Lemma find_target_spec v pend s inode l : S v pend s → in_memory v pend inode → 0 ≤ l < limit →
  wp (find_target inode l)
    (λ '(inode', p, base) s', ∃ v' pend', S v' pend' s' ∧ in_memory v' pend' inode' ∧ target v inode l v' inode' p base)
    (λ _ s', still s') s.
Proof using Hvol Hgs Hlimit.
  intros HS [Ht Hw Hs Hc Hh] Hl. unfold find_target. rewrite (physical_block_within limit) by done. wp_step. apply wp_lift. cbn [wpo].
  destruct (mapped (Inode.used_extents inode) l) as [p|] eqn:Em.
  - destruct (mapped_typed _ _ _ _ Ht Hw Em) as [_ Hp]. wp_step.
    eapply wp_mono; [exact (session_read sb s0 m st v pend s p HS (proj1 Hp))|cbv beta|done].
    intros x s' (-> & -> & Hx & Hbx). wp_steps. exists v, pend. split; [done|]. split; [by split|].
    split; rewrite ?Em; try done. congruence.
  - wp_step. eapply wp_mono; [exact (allocate_data_block_spec sb s0 m st Hgs v pend s HS)|cbv beta|done].
    intros p s1 (v1 & Htaken & _ & HS1). pose proof (block_taken_range s0 Hgs _ _ _ Htaken) as Hp. wp_step. apply wp_lift.
    destruct (add_extent inode l p) as [inode'|e|] eqn:Ea; cbn [wpo]; [|by eapply session_still|].
    2:{ pose proof (add_extent_spec limit inode l p Hlimit Ht Hw Em Hl Hp) as H. by rewrite Ea in H. }
    destruct (add_extent_within limit inode l p inode' Hlimit Ht Hw Em Hl Hp Ea) as (Ht' & Hw' & Hs' & Hm').
    wp_steps. eexists v1, _. split; [exact HS1|]. split; [split; [done..| | |done]|].
    + destruct Hs as (es & n & b & ->), Hs' as (es' & n' & b' & ->). by eexists _, _, _.
    + eapply consistent_ext; [intros n; symmetry; apply tset_tset|].
      exact (consistent_add sb gs HL Hgb X _ v v1 pend node inode inode' l p
        eq_refl (tset_same _ _ _) Htaken Em Hm' Hc).
    + split; rewrite ?Em; try done.
      * by rewrite Hm', decide_True.
      * intros l' Hne. by rewrite Hm', decide_False.
      * split; [apply length_zeros|apply zeros_ok].
      * intros b Hb. apply (taken_spec sb gs HL Hgb _ _ _ Htaken).
        by apply (data_not_bitmap sb).
Qed.

(** ** One turn of the loop *)

(** [consumed] bytes of the input are in the file, and nothing else has changed. *)
Record written (v : disk) (pend : FilesystemState.t) (inode : Inode.t) (consumed : nat) : Prop := {
  wn_memory : in_memory v pend inode;
  wn_consumed : (consumed ≤ length input)%nat;
  wn_bytes : ∀ k, 0 ≤ k → file_byte v inode k =
    if decide (offset ≤ k < offset + Z.of_nat consumed) then default 0 (input !! Z.to_nat (k - offset))
    else file_byte m i0 k;
  wn_others : ∀ n l p, n ≠ node → maps T n l p → v p = m p;
}.

Lemma target_only v pend inode l v' inode' p base pend' : in_memory v pend inode → in_memory v' pend' inode' →
  target v inode l v' inode' p base →
  data_block gs p ∧ (∀ l' q, l' ≠ l → mapped (Inode.used_extents inode) l' = Some q → data_block gs q ∧ q ≠ p) ∧
  (∀ n l' q, n ≠ node → maps T n l' q → data_block gs q ∧ q ≠ p).
Proof using.
  intros Hm [_ _ _ Hc _] [Hp Ho _ _ _ _]. assert (maps (tset T node (Some inode')) node l p) as Hmp.
  { exists inode'. by rewrite tset_same. }
  split; [exact (owned_data _ _ _ _ _ _ _ _ _ Hc Hmp)|]. split.
  - intros l' q Hne Hq. assert (maps (tset T node (Some inode')) node l' q) as Hmq.
    { exists inode'. by rewrite tset_same, Ho. }
    split; [exact (owned_data _ _ _ _ _ _ _ _ _ Hc Hmq)|]. intros ->. by destruct (co_once _ _ _ _ _ _ Hc _ _ _ _ _ Hmp Hmq).
  - intros n l' q Hne Hq. assert (maps (tset T node (Some inode')) n l' q) as Hmq.
    { destruct Hq as (i & Hi & Hq). exists i. by rewrite tset_other. }
    split; [exact (owned_data _ _ _ _ _ _ _ _ _ Hc Hmq)|]. intros ->. by destruct (co_once _ _ _ _ _ _ Hc _ _ _ _ _ Hmp Hmq).
Qed.

Lemma piece_byte consumed count k : (consumed + count ≤ length input)%nat →
  offset + Z.of_nat consumed ≤ k < offset + Z.of_nat consumed + Z.of_nat count →
  slice consumed count input !! Z.to_nat (k - (offset + Z.of_nat consumed)) = input !! Z.to_nat (k - offset).
Proof using. intros Hc Hk. rewrite lookup_slice by lia. f_equal. lia. Qed.

Lemma store_written v pend inode consumed l v' pend' inode' p base within count :
  written v pend inode consumed → in_memory v' pend' inode' → target v inode l v' inode' p base → 0 ≤ l →
  l * 4096 + Z.of_nat within = offset + Z.of_nat consumed → (within + count ≤ BLOCK_SIZE)%nat →
  (consumed + count ≤ length input)%nat →
  let x := put_bytes base within (slice consumed count input) in
  written (upd v' p x) pend' inode' (consumed + count).
Proof using Hvol.
  intros [Hm Hcons Hb Ho] Hm' Ht Hl Hpos Hfit Hroom x. destruct (target_only _ _ _ _ _ _ _ _ _ Hm Hm' Ht) as (Hdp & Hown & Hoth).
  destruct Ht as [Tm To Tb Ts Tbk Td]. assert (length (slice consumed count input) = count) as Hlen by (apply length_slice; lia).
  split.
  - destruct Hm' as [H1 H2 H3 H4 H5]. split; [done..| |done]. exact (consistent_data sb gs HL Hgb _ _ _ _ p x Hdp H4).
  - done.
  - intros k Hk. rewrite (store_piece v (upd v' p x) inode inode' l p base (slice consumed count input) within); try done.
    + rewrite Hlen, Hpos, Hb by done. repeat destruct (decide _); try lia; [|done..]. by rewrite piece_byte.
    + apply Tbk.
    + by rewrite Hlen.
    + unfold upd. by rewrite decide_True.
    + intros l' q Hne Hq. destruct (Hown l' q Hne Hq) as [Hd Hn]. unfold upd. rewrite decide_False by done. by apply Td.
  - intros n l' q Hne Hq. destruct (Hoth n l' q Hne Hq) as [Hd Hn]. unfold upd. rewrite decide_False by done.
    rewrite Td by done. by eapply Ho.
Qed.

Lemma write_one_spec first v pend s inode consumed l : S v pend s → written v pend inode consumed → 0 ≤ l < limit →
  bytes_ok input → let within := if l =? first then Z.to_nat (offset mod 4096) else 0%nat in
  l * 4096 + Z.of_nat within = offset + Z.of_nat consumed →
  wp (write_one first offset input (inode, consumed) l)
    (λ '(inode', consumed') s', ∃ v' pend', S v' pend' s' ∧ written v' pend' inode' consumed' ∧
       consumed' = (consumed + Nat.min (BLOCK_SIZE - within) (length input - consumed))%nat)
    (λ _ s', still s') s.
Proof using Hvol Hgs Hlimit.
  intros HS Hwr Hl Hin within Hpos. unfold write_one. change BLOCK_SIZE_U64 with 4096. apply wp_assoc. wp_step.
  eapply wp_mono; [exact (find_target_spec v pend s inode l HS (wn_memory _ _ _ _ Hwr) Hl)|cbv beta|done].
  intros [[inode' p] base] s1 (v1 & pend1 & HS1 & Hm1 & Ht). fold within.
  set (count := Nat.min (BLOCK_SIZE - within) (length input - consumed)). pose proof BLOCK_SIZE_Z as HZ.
  pose proof (wn_consumed _ _ _ _ Hwr) as Hc. assert (within < BLOCK_SIZE)%nat as Hwi.
  { unfold within. destruct (l =? first); [|lia]. pose proof (Z.mod_pos_bound offset 4096 ltac:(lia)). lia. }
  assert (length (slice consumed count input) = count) as Hlen by (apply length_slice; lia).
  destruct (tg_block _ _ _ _ _ _ _ Ht) as [Hblk Hbok]. wp_step.
  eapply wp_mono; [apply (session_stage _ _ _ _ _ _ _ _ _ HS1)|cbv beta|left_open].
  - unfold is_block in *. by rewrite length_put_bytes by (rewrite Hlen; lia).
  - by apply put_bytes_ok, slice_ok.
  - intros _ s2 [HS2 _]. wp_steps. eexists _, pend1. split; [exact HS2|]. split; [|done].
    apply (store_written v pend inode consumed l v1 pend1 inode' p base within count); try done; lia.
Qed.

(** ** The loop *)

Lemma write_loop_spec s : 0 ≤ offset → bytes_ok input → input ≠ [] →
  (offset + Z.of_nat (length input) - 1) / 4096 < limit → S m st s → written m st i0 0 →
  wp (for_fold (range (offset / 4096) ((offset + Z.of_nat (length input) - 1) / 4096 + 1)) (i0, 0%nat)
        (write_one (offset / 4096) offset input))
    (λ '(inode', consumed') s', ∃ v' pend', S v' pend' s' ∧ written v' pend' inode' consumed' ∧ consumed' = length input)
    (λ _ s', still s') s.
Proof using Hvol Hgs Hlimit.
  intros Hoff Hin Hne Hlast HS Hw0. assert (0 < length input)%nat as Hlen by (by destruct input; cbn; [|lia]).
  set (stop := offset + Z.of_nat (length input)) in *. set (first := offset / 4096). set (last := (stop - 1) / 4096) in *.
  pose proof (Z.div_mod offset 4096 ltac:(lia)) as Hdo. pose proof (Z.mod_pos_bound offset 4096 ltac:(lia)) as Hmo.
  pose proof (Z.div_mod (stop - 1) 4096 ltac:(lia)) as Hds. pose proof (Z.mod_pos_bound (stop - 1) 4096 ltac:(lia)) as Hms.
  fold first in Hdo. fold last in Hds. assert (0 ≤ first ≤ last) as Hfl by (split; [by apply Z.div_pos|apply Z.div_le_mono; lia]).
  apply wp_for_fold with (I := λ prior '(inode, consumed) s, ∃ v pend, S v pend s ∧ written v pend inode consumed ∧
    Z.of_nat consumed = Z.max 0 (Z.min (Z.of_nat (length input)) ((first + Z.of_nat (length prior)) * 4096 - offset))).
  - exists m, st. split; [done|]. split; [done|]. cbn [length]. lia.
  - intros prior l [inode consumed] s1 Hpre (v & pend & HS1 & Hw1 & Hc).
    assert (l = first + Z.of_nat (length prior) ∧ l ≤ last) as [Hl Hll].
    { destruct Hpre as [rest Hr]. pose proof (f_equal (.!! length prior) Hr) as Hx. cbv beta in Hx.
      rewrite <- app_assoc in Hx. cbn [app] in Hx. rewrite list_lookup_middle in Hx by done. apply lookup_seqZ in Hx. lia. }
    pose proof BLOCK_SIZE_Z as HZ.
    eapply wp_mono; [apply (write_one_spec first v pend s1 inode consumed l HS1 Hw1); [lia|done|]|cbv beta|done].
    + destruct (Z.eqb_spec l first); lia.
    + intros [inode' consumed'] s2 (v' & pend' & HS2 & Hw2 & Hc2). exists v', pend'. split; [done|]. split; [done|].
      rewrite length_app. cbn [length]. destruct (Z.eqb_spec l first); lia.
  - intros [inode consumed] s1 (v & pend & HS1 & Hw1 & Hc). exists v, pend. split; [done|]. split; [done|].
    unfold range in Hc. rewrite length_seqZ in Hc. lia.
Qed.
End chunk.

(** ** A file with new contents *)

(** The file [node] of [T], with inode [i0], gets the size [size] and the bytes [f],
    which makes the table [T']; the blocks of all other inodes keep their contents. *)
Definition file_becomes (T T' : table) (node : Z) (i0 : Inode.t) (size : Z) (f : Z → Z) (v : disk)
    (pend : FilesystemState.t) : Prop := ∃ i',
  with_extents (set_size size i0) i' ∧ (∀ n, T' n = tset T node (Some i') n) ∧ volume_ok sb gs T' v pend ∧
  (∀ k, 0 ≤ k → file_byte v i' k = f k) ∧ (∀ n l p, n ≠ node → maps T n l p → v p = m p) ∧
  FilesystemState.orphan_head pend = FilesystemState.orphan_head st.

(** The bytes of a file after a write. *)
Definition overwritten (i0 : Inode.t) (offset : Z) (input : list Z) (k : Z) : Z :=
  if decide (offset ≤ k < offset + Z.of_nat (length input)) then default 0 (input !! Z.to_nat (k - offset))
  else file_byte m i0 k.

Definition wrote (T T' : table) (node offset : Z) (input : list Z) (v : disk) (pend : FilesystemState.t) : Prop := ∃ i0,
  T node = Some i0 ∧ Inode.kind i0 = NodeKind.Regular ∧
  file_becomes T T' node i0 (Z.max (Inode.size i0) (offset + Z.of_nat (length input))) (overwritten i0 offset input) v pend.

Lemma set_size_typed size inode : is_u64 size → Inode.typed inode → Inode.typed (set_size size inode).
Proof using. by intros Hs []. Qed.

Lemma in_memory_start T node limit i0 : volume_ok sb gs T m st → T node = Some i0 → good_inode i0 →
  Valid.size_blocks (Inode.size i0) ≤ limit → in_memory T node limit i0 m st i0.
Proof using.
  intros Hok HT Hg Hl. split.
  - apply Hg.
  - eapply extents_within_mono; [exact Hl|]. by apply extents_valid_within, good_extents.
  - destruct i0. by eexists _, _, _.
  - eapply consistent_ext; [|by eapply consistent_weaken; [|exact Hok]]. intros n. unfold tset. by destruct (decide (n = node)) as [->|].
  - done.
Qed.

(** Storing the inode with its final size. *)
Lemma store_size T node limit i0 v pend inode size x d k f : 0 ≤ node → in_memory T node limit i0 v pend inode →
  is_u64 size → Inode.kind i0 = NodeKind.Regular → encode_inode (set_size size inode) = Ok x →
  inode_location_in gs node = Ok (d, k) → is_block (v (inode_block d k)) →
  Superblock.first_allocatable_block sb ≤ inode_block d k < Superblock.capacity_blocks sb →
  (∀ k, 0 ≤ k → file_byte v inode k = f k) → (∀ n l p, n ≠ node → maps T n l p → v p = m p) →
  ∃ T', file_becomes T T' node i0 size f (inode_put gs v node x) pend.
Proof using Hvol.
  intros Hn [Ht Hw (es & n & b & Hs) Hc Hh] Hsz Hk Ee El Hb Hr Hf Ho. exists (tset T node (Some (set_size size inode))), (set_size size inode).
  assert (consistent sb gs (λ n, n = node) (tset T node (Some (set_size size inode))) v pend) as Hc1.
  { eapply consistent_ext; [intros n'; symmetry; apply tset_tset|].
    by apply (consistent_same sb gs _ _ v pend node inode); [|apply tset_same| |exact Hc]. }
  assert (∀ n l p, maps (tset T node (Some (set_size size inode))) n l p → inode_put gs v node x p = v p) as Hdata.
  { intros n' l p Hm. apply (inode_put_data sb gs HL Hgb); [done|]. by eapply owned_data. }
  split; [|split; [done|split; [|split; [|split; [|done]]]]].
  - exists es, n, b. by rewrite Hs.
  - eapply consistent_weaken; [|eapply (consistent_store sb gs HL Hgb (vg_phase3 _ _ Hvol) _ _ v pend node (set_size size inode) x d k);
      try done].
    + by intros n' [??].
    + apply tset_same.
    + by apply set_size_typed.
    + rewrite Hs. cbn. by rewrite Hk.
    + pose proof (vg_capacity _ _ Hvol). lia.
  - intros j Hj. rewrite <- Hf by done. apply file_byte_ext; [done|]. intros l p Hp. eapply Hdata. exists (set_size size inode).
    split; [apply tset_same|exact Hp].
  - intros n' l p Hne Hm. rewrite <- (Ho n' l p) by done. eapply Hdata. destruct Hm as (i & Hi & Hp).
    exists i. by rewrite tset_other.
Qed.

Context (Hr : ready sb s0 m st) (torn_control : ∀ y c, torn y → JournalControl.decode y ≠ Ok c).

Lemma file_kind_Ok i : match file_kind i with Ok _ => Inode.kind i = NodeKind.Regular | Err _ => True | Abort => False end.
Proof using. unfold file_kind. by destruct (Inode.kind i). Qed.

(** [write_chunk] in one transaction. *)
Lemma write_chunk_spec T s node offset input : volume_ok sb gs T m st → S m st s → 0 ≤ node → 0 ≤ offset →
  bytes_ok input → input ≠ [] →
  let Q := λ n v pend, n = length input ∧ ∃ T', wrote T T' node offset input v pend in
  wp (write_chunk node offset input)
    (λ n s', committed sb s0 Q n s' ∧ offset + Z.of_nat (length input) ≤ u64_max)
    (λ _ s', still s' ∨ undone sb s0 m Q s') s.
Proof using Hvol Hgs Hr torn_control.
  intros Hok HS Hn Hoff Hin Hne Q. assert (0 < length input)%nat as Hlen by (by destruct input; cbn; [|lia]).
  assert (∀ s', still s' → still s' ∨ undone sb s0 m Q s') as Hleft by (by left).
  unfold write_chunk. wp_step. eapply wp_mono; [exact (session_table sb s0 m st Hgs T m st s node HS Hok Hn)|cbv beta|auto].
  intros i0 s' (-> & HT & Hg & _). wp_step. apply wp_lift. pose proof (file_kind_Ok i0) as Hkind.
  destruct (file_kind i0) as [[]|e|]; cbn [wpo]; [|apply Hleft; left_open|done].
  wp_step. apply wp_lift. wp_step; [|apply Hleft; left_open].
  match goal with H : checked_add _ _ _ = Some _ |- _ => apply checked_add_Some in H as [-> Hstop] end.
  change BLOCK_SIZE_U64 with 4096. set (last := (offset + Z.of_nat (length input) - 1) / 4096).
  assert (0 ≤ last < u64_max) as Hlast.
  { split; [apply Z.div_pos; lia|]. apply Z.div_lt_upper_bound; unfold u64_max in *; lia. }
  pose proof (Valid.size_blocks_le _ (Inode.typed_size _ (gi_typed _ Hg))) as Hsb.
  set (limit := Z.max (Valid.size_blocks (Inode.size i0)) (last + 1)). assert (limit ≤ u64_max) as Hlimit by lia.
  pose proof (in_memory_start T node limit i0 Hok HT Hg ltac:(lia)) as Him.
  wp_step. eapply wp_mono; [apply (write_loop_spec T node limit i0 offset input Hlimit s Hoff Hin Hne); [|done|]|cbv beta|auto].
  { fold last. lia. }
  { split; [done|lia| |done]. intros k _. by rewrite decide_False by lia. }
  intros [inode consumed] s1 (v1 & pend1 & HS1 & [Hm1 _ Hb1 Ho1] & ->). pose proof Hm1 as [Ht1 _ (es & c & b & Hs1) _].
  wp_step. eapply wp_mono; [apply (write_inode_spec sb s0 m st Hgs v1 pend1 s1 node _ HS1)|cbv beta|auto].
  { apply (Inode.typed_extents_length _ Ht1). }
  intros _ s2 (x & d & k & Ee & El & Hblk & Hrange & HS2).
  eapply wp_mono; [apply (commit_session sb (vg_geometry _ _ Hvol) (vg_capacity _ _ Hvol) torn_control s0 m st Q
    (length input) _ _ s2 Hr HS2)|by split|by right].
  split; [done|]. rewrite Hs1 in Ee at 1. cbn [set_extents Inode.size] in Ee.
  destruct (Inode.typed_size _ (gi_typed _ Hg)) as [? ?].
  assert (is_u64 (Z.max (Inode.size i0) (offset + Z.of_nat (length input)))) as Hu by (split; lia).
  destruct (store_size T node limit i0 v1 pend1 inode _ x d k _ Hn Hm1 Hu Hkind Ee El Hblk Hrange Hb1 Ho1) as [T' HT'].
  exists T', i0. by split.
Qed.
End write.

(** ** Several chunks *)

Section chunks.
Context {D : Type} {HD : BlockDevice D} {torn : list Z → Prop} {HC : CrashSafe D torn}.
Notation fs := (Filesystem D).
Context (sb : Superblock.t) (s0 : fs) (Hvol : volume sb (groups s0)).
Context (torn_control : ∀ y c, torn y → JournalControl.decode y ≠ Ok c).
Notation gs := (groups s0).

(** What [wrote] says carries over to the device after the commit. *)
Lemma wrote_agree m st T T' node offset input v pend m' st' : wrote sb s0 m st T T' node offset input v pend →
  agree sb m' v → same_counts st' pend → wrote sb s0 m st T T' node offset input m' st'.
Proof using Hvol.
  intros (i0 & HT & Hk & i' & Hi' & HT' & Hok & Hb & Ho & Hh) Ha Hs.
  assert (∀ n l p, maps T' n l p → m' p = v p) as Hm by (intros n l p; by eapply maps_agree).
  exists i0. split; [done|]. split; [done|]. exists i'. split; [done|]. split; [done|]. split; [|split; [|split]].
  - by eapply volume_ok_agree.
  - intros k Hk'. rewrite <- Hb by done. apply file_byte_ext; [done|]. intros l p Hp. apply (Hm node l p).
    exists i'. by rewrite HT', tset_same.
  - intros n l p Hne Hp. rewrite <- (Ho n l p) by done. apply (Hm n l p). destruct Hp as (i & Hi & Hp). exists i.
    by rewrite HT', tset_other.
  - by rewrite (proj1 Hs).
Qed.

(** Two writes one after the other. *)
Lemma wrote_trans m st m1 st1 T T1 T2 node offset in1 in2 v pend : 0 ≤ offset →
  wrote sb s0 m st T T1 node offset in1 m1 st1 →
  wrote sb s0 m1 st1 T1 T2 node (offset + Z.of_nat (length in1)) in2 v pend →
  wrote sb s0 m st T T2 node offset (in1 ++ in2) v pend.
Proof using.
  intros Hoff (i0 & HT & Hk & i1 & (es1 & n1 & b1 & ->) & HT1 & _ & Hb1 & Ho1 & Hh1)
    (i1' & HT1' & _ & i2 & (es2 & n2 & b2 & Hi2) & HT2 & Hok & Hb2 & Ho2 & Hh2).
  rewrite HT1, tset_same in HT1'. injection HT1' as <-. exists i0. split; [done|]. split; [done|].
  exists i2. split; [|split; [|split; [exact Hok|split; [|split; [|congruence]]]]].
  - exists es2, n2, b2. rewrite Hi2, length_app, Nat2Z.inj_add. unfold set_extents, set_size. cbn. f_equal. lia.
  - intros n. rewrite HT2. unfold tset. destruct (decide (n = node)) as [->|Hne]; [done|by rewrite HT1, tset_other].
  - intros k Hk'. rewrite Hb2 by done. unfold overwritten. rewrite Hb1 by done. unfold overwritten. rewrite length_app, Nat2Z.inj_add.
    repeat destruct (decide _); try (lia || done); [rewrite lookup_app_r by lia|rewrite lookup_app_l by lia]; [|done].
    do 2 f_equal. lia.
  - intros n l p Hne Hm. rewrite (Ho2 n l p); [by eapply Ho1|done|]. destruct Hm as (i & Hi & Hp). exists i.
    by rewrite HT1, tset_other.
Qed.

Lemma wrote_groups (s : fs) m st T T' node offset input v pend : groups s = gs →
  wrote sb s m st T T' node offset input v pend → wrote sb s0 m st T T' node offset input v pend.
Proof using. unfold wrote, file_becomes. by intros ->. Qed.

Lemma chunk_capacity_Ok offset : 0 ≤ offset → ∃ n, chunk_capacity sb offset = Ok n ∧ (0 < n)%nat.
Proof using Hvol.
  intros Hoff. unfold chunk_capacity. rewrite (SuperblockCodec.geo_updates _ (vg_geometry _ _ Hvol)).
  change (checked_sub (Z.of_nat PHASE3_MAX_UPDATES) 4) with (Some 60). cbn [ok_or]. rewrite bind_Ok.
  change (checked_mul u64_max 60 BLOCK_SIZE_U64) with (Some 245760). cbn [ok_or]. rewrite bind_Ok.
  change BLOCK_SIZE_U64 with 4096. pose proof (Z.mod_pos_bound offset 4096 ltac:(lia)).
  unfold checked_sub. destruct (Z.leb_spec (offset mod 4096) 245760); [|lia]. cbn [ok_or]. rewrite bind_Ok.
  eexists. split; [done|lia].
Qed.

Context (m : disk) (st : FilesystemState.t) (T : table) (node offset : Z) (input : list Z).
Context (Hnode : 0 ≤ node) (Hoff : 0 ≤ offset) (Hin : bytes_ok input).
Notation wrote_first n := (λ T', wrote sb s0 m st T T' node offset (take n input)).

(** Between two chunks. *)
Record at_chunk (done : nat) (s : fs) (m1 : disk) (st1 : FilesystemState.t) (T1 : table) : Prop := {
  ac_ready : ready sb s m1 st1;
  ac_same : same_volume s0 s;
  ac_ok : volume_ok sb gs T1 m1 st1;
  ac_done : done = 0%nat ∧ s = s0 ∧ m1 = m ∧ st1 = st ∧ T1 = T ∨
    (0 < done)%nat ∧ wrote_first done T1 m1 st1 ∧ offset + Z.of_nat done ≤ u64_max;
}.

(** A commit after the first [n] bytes failed: the device holds those, or more. *)
Definition more_lost (n : nat) (m1 : disk) (s : fs) : Prop := ∃ n' T' v pend,
  (n < n' ≤ length input)%nat ∧ wrote_first n' T' v pend ∧ lost_commit sb s0 m1 v pend s.

(** The first [n] bytes are written. *)
Definition first_written (n : nat) (s : fs) : Prop := ∃ m1 st1 T1,
  (n ≤ length input)%nat ∧ wrote_first n T1 m1 st1 ∧ (ready sb s m1 st1 ∧ same_volume s0 s ∨
    (FilesystemState.decode (m1 (Superblock.filesystem_state_block sb)) = Ok st1 ∧ head_holds sb gs m1) ∧ more_lost n m1 s).

Lemma slice_take_app (l : list Z) a n : take a l ++ slice a n l = take (a + n) l.
Proof using. Transparent slice. unfold slice. by rewrite take_take_drop. Opaque slice. Qed.

(** One more chunk. *)
Lemma wrote_more n c s m1 st1 T1 T2 v pend : at_chunk n s m1 st1 T1 → (n + c ≤ length input)%nat →
  wrote sb s m1 st1 T1 T2 node (offset + Z.of_nat n) (slice n c input) v pend → wrote_first (n + c)%nat T2 v pend.
Proof using Hoff.
  intros [_ Hsame _ Hd] Hc Hw. apply wrote_groups in Hw; [|by destruct Hsame as (_ & -> & _)].
  destruct Hd as [(-> & -> & -> & -> & ->)|(Hn & Hw1 & _)].
  - rewrite Z.add_0_r in Hw. rewrite <- slice_take_app. exact Hw.
  - rewrite <- slice_take_app. eapply wrote_trans; [done|exact Hw1|]. by rewrite length_take_le by lia.
Qed.

Lemma session_dropped s m1 st1 s' : ready sb s m1 st1 → open_still sb s m1 st1 s' → set_transaction None s' = s.
Proof using.
  intros Hr (v & pend & HS). destruct (session_transaction _ _ _ _ _ _ _ HS) as (tx & _ & _ & ->).
  apply (no_transaction s), Hr.
Qed.

Lemma write_chunks_spec fuel : ∀ n s m1 st1 T1, at_chunk n s m1 st1 T1 → (n ≤ length input)%nat →
  (length input ≤ n + fuel)%nat →
  wp (write_chunks fuel node offset input n)
    (λ n' s', n' = 0%nat ∧ input = [] ∧ s' = s0 ∨ first_written n' s')
    (λ _ s', s' = s0 ∨ more_lost 0 m s') s.
Proof using Hvol torn_control Hnode Hoff Hin.
  induction fuel as [|fuel IH]; intros n s m1 st1 T1 Hat Hn Hfuel; cbn [write_chunks].
  all: destruct (Nat.leb_spec (length input) n) as [Hend|Hend]; [|try lia].
  1,2: wp_steps; destruct (ac_done _ _ _ _ _ Hat) as [(-> & -> & _)|(Hpos & Hw & _)];
    [left; by split_and!; [|apply nil_length_inv; lia|]|right; exists m1, st1, T1; split; [done|split; [done|left; by destruct Hat]]].
  pose proof Hat as [Hr Hsame Hok Hd]. wp_step. apply wp_lift.
  assert (checked_add u64_max offset (Z.of_nat n) = Some (offset + Z.of_nat n) ∨ n = 0%nat) as Hadd.
  { destruct Hd as [(-> & _)|(_ & _ & Hfit)]; [by right|left; apply checked_add_fits; lia]. }
  wp_step; [|destruct Hadd as [Ha| ->]; [congruence|]; left; destruct Hd as [(_ & -> & _)|(? & _)]; [done|lia]].
  match goal with H : checked_add _ _ _ = Some _ |- _ => apply checked_add_Some in H as [-> _] end.
  wp_steps. rewrite (id_superblock _ _ _ _ (wr_idle _ _ _ _ (rd_writable _ _ _ _ Hr))).
  destruct (chunk_capacity_Ok (offset + Z.of_nat n) ltac:(lia)) as (cap & -> & Hcap). cbn [wpo].
  set (c := Nat.min (length input - n) cap). assert (0 < c ∧ n + c ≤ length input)%nat as [Hc0 Hc] by lia.
  wp_step. eapply wp_mono; [exact (start_session sb s m1 st1 Hr)|cbv beta|done]. intros _ s1 HS1. wp_step.
  assert (groups s = gs) as Hg by (by destruct Hsame as (_ & ? & _)).
  assert (length (slice n c input) = c) as Hlen by (apply length_slice; lia).
  eapply wp_mono; [apply (write_chunk_spec sb s m1 st1 ltac:(by rewrite Hg) (rd_groups _ _ _ _ Hr) Hr torn_control T1 s1 node
    (offset + Z.of_nat n) (slice n c input)); [by rewrite Hg|exact HS1|done|lia|by apply slice_ok| ]|cbv beta|cbv beta].
  - intros Hnil. rewrite Hnil in Hlen. cbn in Hlen. lia.
  - intros n' s2 [(v & pend & m2 & st2 & (-> & T2 & Hw2) & Hr2 & Hsame2 & Ha2 & Hcnt2) Hfit]. rewrite Hlen in *.
    assert (wrote_first (n + c)%nat T2 m2 st2) as Hw by (eapply wrote_agree; [by eapply wrote_more|done..]).
    assert (same_volume s0 s2) as Hs2 by (by etrans).
    apply (IH (n + c)%nat s2 m2 st2 T2); [|lia..]. split; [done|done| |].
    + by destruct Hw as (? & _ & _ & ? & _ & _ & ? & _).
    + right. split; [lia|]. split; [done|lia].
  - intros e s2 Herr. assert (set_transaction None s2 = s ∨ commit_lost sb s m1 (λ n' v pend, n' = length (slice n c input) ∧
      ∃ T2, wrote sb s m1 st1 T1 T2 node (offset + Z.of_nat n) (slice n c input) v pend) s2) as [Hsame2|Hlost].
    { destruct Herr as [Hstill|[->|Hlost]]; [left; by eapply session_dropped|left; apply (no_transaction s), Hr|by right]. }
    + wp_step. wp_step. rewrite Hsame2. destruct (Nat.eqb_spec n 0) as [->|Hn0]; wp_steps.
      * left. by destruct Hd as [(_ & -> & _)|(? & _)]; [|lia].
      * right. destruct Hd as [(-> & _)|(_ & Hw & _)]; [done|]. exists m1, st1, T1. split; [done|]. split; [done|]. by left.
    + destruct Hlost as (n' & v & pend & (-> & T2 & Hw2) & Htx & Hpoi2 & Hsame2 & Hrec).
      assert (more_lost n m1 s2) as Hm.
      { exists (n + c)%nat, T2, v, pend. split; [lia|]. split; [rewrite Hlen in *; by eapply wrote_more|]. split; [done|]. split; [done|]. split; [by etrans|done]. }
      wp_step. wp_step. rewrite (no_transaction s2 Htx). destruct (Nat.eqb_spec n 0) as [->|Hn0]; wp_steps.
      * right. by destruct Hd as [(_ & _ & -> & _)|(? & _)]; [|lia].
      * right. destruct Hd as [(-> & _)|(_ & Hw & _)]; [done|]. exists m1, st1, T1. split; [done|]. split; [done|]. right.
        split; [split; [apply (id_decode _ _ _ _ (wr_idle _ _ _ _ (rd_writable _ _ _ _ Hr)))|rewrite <- Hg; apply Hr]|done].
Qed.

(** [write]: the first [n] bytes of the input are in the file; or nothing has
    changed, or a commit was lost. *)
Lemma write_spec : ready sb s0 m st → volume_ok sb gs T m st →
  wp (write node offset input)
    (λ n s', n = 0%nat ∧ input = [] ∧ s' = s0 ∨ first_written n s')
    (λ _ s', s' = s0 ∨ more_lost 0 m s') s0.
Proof using Hvol torn_control Hnode Hoff Hin.
  intros Hr Hok. unfold write. pose proof Hr as [[[_ _ _ _ Hst _ _] Hmode Hpoi Hov _] _ _].
  unfold ensure_writable. wp_step. apply wp_reads. rewrite Hpoi, bool_decide_true by done. cbn [wpo].
  apply (write_chunks_spec (length input) 0 s0 m st T); [|lia..]. split; [done|done|done|]. by left.
Qed.
End chunks.
