(* ===== verification/Truncate.v ===== *)
(** * Truncating a file

    [truncate] against the contents of files: the bytes below both the old and the new
    size stay, all others read as zeros, the blocks that are cut off are free again,
    and the volume stays consistent. *)

From Stdlib Require Import ZArith Lia.
From stdpp Require Import base list numbers option.
From S2P Require Import Prelude NullfsBytes NullfsPhase3 NullfsSuperblock NullfsRecord NullfsInode.
From S2P Require Import NullfsDirectory NullfsAllocation BlockDevice Journal JournalDisk JournalSteps.
From S2P Require Import JournalRecovery JournalProps Volume Mutation Extents VolumeReads Session.
From S2P Require Import MutationSteps Atomicity Layout Ownership Mounted FileWrite.

Open Scope Z_scope.
Import Valid.

(** ** Two nested loops as one *)

Definition pair_at (e : Extent.t) (r : Z) : Z * Z := (Extent.logical_first_block e + r, Extent.physical_first_block e + r).

Lemma wp_for_pairs {S E B} (es : list Extent.t) (f : B → Z * Z → M S E B) (J : list (Z * Z) → B → S → Prop)
    (Q : B → S → Prop) (R : E → S → Prop) acc s :
  J [] acc s →
  (∀ prior x acc s, prior ++ [x] `prefix_of` pairs es → J prior acc s → wp (f acc x) (λ acc s, J (prior ++ [x]) acc s) R s) →
  (∀ acc s, J (pairs es) acc s → Q acc s) →
  wp (for_fold es acc (λ acc e, for_fold (range 0 (Extent.length_blocks e)) acc (λ acc r, f acc (pair_at e r)))) Q R s.
Proof.
  intros Hi Hf HQ. apply wp_for_fold with (I := λ prior, J (pairs prior)); [done| |done].
  intros prior e acc' s' [rest Hpre] Hj. apply wp_for_fold with (I := λ inner, J (pairs prior ++ (pair_at e <$> inner))).
  - by rewrite app_nil_r.
  - intros inner r acc1 s1 [more Hmore] Hj1. rewrite fmap_app, app_assoc. apply Hf; [|done].
    exists ((pair_at e <$> more) ++ pairs rest). rewrite Hpre, !pairs_app. unfold pairs at 2. cbn [fmap list_fmap concat].
    rewrite app_nil_r. change (extent_pairs e) with (pair_at e <$> seqZ 0 (Extent.length_blocks e)).
    unfold range in Hmore. rewrite Z.sub_0_r in Hmore. rewrite Hmore, !fmap_app, <- !app_assoc. done.
  - intros acc1 s1. unfold range. rewrite Z.sub_0_r, pairs_app. unfold pairs at 3. cbn [fmap list_fmap concat].
    by rewrite app_nil_r.
Qed.

Section truncate.
Context {D : Type} {HD : BlockDevice D} {torn : list Z → Prop} {HC : CrashSafe D torn}.
Notation fs := (Filesystem D).
Context (sb : Superblock.t) (s0 : fs) (m : disk) (st : FilesystemState.t).
Context (Hvol : volume sb (groups s0)) (Hgs : Forall group_unsigned (groups s0)).
Notation S := (session sb s0 m st).
Notation still := (open_still sb s0 m st).
Notation gs := (groups s0).
Notation HL := (vg_layout _ _ Hvol).
Notation Hgb := (vg_group_blocks _ _ Hvol).

Section shrink.
Context (T : table) (node limit : Z) (i0 : Inode.t) (retained : Z).
Context (Hlimit : limit ≤ u64_max).

(** The blocks above the new end. *)
Definition above (done : list (Z * Z)) : list Z := (filter (λ x, retained ≤ x.1) done).*2.

(** After the blocks [done]: the extents kept and the blocks freed. *)
Record retaining (done : list (Z * Z)) (ks : list Extent.t) (v : disk) (pend : FilesystemState.t) : Prop := {
  rt_length : (length ks ≤ INLINE_EXTENT_COUNT)%nat;
  rt_chain : chain limit 0 ks;
  rt_typed : Forall Extent.typed ks;
  rt_mapped : ∀ l p, mapped ks l = Some p ↔ (l, p) ∈ done ∧ l < retained;
  rt_freed : blocks_freed gs m (above done) v;
  rt_pending : pend = with_more_free (length (above done)) st;
}.

Lemma take_array ks : take (length ks) (array ks) = ks.
Proof using. unfold array. by rewrite take_app_length. Qed.

Lemma above_snoc done x : above (done ++ [x]) = above done ++ if decide (retained ≤ x.1) then [x.2] else [].
Proof using. unfold above. rewrite list.filter_app, fmap_app. f_equal. rewrite filter_cons, filter_nil. by destruct (decide _). Qed.

Lemma retain_step done l p ks ks' v pend : retaining done ks v pend → l < retained → block_added limit ks l p ks' →
  (∀ p', (l, p') ∉ done) → retaining (done ++ [(l, p)]) ks' v pend.
Proof using.
  intros [Hn Hc Ht Hm Hf Hp] Hl (Hn' & Hc' & Ht' & _ & Hm') Hnew.
  assert (above (done ++ [(l, p)]) = above done) as Ha by (rewrite above_snoc, decide_False by (cbn; lia); apply app_nil_r).
  split; rewrite ?Ha; try done. intros l' p'. rewrite Hm', elem_of_app, list_elem_of_singleton.
  destruct (decide (l' = l)) as [->|Hne].
  - split; [intros [= <-]; auto|]. intros [[Hd|[= ->]] _]; [by apply Hnew in Hd|done].
  - rewrite Hm. split; [intros [? ?]; auto|]. intros [[?|[= -> _]] ?]; [done|congruence].
Qed.

Lemma free_step done l p ks v v' pend : retaining done ks v pend → retained ≤ l → block_freed gs v v' p →
  retaining (done ++ [(l, p)]) ks v' (with_free_blocks (FilesystemState.free_block_count pend + 1) pend).
Proof using.
  intros [Hn Hc Ht Hm Hf Hp] Hl Hfr. assert (above (done ++ [(l, p)]) = above done ++ [p]) as Ha.
  { by rewrite above_snoc, decide_True. }
  split; rewrite ?Ha; try done.
  - intros l' p'. rewrite Hm, elem_of_app, list_elem_of_singleton. split; [intros [? ?]; auto|].
    intros [[?|[= -> _]] ?]; [done|lia].
  - by eapply bf_snoc.
  - rewrite length_app. cbn [length]. rewrite <- more_free_add, Hp. done.
Qed.

Lemma retain_loop_spec es s : S m st s → chain limit 0 es → Forall Extent.typed es →
  wp (for_fold es (replicate INLINE_EXTENT_COUNT Extent.default, 0%nat) (truncate_extent retained))
    (λ '(merged, count) s', ∃ ks v pend, merged = array ks ∧ count = length ks ∧ retaining (pairs es) ks v pend ∧ S v pend s')
    (λ _ s', still s') s.
Proof using Hgs Hlimit.
  intros HS Hc Ht.
  apply (wp_for_pairs es (λ acc x, if x.1 <? retained then lift (add_extent_raw acc.1 acc.2 x.1 x.2)
           else _ ← free_data_block x.2; mret acc)
    (λ done '(merged, count) s', ∃ ks v pend, merged = array ks ∧ count = length ks ∧ retaining done ks v pend ∧ S v pend s')).
  - exists [], m, st. split; [done|]. split; [done|]. split; [|done]. split; try done; [apply Nat.le_0_l| |constructor|by rewrite more_free_0].
    intros l p. split; [done|]. by intros [?%not_elem_of_nil _].
  - intros prior [l p] [merged count] s1 [rest Hpre] (ks & v & pend & -> & -> & Hrt & HS1). cbn [fst snd].
    assert ((l, p) ∈ pairs es) as Hin by (rewrite Hpre, !elem_of_app, list_elem_of_singleton; auto).
    apply (pairs_elem _ _ _ _ _ Hc) in Hin. destruct (mapped_chain _ _ _ _ Ht Hc Hin) as [Hl Hp].
    assert (∀ p', (l, p') ∉ prior) as Hnew.
    { intros p' Hp'. pose proof (pairs_nodup _ _ _ Hc) as Hnd. rewrite Hpre, <- app_assoc, fmap_app in Hnd.
      apply list.NoDup_app in Hnd as (_ & Hd & _). apply (Hd l); [by apply list_elem_of_fmap; exists (l, p')|]. by left. }
    destruct (Z.ltb_spec l retained) as [Hlt|Hge].
    + apply wp_lift. assert (mapped ks l = None) as Hnone.
      { destruct (mapped ks l) as [p'|] eqn:Em; [|done]. apply (rt_mapped _ _ _ _ Hrt) in Em as [Hp' _]. by apply Hnew in Hp'. }
      pose proof (add_extent_raw_spec limit (array ks) (length ks) l p Hlimit) as Ha. rewrite take_array in Ha.
      specialize (Ha (rt_typed _ _ _ _ Hrt) (rt_chain _ _ _ _ Hrt) Hnone Hl Hp).
      destruct (add_extent_raw _ _ _ _) as [[merged' c']|e|]; cbn [wpo]; [|left_open|done].
      destruct Ha as (ks' & -> & -> & Hadd).
      exists ks', v, pend. split; [done|]. split; [done|]. split; [by eapply retain_step|done].
    + wp_step. eapply wp_mono; [exact (free_data_block_spec sb s0 m st Hgs v pend s1 p HS1)|cbv beta|done].
      intros _ s2 (v' & Hfr & HS2). wp_steps. eexists ks, v', _. split; [done|]. split; [done|]. split; [by eapply free_step|exact HS2].
  - done.
Qed.

Lemma above_elem done p : p ∈ above done ↔ ∃ l, (l, p) ∈ done ∧ retained ≤ l.
Proof using.
  unfold above. rewrite list_elem_of_fmap. split.
  - intros ([l q] & -> & [Hr Hin]%list_elem_of_filter). by exists l.
  - intros (l & Hin & Hr). exists (l, p). split; [done|]. by apply list_elem_of_filter.
Qed.

Lemma above_nodup es : chain limit 0 es → (∀ l1 l2 p, mapped es l1 = Some p → mapped es l2 = Some p → l1 = l2) →
  NoDup (above (pairs es)).
Proof using.
  intros Hc Hinj. apply NoDup_fmap_2_strong.
  - intros [l1 p1] [l2 p2] [_ H1]%list_elem_of_filter [_ H2]%list_elem_of_filter E. cbn in E. subst p2.
    apply (pairs_elem _ _ _ _ _ Hc) in H1, H2. by rewrite (Hinj _ _ _ H1 H2).
  - apply list.NoDup_filter, (NoDup_fmap_1 fst), (pairs_nodup _ _ _ Hc).
Qed.

(** The inode with the extents that stay. *)
Definition cut (ks : list Extent.t) : Inode.t := set_extents (array ks) (Z.of_nat (length ks)) (total ks) i0.

Lemma cut_mapped es ks v pend l p : retaining (pairs es) ks v pend → chain limit 0 es →
  mapped (Inode.used_extents (cut ks)) l = Some p ↔ mapped es l = Some p ∧ l < retained.
Proof using.
  intros Hrt Hc. unfold cut. rewrite used_array by (done || apply Hrt). rewrite (rt_mapped _ _ _ _ Hrt).
  by rewrite (pairs_elem _ _ _ _ _ Hc).
Qed.

Lemma cut_memory ks v pend : in_memory sb s0 st T node limit i0 m st i0 →
  retaining (pairs (Inode.used_extents i0)) ks v pend → in_memory sb s0 st T node limit i0 v pend (cut ks).
Proof using Hvol.
  intros [Ht Hw _ Hc] Hrt. pose proof (ew_chain _ _ Hw) as Hch. set (es := Inode.used_extents i0) in *.
  assert (∀ l1 l2 p, mapped es l1 = Some p → mapped es l2 = Some p → l1 = l2) as Hinj.
  { intros l1 l2 p H1 H2. apply (co_once _ _ _ _ _ _ Hc node l1 node l2 p); exists i0; by rewrite tset_same. }
  split.
  - apply set_extents_typed; [done|apply Hrt..|]. apply total_fits; apply Hrt.
  - apply set_extents_within; [apply Hrt..|done].
  - by eexists _, _, _.
  - eapply consistent_ext; [intros n; symmetry; apply tset_tset|]. rewrite (rt_pending _ _ _ _ Hrt).
    eapply (consistent_free sb gs HL Hgb _ _ m v st node i0 (cut ks) (above (pairs es))); [done|apply tset_same|apply Hrt|..|exact Hc].
    + by apply above_nodup.
    + intros p (l & Hl & _)%above_elem. exists l. by apply (pairs_elem _ _ _ _ _ Hch).
    + intros l p. rewrite (cut_mapped es ks v pend) by done. split; intros [Hm Hl]; (split; [done|]).
      * intros (l' & Hl' & Hr)%above_elem. apply (pairs_elem _ _ _ _ _ Hch) in Hl'. rewrite (Hinj _ _ _ Hm Hl') in Hl. lia.
      * destruct (decide (l < retained)); [done|]. destruct Hl. apply above_elem. exists l. split; [|lia].
        by apply (pairs_elem _ _ _ _ _ Hch).
  - by rewrite (rt_pending _ _ _ _ Hrt).
Qed.

Lemma freed_data es ks v pend b : retaining (pairs es) ks v pend → data_block gs b → v b = m b.
Proof using Hvol.
  intros Hrt Hb. pose proof (rt_freed _ _ _ _ Hrt) as Hf. apply (data_not_bitmap sb gs Hvol) in Hb. revert Hb.
  clear Hrt. induction Hf as [|? ps v1 p v2 _ IH (g & bm & Hg & Hset & ->)]; intros Hb; [done|].
  unfold upd. rewrite decide_False; [by apply IH|]. apply find_Some in Hg as [_ [k Hk]%list_elem_of_lookup]. by eapply Hb.
Qed.

Lemma cut_bytes ks v pend k : in_memory sb s0 st T node limit i0 m st i0 →
  retaining (pairs (Inode.used_extents i0)) ks v pend →
  file_byte v (cut ks) k = if decide (k / 4096 < retained) then file_byte m i0 k else 0.
Proof using Hvol.
  intros [Ht Hw _ Hc] Hrt. pose proof (ew_chain _ _ Hw) as Hch. unfold file_byte.
  pose proof (λ p, cut_mapped _ _ _ _ (k / 4096) p Hrt Hch) as Hm.
  destruct (mapped (Inode.used_extents (cut ks)) _) as [p|] eqn:E.
  - destruct (proj1 (Hm p) eq_refl) as [Ho Hlt]. rewrite decide_True, Ho by done. f_equal.
    rewrite (freed_data _ _ _ _ p Hrt); [done|]. eapply owned_data; [exact Hc|]. exists i0. by rewrite tset_same.
  - destruct (decide _) as [Hlt|]; [|done]. destruct (mapped (Inode.used_extents i0) _) as [p|] eqn:Eo; [|done].
    pose proof (proj2 (Hm p) (conj eq_refl Hlt)). done.
Qed.
End shrink.

(** What is cut off of a file that shrinks reads as zeros. *)
Definition clipped (i0 : Inode.t) (size k : Z) : Z :=
  if decide (size ≤ k ∧ size < Inode.size i0) then 0 else file_byte m i0 k.

(** The end of the file in its last block. *)
Lemma cut_end i0 size k : 0 ≤ size < Inode.size i0 → 0 ≤ k →
  (if decide (k / 4096 < (size + 4095) / 4096) then file_byte m i0 k else 0) =
  if decide (size ≤ k < (size + 4095) / 4096 * 4096) then file_byte m i0 k else clipped i0 size k.
Proof using.
  intros Hs Hk. unfold clipped. pose proof (Z.div_mod k 4096 ltac:(lia)). pose proof (Z.mod_pos_bound k 4096 ltac:(lia)).
  pose proof (Z.div_mod (size + 4095) 4096 ltac:(lia)). pose proof (Z.mod_pos_bound (size + 4095) 4096 ltac:(lia)).
  repeat destruct (decide _); try lia; done.
Qed.

(** What [shrink] leaves in memory. *)
Definition shrunk (T : table) (node limit : Z) (i0 : Inode.t) (size : Z) (i' : Inode.t) (s' : fs) : Prop := ∃ v pend,
  S v pend s' ∧ in_memory sb s0 st T node limit i0 v pend i' ∧ (∀ k, 0 ≤ k → file_byte v i' k = clipped i0 size k) ∧
  (∀ n l p, n ≠ node → maps T n l p → v p = m p).

Lemma others_kept T node limit i0 n l p : in_memory sb s0 st T node limit i0 m st i0 → n ≠ node → maps T n l p →
  data_block gs p ∧ ∀ l', mapped (Inode.used_extents i0) l' ≠ Some p.
Proof using.
  intros [_ _ _ Hc] Hne (i & Hi & Hp). assert (maps (tset T node (Some i0)) n l p) as Hm by (exists i; by rewrite tset_other).
  split; [by eapply owned_data|]. intros l' Hl'. assert (maps (tset T node (Some i0)) node l' p) as Hm' by (exists i0; by rewrite tset_same).
  by destruct (co_once _ _ _ _ _ _ Hc _ _ _ _ _ Hm Hm').
Qed.

(** The tail of the last block cleared. *)
Lemma tail_cleared T node limit i0 ks v pend size p : in_memory sb s0 st T node limit i0 m st i0 →
  retaining limit ((size + 4095) / 4096) (pairs (Inode.used_extents i0)) ks v pend → 0 ≤ size < Inode.size i0 →
  size mod 4096 ≠ 0 → mapped (Inode.used_extents (cut i0 ks)) (size / 4096) = Some p → is_block (v p) →
  let within := Z.to_nat (size mod 4096) in
  let v' := upd v p (put_bytes (v p) within (zeros (BLOCK_SIZE - within))) in
  in_memory sb s0 st T node limit i0 v' pend (cut i0 ks) ∧
  (∀ k, 0 ≤ k → file_byte v' (cut i0 ks) k = clipped i0 size k) ∧
  (∀ n l q, n ≠ node → maps T n l q → v' q = m q).
Proof using Hvol.
  intros Hm Hrt Hs Hmod Hp Hb within v'. pose proof (cut_memory T node limit i0 _ ks v pend Hm Hrt) as [H1 H2 H3 H4 H5].
  assert (maps (tset T node (Some (cut i0 ks))) node (size / 4096) p) as Hmp by (eexists; by rewrite tset_same).
  pose proof (owned_data _ _ _ _ _ _ _ _ _ H4 Hmp) as Hd. pose proof BLOCK_SIZE_Z as HZ.
  pose proof (Z.div_mod size 4096 ltac:(lia)). pose proof (Z.mod_pos_bound size 4096 ltac:(lia)).
  assert (Z.of_nat within = size mod 4096) as Hw by lia. assert (0 ≤ size / 4096) as Hq by (apply Z.div_pos; lia).
  split; [|split].
  - split; [done..| |done]. exact (consistent_data sb gs HL Hgb _ _ _ _ p _ Hd H4).
  - intros k Hk. rewrite (store_piece v v' (cut i0 ks) (cut i0 ks) (size / 4096) p (v p) (zeros (BLOCK_SIZE - within)) within);
      try done; rewrite ?Hp; try done.
    + rewrite length_zeros, (cut_bytes T node limit i0 _ ks v pend k Hm Hrt), cut_end by done.
      assert ((size + 4095) / 4096 = size / 4096 + 1) as Hceil.
      { replace (size + 4095) with ((size / 4096) * 4096 + (size mod 4096 + 4095)) by lia. rewrite Z.div_add_l by lia. f_equal.
        symmetry. apply (Z.div_unique _ _ 1 (size mod 4096 - 1)); lia. }
      rewrite Hceil. unfold clipped. repeat destruct (decide _); try lia; [|done..]. by rewrite lookup_zeros by lia.
    + intros q [= <-]. done.
    + rewrite length_zeros. lia.
    + unfold v', upd. by rewrite decide_True.
    + intros l' q Hne Hq'. unfold v', upd. rewrite decide_False; [done|]. intros ->. destruct Hne.
      apply (co_once _ _ _ _ _ _ H4 node l' node (size / 4096) p); eexists; by rewrite tset_same.
  - intros n l q Hne Hq'. destruct (others_kept T node limit i0 n l q Hm Hne Hq') as [Hdq Hno]. unfold v', upd.
    rewrite decide_False; [by eapply freed_data|]. intros ->.
    apply (cut_mapped _ _ _ _ _ _ _ _ _ Hrt (ew_chain _ _ (im_within _ _ _ _ _ _ _ _ _ _ Hm))) in Hp as [Hp _]. by eapply Hno.
Qed.

(** Without a tail to clear. *)
Lemma cut_exact T node limit i0 ks v pend size : in_memory sb s0 st T node limit i0 m st i0 →
  retaining limit ((size + 4095) / 4096) (pairs (Inode.used_extents i0)) ks v pend → 0 ≤ size < Inode.size i0 →
  (size mod 4096 = 0 ∨ mapped (Inode.used_extents (cut i0 ks)) (size / 4096) = None) →
  ∀ k, 0 ≤ k → file_byte v (cut i0 ks) k = clipped i0 size k.
Proof using Hvol.
  intros Hm Hrt Hs Hend k Hk. pose proof (cut_bytes T node limit i0 _ ks v pend k Hm Hrt) as Hb.
  pose proof (cut_end i0 size k Hs Hk) as He. rewrite <- Hb in He. rewrite He. destruct (decide (size ≤ k < _)) as [Hd|]; [|done].
  pose proof (Z.div_mod size 4096 ltac:(lia)). pose proof (Z.mod_pos_bound size 4096 ltac:(lia)).
  pose proof (Z.div_mod (size + 4095) 4096 ltac:(lia)). pose proof (Z.mod_pos_bound (size + 4095) 4096 ltac:(lia)).
  destruct Hend as [Hmod|Hnone]; [lia|]. rewrite decide_True in Hb.
  2:{ apply Z.div_lt_upper_bound; lia. }
  rewrite <- Hb. unfold clipped. rewrite decide_True by lia. unfold file_byte.
  assert (k / 4096 = size / 4096) as ->; [|by rewrite Hnone].
  pose proof (Z.div_mod k 4096 ltac:(lia)). pose proof (Z.mod_pos_bound k 4096 ltac:(lia)). lia.
Qed.

Lemma shrink_spec T node limit i0 size s : S m st s → in_memory sb s0 st T node limit i0 m st i0 → limit ≤ u64_max →
  0 ≤ size < Inode.size i0 →
  wp (shrink i0 size) (λ i' s', shrunk T node limit i0 size i' s') (λ _ s', still s') s.
Proof using Hvol Hgs.
  intros HS Hm Hlim Hs. pose proof Hm as [Ht Hw _ _]. unfold shrink. change BLOCK_SIZE_U64 with 4096. change (4096 - 1) with 4095.
  set (R := (size + 4095) / 4096). wp_step.
  eapply wp_mono; [apply (retain_loop_spec limit R Hlim _ s HS (ew_chain _ _ Hw)); by apply Forall_take, Ht|cbv beta|done].
  intros [merged count] s1 (ks & v & pend & -> & -> & Hrt & HS1). rewrite take_array.
  change (set_extents (array ks) (Z.of_nat (length ks)) (sum_lengths ks) i0) with (cut i0 ks).
  pose proof (cut_memory T node limit i0 R ks v pend Hm Hrt) as Hm1.
  assert (∀ n l q, n ≠ node → maps T n l q → v q = m q) as Ho.
  { intros n l q Hne Hq. eapply freed_data; [exact Hrt|]. by eapply others_kept. }
  destruct (Z.eqb_spec (size mod 4096) 0) as [Hmod|Hmod].
  { wp_steps. exists v, pend. split; [done|]. split; [done|]. split; [|done]. eapply cut_exact; eauto. }
  wp_step. wp_step. rewrite (physical_block_within limit) by (done || apply Hm1). apply wp_lift. cbn [wpo].
  destruct (mapped (Inode.used_extents (cut i0 ks)) (size / 4096)) as [p|] eqn:Ep.
  - destruct (mapped_typed _ _ _ _ (im_typed _ _ _ _ _ _ _ _ _ _ Hm1) (im_within _ _ _ _ _ _ _ _ _ _ Hm1) Ep) as [_ Hp].
    wp_step. eapply wp_mono; [exact (session_read sb s0 m st v pend s1 p HS1 (proj1 Hp))|cbv beta|done].
    intros x s2 (-> & -> & Hx & Hbx).
    pose proof (tail_cleared T node limit i0 ks v pend size p Hm Hrt Hs Hmod Ep Hx) as (Hm2 & Hb2 & Ho2).
    pose proof BLOCK_SIZE_Z as HZ. pose proof (Z.mod_pos_bound size 4096 ltac:(lia)).
    eapply wp_mono; [apply (session_stage _ _ _ _ _ _ _ _ _ HS1)|cbv beta|left_open].
    + unfold is_block in *. rewrite length_put_bytes by (rewrite length_zeros; lia). done.
    + apply put_bytes_ok; [done|apply zeros_ok].
    + intros _ s3 [HS3 _]. wp_steps. eexists _, pend. split; [exact HS3|]. split; [exact Hm2|]. by split.
  - wp_steps. exists v, pend. split; [done|]. split; [done|]. split; [|done]. eapply cut_exact; eauto.
Qed.

Context (Hr : ready sb s0 m st) (torn_control : ∀ y c, torn y → JournalControl.decode y ≠ Ok c).

(** The bytes of a file after [truncate]: those below both sizes, then zeros. *)
Definition truncated (i0 : Inode.t) (size k : Z) : Z :=
  if decide (k < size ∧ k < Inode.size i0) then file_byte m i0 k else 0.

Lemma clipped_truncated i0 size k : (Inode.size i0 ≤ k → file_byte m i0 k = 0) → clipped i0 size k = truncated i0 size k.
Proof using. intros Hz. unfold clipped, truncated. repeat destruct (decide _); try lia; try done; (apply Hz || (symmetry; apply Hz)); lia. Qed.

(** The file has the new size. *)
Definition resized (T : table) (node size : Z) : effect unit := λ _ v pend, ∃ i0 T',
  T node = Some i0 ∧ Inode.kind i0 = NodeKind.Regular ∧
  file_becomes sb s0 m st T T' node i0 size (truncated i0 size) v pend.

(** [truncate] is atomic, and sets the size and the bytes of the file. *)
Lemma truncate_spec T node size : volume_ok sb gs T m st → zero_tails T m → 0 ≤ node → is_u64 size →
  atomic sb s0 m (resized T node size) (truncate node size).
Proof using Hvol Hgs Hr torn_control.
  intros Hok Hz Hn Hsz. apply (atomic_intro sb s0 m st); [done|]. intros s HS. set (Q := resized T node size).
  assert (∀ s', still s' → still s' ∨ undone sb s0 m Q s') as Hleft by (by left).
  wp_step. eapply wp_mono; [exact (session_table sb s0 m st Hgs T m st s node HS Hok Hn)|cbv beta|auto].
  intros i0 s' (-> & HT & Hg & _). wp_step. apply wp_lift. pose proof (file_kind_Ok i0) as Hkind.
  destruct (file_kind i0) as [[]|e|]; cbn [wpo]; [|apply Hleft; left_open|done].
  pose proof (Valid.size_blocks_le _ (Inode.typed_size _ (gi_typed _ Hg))) as Hsb.
  set (limit := Valid.size_blocks (Inode.size i0)) in *.
  pose proof (in_memory_start sb s0 m st T node limit i0 Hok HT Hg ltac:(done)) as Him.
  wp_step. eapply (wp_mono _ (λ i' s', shrunk T node limit i0 size i' s') _ (λ _ s', still s'));
    [|cbv beta|auto].
  { destruct (Z.ltb_spec size (Inode.size i0)) as [Hlt|Hge]; [apply shrink_spec; [done..|split; [apply Hsz|done]]|].
    wp_steps. exists m, st. split; [done|]. split; [done|]. split; [|done]. intros k Hk. unfold clipped. by rewrite decide_False by lia. }
  intros inode s1 (v1 & pend1 & HS1 & Hm1 & Hc1 & Ho1).
  assert (∀ k, 0 ≤ k → file_byte v1 inode k = truncated i0 size k) as Hb1.
  { intros k Hk. rewrite Hc1 by done. apply clipped_truncated. by apply (Hz node). }
  wp_step. eapply wp_mono; [apply (write_inode_spec sb s0 m st Hgs v1 pend1 s1 node _ HS1)|cbv beta|auto].
  { apply (Inode.typed_extents_length _ (im_typed _ _ _ _ _ _ _ _ _ _ Hm1)). }
  intros _ s2 (x & d & k & Ee & El & Hblk & Hrange & HS2).
  destruct (store_size sb s0 m st Hvol T node limit i0 v1 pend1 inode size x d k _ Hn Hm1 Hsz Hkind Ee El Hblk Hrange Hb1 Ho1) as [T' HT'].
  eapply wp_mono; [apply (commit_session_unit sb (vg_geometry _ _ Hvol) (vg_capacity _ _ Hvol) torn_control s0 m st Q _ _ s2 Hr HS2)
    |cbv beta; by intros []|by right].
  exists i0, T'. by split.
Qed.
End truncate.
