(* ===== verification/Namespace.v ===== *)
(** * The tree of directories

    The namespace as the directories store it, apart from its layout on the device:
    the table of inodes and the entries of every directory by their position.  The
    invariant: the entries of a directory have different names and are counted, an
    inode has one entry, entries and inodes agree, and every directory leads to the
    root.  Creating, removing, moving and orphaning a node preserve it. *)

From Stdlib Require Import ZArith Lia.
From stdpp Require Import base list numbers option gmap.
From S2P Require Import Prelude NullfsBytes NullfsInode NullfsDirectory Journal Volume Mutation.
From S2P Require Import Extents VolumeReads Ownership.

Open Scope Z_scope.

(** The entries in use of a directory, by block and slot. *)
Abbreviation entries := (gmap (Z * nat) DirectoryEntry.t).
Abbreviation forest := (Z → entries).

Definition fset (E : forest) (n : Z) (es : entries) : forest := λ n', if decide (n' = n) then es else E n'.

Lemma fset_same E n es : fset E n es n = es.
Proof. unfold fset. by rewrite decide_True. Qed.

Lemma fset_other E n es n' : n' ≠ n → fset E n es n' = E n'.
Proof. intros. unfold fset. by rewrite decide_False. Qed.

Definition is_dir (T : table) (n : Z) : Prop := ∃ i, T n = Some i ∧ Inode.kind i = NodeKind.Directory.

(** A directory from which the parents lead to the root. *)
Inductive rooted (T : table) : Z → Prop :=
| rooted_root : rooted T ROOT_INODE
| rooted_up n i : T n = Some i → Inode.kind i = NodeKind.Directory → rooted T (Inode.parent_inode i) → rooted T n.

(** The same, without passing [source]. *)
Inductive avoids (T : table) (source : Z) : Z → Prop :=
| avoids_root : source ≠ ROOT_INODE → avoids T source ROOT_INODE
| avoids_up n i : n ≠ source → T n = Some i → Inode.kind i = NodeKind.Directory →
    avoids T source (Inode.parent_inode i) → avoids T source n.

(** An entry and the inode it names. *)
Record names (T : table) (n : Z) (e : DirectoryEntry.t) (t : Inode.t) : Prop := {
  nm_inode : T (DirectoryEntry.inode e) = Some t;
  nm_generation : Inode.generation t = DirectoryEntry.generation e;
  nm_kind : Inode.kind t = DirectoryEntry.kind e;
  nm_linked : Inode.link_count t ≠ 0;
  nm_root : DirectoryEntry.inode e ≠ ROOT_INODE;
  nm_parent : Inode.kind t = NodeKind.Directory → Inode.parent_inode t = n;
}.

(** The invariant; the nodes of [X] need not have an entry. *)
Record tree_but (X : Z → Prop) (T : table) (E : forest) : Prop := {
  tr_root : ∃ i, T ROOT_INODE = Some i ∧ Inode.kind i = NodeKind.Directory ∧ Inode.parent_inode i = ROOT_INODE;
  tr_linked : ∀ n i, T n = Some i → Inode.kind i = NodeKind.Directory → Inode.link_count i ≠ 0;
  tr_dir : ∀ n pos e, E n !! pos = Some e → is_dir T n;
  tr_count : ∀ n i, T n = Some i → Inode.kind i = NodeKind.Directory → Inode.directory_entry_count i = Z.of_nat (size (E n));
  tr_names : ∀ n pos1 e1 pos2 e2, E n !! pos1 = Some e1 → E n !! pos2 = Some e2 →
    DirectoryEntry.name_bytes e1 = DirectoryEntry.name_bytes e2 → pos1 = pos2;
  tr_target : ∀ n pos e, E n !! pos = Some e → ∃ t, names T n e t;
  tr_once : ∀ n1 pos1 e1 n2 pos2 e2, E n1 !! pos1 = Some e1 → E n2 !! pos2 = Some e2 →
    DirectoryEntry.inode e1 = DirectoryEntry.inode e2 → n1 = n2 ∧ pos1 = pos2;
  tr_named : ∀ n i, T n = Some i → n ≠ ROOT_INODE → Inode.link_count i ≠ 0 → ¬ X n →
    ∃ p pos e, E p !! pos = Some e ∧ DirectoryEntry.inode e = n;
  tr_rooted : ∀ n, is_dir T n → rooted T n;
}.
Definition tree : table → forest → Prop := tree_but (λ _, False).

(** No entry has the node. *)
Definition unlisted (E : forest) (node : Z) : Prop := ∀ n pos e, E n !! pos = Some e → DirectoryEntry.inode e ≠ node.

(** The fields of an inode that the tree depends on. *)
Definition alike (i i' : Inode.t) : Prop :=
  Inode.kind i' = Inode.kind i ∧ Inode.generation i' = Inode.generation i ∧ Inode.link_count i' = Inode.link_count i ∧
  Inode.parent_inode i' = Inode.parent_inode i.

#[global] Instance alike_preorder : PreOrder alike.
Proof. split; [by intros i|]. unfold alike. intros i j k. intuition congruence. Qed.

(** A directory whose inode keeps those fields. *)
Definition same_dir (T T' : table) (n : Z) : Prop := ∃ i i',
  T n = Some i ∧ T' n = Some i' ∧ Inode.kind i = NodeKind.Directory ∧ alike i i'.

Lemma rooted_change T T' n : (∀ n i, T n = Some i → Inode.kind i = NodeKind.Directory → ∃ i', T' n = Some i' ∧
    Inode.kind i' = NodeKind.Directory ∧ Inode.parent_inode i' = Inode.parent_inode i) → rooted T n → rooted T' n.
Proof.
  intros HT. induction 1 as [|n i Hi Hk _ IH]; [constructor|]. destruct (HT n i Hi Hk) as (i' & Hi' & Hk' & Hp).
  eapply rooted_up; [done|done|]. by rewrite Hp.
Qed.

Section tree.
Context (X : Z → Prop) (T : table) (E : forest) (Ht : tree_but X T E).

Lemma tree_empty n : ¬ is_dir T n → E n = ∅.
Proof using Ht.
  intros Hn. apply map_eq. intros pos. rewrite lookup_empty. destruct (E n !! pos) as [e|] eqn:He; [|done].
  by destruct Hn; eapply (tr_dir _ _ _ Ht).
Qed.

Lemma tree_weaken (X' : Z → Prop) : (∀ n, X n → X' n) → tree_but X' T E.
Proof using Ht. intros HX. destruct Ht as [H1 H2 H3 H4 H5 H6 H7 H8 H9]. split; try done. intros n i ? ? ? ?. eapply H8; eauto. Qed.

Lemma tree_but_ext T' E' : (∀ n, T' n = T n) → (∀ n, E' n = E n) → tree_but X T' E'.
Proof using Ht.
  intros HT HE. destruct Ht as [H1 H2 H3 H4 H5 H6 H7 H8 H9].
  assert (∀ n, is_dir T' n ↔ is_dir T n) as Hdir by (intros n; unfold is_dir; by rewrite HT). split.
  - by rewrite HT.
  - intros n i. rewrite HT. apply H2.
  - intros n pos e. rewrite HE, Hdir. apply H3.
  - intros n i. rewrite HT, HE. apply H4.
  - intros n pos1 e1 pos2 e2. rewrite HE. apply H5.
  - intros n pos e. rewrite HE. intros (t & [])%H6. exists t. split; try done. by rewrite HT.
  - intros n1 pos1 e1 n2 pos2 e2. rewrite !HE. apply H7.
  - intros n i. rewrite HT. intros ? ? ? ?. setoid_rewrite HE. by eapply H8.
  - intros n. rewrite Hdir. intros Hn%H9. eapply rooted_change; [|exact Hn]. intros n' i' Hi' Hk'. exists i'. by rewrite HT.
Qed.

(** The inode of a directory, or of a file, with the same fields. *)
Lemma alike_names n i i' p e t : T n = Some i → alike i i' → names T p e t → ∃ t', names (tset T n (Some i')) p e t'.
Proof using.
  intros Hi (Ak & Ag & Al & Ap) [N1 N2 N3 N4 N5 N6]. destruct (decide (DirectoryEntry.inode e = n)) as [<-|Hne].
  - rewrite Hi in N1. injection N1 as ->. exists i'. split; rewrite ?Ak, ?Ag, ?Al, ?Ap; try done. apply tset_same.
  - exists t. split; try done. by rewrite tset_other.
Qed.

Lemma alike_dir n i i' n' : T n = Some i → alike i i' → is_dir (tset T n (Some i')) n' ↔ is_dir T n'.
Proof using.
  intros Hi (Ak & _). unfold is_dir, tset. destruct (decide (n' = n)) as [->|]; [|done]. rewrite Hi.
  split; intros (j & [= <-] & Hj); eexists; (split; [done|]); congruence.
Qed.

Lemma alike_rooted n i i' n' : T n = Some i → alike i i' → rooted T n' → rooted (tset T n (Some i')) n'.
Proof using.
  intros Hi (Ak & _ & _ & Ap). apply rooted_change. intros n1 i1 Hi1 Hk1. destruct (decide (n1 = n)) as [->|Hne].
  - rewrite Hi in Hi1. injection Hi1 as ->. exists i'. rewrite tset_same, Ak, Ap. done.
  - exists i1. by rewrite tset_other.
Qed.
End tree.

(** ** Steps *)

Section steps.
Context (X : Z → Prop) (T : table) (E : forest) (Ht : tree_but X T E).

(** An inode replaced by one with the same fields. *)
Lemma tree_same n i i' : T n = Some i → alike i i' → Inode.directory_entry_count i' = Inode.directory_entry_count i →
  tree_but X (tset T n (Some i')) E.
Proof using Ht.
  intros Hi Ha Hcnt. pose proof Ha as (Ak & Ag & Al & Ap). destruct Ht as [H1 H2 H3 H4 H5 H6 H7 H8 H9]. split; try done.
  - destruct H1 as (r & Hr & Hk & Hp). destruct (decide (ROOT_INODE = n)) as [<-|Hne]; [|exists r; by rewrite tset_other].
    rewrite Hr in Hi. injection Hi as ->. exists i'. rewrite tset_same, Ak, Ap. done.
  - intros n' j. unfold tset. destruct (decide (n' = n)) as [->|]; [|apply H2]. intros [= <-]. rewrite Ak, Al. by apply (H2 n).
  - intros n' pos e He. apply (alike_dir T n i i' n' Hi Ha). by eapply H3.
  - intros n' j. unfold tset. destruct (decide (n' = n)) as [->|]; [|apply H4]. intros [= <-]. rewrite Ak, Hcnt. by apply H4.
  - intros n' pos e He. destruct (H6 _ _ _ He) as [t Hnm]. by eapply alike_names.
  - intros n' j. unfold tset. destruct (decide (n' = n)) as [->|]; [|apply H8]. intros [= <-]. rewrite Al. by apply H8.
  - intros n' Hd%(alike_dir T n i i' n' Hi Ha). eapply alike_rooted; [done..|]. by apply H9.
Qed.

(** An entry taken out of a directory. *)
Lemma tree_detach p pi pi' pos e : T p = Some pi → alike pi pi' → E p !! pos = Some e →
  Inode.directory_entry_count pi' = Inode.directory_entry_count pi - 1 →
  let E' := fset E p (delete pos (E p)) in
  tree_but (λ n, X n ∨ n = DirectoryEntry.inode e) (tset T p (Some pi')) E' ∧ unlisted E' (DirectoryEntry.inode e).
Proof using Ht.
  intros Hp Ha He Hcnt E'. pose proof Ha as (Ak & Ag & Al & Ap).
  destruct (tr_dir _ _ _ Ht _ _ _ He) as (pi0 & Hp0 & Hk). rewrite Hp in Hp0. injection Hp0 as <-.
  assert (∀ n pos' e', E' n !! pos' = Some e' → E n !! pos' = Some e' ∧ (n = p → pos' ≠ pos)) as Hsub.
  { intros n pos' e'. unfold E', fset. destruct (decide (n = p)) as [->|Hne]; [|done].
    rewrite lookup_delete_Some. intros [Hpos ?]. by split. }
  destruct Ht as [H1 H2 H3 H4 H5 H6 H7 H8 H9]. split.
  - split.
    + destruct H1 as (r & Hr & Hkr & Hpr). destruct (decide (ROOT_INODE = p)) as [<-|Hne]; [|exists r; by rewrite tset_other].
      rewrite Hr in Hp. injection Hp as ->. exists pi'. rewrite tset_same, Ak, Ap. done.
    + intros n j. unfold tset. destruct (decide (n = p)) as [->|]; [|apply H2]. intros [= <-]. rewrite Ak, Al. by apply (H2 p).
    + intros n pos' e' [He' _]%Hsub. apply (alike_dir T p pi pi' n Hp Ha). by eapply H3.
    + intros n j. unfold tset, E', fset. destruct (decide (n = p)) as [->|]; [|apply H4]. intros [= <-] _.
      rewrite Hcnt, (H4 _ _ Hp Hk), map_size_delete_Some by eauto.
      pose proof (map_size_ne_0_lookup_2 (E p) pos ltac:(by eexists)). lia.
    + intros n pos1 e1 pos2 e2 [Hx1 _]%Hsub [Hx2 _]%Hsub. by eapply H5.
    + intros n pos' e' [He' _]%Hsub. destruct (H6 _ _ _ He') as [t Hnm]. by eapply alike_names.
    + intros n1 pos1 e1 n2 pos2 e2 [Hx1 _]%Hsub [Hx2 _]%Hsub. by eapply H7.
    + intros n j Hj Hroot Hl Hx. assert (∃ i, T n = Some i ∧ Inode.link_count i ≠ 0) as (i & Hi & Hli).
      { revert Hj. unfold tset. destruct (decide (n = p)) as [->|]; [intros [= <-]; exists pi; split; [done|congruence]|by exists j]. }
      destruct (H8 n i Hi Hroot Hli) as (q & posq & eq & Hq & Hqn); [tauto|]. exists q, posq, eq. split; [|done].
      unfold E', fset. destruct (decide (q = p)) as [->|]; [|done]. rewrite lookup_delete_ne; [done|].
      intros <-. rewrite He in Hq. injection Hq as <-. destruct Hx. by right.
    + intros n Hd%(alike_dir T p pi pi' n Hp Ha). eapply alike_rooted; [done..|]. by apply H9.
  - intros n pos' e' [He' Hpos]%Hsub Hn. destruct (H7 _ _ _ _ _ _ He' He Hn) as [-> ->]. by apply Hpos.
Qed.

(** An entry put into a directory. *)
Lemma tree_attach p pi pi' pos e t : T p = Some pi → Inode.kind pi = NodeKind.Directory → alike pi pi' → E p !! pos = None →
  Inode.directory_entry_count pi' = Inode.directory_entry_count pi + 1 → names T p e t →
  unlisted E (DirectoryEntry.inode e) →
  (∀ pos' e', E p !! pos' = Some e' → DirectoryEntry.name_bytes e' ≠ DirectoryEntry.name_bytes e) →
  tree_but (λ n, X n ∧ n ≠ DirectoryEntry.inode e) (tset T p (Some pi')) (fset E p (<[pos := e]> (E p))).
Proof using Ht.
  intros Hp Hk Ha Hnone Hcnt Hnm Hun Hfresh. pose proof Ha as (Ak & Ag & Al & Ap).
  set (E' := fset E p _).
  assert (∀ n pos' e', E' n !! pos' = Some e' → n = p ∧ pos' = pos ∧ e' = e ∨ E n !! pos' = Some e' ∧ (n = p → pos' ≠ pos)) as Hsub.
  { intros n pos' e'. unfold E', fset. destruct (decide (n = p)) as [->|Hne]; [|by right].
    rewrite lookup_insert_Some. intros [[<- <-]|[Hpos ?]]; [by left|by right; split]. }
  destruct Ht as [H1 H2 H3 H4 H5 H6 H7 H8 H9]. split.
  - destruct H1 as (r & Hr & Hkr & Hpr). destruct (decide (ROOT_INODE = p)) as [<-|Hne]; [|exists r; by rewrite tset_other].
    rewrite Hr in Hp. injection Hp as ->. exists pi'. rewrite tset_same, Ak, Ap. done.
  - intros n j. unfold tset. destruct (decide (n = p)) as [->|]; [|apply H2]. intros [= <-]. rewrite Ak, Al. by apply (H2 p).
  - intros n pos' e' [(-> & _)|[He' _]]%Hsub; apply (alike_dir T p pi pi' _ Hp Ha); [by exists pi|by eapply H3].
  - intros n j. unfold tset, E', fset. destruct (decide (n = p)) as [->|]; [|apply H4]. intros [= <-] _.
    rewrite Hcnt, (H4 _ _ Hp Hk), map_size_insert_None by done. lia.
  - intros n pos1 e1 pos2 e2 [(-> & -> & ->)|[Hx1 _]]%Hsub [(Hn & -> & ->)|[Hx2 _]]%Hsub Heq; try done.
    + by destruct (Hfresh _ _ Hx2).
    + subst n. by destruct (Hfresh _ _ Hx1).
    + by eapply H5.
  - intros n pos' e' [(-> & _ & ->)|[He' _]]%Hsub; [by eapply alike_names|].
    destruct (H6 _ _ _ He') as [t' Hnm']. by eapply alike_names.
  - intros n1 pos1 e1 n2 pos2 e2 [(-> & -> & ->)|[Hx1 _]]%Hsub [(-> & -> & ->)|[Hx2 _]]%Hsub Heq; try done.
    + by destruct (Hun _ _ _ Hx2).
    + by destruct (Hun _ _ _ Hx1).
    + by eapply H7.
  - intros n j Hj Hroot Hl Hx. assert (∃ i, T n = Some i ∧ Inode.link_count i ≠ 0) as (i & Hi & Hli).
    { revert Hj. unfold tset. destruct (decide (n = p)) as [->|]; [intros [= <-]; exists pi; split; [done|congruence]|by exists j]. }
    destruct (decide (n = DirectoryEntry.inode e)) as [->|Hne].
    { exists p, pos, e. split; [|done]. unfold E'. rewrite fset_same. apply lookup_insert_eq. }
    destruct (H8 n i Hi Hroot Hli) as (q & posq & eq & Hq & Hqn); [tauto|]. exists q, posq, eq. split; [|done].
    unfold E', fset. destruct (decide (q = p)) as [->|]; [|done]. rewrite lookup_insert_ne; [done|]. intros <-. congruence.
  - intros n Hd%(alike_dir T p pi pi' n Hp Ha). eapply alike_rooted; [done..|]. by apply H9.
Qed.
End steps.

Section nodes.
Context (X : Z → Prop) (T : table) (E : forest) (Ht : tree_but X T E).

Lemma root_present i : T ROOT_INODE = Some i → Inode.kind i = NodeKind.Directory.
Proof using Ht. intros Hi. destruct (tr_root _ _ _ Ht) as (r & Hr & Hk & _). congruence. Qed.

(** A change of one inode that is not named and is no directory before or after. *)
Lemma tree_node node o : node ≠ ROOT_INODE → ¬ is_dir T node → unlisted E node → (∀ i, o = Some i → Inode.kind i ≠ NodeKind.Directory) →
  tree_but (λ n, X n ∨ n = node) (tset T node o) E.
Proof using Ht.
  intros Hroot Hnd Hun Ho. destruct Ht as [H1 H2 H3 H4 H5 H6 H7 H8 H9].
  assert (∀ n, is_dir (tset T node o) n ↔ is_dir T n) as Hdir.
  { intros n. destruct (decide (n = node)) as [->|Hne]; [|unfold is_dir; by rewrite tset_other]. split; [|done].
    intros (i & Hi & Hk). rewrite tset_same in Hi. by destruct (Ho i Hi). }
  assert (∀ n i, tset T node o n = Some i → Inode.kind i = NodeKind.Directory → T n = Some i) as Hback.
  { intros n i. unfold tset. destruct (decide (n = node)); [|done]. intros Hi Hk. by destruct (Ho i Hi). }
  split; try done.
  - by rewrite tset_other.
  - intros n i Hi Hk. by apply (H2 n i); [apply Hback|].
  - intros n pos e He. apply Hdir. by eapply H3.
  - intros n i Hi Hk. apply H4; [by apply Hback|done].
  - intros n pos e He. destruct (H6 _ _ _ He) as [t []]. exists t. split; try done. rewrite tset_other; [done|]. by eapply Hun.
  - intros n i Hi Hr Hl Hx. rewrite tset_other in Hi by tauto. eapply H8; eauto.
  - intros n Hd%Hdir. eapply rooted_change; [|by apply H9]. intros n' i' Hi' Hk'. exists i'. rewrite tset_other; [done|].
    intros ->. destruct Hnd. by exists i'.
Qed.

(** A new directory without entries. *)
Lemma tree_new_dir node i : T node = None → Inode.kind i = NodeKind.Directory → Inode.link_count i ≠ 0 →
  Inode.directory_entry_count i = 0 → is_dir T (Inode.parent_inode i) → unlisted E node →
  tree_but (λ n, X n ∨ n = node) (tset T node (Some i)) E.
Proof using Ht.
  intros Hnone Hk Hl Hcnt Hp Hun. assert (node ≠ ROOT_INODE) as Hroot.
  { intros ->. destruct (tr_root _ _ _ Ht) as (r & Hr & _). congruence. }
  assert (E node = ∅) as Hempty by (eapply tree_empty; [exact Ht|]; intros (j & Hj & _); congruence).
  destruct Ht as [H1 H2 H3 H4 H5 H6 H7 H8 H9].
  assert (∀ n i', T n = Some i' → tset T node (Some i) n = Some i') as Hkeep.
  { intros n i' Hi'. rewrite tset_other; [done|]. intros ->. congruence. }
  assert (∀ n, rooted T n → rooted (tset T node (Some i)) n) as Hrt.
  { intros n. apply rooted_change. intros n' i' Hi' Hk'. exists i'. by rewrite (Hkeep _ _ Hi'). }
  split; try done.
  - by rewrite tset_other.
  - intros n j. unfold tset. destruct (decide (n = node)); [by intros [= <-]|apply H2].
  - intros n pos e He. destruct (H3 _ _ _ He) as (j & Hj & Hkj). exists j. by rewrite (Hkeep _ _ Hj).
  - intros n j. unfold tset. destruct (decide (n = node)) as [->|]; [|apply H4]. intros [= <-] _. by rewrite Hempty.
  - intros n pos e He. destruct (H6 _ _ _ He) as [t []]. exists t. split; try done. by apply Hkeep.
  - intros n j Hj Hr Hlj Hx. rewrite tset_other in Hj by tauto. eapply H8; eauto.
  - intros n (j & Hj & Hkj). destruct (decide (n = node)) as [->|Hne].
    + eapply rooted_up; [apply tset_same|done|]. by apply Hrt, H9.
    + rewrite tset_other in Hj by done. apply Hrt, H9. by exists j.
Qed.

(** A directory moved under another parent. *)
Lemma tree_reparent node i i' : T node = Some i → Inode.kind i = NodeKind.Directory → Inode.kind i' = NodeKind.Directory →
  Inode.link_count i' = Inode.link_count i → Inode.directory_entry_count i' = Inode.directory_entry_count i →
  node ≠ ROOT_INODE → unlisted E node → avoids T node (Inode.parent_inode i') → tree_but X (tset T node (Some i')) E.
Proof using Ht.
  intros Hi Hk Hk' Hl Hcnt Hroot Hun Hav. destruct Ht as [H1 H2 H3 H4 H5 H6 H7 H8 H9].
  assert (∀ n, is_dir (tset T node (Some i')) n ↔ is_dir T n) as Hdir.
  { intros n. unfold is_dir, tset. destruct (decide (n = node)) as [->|]; [|done]. rewrite Hi.
    split; intros (j & [= <-] & Hj); by eexists. }
  assert (rooted (tset T node (Some i')) node) as Hnode.
  { eapply rooted_up; [apply tset_same|done|]. induction Hav as [|n j Hne Hj Hkj _ IH]; [constructor|].
    eapply rooted_up; [by rewrite tset_other|done|done]. }
  split; try done.
  - by rewrite tset_other.
  - intros n j. unfold tset. destruct (decide (n = node)) as [->|]; [|apply H2]. intros [= <-] _. rewrite Hl. by apply (H2 node).
  - intros n pos e He. apply Hdir. by eapply H3.
  - intros n j. unfold tset. destruct (decide (n = node)) as [->|]; [|apply H4]. intros [= <-] _. rewrite Hcnt. by apply H4.
  - intros n pos e He. destruct (H6 _ _ _ He) as [t []]. exists t. split; try done. rewrite tset_other; [done|]. by eapply Hun.
  - intros n j. unfold tset. destruct (decide (n = node)) as [->|]; [|apply H8]. intros [= <-]. rewrite Hl. by apply H8.
  - intros n Hd%Hdir%H9. clear - Hd Hnode Hi. induction Hd as [|n j Hj Hkj _ IH]; [constructor|].
    destruct (decide (n = node)) as [->|Hne]; [done|]. eapply rooted_up; [by rewrite tset_other|done|done].
Qed.
End nodes.

(** A node without an entry removed. *)
Lemma tree_drop T E node t : tree_but (λ n, n = node) T E → T node = Some t → node ≠ ROOT_INODE → unlisted E node →
  (Inode.kind t = NodeKind.Directory → Inode.directory_entry_count t = 0) → tree (tset T node None) E.
Proof.
  intros Ht Hi Hroot Hun Hcnt. assert (E node = ∅) as Hempty.
  { destruct (decide (Inode.kind t = NodeKind.Directory)) as [Hk|Hk].
    - apply map_size_empty_inv. pose proof (tr_count _ _ _ Ht _ _ Hi Hk). specialize (Hcnt Hk). lia.
    - eapply tree_empty; [exact Ht|]. intros (j & Hj & Hkj). congruence. }
  destruct Ht as [H1 H2 H3 H4 H5 H6 H7 H8 H9].
  assert (∀ n j, tset T node None n = Some j → T n = Some j ∧ n ≠ node) as Hback.
  { intros n j. unfold tset. by destruct (decide (n = node)). }
  split; try done.
  - by rewrite tset_other.
  - intros n j [Hj _]%Hback. by apply (H2 n j).
  - intros n pos e He. destruct (H3 _ _ _ He) as (j & Hj & Hkj). exists j. rewrite tset_other; [done|].
    intros ->. by rewrite Hempty, lookup_empty in He.
  - intros n j [Hj _]%Hback. by apply H4.
  - intros n pos e He. destruct (H6 _ _ _ He) as [t' []]. exists t'. split; try done. rewrite tset_other; [done|]. by eapply Hun.
  - intros n j [Hj Hne]%Hback Hr Hl _. by eapply H8.
  - intros n (j & [Hj Hne]%Hback & Hk). assert (rooted T n) as Hrt by (apply H9; by exists j). clear Hj Hk j.
    revert Hne. induction Hrt as [|n j Hj Hkj _ IH]; intros Hne; [constructor|].
    eapply rooted_up; [by rewrite tset_other|done|]. apply IH. intros Hp.
    destruct (decide (n = ROOT_INODE)) as [->|Hnr].
    { destruct H1 as (r & Hr & _ & Hrp). congruence. }
    destruct (H8 n j Hj Hnr) as (q & pos & e & He & Hen); [by apply (H2 n)|done|].
    destruct (H6 _ _ _ He) as [t' [N1 N2 N3 N4 N5 N6]]. rewrite Hen, Hj in N1. injection N1 as <-.
    rewrite N6 in Hp by done. subst q. by rewrite Hempty, lookup_empty in He.
Qed.

(** A file without an entry becomes an orphan, or stops being one. *)
Lemma tree_orphan T E node t o : tree_but (λ n, n = node) T E → T node = Some t → Inode.kind t ≠ NodeKind.Directory →
  unlisted E node → Inode.kind o ≠ NodeKind.Directory → Inode.link_count o = 0 → tree (tset T node (Some o)) E.
Proof.
  intros Ht Hi Hk Hun Hko Hlo. assert (node ≠ ROOT_INODE) as Hroot.
  { intros ->. by apply Hk, (root_present _ _ _ Ht). }
  destruct (tree_node _ _ _ Ht node (Some o) Hroot) as [H1 H2 H3 H4 H5 H6 H7 H8 H9]; [|done|by intros ? [= <-]|].
  { intros (j & Hj & Hkj). congruence. }
  split; try done. intros n j Hj Hr Hl _. destruct (decide (n = node)) as [->|Hne].
  - rewrite tset_same in Hj. injection Hj as <-. done.
  - eapply H8; eauto. tauto.
Qed.

(** ** Ancestors *)

(** No directory is its own parent but the root. *)
Lemma rooted_parent T n i : rooted T n → T n = Some i → Inode.parent_inode i = n → n = ROOT_INODE.
Proof.
  induction 1 as [|n j Hj _ _ IH]; [done|]. intros Hi Hp. assert (j = i) as -> by congruence. rewrite Hp in IH. by apply IH.
Qed.

Lemma entry_not_self X T E n pos e : tree_but X T E → E n !! pos = Some e → DirectoryEntry.inode e ≠ n.
Proof.
  intros Ht He Hn. destruct (tr_target _ _ _ Ht _ _ _ He) as [t [N1 _ _ _ N5 N6]].
  destruct (tr_dir _ _ _ Ht _ _ _ He) as (i & Hi & Hk). rewrite Hn, Hi in N1. injection N1 as ->.
  apply N5. rewrite Hn. apply (rooted_parent T n t); [|done|by apply N6]. apply (tr_rooted _ _ _ Ht). by exists t.
Qed.

(** The ancestors of a directory, after others without entries are gone. *)
Lemma avoids_drop T E T' source (gone : Z → Prop) n : tree T E → source ≠ ROOT_INODE → (∀ g, gone g → E g = ∅) →
  (∀ n i, T n = Some i → Inode.kind i = NodeKind.Directory → ¬ gone n → ∃ i', T' n = Some i' ∧
     Inode.kind i' = NodeKind.Directory ∧ Inode.parent_inode i' = Inode.parent_inode i) →
  avoids T source n → ¬ gone n → avoids T' source n.
Proof.
  intros Ht Hs Hempty HT. induction 1 as [|n i Hne Hi Hk _ IH]; intros Hg; [by constructor|].
  destruct (decide (n = ROOT_INODE)) as [->|Hnr]; [by constructor|]. destruct (HT n i Hi Hk Hg) as (i' & Hi' & Hk' & Hp').
  eapply avoids_up; [done|done|done|]. rewrite Hp'. apply IH. intros Hp.
  destruct (tr_named _ _ _ Ht n i Hi Hnr) as (q & pos & e & He & Hen); [by apply (tr_linked _ _ _ Ht n)|tauto|].
  destruct (tr_target _ _ _ Ht _ _ _ He) as [t [N1 _ _ _ _ N6]]. rewrite Hen, Hi in N1. injection N1 as <-.
  rewrite N6 in Hp by done. by rewrite (Hempty _ Hp), lookup_empty in He.
Qed.
