(* ===== verification/DirectoryViews.v ===== *)
(** * Directories on the device

    A directory inode and its blocks as a map of entries, and what storing a block
    does to it: one entry changes, and no other directory. *)

From Stdlib Require Import ZArith Lia.
From stdpp Require Import base list numbers option gmap.
From S2P Require Import Prelude NullfsBytes NullfsPhase3 NullfsSuperblock NullfsRecord NullfsInode.
From S2P Require Import NullfsDirectory NullfsAllocation BlockDevice Journal JournalDisk JournalSteps.
From S2P Require Import JournalRecovery JournalProps Volume Mutation Extents VolumeReads Session.
From S2P Require Import MutationSteps Atomicity Layout Ownership Mounted FileWrite Namespace.

Open Scope Z_scope.

(** The blocks of the directory can be decoded, and [es] are their entries in use. *)
Record dir_view (v : disk) (n : Z) (i : Inode.t) (es : entries) : Prop := {
  dv_blocks : ∀ lb, 0 ≤ lb < Inode.size i / 4096 → ∃ block, dir_block_seen v n i lb = Ok block;
  dv_entries : ∀ lb slot e, es !! (lb, slot) = Some e ↔ entry_at v n i lb slot e ∧ DirectoryBlock.used e = true;
}.

Definition dir_views (v : disk) (T : table) (E : forest) : Prop :=
  ∀ n i, T n = Some i → Inode.kind i = NodeKind.Directory → dir_view v n i (E n).

Lemma dir_block_frame v v' n i i' lb : mapped (Inode.used_extents i') lb = mapped (Inode.used_extents i) lb →
  (∀ p, mapped (Inode.used_extents i) lb = Some p → v' p = v p) → dir_block_seen v' n i' lb = dir_block_seen v n i lb.
Proof.
  intros Hm Hv. unfold dir_block_seen. rewrite Hm. clear Hm. destruct (mapped _ lb) as [p|] eqn:E; cbn [ok_or]; [|reflexivity].
  by rewrite !bind_Ok, (Hv p).
Qed.

Lemma dir_view_frame v v' n i i' es : (∀ l, mapped (Inode.used_extents i') l = mapped (Inode.used_extents i) l) →
  Inode.size i' = Inode.size i → (∀ l p, mapped (Inode.used_extents i) l = Some p → v' p = v p) →
  dir_view v n i es → dir_view v' n i' es.
Proof.
  intros Hm Hs Hv [Hb He]. assert (∀ lb, dir_block_seen v' n i' lb = dir_block_seen v n i lb) as Hd.
  { intros lb. apply dir_block_frame; [done|]. intros p. apply Hv. }
  split.
  - intros lb. rewrite Hs, Hd. apply Hb.
  - intros lb slot e. rewrite He. unfold entry_at. rewrite Hs, Hd. done.
Qed.

(** Two positions of a directory, by what they show. *)
Lemma entry_at_block v n i lb slot e block : dir_block_seen v n i lb = Ok block → 0 ≤ lb < Inode.size i / 4096 →
  entry_at v n i lb slot e ↔ DirectoryBlock.entries block !! slot = Some e.
Proof.
  intros Hb Hlb. split.
  - intros (_ & block' & Hb' & He). congruence.
  - intros He. split; [done|]. by exists block.
Qed.

Lemma dir_block_stored v n i lb p block : mapped (Inode.used_extents i) lb = Some p → good_block block →
  v p = DirectoryCodec.directory_image block → DirectoryBlock.owner_inode block = n →
  DirectoryBlock.logical_block_index block = lb → dir_block_seen v n i lb = Ok block.
Proof.
  intros Hm [Ht Hval] Hv <- <-. unfold dir_block_seen. rewrite Hm. cbn [ok_or].
  rewrite bind_Ok, Hv, DirectoryCodec.directory_decode_image by done. cbn [map_err]. rewrite bind_Ok, !Z.eqb_refl. done.
Qed.

Lemma dir_block_owner v n i lb block : dir_block_seen v n i lb = Ok block →
  DirectoryBlock.owner_inode block = n ∧ DirectoryBlock.logical_block_index block = lb.
Proof.
  unfold dir_block_seen. destruct (mapped _ _) as [p|]; cbn [ok_or]; [|done]. rewrite bind_Ok.
  destruct (DirectoryBlock.decode _) as [b| |]; cbn [map_err]; [|done..]. rewrite bind_Ok.
  destruct (_ || _) eqn:E; cbn [err_if]; [done|]. rewrite bind_Ok. intros [= <-]. bool_simpl. done.
Qed.

(** An entry changed in the map. *)
Definition put_entry (es : entries) (pos : Z * nat) (e : DirectoryEntry.t) : entries :=
  if DirectoryBlock.used e then <[pos := e]> es else delete pos es.

Lemma put_entry_Some es pos e pos' e' : put_entry es pos e !! pos' = Some e' ↔
  if decide (pos' = pos) then e' = e ∧ DirectoryBlock.used e = true else es !! pos' = Some e'.
Proof.
  unfold put_entry. destruct (DirectoryBlock.used e) eqn:Hu; destruct (decide (pos' = pos)) as [->|Hne].
  - rewrite lookup_insert_eq. split; [intros [= ->]; done|by intros [-> _]].
  - by rewrite lookup_insert_ne.
  - rewrite lookup_delete_eq. split; [done|by intros [_ ?]].
  - by rewrite lookup_delete_ne.
Qed.

Lemma dir_view_store v v' n i es lb slot e : dir_view v n i es → entry_stored v v' n i lb slot e →
  0 ≤ lb < Inode.size i / 4096 →
  (∀ l1 l2 p, mapped (Inode.used_extents i) l1 = Some p → mapped (Inode.used_extents i) l2 = Some p → l1 = l2) →
  dir_view v' n i (put_entry es (lb, slot) e).
Proof.
  intros [Hb He] (block & p & Hblk & Hslot & Hp & Hg & Hg' & ->) Hlb Hinj. destruct (dir_block_owner _ _ _ _ _ Hblk) as [Ho Hl].
  set (v' := upd v p _). assert (dir_block_seen v' n i lb = Ok (set_entry slot e block)) as Hnew.
  { apply (dir_block_stored v' n i lb p); [done|done| |done|done]. unfold v', upd. by rewrite decide_True. }
  assert (∀ lb', lb' ≠ lb → dir_block_seen v' n i lb' = dir_block_seen v n i lb') as Hother.
  { intros lb' Hne. apply dir_block_frame; [done|]. intros q Hq. unfold v', upd. rewrite decide_False; [done|].
    intros ->. by destruct Hne; eapply Hinj. }
  assert (length (DirectoryBlock.entries block) = DIRECTORY_ENTRIES_PER_BLOCK) as Hlen by (apply (DirectoryBlock.typed_length _ (gb_typed _ Hg))).
  split.
  - intros lb' Hlb'. destruct (decide (lb' = lb)) as [->|Hne]; [by eexists|]. rewrite Hother by done. by apply Hb.
  - intros lb' slot' e'. rewrite put_entry_Some. destruct (decide (lb' = lb)) as [->|Hne].
    + rewrite (entry_at_block _ _ _ _ _ _ _ Hnew Hlb). cbn [set_entry DirectoryBlock.entries].
      destruct (decide ((lb, slot') = (lb, slot))) as [[= ->]|Hs].
      * rewrite list_lookup_insert_eq by lia. split; [intros [-> ?]; done|]. by intros [[= ->] ?].
      * rewrite list_lookup_insert_ne by congruence. rewrite He, (entry_at_block _ _ _ _ _ _ _ Hblk Hlb). done.
    + rewrite decide_False by congruence. rewrite He. unfold entry_at. by rewrite Hother.
Qed.

(** A block put at the end of a directory, with one entry. *)
Lemma dir_view_grow v v' n i i' es p e : let lb := Inode.size i / 4096 in dir_view v n i es → 0 ≤ lb →
  (∀ k, mapped (Inode.used_extents i') k = if decide (k = lb) then Some p else mapped (Inode.used_extents i) k) →
  Inode.size i' = Inode.size i + 4096 → (∀ l q, mapped (Inode.used_extents i) l = Some q → v' q = v q) →
  v' p = DirectoryCodec.directory_image (first_entry n lb e) → good_block (first_entry n lb e) → DirectoryBlock.used e = true →
  es !! (lb, 0%nat) = None ∧ dir_view v' n i' (<[(lb, 0%nat) := e]> es).
Proof.
  intros lb [Hb He] Hlb Hm Hs Hv Hp Hg Hu.
  assert (Inode.size i' / 4096 = lb + 1) as Hs'.
  { rewrite Hs. replace (Inode.size i + 4096) with (Inode.size i + 1 * 4096) by lia. by rewrite Z.div_add by lia. }
  assert (dir_block_seen v' n i' lb = Ok (first_entry n lb e)) as Hnew.
  { apply (dir_block_stored v' n i' lb p); [by rewrite Hm, decide_True|done..]. }
  assert (∀ l, l ≠ lb → dir_block_seen v' n i' l = dir_block_seen v n i l) as Hold.
  { intros l Hne. apply dir_block_frame; [by rewrite Hm, decide_False|]. apply Hv. }
  assert (∀ slot, es !! (lb, slot) = None) as Hnone.
  { intros slot. destruct (es !! (lb, slot)) as [x|] eqn:Ex; [|done]. apply He in Ex as [[? _] _]. unfold lb in *. lia. }
  split; [done|]. split.
  - intros l Hl. destruct (decide (l = lb)) as [->|Hne]; [by eexists|]. rewrite Hold by done. apply Hb. unfold lb in *. lia.
  - intros l slot x. destruct (decide (l = lb)) as [->|Hne].
    + rewrite (entry_at_block _ _ _ _ _ _ _ Hnew) by lia. unfold first_entry. cbn [set_entry DirectoryBlock.entries].
      destruct slot as [|slot].
      * rewrite lookup_insert_eq, list_lookup_insert_eq by (rewrite length_replicate; unfold DIRECTORY_ENTRIES_PER_BLOCK; lia). naive_solver.
      * rewrite lookup_insert_ne, Hnone, list_lookup_insert_ne by congruence. split; [done|].
        intros [[-> _]%lookup_replicate Hd]. done.
    + rewrite lookup_insert_ne by congruence. rewrite He. unfold entry_at. rewrite Hold by done. unfold lb in *.
      split; intros [[Hr ?] ?]; (split; [split; [lia|done]|done]).
Qed.

(** ** The size of a directory *)

(** The number of entries. *)
Lemma dir_view_size v n i es : 0 ≤ Inode.size i → dir_view v n i es → Z.of_nat (size es) ≤ 31 * (Inode.size i / 4096).
Proof.
  intros Hpos0 [_ He]. set (ps := list_prod (seqZ 0 (Inode.size i / 4096)) (seq 0 DIRECTORY_ENTRIES_PER_BLOCK)).
  assert (dom es ⊆ list_to_set ps) as Hsub.
  { intros [lb slot] [e Hpos]%elem_of_dom. apply He in Hpos as [(Hlb & block & Hblk & Hslot) _].
    apply dir_block_length in Hblk. apply lookup_lt_Some in Hslot. rewrite Hblk in Hslot.
    apply elem_of_list_to_set, list_elem_of_In, in_prod; apply list_elem_of_In; [apply elem_of_seqZ|apply elem_of_seq]; lia. }
  apply subseteq_size in Hsub. rewrite size_dom in Hsub.
  assert (length ps = (Z.to_nat (Inode.size i / 4096) * 31)%nat) as Hl.
  { unfold ps. rewrite length_prod, length_seqZ, length_seq. done. }
  assert (size (list_to_set ps : gset (Z * nat)) ≤ length ps)%nat as Hps.
  { clear. induction ps as [|p ps IH]; cbn; [by rewrite size_empty|].
    pose proof (size_union_alt ({[p]} : gset (Z * nat)) (list_to_set ps)) as Hu.
    pose proof (subseteq_size (list_to_set ps ∖ {[p]}) (list_to_set ps : gset (Z * nat)) ltac:(set_solver)).
    rewrite size_singleton in Hu. lia. }
  pose proof (Z.div_pos (Inode.size i) 4096). lia.
Qed.

Lemma gapless_end next es stop : Valid.gapless next es stop → stop = next + Valid.total es.
Proof.
  revert next. induction es as [|e es IH]; intros next; cbn [Valid.gapless Valid.total foldr]; [lia|].
  intros [<- H%IH]. unfold Valid.total in *. cbn [foldr]. lia.
Qed.

(** Four extents of at most [2^32] blocks. *)
Lemma directory_size i : good_inode i → Inode.kind i = NodeKind.Directory →
  0 ≤ Inode.size i / 4096 ≤ 4 * u32_max ∧ Inode.size i = Inode.size i / 4096 * 4096.
Proof.
  intros Hg Hk. destruct (good_inode_valid i Hg ltac:(congruence)) as [mode Hv].
  destruct (Valid.v_directory _ _ Hv Hk) as (Hmod & _ & Hgap). apply gapless_end in Hgap.
  pose proof (Inode.typed_size _ (gi_typed _ Hg)) as [? _].
  assert (Forall Extent.typed (Inode.used_extents i)) as Ht by (apply Forall_take, Hg).
  assert (length (Inode.used_extents i) ≤ 4)%nat as Hl.
  { unfold Inode.used_extents. rewrite length_take. pose proof (Inode.typed_extents_length _ (gi_typed _ Hg)) as ->.
    unfold INLINE_EXTENT_COUNT. lia. }
  pose proof (Valid.total_u64 _ Ht Hl). pose proof (Z.div_mod (Inode.size i) 4096 ltac:(lia)). unfold u32_max in *.
  split; [split; [apply Z.div_pos|]|]; lia.
Qed.
