(* ===== verification/NamespaceSteps.v ===== *)
(** * The steps of the namespace operations

    A volume with its directories: the allocation is consistent, the tree of entries
    has its invariant, and the blocks of every directory hold its entries.  The steps
    of creating, removing and renaming nodes keep the three together. *)

From Stdlib Require Import ZArith Lia.
From stdpp Require Import base list numbers option gmap.
From S2P Require Import Prelude NullfsBytes NullfsPhase3 NullfsSuperblock NullfsRecord NullfsInode.
From S2P Require Import NullfsDirectory NullfsAllocation BlockDevice Journal JournalDisk JournalSteps.
From S2P Require Import JournalRecovery JournalProps Volume Mutation Extents VolumeReads Session.
From S2P Require Import MutationSteps Atomicity Layout Ownership Mounted FileWrite Namespace DirectoryViews.

Open Scope Z_scope.

(** ** Inodes of directories *)

Lemma set_entry_count_typed n i : is_u64 n → Inode.typed i → Inode.typed (set_entry_count n i).
Proof. intros Hn []. by split. Qed.

Lemma set_entry_count_good n i : is_u64 n → Inode.kind i = NodeKind.Directory → good_inode i →
  good_inode (set_entry_count n i).
Proof.
  intros Hn Hk Hg. destruct (good_inode_valid i Hg ltac:(congruence)) as [mode Hv]. destruct Hg as [Ht _].
  pose proof (set_entry_count_typed n i Hn Ht) as Ht'. split; [done|]. exists mode.
  apply Valid.validate_Ok; [done|cbn; congruence|]. destruct Hv as [? ? ? ? ? ? ? ? ? ? ? Hx]. split; try done.
  by destruct Hx.
Qed.

(** The blocks of an inode, each once. *)
Lemma extent_blocks_pairs es : extent_blocks es = (pairs es).*2.
Proof.
  unfold extent_blocks, pairs. induction es as [|e es IH]; cbn [fmap list_fmap concat]; [done|].
  rewrite IH, fmap_app. f_equal. unfold extent_pairs. rewrite <- list_fmap_compose.
  rewrite <- (Z.add_0_r (Extent.physical_first_block e)) at 1. by rewrite <- fmap_add_seqZ.
Qed.

Section namespace.
Context (sb : Superblock.t) (gs : list group) (Hvol : volume sb gs).
Notation HL := (vg_layout _ _ Hvol).
Notation Hgb := (vg_group_blocks _ _ Hvol).
Notation Hp3 := (vg_phase3 _ _ Hvol).

(** The inodes of [X] are not stored yet, those of [Y] have no entry yet. *)
Record namespace (X Y : Z → Prop) (T : table) (E : forest) (v : disk) (pend : FilesystemState.t) : Prop := {
  ns_consistent : consistent sb gs X T v pend;
  ns_tree : tree_but Y T E;
  ns_views : dir_views v T E;
}.
Definition filesystem_ok : table → forest → disk → FilesystemState.t → Prop := namespace (λ _, False) (λ _, False).

(** Only the inodes of [P], and their blocks, differ. *)
Definition changes_only (P : Z → Prop) (T : table) (v : disk) (T' : table) (v' : disk) : Prop :=
  (∀ n, ¬ P n → T' n = T n) ∧ (∀ n l q, ¬ P n → maps T n l q → v' q = v q).

Lemma changes_only_refl P T v : changes_only P T v T v.
Proof using. by split. Qed.

Lemma changes_only_mono (P P' : Z → Prop) T v T' v' : (∀ n, P n → P' n) → changes_only P T v T' v' → changes_only P' T v T' v'.
Proof using. intros HP [HT Hv]. split; [intros n ?; apply HT; auto|]. intros n l q ?. apply Hv. auto. Qed.

Lemma changes_only_trans P T v T1 v1 T2 v2 : changes_only P T v T1 v1 → changes_only P T1 v1 T2 v2 → changes_only P T v T2 v2.
Proof using.
  intros [HT1 Hv1] [HT2 Hv2]. split; [intros n Hn; by rewrite HT2, HT1|]. intros n l q Hn Hq.
  rewrite (Hv2 n l q), (Hv1 n l q); [done..|]. unfold maps in *. by rewrite HT1.
Qed.

Lemma namespace_weaken (X X' Y Y' : Z → Prop) T E v pend : (∀ n, X n → X' n) → (∀ n, Y n → Y' n) →
  namespace X Y T E v pend → namespace X' Y' T E v pend.
Proof using. intros HX HY [Hc Ht Hd]. split; [by eapply consistent_weaken|by eapply tree_weaken|done]. Qed.

Lemma namespace_ext X Y T T' E E' v pend : (∀ n, T' n = T n) → (∀ n, E' n = E n) → namespace X Y T E v pend → namespace X Y T' E' v pend.
Proof using.
  intros HT HE [Hc Ht Hd]. split; [by eapply consistent_ext|by eapply tree_but_ext|]. intros n i. rewrite HT, HE. apply Hd.
Qed.

(** A change of no data block. *)
Lemma changes_none X T v pend v' : consistent sb gs X T v pend → (∀ b, data_block gs b → v' b = v b) →
  changes_only (λ _, False) T v T v'.
Proof using. intros Hc Hv. split; [done|]. intros n l q _ Hq. by eapply Hv, owned_data. Qed.

(** The counts are all that consistency needs of the state. *)
Lemma namespace_head X Y T E v pend n : namespace X Y T E v pend → namespace X Y T E v (with_orphan_head n pend).
Proof using. intros [Hc Ht Hd]. split; [|done|done]. by destruct Hc. Qed.

(** ** Views of the other directories *)

Lemma views_set v v' T E p i es : dir_view v' p i es → (∀ n l q, n ≠ p → maps T n l q → v' q = v q) →
  dir_views v T E → dir_views v' (tset T p (Some i)) (fset E p es).
Proof using.
  intros Hi Hv Hd n j. destruct (decide (n = p)) as [->|Hne].
  - rewrite tset_same, fset_same. by intros [= <-].
  - rewrite tset_other, fset_other by done. intros Hj Hk. eapply dir_view_frame; [done|done| |by apply Hd].
    intros l q Hq. apply (Hv n l); [done|]. by exists j.
Qed.

Lemma views_file v v' T E p o : (∀ i, o = Some i → Inode.kind i ≠ NodeKind.Directory) →
  (∀ n l q, n ≠ p → maps T n l q → v' q = v q) → dir_views v T E → dir_views v' (tset T p o) E.
Proof using.
  intros Ho Hv Hd n j. destruct (decide (n = p)) as [->|Hne].
  - rewrite tset_same. intros Hi Hk. by destruct (Ho j Hi).
  - rewrite tset_other by done. intros Hj Hk. eapply dir_view_frame; [done|done| |by apply Hd].
    intros l q Hq. apply (Hv n l); [done|]. by exists j.
Qed.

Lemma views_data X v v' T E pend : consistent sb gs X T v pend → (∀ b, data_block gs b → v' b = v b) →
  dir_views v T E → dir_views v' T E.
Proof using.
  intros Hc Hv Hd n j Hj Hk. eapply dir_view_frame; [done|done| |by apply Hd]. intros l q Hq. apply Hv.
  eapply owned_data; [exact Hc|]. by exists j.
Qed.

Lemma mapped_once X T v pend n i l1 l2 p : consistent sb gs X T v pend → T n = Some i →
  mapped (Inode.used_extents i) l1 = Some p → mapped (Inode.used_extents i) l2 = Some p → l1 = l2.
Proof using. intros Hc Hi H1 H2. apply (co_once _ _ _ _ _ _ Hc n l1 n l2 p); by exists i. Qed.

Lemma mapped_apart X T v pend n i l p n' l' q : consistent sb gs X T v pend → T n = Some i →
  mapped (Inode.used_extents i) l = Some p → n' ≠ n → maps T n' l' q → q ≠ p.
Proof using. intros Hc Hi Hp Hne Hq ->. destruct Hne. apply (co_once _ _ _ _ _ _ Hc n' l' n l p); [done|by exists i]. Qed.

(** ** Entries *)

(** An entry of a directory stored, without a change of its inode. *)
Lemma stored_data X T v v' pend p pi lb slot e : consistent sb gs X T v pend → T p = Some pi →
  entry_stored v v' p pi lb slot e → consistent sb gs X T v' pend ∧ changes_only (λ n, n = p) T v T v'.
Proof using Hvol.
  intros Hc Hp (block & q & _ & _ & Hq & _ & _ & ->). split.
  - apply (consistent_data sb gs HL Hgb); [|done]. eapply owned_data; [exact Hc|]. by exists pi.
  - split; [done|]. intros n l q' Hne Hm. unfold upd. rewrite decide_False; [done|]. by eapply mapped_apart.
Qed.

Lemma entry_at_unique v n i lb slot e1 e2 : entry_at v n i lb slot e1 → entry_at v n i lb slot e2 → e1 = e2.
Proof using. intros (_ & b1 & Hb1 & H1) (_ & b2 & Hb2 & H2). congruence. Qed.

(** An entry cleared. *)
Lemma namespace_clear X Y T E v v' pend p pi lb slot e : namespace X Y T E v pend → T p = Some pi → good_inode pi →
  Inode.kind pi = NodeKind.Directory → entry_stored v v' p pi lb slot DirectoryEntry.default →
  entry_at v p pi lb slot e → DirectoryBlock.used e = true →
  let pi' := set_entry_count (Inode.directory_entry_count pi - 1) pi in
  let T' := tset T p (Some pi') in
  let E' := fset E p (delete (lb, slot) (E p)) in
  namespace (λ n, X n ∨ n = p) (λ n, Y n ∨ n = DirectoryEntry.inode e) T' E' v' pend ∧
  unlisted E' (DirectoryEntry.inode e) ∧ E p !! (lb, slot) = Some e ∧ good_inode pi' ∧ changes_only (λ n, n = p) T v T' v'.
Proof using Hvol.
  intros [Hc Ht Hd] Hp Hg Hk Hs He Hu pi' T' E'. destruct (stored_data _ _ _ _ _ _ _ _ _ _ Hc Hp Hs) as [Hc' [_ Ho]].
  pose proof (Hd p pi Hp Hk) as Hv. assert (E p !! (lb, slot) = Some e) as Hpos by (by apply (dv_entries _ _ _ _ Hv)).
  destruct (tree_detach _ _ _ Ht p pi pi' (lb, slot) e) as [Ht' Hun]; [done|done|done|done|].
  pose proof (tr_count _ _ _ Ht _ _ Hp Hk) as Hcnt.
  pose proof (map_size_ne_0_lookup_2 (E p) (lb, slot) ltac:(by eexists)) as Hsz.
  pose proof (Inode.typed_entries _ (gi_typed _ Hg)) as [_ Hmax].
  split; [split|split; [done|split; [done|split]]].
  - eapply consistent_same; [by right|done| |eapply consistent_weaken; [|exact Hc']]; [done|by left].
  - exact Ht'.
  - apply (views_set v); [|intros n l q Hne Hq; by eapply Ho|done]. change (delete (lb, slot) (E p)) with (put_entry (E p) (lb, slot) DirectoryEntry.default).
    apply (dir_view_frame v' v' p pi pi'); [done|done|done|]. eapply dir_view_store; [done|done|apply He|]. intros l1 l2 q. by eapply mapped_once.
  - apply set_entry_count_good; [|done|done]. split; lia.
  - split; [|done]. intros n Hn. by apply tset_other.
Qed.

(** An entry inserted in a free slot. *)
Lemma view_inserted v v' p pi lb slot e old es : dir_view v p pi es → entry_stored v v' p pi lb slot e →
  entry_at v p pi lb slot old → DirectoryEntry.is_unused old = true → DirectoryBlock.used e = true →
  (∀ l1 l2 q, mapped (Inode.used_extents pi) l1 = Some q → mapped (Inode.used_extents pi) l2 = Some q → l1 = l2) →
  es !! (lb, slot) = None ∧ dir_view v' p pi (<[(lb, slot) := e]> es).
Proof using.
  intros Hv Hs Hold Hun Hu Hinj. split.
  - destruct (es !! (lb, slot)) as [x|] eqn:Ex; [|done]. apply (dv_entries _ _ _ _ Hv) in Ex as [Hx Hux].
    rewrite (entry_at_unique _ _ _ _ _ _ _ Hx Hold) in Hux. unfold DirectoryBlock.used in Hux. by rewrite Hun in Hux.
  - replace (<[(lb, slot) := e]> es) with (put_entry es (lb, slot) e) by (unfold put_entry; by rewrite Hu).
    eapply dir_view_store; [done|done|apply Hold|done].
Qed.

(** What a directory has after an insertion. *)
Record inserted (X : Z → Prop) (T : table) (v : disk) (p : Z) (es : entries) (e : DirectoryEntry.t)
    (v' : disk) (pend' : FilesystemState.t) (pi pi' : Inode.t) (pos : Z * nat) : Prop := {
  in_free : es !! pos = None;
  in_view : dir_view v' p pi' (<[pos := e]> es);
  in_typed : Inode.typed pi';
  in_alike : alike pi pi';
  in_count : Inode.directory_entry_count pi' = Inode.directory_entry_count pi + 1;
  in_consistent : consistent sb gs (λ n, X n ∨ n = p) (tset T p (Some pi')) v' pend';
  in_only : changes_only (λ n, n = p) T v (tset T p (Some pi')) v';
}.

Lemma insert_in_place X T v v' pend p pi es lb slot e old : consistent sb gs X T v pend → T p = Some pi → good_inode pi →
  Inode.kind pi = NodeKind.Directory → dir_view v p pi es → is_u64 (Inode.directory_entry_count pi + 1) →
  DirectoryBlock.used e = true →
  entry_stored v v' p pi lb slot e → entry_at v p pi lb slot old → DirectoryEntry.is_unused old = true →
  inserted X T v p es e v' pend pi (set_entry_count (Inode.directory_entry_count pi + 1) pi) (lb, slot).
Proof using Hvol.
  intros Hc Hp Hg Hk Hv Hcnt Hu Hs Hold Hun. destruct (stored_data _ _ _ _ _ _ _ _ _ _ Hc Hp Hs) as [Hc' [_ Ho]].
  destruct (view_inserted v v' p pi lb slot e old es Hv Hs Hold Hun Hu) as [Hnone Hview].
  { intros l1 l2 q. by eapply mapped_once. }
  split; [done|by apply (dir_view_frame v' v' p pi)|by apply set_entry_count_typed, Hg|done|done| |].
  - eapply consistent_same; [by right|done| |eapply consistent_weaken; [|exact Hc']]; [done|by left].
  - split; [|done]. intros n Hn. by apply tset_other.
Qed.

Lemma taken_keeps X T v v1 pend q b : consistent sb gs X T v pend → block_taken gs v v1 b → owned T q → q ≠ b ∧ v1 q = v q.
Proof using Hvol.
  intros Hc (_ & Hnm & _ & _ & Ho & _)%(taken_spec sb gs HL Hgb) Hq. split.
  - intros ->. by apply Hnm, (co_marked _ _ _ _ _ _ Hc).
  - apply Ho, (data_not_bitmap sb gs Hvol). destruct Hq as (n & l & Hq). by eapply owned_data.
Qed.

Lemma insert_at_end X T v v1 pend p pi i1 es b e : consistent sb gs X T v pend → T p = Some pi → good_inode pi →
  Inode.kind pi = NodeKind.Directory → dir_view v p pi es → is_u64 (Inode.directory_entry_count pi + 1) →
  DirectoryBlock.used e = true → 0 ≤ b < u64_max →
  let lb := Inode.size pi / 4096 in
  block_taken gs v v1 b → add_extent pi lb b = Ok i1 → good_block (first_entry p lb e) →
  inserted X T v p es e (upd v1 b (DirectoryCodec.directory_image (first_entry p lb e)))
    (with_free_blocks (FilesystemState.free_block_count pend - 1) pend) pi (grown pi i1) (lb, 0%nat).
Proof using Hvol.
  intros Hc Hp Hg Hk Hv Hcnt Hu Hb lb Htk Hadd Hgb'. destruct (directory_size pi Hg Hk) as [Hlb Hsz]. fold lb in Hlb, Hsz.
  destruct (directory_end pi Hg Hk) as [Hsb Hnone]. fold lb in Hsb, Hnone.
  destruct (add_extent_within (lb + 1) pi lb b i1) as (Ht1 & _ & (xs & xn & xb & Hi1) & Hm1);
    [unfold u64_max, u32_max in *; lia|apply Hg| |done|lia|done|done|].
  { apply (extents_within_mono lb); [lia|]. rewrite <- Hsb. by apply extents_valid_within, good_extents. }
  assert (∀ n l q, maps T n l q → q ≠ b ∧ v1 q = v q) as Hkeep.
  { intros n l q Hq. eapply taken_keeps; [done..|]. by exists n, l. }
  set (v' := upd v1 b _). assert (∀ n l q, maps T n l q → v' q = v q) as Hkeep'.
  { intros n l q [Hne Hq]%Hkeep. unfold v', upd. by rewrite decide_False. }
  assert (Inode.size (grown pi i1) = Inode.size pi + 4096) as Hsize by (by rewrite Hi1).
  destruct (dir_view_grow v v' p pi (grown pi i1) es b e) as [Hpos Hview]; fold lb; try done; [lia|..].
  { intros l q Hq. apply (Hkeep' p l). by exists pi. }
  { unfold v', upd. by rewrite decide_True. }
  split; [done|done| |by rewrite Hi1|by rewrite Hi1| |].
  - apply set_entry_count_typed; [by rewrite Hi1|]. apply set_size_typed; [|done]. rewrite Hi1. cbn [set_extents Inode.size].
    change BLOCK_SIZE_U64 with 4096. unfold is_u64, u64_max, u32_max in *. lia.
  - eapply consistent_ext; [intros n; symmetry; apply (tset_tset T p (Some i1))|].
    eapply consistent_same; [by right|apply tset_same|done|].
    apply (consistent_data sb gs HL Hgb); [by apply (taken_spec sb gs HL Hgb) in Htk as [? _]|].
    eapply consistent_add; [apply HL|apply Hgb|by right|done|done|done|done|]. eapply consistent_weaken; [|exact Hc]. by left.
  - split; [intros n Hn; by apply tset_other|]. intros n l q _. apply Hkeep'.
Qed.

(** An entry inserted, for a node that has none. *)
Lemma namespace_insert X Y T E v v' pend pend' p pi pi' e t : Forall group_unsigned gs → namespace X Y T E v pend → T p = Some pi → good_inode pi →
  Inode.kind pi = NodeKind.Directory → entry_inserted gs v v' pend pend' p pi pi' e → DirectoryBlock.used e = true →
  names T p e t → unlisted E (DirectoryEntry.inode e) →
  (∀ pos' e', E p !! pos' = Some e' → DirectoryEntry.name_bytes e' ≠ DirectoryEntry.name_bytes e) →
  ∃ pos, E p !! pos = None ∧ Inode.typed pi' ∧ alike pi pi' ∧ changes_only (λ n, n = p) T v (tset T p (Some pi')) v' ∧
    namespace (λ n, X n ∨ n = p) (λ n, Y n ∧ n ≠ DirectoryEntry.inode e) (tset T p (Some pi'))
      (fset E p (<[pos := e]> (E p))) v' pend'.
Proof using Hvol.
  intros Hgu [Hc Ht Hd] Hp Hg Hk Hins Hu Hnm Hun Hfresh. pose proof (Hd p pi Hp Hk) as Hv.
  assert (is_u64 (Inode.directory_entry_count pi + 1)) as Hcnt.
  { destruct (directory_size pi Hg Hk) as [Hlb _]. pose proof (Inode.typed_size _ (gi_typed _ Hg)) as [? _].
    rewrite (tr_count _ _ _ Ht _ _ Hp Hk). pose proof (dir_view_size v p pi _ ltac:(done) Hv). unfold is_u64, u64_max, u32_max in *. lia. }
  assert (∃ pos, inserted X T v p (E p) e v' pend' pi pi' pos) as (pos & [I1 I2 I3 I4 I5 I6 I7]).
  { destruct Hins as [(lb & slot & Hlb & Hs & (old & Hold & Hunused) & -> & ->)|(b & v1 & i1 & Htk & Hadd & -> & Hgd & -> & ->)].
    - exists (lb, slot). by eapply insert_in_place.
    - exists (Inode.size pi / 4096, 0%nat). eapply insert_at_end; try done.
      destruct Htk as (g & _ & Hgin & Hr & _). apply (proj1 (list.Forall_forall _ _) Hgu) in Hgin as (_ & _ & _ & ? & ?). lia. }
  exists pos. split; [done|]. split; [done|]. split; [done|]. split; [done|]. split; [done|by eapply tree_attach|].
  apply (views_set v); [done| |done]. intros n l q Hne Hq. by eapply I7.
Qed.

(** ** Inodes *)

(** An inode stored. *)
Lemma namespace_store X Y T E v pend n i x d k : namespace X Y T E v pend → T n = Some i → Inode.typed i →
  Inode.kind i ≠ NodeKind.Free → encode_inode i = Ok x → inode_location_in gs n = Ok (d, k) →
  is_block (v (inode_block d k)) → inode_block d k ≤ u64_max →
  namespace (λ n', X n' ∧ n' ≠ n) Y T E (inode_put gs v n x) pend ∧ (∀ b, data_block gs b → inode_put gs v n x b = v b).
Proof using Hvol.
  intros [Hc Ht Hd] Hi Hty Hk Hx Hl Hb Hmax. destruct (co_located _ _ _ _ _ _ Hc n i Hi) as [Hn _].
  assert (∀ b, data_block gs b → inode_put gs v n x b = v b) as Hdata.
  { intros b. by apply (inode_put_data sb gs HL Hgb). }
  split; [split|].
  - exact (consistent_store sb gs HL Hgb Hp3 _ _ _ _ _ _ _ _ _ Hi Hty Hk Hx Hl Hb Hmax Hc).
  - done.
  - by eapply views_data.
  - exact Hdata.
Qed.

(** An inode in memory replaced by one with the same blocks. *)
Lemma namespace_same X Y T E Y' v pend n i i' : namespace X Y T E v pend → T n = Some i →
  (∀ l, mapped (Inode.used_extents i') l = mapped (Inode.used_extents i) l) →
  Inode.size i' = Inode.size i → Inode.kind i' = Inode.kind i → tree_but Y' (tset T n (Some i')) E →
  namespace (λ n', X n' ∨ n' = n) Y' (tset T n (Some i')) E v pend.
Proof using.
  intros [Hc Ht Hd] Hi Hm Hs Hk Ht'. split; [|done|].
  - eapply consistent_same; [by right|done|done|]. eapply consistent_weaken; [|exact Hc]. by left.
  - intros n' j Hj Hkj. destruct (decide (n' = n)) as [->|Hne]; [|rewrite tset_other in Hj by done; by apply Hd].
    rewrite tset_same in Hj. injection Hj as <-. apply (dir_view_frame v v n i i'); [done..|]. apply Hd; congruence.
Qed.

Lemma taken_unlisted Y T E n : tree_but Y T E → T n = None → unlisted E n ∧ n ≠ ROOT_INODE ∧ ¬ is_dir T n.
Proof using.
  intros Ht Hn. split; [|split].
  - intros q pos e He Hen. destruct (tr_target _ _ _ Ht _ _ _ He) as [t [Hi _ _ _ _ _]]. congruence.
  - intros ->. destruct (tr_root _ _ _ Ht) as (r & Hr & _). congruence.
  - intros (i & Hi & _). congruence.
Qed.

(** Taking an inode changes no data block. *)
Lemma inode_taken_data v v' n b : inode_taken gs v v' n → data_block gs b → v' b = v b.
Proof using Hvol.
  intros Htk Hb. destruct (inode_taken_location sb gs HL _ _ _ Htk) as (? & d & j & bm & Hl & _ & _ & ->).
  unfold upd. rewrite decide_False; [done|]. intros ->. apply location_inv in Hl as (_ & Hl & _); [|lia].
  by eapply (data_not_inodes sb gs HL Hgb).
Qed.

(** A new inode without blocks, not a directory. *)
Lemma namespace_new_file X Y T E v v' pend n i : namespace X Y T E v pend → inode_taken gs v v' n →
  (∀ l, mapped (Inode.used_extents i) l = None) → Inode.kind i ≠ NodeKind.Directory →
  T n = None ∧ namespace (λ n', X n' ∨ n' = n) (λ n', Y n' ∨ n' = n) (tset T n (Some i)) E v'
    (with_free_inodes (FilesystemState.free_inode_count pend - 1) pend) ∧
  changes_only (λ n', n' = n) T v (tset T n (Some i)) v'.
Proof using Hvol.
  intros [Hc Ht Hd] Htk Hm Hk. destruct (consistent_create sb gs HL Hgb _ _ _ _ _ _ i Htk Hm Hc) as (Hn & _ & Hc').
  destruct (taken_unlisted _ _ _ _ Ht Hn) as (Hun & Hroot & Hnd).
  assert (∀ n' l q, maps T n' l q → v' q = v q) as Hkeep by (intros n' l q Hq; exact (inode_taken_data _ _ _ _ Htk (owned_data _ _ _ _ _ _ _ _ _ Hc Hq))).
  split; [done|]. split; [split; [done| |]|].
  - apply tree_node; try done. by intros j [= <-].
  - apply (views_file v); [by intros j [= <-]|intros n' l q _; apply Hkeep|done].
  - split; [intros n' Hn'; by apply tset_other|]. intros n' l q _. apply Hkeep.
Qed.

(** The first block of a directory. *)
Definition empty_block (n : Z) : DirectoryBlock.t :=
  DirectoryBlock.mk n 0 (replicate DIRECTORY_ENTRIES_PER_BLOCK DirectoryEntry.default).

Lemma dir_view_new v n i p : mapped (Inode.used_extents i) 0 = Some p → Inode.size i = 4096 → good_block (empty_block n) →
  v p = DirectoryCodec.directory_image (empty_block n) → dir_view v n i ∅.
Proof using.
  intros Hm Hs Hg Hv. assert (dir_block_seen v n i 0 = Ok (empty_block n)) as Hb by (by apply (dir_block_stored v n i 0 p)).
  assert (Inode.size i / 4096 = 1) as Hsz by (by rewrite Hs). split.
  - intros lb Hlb. assert (lb = 0) as -> by lia. by eexists.
  - intros lb slot e. rewrite lookup_empty. split; [done|]. intros [He Hu]. assert (lb = 0) as -> by (destruct He as [? _]; lia).
    rewrite (entry_at_block _ _ _ _ _ _ _ Hb) in He by lia. cbn [empty_block DirectoryBlock.entries] in He.
    apply lookup_replicate in He as [-> _]. done.
Qed.

(** A new directory with one empty block. *)
Lemma namespace_new_dir X Y T E v v1 v2 pend n i0 i b : namespace X Y T E v pend → inode_taken gs v v1 n → block_taken gs v1 v2 b →
  (∀ l, mapped (Inode.used_extents i0) l = None) →
  (∀ l, mapped (Inode.used_extents i) l = if decide (l = 0) then Some b else None) →
  Inode.kind i = NodeKind.Directory → Inode.size i = 4096 → Inode.link_count i ≠ 0 → Inode.directory_entry_count i = 0 →
  is_dir T (Inode.parent_inode i) → good_block (empty_block n) →
  let v' := upd v2 b (DirectoryCodec.directory_image (empty_block n)) in
  let pend1 := with_free_inodes (FilesystemState.free_inode_count pend - 1) pend in
  T n = None ∧ namespace (λ n', X n' ∨ n' = n) (λ n', Y n' ∨ n' = n) (tset T n (Some i)) E v'
    (with_free_blocks (FilesystemState.free_block_count pend1 - 1) pend1) ∧
  changes_only (λ n', n' = n) T v (tset T n (Some i)) v'.
Proof using Hvol.
  intros [Hc Ht Hd] Htk Hbk Hm0 Hm Hk Hs Hl Hcnt Hpar Hg v' pend1.
  destruct (consistent_create sb gs HL Hgb _ _ _ _ _ _ i0 Htk Hm0 Hc) as (Hn & _ & Hc1).
  destruct (taken_unlisted _ _ _ _ Ht Hn) as (Hun & Hroot & Hnd). assert (E n = ∅) as Hempty by (by eapply tree_empty).
  assert (∀ n' l q, maps T n' l q → v' q = v q) as Hkeep.
  { intros n' l q Hq. assert (owned (tset T n (Some i0)) q) as Hq1.
    { exists n', l. destruct Hq as (j & Hj & Hq). exists j. split; [|done]. rewrite tset_other; [done|]. intros ->. congruence. }
    destruct (taken_keeps _ _ _ _ _ _ _ Hc1 Hbk Hq1) as [Hne Hv2]. unfold v', upd. rewrite decide_False, Hv2 by done.
    exact (inode_taken_data _ _ _ _ Htk (owned_data _ _ _ _ _ _ _ _ _ Hc Hq)). }
  split; [done|]. split; [split|].
  - apply (consistent_data sb gs HL Hgb); [by apply (taken_spec sb gs HL Hgb) in Hbk as [? _]|].
    eapply consistent_ext; [intros n'; symmetry; apply (tset_tset T n (Some i0))|].
    apply (consistent_add sb gs HL Hgb _ _ v1 v2 pend1 n i0 i 0 b); [by right|apply tset_same|done|done| |done].
    intros l. by rewrite Hm, Hm0.
  - by apply tree_new_dir.
  - assert (dir_views v' (tset T n (Some i)) (fset E n (E n))) as Hv.
    { rewrite Hempty. apply (views_set v); [|intros n' l q _; apply Hkeep|done]. apply (dir_view_new _ _ _ b); [by rewrite Hm|done..|].
      unfold v', upd. by rewrite decide_True. }
    intros n' j Hj Hkj. specialize (Hv n' j Hj Hkj). unfold fset in Hv. by destruct (decide (n' = n)) as [->|].
  - split; [intros n' Hn'; by apply tset_other|]. intros n' l q _. apply Hkeep.
Qed.

(** ** Freeing *)

Lemma extent_blocks_once X T v pend n i : consistent sb gs X T v pend → T n = Some i → good_inode i →
  NoDup (extent_blocks (Inode.used_extents i)) ∧
  (∀ p, p ∈ extent_blocks (Inode.used_extents i) ↔ ∃ l, mapped (Inode.used_extents i) l = Some p).
Proof using.
  intros Hc Hi Hg. pose proof (ew_chain _ _ (proj1 (proj1 (extents_valid_within _) (good_extents _ Hg)))) as Hch.
  rewrite extent_blocks_pairs. set (es := Inode.used_extents i) in *.
  assert (∀ l p, (l, p) ∈ pairs es ↔ mapped es l = Some p) as Hel by (intros l p; by eapply pairs_elem).
  split.
  - pose proof (pairs_nodup _ _ _ Hch) as Hnd.
    assert (∀ l1 l2 p, (l1, p) ∈ pairs es → (l2, p) ∈ pairs es → l1 = l2) as Hinj.
    { intros l1 l2 p Hl1%Hel Hl2%Hel. by eapply mapped_once. }
    clear - Hnd Hinj. induction (pairs es) as [|[l p] ps IH]; cbn [fmap list_fmap fst snd] in *; [constructor|].
    apply list.NoDup_cons in Hnd as [Hl Hnd]. constructor.
    + intros ([l' p'] & Hp & Hin)%list_elem_of_fmap. cbn in Hp. subst p'. destruct Hl.
      rewrite (Hinj l l' p) by (by left || by right). apply list_elem_of_fmap. by exists (l', p).
    + apply IH; [done|]. intros l1 l2 q ? ?. apply (Hinj l1 l2 q); by right.
  - intros p. rewrite list_elem_of_fmap. split.
    + intros ([l q] & -> & Hin%Hel). by exists l.
    + intros [l Hl%Hel]. by exists (l, p).
Qed.

(** An inode without an entry freed with its blocks. *)
Lemma namespace_free X T E v v' pend n t : namespace X (λ n', n' = n) T E v pend → T n = Some t → good_inode t →
  n ≠ ROOT_INODE → unlisted E n → (Inode.kind t = NodeKind.Directory → Inode.directory_entry_count t = 0) →
  inode_freed gs v v' n t →
  namespace (λ n', X n' ∧ n' ≠ n) (λ _, False) (tset T n None) E v'
    (with_free_inodes (FilesystemState.free_inode_count pend + 1)
       (with_more_free (length (extent_blocks (Inode.used_extents t))) pend)) ∧
  (∀ b, data_block gs b → v' b = v b).
Proof using Hvol.
  intros [Hc Ht Hd] Hi Hg Hroot Hun Hcnt (v1 & d & k & bitmap & Hf & Hl & Hb & Hset & ->).
  destruct (extent_blocks_once _ _ _ _ _ _ Hc Hi Hg) as [Hnd Hps]. destruct (co_located _ _ _ _ _ _ Hc n t Hi) as [Hn _].
  pose proof (location_inv gs n d k Hn Hl) as (_ & Hdk & _). pose proof (location_index gs _ _ _ Hn Hl) as Hk256.
  assert (∀ b, data_block gs b → upd (inode_put gs v1 n (zeros INODE_BYTES)) (g_inodes d) bitmap b = v b) as Hdata.
  { intros b Hdb. unfold upd. rewrite decide_False by (intros ->; by eapply (data_not_inodes sb gs HL Hgb)).
    rewrite (inode_put_data sb gs HL Hgb) by done. apply (all_freed_spec sb gs HL Hgb v _ v1 Hf Hnd).
    - intros p [l Hp]%Hps. apply (co_marked _ _ _ _ _ _ Hc). exists n, l. by exists t.
    - by apply (data_not_bitmap sb gs Hvol). }
  assert (∀ n' l q, maps T n' l q → upd (inode_put gs v1 n (zeros INODE_BYTES)) (g_inodes d) bitmap q = v q) as Hkeep.
  { intros n' l q Hq. by eapply Hdata, owned_data. }
  split; [split|].
  - apply (consistent_weaken sb gs (λ n', (X n' ∨ n' = n) ∧ n' ≠ n)); [tauto|].
    eapply consistent_ext; [intros n'; symmetry; apply (tset_tset T n (Some Inode.default))|].
    eapply (consistent_clear sb gs HL Hgb Hp3 _ _ v1 (with_more_free (length (extent_blocks (Inode.used_extents t))) pend) n Inode.default d k);
      [apply tset_same|done|done|done| |done|].
    + pose proof (inode_block_table d k Hk256) as Hr. destruct (group_blocks_data sb gs Hvol _ _ (inode_block d k) Hdk) as [_ Hcap]; [auto|].
      pose proof (vg_capacity _ _ Hvol). lia.
    + eapply consistent_free; [apply HL|apply Hgb|by right|done|done|done|by intros p ?%Hps| |].
      * intros l p. split; [done|]. intros [Hp Hno]. destruct Hno. apply Hps. by exists l.
      * eapply consistent_weaken; [|exact Hc]. by left.
  - by eapply tree_drop.
  - apply (views_file v); [done|intros n' l q _; apply Hkeep|done].
  - exact Hdata.
Qed.
End namespace.
