(* ===== verification/Create.v ===== *)
(** * Creating nodes

    The steps of the namespace operations in a session, and [create_node]: it is
    atomic, and leaves a consistent volume with the new node under its name. *)

From Stdlib Require Import ZArith Lia.
From stdpp Require Import base list numbers option gmap.
From S2P Require Import Prelude NullfsBytes NullfsPhase3 NullfsSuperblock NullfsRecord NullfsInode.
From S2P Require Import NullfsDirectory NullfsAllocation BlockDevice Journal JournalDisk JournalSteps.
From S2P Require Import JournalRecovery JournalProps Volume Mutation Extents VolumeReads Session.
From S2P Require Import MutationSteps Atomicity Layout Ownership Mounted FileWrite Namespace DirectoryViews.
From S2P Require Import NamespaceSteps.

Open Scope Z_scope.

Section session_steps.
Context {D : Type} {HD : BlockDevice D} {torn : list Z → Prop} {HC : CrashSafe D torn}.
Notation fs := (Filesystem D).
Context (sb : Superblock.t) (s0 : fs) (m : disk) (st : FilesystemState.t).
Context (Hvol : volume sb (groups s0)) (Hgs : Forall group_unsigned (groups s0)).
Notation S := (session sb s0 m st).
Notation still := (open_still sb s0 m st).
Notation gs := (groups s0).
Notation ns := (namespace sb gs).

Lemma store_spec X Y T E v pend s n i : S v pend s → ns X Y T E v pend → T n = Some i → Inode.typed i →
  Inode.kind i ≠ NodeKind.Free →
  wp (write_inode n i)
    (λ _ s', ∃ v', S v' pend s' ∧ ns (λ n', X n' ∧ n' ≠ n) Y T E v' pend ∧ (∀ b, data_block gs b → v' b = v b))
    (λ _ s', still s') s.
Proof using Hvol Hgs.
  intros HS Hns Hi Ht Hk. eapply wp_mono; [apply (write_inode_spec sb s0 m st Hgs v pend s n i HS), Ht|cbv beta|done].
  intros _ s' (x & d & k & Hx & Hl & Hb & Hr & HS'). eexists. split; [exact HS'|].
  eapply namespace_store; [done..|]. pose proof (vg_capacity _ _ Hvol). lia.
Qed.

(** A name looked up in a directory. *)
Definition found_in (es : entries) (name : list Z) (r : option (Z * nat * DirectoryEntry.t)) : Prop :=
  match r with
  | Some (lb, slot, e) => es !! (lb, slot) = Some e ∧ DirectoryEntry.name_bytes e = name
  | None => ∀ pos e, es !! pos = Some e → DirectoryEntry.name_bytes e ≠ name
  end.

Lemma find_spec X Y T E v pend s p pi name : S v pend s → ns X Y T E v pend → T p = Some pi → good_inode pi →
  wp (find_entry p pi name)
    (λ r s', s' = s ∧ Inode.kind pi = NodeKind.Directory ∧ found_in (E p) name r)
    (λ _ s', still s') s.
Proof using.
  intros HS [_ _ Hd] Hp Hg. eapply wp_mono; [exact (find_entry_spec sb s0 m st v pend s p pi name HS Hg)|cbv beta|done].
  intros r s' (-> & Hk & Hr). split; [done|]. split; [done|]. pose proof (Hd p pi Hp Hk) as Hv.
  destruct r as [[[lb slot] e]|]; cbn [found_in].
  - destruct Hr as [He [Hu Hn]]. split; [|done]. by apply (dv_entries _ _ _ _ Hv).
  - intros [lb slot] e [He Hu]%(dv_entries _ _ _ _ Hv) Hn. pose proof He as [Hlb (block & Hb & Hs)].
    destruct (Hr lb) as (block' & Hb' & Hno).
    { unfold directory_blocks, range. change BLOCK_SIZE_U64 with 4096. apply elem_of_seqZ. lia. }
    assert (block' = block) as -> by congruence. apply (Hno e); [by eapply list_elem_of_lookup_2|]. by split.
Qed.

Lemma clear_spec X Y T E v pend s p pi lb slot e : S v pend s → ns X Y T E v pend → T p = Some pi → good_inode pi →
  Inode.kind pi = NodeKind.Directory → E p !! (lb, slot) = Some e →
  wp (clear_entry p pi lb slot)
    (λ pi' s', ∃ v', let T' := tset T p (Some pi') in let E' := fset E p (delete (lb, slot) (E p)) in
       S v' pend s' ∧ ns (λ n, X n ∨ n = p) (λ n, Y n ∨ n = DirectoryEntry.inode e) T' E' v' pend ∧
       unlisted E' (DirectoryEntry.inode e) ∧ good_inode pi' ∧ alike pi pi' ∧ changes_only (λ n, n = p) T v T' v')
    (λ _ s', still s') s.
Proof using Hvol.
  intros HS Hns Hp Hg Hk He. pose proof (ns_views _ _ _ _ _ _ _ _ Hns p pi Hp Hk) as Hv.
  apply (dv_entries _ _ _ _ Hv) in He as [He Hu]. assert (slot < DIRECTORY_ENTRIES_PER_BLOCK)%nat as Hslot.
  { destruct He as (_ & block & Hb & Hl). apply dir_block_length in Hb as <-. by eapply lookup_lt_Some. }
  eapply wp_mono; [exact (clear_entry_spec sb s0 m st v pend s p pi lb slot HS Hg Hslot)|cbv beta|done].
  intros pi' s' (v' & Hs & Hcnt & -> & HS').
  destruct (namespace_clear sb gs Hvol X Y T E v v' pend p pi lb slot e Hns Hp Hg Hk Hs He Hu) as (Hns' & Hun & _ & Hg' & Ho).
  exists v'. split; [done|]. split; [done|]. split; [done|]. split; [done|]. by split.
Qed.

Lemma insert_spec X Y T E v pend s p pi name node t : S v pend s → ns X Y T E v pend → T p = Some pi → good_inode pi →
  Inode.kind pi = NodeKind.Directory → T node = Some t → Inode.typed t → Inode.link_count t ≠ 0 → node ≠ ROOT_INODE →
  (Inode.kind t = NodeKind.Directory → Inode.parent_inode t = p) → unlisted E node → bytes_ok name → is_u64 p → is_u64 node →
  (∀ pos e, E p !! pos = Some e → DirectoryEntry.name_bytes e ≠ name) → ∀ t0,
  Inode.generation t0 = Inode.generation t → Inode.kind t0 = Inode.kind t →
  wp (insert_entry p pi name node t0)
    (λ pi' s', ∃ v' pend' pos e, let T' := tset T p (Some pi') in
       S v' pend' s' ∧ ns (λ n, X n ∨ n = p) (λ n, Y n ∧ n ≠ node) T' (fset E p (<[pos := e]> (E p))) v' pend' ∧
       E p !! pos = None ∧ DirectoryEntry.inode e = node ∧ DirectoryEntry.name_bytes e = name ∧ Inode.typed pi' ∧ alike pi pi' ∧
       FilesystemState.orphan_head pend' = FilesystemState.orphan_head pend ∧ changes_only (λ n, n = p) T v T' v')
    (λ _ s', still s') s.
Proof using Hvol Hgs.
  intros HS Hns Hp Hg Hk Ht Hty Hl Hroot Hpar Hun Hname Hpu Hnu Hfresh t0 Hgen Hkind.
  eapply wp_mono; [apply (insert_entry_spec sb s0 m st Hgs v pend s p pi name node t0 HS Hg Hk); [done|done| |done]|cbv beta|done].
  { rewrite Hgen. apply Hty. }
  intros pi' s' (e & v' & pend' & He & Hins & HS').
  apply entry_new_typed in He as (_ & Hei & Heg & Hek & Hu & Hnm); [|done|rewrite Hgen; apply Hty|done].
  destruct (namespace_insert sb gs Hvol X Y T E v v' pend pend' p pi pi' e t Hgs Hns Hp Hg Hk Hins Hu) as (pos & Hpos & Hty' & Hal & Ho & Hns').
  - split; rewrite ?Hei, ?Heg, ?Hek; try done; congruence.
  - by rewrite Hei.
  - by rewrite Hnm.
  - exists v', pend', pos, e. rewrite Hei in Hns'. split_and!; try done.
    by destruct Hins as [(? & ? & _ & _ & _ & -> & _)|(? & ? & ? & _ & _ & -> & _)].
Qed.

Lemma node_generation_spec v pend s : S v pend s →
  wp next_generation_value (λ g s', s' = s ∧ is_u64 g) (λ _ s', still s') s.
Proof using.
  intros HS. pose proof (wr_idle _ _ _ _ (se_writable _ _ _ _ _ _ _ HS)) as [_ _ _ _ Hst Hty _].
  unfold next_generation_value. wp_step. wp_step. rewrite Hst. wp_steps; [|left_open..].
  match goal with H : checked_add _ _ _ = Some _ |- _ => apply checked_add_Some in H as [-> ?] end.
  repeat match goal with H : Some _ = Some _ |- _ => injection H as <- end.
  destruct Hty as ([? _] & _). split; [done|]. split; lia.
Qed.

(** The new inode, and the first block of a directory. *)
Record fresh (kind : NodeKind.t) (mode parent : Z) (i : Inode.t) : Prop := {
  fr_kind : Inode.kind i = kind;
  fr_mode : Inode.mode i = mode;
  fr_links : Inode.link_count i = 1;
  fr_parent : Inode.parent_inode i = parent;
  fr_size : Inode.size i = if bool_decide (kind = NodeKind.Directory) then 4096 else 0;
  fr_typed : Inode.typed i;
  fr_extents : kind ≠ NodeKind.Directory → Inode.used_extents i = [];
}.

Lemma new_inode_typed kind mode generation parent : 0 ≤ mode ≤ u16_max → is_u64 generation → is_u64 parent →
  Inode.typed (new_inode kind mode generation parent).
Proof using. intros. split; cbn; try done. repeat constructor; done. Qed.

Lemma new_block_mapped i p : Inode.extents i = replicate INLINE_EXTENT_COUNT Extent.default →
  let i' := set_extents (<[0%nat := Extent.mk 0 p 1 0]> (Inode.extents i)) 1 1 i in
  ∀ l, mapped (Inode.used_extents i') l = if decide (l = 0) then Some p else None.
Proof using.
  intros Hi i' l. unfold i', Inode.used_extents. cbn [set_extents Inode.extents Inode.extent_count]. rewrite Hi.
  change (take _ _) with [Extent.mk 0 p 1 0]. cbn [mapped Extent.logical_first_block Extent.physical_first_block Extent.length_blocks].
  destruct (decide (l = 0)) as [->|Hne]; [rewrite decide_True by lia; f_equal; lia|by rewrite decide_False by lia].
Qed.

Definition first_block (node : Z) (kind : NodeKind.t) (inode : Inode.t) : M fs FsError.t Inode.t :=
  if bool_decide (kind = NodeKind.Directory) then
    physical ← allocate_data_block;
    directory ← on_format (DirectoryBlock.new node 0);
    encoded ← on_format (DirectoryBlock.encode directory);
    _ ← stage_block physical encoded;
    mret (set_size BLOCK_SIZE_U64
            (set_extents (<[0%nat := Extent.mk 0 physical 1 0]> (Inode.extents inode)) 1 1 inode))
  else mret inode.

Lemma first_block_spec X Y T E v v1 pend s node kind mode generation parent :
  let pend1 := with_free_inodes (FilesystemState.free_inode_count pend - 1) pend in
  S v1 pend1 s → inode_taken gs v v1 node → ns X Y T E v pend → is_u64 node → 0 ≤ mode ≤ u16_max → is_u64 generation →
  is_u64 parent → is_dir T parent →
  wp (first_block node kind (new_inode kind mode generation parent))
    (λ i s', ∃ v' pend', let T' := tset T node (Some i) in
       S v' pend' s' ∧ T node = None ∧ ns (λ n, X n ∨ n = node) (λ n, Y n ∨ n = node) T' E v' pend' ∧
       fresh kind mode parent i ∧ FilesystemState.orphan_head pend' = FilesystemState.orphan_head pend ∧
       changes_only (λ n, n = node) T v T' v')
    (λ _ s', still s') s.
Proof using Hvol Hgs.
  intros pend1 HS Htk Hns Hnode Hmode Hgen Hpu Hpar. set (i0 := new_inode kind mode generation parent).
  assert (Inode.typed i0) as Hty by (by apply new_inode_typed). unfold first_block. case_bool_decide as Hk.
  2:{ wp_steps. destruct (namespace_new_file sb gs Hvol X Y T E v v1 pend node i0 Hns Htk) as (Hn & Hns' & Ho); [done|done|].
      exists v1, pend1. split_and!; try done. split; try done. by rewrite bool_decide_false. }
  wp_step. eapply wp_mono; [exact (allocate_data_block_spec sb s0 m st Hgs v1 pend1 s HS)|cbv beta|done].
  intros b s1 (v2 & Hbk & _ & HS1). pose proof (block_taken_range s0 Hgs _ _ _ Hbk) as Hb.
  wp_step. unfold on_format at 1, DirectoryBlock.new. apply wp_lift, wpo_map_err. wp_steps; [left_open|]. bool_simpl.
  assert (good_block (empty_block node)) as Hgd by (by apply new_block_good). unfold on_format. apply wp_lift, wpo_map_err.
  change (DirectoryBlock.mk node 0 _) with (empty_block node).
  destruct (DirectoryBlock.encode (empty_block node)) as [x|er|] eqn:Ex; cbn [wpo]; [|left_open|].
  2:{ by apply (encode_no_abort (BlockCodec := DirectoryCodec.directory_codec)) in Ex. }
  apply DirectoryCodec.directory_encode_eq in Ex as [_ ->]; [|apply Hgd]. wp_step.
  eapply wp_mono; [apply (session_stage _ _ _ _ _ _ _ _ _ HS1);
    [apply DirectoryCodec.directory_image_block, Hgd|apply DirectoryCodec.directory_image_ok, Hgd]|cbv beta|left_open].
  intros _ s2 [HS2 _]. wp_steps. set (i := set_size _ _). change BLOCK_SIZE_U64 with 4096 in i.
  assert (∀ l, mapped (Inode.used_extents i) l = if decide (l = 0) then Some b else None) as Hm by (by apply new_block_mapped).
  destruct (namespace_new_dir sb gs Hvol X Y T E v v1 v2 pend node i0 i b Hns Htk Hbk) as (Hn & Hns' & Ho); try done.
  eexists _, _. split; [exact HS2|]. split; [done|]. split; [done|]. split; [|by split].
  split; try done; [by rewrite bool_decide_true|]. apply set_size_typed; [done|].
  apply (set_extents_typed i0 [Extent.mk 0 b 1 0] 1 Hty); [|unfold INLINE_EXTENT_COUNT; cbn; lia|done].
  constructor; [|constructor]. unfold Extent.typed, is_u64, is_u32. cbn. unfold u64_max, u32_max in *. lia.
Qed.
End session_steps.

(** ** Creating *)

(** A checked name is unchanged. *)
Lemma valid_name_same name : wpo (valid_name name) (λ n, n = name) (λ _, True).
Proof.
  unfold valid_name. destruct (negb _); cbn [err_if]; [done|]. rewrite bind_Ok.
  destruct (DirectoryEntry.new _ _ _ _) as [e|e|] eqn:E; [done..|]. exfalso. revert E. unfold DirectoryEntry.new. no_abort.
Qed.

Section create.
Context {D : Type} {HD : BlockDevice D} {torn : list Z → Prop} {HC : CrashSafe D torn}.
Notation fs := (Filesystem D).
Context (sb : Superblock.t) (s0 : fs) (m : disk) (st : FilesystemState.t).
Context (Hvol : volume sb (groups s0)) (Hr : ready sb s0 m st).
Context (torn_control : ∀ y c, torn y → JournalControl.decode y ≠ Ok c).
Context (T : table) (E : forest).
Notation S := (session sb s0 m st).
Notation still := (open_still sb s0 m st).
Notation gs := (groups s0).
Notation Hgs := (rd_groups _ _ _ _ Hr).

(** The directory [parent] has one more entry, with the name and the new node. *)
Definition created_to (parent : Z) (name : list Z) (mode : Z) (kind : NodeKind.t) (T' : table) (E' : forest) (node : Z) (v : disk)
    (pend : FilesystemState.t) : Prop :=
  ∃ i pos e, filesystem_ok sb gs T' E' v pend ∧
    T node = None ∧ T' node = Some i ∧ fresh kind mode parent i ∧
    (∀ pos e, E parent !! pos = Some e → DirectoryEntry.name_bytes e ≠ name) ∧
    E parent !! pos = None ∧ DirectoryEntry.inode e = node ∧ DirectoryEntry.name_bytes e = name ∧
    (∀ n, E' n = fset E parent (<[pos := e]> (E parent)) n) ∧ same_dir T T' parent ∧
    FilesystemState.orphan_head pend = FilesystemState.orphan_head st ∧
    changes_only (λ n, n = parent ∨ n = node) T m T' v.
Definition created (parent : Z) (name : list Z) (mode : Z) (kind : NodeKind.t) : effect Z := λ node v pend,
  ∃ T' E', created_to parent name mode kind T' E' node v pend.

Lemma create_node_spec parent name mode kind : filesystem_ok sb gs T E m st → is_u64 parent → bytes_ok name →
  0 ≤ mode ≤ u16_max → kind ≠ NodeKind.Free →
  atomic sb s0 m (created parent name mode kind) (create_node parent name mode kind).
Proof using Hvol Hr torn_control.
  intros Hok Hpu Hname Hmode Hkind. apply (atomic_intro sb s0 m st); [done|]. intros s HS. set (Q := created parent name mode kind).
  assert (∀ s', still s' → still s' ∨ undone sb s0 m Q s') as Hleft by (by left).
  wp_step. apply wp_lift. pose proof (valid_name_same name) as Hvn. destruct (valid_name name) as [name'|er|]; cbn [wpo] in *;
    [subst name'|apply Hleft; left_open|done].
  wp_step. eapply wp_mono; [exact (session_table sb s0 m st Hgs T m st s parent HS (ns_consistent _ _ _ _ _ _ _ _ Hok) (proj1 Hpu))|cbv beta|auto].
  intros pi s' (-> & Hpi & Hg & _). wp_steps; [apply Hleft; left_open|]. bool_simpl.
  match goal with H : Inode.kind pi = _ |- _ => rename H into Hk end.
  eapply wp_mono; [exact (find_spec sb s0 m st _ _ T E m st s parent pi name HS Hok Hpi Hg)|cbv beta|auto].
  intros r s' (-> & _ & Hfind). wp_steps; [apply Hleft; left_open|]. bool_simpl.
  assert (r = None) as -> by (destruct r; [|done]; match goal with H : ¬ is_Some (Some _) |- _ => by destruct H end). cbn [found_in] in Hfind.
  eapply wp_mono; [exact (allocate_inode_spec sb s0 m st Hgs m st s HS)|cbv beta|auto]. intros node s1 (v1 & Htk & HS1).
  pose proof (taken_u64 sb gs Hvol _ _ _ Htk) as Hnu.
  wp_step. eapply wp_mono; [exact (node_generation_spec sb s0 m st _ _ _ HS1)|cbv beta|auto]. intros g s' [-> Hgen].
  wp_step. eapply wp_mono; [apply (first_block_spec sb s0 m st Hvol Hgs (λ _, False) (λ _, False) T E m v1 st s1 node kind mode g parent); try done|cbv beta|auto].
  { by exists pi. }
  intros i s2 (v2 & pend2 & HS2 & Hnone & Hns2 & Hfr & Horph2 & Ho2). destruct (taken_unlisted _ _ _ _ (ns_tree _ _ _ _ _ _ _ _ Hok) Hnone) as (Hun & Hroot & _).
  assert (parent ≠ node) as Hne by congruence.
  wp_step. eapply wp_mono; [apply (store_spec sb s0 m st Hvol Hgs _ _ _ E v2 pend2 s2 node i HS2 Hns2); [apply tset_same|apply Hfr|by rewrite (fr_kind _ _ _ _ Hfr)]|cbv beta|auto].
  intros _ s3 (v3 & HS3 & Hns3 & Ho3%(changes_none _ _ _ _ _ _ _ (ns_consistent _ _ _ _ _ _ _ _ Hns2))). wp_step.
  eapply wp_mono; [apply (insert_spec sb s0 m st Hvol Hgs _ _ _ E v3 pend2 s3 parent pi name node i HS3 Hns3); try done|cbv beta|auto].
  { by rewrite tset_other. } { apply tset_same. } { apply Hfr. } { by rewrite (fr_links _ _ _ _ Hfr). } { intros _. apply Hfr. }
  intros pi' s4 (v4 & pend4 & pos & e & HS4 & Hns4 & Hpos & Hei & Hen & Hty & Hal & Horph4 & Ho4). pose proof Hal as (Hka & _). wp_step.
  eapply wp_mono; [apply (store_spec sb s0 m st Hvol Hgs _ _ _ _ v4 pend4 s4 parent pi' HS4 Hns4); [apply tset_same|done|congruence]|cbv beta|auto].
  intros _ s5 (v5 & HS5 & Hns5 & Ho5%(changes_none _ _ _ _ _ _ _ (ns_consistent _ _ _ _ _ _ _ _ Hns4))).
  eapply wp_mono; [apply (commit_session sb (vg_geometry _ _ Hvol) (vg_capacity _ _ Hvol) torn_control s0 m st Q node _ _ s5 Hr HS5)|done|by right].
  eexists _, _, i, pos, e. split; [eapply namespace_weaken; [..|exact Hns5]; naive_solver|].
  split; [done|]. split; [by rewrite tset_other, tset_same by done|]. split_and!; try done; [by exists pi, pi'; rewrite tset_same|congruence|].
  set (P := λ n, n = parent ∨ n = node).
  assert (∀ P' : Z → Prop, (∀ n, P' n → P n) → ∀ T v T' v', changes_only P' T v T' v' → changes_only P T v T' v') as Hmono
    by (intros P' HP' T1 w1 T2 w2; by apply changes_only_mono).
  repeat (eapply changes_only_trans; [|eapply Hmono; [|eassumption]; unfold P; naive_solver]). apply changes_only_refl.
Qed.
End create.
