(* ===== verification/Remove.v ===== *)
(** * Removing nodes

    [unlink] and [rmdir] are atomic.  The entry goes; the node is freed with its
    blocks, or, if it is a file that is still open, becomes the first orphan. *)

From Stdlib Require Import ZArith Lia.
From stdpp Require Import base list numbers option gmap.
From S2P Require Import Prelude NullfsBytes NullfsPhase3 NullfsSuperblock NullfsRecord NullfsInode.
From S2P Require Import NullfsDirectory NullfsAllocation BlockDevice Journal JournalDisk JournalSteps.
From S2P Require Import JournalRecovery JournalProps Volume Mutation Extents VolumeReads Session.
From S2P Require Import MutationSteps Atomicity Layout Ownership Mounted FileWrite Namespace DirectoryViews.
From S2P Require Import NamespaceSteps Create.

Open Scope Z_scope.

Section remove.
Context {D : Type} {HD : BlockDevice D} {torn : list Z → Prop} {HC : CrashSafe D torn}.
Notation fs := (Filesystem D).
Context (sb : Superblock.t) (s0 : fs) (m : disk) (st : FilesystemState.t).
Context (Hvol : volume sb (groups s0)) (Hgs : Forall group_unsigned (groups s0)).
Notation S := (session sb s0 m st).
Notation still := (open_still sb s0 m st).
Notation gs := (groups s0).
Notation ns := (namespace sb gs).

(** The data blocks of the inodes outside [P]. *)
Definition data_kept (P : Z → Prop) (T : table) (v v' : disk) : Prop := ∀ n l q, ¬ P n → maps T n l q → v' q = v q.

Lemma free_spec X T E v pend s n t : S v pend s → ns X (λ n', n' = n) T E v pend → T n = Some t → good_inode t →
  n ≠ ROOT_INODE → unlisted E n → (Inode.kind t = NodeKind.Directory → Inode.directory_entry_count t = 0) →
  wp (free_inode_and_blocks n t)
    (λ _ s', ∃ v' pend', S v' pend' s' ∧ ns (λ n', X n' ∧ n' ≠ n) (λ _, False) (tset T n None) E v' pend' ∧
       FilesystemState.orphan_head pend' = FilesystemState.orphan_head pend ∧ (∀ b, data_block gs b → v' b = v b))
    (λ _ s', still s') s.
Proof using Hvol Hgs.
  intros HS Hns Hi Hg Hroot Hun Hcnt. eapply wp_mono; [exact (free_inode_and_blocks_spec sb s0 m st Hgs v pend s n t HS)|cbv beta|done].
  intros _ s' (v' & Hf & HS'). destruct (namespace_free sb gs Hvol X T E v v' pend n t Hns Hi Hg Hroot Hun Hcnt Hf) as [Hns' Hkeep].
  eexists _, _. split; [exact HS'|]. split; [exact Hns'|]. by split.
Qed.

Lemma set_links_typed links parent i : is_u32 links → is_u64 parent → Inode.typed i → Inode.typed (set_links links parent i).
Proof using. intros ? ? []. by split. Qed.

(** A file without an entry put on the list of orphans. *)
Lemma orphan_spec X T E v pend s n t head : S v pend s → ns X (λ n', n' = n) T E v pend → T n = Some t → good_inode t →
  unlisted E n → Inode.kind t = NodeKind.Regular → is_u64 head →
  wp (_ ← write_inode n (set_links 0 head t); pending_state (λ st, mret (with_orphan_head n st)))
    (λ _ s', ∃ v', let T' := tset T n (Some (set_links 0 head t)) in
       S v' (with_orphan_head n pend) s' ∧ ns (λ n', X n' ∧ n' ≠ n) (λ _, False) T' E v' (with_orphan_head n pend) ∧
       (∀ b, data_block gs b → v' b = v b))
    (λ _ s', still s') s.
Proof using Hvol Hgs.
  intros HS Hns Hi Hg Hun Hk Hhead. set (o := set_links 0 head t).
  assert (ns (λ n', X n' ∨ n' = n) (λ _, False) (tset T n (Some o)) E v pend) as Hns1.
  { eapply namespace_same; [done|done|done|done|done|]. eapply tree_orphan; [apply Hns|done|congruence|done| |done].
    cbn. congruence. }
  wp_step. eapply wp_mono; [apply (store_spec sb s0 m st Hvol Hgs _ _ _ E v pend s n o HS Hns1); [apply tset_same| |cbn; congruence]|cbv beta|done].
  { apply set_links_typed; [done|done|apply Hg]. }
  intros _ s1 (v1 & HS1 & Hns2 & Ho).
  eapply wp_mono; [apply (set_orphan_head sb s0 m st v1 pend s1 n HS1)|cbv beta|done].
  { exact (node_u64 sb gs Hvol _ _ _ _ _ _ (ns_consistent _ _ _ _ _ _ _ _ Hns) Hi). }
  intros _ s2 HS2. exists v1. split; [done|]. split.
  - apply namespace_head. eapply namespace_weaken; [..|exact Hns2]; naive_solver.
  - exact Ho.
Qed.

Context (Hr : ready sb s0 m st) (torn_control : ∀ y c, torn y → JournalControl.decode y ≠ Ok c).
Context (T : table) (E : forest).

(** What becomes of the node: an orphan if it is an open file, nothing otherwise. *)
Definition disposed (node : Z) (t : Inode.t) (pend : FilesystemState.t) (o : option Inode.t) : Prop :=
  if is_open (open_handles s0) node (Inode.generation t) && bool_decide (Inode.kind t = NodeKind.Regular)
  then o = Some (set_links 0 (FilesystemState.orphan_head st) t) ∧ FilesystemState.orphan_head pend = node
  else o = None ∧ FilesystemState.orphan_head pend = FilesystemState.orphan_head st.

(** The entry with the name is gone. *)
Definition removed_to (parent : Z) (name : list Z) (directory : bool) (T' : table) (E' : forest) (v : disk)
    (pend : FilesystemState.t) : Prop := ∃ pos e t,
  filesystem_ok sb gs T' E' v pend ∧
  E parent !! pos = Some e ∧ DirectoryEntry.name_bytes e = name ∧ T (DirectoryEntry.inode e) = Some t ∧
  (if directory then Inode.kind t = NodeKind.Directory ∧ E (DirectoryEntry.inode e) = ∅ else Inode.kind t ≠ NodeKind.Directory) ∧
  (∀ n, E' n = fset E parent (delete pos (E parent)) n) ∧ same_dir T T' parent ∧
  disposed (DirectoryEntry.inode e) t pend (T' (DirectoryEntry.inode e)) ∧
  (∀ n, n ≠ parent → n ≠ DirectoryEntry.inode e → T' n = T n) ∧ data_kept (λ n, n = parent) T m v.
Definition removed (parent : Z) (name : list Z) (directory : bool) : effect unit := λ _ v pend, ∃ T' E', removed_to parent name directory T' E' v pend.

(** The node disposed of, after its entry is cleared. *)
Lemma dispose_spec X T1 E1 v pend s node t : S v pend s → ns X (λ n, n = node) T1 E1 v pend → T1 node = Some t → good_inode t →
  node ≠ ROOT_INODE → unlisted E1 node → (Inode.kind t = NodeKind.Directory → Inode.directory_entry_count t = 0) →
  FilesystemState.orphan_head pend = FilesystemState.orphan_head st → is_u64 (FilesystemState.orphan_head st) →
  wp (s ← get;
      if is_open (open_handles s) node (Inode.generation t) && bool_decide (Inode.kind t = NodeKind.Regular) then
        tx ← lift (ok_or (transaction s) FsError.CorruptVolume);
        let head := FilesystemState.orphan_head (Transaction.state tx) in
        _ ← write_inode node (set_links 0 head t);
        pending_state (λ st, mret (with_orphan_head node st))
      else free_inode_and_blocks node t)
    (λ _ s', ∃ v' pend' o, S v' pend' s' ∧ ns (λ n, X n ∧ n ≠ node) (λ _, False) (tset T1 node o) E1 v' pend' ∧
       disposed node t pend' o ∧ (∀ b, data_block gs b → v' b = v b))
    (λ _ s', still s') s.
Proof using Hvol Hgs.
  intros HS Hns Hi Hg Hroot Hun Hcnt Hhead Hu. pose proof (session_frame sb s0 m st _ _ _ HS) as (_ & _ & Hh & _).
  wp_step. wp_step. rewrite Hh. unfold disposed. destruct (_ && _) eqn:Ho.
  - apply andb_true_iff in Ho as [_ Hk]. bool_simpl. destruct (session_transaction _ _ _ _ _ _ _ HS) as (tx & Htx & Hp & _).
    rewrite Htx. apply wp_bind, wp_lift. cbn [ok_or wpo]. rewrite Hp, Hhead.
    eapply wp_mono; [by apply (orphan_spec X T1 E1 v pend s node t)|cbv beta|done].
    intros _ s' (v' & HS' & Hns' & Ho). eexists v', _, _. split; [exact HS'|]. by split.
  - eapply wp_mono; [by apply (free_spec X T1 E1 v pend s node t)|cbv beta|done].
    intros _ s' (v' & pend' & HS' & Hns' & Horph & Ho'). exists v', pend', None. split; [done|]. split; [done|].
    split; [|done]. split; [done|congruence].
Qed.

(** What the checks of [remove] leave. *)
Lemma removable (directory : bool) (t : Inode.t) :
  wpo (if directory then
         _ ← err_if (negb (bool_decide (Inode.kind t = NodeKind.Directory))) FsError.NotDirectory;
         err_if (negb (Inode.directory_entry_count t =? 0)) FsError.DirectoryNotEmpty
       else err_if (bool_decide (Inode.kind t = NodeKind.Directory)) FsError.IsDirectory)
    (λ _, if directory then Inode.kind t = NodeKind.Directory ∧ Inode.directory_entry_count t = 0
          else Inode.kind t ≠ NodeKind.Directory) (λ _, True).
Proof using.
  destruct directory; [|by case_bool_decide]. case_bool_decide; cbn [negb err_if]; [|done]. rewrite bind_Ok.
  by destruct (Z.eqb_spec (Inode.directory_entry_count t) 0).
Qed.

Lemma remove_node_spec parent name directory : filesystem_ok sb gs T E m st → is_u64 parent → bytes_ok name →
  atomic sb s0 m (removed parent name directory) (remove parent name directory).
Proof using Hvol Hgs Hr torn_control.
  intros Hok Hpu Hname. apply (atomic_intro sb s0 m st); [done|]. intros s HS. set (Q := removed parent name directory).
  assert (∀ s', still s' → still s' ∨ undone sb s0 m Q s') as Hleft by (by left). pose proof Hok as [Hc Ht Hd].
  wp_step. apply wp_lift. pose proof (valid_name_same name) as Hvn. destruct (valid_name name) as [name'|er|]; cbn [wpo] in *;
    [subst name'|apply Hleft; left_open|done].
  wp_step. eapply wp_mono; [exact (session_table sb s0 m st Hgs T m st s parent HS Hc (proj1 Hpu))|cbv beta|auto].
  intros pi s' (-> & Hpi & Hg & _). wp_step.
  eapply wp_mono; [exact (find_spec sb s0 m st _ _ T E m st s parent pi name HS Hok Hpi Hg)|cbv beta|auto].
  intros r s' (-> & Hk & Hfind). wp_step. apply wp_lift. destruct r as [[[lb slot] e]|]; cbn [ok_or wpo]; [|apply Hleft; left_open].
  destruct Hfind as [He Hen]. destruct (tr_target _ _ _ Ht _ _ _ He) as [t0 Hnm]. pose proof (nm_inode _ _ _ _ Hnm) as Ht0.
  set (node := DirectoryEntry.inode e) in *. pose proof (node_u64 sb gs Hvol _ _ _ _ _ _ Hc Ht0) as Hnu.
  wp_step. eapply wp_mono; [exact (session_table sb s0 m st Hgs T m st s node HS Hc (proj1 Hnu))|cbv beta|auto].
  intros t s' (-> & Hti & Hgt & _). assert (t0 = t) as -> by congruence.
  wp_step. apply wp_lift. pose proof (removable directory t) as Hrm.
  destruct (if directory then _ else _) as [[]|er|] eqn:Ec; cbn [wpo] in *; [|apply Hleft; left_open|done]. clear Ec.
  assert (Inode.kind t = NodeKind.Directory → Inode.directory_entry_count t = 0) as Hcnt by (destruct directory; tauto).
  assert (node ≠ parent) as Hne.
  { intros E1. rewrite E1 in Hti. assert (t = pi) as -> by congruence.
    pose proof (tr_count _ _ _ Ht _ _ Hpi Hk). pose proof (map_size_ne_0_lookup_2 (E parent) (lb, slot) ltac:(by eexists)). specialize (Hcnt Hk). lia. }
  wp_step. eapply wp_mono; [exact (clear_spec sb s0 m st Hvol _ _ T E m st s parent pi lb slot e HS Hok Hpi Hg Hk He)|cbv beta|auto].
  intros pi' s1 (v1 & HS1 & Hns1 & Hun & Hg' & Hal & [_ Ho1]). pose proof Hal as (Hka & _). apply wp_assoc. wp_step.
  apply (namespace_weaken _ _ _ (λ n, n = parent) _ (λ n, n = node)) in Hns1; [|naive_solver..].
  eapply wp_mono; [apply (dispose_spec _ _ _ v1 st s1 node t HS1 Hns1)|cbv beta|auto]. { by rewrite tset_other. } { done. } { apply Hnm. } { done. } { done. } { done. }
  { apply (id_typed _ _ _ _ (wr_idle _ _ _ _ (rd_writable _ _ _ _ Hr))). }
  intros _ s2 (v2 & pend2 & o & HS2 & Hns2 & Hdis & Ho2). wp_step.
  eapply wp_mono; [apply (store_spec sb s0 m st Hvol Hgs _ _ _ _ v2 pend2 s2 parent pi' HS2 Hns2); [by rewrite tset_other, tset_same|apply Hg'|congruence]|cbv beta|auto].
  intros _ s3 (v3 & HS3 & Hns3 & Ho3).
  eapply wp_mono; [apply (commit_session_unit sb (vg_geometry _ _ Hvol) (vg_capacity _ _ Hvol) torn_control s0 m st Q _ _ s3 Hr HS3)|cbv beta; by intros []|by right].
  eexists _, _, (lb, slot), e, t. split; [eapply namespace_weaken; [..|exact Hns3]; naive_solver|]. split_and!; try done.
  - destruct directory; [|done]. destruct Hrm as [Hkt Hct]. split; [done|]. apply map_size_empty_inv. fold node. pose proof (tr_count _ _ _ Ht _ _ Hti Hkt). lia.
  - exists pi, pi'. by rewrite tset_other, tset_same.
  - by rewrite tset_same.
  - intros n Hn1 Hn2. by rewrite !tset_other.
  - intros n l q Hn Hq. assert (data_block gs q) as Hdq by (by eapply owned_data).
    rewrite Ho3, Ho2 by done. by eapply Ho1.
Qed.
End remove.
