(* ===== verification/Rename.v ===== *)
(** * Renaming nodes

    [rename] is atomic.  The source has its new name, an entry of that name is
    replaced, a moved directory has its new parent, and no directory comes under
    itself. *)

From Stdlib Require Import ZArith Lia.
From stdpp Require Import base list numbers option gmap.
From S2P Require Import Prelude NullfsBytes NullfsPhase3 NullfsSuperblock NullfsRecord NullfsInode.
From S2P Require Import NullfsDirectory NullfsAllocation BlockDevice Journal JournalDisk JournalSteps.
From S2P Require Import JournalRecovery JournalProps Volume Mutation Extents VolumeReads Session.
From S2P Require Import MutationSteps Atomicity Layout Ownership Mounted FileWrite Namespace DirectoryViews.
From S2P Require Import NamespaceSteps Create Remove.

Open Scope Z_scope.

Section rename.
Context {D : Type} {HD : BlockDevice D} {torn : list Z → Prop} {HC : CrashSafe D torn}.
Notation fs := (Filesystem D).
Context (sb : Superblock.t) (s0 : fs) (m : disk) (st : FilesystemState.t).
Context (Hvol : volume sb (groups s0)) (Hgs : Forall group_unsigned (groups s0)).
Context (T : table) (E : forest).
Notation S := (session sb s0 m st).
Notation still := (open_still sb s0 m st).
Notation gs := (groups s0).
Notation ns := (namespace sb gs).

(** The walk to the root does not meet the source. *)
Lemma prevent_cycle_spec s source : S m st s → volume_ok sb gs T m st → ∀ n cursor, 0 ≤ cursor →
  wp (prevent_cycle_from n source cursor) (λ _ s', s' = s ∧ avoids T source cursor) (λ _ s', still s') s.
Proof using Hgs.
  intros HS Hok. induction n as [|n IH]; intros cursor Hc; cbn [prevent_cycle_from]; [wp_steps; left_open|].
  destruct (Z.eqb_spec cursor source) as [->|Hne]; [wp_steps; left_open|].
  destruct (Z.eqb_spec cursor root) as [->|Hr]; [wp_steps; split; [done|]; by constructor|].
  wp_step. eapply wp_mono; [exact (session_table sb s0 m st Hgs T m st s cursor HS Hok Hc)|cbv beta|done].
  intros i s' (-> & Hi & Hg & _). wp_steps; [left_open|]. bool_simpl.
  eapply wp_mono; [apply IH, (Inode.typed_parent _ (gi_typed _ Hg))|cbv beta|done].
  intros _ s' [-> Ha]. split; [done|]. by eapply avoids_up.
Qed.

(** ** The entry that the new name replaces *)

(** The forest without the entry of [p] at a position. *)
Definition without (E : forest) (p : Z) (r : option ((Z * nat) * DirectoryEntry.t)) : forest :=
  match r with Some (pos, _) => fset E p (delete pos (E p)) | None => E end.

(** The node of the replaced entry. *)
Definition is_gone (r : option ((Z * nat) * DirectoryEntry.t)) (n : Z) : Prop :=
  match r with Some (_, d) => n = DirectoryEntry.inode d | None => False end.

(** What [r] is: the entry with the name, of a node that the source may replace. *)
Definition replaces (p : Z) (name : list Z) (source_node : Z) (r : option ((Z * nat) * DirectoryEntry.t)) : Prop :=
  match r with
  | Some (pos, d) => E p !! pos = Some d ∧ DirectoryEntry.name_bytes d = name ∧ DirectoryEntry.inode d ≠ source_node ∧
      E (DirectoryEntry.inode d) = ∅
  | None => ∀ pos e, E p !! pos = Some e → DirectoryEntry.name_bytes e ≠ name
  end.

(** After [replace_destination]. *)
Record replacing (p : Z) (pi : Inode.t) (name : list Z) (source_node : Z) (r : option ((Z * nat) * DirectoryEntry.t))
    (T1 : table) (pi1 : Inode.t) (v1 : disk) (pend1 : FilesystemState.t) : Prop := {
  rp_namespace : ns (λ n, n = p) (λ _, False) T1 (without E p r) v1 pend1;
  rp_replaces : replaces p name source_node r;
  rp_dir : T1 p = Some pi1;
  rp_good : good_inode pi1;
  rp_alike : alike pi pi1;
  rp_gone : ∀ n, is_gone r n → T1 n = None;
  rp_table : ∀ n, n ≠ p → ¬ is_gone r n → T1 n = T n;
  rp_head : FilesystemState.orphan_head pend1 = FilesystemState.orphan_head st;
  rp_data : data_kept (λ n, n = p) T m v1;
}.

Lemma replaceable_Ok source target : wpo (replaceable source target)
  (λ _, Inode.kind target = NodeKind.Directory → Inode.directory_entry_count target = 0) (λ _, True).
Proof using.
  unfold replaceable. destruct (bool_decide (Inode.kind source = _)); case_bool_decide; cbn [andb negb err_if]; try done;
    rewrite ?bind_Ok; cbn [andb negb err_if wpo]; try done; destruct (Z.eqb_spec (Inode.directory_entry_count target) 0); by cbn.
Qed.

Lemma replace_spec s p pi name source_node source : S m st s → filesystem_ok sb gs T E m st → T p = Some pi → good_inode pi →
  wp (replace_destination p pi name source_node source)
    (λ pi1 s', ∃ r T1 v1 pend1, Inode.kind pi = NodeKind.Directory ∧ S v1 pend1 s' ∧
       replacing p pi name source_node r T1 pi1 v1 pend1)
    (λ _ s', still s') s.
Proof using Hvol Hgs.
  intros HS Hok Hpi Hg. pose proof Hok as [Hc Ht Hd]. unfold replace_destination. wp_step.
  eapply wp_mono; [exact (find_spec sb s0 m st _ _ T E m st s p pi name HS Hok Hpi Hg)|cbv beta|done].
  intros r s' (-> & Hk & Hfind). destruct r as [[[lb slot] d]|].
  2:{ wp_steps. exists None, T, m, st. split; [done|]. split; [done|]. split; try done. eapply namespace_weaken; [..|exact Hok]; naive_solver. }
  destruct Hfind as [He Hen]. destruct (tr_target _ _ _ Ht _ _ _ He) as [t0 Hnm]. pose proof (nm_inode _ _ _ _ Hnm) as Ht0.
  set (node := DirectoryEntry.inode d) in *. pose proof (node_u64 sb gs Hvol _ _ _ _ _ _ Hc Ht0) as Hnu.
  wp_steps; [left_open|]. bool_simpl.
  eapply wp_mono; [exact (session_table sb s0 m st Hgs T m st s node HS Hc (proj1 Hnu))|cbv beta|auto].
  intros t s' (-> & Hti & Hgt & _). assert (t0 = t) as -> by congruence. wp_step. apply wp_lift.
  pose proof (replaceable_Ok source t) as Hcnt. destruct (replaceable source t) as [[]|er|]; cbn [wpo] in *; [|left_open|done].
  assert (E node = ∅) as Hempty.
  { destruct (decide (Inode.kind t = NodeKind.Directory)) as [Hkt|Hkt].
    - apply map_size_empty_inv. pose proof (tr_count _ _ _ Ht _ _ Hti Hkt). specialize (Hcnt Hkt). lia.
    - eapply tree_empty; [exact Ht|]. intros (j & Hj & Hkj). congruence. }
  pose proof (entry_not_self _ _ _ _ _ _ Ht He) as Hself. fold node in Hself.
  wp_step. eapply wp_mono; [exact (clear_spec sb s0 m st Hvol _ _ T E m st s p pi lb slot d HS Hok Hpi Hg Hk He)|cbv beta|done].
  intros pi1 s1 (v1 & HS1 & Hns1 & Hun & Hg1 & Hal & [_ Ho1]). fold node in Hns1, Hun.
  apply (namespace_weaken _ _ _ (λ n, n = p) _ (λ n, n = node)) in Hns1; [|naive_solver..].
  wp_step. eapply wp_mono; [apply (free_spec sb s0 m st Hvol Hgs _ _ _ v1 st s1 node t HS1 Hns1); try done|cbv beta|done].
  { by rewrite tset_other. } { apply Hnm. }
  intros _ s2 (v2 & pend2 & HS2 & Hns2 & Horph & Hdata). wp_steps.
  exists (Some ((lb, slot), d)), (tset (tset T p (Some pi1)) node None), v2, pend2. split; [done|]. split; [done|]. split; try done.
  - eapply namespace_weaken; [..|exact Hns2]; naive_solver.
  - by rewrite tset_other, tset_same.
  - intros n ->. apply tset_same.
  - intros n Hn Hng. by rewrite !tset_other.
  - intros n l q Hn Hq. rewrite Hdata; [by eapply Ho1|]. by eapply owned_data.
Qed.

(** ** Moving the source *)

Context (Hr : ready sb s0 m st) (torn_control : ∀ y c, torn y → JournalControl.decode y ≠ Ok c).

(** The source after the move. *)
Definition moved (old_parent new_parent : Z) (t : Inode.t) : Inode.t :=
  if bool_decide (Inode.kind t = NodeKind.Directory) && negb (old_parent =? new_parent)
  then set_links (Inode.link_count t) new_parent t else t.

(** The source has the new name, and the entry that had it is replaced. *)
Definition renamed_to (old_parent : Z) (old_name : list Z) (new_parent : Z) (new_name : list Z) (T' : table) (E' : forest) (v : disk)
    (pend : FilesystemState.t) : Prop :=
  ∃ pos e t r pos' e', let node := DirectoryEntry.inode e in
    let E1 := without (without E new_parent r) old_parent (Some (pos, e)) in
    filesystem_ok sb gs T' E' v pend ∧
    E old_parent !! pos = Some e ∧ DirectoryEntry.name_bytes e = old_name ∧ T node = Some t ∧
    replaces new_parent new_name node r ∧ (∀ n, is_gone r n → T' n = None) ∧
    DirectoryEntry.inode e' = node ∧ DirectoryEntry.name_bytes e' = new_name ∧
    E1 new_parent !! pos' = None ∧ (∀ n, E' n = fset E1 new_parent (<[pos' := e']> (E1 new_parent)) n) ∧
    same_dir T T' old_parent ∧ same_dir T T' new_parent ∧
    T' node = Some (moved old_parent new_parent t) ∧
    (∀ n, n ≠ old_parent → n ≠ new_parent → n ≠ node → ¬ is_gone r n → T' n = T n) ∧
    FilesystemState.orphan_head pend = FilesystemState.orphan_head st ∧
    data_kept (λ n, n = old_parent ∨ n = new_parent ∨ is_gone r n) T m v.
Definition renamed (old_parent : Z) (old_name : list Z) (new_parent : Z) (new_name : list Z) : effect unit := λ _ v pend,
  ∃ T' E', renamed_to old_parent old_name new_parent new_name T' E' v pend.

(** The names of a directory without the replaced entry. *)
Lemma replaced_names p name node r : tree T E → replaces p name node r →
  ∀ pos e, without E p r p !! pos = Some e → DirectoryEntry.name_bytes e ≠ name.
Proof using.
  intros Ht Hrp pos e. destruct r as [[posd d]|]; cbn [without replaces] in *; [|apply Hrp].
  destruct Hrp as (Hd & Hn & _). rewrite fset_same, lookup_delete_Some. intros [Hne He] Hen.
  apply Hne. apply (tr_names _ _ _ Ht p posd d pos e); [done|done|congruence].
Qed.

(** The entry of the source is still there, and its node is not the replaced one. *)
Lemma source_kept p name node r old pos e : tree T E → replaces p name node r → E old !! pos = Some e →
  DirectoryEntry.inode e = node → without E p r old !! pos = Some e ∧ ¬ is_gone r old ∧ ¬ is_gone r node.
Proof using.
  intros Ht Hrp He Hen. destruct r as [[posd d]|]; cbn [without replaces is_gone] in *; [|tauto].
  destruct Hrp as (Hd & _ & Hne & Hempty). split; [|split].
  - unfold fset. destruct (decide (old = p)) as [->|]; [|done]. rewrite lookup_delete_ne; [done|]. intros ->. congruence.
  - intros ->. by rewrite Hempty, lookup_empty in He.
  - congruence.
Qed.

Section within.
Context (p : Z) (pi : Inode.t) (new_name : list Z) (lb : Z) (slot : nat) (e : DirectoryEntry.t) (t : Inode.t).
Context (Hok : filesystem_ok sb gs T E m st) (Hpu : is_u64 p) (Hname : bytes_ok new_name).
Context (Hpi : T p = Some pi) (Hgi : good_inode pi) (Hgt : good_inode t).
Context (He : E p !! (lb, slot) = Some e) (Hnm : names T p e t).
Notation node := (DirectoryEntry.inode e).
Notation Q := (renamed p (DirectoryEntry.name_bytes e) p new_name).

Lemma rename_within_spec s : S m st s →
  wp (old_dir ← replace_destination p pi new_name node t;
      old_dir ← clear_entry p old_dir lb slot;
      old_dir ← insert_entry p old_dir new_name node t;
      _ ← write_inode p old_dir;
      commit_transaction)
    (λ a s', committed sb s0 Q a s') (λ _ s', still s' ∨ undone sb s0 m Q s') s.
Proof using Hvol Hgs Hr torn_control Hok Hpu Hname Hpi Hgi Hgt He Hnm.
  intros HS. pose proof Hok as [Hc Ht Hd]. assert (∀ s', still s' → still s' ∨ undone sb s0 m Q s') as Hleft by (by left).
  pose proof (entry_not_self _ _ _ _ _ _ Ht He) as Hself. pose proof (nm_inode _ _ _ _ Hnm) as Hti.
  wp_step. eapply wp_mono; [exact (replace_spec s p pi new_name node t HS Hok Hpi Hgi)|cbv beta|auto].
  intros pi1 s1 (r & T1 & v1 & pend1 & Hk & HS1 & [R1 R2 R3 R4 R5 R6 R7 R8 R9]).
  destruct (source_kept p new_name node r p (lb, slot) e Ht R2 He eq_refl) as (He1 & _ & Hng).
  pose proof R5 as (Ak & _). rewrite Hk in Ak.
  wp_step. eapply wp_mono; [exact (clear_spec sb s0 m st Hvol _ _ _ _ v1 pend1 s1 p pi1 lb slot e HS1 R1 R3 R4 Ak He1)|cbv beta|auto].
  intros pi2 s2 (v2 & HS2 & Hns2 & Hun & Hg2 & Al2 & [_ Ho2]). pose proof Al2 as (Ak2 & _). wp_step.
  assert (T1 node = Some t) as Ht1 by (by rewrite R7).
  eapply wp_mono; [apply (insert_spec sb s0 m st Hvol Hgs _ _ _ _ v2 pend1 s2 p pi2 new_name node t HS2 Hns2); try done|cbv beta|auto].
  { apply tset_same. } { congruence. } { by rewrite tset_other. } { apply Hgt. } { apply Hnm. } { apply Hnm. } { apply Hnm. }
  { exact (node_u64 sb gs Hvol _ _ _ _ _ _ Hc Hti). }
  { intros pos x. rewrite fset_same, lookup_delete_Some. intros [_ Hx]. by eapply replaced_names. }
  intros pi3 s3 (v3 & pend3 & pos' & e' & HS3 & Hns3 & Hpos & Hei & Hen & Hty & Al3 & Horph & [_ Ho3]). pose proof Al3 as (Ak3 & _). wp_step.
  eapply wp_mono; [apply (store_spec sb s0 m st Hvol Hgs _ _ _ _ v3 pend3 s3 p pi3 HS3 Hns3); [apply tset_same|done|congruence]|cbv beta|auto].
  intros _ s4 (v4 & HS4 & Hns4 & Ho4).
  eapply wp_mono; [apply (commit_session_unit sb (vg_geometry _ _ Hvol) (vg_capacity _ _ Hvol) torn_control s0 m st Q _ _ s4 Hr HS4)|cbv beta; by intros []|by right].
  eexists _, _, (lb, slot), e, t, r, pos', e'. split; [eapply namespace_weaken; [..|exact Hns4]; naive_solver|].
  assert (∀ n, is_gone r n → n ≠ p) as Hgp by (intros n Hn ->; by rewrite R6 in R3).
  split_and!; try done.
  - intros n Hn. rewrite !tset_other by auto. by apply R6.
  - exists pi, pi3. rewrite tset_same. split_and!; [done..|]. by repeat (etrans; [eassumption|]).
  - exists pi, pi3. rewrite tset_same. split_and!; [done..|]. by repeat (etrans; [eassumption|]).
  - unfold moved. rewrite Z.eqb_refl, andb_false_r, !tset_other by done. done.
  - intros n Hn _ _ Hg. rewrite !tset_other by done. by apply R7.
  - congruence.
  - intros n l q Hn Hq. assert (n ≠ p ∧ ¬ is_gone r n) as [Hnp Hg] by tauto. rewrite Ho4 by (by eapply owned_data).
    assert (maps T1 n l q) as Hq1 by (unfold maps; by rewrite R7).
    rewrite (Ho3 n l q), (Ho2 n l q), (R9 n l q); try done. unfold maps. by rewrite tset_other.
Qed.
End within.

Section across.
Context (old new : Z) (od nd : Inode.t) (new_name : list Z) (lb : Z) (slot : nat) (e : DirectoryEntry.t) (t : Inode.t).
Context (Hok : filesystem_ok sb gs T E m st) (Hnu : is_u64 new) (Hname : bytes_ok new_name) (Hne : old ≠ new).
Context (Hod : T old = Some od) (Hgo : good_inode od) (Hnd : T new = Some nd) (Hgn : good_inode nd) (Hkn : Inode.kind nd = NodeKind.Directory) (Hgt : good_inode t).
Context (He : E old !! (lb, slot) = Some e) (Hnm : names T old e t).
Notation node := (DirectoryEntry.inode e).
Context (Hcycle : Inode.kind t = NodeKind.Directory → avoids T node new).
Notation Q := (renamed old (DirectoryEntry.name_bytes e) new new_name).
Notation t' := (moved old new t).

Lemma moved_same : Inode.kind t' = Inode.kind t ∧ Inode.size t' = Inode.size t ∧ Inode.generation t' = Inode.generation t ∧
  Inode.link_count t' = Inode.link_count t ∧ Inode.directory_entry_count t' = Inode.directory_entry_count t ∧
  Inode.used_extents t' = Inode.used_extents t.
Proof using. unfold moved. by destruct (_ && _). Qed.

Lemma moved_typed : Inode.typed t'.
Proof using Hgt Hnu.
  unfold moved. destruct (_ && _); [|apply Hgt]. apply set_links_typed; [apply Hgt|done|apply Hgt].
Qed.

Lemma moved_parent : Inode.kind t = NodeKind.Directory → t' = set_links (Inode.link_count t) new t.
Proof using Hne. intros Hk. unfold moved. rewrite bool_decide_true by done. by rewrite (proj2 (Z.eqb_neq _ _) Hne). Qed.

Lemma source_apart : node ≠ new.
Proof using Hnd Hkn Hnm Hcycle.
  intros En. pose proof (nm_inode _ _ _ _ Hnm) as Hti. assert (t = nd) as Et by congruence.
  rewrite Et in Hcycle. specialize (Hcycle Hkn). inversion Hcycle; congruence.
Qed.

Lemma moved_tree Y T2 E2 : tree_but Y T2 E2 → T2 node = Some t → unlisted E2 node →
  (Inode.kind t = NodeKind.Directory → avoids T2 node new) → tree_but Y (tset T2 node (Some t')) E2.
Proof using Hne Hnm.
  intros Ht Hi Hun Hav. destruct moved_same as (M1 & _ & M3 & M4 & M5 & _).
  destruct (decide (Inode.kind t = NodeKind.Directory)) as [Hk|Hk].
  - eapply tree_reparent; try done; [congruence|apply Hnm|]. rewrite moved_parent by done. by apply Hav.
  - apply (tree_same _ _ _ Ht _ t); [done| |done]. split_and!; try done. unfold moved. by rewrite bool_decide_false.
Qed.

(** The ancestors of the new parent, after the entries are cleared. *)
Lemma still_avoids r T1 nd1 v1 pend1 od1 : replacing new nd new_name node r T1 nd1 v1 pend1 → alike od od1 →
  Inode.kind t = NodeKind.Directory → avoids (tset T1 old (Some od1)) node new.
Proof using Hok Hod Hnd Hne Hnm Hcycle.
  intros [R1 R2 R3 R4 R5 R6 R7 R8 R9] Hal Hk. assert (∀ n, is_gone r n → n ≠ new) as Hgn' by (intros n Hn ->; by rewrite R6 in R3).
  apply (avoids_drop T E _ node (is_gone r)); [apply Hok|apply Hnm| | |by apply Hcycle|by intros ?%Hgn'].
  - intros g Hg. destruct r as [[posd d]|]; cbn in *; [|done]. subst g. by destruct R2 as (_ & _ & _ & ?).
  - intros n i Hi Hki Hng. destruct (decide (n = old)) as [->|Hno].
    { exists od1. rewrite tset_same. assert (i = od) as -> by congruence. destruct Hal as (A1 & _ & _ & A4). by rewrite A1, A4. }
    rewrite tset_other by done. destruct (decide (n = new)) as [->|Hnn]; [|exists i; by rewrite R7].
    exists nd1. assert (i = nd) as -> by congruence. destruct R5 as (A1 & _ & _ & A4). by rewrite A1, A4.
Qed.

Notation is_directory := (Inode.kind t = NodeKind.Directory).

(** The inode of a moved directory changed in memory. *)
Lemma move_in_memory X Y T2 E2 v pend : ns X Y T2 E2 v pend → T2 node = Some t → unlisted E2 node →
  (is_directory → avoids T2 node new) →
  ns (λ n, X n ∨ n = node ∧ is_directory) Y (tset T2 node (Some t')) E2 v pend.
Proof using Hne Hnm.
  clear Hcycle. intros Hns Hi Hun Hav. destruct moved_same as (M1 & M2 & _ & _ & _ & M6).
  assert (ns (λ n, X n ∨ n = node) Y (tset T2 node (Some t')) E2 v pend) as Hns'.
  { eapply namespace_same; [exact Hns|done|by rewrite M6|done|done|]. apply moved_tree; try done. apply Hns. }
  destruct (decide is_directory) as [Hk|Hk]; [eapply namespace_weaken; [..|exact Hns']; naive_solver|].
  eapply namespace_weaken; [..|eapply namespace_ext; [| |exact Hns]]; [naive_solver|naive_solver| |done].
  intros n. unfold moved. rewrite bool_decide_false by done. cbn [andb]. unfold tset. destruct (decide (n = node)) as [->|]; done.
Qed.

(** ... and written. *)
Lemma write_moved_spec X T3 E3 v pend s : S v pend s → ns X (λ _, False) T3 E3 v pend → T3 node = Some t' →
  wp (if bool_decide is_directory && negb (old =? new)
      then write_inode node (set_links (Inode.link_count t) new t) else mret ())
    (λ _ s', ∃ v', S v' pend s' ∧ ns (λ n, X n ∧ ¬ (n = node ∧ is_directory)) (λ _, False) T3 E3 v' pend ∧ (∀ b, data_block gs b → v' b = v b))
    (λ _ s', still s') s.
Proof using Hvol Hgs Hgt Hnu Hne.
  clear Hcycle. intros HS Hns Hi. rewrite (proj2 (Z.eqb_neq _ _) Hne), andb_true_r. case_bool_decide as Hk.
  - rewrite <- moved_parent by done.
    eapply wp_mono; [apply (store_spec sb s0 m st Hvol Hgs _ _ _ _ v pend s node t' HS Hns Hi moved_typed)|cbv beta|done].
    { rewrite (proj1 moved_same). congruence. }
    intros _ s' (v' & HS' & Hns' & Ho). exists v'. split; [done|]. split; [|done]. eapply namespace_weaken; [..|exact Hns']; naive_solver.
  - wp_steps. exists v. split; [done|]. split; [|done]. eapply namespace_weaken; [..|exact Hns]; naive_solver.
Qed.

Lemma rename_across_spec s : S m st s →
  wp (new_dir ← replace_destination new nd new_name node t;
      old_dir ← clear_entry old od lb slot;
      new_dir ← insert_entry new new_dir new_name node t;
      _ ← (if bool_decide is_directory && negb (old =? new)
           then write_inode node (set_links (Inode.link_count t) new t) else mret ());
      _ ← write_inode old old_dir;
      _ ← write_inode new new_dir;
      commit_transaction)
    (λ a s', committed sb s0 Q a s') (λ _ s', still s' ∨ undone sb s0 m Q s') s.
Proof using Hvol Hgs Hr torn_control Hok Hnu Hname Hne Hod Hgo Hnd Hgn Hkn Hgt He Hnm Hcycle.
  intros HS. pose proof Hok as [Hc Ht Hd]. assert (∀ s', still s' → still s' ∨ undone sb s0 m Q s') as Hleft by (by left).
  pose proof (entry_not_self _ _ _ _ _ _ Ht He) as Hself. pose proof (nm_inode _ _ _ _ Hnm) as Hti. pose proof source_apart as Hsn.
  destruct (tr_dir _ _ _ Ht _ _ _ He) as (od0 & Hod0 & Hko). assert (od0 = od) as -> by congruence. clear Hod0.
  wp_step. eapply wp_mono; [exact (replace_spec s new nd new_name node t HS Hok Hnd Hgn)|cbv beta|auto].
  intros nd1 s1 (r & T1 & v1 & pend1 & Hk & HS1 & HR). pose proof HR as [R1 R2 R3 R4 R5 R6 R7 R8 R9].
  destruct (source_kept new new_name node r old (lb, slot) e Ht R2 He eq_refl) as (He1 & Hgo1 & Hng).
  assert (T1 old = Some od) as Ho1 by (by rewrite R7). assert (T1 node = Some t) as Ht1 by (by rewrite R7).
  wp_step. eapply wp_mono; [exact (clear_spec sb s0 m st Hvol _ _ _ _ v1 pend1 s1 old od lb slot e HS1 R1 Ho1 Hgo Hko He1)|cbv beta|auto].
  intros od1 s2 (v2 & HS2 & Hns2 & Hun & Hg2 & Hal & [_ Hd2]).
  apply move_in_memory in Hns2; [|by rewrite tset_other|done|by eapply still_avoids]. wp_step.
  destruct moved_same as (M1 & _ & M3 & M4 & _ & M6).
  eapply wp_mono; [apply (insert_spec sb s0 m st Hvol Hgs _ _ _ _ v2 pend1 s2 new nd1 new_name node t' HS2 Hns2); try done|cbv beta|auto].
  { by rewrite !tset_other. } { by rewrite (proj1 R5). } { apply tset_same. } { apply moved_typed. } { rewrite M4. apply Hnm. } { apply Hnm. }
  { rewrite M1. intros Hkt. by rewrite moved_parent. } { exact (node_u64 sb gs Hvol _ _ _ _ _ _ Hc Hti). }
  { intros pos x. rewrite fset_other by done. by eapply replaced_names. }
  intros nd2 s3 (v3 & pend3 & pos' & e' & HS3 & Hns3 & Hpos & Hei & Hen & Hty & Al3 & Horph & [_ Hd3]). pose proof Al3 as (Ak3 & _). wp_step.
  apply (namespace_weaken _ _ _ (λ n, n = new ∨ n = old ∨ n = node ∧ is_directory) _ (λ _, False)) in Hns3; [|naive_solver..].
  eapply wp_mono; [apply (write_moved_spec _ _ _ v3 pend3 s3 HS3 Hns3); by rewrite tset_other, tset_same|cbv beta|auto].
  intros _ s4 (v4 & HS4 & Hns4 & Hd4). wp_step.
  eapply wp_mono; [apply (store_spec sb s0 m st Hvol Hgs _ _ _ _ v4 pend3 s4 old od1 HS4 Hns4); [by rewrite tset_other, tset_other, tset_same by done|apply Hg2|rewrite (proj1 Hal); congruence]|cbv beta|auto].
  intros _ s5 (v5 & HS5 & Hns5 & Hd5). wp_step.
  eapply wp_mono; [apply (store_spec sb s0 m st Hvol Hgs _ _ _ _ v5 pend3 s5 new nd2 HS5 Hns5); [apply tset_same|done|rewrite Ak3, (proj1 R5); congruence]|cbv beta|auto].
  intros _ s6 (v6 & HS6 & Hns6 & Hd6).
  eapply wp_mono; [apply (commit_session_unit sb (vg_geometry _ _ Hvol) (vg_capacity _ _ Hvol) torn_control s0 m st Q _ _ s6 Hr HS6)|cbv beta; by intros []|by right].
  eexists _, _, (lb, slot), e, t, r, pos', e'. split; [eapply namespace_weaken; [..|exact Hns6]; naive_solver|].
  assert (∀ n, is_gone r n → n ≠ new ∧ n ≠ old ∧ n ≠ node) as Hgp.
  { intros n Hn. split_and!; intros ->; [by rewrite R6 in R3|done|done]. }
  split_and!; try done.
  - intros n Hn. destruct (Hgp n Hn) as (? & ? & ?). rewrite !tset_other by done. by apply R6.
  - exists od, od1. by rewrite tset_other, tset_other, tset_same by done.
  - exists nd, nd2. rewrite tset_same. split_and!; [done..|]. by etrans.
  - rewrite tset_other by done. apply tset_same.
  - intros n Hn1 Hn2 Hn3 Hg. rewrite !tset_other by done. by apply R7.
  - congruence.
  - intros n l q Hn Hq. assert (n ≠ old ∧ n ≠ new ∧ ¬ is_gone r n) as (? & ? & Hg) by tauto.
    assert (data_block gs q) as Hdq by (by eapply owned_data). rewrite Hd6, Hd5, Hd4 by done.
    assert (maps T1 n l q) as Hq1 by (unfold maps; by rewrite R7). rewrite (Hd3 n l q), (Hd2 n l q), (R9 n l q); try done.
    destruct Hq1 as (j & Hj & Hjq). destruct (decide (n = node)) as [->|Hnn].
    + exists t'. rewrite tset_same, M6. split; [done|]. by assert (j = t) as -> by congruence.
    + exists j. by rewrite !tset_other.
Qed.
End across.

(** [rename] does what it is asked to, at once; or nothing, if it fails or if the
    names are the same. *)
Lemma rename_spec old_parent old_name new_parent new_name : filesystem_ok sb gs T E m st → is_u64 old_parent →
  is_u64 new_parent → bytes_ok old_name → bytes_ok new_name →
  let Q := renamed old_parent old_name new_parent new_name in
  wp (rename old_parent old_name new_parent new_name)
    (λ a s, committed sb s0 Q a s ∨
       s = s0 ∧ old_parent = new_parent ∧ old_name = new_name ∧
       ∃ pos e, E old_parent !! pos = Some e ∧ DirectoryEntry.name_bytes e = old_name)
    (λ _ s, undone sb s0 m Q s) s0.
Proof using Hvol Hgs Hr torn_control.
  intros Hok Hou Hnu Hon Hnn Q. apply (mutation_intro sb s0 m st); [done|]. intros s HS.
  assert (∀ s', still s' → still s' ∨ undone sb s0 m Q s') as Hleft by (by left). pose proof Hok as [Hc Ht Hd].
  wp_step. apply wp_lift. pose proof (valid_name_same old_name) as Hvn. destruct (valid_name old_name) as [name'|er|]; cbn [wpo] in *;
    [subst name'|apply Hleft; left_open|done].
  wp_step. apply wp_lift. pose proof (valid_name_same new_name) as Hvn. destruct (valid_name new_name) as [name'|er|]; cbn [wpo] in *;
    [subst name'|apply Hleft; left_open|done].
  wp_step. eapply wp_mono; [exact (session_table sb s0 m st Hgs T m st s old_parent HS Hc (proj1 Hou))|cbv beta|auto].
  intros od s' (-> & Hod & Hgo & _). wp_step.
  eapply wp_mono; [exact (find_spec sb s0 m st _ _ T E m st s old_parent od old_name HS Hok Hod Hgo)|cbv beta|auto].
  intros r s' (-> & Hk & Hfind). wp_step. apply wp_lift. destruct r as [[[lb slot] e]|]; cbn [ok_or wpo]; [|apply Hleft; left_open].
  destruct Hfind as [He <-]. destruct (tr_target _ _ _ Ht _ _ _ He) as [t0 Hnm]. pose proof (nm_inode _ _ _ _ Hnm) as Ht0.
  pose proof (node_u64 sb gs Hvol _ _ _ _ _ _ Hc Ht0) as Hu.
  wp_step. eapply wp_mono; [exact (session_table sb s0 m st Hgs T m st s _ HS Hc (proj1 Hu))|cbv beta|auto].
  intros t s' (-> & Hti & Hgt & _). assert (t0 = t) as -> by congruence. wp_step.
  eapply (wp_mono _ (λ _ s', s' = s ∧ (Inode.kind t = NodeKind.Directory → avoids T (DirectoryEntry.inode e) new_parent)) _ (λ _ s', still s'));
    [|cbv beta|auto].
  { case_bool_decide as Hkt; [|by wp_steps]. unfold prevent_cycle. wp_steps.
    eapply wp_mono; [exact (prevent_cycle_spec s _ HS Hc _ new_parent (proj1 Hnu))|cbv beta|done]. by intros _ s' [-> ?]. }
  intros _ s' [-> Hcycle]. destruct ((old_parent =? new_parent) && bool_decide (DirectoryEntry.name_bytes e = new_name)) eqn:Esame.
  { apply andb_true_iff in Esame as [E1 E2]. bool_simpl. subst new_parent. wp_steps. right.
    destruct (session_transaction _ _ _ _ _ _ _ HS) as (tx & _ & _ & ->).
    split; [apply (no_transaction s0), Hr|]. split; [done|]. split; [done|]. by exists (lb, slot), e. }
  clear Esame. destruct (Z.eqb_spec old_parent new_parent) as [->|Hne].
  { eapply wp_mono; [by apply (rename_within_spec new_parent od new_name lb slot e t)|by left|done]. }
  wp_step. eapply wp_mono; [exact (session_table sb s0 m st Hgs T m st s new_parent HS Hc (proj1 Hnu))|cbv beta|auto].
  intros nd s' (-> & Hnd & Hgn & _). apply wp_bind, wp_lift. case_bool_decide as Hkn; cbn [negb err_if wpo]; [|apply Hleft; left_open].
  pose proof (rename_across_spec old_parent new_parent od nd new_name lb slot e t Hok Hnu Hnn Hne Hod Hgo Hnd Hgn Hkn Hgt He Hnm Hcycle s HS) as Hspec.
  rewrite (proj2 (Z.eqb_neq _ _) Hne) in Hspec. eapply wp_mono; [exact Hspec|by left|done].
Qed.
End rename.
