(* ===== verification/Orphans.v ===== *)
(** * Files without a name

    A file that is removed while it is open becomes an orphan: its inode stays, in a
    list that starts in the state block, until the last handle is closed.  The list
    holds exactly the inodes without links, and each of them is open. *)

From Stdlib Require Import ZArith Lia.
From stdpp Require Import base list numbers option gmap.
From S2P Require Import Prelude NullfsBytes NullfsPhase3 NullfsSuperblock NullfsRecord NullfsInode.
From S2P Require Import NullfsDirectory NullfsAllocation BlockDevice Journal JournalDisk JournalSteps.
From S2P Require Import JournalRecovery JournalProps Volume Mutation Extents VolumeReads Session.
From S2P Require Import MutationSteps Atomicity Layout Ownership Mounted FileWrite Truncate Namespace.
From S2P Require Import DirectoryViews NamespaceSteps Create Remove Rename.

Open Scope Z_scope.

(** ** The list *)

Inductive orphan_list (T : table) : Z → list Z → Prop :=
| ol_nil : orphan_list T 0 []
| ol_cons n i l : n ≠ 0 → T n = Some i → Inode.link_count i = 0 → orphan_list T (Inode.parent_inode i) l →
    orphan_list T n (n :: l).

(** The orphans of a volume, in the order of the list. *)
Record orphans (T : table) (head : Z) (l : list Z) : Prop := {
  or_list : orphan_list T head l;
  or_once : NoDup l;
  or_all : ∀ n i, T n = Some i → Inode.link_count i = 0 → n ∈ l;
}.

Lemma orphan_list_member T head l n : orphan_list T head l → n ∈ l → n ≠ 0 ∧ ∃ i, T n = Some i ∧ Inode.link_count i = 0.
Proof.
  induction 1 as [|m i l Hm Hi Hl _ IH]; [by intros ?%not_elem_of_nil|]. intros [->|Hn]%elem_of_cons; [by eauto|by apply IH].
Qed.

Lemma orphan_list_ext T T' head l : (∀ n i, n ∈ l → T n = Some i → ∃ i', T' n = Some i' ∧
    Inode.link_count i' = Inode.link_count i ∧ Inode.parent_inode i' = Inode.parent_inode i) →
  orphan_list T head l → orphan_list T' head l.
Proof.
  intros HT Hl. induction Hl as [|n i l Hn Hi Hl0 _ IH]; [constructor|].
  destruct (HT n i ltac:(by left) Hi) as (i' & Hi' & Hl' & Hp'). eapply ol_cons; [done|done|congruence|].
  rewrite Hp'. apply IH. intros m j Hm. apply HT. by right.
Qed.

(** A change that keeps the orphans. *)
Lemma orphans_keep T T' head l : (∀ n i, T n = Some i → Inode.link_count i = 0 → ∃ i', T' n = Some i' ∧
    Inode.link_count i' = 0 ∧ Inode.parent_inode i' = Inode.parent_inode i) →
  (∀ n i', T' n = Some i' → Inode.link_count i' = 0 → ∃ i, T n = Some i ∧ Inode.link_count i = 0) →
  orphans T head l → orphans T' head l.
Proof.
  intros H1 H2 [Hl Hnd Hall]. split; [|done|].
  - eapply orphan_list_ext; [|exact Hl]. intros n i Hn Hi. destruct (orphan_list_member _ _ _ _ Hl Hn) as (_ & j & Hj & Hlj).
    assert (j = i) as -> by congruence. destruct (H1 n i Hi Hlj) as (i' & ? & ? & ?). exists i'. split_and!; [done|congruence|done].
  - intros n i' Hi' Hl'. destruct (H2 n i' Hi' Hl') as (i & ? & ?). by eapply Hall.
Qed.

(** A node put at the front. *)
Lemma orphans_push T T' head l node t : orphans T head l → node ≠ 0 → T node = Some t → Inode.link_count t ≠ 0 →
  (∀ n i, n ≠ node → T n = Some i → Inode.link_count i = 0 → T' n = Some i) →
  (∀ n i, n ≠ node → T' n = Some i → Inode.link_count i = 0 → T n = Some i) →
  T' node = Some (set_links 0 head t) → orphans T' node (node :: l).
Proof.
  intros [Hl Hnd Hall] H0 Hi Hlt H1 H2 Ho. assert (node ∉ l) as Hni.
  { intros Hn. destruct (orphan_list_member _ _ _ _ Hl Hn) as (_ & j & Hj & Hlj). congruence. }
  split.
  - eapply ol_cons; [done|done|done|]. eapply orphan_list_ext; [|exact Hl]. intros n i Hn Hni'. exists i. split; [|done].
    destruct (orphan_list_member _ _ _ _ Hl Hn) as (_ & j & Hj & Hlj). apply H1; [by intros ->|done|congruence].
  - by apply list.NoDup_cons.
  - intros n i Hn Hln. destruct (decide (n = node)) as [->|Hne]; [by left|right]. eapply Hall; [by eapply H2|done].
Qed.

(** Where the list passes a node. *)
Lemma orphan_list_split T head l node : orphan_list T head l → NoDup l → node ∈ l → head ≠ node →
  ∃ l1 prior pi l2 i, l = l1 ++ prior :: node :: l2 ∧ T prior = Some pi ∧ Inode.link_count pi = 0 ∧ Inode.parent_inode pi = node ∧
    T node = Some i ∧ orphan_list T (Inode.parent_inode i) l2.
Proof.
  induction 1 as [|n i l Hn Hi Hl Hrest IH]; [by intros _ ?%not_elem_of_nil|]. intros [Hni Hnd]%list.NoDup_cons Hin Hne.
  apply elem_of_cons in Hin as [->|Hin]; [done|]. destruct (decide (Inode.parent_inode i = node)) as [Hp|Hp].
  - rewrite Hp in Hrest. inversion Hrest as [|m j l2 Hm Hj Hlj Hrest2]; subst; [by apply not_elem_of_nil in Hin|].
    exists [], n, i, l2, j. by split_and!.
  - destruct (IH Hnd Hin Hp) as (l1 & prior & pi & l2 & j & -> & H). exists (n :: l1), prior, pi, l2, j. by split.
Qed.

(** The first node taken out. *)
Lemma orphans_pop T head l node i : orphans T head l → head = node → T node = Some i → Inode.link_count i = 0 →
  ∃ l', l = node :: l' ∧ orphans (tset T node None) (Inode.parent_inode i) l'.
Proof.
  intros [Hl Hnd Hall] -> Hi Hli. inversion Hl as [|n j l' Hn Hj _ Hrest]; subst.
  { by apply (Hall _ _ Hi), not_elem_of_nil in Hli. }
  assert (j = i) as -> by congruence. apply list.NoDup_cons in Hnd as [Hni Hnd]. exists l'. split; [done|]. split; [|done|].
  - eapply orphan_list_ext; [|exact Hrest]. intros m k Hm Hk. exists k. rewrite tset_other; [done|]. by intros ->.
  - intros n k. unfold tset. destruct (decide (n = node)) as [|Hne]; [done|]. intros Hk Hlk.
    pose proof (Hall _ _ Hk Hlk) as [->|?]%elem_of_cons; done.
Qed.

(** Another node taken out. *)
Lemma orphan_list_unlink T T' head l1 prior node l2 pi i : orphan_list T head (l1 ++ prior :: node :: l2) →
  NoDup (l1 ++ prior :: node :: l2) → T prior = Some pi → T node = Some i →
  T' prior = Some (set_links (Inode.link_count pi) (Inode.parent_inode i) pi) →
  (∀ n, n ≠ prior → n ≠ node → T' n = T n) → orphan_list T' head (l1 ++ prior :: l2).
Proof.
  intros Hl Hnd Hp Hi Hp' HT. revert head Hl Hnd. induction l1 as [|n l1 IH]; intros head Hl Hnd; cbn [app] in *.
  - inversion Hl as [|? ? ? H0 Hpi Hlk Hr]; subst. assert (i0 = pi) as -> by congruence. apply list.NoDup_cons in Hnd as [Hpn Hnd].
    inversion Hr as [|? ? ? H0' Hni Hlk' Hr']; subst. assert (i0 = i) as -> by congruence. apply list.NoDup_cons in Hnd as [Hnn Hnd].
    eapply ol_cons; [done|done|done|]. cbn [set_links Inode.parent_inode]. eapply orphan_list_ext; [|exact Hr'].
    intros m k Hm Hk. exists k. rewrite HT; [done| |].
    + intros ->. apply Hpn. by right.
    + by intros ->.
  - inversion Hl as [|? j ? H0 Hj Hlk Hr]; subst. apply list.NoDup_cons in Hnd as [Hn Hnd].
    rewrite not_elem_of_app, !not_elem_of_cons in Hn. destruct Hn as (_ & ? & ? & _).
    eapply ol_cons; [done|by rewrite HT|done|]. by apply IH.
Qed.

Lemma orphans_unlink T T' head l1 prior node l2 pi i : orphans T head (l1 ++ prior :: node :: l2) → T prior = Some pi →
  T node = Some i → T' prior = Some (set_links (Inode.link_count pi) (Inode.parent_inode i) pi) → T' node = None →
  (∀ n, n ≠ prior → n ≠ node → T' n = T n) → orphans T' head (l1 ++ prior :: l2).
Proof.
  intros [Hl Hnd Hall] Hp Hi Hp' Hn' HT. assert (∀ n, n ≠ node → n ∈ l1 ++ prior :: node :: l2 → n ∈ l1 ++ prior :: l2) as Hsub.
  { intros n Hne. rewrite !elem_of_app, !elem_of_cons. tauto. }
  split; [by eapply orphan_list_unlink| |].
  - eapply sublist_NoDup; [exact Hnd|]. apply sublist_app; [done|]. by do 2 constructor.
  - intros n k Hk Hlk. assert (n ≠ node) as Hne by congruence. apply Hsub; [done|]. destruct (decide (n = prior)) as [->|Hnp].
    + apply elem_of_app. right. by left.
    + rewrite HT in Hk by done. by eapply Hall.
Qed.

(** ** The invariant of a mounted filesystem *)

Section sound.
Context (sb : Superblock.t) (gs : list group).

(** Every orphan is open. *)
Definition orphans_open (T : table) (handles : list OpenHandle.t) : Prop :=
  ∀ n i, T n = Some i → Inode.link_count i = 0 → is_open handles n (Inode.generation i) = true.

(** The volume, its tree and its files. *)
Record contents_ok (T : table) (E : forest) (v : disk) (pend : FilesystemState.t) : Prop := {
  cn_ok : filesystem_ok sb gs T E v pend;
  cn_tails : zero_tails T v;
}.

Record sound (T : table) (E : forest) (handles : list OpenHandle.t) (v : disk) (pend : FilesystemState.t) : Prop := {
  so_ok : contents_ok T E v pend;
  so_orphans : ∃ l, orphans T (FilesystemState.orphan_head pend) l;
  so_open : orphans_open T handles;
}.

Lemma so_filesystem T E hs v pend : sound T E hs v pend → filesystem_ok sb gs T E v pend.
Proof using. intros H. apply H. Qed.

(** The orphans stay, with their generations. *)
Lemma sound_keep T T' E E' hs v v' pend pend' : sound T E hs v pend → contents_ok T' E' v' pend' →
  FilesystemState.orphan_head pend' = FilesystemState.orphan_head pend →
  (∀ n i, T n = Some i → Inode.link_count i = 0 → ∃ i', T' n = Some i' ∧
     Inode.link_count i' = 0 ∧ Inode.parent_inode i' = Inode.parent_inode i) →
  (∀ n i', T' n = Some i' → Inode.link_count i' = 0 → ∃ i, T n = Some i ∧ Inode.link_count i = 0 ∧
     Inode.generation i' = Inode.generation i) →
  sound T' E' hs v' pend'.
Proof using.
  intros [_ [l Hl] Ho] Hok Hh H1 H2. split; [done| |].
  - exists l. rewrite Hh. eapply orphans_keep; [done| |done]. intros n i' Hi' Hl'. destruct (H2 n i' Hi' Hl') as (i & ? & ? & _). by exists i.
  - intros n i' Hi' Hl'. destruct (H2 n i' Hi' Hl') as (i & Hi & Hli & ->). by apply Ho.
Qed.

(** The table differs only at nodes with links. *)
Lemma sound_linked (P : Z → Prop) T T' E E' hs v v' pend pend' : sound T E hs v pend → contents_ok T' E' v' pend' →
  FilesystemState.orphan_head pend' = FilesystemState.orphan_head pend → (∀ n, ¬ P n → T' n = T n) → (∀ n, Decision (P n)) →
  (∀ n i, P n → T n = Some i → Inode.link_count i ≠ 0) → (∀ n i, P n → T' n = Some i → Inode.link_count i ≠ 0) →
  sound T' E' hs v' pend'.
Proof using.
  intros Hs Hok Hh HT Hdec H1 H2. eapply sound_keep; [done..| |].
  - intros n i Hi Hl. destruct (Hdec n) as [Hp|Hp]; [by destruct (H1 n i Hp Hi)|]. exists i. by rewrite HT.
  - intros n i Hi Hl. destruct (Hdec n) as [Hp|Hp]; [by destruct (H2 n i Hp Hi)|]. exists i. by rewrite <- HT.
Qed.

Lemma listed_linked T E n pos e i : tree T E → E n !! pos = Some e → T n = Some i → Inode.link_count i ≠ 0.
Proof using.
  intros Ht He Hi. destruct (tr_dir _ _ _ Ht _ _ _ He) as (j & Hj & Hk). assert (j = i) as -> by congruence.
  by apply (tr_linked _ _ _ Ht n).
Qed.

Lemma target_linked T E n pos e i : tree T E → E n !! pos = Some e → T (DirectoryEntry.inode e) = Some i → Inode.link_count i ≠ 0.
Proof using. intros Ht He Hi. destruct (tr_target _ _ _ Ht _ _ _ He) as [t [N1 _ _ N4 _ _]]. congruence. Qed.
End sound.

Section effects.
Context {D : Type} {HD : BlockDevice D} {torn : list Z → Prop} {HC : CrashSafe D torn}.
Notation fs := (Filesystem D).
Context (sb : Superblock.t) (s0 : fs) (m : disk) (st : FilesystemState.t) (T : table) (E : forest).
Notation gs := (groups s0).
Notation hs := (open_handles s0).
Context (Hs : sound sb gs T E hs m st).
Notation Ht := (ns_tree _ _ _ _ _ _ _ _ (so_filesystem _ _ _ _ _ _ _ Hs)).

Lemma same_dir_linked T' n i : same_dir T T' n → T n = Some i ∨ T' n = Some i → Inode.link_count i ≠ 0.
Proof using Hs.
  intros (j & j' & Hj & Hj' & Hk & (_ & _ & Hl & _)) Hi. assert (Inode.link_count j ≠ 0) by (by apply (tr_linked _ _ _ Ht n)).
  destruct Hi; congruence.
Qed.

Notation Hz := (cn_tails _ _ _ _ _ _ (so_ok _ _ _ _ _ _ _ Hs)).

(** The files that an operation does not touch. *)
Lemma tails_changed (P : Z → Prop) T' v : (∀ n, ¬ P n → T' n = T n) → data_kept P T m v → (∀ n, Decision (P n)) →
  (∀ n i, P n → T' n = Some i → Inode.kind i = NodeKind.Regular →
     (∃ j, T n = Some j ∧ Inode.kind j = NodeKind.Regular ∧ Inode.size i = Inode.size j ∧
        Inode.used_extents i = Inode.used_extents j ∧ ∀ l p, maps T n l p → v p = m p) ∨ Inode.used_extents i = []) →
  zero_tails T' v.
Proof using Hs.
  intros HT Hd Hdec HP. apply (tails_kept T T' m v Hz). intros n i' Hi' Hk. destruct (Hdec n) as [Hp|Hp].
  - destruct (HP n i' Hp Hi' Hk) as [(j & Hj & Hkj & Hsz & He & Hv)|He].
    + left. exists j. split_and!; try done. intros l p Hl. apply (Hv l p). by exists j.
    + right. intros k _ _. unfold file_byte. by rewrite He.
  - left. rewrite HT in Hi' by done. exists i'. split_and!; try done. intros l p Hl. apply (Hd n l p); [done|]. by exists i'.
Qed.

Lemma same_dir_kind T' n i : same_dir T T' n → T' n = Some i → Inode.kind i = NodeKind.Directory.
Proof using. intros (j & j' & Hj & Hj' & Hk & (Hk' & _)) Hi. congruence. Qed.

Lemma created_to_sound parent name mode kind T' E' node v pend : created_to sb s0 m st T E parent name mode kind T' E' node v pend →
  sound sb gs T' E' hs v pend.
Proof using Hs.
  intros (i & pos & e & Hok & Hn & Hi & Hf & _ & _ & _ & _ & _ & Hd & Hh & [HT Hv]).
  eapply (sound_linked _ _ (λ n, n = parent ∨ n = node)); [done| |done|done|apply _| |].
  - split; [done|]. apply (tails_changed (λ n, n = parent ∨ n = node)); [done|done|apply _|].
    intros n j [->| ->] Hj Hk; [by rewrite (same_dir_kind _ _ _ Hd Hj) in Hk|right].
    assert (j = i) as -> by congruence. apply (fr_extents _ _ _ _ Hf). rewrite <- (fr_kind _ _ _ _ Hf). congruence.
  - intros n j [->| ->] Hj; [by eapply same_dir_linked; [|left]|congruence].
  - intros n j [->| ->] Hj; [by eapply same_dir_linked; [|right]|].
    assert (j = i) as -> by congruence. rewrite (fr_links _ _ _ _ Hf). done.
Qed.

Lemma removed_to_sound parent name directory T' E' v pend : removed_to sb s0 m st T E parent name directory T' E' v pend →
  sound sb gs T' E' hs v pend.
Proof using Hs.
  intros (pos & e & t & Hok0 & He & _ & Hti & _ & _ & Hd & Hdis & HT & Hdata).
  pose proof (target_linked T E parent pos e t Ht He Hti) as Hlt. set (node := DirectoryEntry.inode e) in *.
  assert (contents_ok sb gs T' E' v pend) as Hok.
  { split; [done|]. apply (tails_changed (λ n, n = parent ∨ n = node)); [intros n Hn; apply HT; tauto| |apply _|].
    - intros n l q Hn. apply Hdata. tauto.
    - intros n j [->| ->] Hj Hk; [by rewrite (same_dir_kind _ _ _ Hd Hj) in Hk|left]. unfold disposed in Hdis.
      rewrite Hj in Hdis. destruct (_ && _); destruct Hdis as [[= ->] _]. exists t. split_and!; try done. intros l p. apply Hdata.
      intros Heq. destruct (tr_dir _ _ _ Ht _ _ _ He) as (k & Hki & Hkd). rewrite <- Heq, Hti in Hki. injection Hki as <-. cbn in Hk. congruence. }
  unfold disposed in Hdis. destruct (_ && _) eqn:Ho; destruct Hdis as [Hn Hh].
  2:{ eapply (sound_linked _ _ (λ n, n = parent ∨ n = node)); [done..| |apply _| |].
      - intros n Hn'. apply HT; tauto.
      - intros n j [->| ->] Hj; [by eapply same_dir_linked; [|left]|congruence].
      - intros n j [->| ->] Hj; [by eapply same_dir_linked; [|right]|congruence]. }
  apply andb_true_iff in Ho as [Hopen _]. destruct Hs as [_ [l Hl] Hop].
  assert (node ≠ 0) as H0.
  { intros E0. rewrite E0 in Hti. by destruct (co_located _ _ _ _ _ _ (ns_consistent _ _ _ _ _ _ _ _ (so_filesystem _ _ _ _ _ _ _ Hs)) 0 t Hti) as (_ & d & k & [=]). }
  assert (∀ n i, n ≠ node → T n = Some i → Inode.link_count i = 0 → T' n = Some i) as H1.
  { intros n i Hne Hi Hli. rewrite HT; [done| |done]. intros ->. exact (same_dir_linked T' parent i Hd (or_introl Hi) Hli). }
  assert (∀ n i, n ≠ node → T' n = Some i → Inode.link_count i = 0 → T n = Some i) as H2.
  { intros n i Hne Hi Hli. rewrite HT in Hi; [done| |done]. intros ->. exact (same_dir_linked T' parent i Hd (or_intror Hi) Hli). }
  split; [done| |].
  - exists (node :: l). rewrite Hh. by eapply orphans_push.
  - intros n i Hi Hli. destruct (decide (n = node)) as [->|Hne]; [|by apply Hop; [apply H2|]].
    rewrite Hn in Hi. injection Hi as <-. exact Hopen.
Qed.

Lemma renamed_to_sound op on np nn T' E' v pend : renamed_to sb s0 m st T E op on np nn T' E' v pend →
  sound sb gs T' E' hs v pend.
Proof using Hs.
  intros (pos & e & t & r & pos' & e' & Hok0 & He & _ & Hti & Hr & Hg & _ & _ & _ & _ & Hd1 & Hd2 & Hn & HT & Hh & Hdata).
  pose proof (target_linked T E op pos e t Ht He Hti) as Hlt.
  assert (∀ n, Decision (is_gone r n)) as Hgd by (intros n; unfold is_gone; destruct r as [[]|]; apply _).
  assert (contents_ok sb gs T' E' v pend) as Hok.
  { split; [done|]. apply (tails_changed (λ n, n = op ∨ n = np ∨ n = DirectoryEntry.inode e ∨ is_gone r n)); [intros n ?; apply HT; tauto| |apply _|].
    - intros n l q Hn'. apply Hdata. tauto.
    - intros n j Hp Hj Hk. destruct (Hgd n) as [Hgn|Hgn]; [by rewrite (Hg n Hgn) in Hj|].
      destruct (decide (n = op)) as [->|H1]; [by rewrite (same_dir_kind _ _ _ Hd1 Hj) in Hk|].
      destruct (decide (n = np)) as [->|H2]; [by rewrite (same_dir_kind _ _ _ Hd2 Hj) in Hk|].
      left. assert (n = DirectoryEntry.inode e) as -> by tauto. rewrite Hn in Hj. injection Hj as <-. exists t.
      unfold moved in *. destruct (_ && _); split_and!; try done; intros l p; apply Hdata; tauto. }
  eapply (sound_linked _ _ (λ n, n = op ∨ n = np ∨ n = DirectoryEntry.inode e ∨ is_gone r n)); [done..| |apply _| |].
  - intros n Hn'. apply HT; tauto.
  - intros n j [->|[->|[->|Hgn]]] Hj; [exact (same_dir_linked _ _ j Hd1 (or_introl Hj))|exact (same_dir_linked _ _ j Hd2 (or_introl Hj))|congruence|].
    destruct r as [[posd d]|]; [|done]. cbn in Hgn, Hr. subst n. destruct Hr as (Hrd & _). exact (target_linked T E np posd d j Ht Hrd Hj).
  - intros n j [->|[->|[->|Hgn]]] Hj; [exact (same_dir_linked _ _ j Hd1 (or_intror Hj))|exact (same_dir_linked _ _ j Hd2 (or_intror Hj))| |].
    + rewrite Hn in Hj. injection Hj as <-. unfold moved. by destruct (_ && _).
    + by rewrite Hg in Hj.
Qed.

(** A change of the contents of a file. *)
Lemma becomes_sound T' node i0 size f v pend : T node = Some i0 → Inode.kind i0 = NodeKind.Regular →
  (∀ k, 0 ≤ k → size ≤ k → f k = 0) → file_becomes sb s0 m st T T' node i0 size f v pend → sound sb gs T' E hs v pend.
Proof using Hs.
  intros Hi Hk Hf (i' & (es & en & eb & Hi') & HT & Hok & Hb & Ho & Hh). pose proof (so_filesystem _ _ _ _ _ _ _ Hs) as [_ Htr Hd].
  assert (alike i0 i') as Hal by (by rewrite Hi').
  assert (contents_ok sb gs T' E v pend) as Hok'.
  { split; [split; [done| |]|].
    - eapply tree_but_ext; [|exact HT|done]. eapply tree_same; [done..|]. by rewrite Hi'.
    - intros n j Hj. rewrite HT in Hj. revert Hj. revert n j.
      apply (views_file m v T E node (Some i')); [by intros j [= <-]; rewrite (proj1 Hal), Hk|done|done].
    - apply (tails_kept T T' m v Hz). intros n j Hj Hkj. rewrite HT in Hj. unfold tset in Hj. destruct (decide (n = node)) as [->|Hne].
      + injection Hj as <-. right. intros k H0 Hle. rewrite Hb by done. apply Hf; [done|]. by rewrite Hi' in Hle.
      + left. exists j. split_and!; try done. intros l p Hl. apply (Ho n l p); [done|]. by exists j. }
  eapply sound_keep; [done..| |].
  - intros n j Hj Hlj. rewrite HT. unfold tset. destruct (decide (n = node)) as [->|]; [|by exists j].
    assert (j = i0) as -> by congruence. exists i'. destruct Hal as (_ & _ & -> & ->). done.
  - intros n j. rewrite HT. unfold tset. destruct (decide (n = node)) as [->|]; [|by exists j].
    intros [= <-] Hlj. exists i0. destruct Hal as (_ & <- & Hl & _). split_and!; [done|congruence|done].
Qed.
End effects.

(** The tails of a file after a write and after [truncate]. *)
Lemma overwritten_zero m (T : table) n i offset input : zero_tails T m → T n = Some i → Inode.kind i = NodeKind.Regular → 0 ≤ offset →
  ∀ k, 0 ≤ k → Z.max (Inode.size i) (offset + Z.of_nat (length input)) ≤ k → overwritten m i offset input k = 0.
Proof. intros Hz Hi Hk Ho k H0 Hle. unfold overwritten. rewrite decide_False by lia. apply (Hz n); [done..|lia]. Qed.

Lemma truncated_zero m i size k : 0 ≤ k → size ≤ k → truncated m i size k = 0.
Proof. intros H0 Hle. unfold truncated. by rewrite decide_False by lia. Qed.
