(* ===== verification/Reclaim.v ===== *)
(** * Closing handles and reclaiming orphans

    [reclaim_one_orphan] is atomic: it takes the node out of the list of orphans and
    frees it with its blocks.  Closing the last handle of an orphan does this, so
    that no file without a name outlives its handles. *)

From Stdlib Require Import ZArith Lia.
From stdpp Require Import base list numbers option gmap.
From S2P Require Import Prelude NullfsBytes NullfsPhase3 NullfsSuperblock NullfsRecord NullfsInode.
From S2P Require Import NullfsDirectory NullfsAllocation BlockDevice Journal JournalDisk JournalSteps.
From S2P Require Import JournalRecovery JournalProps Volume Mutation Extents VolumeReads Session.
From S2P Require Import MutationSteps Atomicity Layout Ownership Mounted FileWrite Truncate Namespace.
From S2P Require Import DirectoryViews NamespaceSteps Create Remove Rename Orphans.

Open Scope Z_scope.

(** The list fits in the volume. *)
Lemma orphans_length sb gs X T v pend head l : consistent sb gs X T v pend → orphans T head l →
  (length l ≤ length gs * Z.to_nat PHASE2_INODES_PER_GROUP)%nat.
Proof.
  intros Hc [Hl Hnd _]. unfold PHASE2_INODES_PER_GROUP.
  replace (length gs * Z.to_nat 256)%nat with (length (seqZ 1 (Z.of_nat (length gs) * 256))) by (rewrite length_seqZ; lia).
  apply submseteq_length, NoDup_submseteq; [done|]. intros n Hn. apply elem_of_seqZ.
  destruct (orphan_list_member _ _ _ _ Hl Hn) as (_ & i & Hi & _). destruct (co_located _ _ _ _ _ _ Hc n i Hi) as (Hn0 & d & k & Hloc).
  apply location_inv in Hloc as (Hn1 & Hk%lookup_lt_Some & _); [|done].
  pose proof (Z.div_mod (n - 1) 256 ltac:(lia)). pose proof (Z.mod_pos_bound (n - 1) 256 ltac:(lia)). lia.
Qed.

(** An inode whose link in the list may have changed. *)
Definition relinked (i i' : Inode.t) : Prop := i' = i ∨ Inode.link_count i = 0 ∧ ∃ next, i' = set_links 0 next i.

Section reclaim.
Context {D : Type} {HD : BlockDevice D} {torn : list Z → Prop} {HC : CrashSafe D torn}.
Notation fs := (Filesystem D).
Context (sb : Superblock.t) (s0 : fs) (m : disk) (st : FilesystemState.t).
Context (Hvol : volume sb (groups s0)) (Hgs : Forall group_unsigned (groups s0)).
Context (T : table) (E : forest) (Hok : filesystem_ok sb (groups s0) T E m st).
Notation S := (session sb s0 m st).
Notation still := (open_still sb s0 m st).
Notation gs := (groups s0).
Notation ns := (namespace sb gs).

Lemma orphan_unlisted n i : T n = Some i → Inode.link_count i = 0 → unlisted E n ∧ Inode.kind i ≠ NodeKind.Directory ∧ n ≠ ROOT_INODE.
Proof using Hok.
  intros Hi Hl. pose proof (ns_tree _ _ _ _ _ _ _ _ Hok) as Ht. split; [|split].
  - intros p pos e He <-. by eapply (target_linked T E).
  - intros Hk. by apply (tr_linked _ _ _ Ht n i).
  - intros ->. apply (tr_linked _ _ _ Ht ROOT_INODE i); [done| |done]. by eapply root_present.
Qed.

(** An orphan linked to another one, in memory. *)
Lemma relink_memory n i next : T n = Some i → Inode.link_count i = 0 →
  ns (λ n', False ∨ n' = n) (λ _, False) (tset T n (Some (set_links (Inode.link_count i) next i))) E m st.
Proof using Hok.
  intros Hi Hl. destruct (orphan_unlisted n i Hi Hl) as (Hun & Hk & _). eapply namespace_same; [exact Hok|done..|].
  eapply tree_orphan; [|exact Hi|done|done|done|done]. eapply tree_weaken; [apply Hok|]. done.
Qed.

(** The orphan before [node] linked to the one after it. *)
Definition unlinked (node next : Z) (l : list Z) (T1 : table) : Prop := ∃ l1 prior l2 pi,
  l = l1 ++ prior :: node :: l2 ∧ T prior = Some pi ∧ Inode.link_count pi = 0 ∧ prior ≠ node ∧
  T1 = tset T prior (Some (set_links (Inode.link_count pi) next pi)).

Lemma unlink_orphan_spec s node next : S m st s → is_u64 next → ∀ fuel cursor l, orphan_list T cursor l → NoDup l → node ∈ l →
  cursor ≠ node → 0 ≤ cursor → (length l < fuel)%nat →
  wp (unlink_orphan fuel node next cursor)
    (λ _ s', ∃ T1 v, S v st s' ∧ ns (λ _, False) (λ _, False) T1 E v st ∧ unlinked node next l T1 ∧ data_kept (λ _, False) T m v)
    (λ _ s', still s') s.
Proof using Hvol Hgs Hok.
  intros HS Hnext. induction fuel as [|fuel IH]; intros cursor l Hl Hnd Hin Hne Hc Hfuel; [lia|]. cbn [unlink_orphan].
  wp_steps; [left_open|]. bool_simpl. pose proof Hok as [Hco Ht Hd].
  eapply wp_mono; [exact (session_table sb s0 m st Hgs T m st s cursor HS Hco Hc)|cbv beta|done].
  intros pi s' (-> & Hpi & Hg & Hfree). inversion Hl as [|n j l' Hn Hj Hlj Hrest]; subst; [done|]. assert (j = pi) as -> by congruence.
  apply list.NoDup_cons in Hnd as [Hcl Hnd]. apply elem_of_cons in Hin as [Hx|Hin]; [done|].
  wp_step. unfold on_format. apply wp_lift, wpo_map_err. unfold Inode.orphan_next.
  destruct (Inode.validate_with_mode pi Phase3Orphan) as [[]|er|] eqn:Ev; cbn; [|left_open|].
  2:{ by apply InodeCodec.inode_validate_no_abort in Ev. }
  destruct (Z.eqb_spec (Inode.parent_inode pi) node) as [Hp|Hp].
  - inversion Hrest as [|n2 j2 l2 Hn2 Hj2 _ _]; subst; [by apply not_elem_of_nil in Hin|]. set (o := set_links _ next pi).
    eapply wp_mono; [apply (store_spec sb s0 m st Hvol Hgs _ _ _ E m st s cursor o HS (relink_memory cursor pi next Hpi Hlj));
      [apply tset_same|apply set_links_typed; [apply Hg|done|apply Hg]|exact Hfree]|cbv beta|done].
    intros _ s' (v & HS' & Hns & Hdata). exists (tset T cursor (Some o)), v. split; [done|].
    split; [eapply namespace_weaken; [..|exact Hns]; naive_solver|]. split; [by exists [], cursor, l2, pi|].
    intros n' l q _ Hq. by eapply Hdata, owned_data.
  - eapply wp_mono; [apply (IH _ l' Hrest Hnd Hin Hp)|cbv beta|done]; [apply (Inode.typed_parent _ (gi_typed _ Hg))|cbn in Hfuel; lia|].
    intros _ s' (T1 & v & HS1 & Hns1 & (l1 & prior & l2 & qi & -> & Hrest1) & Hdk). exists T1, v. split; [done|]. split; [done|].
    split; [|done]. by exists (cursor :: l1), prior, l2, qi.
Qed.

(** ** One orphan *)

Context (l : list Z) (Hor : orphans T (FilesystemState.orphan_head st) l) (node : Z) (inode : Inode.t).
Context (Hi : T node = Some inode) (Hg : good_inode inode) (Hl : Inode.link_count inode = 0).
Notation head := (FilesystemState.orphan_head st).
Notation next := (Inode.parent_inode inode).

(** The node is out of the list, in [T1], and not freed yet. *)
Record taken_out (T1 : table) (v : disk) (pend : FilesystemState.t) : Prop := {
  to_namespace : ns (λ _, False) (λ _, False) T1 E v pend;
  to_node : T1 node = Some inode;
  to_rest : ∀ n i, n ≠ node → T n = Some i → ∃ i', T1 n = Some i' ∧ relinked i i';
  to_none : ∀ n, T n = None → T1 n = None;
  to_orphans : ∃ l', l ≡ₚ node :: l' ∧ orphans (tset T1 node None) (FilesystemState.orphan_head pend) l';
  to_data : data_kept (λ _, False) T m v;
}.

Lemma take_out_spec s : S m st s →
  wp (if head =? node then pending_state (λ st, mret (with_orphan_head next st))
      else unlink_orphan (Datatypes.S (total_inodes s)) node next head)
    (λ _ s', ∃ T1 v pend, S v pend s' ∧ taken_out T1 v pend)
    (λ _ s', still s') s.
Proof using Hvol Hgs Hok Hor Hi Hg Hl.
  intros HS. pose proof (Inode.typed_parent _ (gi_typed _ Hg)) as Hnext. pose proof (or_all _ _ _ Hor node inode Hi Hl) as Hin.
  destruct (Z.eqb_spec head node) as [Hh|Hh].
  - eapply wp_mono; [exact (set_orphan_head sb s0 m st m st s next HS Hnext)|cbv beta|done].
    intros _ s' HS'. eexists T, m, _. split; [exact HS'|]. split; [by apply namespace_head|done| |done| |done].
    + intros n i _ Hn. exists i. split; [done|by left].
    + destruct (orphans_pop T head l node inode Hor Hh Hi Hl) as (l' & -> & Hl'). by exists l'.
  - pose proof (orphans_length sb gs _ T m st head l (ns_consistent _ _ _ _ _ _ _ _ Hok) Hor) as Hlen.
    eapply wp_mono; [apply (unlink_orphan_spec s node next HS Hnext _ head l)|cbv beta|done]; try done; try apply Hor.
    { apply (id_typed _ _ _ _ (wr_idle _ _ _ _ (se_writable _ _ _ _ _ _ _ HS))). }
    { unfold total_inodes. rewrite (session_groups sb s0 m st _ _ _ HS). lia. }
    intros _ s' (T1 & v & HS1 & Hns1 & (l1 & prior & l2 & pi & Hll & Hpi & Hlp & Hne & ->) & Hdk).
    exists (tset T prior (Some (set_links (Inode.link_count pi) next pi))), v, st. split; [done|]. split; [done| | | | |done].
    + by rewrite tset_other.
    + intros n i Hn Hni. unfold tset. destruct (decide (n = prior)) as [->|]; [|exists i; by split; [|left]].
      eexists. split; [done|]. assert (i = pi) as -> by congruence. right. split; [done|]. exists next. by rewrite Hlp.
    + intros n Hn. rewrite tset_other; [done|]. intros ->. congruence.
    + exists (l1 ++ prior :: l2). split; [rewrite Hll; solve_Permutation|]. rewrite Hll in Hor. eapply (orphans_unlink T); [exact Hor|done|done| |apply tset_same|].
      * by rewrite tset_other, tset_same.
      * intros n Hn1 Hn2. by rewrite !tset_other.
Qed.

(** The node is gone, and the other orphans are still in the list. *)
Definition reclaimed : effect unit := λ _ v pend, ∃ T', filesystem_ok sb gs T' E v pend ∧ T' node = None ∧
  (∀ n i, n ≠ node → T n = Some i → ∃ i', T' n = Some i' ∧ relinked i i') ∧ (∀ n, T n = None → T' n = None) ∧
  (∃ l', l ≡ₚ node :: l' ∧ orphans T' (FilesystemState.orphan_head pend) l') ∧ data_kept (λ _, False) T m v.

Context (Hr : ready sb s0 m st) (torn_control : ∀ y c, torn y → JournalControl.decode y ≠ Ok c).

Lemma reclaim_one_orphan_spec : atomic sb s0 m reclaimed (reclaim_one_orphan node inode).
Proof using Hvol Hgs Hok Hor Hi Hg Hl Hr torn_control.
  apply (atomic_intro sb s0 m st); [done|]. intros s HS. destruct (orphan_unlisted node inode Hi Hl) as (Hun & Hk & Hroot).
  assert (∀ s', still s' → still s' ∨ undone sb s0 m reclaimed s') as Hleft by (by left).
  wp_step. unfold on_format. apply wp_lift, wpo_map_err. unfold Inode.orphan_next.
  destruct (Inode.validate_with_mode inode Phase3Orphan) as [[]|er|] eqn:Ev; cbn; [|apply Hleft; left_open|].
  2:{ by apply InodeCodec.inode_validate_no_abort in Ev. }
  wp_step. wp_step. destruct (session_transaction _ _ _ _ _ _ _ HS) as (tx & Htx & Hp & _). rewrite Htx.
  apply wp_bind, wp_lift. cbn [ok_or wpo]. rewrite Hp. wp_step.
  eapply wp_mono; [exact (take_out_spec s HS)|cbv beta|auto]. intros _ s1 (T1 & v1 & pend1 & HS1 & [N1 N2 N3 N4 (l' & Hperm & N5) N6]).
  apply (namespace_weaken _ _ _ (λ _, False) _ (λ n, n = node)) in N1; [|naive_solver..].
  wp_step. eapply wp_mono; [apply (free_spec sb s0 m st Hvol Hgs _ T1 E v1 pend1 s1 node inode HS1 N1); try done|cbv beta|auto].
  intros _ s2 (v2 & pend2 & HS2 & Hns2 & Hhead & Hdata).
  eapply wp_mono; [apply (commit_session_unit sb (vg_geometry _ _ Hvol) (vg_capacity _ _ Hvol) torn_control s0 m st reclaimed _ _ s2 Hr HS2)|cbv beta; by intros []|by right].
  exists (tset T1 node None). split; [eapply namespace_weaken; [..|exact Hns2]; naive_solver|]. split; [apply tset_same|]. split_and!.
  - intros n i Hn Hni. rewrite tset_other by done. by apply N3.
  - intros n Hn. rewrite tset_other; [by apply N4|]. intros ->. congruence.
  - exists l'. by rewrite Hhead.
  - intros n k q Hn Hq. rewrite Hdata; [by eapply N6|]. eapply owned_data; [apply Hok|done].
Qed.
End reclaim.

(** ** Between two operations *)

Section ready.
Context {D : Type} {HD : BlockDevice D} {torn : list Z → Prop} {HC : CrashSafe D torn}.
Notation fs := (Filesystem D).
Context (sb : Superblock.t) (s0 : fs) (m : disk) (st : FilesystemState.t) (Hr : ready sb s0 m st).
Notation gs := (groups s0).

Lemma ready_sees : sees s0 m.
Proof using Hr.
  intros b Hb. destruct Hr as [Hw Htx _]. unfold read_block. wp_steps. rewrite Htx, (wr_overlay _ _ _ _ Hw). cbn.
  eapply wp_mono; [apply (dev_read s0 b m _ (id_settled _ _ _ _ (wr_idle _ _ _ _ Hw)) Hb)| |].
  - intros x s' (-> & -> & Hx). done.
  - intros e s' [He ->]. done.
Qed.

(** Reading an inode outside of a mutation. *)
Lemma ready_table T node : volume_ok sb gs T m st → 0 ≤ node →
  wp (read_allocated_inode node)
    (λ i s', s' = s0 ∧ T node = Some i ∧ good_inode i ∧ Inode.kind i ≠ NodeKind.Free) (λ _ s', s' = s0) s0.
Proof using Hr.
  intros Hok Hn. eapply wp_mono; [apply (read_allocated_spec s0 m node ready_sees)|cbv beta|by intros e s' [-> _]].
  - apply (tables s0), Hr.
  - rewrite (id_superblock _ _ _ _ (wr_idle _ _ _ _ (rd_writable _ _ _ _ Hr))). intros i s' (-> & Hi & Hg & Hk).
    split; [done|]. split; [|by split]. rewrite <- (co_stored _ _ _ _ _ _ Hok node Hn (λ F, F)). unfold table_of. by rewrite Hi.
Qed.

Lemma ready_handles handles next : ready sb (set_handles handles next s0) m st.
Proof using Hr. destruct Hr as [[[] ? ? ? ?] ? ?]. by split; [split; [split|..]|..]. Qed.
End ready.

Lemma is_open_elem handles n g : is_open handles n g = true ↔
  ∃ h, h ∈ handles ∧ OpenHandle.node h = n ∧ OpenHandle.generation h = g.
Proof.
  unfold is_open. rewrite any_true. split.
  - intros (h & Hh & Hb). apply andb_true_iff in Hb as [? ?]. bool_simpl. by exists h.
  - intros (h & Hh & <- & <-). exists h. by rewrite !Z.eqb_refl.
Qed.
