(* ===== verification/Validate.v ===== *)
(** * The consistency check accepts a sound volume

    [validate_volume], which every mount runs, never refuses contents that hold a
    filesystem: it fails only when the device does. *)

From Stdlib Require Import ZArith Lia.
From stdpp Require Import base list numbers option gmap.
From S2P Require Import Prelude NullfsBytes NullfsPhase3 NullfsSuperblock NullfsRecord NullfsInode.
From S2P Require Import NullfsDirectory NullfsAllocation BlockDevice Journal JournalDisk JournalSteps.
From S2P Require Import JournalRecovery JournalProps Volume Mutation Mount Extents VolumeReads Session.
From S2P Require Import MutationSteps Atomicity Layout Ownership Mounted FileWrite Truncate Namespace.
From S2P Require Import DirectoryViews NamespaceSteps Create Remove Rename Orphans Reclaim.

Open Scope Z_scope.

(** Every number up to the size of the tables has a slot. *)
Lemma located (gs : list group) n : 1 ≤ n ≤ Z.of_nat (length gs) * 256 → ∃ d i, inode_location_in gs n = Ok (d, i).
Proof.
  intros Hn. unfold inode_location_in, PHASE2_INODES_PER_GROUP. rewrite (proj2 (Z.eqb_neq n 0)) by lia. cbn [err_if]. rewrite bind_Ok.
  assert (is_Some (gs !! Z.to_nat ((n - 1) / 256))) as [d ->]; [|by eexists _, _].
  apply lookup_lt_is_Some. assert ((n - 1) / 256 < Z.of_nat (length gs)) by (apply Z.div_lt_upper_bound; lia). lia.
Qed.

Lemma location_at (gs : list group) k g i n : gs !! k = Some g → (i < 256)%nat → n = Z.of_nat k * 256 + Z.of_nat i + 1 →
  inode_location_in gs n = Ok (g, i).
Proof.
  intros Hk Hi ->. unfold inode_location_in, PHASE2_INODES_PER_GROUP. rewrite (proj2 (Z.eqb_neq _ 0)) by lia. cbn [err_if]. rewrite bind_Ok.
  rewrite Z.add_simpl_r, Z.div_add_l, Z.div_small, Z.add_0_r, Nat2Z.id, Hk by lia. cbn [ok_or].
  rewrite bind_Ok, Z.add_comm, Z.mod_add, Z.mod_small, Nat2Z.id by lia. done.
Qed.

Section check.
Context {D : Type} {HD : BlockDevice D} {torn : list Z → Prop} {HC : CrashSafe D torn}.
Notation fs := (Filesystem D).
Notation Op := (M fs FsError.t).
Context (sb : Superblock.t) (gs : list group) (Hvol : volume sb gs).
Context (Hbits : Superblock.allocation_group_blocks sb ≤ 32768).
Context (s : fs) (m : disk) (st : FilesystemState.t) (Hgs : groups s = gs) (Hsb : superblock s = sb).
Context (Hsees : sees s m) (Htab : Forall group_unsigned gs).
Context (T : table) (E : forest) (Hok : filesystem_ok sb gs T E m st).
Notation HL := (vg_layout _ _ Hvol).
Notation Hagb := (vg_group_blocks _ _ Hvol).
Notation Hcon := (ns_consistent _ _ _ _ _ _ _ _ Hok).

(** A step of the check: it passes, or the device fails. *)
Definition passes {A} (c : Op A) (P : A → Prop) : Prop := wp c (λ a s', s' = s ∧ P a) (λ e s', s' = s ∧ device_error e) s.

Lemma passes_bind {A B} (c : Op A) (k : A → Op B) P Q : passes c P → (∀ a, P a → passes (k a) Q) → passes (a ← c; k a) Q.
Proof using. intros Hc Hk. apply wp_bind. eapply wp_mono; [exact Hc|cbv beta|done]. intros a s' [-> Ha]. by apply Hk. Qed.

Lemma passes_mono {A} (c : Op A) (P Q : A → Prop) : passes c P → (∀ a, P a → Q a) → passes c Q.
Proof using. intros Hc Hk. eapply wp_mono; [exact Hc|cbv beta|done]. intros a s' [-> Ha]. split; [done|]. by apply Hk. Qed.

Lemma passes_ret {A} (a : A) (P : A → Prop) : P a → passes (mret a) P.
Proof using. intros Ha. by apply wp_ret. Qed.

Lemma passes_lift {A} (o : outcome FsError.t A) a (P : A → Prop) : o = Ok a → P a → passes (lift o) P.
Proof using. intros -> Ha. apply wp_lift. by cbn [wpo]. Qed.

Lemma passes_reads {A} (f : fs → outcome FsError.t A) a (P : A → Prop) : f s = Ok a → P a → passes (reads f) P.
Proof using. intros E0 Ha. apply wp_reads. rewrite E0. by cbn [wpo]. Qed.

Lemma passes_corrupt b (P : unit → Prop) : b = false → P () → passes (corrupt_if b) P.
Proof using. intros -> HP. by apply (passes_lift _ ()). Qed.

Lemma passes_format {A} (o : outcome FormatError.t A) a (P : A → Prop) : o = Ok a → P a → passes (on_format o) P.
Proof using. intros -> Ha. by apply (passes_lift _ a). Qed.

Lemma passes_get {B} (k : fs → Op B) Q : passes (k s) Q → passes (s ← get; k s) Q.
Proof using. intros H. unfold passes. wp_step. wp_step. exact H. Qed.

Lemma passes_fold {A B} (l : list A) (f : B → A → Op B) (I : list A → B → Prop) acc :
  I [] acc → (∀ prior x acc, prior ++ [x] `prefix_of` l → I prior acc → passes (f acc x) (I (prior ++ [x]))) →
  passes (for_fold l acc f) (I l).
Proof using.
  intros H0 Hstep. apply (wp_for_fold l f (λ prior acc s', s' = s ∧ I prior acc)); [done| |done].
  intros prior x acc' s' Hp [-> Hi]. by apply Hstep.
Qed.

Lemma passes_each {A} (l : list A) (f : A → Op unit) (P : A → Prop) :
  (∀ x, x ∈ l → passes (f x) (λ _, P x)) → passes (for_each l f) (λ _, ∀ x, x ∈ l → P x).
Proof using.
  intros Hstep. apply (wp_for_each l f (λ prior s', s' = s ∧ ∀ x, x ∈ prior → P x)); [by split; [|intros x ?%not_elem_of_nil]| |done].
  intros prior x s' [rest Hp] [-> Hprior]. eapply wp_mono; [apply Hstep|cbv beta|done].
  - rewrite Hp. apply elem_of_app. left. apply elem_of_app. right. by apply list_elem_of_singleton.
  - intros _ s' [-> Hx]. split; [done|]. intros y [?| ->%list_elem_of_singleton]%elem_of_app; auto.
Qed.

(** ** Reads *)

Lemma check_phase3 : passes phase3 (λ b, b = true).
Proof using Hvol Hsb. apply (passes_reads _ true); [|done]. by rewrite Hsb, (vg_phase3 _ _ Hvol). Qed.

Lemma check_read b : 0 ≤ b → passes (read_block b) (λ x, x = m b ∧ is_block x ∧ bytes_ok x).
Proof using Hsees. intros Hb. by apply Hsees. Qed.

Lemma tables_ok : tables_typed (groups s).
Proof using Hgs Htab. rewrite Hgs. eapply Forall_impl; [exact Htab|]. by intros g (_ & _ & ? & _). Qed.

Lemma check_read_inode n d k : 0 ≤ n → inode_location_in gs n = Ok (d, k) →
  passes (read_inode n) (λ i, good_inode i ∧ (Inode.kind i = NodeKind.Free ∧ T n = None ∨ Inode.kind i ≠ NodeKind.Free ∧ T n = Some i)).
Proof using Hgs Hsb Hsees Htab Hok.
  intros Hn Hl. destruct (co_slots _ _ _ _ _ _ Hcon n d k Hn Hl) as [i0 Hi0].
  eapply wp_mono; [apply (read_inode_spec s m n Hsees tables_ok)|cbv beta|cbv beta]; rewrite Hsb, Hgs, Hi0.
  - intros i s' (-> & [= <-] & Hg). split; [done|]. split; [done|].
    rewrite <- (co_stored _ _ _ _ _ _ Hcon n Hn (λ F, F)). unfold table_of, allocated_seen. rewrite Hi0, bind_Ok.
    case_bool_decide; cbn [err_if]; [by left|right]. by rewrite bind_Ok.
  - intros e s' [-> [?|?]]; done.
Qed.

Lemma check_read_allocated n i0 : T n = Some i0 → passes (read_allocated_inode n) (λ i, i = i0 ∧ good_inode i0 ∧ Inode.kind i0 ≠ NodeKind.Free).
Proof using Hgs Hsb Hsees Htab Hok.
  intros Hi. destruct (co_located _ _ _ _ _ _ Hcon n i0 Hi) as (Hn & _).
  assert (allocated_seen sb gs m n = Ok i0) as Hseen.
  { pose proof (co_stored _ _ _ _ _ _ Hcon n Hn (λ F, F)) as Ht. rewrite Hi in Ht. unfold table_of in Ht.
    destruct (allocated_seen sb gs m n); congruence. }
  eapply wp_mono; [apply (read_allocated_spec s m n Hsees tables_ok)|cbv beta|cbv beta]; rewrite Hsb, Hgs, Hseen.
  - by intros i s' (-> & [= <-] & Hg & Hk).
  - intros e s' [-> [?|?]]; done.
Qed.

(** ** The bitmaps of the groups *)

Lemma group_small k g : gs !! k = Some g → 0 ≤ g_start g ∧ g_start g ≤ g_data g ≤ g_end g ∧ g_end g - g_start g ≤ 32768 ∧ 0 ≤ g_blocks g ∧ 0 ≤ g_inodes g.
Proof using Hvol Hbits.
  intros Hk. destruct (HL k g Hk) as []. pose proof Hagb. unfold PHASE2_INODE_TABLE_BLOCKS in *.
  assert (0 ≤ Z.of_nat k * Superblock.allocation_group_blocks sb) by lia.
  rewrite Z.mul_add_distr_r in *. lia.
Qed.

(** A bit of a bitmap is there. *)
Lemma bit_there x bit : is_block x → Z.of_nat bit < 32768 → ∃ b, bitmap_test x bit = Some b.
Proof using.
  intros Hx Hb. destruct (bitmap_test x bit) as [b|] eqn:Eb; [by exists b|]. apply bitmap_test_None in Eb.
  pose proof BLOCK_SIZE_Z. unfold is_block in Hx.
  assert (bit / 8 < length x)%nat by (rewrite Hx; apply Nat.Div0.div_lt_upper_bound; lia). lia.
Qed.

Lemma check_tail x n : is_block x → bytes_ok x → Z.of_nat n ≤ 32768 → clear_from x n → passes (on_format (validate_bitmap_tail x n)) (λ _, True).
Proof using.
  intros Hx Hb Hn Hc. pose proof (validate_bitmap_tail_spec x n Hb) as Hs. pose proof BLOCK_SIZE_Z. unfold is_block in Hx.
  destruct (validate_bitmap_tail x n) as [[]|e|] eqn:Ev; cbn [wpo] in Hs; [by apply (passes_format _ ())| |done].
  exfalso. destruct Hs as [[_ Hs]|[_ Hs]]; [|done]. rewrite Hx in Hs. unfold u64_max in Hs. lia.
Qed.

Lemma check_group_passes k g : gs !! k = Some g → passes (check_group_bitmaps g) (λ _, True).
Proof using Hvol Hbits Hsb Hsees Hok.
  intros Hk. destruct (group_small k g Hk) as (H0 & Hd & Hsz & Hb & Hi). destruct (co_framed _ _ _ _ _ _ Hcon k g Hk) as [[Hmeta Hend] Hin].
  unfold check_group_bitmaps. eapply passes_bind; [by apply check_read|]. intros x (-> & Hx & Hbx). cbv beta.
  eapply passes_bind; [apply check_phase3|]. intros p3 ->. cbv beta. apply passes_bind with (P := λ _, True).
  - rewrite (gl_count _ _ _ (HL k g Hk)). apply passes_bind with (P := λ _, True); [by apply check_tail; [..|lia|]|]. intros _ _.
    eapply passes_mono; [apply (passes_each _ _ (λ _, True))|done]. intros p Hp%elem_of_seqZ. apply passes_corrupt; [|done]. rewrite bool_decide_true; [done|]. apply Hmeta. lia.
  - intros _ _. eapply passes_bind; [by apply check_read|]. intros y (-> & Hy & Hby). cbv beta.
    rewrite (gl_inodes_in_group _ _ _ (HL k g Hk)). by apply check_tail.
Qed.

(** ** The blocks of the inodes *)

Lemma find_group p k g : gs !! k = Some g → g_data g ≤ p < g_end g → List.find (in_group p) gs = Some g.
Proof using Hvol Hbits.
  intros Hk Hp. pose proof (group_small k g Hk) as (_ & Hd & _). assert (in_group p g = true) as Hin.
  { unfold in_group. rewrite (gl_count _ _ _ (HL k g Hk)). apply andb_true_iff. rewrite Z.leb_le, Z.ltb_lt. lia. }
  destruct (List.find (in_group p) gs) as [g'|] eqn:Ef.
  - apply find_some in Ef as [[k' Hk']%list_elem_of_In%list_elem_of_lookup Hin']. f_equal.
    unfold in_group in Hin'. rewrite (gl_count _ _ _ (HL k' g' Hk')) in Hin'. apply andb_true_iff in Hin' as [? ?]. bool_simpl.
    eapply (within_group sb gs HL Hagb k' k g' g p); [done|done|unfold within; lia..].
  - eapply find_none in Ef; [|by apply list_elem_of_In, (list_elem_of_lookup_2 _ k)]. congruence.
Qed.

Lemma data_in_area p : data_block gs p → block_is_data gs p = true.
Proof using.
  clear. intros (k & g & Hk & Hp). apply any_true. exists g. split; [by eapply list_elem_of_lookup_2|]. unfold in_data_area.
  apply andb_true_iff. rewrite Z.leb_le, Z.ltb_lt. lia.
Qed.

Lemma check_marked p : marked gs m p → passes (block_bitmap_value p) (λ b, b = true).
Proof using Hvol Hbits Hgs Hsees.
  intros (k & g & Hk & Hp & Ht). unfold block_bitmap_value. apply passes_get. rewrite Hgs, (find_group p k g Hk Hp). cbn [ok_or].
  eapply passes_bind; [by apply (passes_lift _ g (λ g', g' = g))|]. intros g' ->. pose proof (group_small k g Hk) as (_ & _ & _ & Hb & _).
  eapply passes_bind; [by apply check_read|]. intros x (-> & _). cbv beta. apply (passes_lift _ true); [|done]. by rewrite Ht.
Qed.

Lemma own_extents_passes limit es owned : Valid.chain limit 0 es → NoDup (owned ++ extent_blocks es) → (∀ p, p ∈ extent_blocks es → marked gs m p) →
  passes (for_fold es owned own_extent) (λ r, r = owned ++ extent_blocks es).
Proof using Hvol Hbits Hgs Hsb Hsees.
  intros Hchain Hnd Hmark. apply (passes_fold es own_extent (λ prior r, r = owned ++ extent_blocks prior)).
  { by rewrite app_nil_r. }
  intros prior e r [rest Hes] ->.
  assert (Extent.physical_first_block e + Extent.length_blocks e ≤ u64_max) as Hend.
  { clear - Hchain Hes. subst es. revert Hchain. generalize 0. induction prior as [|x prior IH]; intros prev; cbn; [by intros (_ & _ & _ & _ & ? & _)|].
    intros (_ & _ & _ & _ & _ & Hc). by apply IH in Hc. }
  unfold own_extent. eapply passes_bind.
  { apply (passes_format _ (Extent.physical_first_block e + Extent.length_blocks e) (λ x, x = Extent.physical_first_block e + Extent.length_blocks e)); [|done].
    unfold Extent.physical_end. by rewrite checked_add_fits. }
  intros stop ->. cbv beta. set (bs := range _ _).
  assert (extent_blocks (prior ++ [e]) = extent_blocks prior ++ bs) as Hbs.
  { rewrite extent_blocks_snoc. unfold bs, range. do 2 f_equal. lia. }
  assert (∃ tail, extent_blocks es = extent_blocks prior ++ bs ++ tail) as [tail Htail].
  { exists (extent_blocks rest). rewrite Hes, app_assoc, <- Hbs. unfold extent_blocks. by rewrite fmap_app, concat_app. }
  eapply passes_mono; [apply (passes_fold bs _ (λ pb r, r = owned ++ extent_blocks prior ++ pb))|cbv beta; intros r ->; by rewrite Hbs].
  { by rewrite app_nil_r. }
  intros pb b r [more Hpb] ->. rewrite Htail in Hnd, Hmark. rewrite Hpb in Hnd, Hmark.
  assert (marked gs m b) as Hb by (apply Hmark; rewrite !elem_of_app, list_elem_of_singleton; tauto).
  assert (b ∉ owned ++ extent_blocks prior ++ pb) as Hnew.
  { replace (owned ++ extent_blocks prior ++ ((pb ++ [b]) ++ more) ++ tail) with
      ((owned ++ extent_blocks prior ++ pb) ++ [b] ++ more ++ tail) in Hnd by (by rewrite <- !app_assoc).
    apply list.NoDup_app in Hnd as (_ & Hd & _). intros Hin. apply (Hd b Hin). rewrite elem_of_app, list_elem_of_singleton. by left. }
  apply passes_get. rewrite Hgs, (data_in_area b (marked_data gs m b Hb)), bool_decide_false by done. cbn [negb orb].
  eapply passes_bind; [by apply (passes_corrupt _ (λ _, True))|]. intros _ _. eapply passes_bind; [apply check_phase3|]. intros p3 ->. cbv beta.
  apply passes_bind with (P := λ _, True).
  - eapply passes_bind; [by apply check_marked|]. intros x ->. by apply passes_corrupt.
  - intros _ _. apply passes_ret. unfold push. by rewrite <- !app_assoc.
Qed.

(** ** The inodes *)

Notation total := (length gs * Z.to_nat PHASE2_INODES_PER_GROUP)%nat.
Notation inodes := (range 1 (Z.of_nat total + 1)).

Lemma inode_there n : n ∈ inodes ↔ ∃ d k, 0 ≤ n ∧ inode_location_in gs n = Ok (d, k).
Proof using.
  unfold range, PHASE2_INODES_PER_GROUP. rewrite elem_of_seqZ. split.
  - intros Hn. destruct (located gs n) as (d & k & ?); [lia|]. exists d, k. split; [lia|done].
  - intros (d & k & Hn & (Hn1 & Hk%lookup_lt_Some & _)%location_inv); [|done].
    pose proof (Z.div_mod (n - 1) 256 ltac:(lia)). pose proof (Z.mod_pos_bound (n - 1) 256 ltac:(lia)). lia.
Qed.

Lemma node_there n i : T n = Some i → n ∈ inodes.
Proof using Hok. intros Hi. apply inode_there. destruct (co_located _ _ _ _ _ _ Hcon n i Hi) as (Hn & d & k & Hl). by exists d, k. Qed.

Definition blocks_at (n : Z) : list Z := match T n with Some i => extent_blocks (Inode.used_extents i) | None => [] end.
Definition blocks_of (ns : list Z) : list Z := concat (blocks_at <$> ns).
Definition good_nodes (ns : list Z) : Prop := ∀ n i, n ∈ ns → T n = Some i → good_inode i.

Lemma blocks_of_snoc ns n : blocks_of (ns ++ [n]) = blocks_of ns ++ blocks_at n.
Proof using. unfold blocks_of. rewrite fmap_app, concat_app. cbn. by rewrite app_nil_r. Qed.

Lemma blocks_at_elem n p : good_nodes [n] → p ∈ blocks_at n ↔ ∃ l, maps T n l p.
Proof using.
  clear Hok. intros Hg. unfold blocks_at, maps. destruct (T n) as [i|] eqn:Ei.
  2:{ split; [by intros ?%not_elem_of_nil|by intros (l & i & ? & _)]. }
  pose proof (good_extents _ (Hg n i ltac:(by left) Ei)) as Hx. rewrite extent_blocks_pairs, list_elem_of_fmap. split.
  - intros ([l q] & -> & Hp). exists l, i. split; [done|]. by apply (pairs_elem _ _ _ _ _ (Valid.ev_chain _ Hx)).
  - intros (l & j & [= <-] & Hm). exists (l, p). split; [done|]. by apply (pairs_elem _ _ _ _ _ (Valid.ev_chain _ Hx)).
Qed.

Lemma blocks_of_elem ns p : good_nodes ns → p ∈ blocks_of ns ↔ ∃ n l, n ∈ ns ∧ maps T n l p.
Proof using.
  clear Hok. intros Hg. unfold blocks_of. rewrite list_elem_of_In, in_concat. split.
  - intros (x & (n & <- & Hn)%in_map_iff & Hp). apply list_elem_of_In in Hn, Hp. apply blocks_at_elem in Hp as [l Hl]; [by exists n, l|].
    intros n' i' ->%list_elem_of_singleton. by apply Hg.
  - intros (n & l & Hn & Hm). exists (blocks_at n). split; [apply in_map_iff; exists n; split; [done|by apply list_elem_of_In]|].
    apply list_elem_of_In, blocks_at_elem; [|by exists l]. intros n' i' ->%list_elem_of_singleton. by apply Hg.
Qed.

Lemma blocks_at_nodup n : good_nodes [n] → NoDup (blocks_at n).
Proof using Hok.
  intros Hg. unfold blocks_at. destruct (T n) as [i|] eqn:Ei; [|constructor].
  pose proof (good_extents _ (Hg n i ltac:(by left) Ei)) as Hx. pose proof (Valid.ev_chain _ Hx) as Hch. rewrite extent_blocks_pairs.
  apply NoDup_fmap_2_strong; [|by eapply NoDup_fmap_1, pairs_nodup]. intros [l1 p1] [l2 p2] H1 H2 Ep. cbn in Ep. subst p2.
  apply (pairs_elem _ _ _ _ _ Hch) in H1, H2. f_equal.
  eapply (co_once _ _ _ _ _ _ Hcon n l1 n l2 p1); by exists i.
Qed.

Lemma blocks_of_nodup ns : NoDup ns → good_nodes ns → NoDup (blocks_of ns).
Proof using Hok.
  induction ns as [|n ns IH] using rev_ind; intros Hnd Hg; [constructor|]. rewrite blocks_of_snoc.
  apply list.NoDup_app in Hnd as (Hnd & Hd & _).
  assert (good_nodes ns) as Hg1 by (intros n' i' Hn'; apply Hg, elem_of_app; by left).
  assert (good_nodes [n]) as Hg2 by (intros n' i' Hn'; apply Hg, elem_of_app; by right).
  apply list.NoDup_app. split; [by apply IH|]. split; [|by apply blocks_at_nodup].
  intros p (n' & l & Hn' & Hm)%blocks_of_elem (l' & Hm')%blocks_at_elem; [|done..].
  destruct (co_once _ _ _ _ _ _ Hcon n' l n l' p Hm Hm') as [-> _]. apply (Hd n Hn'). by left.
Qed.

(** What the second loop has found after the inodes of [prior]. *)
Definition flags_of (prior : list Z) (allocated : list bool) : Prop := length allocated = S total ∧
  ∀ k, (k ≤ total)%nat → allocated !! k = Some (bool_decide (Z.of_nat k ∈ prior ∧ is_Some (T (Z.of_nat k)))).

Record found (prior : list Z) (acc : list bool * list Z) : Prop := {
  fd_flags : flags_of prior acc.1;
  fd_owned : acc.2 = blocks_of prior;
  fd_good : good_nodes prior;
}.

Lemma flags_snoc prior allocated n b : flags_of prior allocated → n ∈ inodes → b = bool_decide (is_Some (T n)) → n ∉ prior →
  flags_of (prior ++ [n]) (if b then <[Z.to_nat n := true]> allocated else allocated).
Proof using.
  clear Hok E. intros [Hl Hf] Hn%elem_of_seqZ Hb Hnew.
  assert (∀ k, Z.of_nat k ∈ prior ++ [n] ↔ Z.of_nat k ∈ prior ∨ Z.of_nat k = n) as Hin.
  { intros k. by rewrite elem_of_app, list_elem_of_singleton. }
  split; [by destruct b; rewrite ?length_insert|]. intros k Hk.
  destruct (decide (Z.of_nat k = n)) as [Hkn|Hkn].
  - destruct b; symmetry in Hb.
    + apply bool_decide_eq_true in Hb. replace (Z.to_nat n) with k by lia. rewrite list_lookup_insert_eq by lia. f_equal. symmetry.
      apply bool_decide_eq_true. rewrite Hin, Hkn. auto.
    + apply bool_decide_eq_false in Hb. rewrite Hf by done. f_equal. apply bool_decide_ext. rewrite Hin, Hkn. tauto.
  - assert ((if b then <[Z.to_nat n := true]> allocated else allocated) !! k = allocated !! k) as ->.
    { destruct b; [|done]. apply list_lookup_insert_ne. lia. }
    rewrite Hf by done. f_equal. apply bool_decide_ext. rewrite Hin. tauto.
Qed.

Lemma check_inode_passes prior n acc : prior ++ [n] `prefix_of` inodes → found prior acc → passes (check_inode acc n) (found (prior ++ [n])).
Proof using Hvol Hbits Hgs Hsb Hsees Htab Hok.
  intros Hpre [Hf Ho Hg]. destruct acc as [allocated owned]. cbn [fst snd] in *.
  assert (n ∈ inodes ∧ n ∉ prior ∧ NoDup (prior ++ [n])) as (Hn & Hnew & Hnd).
  { destruct Hpre as [rest Hrest]. pose proof (NoDup_seqZ 1 (Z.of_nat total + 1 - 1)) as Hall. fold inodes in Hall. rewrite Hrest in Hall |- *.
    apply list.NoDup_app in Hall as (Hall & _). pose proof Hall as Hall'. apply list.NoDup_app in Hall' as (_ & Hd & _). split; [|split; [|done]].
    - rewrite !elem_of_app, list_elem_of_singleton. auto.
    - intros Hin. apply (Hd n Hin). by left. }
  pose proof Hn as (d & k & Hn0 & Hl)%inode_there. unfold check_inode.
  eapply passes_bind; [by eapply check_read_inode|]. intros i [Hgi [[Hk HT]|[Hk HT]]].
  - rewrite bool_decide_true by done. apply passes_ret. split; cbn [fst snd].
    + apply (flags_snoc _ _ n false); [done..| |done]. symmetry. apply bool_decide_eq_false. rewrite HT. by intros [? ?].
    + rewrite Ho, blocks_of_snoc. unfold blocks_at. by rewrite HT, app_nil_r.
    + intros n' i' [Hp| ->%list_elem_of_singleton]%elem_of_app Hi'; [by eapply Hg|congruence].
  - rewrite bool_decide_false by done. cbv zeta.
    assert (good_nodes (prior ++ [n])) as Hg'.
    { intros n' i' [Hp| ->%list_elem_of_singleton]%elem_of_app Hi'; [by eapply Hg|congruence]. }
    pose proof (blocks_of_nodup _ Hnd Hg') as Hbn. rewrite blocks_of_snoc in Hbn.
    assert (blocks_at n = extent_blocks (Inode.used_extents i)) as Hbl by (unfold blocks_at; by rewrite HT).
    eapply passes_bind; [apply check_phase3|]. intros p3 ->. cbv beta. apply passes_bind with (P := λ _, True).
    { eapply passes_bind; [apply (passes_reads _ (d, k) (λ x, x = (d, k))); [by rewrite Hgs|done]|]. intros ? ->. cbv beta iota.
      pose proof (location_inv gs n d k Hn0 Hl) as (_ & Hd & _). pose proof (group_small _ d Hd) as (_ & _ & _ & _ & Hi0).
      eapply passes_bind; [by apply check_read|]. intros x (-> & _). cbv beta. apply passes_corrupt; [|done].
      pose proof (co_inodes _ _ _ _ _ _ Hcon n d k Hn0 Hl) as Him. unfold inode_marked in Him. rewrite Hl in Him.
      rewrite Him, HT. done. }
    intros _ _. eapply passes_bind.
    { apply (own_extents_passes _ _ owned (Valid.ev_chain _ (good_extents _ Hgi))); [by rewrite Ho, <- Hbl|].
      intros p Hp. rewrite <- Hbl in Hp. apply blocks_at_elem in Hp as [l Hm].
      - apply (co_marked _ _ _ _ _ _ Hcon). by exists n, l.
      - intros n' i' ->%list_elem_of_singleton ?. congruence. }
    intros r ->. cbv beta. apply passes_ret. split; cbn [fst snd].
    + apply (flags_snoc _ _ n true); [done..| |done]. symmetry. apply bool_decide_eq_true. by rewrite HT.
    + by rewrite Ho, blocks_of_snoc, Hbl.
    + done.
Qed.

(** ** The bitmaps and the counts *)

Lemma flags_all allocated n : flags_of inodes allocated → n ∈ inodes → allocated !! Z.to_nat n = Some (bool_decide (is_Some (T n))).
Proof using.
  clear Hok E. intros [_ Hf] Hn. pose proof Hn as Hn'%elem_of_seqZ. rewrite Hf by lia. rewrite Z2Nat.id by lia. f_equal.
  apply bool_decide_ext. tauto.
Qed.

Lemma check_inode_bit_passes allocated n : flags_of inodes allocated → n ∈ inodes → passes (check_inode_bit allocated n) (λ _, True).
Proof using Hvol Hbits Hgs Hsees Hok.
  intros Hf Hn. rewrite <- (Z2Nat.id n) by (apply elem_of_seqZ in Hn; lia). rewrite Z2Nat.id by (apply elem_of_seqZ in Hn; lia).
  pose proof Hn as (d & k & Hn0 & Hl)%inode_there. unfold check_inode_bit.
  eapply passes_bind; [apply (passes_reads _ (d, k) (λ x, x = (d, k))); [by rewrite Hgs|done]|]. intros ? ->. cbv beta iota.
  pose proof (location_inv gs n d k Hn0 Hl) as (_ & Hd & _). pose proof (group_small _ d Hd) as (_ & _ & _ & _ & Hi0).
  eapply passes_bind; [by apply check_read|]. intros x (-> & _). cbv beta. apply passes_corrupt; [|done].
  pose proof (co_inodes _ _ _ _ _ _ Hcon n d k Hn0 Hl) as Him. unfold inode_marked in Him. rewrite Hl in Him.
  rewrite (flags_all _ _ Hf Hn), Him, bool_decide_true; done.
Qed.

Lemma all_owned p : good_nodes inodes → p ∈ blocks_of inodes ↔ marked gs m p.
Proof using Hok.
  intros Hg. rewrite (blocks_of_elem _ _ Hg), (co_marked _ _ _ _ _ _ Hcon). split.
  - intros (n & l & _ & Hm). by exists n, l.
  - intros (n & l & Hm). exists n, l. split; [|done]. destruct Hm as (i & Hi & _). by eapply node_there.
Qed.

Lemma data_bit k g p : gs !! k = Some g → is_block (m (g_blocks g)) → g_data g ≤ p < g_end g →
  ∃ b, bitmap_test (m (g_blocks g)) (block_bit g p) = Some b.
Proof using Hvol Hbits.
  intros Hk Hb Hp. pose proof (group_small k g Hk). apply bit_there; [done|]. unfold block_bit. lia.
Qed.

Lemma check_block_bits_passes g : good_nodes inodes → g ∈ gs → passes (check_block_bits (blocks_of inodes) g) (λ _, is_block (m (g_blocks g))).
Proof using Hvol Hbits Hsees Hok.
  intros Hg [k Hk]%list_elem_of_lookup. pose proof (group_small k g Hk) as (_ & _ & _ & Hb & _). unfold check_block_bits.
  eapply passes_bind; [by apply check_read|]. intros x (-> & Hx & _). cbv beta.
  eapply passes_mono; [apply (passes_each _ _ (λ _, True))|done]. intros p Hp%elem_of_seqZ.
  assert (g_data g ≤ p < g_end g) as Hd by lia. destruct (data_bit k g p Hk Hx Hd) as [b Eb]. rewrite Eb.
  eapply passes_bind; [by apply (passes_lift _ b (λ b', b' = b))|]. intros ? ->. apply passes_corrupt; [|done].
  rewrite bool_decide_true; [done|]. pose proof (marked_at sb gs HL Hagb m k g p Hk Hd) as Hm. pose proof (all_owned p Hg) as Ha.
  rewrite Eb in Hm. destruct b; symmetry; [apply bool_decide_eq_true|apply bool_decide_eq_false]; rewrite Ha, Hm; congruence.
Qed.

Lemma filter_split {A} (P Q : A → Prop) `{!∀ x, Decision (P x), !∀ x, Decision (Q x)} l :
  (∀ x, x ∈ l → P x ∧ ¬ Q x ∨ ¬ P x ∧ Q x) → (length (filter P l) + length (filter Q l) = length l)%nat.
Proof using.
  clear. induction l as [|x l IH]; intros Hpq; [done|]. rewrite !filter_cons.
  assert (length (filter P l) + length (filter Q l) = length l)%nat as Hl by (apply IH; intros y Hy; apply Hpq; by right).
  destruct (Hpq x ltac:(by left)) as [[? ?]|[? ?]].
  - rewrite decide_True, decide_False by done. cbn [length]. lia.
  - rewrite decide_False, decide_True by done. cbn [length]. lia.
Qed.

Lemma free_inodes_count : free_inodes gs m = Z.of_nat (length (filter (λ n, T n = None) inodes)).
Proof using Hvol Htab Hgs Hok.
  assert (∀ l, l `prefix_of` gs → total_of (λ g, Z.of_nat (length (filter (λ i, bitmap_test (m (g_inodes g)) i = Some false) (seq 0 256)))) l =
    Z.of_nat (length (filter (λ n, T n = None) (seqZ 1 (Z.of_nat (length l) * 256))))) as Hl.
  { intros l. induction l as [|g l IH] using rev_ind; intros Hp; [done|].
    assert (gs !! length l = Some g) as Hk by (destruct Hp as [rest ->]; by rewrite <- app_assoc, lookup_app_r, Nat.sub_diag by lia).
    rewrite total_of_snoc, IH by (etrans; [by eexists|exact Hp]). rewrite length_app. cbn [length].
    replace (Z.of_nat (length l + 1) * 256) with (Z.of_nat (length l) * 256 + 256) by lia.
    rewrite seqZ_app, filter_app, length_app, Nat2Z.inj_add by lia. f_equal. f_equal.
    unfold seqZ. rewrite length_filter_fmap. change (Z.to_nat 256) with 256%nat. f_equal. apply filter_ext_in.
    intros i Hi%elem_of_seq. set (n := Z.of_nat i + (1 + Z.of_nat (length l) * 256)).
    assert (inode_location_in gs n = Ok (g, i)) as Hloc.
    { apply (location_at gs (length l)); [done|lia|unfold n; lia]. }
    pose proof (co_inodes _ _ _ _ _ _ Hcon n g i ltac:(lia) Hloc) as Him. unfold inode_marked in Him. rewrite Hloc in Him. rewrite Him.
    destruct (T n) as [j|] eqn:Ej; [rewrite bool_decide_true by done|rewrite bool_decide_false by (by intros [? ?])]; split; congruence. }
  unfold free_inodes. rewrite (Hl gs) by done. unfold range, PHASE2_INODES_PER_GROUP. do 4 f_equal. lia.
Qed.

Lemma flags_list allocated : flags_of inodes allocated → drop 1 allocated = (λ n, bool_decide (is_Some (T n))) <$> inodes.
Proof using.
  clear Hok E. intros Hf. pose proof Hf as [Hl _]. apply list_eq. intros k. rewrite lookup_drop, list_lookup_fmap.
  destruct (decide (k < total)%nat) as [Hk|Hk].
  - unfold range at 1. rewrite lookup_seqZ_lt by lia. cbn [fmap option_fmap option_map].
    rewrite <- (flags_all allocated (1 + Z.of_nat k) Hf) by (apply elem_of_seqZ; lia). f_equal. lia.
  - unfold range. rewrite lookup_seqZ_ge by lia. apply lookup_ge_None_2. lia.
Qed.

Lemma allocated_count allocated : flags_of inodes allocated →
  Z.of_nat (length (List.filter (λ b, b) (drop 1 allocated))) = Z.of_nat total - free_inodes gs m.
Proof using Hvol Htab Hgs Hok.
  intros Hf. rewrite (flags_list _ Hf), free_inodes_count.
  assert (∀ l : list Z, length (List.filter (λ b, b) ((λ n, bool_decide (is_Some (T n))) <$> l)) = length (filter (λ n, is_Some (T n)) l)) as Hflt.
  { clear. intros l. induction l as [|n l IH]; [done|]. rewrite fmap_cons, filter_cons. cbn [List.filter].
    destruct (decide (is_Some (T n))) as [H|H]; [rewrite bool_decide_true by done|rewrite bool_decide_false by done]; cbn [length]; congruence. }
  rewrite Hflt. pose proof (filter_split (λ n, is_Some (T n)) (λ n, T n = None) inodes) as Hs.
  assert (length inodes = total) as Hlen by (unfold range; rewrite length_seqZ; lia). rewrite Hlen in Hs.
  enough (length (filter (λ n, is_Some (T n)) inodes) + length (filter (λ n, T n = None) inodes) = total)%nat by lia.
  apply Hs. intros n _. destruct (T n); [left|right]; split; [by eexists|done|by intros [? ?]|done].
Qed.

Definition marked_in (g : group) : list Z :=
  filter (λ p, bitmap_test (m (g_blocks g)) (block_bit g p) = Some true) (seqZ (g_data g) (g_end g - g_data g)).

Lemma marked_in_elem k g p : gs !! k = Some g → p ∈ marked_in g ↔ g_data g ≤ p < g_end g ∧ marked gs m p.
Proof using Hvol.
  clear Hok E. intros Hk. unfold marked_in. rewrite list_elem_of_filter, elem_of_seqZ. split.
  - intros [Ht Hp]. split; [lia|]. exists k, g. split; [done|]. split; [lia|done].
  - intros [Hp Hm]. split; [|lia]. by apply (marked_at sb gs HL Hagb m k g p Hk Hp).
Qed.

Lemma marked_list l : l `prefix_of` gs → NoDup (concat (marked_in <$> l)) ∧
  ∀ p, p ∈ concat (marked_in <$> l) ↔ ∃ k g, l !! k = Some g ∧ p ∈ marked_in g.
Proof using Hvol Hbits.
  clear Hok E. induction l as [|g l IH] using rev_ind; intros Hp.
  { split; [constructor|]. intros p. split; [by intros ?%not_elem_of_nil|]. intros (k & g & Hk & _). by rewrite lookup_nil in Hk. }
  destruct IH as [Hnd Hel]; [by eapply prefix_app_l|]. rewrite fmap_app, concat_app. cbn [fmap list_fmap concat]. rewrite app_nil_r.
  assert (∀ k g', (l ++ [g]) !! k = Some g' → gs !! k = Some g') as Hin by (intros k g' Hk; by eapply prefix_lookup_Some).
  assert ((l ++ [g]) !! length l = Some g) as Hlast by (by rewrite lookup_app_r, Nat.sub_diag by lia).
  split.
  - apply list.NoDup_app. split; [done|]. split; [|apply NoDup_filter, NoDup_seqZ].
    intros p (k & g' & Hk & Hp')%Hel Hpg. pose proof (lookup_lt_Some _ _ _ Hk).
    assert (gs !! k = Some g') as Hk' by (apply Hin; by apply lookup_app_l_Some).
    apply (marked_in_elem k g' p Hk') in Hp' as [Hr _]. apply (marked_in_elem (length l) g p (Hin _ _ Hlast)) in Hpg as [Hr' _].
    pose proof (group_small k g' Hk'). pose proof (group_small _ g (Hin _ _ Hlast)).
    enough (k = length l) by lia. eapply (within_index sb gs HL Hagb k (length l) g' g p); [done|by apply Hin|unfold within; lia..].
  - intros p. rewrite elem_of_app, Hel. split.
    + intros [(k & g' & Hk & Hp')|Hp']; [exists k, g'; split; [by apply lookup_app_l_Some|done]|by exists (length l), g].
    + intros (k & g' & Hk & Hp'). apply lookup_app_Some in Hk as [Hk|[Hge Hk]]; [left; by exists k, g'|right].
      apply list_lookup_singleton_Some in Hk as [_ ->]. done.
Qed.

Notation data_size := (λ g : group, g_end g - g_data g).

(** The size of the data areas: marked and free blocks. *)
Lemma data_blocks_count : good_nodes inodes → (∀ g, g ∈ gs → is_block (m (g_blocks g))) →
  Z.of_nat (length (blocks_of inodes)) = total_of data_size gs - free_blocks gs m.
Proof using Hvol Hbits Htab Hgs Hsb Hok.
  intros Hg Hblk. destruct (marked_list gs) as [Hnd Hel]; [done|].
  assert (length (blocks_of inodes) = length (concat (marked_in <$> gs))) as ->.
  { apply Permutation_length, NoDup_Permutation; [apply blocks_of_nodup; [apply NoDup_seqZ|done]|done|]. intros p. rewrite (all_owned p Hg), Hel. split.
    - intros Hm. pose proof Hm as (k & g & Hk & Hp & _). exists k, g. split; [done|]. by apply (marked_in_elem k g p Hk).
    - intros (k & g & Hk & Hp). by apply (marked_in_elem k g p Hk) in Hp as [_ ?]. }
  assert (∀ l, l `prefix_of` gs → Z.of_nat (length (concat (marked_in <$> l))) =
    total_of data_size l - total_of (λ g, Z.of_nat (length (free_in g (m (g_blocks g))))) l) as Hl; [|by apply Hl].
  clear Hnd Hel. induction l as [|g l IH] using rev_ind; intros Hp; [done|]. rewrite !total_of_snoc, fmap_app, concat_app, length_app, Nat2Z.inj_add.
  rewrite IH by (by eapply prefix_app_l). cbn [fmap list_fmap concat]. rewrite app_nil_r.
  assert (gs !! length l = Some g) as Hk by (eapply prefix_lookup_Some; [|exact Hp]; by rewrite lookup_app_r, Nat.sub_diag by lia).
  pose proof (group_small _ g Hk) as (_ & Hd & _).
  pose proof (filter_split (λ p, bitmap_test (m (g_blocks g)) (block_bit g p) = Some true) (λ p, bitmap_test (m (g_blocks g)) (block_bit g p) = Some false)
    (seqZ (g_data g) (g_end g - g_data g))) as Hs. rewrite length_seqZ in Hs. unfold marked_in, free_in.
  enough (length (marked_in g) + length (free_in g (m (g_blocks g))) = Z.to_nat (g_end g - g_data g))%nat by (unfold marked_in, free_in in *; lia).
  apply Hs. intros p Hr%elem_of_seqZ.
  destruct (data_bit _ g p Hk (Hblk g (list_elem_of_lookup_2 _ _ _ Hk)) ltac:(lia)) as [b ->]. destruct b; naive_solver.
Qed.

Lemma sum_data_Ok : sum_data_blocks gs 0 = Ok (total_of data_size gs).
Proof using Hvol Hbits.
  assert (∀ rest pre, gs = pre ++ rest → 0 ≤ total_of data_size pre ≤ Z.of_nat (length pre) * Superblock.allocation_group_blocks sb →
    sum_data_blocks rest (total_of data_size pre) = Ok (total_of data_size gs)) as H; [|by apply (H gs [])].
  induction rest as [|g rest IH]; intros pre Hpre Hb; cbn [sum_data_blocks]; [by rewrite Hpre, app_nil_r|].
  assert (gs !! length pre = Some g) as Hk by (by rewrite Hpre, lookup_app_r, Nat.sub_diag by lia).
  pose proof (group_small _ g Hk) as (_ & Hd & _). destruct (HL _ g Hk) as [G1 G2 G3 _ _ _ _ _ _ _ _ _ _]. pose proof (vg_capacity _ _ Hvol).
  rewrite Z.mul_add_distr_r in G2.
  rewrite checked_add_fits by lia. cbn [ok_or]. rewrite bind_Ok.
  replace (total_of data_size pre + _) with (total_of data_size (pre ++ [g])) by (by rewrite total_of_snoc). apply IH; [by rewrite <- app_assoc|].
  rewrite total_of_snoc, length_app. cbn [length]. rewrite Nat2Z.inj_add, Z.mul_add_distr_r. lia.
Qed.

Lemma check_counts_passes allocated : state s = Some st → flags_of inodes allocated → good_nodes inodes →
  (∀ g, g ∈ gs → is_block (m (g_blocks g))) → passes (check_counts allocated (blocks_of inodes)) (λ _, True).
Proof using Hvol Hbits Htab Hgs Hsb Hok.
  intros Hst Hf Hg Hblk. unfold check_counts. apply passes_get. rewrite Hst.
  eapply passes_bind; [by apply (passes_lift _ st (λ x, x = st))|]. intros ? ->. cbv zeta.
  eapply passes_bind; [apply (passes_lift _ (total_of data_size gs) (λ x, x = total_of data_size gs)); [by rewrite Hgs, sum_data_Ok|done]|]. intros ? ->.
  apply passes_corrupt; [|done]. rewrite (allocated_count _ Hf), (data_blocks_count Hg Hblk). unfold total_inodes. rewrite Hgs.
  rewrite (co_inodes_free _ _ _ _ _ _ Hcon), (co_blocks_free _ _ _ _ _ _ Hcon).
  rewrite !Z.sub_sub_distr, !Z.sub_diag, !Z.add_0_l, !Z.eqb_refl. apply andb_false_r.
Qed.

(** ** The directories *)

(** A walk up to the root. *)
Inductive climbs : nat → Z → Prop :=
| climb_root : climbs 1 ROOT_INODE
| climb_up k n i : T n = Some i → Inode.kind i = NodeKind.Directory → n ≠ ROOT_INODE → climbs k (Inode.parent_inode i) → climbs (S k) n.

Lemma rooted_climbs n : rooted T n → ∃ k, climbs k n.
Proof using.
  clear - T. induction 1 as [|n i Hi Hk _ [k IH]]; [exists 1%nat; constructor|].
  destruct (decide (n = ROOT_INODE)) as [->|Hn]; [exists 1%nat; constructor|]. exists (S k). by eapply climb_up.
Qed.

Lemma climbs_once k n : climbs k n → ∀ k', climbs k' n → k' = k.
Proof using.
  clear - T. induction 1 as [|k n i Hi _ Hn _ IH]; intros k' H'; inversion H' as [|k2 ? i2 Hi2 _ Hn2 H2]; subst; try done.
  assert (i2 = i) as -> by congruence. f_equal. by apply IH.
Qed.

Lemma climbs_path k n : climbs k n → ∃ path, length path = k ∧ NoDup path ∧
  ∀ x, x ∈ path → (x = ROOT_INODE ∨ is_Some (T x)) ∧ ∃ j, (j ≤ k)%nat ∧ climbs j x.
Proof using.
  clear - T. induction 1 as [|k n i Hi Hk Hn Hc (path & Hl & Hnd & Hp)].
  - exists [ROOT_INODE]. split; [done|]. split; [apply NoDup_singleton|]. intros x ->%list_elem_of_singleton. split; [by left|].
    exists 1%nat. split; [done|constructor].
  - assert (climbs (S k) n) as Hcn by (by eapply climb_up). exists (n :: path). split; [cbn; by rewrite Hl|]. split.
    + constructor; [|done]. intros (_ & j & Hj & Hcj)%Hp. pose proof (climbs_once _ _ Hcn _ Hcj). lia.
    + intros x [->|Hx]%elem_of_cons.
      * split; [right; by exists i|]. by exists (S k).
      * destruct (Hp x Hx) as (? & j & ? & ?). split; [done|]. exists j. split; [lia|done].
Qed.

Lemma climbs_bound k n : climbs k n → (k ≤ total)%nat.
Proof using Hok.
  intros (path & <- & Hnd & Hp)%climbs_path.
  assert (length inodes = total) as <- by (unfold range; rewrite length_seqZ; lia).
  apply submseteq_length, NoDup_submseteq; [done|]. intros x Hx. destruct (Hp x Hx) as [[->|[i Hi]] _]; [|by eapply node_there].
  destruct (tr_root _ _ _ (ns_tree _ _ _ _ _ _ _ _ Hok)) as (i & Hi & _). by eapply node_there.
Qed.

Lemma check_chain_passes k n fuel : climbs k n → (k ≤ fuel)%nat → passes (validate_parent_chain fuel n) (λ _, True).
Proof using Hgs Hsb Hsees Htab Hok.
  intros Hc. revert fuel. induction Hc as [|k n i Hi Hk Hn Hc IH]; intros [|fuel] Hf; try lia; cbn [validate_parent_chain].
  - destruct (tr_root _ _ _ (ns_tree _ _ _ _ _ _ _ _ Hok)) as (i & Hi & Hk & Hp).
    eapply passes_bind; [by apply check_read_allocated|]. intros ? (-> & _). rewrite bool_decide_true by done.
    eapply passes_bind; [by apply (passes_corrupt _ (λ _, True))|]. intros _ _. change (ROOT_INODE =? root) with true. cbv iota.
    apply passes_corrupt; [|done]. rewrite Hp. done.
  - eapply passes_bind; [by apply check_read_allocated|]. intros ? (-> & _). rewrite bool_decide_true by done.
    eapply passes_bind; [by apply (passes_corrupt _ (λ _, True))|]. intros _ _. rewrite (proj2 (Z.eqb_neq _ _)) by done. apply IH. lia.
Qed.

(** The entries in use of a block, with their positions. *)
Fixpoint used_at (lb : Z) (slot : nat) (es : list DirectoryEntry.t) : list ((Z * nat) * DirectoryEntry.t) :=
  match es with
  | [] => []
  | e :: es => (if DirectoryBlock.used e then [((lb, slot), e)] else []) ++ used_at lb (S slot) es
  end.

Lemma used_at_snd lb slot es : (used_at lb slot es).*2 = List.filter DirectoryBlock.used es.
Proof using. clear. revert slot. induction es as [|e es IH]; intros slot; [done|]. cbn. destruct (DirectoryBlock.used e); cbn; by rewrite IH. Qed.

Lemma used_at_elem lb slot es pos e : (pos, e) ∈ used_at lb slot es ↔
  ∃ j, es !! j = Some e ∧ DirectoryBlock.used e = true ∧ pos = (lb, (slot + j)%nat).
Proof using.
  clear. revert slot. induction es as [|x es IH]; intros slot; cbn [used_at].
  { split; [by intros ?%not_elem_of_nil|]. intros (j & Hj & _). by rewrite lookup_nil in Hj. }
  rewrite elem_of_app, IH. split.
  - intros [Hx|(j & Hj & Hu & ->)]; [|exists (S j); split; [done|]; split; [done|]; by rewrite Nat.add_succ_r].
    destruct (DirectoryBlock.used x) eqn:Hu; [|by apply not_elem_of_nil in Hx]. apply list_elem_of_singleton in Hx as [= -> ->].
    exists 0%nat. split; [done|]. split; [done|]. by rewrite Nat.add_0_r.
  - intros ([|j] & Hj & Hu & ->); cbn in Hj.
    + injection Hj as ->. left. rewrite Hu, Nat.add_0_r. by apply list_elem_of_singleton.
    + right. exists j. split; [done|]. split; [done|]. by rewrite Nat.add_succ_r.
Qed.

Lemma used_at_nodup lb slot es : NoDup (used_at lb slot es).*1.
Proof using.
  clear. revert slot. induction es as [|x es IH]; intros slot; cbn [used_at]; [constructor|]. rewrite fmap_app. apply list.NoDup_app.
  split; [destruct (DirectoryBlock.used x); [apply NoDup_singleton|constructor]|]. split; [|apply IH].
  intros pos Hpos ([pos' e] & -> & (j & _ & _ & ->)%used_at_elem)%list_elem_of_fmap.
  destruct (DirectoryBlock.used x); [|by apply not_elem_of_nil in Hpos]. apply list_elem_of_singleton in Hpos. cbn in Hpos. injection Hpos as Hpos. lia.
Qed.

Section directory.
Context (n : Z) (i : Inode.t) (Hi : T n = Some i) (Hk : Inode.kind i = NodeKind.Directory) (Hgood : good_inode i).

Definition block_list (lb : Z) : list ((Z * nat) * DirectoryEntry.t) :=
  match dir_block_seen m n i lb with Ok block => used_at lb 0 (DirectoryBlock.entries block) | _ => [] end.
Definition entry_list (lbs : list Z) : list ((Z * nat) * DirectoryEntry.t) := concat (block_list <$> lbs).

Lemma entry_list_snoc lbs lb : entry_list (lbs ++ [lb]) = entry_list lbs ++ block_list lb.
Proof using. unfold entry_list. rewrite fmap_app, concat_app. cbn. by rewrite app_nil_r. Qed.

Lemma block_list_elem lb pos e : 0 ≤ lb < Inode.size i / 4096 → (pos, e) ∈ block_list lb ↔ E n !! pos = Some e ∧ pos.1 = lb.
Proof using Hok Hi Hk.
  intros Hlb. pose proof (ns_views _ _ _ _ _ _ _ _ Hok n i Hi Hk) as [Hb He]. destruct (Hb lb Hlb) as [block Hblk]. unfold block_list. rewrite Hblk, used_at_elem.
  destruct pos as [lb' slot]. rewrite He. cbn [fst]. split.
  - intros (j & Hj & Hu & [= -> ->]). split; [|done]. split; [|done]. split; [done|]. by exists block.
  - intros [[(_ & block' & Hblk' & Hj) Hu] ->]. assert (block' = block) as -> by congruence. by exists slot.
Qed.

Lemma entry_list_elem lbs pos e : (∀ lb, lb ∈ lbs → 0 ≤ lb < Inode.size i / 4096) →
  (pos, e) ∈ entry_list lbs ↔ E n !! pos = Some e ∧ pos.1 ∈ lbs.
Proof using Hok Hi Hk.
  intros Hlbs. induction lbs as [|lb lbs IH] using rev_ind.
  - split; [by intros ?%not_elem_of_nil|by intros [_ ?%not_elem_of_nil]].
  - rewrite entry_list_snoc, !elem_of_app, list_elem_of_singleton, IH by (intros x Hx; apply Hlbs, elem_of_app; by left).
    rewrite block_list_elem by (apply Hlbs, elem_of_app; right; by left). tauto.
Qed.

Lemma entry_list_nodup lbs : NoDup lbs → NoDup (entry_list lbs).*1.
Proof using.
  clear - n. induction lbs as [|lb lbs IH] using rev_ind; intros Hnd; [constructor|]. apply list.NoDup_app in Hnd as (Hnd & Hd & _).
  rewrite entry_list_snoc, fmap_app. apply list.NoDup_app. split; [by apply IH|].
  assert (∀ lb pos e, (pos, e) ∈ block_list lb → pos.1 = lb) as Hfst.
  { intros lb' pos e. unfold block_list. destruct (dir_block_seen _ _ _ _); [|by intros ?%not_elem_of_nil..]. by intros (j & _ & _ & ->)%used_at_elem. }
  split.
  - intros pos ([pos1 e1] & -> & H1)%list_elem_of_fmap ([pos2 e2] & E2 & H2)%list_elem_of_fmap. cbn in E2. subst pos2.
    apply Hfst in H2. unfold entry_list in H1. apply list_elem_of_In, in_concat in H1 as (x & (lb' & <- & Hlb')%in_map_iff & Hx).
    apply list_elem_of_In in Hlb', Hx. apply Hfst in Hx. cbn [fst] in *. apply (Hd lb'); [done|]. apply list_elem_of_singleton. congruence.
  - unfold block_list. destruct (dir_block_seen _ _ _ _); [apply used_at_nodup|constructor..].
Qed.

Lemma entry_list_length : length (entry_list (directory_blocks i)) = size (E n).
Proof using Hok Hi Hk.
  assert (∀ lb, lb ∈ directory_blocks i → 0 ≤ lb < Inode.size i / 4096) as Hlbs.
  { intros lb Hlb%elem_of_seqZ. change BLOCK_SIZE_U64 with 4096 in Hlb. lia. }
  assert (∀ pos e, E n !! pos = Some e → pos.1 ∈ directory_blocks i) as Hin.
  { intros [lb slot] e He. apply (dv_entries _ _ _ _ (ns_views _ _ _ _ _ _ _ _ Hok n i Hi Hk)) in He as [[Hlb _] _].
    apply elem_of_seqZ. change BLOCK_SIZE_U64 with 4096. cbn. lia. }
  rewrite <- (length_map_to_list (E n)). apply Permutation_length, NoDup_Permutation.
  - eapply NoDup_fmap_1, entry_list_nodup, NoDup_seqZ.
  - apply NoDup_map_to_list.
  - intros [pos e]. rewrite elem_of_map_to_list, (entry_list_elem _ _ _ Hlbs). split; [by intros [? _]|].
    intros He. split; [done|]. by eapply Hin.
Qed.

(** What the loop over the entries has found. *)
Record listed (before : list bool) (ps : list ((Z * nat) * DirectoryEntry.t)) (acc : list (list Z) * list bool * Z) : Prop := {
  ls_names : acc.1.1 = (λ p, DirectoryEntry.name_bytes p.2) <$> ps;
  ls_length : length acc.1.2 = length before;
  ls_kept : ∀ k, before !! k = Some true → acc.1.2 !! k = Some true;
  ls_targets : ∀ pos e, (pos, e) ∈ ps → acc.1.2 !! Z.to_nat (DirectoryEntry.inode e) = Some true;
  ls_count : acc.2 = Z.of_nat (length ps);
}.

Lemma check_entry_passes allocated before ps pos e acc : flags_of inodes allocated → length before = S total → listed before ps acc →
  NoDup (ps ++ [(pos, e)]).*1 → (∀ pos' e', (pos', e') ∈ ps ++ [(pos, e)] → E n !! pos' = Some e') → DirectoryEntry.validate e = Ok () →
  DirectoryBlock.used e = true → Z.of_nat (length ps) + 1 ≤ u64_max →
  passes (check_entry total allocated acc e) (listed before (ps ++ [(pos, e)])).
Proof using Hgs Hsb Hsees Htab Hok.
  intros Hf Hbl [Hn Hl Hkp Ht Hc] Hnd Hin Hval Hu Hmax. destruct acc as [[names referenced] count]. cbn [fst snd] in *.
  assert (E n !! pos = Some e) as He by (apply Hin, elem_of_app; right; by left).
  pose proof (ns_tree _ _ _ _ _ _ _ _ Hok) as Htree. destruct (tr_target _ _ _ Htree n pos e He) as (t & [Nt Ng Nk _ _ _]).
  pose proof (node_there _ _ Nt) as Hth. pose proof Hth as Hth'%elem_of_seqZ.
  unfold check_entry. cbv zeta. eapply passes_bind; [apply (passes_corrupt _ (λ _, True)); [apply Nat.ltb_ge; lia|done]|]. intros _ _.
  eapply passes_bind; [apply (passes_lift _ true (λ b, b = true)); [|done]; by rewrite (flags_all _ _ Hf Hth), Nt|]. intros ? ->.
  eapply passes_bind; [by apply (passes_corrupt _ (λ _, True))|]. intros _ _.
  eapply passes_bind; [by apply check_read_allocated|]. intros ? (-> & _).
  eapply passes_bind; [apply (passes_corrupt _ (λ _, True)); [by rewrite Ng, Nk, Z.eqb_refl, bool_decide_true|done]|]. intros _ _.
  assert (DirectoryEntry.is_unused e = false) as Hun by (unfold DirectoryBlock.used in Hu; by destruct (DirectoryEntry.is_unused e)).
  eapply passes_bind; [apply (passes_format _ (DirectoryEntry.name_bytes e) (λ x, x = DirectoryEntry.name_bytes e)); [by apply DirectoryCodec.name_str_valid|done]|].
  intros ? ->. eapply passes_bind.
  { apply (passes_corrupt _ (λ _, True)); [|done]. apply bool_decide_eq_false. rewrite Hn.
    intros ([pos' e'] & Hnm & Hp')%list_elem_of_fmap. cbn [snd] in Hnm.
    assert (pos = pos') as -> by (eapply (tr_names _ _ _ Htree n pos e pos' e'); [done|apply Hin, elem_of_app; by left|done]).
    rewrite fmap_app in Hnd. apply list.NoDup_app in Hnd as (_ & Hd & _). apply (Hd pos'); [|by left].
    apply list_elem_of_fmap. by exists (pos', e'). }
  intros _ _. eapply passes_bind; [apply (passes_lift _ (count + 1) (λ x, x = count + 1)); [by rewrite checked_add_fits by lia|done]|]. intros ? ->.
  apply passes_ret. split; cbn [fst snd].
  - unfold push. by rewrite Hn, fmap_app.
  - by rewrite length_insert.
  - intros k Hkb. destruct (decide (k = Z.to_nat (DirectoryEntry.inode e))) as [->|]; [apply list_lookup_insert_eq; lia|].
    rewrite list_lookup_insert_ne by done. by apply Hkp.
  - intros pos' e' Hp'. destruct (decide (Z.to_nat (DirectoryEntry.inode e') = Z.to_nat (DirectoryEntry.inode e))) as [->|Hne]; [apply list_lookup_insert_eq; lia|].
    rewrite list_lookup_insert_ne by done. apply elem_of_app in Hp' as [Hp'|[= -> ->]%list_elem_of_singleton]; [by eapply Ht|done].
  - rewrite Hc, length_app. cbn. lia.
Qed.

Lemma check_block_passes allocated before lbs lb acc : flags_of inodes allocated → length before = S total →
  lbs ++ [lb] `prefix_of` directory_blocks i → listed before (entry_list lbs) acc →
  passes (block ← read_directory_block n i lb;
          for_fold (List.filter DirectoryBlock.used (DirectoryBlock.entries block)) acc (check_entry total allocated))
    (listed before (entry_list (lbs ++ [lb]))).
Proof using Hgs Hsb Hsees Htab Hok Hi Hk Hgood.
  intros Hf Hbl Hpre Hls.
  assert (∀ x, x ∈ lbs ++ [lb] → 0 ≤ x < Inode.size i / 4096) as Hrange.
  { intros x Hx. destruct Hpre as [rest Hr]. assert (x ∈ directory_blocks i) as Hx' by (rewrite Hr; apply elem_of_app; by left).
    apply elem_of_seqZ in Hx'. change BLOCK_SIZE_U64 with 4096 in Hx'. lia. }
  assert (0 ≤ lb < Inode.size i / 4096) as Hlb by (apply Hrange, elem_of_app; right; by left).
  destruct (dv_blocks _ _ _ _ (ns_views _ _ _ _ _ _ _ _ Hok n i Hi Hk) lb Hlb) as [block Hblk].
  assert (NoDup (lbs ++ [lb])) as Hndl.
  { destruct Hpre as [rest Hr]. pose proof (NoDup_seqZ 0 (Inode.size i / BLOCK_SIZE_U64 - 0)) as Hnd. change (seqZ _ _) with (directory_blocks i) in Hnd.
    rewrite Hr in Hnd. by apply list.NoDup_app in Hnd as (? & _). }
  pose proof (entry_list_nodup _ Hndl) as Hnd. rewrite entry_list_snoc in Hnd |- *.
  assert (length (entry_list lbs ++ block_list lb) ≤ size (E n))%nat as Hlen.
  { rewrite <- entry_list_length. destruct Hpre as [rest Hr]. rewrite Hr, <- entry_list_snoc. unfold entry_list. rewrite (fmap_app _ (lbs ++ [lb])), concat_app, (length_app (concat _)). lia. }
  pose proof (tr_count _ _ _ (ns_tree _ _ _ _ _ _ _ _ Hok) n i Hi Hk) as Hcnt. pose proof (Inode.typed_entries _ (gi_typed _ Hgood)) as [_ Hmax].
  apply passes_bind with (P := λ b, b = block ∧ good_block block).
  { eapply wp_mono; [by apply (read_directory_block_spec s m n i lb)|cbv beta|cbv beta]; rewrite Hblk.
    - intros b s' (-> & [= <-] & Hg). done.
    - intros e s' [-> [?|?]]; done. }
  intros ? [-> Hgb]. pose proof (good_entries _ Hgb) as Hval.
  assert (block_list lb = used_at lb 0 (DirectoryBlock.entries block)) as Hbq by (unfold block_list; by rewrite Hblk).
  rewrite <- (used_at_snd lb 0), <- Hbq. rewrite <- (take_ge (block_list lb) (length (block_list lb).*2)) at 2 by (by rewrite length_fmap).
  apply (passes_fold (block_list lb).*2 _ (λ prior acc, listed before (entry_list lbs ++ take (length prior) (block_list lb)) acc)).
  { by rewrite take_0, app_nil_r. }
  intros prior e acc' [rest Hp] Hls'. rewrite length_app, Nat.add_1_r.
  assert ((block_list lb).*2 !! length prior = Some e) as Hat by (by rewrite Hp, <- app_assoc, lookup_app_r, Nat.sub_diag by lia).
  rewrite list_lookup_fmap in Hat. apply fmap_Some in Hat as ([pos e'] & Hat & ->). cbn [snd] in *.
  rewrite (take_S_r _ _ _ Hat), app_assoc in *. pose proof (list_elem_of_lookup_2 _ _ _ Hat) as Hel.
  assert (take (length prior) (block_list lb) ++ [(pos, e')] `prefix_of` block_list lb) as Hpb by (rewrite <- take_S_r by done; apply prefix_take).
  apply check_entry_passes; try done.
  - destruct Hpb as [more Hm]. rewrite Hm, app_assoc, fmap_app in Hnd. rewrite <- app_assoc. by apply list.NoDup_app in Hnd as (? & _).
  - intros pos' e2 Hin. rewrite <- app_assoc in Hin. apply elem_of_app in Hin as [Hin|Hin].
    + apply entry_list_elem in Hin as [? _]; [done|]. intros x Hx. apply Hrange, elem_of_app. by left.
    + apply (block_list_elem lb pos' e2 Hlb). destruct Hpb as [more Hm]. rewrite Hm. apply elem_of_app. by left.
  - rewrite Hbq in Hel. apply used_at_elem in Hel as (j & Hj & _). eapply (Forall_lookup_1 _ _ _ _ Hval Hj).
  - rewrite Hbq in Hel. by apply used_at_elem in Hel as (j & _ & ? & _).
  - rewrite length_app in Hlen. rewrite length_app. apply prefix_length in Hpb. rewrite length_app in Hpb. cbn in Hpb. lia.
Qed.
End directory.

(** ** The whole check *)

Definition references (prior : list Z) (referenced : list bool) : Prop := length referenced = S total ∧
  referenced !! Z.to_nat ROOT_INODE = Some true ∧
  ∀ n pos e, n ∈ prior → E n !! pos = Some e → referenced !! Z.to_nat (DirectoryEntry.inode e) = Some true.

Lemma check_directory_passes allocated prior n referenced : flags_of inodes allocated → n ∈ inodes → references prior referenced →
  passes (check_directory total allocated referenced n) (references (prior ++ [n])).
Proof using Hgs Hsb Hsees Htab Hok.
  intros Hf Hn [Rl [Rr Rt]]. pose proof (ns_tree _ _ _ _ _ _ _ _ Hok) as Htree.
  assert (¬ is_dir T n → references (prior ++ [n]) referenced) as Hskip.
  { intros Hd. split; [done|]. split; [done|]. intros n' pos e [Hp| ->%list_elem_of_singleton]%elem_of_app He; [by eapply Rt|].
    by apply (tr_dir _ _ _ Htree) in He. }
  unfold check_directory. eapply passes_bind.
  { apply (passes_lift _ (bool_decide (is_Some (T n))) (λ b, b = bool_decide (is_Some (T n)))); [|done]. by rewrite (flags_all _ _ Hf Hn). }
  intros ? ->. destruct (T n) as [i|] eqn:Hi; [rewrite bool_decide_true by done|rewrite bool_decide_false by (by intros [? ?])]; cbn [negb].
  2:{ apply passes_ret, Hskip. intros (i & ? & _). congruence. }
  eapply passes_bind; [by apply check_read_allocated|]. intros ? (-> & Hg & _).
  destruct (decide (Inode.kind i = NodeKind.Directory)) as [Hk|Hk]; [rewrite bool_decide_true by done|rewrite bool_decide_false by done]; cbn [negb].
  2:{ apply passes_ret, Hskip. intros (j & ? & ?). congruence. }
  destruct (rooted_climbs n) as [k Hc]; [apply (tr_rooted _ _ _ Htree); by exists i|]. pose proof (climbs_bound k n Hc).
  eapply passes_bind; [apply (check_chain_passes k); [done|lia]|]. intros _ _. eapply passes_bind.
  { apply (passes_fold (directory_blocks i) _ (λ lbs acc, listed referenced (entry_list n i lbs) acc)).
    - split; [done|done|done|by intros pos e ?%not_elem_of_nil|done].
    - intros lbs lb acc Hp Hls. by apply check_block_passes. }
  intros [[names referenced'] count] [_ Ll Lk Lt Lc]. cbn [fst snd] in *. rewrite (entry_list_length n i Hi Hk) in Lc. eapply passes_bind.
  { apply (passes_corrupt _ (λ _, True)); [|done]. by rewrite Lc, (tr_count _ _ _ Htree n i Hi Hk), Z.eqb_refl. }
  intros _ _. apply passes_ret. split; [congruence|]. split; [by apply Lk|].
  intros n' pos e [Hp| ->%list_elem_of_singleton]%elem_of_app He; [eapply Lk, Rt; done|]. apply (Lt pos).
  apply (entry_list_elem n i Hi Hk); [|split; [done|]].
  - intros lb Hlb%elem_of_seqZ. change BLOCK_SIZE_U64 with 4096 in Hlb. lia.
  - destruct pos as [lb slot]. apply (dv_entries _ _ _ _ (ns_views _ _ _ _ _ _ _ _ Hok n i Hi Hk)) in He as [[Hlb _] _].
    apply elem_of_seqZ. change BLOCK_SIZE_U64 with 4096. cbn. lia.
Qed.

(** ** The free counts *)

Lemma count_filter (P : nat → Prop) `{∀ x, Decision (P x)} l : length (List.filter (λ x, bool_decide (P x)) l) = length (filter P l).
Proof using.
  clear. induction l as [|x l IH]; [done|]. rewrite filter_cons. cbn [List.filter]. case_bool_decide; [rewrite decide_True by done|rewrite decide_False by done; done].
  cbn [length]. by rewrite IH.
Qed.

Lemma count_passes : passes
  (for_fold gs (0, 0) (λ counts group,
    bitmap ← read_block (AllocationGroupDescriptor.block_bitmap_block group);
    let blocks := counts.1 + count_free bitmap
      (block_bit group <$> range (AllocationGroupDescriptor.first_data_block group)
                                 (AllocationGroupDescriptor.data_end_block group)) in
    bitmap ← read_block (AllocationGroupDescriptor.inode_bitmap_block group);
    mret (blocks, counts.2 + count_free bitmap
                    (seq 0 (Z.to_nat (AllocationGroupDescriptor.inodes_in_group group))))))
  (λ r, r = (free_blocks gs m, free_inodes gs m)).
Proof using Hvol Hbits Hgs Hsb Hsees Htab.
  apply (passes_fold gs _ (λ prior r, r = (total_of (λ g, Z.of_nat (length (free_in g (m (g_blocks g))))) prior,
    total_of (λ g, Z.of_nat (length (filter (λ i, bitmap_test (m (g_inodes g)) i = Some false) (seq 0 256)))) prior))); [done|].
  intros prior g r Hp ->. assert (gs !! length prior = Some g) as Hk.
  { eapply prefix_lookup_Some; [|exact Hp]. by rewrite lookup_app_r, Nat.sub_diag by lia. }
  pose proof (group_small _ g Hk) as (? & ? & ? & ? & ?).
  eapply passes_bind; [apply check_read; lia|]. intros x [-> _]. cbv zeta. cbn [fst snd].
  eapply passes_bind; [apply check_read; lia|]. intros x [-> _]. apply passes_ret.
  rewrite !total_of_snoc. unfold count_free, range. rewrite !count_filter, (gl_inodes_in_group _ _ _ (HL _ g Hk)).
  rewrite length_filter_fmap. done.
Qed.

Context (Hst : state s = Some st) (Hlinked : ∀ n i, T n = Some i → Inode.link_count i ≠ 0).

Lemma nothing_lost allocated referenced : flags_of inodes allocated → references inodes referenced →
  any (λ p : bool * bool, p.1 && negb p.2) (drop 1 (zip allocated referenced)) = false.
Proof using Hok Hlinked.
  intros Hf [Rl [Rr Rt]]. pose proof (ns_tree _ _ _ _ _ _ _ _ Hok) as Htree. apply any_false.
  intros [a r] [k Hk]%list_elem_of_lookup. rewrite lookup_drop in Hk. apply lookup_zip_Some in Hk as [Ha Hr]. cbn [fst snd].
  pose proof (lookup_lt_Some _ _ _ Ha) as Hlt. rewrite (proj1 Hf) in Hlt. set (n := Z.of_nat (1 + k)).
  assert (n ∈ inodes) as Hn by (apply elem_of_seqZ; lia). pose proof (flags_all _ _ Hf Hn) as Hfn.
  replace (Z.to_nat n) with (1 + k)%nat in Hfn by lia. rewrite Ha in Hfn. injection Hfn as ->.
  destruct (T n) as [i|] eqn:Hi; [rewrite bool_decide_true by done|by rewrite bool_decide_false by (by intros [? ?])].
  destruct (decide (n = ROOT_INODE)) as [Hroot|Hroot].
  { rewrite <- Hroot in Rr. replace (Z.to_nat n) with (1 + k)%nat in Rr by lia. rewrite Hr in Rr. by injection Rr as ->. }
  destruct (tr_named _ _ _ Htree n i Hi Hroot (Hlinked n i Hi) (λ F, F)) as (p & pos & e & He & En).
  destruct (tr_dir _ _ _ Htree p pos e He) as (pi & Hpi & _). pose proof (Rt p pos e (node_there _ _ Hpi) He) as Hrt.
  rewrite En in Hrt. replace (Z.to_nat n) with (1 + k)%nat in Hrt by lia. rewrite Hr in Hrt. by injection Hrt as ->.
Qed.

(** The check of a sound volume fails only for the device. *)
Lemma validate_passes : passes validate_volume (λ _, True).
Proof using Hvol Hbits Hgs Hsb Hsees Htab Hok Hst Hlinked.
  destruct (tr_root _ _ _ (ns_tree _ _ _ _ _ _ _ _ Hok)) as (ri & Hri & Hrk & Hrp). pose proof (node_there _ _ Hri) as Hrt.
  unfold validate_volume. apply passes_get. cbv zeta. unfold total_inodes. rewrite Hgs.
  eapply passes_bind; [apply (passes_each _ _ (λ _, True)); intros g [k Hk]%list_elem_of_lookup; by eapply check_group_passes|]. intros _ _.
  eapply passes_bind.
  { apply (passes_fold inodes check_inode found); [|by intros prior n acc; apply check_inode_passes]. split; [|done|by intros n i ?%not_elem_of_nil]. cbn [fst].
    split; [by rewrite length_replicate|]. intros k Hk. by rewrite lookup_replicate_2 by lia. }
  intros [allocated owned] [Hf Ho Hg]. cbn [fst snd] in *. subst owned. eapply passes_bind; [apply check_phase3|]. intros p3 ->. cbv beta.
  apply passes_bind with (P := λ _, True).
  { eapply passes_bind; [apply (passes_each _ _ (λ _, True)); intros n Hn; by apply check_inode_bit_passes|]. intros _ _.
    eapply passes_bind; [apply (passes_each _ _ (λ g, is_block (m (g_blocks g)))); intros g; by apply check_block_bits_passes|]. intros x Hblk. cbv beta in Hblk.
    by apply check_counts_passes. }
  intros _ _. rewrite (flags_all _ _ Hf Hrt), Hri, bool_decide_true by done. cbn [default].
  eapply passes_bind; [by apply (passes_corrupt _ (λ _, True))|]. intros _ _. eapply passes_bind; [by apply (check_read_allocated root ri)|]. intros ? (-> & _).
  rewrite Hrk, Hrp. eapply passes_bind; [by apply (passes_corrupt _ (λ _, True))|]. intros _ _. eapply passes_bind.
  { apply (passes_fold inodes _ references).
    - split; [by rewrite length_insert, length_replicate|]. split; [|by intros n pos e ?%not_elem_of_nil].
      apply list_lookup_insert_eq. rewrite length_replicate. apply elem_of_seqZ in Hrt. lia.
    - intros prior n referenced [rest Hp] Href. apply check_directory_passes; [done| |done]. rewrite Hp, !elem_of_app, list_elem_of_singleton. auto. }
  intros referenced Href. apply passes_corrupt; [by apply nothing_lost|done].
Qed.
End check.
