(* ===== verification/Lifecycle.v ===== *)
(** * The life of a mounted filesystem

    Every operation leaves a filesystem that satisfies the invariant: consistent
    allocation, a tree of directories, and open orphans.  When a commit is lost, the
    device recovers to contents that satisfy it. *)

From Stdlib Require Import ZArith Lia.
From stdpp Require Import base list numbers option gmap.
From S2P Require Import Prelude NullfsBytes NullfsPhase3 NullfsSuperblock NullfsRecord NullfsInode.
From S2P Require Import NullfsDirectory NullfsAllocation BlockDevice Journal JournalDisk JournalSteps.
From S2P Require Import JournalRecovery JournalProps Volume Mutation Extents VolumeReads Session.
From S2P Require Import MutationSteps Atomicity Layout Ownership Mounted FileWrite Truncate Namespace.
From S2P Require Import DirectoryViews NamespaceSteps Create Remove Rename Orphans Reclaim.

Open Scope Z_scope.

Section life.
Context {D : Type} {HD : BlockDevice D} {torn : list Z → Prop} {HC : CrashSafe D torn}.
Notation fs := (Filesystem D).
Context (sb : Superblock.t) (gs : list group).
Context (Hvol : volume sb gs) (torn_control : ∀ y c, torn y → JournalControl.decode y ≠ Ok c).

(** The contents of a device hold a filesystem. *)
Definition holds_filesystem (h : disk) : Prop := head_holds sb gs h ∧ ∃ T E st,
  FilesystemState.decode (h (Superblock.filesystem_state_block sb)) = Ok st ∧
  contents_ok sb gs T E h st ∧ ∃ l, orphans T (FilesystemState.orphan_head st) l.

(** A filesystem mounted for writing, with its invariant. *)
Definition healthy (s : fs) : Prop := ∃ m st T E,
  groups s = gs ∧ ready sb s m st ∧ sound sb gs T E (open_handles s) m st.

(** A filesystem that stopped at a lost commit. *)
Definition stopped (s : fs) : Prop := poisoned s = true ∧
  ∃ hs, stands_for (torn := torn) sb (device s) hs ∧ ∀ h, h ∈ hs → holds_filesystem h.

Lemma ok_data T E v pend m' st' : contents_ok sb gs T E v pend → (∀ b, is_data sb b → m' b = v b) → same_counts st' pend →
  contents_ok sb gs T E m' st'.
Proof using Hvol.
  intros [[Hc Ht Hd] Hz] Ha Hcnt. assert (∀ n l p, maps T n l p → m' p = v p) as Hm.
  { intros n l p. eapply maps_data; [exact Hvol|exact Hc|done]. }
  split; [split; [by eapply volume_ok_data|done|]|].
  - intros n i Hi Hk. eapply dir_view_frame; [done|done| |by apply Hd]. intros l p Hp. apply (Hm n l p). by exists i.
  - apply (tails_kept T T v m' Hz). intros n i Hi Hk. left. exists i. split_and!; try done. intros l p Hp. apply (Hm n l p). by exists i.
Qed.

Lemma ok_agree T E v pend m' st' : contents_ok sb gs T E v pend → agree sb m' v → same_counts st' pend →
  contents_ok sb gs T E m' st'.
Proof using Hvol. intros Hok Ha. apply (ok_data T E v pend); [done|]. intros b Hb. apply Ha. by left. Qed.

Lemma sound_agree T E hs v pend m' st' : sound sb gs T E hs v pend → agree sb m' v → same_counts st' pend →
  sound sb gs T E hs m' st'.
Proof using Hvol.
  intros [Hok Ho Hop] Ha Hcnt. split; [by eapply ok_agree| |done]. destruct Hcnt as (-> & _). done.
Qed.

Lemma ready_holds s m st T E hs : groups s = gs → ready sb s m st → sound sb gs T E hs m st → holds_filesystem m.
Proof using. intros Hgs [[[] _ _ _ _] _ _ Hh] [Hok Ho _]. rewrite Hgs in Hh. split; [done|]. by exists T, E, st. Qed.

(** After an operation whose effects keep the invariant. *)
Lemma committed_healthy {A} (Q : effect A) s0 a s : groups s0 = gs →
  (∀ a v pend, Q a v pend → ∃ T E, sound sb gs T E (open_handles s0) v pend) → committed sb s0 Q a s → healthy s.
Proof using Hvol.
  intros Hgs HQ (v & pend & m' & st' & Ha & Hr & (_ & Hg & _ & Hh & _) & Hag & Hcnt). destruct (HQ a v pend Ha) as (T & E & Hs).
  exists m', st', T, E. split; [congruence|]. split; [done|]. rewrite Hh. by eapply sound_agree.
Qed.

Lemma lost_stopped s0 m v pend T' E' l s : holds_filesystem m → contents_ok sb gs T' E' v pend →
  orphans T' (FilesystemState.orphan_head pend) l → lost_commit sb s0 m v pend s → stopped s.
Proof using Hvol.
  intros Hm Hok Hl (_ & Hp & _ & h & st' & Hag & Hdec & Hcnt & Hhead & Hrec). split; [done|]. exists [m; h]. split; [done|].
  intros h' [->| ->%list_elem_of_singleton]%elem_of_cons; [done|].
  split; [eapply head_ext; [apply Hvol|exact Hhead|apply Hm]|].
  exists T', E', st'. split; [done|]. split; [by eapply ok_agree|]. exists l. by rewrite (proj1 Hcnt).
Qed.

Lemma undone_healthy {A} (Q : effect A) s0 m st T E s : groups s0 = gs → ready sb s0 m st →
  sound sb gs T E (open_handles s0) m st →
  (∀ a v pend, Q a v pend → ∃ T E, sound sb gs T E (open_handles s0) v pend) → undone sb s0 m Q s → healthy s ∨ stopped s.
Proof using Hvol.
  intros Hgs Hr Hs HQ [->|(a & v & pend & Ha & Hl)]; [left; by exists m, st, T, E|right].
  destruct (HQ a v pend Ha) as (T' & E' & [Hok' [l Hol] _]). eapply lost_stopped; [by eapply ready_holds|done..].
Qed.

Lemma atomic_healthy {A} (Q : effect A) (c : M fs FsError.t A) s0 m st T E : groups s0 = gs → ready sb s0 m st →
  sound sb gs T E (open_handles s0) m st →
  (∀ a v pend, Q a v pend → ∃ T E, sound sb gs T E (open_handles s0) v pend) → atomic sb s0 m Q c →
  wp c (λ _ s, healthy s ∨ stopped s) (λ _ s, healthy s ∨ stopped s) s0.
Proof using Hvol.
  intros Hgs Hr Hs HQ Hc. eapply wp_mono; [exact Hc|cbv beta|cbv beta].
  - intros a s Ha. left. by eapply committed_healthy.
  - intros e s Hu. by eapply undone_healthy.
Qed.

(** ** Operations *)

Lemma write_healthy s0 m st T E node offset input : groups s0 = gs → ready sb s0 m st →
  sound sb gs T E (open_handles s0) m st → 0 ≤ node → 0 ≤ offset → bytes_ok input →
  wp (write node offset input) (λ _ s, healthy s ∨ stopped s) (λ _ s, healthy s ∨ stopped s) s0.
Proof using Hvol torn_control.
  intros Hgs Hr Hs Hn Hoff Hin. assert (healthy s0) as H0 by (by exists m, st, T, E).
  pose proof Hs as Hs1. rewrite <- Hgs in Hs1. assert (volume sb (groups s0)) as Hv by (by rewrite Hgs).
  assert (∀ k T' v pend, wrote sb s0 m st T T' node offset (take k input) v pend → sound sb gs T' E (open_handles s0) v pend) as Hw.
  { intros k T' v pend (i0 & Hi & Hk & Hb). rewrite <- Hgs. eapply becomes_sound; [exact Hs1|exact Hi|exact Hk| |exact Hb]. eapply overwritten_zero; [apply Hs1|exact Hi|exact Hk|lia]. }
  assert (∀ n m1 s, holds_filesystem m1 → more_lost sb s0 m st T node offset input n m1 s → stopped s) as Hlost.
  { intros n m1 s Hm1 (n' & T' & v & pend & _ & Hwr & Hlc). destruct (Hw _ _ _ _ Hwr) as [Hok' [l Hl] _]. by eapply lost_stopped. }
  eapply wp_mono; [apply (write_spec sb s0 Hv torn_control m st T node offset input Hn Hoff Hin Hr), (so_filesystem _ _ _ _ _ _ _ Hs1)|cbv beta|cbv beta].
  - intros n s [(_ & _ & ->)|(m1 & st1 & T1 & _ & Hwr & [[Hr1 (_ & Hg & _ & Hh & _)]|[[Hdec Hhead] Hl]])]; [by left| |].
    + left. exists m1, st1, T1, E. rewrite Hg, Hh. split; [done|]. split; [done|]. by eapply Hw.
    + right. eapply Hlost; [|done]. destruct (Hw _ _ _ _ Hwr) as [Hok Ho _]. rewrite Hgs in Hhead. split; [done|]. by exists T1, E, st1.
  - intros e s [->|Hl]; [by left|right]. eapply Hlost; [by eapply ready_holds|done].
Qed.

(** ** Handles *)

Lemma sound_handles T E hs hs' v pend : sound sb gs T E hs v pend →
  (∀ n i, T n = Some i → Inode.link_count i = 0 → is_open hs n (Inode.generation i) = true →
     is_open hs' n (Inode.generation i) = true) → sound sb gs T E hs' v pend.
Proof using. intros [Hok Ho Hop] H. split; [done..|]. intros n i Hi Hl. apply H; [done..|]. by apply Hop. Qed.

Lemma is_open_more hs h n g : is_open hs n g = true → is_open (push hs h) n g = true.
Proof using.
  intros (x & Hx & H)%is_open_elem. apply is_open_elem. exists x. split; [|done]. apply elem_of_app. by left.
Qed.

Lemma open_healthy s0 m st T E node : groups s0 = gs → ready sb s0 m st → sound sb gs T E (open_handles s0) m st → 0 ≤ node →
  wp (open_node node)
    (λ h s, healthy s ∧ open_handles s = push (open_handles s0) h ∧ OpenHandle.node h = node ∧
       ∃ i, T node = Some i ∧ Inode.link_count i ≠ 0 ∧ OpenHandle.generation h = Inode.generation i)
    (λ _ s, s = s0) s0.
Proof using.
  intros Hgs Hr Hs Hn. unfold open_node. wp_step.
  eapply wp_mono; [apply (ready_table sb s0 m st Hr T node); [rewrite Hgs; apply Hs|done]|cbv beta|done].
  intros i s (-> & Hi & _ & _). wp_steps; [done|..|done]. bool_simpl.
  match goal with H : checked_add _ _ _ = Some _ |- _ => clear H end.
  split; [|split; [done|split; [done|by exists i]]].
  exists m, st, T, E. split; [done|]. split; [by apply ready_handles|]. cbn [set_handles open_handles].
  eapply sound_handles; [exact Hs|]. intros n j _ _. apply is_open_more.
Qed.

(** The other handles, when one is taken out. *)
Lemma is_open_removed hs i h n g : hs !! i = Some h → is_open hs n g = true →
  is_open (swap_remove i hs) n g = true ∨ n = OpenHandle.node h ∧ g = OpenHandle.generation h.
Proof using.
  intros Hi%swap_remove_Permutation (x & Hx & <- & <-)%is_open_elem. rewrite Hi in Hx. apply elem_of_cons in Hx as [->|Hx]; [by right|left].
  apply is_open_elem. by exists x.
Qed.

Lemma is_open_back hs i h n g : hs !! i = Some h → is_open hs n g = true → is_open (push (swap_remove i hs) h) n g = true.
Proof using.
  intros Hi%swap_remove_Permutation (x & Hx & H)%is_open_elem. rewrite Hi in Hx. apply is_open_elem. exists x. split; [|done].
  apply elem_of_app. apply elem_of_cons in Hx as [->|Hx]; [right; by apply list_elem_of_singleton|by left].
Qed.

(** The files that a reclaimed orphan leaves. *)
Lemma reclaimed_tails (T T' : table) m v node : zero_tails T m → T' node = None →
  (∀ n i, n ≠ node → T n = Some i → ∃ i', T' n = Some i' ∧ relinked i i') → (∀ n, T n = None → T' n = None) →
  data_kept (λ _, False) T m v → zero_tails T' v.
Proof using.
  intros Hz Hn Hrest Hnone Hd. apply (tails_kept T T' m v Hz). intros n i' Hi' Hk. left. assert (n ≠ node) as Hne by congruence.
  destruct (T n) as [i|] eqn:Hi; [|by rewrite Hnone in Hi']. destruct (Hrest n i Hne Hi) as (j & Hj & Hrel).
  assert (j = i') as -> by congruence. exists i. split; [done|].
  assert (∀ l p, mapped (Inode.used_extents i) l = Some p → v p = m p) as Hv by (intros l p Hp; apply (Hd n l p); [by intros []|by exists i]).
  destruct Hrel as [->|(_ & x & ->)]; by split_and!.
Qed.

(** An orphan reclaimed when its last handle is closed. *)
Lemma reclaimed_sound (s1 : fs) m st T E l hs i h a v pend : groups s1 = gs → sound sb gs T E hs m st → hs !! i = Some h →
  reclaimed sb s1 m T E l (OpenHandle.node h) a v pend → ∃ T' E', sound sb gs T' E' (swap_remove i hs) v pend.
Proof using.
  intros Hgs [Hcn _ Hop] Hi (T' & Hok & Hn & Hrest & Hnone & (l' & _ & Hor) & Hdk). rewrite Hgs in Hok. exists T', E.
  split; [split; [done|eapply reclaimed_tails; [apply Hcn|done..]]|by exists l'|]. intros n i' Hi' Hl'. assert (n ≠ OpenHandle.node h) as Hne by congruence.
  destruct (T n) as [j|] eqn:Hj; [|by rewrite (Hnone n Hj) in Hi'].
  destruct (Hrest n j Hne Hj) as (j' & Hj' & Hrel). assert (j' = i') as -> by congruence.
  assert (Inode.link_count j = 0 ∧ Inode.generation i' = Inode.generation j) as [Hlj ->].
  { destruct Hrel as [->|(? & x & ->)]; done. }
  destruct (is_open_removed hs i h n (Inode.generation j) Hi (Hop n j Hj Hlj)) as [?|[? _]]; done.
Qed.

Lemma healthy_back (s : fs) i h hs : open_handles s = swap_remove i hs → hs !! i = Some h → ∀ m st T E, groups s = gs →
  ready sb s m st → sound sb gs T E hs m st → healthy (set_handles (push (open_handles s) h) (next_handle_id s) s).
Proof using.
  intros Hh Hi m st T E Hgs Hr Hs. exists m, st, T, E. split; [done|]. split; [by apply ready_handles|]. cbn [set_handles open_handles].
  rewrite Hh. eapply sound_handles; [exact Hs|]. intros n j _ _. by apply is_open_back.
Qed.

(** What [close_node] does after the last handle is taken out. *)
Definition close_last (handle : OpenHandle.t) : M fs FsError.t unit :=
  inode ← read_allocated_inode (OpenHandle.node handle);
  if (Inode.generation inode =? OpenHandle.generation handle) && (Inode.link_count inode =? 0)
  then reclaim_one_orphan (OpenHandle.node handle) inode
  else mret ().

Lemma close_last_spec (s : fs) m st T E hs i h : groups s = gs → ready sb s m st → sound sb gs T E hs m st → hs !! i = Some h →
  open_handles s = swap_remove i hs → 0 ≤ OpenHandle.node h →
  wp (close_last h)
    (λ _ s', healthy s' ∧ open_handles s' = swap_remove i hs)
    (λ _ s', s' = s ∨ stopped s') s.
Proof using Hvol torn_control.
  intros Hgs Hr Hs Hi Hh Hn. unfold close_last. wp_step.
  eapply wp_mono; [apply (ready_table sb s m st Hr T _); [rewrite Hgs; apply Hs|done]|cbv beta|by left].
  intros j s' (-> & Hj & Hg & _). destruct (_ && _) eqn:Ec.
  - apply andb_true_iff in Ec as [E1 E2]. bool_simpl. pose proof Hs as [Hok [l Hl] _].
    assert (∀ a v pend, reclaimed sb s m T E l (OpenHandle.node h) a v pend → ∃ T' E', sound sb gs T' E' (open_handles s) v pend) as HQ.
    { intros a v pend Ha. rewrite Hh. by eapply reclaimed_sound. }
    eapply wp_mono; [apply (reclaim_one_orphan_spec sb s m st) with (l := l); try done|cbv beta|cbv beta].
    + by rewrite Hgs.
    + apply Hr.
    + rewrite Hgs. apply Hok.
    + intros a s' Hc. split; [by eapply (committed_healthy _ s)|]. destruct Hc as (? & ? & ? & ? & _ & _ & (_ & _ & _ & -> & _) & _). done.
    + intros e s' [->|(a & v & pend & Ha & Hlc)]; [by left|right]. destruct (HQ a v pend Ha) as (T' & E' & [Hok' [l' Hl'] _]).
      eapply lost_stopped; [by eapply ready_holds|done..].
  - wp_steps. split; [|done]. exists m, st, T, E. split; [done|]. split; [done|]. rewrite Hh.
    eapply sound_handles; [exact Hs|]. intros n k Hk Hlk Ho. destruct (is_open_removed hs i h n _ Hi Ho) as [?|[-> Hgen]]; [done|].
    assert (k = j) as -> by congruence. rewrite Hgen, Hlk, !Z.eqb_refl in Ec. done.
Qed.

(** [close_node]: the handle is gone, and with it an orphan that no other handle
    keeps; after an error it is still there. *)
Lemma close_healthy s0 m st T E h : groups s0 = gs → ready sb s0 m st → sound sb gs T E (open_handles s0) m st →
  0 ≤ OpenHandle.node h →
  wp (close_node h)
    (λ _ s, healthy s ∧ ∃ i, open_handles s0 !! i = Some h ∧ open_handles s = swap_remove i (open_handles s0))
    (λ _ s, healthy s ∧ open_handles s ≡ₚ open_handles s0 ∨ stopped s) s0.
Proof using Hvol torn_control.
  intros Hgs Hr Hs Hn. assert (healthy s0) as H0 by (by exists m, st, T, E). set (hs := open_handles s0) in *.
  unfold close_node. wp_steps; [|by left].
  match goal with H : position _ _ = Some ?k |- _ => rename H into Hpos; rename k into i end.
  destruct (position_Some _ _ _ Hpos) as (r & Hi & _). unfold hs in Hi. rewrite Hi. fold hs in Hi. cbn [expect wpo].
  apply wp_bind, wp_lift. case_bool_decide as Heq; cbn [negb err_if wpo]; [subst r|by left]. wp_step. wp_step. wp_step. wp_step.
  set (s1 := set_handles _ _ s0). assert (ready sb s1 m st) as Hr1 by (by apply ready_handles).
  change (open_handles s1) with (swap_remove i hs).
  destruct (is_open (swap_remove i hs) _ _) eqn:Ho.
  { wp_steps. split; [|by exists i]. exists m, st, T, E. split; [done|]. split; [done|]. eapply sound_handles; [exact Hs|].
    intros n j _ _ Hop. destruct (is_open_removed hs i h n _ Hi Hop) as [?|[-> ->]]; done. }
  wp_step. eapply wp_mono; [exact (close_last_spec s1 m st T E hs i h Hgs Hr1 Hs Hi eq_refl Hn)|cbv beta|cbv beta].
  - intros [] s' [Hh Hos]. wp_steps. split; [done|]. by exists i.
  - intros e s' [->|Hst]; wp_steps.
    + left. split; [by eapply (healthy_back s1 i h hs)|]. cbn [set_handles open_handles].
      etrans; [|symmetry; apply (swap_remove_Permutation i hs h Hi)]. apply (Permutation_app_comm _ [h]).
    + right. destruct Hst as [Hp Hrec]. by split.
Qed.

(** ** Histories *)

(** The operations of a mounted filesystem that change it. *)
Inductive file_op :=
| Create (parent : Z) (name : list Z) (mode : Z)
| CreateDirectory (parent : Z) (name : list Z) (mode : Z)
| Unlink (parent : Z) (name : list Z)
| Rmdir (parent : Z) (name : list Z)
| Rename (old_parent : Z) (old_name : list Z) (new_parent : Z) (new_name : list Z)
| Write (node offset : Z) (input : list Z)
| Truncate (node size : Z)
| OpenNode (node : Z)
| CloseNode (handle : OpenHandle.t).

Definition run_file_op (op : file_op) : M fs FsError.t unit :=
  match op with
  | Create parent name mode => _ ← create parent name mode; mret ()
  | CreateDirectory parent name mode => _ ← create_directory parent name mode; mret ()
  | Unlink parent name => unlink parent name
  | Rmdir parent name => rmdir parent name
  | Rename old_parent old_name new_parent new_name => rename old_parent old_name new_parent new_name
  | Write node offset input => _ ← write node offset input; mret ()
  | Truncate node size => truncate node size
  | OpenNode node => _ ← open_node node; mret ()
  | CloseNode handle => close_node handle
  end.

(** The arguments have their types. *)
Definition file_op_typed (op : file_op) : Prop :=
  match op with
  | Create parent name mode | CreateDirectory parent name mode => is_u64 parent ∧ bytes_ok name ∧ 0 ≤ mode ≤ u16_max
  | Unlink parent name | Rmdir parent name => is_u64 parent ∧ bytes_ok name
  | Rename old_parent old_name new_parent new_name =>
      is_u64 old_parent ∧ bytes_ok old_name ∧ is_u64 new_parent ∧ bytes_ok new_name
  | Write node offset input => is_u64 node ∧ is_u64 offset ∧ bytes_ok input
  | Truncate node size => is_u64 node ∧ is_u64 size
  | OpenNode node => is_u64 node
  | CloseNode handle => is_u64 (OpenHandle.node handle)
  end.

Lemma wp_forget {A} (c : M fs FsError.t A) (P : fs → Prop) s : wp c (λ _ s, P s) (λ _ s, P s) s →
  wp (_ ← c; mret ()) (λ _ s, P s) (λ _ s, P s) s.
Proof using. intros H. wp_step. eapply wp_mono; [exact H|cbv beta|done]. intros a s' Hs. by wp_steps. Qed.

(** Every operation ends, and leaves the filesystem healthy or stopped. *)
Lemma operation_healthy op s : healthy s → file_op_typed op →
  wp (run_file_op op) (λ _ s', healthy s' ∨ stopped s') (λ _ s', healthy s' ∨ stopped s') s.
Proof using Hvol torn_control.
  intros (m & st & T & E & Hgs & Hr & Hs) Hop. assert (healthy s) as Hh by (by exists m, st, T, E).
  pose proof Hs as Hs1. rewrite <- Hgs in Hs1. assert (volume sb (groups s)) as Hv by (by rewrite Hgs).
  pose proof (so_filesystem _ _ _ _ _ _ _ Hs1) as Hok. pose proof (rd_groups _ _ _ _ Hr) as Hgu.
  destruct op as [p name mode|p name mode|p name|p name|op on np nn|node offset input|node size|node|h]; cbn [run_file_op file_op_typed] in *.
  - apply wp_forget. eapply (atomic_healthy _ _ s m st T E Hgs Hr Hs); [|apply (create_node_spec sb s m st Hv Hr torn_control T E); by try apply Hop].
    intros a v pend (T' & E' & Ha). rewrite <- Hgs. exists T', E'. by eapply created_to_sound.
  - apply wp_forget. eapply (atomic_healthy _ _ s m st T E Hgs Hr Hs); [|apply (create_node_spec sb s m st Hv Hr torn_control T E); by try apply Hop].
    intros a v pend (T' & E' & Ha). rewrite <- Hgs. exists T', E'. by eapply created_to_sound.
  - eapply (atomic_healthy _ _ s m st T E Hgs Hr Hs); [|apply (remove_node_spec sb s m st Hv Hgu Hr torn_control T E); by try apply Hop].
    intros a v pend (T' & E' & Ha). rewrite <- Hgs. exists T', E'. by eapply removed_to_sound.
  - eapply (atomic_healthy _ _ s m st T E Hgs Hr Hs); [|apply (remove_node_spec sb s m st Hv Hgu Hr torn_control T E); by try apply Hop].
    intros a v pend (T' & E' & Ha). rewrite <- Hgs. exists T', E'. by eapply removed_to_sound.
  - assert (∀ a v pend, renamed sb s m st T E op on np nn a v pend → ∃ T' E', sound sb gs T' E' (open_handles s) v pend) as HQ.
    { intros a v pend (T' & E' & Ha). rewrite <- Hgs. exists T', E'. by eapply renamed_to_sound. }
    destruct Hop as (? & ? & ? & ?). eapply wp_mono; [by apply (rename_spec sb s m st Hv Hgu T E Hr torn_control)|cbv beta|cbv beta].
    + intros a s' [Hc|(-> & _)]; [|by left]. left. by eapply (committed_healthy _ s).
    + intros e s'. by apply (undone_healthy _ s m st T E).
  - destruct Hop as (? & ? & ?). apply wp_forget, (write_healthy s m st T E); unfold is_u64 in *; try done; lia.
  - destruct Hop as ([? _] & ?). eapply (atomic_healthy _ _ s m st T E Hgs Hr Hs); [|apply (truncate_spec sb s m st Hv Hgu Hr torn_control T); [apply Hok|apply Hs|done|done]].
    intros a v pend (i0 & T' & Hi & Hk & Hb). rewrite <- Hgs. exists T', E. eapply becomes_sound; [exact Hs1|exact Hi|exact Hk| |exact Hb]. apply truncated_zero.
  - apply wp_forget. eapply wp_mono; [apply (open_healthy s m st T E node Hgs Hr Hs), Hop|cbv beta|cbv beta].
    + intros h s' (? & _). by left.
    + intros e s' ->. by left.
  - eapply wp_mono; [apply (close_healthy s m st T E h Hgs Hr Hs), Hop|cbv beta|cbv beta].
    + intros _ s' (? & _). by left.
    + intros e s' [(? & _)|?]; [by left|by right].
Qed.

(** The state after some operations; a stopped filesystem is not used again. *)
Fixpoint history (ops : list file_op) (s : fs) : fs :=
  match ops with
  | [] => s
  | op :: ops => let s' := (run_file_op op s).2 in if poisoned s' then s' else history ops s'
  end.

(** One of these operations panics. *)
Fixpoint panics (ops : list file_op) (s : fs) : bool :=
  match ops with
  | [] => false
  | op :: ops =>
      match run_file_op op s with
      | (Abort, _) => true
      | (_, s') => if poisoned s' then false else panics ops s'
      end
  end.

Lemma history_no_panic ops s : healthy s → Forall file_op_typed ops → panics ops s = false.
Proof using Hvol torn_control.
  revert s. induction ops as [|op ops IH]; intros s Hs Hops; cbn [panics]; [done|]. apply list.Forall_cons in Hops as [Hop Hops].
  pose proof (operation_healthy op s Hs Hop) as H. unfold wp in H. destruct (run_file_op op s) as [[a|e|] s']; [| |done].
  all: destruct H as [H|H]; [|by rewrite (proj1 H)].
  all: destruct (poisoned s'); [done|by apply IH].
Qed.

Lemma history_healthy ops s : healthy s → Forall file_op_typed ops → healthy (history ops s) ∨ stopped (history ops s).
Proof using Hvol torn_control.
  revert s. induction ops as [|op ops IH]; intros s Hs Hops; cbn [history]; [by left|]. apply list.Forall_cons in Hops as [Hop Hops].
  pose proof (operation_healthy op s Hs Hop) as H. unfold wp in H. destruct (run_file_op op s) as [[a|e|] s']; cbn [snd]; [| |done].
  all: destruct H as [H|H]; [|rewrite (proj1 H); by right].
  all: destruct (poisoned s') eqn:Hp; [|by apply IH]; by left.
Qed.

(** The contents of a healthy device. *)
Lemma healthy_stands s : healthy s → ∃ hs, stands_for (torn := torn) sb (device s) hs ∧ ∀ h, h ∈ hs → holds_filesystem h.
Proof using.
  intros (m & st & T & E & Hgs & Hr & Hs). exists [m]. split.
  - pose proof (rd_writable _ _ _ _ Hr) as Hw. split; [apply Hw|]. intros mc Hc. exists m. split; [by apply list_elem_of_singleton|].
    destruct (idle_old sb (torn := torn) _ _ _ m (wr_idle _ _ _ _ Hw)) as [_ Hold]. by destruct (Hold mc Hc).
  - intros h ->%list_elem_of_singleton. by eapply ready_holds.
Qed.

Lemma history_stands ops s : healthy s → Forall file_op_typed ops →
  ∃ hs, stands_for (torn := torn) sb (device (history ops s)) hs ∧ ∀ h, h ∈ hs → holds_filesystem h.
Proof using Hvol torn_control.
  intros Hs Hops. destruct (history_healthy ops s Hs Hops) as [H|[_ H]]; [by apply healthy_stands|done].
Qed.

Lemma history_recovers ops s : healthy s → Forall file_op_typed ops →
  ∃ hs, recovers_home sb (device (history ops s)) hs ∧ ∀ h, h ∈ hs → holds_filesystem h.
Proof using Hvol torn_control.
  intros Hs Hops. destruct (history_stands ops s Hs Hops) as (hs & Hst & Hh). exists hs. split; [|done].
  by apply (stands_for_home sb (vg_geometry _ _ Hvol) (vg_capacity _ _ Hvol) torn_control).
Qed.

(** ** Orphans found at a mount *)

Section mount.
Context (s0 : fs) (m : disk) (st : FilesystemState.t) (T : table) (E : forest) (l : list Z).
Context (Hgs : groups s0 = gs) (Hr : ready sb s0 m st) (Hok : contents_ok sb gs T E m st).
Context (Hl : orphans T (FilesystemState.orphan_head st) l).

Lemma collect_spec fuel : ∀ cursor rest seen, orphan_list T cursor rest → l = seen ++ rest → 0 ≤ cursor → (length rest < fuel)%nat →
  wp (collect_orphans fuel cursor seen) (λ r s, s = s0 ∧ r = l) (λ _ s, s = s0) s0.
Proof using Hgs Hr Hok Hl.
  induction fuel as [|fuel IH]; intros cursor rest seen Hol Hll Hc Hf; cbn [collect_orphans]; [lia|].
  destruct Hol as [|cursor i rest' Hn Hi Hli Hrest].
  { cbn. wp_steps. split; [done|]. rewrite app_nil_r in Hll. done. }
  rewrite (proj2 (Z.eqb_neq _ _) Hn). wp_steps; [done|].
  eapply wp_mono; [apply (ready_table sb s0 m st Hr T cursor); [rewrite Hgs; apply Hok|done]|cbv beta|done].
  intros j s' (-> & Hj & Hg & _). assert (j = i) as -> by congruence.
  unfold on_format, Inode.orphan_next. destruct (Inode.validate_with_mode i Phase3Orphan) as [[]|er|] eqn:Ev;
    [|by wp_steps|by apply InodeCodec.inode_validate_no_abort in Ev]. wp_steps.
  eapply wp_mono; [apply (IH (Inode.parent_inode i) rest')|done|done]; [done| |apply (Inode.typed_parent _ (gi_typed _ Hg))|cbn in Hf; lia].
  unfold push. by rewrite <- app_assoc.
Qed.

(** The blocks of the nodes with links. *)
Definition live_kept (v' : disk) : Prop := ∀ n i l q, T n = Some i → Inode.link_count i ≠ 0 →
  mapped (Inode.used_extents i) l = Some q → v' q = m q.

(** After some of the orphans are reclaimed. *)
Definition reclaiming (prior : list Z) (s : fs) : Prop := ∃ m1 st1 T1 l1,
  ready sb s m1 st1 ∧ same_volume s0 s ∧ contents_ok sb gs T1 E m1 st1 ∧
  orphans T1 (FilesystemState.orphan_head st1) l1 ∧ l ≡ₚ prior ++ l1 ∧
  (∀ n i, Inode.link_count i ≠ 0 → T n = Some i ↔ T1 n = Some i) ∧ live_kept m1.

Lemma reclaimed_links (T1 T1' : table) node i0 : T1 node = Some i0 → Inode.link_count i0 = 0 → T1' node = None →
  (∀ n i, n ≠ node → T1 n = Some i → ∃ i', T1' n = Some i' ∧ relinked i i') → (∀ n, T1 n = None → T1' n = None) →
  ∀ n i, Inode.link_count i ≠ 0 → T1 n = Some i ↔ T1' n = Some i.
Proof using.
  intros Hi Hli Hn H1 H2 n i Hl'. destruct (decide (n = node)) as [->|Hne]; [split; congruence|]. split.
  - intros Hj. destruct (H1 n i Hne Hj) as (i' & Hi' & [->|[? _]]); done.
  - intros Hj. destruct (T1 n) as [j|] eqn:Ej; [|by rewrite H2 in Hj].
    destruct (H1 n j Hne Ej) as (j' & Hj' & [->|(? & x & ->)]); [congruence|]. rewrite Hj in Hj'. by injection Hj' as ->.
Qed.

Lemma reclaim_step prior node s : prior ++ [node] `prefix_of` l → reclaiming prior s →
  wp (inode ← read_allocated_inode node; reclaim_one_orphan node inode)
    (λ _ s', reclaiming (prior ++ [node]) s') (λ _ s', (∃ done, reclaiming done s') ∨ stopped s') s.
Proof using Hvol torn_control Hgs Hl.
  intros [rest Hp] (m1 & st1 & T1 & l1 & Hr1 & Hsame & Hok1 & Hl1 & Hperm & Hlinks & Hlive). pose proof Hsame as (_ & Hg1 & _).
  rewrite Hgs in Hg1. assert (node ∈ l1) as Hin.
  { rewrite Hp, <- app_assoc in Hperm. apply Permutation_app_inv_l in Hperm. rewrite <- Hperm. by left. }
  destruct (orphan_list_member _ _ _ _ (or_list _ _ _ Hl1) Hin) as (_ & i0 & Hi0 & Hli0).
  destruct (co_located _ _ _ _ _ _ (ns_consistent _ _ _ _ _ _ _ _ (cn_ok _ _ _ _ _ _ Hok1)) node i0 Hi0) as [Hn0 _].
  assert (reclaiming prior s) as Hhere by (by exists m1, st1, T1, l1).
  wp_step. eapply wp_mono; [apply (ready_table sb s m1 st1 Hr1 T1 node); [rewrite Hg1; apply Hok1|done]|cbv beta|intros e s' ->; left; by exists prior].
  intros i s' (-> & Hi & Hg & _). assert (i = i0) as -> by congruence. set (Q := reclaimed sb s m1 T1 E l1 node).
  assert (∀ a v pend, Q a v pend → ∃ T', contents_ok sb gs T' E v pend ∧ (∃ l', l1 ≡ₚ node :: l' ∧ orphans T' (FilesystemState.orphan_head pend) l') ∧
    (∀ n i, Inode.link_count i ≠ 0 → T1 n = Some i ↔ T' n = Some i) ∧ live_kept v) as HQ.
  { intros a v pend (T' & Hok' & Hn' & H1 & H2 & Hl' & Hk'). exists T'. split; [split; [by rewrite <- Hg1|eapply reclaimed_tails; [apply Hok1|done..]]|]. split; [done|]. split; [by eapply reclaimed_links|].
    intros n j k q Hj Hlj Hq. rewrite <- (Hlive n j k q Hj Hlj Hq). apply (Hk' n k q); [by intros []|]. exists j. split; [by apply Hlinks|done]. }
  eapply wp_mono; [apply (reclaim_one_orphan_spec sb s m1 st1) with (l := l1); try done|cbv beta|cbv beta].
  - by rewrite Hg1.
  - apply Hr1.
  - rewrite Hg1. apply Hok1.
  - intros a s' (v & pend & m2 & st2 & Ha & Hr2 & Hsame2 & Hag & Hcnt). destruct (HQ a v pend Ha) as (T' & Hok' & (l' & Hp' & Hl') & Hlk & Hlv).
    exists m2, st2, T', l'. split; [done|]. split; [by etrans|]. split; [by eapply ok_agree|].
    split; [by rewrite (proj1 Hcnt)|]. split; [by rewrite Hperm, Hp', <- app_assoc|]. split; [intros n j Hj; by rewrite Hlinks, Hlk|].
    intros n j k q Hj Hlj Hq. rewrite <- (Hlv n j k q Hj Hlj Hq). eapply maps_agree; [exact Hvol|apply Hok'|exact Hag|].
    exists j. split; [by apply Hlk, Hlinks|done].
  - intros e s' [->|(a & v & pend & Ha & Hlc)]; [left; by exists prior|right].
    destruct (HQ a v pend Ha) as (T' & Hok' & (l' & Hp' & Hl') & Hlk & _). eapply lost_stopped; [|done..].
    split; [rewrite <- Hg1; apply Hr1|].
    exists T1, E, st1. split; [apply (id_decode _ _ _ _ (wr_idle _ _ _ _ (rd_writable _ _ _ _ Hr1)))|]. split; [done|by exists l1].
Qed.

(** [reclaim_orphans] leaves the nodes with links, and no others. *)
Lemma reclaim_orphans_spec : open_handles s0 = [] →
  wp reclaim_orphans
    (λ _ s, same_volume s0 s ∧ ∃ m' st' T', ready sb s m' st' ∧ sound sb gs T' E [] m' st' ∧
       (∀ n i, T' n = Some i ↔ T n = Some i ∧ Inode.link_count i ≠ 0) ∧ live_kept m')
    (λ _ s, (∃ done, reclaiming done s) ∨ stopped s) s0.
Proof using Hvol torn_control Hgs Hr Hok Hl.
  intros Hh. assert (reclaiming [] s0) as H0 by (by exists m, st, T, l).
  unfold reclaim_orphans. wp_step. wp_step. rewrite (id_state _ _ _ _ (wr_idle _ _ _ _ (rd_writable _ _ _ _ Hr))).
  apply wp_bind, wp_lift. cbn [ok_or wpo]. wp_step.
  pose proof (orphans_length sb gs _ T m st _ l (ns_consistent _ _ _ _ _ _ _ _ (cn_ok _ _ _ _ _ _ Hok)) Hl) as Hlen.
  eapply wp_mono; [apply (collect_spec _ _ l [])|cbv beta|intros e s ->; left; by exists []]; [apply Hl|done|..].
  { apply (id_typed _ _ _ _ (wr_idle _ _ _ _ (rd_writable _ _ _ _ Hr))). }
  { unfold total_inodes. rewrite Hgs. lia. }
  intros r s [-> ->]. apply (wp_for_each _ _ (λ prior s, reclaiming prior s)); [done|..].
  - intros prior node s Hp Hprior. by apply reclaim_step.
  - intros s (m' & st' & T' & l1 & Hr' & Hsame & Hok' & Hl1 & Hperm & Hlk & Hlv). split; [done|]. exists m', st', T'. split; [done|].
    assert (l1 = []) as ->. { apply Permutation_length in Hperm. rewrite length_app in Hperm. apply nil_length_inv. lia. }
    assert (∀ n i, T' n = Some i → Inode.link_count i ≠ 0) as Hno.
    { intros n i Hi Hli. by apply (or_all _ _ _ Hl1 n i Hi), not_elem_of_nil in Hli. }
    split; [split; [done|by exists []|]|].
    + intros n i Hi Hli. by apply Hno in Hi.
    + split; [|done]. intros n i. split; [intros Hi; pose proof (Hno _ _ Hi); split; [by apply Hlk|done]|]. intros [Hi Hli]. by apply Hlk.
Qed.
End mount.
End life.
