(* ===== verification/Remount.v ===== *)
(** * Mounting what a crash left

    A device whose contents hold a filesystem, whatever a crash does to it, can be
    mounted: the mount ends with a filesystem that satisfies the invariant, or
    fails and leaves such a device. *)

From Stdlib Require Import ZArith Lia.
From stdpp Require Import base list numbers option gmap.
From S2P Require Import Prelude NullfsBytes NullfsPhase3 NullfsSuperblock NullfsRecord NullfsInode.
From S2P Require Import NullfsDirectory NullfsAllocation BlockDevice Journal JournalDisk JournalSteps.
From S2P Require Import JournalRecovery JournalProps Volume Mutation Mount Extents VolumeReads Session.
From S2P Require Import MutationSteps Atomicity Layout Ownership Mounted FileWrite Truncate Namespace.
From S2P Require Import DirectoryViews NamespaceSteps Create Remove Rename Orphans Reclaim Validate Lifecycle.

Open Scope Z_scope.

(** ** The mark of the volume *)

Lemma with_state_same sb : with_state (Superblock.state sb) sb = sb.
Proof. by destruct sb. Qed.

(** What does not depend on it. *)
Section mark.
Context (x : VolumeState) (sb : Superblock.t).
Notation sb' := (with_state x sb).

Lemma geometry_mark : SuperblockCodec.geometry sb → SuperblockCodec.geometry sb'.
Proof. intros []. by split. Qed.

Lemma volume_mark gs : volume sb gs → volume sb' gs.
Proof. intros [Hg Hc Hp Hb Hl Hn]. split; [by apply geometry_mark|done..| |done]. intros k g Hk. destruct (Hl k g Hk). by split. Qed.

Lemma volume_unmark gs : volume sb' gs → volume sb gs.
Proof. intros [[] Hc Hp Hb Hl Hn]. split; [by split|done..| |done]. intros k g Hk. destruct (Hl k g Hk). by split. Qed.

Lemma stands_mark torn m h : stands torn sb m h ↔ stands torn sb' m h.
Proof.
  split; intros [c slot H1 H2 H3 H4|g slot id ups st H1 H2 [] H3 [] H4].
  - by apply (stands_clean _ _ _ _ c slot).
  - by apply (stands_committed _ _ _ _ g slot id ups st).
  - by apply (stands_clean _ _ _ _ c slot).
  - by apply (stands_committed _ _ _ _ g slot id ups st).
Qed.

Lemma contents_mark gs T E v st : contents_ok sb gs T E v st → contents_ok sb' gs T E v st.
Proof. intros [[[] Ht Hd] Hz]. by split; [split; [split|..]|]. Qed.

Lemma validate_mark : Superblock.validate sb None ReadOnly = Ok () → Superblock.validate sb' None ReadOnly = Ok ().
Proof. done. Qed.

Lemma typed_mark : SuperblockCodec.typed sb → SuperblockCodec.typed sb'.
Proof. done. Qed.
End mark.

(** ** The superblocks *)

Lemma select_marks p b sb : select_superblock (Some p) b = Ok sb → p = with_state (Superblock.state p) sb.
Proof.
  unfold select_superblock. destruct b as [b|].
  - case_bool_decide; [intros [= <-]; by destruct p|]. case_bool_decide; [|done]. case_bool_decide; intros [= <-]; by destruct p.
  - case_match; [|done]. intros [= <-]. by destruct p.
Qed.

(** The primary is as before and the backup is written. *)
Lemma found_half p b sb y : found_superblock p b = Ok sb → Superblock.phase3_enabled sb = true →
  ∃ x, found_superblock p (Some (with_state y sb)) = Ok (with_state x sb).
Proof.
  intros Hf Hp. destruct p as [p|].
  2:{ exists y. unfold found_superblock, select_superblock. change (Superblock.phase3_enabled (with_state y sb)) with (Superblock.phase3_enabled sb). by rewrite Hp. }
  unfold found_superblock in *. destruct (negb (Superblock.phase3_enabled p)) eqn:Ep.
  { injection Hf as ->. by rewrite Hp in Ep. }
  apply select_marks in Hf. rewrite Hf. set (z := Superblock.state p). unfold select_superblock.
  case_bool_decide; [by exists z|]. change (with_state Clean (with_state z sb)) with (with_state Clean sb).
  change (with_state Clean (with_state y sb)) with (with_state Clean sb). rewrite bool_decide_true by done.
  case_bool_decide; [by exists Dirty|by exists z].
Qed.

Lemma upd_same m b (x : list Z) : upd m b x b = x.
Proof. unfold upd. by rewrite decide_True. Qed.
Lemma upd_other m b (x : list Z) c : c ≠ b → upd m b x c = m c.
Proof. intros H. unfold upd. by rewrite decide_False. Qed.

Lemma table_validate_mark x sb table : AllocationGroupTable.validate table (with_state x sb) = AllocationGroupTable.validate table sb.
Proof.
  assert (∀ ds first i, AllocationGroupTable.validate_descriptors first (with_state x sb) i ds = AllocationGroupTable.validate_descriptors first sb i ds) as Hv.
  { intros ds. induction ds as [|d ds IH]; intros first i; [done|]. cbn [AllocationGroupTable.validate_descriptors].
    change (AllocationGroupDescriptor.validate d (with_state x sb)) with (AllocationGroupDescriptor.validate d sb). by rewrite IH. }
  unfold AllocationGroupTable.validate. cbv zeta. rewrite Hv. reflexivity.
Qed.

Lemma descriptors_mark x sb gs b : descriptors_hold sb gs b → descriptors_hold (with_state x sb) gs b.
Proof.
  intros (table & Hd & Ht). exists table. split; [|exact Ht]. unfold AllocationGroupTable.decode in *. cbv zeta in *.
  repeat (apply bind_Ok_iff in Hd as (? & Ed & Hd); rewrite ?table_validate_mark, Ed, bind_Ok; clear Ed). exact Hd.
Qed.

Section heads.
Context (sb : Superblock.t) (gs : list group) (m : disk) (Hh : head_holds sb gs m) (Hp : Superblock.phase3_enabled sb = true).
Context (y : VolumeState) (X : list Z) (HX : Superblock.encode (with_state y sb) = Ok X).

Lemma head_half m' : (∀ b, b ≠ PHASE3_BACKUP_SUPERBLOCK_BLOCK → m' b = m b) → m' PHASE3_BACKUP_SUPERBLOCK_BLOCK = X →
  ∃ x, head_holds (with_state x sb) gs m'.
Proof using Hh Hp HX.
  intros Ho Hb. destruct Hh as [Ht Hv (p & b & Hpr & _ & Hf) Htab Hd]. destruct (found_half p b sb y Hf Hp) as [x Hx].
  exists x. split; [done|done| |done|].
  - exists p, (Some (with_state y sb)). rewrite Hb, Ho by done. split; [done|]. split; [|done]. by apply encoded_reads_as.
  - rewrite Ho by done. by apply descriptors_mark.
Qed.

Lemma head_both m' : m' SUPERBLOCK_BLOCK = X → m' PHASE3_BACKUP_SUPERBLOCK_BLOCK = X → m' FIRST_DESCRIPTOR_BLOCK = m FIRST_DESCRIPTOR_BLOCK →
  head_holds (with_state y sb) gs m'.
Proof using Hh HX.
  intros H1 H2 H3. destruct Hh as [Ht Hv _ Htab Hd]. split; [done|done| |done|rewrite H3; by apply descriptors_mark].
  exists (Some (with_state y sb)), (Some (with_state y sb)). rewrite H1, H2. split; [by apply encoded_reads_as|]. split; [by apply encoded_reads_as|apply found_same].
Qed.
End heads.

Section remount.
Context {D : Type} {HD : BlockDevice D} {torn : list Z → Prop} {HC : CrashSafe D torn}.
Notation fs := (Filesystem D).
Context (Hatomic : ∀ y, ¬ torn y).

(** A mark of the volume under which the contents can be mounted. *)
Definition mountable (sb : Superblock.t) (gs : list group) (mc : disk) : Prop :=
  ∃ x h, stands torn sb mc h ∧ holds_filesystem (with_state x sb) gs h.

(** Whatever a crash leaves on the device can be mounted. *)
Definition survives (sb : Superblock.t) (gs : list group) (d : D) : Prop := bd_ok d ∧ ∀ mc, crash_disk d mc → mountable sb gs mc.

Lemma survives_mark x sb gs d : survives (with_state x sb) gs d ↔ survives sb gs d.
Proof using.
  split; intros [Hok Hs]; (split; [done|]); intros mc Hc; destruct (Hs mc Hc) as (z & h & Hst & Hh); exists z, h; (split; [|done]).
  - by apply (stands_mark x).
  - by apply (stands_mark x) in Hst.
Qed.

Lemma stands_for_survives sb gs d hs : stands_for (torn := torn) sb d hs → (∀ h, h ∈ hs → holds_filesystem sb gs h) → survives sb gs d.
Proof using.
  intros [Hok Hs] Hh. split; [done|]. intros mc Hc. destruct (Hs mc Hc) as (h & Hin & Hst). exists (Superblock.state sb), h.
  split; [done|]. rewrite with_state_same. by apply Hh.
Qed.

Lemma torn_never y (c : JournalControl.t) : torn y → JournalControl.decode y ≠ Ok c.
Proof using Hatomic. by intros ?%Hatomic. Qed.

Context (sb : Superblock.t) (gs : list group) (Hvol : volume sb gs).

(** The contents, without the head. *)
Definition body_holds (h : disk) : Prop := ∃ T E st, FilesystemState.decode (h (Superblock.filesystem_state_block sb)) = Ok st ∧
  contents_ok sb gs T E h st ∧ ∃ l, orphans T (FilesystemState.orphan_head st) l.

Lemma body_kept h h' : (∀ b, is_home sb b → h' b = h b) → body_holds h → body_holds h'.
Proof using Hvol.
  intros Hb (T & E & st & Hd & Hok & Hl). exists T, E, st. split; [by rewrite Hb by (by left)|]. split; [|done].
  eapply ok_data; [exact Hvol|exact Hok| |done]. intros b Hdb. apply Hb. by right.
Qed.

(** An empty journal is selected. *)
Definition clean_journal (m : disk) : Prop := ∃ c slot, chosen sb m = Ok (c, slot) ∧ JournalControl.state c = Empty ∧ 1 ≤ JournalControl.generation c.

Lemma clean_mountable m x : clean_journal m → head_holds (with_state x sb) gs m → body_holds m → mountable sb gs m.
Proof using.
  intros (c & slot & Hc & He & Hg) Hh (T & E & st & Hd & Hok & Hl). exists x, m. split; [by apply (stands_clean _ _ _ _ c slot)|].
  split; [done|]. exists T, E, st. split; [done|]. split; [by apply contents_mark|done].
Qed.

Lemma head_change m m' : (∀ b, b ≠ SUPERBLOCK_BLOCK → b ≠ PHASE3_BACKUP_SUPERBLOCK_BLOCK → m' b = m b) →
  (clean_journal m → clean_journal m') ∧ (body_holds m → body_holds m') ∧ m' FIRST_DESCRIPTOR_BLOCK = m FIRST_DESCRIPTOR_BLOCK.
Proof using Hvol.
  intros Hm. pose proof (vg_geometry _ _ Hvol) as Hg. split; [|split; [|by apply Hm]].
  - intros (c & slot & Hc & Hrest). exists c, slot. split; [|done]. rewrite <- Hc. apply chosen_ext. intros sl Hs.
    apply Hm; rewrite control_block_eq by done; change SUPERBLOCK_BLOCK with 16; change PHASE3_BACKUP_SUPERBLOCK_BLOCK with 18; lia.
  - apply body_kept. intros b Hb%is_home_bounds; [|done].
    apply Hm; [change SUPERBLOCK_BLOCK with 16|change PHASE3_BACKUP_SUPERBLOCK_BLOCK with 18]; lia.
Qed.

Section marking.
Context (m : disk) (Hh : head_holds sb gs m) (Hbody : body_holds m) (Hclean : clean_journal m).
Context (y : VolumeState) (X : list Z) (HX : Superblock.encode (with_state y sb) = Ok X).
Notation m1 := (upd m PHASE3_BACKUP_SUPERBLOCK_BLOCK X).

Lemma marking_mountable mc x : (∀ b, b ≠ SUPERBLOCK_BLOCK → b ≠ PHASE3_BACKUP_SUPERBLOCK_BLOCK → mc b = m b) →
  head_holds (with_state x sb) gs mc → mountable sb gs mc.
Proof using Hvol Hbody Hclean.
  intros Hmc Hx. destruct (head_change m mc Hmc) as (H1 & H2 & _). by apply (clean_mountable mc x); auto.
Qed.

(** While the backup is written, and then while the primary is. *)
Lemma backup_mountable mc : (∀ b, mc b = m b ∨ b = PHASE3_BACKUP_SUPERBLOCK_BLOCK ∧ mc b = X) → mountable sb gs mc.
Proof using All.
  intros Hmc. assert (∀ b, b ≠ PHASE3_BACKUP_SUPERBLOCK_BLOCK → mc b = m b) as Ho by (intros b Hb; destruct (Hmc b) as [|[? _]]; done).
  destruct (Hmc PHASE3_BACKUP_SUPERBLOCK_BLOCK) as [Hold|[_ Hnew]].
  - apply (marking_mountable mc (Superblock.state sb)); [auto|]. rewrite with_state_same. eapply head_ext; [apply Hvol| |exact Hh]. intros b _.
    destruct (decide (b = PHASE3_BACKUP_SUPERBLOCK_BLOCK)) as [->|]; auto.
  - destruct (head_half sb gs m Hh (vg_phase3 _ _ Hvol) y X HX mc Ho Hnew) as [x Hx]. apply (marking_mountable mc x); auto.
Qed.

Lemma primary_mountable mc : (∀ b, mc b = m1 b ∨ b = SUPERBLOCK_BLOCK ∧ mc b = X) → mountable sb gs mc.
Proof using All.
  intros Hmc. destruct (Hmc SUPERBLOCK_BLOCK) as [Hold|[_ Hnew]].
  - apply backup_mountable. intros b.
    assert (mc b = m1 b) as -> by (destruct (decide (b = SUPERBLOCK_BLOCK)) as [->|Hb]; [done|]; destruct (Hmc b) as [|[? _]]; done).
    destruct (decide (b = PHASE3_BACKUP_SUPERBLOCK_BLOCK)) as [->|Hb]; [right; by rewrite upd_same|left; by apply upd_other].
  - assert (∀ b, b ≠ SUPERBLOCK_BLOCK → mc b = m1 b) as Ho by (intros b Hb; destruct (Hmc b) as [|[? _]]; done).
    apply (marking_mountable mc y); [intros b H1 H2; rewrite Ho by done; by apply upd_other|].
    eapply (head_both sb gs m Hh y X HX); [done|rewrite Ho by done; apply upd_same|rewrite Ho by done; by apply upd_other].
Qed.

Lemma may_hold_survives (d : D) m' b X' : may_hold d (also (torn := torn) (λ c z, z = m' c) b X') →
  (∀ mc, (∀ c, mc c = m' c ∨ c = b ∧ mc c = X') → mountable sb gs mc) → survives sb gs d.
Proof using Hatomic.
  intros [Hok HP] Hmc. split; [done|]. intros mc Hc. apply Hmc. intros c.
  destruct (HP c _ (Hc c)) as [?|[? [?|?%Hatomic]]]; auto; done.
Qed.

Lemma write_mark_spec (s : fs) : superblock s = sb → settled (device s) m →
  wp (write_superblocks y)
    (λ _ s', ∃ d' m', s' = set_device d' (set_superblock (with_state y sb) s) ∧ settled d' m' ∧ head_holds (with_state y sb) gs m' ∧
       (m' SUPERBLOCK_BLOCK = X ∧ m' PHASE3_BACKUP_SUPERBLOCK_BLOCK = X) ∧ ∀ b, b ≠ SUPERBLOCK_BLOCK → b ≠ PHASE3_BACKUP_SUPERBLOCK_BLOCK → m' b = m b)
    (λ e s', device_error e ∧ survives sb gs (device s')) s.
Proof using All.
  intros Hs Hset. pose proof (vg_geometry _ _ Hvol) as Hg. pose proof (typed_mark y sb (hh_typed _ _ _ Hh)) as Ht.
  assert (is_block X ∧ bytes_ok X) as [HXb HXo].
  { pose proof HX as [_ ->]%SuperblockCodec.sb_encode_eq; [|done]. split; [by apply SuperblockCodec.sb_image_block|by apply SuperblockCodec.sb_image_ok]. }
  unfold write_superblocks. wp_steps. cbn [superblock set_superblock]. rewrite Hs. unfold on_format. rewrite HX. wp_steps.
  change (Superblock.backup_superblock_block (with_state y sb)) with (Superblock.backup_superblock_block sb). rewrite (SuperblockCodec.geo_backup _ Hg).
  set (s0 := set_superblock (with_state y sb) s).
  eapply wp_mono; [apply (dev_write s0 PHASE3_BACKUP_SUPERBLOCK_BLOCK X m _ Hset); done|cbv beta|cbv beta].
  2:{ intros e s1 [He (d1 & -> & H1)]. wp_steps. split; [done|]. by eapply (may_hold_survives d1 m), backup_mountable. }
  intros ? s1 (d1 & -> & H1). wp_step. eapply wp_mono; [apply (dev_flush (set_device d1 s0) _ _ H1)|cbv beta|cbv beta].
  2:{ intros e s2 [He (d2 & -> & H2)]. wp_steps. split; [done|]. by eapply (may_hold_survives d2 m), backup_mountable. }
  intros ? s2 (d2 & -> & H2). wp_step. eapply wp_mono; [apply (dev_write (set_device d2 s0) SUPERBLOCK_BLOCK X m1 _ H2); done|cbv beta|cbv beta].
  2:{ intros e s3 [He (d3 & -> & H3)]. wp_steps. split; [done|]. by eapply (may_hold_survives d3 m1), primary_mountable. }
  intros ? s3 (d3 & -> & H3). eapply wp_mono; [apply (dev_flush (set_device d3 s0) _ _ H3)|cbv beta|cbv beta].
  2:{ intros e s4 [He (d4 & -> & H4)]. wp_steps. split; [done|]. by eapply (may_hold_survives d4 m1), primary_mountable. }
  intros ? s4 (d4 & -> & H4). wp_steps. eexists d4, _. split; [done|]. split; [exact H4|].
  split; [|split; [split; [apply upd_same|rewrite upd_other by done; apply upd_same]|intros b Hb1 Hb2; rewrite upd_other by done; by apply upd_other]].
  eapply (head_both sb gs m Hh y X HX); [apply upd_same|rewrite upd_other by done; apply upd_same|rewrite upd_other by done; by apply upd_other].
Qed.
End marking.

(** ** What a mount finds *)

Lemma stands_head mc h b : stands torn sb mc h → b < Superblock.filesystem_state_block sb → mc b = h b.
Proof using Hvol.
  pose proof (vg_geometry _ _ Hvol) as Hg. intros Hst Hb. assert (kept sb b) as Hk by (apply content_kept; [done|by right]).
  destruct Hst as [c slot _ _ _ Hh|g slot id ups st _ _ Hu _ _ Hh]; [by apply Hh|]. rewrite <- (Hh b Hk). unfold after_image.
  destruct (List.find _ ups) as [u|] eqn:Ef; [|done]. exfalso. apply find_some in Ef as [Hin%list_elem_of_In Ht].
  unfold Transaction.targets in Ht. bool_simpl. apply (up_home _ _ _ Hu), is_home_bounds in Hin; [|done].
  rewrite (SuperblockCodec.geo_state _ Hg) in Hb. change PHASE3_FILESYSTEM_STATE_BLOCK with 19 in Hb. lia.
Qed.

Lemma descriptors_phase2 x : descriptors_hold sb gs x → Superblock.phase2_enabled sb = true.
Proof using.
  intros (table & Hd & _). unfold AllocationGroupTable.decode in Hd. cbv zeta in Hd.
  repeat match goal with H : _ ≫= _ = Ok _ |- _ => apply bind_Ok_iff in H as (? & ? & H) end.
  match goal with H : AllocationGroupTable.validate _ _ = Ok _ |- _ => rename H into Ev end.
  unfold AllocationGroupTable.validate in Ev. cbv zeta in Ev. apply bind_unit_Ok in Ev as [Hv%err_if_Ok_iff _].
  by destruct (Superblock.phase2_enabled sb).
Qed.

Lemma discover_spec (d : D) mc h : settled d mc → stands torn sb mc h → head_holds sb gs h →
  block_size d = BLOCK_SIZE → Superblock.capacity_blocks sb ≤ block_count d → block_count d * 4096 ≤ u64_max →
  wp (discover_mount_metadata RuntimeReadWrite) (λ r d', d' = d ∧ r = (sb, gs)) (λ e d', d' = d ∧ device_error e) d.
Proof using Hvol.
  intros Hset Hst [Ht Hv (p & b & Hp & Hb & Hf) (H17 & Hres & Hcnt) Hd] Hbs Hcap Hmul.
  assert (∀ q, 0 ≤ q → wp (device_read (D := D) q) (λ x d', d' = d ∧ x = mc q) (λ e d', d' = d ∧ device_error e) d) as Hread.
  { intros q Hq. apply wp_zoom. eapply wp_mono; [by apply bd_read; [apply Hset|]|cbv beta|cbv beta].
    - intros x d' (-> & -> & _). by rewrite (h_now _ _ _ Hset).
    - intros e d' ->. split; [done|by eexists]. }
  assert (∀ q, q < 19 → mc q = h q) as Hhead.
  { intros q Hq. apply stands_head; [done|]. by rewrite (SuperblockCodec.geo_state _ (vg_geometry _ _ Hvol)). }
  assert (Superblock.capacity_blocks sb ≤ block_count d * BLOCK_SIZE_U64 / BLOCK_SIZE_U64) as Hn by (rewrite Z.div_mul; [done|discriminate]).
  assert (checked_mul u64_max (block_count d) BLOCK_SIZE_U64 = Some (block_count d * BLOCK_SIZE_U64)) as Hc.
  { unfold checked_mul. change BLOCK_SIZE_U64 with 4096. by rewrite (proj2 (Z.leb_le _ _) Hmul). }
  unfold discover_mount_metadata. do 2 wp_step. rewrite Hbs, Nat.eqb_refl. cbn [negb err_if]. wp_step. wp_step. wp_step. wp_step.
  rewrite Hc. cbn [ok_or]. wp_steps.
  eapply wp_mono; [by apply Hread|cbv beta|done]. intros x d' [-> ->]. wp_steps.
  eapply wp_mono; [by apply Hread|cbv beta|done]. intros x d' [-> ->]. rewrite !Hhead, (Hp _ Hn), (Hb _ Hn), Hf by done. wp_steps; bool_simpl.
  - exfalso. pose proof (descriptors_phase2 _ Hd). congruence.
  - exfalso. pose proof (vg_phase3 _ _ Hvol). congruence.
  - rewrite Hres. change (range 0 1) with [0]. cbn [for_fold]. wp_step. rewrite H17, Z.add_0_r. wp_step.
    eapply wp_mono; [by apply Hread|cbv beta|done]. intros x d' [-> ->]. rewrite Hhead by done. destruct Hd as (table & Hdec & Hgs).
    rewrite Hdec. cbn [map_err]. wp_steps; bool_simpl; rewrite app_nil_l, Hgs in *; [congruence|done].
Qed.

(** ** Opening the volume *)

Lemma ready_survives (s : fs) m st T E l : groups s = gs → ready sb s m st → contents_ok sb gs T E m st →
  orphans T (FilesystemState.orphan_head st) l → survives sb gs (device s).
Proof using.
  intros Hgs Hr Hok Hl. pose proof (rd_writable _ _ _ _ Hr) as Hw. apply (stands_for_survives sb gs _ [m]).
  - split; [apply Hw|]. intros mc Hc. exists m. split; [by apply list_elem_of_singleton|].
    destruct (idle_old sb (torn := torn) _ _ _ m (wr_idle _ _ _ _ Hw)) as [_ Hold]. by destruct (Hold mc Hc).
  - intros h ->%list_elem_of_singleton. split; [rewrite <- Hgs; apply Hr|].
    exists T, E, st. split; [apply (id_decode _ _ _ _ (wr_idle _ _ _ _ Hw))|]. split; [done|by exists l].
Qed.

Lemma always_survives (d : D) h : always_stands sb (torn := torn) d h → holds_filesystem sb gs h → survives sb gs d.
Proof using.
  intros [Hok Hst] Hh. apply (stands_for_survives sb gs d [h]).
  - split; [done|]. intros mc Hc. exists h. split; [by apply list_elem_of_singleton|by apply Hst].
  - by intros h' ->%list_elem_of_singleton.
Qed.

(** Both superblocks carry the mark [y]. *)
Definition marked (y : VolumeState) (m : disk) : Prop :=
  Superblock.encode (with_state y sb) = Ok (m SUPERBLOCK_BLOCK) ∧
  Superblock.encode (with_state y sb) = Ok (m PHASE3_BACKUP_SUPERBLOCK_BLOCK).

(** The volume is marked. *)
Lemma mark_spec y (s : fs) m st1 T1 E1 l1 : groups s = gs → ready sb s m st1 → contents_ok sb gs T1 E1 m st1 →
  orphans T1 (FilesystemState.orphan_head st1) l1 →
  wp (write_superblocks y)
    (λ _ s', groups s' = gs ∧ open_handles s' = open_handles s ∧ ∃ m', ready (with_state y sb) s' m' st1 ∧
       contents_ok (with_state y sb) gs T1 E1 m' st1 ∧ marked y m' ∧ ∀ b, is_home sb b → m' b = m b)
    (λ e s', device_error e ∧ survives sb gs (device s')) s.
Proof using Hvol Hatomic.
  intros Hgs Hr Hok1 Hl1. pose proof Hr as [[[Hsb Hset Hch Hgen Hst Hty Hde] Hmode Hpoi Hov Htx] Htr Hgu Hhd]. rewrite Hgs in Hhd.
  pose proof (vg_geometry _ _ Hvol) as Hg.
  assert (body_holds m) as Hb by (exists T1, E1, st1; split; [done|]; split; [done|by exists l1]).
  assert (clean_journal m) as Hc by (by exists (JournalControl.empty (journal_generation s)), (1 - older_control_slot s)).
  assert (∃ X, Superblock.encode (with_state y sb) = Ok X) as [X HX].
  { eexists. apply SuperblockCodec.sb_encode_eq; [apply typed_mark, Hhd|]. split; [apply validate_mark, Hhd|done]. }
  eapply wp_mono; [apply (write_mark_spec m Hhd Hb Hc y X HX s Hsb Hset)|cbv beta|done].
  intros _ s' (d' & m' & -> & Hset' & Hhead' & [HX1 HX2] & Hm').
  assert (∀ b, is_home sb b → m' b = m b) as Hhome.
  { intros b Hbb%is_home_bounds; [|done]. apply Hm'; [change SUPERBLOCK_BLOCK with 16|change PHASE3_BACKUP_SUPERBLOCK_BLOCK with 18]; lia. }
  split; [done|]. split; [done|]. exists m'. split; [|split; [|split; [by split; rewrite ?HX1, ?HX2|done]]].
  - split; [split; [split|..]|..]; try done; cbn [journal_generation older_control_slot set_device set_superblock].
    + rewrite <- Hch. apply (chosen_ext sb). intros sl Hsl. rewrite control_block_eq by done.
      apply Hm'; [change SUPERBLOCK_BLOCK with 16|change PHASE3_BACKUP_SUPERBLOCK_BLOCK with 18]; lia.
    + rewrite <- Hde. f_equal. apply Hhome. by left.
    + intros tx Hx. change (transaction s = Some tx) in Hx. congruence.
    + cbn [groups set_device set_superblock]. by rewrite Hgs.
  - apply contents_mark. eapply ok_data; [exact Hvol|exact Hok1| |done]. intros b Hd. apply Hhome. by right.
Qed.

Section opening.
Context (Htab : Forall group_unsigned gs) (Hbits : Superblock.allocation_group_blocks sb ≤ 32768).
Context (h : disk) (T : table) (E : forest) (st : FilesystemState.t) (l : list Z).
Context (Hhead : head_holds sb gs h) (Hdec : FilesystemState.decode (h (Superblock.filesystem_state_block sb)) = Ok st).
Context (Hok : contents_ok sb gs T E h st) (Hl : orphans T (FilesystemState.orphan_head st) l).

Lemma opening_holds : holds_filesystem sb gs h.
Proof using Hhead Hdec Hok Hl. split; [done|]. exists T, E, st. split; [done|]. split; [done|by exists l]. Qed.

(** The journal is recovered and the state is read. *)
Lemma open_spec (d : D) mc : settled d mc → stands torn sb mc h →
  wp recover_journal
    (λ _ s, state s = None ∧ wp read_state
       (λ _ s, groups s = gs ∧ open_handles s = [] ∧ ∃ m, ready sb s m st ∧ ∀ b, kept sb b → m b = h b)
       (λ e s, device_error e ∧ survives sb gs (device s)) s)
    (λ e s, (device_error e ∨ exhausted e) ∧ survives sb gs (device s)) (mount_start d sb gs RuntimeReadWrite).
Proof using Hatomic Hvol Htab Hhead Hdec Hok Hl.
  intros Hset Hst. pose proof (vg_geometry _ _ Hvol) as Hg.
  eapply wp_mono; [apply (recover_journal_spec sb Hg (vg_capacity _ _ Hvol) torn_never (mount_start d sb gs RuntimeReadWrite) mc h); done|cbv beta|cbv beta].
  2:{ intros e s [He [_ Ha]]. split; [|by eapply always_survives, opening_holds]. destruct He as [?|[?|?%Hatomic]]; auto; done. }
  intros ? s (d' & m & g & slot & -> & Hgen & [Hset' Hch Hkept]). split; [done|].
  set (s := set_journal _ _ _). unfold read_state. wp_step. wp_step. wp_step. change (superblock s) with sb.
  assert (m (Superblock.filesystem_state_block sb) = h (Superblock.filesystem_state_block sb)) as Hms by (by apply Hkept, state_block_kept).
  eapply wp_mono; [apply (dev_read s _ m _ Hset'); rewrite (SuperblockCodec.geo_state _ Hg); by vm_compute|cbv beta|cbv beta].
  2:{ intros e s' [He ->]. split; [done|]. eapply always_survives; [|exact opening_holds]. eapply settled_stands; [exact Hset'|].
      by apply (stands_clean _ _ _ _ (JournalControl.empty g) slot). }
  intros x s' (-> & Hx & Hxb & Hxo). rewrite Hms in Hx. rewrite <- Hx in Hdec. unfold on_format. rewrite Hdec. wp_steps.
  destruct (decode_canonical (BlockCodec := StateCodec.state_codec) _ _ Hxb Hxo Hdec) as [_ Hty].
  split; [done|]. split; [done|]. exists m. split; [|done]. split; [|done..|].
  - split; [split|..]; try done; [|by rewrite Hms, <- Hx].
    cbn. rewrite Hch. do 2 f_equal. lia.
  - eapply head_ext; [apply Hvol| |exact Hhead]. intros b Hb. apply Hkept, content_kept; [done|by right].
Qed.

(** The free counts, when the state has none. *)
Lemma counts_spec (s : fs) m st1 T1 : groups s = gs → ready sb s m st1 → contents_ok sb gs T1 E m st1 →
  wp initialize_free_counts (λ a s', committed sb s (λ _ v pend, v = m ∧ pend = st1) a s')
    (λ _ s', FilesystemState.free_block_count st1 = 0 ∧ FilesystemState.free_inode_count st1 = 0 ∧
       undone sb s m (λ _ : unit, λ v pend, v = m ∧ pend = st1) s') s.
Proof using Hvol Htab Hbits Hatomic.
  intros Hgs Hr Hok1. pose proof (rd_writable _ _ _ _ Hr) as Hw. unfold initialize_free_counts. wp_step. wp_step.
  rewrite (id_state _ _ _ _ (wr_idle _ _ _ _ Hw)). wp_steps; [|done]. match goal with H : Some _ = Some _ |- _ => injection H as <- end.
  destruct (_ || _) eqn:Ez.
  { wp_steps. exists m, st1, m, st1. split; [done|]. split; [done|]. split; [by split_and!|]. by split_and!. }
  bool_simpl. rewrite Hgs. wp_step.
  eapply wp_mono; [apply (count_passes sb gs Hvol Hbits s m); [done|apply Hw|by eapply ready_sees|done]|cbv beta|intros e s' [-> _]; split_and!; [done..|by left]].
  intros ? s' [-> ->]. rewrite bool_decide_true by apply Hw. cbv beta iota. wp_step.
  eapply wp_mono; [apply (begin_session sb s m st1 Hr)|cbv beta|done]. intros _ s1 HS. wp_step.
  assert (with_free_counts (free_blocks gs m) (free_inodes gs m) st1 = st1) as Hsame.
  { rewrite <- (co_blocks_free _ _ _ _ _ _ (ns_consistent _ _ _ _ _ _ _ _ (cn_ok _ _ _ _ _ _ Hok1))), <- (co_inodes_free _ _ _ _ _ _ (ns_consistent _ _ _ _ _ _ _ _ (cn_ok _ _ _ _ _ _ Hok1))). by destruct st1. }
  eapply wp_mono; [apply (session_pending sb s m st1 m st1 s1 (λ st, mret (with_free_counts _ _ st)) HS)|cbv beta|cbv beta].
  - done.
  - intros p [= <-]. rewrite Hsame. apply (id_typed _ _ _ _ (wr_idle _ _ _ _ Hw)).
  - intros _ s2 (p & [= <-] & HS2). rewrite Hsame in HS2.
    eapply wp_mono; [by apply (commit_session_unit sb (vg_geometry _ _ Hvol) (vg_capacity _ _ Hvol) torn_never s m st1
      (λ _ v pend, v = m ∧ pend = st1) m st1)|by intros []|done].
  - by intros e s2 [_ ?].
Qed.

(** What a mount leaves: the volume marked dirty, the nodes with links and their
    contents, and no orphan. *)
Definition remounted (s : fs) : Prop := groups s = gs ∧ open_handles s = [] ∧ ∃ m' st' T',
  ready (with_state Dirty sb) s m' st' ∧ sound (with_state Dirty sb) gs T' E [] m' st' ∧
  (∀ n i, T' n = Some i ↔ T n = Some i ∧ Inode.link_count i ≠ 0) ∧ live_kept h T m'.

Lemma mark_dirty (s : fs) m st1 T1 : groups s = gs → ready sb s m st1 → sound sb gs T1 E [] m st1 → open_handles s = [] →
  (∀ n i, T1 n = Some i ↔ T n = Some i ∧ Inode.link_count i ≠ 0) → live_kept h T m →
  wp (write_superblocks Dirty) (λ _ s', remounted s') (λ e s', device_error e ∧ survives sb gs (device s')) s.
Proof using Hvol Hatomic.
  intros Hgs Hr [Hok1 [l1 Hl1] Hop] Hh HT Hlive.
  eapply wp_mono; [exact (mark_spec Dirty s m st1 T1 E l1 Hgs Hr Hok1 Hl1)|cbv beta|done].
  intros _ s' (Hgs' & Hh' & m' & Hr' & Hok' & _ & Hhome). split; [done|]. split; [congruence|]. exists m', st1, T1. split; [done|].
  split; [split; [done|by exists l1|done]|]. split; [done|].
  intros n i k q Hi Hli Hq. rewrite <- (Hlive n i k q Hi Hli Hq). eapply maps_data; [exact Hvol|apply Hok1|intros b Hd; apply Hhome; by right|].
  exists i. split; [by apply HT|done].
Qed.

(** The volume before it is marked. *)
Definition reclaimed_volume (s : fs) : Prop := groups s = gs ∧ open_handles s = [] ∧ ∃ m' st' T',
  ready sb s m' st' ∧ sound sb gs T' E [] m' st' ∧ (∀ n i, T' n = Some i ↔ T n = Some i ∧ Inode.link_count i ≠ 0) ∧
  live_kept h T m' ∧ (l = [] → st' = st).

Lemma reclaim_found (s : fs) m : groups s = gs → open_handles s = [] → ready sb s m st → (∀ b, kept sb b → m b = h b) →
  wp reclaim_orphans (λ _ s', reclaimed_volume s') (λ _ s', l ≠ [] ∧ survives sb gs (device s')) s.
Proof using Hatomic Hvol Hok Hl.
  intros Hgs Hh Hr Hm. assert (∀ b, is_data sb b → m b = h b) as Hdata by (intros b Hb; apply Hm; left; by right).
  pose proof (ok_data sb gs Hvol T E h st m st Hok Hdata ltac:(done)) as Hok1.
  assert (∀ v, live_kept m T v → live_kept h T v) as Hlive.
  { intros v Hv n i k q Hi Hli Hq. rewrite (Hv n i k q Hi Hli Hq). eapply maps_data; [exact Hvol|apply Hok|exact Hdata|]. by exists i. }
  destruct (decide (l = [])) as [Hnil|Hne].
  - pose proof Hl as Hl'. rewrite Hnil in Hl'. assert (∀ n i, T n = Some i → Inode.link_count i ≠ 0) as Hno.
    { intros n i Hi Hli. by apply (or_all _ _ _ Hl' n i Hi), not_elem_of_nil in Hli. }
    unfold reclaim_orphans. wp_step. wp_step. rewrite (id_state _ _ _ _ (wr_idle _ _ _ _ (rd_writable _ _ _ _ Hr))).
    apply wp_bind, wp_lift. cbn [ok_or wpo]. pose proof (or_list _ _ _ Hl') as Hol. inversion Hol as [Hz|]. wp_step.
    cbn [collect_orphans Z.eqb]. wp_step. cbn [for_each]. wp_steps.
    split; [done|]. split; [done|]. exists m, st, T. split; [done|]. split; [split; [done|by exists l|]|].
    + intros n i Hi Hli. by apply Hno in Hi.
    + split; [intros n i; split; [intros Hi; split; [done|by eapply Hno]|by intros []]|]. split; [|done]. apply Hlive. by intros ? ? ? ?.
  - eapply wp_mono; [by apply (reclaim_orphans_spec sb gs Hvol torn_never s m st T E l Hgs Hr Hok1 Hl)|cbv beta|cbv beta].
    + intros _ s' ((_ & Hg' & _ & Hh' & _) & m' & st' & T' & Hr' & Hs' & HT & Hk). split; [congruence|]. split; [congruence|].
      exists m', st', T'. split; [done|]. split; [done|]. split; [done|]. split; [by apply Hlive|done].
    + intros e s' [(prior & m1 & st1 & T1 & l1 & Hr1 & (_ & Hg1 & _) & Hok' & Hl1 & _)|[_ (hs & Hst & Hhs)]]; (split; [done|]).
      * eapply ready_survives; [congruence|done..].
      * by eapply stands_for_survives.
Qed.

Definition fails_only (e : FsError.t) : Prop := l = [] →
  FilesystemState.free_block_count st ≠ 0 ∨ FilesystemState.free_inode_count st ≠ 0 → device_error e ∨ exhausted e.

Lemma finish_mount_spec (d : D) mc : settled d mc → stands torn sb mc h →
  wp finish_mount (λ _ s, remounted s) (λ e s, survives sb gs (device s) ∧ fails_only e) (mount_start d sb gs RuntimeReadWrite).
Proof using All.
  intros Hset Hst. unfold finish_mount. wp_step. wp_step. cbv zeta. cbn [superblock mount_start mount_mode].
  rewrite (vg_phase3 _ _ Hvol). cbn [mount_mode]. wp_step.
  eapply wp_mono with (Q := λ _ s, reclaimed_volume s) (R := λ e s, survives sb gs (device s) ∧ fails_only e); [|cbv beta|done].
  { assert (∀ e, device_error e ∨ exhausted e → fails_only e) as Hfo by (by intros e ? ? ?). wp_step.
    eapply wp_mono; [exact (open_spec d mc Hset Hst)|cbv beta|cbv beta; intros e s []; auto].
    intros _ s [Hn Hread]. wp_step. wp_step. rewrite Hn. wp_step. eapply wp_mono; [exact Hread|cbv beta|cbv beta; intros e s' []; auto].
    intros _ s' (Hgs & Hh & m & Hr & Hm). wp_step. wp_step. rewrite bool_decide_true by apply Hr.
    eapply wp_mono; [exact (reclaim_found s' m Hgs Hh Hr Hm)|done|cbv beta]. intros e s2 [Hne ?]. split; [done|]. by intros ?. }
  intros _ s (Hgs & Hh & m & st1 & T1 & Hr & Hs & HT & Hlv & Hst1). pose proof Hs as [Hok1 [l1 Hl1] _].
  assert (survives sb gs (device s)) as Hsv by (by eapply ready_survives). wp_step.
  pose proof (validate_passes sb gs Hvol Hbits s m st1 Hgs (id_superblock _ _ _ _ (wr_idle _ _ _ _ (rd_writable _ _ _ _ Hr)))
    (ready_sees _ _ _ _ Hr) Htab T1 E (cn_ok _ _ _ _ _ _ Hok1) (id_state _ _ _ _ (wr_idle _ _ _ _ (rd_writable _ _ _ _ Hr))) (λ n i Hi, proj2 (proj1 (HT n i) Hi))) as Hpass.
  eapply wp_mono; [exact Hpass|cbv beta|cbv beta].
  2:{ intros e s' [-> He]. split; [done|]. intros ? ?. by left. }
  intros _ s' [-> _]. wp_step.
  eapply wp_mono; [exact (counts_spec s m st1 T1 Hgs Hr Hok1)|cbv beta|cbv beta].
  - intros _ s2 (v & pend & m' & st2 & [-> ->] & Hr2 & (_ & Hg2 & _ & Hh2 & _) & Hag & Hcnt).
    eapply wp_mono; [apply (mark_dirty s2 m' st2 T1); [congruence|done| |congruence|done|]|done|cbv beta].
    + by eapply sound_agree.
    + intros n i k q Hi Hli Hq. rewrite <- (Hlv n i k q Hi Hli Hq). eapply maps_agree; [exact Hvol|apply Hok1|exact Hag|].
      exists i. split; [by apply HT|done].
    + intros e s3 [He ?]. split; [done|]. intros ? ?. by left.
  - intros e s2 (Hb & Hi & Hu). split; [|intros Hn; rewrite <- (Hst1 Hn); lia].
    destruct Hu as [->|([] & v & pend & [-> ->] & Hlost)]; [done|].
    destruct (lost_stopped sb gs Hvol s m m st1 T1 E l1 s2) as [_ (hs & H1 & H2)]; [|done..|by eapply stands_for_survives].
    by eapply ready_holds.
Qed.
End opening.
End remount.

(** ** Mounting a device *)

Section mounting.
Context {D : Type} {HD : BlockDevice D} {torn : list Z → Prop} {HC : CrashSafe D torn}.
Notation fs := (Filesystem D).
Context (Hatomic : ∀ y, ¬ torn y).
Context (sb : Superblock.t) (gs : list group) (Hvol : volume sb gs).
Context (Htab : Forall group_unsigned gs) (Hbits : Superblock.allocation_group_blocks sb ≤ 32768).

(** The volume fits on the device. *)
Record fits (d : D) : Prop := {
  ft_block : block_size d = BLOCK_SIZE;
  ft_capacity : Superblock.capacity_blocks sb ≤ block_count d;
  ft_bytes : block_count d * 4096 ≤ u64_max;
}.

(** The device [d] holds the volume: after the journal is replayed its contents are [h],
    with the nodes [T], the entries [E], the state block [st] and the orphans [l]. *)
Record contains (h : disk) (T : table) (E : forest) (st : FilesystemState.t) (l : list Z) (d : D) : Prop := {
  ct_device : ∃ mc, settled d mc ∧ stands torn sb mc h;
  ct_head : ∃ x, head_holds (with_state x sb) gs h;
  ct_state : FilesystemState.decode (h (Superblock.filesystem_state_block sb)) = Ok st;
  ct_contents : contents_ok sb gs T E h st;
  ct_orphans : orphans T (FilesystemState.orphan_head st) l;
}.

(** A mount finds the filesystem [T], [E] of the contents [h], with the orphans [l];
    it fails for the device, for an exhausted counter, or in the work that orphans and
    missing counts cause, and then the device can be mounted again. *)
Definition mount_finds (h : disk) (T : table) (E : forest) (st : FilesystemState.t) (l : list Z) (d : D) : Prop :=
  contains h T E st l d ∧
  match try_mount_read_write d with
  | Ok s => remounted sb gs h T E s
  | Err (e, d') => survives (torn := torn) sb gs d' ∧ fails_only st l e
  | Abort => False
  end.

Lemma mount_spec x (d : D) mc h T E st l : fits d → settled d mc → stands torn sb mc h → head_holds (with_state x sb) gs h →
  FilesystemState.decode (h (Superblock.filesystem_state_block sb)) = Ok st → contents_ok sb gs T E h st →
  orphans T (FilesystemState.orphan_head st) l → mount_finds h T E st l d.
Proof using Hatomic Hvol Htab Hbits.
  intros [Hbs Hcap Hbytes] Hset Hst Hhead Hdec Hok Hl. assert (volume (with_state x sb) gs) as Hv by (by apply volume_mark).
  split; [split; [by exists mc|by exists x|done..]|]. apply (stands_mark x) in Hst. apply (contents_mark x) in Hok.
  assert (survives (torn := torn) sb gs d) as Hsv.
  { split; [apply Hset|]. intros mc' Hc. exists x, h. split; [|split; [done|by exists T, E, st; eauto]].
    apply (stands_mark x). by eapply (settled_stands (with_state x sb) mc d h). }
  unfold try_mount_read_write, try_mount_with_mode.
  pose proof (discover_spec (with_state x sb) gs Hv d mc h Hset Hst Hhead Hbs Hcap Hbytes) as Hd. unfold wp in Hd.
  destruct (discover_mount_metadata _ d) as [[[sb' gs']|e|] d']; cbn [wpo] in Hd; [| |done].
  - destruct Hd as [-> [= -> ->]].
    pose proof (finish_mount_spec Hatomic (with_state x sb) gs Hv Htab Hbits h T E st l Hhead Hdec Hok Hl d mc Hset Hst) as Hf. unfold wp in Hf.
    destruct (finish_mount _) as [[[]|e|] s]; cbn [wpo] in Hf; [done| |done]. destruct Hf as [Hs Hfo]. split; [by apply (survives_mark x)|done].
  - destruct Hd as [-> He]. split; [done|]. intros ? ?. by left.
Qed.
End mounting.
