(* ===== verification/ImageBuilder.v ===== *)
(** * Building a NullFS image

    Models the image builder of nullfs-testkit/src/lib.rs, which mkfs-nullfs and
    nullfs-image use: the pending tree of directories and files, and the
    allocation of their blocks and the writing of the volume in [finish].  Names
    and labels are byte strings. *)

From Stdlib Require Import ZArith Lia.
From stdpp Require Import base list numbers option.
From S2P Require Import Prelude NullfsBytes NullfsPhase3 NullfsSuperblock NullfsRecord NullfsInode.
From S2P Require Import NullfsDirectory NullfsAllocation BlockDevice.

Open Scope Z_scope.

Module BuildError.
Inductive t :=
| Device (e : BlockDeviceError.t)
| Format (e : FormatError.t)
| DeviceTooSmall
| TooManyGroups
| TooManyInodes
| TooManyExtents
| NoSpace
| InvalidParent
| DuplicateName
| InvalidSparseSegment
| ArithmeticOverflow.
End BuildError.

Record PendingDirectoryEntry := {
  pde_name : list Z;
  pde_inode : Z;
}.

Inductive PendingContent :=
| PendingDirectory (entries : list PendingDirectoryEntry)
| PendingFile (segments : list (Z * list Z)).

Record PendingNode := {
  pn_inode : Inode.t;
  pn_content : PendingContent;
}.

Record ImageBuilder (D : Type) := {
  ib_device : D;
  ib_superblock : Superblock.t;
  ib_groups : list AllocationGroupDescriptor.t;
  ib_next_data_block : list Z;
  ib_nodes : list PendingNode;
}.
Arguments ib_device {D}.
Arguments ib_superblock {D}.
Arguments ib_groups {D}.
Arguments ib_next_data_block {D}.
Arguments ib_nodes {D}.

Module Builder.
(** [Inode { kind, mode, link_count: 1, generation, size, parent_inode, ..Inode::default() }] *)
Definition pending_inode (kind : NodeKind.t) (mode generation size parent_inode : Z) : Inode.t :=
  Inode.mk kind mode 0 0 1 0 generation size 0 parent_inode Timestamp.default Timestamp.default
    Timestamp.default Timestamp.default 0 0 (replicate INLINE_EXTENT_COUNT Extent.default).

(** Assignments to the fields of a pending inode. *)
Definition set_extents (extents : list Extent.t) (i : Inode.t) : Inode.t :=
  Inode.mk (Inode.kind i) (Inode.mode i) (Inode.uid i) (Inode.gid i) (Inode.link_count i) (Inode.flags i)
    (Inode.generation i) (Inode.size i) (Inode.allocated_blocks i) (Inode.parent_inode i) (Inode.accessed i)
    (Inode.modified i) (Inode.changed i) (Inode.created i) (Inode.directory_entry_count i) (Inode.extent_count i)
    extents.
Definition set_allocation (extent_count allocated_blocks : Z) (i : Inode.t) : Inode.t :=
  Inode.mk (Inode.kind i) (Inode.mode i) (Inode.uid i) (Inode.gid i) (Inode.link_count i) (Inode.flags i)
    (Inode.generation i) (Inode.size i) allocated_blocks (Inode.parent_inode i) (Inode.accessed i)
    (Inode.modified i) (Inode.changed i) (Inode.created i) (Inode.directory_entry_count i) extent_count
    (Inode.extents i).
Definition set_listing (size entry_count : Z) (i : Inode.t) : Inode.t :=
  Inode.mk (Inode.kind i) (Inode.mode i) (Inode.uid i) (Inode.gid i) (Inode.link_count i) (Inode.flags i)
    (Inode.generation i) size (Inode.allocated_blocks i) (Inode.parent_inode i) (Inode.accessed i)
    (Inode.modified i) (Inode.changed i) (Inode.created i) entry_count (Inode.extent_count i) (Inode.extents i).

(** ** A new builder *)

(** The descriptor of a group: its metadata at the start, its data after them. *)
Definition plan_group (superblock : Superblock.t) (group_index : Z) : outcome BuildError.t AllocationGroupDescriptor.t :=
  group_start ← ok_or (checked_mul u64_max group_index (Superblock.allocation_group_blocks superblock))
                  BuildError.ArithmeticOverflow;
  let group_count := Z.min (Superblock.capacity_blocks superblock - group_start)
                       (Superblock.allocation_group_blocks superblock) in
  group_end ← ok_or (checked_add u64_max group_start group_count) BuildError.ArithmeticOverflow;
  let metadata_start := Z.max group_start (Superblock.first_allocatable_block superblock) in
  inode_bitmap_block ← ok_or (checked_add u64_max metadata_start 1) BuildError.ArithmeticOverflow;
  inode_table_first_block ← ok_or (checked_add u64_max metadata_start 2) BuildError.ArithmeticOverflow;
  first_data_block ← ok_or (checked_add u64_max inode_table_first_block PHASE2_INODE_TABLE_BLOCKS)
                       BuildError.ArithmeticOverflow;
  _ ← err_if (group_end <=? first_data_block) BuildError.DeviceTooSmall;
  let descriptor := AllocationGroupDescriptor.mk group_index 0 group_start group_count metadata_start
    inode_bitmap_block inode_table_first_block PHASE2_INODE_TABLE_BLOCKS PHASE2_INODES_PER_GROUP
    first_data_block group_end (if group_index =? 0 then Some 0 else None) in
  _ ← map_err BuildError.Format (AllocationGroupDescriptor.validate descriptor superblock);
  mret descriptor.

(** [for group_index in 0..allocation_group_count]: [n] groups from [group_index] on. *)
Fixpoint plan_groups (superblock : Superblock.t) (n : nat) (group_index : Z)
    : outcome BuildError.t (list AllocationGroupDescriptor.t) :=
  match n with
  | O => mret []
  | S n =>
      group ← plan_group superblock group_index;
      groups ← plan_groups superblock n (group_index + 1);
      mret (group :: groups)
  end.

Section builder.
Context {D : Type} {HD : BlockDevice D}.
Notation builder := (ImageBuilder D).
Notation Op := (M builder BuildError.t).

Definition set_device (d : D) (b : builder) : builder :=
  Build_ImageBuilder _ d (ib_superblock b) (ib_groups b) (ib_next_data_block b) (ib_nodes b).
Definition set_next_data_block (l : list Z) (b : builder) : builder :=
  Build_ImageBuilder _ (ib_device b) (ib_superblock b) (ib_groups b) l (ib_nodes b).
Definition set_nodes (l : list PendingNode) (b : builder) : builder :=
  Build_ImageBuilder _ (ib_device b) (ib_superblock b) (ib_groups b) (ib_next_data_block b) l.

Definition on_device {A} (m : M D BlockDeviceError.t A) : Op A := zoom ib_device set_device BuildError.Device m.
Definition on_format {A} (o : outcome FormatError.t A) : Op A := lift (map_err BuildError.Format o).

(** The mode is 0o755. *)
Definition root_node : PendingNode := {|
  pn_inode := pending_inode NodeKind.Directory 493 1 0 1;
  pn_content := PendingDirectory [];
|}.

Definition new (device : D) (uuid label : list Z) : outcome BuildError.t builder :=
  _ ← err_if (negb (block_size device =? BLOCK_SIZE)%nat) (BuildError.Device BlockDeviceError.InvalidBlockSize);
  device_bytes ← ok_or (checked_mul u64_max (block_count device) BLOCK_SIZE_U64) BuildError.ArithmeticOverflow;
  superblock ← map_err BuildError.Format
                 (Superblock.format_phase3 (FormatOptions.new device_bytes uuid label));
  let maximum_groups := Superblock.descriptor_reservation_blocks superblock * Z.of_nat DESCRIPTORS_PER_BLOCK in
  _ ← err_if (maximum_groups <? Superblock.allocation_group_count superblock) BuildError.TooManyGroups;
  groups ← plan_groups superblock (Z.to_nat (Superblock.allocation_group_count superblock)) 0;
  mret (Build_ImageBuilder _ device superblock groups (AllocationGroupDescriptor.first_data_block <$> groups) [root_node]).

(** ** The pending tree *)

Definition allocate_inode : Op Z :=
  reads (λ self,
    next ← ok_or (checked_add u64_max (Z.of_nat (length (ib_nodes self))) 1) BuildError.ArithmeticOverflow;
    capacity ← ok_or (checked_mul u64_max (Z.of_nat (length (ib_groups self))) PHASE2_INODES_PER_GROUP)
                 BuildError.ArithmeticOverflow;
    _ ← err_if (capacity <? next) BuildError.TooManyInodes;
    mret next).

Definition insert_node (parent : Z) (name : list Z) (inode : Inode.t) (content : PendingContent) : Op unit :=
  self ← get;
  child_inode ← lift (ok_or (checked_add u64_max (Z.of_nat (length (ib_nodes self))) 1) BuildError.ArithmeticOverflow);
  parent_index ← lift (ok_or (checked_sub parent 1) BuildError.InvalidParent);
  let parent_index := Z.to_nat parent_index in
  parent_node ← lift (ok_or (ib_nodes self !! parent_index) BuildError.InvalidParent);
  match pn_content parent_node with
  | PendingFile _ => lift (Err BuildError.InvalidParent)
  | PendingDirectory entries =>
      _ ← lift (err_if (any (λ entry, bool_decide (pde_name entry = name)) entries) BuildError.DuplicateName);
      _ ← on_format (DirectoryEntry.new child_inode (Inode.generation inode) (Inode.kind inode) name);
      let entries := push entries {| pde_name := name; pde_inode := child_inode |} in
      let parent_node := {| pn_inode := pn_inode parent_node; pn_content := PendingDirectory entries |} in
      put (set_nodes (push (<[parent_index := parent_node]> (ib_nodes self))
                        {| pn_inode := inode; pn_content := content |}) self)
  end.

Definition create_directory (parent : Z) (name : list Z) (mode : Z) : Op Z :=
  inode_number ← allocate_inode;
  _ ← insert_node parent name (pending_inode NodeKind.Directory mode inode_number 0 parent) (PendingDirectory []);
  mret inode_number.

(** [for (index, (offset, bytes)) in segments.iter().enumerate()] *)
Fixpoint check_segments (size : Z) (first : bool) (previous_end : Z) (segments : list (Z * list Z))
    : outcome BuildError.t unit :=
  match segments with
  | [] => mret ()
  | (offset, bytes) :: segments =>
      stop ← ok_or (checked_add u64_max offset (Z.of_nat (length bytes))) BuildError.ArithmeticOverflow;
      _ ← err_if (negb (offset mod BLOCK_SIZE_U64 =? 0) || (length bytes =? 0)%nat || (size <? stop)
                  || (negb first && (offset <? previous_end))) BuildError.InvalidSparseSegment;
      check_segments size false stop segments
  end.

Definition create_sparse_file (parent : Z) (name : list Z) (size : Z) (segments : list (Z * list Z)) (mode : Z) : Op Z :=
  _ ← lift (err_if (INLINE_EXTENT_COUNT <? length segments)%nat BuildError.TooManyExtents);
  _ ← lift (check_segments size true 0 segments);
  inode_number ← allocate_inode;
  _ ← insert_node parent name (pending_inode NodeKind.Regular mode inode_number size parent) (PendingFile segments);
  mret inode_number.

Definition create_file (parent : Z) (name bytes : list Z) (mode : Z) : Op Z :=
  create_sparse_file parent name (Z.of_nat (length bytes)) [(0, bytes)] mode.

(** ** Allocation of the contents *)

(** The first group with [count] blocks left, from its index on. *)
Fixpoint fitting_group (count : Z) (index : nat) (groups : list AllocationGroupDescriptor.t) (next : list Z)
    : outcome BuildError.t (nat * Z * Z) :=
  match groups with
  | [] => Err BuildError.NoSpace
  | group :: groups =>
      start ← expect (next !! index);
      stop ← ok_or (checked_add u64_max start count) BuildError.ArithmeticOverflow;
      if stop <=? AllocationGroupDescriptor.data_end_block group then mret (index, start, stop)
      else fitting_group count (S index) groups next
  end.

Definition allocate_blocks (count : Z) : Op Z :=
  _ ← lift (err_if (count =? 0) BuildError.NoSpace);
  self ← get;
  r ← lift (fitting_group count 0 (ib_groups self) (ib_next_data_block self));
  let '(index, start, stop) := r in
  _ ← put (set_next_data_block (<[index := stop]> (ib_next_data_block self)) self);
  mret start.

(** [bytes.chunks(BLOCK_SIZE)], each padded to a block; [n] bounds their number. *)
Fixpoint padded_chunks (n : nat) (bytes : list Z) : list (list Z) :=
  match n, bytes with
  | S n, _ :: _ => put_bytes (zeros BLOCK_SIZE) 0 (take BLOCK_SIZE bytes) :: padded_chunks n (drop BLOCK_SIZE bytes)
  | _, _ => []
  end.

Definition write_all (physical : Z) (blocks : list (list Z)) : Op unit :=
  for_each (zip (seqZ 0 (Z.of_nat (length blocks))) blocks)
    (λ p, on_device (write_blocks (physical + p.1) p.2)).

Definition write_file_segment (physical : Z) (bytes : list Z) : Op unit :=
  write_all physical (padded_chunks (length bytes) bytes).

(** [self.nodes[node_index].inode = f(..)]; the index is in range. *)
Definition update_inode (node_index : nat) (f : Inode.t → Inode.t) : Op unit :=
  self ← get;
  node ← lift (expect (ib_nodes self !! node_index));
  put (set_nodes (<[node_index := {| pn_inode := f (pn_inode node); pn_content := pn_content node |}]> (ib_nodes self)) self).

Definition ceil_blocks (bytes : Z) : Z := (bytes + (BLOCK_SIZE_U64 - 1)) / BLOCK_SIZE_U64.

Definition allocate_segment (node_index : nat) (acc : nat * Z) (segment : Z * list Z) : Op (nat * Z) :=
  let '(extent_count, allocated_blocks) := acc in
  let '(offset, bytes) := segment in
  _ ← lift (err_if (u64_max <? Z.of_nat (length bytes) + (BLOCK_SIZE_U64 - 1)) BuildError.ArithmeticOverflow);
  let blocks := ceil_blocks (Z.of_nat (length bytes)) in
  physical ← allocate_blocks (wrap 32 blocks);
  let extent := Extent.mk (offset / BLOCK_SIZE_U64) physical (wrap 32 blocks) 0 in
  _ ← lift (if (extent_count <? INLINE_EXTENT_COUNT)%nat then Ok () else Abort);
  _ ← update_inode node_index (λ i, set_extents (<[extent_count := extent]> (Inode.extents i)) i);
  allocated_blocks ← lift (ok_or (checked_add u64_max allocated_blocks blocks) BuildError.ArithmeticOverflow);
  _ ← write_file_segment physical bytes;
  mret (S extent_count, allocated_blocks).

Definition allocate_file (node_index : nat) (segments : list (Z * list Z)) : Op unit :=
  r ← for_fold segments (0%nat, 0) (allocate_segment node_index);
  let '(extent_count, allocated_blocks) := r in
  update_inode node_index (set_allocation (wrap 16 (Z.of_nat extent_count)) allocated_blocks).

(** [directory.entries[slot] = DirectoryEntry::new(..)] for the pending entries of the block. *)
Definition list_entry (directory : DirectoryBlock.t) (p : nat * PendingDirectoryEntry) : Op DirectoryBlock.t :=
  let '(slot, pending) := p in
  self ← get;
  target ← lift (expect (ib_nodes self !! Z.to_nat (pde_inode pending - 1)));
  entry ← on_format (DirectoryEntry.new (pde_inode pending) (Inode.generation (pn_inode target))
                       (Inode.kind (pn_inode target)) (pde_name pending));
  mret (DirectoryBlock.mk (DirectoryBlock.owner_inode directory) (DirectoryBlock.logical_block_index directory)
          (<[slot := entry]> (DirectoryBlock.entries directory))).

Definition write_listing (inode_number physical : Z) (entries : list PendingDirectoryEntry) (logical : Z) : Op unit :=
  directory ← on_format (DirectoryBlock.new inode_number logical);
  let listed := take DIRECTORY_ENTRIES_PER_BLOCK (drop (Z.to_nat logical * DIRECTORY_ENTRIES_PER_BLOCK) entries) in
  directory ← for_fold (zip (seq 0 (length listed)) listed) directory list_entry;
  encoded ← on_format (DirectoryBlock.encode directory);
  on_device (write_blocks (physical + logical) encoded).

(** [entries.len().div_ceil(DIRECTORY_ENTRIES_PER_BLOCK).max(1)] *)
Definition listing_blocks (entries : list PendingDirectoryEntry) : Z :=
  Z.max 1 ((Z.of_nat (length entries) + (Z.of_nat DIRECTORY_ENTRIES_PER_BLOCK - 1)) / Z.of_nat DIRECTORY_ENTRIES_PER_BLOCK).

Definition allocate_directory (node_index : nat) (entries : list PendingDirectoryEntry) : Op unit :=
  let block_count := listing_blocks entries in
  physical ← allocate_blocks (wrap 32 block_count);
  let extent := Extent.mk 0 physical (wrap 32 block_count) 0 in
  _ ← update_inode node_index (λ i,
        set_extents (<[0%nat := extent]> (Inode.extents i))
          (set_allocation 1 block_count (set_listing (block_count * BLOCK_SIZE_U64) (Z.of_nat (length entries)) i)));
  for_each (range 0 block_count) (write_listing (Z.of_nat node_index + 1) physical entries).

Definition allocate_node (node_index : nat) : Op unit :=
  self ← get;
  node ← lift (expect (ib_nodes self !! node_index));
  _ ← match pn_content node with
      | PendingFile segments => allocate_file node_index segments
      | PendingDirectory entries => allocate_directory node_index entries
      end;
  self ← get;
  node ← lift (expect (ib_nodes self !! node_index));
  on_format (Inode.validate (pn_inode node)).

Definition allocate_contents : Op unit :=
  self ← get;
  for_each (seq 0 (length (ib_nodes self))) allocate_node.

(** ** Metadata *)

(** [bitmap_set] for every bit of a list. *)
Fixpoint set_bits (bitmap : list Z) (bits : list nat) : outcome FormatError.t (list Z) :=
  match bits with
  | [] => mret bitmap
  | bit :: bits => bitmap ← bitmap_set bitmap bit true; set_bits bitmap bits
  end.

Definition group_bit (group : AllocationGroupDescriptor.t) (physical : Z) : nat :=
  Z.to_nat (physical - AllocationGroupDescriptor.group_start_block group).

(** The blocks of an extent that lie in the data of the group. *)
Definition mark_extent (group : AllocationGroupDescriptor.t) (bitmap : list Z) (extent : Extent.t) : Op (list Z) :=
  extent_end ← lift (ok_or (checked_add u64_max (Extent.physical_first_block extent) (Extent.length_blocks extent))
                       BuildError.ArithmeticOverflow);
  let start := Z.max (Extent.physical_first_block extent) (AllocationGroupDescriptor.first_data_block group) in
  let stop := Z.min extent_end (AllocationGroupDescriptor.data_end_block group) in
  on_format (set_bits bitmap (group_bit group <$> range start stop)).

Definition mark_node (group : AllocationGroupDescriptor.t) (bitmap : list Z) (node : PendingNode) : Op (list Z) :=
  for_fold (take (Z.to_nat (Inode.extent_count (pn_inode node))) (Inode.extents (pn_inode node))) bitmap (mark_extent group).

(** [free_count.checked_add(1)] for every clear bit of a list. *)
Fixpoint count_clear (bitmap : list Z) (count : Z) (bits : list nat) : outcome BuildError.t Z :=
  match bits with
  | [] => mret count
  | bit :: bits =>
      if bool_decide (bitmap_test bitmap bit = Some false) then
        count ← ok_or (checked_add u64_max count 1) BuildError.ArithmeticOverflow;
        count_clear bitmap count bits
      else count_clear bitmap count bits
  end.

(** The bitmaps and the cleared inode table of a group, and the free counts so far. *)
Definition write_group (counts : Z * Z) (p : nat * AllocationGroupDescriptor.t) : Op (Z * Z) :=
  let '(free_block_count, free_inode_count) := counts in
  let '(group_index, group) := p in
  let first_data := AllocationGroupDescriptor.first_data_block group in
  block_bitmap ← on_format (set_bits (zeros BLOCK_SIZE)
    (group_bit group <$> range (AllocationGroupDescriptor.group_start_block group) first_data));
  self ← get;
  block_bitmap ← for_fold (ib_nodes self) block_bitmap (mark_node group);
  let first_inode := (group_index * Z.to_nat PHASE2_INODES_PER_GROUP)%nat in
  let allocated_inodes := Nat.min (length (ib_nodes self) - first_inode)
                            (Z.to_nat (AllocationGroupDescriptor.inodes_in_group group)) in
  inode_bitmap ← on_format (set_bits (zeros BLOCK_SIZE) (seq 0 allocated_inodes));
  free_block_count ← lift (count_clear block_bitmap free_block_count
    (group_bit group <$> range first_data (AllocationGroupDescriptor.data_end_block group)));
  free_inode_count ← lift (count_clear inode_bitmap free_inode_count
    (seq 0 (Z.to_nat (AllocationGroupDescriptor.inodes_in_group group))));
  _ ← on_device (write_blocks (AllocationGroupDescriptor.block_bitmap_block group) block_bitmap);
  _ ← on_device (write_blocks (AllocationGroupDescriptor.inode_bitmap_block group) inode_bitmap);
  _ ← for_each (range 0 (AllocationGroupDescriptor.inode_table_block_count group)) (λ offset,
        on_device (write_blocks (AllocationGroupDescriptor.inode_table_first_block group + offset) (zeros BLOCK_SIZE)));
  mret (free_block_count, free_inode_count).

Definition INODES_PER_BLOCK : nat := 16.

(** A block of an inode table. *)
Definition store_node (first : nat) (block : list Z) (slot : nat) : Op (list Z) :=
  self ← get;
  match ib_nodes self !! (first + slot)%nat with
  | None => mret block
  | Some node =>
      encoded ← on_format (Inode.encode (pn_inode node));
      mret (put_bytes block (slot * INODE_BYTES) encoded)
  end.

Definition write_table_block (group_index : nat) (group : AllocationGroupDescriptor.t) (table_block : nat) : Op unit :=
  let first := (group_index * Z.to_nat PHASE2_INODES_PER_GROUP + table_block * INODES_PER_BLOCK)%nat in
  block ← for_fold (seq 0 INODES_PER_BLOCK) (zeros BLOCK_SIZE) (store_node first);
  on_device (write_blocks (AllocationGroupDescriptor.inode_table_first_block group + Z.of_nat table_block) block).

Definition write_table (p : nat * AllocationGroupDescriptor.t) : Op unit :=
  for_each (seq 0 (Z.to_nat (AllocationGroupDescriptor.inode_table_block_count p.2))) (write_table_block p.1 p.2).

(** A block of the descriptor table. *)
Fixpoint push_all (table : AllocationGroupTable.t) (descriptors : list AllocationGroupDescriptor.t)
    : outcome FormatError.t AllocationGroupTable.t :=
  match descriptors with
  | [] => mret table
  | descriptor :: descriptors => table ← AllocationGroupTable.push table descriptor; push_all table descriptors
  end.

Definition write_descriptors (table_index : Z) : Op unit :=
  self ← get;
  let first := (Z.to_nat table_index * DESCRIPTORS_PER_BLOCK)%nat in
  let table := AllocationGroupTable.new (wrap 32 (Z.of_nat first)) (wrap 32 (Z.of_nat (length (ib_groups self)))) table_index
    (Superblock.descriptor_reservation_blocks (ib_superblock self)) (FIRST_DESCRIPTOR_BLOCK + table_index) in
  table ← on_format (push_all table (take DESCRIPTORS_PER_BLOCK (drop first (ib_groups self))));
  encoded ← on_format (AllocationGroupTable.encode table (ib_superblock self));
  on_device (write_blocks (AllocationGroupTable.physical_block table) encoded).

Definition indexed {A} (l : list A) : list (nat * A) := zip (seq 0 (length l)) l.

Definition write_metadata : Op unit :=
  self ← get;
  let superblock := ib_superblock self in
  _ ← for_each (range 0 (Superblock.first_allocatable_block superblock)) (λ block,
        on_device (write_blocks block (zeros BLOCK_SIZE)));
  counts ← for_fold (indexed (ib_groups self)) (0, 0) write_group;
  let '(free_block_count, free_inode_count) := counts in
  _ ← for_each (indexed (ib_groups self)) write_table;
  _ ← for_each (range 0 (Superblock.descriptor_reservation_blocks superblock)) write_descriptors;
  state ← on_format (FilesystemState.encode
    (FilesystemState.mk (FilesystemState.generation FilesystemState.initial)
       (FilesystemState.next_transaction_id FilesystemState.initial) 0 free_block_count free_inode_count));
  _ ← on_device (write_blocks (Superblock.filesystem_state_block superblock) state);
  _ ← for_each (range 0 2) (λ control_index,
        control ← on_format (JournalControl.encode (JournalControl.empty (control_index + 1)));
        on_device (write_blocks (Superblock.journal_first_block superblock + control_index) control));
  encoded_superblock ← on_format (Superblock.encode superblock);
  _ ← on_device (write_blocks SUPERBLOCK_BLOCK encoded_superblock);
  on_device (write_blocks (Superblock.backup_superblock_block superblock) encoded_superblock).

Definition finish : Op D :=
  _ ← allocate_contents;
  _ ← write_metadata;
  _ ← on_device flush;
  reads (λ self, Ok (ib_device self)).

(** What mkfs-nullfs does with an open target. *)
Definition format_volume (device : D) (uuid label : list Z) : outcome BuildError.t D :=
  builder ← new device uuid label;
  (finish builder).1.
End builder.
End Builder.
