(* ===== verification/ImagePlan.v ===== *)
(** * The tree of a pending image

    The nodes that an image builder has collected form a tree: every node but the
    root is listed once, in the directory that is its parent and was created
    before it.  Creating directories and files keeps this. *)

From Stdlib Require Import ZArith Lia.
From stdpp Require Import base list numbers option gmap.
From S2P Require Import Prelude NullfsBytes NullfsPhase3 NullfsSuperblock NullfsRecord NullfsInode.
From S2P Require Import NullfsDirectory NullfsAllocation BlockDevice Journal JournalDisk JournalSteps.
From S2P Require Import JournalRecovery JournalProps Volume Mutation Extents VolumeReads Session.
From S2P Require Import MutationSteps Atomicity Layout Ownership Mounted FileWrite Namespace DirectoryViews.
From S2P Require Import ImageBuilder.

Open Scope Z_scope.

(** ** Tables and forests *)

Definition node_at (nodes : list PendingNode) (n : Z) : option PendingNode :=
  if decide (1 ≤ n) then nodes !! Z.to_nat (n - 1) else None.
Definition image_table (nodes : list PendingNode) : table := λ n, pn_inode <$> node_at nodes n.
Definition kind_of (nodes : list PendingNode) (n : Z) : NodeKind.t :=
  match image_table nodes n with Some i => Inode.kind i | None => NodeKind.Free end.
Definition listing (node : PendingNode) : list PendingDirectoryEntry :=
  match pn_content node with PendingDirectory es => es | PendingFile _ => [] end.
Definition entries_at (nodes : list PendingNode) (n : Z) : list PendingDirectoryEntry :=
  match node_at nodes n with Some node => listing node | None => [] end.

(** The entry that stands for a pending one. *)
Definition new_entry (nodes : list PendingNode) (e : PendingDirectoryEntry) : outcome FormatError.t DirectoryEntry.t :=
  DirectoryEntry.new (pde_inode e) (pde_inode e) (kind_of nodes (pde_inode e)) (pde_name e).
Definition image_entry (nodes : list PendingNode) (e : PendingDirectoryEntry) : DirectoryEntry.t :=
  match new_entry nodes e with Ok entry => entry | _ => DirectoryEntry.default end.

(** The position of the [i]th entry of a directory. *)
Definition place (i : nat) : Z * nat :=
  (Z.of_nat (i / DIRECTORY_ENTRIES_PER_BLOCK), (i mod DIRECTORY_ENTRIES_PER_BLOCK)%nat).
Definition image_forest (nodes : list PendingNode) : forest := λ n,
  list_to_map (imap (λ i e, (place i, image_entry nodes e)) (entries_at nodes n)).

#[global] Instance place_inj : Inj eq eq place.
Proof.
  intros i j E. pose proof (f_equal fst E) as E1%Nat2Z.inj. pose proof (f_equal snd E) as E2. cbn [place snd] in E2.
  rewrite (Nat.div_mod_eq i DIRECTORY_ENTRIES_PER_BLOCK), (Nat.div_mod_eq j DIRECTORY_ENTRIES_PER_BLOCK). by rewrite E1, E2.
Qed.

Lemma place_NoDup {A B} (f : A → B) l : NoDup (imap (λ i e, (place i, f e)) l).*1.
Proof.
  apply NoDup_alt. intros i j x Hi Hj. rewrite list_lookup_fmap, list_lookup_imap in Hi, Hj.
  destruct (l !! i), (l !! j); cbn in *; try done. simplify_eq. by apply place_inj.
Qed.

Lemma image_forest_Some nodes n pos e : image_forest nodes n !! pos = Some e ↔
  ∃ i pe, entries_at nodes n !! i = Some pe ∧ pos = place i ∧ e = image_entry nodes pe.
Proof.
  unfold image_forest. rewrite <- elem_of_list_to_map by apply place_NoDup. rewrite elem_of_lookup_imap. naive_solver.
Qed.

Lemma image_forest_size nodes n : size (image_forest nodes n) = length (entries_at nodes n).
Proof. unfold image_forest. rewrite map_size_list_to_map by apply place_NoDup. apply length_imap. Qed.

(** ** The invariant *)

Record planned (nodes : list PendingNode) : Prop := {
  pl_root : ∃ node, node_at nodes ROOT_INODE = Some node ∧ Inode.kind (pn_inode node) = NodeKind.Directory ∧
    Inode.parent_inode (pn_inode node) = ROOT_INODE;
  pl_kind : ∀ n node, node_at nodes n = Some node →
    Inode.kind (pn_inode node) = match pn_content node with PendingDirectory _ => NodeKind.Directory | PendingFile _ => NodeKind.Regular end;
  pl_links : ∀ n node, node_at nodes n = Some node → Inode.link_count (pn_inode node) = 1;
  pl_generation : ∀ n node, node_at nodes n = Some node → Inode.generation (pn_inode node) = n;
  pl_parent : ∀ n node, node_at nodes n = Some node → n ≠ ROOT_INODE → 1 ≤ Inode.parent_inode (pn_inode node) < n;
  pl_named : ∀ n node, node_at nodes n = Some node → n ≠ ROOT_INODE →
    ∃ e, e ∈ entries_at nodes (Inode.parent_inode (pn_inode node)) ∧ pde_inode e = n;
  pl_child : ∀ n e, e ∈ entries_at nodes n → pde_inode e ≠ ROOT_INODE ∧
    ∃ child, node_at nodes (pde_inode e) = Some child ∧ Inode.parent_inode (pn_inode child) = n;
  pl_entry : ∀ n e, e ∈ entries_at nodes n → bytes_ok (pde_name e) ∧ ∃ entry, new_entry nodes e = Ok entry;
  pl_names : ∀ n, NoDup (pde_name <$> entries_at nodes n);
  pl_children : ∀ n, NoDup (pde_inode <$> entries_at nodes n);
  pl_u64 : Z.of_nat (length nodes) ≤ u64_max;
}.

Lemma node_at_bounds nodes n node : node_at nodes n = Some node → 1 ≤ n ≤ Z.of_nat (length nodes).
Proof. unfold node_at. destruct (decide _); [|done]. intros ?%lookup_lt_Some. lia. Qed.

Lemma node_at_index nodes k : node_at nodes (Z.of_nat k + 1) = nodes !! k.
Proof. unfold node_at. rewrite decide_True by lia. f_equal. lia. Qed.

Lemma node_at_is nodes n node : node_at nodes n = Some node → ∃ k, n = Z.of_nat k + 1 ∧ nodes !! k = Some node.
Proof. intros H. pose proof (node_at_bounds _ _ _ H). exists (Z.to_nat (n - 1)). split; [lia|]. rewrite <- H, <- node_at_index. f_equal. lia. Qed.

Lemma entries_at_dir nodes n e : e ∈ entries_at nodes n → ∃ node, node_at nodes n = Some node ∧ e ∈ listing node.
Proof. unfold entries_at. destruct (node_at nodes n) as [node|]; [by eauto|by intros ?%not_elem_of_nil]. Qed.

Section planned.
Context (nodes : list PendingNode) (Hp : planned nodes).

Lemma child_u64 n e : e ∈ entries_at nodes n → is_u64 (pde_inode e).
Proof using Hp.
  intros (_ & child & Hc%node_at_bounds & _)%(pl_child _ Hp). pose proof (pl_u64 _ Hp). split; lia.
Qed.

Lemma image_entry_spec n e : e ∈ entries_at nodes n → new_entry nodes e = Ok (image_entry nodes e) ∧
  DirectoryEntry.typed (image_entry nodes e) ∧ DirectoryEntry.inode (image_entry nodes e) = pde_inode e ∧
  DirectoryEntry.generation (image_entry nodes e) = pde_inode e ∧
  DirectoryEntry.kind (image_entry nodes e) = kind_of nodes (pde_inode e) ∧
  DirectoryBlock.used (image_entry nodes e) = true ∧ DirectoryEntry.name_bytes (image_entry nodes e) = pde_name e.
Proof using Hp.
  intros He. pose proof (child_u64 n e He) as Hu. destruct (pl_entry _ Hp n e He) as (Hn & entry & Hent).
  unfold image_entry. rewrite Hent. split; [done|]. by apply entry_new_typed in Hent.
Qed.

Lemma dir_kind n e : e ∈ entries_at nodes n → is_dir (image_table nodes) n.
Proof using Hp.
  intros (node & Hn & He)%entries_at_dir. exists (pn_inode node). unfold image_table. rewrite Hn. split; [done|].
  rewrite (pl_kind _ Hp n node Hn). unfold listing in He. destruct (pn_content node); [done|by apply not_elem_of_nil in He].
Qed.

Lemma planned_rooted n : is_dir (image_table nodes) n → rooted (image_table nodes) n.
Proof using Hp.
  assert (∀ k n, n ≤ Z.of_nat k → is_dir (image_table nodes) n → rooted (image_table nodes) n) as H; [|eapply (H (Z.to_nat n)); lia].
  intros k. induction k as [|k IH]; intros m Hm (i & (node & Hn & ->)%fmap_Some & Hk).
  { apply node_at_bounds in Hn. lia. }
  destruct (decide (m = ROOT_INODE)) as [->|Hr]; [constructor|].
  pose proof (pl_parent _ Hp m node Hn Hr). destruct (pl_named _ Hp m node Hn Hr) as (e & He & _).
  eapply rooted_up; [unfold image_table; by rewrite Hn|done|]. apply IH; [lia|]. by eapply dir_kind.
Qed.

Lemma image_names n e : e ∈ entries_at nodes n → ∃ t, names (image_table nodes) n (image_entry nodes e) t.
Proof using Hp.
  intros He. destruct (image_entry_spec n e He) as (_ & _ & Hi & Hg & Hk & _).
  destruct (pl_child _ Hp n e He) as (Hr & child & Hc & Hpar). exists (pn_inode child).
  assert (image_table nodes (pde_inode e) = Some (pn_inode child)) as HT by (unfold image_table; by rewrite Hc).
  split; rewrite ?Hi, ?Hg, ?Hk; [done|by apply (pl_generation _ Hp)|unfold kind_of; by rewrite HT| |done|done].
  by rewrite (pl_links _ Hp _ _ Hc).
Qed.

(** The planned nodes are a tree. *)
Lemma planned_tree : (∀ n node, node_at nodes n = Some node → Inode.kind (pn_inode node) = NodeKind.Directory →
    Inode.directory_entry_count (pn_inode node) = Z.of_nat (length (listing node))) →
  tree (image_table nodes) (image_forest nodes).
Proof using Hp.
  intros Hcount. split.
  - destruct (pl_root _ Hp) as (node & Hn & ? & ?). exists (pn_inode node). unfold image_table. by rewrite Hn.
  - intros n i (node & Hn & ->)%fmap_Some _. by rewrite (pl_links _ Hp n node Hn).
  - intros n pos e (i & pe & Hpe%list_elem_of_lookup_2 & _)%image_forest_Some. by eapply dir_kind.
  - intros n i (node & Hn & ->)%fmap_Some Hk. rewrite image_forest_size. unfold entries_at. rewrite Hn. by apply (Hcount n).
  - intros n pos1 e1 pos2 e2 (i & pe1 & H1 & -> & ->)%image_forest_Some (j & pe2 & H2 & -> & ->)%image_forest_Some Hnm.
    pose proof H1 as E1%list_elem_of_lookup_2. pose proof H2 as E2%list_elem_of_lookup_2.
    apply image_entry_spec in E1 as (_ & _ & _ & _ & _ & _ & N1), E2 as (_ & _ & _ & _ & _ & _ & N2). f_equal.
    apply (NoDup_lookup (pde_name <$> entries_at nodes n) i j (pde_name pe1)); [apply Hp|by rewrite list_lookup_fmap, H1|].
    rewrite list_lookup_fmap, H2. cbn. congruence.
  - intros n pos e (i & pe & H1%list_elem_of_lookup_2 & -> & ->)%image_forest_Some. by apply image_names.
  - intros n1 pos1 e1 n2 pos2 e2 (i & pe1 & H1 & -> & ->)%image_forest_Some (j & pe2 & H2 & -> & ->)%image_forest_Some.
    pose proof H1 as E1%list_elem_of_lookup_2. pose proof H2 as E2%list_elem_of_lookup_2.
    destruct (image_entry_spec _ _ E1) as (_ & _ & -> & _), (image_entry_spec _ _ E2) as (_ & _ & -> & _). intros Hi.
    destruct (pl_child _ Hp _ _ E1) as (_ & c1 & Hc1 & <-), (pl_child _ Hp _ _ E2) as (_ & c2 & Hc2 & Hn2).
    assert (c2 = c1) as -> by congruence. split; [done|]. rewrite <- Hn2 in H2. f_equal.
    apply (NoDup_lookup (pde_inode <$> entries_at nodes (Inode.parent_inode (pn_inode c1))) i j (pde_inode pe1));
      [apply Hp|by rewrite list_lookup_fmap, H1|rewrite list_lookup_fmap, H2; cbn; congruence].
  - intros n i (node & Hn & ->)%fmap_Some Hr _ _. destruct (pl_named _ Hp n node Hn Hr) as (pe & Hpe & <-).
    destruct (image_entry_spec _ _ Hpe) as (_ & _ & Hi & _). apply list_elem_of_lookup in Hpe as [k Hk].
    eexists _, (place k), _. split; [|exact Hi]. apply image_forest_Some. eauto.
  - apply planned_rooted.
Qed.
End planned.

(** ** Inserting a node *)

Section insert.
Context (nodes : list PendingNode) (parent : Z) (pnode : PendingNode) (es : list PendingDirectoryEntry).
Context (name : list Z) (child : PendingNode).
Context (Hpar : node_at nodes parent = Some pnode) (Hdir : pn_content pnode = PendingDirectory es).
Let c : Z := Z.of_nat (length nodes) + 1.
Let entry : PendingDirectoryEntry := {| pde_name := name; pde_inode := c |}.
Let nodes' : list PendingNode :=
  push (<[Z.to_nat (parent - 1) := {| pn_inode := pn_inode pnode; pn_content := PendingDirectory (push es entry) |}]> nodes) child.

Lemma parent_index : (Z.to_nat (parent - 1) < length nodes)%nat ∧ Z.of_nat (Z.to_nat (parent - 1)) + 1 = parent.
Proof using Hpar. pose proof (node_at_bounds _ _ _ Hpar). lia. Qed.

Lemma insert_node_at n : node_at nodes' n = if decide (n = c) then Some child else if decide (n = parent)
  then Some {| pn_inode := pn_inode pnode; pn_content := PendingDirectory (push es entry) |} else node_at nodes n.
Proof using Hpar.
  destruct parent_index as [Hlt Hp]. unfold nodes', push, node_at, c.
  destruct (decide (1 ≤ n)) as [Hn|Hn].
  2:{ rewrite !decide_False by lia. done. }
  destruct (decide (n = _)) as [->|Hc].
  { rewrite lookup_app_r; rewrite length_insert; [|lia]. by replace (Z.to_nat _ - length nodes)%nat with 0%nat by lia. }
  destruct (decide (Z.to_nat (n - 1) < length nodes)%nat) as [Hl|Hl].
  - rewrite lookup_app_l by (by rewrite length_insert). destruct (decide (n = parent)) as [->|Hne].
    + by rewrite list_lookup_insert_eq.
    + rewrite list_lookup_insert_ne by lia. done.
  - rewrite lookup_ge_None_2 by (rewrite length_app, length_insert; cbn; lia). rewrite decide_False by lia.
    symmetry. apply lookup_ge_None_2. lia.
Qed.

Lemma node_at_fresh : node_at nodes c = None.
Proof using. destruct (node_at nodes c) eqn:E; [|done]. apply node_at_bounds in E. unfold c in E. lia. Qed.

Lemma insert_table n : image_table nodes' n = if decide (n = c) then Some (pn_inode child) else image_table nodes n.
Proof using Hpar.
  unfold image_table. rewrite insert_node_at. destruct (decide (n = c)); [done|].
  destruct (decide (n = parent)) as [->|]; [by rewrite Hpar|done].
Qed.

Context (Hempty : listing child = []).

Lemma insert_entries_at n : entries_at nodes' n = if decide (n = parent) then push es entry else entries_at nodes n.
Proof using Hpar Hempty.
  unfold entries_at. rewrite insert_node_at. destruct (decide (n = c)) as [->|Hc].
  - rewrite Hempty, node_at_fresh, decide_False; [done|]. intros E. pose proof node_at_fresh as Hf. rewrite E in Hf. congruence.
  - by destruct (decide (n = parent)).
Qed.

Lemma entries_at_parent : entries_at nodes parent = es.
Proof using Hpar Hdir. unfold entries_at, listing. by rewrite Hpar, Hdir. Qed.

Lemma elem_insert n e : e ∈ entries_at nodes' n ↔ e ∈ entries_at nodes n ∨ n = parent ∧ e = entry.
Proof using Hpar Hdir Hempty.
  rewrite insert_entries_at. destruct (decide (n = parent)) as [->|]; [|naive_solver].
  rewrite entries_at_parent. unfold push. rewrite elem_of_app, list_elem_of_singleton. naive_solver.
Qed.

Context (Hp : planned nodes) (Hfresh : name ∉ pde_name <$> es).
Context (Hkind : Inode.kind (pn_inode child) =
  match pn_content child with PendingDirectory _ => NodeKind.Directory | PendingFile _ => NodeKind.Regular end).
Context (Hlinks : Inode.link_count (pn_inode child) = 1) (Hgen : Inode.generation (pn_inode child) = c).
Context (Hparent : Inode.parent_inode (pn_inode child) = parent) (Hname : bytes_ok name).
Context (Hnew : ∃ e, DirectoryEntry.new c c (Inode.kind (pn_inode child)) name = Ok e) (Hlen : c ≤ u64_max).

Lemma insert_children : c ∉ pde_inode <$> es.
Proof using Hpar Hdir Hp.
  intros (e & Hc & He)%list_elem_of_fmap. rewrite <- entries_at_parent in He.
  destruct (pl_child _ Hp _ _ He) as (_ & ch & Hch & _). rewrite <- Hc, node_at_fresh in Hch. done.
Qed.

Lemma insert_new_entry n e : e ∈ entries_at nodes n → new_entry nodes' e = new_entry nodes e.
Proof using Hpar Hp.
  intros He. unfold new_entry, kind_of. rewrite insert_table, decide_False; [done|]. intros E.
  destruct (pl_child _ Hp _ _ He) as (_ & ch & Hch & _). rewrite E, node_at_fresh in Hch. done.
Qed.

Lemma planned_insert : planned nodes'.
Proof using All.
  pose proof (node_at_bounds _ _ _ Hpar) as Hpb.
  assert (c ≠ ROOT_INODE) as Hcr by (unfold c, ROOT_INODE; lia).
  assert (∀ n node, node_at nodes' n = Some node → n = c ∧ node = child ∨ ∃ old, node_at nodes n = Some old ∧ pn_inode node = pn_inode old ∧
    Inode.kind (pn_inode node) = match pn_content node with PendingDirectory _ => NodeKind.Directory | PendingFile _ => NodeKind.Regular end) as Hold.
  { intros n node. rewrite insert_node_at. destruct (decide (n = c)) as [->|]; [intros [= <-]; by left|]. intros Hn. right.
    destruct (decide (n = parent)) as [->|].
    - injection Hn as <-. exists pnode. split_and!; [done..|]. cbn. by rewrite (pl_kind _ Hp _ _ Hpar), Hdir.
    - exists node. split_and!; [done..|]. by apply (pl_kind _ Hp n). }
  split.
  - destruct (pl_root _ Hp) as (node & Hn & Hk & Hpr). pose proof (insert_table ROOT_INODE) as HT. unfold image_table in HT.
    rewrite decide_False, Hn in HT by done. apply fmap_Some in HT as (node' & Hn' & E). exists node'. by rewrite <- E.
  - intros n node [[-> ->]|(old & _ & _ & ?)]%Hold; done.
  - intros n node [[-> ->]|(old & Ho & -> & _)]%Hold; [done|]. by apply (pl_links _ Hp n).
  - intros n node [[-> ->]|(old & Ho & -> & _)]%Hold; [done|]. by apply (pl_generation _ Hp n).
  - intros n node [[-> ->]|(old & Ho & -> & _)]%Hold; [rewrite Hparent; unfold c; lia|]. by apply (pl_parent _ Hp n).
  - intros n node [[-> ->]|(old & Ho & -> & _)]%Hold Hr.
    + exists entry. split; [|done]. apply elem_insert. by rewrite Hparent; right.
    + destruct (pl_named _ Hp n old Ho Hr) as (e & He & ?). exists e. split; [|done]. apply elem_insert. by left.
  - intros n e [He|[-> ->]]%elem_insert.
    + destruct (pl_child _ Hp n e He) as (Hr & ch & Hch & Hpc). split; [done|].
      pose proof (insert_table (pde_inode e)) as HT. unfold image_table in HT. rewrite Hch, decide_False in HT
        by (intros E; rewrite E, node_at_fresh in Hch; done). apply fmap_Some in HT as (ch' & Hch' & E).
      exists ch'. by rewrite <- E.
    + split; [done|]. exists child. rewrite insert_node_at, decide_True by done. done.
  - intros n e [He|[-> ->]]%elem_insert.
    + rewrite (insert_new_entry n e He). by apply (pl_entry _ Hp n).
    + split; [done|]. unfold new_entry, kind_of. rewrite insert_table. cbn [pde_inode entry]. by rewrite decide_True.
  - intros n. rewrite insert_entries_at. destruct (decide (n = parent)) as [->|]; [|apply Hp].
    unfold push. rewrite fmap_app. apply list.NoDup_app. split; [rewrite <- entries_at_parent; apply Hp|].
    split; [|apply NoDup_singleton]. intros x Hx ->%list_elem_of_singleton. done.
  - intros n. rewrite insert_entries_at. destruct (decide (n = parent)) as [->|]; [|apply Hp].
    unfold push. rewrite fmap_app. apply list.NoDup_app. split; [rewrite <- entries_at_parent; apply Hp|].
    split; [|apply NoDup_singleton]. intros x Hx ->%list_elem_of_singleton. by apply insert_children.
  - unfold nodes', push. rewrite length_app, length_insert. cbn. unfold c in Hlen. lia.
Qed.
End insert.

Lemma planned_root : planned [Builder.root_node].
Proof.
  assert (∀ n node, node_at [Builder.root_node] n = Some node → n = ROOT_INODE ∧ node = Builder.root_node) as Hn.
  { intros n node (k & -> & Hk)%node_at_is. destruct k as [|k]; cbn in Hk; [by simplify_eq|done]. }
  assert (∀ n, entries_at [Builder.root_node] n = []) as He.
  { intros n. unfold entries_at. destruct (node_at _ n) eqn:E; [|done]. by apply Hn in E as [-> ->]. }
  split.
  - by eexists.
  - by intros n node [-> ->]%Hn.
  - by intros n node [-> ->]%Hn.
  - by intros n node [-> ->]%Hn.
  - by intros n node [-> ->]%Hn.
  - by intros n node [-> ->]%Hn.
  - intros n e. rewrite He. by intros ?%not_elem_of_nil.
  - intros n e. rewrite He. by intros ?%not_elem_of_nil.
  - intros n. rewrite He. constructor.
  - intros n. rewrite He. constructor.
  - done.
Qed.
