(* ===== verification/ImageVolume.v ===== *)
(** * The volume of an image

    The superblock and the groups that a new image builder plans: a phase 3
    volume whose groups lie one after the other, with their metadata first. *)

From Stdlib Require Import ZArith Lia.
From stdpp Require Import base list numbers option gmap.
From S2P Require Import Prelude NullfsBytes NullfsPhase3 NullfsSuperblock NullfsRecord NullfsInode.
From S2P Require Import NullfsDirectory NullfsAllocation BlockDevice Journal JournalDisk JournalSteps.
From S2P Require Import JournalRecovery JournalProps Volume Mutation Extents VolumeReads Session.
From S2P Require Import MutationSteps Atomicity Layout Ownership Mounted ImageBuilder.

Open Scope Z_scope.

Record image_volume (sb : Superblock.t) (gs : list group) : Prop := {
  iv_typed : SuperblockCodec.typed sb;
  iv_valid : Superblock.validate sb None ReadOnly = Ok ();
  iv_phase3 : Superblock.phase3_enabled sb = true;
  iv_group_blocks : Superblock.allocation_group_blocks sb = DEFAULT_ALLOCATION_GROUP_BLOCKS;
  iv_count : Z.of_nat (length gs) = Superblock.allocation_group_count sb;
  iv_groups : ∀ k g, gs !! k = Some g → Builder.plan_group sb (Z.of_nat k) = Ok g;
}.

Lemma plan_group_spec sb k g : is_u32 k → is_u64 (Superblock.capacity_blocks sb) →
  0 < Superblock.allocation_group_blocks sb → 0 ≤ Superblock.first_allocatable_block sb → Builder.plan_group sb k = Ok g →
  AllocationGroupDescriptor.typed g ∧ AllocationGroupDescriptor.validate g sb = Ok () ∧ group_layout sb k g ∧
  AllocationGroupDescriptor.group_index g = k ∧ AllocationGroupDescriptor.inode_table_block_count g = PHASE2_INODE_TABLE_BLOCKS ∧
  g_data g < g_end g.
Proof.
  intros Hk Hc Hagb Hfirst Hplan. unfold Builder.plan_group in Hplan.
  apply bind_Ok_iff in Hplan as (start & Hs & Hplan). apply ok_or_Ok, checked_mul_Some in Hs as [-> Hmul]. cbv zeta in Hplan.
  apply bind_Ok_iff in Hplan as (stop & Hs & Hplan). apply ok_or_Ok, checked_add_Some in Hs as [-> Hstop].
  apply bind_Ok_iff in Hplan as (ib & Hs & Hplan). apply ok_or_Ok, checked_add_Some in Hs as [-> Hib].
  apply bind_Ok_iff in Hplan as (it & Hs & Hplan). apply ok_or_Ok, checked_add_Some in Hs as [-> Hit].
  apply bind_Ok_iff in Hplan as (fd & Hs & Hplan). apply ok_or_Ok, checked_add_Some in Hs as [-> Hfd].
  apply bind_unit_Ok in Hplan as [Hd%err_if_Ok_iff Hplan]. bool_simpl.
  apply bind_unit_Ok in Hplan as [Hv Hg%(inj Ok)].
  set (d := AllocationGroupDescriptor.mk _ _ _ _ _ _ _ _ _ _ _ _) in Hv, Hg.
  destruct (AllocationGroupDescriptor.validate d sb) as [[]|e|] eqn:Ev; cbn [map_err] in Hv; [|done..]. subst g.
  unfold PHASE2_INODE_TABLE_BLOCKS, is_u32, is_u64 in *.
  assert (AllocationGroupDescriptor.typed d) as Ht.
  { unfold d. split; cbn; unfold is_u32, is_u64, u32_max, u64_max, PHASE2_INODES_PER_GROUP, PHASE2_INODE_TABLE_BLOCKS in *; try nia.
    intros i. case_match; [intros [= <-]; lia|done]. }
  split; [done|]. split; [done|]. split; [|split; [done|split; [done|cbn; lia]]].
  change k with (AllocationGroupDescriptor.group_index d). apply validate_layout; [done|lia|done|unfold d; cbn; lia..].
Qed.

Lemma plan_groups_spec sb n k0 gs : Builder.plan_groups sb n k0 = Ok gs →
  length gs = n ∧ ∀ k g, gs !! k = Some g → Builder.plan_group sb (k0 + Z.of_nat k) = Ok g.
Proof.
  revert k0 gs. induction n as [|n IH]; intros k0 gs H; cbn in H.
  - injection H as <-. split; [done|]. intros k g. by rewrite lookup_nil.
  - apply bind_Ok_iff in H as (g0 & Hg0 & H). apply bind_Ok_iff in H as (gs' & Hgs & H). injection H as <-.
    apply IH in Hgs as [Hl Hgs]. split; [cbn; by rewrite Hl|]. intros [|k] g; cbn [lookup list_lookup].
    + intros [= <-]. by rewrite Z.add_0_r.
    + intros Hk. rewrite <- (Hgs k g Hk). f_equal. lia.
Qed.

Section volume.
Context (sb : Superblock.t) (gs : list group) (Hiv : image_volume sb gs).

Lemma iv_geometry : SuperblockCodec.geometry sb.
Proof using Hiv. eapply SuperblockCodec.validate_geometry; [apply Hiv|apply Hiv]. Qed.

Lemma iv_capacity : is_u64 (Superblock.capacity_blocks sb).
Proof using Hiv. apply Hiv. Qed.

Lemma iv_descriptors : Superblock.first_descriptor_block sb = FIRST_DESCRIPTOR_BLOCK ∧
  Superblock.descriptor_reservation_blocks sb = 1 ∧ Superblock.allocation_group_count sb ≤ 42 ∧
  Superblock.phase2_enabled sb = true.
Proof using Hiv.
  pose proof (iv_valid _ _ Hiv) as Hv. pose proof (iv_phase3 _ _ Hiv) as H3.
  assert (Superblock.phase2_enabled sb = true) as H2.
  { unfold Superblock.validate in Hv. apply bind_unit_Ok in Hv as [Hv _]. unfold Superblock.validate_header in Hv.
    repeat match goal with H : _ ≫= _ = Ok _ |- _ => apply bind_Ok_iff in H as (? & ? & H) end.
    repeat match goal with H : err_if _ _ = Ok _ |- _ => apply err_if_Ok in H end.
    unfold Superblock.phase3_enabled in H3. apply andb_true_iff in H3 as [Hm%Z.eqb_eq _].
    rewrite Hm in *. cbn in *. destruct (Superblock.phase2_enabled sb); done. }
  unfold Superblock.validate in Hv. rewrite H2, H3 in Hv.
  apply bind_unit_Ok in Hv as [_ Hv]. apply bind_unit_Ok in Hv as [Hcap Hv]. apply bind_unit_Ok in Hv as [Hf%err_if_Ok_iff Hv].
  apply bind_Ok_iff in Hv as (stop & _ & Hv). apply bind_Ok_iff in Hv as (x & Hg & _). apply bind_unit_Ok in Hg as [Hg%err_if_Ok_iff _].
  unfold Superblock.phase3_geometry_wrong in Hg. rewrite !orb_false_iff, !negb_false_iff in Hg. destruct_and!. bool_simpl.
  apply bind_Ok_iff in Hcap as (c & Hc & Hcap%err_if_Ok). bool_simpl.
  match goal with H : Superblock.descriptor_reservation_blocks sb = _ |- _ => rewrite H in *; rename H into Hres end.
  cbv zeta in Hc. injection Hc as <-. split; [done|]. split; [done|]. split; [|done].
  change (DEFAULT_DESCRIPTOR_RESERVATION_BLOCKS * ALLOCATION_GROUP_DESCRIPTORS_PER_BLOCK) with 42 in Hcap. lia.
Qed.

Lemma group_spec k g : gs !! k = Some g →
  AllocationGroupDescriptor.typed g ∧ AllocationGroupDescriptor.validate g sb = Ok () ∧ group_layout sb (Z.of_nat k) g ∧
  AllocationGroupDescriptor.group_index g = Z.of_nat k ∧ AllocationGroupDescriptor.inode_table_block_count g = PHASE2_INODE_TABLE_BLOCKS ∧
  g_data g < g_end g.
Proof using Hiv.
  intros Hg. pose proof Hg as Hl%lookup_lt_Some. destruct iv_descriptors as (_ & _ & Hn & _). pose proof (iv_count _ _ Hiv).
  apply plan_group_spec; [unfold is_u32, u32_max; lia|apply iv_capacity| | |by apply (iv_groups _ _ Hiv)].
  - by rewrite (iv_group_blocks _ _ Hiv).
  - rewrite (SuperblockCodec.geo_first _ iv_geometry). done.
Qed.

Lemma iv_volume : volume sb gs.
Proof using Hiv.
  destruct iv_descriptors as (_ & _ & Hn & _). pose proof (iv_count _ _ Hiv).
  split; [apply iv_geometry|apply iv_capacity|apply Hiv| |by intros k g (_ & _ & ? & _)%group_spec|unfold u32_max; lia].
  by rewrite (iv_group_blocks _ _ Hiv).
Qed.
End volume.
