(* ===== verification/ImageWrites.v ===== *)
(** * Writing blocks of an image

    What a builder has written to its device, block by block; loops of writes to
    different places; and the blocks that allocation hands out. *)

From Stdlib Require Import ZArith Lia.
From stdpp Require Import base list numbers option gmap.
From S2P Require Import Prelude NullfsBytes NullfsPhase3 NullfsSuperblock NullfsRecord NullfsInode.
From S2P Require Import NullfsDirectory NullfsAllocation BlockDevice Journal JournalDisk JournalSteps.
From S2P Require Import JournalRecovery JournalProps Volume Mutation Extents VolumeReads Session.
From S2P Require Import MutationSteps Atomicity Layout Ownership Mounted ImageBuilder.

Open Scope Z_scope.

Section writes.
Context {D : Type} {HD : BlockDevice D} {torn : list Z → Prop} {HC : CrashSafe D torn}.
Notation builder := (ImageBuilder D).
Notation Op := (M builder BuildError.t).

(** Reads of the device return [v]. *)
Definition shows (b : builder) (v : disk) : Prop := bd_ok (ib_device b) ∧ ∀ c, bd_now (ib_device b) c = v c.

(** Only the device has changed, and it shows [v]. *)
Definition written (b : builder) (v : disk) (b' : builder) : Prop := ∃ d, b' = Builder.set_device d b ∧ shows b' v.

Lemma written_refl b v : shows b v → written b v b.
Proof. intros Hs. exists (ib_device b). split; [by destruct b|done]. Qed.

Lemma written_trans b v b1 v2 b2 : written b v b1 → written b1 v2 b2 → written b v2 b2.
Proof. intros (d & -> & _) (d2 & -> & Hs). by exists d2. Qed.

Lemma written_shows b v b' : written b v b' → shows b' v.
Proof. by intros (d & _ & Hs). Qed.

Lemma written_ext b v v' b' : (∀ c, v' c = v c) → written b v b' → written b v' b'.
Proof. intros Hv (d & -> & Hok & Hs). exists d. split; [done|]. split; [done|]. intros c. by rewrite Hs, Hv. Qed.

(** An error leaves nothing to say. *)
Definition any_error : BuildError.t → builder → Prop := λ _ _, True.

Lemma write_block_spec b v p x : shows b v → 0 ≤ p → is_block x → bytes_ok x →
  wp (Builder.on_device (write_blocks p x)) (λ _ b', written b (upd v p x) b') any_error b.
Proof.
  intros [Hok Hs] Hp Hx Hb. apply wp_zoom. eapply wp_mono; [by apply (bd_write (ib_device b) p x)|cbv beta|done].
  intros _ d' (Hok' & Hnow & _). exists d'. split; [done|]. split; [done|]. intros c. cbn. rewrite Hnow, Hs. done.
Qed.

(** A loop whose steps write to places of their own. *)
Lemma region_loop {A} (l : list A) (R : A → Z → Prop) (P : A → disk → Prop) (c : A → Op unit) b v :
  NoDup l → (∀ a a' x, a ∈ l → a' ∈ l → R a x → R a' x → a = a') →
  (∀ a v v', (∀ x, R a x → v' x = v x) → P a v → P a v') →
  (∀ a b1 v1, a ∈ l → written b v1 b1 → wp (c a) (λ _ b2, ∃ v2, written b1 v2 b2 ∧ P a v2 ∧ ∀ x, ¬ R a x → v2 x = v1 x) any_error b1) →
  shows b v →
  wp (for_each l c) (λ _ b', ∃ v', written b v' b' ∧ (∀ a, a ∈ l → P a v') ∧ (∀ x, (∀ a, a ∈ l → ¬ R a x) → v' x = v x)) any_error b.
Proof.
  intros Hnd Hdis HP Hstep Hs.
  apply (wp_for_each l c (λ prior b', ∃ v', written b v' b' ∧ (∀ a, a ∈ prior → P a v') ∧
    (∀ x, (∀ a, a ∈ prior → ¬ R a x) → v' x = v x))); [| |done].
  - exists v. split; [by apply written_refl|]. split; [by intros a ?%not_elem_of_nil|done].
  - intros prior a b1 [rest Hl] (v1 & Hw & Hdone & Hother).
    assert (a ∈ l ∧ a ∉ prior ∧ (∀ a', a' ∈ prior → a' ∈ l)) as (Ha & Hnew & Hsub).
    { rewrite Hl in Hnd |- *. apply list.NoDup_app in Hnd as (Hnd & _ & _). apply list.NoDup_app in Hnd as (_ & Hd & _).
      split; [set_solver|]. split; [intros Hin; apply (Hd a Hin); set_solver|set_solver]. }
    eapply wp_mono; [by apply Hstep|cbv beta|done]. intros _ b2 (v2 & Hw2 & Hp2 & Ho2). exists v2.
    split; [by eapply written_trans|]. split.
    + intros a' [Hin| ->%list_elem_of_singleton]%elem_of_app; [|done]. eapply HP; [|by apply Hdone]. intros x Hx.
      apply Ho2. intros Hx'. assert (a = a') as -> by (eapply Hdis; [done|by apply Hsub|done..]). done.
    + intros x Hx. rewrite Ho2, Hother; [done|intros a' ?; apply Hx|apply Hx]; set_solver.
Qed.

(** The same for single blocks. *)
Lemma block_loop {A} (l : list A) (f : A → Z) (P : A → list Z → Prop) (c : A → Op unit) b v :
  NoDup l → (∀ a a', a ∈ l → a' ∈ l → f a = f a' → a = a') →
  (∀ a b1 v1, a ∈ l → written b v1 b1 → wp (c a) (λ _ b2, ∃ x, P a x ∧ written b1 (upd v1 (f a) x) b2) any_error b1) →
  shows b v →
  wp (for_each l c) (λ _ b', ∃ v', written b v' b' ∧ (∀ a, a ∈ l → P a (v' (f a))) ∧ (∀ x, x ∉ f <$> l → v' x = v x)) any_error b.
Proof.
  intros Hnd Hinj Hstep Hs. eapply wp_mono; [apply (region_loop l (λ a x, x = f a) (λ a v, P a (v (f a))) c b v)|cbv beta|done]; try done.
  - intros a a' x Ha Ha' -> E. by apply Hinj.
  - intros a v1 v2 Hv. by rewrite Hv.
  - intros a b1 v1 Ha Hw. eapply wp_mono; [by apply Hstep|cbv beta|done]. intros _ b2 (x & Hx & Hw2).
    exists (upd v1 (f a) x). split; [done|]. unfold upd. rewrite decide_True by done. split; [done|].
    intros y Hy. by rewrite decide_False.
  - intros _ b' (v' & Hw & Hp & Ho). exists v'. split; [done|]. split; [done|]. intros x Hx. apply Ho.
    intros a Ha ->. by apply Hx, list_elem_of_fmap_2.
Qed.

(** ** Allocated blocks *)

Context (gs : list group).

(** The blocks before the next free block of their group. *)
Definition used (next : list Z) (p : Z) : Prop := ∃ k g stop, gs !! k = Some g ∧ next !! k = Some stop ∧ g_data g ≤ p < stop.

(** The used blocks are those of the table, each in one place. *)
Record laid (T : table) (next : list Z) : Prop := {
  la_length : length next = length gs;
  la_next : ∀ k g stop, gs !! k = Some g → next !! k = Some stop → g_data g ≤ stop ≤ g_end g;
  la_owned : ∀ p, used next p ↔ owned T p;
  la_once : ∀ n1 l1 n2 l2 p, maps T n1 l1 p → maps T n2 l2 p → n1 = n2 ∧ l1 = l2;
}.

Lemma maps_ext T T' : (∀ n, T' n = T n) → ∀ n l p, maps T' n l p ↔ maps T n l p.
Proof. intros HT n l p. unfold maps. by rewrite HT. Qed.

Lemma laid_ext T T' next : (∀ n, T' n = T n) → laid T next → laid T' next.
Proof.
  intros HT [Hl Hn Ho Hu]. pose proof (maps_ext T T' HT) as Hm. split; [done..| |].
  - intros p. rewrite Ho. unfold owned. by setoid_rewrite Hm.
  - intros n1 l1 n2 l2 p. rewrite !Hm. apply Hu.
Qed.

Lemma used_data T next p : laid T next → used next p → data_block gs p.
Proof. intros Hl (k & g & stop & Hk & Hn & Hp). exists k, g. split; [done|]. pose proof (la_next _ _ Hl k g stop Hk Hn). lia. Qed.

Lemma fitting_group_spec count next index groups : (∀ j g, groups !! j = Some g → is_Some (next !! (index + j)%nat)) →
  wpo (Builder.fitting_group count index groups next)
    (λ r, ∃ j g, r = ((index + j)%nat, default 0 (next !! (index + j)%nat), default 0 (next !! (index + j)%nat) + count) ∧
       groups !! j = Some g ∧ default 0 (next !! (index + j)%nat) + count ≤ g_end g) (λ _, True).
Proof.
  revert index. induction groups as [|g groups IH]; intros index Hn; cbn [Builder.fitting_group]; [done|].
  destruct (Hn 0%nat g eq_refl) as [start Hs]. rewrite Nat.add_0_r in Hs. rewrite Hs. cbn [expect]. wp_step. cbn [wpo].
  wp_step. wp_step; [|done]. match goal with H : checked_add _ _ _ = Some _ |- _ => apply checked_add_Some in H as [-> _] end.
  destruct (_ <=? _) eqn:E; bool_simpl.
  - wp_step. exists 0%nat, g. rewrite Nat.add_0_r, Hs. done.
  - eapply wpo_mono; [apply IH| |done].
    + intros j g' Hj. destruct (Hn (S j) g' Hj) as [x Hx]. exists x. by rewrite <- Nat.add_succ_comm in Hx.
    + cbv beta. intros r (j & g' & -> & Hj & Hle). exists (S j), g'. rewrite <- Nat.add_succ_comm. done.
Qed.

Lemma allocate_blocks_spec b T count : ib_groups b = gs → laid T (ib_next_data_block b) →
  wp (Builder.allocate_blocks count)
    (λ start b', count ≠ 0 ∧ ∃ k g, gs !! k = Some g ∧ ib_next_data_block b !! k = Some start ∧ start + count ≤ g_end g ∧
       b' = Builder.set_next_data_block (<[k := start + count]> (ib_next_data_block b)) b) any_error b.
Proof.
  intros Hgs Hl. unfold Builder.allocate_blocks. wp_steps; bool_simpl; [done|]. eapply wpo_mono; [apply fitting_group_spec| |done].
  { intros j g Hj%lookup_lt_Some. apply lookup_lt_is_Some. rewrite (la_length _ _ Hl), <- Hgs. done. }
  cbv beta. intros r (j & g & -> & Hj & Hle). cbn [plus] in *. rewrite Hgs in Hj. wp_steps.
  assert (is_Some (ib_next_data_block b !! j)) as [start Hs].
  { apply lookup_lt_is_Some. rewrite (la_length _ _ Hl). by eapply lookup_lt_Some. }
  rewrite Hs in *. cbn [default] in *. split; [done|]. by exists j, g.
Qed.

Definition data_apart : Prop := ∀ k1 k2 g1 g2 p, gs !! k1 = Some g1 → gs !! k2 = Some g2 →
  g_data g1 ≤ p < g_end g1 → g_data g2 ≤ p < g_end g2 → k1 = k2.

Lemma fresh_unused T next k g start p : data_apart → laid T next → gs !! k = Some g → next !! k = Some start →
  start ≤ p < g_end g → ¬ used next p.
Proof.
  intros Hdis Hl Hk Hn Hp (k' & g' & stop & Hk' & Hs & Hp'). pose proof (la_next _ _ Hl k' g' stop Hk' Hs).
  pose proof (la_next _ _ Hl k g start Hk Hn). assert (k' = k) as -> by (eapply (Hdis k' k g' g p); done || lia). simplify_eq. lia.
Qed.

(** Blocks handed out and added to an inode. *)
Lemma laid_extend T next k g start count n i i' lo : gs !! k = Some g → next !! k = Some start → 0 < count →
  start + count ≤ g_end g → laid T next → data_apart → T n = Some i →
  (∀ l, mapped (Inode.used_extents i') l =
     if decide (lo ≤ l < lo + count) then Some (start + (l - lo)) else mapped (Inode.used_extents i) l) →
  (∀ l, lo ≤ l < lo + count → mapped (Inode.used_extents i) l = None) →
  laid (tset T n (Some i')) (<[k := start + count]> next).
Proof.
  intros Hk Hn Hc Hend Hl Hdis Hi Hmap Hnone.
  assert (∀ p, start ≤ p < start + count → ¬ used next p) as Hfresh.
  { intros p Hp. eapply fresh_unused; [done..|lia]. }
  destruct Hl as [Hlen Hnext Hown Honce].
  pose proof (Hnext k g start Hk Hn) as Hstart.
  assert (∀ p, used (<[k := start + count]> next) p ↔ used next p ∨ start ≤ p < start + count) as Hused.
  { intros p. unfold used. split.
    - intros (k' & g' & stop & Hk' & Hs & Hp). destruct (decide (k' = k)) as [->|Hne].
      + rewrite list_lookup_insert_eq in Hs by (by eapply lookup_lt_Some). injection Hs as <-. simplify_eq.
        destruct (decide (p < start)); [left; exists k, g, start; split_and!; done || lia|right; lia].
      + rewrite list_lookup_insert_ne in Hs by done. left. by exists k', g', stop.
    - intros [(k' & g' & stop & Hk' & Hs & Hp)|Hp].
      + destruct (decide (k' = k)) as [->|Hne]; [|exists k', g', stop; by rewrite list_lookup_insert_ne].
        exists k, g', (start + count). rewrite list_lookup_insert_eq by (by eapply lookup_lt_Some). simplify_eq. split_and!; done || lia.
      + exists k, g, (start + count). rewrite list_lookup_insert_eq by (by eapply lookup_lt_Some). split_and!; done || lia. }
  assert (∀ n' l p, maps (tset T n (Some i')) n' l p ↔ maps T n' l p ∨ n' = n ∧ lo ≤ l < lo + count ∧ p = start + (l - lo)) as Hmaps.
  { intros n' l p. rewrite maps_set. destruct (decide (n' = n)) as [->|Hne]; [|naive_solver]. rewrite Hmap.
    assert (maps T n l p ↔ mapped (Inode.used_extents i) l = Some p) as -> by (unfold maps; naive_solver).
    destruct (decide _) as [Hr|Hr]; [rewrite (Hnone l Hr)|]; naive_solver. }
  split.
  - by rewrite length_insert.
  - intros k' g' stop Hk' Hs. destruct (decide (k' = k)) as [->|Hne].
    + rewrite list_lookup_insert_eq in Hs by (by eapply lookup_lt_Some). simplify_eq. lia.
    + rewrite list_lookup_insert_ne in Hs by done. by eapply Hnext.
  - intros p. rewrite Hused, Hown. unfold owned. setoid_rewrite Hmaps. split.
    + intros [(n' & l & H)|Hp]; [by exists n', l; left|]. exists n, (lo + (p - start)). right. split_and!; lia || done.
    + intros (n' & l & [H|(-> & ? & ->)]); [by left; exists n', l|right; lia].
  - intros n1 l1 n2 l2 p [H1|(-> & Hl1 & ->)]%Hmaps [H2|(-> & Hl2 & E)]%Hmaps.
    + by eapply Honce.
    + exfalso. apply (Hfresh p); [lia|]. apply Hown. by exists n1, l1.
    + exfalso. apply (Hfresh (start + (l1 - lo))); [lia|]. apply Hown. by exists n2, l2.
    + split; [done|lia].
Qed.
End writes.
