(* ===== verification/ImageContents.v ===== *)
(** * Contents of an image

    Allocating the contents of the pending nodes: the files get blocks that hold
    their segments, the directories blocks that list their entries, and no block
    is used twice. *)

From Stdlib Require Import ZArith Lia.
From stdpp Require Import base list numbers option gmap.
From S2P Require Import Prelude NullfsBytes NullfsPhase3 NullfsSuperblock NullfsRecord NullfsInode.
From S2P Require Import NullfsDirectory NullfsAllocation BlockDevice Journal JournalDisk JournalSteps.
From S2P Require Import JournalRecovery JournalProps Volume Mutation Extents VolumeReads Session.
From S2P Require Import MutationSteps Atomicity Layout Ownership Mounted FileWrite Namespace DirectoryViews.
From S2P Require Import ImageBuilder ImagePlan ImageVolume ImageWrites.

Open Scope Z_scope.

(** ** Segments *)

(** The byte of a file at an offset; holes read as zero. *)
Fixpoint segment_byte (segments : list (Z * list Z)) (k : Z) : Z :=
  match segments with
  | [] => 0
  | (offset, bytes) :: segments =>
      if decide (offset ≤ k < offset + Z.of_nat (length bytes)) then default 0 (bytes !! Z.to_nat (k - offset))
      else segment_byte segments k
  end.

Definition segment_end (s : Z * list Z) : Z := s.1 + Z.of_nat (length s.2).

Lemma segment_byte_snoc segs offset bytes k : (∀ s, s ∈ segs → segment_end s ≤ offset) →
  segment_byte (segs ++ [(offset, bytes)]) k =
  if decide (offset ≤ k < offset + Z.of_nat (length bytes)) then default 0 (bytes !! Z.to_nat (k - offset))
  else segment_byte segs k.
Proof.
  intros Hs. induction segs as [|[o x] segs IH]; cbn [app segment_byte]; [done|].
  rewrite IH by (intros s ?; apply Hs; by right). pose proof (Hs (o, x) ltac:(by left)) as Hx. unfold segment_end in Hx. cbn in Hx.
  destruct (decide (o ≤ k < _)); [|done]. by rewrite decide_False by lia.
Qed.

Lemma check_segments_spec size first prev segs : Builder.check_segments size first prev segs = Ok () →
  ∀ prior offset bytes rest, segs = prior ++ (offset, bytes) :: rest →
  offset mod 4096 = 0 ∧ bytes ≠ [] ∧ offset + Z.of_nat (length bytes) ≤ size ∧ (first = false → prev ≤ offset) ∧
  ∀ s, s ∈ prior → segment_end s ≤ offset.
Proof.
  revert first prev. induction segs as [|[o x] segs IH]; intros first prev H prior offset bytes rest E; [by destruct prior|].
  cbn [Builder.check_segments] in H. apply bind_Ok_iff in H as (stop & Hs & H). apply ok_or_Ok, checked_add_Some in Hs as [-> _].
  apply bind_unit_Ok in H as [Hc%err_if_Ok_iff H]. rewrite !orb_false_iff in Hc. destruct Hc as [[[H1 H2] H3] H4].
  apply negb_false_iff, Z.eqb_eq in H1. apply Nat.eqb_neq in H2. apply Z.ltb_ge in H3. change BLOCK_SIZE_U64 with 4096 in H1.
  assert (first = false → prev ≤ o) as H5 by (intros ->; cbn in H4; by apply Z.ltb_ge in H4).
  destruct prior as [|s prior]; cbn [app] in E; injection E as <- ->.
  - split_and!; [done|by intros ->|done|done|by intros s ?%not_elem_of_nil].
  - destruct (IH _ _ H prior offset bytes rest eq_refl) as (? & ? & ? & Hp & Hrest). specialize (Hp eq_refl).
    split_and!; [done..|intros Hf; specialize (H5 Hf); lia|]. intros s [->|Hs]%elem_of_cons; [done|by apply Hrest].
Qed.

Lemma segment_byte_beyond segs k : (∀ s, s ∈ segs → segment_end s ≤ k) → segment_byte segs k = 0.
Proof.
  intros Hs. induction segs as [|[o x] segs IH]; cbn [segment_byte]; [done|].
  pose proof (Hs (o, x) ltac:(by left)) as Hx. unfold segment_end in Hx. cbn in Hx. rewrite decide_False by lia.
  apply IH. intros s ?. apply Hs. by right.
Qed.

(** ** Chunks *)

Lemma padded_chunks_lookup n bytes j : (length bytes ≤ n)%nat →
  Builder.padded_chunks n bytes !! j = if decide (j * BLOCK_SIZE < length bytes)%nat
    then Some (put_bytes (zeros BLOCK_SIZE) 0 (take BLOCK_SIZE (drop (j * BLOCK_SIZE) bytes))) else None.
Proof.
  pose proof BLOCK_SIZE_Z. revert bytes j. induction n as [|n IH]; intros bytes j Hl.
  { destruct bytes; [|cbn in Hl; lia]. cbn. rewrite decide_False by lia. done. }
  destruct bytes as [|x bytes]; cbn [Builder.padded_chunks]; [cbn; by rewrite decide_False by lia|].
  rewrite lookup_cons. destruct j as [|j]; [rewrite decide_True by (cbn; lia); done|].
  rewrite IH by (rewrite length_drop; cbn in *; lia). rewrite length_drop, drop_drop.
  replace (BLOCK_SIZE + j * BLOCK_SIZE)%nat with (S j * BLOCK_SIZE)%nat by lia.
  destruct (decide (j * BLOCK_SIZE < _)%nat); [rewrite decide_True by lia|rewrite decide_False by lia]; done.
Qed.

Lemma length_padded_chunks n bytes : (length bytes ≤ n)%nat →
  Z.of_nat (length (Builder.padded_chunks n bytes)) = Builder.ceil_blocks (Z.of_nat (length bytes)).
Proof.
  intros Hl. pose proof BLOCK_SIZE_Z as HB. set (len := length (Builder.padded_chunks n bytes)).
  assert (∀ j, (j < len)%nat ↔ (j * BLOCK_SIZE < length bytes)%nat) as Hj.
  { intros j. unfold len. rewrite <- lookup_lt_is_Some, padded_chunks_lookup by done. destruct (decide _); [done|].
    split; [by intros []|done]. }
  unfold Builder.ceil_blocks. change BLOCK_SIZE_U64 with 4096.
  apply (Z.div_unique _ _ _ (Z.of_nat (length bytes) + 4095 - 4096 * Z.of_nat len)); [|lia]. left.
  pose proof (proj2 (Hj len)). destruct len as [|m]; [specialize (Hj 0%nat); lia|].
  pose proof (proj1 (Hj m)). lia.
Qed.

Lemma padded_chunk_ok bytes : bytes_ok bytes → is_block (put_bytes (zeros BLOCK_SIZE) 0 (take BLOCK_SIZE bytes)) ∧
  bytes_ok (put_bytes (zeros BLOCK_SIZE) 0 (take BLOCK_SIZE bytes)).
Proof.
  intros Hb. assert (length (take BLOCK_SIZE bytes) ≤ BLOCK_SIZE)%nat by (rewrite length_take; lia).
  split; [unfold is_block; rewrite length_put_bytes; rewrite length_zeros; done || lia|].
  apply put_bytes_ok; [apply zeros_ok|by apply Forall_take].
Qed.

Lemma padded_chunk_byte bytes r : (r < BLOCK_SIZE)%nat →
  default 0 (put_bytes (zeros BLOCK_SIZE) 0 (take BLOCK_SIZE bytes) !! r) = default 0 (bytes !! r).
Proof.
  intros Hr. rewrite lookup_put_bytes by (rewrite length_take, length_zeros; lia). rewrite length_take.
  destruct (decide (r < length bytes)%nat) as [Hl|Hl].
  - rewrite decide_True by lia. by rewrite Nat.sub_0_r, lookup_take_lt.
  - rewrite decide_False by lia. rewrite (lookup_ge_None_2 bytes) by lia.
    by rewrite lookup_zeros.
Qed.

Section contents.
Context {D : Type} {HD : BlockDevice D} {torn : list Z → Prop} {HC : CrashSafe D torn}.
Notation builder := (ImageBuilder D).
Notation Op := (M builder BuildError.t).

Lemma write_all_spec (b : builder) v physical blocks : shows b v → 0 ≤ physical →
  Forall (λ x, is_block x ∧ bytes_ok x) blocks →
  wp (Builder.write_all physical blocks)
    (λ _ b', ∃ v', written b v' b' ∧ (∀ j x, blocks !! j = Some x → v' (physical + Z.of_nat j) = x) ∧
       ∀ p, ¬ physical ≤ p < physical + Z.of_nat (length blocks) → v' p = v p) any_error b.
Proof.
  intros Hs Hp Hok. unfold Builder.write_all. set (l := zip _ _).
  assert (∀ i x, (i, x) ∈ l ↔ ∃ j, i = Z.of_nat j ∧ blocks !! j = Some x) as Hl.
  { intros i x. unfold l. rewrite list_elem_of_lookup. setoid_rewrite lookup_zip_Some. split.
    - intros (j & Hi & Hx). apply lookup_seqZ in Hi as [-> _]. by exists j.
    - intros (j & -> & Hx). exists j. split; [|done]. apply lookup_seqZ. split; [lia|]. apply lookup_lt_Some in Hx. lia. }
  eapply wp_mono; [apply (block_loop l (λ p, physical + p.1) (λ p x, x = p.2))|cbv beta|done]; [| | |exact Hs|].
  - apply NoDup_fmap_1 with fst. unfold l. rewrite fst_zip by (rewrite length_seqZ; lia). apply NoDup_seqZ.
  - intros [i x] [i' x'] (j & -> & Hx)%Hl (j' & -> & Hx')%Hl E. cbn in E. assert (j' = j) as -> by lia. congruence.
  - intros [i x] b1 v1 (j & -> & Hx)%Hl Hw. cbn [fst snd]. apply list_elem_of_lookup_2 in Hx.
    rewrite list.Forall_forall in Hok. destruct (Hok x Hx). eapply wp_mono; [apply (write_block_spec b1 v1)|cbv beta|done].
    + by eapply written_shows.
    + lia.
    + done.
    + done.
    + intros _ b2 Hw2. by exists x.
  - intros _ b' (v' & Hw & Hx & Ho). exists v'. split; [done|]. split.
    + intros j x Hj. apply (Hx (Z.of_nat j, x)). apply Hl. by exists j.
    + intros p Hr. apply Ho. intros ([i x] & -> & (j & -> & Hj%lookup_lt_Some)%Hl)%list_elem_of_fmap. cbn in Hr. lia.
Qed.

Context (gs : list group).
Notation laid := (laid gs).
Notation used := (used gs).
Context (Hapart : data_apart gs).
Context (Hdata : ∀ k g, gs !! k = Some g → 0 ≤ g_data g ∧ g_end g ≤ u64_max).

(** A file with the extents [es]. *)
Definition file_inode (es : list Extent.t) (alloc : Z) (i : Inode.t) : Inode.t :=
  Builder.set_allocation (Z.of_nat (length es)) alloc (Builder.set_extents (array es) i).

Lemma file_inode_extents es alloc i : Inode.used_extents (file_inode es alloc i) = es.
Proof using. unfold Inode.used_extents, file_inode, array. cbn. rewrite Nat2Z.id. apply take_app_length. Qed.

(** The state while the segments of the file at index [k] are written. *)
Record filling (b0 : builder) (v0 : disk) (k : nat) (i : Inode.t) (content : PendingContent) (b : builder) (v : disk)
    (prior : list (Z * list Z)) (es : list Extent.t) (alloc : Z) : Prop := {
  fi_nodes : ib_nodes b = <[k := {| pn_inode := Builder.set_extents (array es) i; pn_content := content |}]> (ib_nodes b0);
  fi_same : ib_superblock b = ib_superblock b0 ∧ ib_groups b = ib_groups b0;
  fi_shows : shows b v;
  fi_kept : ∀ p, used (ib_next_data_block b0) p → v p = v0 p;
  fi_count : length es = length prior;
  fi_typed : Forall Extent.typed es;
  fi_alloc : is_u64 alloc;
  fi_laid : laid (tset (image_table (ib_nodes b0)) (Z.of_nat k + 1) (Some (file_inode es alloc i))) (ib_next_data_block b);
  fi_bytes : ∀ x, 0 ≤ x → file_byte v (file_inode es alloc i) x = segment_byte prior x;
  fi_ends : ∀ l p, mapped es l = Some p → ∃ s, s ∈ prior ∧ l * 4096 < segment_end s;
}.

Lemma ceil_blocks_bound n : 0 < n → 0 < Builder.ceil_blocks n ∧ (Builder.ceil_blocks n - 1) * 4096 < n ≤ Builder.ceil_blocks n * 4096.
Proof using.
  intros Hn. unfold Builder.ceil_blocks. change BLOCK_SIZE_U64 with 4096.
  pose proof (Z.div_mod (n + (4096 - 1)) 4096 ltac:(lia)). pose proof (Z.mod_pos_bound (n + (4096 - 1)) 4096 ltac:(lia)).
  assert (0 < (n + (4096 - 1)) / 4096) by (apply Z.div_str_pos; lia). lia.
Qed.

(** The extent of a segment. *)
Definition segment_extent (offset start count : Z) : Extent.t := Extent.mk (offset / 4096) start count 0.

Lemma mapped_snoc es lo start count l : (∀ l, lo ≤ l < lo + count → mapped es l = None) →
  mapped (es ++ [Extent.mk lo start count 0]) l = if decide (lo ≤ l < lo + count) then Some (start + (l - lo)) else mapped es l.
Proof using.
  intros Hn. rewrite mapped_app. cbn [mapped Extent.logical_first_block Extent.physical_first_block Extent.length_blocks].
  destruct (decide _) as [Hr|Hr]; [by rewrite (Hn l Hr)|]. by destruct (mapped es l).
Qed.

Section segment.
Context (prior : list (Z * list Z)) (offset : Z) (bytes : list Z) (es : list Extent.t) (start : Z).
Context (Hmod : offset mod 4096 = 0) (Hoff : 0 ≤ offset) (Hlen : bytes ≠ []) (Hends : ∀ s, s ∈ prior → segment_end s ≤ offset).
Context (Hes : ∀ l p, mapped es l = Some p → ∃ s, s ∈ prior ∧ l * 4096 < segment_end s).
Notation count := (Builder.ceil_blocks (Z.of_nat (length bytes))).
Notation lo := (offset / 4096).

Lemma segment_positive : 0 < Z.of_nat (length bytes) ∧ offset = lo * 4096.
Proof using Hlen Hmod. pose proof (Z.div_mod offset 4096). destruct bytes; [done|]. cbn. lia. Qed.

Lemma segment_unmapped l : lo ≤ l < lo + count → mapped es l = None.
Proof using Hmod Hends Hes Hlen.
  intros Hl. destruct (mapped es l) as [p|] eqn:E; [|done]. apply Hes in E as (s & Hs & Hlt). apply Hends in Hs.
  pose proof segment_positive. lia.
Qed.

Lemma segment_file_byte v v' i alloc alloc' : (∀ l p, mapped es l = Some p → v' p = v p) →
  (∀ j x, Builder.padded_chunks (length bytes) bytes !! j = Some x → v' (start + Z.of_nat j) = x) →
  (∀ x, 0 ≤ x → file_byte v (file_inode es alloc i) x = segment_byte prior x) → ∀ x, 0 ≤ x →
  file_byte v' (file_inode (es ++ [segment_extent offset start count]) alloc' i) x = segment_byte (prior ++ [(offset, bytes)]) x.
Proof using All.
  intros Hold Hnew Hprior x Hx. destruct segment_positive as [Hpos Hlo]. destruct (ceil_blocks_bound _ Hpos) as (Hc & Hc1 & Hc2).
  pose proof (Z.div_mod x 4096 ltac:(lia)) as Hdx. pose proof (Z.mod_pos_bound x 4096 ltac:(lia)) as Hmx. pose proof BLOCK_SIZE_Z as HB.
  specialize (Hprior x Hx). unfold file_byte in *. rewrite file_inode_extents in *. unfold segment_extent.
  rewrite mapped_snoc by apply segment_unmapped. rewrite segment_byte_snoc by done. destruct (decide (lo ≤ x / 4096 < lo + count)) as [Hr|Hr].
  - set (j := Z.to_nat (x / 4096 - lo)). assert (Z.of_nat j = x / 4096 - lo) as Hj by lia.
    rewrite <- Hj. erewrite (Hnew j); [|by rewrite padded_chunks_lookup, decide_True by lia].
    rewrite padded_chunk_byte, lookup_drop by lia. destruct (decide (offset ≤ x < _)) as [Hin|Hin].
    + do 2 f_equal. lia.
    + rewrite lookup_ge_None_2 by lia. rewrite segment_byte_beyond; [done|]. intros s Hs. apply Hends in Hs. lia.
  - rewrite decide_False by lia. rewrite <- Hprior. destruct (mapped es (x / 4096)) as [p|] eqn:E; [|done]. by rewrite (Hold _ p E).
Qed.
End segment.

Section file.
Context (b0 : builder) (v0 : disk) (k : nat) (i : Inode.t) (content : PendingContent).
Context (Hgs : ib_groups b0 = gs) (Hnode : ib_nodes b0 !! k = Some {| pn_inode := i; pn_content := content |}).
Context (Hempty : Inode.used_extents i = []) (Harray : Inode.extents i = array []).
Context (Hlaid : laid (image_table (ib_nodes b0)) (ib_next_data_block b0)).
Notation n := (Z.of_nat k + 1).

Lemma table_at : image_table (ib_nodes b0) n = Some i.
Proof using Hnode. unfold image_table. by rewrite node_at_index, Hnode. Qed.

(** Blocks used before stay used. *)
Lemma used_more i' next p : laid (tset (image_table (ib_nodes b0)) n (Some i')) next →
  used (ib_next_data_block b0) p → used next p.
Proof using Hlaid Hnode Hempty.
  intros Hl (m & l & Hm)%(la_owned _ _ _ Hlaid). apply (la_owned _ _ _ Hl). exists m, l. apply maps_set.
  destruct (decide (m = n)) as [->|]; [|done]. exfalso. destruct Hm as (j & Hj & Hp). rewrite table_at in Hj.
  injection Hj as <-. by rewrite Hempty in Hp.
Qed.

Lemma filling_start : shows b0 v0 → filling b0 v0 k i content b0 v0 [] [] 0.
Proof using Hnode Harray Hempty Hlaid.
  clear Hgs Hapart Hdata. intros Hs. assert (Builder.set_extents (array []) i = i) as Hi by (rewrite <- Harray; by destruct i).
  assert (∀ alloc, Inode.used_extents (file_inode [] alloc i) = Inode.used_extents i) as Hu
    by (intros alloc; by rewrite file_inode_extents, Hempty).
  split; try done.
  - rewrite Hi. symmetry. by apply list_insert_id.
  - assert (∀ m l p, maps (tset (image_table (ib_nodes b0)) n (Some (file_inode [] 0 i))) m l p ↔ maps (image_table (ib_nodes b0)) m l p) as Hm.
    { intros m l p. rewrite maps_set. destruct (decide (m = n)) as [->|]; [|done]. unfold maps. rewrite table_at, Hu. naive_solver. }
    destruct Hlaid as [Hl Hx Ho Hu1]. split; [done..| |].
    + intros p. rewrite Ho. unfold owned. by setoid_rewrite Hm.
    + intros n1 l1 n2 l2 p. rewrite !Hm. apply Hu1.
Qed.

Lemma update_inode_spec (b : builder) node f Q R : ib_nodes b !! k = Some node →
  Q () (Builder.set_nodes (<[k := {| pn_inode := f (pn_inode node); pn_content := pn_content node |}]> (ib_nodes b)) b) →
  wp (Builder.update_inode k f) Q R b.
Proof using. intros Hn HQ. unfold Builder.update_inode. wp_steps. rewrite Hn. cbn [expect]. by wp_steps. Qed.

Lemma wrap_blocks (bytes : list Z) : Z.of_nat (length bytes) ≤ u32_max * 4096 →
  wrap 32 (Builder.ceil_blocks (Z.of_nat (length bytes))) = Builder.ceil_blocks (Z.of_nat (length bytes)).
Proof using.
  intros Hl. unfold wrap, Builder.ceil_blocks. change BLOCK_SIZE_U64 with 4096. apply Z.mod_small.
  pose proof (Z.div_mod (Z.of_nat (length bytes) + (4096 - 1)) 4096 ltac:(lia)).
  pose proof (Z.mod_pos_bound (Z.of_nat (length bytes) + (4096 - 1)) 4096 ltac:(lia)).
  change (2 ^ 32) with (u32_max + 1). lia.
Qed.

Lemma allocate_segment_spec b v prior es alloc offset bytes : filling b0 v0 k i content b v prior es alloc →
  (length es < INLINE_EXTENT_COUNT)%nat → is_u64 offset → offset mod 4096 = 0 → bytes ≠ [] → bytes_ok bytes →
  Z.of_nat (length bytes) ≤ u32_max * 4096 → (∀ s, s ∈ prior → segment_end s ≤ offset) →
  wp (Builder.allocate_segment k (length es, alloc) (offset, bytes))
    (λ r b', ∃ v' e, r.1 = length (es ++ [e]) ∧ filling b0 v0 k i content b' v' (prior ++ [(offset, bytes)]) (es ++ [e]) r.2) any_error b.
Proof using All.
  intros Hf Hlt Hoff Hmod Hne Hok Hmax Hends. pose proof Hf as [Fn [Fs Fg] Fsh Fk Fc Ft Fa Fl Fb Fe].
  unfold Builder.allocate_segment. wp_steps; [done|]. rewrite wrap_blocks by done. set (count := Builder.ceil_blocks _).
  destruct (ceil_blocks_bound (Z.of_nat (length bytes))) as (Hc & Hc1 & Hc2); [destruct bytes; [done|cbn; lia]|]. fold count in Hc, Hc1, Hc2.
  eapply wp_mono; [eapply (allocate_blocks_spec gs b); [by rewrite Fg|exact Fl]|cbv beta|done].
  intros start b1 (_ & kk & g & Hg & Hnext & Hend & ->).
  pose proof (la_next _ _ _ Fl kk g start Hg Hnext) as Hstart. destruct (Hdata kk g Hg) as [Hg0 Hg1].
  rewrite (proj2 (Nat.ltb_lt _ _)) by done. wp_steps. set (e := Extent.mk (offset / BLOCK_SIZE_U64) start count 0).
  eapply update_inode_spec; [cbn; rewrite Fn; apply list_lookup_insert_eq; by eapply lookup_lt_Some|].
  wp_steps; [|done]. match goal with H : checked_add _ _ _ = Some ?a |- _ => apply checked_add_Some in H as [-> Halloc] end.
  unfold Builder.write_file_segment. eapply wp_mono; [apply (write_all_spec _ v)|cbv beta|done]; [exact Fsh|lia| |].
  { apply Forall_lookup. intros j x. rewrite padded_chunks_lookup by done. destruct (decide _); [|done]. intros [= <-].
    apply padded_chunk_ok. by apply Forall_drop. }
  intros _ b' (v' & (d & -> & Hsh) & Hnew & Hold). wp_step. exists v', e. cbn [fst snd]. split; [rewrite length_app; cbn; lia|].
  rewrite length_padded_chunks in Hold by done. fold count in Hold.
  assert (∀ p, used (ib_next_data_block b) p → v' p = v p) as Hkeep.
  { intros p Hp. apply Hold. intros Hr. eapply (fresh_unused gs _ _ kk g start p Hapart Fl Hg Hnext); [lia|done]. }
  assert (∀ l p, mapped es l = Some p → used (ib_next_data_block b) p) as Hmine.
  { intros l p Hp. apply (la_owned _ _ _ Fl). exists n, l, (file_inode es alloc i). rewrite tset_same, file_inode_extents. done. }
  split.
  - cbn. rewrite Fn, list_insert_insert_eq. cbn [pn_inode pn_content]. do 2 f_equal. rewrite <- array_snoc by done. done.
  - done.
  - exact Hsh.
  - intros p Hp. rewrite Hkeep, Fk; [done..|]. by eapply used_more.
  - rewrite !length_app, Fc. done.
  - apply Forall_app_2; [done|]. apply Forall_singleton. unfold Extent.typed, e, is_u64, is_u32 in *. cbn.
    change BLOCK_SIZE_U64 with 4096. pose proof (Z.div_mod offset 4096 ltac:(lia)). unfold u32_max, u64_max in *. split_and!; lia || nia.
  - unfold is_u64 in *. lia.
  - cbn [Builder.set_device Builder.set_nodes Builder.set_next_data_block ib_next_data_block].
    eapply laid_ext; [intros m; symmetry; apply (tset_tset _ n (Some (file_inode es alloc i)))|].
    eapply (laid_extend gs _ _ kk g start count n (file_inode es alloc i) _ (offset / 4096)); [done|done|done|done|done|done|apply tset_same| |].
    + intros l. rewrite !file_inode_extents. apply mapped_snoc. intros l' Hl'. by eapply segment_unmapped.
    + intros l Hl. rewrite file_inode_extents. by eapply segment_unmapped.
  - apply (segment_file_byte prior offset bytes es start Hmod (proj1 Hoff) Hne Hends Fe v v' i alloc); [|done|done].
    intros l p Hp. by eapply Hkeep, Hmine.
  - intros l p. unfold e. rewrite mapped_snoc by (intros l' Hl'; by eapply segment_unmapped). change BLOCK_SIZE_U64 with 4096.
    destruct (decide _) as [Hr|Hr]; [|intros (s & Hs & ?)%Fe; exists s; split; [set_solver|done]]. intros _.
    exists (offset, bytes). split; [set_solver|]. unfold segment_end. cbn. pose proof (Z.div_mod offset 4096 ltac:(lia)).
    unfold count in Hr. nia.
Qed.

(** The node at index [k] has got the inode [i']; the blocks used before are kept. *)
Record node_placed (b : builder) (v : disk) (i' : Inode.t) : Prop := {
  np_nodes : ib_nodes b = <[k := {| pn_inode := i'; pn_content := content |}]> (ib_nodes b0);
  np_same : ib_superblock b = ib_superblock b0 ∧ ib_groups b = ib_groups b0;
  np_shows : shows b v;
  np_kept : ∀ p, used (ib_next_data_block b0) p → v p = v0 p;
  np_laid : laid (tset (image_table (ib_nodes b0)) n (Some i')) (ib_next_data_block b);
}.

Definition segment_ok (s : Z * list Z) : Prop := is_u64 s.1 ∧ bytes_ok s.2 ∧ Z.of_nat (length s.2) ≤ u32_max * 4096.

Lemma allocate_file_spec segments size : shows b0 v0 → (length segments ≤ INLINE_EXTENT_COUNT)%nat →
  Builder.check_segments size true 0 segments = Ok () → Forall segment_ok segments →
  wp (Builder.allocate_file k segments)
    (λ _ b', ∃ v' es alloc, node_placed b' v' (file_inode es alloc i) ∧ Forall Extent.typed es ∧
       (length es ≤ INLINE_EXTENT_COUNT)%nat ∧ is_u64 alloc ∧
       ∀ x, 0 ≤ x → file_byte v' (file_inode es alloc i) x = segment_byte segments x) any_error b0.
Proof using All.
  intros Hs Hlen Hcheck Hok. unfold Builder.allocate_file. wp_step.
  apply (wp_for_fold segments (Builder.allocate_segment k) (λ prior r b, ∃ v es, r.1 = length es ∧ filling b0 v0 k i content b v prior es r.2)).
  - exists v0, []. split; [done|]. by apply filling_start.
  - intros prior [offset bytes] [ec alloc] b [rest Hl] (v & es & Hec & Hf). cbn [fst snd] in *. subst ec.
    rewrite <- app_assoc in Hl. cbn in Hl. destruct (check_segments_spec _ _ _ _ Hcheck _ _ _ _ Hl) as (Hmod & Hne & _ & _ & Hends).
    assert (segment_ok (offset, bytes)) as (Hoff & Hbok & Hmax).
    { rewrite list.Forall_forall in Hok. apply Hok. rewrite Hl. set_solver. }
    eapply wp_mono; [apply (allocate_segment_spec b v prior es alloc offset bytes Hf)|cbv beta|done]; try done.
    + rewrite (fi_count _ _ _ _ _ _ _ _ _ _ Hf). apply (f_equal length) in Hl. rewrite length_app in Hl. cbn in Hl. lia.
    + intros [ec' alloc'] b' (v' & e & Hec & Hf'). by exists v', (es ++ [e]).
  - intros [ec alloc] b (v & es & Hec & Hf). cbn [fst snd] in *. subst ec. pose proof Hf as [Fn Fs Fsh Fk Fc Ft Fa Fl Fb _].
    eapply update_inode_spec; [rewrite Fn; apply list_lookup_insert_eq; by eapply lookup_lt_Some|].
    exists v, es, alloc. split; [|split_and!; [done|lia|done|done]]. split; [|done|exact Fsh|done|exact Fl].
    cbn. rewrite Fn, list_insert_insert_eq. do 2 f_equal. unfold file_inode. f_equal.
    unfold wrap. apply Z.mod_small. change (2 ^ 16) with 65536. unfold INLINE_EXTENT_COUNT in *. lia.
Qed.

(** ** Directories *)

Context (es : list PendingDirectoryEntry) (Hcontent : content = PendingDirectory es) (Hplan : planned (ib_nodes b0)).

Lemma listing_at : entries_at (ib_nodes b0) n = es.
Proof using Hnode Hcontent. unfold entries_at. rewrite node_at_index, Hnode. unfold listing. cbn. by rewrite Hcontent. Qed.

(** A block of the directory. *)
Definition listed (logical : Z) : list PendingDirectoryEntry :=
  take DIRECTORY_ENTRIES_PER_BLOCK (drop (Z.to_nat logical * DIRECTORY_ENTRIES_PER_BLOCK) es).
Definition listing_block (logical : Z) : DirectoryBlock.t :=
  DirectoryBlock.mk n logical ((image_entry (ib_nodes b0) <$> listed logical) ++
    replicate (DIRECTORY_ENTRIES_PER_BLOCK - length (listed logical)) DirectoryEntry.default).

Lemma length_listed logical : (length (listed logical) ≤ DIRECTORY_ENTRIES_PER_BLOCK)%nat.
Proof using. unfold listed. rewrite length_take. lia. Qed.

Lemma listed_lookup logical slot : listed logical !! slot =
  if decide (slot < DIRECTORY_ENTRIES_PER_BLOCK)%nat then es !! (Z.to_nat logical * DIRECTORY_ENTRIES_PER_BLOCK + slot)%nat else None.
Proof using.
  unfold listed. destruct (decide _); [rewrite lookup_take_lt, lookup_drop by done; done|]. apply lookup_take_ge. lia.
Qed.

Lemma listed_elem logical e : e ∈ listed logical → e ∈ entries_at (ib_nodes b0) n.
Proof using Hnode Hcontent.
  rewrite listing_at. intros (slot & Hs)%list_elem_of_lookup. rewrite listed_lookup in Hs. destruct (decide _); [|done].
  by eapply list_elem_of_lookup_2.
Qed.

Lemma listing_block_typed logical : is_u64 logical → DirectoryBlock.typed (listing_block logical).
Proof using Hnode Hcontent Hplan.
  intros Hl. pose proof (length_listed logical). split; cbn [listing_block DirectoryBlock.owner_inode DirectoryBlock.logical_block_index DirectoryBlock.entries].
  - pose proof (pl_u64 _ Hplan). apply lookup_lt_Some in Hnode. split; lia.
  - done.
  - rewrite length_app, length_fmap, length_replicate. lia.
  - apply Forall_app_2.
    + apply Forall_fmap, list.Forall_forall. intros e He%listed_elem. by apply (image_entry_spec _ Hplan n e) in He as (_ & ? & _).
    + apply Forall_replicate, default_entry_typed.
Qed.

Lemma list_entries_spec (b : builder) logical directory :
  (∀ m, image_table (ib_nodes b) m = image_table (ib_nodes b0) m ∨ ∃ j j', image_table (ib_nodes b) m = Some j' ∧
     image_table (ib_nodes b0) m = Some j ∧ Inode.kind j' = Inode.kind j ∧ Inode.generation j' = Inode.generation j) →
  (length (listed logical) ≤ length (DirectoryBlock.entries directory))%nat →
  wp (for_fold (zip (seq 0 (length (listed logical))) (listed logical)) directory Builder.list_entry)
    (λ d b', b' = b ∧ d = DirectoryBlock.mk (DirectoryBlock.owner_inode directory) (DirectoryBlock.logical_block_index directory)
       ((image_entry (ib_nodes b0) <$> listed logical) ++ drop (length (listed logical)) (DirectoryBlock.entries directory))) any_error b.
Proof using Hnode Hcontent Hplan.
  intros Hsame Hlen. set (l := listed logical) in *.
  match goal with |- wp (for_fold ?x _ _) _ _ _ => set (z := x) end.
  assert (z.*2 = l) as Hz2 by (unfold z; apply (snd_zip (seq 0 (length l)) l); by rewrite length_seq).
  apply (wp_for_fold z Builder.list_entry (λ prior d b', b' = b ∧
    d = DirectoryBlock.mk (DirectoryBlock.owner_inode directory) (DirectoryBlock.logical_block_index directory)
       ((image_entry (ib_nodes b0) <$> prior.*2) ++ drop (length prior) (DirectoryBlock.entries directory)))).
  - split; [done|]. by destruct directory.
  - intros prior [slot pe] d b' [rest Hrest] [-> ->]. rewrite <- app_assoc in Hrest. cbn [app] in Hrest.
    assert (z !! length prior = Some (slot, pe)) as Hz by (rewrite Hrest, lookup_app_r, Nat.sub_diag by lia; done).
    pose proof Hz as [Hslot Hpe]%lookup_zip_Some. apply lookup_seq in Hslot as [-> Hlt]. cbn [plus] in *.
    apply list_elem_of_lookup_2 in Hpe. pose proof (listed_elem logical pe Hpe) as He.
    destruct (pl_child _ Hplan _ _ He) as (_ & child & Hch & _). pose proof (pl_generation _ Hplan _ _ Hch) as Hgen.
    assert (image_table (ib_nodes b0) (pde_inode pe) = Some (pn_inode child)) as HT by (unfold image_table; by rewrite Hch).
    assert (∃ target, ib_nodes b !! Z.to_nat (pde_inode pe - 1) = Some target ∧ Inode.kind (pn_inode target) = kind_of (ib_nodes b0) (pde_inode pe) ∧
      Inode.generation (pn_inode target) = pde_inode pe) as (target & Htar & Hk & Hg).
    { unfold kind_of. rewrite HT. pose proof (node_at_bounds _ _ _ Hch).
      destruct (Hsame (pde_inode pe)) as [Heq|(j & j' & Hj' & Hj & Hkk & Hgg)].
      - rewrite HT in Heq. apply fmap_Some in Heq as (target & Ht & E). unfold node_at in Ht. rewrite decide_True in Ht by lia.
        exists target. by rewrite <- E.
      - apply fmap_Some in Hj' as (target & Ht & ->). unfold node_at in Ht. rewrite decide_True in Ht by lia.
        assert (j = pn_inode child) as -> by congruence. exists target. split; [done|]. split; congruence. }
    unfold Builder.list_entry. wp_steps. rewrite Htar. cbn [expect]. wp_steps. rewrite Hk, Hg.
    destruct (image_entry_spec _ Hplan n pe He) as (Hnew & _). unfold new_entry in Hnew. rewrite Hnew. cbn [wpo]. wp_steps.
    split; [done|]. cbn. f_equal. rewrite !fmap_app, <- app_assoc. rewrite insert_app_r_alt by (rewrite !length_fmap; lia).
    rewrite !length_fmap, Nat.sub_diag. cbn [fmap list_fmap snd app]. f_equal.
    rewrite length_app. cbn [length]. rewrite Nat.add_1_r.
    destruct (drop (length prior) (DirectoryBlock.entries directory)) as [|x xs] eqn:Ed.
    { apply (f_equal length) in Ed. rewrite length_drop in Ed. cbn in Ed. lia. }
    cbn. f_equal. change xs with (drop 1 (x :: xs)). rewrite <- Ed, drop_drop. f_equal. lia.
  - intros d b' [-> ->]. split; [done|]. rewrite Hz2. do 2 f_equal. f_equal. rewrite <- Hz2, length_fmap. done.
Qed.

(** The directory's inode, its blocks from [start] on. *)
Notation block_count := (Builder.listing_blocks es).
Definition directory_inode (start : Z) : Inode.t :=
  Builder.set_extents (array [Extent.mk 0 start block_count 0])
    (Builder.set_allocation 1 block_count (Builder.set_listing (block_count * 4096) (Z.of_nat (length es)) i)).

Lemma directory_inode_mapped start l : mapped (Inode.used_extents (directory_inode start)) l =
  if decide (0 ≤ l < block_count) then Some (start + l) else None.
Proof using.
  change (mapped [Extent.mk 0 start block_count 0] l = if decide (0 ≤ l < block_count) then Some (start + l) else None).
  cbn [mapped Extent.logical_first_block Extent.physical_first_block Extent.length_blocks].
  destruct (decide (0 ≤ l < block_count)) as [Hr|Hr]; [rewrite decide_True by lia|by rewrite decide_False by lia]. f_equal. lia.
Qed.

Lemma listing_blocks_bound : 1 ≤ block_count ∧ (∀ j, (j < length es)%nat → Z.of_nat (j / DIRECTORY_ENTRIES_PER_BLOCK) < block_count) ∧
  block_count ≤ Z.of_nat (length es) + 1.
Proof using.
  unfold Builder.listing_blocks, DIRECTORY_ENTRIES_PER_BLOCK. change (Z.of_nat 31) with 31.
  pose proof (Z.div_mod (Z.of_nat (length es) + (31 - 1)) 31 ltac:(lia)). pose proof (Z.mod_pos_bound (Z.of_nat (length es) + (31 - 1)) 31 ltac:(lia)).
  split_and!; [lia| |lia]. intros j Hj. rewrite Nat2Z.inj_div. change (Z.of_nat 31) with 31.
  pose proof (Z.div_mod (Z.of_nat j) 31 ltac:(lia)). pose proof (Z.mod_pos_bound (Z.of_nat j) 31 ltac:(lia)). lia.
Qed.

(** The blocks show the listing. *)
Lemma listing_view v start : (∀ l, 0 ≤ l < block_count →
    good_block (listing_block l) ∧ v (start + l) = DirectoryCodec.directory_image (listing_block l)) →
  dir_view v n (directory_inode start) (image_forest (ib_nodes b0) n).
Proof using Hnode Hcontent Hplan.
  intros Hv. assert (Inode.size (directory_inode start) / 4096 = block_count) as Hsize by (cbn; apply Z.div_mul; lia).
  assert (∀ lb, 0 ≤ lb < block_count → dir_block_seen v n (directory_inode start) lb = Ok (listing_block lb)) as Hseen.
  { intros lb Hlb. destruct (Hv lb Hlb) as [Hgood Himg]. eapply dir_block_stored; [|done|exact Himg|done|done].
    rewrite directory_inode_mapped. by rewrite decide_True. }
  destruct listing_blocks_bound as (_ & Hbound & _). split.
  - intros lb. rewrite Hsize. intros Hlb. eexists. by apply Hseen.
  - intros lb slot e. rewrite image_forest_Some, listing_at. split.
    + intros (j & pe & Hj & Hpos & ->). apply pair_equal_spec in Hpos as [-> ->]. pose proof (Hbound j (lookup_lt_Some _ _ _ Hj)) as Hlb.
      assert (pe ∈ entries_at (ib_nodes b0) n) as He by (rewrite listing_at; by eapply list_elem_of_lookup_2).
      split; [|by apply (image_entry_spec _ Hplan n pe He)].
      eapply entry_at_block; [apply Hseen; lia|rewrite Hsize; lia|]. cbn [listing_block DirectoryBlock.entries].
      apply lookup_app_l_Some. rewrite list_lookup_fmap, listed_lookup.
      rewrite decide_True by (apply Nat.mod_upper_bound; done). rewrite Nat2Z.id, Nat.mul_comm, <- Nat.div_mod_eq, Hj. done.
    + intros [(Hlb & block & Hb & Hentry) Hu]. rewrite Hsize in Hlb. rewrite Hseen in Hb by done. injection Hb as <-.
      cbn [listing_block DirectoryBlock.entries] in Hentry. apply lookup_app_Some in Hentry as [Hentry|[_ Hentry]].
      2:{ by apply lookup_replicate in Hentry as [-> _]. }
      rewrite list_lookup_fmap, listed_lookup in Hentry. destruct (decide _) as [Hs|Hs]; [|done].
      apply fmap_Some in Hentry as (pe & Hpe & ->). exists (Z.to_nat lb * DIRECTORY_ENTRIES_PER_BLOCK + slot)%nat, pe.
      split_and!; [done| |done]. unfold place. rewrite Nat.div_add_l, (Nat.div_small slot), Nat.add_0_r by done.
      rewrite Nat.add_comm, Nat.Div0.mod_add, Nat.mod_small by done. f_equal. lia.
Qed.

Lemma listing_small : (length es ≤ length (ib_nodes b0))%nat.
Proof using Hnode Hcontent Hplan.
  rewrite <- listing_at. rewrite <- (length_fmap pde_inode), <- (Nat2Z.id (length (ib_nodes b0))), <- (length_seqZ 1).
  apply submseteq_length, NoDup_submseteq; [apply (pl_children _ Hplan)|].
  intros m (e & -> & He)%list_elem_of_fmap. destruct (pl_child _ Hplan _ _ He) as (_ & c & Hc%node_at_bounds & _).
  apply elem_of_seqZ. lia.
Qed.

Lemma table_insert (b : builder) i' m : ib_nodes b = <[k := {| pn_inode := i'; pn_content := content |}]> (ib_nodes b0) →
  image_table (ib_nodes b) m = tset (image_table (ib_nodes b0)) n (Some i') m.
Proof using Hnode.
  intros ->. unfold image_table, tset. destruct (decide (m = n)) as [->|Hne].
  - rewrite node_at_index, list_lookup_insert_eq by (by eapply lookup_lt_Some). done.
  - f_equal. unfold node_at. destruct (decide _); [|done]. rewrite list_lookup_insert_ne by lia. done.
Qed.

Lemma write_listing_spec (b : builder) v i' start logical : shows b v → 0 ≤ start → is_u64 logical →
  ib_nodes b = <[k := {| pn_inode := i'; pn_content := content |}]> (ib_nodes b0) →
  Inode.kind i' = Inode.kind i → Inode.generation i' = Inode.generation i →
  wp (Builder.write_listing n start es logical)
    (λ _ b', ∃ x, (good_block (listing_block logical) ∧ x = DirectoryCodec.directory_image (listing_block logical)) ∧
       written b (upd v (start + logical) x) b') any_error b.
Proof using Hnode Hcontent Hplan.
  intros Hs Hst Hl Hn Hk Hg. unfold Builder.write_listing, Builder.on_format. wp_steps.
  unfold DirectoryBlock.new. wp_steps; [done|]. fold (listed logical).
  eapply wp_mono; [apply (list_entries_spec b logical)|cbv beta|done].
  - intros m. rewrite (table_insert b i' m Hn). unfold tset. destruct (decide (m = n)) as [->|]; [right|by left].
    exists i, i'. rewrite table_at. done.
  - cbn [DirectoryBlock.entries]. rewrite length_replicate. apply length_listed.
  - intros d b' [-> ->]. cbn [DirectoryBlock.owner_inode DirectoryBlock.logical_block_index DirectoryBlock.entries].
    rewrite drop_replicate. fold (listing_block logical). pose proof (listing_block_typed logical Hl) as Ht.
    wp_steps. destruct (DirectoryBlock.encode (listing_block logical)) as [x|e|] eqn:E; cbn [wpo]; [|done|].
    2:{ by apply (encode_no_abort (BlockCodec := DirectoryCodec.directory_codec)) in E. }
    apply (DirectoryCodec.directory_encode_eq _ Ht) in E as [Hval ->]. cbv beta.
    eapply wp_mono; [apply (write_block_spec b v)|cbv beta|done].
    + done.
    + unfold is_u64 in Hl. lia.
    + by apply DirectoryCodec.directory_image_block.
    + by apply DirectoryCodec.directory_image_ok.
    + intros _ b' Hw. eexists. split; [|exact Hw]. split; [|done]. by split.
Qed.

Lemma allocate_directory_spec : shows b0 v0 → Z.of_nat (length (ib_nodes b0)) < u32_max →
  wp (Builder.allocate_directory k es)
    (λ _ b', ∃ v' start, node_placed b' v' (directory_inode start) ∧ is_u64 start ∧
       dir_view v' n (directory_inode start) (image_forest (ib_nodes b0) n)) any_error b0.
Proof using All.
  intros Hs Hsmall. unfold Builder.allocate_directory. pose proof listing_small as Hes. destruct listing_blocks_bound as (Hb1 & _ & Hb2).
  assert (wrap 32 block_count = block_count) as -> by (unfold wrap; apply Z.mod_small; change (2 ^ 32) with (u32_max + 1); lia).
  wp_step. eapply wp_mono; [eapply (allocate_blocks_spec gs b0); [done|exact Hlaid]|cbv beta|done].
  intros start b1 (_ & kk & g & Hg & Hnext & Hend & ->).
  pose proof (la_next _ _ _ Hlaid kk g start Hg Hnext) as Hstart. destruct (Hdata kk g Hg) as [Hg0 Hg1].
  wp_step. eapply update_inode_spec; [exact Hnode|]. cbn [pn_inode pn_content].
  change (Builder.set_extents _ _) with (Builder.set_extents (<[0%nat := Extent.mk 0 start block_count 0]> (Inode.extents i))
    (Builder.set_allocation 1 block_count (Builder.set_listing (block_count * 4096) (Z.of_nat (length es)) i))).
  assert (<[0%nat := Extent.mk 0 start block_count 0]> (Inode.extents i) = array [Extent.mk 0 start block_count 0]) as ->
    by (rewrite Harray; reflexivity). fold (directory_inode start).
  set (b2 := Builder.set_nodes _ _).
  eapply wp_mono; [apply (block_loop (range 0 block_count) (λ l, start + l)
    (λ l x, good_block (listing_block l) ∧ x = DirectoryCodec.directory_image (listing_block l)) _ b2 v0)|cbv beta|done].
  - apply NoDup_seqZ.
  - intros l l' _ _. lia.
  - intros l b3 v3 Hl%elem_of_seqZ (d & -> & Hs3). unfold u32_max in *.
    apply (write_listing_spec _ v3 (directory_inode start)); try done; [lia|unfold is_u64, u64_max; lia].
  - exact Hs.
  - intros _ b' (v' & (d & -> & Hsh) & Hblocks & Hother). exists v', start.
    assert (∀ l, 0 ≤ l < block_count → good_block (listing_block l) ∧ v' (start + l) = DirectoryCodec.directory_image (listing_block l)) as Hv.
    { intros l Hl. apply Hblocks. apply elem_of_seqZ. lia. }
    split; [|split; [unfold is_u64 in *; lia|by apply listing_view]]. split.
    + done.
    + done.
    + exact Hsh.
    + intros p Hp. apply Hother. intros (l & -> & Hl%elem_of_seqZ)%list_elem_of_fmap.
      eapply (fresh_unused gs _ _ kk g start _ Hapart Hlaid Hg Hnext); [|exact Hp]. lia.
    + cbn. eapply (laid_extend gs _ _ kk g start block_count n i _ 0); [done|done|lia|lia|done|done|by apply table_at| |].
      * intros l. rewrite directory_inode_mapped, Hempty, Z.add_0_l. destruct (decide _); [|done]. f_equal. lia.
      * intros l _. by rewrite Hempty.
Qed.
End file.
End contents.
