(* ===== verification/ImageNodes.v ===== *)
(** * The nodes of an image, allocated

    [allocate_contents] gives every pending node its blocks and keeps the tree. *)

From Stdlib Require Import ZArith Lia.
From stdpp Require Import base list numbers option gmap.
From S2P Require Import Prelude NullfsBytes NullfsPhase3 NullfsSuperblock NullfsRecord NullfsInode.
From S2P Require Import NullfsDirectory NullfsAllocation BlockDevice Journal JournalDisk JournalSteps.
From S2P Require Import JournalRecovery JournalProps Volume Mutation Extents VolumeReads Session.
From S2P Require Import MutationSteps Atomicity Layout Ownership Mounted FileWrite Namespace DirectoryViews.
From S2P Require Import ImageBuilder ImagePlan ImageVolume ImageWrites ImageContents.

Open Scope Z_scope.

(** ** What allocation does not change *)

Definition same_node (a b : PendingNode) : Prop :=
  pn_content b = pn_content a ∧ alike (pn_inode a) (pn_inode b) ∧
  (Inode.kind (pn_inode a) = NodeKind.Regular → Inode.size (pn_inode b) = Inode.size (pn_inode a)).
Definition nodes_alike : list PendingNode → list PendingNode → Prop := Forall2 same_node.

Lemma same_node_refl a : same_node a a.
Proof. done. Qed.

Section alike.
Context (nodes nodes' : list PendingNode) (Hal : nodes_alike nodes nodes').

Lemma alike_node_at n : match node_at nodes n with
  | Some a => ∃ b, node_at nodes' n = Some b ∧ same_node a b
  | None => node_at nodes' n = None
  end.
Proof using Hal.
  unfold node_at. destruct (decide _); [|done]. destruct (nodes !! _) as [a|] eqn:E.
  - by apply (Forall2_lookup_l _ _ _ _ _ Hal E).
  - apply lookup_ge_None_2. rewrite <- (Forall2_length _ _ _ Hal). by apply lookup_ge_None_1.
Qed.

Lemma alike_back n b : node_at nodes' n = Some b → ∃ a, node_at nodes n = Some a ∧ same_node a b.
Proof using Hal. intros Hb. pose proof (alike_node_at n) as Hn. destruct (node_at nodes n) as [a|]; [|congruence]. destruct Hn as (b' & Hb' & ?). naive_solver. Qed.

Lemma alike_entries n : entries_at nodes' n = entries_at nodes n.
Proof using Hal.
  unfold entries_at. pose proof (alike_node_at n) as Hn. destruct (node_at nodes n) as [a|]; [|by rewrite Hn].
  destruct Hn as (b & -> & Hc & _). unfold listing. by rewrite Hc.
Qed.

Lemma alike_kind_of n : kind_of nodes' n = kind_of nodes n.
Proof using Hal.
  unfold kind_of, image_table. pose proof (alike_node_at n) as Hn. destruct (node_at nodes n) as [a|]; [|by rewrite Hn].
  destruct Hn as (b & -> & _ & (Hk & _) & _). done.
Qed.

Lemma alike_forest n : image_forest nodes' n = image_forest nodes n.
Proof using Hal.
  unfold image_forest. rewrite alike_entries. f_equal. apply imap_ext. intros i e _. unfold image_entry, new_entry. by rewrite alike_kind_of.
Qed.

Lemma planned_alike : planned nodes → planned nodes'.
Proof using Hal.
  intros Hp. split.
  - destruct (pl_root _ Hp) as (a & Ha & Hk & Hpar). pose proof (alike_node_at ROOT_INODE) as Hn. rewrite Ha in Hn.
    destruct Hn as (b & Hb & _ & (Hk' & _ & _ & Hp') & _). exists b. split_and!; congruence.
  - intros n b (a & Ha & Hc & (Hk & _) & _)%alike_back. by rewrite Hc, Hk, (pl_kind _ Hp n a Ha).
  - intros n b (a & Ha & _ & (_ & _ & Hl & _) & _)%alike_back. by rewrite Hl, (pl_links _ Hp n a Ha).
  - intros n b (a & Ha & _ & (_ & Hg & _) & _)%alike_back. by rewrite Hg, (pl_generation _ Hp n a Ha).
  - intros n b (a & Ha & _ & (_ & _ & _ & Hpar) & _)%alike_back. rewrite Hpar. by apply (pl_parent _ Hp n a Ha).
  - intros n b (a & Ha & _ & (_ & _ & _ & Hpar) & _)%alike_back. rewrite Hpar, alike_entries. by apply (pl_named _ Hp n a Ha).
  - intros n e. rewrite alike_entries. intros (Hr & a & Ha & Hpar)%(pl_child _ Hp). split; [done|].
    pose proof (alike_node_at (pde_inode e)) as Hn. rewrite Ha in Hn. destruct Hn as (b & Hb & _ & (_ & _ & _ & Hp') & _).
    exists b. split; congruence.
  - intros n e. rewrite alike_entries. intros (Hok & entry & He)%(pl_entry _ Hp). split; [done|]. exists entry.
    unfold new_entry. by rewrite alike_kind_of.
  - intros n. rewrite alike_entries. apply Hp.
  - intros n. rewrite alike_entries. apply Hp.
  - rewrite <- (Forall2_length _ _ _ Hal). apply Hp.
Qed.
End alike.

(** ** Pending nodes *)

Record unplaced (nodes : list PendingNode) : Prop := {
  un_shape : ∀ n node, node_at nodes n = Some node → ∃ mode size parent,
    pn_inode node = Builder.pending_inode (Inode.kind (pn_inode node)) mode n size parent ∧
    0 ≤ mode ≤ u16_max ∧ is_u64 size ∧ is_u64 parent;
  un_file : ∀ n node segments, node_at nodes n = Some node → pn_content node = PendingFile segments →
    (length segments ≤ INLINE_EXTENT_COUNT)%nat ∧
    Builder.check_segments (Inode.size (pn_inode node)) true 0 segments = Ok () ∧ Forall segment_ok segments;
}.

(** A node with its blocks. *)
Record placed (v : disk) (n : Z) (node : PendingNode) (es : entries) : Prop := {
  pd_typed : Inode.typed (pn_inode node);
  pd_valid : Inode.validate (pn_inode node) = Ok ();
  pd_content : match pn_content node with
    | PendingDirectory l => Inode.directory_entry_count (pn_inode node) = Z.of_nat (length l) ∧ dir_view v n (pn_inode node) es
    | PendingFile segments => ∀ x, 0 ≤ x → file_byte v (pn_inode node) x = segment_byte segments x
    end;
}.

Lemma placed_frame v v' n node es : (∀ l p, mapped (Inode.used_extents (pn_inode node)) l = Some p → v' p = v p) →
  placed v n node es → placed v' n node es.
Proof.
  intros Hv [Ht Hval Hc]. split; [done..|]. destruct (pn_content node) as [l|segments].
  - destruct Hc as [Hn Hd]. split; [done|]. by apply (dir_view_frame v v' n (pn_inode node)).
  - intros x Hx. rewrite <- Hc by done. unfold file_byte. destruct (mapped _ _) as [p|] eqn:E; [|done]. by rewrite (Hv _ _ E).
Qed.

Lemma file_inode_typed es alloc kind mode n size parent : Forall Extent.typed es → (length es ≤ INLINE_EXTENT_COUNT)%nat →
  is_u64 alloc → 0 ≤ mode ≤ u16_max → is_u64 n → is_u64 size → is_u64 parent →
  Inode.typed (file_inode es alloc (Builder.pending_inode kind mode n size parent)).
Proof.
  intros Hes Hl Ha Hm Hn Hs Hp. unfold INLINE_EXTENT_COUNT in *. split; cbn; try done.
  - unfold u16_max. lia.
  - by apply array_length.
  - apply Forall_app_2; [done|]. by apply Forall_replicate.
Qed.

Lemma directory_inode_typed l kind mode n parent start : Z.of_nat (length l) ≤ u32_max - 1 → is_u64 start →
  0 ≤ mode ≤ u16_max → is_u64 n → is_u64 parent →
  Inode.typed (directory_inode (Builder.pending_inode kind mode n 0 parent) l start).
Proof.
  intros Hl Hst Hm Hn Hp. destruct (listing_blocks_bound l) as (Hb1 & _ & Hb2). unfold is_u64, u32_max, u64_max in *.
  split; cbn; try done; unfold is_u64, u64_max; try lia.
  repeat constructor; cbn; unfold is_u64, is_u32, u64_max, u32_max; try done; lia.
Qed.

(** ** The loop over the nodes *)

Section nodes.
Context {D : Type} {HD : BlockDevice D} {torn : list Z → Prop} {HC : CrashSafe D torn}.
Notation builder := (ImageBuilder D).
Context (gs : list group) (Hapart : data_apart gs).
Context (Hdata : ∀ k g, gs !! k = Some g → 0 ≤ g_data g ∧ g_end g ≤ u64_max).
Context (b0 : builder) (Hgs : ib_groups b0 = gs) (Hplan : planned (ib_nodes b0)) (Hun : unplaced (ib_nodes b0)).
Context (Hsmall : Z.of_nat (length (ib_nodes b0)) < u32_max).
Notation nodes0 := (ib_nodes b0).

(** The first [k] nodes have their blocks. *)
Record progress (b : builder) (v : disk) (k : nat) : Prop := {
  pg_same : ib_superblock b = ib_superblock b0 ∧ ib_groups b = ib_groups b0;
  pg_shows : shows b v;
  pg_alike : nodes_alike nodes0 (ib_nodes b);
  pg_rest : ∀ j, (k ≤ j)%nat → ib_nodes b !! j = nodes0 !! j;
  pg_done : ∀ j node, (j < k)%nat → ib_nodes b !! j = Some node →
    placed v (Z.of_nat j + 1) node (image_forest nodes0 (Z.of_nat j + 1));
  pg_laid : laid gs (image_table (ib_nodes b)) (ib_next_data_block b);
}.

Lemma progress_step b v k node b' v' i' : progress b v k → nodes0 !! k = Some node →
  node_placed gs b v k (pn_content node) b' v' i' →
  same_node node {| pn_inode := i'; pn_content := pn_content node |} →
  placed v' (Z.of_nat k + 1) {| pn_inode := i'; pn_content := pn_content node |} (image_forest nodes0 (Z.of_nat k + 1)) →
  progress b' v' (S k).
Proof using.
  intros [Gs Gsh Ga Gr Gd Gl] Hk [Nn Ns Nsh Nk Nl] Hsame Hplaced. assert (ib_nodes b !! k = Some node) as Hkb by (by rewrite Gr).
  split.
  - destruct Gs, Ns. split; congruence.
  - done.
  - rewrite Nn. rewrite <- (list_insert_id nodes0 k node Hk). by apply Forall2_insert.
  - intros j Hj. rewrite Nn, list_lookup_insert_ne by lia. apply Gr. lia.
  - intros j node' Hj Hn. rewrite Nn in Hn. destruct (decide (j = k)) as [->|Hne].
    + rewrite list_lookup_insert_eq in Hn by (by eapply lookup_lt_Some). injection Hn as <-. done.
    + rewrite list_lookup_insert_ne in Hn by done. eapply placed_frame; [|apply Gd; [lia|done]].
      intros l p Hp. apply Nk, (la_owned _ _ _ Gl). exists (Z.of_nat j + 1), l, (pn_inode node'). split; [|done].
      unfold image_table. by rewrite node_at_index, Hn.
  - eapply laid_ext; [|exact Nl]. intros m. apply (table_insert b k (pn_inode node) (pn_content node)); [by destruct node|done].
Qed.

Lemma allocate_node_spec b v k : progress b v k → (k < length nodes0)%nat →
  wp (Builder.allocate_node k) (λ _ b', ∃ v', progress b' v' (S k)) any_error b.
Proof using All.
  intros Hg [node Hk]%lookup_lt_is_Some. pose proof Hg as [[Gs Gg] Gsh Ga Gr Gd Gl].
  assert (ib_nodes b !! k = Some node) as Hkb by (by rewrite Gr).
  assert (node_at nodes0 (Z.of_nat k + 1) = Some node) as Hat by (by rewrite node_at_index).
  destruct (un_shape _ Hun _ _ Hat) as (mode & size & parent & Hi & Hm & Hsz & Hpar).
  pose proof (pl_kind _ Hplan _ _ Hat) as Hkind. pose proof (pl_u64 _ Hplan) as Hu. pose proof (lookup_lt_Some _ _ _ Hk) as Hlt.
  assert (is_u64 (Z.of_nat k + 1)) as Hn64 by (split; lia).
  assert (ib_nodes b !! k = Some {| pn_inode := pn_inode node; pn_content := pn_content node |}) as Hkb' by (by destruct node).
  assert (Inode.used_extents (pn_inode node) = []) as Hemp by (by rewrite Hi).
  assert (Inode.extents (pn_inode node) = array []) as Harr by (by rewrite Hi).
  assert (ib_groups b = gs) as Hgb by congruence.
  assert (∀ (b' : builder) v' i', node_placed gs b v k (pn_content node) b' v' i' →
    same_node node {| pn_inode := i'; pn_content := pn_content node |} → Inode.typed i' →
    (match pn_content node with
     | PendingDirectory l => Inode.directory_entry_count i' = Z.of_nat (length l) ∧ dir_view v' (Z.of_nat k + 1) i' (image_forest nodes0 (Z.of_nat k + 1))
     | PendingFile segments => ∀ x, 0 ≤ x → file_byte v' i' x = segment_byte segments x end) →
    wp (self ← get; node ← lift (expect (ib_nodes self !! k)); Builder.on_format (Inode.validate (pn_inode node)))
      (λ _ b', ∃ v', progress b' v' (S k)) any_error b') as Hfin.
  { intros b' v' i' Hnp Hsame Hty Hc. wp_steps. rewrite (np_nodes _ _ _ _ _ _ _ _ Hnp), list_lookup_insert_eq by (by eapply lookup_lt_Some).
    cbn [expect]. wp_steps. unfold Builder.on_format. wp_steps. cbn [pn_inode].
    destruct (Inode.validate i') as [[]|e|] eqn:Ev; cbn [wpo]; [|done|by apply InodeCodec.inode_validate_no_abort in Ev].
    exists v'. eapply progress_step; [done..|]. by split. }
  unfold Builder.allocate_node. wp_steps. rewrite Hkb. cbn [expect]. wp_steps.
  destruct (pn_content node) as [l|segments] eqn:Ec.
  - assert (planned (ib_nodes b)) as Hpb by (by eapply planned_alike).
    eapply wp_mono; [apply (allocate_directory_spec gs Hapart Hdata b v k (pn_inode node) (PendingDirectory l) Hgb Hkb' Hemp Harr Gl l eq_refl Hpb Gsh)|cbv beta|done].
    { by rewrite <- (Forall2_length _ _ _ Ga). }
    intros _ b' (v' & start & Hnp & Hst & Hview). rewrite (alike_forest _ _ Ga) in Hview.
    eapply (Hfin b' v'); [exact Hnp| | |split; [done|exact Hview]].
    + split; [done|]. split; [done|]. cbn [pn_inode]. by rewrite Hkind.
    + rewrite Hi. unfold directory_inode. cbn [Builder.set_listing Builder.pending_inode].
      apply (directory_inode_typed l (Inode.kind (pn_inode node)) mode _ parent start); [|done..].
      pose proof (listing_small b k (pn_inode node) (PendingDirectory l) Hkb' l eq_refl Hpb).
      rewrite <- (Forall2_length _ _ _ Ga) in *. lia.
  - destruct (un_file _ Hun _ _ _ Hat Ec) as (Hlen & Hcheck & Hok).
    eapply wp_mono; [apply (allocate_file_spec gs Hapart Hdata b v k (pn_inode node) (PendingFile segments) Hgb Hkb' Hemp Harr Gl segments _ Gsh Hlen Hcheck Hok)|cbv beta|done].
    intros _ b' (v' & es & alloc & Hnp & Hes & Hl & Ha & Hbytes). eapply (Hfin b' v'); [exact Hnp| | |exact Hbytes].
    + split; [done|]. split; [done|]. done.
    + rewrite Hi. by apply file_inode_typed.
Qed.

Lemma allocate_contents_spec v : shows b0 v → laid gs (image_table nodes0) (ib_next_data_block b0) →
  wp Builder.allocate_contents (λ _ b', ∃ v', progress b' v' (length nodes0)) any_error b0.
Proof using All.
  intros Hs Hl. unfold Builder.allocate_contents. wp_steps.
  apply (wp_for_each (seq 0 (length nodes0)) Builder.allocate_node (λ prior b, ∃ v, progress b v (length prior))).
  - exists v. split; [done|done| |done|intros j node Hj; cbn in Hj; lia|done]. apply Forall2_same_length_lookup_2; [done|]. intros i x y Hx Hy. by simplify_eq.
  - intros prior k b Hpre (v1 & Hp). assert (k = length prior ∧ (length prior < length nodes0)%nat) as [-> Hlt].
    { destruct Hpre as [rest Hrest]. rewrite <- app_assoc in Hrest.
      assert (seq 0 (length nodes0) !! length prior = Some k) as Hk by (rewrite Hrest, lookup_app_r, Nat.sub_diag by lia; done).
      apply lookup_seq in Hk as [-> ?]. done. }
    rewrite length_app, Nat.add_1_r. by apply (allocate_node_spec b v1).
  - intros b. by rewrite length_seq.
Qed.
End nodes.
