(* ===== verification/ImageTree.v ===== *)
(** * Operations of the image builder

    A new builder is ready, and creating directories and files keeps it ready:
    its volume is planned, its nodes form a tree and have no blocks yet. *)

From Stdlib Require Import ZArith Lia.
From stdpp Require Import base list numbers option gmap.
From S2P Require Import Prelude NullfsBytes NullfsPhase3 NullfsSuperblock NullfsRecord NullfsInode.
From S2P Require Import NullfsDirectory NullfsAllocation BlockDevice Journal JournalDisk JournalSteps.
From S2P Require Import JournalRecovery JournalProps Volume Mutation Extents VolumeReads Session.
From S2P Require Import MutationSteps Atomicity Layout Ownership Mounted FileWrite Namespace DirectoryViews.
From S2P Require Import ImageBuilder ImagePlan ImageVolume ImageWrites ImageContents ImageNodes.

Open Scope Z_scope.

Section builder.
Context {D : Type} {HD : BlockDevice D} {torn : list Z → Prop} {HC : CrashSafe D torn}.
Notation builder := (ImageBuilder D).

Record builder_ok (b : builder) : Prop := {
  bk_volume : image_volume (ib_superblock b) (ib_groups b);
  bk_planned : planned (ib_nodes b);
  bk_unplaced : unplaced (ib_nodes b);
  bk_count : Z.of_nat (length (ib_nodes b)) ≤ Z.of_nat (length (ib_groups b)) * 256;
  bk_next : ib_next_data_block b = g_data <$> ib_groups b;
  bk_device : bd_ok (ib_device b);
}.

Lemma unplaced_laid nodes gs : (∀ k g, gs !! k = Some g → g_data g ≤ g_end g) → unplaced nodes →
  laid gs (image_table nodes) (g_data <$> gs).
Proof.
  intros Hend Hu. assert (∀ n l p, ¬ maps (image_table nodes) n l p) as Hno.
  { intros n l p (i & (node & Hn & ->)%fmap_Some & Hm). destruct (un_shape _ Hu n node Hn) as (? & ? & ? & Hi & _).
    rewrite Hi in Hm. done. }
  split.
  - apply length_fmap.
  - intros k g stop Hk Hs. rewrite list_lookup_fmap, Hk in Hs. injection Hs as <-. specialize (Hend k g Hk). lia.
  - intros p. split; [|by intros (n & l & []%Hno)]. intros (k & g & stop & Hk & Hs & Hp).
    rewrite list_lookup_fmap, Hk in Hs. injection Hs as <-. lia.
  - by intros n1 l1 n2 l2 p []%Hno.
Qed.

(** A new node in the table of nodes. *)
Lemma unplaced_insert nodes parent pnode es entry mode size kind content :
  unplaced nodes → node_at nodes parent = Some pnode → pn_content pnode = PendingDirectory es →
  0 ≤ mode ≤ u16_max → is_u64 size → is_u64 parent →
  (∀ segments, content = PendingFile segments → (length segments ≤ INLINE_EXTENT_COUNT)%nat ∧
     Builder.check_segments size true 0 segments = Ok () ∧ Forall segment_ok segments) →
  unplaced (push (<[Z.to_nat (parent - 1) := {| pn_inode := pn_inode pnode; pn_content := PendingDirectory (push es entry) |}]> nodes)
    {| pn_inode := Builder.pending_inode kind mode (Z.of_nat (length nodes) + 1) size parent; pn_content := content |}).
Proof.
  intros Hu Hpar Hdir Hm Hs Hp Hc. set (child := {| pn_inode := _; pn_content := content |}).
  assert (∀ n node, node_at (push (<[Z.to_nat (parent - 1) := {| pn_inode := pn_inode pnode; pn_content := PendingDirectory (push es entry) |}]> nodes) child) n = Some node →
    n = Z.of_nat (length nodes) + 1 ∧ node = child ∨
    ∃ old, node_at nodes n = Some old ∧ pn_inode node = pn_inode old ∧ (pn_content node = pn_content old ∨ ∃ es, pn_content node = PendingDirectory es)) as Hold.
  { intros n node Hn. pose proof (node_at_bounds _ _ _ Hn) as Hb. pose proof (node_at_bounds _ _ _ Hpar) as Hpb.
    apply node_at_is in Hn as (k & -> & Hk). unfold push in Hk, Hb. rewrite length_app, length_insert in Hb. cbn in Hb.
    rewrite node_at_index. apply lookup_app_Some in Hk as [Hk|[Hge Hk]].
    - right. apply list_lookup_insert_Some in Hk as [(<- & <- & Hlt)|[Hne Hk]]; [|by eauto].
      exists pnode. rewrite <- node_at_index. split_and!; [|done|by eauto]. rewrite <- Hpar. f_equal. lia.
    - rewrite length_insert in *. left. destruct (k - length nodes)%nat as [|j] eqn:E; cbn in Hk; [|done].
      injection Hk as <-. split; [lia|done]. }
  split.
  - intros n node [[-> ->]|(old & Ho & -> & _)]%Hold; [by exists mode, size, parent|]. by apply (un_shape _ Hu n old).
  - intros n node segments [[-> ->]|(old & Ho & Hi & Hcon)]%Hold E; [by apply Hc|].
    destruct Hcon as [Hcon|(es' & Hcon)]; [|congruence]. rewrite Hi. apply (un_file _ Hu n old); [done|congruence].
Qed.

Lemma next_inode_spec (b : builder) :
  wp Builder.allocate_inode (λ n b', b' = b ∧ n = Z.of_nat (length (ib_nodes b)) + 1 ∧ n ≤ u64_max ∧
    n ≤ Z.of_nat (length (ib_groups b)) * 256) any_error b.
Proof.
  unfold Builder.allocate_inode. wp_steps; bool_simpl; try done.
  repeat match goal with
  | H : checked_add _ _ _ = Some _ |- _ => apply checked_add_Some in H as [-> ?]
  | H : checked_mul _ _ _ = Some _ |- _ => apply checked_mul_Some in H as [-> ?]
  end. unfold PHASE2_INODES_PER_GROUP in *. split_and!; try done; lia.
Qed.

(** A node with its entry has been added to the pending tree. *)
Definition node_added (b : builder) (parent : Z) (name : list Z) (node : PendingNode) (b' : builder) : Prop :=
  ib_device b' = ib_device b ∧ ib_superblock b' = ib_superblock b ∧ ib_groups b' = ib_groups b ∧
  ∃ pnode es, node_at (ib_nodes b) parent = Some pnode ∧ pn_content pnode = PendingDirectory es ∧ name ∉ pde_name <$> es ∧
    ib_nodes b' = push (<[Z.to_nat (parent - 1) := {| pn_inode := pn_inode pnode;
        pn_content := PendingDirectory (push es {| pde_name := name; pde_inode := Z.of_nat (length (ib_nodes b)) + 1 |}) |}]> (ib_nodes b)) node.

Lemma insert_node_spec (b : builder) parent name kind mode size content n : builder_ok b → bytes_ok name →
  (kind = match content with PendingDirectory _ => NodeKind.Directory | PendingFile _ => NodeKind.Regular end) →
  (∀ es, content = PendingDirectory es → es = []) →
  (∀ segments, content = PendingFile segments → (length segments ≤ INLINE_EXTENT_COUNT)%nat ∧
     Builder.check_segments size true 0 segments = Ok () ∧ Forall segment_ok segments) →
  0 ≤ mode ≤ u16_max → is_u64 size → 0 ≤ parent →
  n = Z.of_nat (length (ib_nodes b)) + 1 → n ≤ Z.of_nat (length (ib_groups b)) * 256 →
  wp (Builder.insert_node parent name (Builder.pending_inode kind mode n size parent) content)
    (λ _ b', builder_ok b' ∧ node_added b parent name {| pn_inode := Builder.pending_inode kind mode n size parent; pn_content := content |} b') any_error b.
Proof.
  intros [Bv Bp Bu Bc Bn Bd] Hname Hkind Hnil Hfile Hmode Hsize Hpar Hn Hmax. unfold Builder.insert_node. wp_steps; try done.
  repeat match goal with
  | H : checked_add _ _ _ = Some _ |- _ => apply checked_add_Some in H as [-> ?]
  | H : checked_sub _ _ = Some _ |- _ => apply checked_sub_Some in H as [-> ?]
  | H : ib_nodes b !! _ = Some ?x |- _ => rename x into pnode; rename H into Hp end. rewrite <- Hn in *.
  assert (node_at (ib_nodes b) parent = Some pnode) as Hat by (unfold node_at; by rewrite decide_True).
  destruct (pn_content pnode) as [es|segs] eqn:Ec; [|by wp_steps]. unfold Builder.on_format. wp_steps; [done|]. cbn [Inode.generation Inode.kind Builder.pending_inode].
  destruct (DirectoryEntry.new n n kind name) as [entry|e|] eqn:En; cbn [wpo]; [|done|].
  2:{ revert En. unfold DirectoryEntry.new. intros En. exfalso. revert En. no_abort. }
  wp_steps. assert (is_u64 parent) as Hp64 by (pose proof (node_at_bounds _ _ _ Hat); split; lia).
  assert (name ∉ pde_name <$> es) as Hfresh.
  { intros (e & -> & He)%list_elem_of_fmap. match goal with H : any _ _ = false |- _ => rewrite any_false in H; specialize (H e He); rename H into Hx end.
    by apply bool_decide_eq_false in Hx. }
  split; [|split; [done|split; [done|split; [done|rewrite <- Hn; by eauto 10]]]]. split.
  - done.
  - cbn. rewrite Hn in *. eapply planned_insert; try done.
    + unfold listing. cbn. destruct content; [by apply Hnil|done].
    + by exists entry.
  - cbn. rewrite Hn. by eapply unplaced_insert.
  - cbn. unfold push. rewrite length_app, length_insert. cbn. lia.
  - done.
  - done.
Qed.

Lemma create_directory_spec (b : builder) parent name mode : builder_ok b → bytes_ok name → 0 ≤ mode ≤ u16_max → 0 ≤ parent →
  wp (Builder.create_directory parent name mode)
    (λ n b', builder_ok b' ∧ n = Z.of_nat (length (ib_nodes b)) + 1 ∧
       node_added b parent name {| pn_inode := Builder.pending_inode NodeKind.Directory mode n 0 parent; pn_content := PendingDirectory [] |} b')
    any_error b.
Proof.
  intros Hb Hname Hmode Hpar. unfold Builder.create_directory. wp_step. eapply wp_mono; [apply next_inode_spec|cbv beta|done].
  intros n b' (-> & Hn & _ & Hmax). wp_step.
  eapply wp_mono; [apply (insert_node_spec b parent name NodeKind.Directory mode 0 (PendingDirectory []) n); try done|cbv beta|done].
  { by intros es [= ->]. }
  intros _ b' [Hok Hadd]. by wp_step.
Qed.

Lemma create_sparse_file_spec (b : builder) parent name size segments mode : builder_ok b → bytes_ok name → 0 ≤ mode ≤ u16_max →
  0 ≤ parent → is_u64 size → Forall segment_ok segments →
  wp (Builder.create_sparse_file parent name size segments mode)
    (λ n b', builder_ok b' ∧ n = Z.of_nat (length (ib_nodes b)) + 1 ∧
       node_added b parent name {| pn_inode := Builder.pending_inode NodeKind.Regular mode n size parent; pn_content := PendingFile segments |} b')
    any_error b.
Proof.
  intros Hb Hname Hmode Hpar Hsize Hseg. unfold Builder.create_sparse_file. wp_steps; [done|].
  match goal with H : (_ <? _)%nat = false |- _ => apply Nat.ltb_ge in H; rename H into Hlen end.
  destruct (Builder.check_segments size true 0 segments) as [[]|e|] eqn:Ec; cbn [wpo]; [|done|].
  2:{ exfalso. revert Ec. generalize true 0. clear. induction segments as [|[o x] l IH]; intros f p; cbn [Builder.check_segments]; [done|].
      apply bind_no_abort; [apply ok_or_no_abort|]. intros stop. apply bind_no_abort; [apply err_if_no_abort|]. intros _ E. by apply IH in E. }
  wp_step. eapply wp_mono; [apply next_inode_spec|cbv beta|done]. intros n b' (-> & Hn & _ & Hmax). wp_step.
  eapply wp_mono; [apply (insert_node_spec b parent name NodeKind.Regular mode size (PendingFile segments) n); try done|cbv beta|done].
  { by intros segs [= ->]. }
  intros _ b' [Hok Hadd]. by wp_step.
Qed.

Lemma create_file_spec (b : builder) parent name bytes mode : builder_ok b → bytes_ok name → 0 ≤ mode ≤ u16_max → 0 ≤ parent →
  bytes_ok bytes → Z.of_nat (length bytes) ≤ u32_max * 4096 →
  wp (Builder.create_file parent name bytes mode)
    (λ n b', builder_ok b' ∧ n = Z.of_nat (length (ib_nodes b)) + 1 ∧
       node_added b parent name {| pn_inode := Builder.pending_inode NodeKind.Regular mode n (Z.of_nat (length bytes)) parent;
                                   pn_content := PendingFile [(0, bytes)] |} b') any_error b.
Proof.
  intros Hb Hname Hmode Hpar Hok Hlen. apply create_sparse_file_spec; try done.
  - unfold is_u64, u32_max, u64_max in *. lia.
  - by apply Forall_singleton.
Qed.

(** ** A new builder *)

Lemma group_count_pos c g n : group_count c g = Ok n → 0 ≤ c → 0 < g → MINIMUM_VOLUME_BLOCKS ≤ c → 0 < n.
Proof.
  unfold group_count, try_u32. intros H Hc Hg Hmin. oks. bool_simpl.
  repeat match goal with H : checked_add _ _ _ = Some _ |- _ => apply checked_add_Some in H as [-> _] end.
  destruct (_ <=? _); [|done]. simplify_eq. change MINIMUM_VOLUME_BLOCKS with 18 in Hmin. apply Z.div_str_pos. lia.
Qed.

Lemma new_spec (device : D) uuid label b : bd_ok device → 0 ≤ block_count device → length uuid = 16%nat → bytes_ok uuid → bytes_ok label →
  from_utf8 label = true → Builder.new device uuid label = Ok b →
  builder_ok b ∧ ib_device b = device ∧ ib_nodes b = [Builder.root_node] ∧ block_size device = BLOCK_SIZE ∧
  Superblock.capacity_blocks (ib_superblock b) = block_count device ∧ block_count device * 4096 ≤ u64_max.
Proof.
  intros Hok Hc Hul Hu Hl Hutf H. unfold Builder.new in H. apply bind_unit_Ok in H as [Hbs%err_if_Ok_iff H].
  apply negb_false_iff, Nat.eqb_eq in Hbs. apply bind_Ok_iff in H as (bytes & Hb & H).
  apply ok_or_Ok, checked_mul_Some in Hb as [-> Hmax]. change BLOCK_SIZE_U64 with 4096 in *.
  apply bind_Ok_iff in H as (sb & Hsb & H). cbv zeta in H. set (o := FormatOptions.new _ _ _) in Hsb.
  destruct (Superblock.format_phase3 o) as [sb'|e|] eqn:Ef; cbn [map_err] in Hsb; [|done..]. injection Hsb as ->.
  apply bind_unit_Ok in H as [_ H]. apply bind_Ok_iff in H as (gs & Hgs & H). injection H as <-.
  assert (Formatting.options_typed o) as Ho.
  { unfold o, Formatting.options_typed, FormatOptions.new. cbn. unfold is_u64. split_and!; try done; lia. }
  destruct (Formatting.format_phase3_valid _ _ Ho Ef) as (Ht & _ & H3).
  assert (Superblock.validate sb None ReadOnly = Ok () ∧ Superblock.allocation_group_blocks sb = DEFAULT_ALLOCATION_GROUP_BLOCKS ∧
    Superblock.capacity_blocks sb = block_count device ∧ 0 < Superblock.allocation_group_count sb) as (Hv & Hagb & Hcap & Hpos).
  { unfold Superblock.format_phase3, Superblock.format_phase2 in Ef. cbv zeta in Ef. oks. repeat match goal with u : unit |- _ => destruct u end.
    split; [done|]. match goal with H : Superblock.format o = Ok _ |- _ => unfold Superblock.format in H; cbv zeta in H; oks end.
    split; [done|]. change BLOCK_SIZE_U64 with 4096 in *. split; [by apply Z.div_mul|].
    match goal with H : group_count _ _ = Ok _ |- _ => apply (group_count_pos _ _ _ H) end; bool_simpl; [|done|done].
    apply Z.div_pos; [|done]. change (0 ≤ block_count device * 4096). lia. }
  destruct (plan_groups_spec _ _ _ _ Hgs) as [Hlen Hplan].
  assert (is_u32 (Superblock.allocation_group_count sb)) as Hcount by apply Ht. unfold is_u32 in Hcount.
  split; [|done]. split; cbn.
  - split; try done. rewrite Hlen. lia.
  - apply planned_root.
  - split.
    + intros n node (k & -> & Hk)%node_at_is. destruct k as [|k]; cbn in Hk; [|done]. injection Hk as <-. by exists 493, 0, 1.
    + intros n node segs (k & -> & Hk)%node_at_is. destruct k as [|k]; cbn in Hk; [|done]. by injection Hk as <-.
  - rewrite Hlen. lia.
  - done.
  - done.
Qed.
End builder.
