(* ===== verification/ImageBitmaps.v ===== *)
(** * Bitmaps of an image

    The bitmaps that [write_metadata] builds: the metadata and the blocks of the
    nodes are marked, the first inodes are taken, and the counts are right. *)

From Stdlib Require Import ZArith Lia.
From stdpp Require Import base list numbers option gmap.
From S2P Require Import Prelude NullfsBytes NullfsPhase3 NullfsSuperblock NullfsRecord NullfsInode.
From S2P Require Import NullfsDirectory NullfsAllocation BlockDevice Journal JournalDisk JournalSteps.
From S2P Require Import JournalRecovery JournalProps Volume Mutation Extents VolumeReads Session.
From S2P Require Import MutationSteps Atomicity Layout Ownership Mounted FileWrite Namespace DirectoryViews.
From S2P Require Import ImageBuilder ImagePlan ImageVolume ImageWrites ImageContents ImageNodes.

Open Scope Z_scope.

(** ** Setting bits *)

(** [bitmap'] is a block with the bits of [bitmap] and of [P]. *)
Record bits_set (bitmap : list Z) (P : nat → Prop) (bitmap' : list Z) : Prop := {
  bs_length : length bitmap' = length bitmap;
  bs_bytes : bytes_ok bitmap → bytes_ok bitmap';
  bs_test : ∀ j, bitmap_test bitmap' j = Some true ↔ bitmap_test bitmap j = Some true ∨ P j;
}.

Lemma bits_set_trans b1 P b2 Q b3 : bits_set b1 P b2 → bits_set b2 Q b3 → bits_set b1 (λ j, P j ∨ Q j) b3.
Proof.
  intros [L1 O1 T1] [L2 O2 T2]. split; [congruence|auto|]. intros j. rewrite T2, T1. tauto.
Qed.

Lemma bits_set_iff b1 (P Q : nat → Prop) b2 : (∀ j, P j ↔ Q j) → bits_set b1 P b2 → bits_set b1 Q b2.
Proof. intros HPQ [L O T]. split; [done..|]. intros j. by rewrite T, HPQ. Qed.

Lemma bits_set_refl b (P : nat → Prop) : (∀ j, ¬ P j) → bits_set b P b.
Proof. intros HP. split; [done..|]. intros j. specialize (HP j). tauto. Qed.

Lemma bits_set_clear b P b' j : bits_set b P b' → (∀ j, bitmap_test b j ≠ Some true) → (j / 8 < length b)%nat →
  (bitmap_test b' j = Some true ↔ P j) ∧ (bitmap_test b' j = Some false ↔ ¬ P j).
Proof.
  intros [L O T] Hb Hj. assert (bitmap_test b' j = Some true ↔ P j) as Hp by (rewrite T; specialize (Hb j); tauto).
  split; [done|]. rewrite <- Hp. destruct (bitmap_test b' j) as [[]|] eqn:E; [naive_solver|naive_solver|].
  apply bitmap_test_None in E. lia.
Qed.

Lemma zeros_clear n j : bitmap_test (zeros n) j ≠ Some true.
Proof.
  destruct (decide (j / 8 < n)%nat) as [Hj|Hj].
  - rewrite (bitmap_test_eq _ _ 0) by (by apply lookup_zeros). by rewrite Z.bits_0.
  - rewrite (proj2 (bitmap_test_None _ _)); [done|]. rewrite length_zeros. lia.
Qed.

Lemma set_bits_spec bits bitmap : wpo (Builder.set_bits bitmap bits) (bits_set bitmap (λ j, j ∈ bits)) (λ _, True).
Proof.
  revert bitmap. induction bits as [|bit bits IH]; intros bitmap; cbn [Builder.set_bits].
  { wp_step. apply bits_set_refl. intros j. apply not_elem_of_nil. }
  wp_step. destruct (bitmap_set bitmap bit true) as [b1|e|] eqn:E; cbn [wpo]; [|done|by apply bitmap_set_no_abort in E].
  eapply wpo_mono; [apply IH| |done]. intros b2 H2. eapply bits_set_iff; [|eapply bits_set_trans; [|exact H2]].
  2:{ split; [by destruct (bitmap_set_spec _ _ _ _ 0 E)|by eauto using bitmap_set_bytes|].
      intros j. rewrite (proj2 (bitmap_set_spec _ _ _ _ j E)). instantiate (1 := λ j, j = bit). destruct (decide (j = bit)); naive_solver. }
  intros j. rewrite elem_of_cons. done.
Qed.

(** Counting clear bits. *)
Lemma count_clear_spec bitmap bits c : wpo (Builder.count_clear bitmap c bits)
  (λ r, r = c + Z.of_nat (length (filter (λ j, bitmap_test bitmap j = Some false) bits)) ∧ (0 ≤ c ≤ u64_max → r ≤ u64_max)) (λ _, True).
Proof.
  revert c. induction bits as [|bit bits IH]; intros c; cbn [Builder.count_clear].
  { wp_step. cbn. lia. }
  rewrite filter_cons. case_bool_decide as E.
  - rewrite decide_True by done. wp_steps; [|done]. match goal with H : checked_add _ _ _ = _ |- _ => apply checked_add_Some in H as [-> ?] end.
    eapply wpo_mono; [apply IH| |done]. intros r [-> Hr]. cbn [length]. split; [lia|]. intros Hc. apply Hr. lia.
  - rewrite decide_False by done. apply IH.
Qed.

Section bitmaps.
Context {D : Type} {HD : BlockDevice D}.
Notation builder := (ImageBuilder D).

(** The data blocks of extents in a group. *)
Definition extent_bits (g : group) (es : list Extent.t) (j : nat) : Prop :=
  ∃ l p, (l, p) ∈ pairs es ∧ g_data g ≤ p < g_end g ∧ j = block_bit g p.

Lemma mark_extent_spec (b : builder) g bitmap e :
  wp (Builder.mark_extent g bitmap e) (λ bm b', b' = b ∧ bits_set bitmap (extent_bits g [e]) bm) any_error b.
Proof.
  unfold Builder.mark_extent, Builder.on_format. wp_steps; [|done].
  match goal with H : checked_add _ _ _ = _ |- _ => apply checked_add_Some in H as [-> ?] end.
  eapply wpo_mono; [apply set_bits_spec| |done]. intros bm Hbm. split; [done|]. eapply bits_set_iff; [|exact Hbm].
  intros j. rewrite list_elem_of_fmap. unfold extent_bits, pairs, range. cbn [fmap list_fmap concat]. rewrite app_nil_r.
  setoid_rewrite extent_pairs_elem. setoid_rewrite elem_of_seqZ. split.
  - intros (p & -> & Hp). exists (Extent.logical_first_block e + (p - Extent.physical_first_block e)), p.
    split_and!; try lia. done.
  - intros (l & p & [Hl ->] & Hp & ->). eexists. split; [done|]. lia.
Qed.

Lemma mark_node_spec (b : builder) g bitmap node :
  wp (Builder.mark_node g bitmap node)
    (λ bm b', b' = b ∧ bits_set bitmap (extent_bits g (Inode.used_extents (pn_inode node))) bm) any_error b.
Proof.
  unfold Builder.mark_node. fold (Inode.used_extents (pn_inode node)).
  apply (wp_for_fold _ (Builder.mark_extent g) (λ prior bm b', b' = b ∧ bits_set bitmap (extent_bits g prior) bm)); [| |done].
  - split; [done|]. apply bits_set_refl. by intros j (l & p & ?%not_elem_of_nil & _).
  - intros prior e bm b' _ [-> Hbm]. eapply wp_mono; [apply mark_extent_spec|cbv beta|done]. intros bm' b' [-> Hbm'].
    split; [done|]. eapply bits_set_iff; [|by eapply bits_set_trans]. intros j. unfold extent_bits. rewrite pairs_app.
    split.
    + intros [(l & p & H & ?)|(l & p & H & ?)]; exists l, p; (split; [apply elem_of_app; auto|done]).
    + intros (l & p & [H|H]%elem_of_app & ?); [left|right]; by exists l, p.
Qed.

Definition nodes_bits (g : group) (nodes : list PendingNode) (j : nat) : Prop :=
  ∃ node, node ∈ nodes ∧ extent_bits g (Inode.used_extents (pn_inode node)) j.

Lemma mark_nodes_spec (b : builder) g bitmap nodes :
  wp (for_fold nodes bitmap (Builder.mark_node g)) (λ bm b', b' = b ∧ bits_set bitmap (nodes_bits g nodes) bm) any_error b.
Proof.
  apply (wp_for_fold nodes (Builder.mark_node g) (λ prior bm b', b' = b ∧ bits_set bitmap (nodes_bits g prior) bm)); [| |done].
  - split; [done|]. apply bits_set_refl. by intros j (node & ?%not_elem_of_nil & _).
  - intros prior node bm b' _ [-> Hbm]. eapply wp_mono; [apply mark_node_spec|cbv beta|done]. intros bm' b' [-> Hbm'].
    split; [done|]. eapply bits_set_iff; [|by eapply bits_set_trans]. intros j. unfold nodes_bits.
    setoid_rewrite elem_of_app. setoid_rewrite list_elem_of_singleton. split.
    + intros [(x & ? & ?)|?]; [by exists x; auto|by exists node; auto].
    + intros (x & [?| ->] & ?); [left; by exists x|by right].
Qed.
End bitmaps.
