(* ===== verification/ImageMetadata.v ===== *)
(** * Metadata of an image

    [write_metadata] writes bitmaps, inode tables, descriptors, state, journal
    controls and superblocks that agree with the allocated nodes. *)

From Stdlib Require Import ZArith Lia.
From stdpp Require Import base list numbers option gmap.
From S2P Require Import Prelude NullfsBytes NullfsPhase3 NullfsSuperblock NullfsRecord NullfsInode.
From S2P Require Import NullfsDirectory NullfsAllocation BlockDevice Journal JournalDisk JournalSteps.
From S2P Require Import JournalRecovery JournalProps Volume Mutation Extents VolumeReads Session.
From S2P Require Import MutationSteps Atomicity Layout Ownership Mounted FileWrite Namespace DirectoryViews.
From S2P Require Import ImageBuilder ImagePlan ImageVolume ImageWrites ImageContents ImageNodes ImageBitmaps.

Open Scope Z_scope.

Section metadata.
Context {D : Type} {HD : BlockDevice D} {torn : list Z → Prop} {HC : CrashSafe D torn}.
Notation builder := (ImageBuilder D).
Context (sb : Superblock.t) (gs : list group) (Hiv : image_volume sb gs).
Context (nodes : list PendingNode).
Context (Hchain : ∀ n node, node_at nodes n = Some node → ∃ limit, Valid.chain limit 0 (Inode.used_extents (pn_inode node))).
Notation T := (image_table nodes).
Notation HL := (vg_layout _ _ (iv_volume _ _ Hiv)).
Notation Hagb := (vg_group_blocks _ _ (iv_volume _ _ Hiv)).

(** The bitmaps of the group with index [k]. *)
Record bitmaps_of (k : nat) (g : group) (v : disk) : Prop := {
  bm_framed : blocks_framed g (v (g_blocks g)) ∧ inodes_framed (v (g_inodes g));
  bm_data : ∀ p, g_data g ≤ p < g_end g → (bitmap_test (v (g_blocks g)) (block_bit g p) = Some true ↔ owned T p);
  bm_inodes : ∀ i, (i < 256)%nat → bitmap_test (v (g_inodes g)) i = Some (bool_decide (k * 256 + i < length nodes)%nat);
}.

Definition metadata_of (g : group) (x : Z) : Prop :=
  x = g_blocks g ∨ x = g_inodes g ∨ g_table g ≤ x < g_table g + PHASE2_INODE_TABLE_BLOCKS.

Lemma bitmaps_ext k g v v' : v' (g_blocks g) = v (g_blocks g) → v' (g_inodes g) = v (g_inodes g) → bitmaps_of k g v → bitmaps_of k g v'.
Proof using. intros E1 E2 [Hf Hd Hi]. split; rewrite ?E1, ?E2; done. Qed.

Lemma group_size k g : gs !! k = Some g → 0 ≤ g_start g ∧ g_start g < g_data g < g_end g ∧ g_end g - g_start g ≤ 8192.
Proof using Hiv.
  intros Hk. destruct (group_spec _ _ Hiv k g Hk) as (Ht & _ & Hl & _ & _ & Hd). destruct Ht, Hl. unfold is_u64 in *.
  rewrite (iv_group_blocks _ _ Hiv) in *. change DEFAULT_ALLOCATION_GROUP_BLOCKS with 8192 in *. lia.
Qed.

(** The bits of the nodes are those of the blocks they own. *)
Lemma nodes_bits_owned k g p : gs !! k = Some g → g_data g ≤ p < g_end g → nodes_bits g nodes (block_bit g p) ↔ owned T p.
Proof using Hiv Hchain.
  intros Hk Hp. split.
  - intros (node & Hn & l & p' & Hpair & Hp' & E). apply (block_bit_inj sb gs HL k) in E; [|done..]. subst p'.
    apply list_elem_of_lookup in Hn as [j Hj]. rewrite <- node_at_index in Hj. destruct (Hchain _ _ Hj) as [limit Hc].
    exists (Z.of_nat j + 1), l, (pn_inode node). split; [unfold image_table; by rewrite Hj|]. by eapply pairs_elem.
  - intros (n & l & i & (node & Hn & ->)%fmap_Some & Hm). destruct (Hchain _ _ Hn) as [limit Hc].
    apply node_at_is in Hn as (j & -> & Hj). exists node. split; [by eapply list_elem_of_lookup_2|].
    exists l, p. split; [by eapply pairs_elem|done].
Qed.

Lemma group_bitmap k g bm1 bm2 : gs !! k = Some g →
  bits_set (zeros BLOCK_SIZE) (λ j, j ∈ Builder.group_bit g <$> range (g_start g) (g_data g)) bm1 →
  bits_set bm1 (nodes_bits g nodes) bm2 →
  is_block bm2 ∧ bytes_ok bm2 ∧ blocks_framed g bm2 ∧
  ∀ p, g_data g ≤ p < g_end g → (bitmap_test bm2 (block_bit g p) = Some true ↔ owned T p).
Proof using Hiv Hchain.
  intros Hk H1 H2. pose proof (group_size k g Hk) as Hs. pose proof (bits_set_trans _ _ _ _ _ H1 H2) as H12. pose proof BLOCK_SIZE_Z.
  assert (∀ p, g_start g ≤ p < g_end g → (block_bit g p / 8 < length (zeros BLOCK_SIZE))%nat) as Hin.
  { intros p Hp. rewrite length_zeros. unfold block_bit. apply Nat.Div0.div_lt_upper_bound. lia. }
  assert (∀ p, g_start g ≤ p < g_end g → (block_bit g p ∈ Builder.group_bit g <$> range (g_start g) (g_data g)) ↔ p < g_data g) as Hmeta.
  { intros p Hp. rewrite list_elem_of_fmap. setoid_rewrite elem_of_seqZ. unfold Builder.group_bit, block_bit. split.
    - intros (q & E & Hq). lia.
    - intros Hlt. exists p. split; [done|lia]. }
  split_and!.
  - unfold is_block. rewrite (bs_length _ _ _ H12). apply length_zeros.
  - apply (bs_bytes _ _ _ H12), zeros_ok.
  - split.
    + intros p Hp. apply (bits_set_clear _ _ _ _ H12 (zeros_clear _)); [apply Hin; lia|]. left. apply Hmeta; lia.
    + intros bit Hbit. rewrite (bs_test _ _ _ H12). intros [?%zeros_clear|[Hb|(node & _ & l & p & _ & Hp & ->)]]; [done| |].
      * apply list_elem_of_fmap in Hb as (q & -> & Hq%elem_of_seqZ). unfold Builder.group_bit in Hbit. lia.
      * unfold block_bit in Hbit. lia.
  - intros p Hp. rewrite (proj1 (bits_set_clear _ _ _ _ H12 (zeros_clear _) (Hin p ltac:(lia)))), (nodes_bits_owned k g p Hk Hp).
    rewrite (Hmeta p) by lia. split; [intros [?|?]; [lia|done]|auto].
Qed.

Lemma inode_bitmap k bm : bits_set (zeros BLOCK_SIZE) (λ j, j ∈ seq 0 (Nat.min (length nodes - k * 256) 256)) bm →
  is_block bm ∧ bytes_ok bm ∧ inodes_framed bm ∧
  ∀ i, (i < 256)%nat → bitmap_test bm i = Some (bool_decide (k * 256 + i < length nodes)%nat).
Proof using.
  intros H1. pose proof BLOCK_SIZE_Z. split_and!.
  - unfold is_block. rewrite (bs_length _ _ _ H1). apply length_zeros.
  - apply (bs_bytes _ _ _ H1), zeros_ok.
  - intros bit Hbit. rewrite (bs_test _ _ _ H1). intros [?%zeros_clear|Hb%elem_of_seq]; [done|lia].
  - intros i Hi. assert ((i / 8 < length (zeros BLOCK_SIZE))%nat) as Hin by (rewrite length_zeros; apply Nat.Div0.div_lt_upper_bound; lia).
    destruct (bits_set_clear _ _ _ _ H1 (zeros_clear _) Hin) as [Ht Hf].
    case_bool_decide; [apply Ht|apply Hf]; rewrite elem_of_seq; lia.
Qed.

(** ** The groups *)

Definition free_blocks_of (g : group) (v : disk) : Z := Z.of_nat (length (free_in g (v (g_blocks g)))).
Definition free_inodes_of (g : group) (v : disk) : Z :=
  Z.of_nat (length (filter (λ i, bitmap_test (v (g_inodes g)) i = Some false) (seq 0 256))).

Lemma group_metadata k g : gs !! k = Some g → 0 ≤ g_blocks g ∧ 0 ≤ g_inodes g ∧ 0 ≤ g_table g ∧ g_blocks g ≠ g_inodes g ∧
  (∀ x, metadata_of g x → g_start g ≤ x < g_data g ∧ Superblock.first_allocatable_block sb ≤ x) ∧
  ¬ (g_table g ≤ g_blocks g < g_table g + 16) ∧ ¬ (g_table g ≤ g_inodes g < g_table g + 16).
Proof using Hiv.
  intros Hk. destruct (group_spec _ _ Hiv k g Hk) as (Ht & _ & Hl & _ & _ & Hd). destruct Hl.
  pose proof (SuperblockCodec.geo_first _ (iv_geometry _ _ Hiv)) as Hf. change PHASE3_FIRST_ALLOCATABLE_BLOCK with 150 in Hf.
  unfold metadata_of, PHASE2_INODE_TABLE_BLOCKS in *. split_and!; try lia; done.
Qed.

Lemma metadata_apart k1 k2 g1 g2 x : gs !! k1 = Some g1 → gs !! k2 = Some g2 → metadata_of g1 x → metadata_of g2 x → k1 = k2.
Proof using Hiv.
  intros H1 H2 M1 M2. pose proof (group_size k1 g1 H1). pose proof (group_size k2 g2 H2).
  destruct (group_metadata k1 g1 H1) as (_ & _ & _ & _ & W1 & _), (group_metadata k2 g2 H2) as (_ & _ & _ & _ & W2 & _).
  specialize (W1 x M1). specialize (W2 x M2).
  eapply (within_index sb gs HL Hagb k1 k2 g1 g2 x); [done|done|unfold within; lia..].
Qed.

Lemma zero_table_spec (b : builder) v first : shows b v → 0 ≤ first →
  wp (for_each (range 0 PHASE2_INODE_TABLE_BLOCKS) (λ offset, Builder.on_device (write_blocks (first + offset) (zeros BLOCK_SIZE))))
    (λ _ b', ∃ v', written b v' b' ∧ ∀ x, ¬ first ≤ x < first + 16 → v' x = v x) any_error b.
Proof using.
  intros Hs Hf. eapply wp_mono; [apply (block_loop (range 0 PHASE2_INODE_TABLE_BLOCKS) (λ o, first + o) (λ _ _, True) _ b v)|cbv beta|done].
  - apply NoDup_seqZ.
  - intros a a' _ _. lia.
  - intros o b1 v1 Ho%elem_of_seqZ Hw. eapply wp_mono; [apply (write_block_spec b1 v1)|cbv beta|done].
    + by eapply written_shows.
    + lia.
    + apply length_zeros.
    + apply zeros_ok.
    + intros _ b2 Hw2. by exists (zeros BLOCK_SIZE).
  - done.
  - intros _ b' (v' & Hw & _ & Ho). exists v'. split; [done|]. intros x Hx. apply Ho.
    intros (o & -> & Hr%elem_of_seqZ)%list_elem_of_fmap. unfold PHASE2_INODE_TABLE_BLOCKS in Hr. lia.
Qed.

Lemma write_group_spec (b : builder) v counts k g : shows b v → ib_nodes b = nodes → gs !! k = Some g →
  wp (Builder.write_group counts (k, g))
    (λ r b', ∃ v', written b v' b' ∧ bitmaps_of k g v' ∧ r = (counts.1 + free_blocks_of g v', counts.2 + free_inodes_of g v') ∧
       (0 ≤ counts.1 ≤ u64_max → 0 ≤ counts.2 ≤ u64_max → 0 ≤ r.1 ≤ u64_max ∧ 0 ≤ r.2 ≤ u64_max) ∧
       ∀ x, ¬ metadata_of g x → v' x = v x) any_error b.
Proof using Hiv Hchain.
  intros Hs Hn Hk. destruct (group_spec _ _ Hiv k g Hk) as (_ & _ & Hl & _ & Htab & _). pose proof (gl_inodes_in_group _ _ _ Hl) as Hig.
  destruct (group_metadata k g Hk) as (G1 & G2 & G3 & G4 & _ & G6 & G7).
  unfold Builder.write_group, Builder.on_format. destruct counts as [fb fi]. cbn [fst snd]. wp_steps.
  eapply wpo_mono; [apply set_bits_spec| |done]. intros bm1 H1. cbv beta. wp_steps. rewrite Hn.
  eapply wp_mono; [apply mark_nodes_spec|cbv beta|done]. intros bm2 b' [-> H2]. wp_steps. rewrite Hig.
  change (Z.to_nat PHASE2_INODES_PER_GROUP) with 256%nat.
  eapply wpo_mono; [apply set_bits_spec| |done]. intros bmi Hi. cbv beta. wp_steps.
  eapply wpo_mono; [apply count_clear_spec| |done]. intros fb' [-> Hfb]. cbv beta. wp_steps.
  eapply wpo_mono; [apply count_clear_spec| |done]. intros fi' [-> Hfi]. cbv beta. wp_step.
  destruct (group_bitmap k g bm1 bm2 Hk H1 H2) as (Hblk2 & Hok2 & Hfr2 & Hown). destruct (inode_bitmap k bmi Hi) as (Hblki & Hoki & Hfri & Hini).
  eapply wp_mono; [by apply (write_block_spec b v)|cbv beta|done]. intros _ b1 Hw1. wp_step.
  eapply wp_mono; [apply (write_block_spec b1 _ _ bmi (written_shows _ _ _ Hw1)); done|cbv beta|done]. intros _ b2 Hw2. rewrite Htab. wp_step.
  eapply wp_mono; [apply (zero_table_spec b2 _ _ (written_shows _ _ _ Hw2) G3)|cbv beta|done]. intros _ b3 (v3 & Hw3 & Ho3). wp_step.
  assert (v3 (g_blocks g) = bm2) as E1 by (rewrite Ho3 by done; unfold upd; by rewrite decide_False, decide_True).
  assert (v3 (g_inodes g) = bmi) as E2 by (rewrite Ho3 by done; unfold upd; by rewrite decide_True).
  exists v3. split; [by do 2 (eapply written_trans; [eassumption|])|]. split; [|split; [|split]].
  - split; rewrite ?E1, ?E2; done.
  - unfold free_blocks_of, free_inodes_of, free_in. rewrite E1, E2, length_filter_fmap. done.
  - cbn [fst snd]. intros C1 C2. specialize (Hfb C1). specialize (Hfi C2). lia.
  - intros x Hx. unfold metadata_of, PHASE2_INODE_TABLE_BLOCKS in Hx. rewrite Ho3 by tauto. unfold upd. rewrite !decide_False by tauto. done.
Qed.

Lemma indexed_elem k (g : group) (l : list group) : (k, g) ∈ Builder.indexed l ↔ l !! k = Some g.
Proof using.
  unfold Builder.indexed. rewrite list_elem_of_lookup. setoid_rewrite lookup_zip_Some. split.
  - intros (j & Hk%lookup_seq & Hg). destruct Hk as [-> _]. done.
  - intros Hg. exists k. split; [|done]. apply lookup_seq. apply lookup_lt_Some in Hg. done.
Qed.

Lemma indexed_snd (l : list group) : (Builder.indexed l).*2 = l.
Proof using. unfold Builder.indexed. apply snd_zip. by rewrite length_seq. Qed.

Lemma indexed_NoDup (l : list group) : NoDup (Builder.indexed l).
Proof using. apply NoDup_fmap_1 with fst. unfold Builder.indexed. rewrite fst_zip by (by rewrite length_seq). apply NoDup_seq. Qed.

(** The bitmaps of all groups, and the free counts. *)
Lemma write_groups_spec (b : builder) v : shows b v → ib_nodes b = nodes →
  wp (for_fold (Builder.indexed gs) (0, 0) Builder.write_group)
    (λ r b', ∃ v', written b v' b' ∧ (∀ k g, gs !! k = Some g → bitmaps_of k g v') ∧ r = (free_blocks gs v', free_inodes gs v') ∧
       (0 ≤ r.1 ≤ u64_max ∧ 0 ≤ r.2 ≤ u64_max) ∧ ∀ x, (∀ k g, gs !! k = Some g → ¬ metadata_of g x) → v' x = v x) any_error b.
Proof using Hiv Hchain.
  intros Hs Hn. apply (wp_for_fold (Builder.indexed gs) Builder.write_group (λ prior r b', ∃ v', written b v' b' ∧
    (∀ k g, (k, g) ∈ prior → bitmaps_of k g v') ∧
    r = (total_of (λ g, free_blocks_of g v') prior.*2, total_of (λ g, free_inodes_of g v') prior.*2) ∧
    (0 ≤ r.1 ≤ u64_max ∧ 0 ≤ r.2 ≤ u64_max) ∧ ∀ x, (∀ k g, (k, g) ∈ prior → ¬ metadata_of g x) → v' x = v x)).
  - exists v. split; [by apply written_refl|]. split; [by intros k g ?%not_elem_of_nil|]. done.
  - intros prior [k g] r b1 [rest Hrest] (v1 & Hw & Hp & Hr & Hr64 & Ho).
    assert (∀ x, x ∈ prior ++ [(k, g)] → x ∈ Builder.indexed gs) as Hsub by (intros x ?; rewrite Hrest; set_solver).
    assert (gs !! k = Some g) as Hk by (apply indexed_elem, Hsub; set_solver).
    assert ((k, g) ∉ prior) as Hnew.
    { pose proof (indexed_NoDup gs) as Hnd. rewrite Hrest in Hnd. apply list.NoDup_app in Hnd as (Hnd & _ & _).
      apply list.NoDup_app in Hnd as (_ & Hd & _). intros Hin. apply (Hd _ Hin). set_solver. }
    assert (ib_nodes b1 = nodes) as Hn1 by (destruct Hw as (d & -> & _); done).
    eapply wp_mono; [by apply (write_group_spec b1 v1 r k g (written_shows _ _ _ Hw))|cbv beta|done].
    intros r' b2 (v2 & Hw2 & Hbm & Hr' & H64 & Ho2).
    assert (∀ k' g', (k', g') ∈ prior → v2 (g_blocks g') = v1 (g_blocks g') ∧ v2 (g_inodes g') = v1 (g_inodes g')) as Hsame.
    { intros k' g' Hin. assert (gs !! k' = Some g') as Hk' by (apply indexed_elem, Hsub; set_solver).
      assert (k' ≠ k) as Hne by (intros ->; assert (g' = g) as -> by congruence; done).
      split; apply Ho2; intros Hm; apply Hne; eapply metadata_apart; [done|done| |done|done|done| |done]; unfold metadata_of; auto. }
    exists v2. split; [by eapply written_trans|]. split; [|split; [|split]].
    + intros k' g' [Hin|[= -> ->]%list_elem_of_singleton]%elem_of_app; [|done].
      destruct (Hsame k' g' Hin). eapply bitmaps_ext; [done..|by apply Hp].
    + rewrite Hr', Hr. cbn [fst snd]. rewrite fmap_app. cbn [fmap list_fmap snd]. rewrite !total_of_snoc.
      do 2 f_equal; apply total_of_ext; intros g' ([k' g''] & -> & Hin)%list_elem_of_fmap; destruct (Hsame k' g'' Hin) as [S1 S2];
        cbn [snd]; unfold free_blocks_of, free_inodes_of; by rewrite ?S1, ?S2.
    + apply H64; apply Hr64.
    + intros x Hx. rewrite Ho2, Ho; [done|intros k' g' Hin; apply (Hx k' g')|apply (Hx k g)]; set_solver.
  - intros r b' (v' & Hw & Hp & Hr & Hr64 & Ho). exists v'. split; [done|]. split; [|split; [|split]].
    + intros k g Hk. apply Hp. by apply indexed_elem.
    + rewrite Hr, indexed_snd. done.
    + done.
    + intros x Hx. apply Ho. intros k g Hk%indexed_elem. by eapply Hx.
Qed.

(** ** The inode tables *)

Context (Htyped : ∀ n node, node_at nodes n = Some node → Inode.typed (pn_inode node)).

(** The bytes of the slot of the node with index [j]. *)
Definition slot_holds (j : nat) (x : list Z) : Prop :=
  match nodes !! j with
  | Some node => Inode.encode (pn_inode node) = Ok x
  | None => x = zeros INODE_BYTES
  end.

Definition table_block_holds (first : nat) (block : list Z) : Prop := is_block block ∧
  ∀ slot, (slot < 16)%nat → slot_holds (first + slot) (slice (slot * INODE_BYTES) INODE_BYTES block).

Lemma store_node_spec (b : builder) first block slot : ib_nodes b = nodes → is_block block → bytes_ok block → (slot < 16)%nat →
  wp (Builder.store_node first block slot)
    (λ block' b', b' = b ∧ is_block block' ∧ bytes_ok block' ∧
       (slice (slot * INODE_BYTES) INODE_BYTES block = zeros INODE_BYTES →
        slot_holds (first + slot) (slice (slot * INODE_BYTES) INODE_BYTES block')) ∧
       ∀ s, (s < 16)%nat → s ≠ slot → slice (s * INODE_BYTES) INODE_BYTES block' = slice (s * INODE_BYTES) INODE_BYTES block) any_error b.
Proof using Htyped.
  intros Hn Hb Hok Hs. unfold Builder.store_node, Builder.on_format. wp_steps. rewrite Hn. unfold slot_holds.
  destruct (nodes !! (first + slot)%nat) as [node|] eqn:En; [|by wp_steps]. wp_steps.
  destruct (Inode.encode (pn_inode node)) as [x|e|] eqn:Ex; cbn [wpo]; [|done|by apply InodeCodec.inode_encode_no_abort in Ex].
  rewrite <- node_at_index in En. pose proof (Inode.typed_extents_length _ (Htyped _ _ En)) as Hl.
  destruct (InodeCodec.inode_encode_bytes _ _ _ Hl Ex) as [Hlx Hokx]. pose proof BLOCK_SIZE_Z. unfold is_block in *.
  assert (slot * INODE_BYTES + length x ≤ length block)%nat as Hfit by (rewrite Hlx, Hb; unfold INODE_BYTES; lia).
  wp_steps. split; [done|]. split; [by rewrite length_put_bytes|]. split; [by apply put_bytes_ok|]. split.
  - intros _. by rewrite slice_put_same.
  - intros s Hs' Hne. rewrite Hlx in Hfit. destruct (decide (s < slot)%nat).
    + apply slice_put_before; [unfold INODE_BYTES in *; lia|by rewrite Hlx].
    + apply slice_put_after; [rewrite Hlx; unfold INODE_BYTES in *; lia|by rewrite Hlx].
Qed.

Lemma store_nodes_spec (b : builder) first : ib_nodes b = nodes →
  wp (for_fold (seq 0 Builder.INODES_PER_BLOCK) (zeros BLOCK_SIZE) (Builder.store_node first))
    (λ block b', b' = b ∧ bytes_ok block ∧ table_block_holds first block) any_error b.
Proof using Htyped.
  clear Hiv Hchain. intros Hn. pose proof BLOCK_SIZE_Z.
  apply (wp_for_fold (seq 0 Builder.INODES_PER_BLOCK) (Builder.store_node first) (λ prior block b', b' = b ∧ is_block block ∧ bytes_ok block ∧
    (∀ s, (s < 16)%nat → s ∈ prior → slot_holds (first + s) (slice (s * INODE_BYTES) INODE_BYTES block)) ∧
    (∀ s, (s < 16)%nat → s ∉ prior → slice (s * INODE_BYTES) INODE_BYTES block = zeros INODE_BYTES))).
  - split; [done|]. split; [apply length_zeros|]. split; [apply zeros_ok|]. split; [by intros s _ ?%not_elem_of_nil|].
    intros s Hs _. apply slice_zeros. unfold INODE_BYTES. lia.
  - intros prior slot block b' [rest Hrest] (-> & Hb & Hok & Hd & Hz).
    assert (slot ∈ seq 0 Builder.INODES_PER_BLOCK ∧ slot ∉ prior) as [Hs%elem_of_seq Hnew].
    { pose proof (NoDup_seq 0 Builder.INODES_PER_BLOCK) as Hnd. rewrite Hrest in Hnd |- *. apply list.NoDup_app in Hnd as (Hnd & _ & _).
      apply list.NoDup_app in Hnd as (_ & Hd' & _). split; [set_solver|]. intros Hin. apply (Hd' _ Hin). set_solver. }
    unfold Builder.INODES_PER_BLOCK in Hs.
    eapply wp_mono; [by apply (store_node_spec b first block slot); [..|lia]|cbv beta|done].
    intros block' b' (-> & Hb' & Hok' & Hnew' & Hold'). split_and!; [done..| |].
    + intros s Hs' [Hin| ->%list_elem_of_singleton]%elem_of_app; [|by apply Hnew', Hz].
      rewrite Hold'; [by apply Hd|done|]. by intros ->.
    + intros s Hs' Hnot. rewrite Hold'; [apply Hz; [done|]| done|]; set_solver.
  - intros block b' (-> & Hb & Hok & Hd & _). split; [done|]. split; [done|]. split; [done|]. intros s Hs. apply Hd; [done|].
    apply elem_of_seq. unfold Builder.INODES_PER_BLOCK. lia.
Qed.

(** The table of a group. *)
Definition table_holds (k : nat) (g : group) (v : disk) : Prop :=
  ∀ tb, (tb < 16)%nat → table_block_holds (k * 256 + tb * 16) (v (g_table g + Z.of_nat tb)).

Lemma write_table_spec (b : builder) v k g : shows b v → ib_nodes b = nodes → gs !! k = Some g →
  wp (Builder.write_table (k, g))
    (λ _ b', ∃ v', written b v' b' ∧ table_holds k g v' ∧ ∀ x, ¬ g_table g ≤ x < g_table g + 16 → v' x = v x) any_error b.
Proof using Hiv Htyped.
  intros Hs Hn Hk. destruct (group_spec _ _ Hiv k g Hk) as (_ & _ & _ & _ & Htab & _). destruct (group_metadata k g Hk) as (_ & _ & G3 & _).
  unfold Builder.write_table. cbn [fst snd]. rewrite Htab.
  eapply wp_mono; [apply (block_loop (seq 0 (Z.to_nat PHASE2_INODE_TABLE_BLOCKS)) (λ tb, g_table g + Z.of_nat tb)
    (λ tb x, table_block_holds (k * 256 + tb * 16) x) _ b v)|cbv beta|done].
  - apply NoDup_seq.
  - intros tb tb' _ _. lia.
  - intros tb b1 v1 _ (d & -> & Hs1). unfold Builder.write_table_block. wp_step.
    eapply wp_mono; [by apply store_nodes_spec|cbv beta|done]. intros block b' (-> & Hok & Hb).
    eapply wp_mono; [apply (write_block_spec _ v1 _ _ Hs1); [lia|apply Hb|done]|cbv beta|done]. intros _ b2 Hw. exists block. split; [|done].
    exact Hb.
  - done.
  - intros _ b' (v' & Hw & Hb & Ho). exists v'. split; [done|]. split.
    + intros tb Htb. apply (Hb tb). apply elem_of_seq. change (Z.to_nat PHASE2_INODE_TABLE_BLOCKS) with 16%nat. lia.
    + intros x Hx. apply Ho. intros (tb & -> & Htb%elem_of_seq)%list_elem_of_fmap.
      change (Z.to_nat PHASE2_INODE_TABLE_BLOCKS) with 16%nat in Htb. lia.
Qed.

Lemma write_tables_spec (b : builder) v : shows b v → ib_nodes b = nodes →
  wp (for_each (Builder.indexed gs) Builder.write_table)
    (λ _ b', ∃ v', written b v' b' ∧ (∀ k g, gs !! k = Some g → table_holds k g v') ∧
       ∀ x, (∀ k g, gs !! k = Some g → ¬ g_table g ≤ x < g_table g + 16) → v' x = v x) any_error b.
Proof using Hiv Htyped.
  intros Hs Hn. eapply wp_mono; [apply (region_loop (Builder.indexed gs) (λ p x, g_table p.2 ≤ x < g_table p.2 + 16)
    (λ p v, table_holds p.1 p.2 v) Builder.write_table b v)|cbv beta|done].
  - apply indexed_NoDup.
  - intros [k g] [k' g'] x Hk%indexed_elem Hk'%indexed_elem Hx Hx'. cbn [snd] in *.
    assert (k' = k) as -> by (eapply (metadata_apart k' k g' g x); [done|done|unfold metadata_of; auto..]). congruence.
  - intros [k g] v1 v2 Hv Ht tb Htb. cbn [fst snd] in *. rewrite Hv by lia. by apply Ht.
  - intros [k g] b1 v1 Hk%indexed_elem Hw. eapply wp_mono; [apply (write_table_spec b1 v1 k g (written_shows _ _ _ Hw))|cbv beta|done].
    + destruct Hw as (d & -> & _). done.
    + done.
    + intros _ b2 (v2 & Hw2 & Ht & Ho). by exists v2.
  - done.
  - intros _ b' (v' & Hw & Ht & Ho). exists v'. split; [done|]. split.
    + intros k g Hk. by apply (Ht (k, g)), indexed_elem.
    + intros x Hx. apply Ho. intros [k g] Hk%indexed_elem. by eapply Hx.
Qed.

(** ** Records *)

Lemma write_encoded_spec {A} (enc : A → outcome FormatError.t (list Z)) dec typed {HB : BlockCodec enc dec typed} (b : builder) v p a :
  shows b v → 0 ≤ p → typed a →
  wp (x ← Builder.on_format (enc a); Builder.on_device (write_blocks p x))
    (λ _ b', ∃ x, written b (upd v p x) b' ∧ dec x = Ok a) any_error b.
Proof using.
  intros Hs Hp Ht. unfold Builder.on_format. wp_steps. destruct (enc a) as [x|e|] eqn:E; cbn [wpo]; [|done|by apply encode_no_abort in E].
  eapply wp_mono; [apply (write_block_spec b v p x Hs Hp); [by eapply encode_block|by eapply encode_ok]|cbv beta|done].
  intros _ b' Hw. exists x. split; [done|]. by eapply decode_encode.
Qed.

Lemma push_all_spec table ds pre : AllocationGroupTable.descriptors table = pre ++ replicate (42 - length pre) AllocationGroupDescriptor.default →
  AllocationGroupTable.descriptor_count table = Z.of_nat (length pre) → (length pre + length ds ≤ 42)%nat →
  Builder.push_all table ds = Ok (AllocationGroupTable.mk (AllocationGroupTable.first_descriptor_index table)
    (AllocationGroupTable.total_descriptor_count table) (AllocationGroupTable.table_block_index table) (AllocationGroupTable.table_block_count table)
    (AllocationGroupTable.physical_block table) (Z.of_nat (length (pre ++ ds)))
    ((pre ++ ds) ++ replicate (42 - length (pre ++ ds)) AllocationGroupDescriptor.default)).
Proof using.
  clear. revert table pre. induction ds as [|d ds IH]; intros table pre Hd Hc Hl; cbn [Builder.push_all].
  - rewrite app_nil_r, <- Hd, <- Hc. by destruct table.
  - unfold AllocationGroupTable.push. rewrite Hc, Nat2Z.id, (proj2 (Nat.leb_gt _ _)) by (unfold DESCRIPTORS_PER_BLOCK; cbn in Hl; lia).
    cbn [err_if]. rewrite bind_Ok, bind_mret. rewrite (IH _ (pre ++ [d])); cbn [AllocationGroupTable.descriptors AllocationGroupTable.descriptor_count].
    + rewrite <- !app_assoc. done.
    + rewrite Hd, insert_app_r_alt, Nat.sub_diag, length_app, <- app_assoc by lia. cbn [length]. f_equal.
      destruct (42 - length pre)%nat as [|m] eqn:E; [cbn in Hl; lia|]. cbn. f_equal. f_equal. lia.
    + rewrite length_app. cbn. lia.
    + rewrite length_app. cbn in *. lia.
Qed.

Lemma groups_few : (length gs ≤ 42)%nat.
Proof using Hiv. destruct (iv_descriptors _ _ Hiv) as (_ & _ & Hn & _). pose proof (iv_count _ _ Hiv). lia. Qed.

Lemma write_descriptors_spec (b : builder) v : shows b v → ib_groups b = gs → ib_superblock b = sb →
  wp (Builder.write_descriptors 0) (λ _ b', ∃ x, written b (upd v FIRST_DESCRIPTOR_BLOCK x) b' ∧ descriptors_hold sb gs x) any_error b.
Proof using Hiv.
  intros Hs Hg Hsb. destruct (iv_descriptors _ _ Hiv) as (_ & Hres & _). pose proof groups_few as Hl.
  unfold Builder.write_descriptors. wp_steps. rewrite Hg, Hsb, Hres. cbn [Z.to_nat Nat.mul]. rewrite drop_0, take_ge by exact Hl.
  unfold Builder.on_format at 1. wp_steps. rewrite (push_all_spec _ gs []) by done. cbn [wpo app length].
  match goal with |- wp (_ ← Builder.on_format (AllocationGroupTable.encode ?x sb); _) _ _ _ => set (table := x) end.
  assert (AllocationGroupTable.typed table) as Ht.
  { unfold wrap in table. split; cbn; try done.
    - unfold is_u32, u32_max. pose proof (Z.mod_pos_bound (Z.of_nat (length gs)) (2 ^ 32) ltac:(lia)). lia.
    - unfold u16_max. lia.
    - rewrite length_app, length_replicate. unfold DESCRIPTORS_PER_BLOCK. lia.
    - apply Forall_app_2; [|apply Forall_replicate, TableCodec.descriptor_default_typed].
      apply Forall_lookup. intros k g Hk. by apply (group_spec _ _ Hiv k g) in Hk as [? _]. }
  eapply wp_mono; [apply (write_encoded_spec _ _ _ (HB := TableCodec.table_codec sb) b v _ table Hs)|cbv beta|done].
  - done.
  - done.
  - intros _ b' (x & Hw & Hd). exists x. split; [exact Hw|]. exists table. split; [done|]. cbn. rewrite Nat2Z.id. apply take_app_length.
Qed.

(** ** All of it *)

(** The device holds the metadata of the nodes. *)
Record metadata_holds (v : disk) : Prop := {
  mh_bitmaps : ∀ k g, gs !! k = Some g → bitmaps_of k g v;
  mh_tables : ∀ k g, gs !! k = Some g → table_holds k g v;
  mh_descriptors : descriptors_hold sb gs (v FIRST_DESCRIPTOR_BLOCK);
  mh_state : FilesystemState.decode (v (Superblock.filesystem_state_block sb)) =
    Ok (FilesystemState.mk 1 1 0 (free_blocks gs v) (free_inodes gs v));
  mh_controls : ∀ slot, slot = 0 ∨ slot = 1 →
    JournalControl.decode (v (control_block sb slot)) = Ok (JournalControl.empty (slot + 1));
  mh_superblocks : Superblock.encode sb = Ok (v SUPERBLOCK_BLOCK) ∧
    v (Superblock.backup_superblock_block sb) = v SUPERBLOCK_BLOCK;
}.

Lemma write_controls_spec (b : builder) v : shows b v →
  wp (for_each (range 0 2) (λ control_index,
        control ← Builder.on_format (JournalControl.encode (JournalControl.empty (control_index + 1)));
        Builder.on_device (write_blocks (Superblock.journal_first_block sb + control_index) control)))
    (λ _ b', ∃ v', written b v' b' ∧ (∀ slot, slot = 0 ∨ slot = 1 →
       JournalControl.decode (v' (control_block sb slot)) = Ok (JournalControl.empty (slot + 1))) ∧
       ∀ x, x ≠ 20 → x ≠ 21 → v' x = v x) any_error b.
Proof using Hiv.
  intros Hs. pose proof (SuperblockCodec.geo_journal _ (iv_geometry _ _ Hiv)) as Hj. change PHASE3_JOURNAL_FIRST_BLOCK with 20 in Hj.
  eapply wp_mono; [apply (block_loop (range 0 2) (λ i, Superblock.journal_first_block sb + i)
    (λ i x, JournalControl.decode x = Ok (JournalControl.empty (i + 1))) _ b v)|cbv beta|done].
  - apply NoDup_seqZ.
  - intros i i' _ _. lia.
  - intros i b1 v1 Hi%elem_of_seqZ Hw.
    eapply wp_mono; [apply (write_encoded_spec _ _ _ (HB := ControlCodec.control_codec) b1 v1 _ (JournalControl.empty (i + 1)) (written_shows _ _ _ Hw))|cbv beta|done].
    + lia.
    + unfold JournalControl.typed, is_u64, is_u32, u64_max, u32_max. cbn. split_and!; lia || done.
    + intros _ b2 (x & Hw2 & Hx). by exists x.
  - done.
  - intros _ b' (v' & Hw & Hx & Ho). exists v'. split; [done|]. split.
    + intros slot Hslot. rewrite (control_block_eq sb (iv_geometry _ _ Hiv)), <- Hj. apply Hx. apply elem_of_seqZ. lia.
    + intros x H0 H1. apply Ho. rewrite Hj. intros (i & -> & Hi%elem_of_seqZ)%list_elem_of_fmap. lia.
Qed.

Lemma zero_head_spec (b : builder) v : shows b v →
  wp (for_each (range 0 (Superblock.first_allocatable_block sb)) (λ block, Builder.on_device (write_blocks block (zeros BLOCK_SIZE))))
    (λ _ b', ∃ v', written b v' b' ∧ ∀ x, 150 ≤ x → v' x = v x) any_error b.
Proof using Hiv.
  intros Hs. rewrite (SuperblockCodec.geo_first _ (iv_geometry _ _ Hiv)).
  eapply wp_mono; [apply (block_loop (range 0 PHASE3_FIRST_ALLOCATABLE_BLOCK) (λ o, o) (λ _ _, True) _ b v)|cbv beta|done].
  - apply NoDup_seqZ.
  - done.
  - intros o b1 v1 Ho%elem_of_seqZ Hw. eapply wp_mono; [apply (write_block_spec b1 v1)|cbv beta|done].
    + by eapply written_shows.
    + lia.
    + apply length_zeros.
    + apply zeros_ok.
    + intros _ b2 Hw2. by exists (zeros BLOCK_SIZE).
  - done.
  - intros _ b' (v' & Hw & _ & Ho). exists v'. split; [done|]. intros x Hx. apply Ho.
    intros (o & -> & Hr%elem_of_seqZ)%list_elem_of_fmap. change PHASE3_FIRST_ALLOCATABLE_BLOCK with 150 in Hr. lia.
Qed.

(** The data blocks and the metadata of the groups lie after block 150. *)
Lemma metadata_high k g x : gs !! k = Some g → metadata_of g x → 150 ≤ x.
Proof using Hiv.
  intros Hk Hx. destruct (group_metadata k g Hk) as (_ & _ & _ & _ & H & _). destruct (H x Hx) as [_ H150].
  by rewrite (SuperblockCodec.geo_first _ (iv_geometry _ _ Hiv)) in H150.
Qed.

Lemma metadata_not_data k g x : gs !! k = Some g → metadata_of g x → ¬ data_block gs x.
Proof using Hiv.
  intros Hk Hx (k' & g' & Hk' & Hx'). destruct (group_metadata k g Hk) as (_ & _ & _ & _ & H & _). destruct (H x Hx) as [Hin _].
  pose proof (group_size k g Hk). pose proof (group_size k' g' Hk').
  assert (k' = k) as -> by (eapply (within_index sb gs HL Hagb k' k g' g x); [done|done|unfold within; lia..]). simplify_eq. lia.
Qed.

Lemma data_high x : data_block gs x → 150 ≤ x.
Proof using Hiv.
  intros (k & g & Hk & Hx). assert (metadata_of g (g_table g)) as Hm by (right; right; unfold PHASE2_INODE_TABLE_BLOCKS; lia).
  pose proof (metadata_high k g _ Hk Hm). destruct (group_metadata k g Hk) as (_ & _ & _ & _ & Hin & _). destruct (Hin _ Hm). lia.
Qed.

(** What the bitmaps and tables hold stays as the blocks before 150 are written. *)
Lemma metadata_assembled v2 v3 v : (∀ k g, gs !! k = Some g → bitmaps_of k g v2) → (∀ k g, gs !! k = Some g → table_holds k g v3) →
  (∀ x, (∀ k g, gs !! k = Some g → ¬ g_table g ≤ x < g_table g + 16) → v3 x = v2 x) → (∀ x, 150 ≤ x → v x = v3 x) →
  (∀ k g, gs !! k = Some g → bitmaps_of k g v) ∧ (∀ k g, gs !! k = Some g → table_holds k g v) ∧
  free_blocks gs v = free_blocks gs v2 ∧ free_inodes gs v = free_inodes gs v2.
Proof using Hiv.
  intros B2 T3 O3 Hhigh.
  assert (∀ k g x, gs !! k = Some g → x = g_blocks g ∨ x = g_inodes g → v x = v2 x) as Hbm.
  { intros k g x Hk Hx. assert (metadata_of g x) as Hm by (unfold metadata_of; tauto). rewrite Hhigh by (by eapply metadata_high). apply O3.
    intros k' g' Hk' Ht. assert (k = k') as -> by (eapply (metadata_apart k k' g g'); [done|done|done|by right; right]). simplify_eq.
    destruct (group_metadata k' g Hk) as (_ & _ & _ & _ & _ & G6 & G7). destruct Hx as [->| ->]; tauto. }
  split_and!.
  - intros k g Hk. apply (bitmaps_ext k g v2); [eapply Hbm; eauto..|by apply B2].
  - intros k g Hk tb Htb. rewrite Hhigh by (apply (metadata_high k g _ Hk); right; right; unfold PHASE2_INODE_TABLE_BLOCKS; lia). by apply T3.
  - apply total_of_ext. intros g [k Hk]%list_elem_of_lookup. by rewrite (Hbm k g _ Hk) by auto.
  - apply total_of_ext. intros g [k Hk]%list_elem_of_lookup. by rewrite (Hbm k g _ Hk) by auto.
Qed.

(** The two superblocks. *)
Lemma write_superblocks_spec (b : builder) v : shows b v →
  wp (x ← Builder.on_format (Superblock.encode sb);
      Builder.on_device (write_blocks SUPERBLOCK_BLOCK x);;
      Builder.on_device (write_blocks (Superblock.backup_superblock_block sb) x))
    (λ _ b', ∃ v', written b v' b' ∧ (Superblock.encode sb = Ok (v' SUPERBLOCK_BLOCK) ∧
       v' (Superblock.backup_superblock_block sb) = v' SUPERBLOCK_BLOCK) ∧ ∀ x, x ≠ 16 → x ≠ 18 → v' x = v x) any_error b.
Proof using Hiv.
  intros Hs. pose proof (SuperblockCodec.geo_backup _ (iv_geometry _ _ Hiv)) as Ebk. change PHASE3_BACKUP_SUPERBLOCK_BLOCK with 18 in Ebk.
  pose proof (iv_typed _ _ Hiv) as Hty. unfold Builder.on_format. wp_steps.
  assert (Superblock.encode sb = Ok (SuperblockCodec.image sb)) as Henc by (apply (SuperblockCodec.sb_encode_eq _ Hty); split; [apply Hiv|done]).
  rewrite Henc. cbn [wpo]. wp_step. rewrite Ebk.
  eapply wp_mono; [apply (write_block_spec b v SUPERBLOCK_BLOCK (SuperblockCodec.image sb) Hs);
    [done|by apply SuperblockCodec.sb_image_block|by apply SuperblockCodec.sb_image_ok]|cbv beta|done]. intros _ b7 W7.
  eapply wp_mono; [apply (write_block_spec b7 _ 18 (SuperblockCodec.image sb) (written_shows _ _ _ W7));
    [done|by apply SuperblockCodec.sb_image_block|by apply SuperblockCodec.sb_image_ok]|cbv beta|done]. intros _ b8 W8.
  eexists. split; [by eapply written_trans|]. split; [split|].
  - unfold upd. by rewrite decide_False, decide_True.
  - unfold upd. by rewrite decide_True, decide_False, decide_True.
  - intros x H1 H2. unfold upd. by rewrite !decide_False.
Qed.

Lemma write_metadata_spec (b : builder) v : shows b v → ib_nodes b = nodes → ib_groups b = gs → ib_superblock b = sb →
  wp Builder.write_metadata (λ _ b', ∃ v', written b v' b' ∧ metadata_holds v' ∧ ∀ x, data_block gs x → v' x = v x) any_error b.
Proof using All.
  intros Hs Hn Hg Hsb. pose proof (iv_geometry _ _ Hiv) as Hgeo. destruct (iv_descriptors _ _ Hiv) as (_ & Hres & _).
  pose proof (SuperblockCodec.geo_state _ Hgeo) as Est. change PHASE3_FILESYSTEM_STATE_BLOCK with 19 in Est.
  pose proof (SuperblockCodec.geo_backup _ Hgeo) as Ebk. change PHASE3_BACKUP_SUPERBLOCK_BLOCK with 18 in Ebk.
  unfold Builder.write_metadata. wp_steps. rewrite Hsb, Hg.
  eapply wp_mono; [by apply zero_head_spec|cbv beta|done]. intros _ b1 (v1 & W1 & O1). wp_step.
  eapply wp_mono; [apply (write_groups_spec b1 v1 (written_shows _ _ _ W1)); by destruct W1 as (d & -> & _)|cbv beta|done].
  intros [fb fi] b2 (v2 & W2 & B2 & [= -> ->] & H64 & O2). cbn [fst snd] in H64. pose proof (written_trans _ _ _ _ _ W1 W2) as W02. wp_step.
  eapply wp_mono; [apply (write_tables_spec b2 v2 (written_shows _ _ _ W2)); by destruct W02 as (d & -> & _)|cbv beta|done].
  intros _ b3 (v3 & W3 & T3 & O3). pose proof (written_trans _ _ _ _ _ W02 W3) as W03. rewrite Hres. wp_step.
  change (range 0 1) with [0]. cbn [for_each]. wp_step.
  eapply wp_mono; [apply (write_descriptors_spec b3 v3 (written_shows _ _ _ W3)); by destruct W03 as (d & -> & _)|cbv beta|done].
  intros _ b4 (xd & W4 & Hd). pose proof (written_trans _ _ _ _ _ W03 W4) as W04. wp_step.
  apply wp_assoc. wp_step.
  eapply wp_mono; [apply (write_encoded_spec _ _ _ (HB := StateCodec.state_codec) b4 _ _
    (FilesystemState.mk 1 1 0 (free_blocks gs v2) (free_inodes gs v2)) (written_shows _ _ _ W4))|cbv beta|done]; [lia|by unfold FilesystemState.typed, is_u64 in *; cbn|].
  intros _ b5 (xs & W5 & Hst). wp_step. rewrite Est in W5.
  eapply wp_mono; [apply (write_controls_spec b5 _ (written_shows _ _ _ W5))|cbv beta|done]. intros _ b6 (v6 & W6 & C6 & O6).
  eapply wp_mono; [apply (write_superblocks_spec b6 v6 (written_shows _ _ _ W6))|cbv beta|done]. intros _ b8 (v8 & W8 & S8 & O8).
  assert (∀ x, x ∉ [16; 17; 18; 19; 20; 21] → v8 x = v3 x) as Hother.
  { intros x Hx. rewrite !not_elem_of_cons in Hx. destruct Hx as (? & ? & ? & ? & ? & ? & _). rewrite O8, O6 by done.
    unfold upd, FIRST_DESCRIPTOR_BLOCK. by rewrite !decide_False. }
  assert (∀ x, 150 ≤ x → v8 x = v3 x) as Hhigh.
  { intros x Hx. apply Hother. rewrite !not_elem_of_cons. split_and!; try lia. apply not_elem_of_nil. }
  destruct (metadata_assembled v2 v3 v8 B2 T3 O3 Hhigh) as (B8 & T8 & F8 & I8).
  exists v8. split; [|split].
  - exact (written_trans _ _ _ _ _ W04 (written_trans _ _ _ _ _ W5 (written_trans _ _ _ _ _ W6 W8))).
  - change FIRST_DESCRIPTOR_BLOCK with 17 in O6. split; [done|done| | | |done].
    + change FIRST_DESCRIPTOR_BLOCK with 17. rewrite (O8 17), (O6 17) by lia. unfold upd. by rewrite decide_False, decide_True.
    + rewrite Est, (O8 19), (O6 19) by lia. unfold upd. by rewrite decide_True, Hst, F8, I8.
    + intros slot Hslot. specialize (C6 slot Hslot). rewrite (control_block_eq sb Hgeo) in *. change PHASE3_JOURNAL_FIRST_BLOCK with 20 in *.
      rewrite O8 by lia. done.
  - intros x Hx. assert (150 ≤ x ∧ ∀ k g, gs !! k = Some g → ¬ metadata_of g x) as [H150 Hno].
    { split; [by apply data_high|]. by intros k g Hk Hm; eapply metadata_not_data. }
    rewrite (Hhigh x H150), O3 by (intros k g Hk Hx'; apply (Hno k g Hk); by right; right). rewrite (O2 x Hno). by apply O1.
Qed.
End metadata.
