(* ===== verification/Format.v ===== *)
(** * Formatting a volume

    [finish] turns the nodes of a builder into a volume whose contents hold a
    filesystem: the one that was planned. *)

From Stdlib Require Import ZArith Lia.
From stdpp Require Import base list numbers option gmap.
From S2P Require Import Prelude NullfsBytes NullfsPhase3 NullfsSuperblock NullfsRecord NullfsInode.
From S2P Require Import NullfsDirectory NullfsAllocation BlockDevice Journal JournalDisk JournalSteps.
From S2P Require Import JournalRecovery JournalProps Volume Mutation Extents VolumeReads Session.
From S2P Require Import MutationSteps Atomicity Layout Ownership Mounted FileWrite Namespace DirectoryViews.
From S2P Require Import NamespaceSteps Orphans Validate Lifecycle.
From S2P Require Import ImageBuilder ImagePlan ImageVolume ImageWrites ImageContents ImageNodes ImageTree ImageBitmaps ImageMetadata.

Open Scope Z_scope.

(** ** The contents of a formatted volume *)

Section contents.
Context (sb : Superblock.t) (gs : list group) (Hiv : image_volume sb gs).
Context (nodes : list PendingNode) (Hplan : planned nodes).
Context (Hcount : Z.of_nat (length nodes) ≤ Z.of_nat (length gs) * 256).
Context (v : disk) (Hplaced : ∀ n node, node_at nodes n = Some node → placed v n node (image_forest nodes n)).
Context (next : list Z) (Hlaid : laid gs (image_table nodes) next).
Context (Hm : metadata_holds sb gs nodes v).
Notation HL := (vg_layout _ _ (iv_volume _ _ Hiv)).
Notation Hagb := (vg_group_blocks _ _ (iv_volume _ _ Hiv)).
Notation T := (image_table nodes).

(** The bytes of the slots of the inode tables. *)
Lemma image_slot n d i : 0 ≤ n → inode_location_in gs n = Ok (d, i) →
  slot_holds nodes (Z.to_nat (n - 1)) (slice (inode_offset d i) INODE_BYTES (v (inode_block d i))) ∧ inode_block d i ≤ u64_max.
Proof using Hiv Hm.
  intros Hn Hl. pose proof Hl as (Hn1 & Hk & Hi)%location_inv; [|done]. pose proof (location_index gs _ _ _ Hn Hl) as Hi256.
  destruct (inode_block_eq d i) as [Hb Ho]. pose proof (group_spec _ _ Hiv _ d Hk) as (Ht & _ & Hlay & _).
  pose proof (inode_block_table d i Hi256) as Htab. pose proof (AllocationGroupDescriptor.typed_data _ Ht) as [_ Hd].
  pose proof (gl_data _ _ _ Hlay). split; [|lia].
  set (k := Z.to_nat ((n - 1) / 256)) in *. pose proof (mh_tables _ _ _ _ Hm k d Hk (i / 16)%nat) as Htb.
  pose proof (Z.div_mod (n - 1) 256 ltac:(lia)). pose proof (Z.div_pos (n - 1) 256 ltac:(lia) ltac:(lia)).
  pose proof (Nat.div_mod_eq i 16). pose proof (Nat.mod_upper_bound i 16 ltac:(lia)).
  assert (i / 16 < 16)%nat as Hq by (apply Nat.Div0.div_lt_upper_bound; lia). destruct (Htb Hq) as [_ Hs].
  specialize (Hs (i mod 16)%nat ltac:(lia)).
  replace (k * 256 + i / 16 * 16 + i mod 16)%nat with (Z.to_nat (n - 1)) in Hs by (unfold k; lia).
  rewrite Hb. replace (inode_offset d i) with (i mod 16 * INODE_BYTES)%nat by (apply Nat2Z.inj; by rewrite Ho, Nat2Z.inj_mul, Nat2Z.inj_mod).
  by rewrite Nat2Z.inj_div in Hs.
Qed.

(** The inode in a slot. *)
Lemma image_seen n d i : 0 ≤ n → inode_location_in gs n = Ok (d, i) →
  inode_seen sb gs v n = Ok (default Inode.default (T n)).
Proof using Hiv Hm Hplaced.
  intros Hn Hl. destruct (image_slot n d i Hn Hl) as [Hs Hb]. pose proof Hl as (Hn1 & _)%location_inv; [|done].
  rewrite inode_seen_bytes. unfold seen_of, inode_bytes. rewrite Hl, (iv_phase3 _ _ Hiv), (proj2 (Z.ltb_ge _ _)) by done. cbn [err_if]. rewrite bind_Ok.
  unfold slot_holds in Hs. unfold image_table, node_at. rewrite decide_True by done.
  destruct (nodes !! Z.to_nat (n - 1)) as [node|] eqn:En; cbn [fmap option_fmap option_map default].
  - assert (node_at nodes n = Some node) as Hat by (unfold node_at; by rewrite decide_True).
    unfold decode_inode, Inode.decode. by rewrite (InodeCodec.inode_decode_encode _ _ _ (pd_typed _ _ _ _ (Hplaced n node Hat)) Hs).
  - rewrite Hs. apply decode_zeros.
Qed.

Lemma image_kind n i : T n = Some i → Inode.kind i ≠ NodeKind.Free.
Proof using Hplan. intros (node & Hn & ->)%fmap_Some. rewrite (pl_kind _ Hplan n node Hn). by destruct (pn_content node). Qed.

Lemma image_located n i : T n = Some i → 0 ≤ n ∧ ∃ d k, inode_location_in gs n = Ok (d, k).
Proof using Hcount. intros (node & Hn%node_at_bounds & ->)%fmap_Some. split; [lia|]. apply located. lia. Qed.

Lemma image_stored n : 0 ≤ n → table_of sb gs v n = T n.
Proof using Hiv Hm Hplaced Hplan Hcount.
  intros Hn. unfold table_of, allocated_seen. destruct (inode_location_in gs n) as [[d i]|e|] eqn:Hl.
  - rewrite (image_seen n d i Hn Hl), bind_Ok. destruct (T n) as [j|] eqn:Hj; cbn [default]; [|done].
    apply image_kind in Hj. by rewrite bool_decide_false.
  - destruct (T n) as [j|] eqn:Hj; [destruct (image_located n j Hj) as (_ & d & k & ?); congruence|].
    rewrite inode_seen_bytes. unfold seen_of. by rewrite Hl.
  - exfalso. revert Hl. unfold inode_location_in. no_abort.
Qed.

Lemma image_marked p : marked gs v p ↔ owned T p.
Proof using Hiv Hm Hlaid.
  split.
  - intros (k & g & Hk & Hp & Ht). by apply (bm_data _ _ _ _ (mh_bitmaps _ _ _ _ Hm k g Hk) p Hp).
  - intros Ho. pose proof (used_data _ _ _ p Hlaid (proj2 (la_owned _ _ _ Hlaid p) Ho)) as (k & g & Hk & Hp).
    exists k, g. split; [done|]. split; [done|]. by apply (bm_data _ _ _ _ (mh_bitmaps _ _ _ _ Hm k g Hk) p Hp).
Qed.

Lemma image_inodes n d i : 0 ≤ n → inode_location_in gs n = Ok (d, i) → inode_marked gs v n = Some (bool_decide (is_Some (T n))).
Proof using Hm.
  intros Hn Hl. unfold inode_marked. rewrite Hl. pose proof (location_index gs _ _ _ Hn Hl) as Hi256.
  pose proof Hl as (Hn1 & Hk & Hi)%location_inv; [|done].
  rewrite (bm_inodes _ _ _ _ (mh_bitmaps _ _ _ _ Hm _ d Hk) i Hi256). f_equal. apply bool_decide_ext.
  unfold image_table, node_at. rewrite decide_True, fmap_is_Some, lookup_lt_is_Some by done.
  pose proof (Z.div_mod (n - 1) 256 ltac:(lia)). pose proof (Z.div_pos (n - 1) 256 ltac:(lia) ltac:(lia)). lia.
Qed.

(** The state record of a new volume. *)
Definition new_state : FilesystemState.t := FilesystemState.mk 1 1 0 (free_blocks gs v) (free_inodes gs v).

Lemma image_consistent : volume_ok sb gs T v new_state.
Proof using All.
  split.
  - intros n Hn _. by apply image_stored.
  - apply image_located.
  - apply image_marked.
  - apply (la_once _ _ _ Hlaid).
  - apply image_inodes.
  - done.
  - done.
  - intros k g Hk. apply (bm_framed _ _ _ _ (mh_bitmaps _ _ _ _ Hm k g Hk)).
  - intros n d i Hn Hl. eexists. by eapply image_seen.
Qed.

Lemma image_filesystem : filesystem_ok sb gs T (image_forest nodes) v new_state.
Proof using All.
  split; [apply image_consistent| |].
  - apply planned_tree; [done|]. intros n node Hn Hk. pose proof (pl_kind _ Hplan n node Hn) as Hk'.
    pose proof (pd_content _ _ _ _ (Hplaced n node Hn)) as Hc. unfold listing. destruct (pn_content node); [by destruct Hc|congruence].
  - intros n i (node & Hn & ->)%fmap_Some Hk. pose proof (pl_kind _ Hplan n node Hn) as Hk'.
    pose proof (pd_content _ _ _ _ (Hplaced n node Hn)) as Hc. destruct (pn_content node); [by destruct Hc|congruence].
Qed.

Lemma image_orphans : orphans T 0 [].
Proof using Hplan.
  split; [constructor|constructor|]. intros n i (node & Hn & ->)%fmap_Some. by rewrite (pl_links _ Hplan n node Hn).
Qed.

Lemma image_head : head_holds sb gs v.
Proof using Hiv Hm.
  destruct (iv_descriptors _ _ Hiv) as (Hf & Hres & _). destruct (mh_superblocks _ _ _ _ Hm) as [He Hb].
  rewrite (SuperblockCodec.geo_backup _ (iv_geometry _ _ Hiv)) in Hb. pose proof (iv_typed _ _ Hiv) as Ht. split.
  - done.
  - apply Hiv.
  - exists (Some sb), (Some sb). rewrite Hb. split; [by apply encoded_reads_as|]. split; [by apply encoded_reads_as|apply found_same].
  - split; [done|]. split; [done|]. symmetry. apply Hiv.
  - apply Hm.
Qed.

End contents.

(** ** Building a volume *)

Section device.
Context {D : Type} {HD : BlockDevice D} {torn : list Z → Prop} {HC : CrashSafe D torn}.
Notation builder := (ImageBuilder D).

Lemma image_data_apart sb gs : image_volume sb gs → data_apart gs.
Proof.
  intros Hiv k1 k2 g1 g2 p H1 H2 P1 P2. pose proof (group_size sb gs Hiv k1 g1 H1). pose proof (group_size sb gs Hiv k2 g2 H2).
  eapply (within_index sb gs (vg_layout _ _ (iv_volume _ _ Hiv)) (vg_group_blocks _ _ (iv_volume _ _ Hiv)) k1 k2 g1 g2 p);
    [done|done|unfold within; lia..].
Qed.

Lemma placed_chain nodes v n node es : planned nodes → node_at nodes n = Some node → placed v n node es →
  ∃ limit, Valid.chain limit 0 (Inode.used_extents (pn_inode node)).
Proof.
  intros Hp Hn [Ht Hv _]. apply Valid.validate_Ok in Hv; [|done|].
  - eexists. apply (Valid.ev_chain _ (Valid.v_extents _ _ Hv)).
  - apply (image_kind nodes Hp n). unfold image_table. by rewrite Hn.
Qed.

(** What [finish] leaves on the device. *)
Record built (b : builder) (d : D) (v : disk) (nodes : list PendingNode) : Prop := {
  bu_settled : settled d v;
  bu_alike : nodes_alike (ib_nodes b) nodes;
  bu_metadata : metadata_holds (ib_superblock b) (ib_groups b) nodes v;
  bu_placed : ∀ n node, node_at nodes n = Some node → placed v n node (image_forest nodes n);
  bu_laid : ∃ next, laid (ib_groups b) (image_table nodes) next;
}.

Lemma finish_built (b : builder) : builder_ok b → wp Builder.finish (λ d _, ∃ v nodes, built b d v nodes) any_error b.
Proof.
  intros [Hiv Hplan Hun Hcount Hnext Hdev]. set (sb := ib_superblock b) in *. set (gs := ib_groups b) in *.
  assert (∀ k g, gs !! k = Some g → 0 ≤ g_data g ∧ g_end g ≤ u64_max) as Hdata.
  { intros k g Hk. destruct (group_spec _ _ Hiv k g Hk) as (Ht & _ & _ & _ & _ & Hd). destruct Ht. unfold is_u64 in *. lia. }
  assert (∀ k g, gs !! k = Some g → g_data g ≤ g_end g) as Hend.
  { intros k g Hk. pose proof (group_size sb gs Hiv k g Hk). lia. }
  assert (Z.of_nat (length (ib_nodes b)) < u32_max) as Hsmall.
  { pose proof (groups_few sb gs Hiv). unfold u32_max. lia. }
  unfold Builder.finish. wp_step.
  eapply wp_mono; [apply (allocate_contents_spec gs (image_data_apart sb gs Hiv) Hdata b eq_refl Hplan Hun Hsmall (bd_now (ib_device b)))|cbv beta|done].
  { done. }
  { rewrite Hnext. by apply unplaced_laid. }
  intros _ b1 (v1 & [[Hsb Hg] Hsh Hal Hrest Hdone Hlaid]). wp_step.
  assert (∀ n node, node_at (ib_nodes b1) n = Some node → placed v1 n node (image_forest (ib_nodes b1) n)) as Hpl.
  { intros n node Hn. rewrite (alike_forest _ _ Hal). apply node_at_is in Hn as (j & -> & Hj). apply Hdone; [|done].
    rewrite (Forall2_length _ _ _ Hal). by eapply lookup_lt_Some. }
  eapply wp_mono; [apply (write_metadata_spec sb gs Hiv (ib_nodes b1)) with (v := v1)|cbv beta|done]; try done.
  { intros n node Hn. eapply placed_chain; [by eapply planned_alike|done|by apply Hpl]. }
  { intros n node Hn. by eapply pd_typed, Hpl. }
  intros _ b2 (v2 & (d2 & -> & Hok2 & Hnow2) & Hmeta & Hdata2). wp_step. apply wp_zoom.
  eapply wp_mono; [by apply bd_flush|cbv beta|done]. intros _ d3 (Hok3 & Hnow3 & Hafter3). wp_steps. cbn in *.
  exists v2, (ib_nodes b1). split; [|done|done| |by eexists].
  - split; [done|intros c; by rewrite Hnow3, Hnow2|intros c y Hy; by rewrite (Hafter3 c y Hy), Hnow2].
  - intros n node Hn. eapply placed_frame; [|by apply Hpl]. intros l p Hp. apply Hdata2. eapply used_data; [exact Hlaid|].
    apply (la_owned _ _ _ Hlaid). exists n, l, (pn_inode node). split; [|done]. unfold image_table. by rewrite Hn.
Qed.

Context (b : builder) (Hb : builder_ok b) (d : D) (v : disk) (nodes : list PendingNode) (Hbuilt : built b d v nodes).
Notation sb := (ib_superblock b).
Notation gs := (ib_groups b).

Lemma built_planned : planned nodes ∧ Z.of_nat (length nodes) ≤ Z.of_nat (length gs) * 256.
Proof using Hb Hbuilt.
  split; [by eapply planned_alike; [apply Hbuilt|apply Hb]|]. rewrite <- (Forall2_length _ _ _ (bu_alike _ _ _ _ Hbuilt)). apply Hb.
Qed.

Lemma built_filesystem : filesystem_ok sb gs (image_table nodes) (image_forest (ib_nodes b)) v (new_state gs v).
Proof using Hb Hbuilt.
  destruct built_planned as [Hp Hc]. destruct Hbuilt as [Hs Ha Hm Hpl [next Hl]].
  pose proof (image_filesystem sb gs (bk_volume _ Hb) nodes Hp Hc v Hpl next Hl Hm) as [Hcon Htree Hviews]. split; [done| |].
  - eapply tree_but_ext; [exact Htree|done|]. intros n. by rewrite (alike_forest _ _ Ha).
  - intros n i Hi Hk. rewrite <- (alike_forest _ _ Ha). by apply Hviews.
Qed.

(** The journal of a new volume is empty. *)
Lemma built_stands : stands torn sb v v.
Proof using Hbuilt.
  apply (stands_clean _ _ _ _ (JournalControl.empty 2) 1); [|done|done|done]. unfold chosen, control_at.
  rewrite (mh_controls _ _ _ _ (bu_metadata _ _ _ _ Hbuilt) 0), (mh_controls _ _ _ _ (bu_metadata _ _ _ _ Hbuilt) 1) by auto. done.
Qed.

(** The files have the bytes they were given. *)
Lemma built_file n node segments : node_at (ib_nodes b) n = Some node → pn_content node = PendingFile segments →
  ∃ i, image_table nodes n = Some i ∧ Inode.kind i = NodeKind.Regular ∧ Inode.size i = Inode.size (pn_inode node) ∧
    ∀ x, 0 ≤ x → file_byte v i x = segment_byte segments x.
Proof using Hb Hbuilt.
  intros Hn Hc. pose proof (pl_kind _ (bk_planned _ Hb) n node Hn) as Hk. rewrite Hc in Hk.
  pose proof (alike_node_at _ _ (bu_alike _ _ _ _ Hbuilt) n) as Hat. rewrite Hn in Hat. destruct Hat as (node' & Hn' & Hc' & (Hk' & _) & Hsz).
  exists (pn_inode node'). unfold image_table. rewrite Hn'. split; [done|]. split; [congruence|]. split; [by apply Hsz|].
  pose proof (pd_content _ _ _ _ (bu_placed _ _ _ _ Hbuilt n node' Hn')) as Hp. by rewrite Hc', Hc in Hp.
Qed.

(** Nothing is stored after the end of a file. *)
Lemma built_contents : contents_ok sb gs (image_table nodes) (image_forest (ib_nodes b)) v (new_state gs v).
Proof using Hb Hbuilt.
  split; [exact built_filesystem|]. intros n i x Hi Hk H0 Hle. apply fmap_Some in Hi as (node' & Hn' & ->).
  pose proof (alike_node_at _ _ (bu_alike _ _ _ _ Hbuilt) n) as Hat. rewrite Hn' in Hat.
  destruct (node_at (ib_nodes b) n) as [node|] eqn:Hn; [|done]. pose proof (pl_kind _ (bk_planned _ Hb) n node Hn) as Hkn.
  destruct (pn_content node) as [l|segments] eqn:Hc.
  { destruct Hat as (? & [= <-] & _ & (Hkk & _) & _). congruence. }
  destruct (built_file n node segments Hn Hc) as (i & Hi & _ & Hsz & Hbytes). unfold image_table in Hi. rewrite Hn' in Hi. injection Hi as <-.
  rewrite Hbytes by done. apply segment_byte_beyond. intros [offset bytes] Hs.
  destruct (un_file _ (bk_unplaced _ Hb) n node segments Hn Hc) as (_ & Hcheck & _).
  apply list_elem_of_split in Hs as (prior & rest & ->).
  destruct (check_segments_spec _ _ _ _ Hcheck prior offset bytes rest eq_refl) as (_ & _ & He & _). unfold segment_end. cbn. lia.
Qed.

Lemma built_holds : holds_filesystem sb gs v.
Proof using Hb Hbuilt.
  destruct built_planned as [Hp Hc]. split; [exact (image_head sb gs (bk_volume _ Hb) nodes v (bu_metadata _ _ _ _ Hbuilt))|].
  eexists _, _, _. split; [apply (mh_state _ _ _ _ (bu_metadata _ _ _ _ Hbuilt))|]. split; [exact built_contents|]. exists []. by apply image_orphans.
Qed.
End device.
