(* ===== verification/Lifetime.v ===== *)
(** * The lives of a volume

    A volume is formatted, mounted, used, unmounted or cut off by a power failure,
    and mounted again.  Whatever happens, the next mount finds a filesystem: the one
    that the completed operations left. *)

From Stdlib Require Import ZArith Lia.
From stdpp Require Import base list numbers option gmap.
From S2P Require Import Prelude NullfsBytes NullfsPhase3 NullfsSuperblock NullfsRecord NullfsInode.
From S2P Require Import NullfsDirectory NullfsAllocation BlockDevice Journal JournalDisk JournalSteps.
From S2P Require Import JournalRecovery JournalProps Volume Mutation Mount Extents VolumeReads Session.
From S2P Require Import MutationSteps Atomicity Layout Ownership Mounted FileWrite Namespace DirectoryViews.
From S2P Require Import NamespaceSteps Orphans Reclaim Validate Lifecycle Remount.
From S2P Require Import ImageBuilder ImagePlan ImageVolume ImageWrites ImageContents ImageNodes ImageTree ImageBitmaps ImageMetadata.
From S2P Require Import Format.

Open Scope Z_scope.

(** ** Unmounting *)

Section unmounting.
Context {D : Type} {HD : BlockDevice D} {torn : list Z → Prop} {HC : CrashSafe D torn}.
Notation fs := (Filesystem D).
Context (Hatomic : ∀ y, ¬ torn y) (sb : Superblock.t) (gs : list group) (Hvol : volume sb gs).
Notation survives := (survives (torn := torn) sb gs).
Notation clean := (with_state Clean sb).

Lemma sync_spec (s : fs) m st T E l : groups s = gs → ready sb s m st → contents_ok sb gs T E m st →
  orphans T (FilesystemState.orphan_head st) l →
  wp sync (λ _ s', groups s' = gs ∧ open_handles s' = open_handles s ∧ ready sb s' m st)
    (λ e s', device_error e ∧ survives (device s')) s.
Proof using Hvol.
  intros Hgs Hr Hok Hl. pose proof Hr as [[[Hsb Hset Hch Hgen Hst Hty Hdec] Hmode Hpoi Hov Htx] Hnone Hgu Hhd].
  unfold sync, ensure_writable. wp_step. apply wp_reads. rewrite Hpoi, bool_decide_true by done. cbn [wpo]. wp_step.
  unfold commit_transaction, ensure_writable. wp_step. apply wp_reads. rewrite Hpoi, bool_decide_true by done. cbn [wpo]. wp_step. wp_step.
  rewrite Hnone. wp_step. wp_step. eapply wp_mono; [apply (dev_flush s m _ Hset)|cbv beta|cbv beta].
  - intros ? s' (d' & -> & Hset'). wp_steps. split; [done|]. split; [done|]. by split; [split; [split|..]|..].
  - intros e s' [He (d' & -> & [Hok' Hd'])]. wp_steps. split; [done|]. split; [done|]. intros mc Hc.
    assert (∀ b, mc b = m b) as Hmc by (intros b; by apply Hd').
    apply (marking_mountable sb gs Hvol m) with (x := Superblock.state sb); [|by eexists _, _|auto|].
    + exists T, E, st. split; [done|]. split; [done|by exists l].
    + rewrite with_state_same. eapply head_ext; [apply Hvol|intros b _; apply Hmc|]. by rewrite <- Hgs.
Qed.

(** [try_unmount] of a filesystem that has not stopped: the volume is marked clean,
    with the same contents. *)
Lemma unmount_spec (s : fs) m st T E : groups s = gs → ready sb s m st → sound sb gs T E (open_handles s) m st →
  wp try_unmount
    (λ _ s', groups s' = gs ∧ open_handles s' = open_handles s ∧ ∃ m', ready clean s' m' st ∧
       sound clean gs T E (open_handles s) m' st ∧ marked sb Clean m' ∧ ∀ b, is_home sb b → m' b = m b)
    (λ e s', device_error e ∧ survives (device s')) s.
Proof using Hatomic Hvol.
  intros Hgs Hr [Hok [l Hl] Hop]. pose proof (rd_writable _ _ _ _ Hr) as Hw. unfold try_unmount. wp_step. wp_step.
  rewrite bool_decide_true, (wr_poisoned _ _ _ _ Hw) by apply Hw. cbn [negb]. wp_steps.
  eapply wp_mono; [exact (sync_spec s m st T E l Hgs Hr Hok Hl)|cbv beta|done]. intros _ s1 (Hgs1 & Hh1 & Hr1).
  eapply wp_mono; [exact (mark_spec Hatomic sb gs Hvol Clean s1 m st T E l Hgs1 Hr1 Hok Hl)|cbv beta|done].
  intros _ s2 (Hgs2 & Hh2 & m' & Hr2 & Hok2 & Hmk & Hm'). split; [done|]. split; [congruence|]. exists m'. split; [done|].
  split; [|by split]. split; [done|by exists l|done].
Qed.
End unmounting.

Section lifetime.
Context {D : Type} {HD : BlockDevice D} {torn : list Z → Prop} {HC : CrashSafe D torn}.
Notation fs := (Filesystem D).
Context (Hatomic : ∀ y, ¬ torn y).
Context (sb : Superblock.t) (gs : list group) (Hvol : volume sb gs).
Context (Htab : Forall group_unsigned gs) (Hbits : Superblock.allocation_group_blocks sb ≤ 32768).
Notation survives := (survives (torn := torn) sb gs).
Notation dirty := (with_state Dirty sb).

(** ** A power failure, and the next mount *)

(** Whatever completed is found again: the entries, the nodes with links and their
    blocks. *)
Lemma mounted_again x (s : fs) (d : D) m st T E l : groups s = gs → ready (with_state x sb) s m st →
  contents_ok (with_state x sb) gs T E m st → orphans T (FilesystemState.orphan_head st) l → reboots (device s) d → fits sb d →
  mount_finds (torn := torn) sb gs m T E st l d.
Proof using Hatomic Hvol Htab Hbits.
  intros Hgs Hr Hok Hl (mc & Hc & Hset) Hfit. pose proof (rd_writable _ _ _ _ Hr) as Hw.
  destruct (idle_old (with_state x sb) (torn := torn) _ _ _ m (wr_idle _ _ _ _ Hw)) as [_ Hold].
  pose proof (Hold mc Hc) as Hst. eapply (mount_spec Hatomic sb gs Hvol Htab Hbits x); [done..| | | | |done].
  - apply (stands_mark x). by destruct Hst.
  - rewrite <- Hgs. apply Hr.
  - apply (id_decode _ _ _ _ (wr_idle _ _ _ _ Hw)).
  - rewrite <- (with_state_same sb). by apply (contents_mark (Superblock.state sb)) in Hok.
Qed.

(** ** Any number of lives *)

(** A mount, some operations, and an unmount or not; a filesystem that stopped is
    left as it is. *)
Definition life (ops : list file_op) (unmounts : bool) (d : D) : D :=
  match try_mount_read_write d with
  | Ok s =>
      let s' := history ops s in
      if poisoned s' || negb unmounts then device s' else device (try_unmount s').2
  | Err (_, d') => d'
  | Abort => d
  end.

(** Between two lives, power fails or the volume is carried to another machine. *)
Inductive lives (d : D) : D → Prop :=
| lives_none : lives d d
| lives_again d1 d2 ops unmounts : lives d d1 → reboots d1 d2 → fits sb d2 → Forall file_op_typed ops →
    lives d (life ops unmounts d2).

Lemma remounted_healthy h T E s : remounted sb gs h T E s → healthy dirty gs s.
Proof using.
  intros (Hgs & Hh & m & st & T' & Hr & Hs & _). exists m, st, T', E. split; [done|]. split; [done|]. by rewrite Hh.
Qed.

Lemma healthy_survives s : healthy dirty gs s → survives (device s).
Proof using.
  intros Hs. apply (survives_mark Dirty). destruct (healthy_stands dirty gs (torn := torn) s Hs) as (hs & H1 & H2).
  by apply (stands_for_survives dirty gs (device s) hs).
Qed.

(** The next mount of a volume that survives. *)
Lemma survives_mount (d d2 : D) : survives d → reboots d d2 → fits sb d2 → ∃ h T E st l, mount_finds (torn := torn) sb gs h T E st l d2.
Proof using Hatomic Hvol Htab Hbits.
  intros [_ Hs] (mc & Hc & Hset) Hfit. destruct (Hs mc Hc) as (x & h & Hst & Hhead & T & E & st & Hdec & Hok & l & Hl).
  assert (contents_ok sb gs T E h st) as Hok'. { rewrite <- (with_state_same sb). by apply (contents_mark (Superblock.state sb)) in Hok. }
  exists h, T, E, st, l. by apply (mount_spec Hatomic sb gs Hvol Htab Hbits x d2 mc h T E st l).
Qed.

Lemma history_survives ops s : healthy dirty gs s → Forall file_op_typed ops →
  healthy dirty gs (history ops s) ∨ poisoned (history ops s) = true ∧ survives (device (history ops s)).
Proof using Hatomic Hvol.
  intros Hs Hops. destruct (history_healthy dirty gs (volume_mark _ _ _ Hvol) (torn_never Hatomic) ops s Hs Hops) as [?|[Hp (hs & H1 & H2)]]; [by left|right].
  split; [done|]. apply (survives_mark Dirty). by apply (stands_for_survives dirty gs _ hs).
Qed.

Lemma unmount_survives s : healthy dirty gs s → survives (device (try_unmount s).2).
Proof using Hatomic Hvol.
  intros (m & st & T & E & Hgs & Hr & Hs). assert (volume dirty gs) as Hv by (by apply volume_mark).
  pose proof (unmount_spec Hatomic dirty gs Hv s m st T E Hgs Hr Hs) as H. unfold wp in H. apply (survives_mark Clean).
  change (with_state Clean sb) with (with_state Clean dirty). destruct (try_unmount s) as [[[]|e|] s']; cbn [snd wpo] in *; [| |done].
  - destruct H as (Hgs' & Hh' & m' & Hr' & [Hok' [l Hl] _] & _). eapply (ready_survives (with_state Clean dirty) gs s' m' st T E l); done.
  - apply (survives_mark Clean), H.
Qed.

Lemma life_survives ops unmounts d d2 : survives d → reboots d d2 → fits sb d2 → Forall file_op_typed ops → survives (life ops unmounts d2).
Proof using Hatomic Hvol Htab Hbits.
  intros Hs Hre Hfit Hops. destruct (survives_mount d d2 Hs Hre Hfit) as (h & T & E & st & l & _ & Hm). unfold life.
  destruct (try_mount_read_write d2) as [s|[e d']|]; [|apply Hm|done]. pose proof (remounted_healthy _ _ _ _ Hm) as Hh. cbv zeta.
  destruct (history_survives ops s Hh Hops) as [Hh'|[-> ?]]; [|done].
  destruct (poisoned (history ops s) || negb unmounts); [by apply healthy_survives|by apply unmount_survives].
Qed.

Lemma lives_survive d d' : survives d → lives d d' → survives d'.
Proof using Hatomic Hvol Htab Hbits. intros Hs Hl. induction Hl as [|d1 d2 ops u _ IH Hre Hfit Hops]; [done|]. by apply (life_survives ops u d1). Qed.
End lifetime.

(** ** Reading files *)

Section reading.
Context {D : Type} {HD : BlockDevice D} {torn : list Z → Prop} {HC : CrashSafe D torn}.
Notation fs := (Filesystem D).
Context (sb : Superblock.t) (gs : list group).

(** The bytes that [read] returns for a file with the inode [i] and the blocks [h]. *)
Definition reads_file (h : disk) (i : Inode.t) (n offset : Z) (output : list Z) (s : fs) : Prop :=
  wp (read n offset output)
    (λ r s', s' = s ∧ let count := Nat.min (length output) (Z.to_nat (Inode.size i - offset)) in
       r = (count, file_bytes h i offset count ++ drop count output))
    (λ e s', s' = s ∧ device_error e) s.

Lemma ready_read (s : fs) m st T n i offset output : groups s = gs → ready sb s m st → volume_ok sb gs T m st → T n = Some i →
  Inode.kind i = NodeKind.Regular → 0 ≤ offset → reads_file m i n offset output s.
Proof using.
  intros Hgs Hr Hok Hi Hk Hoff. destruct (co_located _ _ _ _ _ _ Hok n i Hi) as [Hn _].
  assert (allocated_seen (superblock s) (groups s) m n = Ok i) as Hseen.
  { rewrite (id_superblock _ _ _ _ (wr_idle _ _ _ _ (rd_writable _ _ _ _ Hr))), Hgs. rewrite <- (co_stored _ _ _ _ _ _ Hok n Hn (λ F, F)) in Hi.
    unfold table_of in Hi. destruct (allocated_seen _ _ _ _); [by injection Hi as ->|done..]. }
  eapply wp_mono; [apply (read_spec s m n offset output (ready_sees _ _ _ _ Hr) (tables s (rd_groups _ _ _ _ Hr)) Hoff)|cbv beta|cbv beta].
  - intros r s' (-> & j & Hj & _ & ->). rewrite Hseen in Hj. by injection Hj as <-.
  - intros e s' (-> & [He|[He|(j & Hj & [[Hd _]|[Hd _]])]]); [done|congruence|..]; rewrite Hseen in Hj; injection Hj as <-; congruence.
Qed.

Lemma reads_file_ext h h' i n offset output s : (∀ l q, mapped (Inode.used_extents i) l = Some q → h' q = h q) →
  reads_file h' i n offset output s → reads_file h i n offset output s.
Proof using.
  intros Hh Hr. eapply wp_mono; [exact Hr|cbv beta|done]. intros r s' [-> ->]. split; [done|]. cbv zeta. do 2 f_equal.
  unfold file_bytes. apply list_fmap_ext. intros k x _. unfold file_byte. destruct (mapped _ _) as [q|] eqn:Eq; [|done]. by rewrite (Hh _ _ Eq).
Qed.

End reading.

(** A mount does not change what is read. *)
Lemma remounted_read {D : Type} {HD : BlockDevice D} {torn : list Z → Prop} {HC : CrashSafe D torn} sb gs h T E (s : Filesystem D) n i offset output :
  remounted sb gs h T E s → T n = Some i → Inode.link_count i ≠ 0 → Inode.kind i = NodeKind.Regular → 0 ≤ offset →
  reads_file h i n offset output s.
Proof.
  intros (Hgs & _ & m & st & T' & Hr & [Hok _ _] & HT & Hlive) Hi Hl Hk Hoff.
  apply (reads_file_ext h m); [intros l q; by apply (Hlive n i l q)|].
  apply (ready_read (with_state Dirty sb) gs s m st T'); [done|done|apply Hok|by apply HT|done|done].
Qed.

(** ** A formatted volume *)

Section formatted.
Context {D : Type} {HD : BlockDevice D} {torn : list Z → Prop} {HC : CrashSafe D torn}.
Context (Hatomic : ∀ y, ¬ torn y).
Context (b : ImageBuilder D) (Hb : builder_ok (torn := torn) b).
Notation sb := (ib_superblock b).
Notation gs := (ib_groups b).

Lemma formatted_unsigned : Forall group_unsigned gs.
Proof using Hb.
  apply Forall_lookup_2. intros k g Hk. destruct (group_spec _ _ (bk_volume _ Hb) k g Hk) as ([] & _). unfold group_unsigned, is_u64 in *. lia.
Qed.

Lemma formatted_bits : Superblock.allocation_group_blocks sb ≤ 32768.
Proof using Hb. rewrite (iv_group_blocks _ _ (bk_volume _ Hb)). done. Qed.

Context (d : D) (v : disk) (nodes : list PendingNode) (Hbuilt : built b d v nodes).

Lemma formatted_survives : survives (torn := torn) sb gs d.
Proof using Hb Hbuilt.
  apply (stands_for_survives sb gs d [v]); [|intros h ->%list_elem_of_singleton; by eapply built_holds].
  apply (always_stands_for sb d v); [by apply list_elem_of_singleton|]. eapply settled_stands; [apply Hbuilt|by eapply built_stands].
Qed.

(** An inode that no node has is free. *)
Lemma formatted_free : (length (ib_nodes b) < length gs * 256)%nat → FilesystemState.free_inode_count (new_state gs v) ≠ 0.
Proof using Hb Hbuilt.
  intros Hlt. cbn. rewrite (free_inodes_count sb gs (iv_volume _ _ (bk_volume _ Hb)) (mount_start d sb gs RuntimeReadWrite) v (new_state gs v) eq_refl
    formatted_unsigned (image_table nodes) _ (built_filesystem b Hb d v nodes Hbuilt)).
  set (n := Z.of_nat (length (ib_nodes b)) + 1). pose proof (Forall2_length _ _ _ (bu_alike _ _ _ _ Hbuilt)) as Hlen.
  assert (n ∈ filter (λ n, image_table nodes n = None) (range 1 (Z.of_nat (length gs * Z.to_nat PHASE2_INODES_PER_GROUP) + 1))) as Hin.
  { apply list_elem_of_filter. split.
    - unfold image_table, node_at. rewrite decide_True by lia. rewrite lookup_ge_None_2; [done|]. unfold n. lia.
    - apply elem_of_seqZ. unfold PHASE2_INODES_PER_GROUP. unfold n. lia. }
  apply list_elem_of_lookup in Hin as [k Hk%lookup_lt_Some]. lia.
Qed.

Lemma formatted_mount (d2 : D) : reboots d d2 → fits sb d2 →
  mount_finds (torn := torn) sb gs v (image_table nodes) (image_forest (ib_nodes b)) (new_state gs v) [] d2.
Proof using Hatomic Hb Hbuilt.
  intros (mc & Hc & Hset) Hfit. pose proof (iv_volume _ _ (bk_volume _ Hb)) as Hvol.
  eapply (mount_spec Hatomic sb gs Hvol formatted_unsigned formatted_bits (Superblock.state sb)); [done..| | | | |].
  - eapply (settled_stands sb v d v); [apply Hbuilt|by eapply built_stands|done].
  - rewrite with_state_same. by eapply built_holds.
  - apply (mh_state _ _ _ _ (bu_metadata _ _ _ _ Hbuilt)).
  - by eapply built_contents.
  - eapply image_orphans. by eapply built_planned.
Qed.
End formatted.
