(* ===== verification/Durability.v ===== *)
(** * Operations and power failures

    An operation that returned is found again by the next mount; of one that did not,
    the next mount finds all or nothing. *)

From Stdlib Require Import ZArith Lia.
From stdpp Require Import base list numbers option gmap.
From S2P Require Import Prelude NullfsBytes NullfsPhase3 NullfsSuperblock NullfsRecord NullfsInode.
From S2P Require Import NullfsDirectory NullfsAllocation BlockDevice Journal JournalDisk JournalSteps.
From S2P Require Import JournalRecovery JournalProps Volume Mutation Mount Extents VolumeReads Session.
From S2P Require Import MutationSteps Atomicity Layout Ownership Mounted FileWrite Truncate Namespace DirectoryViews.
From S2P Require Import NamespaceSteps Create Remove Rename Orphans Reclaim Validate Lifecycle Remount Lifetime.

Open Scope Z_scope.

Section durability.
Context {D : Type} {HD : BlockDevice D} {torn : list Z → Prop} {HC : CrashSafe D torn}.
Notation fs := (Filesystem D).
Context (Hatomic : ∀ y, ¬ torn y).
Context (sb : Superblock.t) (gs : list group) (Hvol : volume sb gs).
Context (Htab : Forall group_unsigned gs) (Hbits : Superblock.allocation_group_blocks sb ≤ 32768).

(** When power fails now, the device holds one of the filesystems [X], in the sense of
    [contains], and the next mount finds it. *)
Definition found_after (s : fs) (X : disk → table → forest → Prop) : Prop := ∀ d, reboots (device s) d → fits sb d →
  ∃ h T E st l, X h T E ∧ orphans T (FilesystemState.orphan_head st) l ∧ mount_finds (torn := torn) sb gs h T E st l d.

(** A filesystem that the contents [h] hold. *)
Record held (X : disk → table → forest → Prop) (h : disk) : Prop := {
  hd_head : head_holds sb gs h;
  hd_body : ∃ T E st l, X h T E ∧ FilesystemState.decode (h (Superblock.filesystem_state_block sb)) = Ok st ∧
    contents_ok sb gs T E h st ∧ orphans T (FilesystemState.orphan_head st) l;
}.

Lemma stands_found s X hs : stands_for (torn := torn) sb (device s) hs → (∀ h, h ∈ hs → held X h) → found_after s X.
Proof using Hatomic Hvol Htab Hbits.
  intros [_ Hs] Hh d (mc & Hc & Hset) Hfit. destruct (Hs mc Hc) as (h & Hin & Hst). destruct (Hh h Hin) as [Hhead (T & E & st & l & HX & Hdec & Hok & Hl)].
  exists h, T, E, st, l. split; [done|]. split; [done|].
  apply (mount_spec Hatomic sb gs Hvol Htab Hbits (Superblock.state sb) d mc h T E st l); try done. by rewrite with_state_same.
Qed.

Lemma ready_held (X : disk → table → forest → Prop) s m st T E hs : groups s = gs → ready sb s m st → sound sb gs T E hs m st → X m T E → held X m.
Proof using.
  intros Hgs [[[] _ _ _ _] _ _ Hhead] [Hok [l Hl] _] HX. rewrite Hgs in Hhead. split; [done|]. by exists T, E, st, l.
Qed.

Lemma ready_found (X : disk → table → forest → Prop) s m st T E hs : groups s = gs → ready sb s m st → sound sb gs T E hs m st → X m T E → found_after s X.
Proof using Hatomic Hvol Htab Hbits.
  intros Hgs Hr Hs HX. pose proof (rd_writable _ _ _ _ Hr) as Hw. apply (stands_found s X [m]).
  - split; [apply Hw|]. intros mc Hc. exists m. split; [by apply list_elem_of_singleton|].
    destruct (idle_old sb (torn := torn) _ _ _ m (wr_idle _ _ _ _ Hw)) as [_ Hold]. by destruct (Hold mc Hc).
  - intros h ->%list_elem_of_singleton. by eapply ready_held.
Qed.

(** The contents [h] hold a filesystem that has the view [v]. *)
Lemma lost_found (X : disk → table → forest → Prop) s0 m v pend T' E' hs s : held X m → sound sb gs T' E' hs v pend →
  (∀ h, agree sb h v → X h T' E') → lost_commit sb s0 m v pend s → found_after s X.
Proof using Hatomic Hvol Htab Hbits.
  intros Hm [Hok [l Hl] _] HX (_ & _ & _ & h & st' & Hag & Hdec & Hcnt & Hhead & Hst). apply (stands_found s X [m; h] Hst).
  intros h' [->| ->%list_elem_of_singleton]%elem_of_cons; [done|]. split; [eapply head_ext; [apply Hvol|exact Hhead|apply Hm]|].
  exists T', E', st', l. split; [by apply HX|]. split; [done|]. split; [by eapply ok_agree|]. by rewrite (proj1 Hcnt).
Qed.

(** ** Atomic operations *)

Section operation.
Context (s0 : fs) (m : disk) (st : FilesystemState.t) (T : table) (E : forest).
Context (Hgs : groups s0 = gs) (Hr : ready sb s0 m st) (Hs : sound sb gs T E (open_handles s0) m st).

(** The old filesystem. *)
Definition unchanged (h : disk) (T' : table) (E' : forest) : Prop := h = m ∧ T' = T ∧ E' = E.

(** The operation has its effect [Q], also after a power failure; or it fails, and has
    its effect or none. *)
Definition old_or_new {A} (Q : effect A) (P : A → disk → table → forest → Prop) (c : M fs FsError.t A) : Prop :=
  wp c (λ a s, committed sb s0 Q a s ∧ found_after s (P a))
    (λ _ s, undone sb s0 m Q s ∧ found_after s (λ h T' E', unchanged h T' E' ∨ ∃ a, P a h T' E')) s0.

Lemma committed_found {A} (Q : effect A) (P : A → disk → table → forest → Prop) a s :
  (∀ a v pend, Q a v pend → ∃ T' E', sound sb gs T' E' (open_handles s0) v pend ∧ ∀ h, agree sb h v → P a h T' E') →
  committed sb s0 Q a s → found_after s (P a).
Proof using Hatomic Hvol Htab Hbits Hgs.
  intros HQ (v & pend & m' & st' & Ha & Hr' & (_ & Hg & _ & Hh & _) & Hag & Hcnt). destruct (HQ a v pend Ha) as (T' & E' & Hs' & HP).
  eapply (ready_found (P a) s m' st' T' E'); [congruence|done|by eapply sound_agree|by apply HP].
Qed.

Lemma undone_found {A} (Q : effect A) (P : A → disk → table → forest → Prop) s :
  (∀ a v pend, Q a v pend → ∃ T' E', sound sb gs T' E' (open_handles s0) v pend ∧ ∀ h, agree sb h v → P a h T' E') →
  undone sb s0 m Q s → found_after s (λ h T' E', unchanged h T' E' ∨ ∃ a, P a h T' E').
Proof using Hatomic Hvol Htab Hbits Hgs Hr Hs.
  intros HQ [->|(a & v & pend & Ha & Hl)].
  - eapply ready_found; [done..|]. left. by split_and!.
  - destruct (HQ a v pend Ha) as (T' & E' & Hs' & HP). eapply lost_found; [|exact Hs'| |exact Hl].
    + eapply ready_held; [done..|]. left. by split_and!.
    + intros h Hh. right. exists a. by apply HP.
Qed.

Lemma atomic_found {A} (Q : effect A) (P : A → disk → table → forest → Prop) (c : M fs FsError.t A) :
  (∀ a v pend, Q a v pend → ∃ T' E', sound sb gs T' E' (open_handles s0) v pend ∧ ∀ h, agree sb h v → P a h T' E') →
  atomic sb s0 m Q c → old_or_new Q P c.
Proof using Hatomic Hvol Htab Hbits Hgs Hr Hs.
  intros HQ Hc. eapply wp_mono; [exact Hc|cbv beta|cbv beta].
  - intros a s Ha. split; [done|]. by eapply committed_found.
  - intros e s Hu. split; [done|]. by eapply undone_found.
Qed.
End operation.
End durability.

(** A filesystem that serves the nodes [T] and the entries [E]: [m] are the blocks on
    the device. *)
Record serves {D : Type} {HD : BlockDevice D} {torn : list Z → Prop} {HC : CrashSafe D torn} (sb : Superblock.t) (gs : list group)
    (s : Filesystem D) (m : disk) (st : FilesystemState.t) (T : table) (E : forest) : Prop := {
  sv_volume : volume sb gs;
  sv_unsigned : Forall group_unsigned gs;
  sv_bits : Superblock.allocation_group_blocks sb ≤ 32768;
  sv_groups : groups s = gs;
  sv_ready : ready sb s m st;
  sv_sound : sound sb gs T E (open_handles s) m st;
}.
