(* ===== verification/DemoVolume.v ===== *)
(** * A concrete volume

    A memory device of 300 blocks, formatted with an empty root directory.  Nothing
    fails on it, so the filesystem that the theorems speak of exists. *)

From Stdlib Require Import ZArith Lia.
From stdpp Require Import base list numbers option gmap.
From S2P Require Import Prelude NullfsBytes NullfsPhase3 NullfsSuperblock NullfsRecord NullfsInode.
From S2P Require Import NullfsDirectory NullfsAllocation BlockDevice Journal JournalDisk JournalSteps.
From S2P Require Import JournalRecovery JournalProps Volume Mutation Mount Extents VolumeReads Session.
From S2P Require Import MutationSteps Atomicity Layout Ownership Mounted FileWrite Namespace DirectoryViews.
From S2P Require Import NamespaceSteps Orphans Reclaim Validate Lifecycle Remount.
From S2P Require Import ImageBuilder ImagePlan ImageVolume ImageWrites ImageContents ImageNodes ImageTree ImageBitmaps ImageMetadata.
From S2P Require Import Format Lifetime Durability.

Open Scope Z_scope.

Notation memory := MemoryBlockDevice.t.

Definition demo_device : memory := MemoryBlockDevice.mk BLOCK_SIZE 300 (zeros (300 * BLOCK_SIZE)).
Definition demo_uuid : list Z := replicate 16 7.
Definition demo_sb : Superblock.t := Eval vm_compute in
  match Superblock.format_phase3 (FormatOptions.new (300 * 4096) demo_uuid []) with
  | Ok s => s | _ => Superblock.mk 0 0 Clean Features.default [] [] 0 0 0 0 0 0 0 0 0 0 0 0 end.
Definition demo_gs : list group := Eval vm_compute in
  match Builder.plan_groups demo_sb 1 0 with Ok gs => gs | _ => [] end.
Definition demo_builder : ImageBuilder memory :=
  Build_ImageBuilder _ demo_device demo_sb demo_gs (AllocationGroupDescriptor.first_data_block <$> demo_gs) [Builder.root_node].

Lemma demo_new : Builder.new demo_device demo_uuid [] = Ok demo_builder.
Proof.
  unfold Builder.new. change (block_size demo_device) with BLOCK_SIZE. rewrite Nat.eqb_refl. cbn [negb err_if]. rewrite bind_Ok.
  change (checked_mul u64_max (block_count demo_device) BLOCK_SIZE_U64) with (Some (300 * 4096)). cbn [ok_or]. rewrite bind_Ok.
  assert (Superblock.format_phase3 (FormatOptions.new (300 * 4096) demo_uuid []) = Ok demo_sb) as -> by (vm_compute; reflexivity).
  cbn [map_err]. rewrite bind_Ok. cbv zeta.
  assert (Builder.plan_groups demo_sb (Z.to_nat (Superblock.allocation_group_count demo_sb)) 0 = Ok demo_gs) as -> by (vm_compute; reflexivity).
  done.
Qed.

Definition sized (d : memory) : Prop := memory_ok d ∧ MemoryBlockDevice.count d = 300.

Lemma demo_sized : sized demo_device.
Proof.
  split; [|done]. split; [done|]. cbn [demo_device MemoryBlockDevice.count MemoryBlockDevice.bytes]. split.
  - rewrite length_zeros, Nat2Z.inj_mul, BLOCK_SIZE_Z. done.
  - apply zeros_ok.
Qed.

Lemma demo_ok : builder_ok (torn := λ _, False) demo_builder.
Proof.
  eapply (new_spec demo_device demo_uuid [] demo_builder); [apply demo_sized|done|done|repeat constructor; done|constructor|done|apply demo_new].
Qed.

(** ** Nothing fails *)

Section reliable.
Notation builder := (ImageBuilder memory).

(** The device has been written. *)
Definition rewritten (b b' : builder) : Prop := ∃ d, b' = Builder.set_device d b ∧ sized d.

Lemma rewritten_trans b1 b2 b3 : rewritten b1 b2 → rewritten b2 b3 → rewritten b1 b3.
Proof using. intros (d & -> & _) (d' & -> & ?). by exists d'. Qed.

Lemma rewritten_sized b b' : rewritten b b' → sized (ib_device b').
Proof using. by intros (d & -> & ?). Qed.

Lemma write_fine (b : builder) p x : sized (ib_device b) → 0 ≤ p < 300 → is_block x → bytes_ok x →
  wp (Builder.on_device (write_blocks p x)) (λ _ b', rewritten b b') (λ _ _, False) b.
Proof using.
  intros [Hok Hc] Hp Hx Hbx. unfold Builder.on_device. apply wp_zoom. cbn [write_blocks MemoryBlockDevice.memory_device].
  pose proof Hok as (Hs & Hl & Hb). unfold MemoryBlockDevice.write. wp_steps.
  assert (checked_block_range (MemoryBlockDevice.size (ib_device b)) (MemoryBlockDevice.count (ib_device b)) p (length x) = Ok (p * 4096, p * 4096 + 4096)) as ->.
  { rewrite Hs, Hc, Hx. unfold checked_block_range. pose proof BLOCK_SIZE_Z as HZ. rewrite Nat.Div0.mod_same, Nat.div_same by lia.
    rewrite (proj2 (Nat.eqb_neq BLOCK_SIZE 0)) by lia. cbn [negb Nat.eqb err_if]. rewrite !bind_Ok. cbv zeta.
    rewrite HZ. change (Z.of_nat 1) with 1. change u64_max with 18446744073709551615.
    rewrite (proj2 (checked_add_Some _ p 1 (p + 1))) by lia. cbn [ok_or]. rewrite bind_Ok, (proj2 (Z.ltb_ge _ _)) by lia. cbn [err_if]. rewrite bind_Ok.
    rewrite (proj2 (checked_mul_Some _ p 4096 (p * 4096))) by lia. cbn [ok_or]. rewrite bind_Ok.
    by rewrite (proj2 (checked_add_Some _ (p * 4096) 4096 (p * 4096 + 4096))) by lia. }
  wp_steps. cbn [fst]. eexists. split; [done|]. split; [|done]. split; [done|]. cbn. rewrite Hc in *. split.
  - apply length_put_block; [done|lia|done].
  - by apply put_bytes_ok.
Qed.

Lemma each_fine {A} (l : list A) (c : A → M builder BuildError.t unit) b : sized (ib_device b) →
  (∀ a b', a ∈ l → rewritten b b' → wp (c a) (λ _ b2, rewritten b' b2) (λ _ _, False) b') →
  wp (for_each l c) (λ _ b', rewritten b b') (λ _ _, False) b.
Proof using.
  intros Hs Hc. apply (wp_for_each l c (λ _ b', rewritten b b')); [by exists (ib_device b); destruct b| |done].
  intros prior a b' [rest ->] Hb. eapply wp_mono; [apply (Hc a b'); [apply elem_of_app; left; apply elem_of_app; right; by apply list_elem_of_singleton|done]|cbv beta|done].
  intros _ b2 H2. by eapply rewritten_trans.
Qed.

Lemma zeros_fine (b : builder) p : sized (ib_device b) → 0 ≤ p < 300 →
  wp (Builder.on_device (write_blocks p (zeros BLOCK_SIZE))) (λ _ b', rewritten b b') (λ _ _, False) b.
Proof using. intros Hs Hp. apply write_fine; [done|done|apply length_zeros|apply zeros_ok]. Qed.

(** The root after its block is allocated. *)
Definition demo_root : PendingNode := Eval vm_compute in
  {| pn_inode := Builder.set_extents (<[0%nat := Extent.mk 0 168 1 0]> (Inode.extents (pn_inode Builder.root_node)))
       (Builder.set_allocation 1 1 (Builder.set_listing 4096 0 (pn_inode Builder.root_node)));
     pn_content := PendingDirectory [] |}.
Definition allocated (d : memory) : builder := Build_ImageBuilder _ d demo_sb demo_gs [169] [demo_root].

Lemma format_fine {A} (o : outcome FormatError.t A) a (Q : A → builder → Prop) R b : o = Ok a → Q a b → wp (Builder.on_format o) Q R b.
Proof using. intros -> HQ. unfold Builder.on_format. wp_steps. done. Qed.

Lemma encoded_fine {A} (enc : A → outcome FormatError.t (list Z)) dec typed {HB : BlockCodec enc dec typed} (b : builder) p a x :
  sized (ib_device b) → 0 ≤ p < 300 → typed a → enc a = Ok x →
  wp (x ← Builder.on_format (enc a); Builder.on_device (write_blocks p x)) (λ _ b', rewritten b b') (λ _ _, False) b.
Proof using.
  intros Hs Hp Ht He. unfold Builder.on_format. rewrite He. cbn [map_err]. wp_steps.
  apply write_fine; [done|done|by eapply encode_block|by eapply encode_ok].
Qed.

Lemma listing_fine b : sized (ib_device b) → wp (Builder.write_listing 1 168 [] 0) (λ _ b', rewritten b b') (λ _ _, False) b.
Proof using.
  intros Hs. unfold Builder.write_listing. wp_step. eapply format_fine; [reflexivity|].
  rewrite drop_nil, take_nil. cbn [length seq zip zip_with for_fold]. wp_step. wp_step.
  set (dir := DirectoryBlock.mk 1 0 _).
  assert (DirectoryBlock.typed dir) as Ht.
  { split; [done|done|apply length_replicate|apply Forall_replicate, default_entry_typed]. }
  apply (encoded_fine _ _ _ (HB := DirectoryCodec.directory_codec) b (168 + 0) dir (DirectoryCodec.directory_image dir)); [done|done|done|].
  apply (DirectoryCodec.directory_encode_eq _ Ht). split; [vm_compute; reflexivity|done].
Qed.

Lemma root_valid : Inode.validate (pn_inode demo_root) = Ok ().
Proof using. vm_compute. reflexivity. Qed.

Lemma contents_fine : wp Builder.allocate_contents (λ _ b', ∃ d, b' = allocated d ∧ sized d) (λ _ _, False) demo_builder.
Proof using.
  unfold Builder.allocate_contents. wp_step. wp_step. cbn [ib_nodes demo_builder length seq for_each]. wp_step.
  unfold Builder.allocate_node. wp_step. wp_step. change (ib_nodes demo_builder !! 0%nat) with (Some Builder.root_node). cbn [expect]. wp_steps.
  cbn [pn_content Builder.root_node]. unfold Builder.allocate_directory. cbv zeta. change (Builder.listing_blocks []) with 1.
  unfold Builder.allocate_blocks. change (wrap 32 1) with 1. cbn [Z.eqb err_if]. wp_steps.
  change (Builder.fitting_group 1 0 (ib_groups demo_builder) (ib_next_data_block demo_builder)) with (Ok (E := BuildError.t) (0%nat, 168, 169)).
  wp_steps. unfold Builder.update_inode. wp_steps. change (ib_nodes (Builder.set_next_data_block _ demo_builder)) with [Builder.root_node].
  change ([Builder.root_node] !! 0%nat) with (Some Builder.root_node). cbn [expect]. wp_steps.
  change (range 0 1) with [0]. cbn [for_each]. wp_step. change (Z.of_nat 0 + 1) with 1.
  match goal with |- wp _ _ _ ?x => set (b1 := x) end. eapply wp_mono; [apply (listing_fine b1); apply demo_sized|cbv beta|done].
  intros _ b2 (d & -> & Hd). wp_steps. change (ib_nodes (Builder.set_device d b1) !! 0%nat) with (Some demo_root). cbn [expect]. wp_steps.
  apply (format_fine _ ()); [exact root_valid|]. wp_steps. exists d. split; [done|done].
Qed.

(** ** The metadata *)

Lemma set_bits_fine bits bitmap : is_block bitmap → bytes_ok bitmap → Forall (λ bit, Z.of_nat bit < 32768) bits →
  ∃ bm, Builder.set_bits bitmap bits = Ok bm ∧ is_block bm ∧ bytes_ok bm.
Proof using.
  revert bitmap. induction bits as [|bit bits IH]; intros bitmap Hb Hok Hbits; [by exists bitmap|].
  apply list.Forall_cons in Hbits as [Hbit Hbits]. cbn [Builder.set_bits].
  destruct (bitmap_set bitmap bit true) as [bm|e|] eqn:E; [|exfalso..].
  - rewrite bind_Ok. apply IH; [by eapply bitmap_set_block|by eapply bitmap_set_bytes|done].
  - unfold bitmap_set in E. destruct (lookup_lt_is_Some_2 bitmap (bit / 8)) as [x Hx].
    { pose proof BLOCK_SIZE_Z. unfold is_block in Hb. apply Nat.Div0.div_lt_upper_bound. lia. }
    by rewrite Hx in E.
  - by apply bitmap_set_no_abort in E.
Qed.

Lemma count_fine bits bitmap count : 0 ≤ count → count + Z.of_nat (length bits) ≤ u64_max →
  ∃ n, Builder.count_clear bitmap count bits = Ok n ∧ count ≤ n ≤ count + Z.of_nat (length bits).
Proof using.
  revert count. induction bits as [|bit bits IH]; intros count Hc Hmax; cbn [Builder.count_clear length] in *; [exists count; split; [done|lia]|].
  case_bool_decide.
  - rewrite (proj2 (checked_add_Some _ _ _ (count + 1))) by lia. cbn [ok_or]. rewrite bind_Ok.
    destruct (IH (count + 1)) as (n & Hn & ?); [lia|lia|]. exists n. split; [done|lia].
  - destruct (IH count) as (n & Hn & ?); [lia|lia|]. exists n. split; [done|lia].
Qed.

Definition demo_group : group := Eval vm_compute in match demo_gs with g :: _ => g | [] => AllocationGroupDescriptor.default end.

Lemma bits_small g lo hi : AllocationGroupDescriptor.group_start_block g = 0 → 0 ≤ lo → hi ≤ 300 →
  Forall (λ bit, Z.of_nat bit < 32768) (Builder.group_bit g <$> range lo hi).
Proof using.
  intros Hg Hlo Hhi. apply Forall_fmap, list.Forall_forall. intros p Hp%elem_of_seqZ. cbn. unfold Builder.group_bit. rewrite Hg. lia.
Qed.

Lemma marked_fine d bitmap : is_block bitmap → bytes_ok bitmap →
  wp (for_fold [demo_root] bitmap (Builder.mark_node demo_group)) (λ bm b', b' = allocated d ∧ is_block bm ∧ bytes_ok bm) (λ _ _, False) (allocated d).
Proof using.
  intros Hb Hok. cbn [for_fold]. wp_step. unfold Builder.mark_node. change (take _ _) with [Extent.mk 0 168 1 0]. cbn [for_fold]. wp_step.
  unfold Builder.mark_extent. change (checked_add u64_max _ _) with (Some 169). cbn [ok_or]. wp_steps.
  destruct (set_bits_fine (Builder.group_bit demo_group <$> range 168 169) bitmap Hb Hok) as (bm & Hbm & H1 & H2); [by apply bits_small|].
  apply (format_fine _ bm); [exact Hbm|]. by wp_steps.
Qed.

Lemma allocated_again d b : rewritten (allocated d) b → ∃ d', b = allocated d' ∧ sized d'.
Proof using. intros (d' & -> & Hd). exists d'. split; [reflexivity|exact Hd]. Qed.

Lemma group_fine b : (∃ d, b = allocated d ∧ sized d) → wp (Builder.write_group (0, 0) (0%nat, demo_group))
  (λ r b', (∃ d, b' = allocated d ∧ sized d) ∧ is_u64 r.1 ∧ is_u64 r.2) (λ _ _, False) b.
Proof using.
  intros (d & -> & Hd). unfold Builder.write_group. cbv zeta. wp_step.
  destruct (set_bits_fine (Builder.group_bit demo_group <$> range 0 168) (zeros BLOCK_SIZE)) as (bm & Hbm & Hb & Hok);
    [apply length_zeros|apply zeros_ok|by apply bits_small|].
  apply (format_fine _ bm); [exact Hbm|]. do 3 wp_step. eapply wp_mono; [by apply (marked_fine d bm)|cbv beta|done].
  intros bm1 b' (-> & Hb1 & Hok1). wp_step.
  destruct (set_bits_fine [0%nat] (zeros BLOCK_SIZE)) as (im & Him & Hi & Hiok); [apply length_zeros|apply zeros_ok|by repeat constructor|].
  apply (format_fine _ im); [exact Him|]. wp_step.
  destruct (count_fine (Builder.group_bit demo_group <$> range 168 300) bm1 0) as (fb & Hfb & Hfb'); [done|rewrite length_fmap; vm_compute; discriminate|].
  destruct (count_fine (seq 0 256) im 0) as (fi & Hfi & Hfi'); [done|vm_compute; discriminate|].
  apply wp_lift. change (AllocationGroupDescriptor.first_data_block demo_group) with 168.
  change (AllocationGroupDescriptor.data_end_block demo_group) with 300. rewrite Hfb. cbn [wpo]. wp_step. apply wp_lift.
  change (Z.to_nat (AllocationGroupDescriptor.inodes_in_group demo_group)) with 256%nat. rewrite Hfi. cbn [wpo]. wp_step.
  change (AllocationGroupDescriptor.block_bitmap_block demo_group) with 150.
  eapply wp_mono; [apply (write_fine (allocated d) 150 bm1); [exact Hd|lia|exact Hb1|exact Hok1]|cbv beta|done]. intros _ b1 (d1 & -> & Hd1)%allocated_again. wp_step.
  change (AllocationGroupDescriptor.inode_bitmap_block demo_group) with 151.
  eapply wp_mono; [apply (write_fine (allocated d1) 151 im); [exact Hd1|lia|exact Hi|exact Hiok]|cbv beta|done]. intros _ b2 (d2 & -> & Hd2)%allocated_again. wp_step.
  eapply wp_mono; [apply (each_fine _ _ (allocated d2)); [exact Hd2|]|cbv beta|done].
  - intros offset b' Ho%elem_of_seqZ Hb'. apply zeros_fine; [by eapply rewritten_sized|].
    change (AllocationGroupDescriptor.inode_table_first_block demo_group) with 152.
    change (AllocationGroupDescriptor.inode_table_block_count demo_group) with 16 in Ho. lia.
  - intros _ b3 (d3 & -> & Hd3)%allocated_again. wp_step. split; [exists d3; split; [reflexivity|exact Hd3]|]. rewrite length_fmap in Hfb'. change (length (range 168 300)) with 132%nat in Hfb'.
    rewrite length_seq in Hfi'. cbn [fst snd]. unfold is_u64, u64_max. lia.
Qed.

Definition stored_block (block : list Z) : Prop := is_block block ∧ bytes_ok block.

Lemma store_fine d first block slot : (slot < 16)%nat → stored_block block →
  wp (Builder.store_node first block slot) (λ block' b', b' = allocated d ∧ stored_block block') (λ _ _, False) (allocated d).
Proof using.
  intros Hslot [Hb Hok]. unfold Builder.store_node. wp_step. wp_step. change (ib_nodes (allocated d)) with [demo_root].
  destruct ([demo_root] !! (first + slot)%nat) as [node|] eqn:En; [|wp_steps; split; [reflexivity|by split]].
  assert (node = demo_root) as -> by (by apply list_elem_of_lookup_2, list_elem_of_singleton in En). wp_step.
  assert (∃ x, Inode.encode (pn_inode demo_root) = Ok x) as [x Hx].
  { eexists. apply InodeCodec.inode_encode_eq; [done|done|]. split; [exact root_valid|done]. }
  apply (format_fine _ x); [exact Hx|]. destruct (InodeCodec.inode_encode_bytes (pn_inode demo_root) _ x eq_refl Hx) as [Hlx Hokx]. wp_step.
  split; [reflexivity|]. pose proof BLOCK_SIZE_Z. unfold stored_block, is_block in *. split; [|by apply put_bytes_ok].
  rewrite length_put_bytes; [done|]. rewrite Hlx, Hb. unfold INODE_BYTES. lia.
Qed.

Lemma table_fine b : (∃ d, b = allocated d ∧ sized d) → wp (Builder.write_table (0%nat, demo_group))
  (λ _ b', ∃ d, b' = allocated d ∧ sized d) (λ _ _, False) b.
Proof using.
  intros (d & -> & Hd). unfold Builder.write_table. change (Z.to_nat (AllocationGroupDescriptor.inode_table_block_count (0%nat, demo_group).2)) with 16%nat.
  cbn [fst snd]. eapply wp_mono; [apply (each_fine _ _ (allocated d) Hd)|cbv beta; intros _ b' Hb'; by eapply allocated_again|done].
  intros k b' Hk%elem_of_seq (d1 & -> & Hd1)%allocated_again. unfold Builder.write_table_block. cbv zeta. wp_step.
  set (first := (_ + _)%nat).
  eapply wp_mono with (Q := λ block b', b' = allocated d1 ∧ stored_block block) (R := λ _ _, False);
    [apply (wp_for_fold _ _ (λ _ block b', b' = allocated d1 ∧ stored_block block))|cbv beta|done].
  - split; [reflexivity|]. split; [apply length_zeros|apply zeros_ok].
  - intros prior slot block b' [rest Hp] [-> Hblock]. apply store_fine; [|exact Hblock].
    assert (slot ∈ seq 0 Builder.INODES_PER_BLOCK) as Hin%elem_of_seq; [|unfold Builder.INODES_PER_BLOCK in Hin; lia].
    rewrite Hp. apply elem_of_app. left. apply elem_of_app. right. by apply list_elem_of_singleton.
  - intros block b' Hb'. exact Hb'.
  - intros block b' [-> [H1 H2]]. apply write_fine; [exact Hd1| |exact H1|exact H2].
    change (AllocationGroupDescriptor.inode_table_first_block demo_group) with 152. lia.
Qed.

Definition demo_table : AllocationGroupTable.t := Eval vm_compute in
  match Builder.push_all (AllocationGroupTable.new 0 1 0 1 17) demo_gs with Ok t => t | _ => AllocationGroupTable.new 0 1 0 1 17 end.

Lemma demo_table_typed : AllocationGroupTable.typed demo_table.
Proof using.
  split; try done. repeat (apply list.Forall_cons; split); [|apply TableCodec.descriptor_default_typed..|constructor].
  destruct (group_spec _ _ (bk_volume _ demo_ok) 0 demo_group eq_refl) as [Ht _]. exact Ht.
Qed.

Lemma table_valid : AllocationGroupTable.validate demo_table demo_sb = Ok ().
Proof using. vm_compute. reflexivity. Qed.

Lemma descriptors_fine b : (∃ d, b = allocated d ∧ sized d) → wp (Builder.write_descriptors 0)
  (λ _ b', ∃ d, b' = allocated d ∧ sized d) (λ _ _, False) b.
Proof using.
  intros (d & -> & Hd). unfold Builder.write_descriptors. wp_step. wp_step. cbv zeta. wp_step.
  apply (format_fine _ demo_table); [reflexivity|]. change (ib_superblock (allocated d)) with demo_sb.
  change (AllocationGroupTable.physical_block demo_table) with 17.
  eapply wp_mono with (Q := λ _ b', rewritten (allocated d) b') (R := λ _ _, False); [|cbv beta; intros _ b' Hb'; by eapply allocated_again|done].
  apply (encoded_fine _ _ _ (HB := TableCodec.table_codec demo_sb) (allocated d) 17 demo_table (TableCodec.table_image demo_table)); [exact Hd|done|exact demo_table_typed|].
  apply (TableCodec.table_encode_Ok _ _ _ demo_table_typed). split; [exact table_valid|reflexivity].
Qed.

Notation good := (λ b : builder, ∃ d, b = allocated d ∧ sized d).

Lemma good_each {A} (l : list A) (c : A → M builder BuildError.t unit) b : good b →
  (∀ a b', a ∈ l → good b' → wp (c a) (λ _ b2, good b2) (λ _ _, False) b') →
  wp (for_each l c) (λ _ b', good b') (λ _ _, False) b.
Proof using.
  intros Hb Hc. apply (wp_for_each l c (λ _ b', good b')); [exact Hb| |intros b' Hb'; exact Hb'].
  intros prior a b' [rest ->] Hb'. apply Hc; [|exact Hb']. apply elem_of_app. left. apply elem_of_app. right. by apply list_elem_of_singleton.
Qed.

Lemma good_wp {A} (c : M builder BuildError.t A) b : (∀ d, b = allocated d → sized d → wp c (λ _ b', rewritten b b') (λ _ _, False) b) → good b →
  wp c (λ _ b', good b') (λ _ _, False) b.
Proof using.
  intros Hc (d & -> & Hd). eapply wp_mono; [exact (Hc d eq_refl Hd)|cbv beta; intros _ b'; apply allocated_again|done].
Qed.

Lemma state_fine fb fi (Q : list Z → builder → Prop) R b : is_u64 fb → is_u64 fi → (∀ x, is_block x → bytes_ok x → Q x b) →
  wp (Builder.on_format (FilesystemState.encode (FilesystemState.mk (FilesystemState.generation FilesystemState.initial)
    (FilesystemState.next_transaction_id FilesystemState.initial) 0 fb fi))) Q R b.
Proof using.
  intros Hfb Hfi HQ. set (st := FilesystemState.mk _ _ _ _ _).
  assert (∃ x, FilesystemState.encode st = Ok x) as [x Hx] by (eexists; apply StateCodec.state_encode_eq; split; reflexivity).
  apply (format_fine _ x); [exact Hx|]. assert (FilesystemState.typed st) as Ht by (split_and!; done).
  apply HQ; [exact (encode_block (BlockCodec := StateCodec.state_codec) _ _ Ht Hx)|exact (encode_ok (BlockCodec := StateCodec.state_codec) _ _ Ht Hx)].
Qed.

Lemma control_fine d k : sized d → k ∈ range 0 2 →
  wp (control ← Builder.on_format (JournalControl.encode (JournalControl.empty (k + 1)));
      Builder.on_device (write_blocks (Superblock.journal_first_block demo_sb + k) control))
    (λ _ b', rewritten (allocated d) b') (λ _ _, False) (allocated d).
Proof using.
  intros Hd Hk%elem_of_seqZ. change (Superblock.journal_first_block demo_sb) with 20.
  assert (∃ x, JournalControl.encode (JournalControl.empty (k + 1)) = Ok x) as [x Hx].
  { eexists. apply ControlCodec.control_encode_eq. split; [|reflexivity]. assert (k = 0 ∨ k = 1) as [-> | ->] by lia; done. }
  apply (encoded_fine _ _ _ (HB := ControlCodec.control_codec) (allocated d) (20 + k) _ x); [exact Hd|lia| |exact Hx].
  assert (k = 0 ∨ k = 1) as [-> | ->] by lia; split_and!; done.
Qed.

Lemma demo_encodes : Superblock.encode demo_sb = Ok (SuperblockCodec.image demo_sb).
Proof using.
  pose proof (bk_volume _ demo_ok) as Hiv. change (ib_superblock demo_builder) with demo_sb in Hiv.
  apply SuperblockCodec.sb_encode_eq; [apply Hiv|]. split; [apply Hiv|reflexivity].
Qed.

Lemma metadata_fine b : good b → wp Builder.write_metadata (λ _ b', good b') (λ _ _, False) b.
Proof using.
  intros (d & -> & Hd). unfold Builder.write_metadata. wp_step. wp_step. cbv zeta. change (ib_superblock (allocated d)) with demo_sb.
  change (Builder.indexed (ib_groups (allocated d))) with [(0%nat, demo_group)]. wp_step.
  eapply wp_mono; [apply good_each; [exists d; split; [reflexivity|exact Hd]|]|cbv beta|done].
  { intros p b' Hp%elem_of_seqZ Hb'. apply good_wp; [|exact Hb']. intros d1 -> Hd1. apply zeros_fine; [exact Hd1|].
    change (Superblock.first_allocatable_block demo_sb) with 150 in Hp. lia. }
  intros _ b1 Hb1. wp_step. cbn [for_fold]. wp_step. eapply wp_mono; [exact (group_fine b1 Hb1)|cbv beta|done].
  intros [fb fi] b2 (Hb2 & Hfb & Hfi). wp_step. cbv beta iota. wp_step. cbn [for_each]. wp_step.
  eapply wp_mono; [exact (table_fine b2 Hb2)|cbv beta|done]. intros _ b3 Hb3. wp_step. wp_step.
  change (range 0 (Superblock.descriptor_reservation_blocks demo_sb)) with [0]. cbn [for_each]. wp_step.
  eapply wp_mono; [exact (descriptors_fine b3 Hb3)|cbv beta|done]. intros _ b4 Hb4. wp_step. wp_step.
  apply (state_fine fb fi); [exact Hfb|exact Hfi|]. intros x Hx Hxb. wp_step.
  eapply wp_mono; [apply good_wp; [intros d4 -> Hd4; apply write_fine; [exact Hd4|done|exact Hx|exact Hxb]|exact Hb4]|cbv beta|done].
  intros _ b5 Hb5. wp_step.
  eapply wp_mono; [apply good_each; [exact Hb5|]|cbv beta|done].
  { intros k b' Hk Hb'. apply good_wp; [|exact Hb']. intros d1 -> Hd1. by apply control_fine. }
  intros _ b6 Hb6. wp_step. apply (format_fine _ (SuperblockCodec.image demo_sb)); [exact demo_encodes|].
  pose proof (iv_typed _ _ (bk_volume _ demo_ok)) as Ht. change (ib_superblock demo_builder) with demo_sb in Ht.
  pose proof (SuperblockCodec.sb_image_block demo_sb Ht) as H1. pose proof (SuperblockCodec.sb_image_ok demo_sb Ht) as H2.
  revert H1 H2. generalize (SuperblockCodec.image demo_sb). intros X H1 H2. wp_step.
  eapply wp_mono; [apply good_wp; [intros d6 -> Hd6; apply write_fine; [exact Hd6|done|exact H1|exact H2]|exact Hb6]|cbv beta|done].
  intros _ b7 Hb7. apply good_wp; [intros d7 -> Hd7; apply write_fine; [exact Hd7|done|exact H1|exact H2]|exact Hb7].
Qed.

(** The volume is formatted. *)
Lemma finish_fine : wp Builder.finish (λ d _, sized d) (λ _ _, False) demo_builder.
Proof using.
  unfold Builder.finish. wp_step. eapply wp_mono; [exact contents_fine|cbv beta|done]. intros _ b1 Hb1. wp_step.
  eapply wp_mono; [exact (metadata_fine b1 Hb1)|cbv beta|done]. intros _ b2 (d & -> & Hd). wp_step.
  unfold Builder.on_device. apply wp_zoom. cbn [flush MemoryBlockDevice.memory_device]. wp_step. wp_step. exact Hd.
Qed.
End reliable.

(** ** The formatted device and a filesystem on it *)

Definition demo_disk : memory := match Builder.finish demo_builder with (Ok d, _) => d | _ => demo_device end.

Lemma demo_built : ∃ v nodes, built (torn := λ _, False) demo_builder demo_disk v nodes.
Proof.
  pose proof finish_fine as H1. pose proof (finish_built (torn := λ _, False) demo_builder demo_ok) as H2. unfold wp in H1, H2. unfold demo_disk.
  destruct (Builder.finish demo_builder) as [[d|e|] b']; [exact H2|destruct H1|destruct H1].
Qed.

Lemma demo_finished : Builder.finish demo_builder = (Ok demo_disk, (Builder.finish demo_builder).2).
Proof.
  pose proof finish_fine as H. unfold wp in H. unfold demo_disk. destruct (Builder.finish demo_builder) as [[d|e|] b']; [reflexivity|destruct H|destruct H].
Qed.

Lemma demo_disk_sized : sized demo_disk.
Proof.
  pose proof finish_fine as H. unfold wp in H. unfold demo_disk. destruct (Builder.finish demo_builder) as [[d|e|] b']; [exact H|destruct H|destruct H].
Qed.

Lemma demo_fits : fits demo_sb demo_disk.
Proof. destruct demo_disk_sized as [(Hs & _) Hc]. split; [exact Hs| |]; cbn [block_count MemoryBlockDevice.memory_device]; rewrite Hc; vm_compute; discriminate. Qed.

(** Power may fail: nothing is in a cache. *)
Lemma demo_reboots : reboots (torn := λ _, False) demo_disk demo_disk.
Proof.
  destruct demo_built as (v & nodes & [[Hok Hn Ha] _ _ _ _]). exists v. split; [intros c; symmetry; exact (Hn c)|].
  split; [exact Hok|exact Hn|exact Ha].
Qed.

(** A filesystem on the formatted device. *)
Definition opened (st : FilesystemState.t) : Filesystem memory :=
  Build_Filesystem _ demo_disk demo_sb demo_gs RuntimeReadWrite (Some st) 2 0 false None [] 1 [].

Lemma demo_block v nodes c : built (torn := λ _, False) demo_builder demo_disk v nodes → 0 ≤ c < 300 → is_block (v c) ∧ bytes_ok (v c).
Proof.
  intros [[_ Hn _] _ _ _ _] Hc. rewrite <- Hn. destruct demo_disk_sized as [(_ & Hl & Hok) Hcount]. rewrite Hcount in Hl.
  split; [by apply (block_of_block _ 300)|by apply block_of_ok].
Qed.

Lemma demo_ready v nodes : built (torn := λ _, False) demo_builder demo_disk v nodes →
  ready (torn := λ _, False) demo_sb (opened (new_state demo_gs v)) v (new_state demo_gs v).
Proof.
  intros Hb. pose proof (bu_metadata _ _ _ _ Hb) as Hm. pose proof (mh_state _ _ _ _ Hm) as Hst. split; [split; [split|..]|..]; try reflexivity.
  - apply Hb.
  - cbn [journal_generation older_control_slot opened]. unfold chosen, control_at. change (ib_superblock demo_builder) with demo_sb in Hm.
    rewrite (mh_controls _ _ _ _ Hm 0), (mh_controls _ _ _ _ Hm 1) by auto. reflexivity.
  - cbn. lia.
  - destruct (demo_block v nodes 19 Hb ltac:(lia)) as [H1 H2]. exact (proj2 (decode_canonical (BlockCodec := StateCodec.state_codec) _ _ H1 H2 Hst)).
  - exact Hst.
  - intros tx [=].
  - exact (formatted_unsigned demo_builder demo_ok).
  - exact (proj1 (built_holds demo_builder demo_ok _ _ _ Hb)).
Qed.

Lemma demo_serves : ∃ s m st T E, serves (torn := λ _, False) demo_sb demo_gs s m st T E ∧ device s = demo_disk ∧
  orphans T (FilesystemState.orphan_head st) [] ∧ ∀ n i, T n = Some i → Inode.link_count i ≠ 0.
Proof.
  destruct demo_built as (v & nodes & Hb). set (st := new_state demo_gs v). destruct (built_planned _ demo_ok _ _ _ Hb) as [Hp _].
  assert (∀ n i, image_table nodes n = Some i → Inode.link_count i ≠ 0) as Hlinks.
  { intros n i (node & Hn & ->)%fmap_Some Hl. by rewrite (pl_links _ Hp n node Hn) in Hl. }
  exists (opened st), v, st, (image_table nodes), (image_forest (ib_nodes demo_builder)).
  split; [|split; [reflexivity|]; split; [by apply image_orphans|exact Hlinks]]. split.
  - exact (iv_volume _ _ (bk_volume _ demo_ok)).
  - exact (formatted_unsigned demo_builder demo_ok).
  - exact (formatted_bits demo_builder demo_ok).
  - reflexivity.
  - exact (demo_ready v nodes Hb).
  - split; [exact (built_contents _ demo_ok _ _ _ Hb)|exists []; by apply image_orphans|].
    intros n i Hi Hl. destruct (Hlinks n i Hi Hl).
Qed.
