(* ===== verification/FilesystemProps.v ===== *)
(** * Properties of NullFS

    Formatting, mounting, the operations of a mounted filesystem, power failures and
    unmounting, together; with the volume of DemoVolume.v as the witness. *)

From Stdlib Require Import ZArith Lia.
From stdpp Require Import base list numbers option gmap.
From S2P Require Import Prelude NullfsBytes NullfsPhase3 NullfsSuperblock NullfsRecord NullfsInode.
From S2P Require Import NullfsDirectory NullfsAllocation BlockDevice Journal JournalDisk JournalSteps.
From S2P Require Import JournalRecovery JournalProps Volume Mutation Mount Extents VolumeReads Session.
From S2P Require Import MutationSteps Atomicity Layout Ownership Mounted FileWrite Truncate Namespace DirectoryViews.
From S2P Require Import NamespaceSteps Create Remove Rename Orphans Reclaim Validate Lifecycle Remount.
From S2P Require Import ImageBuilder ImagePlan ImageVolume ImageWrites ImageContents ImageNodes ImageTree ImageBitmaps ImageMetadata.
From S2P Require Import Format Lifetime Durability DemoVolume.

Open Scope Z_scope.

Lemma never_torn (y : list Z) : ¬ (λ _ : list Z, False) y.
Proof. by intros []. Qed.

(** ** Formatting *)

Section formatting.
Context {D : Type} {HD : BlockDevice D} {torn : list Z → Prop} {HC : CrashSafe D torn}.

(** C4. A formatted volume can always be mounted.  Let a builder be finished, and let
    the volume then live any number of lives: each mounts it, runs any sequence of
    operations, unmounts it or not, and ends with a power failure at any point of the
    device's cache; also mounts that fail, and operations that stop the filesystem at a
    lost commit.  Block writes are atomic.  Then the device holds a filesystem
    ([contains]): behind its journal are contents with a state block, a tree of
    directories, exact allocation and a list of orphans.  The next mount finds that
    filesystem: it returns one with the same entries and the nodes that have links,
    which satisfies the invariant, or it fails and the volume can be mounted again; it
    never panics, and when that list is empty and that state block has a free count it
    fails only for the device or for an exhausted counter. *)
Theorem formatted_volume_survives (b b' : ImageBuilder D) (d d1 d2 : D) : (∀ y, ¬ torn y) → builder_ok (torn := torn) b →
  Builder.finish b = (Ok d, b') →
  lives (ib_superblock b) d d1 → reboots d1 d2 → fits (ib_superblock b) d2 →
  ∃ h T E st l, contains (torn := torn) (ib_superblock b) (ib_groups b) h T E st l d2 ∧
    mount_finds (torn := torn) (ib_superblock b) (ib_groups b) h T E st l d2 ∧
    ∀ s, try_mount_read_write d2 = Ok s → healthy (torn := torn) (with_state Dirty (ib_superblock b)) (ib_groups b) s.
Proof.
  intros Ha Hb Hfin Hl Hre Hfit. pose proof (finish_built b Hb) as Hf. unfold wp in Hf. rewrite Hfin in Hf. cbn [wpo] in Hf.
  destruct Hf as (v & nodes & Hbuilt). pose proof (iv_volume _ _ (bk_volume _ Hb)) as Hvol.
  pose proof (formatted_unsigned b Hb) as Hu. pose proof (formatted_bits b Hb) as Hbits.
  pose proof (lives_survive Ha _ _ Hvol Hu Hbits d d1 (formatted_survives b Hb d v nodes Hbuilt) Hl) as Hs.
  destruct (survives_mount Ha _ _ Hvol Hu Hbits d1 d2 Hs Hre Hfit) as (h & T & E & st & l & Hct & Hm).
  exists h, T, E, st, l. split; [done|]. split; [by split|]. intros s Hs'. rewrite Hs' in Hm.
  by apply (remounted_healthy _ _ h T E).
Qed.
End formatting.

Lemma formatted_volume_survives_witness : ∃ h T E st l, contains (torn := λ _, False) demo_sb demo_gs h T E st l demo_disk ∧
    mount_finds (torn := λ _, False) demo_sb demo_gs h T E st l demo_disk ∧
    ∀ s, try_mount_read_write demo_disk = Ok s → healthy (torn := λ _, False) (with_state Dirty demo_sb) demo_gs s.
Proof.
  exact (formatted_volume_survives demo_builder _ demo_disk demo_disk demo_disk never_torn demo_ok demo_finished
    (lives_none _ _) demo_reboots demo_fits).
Defined.

(** C12. The files of an image are read back.  After a builder is finished, power may
    fail, and the volume is mounted: it shows the directories that were planned, with
    their names, and reading a file returns the bytes that the builder was given for
    it, with zeros between the segments.  Block writes are atomic.  When the volume has a free inode, the mount
    fails only for the device or for an exhausted counter. *)
Theorem formatted_files_read_back {D : Type} {HD : BlockDevice D} {torn : list Z → Prop} {HC : CrashSafe D torn}
    (b b' : ImageBuilder D) (d d2 : D) : (∀ y, ¬ torn y) → builder_ok (torn := torn) b → Builder.finish b = (Ok d, b') →
  reboots d d2 → fits (ib_superblock b) d2 →
  match try_mount_read_write d2 with
  | Ok s => ∃ v T, remounted (ib_superblock b) (ib_groups b) v T (image_forest (ib_nodes b)) s ∧
      ∀ n node segments, node_at (ib_nodes b) n = Some node → pn_content node = PendingFile segments →
        ∃ i, T n = Some i ∧ Inode.size i = Inode.size (pn_inode node) ∧
          ∀ offset output, 0 ≤ offset →
            wp (read n offset output)
              (λ r s', s' = s ∧ let count := Nat.min (length output) (Z.to_nat (Inode.size i - offset)) in
                 r = (count, ((λ k, segment_byte segments (offset + Z.of_nat k)) <$> seq 0 count) ++ drop count output))
              (λ e s', s' = s ∧ device_error e) s
  | Err (e, d') => survives (torn := torn) (ib_superblock b) (ib_groups b) d' ∧
      ((length (ib_nodes b) < length (ib_groups b) * 256)%nat → device_error e ∨ exhausted e)
  | Abort => False
  end.
Proof.
  intros Ha Hb Hfin Hre Hfit. pose proof (finish_built b Hb) as Hf. unfold wp in Hf. rewrite Hfin in Hf. cbn [wpo] in Hf.
  destruct Hf as (v & nodes & Hbuilt). destruct (formatted_mount Ha b Hb d v nodes Hbuilt d2 Hre Hfit) as [_ Hm].
  destruct (try_mount_read_write d2) as [s|[e d']|]; [|split; [apply Hm|]|done].
  - exists v, (image_table nodes). split; [done|]. intros n node segments Hn Hc.
    destruct (built_file b Hb d v nodes Hbuilt n node segments Hn Hc) as (i & Hi & Hk & Hsz & Hbytes). exists i. split; [done|]. split; [done|].
    intros offset output Ho. pose proof (remounted_read _ _ _ _ _ _ n i offset output Hm Hi) as Hread.
    eapply wp_mono; [apply Hread; [|done|done]|cbv beta|done].
    { destruct (built_planned b Hb d v nodes Hbuilt) as [Hp _]. apply fmap_Some in Hi as (nd & Hnd & ->). by rewrite (pl_links _ Hp n nd Hnd). }
    intros r s' [-> ->]. split; [done|]. cbv zeta. do 2 f_equal. unfold file_bytes. apply list_fmap_ext. intros k x _. apply Hbytes. lia.
  - intros Hfree. apply Hm; [done|]. right. by eapply formatted_free.
Qed.

Lemma formatted_files_read_back_witness : match try_mount_read_write demo_disk with
  | Ok s => ∃ v T, remounted (torn := λ _, False) demo_sb demo_gs v T (image_forest [Builder.root_node]) s
  | Err (e, d') => device_error e ∨ exhausted e
  | Abort => False
  end.
Proof.
  pose proof (formatted_files_read_back (torn := λ _, False) demo_builder _ demo_disk demo_disk never_torn demo_ok demo_finished demo_reboots demo_fits) as H.
  destruct (try_mount_read_write demo_disk) as [s|[e d']|]; [|apply H; vm_compute; lia|exact H].
  destruct H as (v & T & H & _). exists v, T. exact H.
Defined.


(** ** Operations *)

Section operations.
Context {D : Type} {HD : BlockDevice D} {torn : list Z → Prop} {HC : CrashSafe D torn}.
Notation fs := (Filesystem D).

(** C8. Creating a node is all or nothing, also across a power failure.  When
    [create_node] returns, exactly one entry with the name and one new inode have been
    added, everything else is as before, and the next mount finds that; when it fails,
    the filesystem is as before or has stopped, and after a power failure the next
    mount finds the old tree or the tree with the new node, and nothing else.  Block
    writes are atomic. *)
Theorem create_old_or_new (sb : Superblock.t) (gs : list group) (s : fs) m st T E parent name mode kind : (∀ y, ¬ torn y) →
  serves (torn := torn) sb gs s m st T E → is_u64 parent → bytes_ok name → 0 ≤ mode ≤ u16_max → kind ≠ NodeKind.Free →
  old_or_new (torn := torn) sb gs s m T E (created sb s m st T E parent name mode kind)
    (λ node h T' E', ∃ v pend, created_to sb s m st T E parent name mode kind T' E' node v pend ∧ agree sb h v)
    (create_node parent name mode kind).
Proof.
  intros Ha [Hvol Hu Hbits Hgs Hr Hs] Hp Hn Hm Hk. assert (volume sb (groups s)) as Hv by (by rewrite Hgs).
  eapply atomic_found; [done..| |].
  - intros node v pend (T' & E' & Hc). exists T', E'. split; [rewrite <- Hgs; eapply created_to_sound; [rewrite Hgs; exact Hs|exact Hc]|].
    intros h Hh. by exists v, pend.
  - apply (create_node_spec sb s m st Hv Hr (torn_never Ha) T E); [rewrite Hgs; apply Hs|done..].
Qed.

(** C10. Removing a node is all or nothing, also across a power failure.  When [remove]
    returns, exactly the entry with the name is gone, and with it its inode and blocks,
    unless a handle keeps the file open: then it is the first orphan; a directory is
    removed only when it is empty.  When [remove] fails, the filesystem is as before or
    has stopped, and the next mount finds the old tree or the new one.  Block writes are
    atomic. *)
Theorem remove_old_or_new (sb : Superblock.t) (gs : list group) (s : fs) m st T E parent name directory : (∀ y, ¬ torn y) →
  serves (torn := torn) sb gs s m st T E → is_u64 parent → bytes_ok name →
  old_or_new (torn := torn) sb gs s m T E (removed sb s m st T E parent name directory)
    (λ _ h T' E', ∃ v pend, removed_to sb s m st T E parent name directory T' E' v pend ∧ agree sb h v)
    (remove parent name directory).
Proof.
  intros Ha [Hvol Hu Hbits Hgs Hr Hs] Hp Hn. assert (volume sb (groups s)) as Hv by (by rewrite Hgs).
  assert (Forall group_unsigned (groups s)) as Hu' by (by rewrite Hgs).
  eapply atomic_found; [done..| |].
  - intros u v pend (T' & E' & Hc). exists T', E'. split; [rewrite <- Hgs; eapply removed_to_sound; [rewrite Hgs; exact Hs|exact Hc]|].
    intros h Hh. by exists v, pend.
  - apply (remove_node_spec sb s m st Hv Hu' Hr (torn_never Ha) T E); [rewrite Hgs; apply Hs|done..].
Qed.

(** C11. Resizing a file is all or nothing, also across a power failure.  When
    [truncate] returns, the file has the size, its bytes below both the old and the new
    size are as before, all its other bytes are zero, also when it has grown, and no
    other node has changed; when it fails, the filesystem is as before or has stopped,
    and the next mount finds the old file or the new one.  Block writes are atomic.
    The bytes after the end of every file are zero: [sound] carries this as an
    invariant. *)
Theorem truncate_old_or_new (sb : Superblock.t) (gs : list group) (s : fs) m st T E node size : (∀ y, ¬ torn y) →
  serves (torn := torn) sb gs s m st T E → is_u64 node → is_u64 size →
  old_or_new (torn := torn) sb gs s m T E (resized sb s m st T node size)
    (λ _ h T' E', E' = E ∧ ∃ v pend i, T node = Some i ∧ Inode.kind i = NodeKind.Regular ∧
       file_becomes sb s m st T T' node i size (truncated m i size) v pend ∧ agree sb h v)
    (truncate node size).
Proof.
  intros Ha [Hvol Hu Hbits Hgs Hr Hs] Hp Hn. assert (volume sb (groups s)) as Hv by (by rewrite Hgs).
  assert (Forall group_unsigned (groups s)) as Hu' by (by rewrite Hgs).
  eapply atomic_found; [done..| |].
  - intros u v pend (i & T' & Hi & Hk & Hb). exists T', E. split; [rewrite <- Hgs; eapply becomes_sound; [rewrite Hgs; exact Hs|exact Hi|exact Hk|apply truncated_zero|exact Hb]|].
    intros h Hh. split; [done|]. by exists v, pend, i.
  - apply (truncate_spec sb s m st Hv Hu' Hr (torn_never Ha) T node size); [rewrite Hgs; apply Hs|apply Hs|apply Hp|done].
Qed.

(** C7. Renaming is all or nothing, also across a power failure.  When [rename]
    returns, the source has the new name, an empty directory or a file that had it is
    gone, and nothing else has changed, or the two names are the same and nothing has
    changed at all; when it fails, the filesystem is as before or has stopped, and the
    next mount finds the old tree or the new one.  Block writes are atomic. *)
Theorem rename_old_or_new (sb : Superblock.t) (gs : list group) (s : fs) m st T E old_parent old_name new_parent new_name : (∀ y, ¬ torn y) →
  serves (torn := torn) sb gs s m st T E → is_u64 old_parent → is_u64 new_parent → bytes_ok old_name → bytes_ok new_name →
  let Q := renamed sb s m st T E old_parent old_name new_parent new_name in
  let P := λ _ : unit, λ h T' E', ∃ v pend, renamed_to sb s m st T E old_parent old_name new_parent new_name T' E' v pend ∧ agree sb h v in
  wp (rename old_parent old_name new_parent new_name)
    (λ a s', committed sb s Q a s' ∧ found_after (torn := torn) sb gs s' (P a) ∨
       s' = s ∧ old_parent = new_parent ∧ old_name = new_name ∧ ∃ pos e, E old_parent !! pos = Some e ∧ DirectoryEntry.name_bytes e = old_name)
    (λ _ s', undone sb s m Q s' ∧ found_after (torn := torn) sb gs s' (λ h T' E', unchanged m T E h T' E' ∨ ∃ a, P a h T' E')) s.
Proof.
  intros Ha [Hvol Hu Hbits Hgs Hr Hs] Hp1 Hp2 Hn1 Hn2 Q P. assert (volume sb (groups s)) as Hv by (by rewrite Hgs).
  assert (Forall group_unsigned (groups s)) as Hu' by (by rewrite Hgs).
  assert (∀ a v pend, Q a v pend → ∃ T' E', sound sb gs T' E' (open_handles s) v pend ∧ ∀ h, agree sb h v → P a h T' E') as HQ.
  { intros a v pend (T' & E' & Hc). exists T', E'. split; [rewrite <- Hgs; eapply renamed_to_sound; [rewrite Hgs; exact Hs|exact Hc]|].
    intros h Hh. by exists v, pend. }
  eapply wp_mono; [apply (rename_spec sb s m st Hv Hu' T E Hr (torn_never Ha)); [rewrite Hgs; apply Hs|done..]|cbv beta|cbv beta].
  - intros a s' [Hc|Hsame]; [left|by right]. split; [done|]. by eapply committed_found.
  - intros e s' Hun. split; [done|]. by eapply undone_found.
Qed.

(** C9. A write of a file stores a prefix of the input, also across a power failure.
    When [write] returns [n], the file has its first [n] bytes at the offset, and is
    otherwise as it was, with its old bytes and zeros; the next mount finds at least
    these [n] bytes.  When it fails, the next mount finds the old file or one with a
    prefix of the input.  Block writes are atomic. *)
Theorem write_prefix_durable (sb : Superblock.t) (gs : list group) (s : fs) m st T E node offset input : (∀ y, ¬ torn y) →
  serves (torn := torn) sb gs s m st T E → is_u64 node → is_u64 offset → bytes_ok input →
  let P := λ n, λ h T' E', E' = E ∧ ∃ k v pend, (n ≤ k ≤ length input)%nat ∧ wrote sb s m st T T' node offset (take k input) v pend ∧ agree sb h v in
  wp (write node offset input)
    (λ n s', n = 0%nat ∧ input = [] ∧ s' = s ∨ first_written sb s m st T node offset input n s' ∧ found_after (torn := torn) sb gs s' (P n))
    (λ _ s', (s' = s ∨ more_lost sb s m st T node offset input 0 m s') ∧ found_after (torn := torn) sb gs s' (λ h T' E', unchanged m T E h T' E' ∨ P 0%nat h T' E')) s.
Proof.
  intros Ha [Hvol Hu Hbits Hgs Hr Hs] [Hn _] [Ho _] Hin P. assert (volume sb (groups s)) as Hv by (by rewrite Hgs).
  assert (∀ k T' v pend, wrote sb s m st T T' node offset (take k input) v pend → sound sb gs T' E (open_handles s) v pend) as Hw.
  { intros k T' v pend (i0 & Hi & Hk & Hb). rewrite <- Hgs. eapply becomes_sound; [rewrite Hgs; exact Hs|exact Hi|exact Hk| |exact Hb].
    eapply overwritten_zero; [apply Hs|exact Hi|exact Hk|exact Ho]. }
  assert (∀ b, agree sb b b) as Hagr by done.
  eapply wp_mono; [apply (write_spec sb s Hv (torn_never Ha) m st T node offset input Hn Ho Hin Hr); rewrite Hgs; apply (so_filesystem _ _ _ _ _ _ _ Hs)|cbv beta|cbv beta].
  - intros n s' [?|Hf]; [by left|right]. split; [exact Hf|].
    destruct Hf as (m1 & st1 & T1 & Hle & Hwr & [[Hr1 (_ & Hg & _ & Hh & _)]|[[Hdec Hhead] (k & T' & v & pend & Hk & Hwr' & Hlost)]]).
    + eapply ready_found; [done..|congruence|exact Hr1|by eapply Hw|]. split; [done|]. exists n, m1, st1. split; [lia|done].
    + eapply lost_found; [done..| |by eapply Hw| |exact Hlost].
      * destruct (Hw _ _ _ _ Hwr) as [Hok [l Hl] _]. rewrite Hgs in Hhead. split; [done|]. exists T1, E, st1, l. split; [|done].
        split; [done|]. exists n, m1, st1. split; [lia|done].
      * intros h Hag. split; [done|]. exists k, v, pend. split; [lia|done].
  - intros e s' He. split; [exact He|]. destruct He as [->|(k & T' & v & pend & Hk & Hwr & Hlost)].
    + eapply ready_found; [done..|]. left. by split_and!.
    + eapply lost_found; [done..| |by eapply Hw| |exact Hlost].
      * eapply ready_held; [done..|]. left. by split_and!.
      * intros h Hag. right. split; [done|]. exists k, v, pend. split; [lia|done].
Qed.

(** C5. What has been done is found again.  Let power fail while a filesystem serves
    the nodes [T] and the entries [E].  The next mount returns a filesystem with the
    same entries, with exactly the nodes that have links, their inodes unchanged, and
    every file reads as before; or it fails, and the volume can be mounted again.  When
    there are no orphans and the free counts are stored it fails only for the device or
    for an exhausted counter.  Block writes are atomic. *)
Theorem mount_finds_what_was_done (sb : Superblock.t) (gs : list group) (s : fs) (d : D) m st T E l : (∀ y, ¬ torn y) →
  serves (torn := torn) sb gs s m st T E → orphans T (FilesystemState.orphan_head st) l → reboots (device s) d → fits sb d →
  match try_mount_read_write d with
  | Ok s' => remounted (torn := torn) sb gs m T E s' ∧ ∀ n i offset output, T n = Some i → Inode.link_count i ≠ 0 →
      Inode.kind i = NodeKind.Regular → 0 ≤ offset → reads_file m i n offset output s'
  | Err (e, d') => survives (torn := torn) sb gs d' ∧ fails_only st l e
  | Abort => False
  end.
Proof.
  intros Ha [Hvol Hu Hbits Hgs Hr Hs] Hl Hre Hfit.
  rewrite <- (with_state_same sb) in Hr, Hs.
  destruct (mounted_again Ha sb gs Hvol Hu Hbits (Superblock.state sb) s d m st T E l Hgs Hr (so_ok _ _ _ _ _ _ _ Hs) Hl Hre Hfit) as [_ Hm].
  destruct (try_mount_read_write d) as [s'|[e d']|]; [|done..]. split; [done|].
  intros n i offset output Hi Hli Hk Ho. by eapply remounted_read.
Qed.

(** C6. Operations keep the filesystem.  From a filesystem that satisfies the
    invariant, any sequence of operations with arguments of their types runs without a
    panic, and ends in one that satisfies the invariant, or stops at a lost commit; in
    both cases with a device that the next mount accepts.  Block writes are atomic. *)
Theorem operations_keep_filesystem (sb : Superblock.t) (gs : list group) (s : fs) m st T E ops : (∀ y, ¬ torn y) →
  serves (torn := torn) sb gs s m st T E → Forall file_op_typed ops →
  panics ops s = false ∧
  (healthy (torn := torn) sb gs (history ops s) ∨ stopped (torn := torn) sb gs (history ops s)) ∧
  survives (torn := torn) sb gs (device (history ops s)).
Proof.
  intros Ha [Hvol Hu Hbits Hgs Hr Hs] Hops. assert (healthy sb gs s) as Hh by (by exists m, st, T, E).
  split; [by apply (history_no_panic sb gs Hvol (torn_never Ha))|].
  split; [by apply (history_healthy sb gs Hvol (torn_never Ha))|].
  destruct (history_stands sb gs Hvol (torn_never Ha) ops s Hh Hops) as (hs & H1 & H2). by eapply stands_for_survives.
Qed.

(** C14. Unmounting marks the volume clean and changes nothing else.  After
    [try_unmount] of a filesystem that has not stopped, the primary and the backup
    superblock on the device are both the encoding of the superblock with the clean
    mark, nothing is left in the device's cache, and the volume holds the same nodes,
    entries and blocks; if it fails, the device has failed and the volume can be mounted
    again.  Block writes are atomic. *)
Theorem unmount_marks_clean (sb : Superblock.t) (gs : list group) (s : fs) m st T E : (∀ y, ¬ torn y) → serves (torn := torn) sb gs s m st T E →
  wp try_unmount
    (λ _ s', superblock s' = with_state Clean sb ∧ ∃ m', settled (device s') m' ∧
       Superblock.encode (with_state Clean sb) = Ok (m' SUPERBLOCK_BLOCK) ∧
       Superblock.encode (with_state Clean sb) = Ok (m' PHASE3_BACKUP_SUPERBLOCK_BLOCK) ∧
       ready (with_state Clean sb) s' m' st ∧
       sound (with_state Clean sb) gs T E (open_handles s') m' st ∧ ∀ b, is_home sb b → m' b = m b)
    (λ e s', device_error e ∧ survives (torn := torn) sb gs (device s')) s.
Proof.
  intros Ha [Hvol Hu Hbits Hgs Hr Hs]. eapply wp_mono; [apply (unmount_spec Ha sb gs Hvol s m st T E Hgs Hr Hs)|cbv beta|done].
  intros _ s' (Hgs' & Hh' & m' & Hr' & Hs' & [Hk1 Hk2] & Hm'). split; [apply (id_superblock _ _ _ _ (wr_idle _ _ _ _ (rd_writable _ _ _ _ Hr')))|].
  exists m'. rewrite Hh'. split; [apply (id_settled _ _ _ _ (wr_idle _ _ _ _ (rd_writable _ _ _ _ Hr')))|]. by split_and!.
Qed.

(** C13. The consistency check accepts every consistent volume.  On a filesystem that
    serves nodes which all have links, [validate_volume] returns and changes nothing,
    or the device fails. *)
Theorem check_accepts_consistent_volumes (sb : Superblock.t) (gs : list group) (s : fs) m st T E : serves (torn := torn) sb gs s m st T E →
  (∀ n i, T n = Some i → Inode.link_count i ≠ 0) →
  wp validate_volume (λ _ s', s' = s) (λ e s', s' = s ∧ device_error e) s.
Proof.
  intros [Hvol Hu Hbits Hgs Hr Hs] Hl. pose proof (wr_idle _ _ _ _ (rd_writable _ _ _ _ Hr)) as Hi.
  eapply wp_mono; [exact (validate_passes sb gs Hvol Hbits s m st Hgs (id_superblock _ _ _ _ Hi) (ready_sees _ _ _ _ Hr) Hu T E
    (so_filesystem _ _ _ _ _ _ _ Hs) (id_state _ _ _ _ Hi) Hl)|cbv beta|done]. by intros _ s' [-> _].
Qed.
End operations.

(** ** Witnesses *)

Lemma create_old_or_new_witness : ∃ s m st T E, serves (torn := λ _, False) demo_sb demo_gs s m st T E ∧
  old_or_new (torn := λ _, False) demo_sb demo_gs s m T E (created demo_sb s m st T E 1 [97] 420 NodeKind.Regular)
    (λ node h T' E', ∃ v pend, created_to demo_sb s m st T E 1 [97] 420 NodeKind.Regular T' E' node v pend ∧ agree demo_sb h v)
    (create_node 1 [97] 420 NodeKind.Regular).
Proof.
  destruct demo_serves as (s & m & st & T & E & Hs & Hd & Ho & Hl). exists s, m, st, T, E. split; [exact Hs|]. clear Hd Ho Hl.
  apply (create_old_or_new demo_sb demo_gs s m st T E 1 [97] 420 NodeKind.Regular never_torn Hs); [done|by repeat constructor|done|done].
Defined.

Lemma remove_old_or_new_witness : ∃ s m st T E, serves (torn := λ _, False) demo_sb demo_gs s m st T E ∧
  old_or_new (torn := λ _, False) demo_sb demo_gs s m T E (removed demo_sb s m st T E 1 [97] false)
    (λ _ h T' E', ∃ v pend, removed_to demo_sb s m st T E 1 [97] false T' E' v pend ∧ agree demo_sb h v) (remove 1 [97] false).
Proof.
  destruct demo_serves as (s & m & st & T & E & Hs & Hd & Ho & Hl). exists s, m, st, T, E. split; [exact Hs|]. clear Hd Ho Hl.
  apply (remove_old_or_new demo_sb demo_gs s m st T E 1 [97] false never_torn Hs); [done|by repeat constructor].
Defined.

Lemma truncate_old_or_new_witness : ∃ s m st T E, serves (torn := λ _, False) demo_sb demo_gs s m st T E ∧
  old_or_new (torn := λ _, False) demo_sb demo_gs s m T E (resized demo_sb s m st T 2 5)
    (λ _ h T' E', E' = E ∧ ∃ v pend i, T 2 = Some i ∧ Inode.kind i = NodeKind.Regular ∧
       file_becomes demo_sb s m st T T' 2 i 5 (truncated m i 5) v pend ∧ agree demo_sb h v) (truncate 2 5).
Proof.
  destruct demo_serves as (s & m & st & T & E & Hs & Hd & Ho & Hl). exists s, m, st, T, E. split; [exact Hs|]. clear Hd Ho Hl.
  apply (truncate_old_or_new demo_sb demo_gs s m st T E 2 5 never_torn Hs); done.
Defined.

Lemma rename_old_or_new_witness : ∃ s m st T E, serves (torn := λ _, False) demo_sb demo_gs s m st T E ∧
  wp (rename 1 [97] 1 [98]) (λ _ _, True) (λ _ s', undone (torn := λ _, False) demo_sb s m (renamed demo_sb s m st T E 1 [97] 1 [98]) s') s.
Proof.
  destruct demo_serves as (s & m & st & T & E & Hs & Hd & Ho & Hl). exists s, m, st, T, E. split; [exact Hs|]. clear Hd Ho Hl.
  eapply wp_mono; [apply (rename_old_or_new demo_sb demo_gs s m st T E 1 [97] 1 [98] never_torn Hs); [done|done|by repeat constructor|by repeat constructor]|done|].
  intros e s' H. apply H.
Defined.

Lemma write_prefix_durable_witness : ∃ s m st T E, serves (torn := λ _, False) demo_sb demo_gs s m st T E ∧
  wp (write 2 0 [1; 2; 3]) (λ n s', first_written (torn := λ _, False) demo_sb s m st T 2 0 [1; 2; 3] n s') (λ _ _, True) s.
Proof.
  destruct demo_serves as (s & m & st & T & E & Hs & Hd & Ho & Hl). exists s, m, st, T, E. split; [exact Hs|]. clear Hd Ho Hl.
  eapply wp_mono; [apply (write_prefix_durable demo_sb demo_gs s m st T E 2 0 [1; 2; 3] never_torn Hs); [done|done|by repeat constructor]|cbv beta|done].
  intros n s' [(_ & [=] & _)|[H _]]. exact H.
Defined.

Lemma mount_finds_what_was_done_witness : ∃ s m st T E, serves (torn := λ _, False) demo_sb demo_gs s m st T E ∧
  match try_mount_read_write demo_disk with
  | Ok s' => remounted (torn := λ _, False) demo_sb demo_gs m T E s'
  | Err (e, d') => fails_only st [] e
  | Abort => False
  end.
Proof.
  destruct demo_serves as (s & m & st & T & E & Hs & Hd & Ho & Hl). exists s, m, st, T, E. split; [exact Hs|].
  pose proof (mount_finds_what_was_done demo_sb demo_gs s demo_disk m st T E [] never_torn Hs Ho) as H. rewrite Hd in H.
  specialize (H demo_reboots demo_fits). destruct (try_mount_read_write demo_disk) as [s'|[e d']|]; [exact (proj1 H)|exact (proj2 H)|exact H].
Defined.

Lemma operations_keep_filesystem_witness : ∃ s, panics [Create 1 [97] 420; Write 2 0 [1; 2; 3]; Unlink 1 [97]] s = false ∧
  survives (torn := λ _, False) demo_sb demo_gs (device (history [Create 1 [97] 420; Write 2 0 [1; 2; 3]; Unlink 1 [97]] s)).
Proof.
  destruct demo_serves as (s & m & st & T & E & Hs & Hd & Ho & Hl). exists s. clear Hd Ho Hl.
  destruct (operations_keep_filesystem demo_sb demo_gs s m st T E [Create 1 [97] 420; Write 2 0 [1; 2; 3]; Unlink 1 [97]] never_torn Hs) as (Hp & _ & Hd);
    [|split; [exact Hp|exact Hd]].
  repeat (apply list.Forall_cons; split); [..|by constructor]; cbn [file_op_typed]; split_and!; try done; unfold bytes_ok; repeat (apply list.Forall_cons; split); done.
Defined.

Lemma unmount_marks_clean_witness : ∃ s, wp try_unmount (λ _ s', superblock s' = with_state Clean demo_sb ∧
    ∃ m', settled (torn := λ _, False) (device s') m' ∧ Superblock.encode (with_state Clean demo_sb) = Ok (m' PHASE3_BACKUP_SUPERBLOCK_BLOCK))
  (λ e s', device_error e ∧ survives (torn := λ _, False) demo_sb demo_gs (device s')) s.
Proof.
  destruct demo_serves as (s & m & st & T & E & Hs & Hd & Ho & Hl). exists s. clear Hd Ho Hl.
  eapply wp_mono; [apply (unmount_marks_clean demo_sb demo_gs s m st T E never_torn Hs)|intros ? s' H|intros e s' H; exact H].
  destruct H as (H & m' & Hd' & _ & Hb & _). split; [exact H|]. exists m'. split; [exact Hd'|exact Hb].
Defined.

Lemma check_accepts_consistent_volumes_witness : ∃ s : Filesystem memory, wp validate_volume (λ _ s', s' = s) (λ e s', s' = s ∧ device_error e) s.
Proof.
  destruct demo_serves as (s & m & st & T & E & Hs & Hd & Ho & Hl). exists s.
  exact (check_accepts_consistent_volumes demo_sb demo_gs s m st T E Hs Hl).
Defined.

(** ** A handle that cannot be closed

    [rename] over an open file and [rmdir] of an open directory free the node, and the
    handle stays in the table: closing it then fails, with the handle still there. *)
Lemma close_of_freed_node_fails {D : Type} {HD : BlockDevice D} {torn : list Z → Prop} {HC : CrashSafe D torn} (sb : Superblock.t) (gs : list group)
    (s : Filesystem D) m st T E i handle : serves (torn := torn) sb gs s m st T E →
  position (λ r, OpenHandle.id r =? OpenHandle.id handle) (open_handles s) = Some i → open_handles s !! i = Some handle →
  0 ≤ OpenHandle.node handle → T (OpenHandle.node handle) = None →
  is_open (swap_remove i (open_handles s)) (OpenHandle.node handle) (OpenHandle.generation handle) = false →
  wp (close_node handle) (λ _ _, False) (λ _ s', open_handles s' ≡ₚ open_handles s) s.
Proof.
  intros [Hvol Hu Hbits Hgs Hr Hs] Hpos Hi Hn Hfree Hno. unfold close_node. wp_step. wp_step. rewrite Hpos. cbn [ok_or]. wp_steps.
  rewrite Hi. cbn [expect]. wp_steps. { bool_simpl. done. } set (s1 := set_handles _ _ s). change (open_handles s1) with (swap_remove i (open_handles s)).
  rewrite Hno. wp_step. wp_step.
  assert (ready sb s1 m st) as Hr1 by (by apply ready_handles).
  eapply wp_mono; [apply (ready_table sb s1 m st Hr1 T (OpenHandle.node handle)); [change (groups s1) with (groups s); rewrite Hgs; apply Hs|done]|cbv beta|cbv beta].
  - intros j s' (_ & Hj & _). congruence.
  - intros e s' ->. wp_steps. change (open_handles (set_handles _ _ s1)) with (push (swap_remove i (open_handles s)) handle).
    etrans; [|symmetry; apply (swap_remove_Permutation i _ handle Hi)]. apply (Permutation_app_comm _ [handle]).
Qed.
